(* ===== verification/_CoqProject ===== *)
-Q . S2P
Prelude.v
StdMap.v
Ranges.v
Types.v
CLib.v
LongDouble.v
Double.v
KeyCodec.v
Validator.v
Storage.v
MemoryEngine.v
Transactions.v
RecordCodec.v
Crc32.v
Wal.v
Skiplist.v
SSTable.v
Manifest.v
MergedReader.v
LsmEngine.v
LsmBackground.v
LsmRecovery.v
LsmDurability.v
Lexer.v
Parser.v
Evaluator.v
UpdateExpression.v
Streams.v
TableManager.v
BloomFilter.v
BlockCache.v
Capacity.v
NumberText.v
Base64.v
Json.v
JsonWriter.v
TableJson.v
Backups.v
Dispatcher.v
Sha256.v
SigV4.v
Api.v
Handlers.v
Queries.v
Reads.v
Writes.v
PartiQL.v
Admin.v
Service.v
IndexSync.v
Consistency.v
Effects.v
Atomicity.v
ReadsExact.v
Restore.v
Replies.v
LockFreeQueue.v
Scheduler.v
Arena.v
Http.v
Concurrency.v
Interleaving.v
IndexManagers.v
Metrics.v
MemoryPools.v
LegacyEngine.v
Startup.v
