(* ===== verification/Prelude.v ===== *)
(** * cynamoDB: a verification development

    cynamoDB is a C++ server with the interface of DynamoDB.  This library models its
    core in Rocq and proves what makes it correct.  File names of the program are
    relative to [src/] of the repository ([src/...] for implementation files,
    [include/cynamodb/...] for headers).

    ** The program and its model

    A request carries items (maps from names to attribute values) in JSON.  It is
    authenticated, parsed, checked by the validator, and reaches a storage engine
    through the key codec; expressions filter and update items; transactions,
    streams, capacity and the table catalogue sit between the requests and the
    engine.  There are two engines behind one interface: one in memory, and a
    log-structured merge engine on disk.

    Foundations
    - [Prelude]: octets, fixed-width integers, [std::expected], automation.
    - [StdMap], [Ranges]: [std::map] as a sorted association list; key ranges.
    - [CLib], [LongDouble], [Double]: the C library functions the program relies on
      (character classes, decimal printing and parsing, [strtod], [strtold],
      ["%.17Lg"]), exactness of integers in [long double] and of dyadic [double]s.
    - [Types]: [core/types.hpp], [core/schema.hpp], [core/sizing.hpp].

    Data path
    - [KeyCodec]: [engine/key_codec.cpp]; [Validator]: [engine/item_validator.cpp].
    - [Storage]: [engine/storage_engine.hpp], the engine interface as a class of
      operations and a class of laws; clients are proved against the laws.
    - [MemoryEngine]: [engine/memory_engine.cpp].
    - [RecordCodec], [Crc32], [Wal], [Skiplist], [SSTable], [Manifest]: the files and
      structures of the disk engine ([engine/lsm/record_codec.cpp], [utils/crc32.hpp],
      [wal.cpp], [skiplist.hpp] and [memtable.cpp], [sstable.cpp], [manifest.cpp]).
    - [MergedReader], [LsmEngine] (Module [Lsm]), [LsmBackground] (Module [LsmSystem]),
      [LsmRecovery], [LsmDurability]: [engine/lsm/lsm_engine.cpp]: the merge behind
      every read, the client operations, the flush and compaction threads, the
      constructor with recovery and the destructor, and the durability argument.
    - [BloomFilter], [BlockCache]: [engine/lsm/bloom_filter.hpp], [block_cache.hpp].

    Requests
    - [Lexer], [Parser], [Evaluator]: condition expressions ([expressions/lexer.cpp],
      [parser.cpp], [evaluator.cpp]); [UpdateExpression]: [update_expression.cpp].
    - [Transactions] (Modules [HLC], [Txn]): [engine/transactions/manager.cpp].
    - [Streams]: [streams/manager.cpp]; [TableManager]: [engine/table_manager.cpp].
    - [Capacity] (Modules [Capacity], [Race]): [engine/capacity/manager.cpp].
    - [NumberText], [Json], [TableJson]: [json/serializer.cpp]: number texts, attribute
      values and items, table definitions; [JsonWriter]: [json/json_writer.cpp].
    - [Dispatcher]: [api/dispatcher.cpp]; [Backups]: [backups/manager.cpp].
    - [Base64], [Sha256], [SigV4]: [utils/base64.hpp], [utils/sha256.hpp],
      [auth/sigv4.cpp].

    The service ([api/handlers.cpp])
    - [Api]: what the handlers share: replies, members of a request, keys, time to
      live, secondary indexes and their maintenance, projections; the record [World] of
      the catalogue, the engine and the streams.
    - [Handlers]: the table operations, PutItem, GetItem, DeleteItem, UpdateItem.
    - [Queries]: the query operation of an engine as a class with its law, and the
      instances of both engines; [Reads]: key conditions, Scan, Query, BatchGetItem,
      TransactGetItems.
    - [Writes]: the cache of client tokens, BatchWriteItem, TransactWriteItems.
    - [PartiQL]: tokenizer, parser and execution of statements.
    - [Admin]: streams, backups, restores, global tables.
    - [Service]: [handle_operation]: parsing of the body, capacity, the switch over the
      operations, and the managers that follow the life of tables.
    - [Http]: [http/server.cpp], the handling of one request with its authentication, and
      the assembly of the server in [context.hpp].
    - [IndexSync], [Consistency], [Effects], [Atomicity], [ReadsExact], [Restore],
      [Replies]: the theorems about the service, proved for every engine that satisfies
      the laws of [Storage] and [Queries].
    - [Concurrency], [Interleaving]: the handlers that write single items, GetItem and the
      phases of a transaction as programs of atomic calls, their interleavings on several
      threads, and the theorems about them.

    Threads and memory
    - [LockFreeQueue]: [core/lock_free_queue.hpp]; [Scheduler]: [core/scheduler.cpp];
      [Arena]: [core/memory.hpp]; [MemoryPools] (Modules [Tracking], [BufferPool]):
      [core/memory_resource.hpp], [utils/buffer_pool.cpp]; [Metrics]:
      [observability/metrics.cpp].

    Around the server
    - [Startup] (Modules [Startup], [Chaos], [PartiQLPrototype]): [main.cpp],
      [utils/chaos_engine.cpp], [expressions/partiql/parser.cpp].
    - [IndexManagers]: [engine/lsm/gsi_manager.cpp], [lsi_manager.cpp],
      [key_manager.hpp]; [LegacyEngine] (Modules [MergingIterator], [Compaction]):
      [merging_iterator.cpp], [compaction_manager.cpp], [compactor.hpp],
      [recovery_manager.cpp].  The server does not call these.

    ** How code becomes definitions

    A definition has the name of the function it translates.  Strings and buffers are
    lists of octets; integers are [Z] with the wrap-around of their width written out
    where the code can reach it; a C++ exception, a null result or [std::nullopt] is
    [None], an error value a constructor of [expected].  State is passed explicitly.
    Code under one lock is one step.  Code that takes the lock several times, or
    none, is a step relation or a step function whose phases interleave: group
    commit ([Wal.gstep]), flush and compaction ([LsmBackground.LsmSystem.sys_step]),
    transactions ([Transactions.Txn.step]), token buckets ([Capacity.Race]), the
    lock-free queue ([LockFreeQueue.Queue.step], one atomic operation per step), the
    scheduler ([Scheduler.Scheduler.step]) and requests on several threads
    ([Interleaving.turn], one call of the engine, catalogue or stream manager).  Clocks,
    random numbers, coin flips, padding octets, the order of unordered maps and the
    failures of system calls are arguments, so a theorem holds for every outcome.

    Loops are structural recursions on the data they consume where the code allows
    it.  Otherwise they carry fuel: the record decoder and log replay (the length of
    the buffer), the readers ([reader_fuel], the number of entries), table drops
    (one round per live row), update expressions and PartiQL statements (the number of
    tokens) and cache eviction (the length of the list).  In each case a lemma shows that the fuel
    is enough, and the theorems give the result itself, not a partial statement.

    ** What the theorems show

    - Storage: the in-memory engine implements the laws of the interface; the skip list
      is a sorted map; an SSTable reads back what was written; the merged reader and
      the scans and queries of the disk engine return exactly the live rows in order.
    - Concurrency of the disk engine: flush and compaction are invisible to clients
      ([LsmSystem.lsm_refines_store]).
    - Durability: a committed log record survives; a torn or damaged log is cut at the
      damage; through crashes and shutdowns at any point nothing acknowledged is
      lost or resurrected ([LsmDurability.crash_recovery]).
    - Keys: storage keys are ordered as DynamoDB orders keys, partitions are
      prefixes.
    - Validation: exactly the items of the specification are accepted, and those
      survive encoding.
    - Expressions: parsing inverts printing, limits are respected, evaluation computes
      the meaning of a condition, comparison operators agree with one another; updates
      read back what they write and touch nothing else; counters are exact.
    - Transactions: serializable, free of deadlock, and exact in their results.
    - Streams, catalogue, cache, Bloom filter, capacity: records are read in order, the
      catalogue survives a restart, a shard is an LRU cache, no false negatives, the
      bound on admitted requests.
    - JSON: numbers have one canonical text per value; items and table definitions
      survive serializing and parsing; the bounded writer is exact; backups survive
      restarts; operation names are recognised exactly.
    - Authentication: the streaming hash is SHA-256, a correctly signed request
      verifies, base64 decodes what it encodes; with authentication required only
      signed requests reach the service.
    - Threads and memory: the ring buffer is a bounded first-in first-out queue under
      every interleaving; the scheduler loses no task and runs none twice (but its
      workers can deadlock, [Scheduler.workers_deadlock]); pieces of the arena and pooled
      buffers do not overlap; the recorded peak of memory and the totals of metrics are
      exact.
    - The service: [Consistency.reachable] is the set of servers a history of requests
      leads to; in each of them the secondary indexes hold exactly the projections of
      the items of their tables ([indexes_follow_tables]).  [Consistency.admissible]
      lists what a request must respect for that: table names without the separator of
      index names, items that fit the engine, updates that keep the key attributes, no
      expired item reaped from a table with indexes, no restore with two items of one
      key, no projection that extends a stored list.  A failed request writes nothing;
      a transaction is all or nothing and is applied once per client token; a read
      returns what was written; a query of a table or an index returns exactly the
      items of the partition; parallel scans divide a page; a cursor resumes where a
      page ended; a backup restores the rows it saw; every PartiQL statement is read
      to an end; every reply has the form clients rely on.
    - Concurrent requests: reads and writes of single items are linearizable: some order
      of them that respects time gives their replies and the tables; the indexes stay exact when no two of the writes address one item
      ([Interleaving.concurrent_writes_keep_indexes]) and need not otherwise.
    - Flaws the model exposed are stated as theorems where they concern a modelled
      function (for example [Evaluator.long_or_chain_ignores_first],
      [Transactions.HLC.clock_stalls], [Streams.Streams.retention_breaks_iterators],
      [Effects.Effects.reaped_item_stays_in_index], [Restore.Restore.backup_truncated]).

    ** Bounds

    Sequence numbers and log generations are unbounded integers; the theorems that
    depend on their width say so ([LsmDurability.limits], [Manifest.wf]).  Values are
    assumed to fit the 32-bit sizes of the log format where they are written to it
    ([LsmRecovery.value_fits]).

    ** Not modelled

    The sockets of the HTTP server and their events, which belong to Boost, a third-party
    library; the aligned memory resource, the trivial arena and the rest of [main], which
    only call the platform; the placeholders of the index managers, which do nothing.  The
    text of JSON is read by simdjson, a third-party library: the parser is an argument of
    [handle_operation], and the handlers start from its documents.  In the theorems about
    the service as a whole requests run one after the other; several at once are covered
    for the operations on single items ([Interleaving]), not for batches, transactions,
    PartiQL and the operations on tables, which take no lock either
    ([Interleaving.transactions_not_isolated]).  Memory orders weaker than sequential
    consistency are not modelled: atomic operations take effect in one order.  Stored
    values are copied, not shared: see [Api.separate_projection].  The shortest decimal
    text of a double ([std::to_chars]) is not modelled. *)

From Stdlib Require Import ZArith Lia Strings.Byte Strings.String.
From stdpp Require Import prelude.

#[global] Open Scope Z_scope.
#[global] Open Scope list_scope.

Declare Scope cyn_scope.
Delimit Scope cyn_scope with cyn.
#[global] Open Scope cyn_scope.

(** ** Byte strings

    [std::string], [std::string_view], [std::pmr::string] and
    [std::vector<uint8_t>] are all lists of octets. *)

Abbreviation byte := Byte.byte.
Abbreviation bytes := (list byte).

(** A string literal of the source as a byte string. *)
Definition lit (s : string) : bytes := list_byte_of_string s.

Arguments lit s%_string.

#[export] Instance byte_eq_decision : EqDecision byte := Byte.byte_eq_dec.

(** The value of an octet (the [unsigned char] view of a [char]). *)
Definition bval (b : byte) : Z := Z.of_N (Byte.to_N b).

(** [static_cast<char>] / [static_cast<uint8_t>]: reduction modulo 256. *)
Definition byte_of (z : Z) : byte :=
  match Byte.of_N (Z.to_N (z mod 256)) with Some b => b | None => Byte.x00 end.

Definition len {A} (l : list A) : Z := Z.of_nat (length l).

(** Machine-width wrap-around. *)
Definition u8 (z : Z) : Z := z mod 2 ^ 8.
Definition u16 (z : Z) : Z := z mod 2 ^ 16.
Definition u32 (z : Z) : Z := z mod 2 ^ 32.
Definition u64 (z : Z) : Z := z mod 2 ^ 64.
Definition size_max : Z := 2 ^ 64 - 1.
Definition u32_max : Z := 2 ^ 32 - 1.

(** ** Results: [std::expected<T, E>] *)

Inductive expected (T E : Type) : Type :=
| Ok (v : T)
| Err (e : E).
Arguments Ok {T E} v.
Arguments Err {T E} e.

Definition expected_bind {A B E} (x : expected A E) (f : A -> expected B E) : expected B E :=
  match x with Ok v => f v | Err e => Err e end.

Notation "'let?' x ':=' e 'in' k" := (expected_bind e (fun x => k))
  (at level 10, x pattern, e at level 100, k at level 200) : cyn_scope.

Definition is_ok {T E} (x : expected T E) : bool := match x with Ok _ => true | Err _ => false end.

(** ** Automation *)

Create HintDb cyn discriminated.
Create Rewrite HintDb cyn_norm.

(** Breaks the innermost scrutinee of a match in the goal or a hypothesis. *)
Ltac break_match :=
  match goal with
  | |- context [match ?x with _ => _ end] =>
      lazymatch x with context [match _ with _ => _ end] => fail | _ => destruct x eqn:? end
  | H : context [match ?x with _ => _ end] |- _ =>
      lazymatch x with context [match _ with _ => _ end] => fail | _ => destruct x eqn:? end
  end.

(** Proves a closed decidable proposition by evaluation. *)
Ltac by_eval := refine (bool_decide_eq_true_1 _ _); vm_compute; reflexivity.

Ltac bool_hyps :=
  repeat match goal with
  | H : (_ && _)%bool = true |- _ => apply andb_prop in H; destruct H
  | H : (_ || _)%bool = false |- _ => apply orb_false_elim in H; destruct H
  | H : negb _ = true |- _ => apply negb_true_iff in H
  | H : negb _ = false |- _ => apply negb_false_iff in H
  | H : (_ <? _) = true |- _ => apply Z.ltb_lt in H
  | H : (_ <? _) = false |- _ => apply Z.ltb_ge in H
  | H : (_ <=? _) = true |- _ => apply Z.leb_le in H
  | H : (_ <=? _) = false |- _ => apply Z.leb_gt in H
  | H : (_ =? _) = true |- _ => apply Z.eqb_eq in H
  | H : (_ =? _) = false |- _ => apply Z.eqb_neq in H
  | H : bool_decide _ = true |- _ => apply bool_decide_eq_true in H
  | H : bool_decide _ = false |- _ => apply bool_decide_eq_false in H
  end.

(** ** Octets *)

Lemma bval_bound b : 0 <= bval b < 256.
Proof. unfold bval. pose proof (Byte.to_N_bounded b). lia. Qed.

Lemma bval_byte_of z : bval (byte_of z) = z mod 256.
Proof.
  unfold bval, byte_of.
  pose proof (Z.mod_pos_bound z 256 ltac:(lia)) as Hz.
  destruct (Byte.of_N (Z.to_N (z mod 256))) as [b|] eqn:E.
  - apply Byte.to_of_N in E. rewrite E. lia.
  - apply Byte.of_N_None_iff in E. lia.
Qed.

Lemma bval_inj a b : bval a = bval b -> a = b.
Proof.
  unfold bval. intros H. apply N2Z.inj in H.
  pose proof (Byte.of_to_N a) as Ha. pose proof (Byte.of_to_N b) as Hb. congruence.
Qed.

Lemma byte_of_bval b : byte_of (bval b) = b.
Proof.
  apply bval_inj. rewrite bval_byte_of. apply Z.mod_small, bval_bound.
Qed.

Lemma byte_of_small z : 0 <= z < 256 -> bval (byte_of z) = z.
Proof. intros. rewrite bval_byte_of. by apply Z.mod_small. Qed.

#[export] Hint Rewrite bval_byte_of byte_of_bval : cyn_norm.

Lemma len_nil {A} : len (@nil A) = 0%Z.
Proof. reflexivity. Qed.

Lemma len_cons {A} (x : A) l : len (x :: l) = 1 + len l.
Proof. unfold len. simpl length. lia. Qed.

Lemma len_app {A} (l1 l2 : list A) : len (l1 ++ l2) = len l1 + len l2.
Proof. unfold len. rewrite length_app. lia. Qed.

Lemma len_nonneg {A} (l : list A) : 0 <= len l.
Proof. unfold len. lia. Qed.

#[export] Hint Rewrite @len_nil @len_cons @len_app : cyn_norm.

(** ** Lexicographic order of byte strings (as [std::string_view::operator<]) *)

Fixpoint bytes_cmp (a b : bytes) : comparison :=
  match a, b with
  | [], [] => Eq
  | [], _ :: _ => Lt
  | _ :: _, [] => Gt
  | x :: a', y :: b' =>
      match Z.compare (bval x) (bval y) with
      | Eq => bytes_cmp a' b'
      | c => c
      end
  end.

Definition bytes_ltb (a b : bytes) : bool :=
  match bytes_cmp a b with Lt => true | _ => false end.
Definition bytes_leb (a b : bytes) : bool :=
  match bytes_cmp a b with Gt => false | _ => true end.
Definition bytes_eqb (a b : bytes) : bool :=
  match bytes_cmp a b with Eq => true | _ => false end.

Lemma bytes_cmp_eq a b : bytes_cmp a b = Eq <-> a = b.
Proof.
  revert b. induction a as [|x a IH]; intros [|y b]; simpl; try (split; congruence).
  destruct (Z.compare_spec (bval x) (bval y)) as [E|E|E].
  - apply bval_inj in E. subst. rewrite IH. split; congruence.
  - split; [congruence|]. intros [= -> ->]. lia.
  - split; [congruence|]. intros [= -> ->]. lia.
Qed.

Lemma bytes_cmp_opp a b : bytes_cmp b a = CompOpp (bytes_cmp a b).
Proof.
  revert b. induction a as [|x a IH]; intros [|y b]; simpl; try reflexivity.
  rewrite (Z.compare_antisym (bval x) (bval y)).
  destruct (Z.compare (bval x) (bval y)); simpl; auto.
Qed.

Lemma bytes_cmp_trans a b c : bytes_cmp a b = Lt -> bytes_cmp b c = Lt -> bytes_cmp a c = Lt.
Proof.
  revert b c. induction a as [|x a IH]; intros [|y b] [|z c]; simpl; try congruence.
  destruct (Z.compare_spec (bval x) (bval y)), (Z.compare_spec (bval y) (bval z));
    intros; try congruence;
    destruct (Z.compare_spec (bval x) (bval z)); try congruence; try lia; eauto.
Qed.

Lemma bytes_cmp_Gt a b : bytes_cmp a b = Gt <-> bytes_cmp b a = Lt.
Proof. rewrite (bytes_cmp_opp a b). destruct (bytes_cmp a b); simpl; split; congruence. Qed.

Lemma bytes_eqb_eq a b : bytes_eqb a b = true <-> a = b.
Proof. unfold bytes_eqb. rewrite <- bytes_cmp_eq. destruct (bytes_cmp a b); split; congruence. Qed.

Lemma bytes_eqb_refl a : bytes_eqb a a = true.
Proof. by apply bytes_eqb_eq. Qed.

Lemma bytes_eqb_neq a b : bytes_eqb a b = false <-> a <> b.
Proof. rewrite <- bytes_eqb_eq. destruct (bytes_eqb a b); split; congruence. Qed.

Lemma bytes_eqb_spec a b : reflect (a = b) (bytes_eqb a b).
Proof. destruct (bytes_eqb a b) eqn:E; constructor; [by apply bytes_eqb_eq|by apply bytes_eqb_neq]. Qed.

Lemma bytes_cmp_refl a : bytes_cmp a a = Eq.
Proof. by apply bytes_cmp_eq. Qed.

#[export] Hint Rewrite bytes_cmp_refl bytes_eqb_refl : cyn_norm.
#[export] Hint Resolve bytes_cmp_trans bval_bound len_nonneg : cyn.

(** Comparison of concatenations with a common prefix. *)
Lemma bytes_cmp_app p a b : bytes_cmp (p ++ a) (p ++ b) = bytes_cmp a b.
Proof. induction p as [|x p IH]; simpl; [done|]. by rewrite Z.compare_refl. Qed.

(** [std::string::starts_with]. *)
Fixpoint starts_with (s p : bytes) {struct p} : bool :=
  match p, s with
  | [], _ => true
  | _ :: _, [] => false
  | y :: p', x :: s' => bool_decide (x = y) && starts_with s' p'
  end.

Lemma starts_with_spec s p : starts_with s p = true <-> exists r, s = p ++ r.
Proof.
  revert s. induction p as [|y p IH]; intros s; simpl.
  - split; [intros _; by exists s|reflexivity].
  - destruct s as [|x s]; [split; [done|intros [r [=]]]|].
    rewrite andb_true_iff, bool_decide_eq_true, IH. split.
    + intros [-> [r ->]]. by exists r.
    + intros [r [= -> ->]]. eauto.
Qed.

(** ** Little-endian scalars ([memcpy] of a [uint32_t]/[uint64_t] on the target) *)

Fixpoint le_bytes (n : nat) (v : Z) : bytes :=
  match n with
  | O => []
  | S n' => byte_of v :: le_bytes n' (v / 256)
  end.

Fixpoint le_value (l : bytes) : Z :=
  match l with
  | [] => 0
  | b :: l' => bval b + 256 * le_value l'
  end.

Lemma le_bytes_length n v : length (le_bytes n v) = n.
Proof. revert v. induction n; simpl; auto. Qed.

Lemma le_value_bytes n v : le_value (le_bytes n v) = v mod 256 ^ Z.of_nat n.
Proof.
  revert v. induction n as [|n IH]; intros v.
  - simpl. by rewrite Z.mod_1_r.
  - cbn [le_bytes le_value]. rewrite IH, bval_byte_of.
    replace (Z.of_nat (S n)) with (1 + Z.of_nat n) by lia.
    rewrite Z.pow_add_r, Z.pow_1_r by lia.
    rewrite Z.rem_mul_r by lia. lia.
Qed.

Lemma le_value_bound l : 0 <= le_value l < 256 ^ len l.
Proof.
  induction l as [|b l IH]; [unfold len; cbn; lia|].
  rewrite len_cons. cbn [le_value]. pose proof (bval_bound b). pose proof (len_nonneg l).
  rewrite Z.pow_add_r, Z.pow_1_r by lia. lia.
Qed.

Lemma le_bytes_value l : le_bytes (length l) (le_value l) = l.
Proof.
  induction l as [|b l IH]; [done|]. cbn [le_bytes le_value length].
  pose proof (bval_bound b). f_equal.
  - apply bval_inj. rewrite bval_byte_of. rewrite Z.mul_comm, Z_mod_plus_full. by apply Z.mod_small.
  - replace ((bval b + 256 * le_value l) / 256) with (le_value l); [done|].
    rewrite (Z.mul_comm 256), Z.div_add by lia. rewrite Z.div_small by lia. lia.
Qed.

(** Scalar reads from the front of a buffer: value and rest, or failure when
    the buffer is too short. *)
Definition read_le (n : nat) (d : bytes) : option (Z * bytes) :=
  if (n <=? length d)%nat then Some (le_value (take n d), drop n d) else None.

Lemma read_le_app n v r :
  0 <= v < 256 ^ Z.of_nat n -> read_le n (le_bytes n v ++ r) = Some (v, r).
Proof.
  intros Hv. unfold read_le.
  destruct (Nat.leb_spec n (length (le_bytes n v ++ r))) as [_|H].
  - rewrite take_app_length' by (symmetry; apply le_bytes_length).
    rewrite drop_app_length' by (symmetry; apply le_bytes_length).
    rewrite le_value_bytes, Z.mod_small by lia. done.
  - rewrite length_app, le_bytes_length in H. lia.
Qed.

Lemma read_le_Some n d v r :
  read_le n d = Some (v, r) -> d = le_bytes n v ++ r /\ 0 <= v < 256 ^ Z.of_nat n.
Proof.
  unfold read_le. destruct (Nat.leb_spec n (length d)) as [H|H]; [|done].
  intros [= <- <-].
  assert (length (take n d) = n) as E by (rewrite length_take; lia).
  pose proof (le_value_bound (take n d)) as B. unfold len in B. rewrite E in B.
  split; [|done].
  rewrite <- E at 1. rewrite le_bytes_value. by rewrite take_drop.
Qed.

(** Reading [n] raw octets. *)
Definition read_n (n : Z) (d : bytes) : option (bytes * bytes) :=
  if n <=? len d then Some (take (Z.to_nat n) d, drop (Z.to_nat n) d) else None.

Lemma read_n_app s r : read_n (len s) (s ++ r) = Some (s, r).
Proof.
  unfold read_n. rewrite len_app. pose proof (len_nonneg r).
  destruct (Z.leb_spec (len s) (len s + len r)); [|lia].
  unfold len. rewrite Nat2Z.id.
  by rewrite take_app_length, drop_app_length.
Qed.

(** ** Prefix ranges *)

Lemma starts_with_app p r : starts_with (p ++ r) p = true.
Proof. apply starts_with_spec. eauto. Qed.

Lemma bytes_leb_cmp a b : bytes_leb a b = true <-> bytes_cmp a b <> Gt.
Proof. unfold bytes_leb. destruct (bytes_cmp a b); split; congruence. Qed.

Lemma starts_with_leb k p : starts_with k p = true -> bytes_leb p k = true.
Proof.
  intros [r ->]%starts_with_spec. apply bytes_leb_cmp. rewrite <- (app_nil_r p) at 1.
  rewrite bytes_cmp_app. by destruct r.
Qed.

(** The keys with a given prefix are convex. *)
Lemma starts_with_convex p k1 k2 :
  bytes_leb p k1 = true -> bytes_leb k1 k2 = true -> starts_with k2 p = true -> starts_with k1 p = true.
Proof.
  rewrite !bytes_leb_cmp. revert k1 k2. induction p as [|b p IH]; intros k1 k2; [done|].
  destruct k1 as [|x k1]; simpl; [done|]. destruct k2 as [|y k2]; [done|].
  intros H1 H2. case_bool_decide as Hy; [subst y; simpl|done].
  intros Hk2. destruct (Z.compare_spec (bval b) (bval x)) as [E|E|E].
  - apply bval_inj in E. subst x. rewrite bool_decide_eq_true_2 by done. rewrite Z.compare_refl in H2.
    simpl. by eapply IH.
  - simpl in H2. destruct (Z.compare_spec (bval x) (bval b)); [lia|lia|done].
  - done.
Qed.

(** [std::optional<std::string> prefix_successor(std::string)]: the least string
    above every string with the prefix; the loop runs from the last octet. *)
Fixpoint succ_rev (rev_prefix : bytes) : option bytes :=
  match rev_prefix with
  | [] => None
  | b :: r => if bval b =? 255 then succ_rev r else Some (byte_of (bval b + 1) :: r)
  end.

Lemma succ_rev_spec p :
  match succ_rev (rev p) with
  | None => Forall (fun b => bval b = 255) p
  | Some r => exists q b s, p = q ++ b :: s /\ bval b < 255 /\ Forall (fun c => bval c = 255) s /\
                rev r = q ++ [byte_of (bval b + 1)]
  end.
Proof.
  induction p as [|c p IH] using rev_ind; simpl; [constructor|].
  rewrite rev_app_distr. simpl. pose proof (bval_bound c).
  destruct (Z.eqb_spec (bval c) 255) as [E|E].
  - destruct (succ_rev (rev p)) as [r|].
    + destruct IH as (q & b & s & -> & ? & ? & ?). exists q, b, (s ++ [c]).
      rewrite <- app_assoc. repeat split; auto. apply Forall_app. auto.
    + apply Forall_app. auto.
  - exists p, c, []. repeat split; auto; [lia|]. simpl. by rewrite rev_involutive.
Qed.

Lemma all_ff_prefix p k : Forall (fun b => bval b = 255) p -> bytes_leb p k = true -> starts_with k p = true.
Proof.
  intros Hp. revert k. induction Hp as [|b p Hb Hp IH]; intros [|x k]; try done.
  rewrite bytes_leb_cmp. simpl. pose proof (bval_bound x).
  destruct (Z.compare_spec (bval b) (bval x)) as [E|E|E]; intros Hc; [|lia|done].
  apply bval_inj in E. subst. rewrite bool_decide_eq_true_2 by done. simpl. apply IH. by apply bytes_leb_cmp.
Qed.

(** Below the successor and not below the prefix means: has the prefix. *)
Lemma below_succ q b s k :
  bval b < 255 -> Forall (fun c => bval c = 255) s ->
  bytes_leb (q ++ b :: s) k = true -> bytes_ltb k (q ++ [byte_of (bval b + 1)]) = true ->
  starts_with k (q ++ b :: s) = true.
Proof.
  intros Hb Hs. rewrite bytes_leb_cmp. unfold bytes_ltb. revert k. induction q as [|c q IH]; intros k.
  - pose proof (bval_bound b). destruct k as [|x k]; [done|]. cbn [app bytes_cmp].
    rewrite byte_of_small by lia.
    destruct (Z.compare_spec (bval b) (bval x)) as [E|E|E]; [| |done].
    + apply bval_inj in E. subst x. intros Hc _. simpl. rewrite bool_decide_eq_true_2 by done. simpl.
      apply all_ff_prefix; [done|]. by apply bytes_leb_cmp.
    + intros _. destruct (Z.compare_spec (bval x) (bval b + 1)); [by destruct k|lia|done].
  - destruct k as [|x k]; [done|]. cbn [app bytes_cmp].
    destruct (Z.compare_spec (bval c) (bval x)) as [E|E|E]; [| |done].
    + apply bval_inj in E. subst x. rewrite Z.compare_refl. intros H1 H2. simpl.
      rewrite bool_decide_eq_true_2 by done. simpl. by apply IH.
    + destruct (Z.compare_spec (bval x) (bval c)); [lia|lia|done].
Qed.

Lemma prefix_below_succ q b s k :
  bval b < 255 -> starts_with k (q ++ b :: s) = true -> bytes_ltb k (q ++ [byte_of (bval b + 1)]) = true.
Proof.
  intros Hb [r ->]%starts_with_spec. unfold bytes_ltb. rewrite <- app_assoc, bytes_cmp_app.
  pose proof (bval_bound b). cbn [app bytes_cmp]. rewrite byte_of_small by lia.
  destruct (Z.compare_spec (bval b) (bval b + 1)); lia || done.
Qed.

(** Boolean and logical quantification over a list. *)
Lemma forallb_iff {A} (f : A -> bool) l : forallb f l = true <-> Forall (fun x => f x = true) l.
Proof. rewrite forallb_forall, Forall_forall. split; intros H x Hx; apply H; by apply list_elem_of_In. Qed.

(** ** Bit fields *)

(** A number above a field and the field, put together. *)
Lemma lor_field x y k : 0 <= k -> 0 <= y < 2 ^ k -> Z.lor (x * 2 ^ k) y = x * 2 ^ k + y.
Proof.
  intros Hk Hy. assert (Hd : Z.land (x * 2 ^ k) y = 0).
  { rewrite <- (Z.mod_small y (2 ^ k)) by done. rewrite <- (Z.land_ones y), (Z.land_comm y), Z.land_assoc, Z.land_ones, Z.mod_mul by (done || apply Z.pow_nonzero; lia). done. }
  pose proof (Z.add_lor_land (x * 2 ^ k) y). lia.
Qed.

Lemma shiftl_mul x k : 0 <= k -> Z.shiftl x k = x * 2 ^ k.
Proof. intros. by rewrite Z.shiftl_mul_pow2. Qed.

Lemma shiftr_div x k : 0 <= k -> Z.shiftr x k = x / 2 ^ k.
Proof. intros. by rewrite Z.shiftr_div_pow2. Qed.

Lemma land_low x k : 0 <= k -> Z.land x (2 ^ k - 1) = x mod 2 ^ k.
Proof. intros. rewrite <- Z.land_ones by done. f_equal. rewrite Z.ones_equiv. lia. Qed.

(** [lia] with quotients and remainders by constants. *)
Ltac zlia := Z.div_mod_to_equations; lia.
