(* ===== verification/StdMap.v ===== *)
(** * Ordered maps

    [std::map<K, V, Less>]: a strictly sorted association list.  Iteration order
    is observable in the program (scans, codecs, the manifest), so the order is
    part of the value.  The interface a key type has to provide is the class
    [KeyOrder]; its instances are byte strings under [StringViewLess] and the
    unsigned integers. *)

From Stdlib Require Import ZArith Lia.
From stdpp Require Import prelude sorting.
From S2P Require Import Prelude.

(** What a comparator promises to the containers built on it. *)
Class KeyOrder (K : Type) := {
  kcmp : K -> K -> comparison;
  kcmp_eq : forall a b, kcmp a b = Eq <-> a = b;
  kcmp_opp : forall a b, kcmp b a = CompOpp (kcmp a b);
  kcmp_trans : forall a b c, kcmp a b = Lt -> kcmp b c = Lt -> kcmp a c = Lt
}.

#[export] Instance bytes_key_order : KeyOrder bytes := {
  kcmp := bytes_cmp;
  kcmp_eq := bytes_cmp_eq;
  kcmp_opp := bytes_cmp_opp;
  kcmp_trans := bytes_cmp_trans
}.

Lemma Zcmp_eq (a b : Z) : Z.compare a b = Eq <-> a = b.
Proof. apply Z.compare_eq_iff. Qed.
Lemma Zcmp_opp (a b : Z) : Z.compare b a = CompOpp (Z.compare a b).
Proof. apply Z.compare_antisym. Qed.
Lemma Zcmp_trans (a b c : Z) : Z.compare a b = Lt -> Z.compare b c = Lt -> Z.compare a c = Lt.
Proof. rewrite !Z.compare_lt_iff. lia. Qed.

#[export] Instance Z_key_order : KeyOrder Z := {
  kcmp := Z.compare;
  kcmp_eq := Zcmp_eq;
  kcmp_opp := Zcmp_opp;
  kcmp_trans := Zcmp_trans
}.

Section Map.
Context {K : Type} {KO : KeyOrder K} {V : Type}.
Implicit Types (k : K) (v : V) (m : list (K * V)).

Definition keqb k k' : bool := match kcmp k k' with Eq => true | _ => false end.

(** [map::find] (or [map::contains] through [is_Some]). *)
Fixpoint mget k m : option V :=
  match m with
  | [] => None
  | (k', v) :: m' => match kcmp k k' with Eq => Some v | _ => mget k m' end
  end.

(** [map::operator[] = v] / [insert_or_assign]. *)
Fixpoint mset k v m : list (K * V) :=
  match m with
  | [] => [(k, v)]
  | (k', v') :: m' =>
      match kcmp k k' with
      | Lt => (k, v) :: (k', v') :: m'
      | Eq => (k, v) :: m'
      | Gt => (k', v') :: mset k v m'
      end
  end.

(** [map::erase(key)]. *)
Fixpoint mdel k m : list (K * V) :=
  match m with
  | [] => []
  | (k', v') :: m' => match kcmp k k' with Eq => mdel k m' | _ => (k', v') :: mdel k m' end
  end.

(** [map::emplace]: keeps an existing entry. *)
Definition memplace k v m : list (K * V) :=
  match mget k m with Some _ => m | None => mset k v m end.

(** The suffixes that start at [lower_bound] / [upper_bound]. *)
Fixpoint mlower k m : list (K * V) :=
  match m with
  | [] => []
  | (k', v') :: m' => match kcmp k' k with Lt => mlower k m' | _ => m end
  end.

Fixpoint mupper k m : list (K * V) :=
  match m with
  | [] => []
  | (k', v') :: m' => match kcmp k' k with Gt => m | _ => mupper k m' end
  end.

(** The prefixes that end before [lower_bound]. *)
Fixpoint mbefore k m : list (K * V) :=
  match m with
  | [] => []
  | (k', v') :: m' => match kcmp k' k with Lt => (k', v') :: mbefore k m' | _ => [] end
  end.

Definition mkeys m : list K := map fst m.

(** Every key of the map is above [k]. *)
Definition above k m : Prop := Forall (fun e => kcmp k e.1 = Lt) m.

Inductive msorted : list (K * V) -> Prop :=
| msorted_nil : msorted []
| msorted_cons k v m : above k m -> msorted m -> msorted ((k, v) :: m).

Fixpoint msortedb m : bool :=
  match m with
  | [] => true
  | (k, v) :: m' =>
      match m' with [] => true | (k', _) :: _ => match kcmp k k' with Lt => true | _ => false end end
      && msortedb m'
  end.

Lemma kcmp_refl k : kcmp k k = Eq.
Proof. by apply kcmp_eq. Qed.

Lemma kcmp_Gt_Lt a b : kcmp a b = Gt <-> kcmp b a = Lt.
Proof. rewrite (kcmp_opp a b). destruct (kcmp a b); simpl; split; congruence. Qed.

Lemma kcmp_Lt_irrefl k : kcmp k k <> Lt.
Proof. rewrite kcmp_refl. congruence. Qed.

(** Case analysis on a comparison, with equal keys identified. *)
Variant kcmp_view a b : comparison -> Set :=
| kview_eq : a = b -> kcmp_view a b Eq
| kview_lt : kcmp a b = Lt -> kcmp b a = Gt -> a <> b -> kcmp_view a b Lt
| kview_gt : kcmp b a = Lt -> kcmp a b = Gt -> a <> b -> kcmp_view a b Gt.

Lemma kcmp_spec a b : kcmp_view a b (kcmp a b).
Proof.
  destruct (kcmp a b) eqn:E; constructor; auto.
  - by apply kcmp_eq.
  - by apply kcmp_Gt_Lt.
  - intros ->. by rewrite kcmp_refl in E.
  - by apply kcmp_Gt_Lt.
  - intros ->. by rewrite kcmp_refl in E.
Qed.

Lemma keqb_spec a b : reflect (a = b) (keqb a b).
Proof. unfold keqb. destruct (kcmp_spec a b); constructor; done. Qed.

Lemma keqb_refl k : keqb k k = true.
Proof. unfold keqb. by rewrite kcmp_refl. Qed.

Lemma mget_mset k k' v m : mget k' (mset k v m) = if keqb k' k then Some v else mget k' m.
Proof.
  unfold keqb. induction m as [|[k1 v1] m IH]; simpl; [by destruct (kcmp k' k)|].
  destruct (kcmp_spec k k1); simpl.
  - subst. by destruct (kcmp k' k1).
  - by destruct (kcmp k' k).
  - rewrite IH. destruct (kcmp_spec k' k1); try done. subst.
    destruct (kcmp_spec k1 k); congruence.
Qed.

Lemma mget_mset_eq k v m : mget k (mset k v m) = Some v.
Proof. by rewrite mget_mset, keqb_refl. Qed.

Lemma mget_mset_ne k k' v m : k' <> k -> mget k' (mset k v m) = mget k' m.
Proof. intros. rewrite mget_mset. by destruct (keqb_spec k' k). Qed.

Lemma mget_mdel k k' m : mget k' (mdel k m) = if keqb k' k then None else mget k' m.
Proof.
  unfold keqb. induction m as [|[k1 v1] m IH]; simpl; [by destruct (kcmp k' k)|].
  destruct (kcmp_spec k k1); simpl; rewrite ?IH.
  - subst. by destruct (kcmp k' k1).
  - destruct (kcmp_spec k' k1); try done. subst. destruct (kcmp_spec k1 k); congruence.
  - destruct (kcmp_spec k' k1); try done. subst. destruct (kcmp_spec k1 k); congruence.
Qed.

Lemma mget_mdel_eq k m : mget k (mdel k m) = None.
Proof. by rewrite mget_mdel, keqb_refl. Qed.

Lemma mget_mdel_ne k k' m : k' <> k -> mget k' (mdel k m) = mget k' m.
Proof. intros. rewrite mget_mdel. by destruct (keqb_spec k' k). Qed.

Lemma above_trans a b m : kcmp a b = Lt -> above b m -> above a m.
Proof. intros Hab H. eapply Forall_impl; [exact H|]. intros e. simpl. by apply kcmp_trans. Qed.

Lemma above_mset k k' v m : kcmp k k' = Lt -> above k m -> above k (mset k' v m).
Proof.
  intros Hk. unfold above. induction 1 as [|[k1 v1] m H1 Hm IH]; simpl; [by repeat constructor|].
  destruct (kcmp_spec k' k1); subst; repeat constructor; auto.
Qed.

Lemma above_mdel k k' m : above k m -> above k (mdel k' m).
Proof.
  unfold above. induction 1 as [|[k1 v1] m H1 Hm IH]; simpl; [constructor|].
  destruct (kcmp k' k1); auto; by constructor.
Qed.

Lemma msorted_mset k v m : msorted m -> msorted (mset k v m).
Proof.
  induction 1 as [|k1 v1 m Ha Hm IH]; simpl; [by repeat constructor|].
  destruct (kcmp_spec k k1); subst; constructor; auto.
  - constructor; [done|]. by eapply above_trans.
  - by constructor.
  - by apply above_mset.
Qed.

Lemma msorted_mdel k m : msorted m -> msorted (mdel k m).
Proof.
  induction 1 as [|k1 v1 m Ha Hm IH]; simpl; [constructor|].
  destruct (kcmp k k1); auto; constructor; auto using above_mdel.
Qed.

Lemma mget_above k m : above k m -> mget k m = None.
Proof.
  unfold above. induction 1 as [|[k1 v1] m H1 Hm IH]; simpl in *; [done|]. by rewrite H1.
Qed.

Lemma mget_above_lt k k' m : above k m -> kcmp k' k = Lt -> mget k' m = None.
Proof. intros. apply mget_above. by eapply above_trans. Qed.

Lemma mget_In k v m : msorted m -> In (k, v) m <-> mget k m = Some v.
Proof.
  induction 1 as [|k1 v1 m Ha Hm IH]; simpl; [done|].
  rewrite IH. clear IH. destruct (kcmp_spec k k1); subst.
  - rewrite (mget_above k1) by done. split; [intros [[= ->]|]; congruence|intros [= ->]; auto].
  - split; [intros [[= -> ->]|]; [congruence|done]|auto].
  - split; [intros [[= -> ->]|]; [congruence|done]|auto].
Qed.

Lemma mget_Some_In k v m : mget k m = Some v -> In (k, v) m.
Proof.
  induction m as [|[k1 v1] m IH]; simpl; [done|].
  destruct (kcmp_spec k k1); [intros [= ->]; left; congruence|auto|auto].
Qed.

Lemma mget_cons k k1 v1 m : mget k ((k1, v1) :: m) = if keqb k k1 then Some v1 else mget k m.
Proof. simpl. unfold keqb. by destruct (kcmp k k1). Qed.

Lemma Forall_mset_rows (P : K * V -> Prop) k v m : P (k, v) -> Forall P m -> Forall P (mset k v m).
Proof.
  intros Hv Hm. induction Hm as [|[k1 v1] m H1 Hm IH]; simpl; [by constructor|].
  destruct (kcmp k k1); repeat constructor; auto.
Qed.

Lemma Forall_mdel_rows (P : K * V -> Prop) k m : Forall P m -> Forall P (mdel k m).
Proof.
  induction 1 as [|[k1 v1] m H1 Hm IH]; simpl; [constructor|]. destruct (kcmp k k1); auto.
Qed.

Lemma Forall_mset (P : V -> Prop) k v m :
  P v -> Forall (fun e => P e.2) m -> Forall (fun e => P e.2) (mset k v m).
Proof.
  intros Hv. induction 1 as [|[k1 v1] m H1 Hm IH]; simpl; [by repeat constructor|].
  destruct (kcmp k k1); repeat constructor; auto.
Qed.

Lemma Forall_mdel (P : V -> Prop) k m : Forall (fun e => P e.2) m -> Forall (fun e => P e.2) (mdel k m).
Proof.
  induction 1 as [|[k1 v1] m H1 Hm IH]; simpl; [constructor|]. destruct (kcmp k k1); auto; by constructor.
Qed.

(** A sorted map is determined by its lookups. *)
Lemma msorted_ext m1 m2 : msorted m1 -> msorted m2 -> (forall k, mget k m1 = mget k m2) -> m1 = m2.
Proof.
  intros H1. revert m2. induction H1 as [|k1 v1 m1 Ha1 H1 IH]; intros m2 H2 Hext.
  - destruct H2 as [|k2 v2 m2 Ha2 H2]; [done|]. specialize (Hext k2). simpl in Hext.
    by rewrite kcmp_refl in Hext.
  - destruct H2 as [|k2 v2 m2 Ha2 H2].
    { specialize (Hext k1). simpl in Hext. by rewrite kcmp_refl in Hext. }
    assert (k1 = k2 /\ v1 = v2) as [-> ->].
    { pose proof (Hext k1) as E1. pose proof (Hext k2) as E2. simpl in E1, E2.
      rewrite kcmp_refl in E1, E2. destruct (kcmp_spec k1 k2); subst.
      - split; congruence.
      - rewrite (mget_above_lt k2 k1) in E1 by done. done.
      - destruct (kcmp_spec k2 k1); try congruence.
        rewrite (mget_above_lt k1 k2) in E2 by done. done. }
    f_equal. apply IH; [done|]. intros k. specialize (Hext k). simpl in Hext.
    destruct (kcmp_spec k k2); [|done|done]. subst. by rewrite !mget_above.
Qed.

Lemma msorted_nodup (m : list (K * V)) : msorted m -> NoDup (map fst m).
Proof.
  induction 1 as [|k v m Ha Hm IH]; [constructor|]. cbn [map fst]. constructor; [|done].
  intros (e & -> & He)%list_elem_of_fmap. unfold above in Ha. rewrite Forall_forall in Ha. apply Ha in He. by apply kcmp_Lt_irrefl in He.
Qed.

Lemma mset_mdel k v m : msorted m -> mset k v (mdel k m) = mset k v m.
Proof.
  intros Hm. apply msorted_ext; [by apply msorted_mset, msorted_mdel|by apply msorted_mset|].
  intros k'. rewrite !mget_mset, mget_mdel. by destruct (keqb k' k).
Qed.

Lemma mset_mset_eq k v v' m : msorted m -> mset k v (mset k v' m) = mset k v m.
Proof.
  intros. apply msorted_ext; auto using msorted_mset. intros k'. rewrite !mget_mset.
  by destruct (keqb k' k).
Qed.

Lemma mset_get_id k v m : msorted m -> mget k m = Some v -> mset k v m = m.
Proof.
  intros Hm Hk. apply msorted_ext; auto using msorted_mset. intros k'. rewrite mget_mset.
  destruct (keqb_spec k' k); congruence.
Qed.

Lemma mdel_none k m : mget k m = None -> mdel k m = m.
Proof.
  induction m as [|[k1 v1] m IH]; simpl; [done|]. destruct (kcmp k k1); [done| |]; intros; f_equal; auto.
Qed.

(** Inserting above every key appends. *)
Lemma mset_last k v m : Forall (fun e => kcmp e.1 k = Lt) m -> mset k v m = m ++ [(k, v)].
Proof.
  induction 1 as [|[k1 v1] m H1 Hm IH]; simpl in *; [done|].
  destruct (kcmp_spec k k1); subst; try congruence.
  by apply kcmp_Lt_irrefl in H1.
Qed.

(** Assignment in the middle of a sorted map: replaces the entry or inserts one. *)
Lemma mset_middle k v m1 m2 :
  Forall (fun e => kcmp e.1 k = Lt) m1 -> above k m2 -> mset k v (m1 ++ m2) = m1 ++ (k, v) :: m2.
Proof.
  intros H1 H2. induction H1 as [|[k1 v1] m1 Hk Hm IH]; simpl in *.
  - destruct m2 as [|[k2 v2] m2]; [done|]. unfold above in H2. apply Forall_cons in H2 as [H2 _]. simpl in *. by rewrite H2.
  - destruct (kcmp_spec k k1); subst; [by apply kcmp_Lt_irrefl in Hk|congruence|]. by rewrite IH.
Qed.

Lemma mset_replace k v v0 m1 m2 :
  Forall (fun e => kcmp e.1 k = Lt) m1 -> mset k v (m1 ++ (k, v0) :: m2) = m1 ++ (k, v) :: m2.
Proof.
  intros H1. induction H1 as [|[k1 v1] m1 Hk Hm IH]; simpl in *; [by rewrite kcmp_refl|].
  destruct (kcmp_spec k k1); subst; [by apply kcmp_Lt_irrefl in Hk|congruence|]. by rewrite IH.
Qed.

Lemma msorted_app m1 m2 :
  msorted (m1 ++ m2) <-> msorted m1 /\ msorted m2 /\ Forall (fun e => above e.1 m2) m1.
Proof.
  unfold above. induction m1 as [|[k1 v1] m1 IH]; simpl.
  - split; [intros H; repeat split; [constructor|done|constructor]|tauto].
  - split.
    + intros H. inv H. apply IH in H4 as (? & ? & ?). unfold above in *.
      apply Forall_app in H2 as [? ?]. repeat split; [by constructor|done|by constructor].
    + intros (H & ? & Hf). inv H. inv Hf. constructor; [|tauto]. by apply Forall_app.
Qed.

Lemma msorted_cons_inv k v m : msorted ((k, v) :: m) -> above k m /\ msorted m.
Proof. intros H. by inv H. Qed.

Lemma msortedb_sound m : msortedb m = true <-> msorted m.
Proof.
  induction m as [|[k v] m IH]; simpl; [split; [constructor|done]|].
  rewrite andb_true_iff, IH. split.
  - intros [H Hm]. constructor; [|done]. destruct Hm as [|k' v' m Ha Hm]; [constructor|].
    destruct (kcmp k k') eqn:E; try done. constructor; [done|]. by eapply above_trans.
  - intros [Ha Hm]%msorted_cons_inv. split; [|done]. destruct m as [|[k' v'] m]; [done|].
    apply Forall_cons in Ha as [Ha _]. simpl in Ha. by rewrite Ha.
Qed.

#[export] Instance msorted_dec m : Decision (msorted m).
Proof.
  refine (cast_if (decide (msortedb m = true))); by rewrite <- msortedb_sound.
Defined.

(** [lower_bound] splits the map at the key. *)
Lemma mlower_split k m : mbefore k m ++ mlower k m = m.
Proof. induction m as [|[k1 v1] m IH]; simpl; [done|]. destruct (kcmp k1 k); simpl; congruence. Qed.

Lemma mlower_In k m e : msorted m -> In e (mlower k m) <-> In e m /\ kcmp e.1 k <> Lt.
Proof.
  induction 1 as [|k1 v1 m Ha Hm IH]; simpl; [tauto|].
  destruct (kcmp k1 k) eqn:E; simpl.
  - split; [|tauto]. intros [<-|Hin]; [simpl; split; [auto|congruence]|]. split; [auto|].
    apply kcmp_eq in E. subst. unfold above in Ha. rewrite Forall_forall in Ha.
    apply list_elem_of_In, Ha, kcmp_Gt_Lt in Hin. congruence.
  - rewrite IH. split; [tauto|]. intros [[<-|?] ?]; simpl in *; [congruence|tauto].
  - split; [|tauto]. intros [<-|Hin]; [simpl; split; [auto|congruence]|]. split; [auto|].
    unfold above in Ha. rewrite Forall_forall in Ha. apply list_elem_of_In, Ha in Hin.
    intros Hlt. pose proof (kcmp_trans _ _ _ Hin Hlt). congruence.
Qed.

Lemma mupper_In k m e : msorted m -> In e (mupper k m) <-> In e m /\ kcmp k e.1 = Lt.
Proof.
  induction 1 as [|k1 v1 m Ha Hm IH]; simpl; [tauto|].
  destruct (kcmp k1 k) eqn:E; simpl.
  - rewrite IH. split; [tauto|]. intros [[<-|?] Hlt]; simpl in *; [|tauto].
    apply kcmp_eq in E. subst. by apply kcmp_Lt_irrefl in Hlt.
  - rewrite IH. split; [tauto|]. intros [[<-|?] Hlt]; simpl in *; [|tauto].
    apply kcmp_Gt_Lt in Hlt. congruence.
  - split; [|tauto]. apply kcmp_Gt_Lt in E.
    intros [<-|Hin]; [simpl; split; auto|]. split; [auto|].
    unfold above in Ha. rewrite Forall_forall in Ha. apply list_elem_of_In, Ha in Hin.
    by eapply kcmp_trans.
Qed.

Lemma msorted_suffix m1 m2 : msorted (m1 ++ m2) -> msorted m2.
Proof. rewrite msorted_app. tauto. Qed.

Lemma msorted_mlower k m : msorted m -> msorted (mlower k m).
Proof. intros H. rewrite <- (mlower_split k m) in H. by eapply msorted_suffix. Qed.

Lemma msorted_mupper k m : msorted m -> msorted (mupper k m).
Proof.
  induction 1 as [|k1 v1 m Ha Hm IH]; simpl; [constructor|].
  destruct (kcmp k1 k); auto. by constructor.
Qed.
End Map.

#[export] Hint Resolve msorted_nil msorted_mset msorted_mdel msorted_mlower msorted_mupper : cyn.
#[export] Hint Rewrite @mget_mset_eq @mget_mdel_eq : cyn_norm.

Section MapValues.
Context {K : Type} {KO : KeyOrder K} {V W : Type}.

(** Transforming the values keeps keys, order and lookups. *)
Definition mmap (f : V -> W) (m : list (K * V)) : list (K * W) := map (fun e => (e.1, f e.2)) m.

Lemma mget_mmap f (m : list (K * V)) k : mget k (mmap f m) = option_map f (mget k m).
Proof. induction m as [|[k1 v1] m IH]; simpl; [done|]. by destruct (kcmp k k1). Qed.

Lemma msorted_mmap f (m : list (K * V)) : msorted m -> msorted (mmap f m).
Proof.
  induction 1 as [|k v m Ha Hm IH]; simpl; constructor; auto.
  unfold above in *. apply Forall_map. by eapply Forall_impl.
Qed.
End MapValues.
