(* ===== verification/Ranges.v ===== *)
(** * Key ranges of sorted maps

    What the engines' reads rely on: the keys with a prefix are a contiguous
    block of a sorted map, reached by [lower_bound] of the prefix going up and by
    [lower_bound] of its successor going down. *)

From Stdlib Require Import ZArith Lia.
From stdpp Require Import prelude.
From S2P Require Import Prelude StdMap.

Section Lists.
Context {A : Type}.

Lemma filter_none (f : A -> bool) l : Forall (fun x => f x = false) l -> List.filter f l = [].
Proof. induction 1 as [|x l Hx Hl IH]; simpl; [done|]. by rewrite Hx. Qed.

Lemma filter_all (f : A -> bool) l : Forall (fun x => f x = true) l -> List.filter f l = l.
Proof. induction 1 as [|x l Hx Hl IH]; simpl; [done|]. by rewrite Hx, IH. Qed.

Lemma filter_rev (f : A -> bool) (l : list A) : List.filter f (rev l) = rev (List.filter f l).
Proof.
  induction l as [|x l IH]; simpl; [done|]. rewrite List.filter_app, IH. simpl.
  destruct (f x); simpl; [done|]. by rewrite app_nil_r.
Qed.
End Lists.

Section Ranges.
Context {V : Type}.
Implicit Types (rows : list (bytes * V)) (p : option bytes) (start : option bytes).

(** The rows beyond the start key, reading up or down. *)
Definition rows_after start rows := match start with Some k => mupper k rows | None => rows end.
Definition rows_before start rows := match start with Some k => mbefore k rows | None => rows end.

Definition in_prefix p (k : bytes) : bool := match p with Some p => starts_with k p | None => true end.

(** A start key is usable with a prefix when it is a key of that prefix. *)
Definition start_ok start p : Prop := forall k q, start = Some k -> p = Some q -> starts_with k q = true.

Definition prefix_successor (prefix : bytes) : option bytes := option_map (@rev byte) (succ_rev (rev prefix)).

(** Visiting keys that are not below the prefix, in ascending order. *)
Lemma ascending_block p rows :
  msorted rows -> Forall (fun e => forall q, p = Some q -> bytes_leb q e.1 = true) rows ->
  exists block tail, rows = block ++ tail /\
    Forall (fun e => in_prefix p e.1 = true) block /\ Forall (fun e => in_prefix p e.1 = false) tail.
Proof.
  intros Hs Hge. induction Hs as [|k a rows Ha Hs IH]; [exists [], []; repeat constructor|].
  apply Forall_cons in Hge as [Hk Hge]. destruct (IH Hge) as (block & tail & -> & Hb & Ht).
  destruct (in_prefix p k) eqn:E.
  - exists ((k, a) :: block), tail. repeat split; auto.
  - exists [], ((k, a) :: block ++ tail). split; [done|]. split; [constructor|]. constructor; [done|].
    apply Forall_forall. intros [k' a'] Hin. apply not_true_is_false. intros Hk'. simpl in *.
    destruct p as [q|]; [|done]. simpl in *. unfold above in Ha. rewrite Forall_forall in Ha. apply Ha in Hin.
    simpl in Hin. rewrite (starts_with_convex q k k') in E; [done|auto|apply bytes_leb_cmp; congruence|done].
Qed.

(** Visiting keys that are not above the prefix range, in descending order. *)
Lemma descending_block p rows :
  msorted rows ->
  Forall (fun e => forall q, p = Some q -> bytes_leb q e.1 = true -> starts_with e.1 q = true) rows ->
  exists block tail, rev rows = block ++ tail /\
    Forall (fun e => in_prefix p e.1 = true) block /\ Forall (fun e => in_prefix p e.1 = false) tail.
Proof.
  intros Hs Hle. induction Hs as [|k a rows Ha Hs IH]; [exists [], []; repeat constructor|].
  apply Forall_cons in Hle as [Hk Hle]. destruct (IH Hle) as (block & tail & E & Hb & Ht). simpl. rewrite E.
  destruct (in_prefix p k) eqn:Ek.
  - (* everything above is in the prefix as well *)
    assert (Htail : tail = []).
    { destruct tail as [|[k' a'] tail]; [done|]. exfalso. apply Forall_cons in Ht as [Hk' _]. simpl in Hk'.
      assert (Hin : In (k', a') rows) by (apply in_rev; rewrite E; apply in_or_app; right; by left).
      unfold above in Ha. rewrite Forall_forall in Ha. pose proof (Ha _ (proj2 (list_elem_of_In _ _) Hin)) as Hlt.
      rewrite Forall_forall in Hle. pose proof (Hle _ (proj2 (list_elem_of_In _ _) Hin)) as Hsw.
      destruct p as [q|]; [|done]. simpl in *. rewrite (Hsw q eq_refl) in Hk'; [done|].
      apply starts_with_leb in Ek. apply bytes_leb_cmp. rewrite bytes_leb_cmp in Ek. intros Hgt.
      apply bytes_cmp_Gt in Hgt. simpl in Hgt. apply Ek. apply bytes_cmp_Gt. simpl. by eapply bytes_cmp_trans. }
    subst tail. exists (block ++ [(k, a)]), []. rewrite !app_nil_r. repeat split; auto. apply Forall_app. auto.
  - exists block, (tail ++ [(k, a)]). rewrite <- app_assoc. repeat split; auto. apply Forall_app. auto.
Qed.

Lemma mbefore_In k rows e : msorted rows -> In e (mbefore k rows) <-> In e rows /\ bytes_cmp e.1 k = Lt.
Proof.
  induction 1 as [|k1 v1 m Ha Hm IH]; simpl; [tauto|]. destruct (bytes_cmp k1 k) eqn:E; simpl.
  - split; [tauto|]. intros [[<-|Hin] Hlt]; simpl in *; [congruence|]. apply bytes_cmp_eq in E. subst.
    unfold above in Ha. rewrite Forall_forall in Ha. apply list_elem_of_In, Ha in Hin. simpl in Hin.
    apply bytes_cmp_Gt in Hlt. simpl in Hlt. congruence.
  - rewrite IH. split; [intros [<-|]; simpl; tauto|]. intros [[<-|] ?]; auto.
  - split; [tauto|]. intros [[<-|Hin] Hlt]; simpl in *; [congruence|].
    unfold above in Ha. rewrite Forall_forall in Ha. apply list_elem_of_In, Ha in Hin. simpl in Hin.
    pose proof (bytes_cmp_trans _ _ _ Hin Hlt). congruence.
Qed.

Lemma msorted_mbefore k rows : msorted rows -> msorted (mbefore k rows).
Proof. intros H. rewrite <- (mlower_split k rows) in H. apply msorted_app in H. tauto. Qed.

(** Lookups above and below a bound. *)
Lemma mget_mupper s k rows : msorted rows -> mget k (mupper s rows) = match bytes_cmp s k with Lt => mget k rows | _ => None end.
Proof.
  intros Hs. pose proof (msorted_mupper s rows Hs) as Hu. destruct (mget k (mupper s rows)) as [e|] eqn:E.
  - apply mget_In, mupper_In in E as [E Hlt]; auto. simpl in Hlt. rewrite Hlt. symmetry. by apply mget_In.
  - destruct (bytes_cmp s k) eqn:Ec; [done| |done]. destruct (mget k rows) as [e|] eqn:E'; [|done].
    apply mget_In in E'; [|done]. rewrite <- E. apply mget_In; [done|]. by apply mupper_In.
Qed.

Lemma mget_mbefore s k rows : msorted rows -> mget k (mbefore s rows) = match bytes_cmp k s with Lt => mget k rows | _ => None end.
Proof.
  intros Hs. pose proof (msorted_mbefore s rows Hs) as Hu. destruct (mget k (mbefore s rows)) as [e|] eqn:E.
  - apply mget_In, mbefore_In in E as [E Hlt]; auto. simpl in Hlt. rewrite Hlt. symmetry. by apply mget_In.
  - destruct (bytes_cmp k s) eqn:Ec; [done| |done]. destruct (mget k rows) as [e|] eqn:E'; [|done].
    apply mget_In in E'; [|done]. rewrite <- E. apply mget_In; [done|]. by apply mbefore_In.
Qed.

(** Filters that imply the prefix ignore what the bounds cut off. *)
Lemma filter_mlower (f : bytes * V -> bool) q rows :
  msorted rows -> (forall e, f e = true -> starts_with e.1 q = true) ->
  List.filter f (mlower q rows) = List.filter f rows.
Proof.
  intros Hs Hf. rewrite <- (mlower_split q rows) at 2. rewrite List.filter_app, (filter_none _ (mbefore q rows)); [done|].
  apply Forall_forall. intros e [_ Hlt]%list_elem_of_In%mbefore_In; [|done].
  destruct (f e) eqn:E; [|done]. apply Hf, starts_with_leb, bytes_leb_cmp in E. exfalso. apply E. by apply bytes_cmp_Gt.
Qed.

Lemma filter_mbefore_succ (f : bytes * V -> bool) q u rows :
  msorted rows -> (forall e, f e = true -> starts_with e.1 q = true) -> prefix_successor q = Some u ->
  List.filter f (mbefore u rows) = List.filter f rows.
Proof.
  intros Hs Hf Hu. rewrite <- (mlower_split u rows) at 2.
  rewrite List.filter_app, (filter_none _ (mlower u rows)); [by rewrite app_nil_r|].
  apply Forall_forall. intros e [_ Hge]%list_elem_of_In%mlower_In; [|done].
  destruct (f e) eqn:E; [|done]. exfalso. apply Hf in E.
  unfold prefix_successor in Hu. pose proof (succ_rev_spec q) as Hsp. destruct (succ_rev (rev q)) as [r|]; [|done].
  destruct Hsp as (q' & b & s & -> & Hb & _ & Hr). injection Hu as <-. rewrite Hr in Hge.
  apply prefix_below_succ in E; [|done]. unfold bytes_ltb in E. simpl in Hge. by destruct (bytes_cmp _ _).
Qed.
End Ranges.

Lemma below_successor q k :
  bytes_leb q k = true -> (forall u, prefix_successor q = Some u -> bytes_ltb k u = true) -> starts_with k q = true.
Proof.
  intros Hle Hu. unfold prefix_successor in Hu. pose proof (succ_rev_spec q) as Hsp.
  destruct (succ_rev (rev q)) as [r|].
  - destruct Hsp as (q' & b & s & -> & Hb & Hs & Hr). specialize (Hu _ eq_refl). rewrite Hr in Hu.
    by apply below_succ.
  - by apply all_ff_prefix.
Qed.

#[export] Hint Resolve msorted_mbefore : cyn.

Section Blocks.
Context {V : Type}.
Implicit Types (rows : list (bytes * V)).

(** Where a forward read starts, and where a backward read starts. *)
Definition forward_rows (q : option bytes) (start : option bytes) rows : list (bytes * V) :=
  match start with Some k => mupper k rows | None => match q with Some q => mlower q rows | None => rows end end.

Definition backward_rows (q : option bytes) (start : option bytes) rows : list (bytes * V) :=
  match start with
  | Some k => mbefore k rows
  | None => match q with
            | Some q => match prefix_successor q with Some u => mbefore u rows | None => rows end
            | None => rows
            end
  end.

(** The visited rows are a block inside the prefix and a tail outside it, and
    cutting at the bounds changes nothing for filters that imply the prefix. *)
Lemma forward_block q start rows (f : bytes * V -> bool) :
  msorted rows -> start_ok start q -> (forall e, f e = true -> in_prefix q e.1 = true) ->
  (exists block tail, forward_rows q start rows = block ++ tail /\
    Forall (fun e => in_prefix q e.1 = true) block /\ Forall (fun e => in_prefix q e.1 = false) tail) /\
  List.filter f (forward_rows q start rows) = List.filter f (rows_after start rows).
Proof.
  intros Hs Hst Hf. split.
  - apply ascending_block; [unfold forward_rows; destruct start, q; auto with cyn|].
    apply Forall_forall. intros [k a] Hin p ->. apply list_elem_of_In in Hin. unfold forward_rows in Hin. apply bytes_leb_cmp.
    destruct start as [k0|].
    + apply mupper_In in Hin as [_ Hlt]; [|done]. specialize (Hst k0 p eq_refl eq_refl).
      apply starts_with_leb, bytes_leb_cmp in Hst. simpl in *. intros Hgt%bytes_cmp_Gt.
      apply Hst, bytes_cmp_Gt. by eapply bytes_cmp_trans.
    + apply mlower_In in Hin as [_ Hlt]; [|done]. intros Hgt. by apply bytes_cmp_Gt in Hgt.
  - unfold forward_rows, rows_after. destruct start, q; try done. by apply filter_mlower.
Qed.

Lemma backward_block q start rows (f : bytes * V -> bool) :
  msorted rows -> start_ok start q -> (forall e, f e = true -> in_prefix q e.1 = true) ->
  (exists block tail, rev (backward_rows q start rows) = block ++ tail /\
    Forall (fun e => in_prefix q e.1 = true) block /\ Forall (fun e => in_prefix q e.1 = false) tail) /\
  List.filter f (rev (backward_rows q start rows)) = List.filter f (rev (rows_before start rows)).
Proof.
  intros Hs Hst Hf. split.
  - apply descending_block.
    + unfold backward_rows. destruct start, q as [p|]; try destruct (prefix_successor p); auto with cyn.
    + apply Forall_forall. intros [k a] Hin p -> Hq. apply list_elem_of_In in Hin. unfold backward_rows in Hin. simpl in *.
      destruct start as [k0|].
      * apply mbefore_In in Hin as [_ Hlt]; [|done]. simpl in Hlt. specialize (Hst k0 p eq_refl eq_refl).
        eapply starts_with_convex; [done| |done]. apply bytes_leb_cmp. congruence.
      * apply below_successor; [done|]. intros u Hu. rewrite Hu in Hin.
        apply mbefore_In in Hin as [_ Hlt]; [|done]. unfold bytes_ltb. simpl in Hlt. by rewrite Hlt.
  - rewrite !filter_rev. f_equal. unfold backward_rows, rows_before. destruct start as [k|], q as [p|]; try done.
    destruct (prefix_successor p) eqn:Eu; [|done]. by apply (filter_mbefore_succ f p).
Qed.
End Blocks.
