(* ===== verification/Types.v ===== *)
(** * Core data model

    [include/cynamodb/core/types.hpp], [core/schema.hpp] and [core/sizing.hpp]:
    attribute values, table schemas and DynamoDB size accounting.  The tagged
    union of the source (an [AttributeType] tag beside a [std::variant]) is one
    inductive type with a constructor per tag; [std::shared_ptr] children are
    [option]s, [None] being the null pointer. *)

From Stdlib Require Import ZArith Lia.
From stdpp Require Import prelude.
From S2P Require Import Prelude StdMap.

Inductive AttributeType := T_S | T_N | T_B | T_BOOL | T_NUL | T_M | T_L | T_SS | T_NS | T_BS.

#[export] Instance AttributeType_eq_dec : EqDecision AttributeType.
Proof. solve_decision. Defined.

#[warnings="-register-all"]
Inductive AttributeValue :=
| AV_S (s : bytes)
| AV_N (s : bytes)
| AV_B (b : bytes)
| AV_BOOL (b : bool)
| AV_NUL
| AV_M (m : list (bytes * option AttributeValue))
| AV_L (l : list (option AttributeValue))
| AV_SS (values : list bytes)
| AV_NS (values : list bytes)
| AV_BS (values : list bytes).

(** A nullable [std::shared_ptr<AttributeValue>]. *)
Abbreviation AttrPtr := (option AttributeValue).

(** [StorageEngine::AttributeMap] (also [Item], [RecordAttributes], [ItemMap]). *)
Abbreviation AttributeMap := (list (bytes * option AttributeValue)).

Definition av_type (v : AttributeValue) : AttributeType :=
  match v with
  | AV_S _ => T_S | AV_N _ => T_N | AV_B _ => T_B | AV_BOOL _ => T_BOOL | AV_NUL => T_NUL
  | AV_M _ => T_M | AV_L _ => T_L | AV_SS _ => T_SS | AV_NS _ => T_NS | AV_BS _ => T_BS
  end.

(** The numeric value of the enumerator ([static_cast<char>(av.type)]). *)
Definition type_tag (t : AttributeType) : Z :=
  match t with
  | T_S => 0 | T_N => 1 | T_B => 2 | T_BOOL => 3 | T_NUL => 4
  | T_M => 5 | T_L => 6 | T_SS => 7 | T_NS => 8 | T_BS => 9
  end.

(** ** Schema *)

Inductive KeyType := HASH | RANGE.

Record KeySchemaElement := {
  attribute_name : bytes;
  key_type : KeyType
}.

Inductive ProjectionType := PT_KEYS_ONLY | PT_INCLUDE | PT_ALL.

Record Projection := {
  projection_type : ProjectionType;
  non_key_attributes : list bytes
}.

Record ProvisionedThroughput := {
  read_capacity_units : Z;
  write_capacity_units : Z
}.

Inductive BillingMode := PROVISIONED | PAY_PER_REQUEST.

Inductive StreamViewType := SV_KEYS_ONLY | SV_NEW_IMAGE | SV_OLD_IMAGE | SV_NEW_AND_OLD_IMAGES.

Record StreamSpecification := {
  stream_enabled : bool;
  stream_view_type : option StreamViewType
}.

Inductive TableClass := STANDARD | STANDARD_INFREQUENT_ACCESS.

Record LocalSecondaryIndex := {
  lsi_index_name : bytes;
  lsi_key_schema : list KeySchemaElement;
  lsi_projection : Projection
}.

Record GlobalSecondaryIndex := {
  gsi_index_name : bytes;
  gsi_key_schema : list KeySchemaElement;
  gsi_projection : Projection;
  gsi_provisioned_throughput : ProvisionedThroughput
}.

Record TimeToLiveSpecification := {
  ttl_attribute_name : bytes;
  ttl_enabled : bool
}.

Record PointInTimeRecoverySpecification := {
  point_in_time_recovery_enabled : bool;
  recovery_period_in_days : Z;
  point_in_time_recovery_enabled_epoch_seconds : Z
}.

Record TableDefinition := {
  table_name : bytes;
  key_schema : list KeySchemaElement;
  attribute_definitions : list (bytes * AttributeType);
  billing_mode : BillingMode;
  provisioned_throughput : ProvisionedThroughput;
  table_class : TableClass;
  deletion_protection_enabled : bool;
  creation_epoch_seconds : Z;
  tags : list (bytes * bytes);
  local_secondary_indexes : list LocalSecondaryIndex;
  global_secondary_indexes : list GlobalSecondaryIndex;
  stream_specification : option StreamSpecification;
  latest_stream_arn : option bytes;
  latest_stream_label : option bytes;
  ttl_specification : option TimeToLiveSpecification;
  point_in_time_recovery : PointInTimeRecoverySpecification
}.

(** The default member initialisers of [ProvisionedThroughput],
    [PointInTimeRecoverySpecification] and [TableDefinition]. *)
Definition throughput_default : ProvisionedThroughput :=
  {| read_capacity_units := 0; write_capacity_units := 0 |}.

Definition pitr_default : PointInTimeRecoverySpecification :=
  {| point_in_time_recovery_enabled := false;
     recovery_period_in_days := 35;
     point_in_time_recovery_enabled_epoch_seconds := 0 |}.

Definition table_definition_default : TableDefinition :=
  {| table_name := [];
     key_schema := [];
     attribute_definitions := [];
     billing_mode := PAY_PER_REQUEST;
     provisioned_throughput := throughput_default;
     table_class := STANDARD;
     deletion_protection_enabled := false;
     creation_epoch_seconds := 0;
     tags := [];
     local_secondary_indexes := [];
     global_secondary_indexes := [];
     stream_specification := None;
     latest_stream_arn := None;
     latest_stream_label := None;
     ttl_specification := None;
     point_in_time_recovery := pitr_default |}.

(** ** Sizing *)

Definition size_saturating_add (a b : Z) : Z :=
  if size_max - a <? b then size_max else a + b.

Definition sum_sizes (vs : list bytes) : Z :=
  fold_left (fun s v => size_saturating_add s (len v)) vs 3.

Fixpoint attribute_size (val : AttributeValue) : Z :=
  match val with
  | AV_S s | AV_N s => len s
  | AV_B b => len b
  | AV_BOOL _ | AV_NUL => 1
  | AV_M m =>
      fold_left (fun s e =>
        match e with
        | (k, v) =>
            let s := size_saturating_add s (len k) in
            let s := match v with Some a => size_saturating_add s (attribute_size a) | None => s end in
            size_saturating_add s 1
        end) m 3
  | AV_L l =>
      fold_left (fun s v =>
        let s := match v with Some a => size_saturating_add s (attribute_size a) | None => s end in
        size_saturating_add s 1) l 3
  | AV_SS vs => sum_sizes vs
  | AV_NS vs => sum_sizes vs
  | AV_BS vs => sum_sizes vs
  end.

(** [StorageEngine::item_size_bytes]. *)
Definition item_size_bytes (item : AttributeMap) : Z :=
  fold_left (fun size e =>
    match e with
    | (name, value) =>
        let size := size_saturating_add size (len name) in
        match value with Some a => size_saturating_add size (attribute_size a) | None => size end
    end) item 0.

(** ** Induction over attribute values *)

Definition opt_all (P : AttributeValue -> Prop) (v : AttrPtr) : Prop :=
  match v with Some a => P a | None => True end.

Section AttributeValueInd.
Variable P : AttributeValue -> Prop.
Hypothesis HS : forall s, P (AV_S s).
Hypothesis HN : forall s, P (AV_N s).
Hypothesis HB : forall s, P (AV_B s).
Hypothesis HBOOL : forall b, P (AV_BOOL b).
Hypothesis HNUL : P AV_NUL.
Hypothesis HM : forall m, Forall (fun e => opt_all P e.2) m -> P (AV_M m).
Hypothesis HL : forall l, Forall (opt_all P) l -> P (AV_L l).
Hypothesis HSS : forall l, P (AV_SS l).
Hypothesis HNS : forall l, P (AV_NS l).
Hypothesis HBS : forall l, P (AV_BS l).

Fixpoint av_ind (v : AttributeValue) : P v.
Proof.
  destruct v as [s|s|s|b| |m|l|vs|vs|vs]; [apply HS|apply HN|apply HB|apply HBOOL|apply HNUL| | |
    apply HSS|apply HNS|apply HBS].
  - apply HM. revert m. fix go 1. intros [|[k [a|]] m].
    + constructor.
    + constructor; [exact (av_ind a)|exact (go m)].
    + constructor; [exact I|exact (go m)].
  - apply HL. revert l. fix go 1. intros [|[a|] l].
    + constructor.
    + constructor; [exact (av_ind a)|exact (go l)].
    + constructor; [exact I|exact (go l)].
Qed.
End AttributeValueInd.

(** ** The exact size, without machine bounds *)

Fixpoint exact_size (val : AttributeValue) : Z :=
  match val with
  | AV_S s | AV_N s | AV_B s => len s
  | AV_BOOL _ | AV_NUL => 1
  | AV_M m => 3 + fold_right (fun e acc => len e.1 + from_option exact_size 0 e.2 + 1 + acc) 0 m
  | AV_L l => 3 + fold_right (fun v acc => from_option exact_size 0 v + 1 + acc) 0 l
  | AV_SS vs | AV_NS vs | AV_BS vs => 3 + fold_right (fun v acc => len v + acc) 0 vs
  end.

Definition exact_item_size (item : AttributeMap) : Z :=
  fold_right (fun e acc => len e.1 + from_option exact_size 0 e.2 + acc) 0 item.

(** ** Saturation *)

Definition cap (z : Z) : Z := Z.min size_max z.

Lemma sat_add_cap a b : 0 <= a -> 0 <= b -> size_saturating_add (cap a) (cap b) = cap (a + b).
Proof. unfold size_saturating_add, cap, size_max. intros. destruct (Z.ltb_spec (2 ^ 64 - 1 - Z.min (2 ^ 64 - 1) a) (Z.min (2 ^ 64 - 1) b)); lia. Qed.

Lemma sat_add_cap_l a b : 0 <= a -> 0 <= b -> size_saturating_add (cap a) b = cap (a + b).
Proof. unfold size_saturating_add, cap, size_max. intros. destruct (Z.ltb_spec (2 ^ 64 - 1 - Z.min (2 ^ 64 - 1) a) b); lia. Qed.

Lemma exact_size_nonneg v : 0 <= exact_size v.
Proof.
  induction v using av_ind; simpl; try apply len_nonneg; try lia.
  - induction H as [|[k [a|]] m Ha Hm IH]; simpl in *; [lia| |]; pose proof (len_nonneg k); lia.
  - induction H as [|[a|] l Ha Hl IH]; simpl in *; lia.
  - induction l as [|v l IH]; simpl; [lia|]. pose proof (len_nonneg v). lia.
  - induction l as [|v l IH]; simpl; [lia|]. pose proof (len_nonneg v). lia.
  - induction l as [|v l IH]; simpl; [lia|]. pose proof (len_nonneg v). lia.
Qed.

Lemma exact_opt_nonneg v : 0 <= from_option exact_size 0 v.
Proof. destruct v; simpl; [apply exact_size_nonneg|lia]. Qed.

(** A left fold of saturating additions is the capped exact sum. *)
Lemma fold_sat {A} (step : Z -> A -> Z) (w : A -> Z) (l : list A) :
  (forall a, 0 <= w a) ->
  Forall (fun a => forall s, 0 <= s -> step (cap s) a = cap (s + w a)) l ->
  forall s, 0 <= s ->
  fold_left step l (cap s) = cap (s + fold_right (fun a acc => w a + acc) 0 l).
Proof.
  intros Hw Hstep. induction Hstep as [|a l Ha Hl IH]; intros s Hs; simpl.
  - by rewrite Z.add_0_r.
  - rewrite Ha by done. rewrite IH; [f_equal; lia|]. specialize (Hw a). lia.
Qed.

Lemma cap_small z : 0 <= z <= size_max -> cap z = z.
Proof. unfold cap. lia. Qed.

Ltac cap_start := match goal with |- context [fold_left ?f ?l 3] =>
  change (fold_left f l 3) with (fold_left f l (cap 3)) end.

Lemma cap_add_congr s a b : 0 <= s -> cap a = cap b -> cap (s + a) = cap (s + b).
Proof. unfold cap. lia. Qed.

Lemma sum_sizes_exact vs : sum_sizes vs = cap (3 + fold_right (fun v acc => len v + acc) 0 vs).
Proof.
  unfold sum_sizes. cap_start. apply (fold_sat _ (fun v => len v)); [intros; apply len_nonneg| |lia].
  apply Forall_forall. intros v _ s Hs. apply sat_add_cap_l; [done|apply len_nonneg].
Qed.

(** The capped step of the map and list cases: key bytes, child, separator. *)
Lemma sat_child s v w :
  0 <= s -> 0 <= w -> opt_all (fun a => cap (attribute_size a) = cap (exact_size a)) v ->
  (forall a, 0 <= attribute_size a) ->
  size_saturating_add
    (match v with Some a => size_saturating_add (cap s) (attribute_size a) | None => cap s end) w
  = cap (s + from_option exact_size 0 v + w).
Proof.
  intros Hs Hw Hv Hnn. destruct v as [a|]; simpl in *.
  - rewrite sat_add_cap_l by auto. pose proof (exact_size_nonneg a).
    rewrite (cap_add_congr s _ _ Hs Hv). apply sat_add_cap_l; lia.
  - rewrite sat_add_cap_l by auto. f_equal. lia.
Qed.

Lemma fold_size_nonneg {A} (step : Z -> A -> Z) l s :
  (forall s a, 0 <= s -> 0 <= step s a) -> 0 <= s -> 0 <= fold_left step l s.
Proof. intros Hst. revert s. induction l as [|a l IH]; simpl; auto. Qed.

Lemma sat_add_nonneg a b : 0 <= a -> 0 <= b -> 0 <= size_saturating_add a b.
Proof. unfold size_saturating_add, size_max. destruct (_ <? _); lia. Qed.

Lemma sum_sizes_nonneg vs : 0 <= sum_sizes vs.
Proof.
  apply fold_size_nonneg; [|lia]. intros s a Hs. apply sat_add_nonneg; [done|apply len_nonneg].
Qed.

Lemma attribute_size_nonneg v : 0 <= attribute_size v.
Proof.
  induction v using av_ind; simpl; try apply len_nonneg; try apply sum_sizes_nonneg; try lia.
  - generalize (Z.le_refl 3). generalize 3 at 2 3. intros s Hs. assert (0 <= s) by lia. clear Hs.
    revert s H0. induction H as [|[k v] m Ha Hm IH]; intros s Hs; simpl; [done|].
    apply IH. pose proof (len_nonneg k). destruct v; simpl in *; auto using sat_add_nonneg with zarith.
  - generalize (Z.le_refl 3). generalize 3 at 2 3. intros s Hs. assert (0 <= s) by lia. clear Hs.
    revert s H0. induction H as [|v m Ha Hm IH]; intros s Hs; simpl; [done|].
    apply IH. destruct v; simpl in *; auto using sat_add_nonneg with zarith.
Qed.

Lemma attribute_size_exact v : cap (attribute_size v) = cap (exact_size v).
Proof.
  assert (Hcc : forall z, 0 <= z -> cap (cap z) = cap z) by (unfold cap; lia).
  induction v using av_ind; simpl attribute_size; simpl exact_size; try done.
  - cap_start.
    erewrite (fold_sat _ (fun e => len e.1 + from_option exact_size 0 e.2 + 1)).
    + unfold cap. lia.
    + intros [k v]. simpl. pose proof (len_nonneg k). pose proof (exact_opt_nonneg v). lia.
    + eapply Forall_impl; [exact H|]. intros [k v] Hv s Hs. simpl in Hv |- *.
      pose proof (len_nonneg k). rewrite sat_add_cap_l by done.
      rewrite sat_child by (auto using attribute_size_nonneg; lia). f_equal. lia.
    + lia.
  - cap_start.
    erewrite (fold_sat _ (fun v => from_option exact_size 0 v + 1)).
    + unfold cap. lia.
    + intros v. pose proof (exact_opt_nonneg v). lia.
    + eapply Forall_impl; [exact H|]. intros v Hv s Hs.
      rewrite sat_child by (auto using attribute_size_nonneg; lia). f_equal. lia.
    + lia.
  - rewrite sum_sizes_exact. unfold cap. lia.
  - rewrite sum_sizes_exact. unfold cap. lia.
  - rewrite sum_sizes_exact. unfold cap. lia.
Qed.

Lemma item_size_exact_cap item : item_size_bytes item = cap (exact_item_size item).
Proof.
  unfold item_size_bytes, exact_item_size. change 0 with (cap 0) at 1.
  rewrite <- (Z.add_0_l (fold_right _ _ _)).
  apply (fold_sat _ (fun e : bytes * AttrPtr => len e.1 + from_option exact_size 0 e.2)); [| |lia].
  - intros [k v]. simpl. pose proof (len_nonneg k). pose proof (exact_opt_nonneg v). lia.
  - apply Forall_forall. intros [k v] _ s Hs. simpl. pose proof (len_nonneg k).
    rewrite sat_add_cap_l by done. destruct v as [a|]; simpl; [|f_equal; lia].
    rewrite sat_add_cap_l by (auto using attribute_size_nonneg; lia).
    rewrite (cap_add_congr (s + len k) _ _ ltac:(lia) (attribute_size_exact a)). f_equal. lia.
Qed.
