(* ===== verification/CLib.v ===== *)
(** * The C and C++ library functions the program relies on

    Character classes of the "C" locale, decimal printing and parsing,
    [strtod]/[strtold] and the ["%.17Lg"] conversion.  IEEE-754 values are the
    standard library's [spec_float]; [double] has 53 bits of precision and
    [long double] is the x87 extended format with 64.  NaN carries no sign or
    payload. *)

From Stdlib Require Import ZArith Lia Strings.String Floats.SpecFloat.
From stdpp Require Import prelude.
From S2P Require Import Prelude.

(** ** Character classes *)

Definition in_range (lo hi : Z) (b : byte) : bool := (lo <=? bval b) && (bval b <=? hi).

Definition isdigit : byte -> bool := in_range 48 57.
Definition isupper : byte -> bool := in_range 65 90.
Definition islower : byte -> bool := in_range 97 122.
Definition isalpha (b : byte) : bool := isupper b || islower b.
Definition isalnum (b : byte) : bool := isalpha b || isdigit b.
Definition isspace (b : byte) : bool := (bval b =? 32) || in_range 9 13 b.
Definition toupper (b : byte) : byte := if islower b then byte_of (bval b - 32) else b.
Definition tolower (b : byte) : byte := if isupper b then byte_of (bval b + 32) else b.

Definition is_char (c : Z) (b : byte) : bool := bval b =? c.

(** The longest prefix whose bytes satisfy [f], and the rest. *)
Fixpoint span (f : byte -> bool) (s : bytes) : bytes * bytes :=
  match s with
  | [] => ([], [])
  | b :: s' => if f b then let '(p, r) := span f s' in (b :: p, r) else ([], s)
  end.

(** ** Decimal integers *)

Definition digit_val (b : byte) : Z := bval b - 48.

Definition parse_dec (ds : bytes) : Z := fold_left (fun n d => 10 * n + digit_val d) ds 0.

Fixpoint dec_digits (fuel : nat) (n : Z) (acc : bytes) : bytes :=
  match fuel with
  | O => acc
  | S fuel' =>
      let acc := byte_of (48 + n mod 10) :: acc in
      if n <? 10 then acc else dec_digits fuel' (n / 10) acc
  end.

(** [std::to_string] / [std::to_chars] of a non-negative integer. *)
Definition dec_of_nonneg (n : Z) : bytes := dec_digits (S (Z.to_nat (Z.log2 n))) n [].

Lemma digit_byte n : 0 <= n < 10 -> bval (byte_of (48 + n)) = 48 + n.
Proof. intros. apply byte_of_small. lia. Qed.

Lemma parse_dec_digits fuel : forall n acc, 0 <= n < 2 ^ Z.of_nat fuel ->
  parse_dec (dec_digits fuel n acc) = fold_left (fun n d => 10 * n + digit_val d) acc n.
Proof.
  unfold parse_dec. induction fuel as [|fuel IH]; intros n acc Hn; cbn [dec_digits].
  - by replace n with 0 by (simpl in Hn; lia).
  - pose proof (Z.mod_pos_bound n 10 ltac:(lia)) as Hm. assert (Hd : digit_val (byte_of (48 + n mod 10)) = n mod 10).
    { unfold digit_val. rewrite digit_byte by done. lia. }
    destruct (Z.ltb_spec n 10) as [Hlt|Hge].
    + cbn [fold_left]. rewrite Hd, Z.mod_small by lia. done.
    + rewrite IH; [cbn [fold_left]; rewrite Hd; f_equal; pose proof (Z.div_mod n 10); lia|].
      rewrite Nat2Z.inj_succ, Z.pow_succ_r in Hn by lia. split; [apply Z.div_pos; lia|].
      pose proof (Z.div_lt_upper_bound n 10 (2 ^ Z.of_nat fuel) ltac:(lia)). lia.
Qed.

Lemma parse_dec_of n : 0 <= n -> parse_dec (dec_of_nonneg n) = n.
Proof.
  intros Hn. unfold dec_of_nonneg. rewrite parse_dec_digits; [done|]. split; [done|].
  rewrite Nat2Z.inj_succ, Z2Nat.id by apply Z.log2_nonneg. destruct (Z.eq_dec n 0) as [->|]; [done|].
  apply Z.log2_spec. lia.
Qed.

Lemma dec_digits_isdigit fuel : forall n acc, 0 <= n -> Forall (fun b => isdigit b = true) acc ->
  Forall (fun b => isdigit b = true) (dec_digits fuel n acc).
Proof.
  induction fuel as [|fuel IH]; intros n acc Hn Ha; cbn [dec_digits]; [done|].
  assert (Hd : isdigit (byte_of (48 + n mod 10)) = true).
  { unfold isdigit, in_range. pose proof (Z.mod_pos_bound n 10 ltac:(lia)). rewrite digit_byte by done.
    apply andb_true_intro. split; apply Z.leb_le; lia. }
  destruct (n <? 10); [by constructor|]. apply IH; [apply Z.div_pos; lia|by constructor].
Qed.

Lemma dec_of_isdigit n : 0 <= n -> Forall (fun b => isdigit b = true) (dec_of_nonneg n).
Proof. intros. by apply dec_digits_isdigit. Qed.

Lemma span_prefix f p b r : Forall (fun x => f x = true) p -> f b = false -> span f (p ++ b :: r) = (p, b :: r).
Proof. intros Hp Hb. induction Hp as [|x p Hx Hp IH]; simpl; [by rewrite Hb|]. by rewrite Hx, IH. Qed.

(** A number followed by a non-digit determines the number. *)
Lemma dec_inj n m b b' r r' : 0 <= n -> 0 <= m -> isdigit b = false -> isdigit b' = false ->
  dec_of_nonneg n ++ b :: r = dec_of_nonneg m ++ b' :: r' -> n = m.
Proof.
  intros Hn Hm Hb Hb' E. apply (f_equal (span isdigit)) in E. rewrite !span_prefix in E by (done || by apply dec_of_isdigit).
  injection E as E _. rewrite <- (parse_dec_of n), <- (parse_dec_of m) by done. by rewrite E.
Qed.

(** [std::stoul]: [None] when it throws. *)
Definition stoul (s : bytes) : option Z :=
  let s := snd (span isspace s) in
  let '(neg, s) := match s with
                   | c :: s' => if is_char 45 c then (true, s') else if is_char 43 c then (false, s') else (false, s)
                   | [] => (false, s)
                   end in
  let digits := fst (span isdigit s) in
  match digits with
  | [] => None
  | _ =>
      let v := parse_dec digits in
      if 2 ^ 64 <=? v then None else Some (if neg : bool then (- v) mod 2 ^ 64 else v)
  end.

Lemma dec_digits_length k : forall fuel n acc, 0 <= n < 10 ^ Z.of_nat (S k) -> (length (dec_digits fuel n acc) <= S k + length acc)%nat.
Proof.
  induction k as [|k IH]; intros fuel n acc Hn; (destruct fuel as [|fuel]; cbn [dec_digits]; [lia|]); destruct (Z.ltb_spec n 10); try (simpl; lia).
  etransitivity; [apply IH|simpl; lia]. rewrite (Nat2Z.inj_succ (S k)), Z.pow_succ_r in Hn by lia.
  split; [apply Z.div_pos; lia|apply Z.div_lt_upper_bound; lia].
Qed.

Lemma dec_digits_nonempty fuel : forall n acc, acc <> [] -> dec_digits fuel n acc <> [].
Proof. induction fuel as [|fuel IH]; intros n acc Ha; cbn [dec_digits]; [done|]. destruct (n <? 10); [done|]. by apply IH. Qed.

Lemma dec_of_nonempty n : dec_of_nonneg n <> [].
Proof. unfold dec_of_nonneg. cbn [dec_digits]. destruct (n <? 10); [done|]. by apply dec_digits_nonempty. Qed.

Lemma span_all f s : Forall (fun x => f x = true) s -> span f s = (s, []).
Proof. induction 1 as [|x s Hx _ IH]; simpl; [done|]. by rewrite Hx, IH. Qed.

Lemma stoul_digits s : Forall (fun b => isdigit b = true) s -> s <> [] -> parse_dec s < 2 ^ 64 -> stoul s = Some (parse_dec s).
Proof.
  intros Hd Hne Hlt. unfold stoul. destruct s as [|c s]; [done|]. assert (Hc : isdigit c = true) by by inversion Hd.
  assert (H : isspace c = false /\ is_char 45 c = false /\ is_char 43 c = false) by (clear -Hc; destruct c; vm_compute in Hc; done).
  destruct H as (Hs & Hm & Hpl). assert (Hsp : span isspace (c :: s) = ([], c :: s)) by (simpl; by rewrite Hs). rewrite Hsp. cbn [snd]. rewrite Hm, Hpl, span_all by done. cbn [fst].
  destruct (Z.leb_spec (2 ^ 64) (parse_dec (c :: s))); [lia|done].
Qed.

Lemma stoul_dec n : 0 <= n < 2 ^ 64 -> stoul (dec_of_nonneg n) = Some n.
Proof.
  intros Hn. pose proof (parse_dec_of n ltac:(lia)) as E. rewrite stoul_digits, E; [done|apply dec_of_isdigit; lia|apply dec_of_nonempty|lia].
Qed.

(** No leading zero. *)
Lemma dec_digits_head fuel : forall n acc, 1 <= n < 2 ^ Z.of_nat fuel -> exists c r, dec_digits fuel n acc = c :: r /\ is_char 48 c = false.
Proof.
  induction fuel as [|fuel IH]; intros n acc Hn; [simpl in Hn; lia|]. cbn [dec_digits]. destruct (Z.ltb_spec n 10) as [Hlt|Hge].
  - eexists _, _. split; [reflexivity|]. unfold is_char. rewrite Z.mod_small, digit_byte by lia. apply Z.eqb_neq. lia.
  - apply IH. rewrite Nat2Z.inj_succ, Z.pow_succ_r in Hn by lia. split; [apply Z.div_le_lower_bound; lia|apply Z.div_lt_upper_bound; lia].
Qed.

Lemma dec_of_head n : 1 <= n -> exists c r, dec_of_nonneg n = c :: r /\ is_char 48 c = false.
Proof.
  intros Hn. apply dec_digits_head. split; [done|]. rewrite Nat2Z.inj_succ, Z2Nat.id by apply Z.log2_nonneg. apply Z.log2_spec. lia.
Qed.

(** A number with leading zeros up to the given width. *)
Definition padded (width : nat) (n : Z) : bytes :=
  let s := dec_of_nonneg n in replicate (width - length s) Byte.x30 ++ s.

Lemma padded_digits w n : 0 <= n -> Forall (fun b => isdigit b = true) (padded w n).
Proof.
  intros Hn. unfold padded. apply Forall_app. split; [by apply Forall_replicate|by apply dec_of_isdigit].
Qed.

Lemma parse_padded w n : 0 <= n -> parse_dec (padded w n) = n.
Proof.
  intros Hn. rewrite <- (parse_dec_of n Hn) at 2. unfold padded, parse_dec. rewrite fold_left_app.
  assert (Hz : forall k, fold_left (fun n d => 10 * n + digit_val d) (replicate k Byte.x30) 0 = 0) by (induction k; done).
  by rewrite Hz.
Qed.

Lemma padded_inj w n m r r' b :
  0 <= n -> 0 <= m -> isdigit b = false -> padded w n ++ [b] ++ r = padded w m ++ [b] ++ r' -> n = m /\ r = r'.
Proof.
  intros Hn Hm Hb E. pose proof (f_equal (span isdigit) E) as Es. cbn [app] in Es.
  rewrite !span_prefix in Es by (auto using padded_digits). injection Es as E1 E2.
  split; [rewrite <- (parse_padded w n), <- (parse_padded w m) by done; by rewrite E1|done].
Qed.

Lemma span_class f s : Forall (fun x => f x = true) (fst (span f s)).
Proof. induction s as [|b s IH]; simpl; [constructor|]. destruct (f b) eqn:E; [|constructor]. destruct (span f s). by constructor. Qed.

Lemma fold_digits_nonneg ds : Forall (fun b => isdigit b = true) ds -> forall n, 0 <= n -> 0 <= fold_left (fun n d => 10 * n + digit_val d) ds n.
Proof.
  induction 1 as [|d ds Hd _ IH]; intros n Hn; simpl; [done|]. apply IH. unfold isdigit, in_range in Hd. unfold digit_val. bool_hyps. lia.
Qed.

Lemma stoul_range s i : stoul s = Some i -> 0 <= i < 2 ^ 64.
Proof.
  unfold stoul. intros H. assert (Hd : forall s, 0 <= parse_dec (fst (span isdigit s))) by (intros; by apply fold_digits_nonneg; [apply span_class|]).
  repeat break_match; simplify_eq; bool_hyps; try (apply Z.mod_pos_bound; lia); (split; [|done]); rewrite <- Heql0; apply Hd.
Qed.

(** ["%lld"] and [std::to_chars] of a signed integer. *)
Definition dec_of_Z (n : Z) : bytes :=
  if n <? 0 then lit "-" ++ dec_of_nonneg (- n) else dec_of_nonneg n.

(** ** Floating point *)

Record float_format := { prec : Z; emax : Z }.
Definition binary64 : float_format := {| prec := 53; emax := 1024 |}.
Definition extended80 : float_format := {| prec := 64; emax := 16384 |}.

(** The correctly rounded value of [(-1)^neg * num * 10^exp10]. *)
Definition round_decimal (F : float_format) (neg : bool) (num : Z) (exp10 : Z) : spec_float :=
  match num with
  | Zpos m =>
      if 0 <=? exp10 then
        binary_normalize (prec F) (emax F) (cond_Zopp neg (Zpos m * 10 ^ exp10)) 0 neg
      else
        let '(q, e, l) := SFdiv_core_binary (prec F) (emax F) (Zpos m) 0 (10 ^ (- exp10)) 0 in
        binary_round_aux (prec F) (emax F) neg q e l
  | _ => S754_zero neg
  end.

Definition round_binary (F : float_format) (neg : bool) (num : Z) (exp2 : Z) : spec_float :=
  binary_normalize (prec F) (emax F) (cond_Zopp neg num) exp2 neg.

Definition isxdigit (b : byte) : bool := isdigit b || in_range 65 70 b || in_range 97 102 b.
Definition xdigit_val (b : byte) : Z :=
  if isdigit b then bval b - 48 else if in_range 65 70 b then bval b - 55 else bval b - 87.
Definition parse_hex (ds : bytes) : Z := fold_left (fun n d => 16 * n + xdigit_val d) ds 0.

(** An optional exponent introduced by one of [marks]: its value and the rest.
    Without digits the marker is not part of the number. *)
Definition parse_exponent (mark : byte -> bool) (s : bytes) : Z * bytes :=
  match s with
  | c :: s' =>
      if mark c then
        let '(neg, s1) := match s' with
                          | d :: r => if is_char 45 d then (true, r)
                                      else if is_char 43 d then (false, r) else (false, s')
                          | [] => (false, s')
                          end in
        let '(ds, rest) := span isdigit s1 in
        match ds with
        | [] => (0, s)
        | _ => ((if neg then - parse_dec ds else parse_dec ds), rest)
        end
      else (0, s)
  | [] => (0, s)
  end.

(** Digits with an optional point: integer digits, fraction digits, rest;
    [None] when there is no digit at all. *)
Definition parse_mantissa (f : byte -> bool) (s : bytes) : option (bytes * bytes * bytes) :=
  let '(ip, r) := span f s in
  let '(fp, r') := match r with
                   | c :: r1 => if is_char 46 c then span f r1 else ([], r)
                   | [] => ([], r)
                   end in
  match ip, fp with
  | [], [] => None
  | [], _ => Some (ip, fp, r')
  | _, _ => Some (ip, fp, r')
  end.

Definition upper_bytes (s : bytes) : bytes := map toupper s.

(** [strtod]/[strtold] after white space and sign. *)
Definition strtofloat_unsigned (F : float_format) (neg : bool) (s : bytes) : option (spec_float * bytes) :=
  if starts_with (upper_bytes s) (lit "INFINITY") then Some (S754_infinity neg, drop 8 s)
  else if starts_with (upper_bytes s) (lit "INF") then Some (S754_infinity neg, drop 3 s)
  else if starts_with (upper_bytes s) (lit "NAN") then
    let r := drop 3 s in
    match r with
    | c :: r1 =>
        if is_char 40 c then
          let '(_, r2) := span (fun b => isalnum b || is_char 95 b) r1 in
          match r2 with
          | d :: r3 => if is_char 41 d then Some (S754_nan, r3) else Some (S754_nan, r)
          | [] => Some (S754_nan, r)
          end
        else Some (S754_nan, r)
    | [] => Some (S754_nan, r)
    end
  else
    let hex :=
      if starts_with (upper_bytes s) (lit "0X") then
        match parse_mantissa isxdigit (drop 2 s) with
        | Some (ip, fp, r) =>
            let '(e, r') := parse_exponent (fun b => is_char 80 (toupper b)) r in
            Some (round_binary F neg (parse_hex (ip ++ fp)) (e - 4 * len fp), r')
        | None => None
        end
      else None in
    match hex with
    | Some res => Some res
    | None =>
        match parse_mantissa isdigit s with
        | Some (ip, fp, r) =>
            let '(e, r') := parse_exponent (fun b => is_char 69 (toupper b)) r in
            Some (round_decimal F neg (parse_dec (ip ++ fp)) (e - len fp), r')
        | None => None
        end
    end.

(** The value and the unconsumed suffix ([*endptr]); no conversion gives zero
    and leaves the whole input. *)
Definition strtofloat (F : float_format) (s : bytes) : spec_float * bytes :=
  let '(_, s1) := span isspace s in
  let '(neg, s2) := match s1 with
                    | c :: r => if is_char 45 c then (true, r)
                                else if is_char 43 c then (false, r) else (false, s1)
                    | [] => (false, s1)
                    end in
  match strtofloat_unsigned F neg s2 with
  | Some res => res
  | None => (S754_zero false, s)
  end.

(** C strings end at the first NUL. *)
Definition c_str (s : bytes) : bytes := fst (span (fun b => negb (is_char 0 b)) s).

Definition strtod (s : bytes) : spec_float := fst (strtofloat binary64 (c_str s)).

(** [strtold] with the number of characters consumed. *)
Definition strtold (s : bytes) : spec_float * Z :=
  let '(x, rest) := strtofloat extended80 (c_str s) in (x, len (c_str s) - len rest).

(** ** Printing: ["%.17Lg"] *)

Fixpoint log10_up (fuel : nat) (num den : Z) (k : Z) : Z :=
  match fuel with
  | O => k
  | S fuel' => if den <=? num then k else log10_up fuel' (10 * num) den (k - 1)
  end.

(** The decimal exponent of [num / den]. *)
Definition dec_exponent (num den : Z) : Z :=
  if den <=? num then len (dec_of_nonneg (num / den)) - 1 else log10_up (Z.to_nat 6000) num den 0.

(** [num / den] rounded to an integer, ties to even. *)
Definition round_div (num den : Z) : Z :=
  let q := num / den in
  let r := num mod den in
  match 2 * r ?= den with Lt => q | Gt => q + 1 | Eq => if Z.even q then q else q + 1 end.

Fixpoint strip_trailing_zeros (ds : bytes) : bytes :=
  match ds with
  | [] => []
  | d :: ds' =>
      match strip_trailing_zeros ds' with
      | [] => if is_char 48 d then [] else [d]
      | r => d :: r
      end
  end.

Definition zeros (n : Z) : bytes := replicate (Z.to_nat n) (byte_of 48).

(** The ["%.17g"] layout of 17 significant digits [ds] with exponent [x]. *)
Definition layout_g (ds : bytes) (x : Z) : bytes :=
  if (-4 <=? x) && (x <? 17) then
    if 0 <=? x then
      let ip := take (Z.to_nat (x + 1)) ds in
      let fp := strip_trailing_zeros (drop (Z.to_nat (x + 1)) ds) in
      ip ++ match fp with [] => [] | _ => lit "." ++ fp end
    else
      lit "0." ++ zeros (- x - 1) ++ strip_trailing_zeros ds
  else
    let fp := strip_trailing_zeros (drop 1 ds) in
    take 1 ds ++ (match fp with [] => [] | _ => lit "." ++ fp end) ++ lit "e" ++
    (if x <? 0 then lit "-" else lit "+") ++
    (if Z.abs x <? 10 then lit "0" else []) ++ dec_of_nonneg (Z.abs x).

Definition format_g17 (x : spec_float) : bytes :=
  match x with
  | S754_nan => lit "nan"
  | S754_infinity s => (if s then lit "-" else []) ++ lit "inf"
  | S754_zero s => (if s then lit "-" else []) ++ lit "0"
  | S754_finite s m e =>
      let num := if 0 <=? e then Zpos m * 2 ^ e else Zpos m in
      let den := if 0 <=? e then 1 else 2 ^ (- e) in
      let x := dec_exponent num den in
      let d := if 16 <=? x then round_div num (den * 10 ^ (x - 16))
               else round_div (num * 10 ^ (16 - x)) den in
      let '(d, x) := if d =? 10 ^ 17 then (10 ^ 16, x + 1) else (d, x) in
      (if s then lit "-" else []) ++ layout_g (dec_of_nonneg d) x
  end.

(** [static_cast<long long>(long double)]: truncation; the out-of-range and
    NaN cases give the x86 "integer indefinite" value. *)
Definition ld_to_ll (x : spec_float) : Z :=
  let indefinite := - 2 ^ 63 in
  match x with
  | S754_zero _ => 0
  | S754_finite s m e =>
      let mag := if 0 <=? e then Zpos m * 2 ^ e else Zpos m / 2 ^ (- e) in
      let v := cond_Zopp s mag in
      if (- 2 ^ 63 <=? v) && (v <? 2 ^ 63) then v else indefinite
  | _ => indefinite
  end.

Definition ld_of_Z (z : Z) : spec_float := binary_normalize 64 16384 z 0 false.
Definition ld_add : spec_float -> spec_float -> spec_float := SFadd 64 16384.
Definition ld_sub : spec_float -> spec_float -> spec_float := SFsub 64 16384.

Example strtold_print : format_g17 (fst (strtold (lit "3.14159265358979323846"))) = lit "3.1415926535897932".
Proof. vm_compute. reflexivity. Qed.

(** ** Rounding yields representable numbers *)

Lemma digits2_bounds m : 2 ^ (Zpos (digits2_pos m) - 1) <= Zpos m < 2 ^ Zpos (digits2_pos m).
Proof.
  induction m as [m IH|m IH|]; simpl digits2_pos; [| |cbn; lia];
    rewrite Pos2Z.inj_succ; unfold Z.succ;
    replace (Zpos (digits2_pos m) + 1 - 1) with ((Zpos (digits2_pos m) - 1) + 1) by lia;
    rewrite !(Z.pow_add_r 2 _ 1) by lia; rewrite !Z.pow_1_r; lia.
Qed.

Lemma Zdigits2_bounds m : 0 < m -> 0 < Zdigits2 m /\ 2 ^ (Zdigits2 m - 1) <= m < 2 ^ Zdigits2 m.
Proof. destruct m as [|m|m]; try lia. intros _. split; [done|]. apply digits2_bounds. Qed.

Lemma Zdigits2_unique m k : 0 < k -> 2 ^ (k - 1) <= m < 2 ^ k -> Zdigits2 m = k.
Proof.
  intros Hk Hm. assert (0 < 2 ^ (k - 1)) by (apply Z.pow_pos_nonneg; lia).
  destruct (Zdigits2_bounds m ltac:(lia)) as [Hd Hb].
  destruct (Z.lt_trichotomy (Zdigits2 m) k) as [H1|[H1|H1]]; [|done|].
  - assert (2 ^ Zdigits2 m <= 2 ^ (k - 1)) by (apply Z.pow_le_mono_r; lia). lia.
  - assert (2 ^ k <= 2 ^ (Zdigits2 m - 1)) by (apply Z.pow_le_mono_r; lia). lia.
Qed.

Lemma shr_1_m r : 0 <= shr_m r -> shr_m (shr_1 r) = shr_m r / 2.
Proof.
  destruct r as [m rr ss]; simpl. destruct m as [|[p|p|]|p]; simpl; try lia; intros _; try reflexivity.
  - rewrite (Pos2Z.inj_xI p), Z.mul_comm, Z.add_comm, Z.div_add by lia. reflexivity.
  - rewrite (Pos2Z.inj_xO p), Z.mul_comm, Z.div_mul by lia. reflexivity.
Qed.

Lemma iter_shr_m n r : 0 <= shr_m r -> shr_m (SpecFloat.iter_pos shr_1 n r) = shr_m r / 2 ^ Zpos n.
Proof.
  revert r. induction n as [n IH|n IH|]; intros r Hr; simpl SpecFloat.iter_pos.
  - assert (0 <= shr_m (shr_1 r)) by (rewrite shr_1_m by done; apply Z.div_pos; lia).
    assert (0 <= shr_m (SpecFloat.iter_pos shr_1 n (shr_1 r))) by (rewrite IH by done; apply Z.div_pos; lia).
    rewrite !IH, shr_1_m by done. rewrite !Z.div_div by lia. f_equal.
    rewrite (Pos2Z.inj_xI n). rewrite Z.pow_add_r, Z.pow_1_r by lia.
    replace (2 * Zpos n) with (Zpos n + Zpos n) by lia. rewrite Z.pow_add_r by lia. lia.
  - assert (0 <= shr_m (SpecFloat.iter_pos shr_1 n r)) by (rewrite IH by done; apply Z.div_pos; lia).
    rewrite !IH by done. rewrite !Z.div_div by lia. f_equal.
    rewrite (Pos2Z.inj_xO n). replace (2 * Zpos n) with (Zpos n + Zpos n) by lia.
    rewrite Z.pow_add_r by lia. lia.
  - rewrite shr_1_m by done. by rewrite Z.pow_1_r.
Qed.

(** A representable number that is not NaN. *)
Definition proper (p emx : Z) (x : spec_float) : Prop := valid_binary p emx x = true /\ x <> S754_nan.

Section RoundValid.
Context (p emx : Z) (Hp : 0 < p) (Hpe : p < emx).
Abbreviation fe := (fexp p emx).

Lemma shr_fexp_spec m e l :
  0 <= m -> e <= fe (Zdigits2 m + e) ->
  let n := fe (Zdigits2 m + e) - e in
  shr_m (fst (shr_fexp p emx m e l)) = m / 2 ^ n /\ snd (shr_fexp p emx m e l) = e + n.
Proof.
  intros Hm He n. unfold shr_fexp. fold n.
  assert (Hrec : shr_m (shr_record_of_loc m l) = m) by (destruct l as [|[]]; reflexivity).
  unfold shr. destruct n as [|q|q] eqn:En; simpl.
  - rewrite Hrec, Z.div_1_r. split; lia.
  - rewrite iter_shr_m, Hrec by lia. done.
  - lia.
Qed.

(** Dividing by a power of two that leaves a non-zero quotient lowers the
    digit count by the exponent. *)
Lemma digits_div m n :
  0 < m -> 0 <= n < Zdigits2 m -> Zdigits2 (m / 2 ^ n) = Zdigits2 m - n.
Proof.
  intros Hm Hn. destruct (Zdigits2_bounds m Hm) as [Hd [Hlo Hhi]].
  apply Zdigits2_unique; [lia|]. assert (0 < 2 ^ n) by (apply Z.pow_pos_nonneg; lia). split.
  - apply Z.div_le_lower_bound; [done|]. rewrite <- Z.pow_add_r by lia.
    replace (n + (Zdigits2 m - n - 1)) with (Zdigits2 m - 1) by lia. done.
  - apply Z.div_lt_upper_bound; [done|]. rewrite <- Z.pow_add_r by lia.
    replace (n + (Zdigits2 m - n)) with (Zdigits2 m) by lia. done.
Qed.

(** The truncated mantissa is canonical, or zero at the least exponent. *)
Lemma truncated_canonical m e :
  0 <= m -> e <= fe (Zdigits2 m + e) ->
  let n := fe (Zdigits2 m + e) - e in
  let m1 := m / 2 ^ n in
  0 <= m1 /\ (0 < m1 /\ fe (Zdigits2 m1 + (e + n)) = e + n \/ m1 = 0 /\ e + n = emin p emx).
Proof.
  intros Hm He n m1. assert (0 < 2 ^ n) by (apply Z.pow_pos_nonneg; lia).
  assert (0 <= m1) by (apply Z.div_pos; lia). split; [done|].
  destruct (Z.eq_dec m 0) as [->|Hm0].
  { right. split; [by apply Z.div_0_l; lia|]. unfold n, fexp in *. simpl Zdigits2 in *. lia. }
  destruct (Zdigits2_bounds m ltac:(lia)) as [Hd [Hlo Hhi]].
  destruct (Z.lt_ge_cases n (Zdigits2 m)) as [Hn|Hn].
  - left. split.
    + apply Z.div_str_pos. split; [done|]. etransitivity; [|exact Hlo]. apply Z.pow_le_mono_r; lia.
    + unfold m1. rewrite digits_div by lia. replace (Zdigits2 m - n + (e + n)) with (Zdigits2 m + e) by lia.
      unfold n. lia.
  - right. split.
    + apply Z.div_small. split; [done|]. eapply Z.lt_le_trans; [exact Hhi|]. apply Z.pow_le_mono_r; lia.
    + unfold n, fexp in *. lia.
Qed.

Lemma round_nearest_even_step m l : round_nearest_even m l = m \/ round_nearest_even m l = m + 1.
Proof. destruct l as [|[]]; simpl; auto. destruct (Z.even m); auto. Qed.

(** Rounding up moves to the next power of two at most. *)
Lemma digits_succ m : 0 < m ->
  Zdigits2 (m + 1) = Zdigits2 m \/ m + 1 = 2 ^ Zdigits2 m /\ Zdigits2 (m + 1) = Zdigits2 m + 1.
Proof.
  intros Hm. destruct (Zdigits2_bounds m Hm) as [Hd [Hlo Hhi]].
  destruct (Z.eq_dec (m + 1) (2 ^ Zdigits2 m)) as [E|E].
  - right. split; [done|]. apply Zdigits2_unique; [lia|]. rewrite E.
    replace (Zdigits2 m + 1 - 1) with (Zdigits2 m) by lia. split; [lia|]. apply Z.pow_lt_mono_r; lia.
  - left. apply Zdigits2_unique; lia.
Qed.

Lemma renormalise m e :
  0 < m -> e <= fe (Zdigits2 m + e) <= e + 1 ->
  (fe (Zdigits2 m + e) = e + 1 -> m = 2 ^ (Zdigits2 m - 1) /\ 1 < Zdigits2 m) ->
  let r := shr_fexp p emx m e loc_Exact in
  0 < shr_m (fst r) /\ fe (Zdigits2 (shr_m (fst r)) + snd r) = snd r.
Proof.
  intros Hm He Hpow r. destruct (shr_fexp_spec m e loc_Exact ltac:(lia) ltac:(lia)) as [E1 E2].
  unfold r. rewrite E1, E2. destruct (Z.eq_dec (fe (Zdigits2 m + e)) e) as [H0|H0].
  - rewrite H0, Z.sub_diag, Z.div_1_r, Z.add_0_r. done.
  - assert (H1 : fe (Zdigits2 m + e) = e + 1) by lia. destruct (Hpow H1) as [Em Hd].
    rewrite H1. replace (e + 1 - e) with 1 by lia.
    rewrite (digits_div m 1) by lia. replace (Zdigits2 m - 1 + (e + 1)) with (Zdigits2 m + e) by lia.
    split; [|done]. apply Z.div_str_pos. split; [lia|]. rewrite Em.
    change (2 ^ 1) with (2 ^ (1 + 0)). apply Z.pow_le_mono_r; lia.
Qed.

Lemma binary_round_aux_valid s m e l :
  0 <= m -> e <= fe (Zdigits2 m + e) -> proper p emx (binary_round_aux p emx s m e l).
Proof.
  intros Hm He. unfold binary_round_aux.
  destruct (shr_fexp_spec m e l Hm He) as [E1 E2].
  destruct (truncated_canonical m e Hm He) as [Hnn Hcan].
  destruct (shr_fexp p emx m e l) as [mrs1 e1]. simpl in E1, E2. rewrite <- E1, <- E2 in *.
  set (m2 := round_nearest_even (shr_m mrs1) (loc_of_shr_record mrs1)).
  assert (Hr : shr_m (fst (shr_fexp p emx m2 e1 loc_Exact)) = 0 \/
    0 < shr_m (fst (shr_fexp p emx m2 e1 loc_Exact)) /\
    fe (Zdigits2 (shr_m (fst (shr_fexp p emx m2 e1 loc_Exact))) + snd (shr_fexp p emx m2 e1 loc_Exact))
    = snd (shr_fexp p emx m2 e1 loc_Exact)).
  { destruct Hcan as [[Hpos Hc]|[H0 He1]].
    - right. destruct (round_nearest_even_step (shr_m mrs1) (loc_of_shr_record mrs1)) as [E|E];
        fold m2 in E; rewrite E.
      + apply renormalise; lia.
      + destruct (Zdigits2_bounds (shr_m mrs1) Hpos) as [Hd _].
        apply renormalise; [lia| |]; destruct (digits_succ (shr_m mrs1) Hpos) as [Ed|[Ep Ed]]; rewrite Ed;
          unfold fexp in *; try lia.
        intros _. split; [|lia]. rewrite Ep. f_equal. lia.
    - destruct (round_nearest_even_step (shr_m mrs1) (loc_of_shr_record mrs1)) as [E|E];
        fold m2 in E; rewrite E, H0.
      + left. destruct (shr_fexp_spec 0 e1 loc_Exact) as [F _]; [lia|unfold fexp; simpl; lia|].
        rewrite F. apply Z.div_0_l. apply Z.pow_nonzero; [lia|]. unfold fexp. simpl. lia.
      + right. apply renormalise; [lia| |]; change (Zdigits2 (0 + 1)) with 1; unfold fexp; lia. }
  destruct (shr_fexp p emx m2 e1 loc_Exact) as [mrs2 e2]. simpl in Hr.
  destruct (shr_m mrs2) as [|q|q]; [done| |lia].
  destruct (Z.leb_spec e2 (emx - p)); [|done]. split; [|done]. simpl. unfold bounded, canonical_mantissa.
  destruct Hr as [Hr|[_ Hr]]; [done|]. simpl in Hr. rewrite Hr, Z.eqb_refl. simpl. by apply Z.leb_le.
Qed.

Lemma iter_xO m d : Zpos (Pos.iter xO m d) = Zpos m * 2 ^ Zpos d.
Proof.
  revert m. induction d as [|d IH] using Pos.peano_ind; intros m; [simpl; lia|].
  rewrite Pos.iter_succ, Pos2Z.inj_xO, IH, Pos2Z.inj_succ. unfold Z.succ.
  rewrite Z.pow_add_r by lia. lia.
Qed.

Lemma digits_shift m d : 0 < m -> 0 <= d -> Zdigits2 (m * 2 ^ d) = Zdigits2 m + d.
Proof.
  intros Hm Hd. destruct (Zdigits2_bounds m Hm) as [H0 [Hlo Hhi]].
  assert (0 < 2 ^ d) by (apply Z.pow_pos_nonneg; lia).
  apply Zdigits2_unique; [lia|].
  replace (Zdigits2 m + d - 1) with ((Zdigits2 m - 1) + d) by lia.
  rewrite !Z.pow_add_r by lia. nia.
Qed.

Lemma binary_normalize_valid m e s : proper p emx (binary_normalize p emx m e s).
Proof.
  assert (H : forall s q, proper p emx (binary_round p emx s q e)).
  { intros s' q. unfold binary_round, shl_align.
    destruct (fe (Zpos (digits2_pos q) + e) - e) as [|k|k] eqn:E; cbn [fst snd].
    - apply binary_round_aux_valid; [lia|]. simpl Zdigits2. lia.
    - apply binary_round_aux_valid; [lia|]. simpl Zdigits2. lia.
    - apply binary_round_aux_valid; [lia|]. rewrite iter_xO, digits_shift by lia. simpl Zdigits2.
      replace (Zpos (digits2_pos q) + Zpos k + fe (Zpos (digits2_pos q) + e))
        with (Zpos (digits2_pos q) + e) by lia. lia. }
  destruct m; simpl; auto. done.
Qed.

Lemma div_core_valid s m1 m2 :
  0 < m1 -> 0 < m2 ->
  let '(q, e, l) := SFdiv_core_binary p emx m1 0 m2 0 in
  proper p emx (binary_round_aux p emx s q e l).
Proof.
  intros H1 H2. unfold SFdiv_core_binary.
  set (e' := Z.min (fe (Zdigits2 m1 + 0 - (Zdigits2 m2 + 0))) (0 - 0)).
  set (sh := 0 - 0 - e'). assert (Hsh : 0 <= sh) by (unfold sh, e'; lia).
  assert (Em : (match sh with Zpos _ => Z.shiftl m1 sh | Z0 => m1 | Zneg _ => 0 end) = m1 * 2 ^ sh).
  { destruct sh eqn:E; [lia|rewrite Z.shiftl_mul_pow2 by lia; done|lia]. }
  rewrite Em. pose proof (Z_div_mod (m1 * 2 ^ sh) m2 ltac:(lia)) as Hqr.
  destruct (Z.div_eucl (m1 * 2 ^ sh) m2) as [q r]. destruct Hqr as [Hq Hr].
  assert (Hq0 : 0 <= q) by nia.
  apply binary_round_aux_valid; [done|].
  destruct (Zdigits2_bounds m1 H1) as [Hd1 [Hlo1 _]]. destruct (Zdigits2_bounds m2 H2) as [Hd2 [_ Hhi2]].
  assert (Hdq : Zdigits2 m1 + sh - Zdigits2 m2 <= Zdigits2 q).
  { destruct (Z.le_gt_cases (Zdigits2 m1 + sh - Zdigits2 m2) 0) as [Hle|Hgt].
    - destruct q as [|q|q]; simpl in *; lia.
    - assert (Hlow : 2 ^ (Zdigits2 m1 + sh - Zdigits2 m2 - 1) <= q).
      { apply Z.lt_succ_r. apply (Z.mul_lt_mono_pos_l m2); [done|].
        assert (Ha : m2 * 2 ^ (Zdigits2 m1 + sh - Zdigits2 m2 - 1) < 2 ^ (Zdigits2 m1 - 1 + sh)).
        { replace (Zdigits2 m1 - 1 + sh) with (Zdigits2 m2 + (Zdigits2 m1 + sh - Zdigits2 m2 - 1)) by lia.
          rewrite (Z.pow_add_r 2 (Zdigits2 m2)) by lia. apply Z.mul_lt_mono_pos_r; [apply Z.pow_pos_nonneg; lia|done]. }
        rewrite Z.pow_add_r in Ha by lia. assert (0 < 2 ^ sh) by (apply Z.pow_pos_nonneg; lia). nia. }
      assert (0 < 2 ^ (Zdigits2 m1 + sh - Zdigits2 m2 - 1)) by (apply Z.pow_pos_nonneg; lia).
      destruct (Zdigits2_bounds q ltac:(lia)) as [Hdq [_ Hhiq]].
      assert (Hlt : 2 ^ (Zdigits2 m1 + sh - Zdigits2 m2 - 1) < 2 ^ Zdigits2 q) by lia.
      apply Z.pow_lt_mono_r_iff in Hlt; lia. }
  unfold e', sh, fexp in *. lia.
Qed.
End RoundValid.

Record format_ok (F : float_format) : Prop := { prec_pos : 0 < prec F; prec_emax : prec F < emax F }.

#[export] Hint Extern 1 (format_ok _) => (split; reflexivity) : cyn.

Lemma round_decimal_valid F neg num e :
  format_ok F -> proper (prec F) (emax F) (round_decimal F neg num e).
Proof.
  intros [Hp He]. unfold round_decimal. destruct num as [|m|m]; try done.
  destruct (Z.leb_spec 0 e).
  - by apply binary_normalize_valid.
  - pose proof (div_core_valid (prec F) (emax F) Hp neg (Zpos m) (10 ^ (- e)) ltac:(lia) ltac:(apply Z.pow_pos_nonneg; lia)) as Hv.
    by destruct (SFdiv_core_binary _ _ _ _ _ _) as [[q e'] l].
Qed.

Lemma strtofloat_valid F s : format_ok F -> valid_binary (prec F) (emax F) (fst (strtofloat F s)) = true.
Proof.
  intros HF. pose proof HF as [Hp He]. unfold strtofloat. destruct (span isspace s) as [sp s1].
  match goal with |- context [let '(_, _) := ?x in _] => destruct x as [neg s2] end.
  unfold strtofloat_unsigned.
  repeat match goal with
  | |- context [match ?x with _ => _ end] =>
      lazymatch x with context [match _ with _ => _ end] => fail | _ => destruct x end
  end; simpl; try reflexivity; try (by apply round_decimal_valid); by apply binary_normalize_valid.
Qed.

Lemma strtod_valid s : valid_binary 53 1024 (strtod s) = true.
Proof. apply (strtofloat_valid binary64). auto with cyn. Qed.
