(* ===== verification/LongDouble.v ===== *)
(** * Integers in long doubles

    The program computes with numbers as [long double], the extended format with
    64 bits of precision.  Here: integers below [2^64] are exact in it, comparing
    and adding them compares and adds the integers, and decimal text is read back
    without loss. *)

From Stdlib Require Import ZArith Lia Strings.String SpecFloat.
From stdpp Require Import prelude.
From S2P Require Import Prelude CLib.

(** ** Integers in the extended format *)

Lemma binary_round_aux_exact p emx s m e :
  fexp p emx (Zpos (digits2_pos m) + e) = e -> e <= emx - p -> binary_round_aux p emx s (Zpos m) e loc_Exact = S754_finite s m e.
Proof.
  intros He Hmax. assert (Hs : shr_fexp p emx (Zpos m) e loc_Exact = ({| shr_m := Zpos m; shr_r := false; shr_s := false |}, e)).
  { unfold shr_fexp. cbn [Zdigits2]. rewrite He, Z.sub_diag. done. }
  unfold binary_round_aux. rewrite Hs. cbn [shr_m loc_of_shr_record round_nearest_even]. rewrite Hs. cbn [shr_m].
  by destruct (Z.leb_spec e (emx - p)); [|lia].
Qed.

(** Shifting out zero bits is exact. *)
Lemma shr_1_double m : 0 < m -> shr_1 {| shr_m := 2 * m; shr_r := false; shr_s := false |} = {| shr_m := m; shr_r := false; shr_s := false |}.
Proof. destruct m; (lia || done). Qed.

Lemma shr_exact n : forall m, 0 < m ->
  SpecFloat.iter_pos shr_1 n {| shr_m := m * 2 ^ Zpos n; shr_r := false; shr_s := false |} = {| shr_m := m; shr_r := false; shr_s := false |}.
Proof.
  induction n as [n IH|n IH|]; intros m Hm; cbn [SpecFloat.iter_pos].
  - assert (0 < 2 ^ Zpos n) by lia. replace (m * 2 ^ Zpos n~1) with (2 * (m * 2 ^ Zpos n * 2 ^ Zpos n)).
    + rewrite shr_1_double by nia. rewrite IH by nia. by apply IH.
    + rewrite (Pos2Z.inj_xI n), Z.pow_add_r, Z.pow_twice_r by lia. ring.
  - assert (0 < 2 ^ Zpos n) by lia. replace (m * 2 ^ Zpos n~0) with (m * 2 ^ Zpos n * 2 ^ Zpos n).
    + rewrite IH by nia. by apply IH.
    + rewrite (Pos2Z.inj_xO n), Z.pow_twice_r by lia. ring.
  - rewrite Z.mul_comm. by apply shr_1_double.
Qed.

(** An integer that fits the precision, scaled by a power of two and back, is
    represented exactly, with a full mantissa. *)
Section Exact.
Context (p : Z).
Hypothesis Hp : 0 < p.

Lemma Zdigits2_fits z : 0 < z < 2 ^ p -> 0 < Zdigits2 z <= p.
Proof.
  intros Hz. destruct (Zdigits2_bounds z ltac:(lia)) as [Hd [Hlo _]]. split; [done|].
  destruct (Z.le_gt_cases (Zdigits2 z) p) as [|Hgt]; [done|]. assert (2 ^ p <= 2 ^ (Zdigits2 z - 1)) by (apply Z.pow_le_mono_r; lia). lia.
Qed.

(** The full mantissa of an integer. *)
Lemma full_mantissa z : 0 < z < 2 ^ p -> exists m, Zpos m = z * 2 ^ (p - Zdigits2 z) /\ Zpos (digits2_pos m) = p.
Proof.
  intros Hz. pose proof (Zdigits2_fits z Hz) as Hd. assert (0 < 2 ^ (p - Zdigits2 z)) by (apply Z.pow_pos_nonneg; lia).
  exists (Z.to_pos (z * 2 ^ (p - Zdigits2 z))). assert (Hm : Zpos (Z.to_pos (z * 2 ^ (p - Zdigits2 z))) = z * 2 ^ (p - Zdigits2 z)) by (rewrite Z2Pos.id; nia).
  split; [done|]. change (Zpos (digits2_pos (Z.to_pos (z * 2 ^ (p - Zdigits2 z))))) with (Zdigits2 (Zpos (Z.to_pos (z * 2 ^ (p - Zdigits2 z))))).
  rewrite Hm, digits_shift by lia. lia.
Qed.

(** The value is [z * 2^j], within the range of the format. *)
Context (emx j : Z).
Hypothesis Hmax : p + j <= emx.
Hypothesis Hmin : 3 - emx <= j.

Lemma fexp_full z x e : 0 < Zdigits2 z -> x + e = Zdigits2 z + j -> fexp p emx (x + e) = Zdigits2 z + j - p.
Proof. intros Hd ->. unfold fexp, emin. lia. Qed.

(** Rounding drops zero bits only. *)
Lemma round_aux_scaled s q z k m : 0 < z < 2 ^ p -> Zpos q = z * 2 ^ k -> p <= Zdigits2 z + k -> 0 <= k ->
  Zpos m = z * 2 ^ (p - Zdigits2 z) -> Zpos (digits2_pos m) = p ->
  binary_round_aux p emx s (Zpos q) (j - k) loc_Exact = S754_finite s m (Zdigits2 z + j - p).
Proof.
  intros Hz Hq Hk Hk0 Hm Hdm. pose proof (Zdigits2_fits z Hz) as Hd. set (d := Zdigits2 z) in *.
  assert (Hdq : Zpos (digits2_pos q) = d + k) by (change (Zpos (digits2_pos q)) with (Zdigits2 (Zpos q)); rewrite Hq; by apply digits_shift; lia).
  assert (Hs2 : shr_fexp p emx (Zpos m) (d + j - p) loc_Exact = ({| shr_m := Zpos m; shr_r := false; shr_s := false |}, d + j - p)).
  { unfold shr_fexp. cbn [Zdigits2]. rewrite Hdm, (fexp_full z p (d + j - p)), Z.sub_diag by (fold d; lia). done. }
  assert (Hs : shr_fexp p emx (Zpos q) (j - k) loc_Exact = ({| shr_m := Zpos m; shr_r := false; shr_s := false |}, d + j - p)).
  { destruct (d + j - p - (j - k)) as [|n|n] eqn:En; [| |lia].
    - replace (j - k) with (d + j - p) by lia. assert (q = m) as -> by (apply (inj Zpos); rewrite Hq, Hm; do 2 f_equal; lia). exact Hs2.
    - unfold shr_fexp. cbn [Zdigits2]. rewrite Hdq, (fexp_full z (d + k) (j - k)) by (fold d; lia). fold d. rewrite En. cbn [shr shr_record_of_loc]. f_equal; [|lia].
      replace (Zpos q) with (Zpos m * 2 ^ Zpos n); [by apply shr_exact|]. rewrite Hq, Hm, <- Z.mul_assoc, <- Z.pow_add_r by lia. do 2 f_equal. lia. }
  unfold binary_round_aux. rewrite Hs. cbn [shr_m loc_of_shr_record round_nearest_even]. rewrite Hs2. cbn [shr_m].
  by destruct (Z.leb_spec (d + j - p) (emx - p)); [|lia].
Qed.

Lemma round_scaled_at s q z k : 0 < z < 2 ^ p -> 0 <= k -> Zpos q = z * 2 ^ k ->
  exists m, binary_round p emx s q (j - k) = S754_finite s m (Zdigits2 z + j - p) /\ Zpos m = z * 2 ^ (p - Zdigits2 z).
Proof.
  intros Hz Hk Hq. pose proof (Zdigits2_fits z Hz) as Hd. destruct (full_mantissa z Hz) as (m & Hm & Hdm). exists m. split; [|done].
  assert (Hdq : Zpos (digits2_pos q) = Zdigits2 z + k) by (change (Zpos (digits2_pos q)) with (Zdigits2 (Zpos q)); rewrite Hq; by apply digits_shift; lia).
  unfold binary_round, shl_align. rewrite Hdq, (fexp_full z (Zdigits2 z + k) (j - k)) by lia. destruct (Zdigits2 z + j - p - (j - k)) as [|n|n] eqn:En.
  - apply (round_aux_scaled s q z k m); (done || lia).
  - apply (round_aux_scaled s q z k m); (done || lia).
  - assert (Pos.iter xO q n = m) as -> by (apply (inj Zpos); rewrite iter_xO, Hq, Hm, <- Z.mul_assoc, <- Z.pow_add_r by lia; do 2 f_equal; lia).
    apply binary_round_aux_exact; [rewrite Hdm; apply fexp_full; lia|lia].
Qed.
End Exact.

Lemma Zdigits2_64 z : 0 < z < 2 ^ 64 -> 0 < Zdigits2 z <= 64.
Proof. by apply Zdigits2_fits. Qed.

Lemma round_scaled s q z k : 0 < z < 2 ^ 64 -> 0 <= k -> Zpos q = z * 2 ^ k ->
  exists m, binary_round 64 16384 s q (- k) = S754_finite s m (Zdigits2 z - 64) /\ Zpos m = z * 2 ^ (64 - Zdigits2 z).
Proof. intros. destruct (round_scaled_at 64 ltac:(lia) 16384 0 ltac:(lia) ltac:(lia) s q z k) as (m & E & Em); try done. exists m. by rewrite Z.add_0_r in E. Qed.

Lemma ld_exact z : 0 < z < 2 ^ 64 ->
  exists m, ld_of_Z z = S754_finite false m (Zdigits2 z - 64) /\ ld_of_Z (- z) = S754_finite true m (Zdigits2 z - 64) /\ Zpos m = z * 2 ^ (64 - Zdigits2 z).
Proof.
  intros Hz. destruct z as [|q|q]; [lia| |lia].
  destruct (round_scaled false q (Zpos q) 0 Hz) as (m & E & Em); [lia|lia|]. destruct (round_scaled true q (Zpos q) 0 Hz) as (m' & E' & Em'); [lia|lia|].
  exists m. assert (m' = m) as -> by (apply (inj Zpos); congruence). by split; [|split].
Qed.

Lemma Zdigits2_mono a b : 0 < a -> a <= b -> Zdigits2 a <= Zdigits2 b.
Proof.
  intros Ha Hb. destruct (Zdigits2_bounds a Ha) as [_ [Hlo _]]. destruct (Zdigits2_bounds b ltac:(lia)) as [_ [_ Hhi]].
  destruct (Z.le_gt_cases (Zdigits2 a) (Zdigits2 b)) as [|Hgt]; [done|]. assert (2 ^ Zdigits2 b <= 2 ^ (Zdigits2 a - 1)) by (apply Z.pow_le_mono_r; lia). lia.
Qed.

Lemma ld_compare_nonneg a b : 0 <= a < 2 ^ 64 -> 0 <= b < 2 ^ 64 -> SFcompare (ld_of_Z a) (ld_of_Z b) = Some (a ?= b).
Proof.
  intros Ha Hb. destruct (Z.eq_dec a 0) as [->|Ha0], (Z.eq_dec b 0) as [->|Hb0].
  - done.
  - destruct (ld_exact b ltac:(lia)) as (m & -> & _ & _). by destruct b; [lia| |lia].
  - destruct (ld_exact a ltac:(lia)) as (m & -> & _ & _). by destruct a; [lia| |lia].
  - destruct (ld_exact a ltac:(lia)) as (m & -> & _ & Em). destruct (ld_exact b ltac:(lia)) as (n & -> & _ & En). cbn [SFcompare]. f_equal.
    destruct (Z.compare_spec (Zdigits2 a - 64) (Zdigits2 b - 64)) as [E|E|E].
    + replace (Zdigits2 b) with (Zdigits2 a) in En by lia. change (Pos.compare_cont Eq m n) with (Zpos m ?= Zpos n). rewrite Em, En.
      destruct (Zdigits2_bounds a ltac:(lia)) as [Hd [Hlo Hhi]].
      assert (0 < 2 ^ (64 - Zdigits2 a)).
      { apply Z.pow_pos_nonneg; [lia|]. pose proof (Zdigits2_mono a (2 ^ 64 - 1) ltac:(lia) ltac:(lia)) as Hx. change (Zdigits2 (2 ^ 64 - 1)) with 64 in Hx. lia. }
      destruct (Z.compare_spec a b); [subst; by rewrite Z.compare_refl|apply Z.compare_lt_iff; nia|apply Z.compare_gt_iff; nia].
    + symmetry. apply Z.compare_lt_iff. destruct (Z.lt_ge_cases a b); [done|]. pose proof (Zdigits2_mono b a ltac:(lia) ltac:(lia)). lia.
    + symmetry. apply Z.compare_gt_iff. destruct (Z.lt_ge_cases b a); [done|]. pose proof (Zdigits2_mono a b ltac:(lia) ltac:(lia)). lia.
Qed.

(** *** Signs *)

Lemma ld_opp z : 0 < z < 2 ^ 64 -> ld_of_Z (- z) = SFopp (ld_of_Z z).
Proof. intros Hz. by destruct (ld_exact z Hz) as (m & -> & -> & _). Qed.

Lemma SFcompare_opp x y : SFcompare (SFopp x) (SFopp y) = SFcompare y x.
Proof.
  destruct x as [sx|sx| |sx mx ex], y as [sy|sy| |sy my ey]; try (by destruct sx); try (by destruct sy); try done; destruct sx, sy; try done; cbn [SFcompare SFopp negb];
    rewrite (Z.compare_antisym ex ey); destruct (ex ?= ey); try done; cbn [CompOpp]; f_equal;
    change (Pos.compare_cont Eq mx my) with (Pos.compare mx my); change (Pos.compare_cont Eq my mx) with (Pos.compare my mx);
    rewrite (Pos.compare_antisym mx my); by destruct (Pos.compare mx my).
Qed.

Lemma ld_compare a b : Z.abs a < 2 ^ 64 -> Z.abs b < 2 ^ 64 -> SFcompare (ld_of_Z a) (ld_of_Z b) = Some (a ?= b).
Proof.
  intros Ha Hb. destruct (Z.lt_ge_cases a 0) as [Ha0|Ha0], (Z.lt_ge_cases b 0) as [Hb0|Hb0].
  - replace a with (- (- a)) by lia. replace b with (- (- b)) by lia. rewrite (ld_opp (- a)), (ld_opp (- b)) by lia. rewrite SFcompare_opp, ld_compare_nonneg by lia. f_equal.
    rewrite Z.compare_opp. f_equal; lia.
  - replace a with (- (- a)) at 1 by lia. destruct (ld_exact (- a) ltac:(lia)) as (m & _ & -> & _).
    assert ((a ?= b) = Lt) as -> by (apply Z.compare_lt_iff; lia). destruct (Z.eq_dec b 0) as [->|]; [done|]. by destruct (ld_exact b ltac:(lia)) as (m2 & -> & _ & _).
  - replace b with (- (- b)) at 1 by lia. destruct (ld_exact (- b) ltac:(lia)) as (m & _ & -> & _).
    assert ((a ?= b) = Gt) as -> by (apply Z.compare_gt_iff; lia). destruct (Z.eq_dec a 0) as [->|]; [done|]. by destruct (ld_exact a ltac:(lia)) as (m2 & -> & _ & _).
  - apply ld_compare_nonneg; lia.
Qed.

Lemma ld_roundtrip z : Z.abs z < 2 ^ 63 -> ld_to_ll (ld_of_Z z) = z.
Proof.
  intros Hz. destruct (Z.eq_dec z 0) as [->|Hz0]; [done|].
  assert (Hpos : 0 < Z.abs z < 2 ^ 64) by lia. destruct (ld_exact (Z.abs z) Hpos) as (m & E1 & E2 & Em).
  pose proof (Zdigits2_mono (Z.abs z) (2 ^ 63 - 1) ltac:(lia) ltac:(lia)) as Hd. change (Zdigits2 (2 ^ 63 - 1)) with 63 in Hd.
  assert (Hmag : Zpos m / 2 ^ (- (Zdigits2 (Z.abs z) - 64)) = Z.abs z).
  { replace (- (Zdigits2 (Z.abs z) - 64)) with (64 - Zdigits2 (Z.abs z)) by lia.
    assert (0 < 2 ^ (64 - Zdigits2 (Z.abs z))) by (apply Z.pow_pos_nonneg; lia). rewrite Em, Z.div_mul by lia. done. }
  assert (Ez : ld_of_Z z = S754_finite (z <? 0) m (Zdigits2 (Z.abs z) - 64)).
  { destruct (Z.ltb_spec z 0); [rewrite <- E2|rewrite <- E1]; f_equal; lia. }
  rewrite Ez. cbn [ld_to_ll]. destruct (Z.leb_spec 0 (Zdigits2 (Z.abs z) - 64)); [lia|]. rewrite Hmag.
  replace (cond_Zopp (z <? 0) (Z.abs z)) with z by (destruct (Z.ltb_spec z 0); cbn [cond_Zopp]; lia).
  destruct (Z.leb_spec (- 2 ^ 63) z); [|lia]. by destruct (Z.ltb_spec z (2 ^ 63)); [|lia].
Qed.

(** *** Sums and differences *)

Lemma normalize_scaled z k : Z.abs z < 2 ^ 64 -> 0 <= k -> binary_normalize 64 16384 (z * 2 ^ k) (- k) false = ld_of_Z z.
Proof.
  intros Hz Hk. assert (0 < 2 ^ k) by (apply Z.pow_pos_nonneg; lia).
  destruct (Z.lt_trichotomy z 0) as [Hn|[->|Hp]]; [| by rewrite Z.mul_0_l|].
  - destruct (z * 2 ^ k) as [|p|p] eqn:E; [nia|nia|]. cbn [binary_normalize].
    destruct (round_scaled true p (- z) k ltac:(lia) Hk) as (m & -> & Em); [lia|]. destruct (ld_exact (- z) ltac:(lia)) as (m' & _ & E' & Em').
    rewrite Z.opp_involutive in E'. rewrite E'. f_equal. apply (inj Zpos). congruence.
  - destruct (z * 2 ^ k) as [|p|p] eqn:E; [nia| |nia]. cbn [binary_normalize].
    destruct (round_scaled false p z k ltac:(lia) Hk) as (m & -> & Em); [lia|]. destruct (ld_exact z ltac:(lia)) as (m' & -> & _ & Em').
    f_equal. apply (inj Zpos). congruence.
Qed.

(** The finite form of a non-zero integer and its mantissa at a lower exponent. *)
Lemma ld_finite z : z <> 0 -> Z.abs z < 2 ^ 64 -> exists m e, ld_of_Z z = S754_finite (z <? 0) m e /\ e <= 0 /\
  forall ez, ez <= e -> cond_Zopp (z <? 0) (Zpos (fst (shl_align m e ez))) = z * 2 ^ (- ez).
Proof.
  intros Hz0 Hz. assert (Hpos : 0 < Z.abs z < 2 ^ 64) by lia. destruct (ld_exact (Z.abs z) Hpos) as (m & E1 & E2 & Em). pose proof (Zdigits2_64 _ Hpos) as Hd.
  exists m, (Zdigits2 (Z.abs z) - 64). split; [destruct (Z.ltb_spec z 0); [rewrite <- E2|rewrite <- E1]; f_equal; lia|]. split; [lia|].
  intros ez Hez. assert (Hal : Zpos (fst (shl_align m (Zdigits2 (Z.abs z) - 64) ez)) = Z.abs z * 2 ^ (- ez)).
  { unfold shl_align. destruct (ez - (Zdigits2 (Z.abs z) - 64)) as [|n|n] eqn:En; [|lia|]; cbn [fst].
    - rewrite Em. do 2 f_equal. lia.
    - rewrite iter_xO, Em, <- Z.mul_assoc, <- Z.pow_add_r by lia. do 2 f_equal. lia. }
  rewrite Hal. destruct (Z.ltb_spec z 0); cbn [cond_Zopp]; nia.
Qed.

Lemma ld_add_exact a b : Z.abs a < 2 ^ 64 -> Z.abs b < 2 ^ 64 -> Z.abs (a + b) < 2 ^ 64 -> ld_add (ld_of_Z a) (ld_of_Z b) = ld_of_Z (a + b).
Proof.
  intros Ha Hb Hab. destruct (Z.eq_dec a 0) as [->|Ha0], (Z.eq_dec b 0) as [->|Hb0]; [done| | |].
  - destruct (ld_finite b Hb0 Hb) as (m & e & E & _). rewrite Z.add_0_l, E. done.
  - destruct (ld_finite a Ha0 Ha) as (m & e & E & _). rewrite Z.add_0_r, E. done.
  - destruct (ld_finite a Ha0 Ha) as (m & e & -> & He & Hm). destruct (ld_finite b Hb0 Hb) as (n & f & -> & Hf & Hn).
    unfold ld_add, SFadd. rewrite Hm, Hn by lia. rewrite <- Z.mul_add_distr_r. rewrite <- (normalize_scaled (a + b) (- Z.min e f)) by lia. f_equal. lia.
Qed.

Lemma ld_sub_exact a b : Z.abs a < 2 ^ 64 -> Z.abs b < 2 ^ 64 -> Z.abs (a - b) < 2 ^ 64 -> ld_sub (ld_of_Z a) (ld_of_Z b) = ld_of_Z (a - b).
Proof.
  intros Ha Hb Hab. destruct (Z.eq_dec a 0) as [->|Ha0], (Z.eq_dec b 0) as [->|Hb0]; [done| | |].
  - destruct (ld_exact (Z.abs b) ltac:(lia)) as (m & E1 & E2 & _). destruct (Z.lt_ge_cases b 0).
    + replace (ld_of_Z b) with (ld_of_Z (- Z.abs b)) by (f_equal; lia). replace (ld_of_Z (0 - b)) with (ld_of_Z (Z.abs b)) by (f_equal; lia). by rewrite E1, E2.
    + replace (ld_of_Z b) with (ld_of_Z (Z.abs b)) by (f_equal; lia). replace (ld_of_Z (0 - b)) with (ld_of_Z (- Z.abs b)) by (f_equal; lia). by rewrite E1, E2.
  - destruct (ld_finite a Ha0 Ha) as (m & e & E & _). rewrite Z.sub_0_r, E. done.
  - destruct (ld_finite a Ha0 Ha) as (m & e & -> & He & Hm). destruct (ld_finite b Hb0 Hb) as (n & f & -> & Hf & Hn).
    unfold ld_sub, SFsub. rewrite Hm, Hn by lia. rewrite <- Z.mul_sub_distr_r. rewrite <- (normalize_scaled (a - b) (- Z.min e f)) by lia. f_equal. lia.
Qed.

(** Reading back a printed integer. *)
Lemma digit_class c : isdigit c = true ->
  is_char 0 c = false /\ isspace c = false /\ is_char 45 c = false /\ is_char 43 c = false /\ toupper c = c /\ c <> Byte.x49 /\ c <> Byte.x4e /\ c <> Byte.x58.
Proof. destruct c; vm_compute; (discriminate || (intros _; repeat split; discriminate)). Qed.

Lemma starts_other c s x p : c <> x -> starts_with (c :: s) (x :: p) = false.
Proof. intros H. cbn [starts_with]. by rewrite bool_decide_eq_false_2. Qed.

Lemma digits_no_letters ds : ds <> [] -> Forall (fun b => isdigit b = true) ds ->
  starts_with (upper_bytes ds) (lit "INFINITY") = false /\ starts_with (upper_bytes ds) (lit "INF") = false /\
  starts_with (upper_bytes ds) (lit "NAN") = false /\ starts_with (upper_bytes ds) (lit "0X") = false.
Proof.
  intros Hne Hd. destruct ds as [|c ds]; [done|]. inversion Hd as [|? ? Hc Hds]; subst. destruct (digit_class c Hc) as (_ & _ & _ & _ & Hu & HI & HN & _).
  unfold upper_bytes. cbn [map]. rewrite Hu. repeat split; try by apply starts_other.
  change (lit "0X") with [Byte.x30; Byte.x58]. cbn [starts_with]. destruct ds as [|d ds]; [by rewrite andb_false_r|].
  inversion Hds as [|? ? Hd' _]; subst. destruct (digit_class d Hd') as (_ & _ & _ & _ & Hu' & _ & _ & HX). cbn [map]. rewrite Hu'.
  rewrite (bool_decide_eq_false_2 (d = Byte.x58)) by done. cbn [andb]. apply andb_false_r.
Qed.

Lemma strtofloat_digits neg n : 0 <= n ->
  strtofloat_unsigned extended80 neg (dec_of_nonneg n) = Some (round_decimal extended80 neg n 0, []).
Proof.
  intros Hn. pose proof (dec_of_isdigit n Hn) as Hd. pose proof (dec_of_nonempty n) as Hne. pose proof (parse_dec_of n Hn) as Hp.
  destruct (digits_no_letters _ Hne Hd) as (H1 & H2 & H3 & H4). set (ds := dec_of_nonneg n) in *.
  unfold strtofloat_unsigned. rewrite H1, H2, H3, H4. unfold parse_mantissa. rewrite span_all by done.
  destruct ds as [|c ds']; [done|]. cbn [parse_exponent]. by rewrite app_nil_r, Hp.
Qed.

Lemma round_decimal_int neg n : 0 < n \/ n = 0 /\ neg = false -> round_decimal extended80 neg n 0 = ld_of_Z (cond_Zopp neg n).
Proof.
  intros Hn. destruct n as [|q|q]; [|clear Hn|lia]; [by destruct Hn as [|[_ ->]]; [lia|]|]. unfold round_decimal, ld_of_Z.
  change (0 <=? 0) with true. cbv iota. rewrite Z.mul_1_r. by destruct neg.
Qed.

Lemma strtold_dec n : strtold (dec_of_Z n) = (ld_of_Z n, len (dec_of_Z n)).
Proof.
  assert (Hdig : forall k b, 0 <= k -> In b (dec_of_nonneg k) -> isdigit b = true).
  { intros k b Hk Hb. pose proof (dec_of_isdigit k Hk) as Hd. rewrite Forall_forall in Hd. by apply Hd, list_elem_of_In. }
  assert (Hc : c_str (dec_of_Z n) = dec_of_Z n).
  { unfold c_str. rewrite span_all; [done|]. apply Forall_forall. intros b Hb%list_elem_of_In. unfold dec_of_Z in Hb.
    destruct (n <? 0) eqn:E; [destruct Hb as [<-|Hb]; [done|]|]; apply Hdig in Hb; try lia; by destruct (digit_class b Hb) as (-> & _). }
  unfold strtold, strtofloat. rewrite Hc. unfold dec_of_Z in *. destruct (Z.ltb_spec n 0) as [Hn|Hn].
  - change (lit "-" ++ dec_of_nonneg (- n)) with (Byte.x2d :: dec_of_nonneg (- n)) in *. simpl span. cbv iota beta. change (is_char 45 Byte.x2d) with true. cbv iota.
    rewrite strtofloat_digits, round_decimal_int by lia. cbn [cond_Zopp]. rewrite Z.opp_involutive. by rewrite Z.sub_0_r.
  - pose proof (dec_of_nonempty n) as Hne. pose proof (strtofloat_digits false n Hn) as Hu. rewrite round_decimal_int in Hu by (destruct (Z.eq_dec n 0); [right|left]; (done || lia)).
    cbn [cond_Zopp] in Hu. destruct (dec_of_nonneg n) as [|c ds] eqn:Eds; [done|].
    assert (Hc1 : isdigit c = true) by (apply (Hdig n); [done|]; rewrite Eds; by left).
    destruct (digit_class c Hc1) as (_ & Hs & Hm & Hpl & _). assert (Hsp : span isspace (c :: ds) = ([], c :: ds)) by (simpl; by rewrite Hs).
    rewrite Hsp, Hm, Hpl, Hu. by rewrite Z.sub_0_r.
Qed.
