(* ===== verification/Double.v ===== *)
(** * Exact arithmetic in doubles

    The program computes capacity units in [double].  Here: the doubles that are
    small integers divided by a power of two ([dy n j] is [n * 2^j]), on which
    multiplication, division by a power of two, [std::ceil], [std::max] and the
    conversion to a 64-bit integer are exact. *)

From Stdlib Require Import ZArith Lia SpecFloat.
From stdpp Require Import prelude.
From S2P Require Import Prelude CLib LongDouble.

Definition dbl_mul : spec_float -> spec_float -> spec_float := SFmul 53 1024.
Definition dbl_div : spec_float -> spec_float -> spec_float := SFdiv 53 1024.

(** The double nearest to [n * 2^j]. *)
Definition dy (n j : Z) : spec_float := binary_normalize 53 1024 n j false.

(** [static_cast<double>] of an unsigned integer *)
Definition dbl_of_Z (z : Z) : spec_float := dy z 0.

(** [std::ceil] of a non-negative number *)
Definition dbl_ceil (x : spec_float) : spec_float :=
  match x with
  | S754_finite false m e => if 0 <=? e then x else dbl_of_Z (- (- Zpos m / 2 ^ (- e)))
  | _ => x
  end.

(** [std::max(a, b)]: [b] if [a < b] *)
Definition dbl_max (a b : spec_float) : spec_float := if SFltb a b then b else a.

(** ** Representation *)

Lemma dy_exact n j : 0 < n < 2 ^ 53 -> -100 <= j <= 100 ->
  exists m, dy n j = S754_finite false m (Zdigits2 n + j - 53) /\ Zpos m = n * 2 ^ (53 - Zdigits2 n) /\ Zpos (digits2_pos m) = 53.
Proof.
  intros Hn Hj. destruct n as [|q|q]; [lia| |lia]. unfold dy. cbn [binary_normalize].
  destruct (round_scaled_at 53 ltac:(lia) 1024 j ltac:(lia) ltac:(lia) false q (Zpos q) 0 Hn ltac:(lia) ltac:(lia)) as (m & E & Em).
  rewrite Z.sub_0_r in E. exists m. split; [done|]. split; [done|].
  change (Zpos (digits2_pos m)) with (Zdigits2 (Zpos m)). rewrite Em. pose proof (Zdigits2_fits 53 ltac:(lia) (Zpos q) Hn). rewrite digits_shift by lia. lia.
Qed.

(** The scale does not matter. *)
Lemma dy_scale n j k : 0 <= n < 2 ^ 53 -> 0 <= k -> -100 <= j <= 100 -> dy (n * 2 ^ k) (j - k) = dy n j.
Proof.
  intros Hn Hk Hj. destruct (Z.eq_dec n 0) as [->|Hn0]; [by rewrite Z.mul_0_l|].
  destruct (dy_exact n j ltac:(lia) Hj) as (m & -> & Em & _). assert (0 < 2 ^ k) by (apply Z.pow_pos_nonneg; lia).
  destruct (n * 2 ^ k) as [|q|q] eqn:Eq; [nia| |nia]. unfold dy. cbn [binary_normalize].
  destruct (round_scaled_at 53 ltac:(lia) 1024 j ltac:(lia) ltac:(lia) false q n k ltac:(lia) Hk ltac:(lia)) as (m' & -> & Em').
  assert (m' = m) as -> by (apply (inj Zpos); congruence). done.
Qed.

(** ** Operations *)

Lemma digits_mul a b : 0 < a -> 0 < b -> Zdigits2 a + Zdigits2 b - 1 <= Zdigits2 (a * b).
Proof.
  intros Ha Hb. destruct (Zdigits2_bounds a Ha) as [Da [La _]]. destruct (Zdigits2_bounds b Hb) as [Db [Lb _]].
  destruct (Zdigits2_bounds (a * b) ltac:(nia)) as [Dc [_ Hc]].
  destruct (Z.le_gt_cases (Zdigits2 a + Zdigits2 b - 1) (Zdigits2 (a * b))) as [|Hlt]; [done|exfalso].
  assert (2 ^ Zdigits2 (a * b) <= 2 ^ (Zdigits2 a - 1 + (Zdigits2 b - 1))) by (apply Z.pow_le_mono_r; lia).
  rewrite Z.pow_add_r in * by lia. nia.
Qed.

Lemma dy_mul a b i j : 0 <= a -> 0 <= b -> a < 2 ^ 53 -> b < 2 ^ 53 -> a * b < 2 ^ 53 -> -50 <= i <= 50 -> -50 <= j <= 50 ->
  dbl_mul (dy a i) (dy b j) = dy (a * b) (i + j).
Proof.
  intros Ha Hb Ha' Hb' Hab Hi Hj. destruct (Z.eq_dec a 0) as [->|Ha0].
  { destruct (Z.eq_dec b 0) as [->|]; [done|]. by destruct (dy_exact b j ltac:(lia) ltac:(lia)) as (mb & -> & _). }
  destruct (Z.eq_dec b 0) as [->|Hb0].
  { rewrite Z.mul_0_r. by destruct (dy_exact a i ltac:(lia) ltac:(lia)) as (ma & -> & _). }
  destruct (dy_exact a i ltac:(lia) ltac:(lia)) as (ma & -> & Ema & _). destruct (dy_exact b j ltac:(lia) ltac:(lia)) as (mb & -> & Emb & _).
  destruct (dy_exact (a * b) (i + j) ltac:(nia) ltac:(lia)) as (m & -> & Em & Hdm). unfold dbl_mul. cbn [SFmul xorb].
  pose proof (digits_mul a b ltac:(lia) ltac:(lia)) as Hd. pose proof (Zdigits2_fits 53 ltac:(lia) a ltac:(lia)). pose proof (Zdigits2_fits 53 ltac:(lia) b ltac:(lia)).
  replace (Zdigits2 a + i - 53 + (Zdigits2 b + j - 53)) with ((i + j) - (106 - Zdigits2 a - Zdigits2 b)) by lia.
  apply (round_aux_scaled 53 ltac:(lia) 1024 (i + j) ltac:(lia) ltac:(lia) false (ma * mb) (a * b)); [nia| |lia|lia|done|done].
  rewrite Pos2Z.inj_mul, Ema, Emb. replace (106 - Zdigits2 a - Zdigits2 b) with ((53 - Zdigits2 a) + (53 - Zdigits2 b)) by lia. rewrite Z.pow_add_r by lia. ring.
Qed.

(** Truncation to an integer. *)
Lemma dy_trunc n j : 0 <= n < 2 ^ 53 -> -50 <= j <= 0 -> ld_to_ll (dy n j) = n / 2 ^ (- j).
Proof.
  intros Hn Hj. assert (Hp : 0 < 2 ^ (- j)) by (apply Z.pow_pos_nonneg; lia).
  destruct (Z.eq_dec n 0) as [->|]; [by rewrite Z.div_0_l by lia|].
  destruct (dy_exact n j ltac:(lia) ltac:(lia)) as (m & -> & Em & _). pose proof (Zdigits2_fits 53 ltac:(lia) n ltac:(lia)) as Hd.
  assert (Hmag : (if 0 <=? Zdigits2 n + j - 53 then Zpos m * 2 ^ (Zdigits2 n + j - 53) else Zpos m / 2 ^ (- (Zdigits2 n + j - 53))) = n / 2 ^ (- j)).
  { destruct (Z.leb_spec 0 (Zdigits2 n + j - 53)).
    - assert (j = 0) as -> by lia. assert (Hd53 : Zdigits2 n = 53) by lia. rewrite Hd53 in *. cbn in Em |- *. rewrite Em, Z.div_1_r. lia.
    - rewrite Em. replace (- (Zdigits2 n + j - 53)) with ((53 - Zdigits2 n) + - j) by lia. rewrite Z.pow_add_r by lia.
      rewrite (Z.mul_comm n). apply Z.div_mul_cancel_l; [lia|apply Z.pow_nonzero; lia]. }
  cbn [ld_to_ll cond_Zopp]. rewrite Hmag. assert (0 <= n / 2 ^ (- j) <= n).
  { split; [apply Z.div_pos; lia|]. apply Z.div_le_upper_bound; nia. }
  destruct (Z.leb_spec (- 2 ^ 63) (n / 2 ^ (- j))); [|lia]. by destruct (Z.ltb_spec (n / 2 ^ (- j)) (2 ^ 63)); [|lia].
Qed.

Lemma dy_ceil n j : 0 <= n < 2 ^ 53 -> -50 <= j <= 0 -> dbl_ceil (dy n j) = dbl_of_Z (- (- n / 2 ^ (- j))).
Proof.
  intros Hn Hj. assert (Hp : 0 < 2 ^ (- j)) by (apply Z.pow_pos_nonneg; lia).
  destruct (Z.eq_dec n 0) as [->|]; [by rewrite Z.div_0_l by lia|].
  destruct (dy_exact n j ltac:(lia) ltac:(lia)) as (m & E & Em & _). pose proof (Zdigits2_fits 53 ltac:(lia) n ltac:(lia)) as Hd.
  rewrite E. cbn [dbl_ceil]. destruct (Z.leb_spec 0 (Zdigits2 n + j - 53)).
  - assert (j = 0) as -> by lia. rewrite <- E. cbn [Z.opp]. change (2 ^ 0) with 1. rewrite Z.div_1_r, Z.opp_involutive. done.
  - f_equal. f_equal. rewrite Em. replace (- (Zdigits2 n + j - 53)) with ((53 - Zdigits2 n) + - j) by lia. rewrite Z.pow_add_r by lia.
    replace (- (n * 2 ^ (53 - Zdigits2 n))) with (2 ^ (53 - Zdigits2 n) * - n) by lia. apply Z.div_mul_cancel_l; [lia|apply Z.pow_nonzero; lia].
Qed.

(** Division by a power of two. *)
Lemma dy_div n k : 0 <= n < 2 ^ 53 -> 0 <= k <= 20 -> dbl_div (dbl_of_Z n) (dbl_of_Z (2 ^ k)) = dy n (- k).
Proof.
  intros Hn Hk. assert (H2k : 0 < 2 ^ k < 2 ^ 53) by (split; [apply Z.pow_pos_nonneg; lia|apply Z.pow_lt_mono_r; lia]).
  assert (Hdk : Zdigits2 (2 ^ k) = k + 1).
  { apply Zdigits2_unique; [lia|]. replace (k + 1 - 1) with k by lia. split; [lia|]. apply Z.pow_lt_mono_r; lia. }
  unfold dbl_of_Z. destruct (dy_exact (2 ^ k) 0 ltac:(lia) ltac:(lia)) as (mk & -> & Emk & Hmk).
  destruct (Z.eq_dec n 0) as [->|Hn0]; [done|].
  destruct (dy_exact n 0 ltac:(lia) ltac:(lia)) as (m & -> & Em & Hm). destruct (dy_exact n (- k) ltac:(lia) ltac:(lia)) as (m' & -> & Em' & Hm').
  assert (m' = m) as -> by (apply (inj Zpos); congruence). unfold dbl_div. cbn [SFdiv xorb]. rewrite Hdk in *.
  assert (Emk' : Zpos mk = 2 ^ 52) by (rewrite Emk, <- Z.pow_add_r by lia; f_equal; lia).
  pose proof (Zdigits2_fits 53 ltac:(lia) n ltac:(lia)) as Hd.
  assert (Hcore : SFdiv_core_binary 53 1024 (Zpos m) (Zdigits2 n + 0 - 53) (Zpos mk) (k + 1 + 0 - 53) = (2 * Zpos m, Zdigits2 n - k - 1 - 53, loc_Exact)).
  { unfold SFdiv_core_binary. cbn [Zdigits2]. rewrite Hm, Hmk.
    assert (Hf : fexp 53 1024 (53 + (Zdigits2 n + 0 - 53) - (53 + (k + 1 + 0 - 53))) = Zdigits2 n - k - 1 - 53) by (unfold fexp, emin; lia). rewrite Hf.
    replace (Z.min _ _) with (Zdigits2 n - k - 1 - 53) by lia. replace (Zdigits2 n + 0 - 53 - (k + 1 + 0 - 53) - (Zdigits2 n - k - 1 - 53)) with 53 by lia.
    cbv iota. rewrite Emk', Z.shiftl_mul_pow2 by lia. replace (Zpos m * 2 ^ 53) with ((2 * Zpos m) * 2 ^ 52) by (change (2 ^ 53) with (2 * 2 ^ 52); ring).
    pose proof (Z_div_mult (2 * Zpos m) (2 ^ 52) ltac:(lia)) as Hq. pose proof (Z.mod_mul (2 * Zpos m) (2 ^ 52) ltac:(lia)) as Hr.
    unfold Z.div in Hq. unfold Z.modulo in Hr. destruct (Z.div_eucl (2 * Zpos m * 2 ^ 52) (2 ^ 52)) as [q r]. subst q r. done. }
  rewrite Hcore. change (2 * Zpos m) with (Zpos (xO m)).
  assert (Hm52 : Zpos m = n * 2 ^ (53 - Zdigits2 n)) by done.
  replace (Zdigits2 n - k - 1 - 53) with (- k - (54 - Zdigits2 n)) by lia.
  apply (round_aux_scaled 53 ltac:(lia) 1024 (- k) ltac:(lia) ltac:(lia) false (xO m) n); [lia| |lia|lia|done|done].
  rewrite Pos2Z.inj_xO, Em. replace (54 - Zdigits2 n) with (53 - Zdigits2 n + 1) by lia. rewrite Z.pow_add_r by lia. lia.
Qed.

Lemma dy_compare a b j : 0 < a < 2 ^ 53 -> 0 < b < 2 ^ 53 -> -50 <= j <= 50 -> SFcompare (dy a j) (dy b j) = Some (a ?= b).
Proof.
  intros Ha Hb Hj. destruct (dy_exact a j Ha ltac:(lia)) as (m & -> & Em & Hm). destruct (dy_exact b j Hb ltac:(lia)) as (n & -> & En & Hn). cbn [SFcompare]. f_equal.
  destruct (Z.compare_spec (Zdigits2 a + j - 53) (Zdigits2 b + j - 53)) as [E|E|E].
  - replace (Zdigits2 b) with (Zdigits2 a) in En by lia. change (Pos.compare_cont Eq m n) with (Zpos m ?= Zpos n). rewrite Em, En.
    pose proof (Zdigits2_fits 53 ltac:(lia) a Ha). assert (0 < 2 ^ (53 - Zdigits2 a)) by (apply Z.pow_pos_nonneg; lia).
    destruct (Z.compare_spec a b); [subst; by rewrite Z.compare_refl|apply Z.compare_lt_iff; nia|apply Z.compare_gt_iff; nia].
  - symmetry. apply Z.compare_lt_iff. destruct (Z.lt_ge_cases a b); [done|]. pose proof (Zdigits2_mono b a ltac:(lia) ltac:(lia)). lia.
  - symmetry. apply Z.compare_gt_iff. destruct (Z.lt_ge_cases b a); [done|]. pose proof (Zdigits2_mono a b ltac:(lia) ltac:(lia)). lia.
Qed.

Lemma dy_max a b j : 0 < a < 2 ^ 53 -> 0 <= b < 2 ^ 53 -> -50 <= j <= 50 -> dbl_max (dy a j) (dy b j) = dy (Z.max a b) j.
Proof.
  intros Ha Hb Hj. unfold dbl_max, SFltb. destruct (Z.eq_dec b 0) as [->|].
  - rewrite Z.max_l by lia. destruct (dy_exact a j Ha ltac:(lia)) as (m & -> & _). done.
  - rewrite dy_compare by lia. destruct (Z.compare_spec a b); [subst; by rewrite Z.max_id|by rewrite Z.max_r by lia|by rewrite Z.max_l by lia].
Qed.
