(* ===== verification/KeyCodec.v ===== *)
(** * Primary-key codec

    [src/engine/key_codec.cpp]: the order-preserving composite storage key.
    Strings and binaries are escaped and terminated so that components
    concatenate without ambiguity; numbers go through [strtod] and an
    order-preserving image of the IEEE-754 bits. *)

From Stdlib Require Import ZArith Lia Strings.String Floats.SpecFloat.
From stdpp Require Import prelude.
From S2P Require Import Prelude StdMap Types CLib.

(** ** Operations *)

Definition append_escaped (out bs : bytes) : bytes :=
  fold_left (fun out c => let out := out ++ [c] in if bval c =? 0 then out ++ [Byte.xff] else out) bs out
  ++ [Byte.x00] ++ [Byte.x00].

(** The object representation of a [double] ([memcpy] to [uint64_t]). *)
Definition double_bits (d : spec_float) : Z :=
  let sign (s : bool) := if s then 2 ^ 63 else 0 in
  match d with
  | S754_zero s => sign s
  | S754_infinity s => sign s + 2047 * 2 ^ 52
  | S754_nan => 2047 * 2 ^ 52 + 2 ^ 51
  | S754_finite s m e => sign s + ((e + 1074) * 2 ^ 52 + Zpos m)
  end.

(** [static_cast<char>((bits >> (i * 8)) & 0xFF)] for [i] from [n - 1] down to 0. *)
Fixpoint push_be (out : bytes) (bits : Z) (n : nat) : bytes :=
  match n with
  | O => out
  | S i => push_be (out ++ [byte_of (Z.land (Z.shiftr bits (Z.of_nat i * 8)) 255)]) bits i
  end.

Definition append_number (out : bytes) (d : spec_float) : bytes :=
  let bits := double_bits d in
  let bits := if negb (Z.land bits (2 ^ 63) =? 0) then Z.lxor bits (2 ^ 64 - 1)
              else Z.lor bits (2 ^ 63) in
  push_be out bits 8.

Definition encode_key_component (out : bytes) (av : AttributeValue) : bytes :=
  match av with
  | AV_S s => append_escaped (out ++ lit "S") s
  | AV_N s => append_number (out ++ lit "N") (strtod s)
  | AV_B b => append_escaped (out ++ lit "B") b
  | _ => out ++ lit "?" ++ [Byte.x00] ++ [Byte.x00]
  end.

Definition encode_primary_key (def : TableDefinition) (item : AttributeMap) : bytes :=
  fold_left (fun composite element =>
    match mget (attribute_name element) item with
    | Some (Some av) => encode_key_component composite av
    | _ => composite ++ [Byte.x00] ++ [Byte.x00]
    end) (key_schema def) [].

(** ** Escaped strings *)

(** The output contributed by one component. *)
Fixpoint escape (bs : bytes) : bytes :=
  match bs with
  | [] => [Byte.x00; Byte.x00]
  | c :: bs' => if bval c =? 0 then c :: Byte.xff :: escape bs' else c :: escape bs'
  end.

Lemma append_escaped_eq out bs : append_escaped out bs = out ++ escape bs.
Proof.
  unfold append_escaped. revert out. induction bs as [|c bs IH]; intros out; simpl.
  - done.
  - simpl in IH. rewrite IH. destruct (bval c =? 0); by rewrite <- !app_assoc.
Qed.

(** Escaping is an order embedding that is insensitive to what follows: the
    first difference between two keys is decided by the first component that
    differs. *)
Lemma escape_cmp a b r1 r2 :
  bytes_cmp (escape a ++ r1) (escape b ++ r2) =
  match bytes_cmp a b with Eq => bytes_cmp r1 r2 | c => c end.
Proof.
  assert (H0 : bval Byte.x00 = 0) by reflexivity.
  revert b. induction a as [|x a IH]; intros [|y b]; cbn [escape app bytes_cmp].
  - done.
  - pose proof (bval_bound y). destruct (Z.eqb_spec (bval y) 0) as [E|E]; cbn [app bytes_cmp]; rewrite H0.
    + by rewrite E.
    + destruct (Z.compare_spec 0 (bval y)); lia || done.
  - pose proof (bval_bound x). destruct (Z.eqb_spec (bval x) 0) as [E|E]; cbn [app bytes_cmp]; rewrite H0.
    + by rewrite E.
    + destruct (Z.compare_spec (bval x) 0); lia || done.
  - pose proof (bval_bound x). pose proof (bval_bound y).
    destruct (Z.eqb_spec (bval x) 0) as [Ex|Ex], (Z.eqb_spec (bval y) 0) as [Ey|Ey]; cbn [app bytes_cmp].
    + rewrite Ex, Ey, !Z.compare_refl. apply IH.
    + destruct (Z.compare_spec (bval x) (bval y)); lia || done.
    + destruct (Z.compare_spec (bval x) (bval y)); lia || done.
    + destruct (bval x ?= bval y); [apply IH|done|done].
Qed.

(** ** Numbers *)

Fixpoint be_value (l : bytes) : Z :=
  match l with [] => 0 | b :: l' => bval b * 256 ^ len l' + be_value l' end.

Fixpoint be_bytes (bits : Z) (n : nat) : bytes :=
  match n with
  | O => []
  | S i => byte_of (Z.land (Z.shiftr bits (Z.of_nat i * 8)) 255) :: be_bytes bits i
  end.

Lemma push_be_eq out bits n : push_be out bits n = out ++ be_bytes bits n.
Proof.
  revert out. induction n as [|n IH]; intros out; simpl; [by rewrite app_nil_r|].
  by rewrite IH, <- app_assoc.
Qed.

Lemma be_bytes_len bits n : len (be_bytes bits n) = Z.of_nat n.
Proof. induction n; [done|]. cbn [be_bytes]. rewrite len_cons, IHn. lia. Qed.

Lemma be_byte_val bits i :
  0 <= bits -> bval (byte_of (Z.land (Z.shiftr bits (Z.of_nat i * 8)) 255))
  = (bits / 256 ^ Z.of_nat i) mod 256.
Proof.
  intros. change 255 with (Z.ones 8). rewrite bval_byte_of, Z.land_ones by lia.
  rewrite Z.shiftr_div_pow2 by lia. rewrite (Z.mul_comm _ 8), Z.pow_mul_r by lia.
  change (2 ^ 8) with 256. by rewrite Z.mod_mod.
Qed.

Lemma be_bytes_value bits n : 0 <= bits -> be_value (be_bytes bits n) = bits mod 256 ^ Z.of_nat n.
Proof.
  intros Hb. induction n as [|n IH]; [simpl; by rewrite Z.mod_1_r|].
  cbn [be_bytes be_value]. rewrite IH, be_bytes_len, be_byte_val by done.
  replace (Z.of_nat (S n)) with (Z.of_nat n + 1) by lia.
  rewrite Z.pow_add_r, Z.pow_1_r, Z.rem_mul_r by lia. lia.
Qed.

Lemma be_value_bound l : 0 <= be_value l < 256 ^ len l.
Proof.
  induction l as [|b l IH]; [unfold len; cbn; lia|].
  rewrite len_cons. cbn [be_value]. pose proof (bval_bound b). pose proof (len_nonneg l).
  rewrite Z.pow_add_r, Z.pow_1_r by lia. nia.
Qed.

(** Equal-length big-endian strings compare like their values. *)
Lemma be_cmp a b r1 r2 :
  length a = length b ->
  bytes_cmp (a ++ r1) (b ++ r2) =
  match be_value a ?= be_value b with Eq => bytes_cmp r1 r2 | c => c end.
Proof.
  revert b. induction a as [|x a IH]; intros [|y b]; simpl; try discriminate; [done|].
  intros [= Hl]. rewrite (IH b Hl). clear IH.
  pose proof (be_value_bound a) as Ba. pose proof (be_value_bound b) as Bb.
  unfold len in *. rewrite <- Hl in *. set (P := 256 ^ Z.of_nat (length a)) in *.
  destruct (Z.compare_spec (bval x) (bval y)) as [E|E|E].
  - rewrite E. destruct (Z.compare_spec (be_value a) (be_value b));
      destruct (Z.compare_spec (bval y * P + be_value a) (bval y * P + be_value b)); lia || done.
  - destruct (Z.compare_spec (bval x * P + be_value a) (bval y * P + be_value b)); nia || done.
  - destruct (Z.compare_spec (bval x * P + be_value a) (bval y * P + be_value b)); nia || done.
Qed.

(** The unsigned 64-bit image that [append_number] emits. *)
Definition ordered_bits (d : spec_float) : Z :=
  match d with
  | S754_zero true => 2 ^ 63 - 1
  | S754_infinity true => 2 ^ 63 - 1 - 2047 * 2 ^ 52
  | S754_finite true m e => 2 ^ 63 - 1 - ((e + 1074) * 2 ^ 52 + Zpos m)
  | d => 2 ^ 63 + double_bits d
  end.

(** The mantissa and exponent ranges of a canonical binary64 number. *)
Lemma bounded64_ranges m e :
  bounded 53 1024 m e = true ->
  0 < Zpos m < 2 ^ 53 /\ -1074 <= e <= 971 /\ (e = -1074 \/ 2 ^ 52 <= Zpos m).
Proof.
  unfold bounded, canonical_mantissa, fexp, emin.
  rewrite andb_true_iff, Z.eqb_eq, Z.leb_le. intros [Hc He].
  pose proof (digits2_bounds m) as [Hlo Hhi].
  set (d := Zpos (digits2_pos m)) in *.
  assert (Hd : 0 < d) by (unfold d; lia).
  assert (d <= 53) by lia.
  assert (2 ^ d <= 2 ^ 53) by (apply Z.pow_le_mono_r; lia).
  split; [lia|]. split; [lia|].
  destruct (Z.eq_dec d 53) as [Ed|Ed]; [|left; lia].
  right. rewrite Ed in Hlo. done.
Qed.

(** The magnitude field of a finite double grows with exponent, then mantissa. *)
Definition magnitude (m : positive) (e : Z) : Z := (e + 1074) * 2 ^ 52 + Zpos m.

Lemma magnitude_bound m e : bounded 53 1024 m e = true -> 0 < magnitude m e < 2047 * 2 ^ 52.
Proof. intros H%bounded64_ranges. unfold magnitude. lia. Qed.

Lemma magnitude_cmp m1 e1 m2 e2 :
  bounded 53 1024 m1 e1 = true -> bounded 53 1024 m2 e2 = true ->
  (magnitude m1 e1 ?= magnitude m2 e2) =
  match e1 ?= e2 with Eq => (m1 ?= m2)%positive | c => c end.
Proof.
  intros H1%bounded64_ranges H2%bounded64_ranges. unfold magnitude.
  destruct (Z.compare_spec e1 e2) as [E|E|E].
  - subst. rewrite Z.add_compare_mono_l. done.
  - apply Z.compare_lt_iff. lia.
  - apply Z.compare_gt_iff. lia.
Qed.

Definition is_double (d : spec_float) : bool :=
  valid_binary 53 1024 d && negb (match d with S754_nan => true | _ => false end).

Lemma double_bits_bound d : valid_binary 53 1024 d = true -> 0 <= double_bits d < 2 ^ 64.
Proof.
  destruct d as [s|s| |s m e]; intros Hv; [destruct s; cbn; lia|destruct s; cbn; lia|cbn; lia|].
  apply magnitude_bound in Hv. unfold double_bits. fold (magnitude m e). destruct s; lia.
Qed.

Lemma land_sign_bit z : 0 <= z < 2 ^ 64 -> negb (Z.land z (2 ^ 63) =? 0) = (2 ^ 63 <=? z).
Proof.
  intros Hz.
  assert (E : Z.land z (2 ^ 63) = if Z.testbit z 63 then 2 ^ 63 else 0).
  { apply Z.bits_inj'. intros i Hi. rewrite Z.land_spec, Z.pow2_bits_eqb by lia.
    destruct (Z.eqb_spec 63 i) as [<-|Hne].
    - destruct (Z.testbit z 63); [by rewrite Z.pow2_bits_true|by rewrite Z.bits_0].
    - rewrite andb_false_r. destruct (Z.testbit z 63); [|by rewrite Z.bits_0].
      rewrite Z.pow2_bits_eqb by lia. symmetry. by apply Z.eqb_neq. }
  rewrite E, Z.testbit_eqb by lia.
  destruct (Z.leb_spec (2 ^ 63) z) as [H|H].
  - replace (z / 2 ^ 63) with 1; [done|].
    apply Z.div_unique with (r := z - 2 ^ 63); lia.
  - rewrite (Z.div_small z) by lia. done.
Qed.

Lemma lxor_ones64 z : 0 <= z < 2 ^ 64 -> Z.lxor z (2 ^ 64 - 1) = 2 ^ 64 - 1 - z.
Proof.
  intros Hz. change (2 ^ 64 - 1) with (Z.ones 64).
  assert (Z.land z (Z.lxor z (Z.ones 64)) = 0) as Hd.
  { apply Z.bits_inj'. intros i Hi. rewrite Z.land_spec, Z.lxor_spec, Z.bits_0.
    destruct (Z.ltb_spec i 64).
    - rewrite Z.ones_spec_low by lia. by destruct (Z.testbit z i).
    - rewrite (Z.bits_above_log2 z i); [done|lia|].
      destruct (Z.eq_dec z 0) as [->|]; [cbn; lia|]. apply Z.log2_lt_pow2; [lia|].
      assert (2 ^ 64 <= 2 ^ i) by (apply Z.pow_le_mono_r; lia). lia. }
  apply Z.add_nocarry_lxor in Hd. rewrite <- Z.lxor_assoc, Z.lxor_nilpotent, Z.lxor_0_l in Hd. lia.
Qed.

Lemma lor_sign_bit z : 0 <= z < 2 ^ 63 -> Z.lor z (2 ^ 63) = 2 ^ 63 + z.
Proof.
  intros Hz. pose proof (land_sign_bit z ltac:(lia)) as H.
  destruct (Z.leb_spec (2 ^ 63) z); [lia|]. apply negb_false_iff, Z.eqb_eq in H.
  pose proof (Z.add_lor_land z (2 ^ 63)). lia.
Qed.

Lemma append_number_eq out d :
  valid_binary 53 1024 d = true -> append_number out d = out ++ be_bytes (ordered_bits d) 8.
Proof.
  intros Hv. pose proof (double_bits_bound d Hv) as Hb. unfold append_number.
  rewrite push_be_eq, land_sign_bit by done. f_equal. f_equal.
  destruct d as [s|s| |s m e]; [destruct s; reflexivity|destruct s; reflexivity|reflexivity|].
  apply magnitude_bound in Hv. unfold double_bits, ordered_bits in *. fold (magnitude m e) in *.
  destruct s.
  - destruct (Z.leb_spec (2 ^ 63) (2 ^ 63 + magnitude m e)); [|lia]. rewrite lxor_ones64 by lia. lia.
  - destruct (Z.leb_spec (2 ^ 63) (0 + magnitude m e)); [lia|]. rewrite lor_sign_bit by lia. done.
Qed.

Lemma ordered_bits_bound d : is_double d = true -> 0 <= ordered_bits d < 2 ^ 64.
Proof.
  unfold is_double. rewrite andb_true_iff. intros [Hv _].
  destruct d as [s|s| |s m e]; [destruct s; cbn; lia|destruct s; cbn; lia|cbn; lia|].
  apply magnitude_bound in Hv. unfold ordered_bits, double_bits. fold (magnitude m e). destruct s; lia.
Qed.

(** The order of doubles with the two zeros told apart ([-0 < +0]). *)
Definition double_cmp (x y : spec_float) : comparison :=
  match x, y with
  | S754_zero true, S754_zero false => Lt
  | S754_zero false, S754_zero true => Gt
  | _, _ => match SFcompare x y with Some c => c | None => Eq end
  end.

Lemma cmp_lt a b : a < b -> (a ?= b) = Lt.
Proof. apply Z.compare_lt_iff. Qed.
Lemma cmp_gt a b : b < a -> (a ?= b) = Gt.
Proof. apply Z.compare_gt_iff. Qed.

Lemma cmp_shift_pos c a b : (c + a ?= c + b) = (a ?= b).
Proof. apply Z.add_compare_mono_l. Qed.

Lemma cmp_shift_neg c a b : (c - a ?= c - b) = CompOpp (a ?= b).
Proof. rewrite <- Z.compare_antisym. destruct (Z.compare_spec b a), (Z.compare_spec (c - a) (c - b)); lia || done. Qed.

Lemma ordered_bits_cmp x y :
  is_double x = true -> is_double y = true -> (ordered_bits x ?= ordered_bits y) = double_cmp x y.
Proof.
  unfold is_double. rewrite !andb_true_iff. intros [Hx Nx] [Hy Ny].
  destruct x as [s1|s1| |s1 m1 e1]; try discriminate; destruct y as [s2|s2| |s2 m2 e2]; try discriminate;
    cbn [valid_binary] in *; unfold ordered_bits, double_bits, double_cmp, SFcompare;
    repeat match goal with |- context [(?e + 1074) * 2 ^ 52 + Zpos ?m] =>
      change ((e + 1074) * 2 ^ 52 + Zpos m) with (magnitude m e) end;
    try pose proof (magnitude_bound _ _ Hx); try pose proof (magnitude_bound _ _ Hy);
    destruct s1, s2; try reflexivity; try (apply cmp_lt; lia); try (apply cmp_gt; lia).
  - rewrite cmp_shift_neg, magnitude_cmp by done. by destruct (e1 ?= e2).
  - rewrite cmp_shift_pos, Z.add_compare_mono_l, magnitude_cmp by done. by destruct (e1 ?= e2).
Qed.

(** ** Composite keys *)

(** The octets one component contributes. *)
Definition component (av : AttributeValue) : bytes := encode_key_component [] av.

Lemma encode_key_component_eq out av : encode_key_component out av = out ++ component av.
Proof.
  unfold component. destruct av; simpl encode_key_component;
    rewrite ?append_escaped_eq, ?append_number_eq by apply strtod_valid; by rewrite <- ?app_assoc.
Qed.

(** The logical order of key components: strings and binaries bytewise,
    numbers by the value [strtod] reads. *)
Definition component_cmp (a b : AttributeValue) : comparison :=
  match a, b with
  | AV_S s, AV_S t => bytes_cmp s t
  | AV_N s, AV_N t => double_cmp (strtod s) (strtod t)
  | AV_B s, AV_B t => bytes_cmp s t
  | _, _ => Eq
  end.

Fixpoint lex_cmp (ks1 ks2 : list AttributeValue) : comparison :=
  match ks1, ks2 with
  | a :: ks1', b :: ks2' => match component_cmp a b with Eq => lex_cmp ks1' ks2' | c => c end
  | _, _ => Eq
  end.

(** A key value of a key type ([S], [N] or [B]; a number reads as a number). *)
Definition key_value_ok (a : AttributeValue) : bool :=
  match a with
  | AV_S _ | AV_B _ => true
  | AV_N s => match strtod s with S754_nan => false | _ => true end
  | _ => false
  end.

(** Two values of the same key attribute. *)
Definition comparable (a b : AttributeValue) : bool :=
  bool_decide (av_type a = av_type b) && key_value_ok a && key_value_ok b.

(** The key attributes of an item in schema order, if all are present. *)
Definition key_values (def : TableDefinition) (item : AttributeMap) : option (list AttributeValue) :=
  mapM (fun element => match mget (attribute_name element) item with Some o => o | None => None end)
       (key_schema def).

Lemma strtod_is_double s : key_value_ok (AV_N s) = true -> is_double (strtod s) = true.
Proof.
  unfold is_double. rewrite strtod_valid. simpl. by destruct (strtod s).
Qed.

Lemma component_cmp_app a b r1 r2 :
  comparable a b = true ->
  bytes_cmp (component a ++ r1) (component b ++ r2) =
  match component_cmp a b with Eq => bytes_cmp r1 r2 | c => c end.
Proof.
  unfold comparable. rewrite !andb_true_iff, bool_decide_eq_true. intros [[Ht Ha] Hb].
  destruct a, b; try discriminate; unfold component, encode_key_component, component_cmp;
    rewrite ?append_escaped_eq; cbn [app]; rewrite <- ?app_assoc, ?bytes_cmp_app, ?escape_cmp; try done.
  apply strtod_is_double in Ha, Hb.
  rewrite !append_number_eq by apply strtod_valid. rewrite <- !app_assoc, bytes_cmp_app.
  rewrite be_cmp by (apply Nat2Z.inj; fold (len (be_bytes (ordered_bits (strtod s)) 8));
    fold (len (be_bytes (ordered_bits (strtod s0)) 8)); by rewrite !be_bytes_len).
  pose proof (ordered_bits_bound _ Ha). pose proof (ordered_bits_bound _ Hb).
  rewrite !be_bytes_value by lia. change (256 ^ Z.of_nat 8) with (2 ^ 64).
  rewrite !Z.mod_small by lia. by rewrite ordered_bits_cmp.
Qed.

Lemma components_cmp ks1 ks2 :
  Forall2 (fun a b => comparable a b = true) ks1 ks2 ->
  bytes_cmp (concat (map component ks1)) (concat (map component ks2)) = lex_cmp ks1 ks2.
Proof.
  induction 1 as [|a b ks1 ks2 Hab Hks IH]; simpl; [done|].
  rewrite component_cmp_app by done. by rewrite IH.
Qed.

Lemma encode_fold (els : list KeySchemaElement) item acc ks :
  mapM (fun element => match mget (attribute_name element) item with Some o => o | None => None end) els = Some ks ->
  fold_left (fun composite element =>
    match mget (attribute_name element) item with
    | Some (Some av) => encode_key_component composite av
    | _ => composite ++ [Byte.x00] ++ [Byte.x00]
    end) els acc = acc ++ concat (map component ks).
Proof.
  revert acc ks. induction els as [|el els IH]; intros acc ks; simpl.
  - intros [= <-]. simpl. by rewrite app_nil_r.
  - destruct (mget (attribute_name el) item) as [[av|]|]; try discriminate. simpl.
    intros H. apply bind_Some in H as (ks' & Hk & [= <-]).
    rewrite (IH _ ks') by done. simpl. by rewrite encode_key_component_eq, <- app_assoc.
Qed.

Lemma encode_primary_key_eq def item ks :
  key_values def item = Some ks -> encode_primary_key def item = concat (map component ks).
Proof. apply (encode_fold (key_schema def) item []). Qed.

Lemma double_cmp_eq x y : is_double x = true -> is_double y = true -> double_cmp x y = Eq <-> x = y.
Proof.
  intros Hx Hy. split.
  - rewrite <- ordered_bits_cmp by done. rewrite Z.compare_eq_iff.
    unfold is_double in *. rewrite andb_true_iff in *. destruct Hx as [Hx Nx], Hy as [Hy Ny].
    destruct x as [s1|s1| |s1 m1 e1]; try discriminate; destruct y as [s2|s2| |s2 m2 e2]; try discriminate;
      cbn [valid_binary] in *; unfold ordered_bits, double_bits;
      repeat match goal with |- context [(?e + 1074) * 2 ^ 52 + Zpos ?m] =>
        change ((e + 1074) * 2 ^ 52 + Zpos m) with (magnitude m e) end;
      try pose proof (magnitude_bound _ _ Hx); try pose proof (magnitude_bound _ _ Hy);
      destruct s1, s2; try reflexivity; try lia; intros E;
      assert (Em : (magnitude m1 e1 ?= magnitude m2 e2) = Eq) by (apply Z.compare_eq_iff; lia);
      rewrite magnitude_cmp in Em by done; destruct (Z.compare_spec e1 e2); try discriminate;
      apply Pos.compare_eq_iff in Em; congruence.
  - intros ->. rewrite <- ordered_bits_cmp by done. apply Z.compare_refl.
Qed.

Lemma component_eq_iff a b :
  comparable a b = true -> component a = component b <-> component_cmp a b = Eq.
Proof.
  intros H. pose proof (component_cmp_app a b [] [] H) as E. rewrite !app_nil_r in E. simpl in E.
  rewrite <- bytes_cmp_eq, E. by destruct (component_cmp a b).
Qed.

(** The same key value, as the codec sees it. *)
Definition same_key (a b : AttributeValue) : Prop :=
  match a, b with
  | AV_S s, AV_S t | AV_B s, AV_B t => s = t
  | AV_N s, AV_N t => strtod s = strtod t
  | _, _ => False
  end.

Lemma same_key_cmp a b : comparable a b = true -> component_cmp a b = Eq <-> same_key a b.
Proof.
  unfold comparable. rewrite !andb_true_iff, bool_decide_eq_true. intros [[Ht Ha] Hb].
  destruct a, b; try discriminate; simpl; [apply bytes_cmp_eq| |apply bytes_cmp_eq].
  apply double_cmp_eq; by apply strtod_is_double.
Qed.

Lemma lex_cmp_eq ks1 ks2 :
  Forall2 (fun a b => comparable a b = true) ks1 ks2 ->
  lex_cmp ks1 ks2 = Eq <-> Forall2 same_key ks1 ks2.
Proof.
  induction 1 as [|a b ks1 ks2 Hab Hks IH]; simpl; [split; [constructor|done]|].
  rewrite Forall2_cons, <- IH, <- same_key_cmp by done. destruct (component_cmp a b); tauto || (split; [done|intros [? _]; done]).
Qed.

Lemma encode_same_key def item1 item2 ks1 ks2 :
  key_values def item1 = Some ks1 -> key_values def item2 = Some ks2 ->
  Forall2 (fun a b => comparable a b = true) ks1 ks2 ->
  encode_primary_key def item1 = encode_primary_key def item2 <-> Forall2 same_key ks1 ks2.
Proof.
  intros H1 H2 Hc. rewrite (encode_primary_key_eq _ _ _ H1), (encode_primary_key_eq _ _ _ H2).
  rewrite <- bytes_cmp_eq, components_cmp by done. by apply lex_cmp_eq.
Qed.

(** ** Properties *)


(** Distinct keys never collide.  Two items have the same storage key
    exactly when their key attributes are the same strings, the same binaries
    and numbers that read as the same double. *)
Theorem encode_primary_key_inj def item1 item2 ks1 ks2 :
  key_values def item1 = Some ks1 -> key_values def item2 = Some ks2 ->
  Forall2 (fun a b => comparable a b = true) ks1 ks2 ->
  encode_primary_key def item1 = encode_primary_key def item2 <-> Forall2 same_key ks1 ks2.
Proof. apply encode_same_key. Qed.

(** The partition prefix selects exactly one partition.  The key of an item
    starts with the encoding of a partition-key value if and only if the item's
    own partition key is that value, so a prefix scan neither misses nor leaks
    an item. *)
Theorem partition_prefix_exact def item pk ks v :
  key_values def item = Some (pk :: ks) -> comparable pk v = true ->
  starts_with (encode_primary_key def item) (encode_key_component [] v) = true <-> same_key pk v.
Proof.
  intros Hk Hc. rewrite (encode_primary_key_eq _ _ _ Hk). simpl. fold (component v).
  rewrite starts_with_spec, <- same_key_cmp by done. split.
  - intros [r E]. apply bytes_cmp_eq in E. rewrite component_cmp_app in E by done.
    by destruct (component_cmp pk v).
  - intros E. apply component_eq_iff in E; [|done]. rewrite E. eauto.
Qed.

Definition demo_schema : TableDefinition :=
  {| table_name := lit "T";
     key_schema := [ {| attribute_name := lit "pk"; key_type := HASH |};
                     {| attribute_name := lit "sk"; key_type := RANGE |} ];
     attribute_definitions := [ (lit "pk", T_S); (lit "sk", T_N) ];
     billing_mode := PAY_PER_REQUEST;
     provisioned_throughput := throughput_default;
     table_class := STANDARD;
     deletion_protection_enabled := false;
     creation_epoch_seconds := 0;
     tags := [];
     local_secondary_indexes := [];
     global_secondary_indexes := [];
     stream_specification := None;
     latest_stream_arn := None;
     latest_stream_label := None;
     ttl_specification := None;
     point_in_time_recovery := pitr_default |}.

Definition demo_item (sk : bytes) : AttributeMap :=
  [ (lit "pk", Some (AV_S (lit "a"))); (lit "sk", Some (AV_N sk)) ].


Lemma encode_primary_key_inj_witness :
  encode_primary_key demo_schema (demo_item (lit "1.50")) =
  encode_primary_key demo_schema (demo_item (lit "15e-1")).
Proof.
  apply (encode_primary_key_inj demo_schema _ _
    [AV_S (lit "a"); AV_N (lit "1.50")] [AV_S (lit "a"); AV_N (lit "15e-1")]);
    [reflexivity|reflexivity|repeat constructor; vm_compute; reflexivity|].
  repeat constructor; vm_compute; reflexivity.
Defined.

Lemma partition_prefix_exact_witness :
  starts_with (encode_primary_key demo_schema (demo_item (lit "7"))) (encode_key_component [] (AV_S (lit "a")))
  = true.
Proof.
  apply (partition_prefix_exact demo_schema (demo_item (lit "7")) (AV_S (lit "a")) [AV_N (lit "7")]);
    reflexivity.
Defined.

(** The two spellings of zero are one number but two storage keys. *)
Theorem negative_zero_key_differs :
  SFeqb (strtod (lit "-0")) (strtod (lit "0")) = true /\
  encode_primary_key demo_schema (demo_item (lit "-0")) <> encode_primary_key demo_schema (demo_item (lit "0")).
Proof. split; [vm_compute; reflexivity|]. vm_compute. discriminate. Qed.
