(* ===== verification/Validator.v ===== *)
(** * Item validation

    [src/engine/item_validator.cpp]: the number grammar, the recursive attribute
    checks and [validate_item_standard].  The theorems characterise exactly the
    items that are accepted and connect an accepted item to the key codec. *)

From Stdlib Require Import ZArith Lia Strings.String Floats.SpecFloat.
From stdpp Require Import prelude.
From S2P Require Import Prelude StdMap Types CLib KeyCodec.

Inductive ValidationError :=
| ItemTooLarge
| InvalidAttributeName
| NestingDepthExceeded
| TypeMismatchForKey
| EmptyKeyAttribute
| InvalidNumber
| EmptySet
| DuplicateSetValue
| ProvisionedThroughputExceeded.

Definition kMaxItemSizeBytes : Z := 400000.
Definition kMaxAttributeNameBytes : Z := 255.
Definition kMaxNestingDepth : Z := 32.

(** ** Number grammar *)

Record digit_count := { significant : Z; any_digit : bool; seen_nonzero : bool }.

Definition count_digit (st : digit_count) (c : byte) : digit_count :=
  if negb (is_char 48 c) || seen_nonzero st
  then {| significant := significant st + 1; any_digit := true; seen_nonzero := true |}
  else {| significant := significant st; any_digit := true; seen_nonzero := seen_nonzero st |}.

Definition is_sign (c : byte) : bool := is_char 43 c || is_char 45 c.

Definition skip_sign (s : bytes) : bytes :=
  match s with c :: r => if is_sign c then r else s | [] => s end.

Definition is_valid_number (s : bytes) : bool :=
  match s with
  | [] => false
  | _ =>
      let s := skip_sign s in
      let '(ip, s) := span isdigit s in
      let st := fold_left count_digit ip {| significant := 0; any_digit := false; seen_nonzero := false |} in
      let '(st, s) :=
        match s with
        | c :: r => if is_char 46 c
                    then let '(fp, r) := span isdigit r in (fold_left count_digit fp st, r)
                    else (st, s)
        | [] => (st, s)
        end in
      if negb (any_digit st) then false
      else
        let exp :=
          match s with
          | c :: r => if is_char 101 c || is_char 69 c
                      then let '(ed, r) := span isdigit (skip_sign r) in
                           match ed with [] => None | _ => Some r end
                      else Some s
          | [] => Some s
          end in
        match exp with
        | None => false
        | Some (_ :: _) => false
        | Some [] => significant st <=? 38
        end
  end.

(** ** Attribute checks *)

Definition calculate_item_size (item : AttributeMap) : Z :=
  fold_left (fun size e =>
    match e with
    | (k, v) =>
        let size := size_saturating_add size (len k) in
        match v with Some a => size_saturating_add size (attribute_size a) | None => size end
    end) item 0.

(** A [std::set] filled while iterating: the first value already seen (or
    rejected by [check]) ends the loop. *)
Fixpoint validate_set (check : bytes -> bool) (seen vals : list bytes) : expected unit ValidationError :=
  match vals with
  | [] => Ok tt
  | v :: vals' =>
      if negb (check v) then Err InvalidNumber
      else if bool_decide (v ∈ seen) then Err DuplicateSetValue
      else validate_set check (v :: seen) vals'
  end.

Definition validate_nonempty_set (check : bytes -> bool) (vals : list bytes) : expected unit ValidationError :=
  match vals with [] => Err EmptySet | _ => validate_set check [] vals end.

(** The checks that precede the type switch, and the type switch. *)
Definition validate_guard (name : bytes) (depth : Z) (k : expected unit ValidationError)
  : expected unit ValidationError :=
  if kMaxNestingDepth <? depth then Err NestingDepthExceeded
  else if kMaxAttributeNameBytes <? len name then Err InvalidAttributeName
  else k.

Fixpoint validate_value (val : AttributeValue) (depth : Z) {struct val} : expected unit ValidationError :=
  match val with
  | AV_N s => if is_valid_number s then Ok tt else Err InvalidNumber
  | AV_NS vals => validate_nonempty_set is_valid_number vals
  | AV_SS vals => validate_nonempty_set (fun _ => true) vals
  | AV_BS vals => validate_nonempty_set (fun _ => true) vals
  | AV_M m =>
      (fix go m :=
        match m with
        | [] => Ok tt
        | (k, v) :: m' =>
            let? _ := validate_guard k (depth + 1)
                        (match v with Some a => validate_value a (depth + 1) | None => Ok tt end) in
            go m'
        end) m
  | AV_L l =>
      (fix go l :=
        match l with
        | [] => Ok tt
        | v :: l' =>
            let? _ := validate_guard [] (depth + 1)
                        (match v with Some a => validate_value a (depth + 1) | None => Ok tt end) in
            go l'
        end) l
  | _ => Ok tt
  end.

Definition validate_attribute (name : bytes) (val : AttrPtr) (depth : Z) : expected unit ValidationError :=
  validate_guard name depth (match val with Some a => validate_value a depth | None => Ok tt end).

Fixpoint validate_attributes (item : AttributeMap) (depth : Z) : expected unit ValidationError :=
  match item with
  | [] => Ok tt
  | (name, val) :: item' => let? _ := validate_attribute name val depth in validate_attributes item' depth
  end.

Definition validate_key (item : AttributeMap) (defs : list (bytes * AttributeType)) (ks : KeySchemaElement)
  : expected unit ValidationError :=
  match mget (attribute_name ks) item with
  | Some (Some v) =>
      let mismatch := match mget (attribute_name ks) defs with
                      | Some t => negb (bool_decide (av_type v = t))
                      | None => false
                      end in
      if mismatch then Err TypeMismatchForKey
      else match v with
           | AV_S [] | AV_B [] => Err EmptyKeyAttribute
           | _ => Ok tt
           end
  | _ => Err TypeMismatchForKey
  end.

Fixpoint validate_keys (item : AttributeMap) (defs : list (bytes * AttributeType)) (kss : list KeySchemaElement)
  : expected unit ValidationError :=
  match kss with
  | [] => Ok tt
  | ks :: kss' => let? _ := validate_key item defs ks in validate_keys item defs kss'
  end.

Definition validate_item_standard (item : AttributeMap) (table_def : TableDefinition)
  : expected unit ValidationError :=
  if kMaxItemSizeBytes <? calculate_item_size item then Err ItemTooLarge
  else
    let? _ := validate_attributes item 1 in
    validate_keys item (attribute_definitions table_def) (key_schema table_def).

(** ** Specification of accepted values *)

Definition set_ok (check : bytes -> bool) (vals : list bytes) : Prop :=
  vals <> [] /\ NoDup vals /\ Forall (fun v => check v = true) vals.

(** A value accepted at nesting level [depth]. *)
#[warnings="-register-all"]
Inductive value_ok : Z -> AttributeValue -> Prop :=
| vok_S d s : value_ok d (AV_S s)
| vok_N d s : is_valid_number s = true -> value_ok d (AV_N s)
| vok_B d s : value_ok d (AV_B s)
| vok_BOOL d b : value_ok d (AV_BOOL b)
| vok_NUL d : value_ok d AV_NUL
| vok_SS d l : set_ok (fun _ => true) l -> value_ok d (AV_SS l)
| vok_NS d l : set_ok is_valid_number l -> value_ok d (AV_NS l)
| vok_BS d l : set_ok (fun _ => true) l -> value_ok d (AV_BS l)
| vok_M d m :
    Forall (fun e => d + 1 <= kMaxNestingDepth /\ len e.1 <= kMaxAttributeNameBytes /\
                     (forall a, e.2 = Some a -> value_ok (d + 1) a)) m ->
    value_ok d (AV_M m)
| vok_L d l :
    Forall (fun v => d + 1 <= kMaxNestingDepth /\ (forall a, v = Some a -> value_ok (d + 1) a)) l ->
    value_ok d (AV_L l).

Definition key_ok (item : AttributeMap) (defs : list (bytes * AttributeType)) (ks : KeySchemaElement) : Prop :=
  exists v, mget (attribute_name ks) item = Some (Some v) /\
    (forall t, mget (attribute_name ks) defs = Some t -> av_type v = t) /\
    v <> AV_S [] /\ v <> AV_B [].

Record item_ok (item : AttributeMap) (def : TableDefinition) : Prop := {
  item_ok_size : exact_item_size item <= kMaxItemSizeBytes;
  item_ok_attrs : Forall (fun e => len e.1 <= kMaxAttributeNameBytes /\
                                   (forall a, e.2 = Some a -> value_ok 1 a)) item;
  item_ok_keys : Forall (key_ok item (attribute_definitions def)) (key_schema def)
}.

(** ** Soundness and completeness *)

Lemma validate_set_ok check seen vals :
  validate_set check seen vals = Ok tt <->
  NoDup vals /\ Forall (fun v => check v = true) vals /\ Forall (fun v => v ∉ seen) vals.
Proof.
  revert seen. induction vals as [|v vals IH]; intros seen; simpl.
  - split; [intros _; repeat constructor|done].
  - rewrite NoDup_cons, !Forall_cons. destruct (check v) eqn:Ec; simpl; [|split; [done|]; intros (_ & [? _] & _); congruence].
    case_bool_decide as Hin.
    + split; [done|]. intros (_ & _ & [? _]). done.
    + rewrite IH. rewrite !Forall_forall. split.
      * intros (? & ? & Hn). repeat split; auto.
        -- intros Hv. apply (Hn v Hv). left.
        -- intros x Hx Hxs. apply (Hn x Hx). by right.
      * intros ([? ?] & [_ ?] & [_ Hn]). repeat split; auto.
        intros x Hx [->|?]%elem_of_cons; [done|]. by apply (Hn x Hx).
Qed.

Lemma validate_nonempty_set_ok check vals :
  validate_nonempty_set check vals = Ok tt <-> set_ok check vals.
Proof.
  unfold set_ok. destruct vals as [|v vals]; [split; [done|]; by intros [? _]|].
  unfold validate_nonempty_set. rewrite validate_set_ok. split; [intros (? & ? & _); done|].
  intros (_ & ? & ?). repeat split; auto. apply Forall_forall. intros x _. apply not_elem_of_nil.
Qed.

Lemma bind_ok {A B E} (x : expected A E) (f : A -> expected B E) r :
  expected_bind x f = Ok r <-> exists a, x = Ok a /\ f a = Ok r.
Proof. destruct x as [a|e]; simpl; split; eauto; [intros (? & [= <-] & ?); done|done|intros (? & ? & ?); done]. Qed.

Lemma validate_guard_ok name depth k :
  validate_guard name depth k = Ok tt <->
  depth <= kMaxNestingDepth /\ len name <= kMaxAttributeNameBytes /\ k = Ok tt.
Proof.
  unfold validate_guard. destruct (Z.ltb_spec kMaxNestingDepth depth); [split; [done|lia]|].
  destruct (Z.ltb_spec kMaxAttributeNameBytes (len name)); [split; [done|lia]|]. tauto.
Qed.

Lemma unit_exists (P : unit -> Prop) : (exists u, P u) <-> P tt.
Proof. split; [by intros [[] ?]|by exists tt]. Qed.

Lemma opt_value_ok (v : AttrPtr) depth :
  opt_all (fun a => forall d, validate_value a d = Ok tt <-> value_ok d a) v ->
  (match v with Some a => validate_value a depth | None => Ok tt end) = Ok tt <->
  (forall a, v = Some a -> value_ok depth a).
Proof.
  destruct v as [a|]; simpl; intros H; [|split; [congruence|done]].
  rewrite H. split; [intros Ha b [= <-]; done|auto].
Qed.

Lemma validate_value_ok v : forall depth, validate_value v depth = Ok tt <-> value_ok depth v.
Proof.
  induction v using av_ind; intros depth; simpl;
    try (split; [constructor|done]);
    try (rewrite validate_nonempty_set_ok; split; [by constructor|by inversion 1]).
  - destruct (is_valid_number s) eqn:E; split; try done; [by constructor|]. inversion 1; congruence.
  - transitivity (Forall (fun e => depth + 1 <= kMaxNestingDepth /\ len e.1 <= kMaxAttributeNameBytes /\
                     (forall a, e.2 = Some a -> value_ok (depth + 1) a)) m).
    + induction H as [|[k v] m Hv Hm IH]; [split; [constructor|done]|].
      rewrite bind_ok, unit_exists, validate_guard_ok, Forall_cons, IH. simpl in *.
      by rewrite opt_value_ok.
    + split; [by constructor|by inversion 1].
  - transitivity (Forall (fun v => depth + 1 <= kMaxNestingDepth /\ (forall a, v = Some a -> value_ok (depth + 1) a)) l).
    + induction H as [|v m Hv Hm IH]; [split; [constructor|done]|].
      rewrite bind_ok, unit_exists, validate_guard_ok, Forall_cons, IH.
      rewrite opt_value_ok by done. change (len []) with 0. unfold kMaxAttributeNameBytes. intuition lia.
    + split; [by constructor|by inversion 1].
Qed.

Lemma validate_attributes_ok item :
  validate_attributes item 1 = Ok tt <->
  Forall (fun e => len e.1 <= kMaxAttributeNameBytes /\ (forall a, e.2 = Some a -> value_ok 1 a)) item.
Proof.
  induction item as [|[k v] item IH]; simpl; [split; [constructor|done]|].
  rewrite bind_ok, unit_exists, Forall_cons, IH. unfold validate_attribute. rewrite validate_guard_ok.
  rewrite opt_value_ok by (destruct v; simpl; auto using validate_value_ok). simpl. unfold kMaxNestingDepth. intuition lia.
Qed.

Lemma validate_key_ok item defs ks : validate_key item defs ks = Ok tt <-> key_ok item defs ks.
Proof.
  unfold validate_key, key_ok. destruct (mget (attribute_name ks) item) as [[v|]|];
    [|split; [done|intros (? & [=] & _)]|split; [done|intros (? & [=] & _)]].
  destruct (mget (attribute_name ks) defs) as [t|].
  - case_bool_decide as Ht; simpl.
    + split.
      * intros H. exists v. repeat split; [congruence| |]; intros ->; discriminate.
      * intros (? & [= <-] & _ & HS & HB). destruct v as [[]| |[]| | | | | | |]; done.
    + split; [done|]. intros (? & [= <-] & Hd & _). by specialize (Hd t eq_refl).
  - split.
    + intros H. exists v. repeat split; [congruence| |]; intros ->; discriminate.
    + intros (? & [= <-] & _ & HS & HB). destruct v as [[]| |[]| | | | | | |]; done.
Qed.

Lemma validate_keys_ok item defs kss :
  validate_keys item defs kss = Ok tt <-> Forall (key_ok item defs) kss.
Proof.
  induction kss as [|ks kss IH]; simpl; [split; [constructor|done]|].
  by rewrite bind_ok, unit_exists, Forall_cons, validate_key_ok, IH.
Qed.

Lemma calculate_item_size_exact item : calculate_item_size item = cap (exact_item_size item).
Proof. apply item_size_exact_cap. Qed.

Lemma validate_item_ok item def : validate_item_standard item def = Ok tt <-> item_ok item def.
Proof.
  unfold validate_item_standard. rewrite calculate_item_size_exact.
  assert (Hsz : (kMaxItemSizeBytes <? cap (exact_item_size item)) = false <-> exact_item_size item <= kMaxItemSizeBytes).
  { rewrite Z.ltb_ge. unfold cap, size_max, kMaxItemSizeBytes. lia. }
  destruct (kMaxItemSizeBytes <? cap (exact_item_size item)).
  - split; [done|]. intros [Hs _ _]. apply Hsz in Hs. done.
  - rewrite bind_ok, unit_exists, validate_attributes_ok, validate_keys_ok.
    split; [intros [? ?]; split; auto; by apply Hsz|by intros []].
Qed.

(** ** Accepted numbers and the numeric library *)

Lemma span_spec f s p r : span f s = (p, r) ->
  s = p ++ r /\ Forall (fun b => f b = true) p /\ match r with [] => True | c :: _ => f c = false end.
Proof.
  revert p r. induction s as [|c s IH]; intros p r; simpl; [intros [= <- <-]; repeat constructor|].
  destruct (f c) eqn:E.
  - destruct (span f s) as [p' r'] eqn:Es. intros [= <- <-]. destruct (IH _ _ eq_refl) as (-> & ? & ?).
    repeat split; auto.
  - intros [= <- <-]. repeat constructor; auto.
Qed.

Lemma span_none f c s : f c = false -> span f (c :: s) = ([], c :: s).
Proof. simpl. by intros ->. Qed.

Lemma any_digit_fold ds st : any_digit (fold_left count_digit ds st) = any_digit st || negb (bool_decide (ds = [])).
Proof.
  revert st. induction ds as [|d ds IH]; intros st; simpl; [by rewrite orb_false_r|].
  rewrite IH. unfold count_digit. destruct (negb (is_char 48 d) || seen_nonzero st), (any_digit st); done.
Qed.

Definition exponent_text (e : bytes) : Prop :=
  e = [] \/ exists m sg ds, e = m :: sg ++ ds /\ (is_char 101 m || is_char 69 m) = true /\
    (sg = [] \/ exists c, sg = [c] /\ is_sign c = true) /\ ds <> [] /\ Forall (fun b => isdigit b = true) ds.

Lemma skip_sign_spec s : s = skip_sign s \/ exists c, s = c :: skip_sign s /\ is_sign c = true.
Proof. destruct s as [|c s]; [auto|]. simpl. destruct (is_sign c) eqn:E; eauto. Qed.

(** The decomposition that both the validator and [strtod] follow. *)
Lemma valid_number_parts s : is_valid_number s = true ->
  exists ip dot fp ex,
    skip_sign s = ip ++ dot ++ fp ++ ex /\
    span isdigit (skip_sign s) = (ip, dot ++ fp ++ ex) /\
    Forall (fun b => isdigit b = true) ip /\ Forall (fun b => isdigit b = true) fp /\
    ip ++ fp <> [] /\
    (dot = [] /\ fp = [] /\ match ex with c :: _ => is_char 46 c = false | [] => True end \/
     exists c, dot = [c] /\ is_char 46 c = true /\ span isdigit (fp ++ ex) = (fp, ex)) /\
    exponent_text ex.
Proof.
  unfold is_valid_number. destruct s as [|c0 s0]; [done|]. set (s := skip_sign (c0 :: s0)). clearbody s.
  destruct (span isdigit s) as [ip r1] eqn:E1. destruct (span_spec _ _ _ _ E1) as (Es & Hip & Hr1).
  assert (Hexp : forall r (b : bool),
    match (match r with
           | c :: r' => if is_char 101 c || is_char 69 c
                        then let '(ed, r'') := span isdigit (skip_sign r') in match ed with [] => None | _ => Some r'' end
                        else Some r
           | [] => Some r end) with None => false | Some (_ :: _) => false | Some [] => b end = true ->
    exponent_text r).
  { intros [|c r] b; [left; done|]. destruct (is_char 101 c || is_char 69 c) eqn:Ee; [|done].
    destruct (span isdigit (skip_sign r)) as [ed r''] eqn:Ed.
    destruct (span_spec _ _ _ _ Ed) as (Er & Hed & _).
    destruct ed as [|d ed]; [done|]. destruct r''; [|done]. intros _. right. rewrite app_nil_r in Er.
    destruct (skip_sign_spec r) as [E|(c' & E & Hc')].
    - exists c, [], (d :: ed). rewrite E, Er. repeat split; auto.
    - exists c, [c'], (d :: ed). rewrite E at 1. rewrite Er. repeat split; eauto. }
  assert (Hnodot : forall st, any_digit st = negb (bool_decide (ip = [])) ->
    (if negb (any_digit st) then false else
       match (match r1 with
           | c :: r' => if is_char 101 c || is_char 69 c
                        then let '(ed, r'') := span isdigit (skip_sign r') in match ed with [] => None | _ => Some r'' end
                        else Some r1
           | [] => Some r1 end) with None => false | Some (_ :: _) => false | Some [] => significant st <=? 38 end) = true ->
    ip <> [] /\ exponent_text r1).
  { intros st Ha. rewrite Ha. case_bool_decide; simpl; [done|]. intros H'. split; [done|]. by eapply Hexp. }
  destruct r1 as [|c r1].
  - intros H. apply Hnodot in H as [Hne Hx]; [|by rewrite any_digit_fold].
    exists ip, [], [], []. rewrite !app_nil_r in *. repeat split; auto.
  - destruct (is_char 46 c) eqn:Edot.
    + destruct (span isdigit r1) as [fp r2] eqn:E2. destruct (span_spec _ _ _ _ E2) as (Er1 & Hfp & Hr2).
      rewrite !any_digit_fold. simpl. case_bool_decide as Hi; case_bool_decide as Hf; simpl; try done;
        intros H%Hexp; exists ip, [c], fp, r2; subst s; rewrite Er1 in *; simpl;
        repeat split; auto; try (intros [? ?]%app_eq_nil; done); right; eauto.
    + intros H. apply Hnodot in H as [Hne Hx]; [|by rewrite any_digit_fold].
      exists ip, [], [], (c :: r1). simpl. repeat split; auto. by rewrite app_nil_r.
Qed.

Lemma isdigit_range b : isdigit b = true -> 48 <= bval b <= 57.
Proof. unfold isdigit, in_range. rewrite andb_true_iff, !Z.leb_le. lia. Qed.

Lemma is_char_val n b : is_char n b = true -> bval b = n.
Proof. apply Z.eqb_eq. Qed.

Lemma in_range_false lo hi b : bval b < lo \/ hi < bval b -> in_range lo hi b = false.
Proof. unfold in_range. destruct (Z.leb_spec lo (bval b)), (Z.leb_spec (bval b) hi); simpl; lia || done. Qed.

Lemma toupper_small b : bval b < 97 -> toupper b = b.
Proof. intros. unfold toupper, islower. by rewrite in_range_false by lia. Qed.

Lemma starts_with_head c s q y p : q = y :: p -> bval c <> bval y -> starts_with (c :: s) q = false.
Proof. intros -> H. simpl. case_bool_decide; [congruence|done]. Qed.

(** The exponent part is read to the end of the string. *)
Lemma parse_exponent_text ex : exponent_text ex ->
  exists e, parse_exponent (fun b => is_char 69 (toupper b)) ex = (e, []).
Proof.
  intros [->|(m & sg & ds & -> & Hm & Hsg & Hds & Hall)]; [by exists 0|].
  assert (Hmark : is_char 69 (toupper m) = true).
  { apply orb_prop in Hm as [H|H]; apply is_char_val in H; apply Z.eqb_eq.
    - unfold toupper, islower, in_range. rewrite H.
      change ((97 <=? 101) && (101 <=? 122)) with true. cbv iota. rewrite byte_of_small; lia.
    - rewrite toupper_small; lia. }
  unfold parse_exponent. rewrite Hmark.
  assert (Hsp : span isdigit ds = (ds, [])) by by apply span_all.
  destruct Hsg as [->|(c & -> & Hc)]; simpl app.
  - destruct ds as [|d ds']; [done|]. apply Forall_cons in Hall as [Hd _]. apply isdigit_range in Hd.
    unfold is_char at 1 2. destruct (Z.eqb_spec (bval d) 45), (Z.eqb_spec (bval d) 43); try lia.
    rewrite Hsp. eauto.
  - unfold is_sign in Hc. destruct (is_char 45 c) eqn:E; cbn [app]; rewrite E.
    + rewrite Hsp. destruct ds; [done|eauto].
    + rewrite orb_false_r in Hc. rewrite Hc, Hsp. destruct ds; [done|eauto].
Qed.

Lemma digit_or_dot_head (ip dot fp ex : bytes) :
  Forall (fun b => isdigit b = true) ip ->
  ip ++ fp <> [] ->
  (dot = [] /\ fp = [] /\ True \/ exists c, dot = [c] /\ is_char 46 c = true) ->
  exists c r, ip ++ dot ++ fp ++ ex = c :: r /\ 46 <= bval c <= 57.
Proof.
  intros Hip Hne Hdot. destruct ip as [|c ip].
  - destruct Hdot as [(-> & -> & _)|(c & -> & Hc)]; [done|]. apply is_char_val in Hc. simpl. eexists _, _. split; [done|lia].
  - apply Forall_cons in Hip as [Hc _]. apply isdigit_range in Hc. simpl. eexists _, _. split; [done|lia].
Qed.

(** A valid number is a decimal literal for [strtod]/[strtold], read in full. *)
Lemma valid_number_unsigned F neg s : is_valid_number s = true ->
  exists num e, strtofloat_unsigned F neg (skip_sign s) = Some (round_decimal F neg num e, []).
Proof.
  intros H. apply valid_number_parts in H as (ip & dot & fp & ex & Es & Esp & Hip & Hfp & Hne & Hdot & Hex).
  destruct (digit_or_dot_head ip dot fp ex) as (c & r & Ec & Hc); [done|done| |].
  { destruct Hdot as [(? & ? & _)|(c & ? & ? & _)]; eauto. }
  assert (Hman : parse_mantissa isdigit (skip_sign s) = Some (ip, fp, ex)).
  { unfold parse_mantissa. rewrite Esp. destruct Hdot as [(-> & -> & Hx)|(c' & -> & Hc' & Hsp)]; simpl.
    - rewrite app_nil_r in Hne. destruct ex as [|x ex]; [by destruct ip|]. rewrite Hx. by destruct ip.
    - rewrite Hc', Hsp. destruct ip, fp; done. }
  destruct (parse_exponent_text ex Hex) as [e He].
  unfold strtofloat_unsigned. rewrite Hman, He. rewrite Es, Ec. cbn [upper_bytes map].
  rewrite toupper_small by lia.
  assert (Hi : bval Byte.x49 = 73) by reflexivity. assert (Hn : bval Byte.x4e = 78) by reflexivity.
  rewrite (starts_with_head c _ (lit "INFINITY") Byte.x49 (lit "NFINITY")) by (reflexivity || lia).
  rewrite (starts_with_head c _ (lit "INF") Byte.x49 (lit "NF")) by (reflexivity || lia).
  rewrite (starts_with_head c _ (lit "NAN") Byte.x4e (lit "AN")) by (reflexivity || lia).
  assert (Hhex : starts_with (c :: map toupper r) (lit "0X") = false); [|rewrite Hhex; eauto].
  apply not_true_is_false. intros H. apply starts_with_spec in H as [r' E].
  destruct r as [|d r]; [done|]. simpl in E. injection E as Ec0 Ed _.
  (* the octet after a leading 0 is a digit, a point, an exponent mark or the end *)
  assert (Hd : bval d = 120 \/ bval d = 88).
  { destruct (Z.lt_ge_cases (bval d) 97) as [Hl|Hl].
    - rewrite toupper_small in Ed by done. right. by rewrite Ed.
    - left. unfold toupper, islower in Ed. destruct (in_range 97 122 d) eqn:Er; [|rewrite Ed in Hl; done].
      apply (f_equal bval) in Ed. rewrite bval_byte_of in Ed. pose proof (bval_bound d).
      rewrite Z.mod_small in Ed by lia. change (bval Byte.x58) with 88 in Ed. lia. }
  assert (Hnd : isdigit d = false) by (apply in_range_false; lia).
  assert (Hcd : isdigit c = true) by by rewrite Ec0.
  assert (Hip1 : ip = [c]).
  { rewrite Es, Ec in Esp. cbn [span] in Esp. rewrite Hcd, Hnd in Esp. congruence. }
  rewrite Hip1 in Ec. injection Ec as Ec. destruct Hdot as [(-> & -> & _)|(c' & -> & Hc' & _)].
  - simpl in Ec. destruct Hex as [->|(m & sg & ds & -> & Hm & _)]; [done|].
    injection Ec as -> _. unfold is_char in Hm. destruct (Z.eqb_spec (bval d) 101), (Z.eqb_spec (bval d) 69); lia || done.
  - injection Ec as -> _. apply is_char_val in Hc'. lia.
Qed.

Lemma valid_number_strtofloat F s : is_valid_number s = true ->
  exists neg num e, strtofloat F s = (round_decimal F neg num e, []).
Proof.
  intros Hv. pose proof (valid_number_parts s Hv) as (ip & dot & fp & ex & Es & _ & Hip & _ & Hne & Hdot & _).
  destruct (digit_or_dot_head ip dot fp ex) as (c & r & Ec & Hc); [done|done| |].
  { destruct Hdot as [(? & ? & _)|(c & ? & ? & _)]; eauto. }
  rewrite Ec in Es. unfold strtofloat. destruct (skip_sign_spec s) as [E|(c' & E & Hc')].
  - assert (isspace c = false) as Hsp.
    { unfold isspace. rewrite in_range_false by lia. destruct (Z.eqb_spec (bval c) 32); lia || done. }
    rewrite E, Es, span_none by done. unfold is_char at 1 2.
    destruct (Z.eqb_spec (bval c) 45), (Z.eqb_spec (bval c) 43); try lia.
    destruct (valid_number_unsigned F false s Hv) as (num & e & Hn). rewrite <- Es, Hn. eauto.
  - assert (isspace c' = false) as Hsp.
    { unfold is_sign, is_char in Hc'. unfold isspace. apply orb_prop in Hc' as [H|H]; apply Z.eqb_eq in H;
        rewrite H; rewrite in_range_false by lia; done. }
    pose proof (valid_number_unsigned F true s Hv) as (num1 & e1 & Hn1).
    pose proof (valid_number_unsigned F false s Hv) as (num2 & e2 & Hn2).
    destruct s as [|c0 s0]; [done|]. injection E as -> _. cbn [skip_sign] in Hn1, Hn2. rewrite Hc' in Hn1, Hn2.
    rewrite span_none by done. unfold is_sign in Hc'.
    destruct (is_char 45 c') eqn:E45; [rewrite Hn1; eauto|].
    rewrite orb_false_r in Hc'. rewrite Hc', Hn2. eauto.
Qed.

Lemma nonzero_span s : Forall (fun b => bval b <> 0) s -> c_str s = s.
Proof.
  intros H. unfold c_str. rewrite span_all; [done|]. eapply Forall_impl; [exact H|].
  intros b Hb. unfold is_char. by destruct (Z.eqb_spec (bval b) 0).
Qed.

Lemma valid_number_nonzero s : is_valid_number s = true -> Forall (fun b => bval b <> 0) s.
Proof.
  intros H. apply valid_number_parts in H as (ip & dot & fp & ex & Es & _ & Hip & Hfp & _ & Hdot & Hex).
  assert (Hdig : forall l, Forall (fun b => isdigit b = true) l -> Forall (fun b => bval b <> 0) l).
  { intros l Hl. eapply Forall_impl; [exact Hl|]. intros b Hb%isdigit_range. lia. }
  assert (Hsg : forall c, is_sign c = true -> bval c <> 0).
  { intros c Hc. apply orb_prop in Hc as [Hc|Hc]; apply is_char_val in Hc; lia. }
  assert (Hbody : Forall (fun b => bval b <> 0) (skip_sign s)).
  { rewrite Es, !Forall_app. repeat split; auto.
    - destruct Hdot as [(-> & _)|(c & -> & Hc & _)]; [constructor|]. apply is_char_val in Hc.
      constructor; [lia|constructor].
    - destruct Hex as [->|(m & sg & ds & -> & Hm & Hs & _ & Hds)]; [constructor|].
      apply Forall_cons. split.
      + apply orb_prop in Hm as [Hm|Hm]; apply is_char_val in Hm; lia.
      + apply Forall_app. split; [|auto]. destruct Hs as [->|(c & -> & Hc)]; [constructor|].
        constructor; [auto|constructor]. }
  destruct (skip_sign_spec s) as [E|(c & E & Hc)]; rewrite E; [done|]. constructor; auto.
Qed.

Lemma valid_number_strtod s : is_valid_number s = true -> proper 53 1024 (strtod s).
Proof.
  intros H. unfold strtod. rewrite nonzero_span by by apply valid_number_nonzero.
  destruct (valid_number_strtofloat binary64 s H) as (neg & num & e & ->).
  apply (round_decimal_valid binary64). auto with cyn.
Qed.

Lemma valid_number_strtold s : is_valid_number s = true ->
  proper 64 16384 (fst (strtold s)) /\ snd (strtold s) = len s.
Proof.
  intros H. unfold strtold. rewrite nonzero_span by by apply valid_number_nonzero.
  destruct (valid_number_strtofloat extended80 s H) as (neg & num & e & ->). simpl fst. simpl snd. split.
  - apply (round_decimal_valid extended80). auto with cyn.
  - change (len []) with 0. lia.
Qed.

(** Every key attribute is declared with a key type. *)
Definition keys_declared (def : TableDefinition) : bool :=
  forallb (fun ks => match mget (attribute_name ks) (attribute_definitions def) with
                     | Some (T_S | T_N | T_B) => true
                     | _ => false
                     end) (key_schema def).

Lemma accepted_key_value item def v t :
  item_ok item def -> (exists name, mget name item = Some (Some v)) -> av_type v = t ->
  (t = T_S \/ t = T_N \/ t = T_B) -> key_value_ok v = true.
Proof.
  intros [_ Hattrs _] (name & Hg) <- Ht. destruct v; simpl in *; try (destruct Ht as [|[|]]; congruence); try done.
  apply mget_Some_In in Hg as Hin.
  rewrite Forall_forall in Hattrs. apply list_elem_of_In, Hattrs in Hin as [_ Hv].
  specialize (Hv _ eq_refl). inv Hv. apply valid_number_strtod in H1 as [_ Hnan]. by destruct (strtod s).
Qed.

(** The accepted items of one table have comparable keys. *)
Lemma accepted_keys def item1 item2 :
  keys_declared def = true -> item_ok item1 def -> item_ok item2 def ->
  exists ks1 ks2, key_values def item1 = Some ks1 /\ key_values def item2 = Some ks2 /\
    Forall2 (fun a b => comparable a b = true) ks1 ks2.
Proof.
  unfold keys_declared, key_values. intros Hd H1 H2.
  pose proof (item_ok_keys _ _ H1) as K1. pose proof (item_ok_keys _ _ H2) as K2.
  induction (key_schema def) as [|ks kss IH]; simpl in *; [exists [], []; repeat constructor|].
  apply andb_prop in Hd as [Ht Hd]. apply Forall_cons in K1 as [(v1 & G1 & T1 & _) K1].
  apply Forall_cons in K2 as [(v2 & G2 & T2 & _) K2].
  destruct (IH Hd K1 K2) as (ks1 & ks2 & E1 & E2 & Hc).
  rewrite G1, G2. simpl. rewrite E1, E2. simpl. exists (v1 :: ks1), (v2 :: ks2). repeat split; try done.
  constructor; [|done]. destruct (mget (attribute_name ks) (attribute_definitions def)) as [t|]; [|done].
  assert (Hty : t = T_S \/ t = T_N \/ t = T_B) by (destruct t; auto; done).
  unfold comparable. rewrite (T1 t eq_refl), (T2 t eq_refl), bool_decide_eq_true_2 by done.
  rewrite (accepted_key_value item1 def v1 t), (accepted_key_value item2 def v2 t); eauto.
Qed.

(** ** Properties *)

(** C26: the validator accepts exactly the well-formed items: the exact
    (unsaturated) size is at most 400000 bytes, every name at any depth at most
    255 bytes, nesting at most 32 levels, every number of a valid form, every
    set non-empty and duplicate-free, and every key attribute present, of its
    declared type and non-empty. *)
Theorem validate_item_standard_exact item def :
  validate_item_standard item def = Ok tt <-> item_ok item def.
Proof. apply validate_item_ok. Qed.

(** The size the validator and the read paths account is the exact
    DynamoDB size, saturated at [SIZE_MAX]: no wrap-around can make a large
    item look small. *)
Theorem item_size_saturates item :
  calculate_item_size item = Z.min size_max (exact_item_size item) /\
  item_size_bytes item = calculate_item_size item.
Proof. split; [apply calculate_item_size_exact|reflexivity]. Qed.

(** A number the validator accepts is a number to the rest of the engine:
    [strtod] (key codec) reads a representable non-NaN value, and [strtold]
    (evaluator, updates) consumes the whole text. *)
Theorem accepted_number_is_read s :
  is_valid_number s = true ->
  proper 53 1024 (strtod s) /\ proper 64 16384 (fst (strtold s)) /\ snd (strtold s) = len s.
Proof. intros H. split; [by apply valid_number_strtod|by apply valid_number_strtold]. Qed.

Lemma accepted_number_is_read_witness :
  is_valid_number (lit "-12.50e3") = true /\ snd (strtold (lit "-12.50e3")) = 8.
Proof.
  split; [vm_compute; reflexivity|].
  apply (accepted_number_is_read (lit "-12.50e3")). vm_compute. reflexivity.
Defined.

(** Items accepted for a table whose key attributes are declared are stored
    in logical key order: validation discharges every side condition of the key
    codec. *)
Theorem accepted_items_key_order def item1 item2 :
  keys_declared def = true ->
  validate_item_standard item1 def = Ok tt -> validate_item_standard item2 def = Ok tt ->
  exists ks1 ks2, key_values def item1 = Some ks1 /\ key_values def item2 = Some ks2 /\
    bytes_cmp (encode_primary_key def item1) (encode_primary_key def item2) = lex_cmp ks1 ks2.
Proof.
  rewrite !validate_item_ok. intros Hd H1 H2.
  destruct (accepted_keys def item1 item2 Hd H1 H2) as (ks1 & ks2 & E1 & E2 & Hc).
  exists ks1, ks2. repeat split; auto.
  rewrite (encode_primary_key_eq _ _ _ E1), (encode_primary_key_eq _ _ _ E2). by apply components_cmp.
Qed.

Lemma accepted_items_key_order_witness :
  exists ks1 ks2, key_values demo_schema (demo_item (lit "3")) = Some ks1 /\
    key_values demo_schema (demo_item (lit "3.5")) = Some ks2 /\
    bytes_cmp (encode_primary_key demo_schema (demo_item (lit "3")))
              (encode_primary_key demo_schema (demo_item (lit "3.5"))) = lex_cmp ks1 ks2.
Proof. apply (accepted_items_key_order demo_schema); vm_compute; reflexivity. Defined.
