(* ===== verification/Storage.v ===== *)
(** * The storage-engine interface

    [include/cynamodb/engine/storage_engine.hpp]: the virtual class every engine
    implements, as a class of operations ([StorageEngine]) and a class of laws
    ([StorageLaws]) that state each operation in terms of an abstract catalogue:
    one sorted map of items per table.  Clients (the transaction manager) are
    proved against the laws; the engines discharge them.  The paged-read
    contract shared by [scan] and [query] is [fill_page]. *)

From Stdlib Require Import ZArith Lia Strings.String.
From stdpp Require Import prelude.
From S2P Require Import Prelude StdMap Ranges Types.

Definition kMaxReadPageBytes : Z := 1024 * 1024.

(** [ScanResult] and [QueryResult] have the same fields. *)
Record PageResult := {
  items : list AttributeMap;
  last_evaluated_key : option bytes
}.

Inductive Mutation :=
| MutationNone
| MutationPut (attributes : AttributeMap)
| MutationDelete.

Definition Mutator : Type := option AttributeMap -> Mutation.

Record MutationOutcome := {
  applied : bool;
  previous : option AttributeMap
}.

(** ** Paged reads *)

(** The page ends before a row when it already has a row and either the limit
    is reached or the row would exceed the byte budget. *)
Definition page_full (limit : Z) (acc : list AttributeMap) (page_bytes item_bytes : Z) : bool :=
  match acc with
  | [] => false
  | _ => (negb (limit =? 0) && (len acc =? limit))
         || (kMaxReadPageBytes - Z.min page_bytes kMaxReadPageBytes <? item_bytes)
  end.

Fixpoint fill_page (limit : Z) (rows : list (bytes * AttributeMap)) (acc : list AttributeMap)
  (page_bytes : Z) (last_key : bytes) : PageResult :=
  match rows with
  | [] => {| items := acc; last_evaluated_key := None |}
  | (k, a) :: rows' =>
      let item_bytes := item_size_bytes a in
      if page_full limit acc page_bytes item_bytes
      then {| items := acc; last_evaluated_key := Some last_key |}
      else fill_page limit rows' (acc ++ [a]) (size_saturating_add page_bytes item_bytes) k
  end.

(** A fresh page over [rows]. *)
Definition page (limit : Z) (rows : list (bytes * AttributeMap)) : PageResult :=
  fill_page limit rows [] 0 [].

(** ** The interface *)

Class StorageEngine (E : Type) := {
  se_put : E -> bytes -> bytes -> AttributeMap -> E;
  se_remove : E -> bytes -> bytes -> E;
  se_get : E -> bytes -> bytes -> option AttributeMap;
  se_mutate : E -> bytes -> bytes -> Mutator -> E * MutationOutcome;
  se_drop_table : E -> bytes -> E;
  se_scan : E -> bytes -> option bytes -> Z -> PageResult
}.

(** What an engine promises: an invariant, and every operation as an operation
    on the abstract contents [se_rows e table], a sorted map.  [se_admits] is
    the set of keys and items the engine stores. *)
Class StorageLaws (E : Type) {SE : StorageEngine E} := {
  se_inv : E -> Prop;
  se_rows : E -> bytes -> list (bytes * AttributeMap);
  se_admits : bytes -> bytes -> AttributeMap -> Prop;
  se_names : bytes -> bytes -> Prop;
  se_names_table : forall t k, se_names t k -> se_names t [];
  se_admits_names : forall t k a, se_admits t k a -> se_names t k;
  se_sorted : forall e t, se_inv e -> msorted (se_rows e t);
  se_put_inv : forall e t k a, se_inv e -> se_admits t k a -> se_inv (se_put e t k a);
  se_put_rows : forall e t k a t', se_inv e -> se_admits t k a -> se_names t' [] ->
    se_rows (se_put e t k a) t' = if bytes_eqb t t' then mset k a (se_rows e t) else se_rows e t';
  se_remove_inv : forall e t k, se_inv e -> se_names t k -> se_inv (se_remove e t k);
  se_remove_rows : forall e t k t', se_inv e -> se_names t k -> se_names t' [] ->
    se_rows (se_remove e t k) t' = if bytes_eqb t t' then mdel k (se_rows e t) else se_rows e t';
  se_get_rows : forall e t k, se_inv e -> se_names t k -> se_get e t k = mget k (se_rows e t);
  se_mutate_inv : forall e t k m, se_inv e -> se_names t k ->
    (forall a, m (mget k (se_rows e t)) = MutationPut a -> se_admits t k a) -> se_inv (se_mutate e t k m).1;
  se_mutate_rows : forall e t k m t', se_inv e -> se_names t k -> se_names t' [] ->
    (forall a, m (mget k (se_rows e t)) = MutationPut a -> se_admits t k a) ->
    se_rows (se_mutate e t k m).1 t' =
    match m (mget k (se_rows e t)) with
    | MutationPut a => if bytes_eqb t t' then mset k a (se_rows e t) else se_rows e t'
    | MutationDelete => if bytes_eqb t t' then mdel k (se_rows e t) else se_rows e t'
    | MutationNone => se_rows e t'
    end;
  se_mutate_outcome : forall e t k m, se_inv e -> se_names t k ->
    (forall a, m (mget k (se_rows e t)) = MutationPut a -> se_admits t k a) ->
    (se_mutate e t k m).2 =
    {| applied := match m (mget k (se_rows e t)) with MutationNone => false | _ => true end;
       previous := mget k (se_rows e t) |};
  se_drop_inv : forall e t, se_inv e -> se_names t [] -> se_inv (se_drop_table e t);
  se_drop_rows : forall e t t', se_inv e -> se_names t [] -> se_names t' [] ->
    se_rows (se_drop_table e t) t' = if bytes_eqb t t' then [] else se_rows e t';
  se_scan_rows : forall e t start limit, se_inv e -> se_names t [] ->
    se_scan e t start limit = page limit (rows_after start (se_rows e t))
}.

(** ** Facts about pages *)

Lemma fill_page_spec limit rows acc pb lk :
  exists n, (n <= length rows)%nat /\
    items (fill_page limit rows acc pb lk) = acc ++ map snd (take n rows) /\
    (last_evaluated_key (fill_page limit rows acc pb lk) = None <-> n = length rows) /\
    (forall k, last_evaluated_key (fill_page limit rows acc pb lk) = Some k ->
       (n < length rows)%nat /\ k = default lk (last (map fst (take n rows)))) /\
    (acc = [] -> rows <> [] -> (0 < n)%nat).
Proof.
  revert acc pb lk. induction rows as [|[k a] rows IH]; intros acc pb lk; simpl.
  - exists 0%nat. simpl. rewrite app_nil_r. repeat split; try lia; try done.
  - destruct (page_full limit acc pb (item_size_bytes a)) eqn:E.
    + exists 0%nat. simpl. rewrite app_nil_r. split; [lia|]. split; [done|]. split; [split; [done|lia]|].
      split; [intros ? [= <-]; split; [lia|done]|]. intros ->. by simpl in E.
    + destruct (IH (acc ++ [a]) (size_saturating_add pb (item_size_bytes a)) k) as (n & Hn & Hi & Hnone & Hsome & _).
      exists (S n). simpl. split; [lia|]. split; [by rewrite Hi, <- app_assoc|].
      split; [rewrite Hnone; lia|]. split; [|lia].
      intros k' Hk'. destruct (Hsome k' Hk') as [? ->]. split; [lia|].
      destruct (map fst (take n rows)) as [|x l] eqn:El; [done|]. simpl.
      clear. revert x. induction l as [|y l IH]; intros x; [done|]. simpl. apply IH.
Qed.

(** The rows of a sorted map above its [n]-th key are the rest. *)
Lemma mupper_app_last (rows1 rows2 : list (bytes * AttributeMap)) k a :
  msorted (rows1 ++ (k, a) :: rows2) -> mupper k (rows1 ++ (k, a) :: rows2) = rows2.
Proof.
  induction rows1 as [|[k1 a1] rows1 IH]; simpl.
  - intros [Ha Hs]%msorted_cons_inv. rewrite bytes_cmp_refl. unfold above in Ha.
    destruct rows2 as [|[k2 a2] rows2]; [done|]. apply Forall_cons in Ha as [Ha _]. simpl in *.
    by rewrite (bytes_cmp_opp k k2), Ha.
  - intros [Ha Hs]%msorted_cons_inv. unfold above in Ha. apply Forall_app in Ha as [_ Ha].
    apply Forall_cons in Ha as [Ha _]. simpl in Ha. rewrite Ha. by apply IH.
Qed.

Lemma mupper_take_last (rows : list (bytes * AttributeMap)) n k :
  msorted rows -> last (map fst (take n rows)) = Some k -> mupper k rows = drop n rows.
Proof.
  intros Hs Hk. apply last_Some in Hk as [l Hl].
  assert (Hsplit : exists r1 a, take n rows = r1 ++ [(k, a)]).
  { destruct (take n rows) as [|e l0] using rev_ind; [by destruct l|].
    rewrite map_app in Hl. simpl in Hl. apply app_inj_tail in Hl as [_ Hk].
    exists l0, e.2. destruct e; simpl in *; congruence. }
  destruct Hsplit as (r1 & a & E). rewrite <- (take_drop n rows) in Hs |- * at 1.
  rewrite E, <- app_assoc in *. simpl in *. by apply mupper_app_last.
Qed.

(** ** Reading a whole table page by page *)

(** A client that resumes from [LastEvaluatedKey] until there is none. *)
Fixpoint drain (read : option bytes -> PageResult) (fuel : nat) (start : option bytes) : list AttributeMap :=
  match fuel with
  | O => []
  | S fuel' =>
      let r := read start in
      items r ++ match last_evaluated_key r with
                 | Some k => drain read fuel' (Some k)
                 | None => []
                 end
  end.

Lemma mupper_mupper (rows : list (bytes * AttributeMap)) k1 k2 :
  msorted rows -> bytes_cmp k1 k2 = Lt -> mupper k2 (mupper k1 rows) = mupper k2 rows.
Proof.
  intros Hs Hk. apply msorted_ext; auto with cyn. intros k.
  assert (Hiff : forall a, In (k, a) (mupper k2 (mupper k1 rows)) <-> In (k, a) (mupper k2 rows)).
  { intros a. rewrite !mupper_In by auto with cyn. simpl. split; [tauto|]. intros [? H2].
    repeat split; auto. by eapply bytes_cmp_trans. }
  destruct (mget k (mupper k2 (mupper k1 rows))) as [a|] eqn:E1;
    destruct (mget k (mupper k2 rows)) as [b|] eqn:E2; auto.
  - apply mget_In in E1, E2; auto with cyn. apply Hiff in E1.
    apply mget_In in E1, E2; auto with cyn. congruence.
  - apply mget_In in E1; auto with cyn. apply Hiff, mget_In in E1; auto with cyn. congruence.
  - apply mget_In in E2; auto with cyn. apply Hiff, mget_In in E2; auto with cyn. congruence.
Qed.

Lemma drain_pages (rows : list (bytes * AttributeMap)) limit :
  msorted rows ->
  forall fuel start, (length (rows_after start rows) < fuel)%nat ->
  drain (fun s => page limit (rows_after s rows)) fuel start = map snd (rows_after start rows).
Proof.
  intros Hs. induction fuel as [|fuel IH]; intros start Hf; [lia|]. simpl.
  set (after := rows_after start rows) in *.
  assert (Hsa : msorted after) by (unfold after, rows_after; destruct start; auto with cyn).
  destruct (fill_page_spec limit after [] 0 []) as (n & Hn & Hi & Hnone & Hsome & Hpos).
  unfold page. rewrite Hi. simpl.
  destruct (last_evaluated_key (fill_page limit after [] 0 [])) as [k|] eqn:El.
  - destruct (Hsome k eq_refl) as [Hlt Ek].
    assert (Hn0 : (0 < n)%nat) by (apply Hpos; [done|]; intros E; rewrite E in Hlt; simpl in Hlt; lia).
    destruct (last (map fst (take n after))) as [k'|] eqn:Elast.
    2:{ apply last_None in Elast. apply map_eq_nil in Elast. apply (f_equal length) in Elast.
        rewrite length_take in Elast. simpl in Elast. lia. }
    simpl in Ek. subst k'.
    assert (Hk : mupper k rows = drop n after).
    { rewrite <- (mupper_take_last after n k Hsa Elast). unfold after, rows_after in *. destruct start as [k0|]; [|done].
      symmetry. apply mupper_mupper; [done|].
      apply last_Some in Elast as [l El']. assert (Hin : In k (map fst (take n (mupper k0 rows)))).
      { rewrite El'. apply in_or_app. right. by left. }
      apply in_map_iff in Hin as ([k1 a1] & <- & Hin). apply list_elem_of_In, elem_of_take in Hin as (i & Hin & _).
      apply list_elem_of_lookup_2, list_elem_of_In, mupper_In in Hin; [|done]. simpl in *. tauto. }
    rewrite IH; simpl; rewrite Hk; [|rewrite length_drop; lia].
    by rewrite <- map_app, take_drop.
  - rewrite app_nil_r. assert (n = length after) as -> by by apply Hnone. by rewrite take_ge.
Qed.

(** Page bounds: at most [limit] rows, and at most the byte budget unless the
    page is a single row (rows of size zero do not occur: an item has a key). *)
Definition rows_size (l : list AttributeMap) : Z := fold_right (fun a s => item_size_bytes a + s) 0 l.

Lemma item_size_nonneg a : 0 <= item_size_bytes a.
Proof.
  rewrite item_size_exact_cap. unfold cap, exact_item_size, size_max.
  assert (0 <= fold_right (fun e acc => len e.1 + from_option exact_size 0 e.2 + acc) 0 a); [|lia].
  induction a as [|[k v] a IH]; simpl; [lia|]. pose proof (len_nonneg k). pose proof (exact_opt_nonneg v). lia.
Qed.

Lemma rows_size_app l1 l2 : rows_size (l1 ++ l2) = rows_size l1 + rows_size l2.
Proof. induction l1; simpl; lia. Qed.

Lemma rows_size_nonneg l : 0 <= rows_size l.
Proof. induction l as [|a l IH]; simpl; [lia|]. pose proof (item_size_nonneg a). lia. Qed.

Lemma fill_page_bounds limit rows acc lk :
  Forall (fun e => 0 < item_size_bytes e.2) rows ->
  (limit <> 0 -> len acc <= limit) -> (len acc <= 1 \/ rows_size acc <= kMaxReadPageBytes) ->
  0 <= limit ->
  let r := fill_page limit rows acc (cap (rows_size acc)) lk in
  (limit <> 0 -> len (items r) <= limit) /\
  (len (items r) <= 1 \/ rows_size (items r) <= kMaxReadPageBytes).
Proof.
  intros Hpos. revert acc lk. induction Hpos as [|[k a] rows Ha Hpos IH]; intros acc lk Hl Hb Hlim; simpl; [done|].
  destruct (page_full limit acc (cap (rows_size acc)) (item_size_bytes a)) eqn:E; [done|].
  pose proof (item_size_nonneg a). pose proof (rows_size_nonneg acc).
  rewrite sat_add_cap_l by done.
  replace (rows_size acc + item_size_bytes a) with (rows_size (acc ++ [a])) by (rewrite rows_size_app; simpl; lia).
  apply IH; [| |done]; rewrite ?len_app, ?rows_size_app; unfold page_full in E; destruct acc as [|b acc].
  - unfold len; simpl; lia.
  - apply orb_false_elim in E as [E _]. intros Hl0. specialize (Hl Hl0).
    destruct (Z.eqb_spec limit 0); [done|]. cbn [negb andb] in E. apply Z.eqb_neq in E. change (len [a]) with 1. lia.
  - left. reflexivity.
  - right. apply orb_false_elim in E as [_ E]. apply Z.ltb_ge in E. simpl in Ha.
    change (rows_size [a]) with (item_size_bytes a + 0).
    unfold cap, size_max, kMaxReadPageBytes in *. lia.
Qed.

(** ** Histories

    A client of an engine issues operations one at a time (each is atomic: the
    engines hold their lock for the whole operation).  The abstract store is a
    function from table and key to the item last written. *)

Inductive EngineOp :=
| OpPut (t k : bytes) (a : AttributeMap)
| OpRemove (t k : bytes)
| OpMutate (t k : bytes) (m : Mutator)
| OpDrop (t : bytes).

Definition run_op {E} `{StorageEngine E} (e : E) (op : EngineOp) : E :=
  match op with
  | OpPut t k a => se_put e t k a
  | OpRemove t k => se_remove e t k
  | OpMutate t k m => (se_mutate e t k m).1
  | OpDrop t => se_drop_table e t
  end.

Definition Store := bytes -> bytes -> option AttributeMap.

Definition empty_store : Store := fun _ _ => None.

Definition store_set (st : Store) (t k : bytes) (v : option AttributeMap) : Store :=
  fun t' k' => if bytes_eqb t t' && bytes_eqb k k' then v else st t' k'.

Definition spec_op (st : Store) (op : EngineOp) : Store :=
  match op with
  | OpPut t k a => store_set st t k (Some a)
  | OpRemove t k => store_set st t k None
  | OpMutate t k m =>
      match m (st t k) with
      | MutationPut a => store_set st t k (Some a)
      | MutationDelete => store_set st t k None
      | MutationNone => st
      end
  | OpDrop t => fun t' k' => if bytes_eqb t t' then None else st t' k'
  end.

Section History.
Context {E : Type} {SE : StorageEngine E} {SL : StorageLaws E}.

Definition op_ok (op : EngineOp) : Prop :=
  match op with
  | OpPut t k a => se_admits t k a
  | OpRemove t k => se_names t k
  | OpMutate t k m => se_names t k /\ forall c a, m c = MutationPut a -> se_admits t k a
  | OpDrop t => se_names t []
  end.

(** The simulation relation: lookups in every nameable table agree. *)
Definition represents (e : E) (st : Store) : Prop :=
  se_inv e /\ forall t k, se_names t [] -> mget k (se_rows e t) = st t k.

Lemma represents_store_set e st e' t k v :
  represents e st -> se_inv e' ->
  (forall t', se_names t' [] ->
     se_rows e' t' = if bytes_eqb t t' then match v with Some a => mset k a (se_rows e t) | None => mdel k (se_rows e t) end
                     else se_rows e t') ->
  represents e' (store_set st t k v).
Proof.
  intros [Hi Hr] Hi' Hrows. split; [done|]. intros t' k' Ht'. rewrite Hrows by done. unfold store_set.
  destruct (bytes_eqb_spec t t') as [->|Hne]; simpl; [|by apply Hr].
  assert (Ek : keqb k' k = bytes_eqb k k')
    by (destruct (keqb_spec k' k), (bytes_eqb_spec k k'); congruence).
  destruct v; [rewrite mget_mset|rewrite mget_mdel]; rewrite Ek; destruct (bytes_eqb k k'); auto.
Qed.

Lemma run_op_represents e st op :
  represents e st -> op_ok op -> represents (run_op e op) (spec_op st op).
Proof.
  intros Hrep Hop. pose proof Hrep as [Hi Hr]. destruct op as [t k a|t k|t k m|t]; simpl in *.
  - eapply represents_store_set; [done|by apply se_put_inv|]. intros. by apply se_put_rows.
  - eapply represents_store_set; [done|by apply se_remove_inv|]. intros. by apply se_remove_rows.
  - destruct Hop as [Hn Hm]. pose proof (se_names_table _ _ Hn) as Ht.
    assert (Hadm : forall a, m (mget k (se_rows e t)) = MutationPut a -> se_admits t k a) by eauto.
    pose proof (se_mutate_inv e t k m Hi Hn Hadm) as Hi'.
    pose proof (fun t' H => se_mutate_rows e t k m t' Hi Hn H Hadm) as Hrows.
    rewrite <- (Hr t k Ht). destruct (m (mget k (se_rows e t))).
    + split; [done|]. intros. rewrite Hrows by done. auto.
    + by eapply represents_store_set.
    + by eapply represents_store_set.
  - split; [by apply se_drop_inv|]. intros t' k Ht'. rewrite se_drop_rows by done.
    destruct (bytes_eqb_spec t t'); auto.
Qed.

(** Every engine that satisfies the laws simulates the abstract store. *)
Lemma run_ops_represents ops e st :
  represents e st -> Forall op_ok ops -> represents (fold_left run_op ops e) (fold_left spec_op ops st).
Proof.
  intros Hrep Hops. revert e st Hrep. induction Hops as [|op ops Hop Hops IH]; intros e st Hrep; simpl; [done|].
  apply IH. by apply run_op_represents.
Qed.

Lemma represents_get e st t k : represents e st -> se_names t k -> se_get e t k = st t k.
Proof. intros [Hi Hr] Hn. rewrite se_get_rows by done. eauto using se_names_table. Qed.

(** Resuming scans from [LastEvaluatedKey] reads the table once, in key order. *)
Lemma scan_drain e t limit fuel :
  se_inv e -> se_names t [] -> (length (se_rows e t) < fuel)%nat ->
  drain (fun s => se_scan e t s limit) fuel None = map snd (se_rows e t).
Proof.
  intros Hi Hn Hf. etransitivity; [|exact (drain_pages (se_rows e t) limit (se_sorted e t Hi) fuel None Hf)].
  generalize (@None bytes). clear Hf. induction fuel as [|fuel IH]; intros start; simpl; [done|].
  rewrite se_scan_rows by done. destruct (last_evaluated_key _); [|done]. by rewrite IH.
Qed.
End History.
