(* ===== verification/MemoryEngine.v ===== *)
(** * The in-memory engine

    [src/engine/memory_engine.cpp]: a map of tables, each a map from encoded
    key to item.  Every operation holds the engine's lock for its whole body,
    so an operation is one atomic step on the state [data_]. *)

From Stdlib Require Import ZArith Lia Strings.String.
From stdpp Require Import prelude.
From S2P Require Import Prelude StdMap Ranges Types CLib KeyCodec Storage.

Inductive StorageError := TableNotFound | ConditionalCheckFailed | ItemNotFound | InternalError.

Module MemoryEngine.

Record t := { data_ : list (bytes * list (bytes * AttributeMap)) }.

Definition empty : t := {| data_ := [] |}.

(** ** Helpers *)

Definition attribute_equals (a b : AttributeValue) : bool :=
  match a, b with
  | AV_S s, AV_S s' => bytes_eqb s s'
  | AV_N s, AV_N s' => bytes_eqb s s'
  | AV_B s, AV_B s' => bytes_eqb s s'
  | AV_BOOL x, AV_BOOL y => Bool.eqb x y
  | AV_NUL, AV_NUL => true
  | _, _ => false
  end.

Fixpoint item_matches_conditions (item conditions : AttributeMap) : bool :=
  match conditions with
  | [] => true
  | (name, expected) :: conditions' =>
      match expected with
      | None => false
      | Some e =>
          match mget name item with
          | Some (Some v) => if attribute_equals v e then item_matches_conditions item conditions' else false
          | _ => false
          end
      end
  end.

(** ** Operations *)

Definition table_of (e : t) (table_name : bytes) : list (bytes * AttributeMap) :=
  match mget table_name (data_ e) with Some items => items | None => [] end.

Definition put (e : t) (table_name key : bytes) (attributes : AttributeMap) : t :=
  {| data_ := mset table_name (mset key attributes (table_of e table_name)) (data_ e) |}.

Definition remove (e : t) (table_name key : bytes) : t :=
  match mget table_name (data_ e) with
  | Some items => {| data_ := mset table_name (mdel key items) (data_ e) |}
  | None => e
  end.

Definition get (e : t) (table_name key : bytes) : option AttributeMap :=
  match mget table_name (data_ e) with
  | None => None
  | Some items => mget key items
  end.

(** [data_[table_name]] creates the table before the mutator runs. *)
Definition mutate (e : t) (table_name key : bytes) (mutator : Mutator) : t * MutationOutcome :=
  let table := table_of e table_name in
  let current := mget key table in
  match mutator current with
  | MutationPut attributes =>
      ({| data_ := mset table_name (mset key attributes table) (data_ e) |},
       {| applied := true; previous := current |})
  | MutationDelete =>
      let table := match current with Some _ => mdel key table | None => table end in
      ({| data_ := mset table_name table (data_ e) |}, {| applied := true; previous := current |})
  | MutationNone =>
      ({| data_ := mset table_name table (data_ e) |}, {| applied := false; previous := current |})
  end.

Definition drop_table (e : t) (table_name : bytes) : t := {| data_ := mdel table_name (data_ e) |}.

Fixpoint scan_loop (limit : Z) (rest : list (bytes * AttributeMap)) (result : list AttributeMap)
  (page_bytes : Z) (last_key : bytes) : PageResult :=
  match rest with
  | [] => {| items := result; last_evaluated_key := None |}
  | (k, item) :: rest' =>
      let item_bytes := item_size_bytes item in
      if negb (bool_decide (result = [])) &&
         ((negb (limit =? 0) && (len result =? limit)) ||
          (kMaxReadPageBytes - Z.min page_bytes kMaxReadPageBytes <? item_bytes))
      then {| items := result; last_evaluated_key := Some last_key |}
      else scan_loop limit rest' (result ++ [item]) (size_saturating_add page_bytes item_bytes) k
  end.

Definition scan (e : t) (table_name : bytes) (exclusive_start_key : option bytes) (limit : Z) : PageResult :=
  match mget table_name (data_ e) with
  | None => {| items := []; last_evaluated_key := None |}
  | Some its =>
      let it := match exclusive_start_key with Some k => mupper k its | None => its end in
      scan_loop limit it [] 0 []
  end.

(** The body of both query loops, over the rows in visiting order. *)
Fixpoint query_loop (limit : Z) (key_conditions : AttributeMap) (key_prefix : option bytes)
  (rest : list (bytes * AttributeMap)) (result : list AttributeMap) (page_bytes : Z) (last_key : bytes)
  : PageResult :=
  match rest with
  | [] => {| items := result; last_evaluated_key := None |}
  | (k, item) :: rest' =>
      if match key_prefix with Some p => negb (starts_with k p) | None => false end
      then {| items := result; last_evaluated_key := None |}
      else if negb (item_matches_conditions item key_conditions)
      then query_loop limit key_conditions key_prefix rest' result page_bytes last_key
      else
        let item_bytes := item_size_bytes item in
        if negb (bool_decide (result = [])) &&
           ((negb (limit =? 0) && (len result =? limit)) ||
            (kMaxReadPageBytes - Z.min page_bytes kMaxReadPageBytes <? item_bytes))
        then {| items := result; last_evaluated_key := Some last_key |}
        else query_loop limit key_conditions key_prefix rest' (result ++ [item])
               (size_saturating_add page_bytes item_bytes) k
  end.

Definition query (e : t) (table_name : bytes) (key_conditions : AttributeMap)
  (exclusive_start_key : option bytes) (limit : Z) (key_prefix : option bytes) (scan_forward : bool)
  : PageResult :=
  match mget table_name (data_ e) with
  | None => {| items := []; last_evaluated_key := None |}
  | Some its =>
      if scan_forward then
        let it := match key_prefix with Some p => mlower p its | None => its end in
        let it := match exclusive_start_key with Some k => mupper k its | None => it end in
        query_loop limit key_conditions key_prefix it [] 0 []
      else
        let before := match exclusive_start_key with Some k => mbefore k its | None => its end in
        let before :=
          match exclusive_start_key, key_prefix with
          | None, Some p => match prefix_successor p with Some u => mbefore u its | None => before end
          | _, _ => before
          end in
        query_loop limit key_conditions key_prefix (rev before) [] 0 []
  end.

Definition make_key (table_def : TableDefinition) (key : AttributeMap) : bytes := encode_primary_key table_def key.

Definition put_item (e : t) (table_def : TableDefinition) (item : AttributeMap) : t * expected unit StorageError :=
  (put e (table_name table_def) (make_key table_def item) item, Ok tt).

Definition get_item (e : t) (table_def : TableDefinition) (key : AttributeMap) : expected AttributeMap StorageError :=
  match get e (table_name table_def) (make_key table_def key) with
  | None => Err ItemNotFound
  | Some v => Ok v
  end.

Definition delete_item (e : t) (table_def : TableDefinition) (key : AttributeMap) : t * expected unit StorageError :=
  (remove e (table_name table_def) (make_key table_def key), Ok tt).

#[export] Instance engine : StorageEngine t := {
  se_put := put; se_remove := remove; se_get := get; se_mutate := mutate;
  se_drop_table := drop_table; se_scan := scan
}.

(** ** Invariant: sorted tables *)

Definition wf (e : t) : Prop := Forall (fun tbl => msorted tbl.2) (data_ e) /\ msorted (data_ e).

Lemma wf_empty : wf empty.
Proof. split; constructor. Qed.

Lemma wf_table e tn : wf e -> msorted (table_of e tn).
Proof.
  intros [Ht _]. unfold table_of. destruct (mget tn (data_ e)) as [its|] eqn:E; [|constructor].
  apply mget_Some_In, list_elem_of_In in E. rewrite Forall_forall in Ht. by apply Ht in E.
Qed.

Lemma wf_set_table e tn its : wf e -> msorted its -> wf {| data_ := mset tn its (data_ e) |}.
Proof. intros [H1 H2] Hi. split; simpl; [by apply (Forall_mset msorted)|auto with cyn]. Qed.

#[export] Hint Resolve wf_empty wf_table wf_set_table : cyn.

Lemma wf_put e tn k a : wf e -> wf (put e tn k a).
Proof. intros. unfold put. auto with cyn. Qed.

Lemma wf_remove e tn k : wf e -> wf (remove e tn k).
Proof.
  intros H. unfold remove. destruct (mget tn (data_ e)) as [its|] eqn:E; [|done].
  apply wf_set_table; [done|]. pose proof (wf_table e tn H) as Ht. unfold table_of in Ht. rewrite E in Ht. auto with cyn.
Qed.

Lemma wf_mutate e tn k m : wf e -> wf (mutate e tn k m).1.
Proof.
  intros H. unfold mutate. destruct (m _); simpl; auto with cyn.
  apply wf_set_table; [done|]. destruct (mget k _); auto with cyn.
Qed.

Lemma wf_drop_table e tn : wf e -> wf (drop_table e tn).
Proof. intros [H1 H2]. split; simpl; [by apply (Forall_mdel msorted)|auto with cyn]. Qed.

(** ** Effect on the contents *)

Lemma table_of_mset e tn its tn' :
  table_of {| data_ := mset tn its (data_ e) |} tn' = if bytes_eqb tn tn' then its else table_of e tn'.
Proof.
  unfold table_of. simpl. rewrite mget_mset. unfold keqb. simpl.
  destruct (bytes_eqb_spec tn tn') as [->|Hne]; [by rewrite bytes_cmp_refl|].
  destruct (bytes_cmp tn' tn) eqn:E; try done. apply bytes_cmp_eq in E. congruence.
Qed.

Lemma table_of_put e tn k a tn' :
  table_of (put e tn k a) tn' = if bytes_eqb tn tn' then mset k a (table_of e tn) else table_of e tn'.
Proof. apply table_of_mset. Qed.

Lemma table_of_remove e tn k tn' :
  table_of (remove e tn k) tn' = if bytes_eqb tn tn' then mdel k (table_of e tn) else table_of e tn'.
Proof.
  unfold remove. destruct (mget tn (data_ e)) as [its|] eqn:E.
  - rewrite table_of_mset. unfold table_of at 2. by rewrite E.
  - destruct (bytes_eqb_spec tn tn') as [->|]; [|done]. unfold table_of. by rewrite E.
Qed.

Lemma table_of_drop e tn tn' :
  table_of (drop_table e tn) tn' = if bytes_eqb tn tn' then [] else table_of e tn'.
Proof.
  unfold table_of. simpl. rewrite mget_mdel. unfold keqb. simpl.
  destruct (bytes_eqb_spec tn tn') as [->|Hne]; [by rewrite bytes_cmp_refl|].
  destruct (bytes_cmp tn' tn) eqn:E; try done. apply bytes_cmp_eq in E. congruence.
Qed.

Lemma get_table e tn k : get e tn k = mget k (table_of e tn).
Proof. unfold get, table_of. by destruct (mget tn (data_ e)). Qed.

(** A mutation is the put or the removal its mutator asked for. *)
Lemma mutate_rows e tn k m tn' :
  table_of (mutate e tn k m).1 tn' =
  match m (mget k (table_of e tn)) with
  | MutationPut a => if bytes_eqb tn tn' then mset k a (table_of e tn) else table_of e tn'
  | MutationDelete => if bytes_eqb tn tn' then mdel k (table_of e tn) else table_of e tn'
  | MutationNone => table_of e tn'
  end.
Proof.
  unfold mutate. destruct (m _); simpl.
  - rewrite table_of_mset. by destruct (bytes_eqb_spec tn tn') as [->|].
  - apply table_of_mset.
  - rewrite table_of_mset. destruct (bytes_eqb tn tn'); [|done].
    destruct (mget k (table_of e tn)) eqn:E; [done|]. by rewrite mdel_none.
Qed.

Lemma mutate_outcome e tn k m :
  (mutate e tn k m).2 =
  {| applied := match m (mget k (table_of e tn)) with MutationNone => false | _ => true end;
     previous := mget k (table_of e tn) |}.
Proof. unfold mutate. by destruct (m _). Qed.

Lemma scan_loop_page limit rest result pb lk : scan_loop limit rest result pb lk = fill_page limit rest result pb lk.
Proof.
  revert result pb lk. induction rest as [|[k a] rest IH]; intros result pb lk; [done|].
  cbn [scan_loop fill_page]. rewrite IH. unfold page_full. by destruct result.
Qed.

Lemma scan_page e tn start limit : scan e tn start limit = page limit (rows_after start (table_of e tn)).
Proof.
  unfold scan, table_of, page. destruct (mget tn (data_ e)) as [its|]; [|by destruct start].
  rewrite scan_loop_page. done.
Qed.

#[export] Instance laws : StorageLaws t := {
  se_inv := wf;
  se_rows := table_of;
  se_admits := fun _ _ _ => True;
  se_names := fun _ _ => True;
  se_names_table := fun _ _ _ => I;
  se_admits_names := fun _ _ _ _ => I;
  se_sorted := wf_table;
  se_put_inv := fun e tn k a H _ => wf_put e tn k a H;
  se_put_rows := fun e tn k a tn' _ _ _ => table_of_put e tn k a tn';
  se_remove_inv := fun e tn k H _ => wf_remove e tn k H;
  se_remove_rows := fun e tn k tn' _ _ _ => table_of_remove e tn k tn';
  se_get_rows := fun e tn k _ _ => get_table e tn k;
  se_mutate_inv := fun e tn k m H _ _ => wf_mutate e tn k m H;
  se_mutate_rows := fun e tn k m tn' _ _ _ _ => mutate_rows e tn k m tn';
  se_mutate_outcome := fun e tn k m _ _ _ => mutate_outcome e tn k m;
  se_drop_inv := fun e tn H _ => wf_drop_table e tn H;
  se_drop_rows := fun e tn tn' _ _ _ => table_of_drop e tn tn';
  se_scan_rows := fun e tn start limit _ _ => scan_page e tn start limit
}.

(** ** Queries *)

(** Rows that a query visits and returns: in key order (reversed when not
    [scan_forward]), restricted to the prefix, past the start key, matching. *)
Definition selected (conds : AttributeMap) (p : option bytes) (e : bytes * AttributeMap) : bool :=
  in_prefix p e.1 && item_matches_conditions e.2 conds.

(** The loop pages over the matching rows as long as the visited rows stay in
    the prefix. *)
Lemma query_loop_page limit conds p rest result pb lk :
  Forall (fun e => in_prefix p e.1 = true) rest ->
  query_loop limit conds p rest result pb lk =
  fill_page limit (List.filter (selected conds p) rest) result pb lk.
Proof.
  intros H. revert result pb lk. induction H as [|[k a] rest Hp Hr IH]; intros result pb lk; [done|].
  cbn [query_loop List.filter]. unfold selected at 1. cbn [fst snd] in *. rewrite Hp.
  unfold in_prefix in Hp. replace (match p with Some p0 => negb (starts_with k p0) | None => false end) with false
    by (destruct p; [by rewrite Hp|done]).
  destruct (item_matches_conditions a conds); cbn [negb andb]; [|apply IH].
  cbn [fill_page]. rewrite IH. unfold page_full. by destruct result.
Qed.

(** Rows outside the prefix end the loop. *)
Lemma query_loop_stop limit conds p rest result pb lk :
  match rest with [] => True | (k, _) :: _ => in_prefix p k = false end ->
  query_loop limit conds p rest result pb lk = {| items := result; last_evaluated_key := None |}.
Proof.
  destruct rest as [|[k a] rest]; [done|]. intros H. cbn [query_loop].
  destruct p as [p|]; [|done]. simpl in H. by rewrite H.
Qed.

(** A visited list whose in-prefix rows come first. *)
Lemma query_loop_block limit conds p block tail :
  Forall (fun e => in_prefix p e.1 = true) block -> Forall (fun e => in_prefix p e.1 = false) tail ->
  query_loop limit conds p (block ++ tail) [] 0 [] = page limit (List.filter (selected conds p) (block ++ tail)).
Proof.
  intros Hb Ht.
  assert (Hf : List.filter (selected conds p) tail = []).
  { clear -Ht. induction Ht as [|[k a] tail Hk Ht IH]; simpl; [done|]. unfold selected at 1. simpl in *. by rewrite Hk. }
  rewrite List.filter_app, Hf, app_nil_r. unfold page.
  generalize (@nil AttributeMap) 0 (@nil byte). induction Hb as [|[k a] block Hk Hb IH]; intros result pb lk.
  - simpl. apply query_loop_stop. destruct tail as [|[k a] tail]; [done|]. by apply Forall_cons in Ht as [? _].
  - cbn [app query_loop List.filter]. unfold selected at 1. cbn [fst snd] in *. rewrite Hk.
    unfold in_prefix in Hk. replace (match p with Some p0 => negb (starts_with k p0) | None => false end) with false
      by (destruct p; [by rewrite Hk|done]).
    destruct (item_matches_conditions a conds); cbn [negb andb]; [|apply IH].
    cbn [fill_page]. rewrite IH. unfold page_full. by destruct result.
Qed.

Lemma selected_in_prefix conds p e : selected conds p e = true -> in_prefix p e.1 = true.
Proof. unfold selected. intros H. by bool_hyps. Qed.

Lemma query_forward e tn conds start limit p :
  wf e -> start_ok start p ->
  query e tn conds start limit p true =
  page limit (List.filter (selected conds p) (rows_after start (table_of e tn))).
Proof.
  intros Hwf Hst. pose proof (wf_table e tn Hwf) as Hs. unfold query, table_of in *.
  destruct (mget tn (data_ e)) as [its|]; [|by destruct start].
  destruct (forward_block p start its (selected conds p) Hs Hst (selected_in_prefix conds p)) as [(block & tail & E & Hb & Ht) Hf].
  rewrite <- Hf. change (match start with Some k => mupper k its | None => match p with Some q => mlower q its | None => its end end)
    with (forward_rows p start its). rewrite E. by apply query_loop_block.
Qed.

Lemma query_backward e tn conds start limit p :
  wf e -> start_ok start p ->
  query e tn conds start limit p false =
  page limit (List.filter (selected conds p) (rev (rows_before start (table_of e tn)))).
Proof.
  intros Hwf Hst. pose proof (wf_table e tn Hwf) as Hs. unfold query, table_of in *.
  destruct (mget tn (data_ e)) as [its|]; [|by destruct start].
  destruct (backward_block p start its (selected conds p) Hs Hst (selected_in_prefix conds p)) as [(block & tail & E & Hb & Ht) Hf].
  rewrite <- Hf.
  replace (match start, p with None, Some q => match prefix_successor q with Some u => mbefore u its | None => match start with Some k => mbefore k its | None => its end end
     | _, _ => match start with Some k => mbefore k its | None => its end end) with (backward_rows p start its)
    by (unfold backward_rows; by destruct start, p). rewrite E. by apply query_loop_block.
Qed.

(** ** Properties *)

(** C34: the in-memory engine implements the abstract store.  After any sequence
    of puts, removals, mutations and table drops from the empty engine, [get]
    returns for every table and key what the last operation that wrote there
    left, and nothing else changes. *)
Theorem memory_engine_refines_store ops tn k :
  get (fold_left run_op ops empty) tn k = fold_left spec_op ops empty_store tn k.
Proof.
  refine (represents_get (E:=t) _ (fold_left spec_op ops empty_store) tn k _ I). apply run_ops_represents; [split; [apply wf_empty|done]|].
  apply Forall_forall. intros op _. by destruct op; simpl; auto.
Qed.

(** A client that resumes [scan] from each [LastEvaluatedKey] terminates
    after at most one page per row and reads every row of the table exactly
    once, in key order, whatever the limit. *)
Theorem scan_reads_every_row_once ops tn limit :
  let e := fold_left run_op ops empty in
  drain (fun start => scan e tn start limit) (S (length (table_of e tn))) None = map snd (table_of e tn) /\
  msorted (table_of e tn).
Proof.
  intros e. assert (He : wf e).
  { destruct (run_ops_represents (E:=t) ops empty empty_store) as [H _]; [split; [apply wf_empty|done]| |exact H].
    apply Forall_forall. intros op _. by destruct op; simpl; auto. }
  split; [|by apply wf_table]. refine (scan_drain (E:=t) e tn limit _ He I _). simpl. lia.
Qed.

(** A page holds at most [limit] rows and at most one megabyte, except that
    its first row is always returned, however large. *)
Theorem scan_page_bounds e tn start limit :
  Forall (fun row => 0 < item_size_bytes row.2) (table_of e tn) -> 0 <= limit ->
  let r := scan e tn start limit in
  (limit <> 0 -> len (items r) <= limit) /\
  (len (items r) <= 1 \/ rows_size (items r) <= kMaxReadPageBytes).
Proof.
  intros Hp Hl r. unfold r. rewrite scan_page. unfold page.
  apply (fill_page_bounds limit _ [] []); [|unfold len; simpl; lia|left; unfold len; simpl; lia|done].
  unfold rows_after. destruct start as [k|]; [|done]. clear -Hp.
  induction (table_of e tn) as [|[k1 a1] rows IH]; simpl; [done|].
  apply Forall_cons in Hp as [? ?]. destruct (bytes_cmp k1 k); auto.
Qed.

(** A query returns a page of exactly the rows of the table that carry the
    key prefix, satisfy the conditions and lie beyond the start key: in
    ascending order going forward, in descending order going backward.  The
    early exit at the first key outside the prefix loses nothing. *)
Theorem query_exact e tn conds start limit p :
  wf e -> start_ok start p ->
  query e tn conds start limit p true =
    page limit (List.filter (selected conds p) (rows_after start (table_of e tn))) /\
  query e tn conds start limit p false =
    page limit (List.filter (selected conds p) (rev (rows_before start (table_of e tn)))).
Proof. intros. by rewrite query_forward, query_backward. Qed.

(** [put_item] then [get_item]: the item is found under every key with the
    same key values, and items under other keys are not disturbed. *)
Theorem put_item_get_item e def item key ks ks' :
  key_values def item = Some ks -> key_values def key = Some ks' ->
  Forall2 (fun a b => comparable a b = true) ks ks' ->
  (Forall2 same_key ks ks' -> get_item (put_item e def item).1 def key = Ok item) /\
  (~ Forall2 same_key ks ks' -> get_item (put_item e def item).1 def key = get_item e def key).
Proof.
  intros H1 H2 Hc. pose proof (encode_same_key def item key ks ks' H1 H2 Hc) as Hsame.
  unfold get_item, put_item, make_key. simpl. rewrite !get_table, table_of_put, bytes_eqb_refl, mget_mset.
  rewrite <- Hsame. clear Hsame. split; intros Hs.
  - by rewrite Hs, keqb_refl.
  - by destruct (keqb_spec (encode_primary_key def key) (encode_primary_key def item)) as [E|].
Qed.

Definition demo_engine : t := fold_left run_op
  [OpPut (lit "T") (encode_primary_key demo_schema (demo_item (lit "2"))) (demo_item (lit "2"));
   OpPut (lit "T") (encode_primary_key demo_schema (demo_item (lit "1"))) (demo_item (lit "1"));
   OpPut (lit "T") (encode_primary_key demo_schema (demo_item (lit "-3"))) (demo_item (lit "-3"))] empty.

Lemma scan_page_bounds_witness :
  len (items (scan demo_engine (lit "T") None 2)) <= 2.
Proof.
  apply (scan_page_bounds demo_engine (lit "T") None 2); [|lia|lia].
  by_eval.
Defined.

Lemma query_exact_witness :
  items (query demo_engine (lit "T") [] None 0 (Some (encode_key_component [] (AV_S (lit "a")))) false)
  = [demo_item (lit "2"); demo_item (lit "1"); demo_item (lit "-3")].
Proof.
  rewrite (proj2 (query_exact demo_engine (lit "T") [] None 0 (Some (encode_key_component [] (AV_S (lit "a"))))
    ltac:(split; by_eval)
    ltac:(intros k q [=]))).
  vm_compute. reflexivity.
Defined.

Lemma put_item_get_item_witness :
  get_item (put_item demo_engine demo_schema (demo_item (lit "1.0"))).1 demo_schema (demo_item (lit "1"))
  = Ok (demo_item (lit "1.0")).
Proof.
  apply (put_item_get_item demo_engine demo_schema (demo_item (lit "1.0")) (demo_item (lit "1"))
    [AV_S (lit "a"); AV_N (lit "1.0")] [AV_S (lit "a"); AV_N (lit "1")]);
    [reflexivity|reflexivity| |]; repeat constructor; vm_compute; reflexivity.
Defined.

End MemoryEngine.
