(* ===== verification/Transactions.v ===== *)
(** * Transactions

    [src/engine/transactions/manager.cpp]: the hybrid logical clock and the
    transaction identifiers ([Module HLC]), and the transaction manager
    ([Module Txn]): validation of the request, the two-phase locking of the 64
    stripes and the commit loop.

    The wall clock ([std::chrono::system_clock], microseconds) is an argument of
    the clock operations and [std::hash] a parameter of the manager.  The manager
    is proved against the engine interface of [Storage], for any engine that
    satisfies its laws.  Its threads are a step relation: taking one stripe,
    one engine call and releasing one stripe are single steps, since each of them
    is atomic in the code and other threads run in between. *)

From Stdlib Require Import ZArith Lia Sorting.Permutation Strings.String.
From stdpp Require Import prelude gmap sorting.
From S2P Require Import Prelude StdMap Ranges Types Storage MemoryEngine.

(** ** The hybrid logical clock *)

Module HLC.

(** [HybridLogicalClock]: its only state is [current_time_], the physical time
    in the upper 48 bits and the logical counter in the lower 16.  [get_time]
    stores the time it returns. *)
Definition get_time (now current : Z) : Z :=
  let physical_time := Z.shiftr current 16 in
  let logical_time := Z.land current 65535 in
  let (physical_time, logical_time) :=
    if physical_time <? u64 now then (u64 now, 0) else (physical_time, u64 (logical_time + 1)) in
  Z.lor (u64 (Z.shiftl physical_time 16)) (Z.land logical_time 65535).

Definition update (now remote_time current : Z) : Z :=
  let current_physical := Z.shiftr current 16 in
  let current_logical := Z.land current 65535 in
  let remote_physical := Z.shiftr remote_time 16 in
  let remote_logical := Z.land remote_time 65535 in
  let new_physical := Z.max (Z.max (u64 now) current_physical) remote_physical in
  let new_logical :=
    if (new_physical =? current_physical) && (new_physical =? remote_physical)
    then Z.max current_logical remote_logical + 1
    else if new_physical =? current_physical then current_logical + 1
    else if new_physical =? remote_physical then remote_logical + 1
    else 0 in
  Z.lor (u64 (Z.shiftl new_physical 16)) (Z.land new_logical 65535).

(** [TIDGenerator]: the clock's time and the 16-bit [sequence_]. *)
Record TIDGenerator := { current_time_ : Z; sequence_ : Z }.

Definition next (now : Z) (g : TIDGenerator) : TIDGenerator * Z :=
  let time := get_time now (current_time_ g) in
  let seq := sequence_ g in
  ({| current_time_ := time; sequence_ := u16 (seq + 1) |},
   Z.lor (Z.land time 18446744073709486080) seq).

(** A run of [next] with the given readings of the wall clock. *)
Fixpoint nexts (nows : list Z) (g : TIDGenerator) : list Z :=
  match nows with
  | [] => []
  | now :: nows' => let (g', tid) := next now g in tid :: nexts nows' g'
  end.

(** *** The two fields as arithmetic *)

Lemma land_ffff x : Z.land x 65535 = x mod 65536.
Proof. change 65535 with (Z.ones 16). by rewrite Z.land_ones. Qed.

Lemma shiftr_16 x : Z.shiftr x 16 = x / 65536.
Proof. by rewrite Z.shiftr_div_pow2. Qed.

Lemma lor_fields p l : Z.lor (u64 (Z.shiftl p 16)) (Z.land l 65535) = (p mod 2 ^ 48) * 65536 + l mod 65536.
Proof.
  rewrite land_ffff, Z.shiftl_mul_pow2 by lia. unfold u64. change (2 ^ 64) with (2 ^ 48 * 2 ^ 16). rewrite Z.mul_mod_distr_r by lia.
  change (2 ^ 16) with 65536. pose proof (Z.mod_pos_bound l 65536 ltac:(lia)) as Hl. pose proof (Z.mod_pos_bound p (2 ^ 48) ltac:(lia)) as Hp.
  assert (Hd : Z.land (p mod 2 ^ 48 * 65536) (l mod 65536) = 0).
  { rewrite <- (land_ffff l), (Z.land_comm l), Z.land_assoc, land_ffff, Z.mod_mul by lia. done. }
  pose proof (Z.add_lor_land (p mod 2 ^ 48 * 65536) (l mod 65536)). lia.
Qed.

Ltac zlia := Z.div_mod_to_equations; lia.

(** What [get_time] computes. *)
Lemma get_time_eq now current :
  0 <= current < 2 ^ 64 -> 0 <= now < 2 ^ 63 ->
  get_time now current =
    if current / 65536 <? now then (now mod 2 ^ 48) * 65536
    else current / 65536 * 65536 + (current + 1) mod 65536.
Proof.
  intros Hc Hn. unfold get_time. rewrite shiftr_16, land_ffff. replace (u64 now) with now by (unfold u64; rewrite Z.mod_small; lia).
  destruct (Z.ltb_spec (current / 65536) now); rewrite lor_fields; [change (0 mod 65536) with 0; lia|].
  replace (u64 (current mod 65536 + 1)) with (current mod 65536 + 1) by (unfold u64; rewrite (Z.mod_small (current mod 65536 + 1)); zlia).
  rewrite (Z.mod_small (current / 65536)) by zlia. by rewrite Zplus_mod_idemp_l.
Qed.

Lemma get_time_bound now current :
  0 <= current < 2 ^ 64 -> 0 <= now < 2 ^ 63 -> 0 <= get_time now current < 2 ^ 64.
Proof. intros. rewrite get_time_eq by done. destruct (_ <? _); zlia. Qed.

(** What [update] computes: the largest of the three physical times, and one
    past the logical counters that go with it. *)
Lemma update_eq now remote current :
  0 <= current < 2 ^ 64 -> 0 <= remote < 2 ^ 64 -> 0 <= now < 2 ^ 48 ->
  let p := Z.max now (Z.max (current / 65536) (remote / 65536)) in
  let later t := if p =? t / 65536 then t mod 65536 + 1 else 0 in
  update now remote current = p * 65536 + Z.max (later current) (later remote) mod 65536.
Proof.
  intros Hc Hr Hn p later. unfold update. rewrite !shiftr_16, lor_fields, !land_ffff.
  replace (u64 now) with now by (unfold u64; rewrite Z.mod_small; lia).
  replace (Z.max (Z.max now (current / 65536)) (remote / 65536)) with p by lia.
  rewrite (Z.mod_small p) by (subst p; zlia). f_equal. f_equal. subst later. cbv beta.
  pose proof (Z.mod_pos_bound current 65536 ltac:(lia)). pose proof (Z.mod_pos_bound remote 65536 ltac:(lia)).
  destruct (p =? current / 65536), (p =? remote / 65536); cbn [andb]; lia.
Qed.

(** The clock moves forward as long as the microseconds since the epoch fit
    in its 48 bits, except when the 16-bit logical counter is exhausted: a
    reading exceeds the previous one exactly if the wall clock is ahead or the
    counter is below 65535, and an update exceeds both the local and the remote
    time unless a counter it continues is 65535. *)
Theorem clock_moves_forward now remote current :
  0 <= current < 2 ^ 64 -> 0 <= remote < 2 ^ 64 -> 0 <= now < 2 ^ 48 ->
  (current < get_time now current <-> current / 65536 < now \/ current mod 65536 < 65535) /\
  (current mod 65536 < 65535 -> remote mod 65536 < 65535 ->
     current < update now remote current /\ remote < update now remote current).
Proof.
  intros Hc Hr Hn. split.
  - rewrite get_time_eq by lia. destruct (Z.ltb_spec (current / 65536) now); [rewrite Z.mod_small by lia|]; zlia.
  - intros Hlc Hlr. rewrite update_eq by lia. cbv zeta.
    set (p := Z.max now (Z.max (current / 65536) (remote / 65536))).
    set (l := Z.max _ _). assert (Hl : 0 <= l < 65536).
    { subst l. pose proof (Z.mod_pos_bound current 65536 ltac:(lia)). pose proof (Z.mod_pos_bound remote 65536 ltac:(lia)).
      destruct (p =? current / 65536), (p =? remote / 65536); lia. }
    rewrite (Z.mod_small l) by done. subst l p.
    destruct (Z.eqb_spec (Z.max now (Z.max (current / 65536) (remote / 65536))) (current / 65536)),
      (Z.eqb_spec (Z.max now (Z.max (current / 65536) (remote / 65536))) (remote / 65536)); zlia.
Qed.

Lemma clock_moves_forward_witness :
  5 * 65536 + 7 < get_time 5 (5 * 65536 + 7) /\ 9 * 65536 + 1 < update 5 (9 * 65536 + 1) (5 * 65536 + 7).
Proof.
  split; [apply (proj1 (clock_moves_forward 5 0 (5 * 65536 + 7) ltac:(lia) ltac:(lia) ltac:(lia))); right; reflexivity|].
  apply (clock_moves_forward 5 (9 * 65536 + 1) (5 * 65536 + 7)); lia || reflexivity.
Defined.

(** For wall clocks from 2^48 microseconds after the epoch on (December
    1978) the shift drops the upper bits of the physical time, the stored time
    is always behind the wall clock and the logical counter stays zero: a reading
    does not depend on the earlier ones, so that two readings in one microsecond
    are equal, and the clock restarts from zero every 2^48 microseconds. *)
Theorem clock_stalls now current :
  0 <= current < 2 ^ 64 -> 2 ^ 48 <= now < 2 ^ 63 ->
  get_time now current = (now mod 2 ^ 48) * 65536 /\
  get_time now (get_time now current) = get_time now current.
Proof.
  intros Hc Hn. pose proof (get_time_bound now current Hc ltac:(lia)) as Hb.
  assert (Hp : forall t, 0 <= t < 2 ^ 64 -> get_time now t = now mod 2 ^ 48 * 65536).
  { intros t Ht. rewrite get_time_eq by lia. destruct (Z.ltb_spec (t / 65536) now); [done|zlia]. }
  split; [by apply Hp|]. by rewrite (Hp _ Hb), (Hp _ Hc).
Qed.

(** 1 January 2024, 00:00 UTC. *)
Lemma clock_stalls_witness :
  get_time 1704067200000000 (get_time 1704067200000000 0) = get_time 1704067200000000 0.
Proof. apply (clock_stalls 1704067200000000 0); lia. Defined.

(** *** Transaction identifiers *)

Lemma next_tid now g :
  0 <= sequence_ g < 65536 -> (next now g).2 mod 65536 = sequence_ g /\ sequence_ (next now g).1 = (sequence_ g + 1) mod 65536.
Proof.
  intros Hs. split; [|done]. unfold next. cbn [snd]. rewrite <- land_ffff, Z.land_lor_distr_l, <- Z.land_assoc.
  change (Z.land 18446744073709486080 65535) with 0. rewrite Z.land_0_r, Z.lor_0_l, land_ffff. by apply Z.mod_small.
Qed.

Lemma nexts_mod nows g i tid :
  0 <= sequence_ g < 65536 -> nexts nows g !! i = Some tid -> tid mod 65536 = (sequence_ g + Z.of_nat i) mod 65536.
Proof.
  revert g i. induction nows as [|now nows IH]; intros g i Hs H; [done|].
  cbn [nexts] in H. destruct (next_tid now g Hs) as [Ht Hn]. destruct (next now g) as [g' t]. cbn [fst snd] in *. destruct i as [|i]; cbn in H.
  - simplify_eq. rewrite Ht, Z.mod_small; lia.
  - apply IH in H; [|rewrite Hn; apply Z.mod_pos_bound; lia]. rewrite H, Hn, Zplus_mod_idemp_l. f_equal. lia.
Qed.

(** The identifiers of any 65536 consecutive transactions are distinct,
    whatever the clock does. *)
Theorem tids_distinct nows g :
  0 <= sequence_ g < 65536 -> len nows <= 65536 -> NoDup (nexts nows g).
Proof.
  intros Hs Hl. apply NoDup_alt. intros i j t Hi Hj.
  assert (Hlen : forall l g, length (nexts l g) = length l)
    by (induction l as [|n l IH]; intros g'; [done|]; cbn [nexts]; destruct (next n g'); cbn; by rewrite IH).
  pose proof (nexts_mod _ _ _ _ Hs Hi) as Mi. pose proof (nexts_mod _ _ _ _ Hs Hj) as Mj.
  apply lookup_lt_Some in Hi, Hj. rewrite Hlen in Hi, Hj. unfold len in Hl. rewrite Mi in Mj. zlia.
Qed.

Lemma tids_distinct_witness : NoDup (nexts [1704067200000000; 1704067200000000; 3] {| current_time_ := 0; sequence_ := 65534 |}).
Proof. apply tids_distinct; [cbn [sequence_]; lia|by_eval]. Defined.

End HLC.

(** ** The transaction manager *)

Module Txn.

Inductive TransactionError :=
| ValidationFailed
| ConditionalCheckFailed
| TransactionConflict
| ProvisionedThroughputExceeded
| ResourceNotFound
| InternalError.

Record TransactWriteItem := {
  table_name : bytes;
  key : bytes;
  put_attributes : option AttributeMap;
  is_delete : bool
}.

Record TransactGetItem := { get_table_name : bytes; get_key : bytes }.

Record TransactionContext := { tid : Z; start_ts : Z }.

Definition kNumStripes : Z := 64.

Section Manager.
(** [std::hash<std::string>] *)
Context (hash : bytes -> Z).
Context {E : Type} {SE : StorageEngine E}.

Definition full_key (item : TransactWriteItem) : bytes := table_name item ++ lit ":" ++ key item.

Definition get_stripe_index (table key : bytes) : Z := hash (table ++ lit ":" ++ key) mod kNumStripes.

(** The loop over the items: false at the first full key already in [keys_seen]. *)
Fixpoint distinct_keys (keys_seen : list bytes) (items : list TransactWriteItem) : bool :=
  match items with
  | [] => true
  | item :: items' =>
      if existsb (bytes_eqb (full_key item)) keys_seen then false
      else distinct_keys (keys_seen ++ [full_key item]) items'
  end.

Definition accepted (items : list TransactWriteItem) : bool :=
  negb (bool_decide (items = []) || (25 <? len items)) && distinct_keys [] items.

(** [std::unique] followed by [erase] *)
Fixpoint unique (l : list Z) : list Z :=
  match l with
  | [] => []
  | x :: l' => match l' with
               | [] => [x]
               | y :: _ => if x =? y then unique l' else x :: unique l'
               end
  end.

Definition lock_indices (items : list TransactWriteItem) : list Z :=
  unique (merge_sort Z.le (map (fun item => get_stripe_index (table_name item) (key item)) items)).

(** The body of the commit loop. *)
Definition commit_item (e : E) (item : TransactWriteItem) : E :=
  if is_delete item then se_remove e (table_name item) (key item)
  else match put_attributes item with
       | Some a => se_put e (table_name item) (key item) a
       | None => e
       end.

Record TransactionManager := { storage_engine_ : E; tid_gen_ : HLC.TIDGenerator }.

(** A call with the stripes free, which are free again when it returns; [now1]
    and [now2] are the two readings of the wall clock. *)
Definition execute_transact_write_items (now1 now2 : Z) (m : TransactionManager) (items : list TransactWriteItem)
  : TransactionManager * expected unit (list TransactionError) :=
  if bool_decide (items = []) || (25 <? len items) then (m, Err [ValidationFailed])
  else if negb (distinct_keys [] items) then (m, Err [ValidationFailed])
  else
    let (g, t) := HLC.next now1 (tid_gen_ m) in
    let ctx := {| tid := t; start_ts := HLC.get_time now2 (HLC.current_time_ g) |} in
    ({| storage_engine_ := fold_left commit_item items (storage_engine_ m);
        tid_gen_ := {| HLC.current_time_ := start_ts ctx; HLC.sequence_ := HLC.sequence_ g |} |}, Ok tt).

Definition execute_transact_get_items (m : TransactionManager) (items : list TransactGetItem)
  : expected (list (option AttributeMap)) TransactionError :=
  if 100 <? len items then Err ValidationFailed
  else Ok (map (fun item => se_get (storage_engine_ m) (get_table_name item) (get_key item)) items).

(** *** Threads

    A thread that runs [execute_transact_write_items] past its validation takes
    its stripes one after the other, makes its engine calls and releases the
    stripes; one that runs [execute_transact_get_items] makes its engine calls. *)
Inductive Phase :=
| Locking (want : list Z)
| Committing (todo : list TransactWriteItem)
| Releasing (held : list Z).

Inductive Thread :=
| Writer (items : list TransactWriteItem) (phase : Phase)
| Reader (todo : list TransactGetItem) (results : list (option AttributeMap)).

(** [stripes] maps a locked stripe to the thread that holds it; [committed]
    records the transactions in the order in which their commit loop ended. *)
Record Config := {
  threads : list Thread;
  stripes : gmap Z nat;
  storage : E;
  committed : list (list TransactWriteItem)
}.

Definition set_thread (c : Config) (i : nat) (th : Thread) : list Thread := <[i := th]> (threads c).

Inductive step (c : Config) : Config -> Prop :=
| step_lock i items s want :
    threads c !! i = Some (Writer items (Locking (s :: want))) -> stripes c !! s = None ->
    step c {| threads := set_thread c i (Writer items (Locking want)); stripes := <[s := i]> (stripes c);
              storage := storage c; committed := committed c |}
| step_begin i items :
    threads c !! i = Some (Writer items (Locking [])) ->
    step c {| threads := set_thread c i (Writer items (Committing items)); stripes := stripes c;
              storage := storage c; committed := committed c |}
| step_write i items item todo :
    threads c !! i = Some (Writer items (Committing (item :: todo))) ->
    step c {| threads := set_thread c i (Writer items (Committing todo)); stripes := stripes c;
              storage := commit_item (storage c) item; committed := committed c |}
| step_end i items :
    threads c !! i = Some (Writer items (Committing [])) ->
    step c {| threads := set_thread c i (Writer items (Releasing (lock_indices items))); stripes := stripes c;
              storage := storage c; committed := committed c ++ [items] |}
| step_unlock i items s held :
    threads c !! i = Some (Writer items (Releasing (s :: held))) ->
    step c {| threads := set_thread c i (Writer items (Releasing held)); stripes := delete s (stripes c);
              storage := storage c; committed := committed c |}
| step_read i item todo results :
    threads c !! i = Some (Reader (item :: todo) results) ->
    step c {| threads := set_thread c i (Reader todo (results ++ [se_get (storage c) (get_table_name item) (get_key item)]));
              stripes := stripes c; storage := storage c; committed := committed c |}.

Definition start (writers : list (list TransactWriteItem)) (readers : list (list TransactGetItem)) (e : E) : Config :=
  {| threads := map (fun items => Writer items (Locking (lock_indices items))) writers ++ map (fun items => Reader items []) readers;
     stripes := ∅; storage := e; committed := [] |}.

Definition thread_done (th : Thread) : Prop :=
  match th with Writer _ (Releasing []) | Reader [] _ => True | _ => False end.

Definition finished (c : Config) : Prop := Forall thread_done (threads c).

End Manager.

(** *** Stripes in order *)

Lemma unique_elem x l : x ∈ unique l <-> x ∈ l.
Proof.
  induction l as [|a [|b l] IH]; [done|done|]. cbn [unique] in *. destruct (Z.eqb_spec a b) as [->|].
  - rewrite IH, !elem_of_cons. tauto.
  - rewrite elem_of_cons, IH, (elem_of_cons (b :: l) x a). done.
Qed.

Lemma unique_sorted l : StronglySorted Z.le l -> StronglySorted Z.lt (unique l).
Proof.
  induction 1 as [|a l Hs IH Ha]; [constructor|]. destruct l as [|b l]; [by repeat constructor|].
  change (unique (a :: b :: l)) with (if a =? b then unique (b :: l) else a :: unique (b :: l)). destruct (Z.eqb_spec a b); [done|].
  constructor; [done|]. apply Forall_forall. intros x Hx. rewrite unique_elem in Hx. rewrite Forall_forall in Ha. apply StronglySorted_inv in Hs as [_ Hb].
  pose proof (Ha b ltac:(by left)). apply elem_of_cons in Hx as [->|Hx]; [lia|]. rewrite Forall_forall in Hb. specialize (Hb x Hx). lia.
Qed.

Section Proofs.
Context (hash : bytes -> Z).
Context {E : Type} {SE : StorageEngine E} {SL : StorageLaws E}.

Lemma lock_indices_sorted items : StronglySorted Z.lt (lock_indices hash items).
Proof. apply unique_sorted, StronglySorted_merge_sort; apply _. Qed.

Lemma lock_indices_elem items s :
  s ∈ lock_indices hash items <-> exists it, it ∈ items /\ get_stripe_index hash (table_name it) (key it) = s.
Proof.
  unfold lock_indices. rewrite unique_elem, merge_sort_Permutation, list_elem_of_fmap.
  split; intros (it & H1 & H2); eauto.
Qed.

Lemma lock_indices_range items s : s ∈ lock_indices hash items -> 0 <= s < kNumStripes.
Proof. intros (it & _ & <-)%lock_indices_elem. unfold get_stripe_index. apply Z.mod_pos_bound. done. Qed.

(** *** The abstract effect of a transaction *)

Definition spec_item (st : Store) (item : TransactWriteItem) : Store :=
  if is_delete item then store_set st (table_name item) (key item) None
  else match put_attributes item with
       | Some a => store_set st (table_name item) (key item) (Some a)
       | None => st
       end.

Definition spec_txn (st : Store) (items : list TransactWriteItem) : Store := fold_left spec_item items st.

Definition item_ok (item : TransactWriteItem) : Prop :=
  se_names (table_name item) (key item) /\
  forall a, put_attributes item = Some a -> se_admits (table_name item) (key item) a.

Lemma commit_item_represents e st item : represents e st -> item_ok item -> represents (commit_item e item) (spec_item st item).
Proof.
  intros Hr [Hn Ha]. unfold commit_item, spec_item. destruct (is_delete item); [by apply (run_op_represents e st (OpRemove _ _))|].
  destruct (put_attributes item) as [a|]; [|done]. by apply (run_op_represents e st (OpPut _ _ a)), Ha.
Qed.

Lemma commit_represents items e st :
  represents e st -> Forall item_ok items -> represents (fold_left commit_item items e) (spec_txn st items).
Proof.
  intros Hr Hi. revert e st Hr. induction Hi as [|it items Hit Hi IH]; intros e st Hr; [done|]. apply IH. by apply commit_item_represents.
Qed.

(** The items act on each key by themselves. *)
Lemma spec_item_local st st' it t k : st t k = st' t k -> spec_item st it t k = spec_item st' it t k.
Proof.
  intros H. unfold spec_item, store_set. destruct (is_delete it), (put_attributes it); auto; by destruct (_ && _).
Qed.

Lemma spec_txn_local items st st' t k : st t k = st' t k -> spec_txn st items t k = spec_txn st' items t k.
Proof. revert st st'. induction items as [|it items IH]; intros st st' H; [done|]. cbn. by apply IH, spec_item_local. Qed.

Lemma spec_item_other st it t k : (table_name it, key it) <> (t, k) -> spec_item st it t k = st t k.
Proof.
  intros H. unfold spec_item, store_set. assert (E0 : bytes_eqb (table_name it) t && bytes_eqb (key it) k = false).
  { apply andb_false_iff. rewrite !bytes_eqb_neq. destruct (decide (table_name it = t)); [right; congruence|by left]. }
  destruct (is_delete it), (put_attributes it); by rewrite ?E0.
Qed.

Lemma spec_txn_other items st t k : (t, k) ∉ map (fun it => (table_name it, key it)) items -> spec_txn st items t k = st t k.
Proof.
  revert st. induction items as [|it items IH]; intros st H; [done|]. cbn [map] in H. apply not_elem_of_cons in H as [H1 H2].
  change (spec_txn (spec_item st it) items t k = st t k). rewrite IH by done. by apply spec_item_other.
Qed.

(** *** The invariant of the threads *)

(** The stripes a writer holds, and the part of its items it has written. *)
Definition holds (items : list TransactWriteItem) (ph : Phase) : list Z :=
  match ph with
  | Locking want => take (length (lock_indices hash items) - length want) (lock_indices hash items)
  | Committing _ => lock_indices hash items
  | Releasing held => held
  end.

Definition written (items : list TransactWriteItem) (ph : Phase) : list TransactWriteItem :=
  match ph with Committing todo => take (length items - length todo) items | _ => [] end.

Definition phase_ok (items : list TransactWriteItem) (ph : Phase) : Prop :=
  match ph with
  | Locking want => want `suffix_of` lock_indices hash items
  | Committing todo => todo `suffix_of` items
  | Releasing held => held `suffix_of` lock_indices hash items
  end.

(** What the owner of the stripe of a key has written but not yet committed. *)
Definition pending (c : Config (E:=E)) (t k : bytes) : list TransactWriteItem :=
  match stripes c !! get_stripe_index hash t k with
  | Some i => match threads c !! i with Some (Writer items ph) => written items ph | _ => [] end
  | None => []
  end.

Definition serial (st : Store) (txns : list (list TransactWriteItem)) : Store := fold_left spec_txn txns st.

Definition ended (th : Thread) : option (list TransactWriteItem) :=
  match th with Writer items (Releasing _) => Some items | _ => None end.

Record inv (st0 : Store) (c : Config (E:=E)) : Prop := {
  inv_phase : forall i items ph, threads c !! i = Some (Writer items ph) -> phase_ok items ph /\ Forall item_ok items;
  inv_owner : forall s i, stripes c !! s = Some i <-> exists items ph, threads c !! i = Some (Writer items ph) /\ s ∈ holds items ph;
  inv_store : exists st, represents (storage c) st /\
    forall t k, st t k = spec_txn (serial st0 (committed c)) (pending c t k) t k;
  inv_log : committed c ≡ₚ omap ended (threads c)
}.

Lemma take_suffix {A} (l w : list A) x : x :: w `suffix_of` l ->
  take (length l - length w) l = take (length l - length (x :: w)) l ++ [x].
Proof.
  intros [h ->]. rewrite length_app. cbn [length]. replace (length h + S (length w) - length w)%nat with (length h + 1)%nat by lia.
  replace (length h + S (length w) - S (length w))%nat with (length h) by lia.
  rewrite take_app_add, take_app_length. done.
Qed.

Lemma suffix_tail {A} (x : A) w l : x :: w `suffix_of` l -> w `suffix_of` l.
Proof. intros [h ->]. exists (h ++ [x]). by rewrite <- app_assoc. Qed.

(** Threads after one of them moved. *)
Lemma moved_lookup c i th j x : threads c !! i = Some th ->
  forall th', set_thread (E:=E) c i th' !! j = Some x -> (j = i /\ x = th') \/ (j <> i /\ threads c !! j = Some x).
Proof.
  intros Hi th' H. unfold set_thread in H. destruct (decide (j = i)) as [->|].
  - rewrite list_lookup_insert_eq in H by (by eapply lookup_lt_Some). simplify_eq. by left.
  - rewrite list_lookup_insert_ne in H by congruence. by right.
Qed.

Lemma moved_same c i th th' : threads c !! i = Some th -> set_thread (E:=E) c i th' !! i = Some th'.
Proof. intros Hi. unfold set_thread. apply list_lookup_insert_eq. by eapply lookup_lt_Some. Qed.

Lemma moved_other c i th' j : j <> i -> set_thread (E:=E) c i th' !! j = threads c !! j.
Proof. intros Hi. unfold set_thread. apply list_lookup_insert_ne. congruence. Qed.

(** The log changes only when a writer ends its commit loop. *)
Lemma ended_insert (l : list Thread) i th th' : l !! i = Some th -> ended th = ended th' -> omap ended (<[i := th']> l) = omap ended l.
Proof.
  revert i. induction l as [|a l IH]; intros [|i] H E0; simplify_eq/=; [by rewrite E0|]. by rewrite IH.
Qed.

Lemma ended_insert_new (l : list Thread) i th th' items :
  l !! i = Some th -> ended th = None -> ended th' = Some items -> omap ended (<[i := th']> l) ≡ₚ items :: omap ended l.
Proof.
  revert i. induction l as [|a l IH]; intros [|i] H E0 E1; simplify_eq/=; [by rewrite E0, E1|].
  destruct (ended a); [|by eapply IH]. rewrite (IH i) by done. apply Permutation_swap.
Qed.

Lemma owner_holds st0 c i items ph s :
  inv st0 c -> threads c !! i = Some (Writer items ph) -> stripes c !! s = Some i <-> s ∈ holds items ph.
Proof.
  intros Hinv Hi. rewrite (inv_owner _ _ Hinv), Hi. split; [intros (? & ? & [= <- <-] & Hs); done|]. eauto.
Qed.

(** A move of the writer [i] that leaves the stripes of the others alone. *)
Section Move.
Context (st0 : Store) (c : Config (E:=E)) (i : nat) (items : list TransactWriteItem) (ph ph' : Phase) (stripes' : gmap Z nat).
Hypothesis Hinv : inv st0 c.
Hypothesis Hi : threads c !! i = Some (Writer items ph).
Hypothesis Hph : phase_ok items ph'.
Hypothesis Hown : forall s, stripes' !! s = Some i <-> s ∈ holds items ph'.
Hypothesis Hoth : forall s j, j <> i -> stripes' !! s = Some j <-> stripes c !! s = Some j.

Definition moved (e : E) (log : list (list TransactWriteItem)) : Config :=
  {| threads := set_thread c i (Writer items ph'); stripes := stripes'; storage := e; committed := log |}.

Lemma pending_owned t k : stripes c !! get_stripe_index hash t k = Some i -> pending c t k = written items ph.
Proof using Hi. intros H. unfold pending. by rewrite H, Hi. Qed.

Lemma pending_moved e log t k :
  pending (moved e log) t k =
    if decide (stripes' !! get_stripe_index hash t k = Some i) then written items ph'
    else if decide (stripes c !! get_stripe_index hash t k = Some i) then [] else pending c t k.
Proof.
  unfold pending. cbn [stripes threads moved]. set (s := get_stripe_index hash t k).
  destruct (stripes' !! s) as [j|] eqn:Es.
  - destruct (decide (j = i)) as [->|Hj]; [rewrite decide_True by done; by rewrite (moved_same _ _ _ _ Hi)|].
    rewrite decide_False by congruence. pose proof (proj1 (Hoth s j Hj) Es) as Ec. rewrite Ec, decide_False by congruence.
    by rewrite moved_other.
  - rewrite decide_False by done. destruct (stripes c !! s) as [j|] eqn:Ec; [|by rewrite decide_False].
    destruct (decide (j = i)) as [->|Hj]; [by rewrite decide_True|]. pose proof (proj2 (Hoth s j Hj) Ec). congruence.
Qed.

Lemma moved_inv e log :
  (exists st, represents e st /\ forall t k, st t k = spec_txn (serial st0 log) (pending (moved e log) t k) t k) ->
  log ≡ₚ omap ended (set_thread c i (Writer items ph')) ->
  inv st0 (moved e log).
Proof.
  intros Hst Hlog. split; [| |done|done]; cbn [threads stripes moved].
  - intros j its p H. destruct (moved_lookup _ _ _ _ _ Hi _ H) as [[-> ?]|[_ H']]; [|by apply (inv_phase _ _ Hinv) in H'].
    simplify_eq. split; [done|]. by apply (inv_phase _ _ Hinv) in Hi as [_ ?].
  - intros s j. destruct (decide (j = i)) as [->|Hj].
    + rewrite Hown, (moved_same _ _ _ _ Hi). split; [eauto|]. intros (? & ? & H & ?). by simplify_eq.
    + by rewrite (Hoth s j Hj), (inv_owner _ _ Hinv), moved_other.
Qed.

(** Moves that write nothing. *)
Lemma quiet_inv :
  written items ph = [] -> written items ph' = [] -> ended (Writer items ph) = ended (Writer items ph') ->
  inv st0 (moved (storage c) (committed c)).
Proof.
  intros Hw Hw' He. apply moved_inv.
  - destruct (inv_store _ _ Hinv) as (st & Hr & Hst). exists st. split; [done|]. intros t k. rewrite Hst, pending_moved, Hw'.
    destruct (decide (stripes c !! get_stripe_index hash t k = Some i)) as [Ho|]; [rewrite (pending_owned _ _ Ho), Hw; by destruct (decide _)|].
    destruct (decide _) as [Ho|]; [|done].
    f_equal. unfold pending. destruct (stripes c !! get_stripe_index hash t k) as [j|] eqn:Ec; [|done].
    assert (Hj : j <> i) by congruence. pose proof (proj2 (Hoth _ _ Hj) Ec). congruence.
  - unfold set_thread. rewrite (ended_insert _ _ _ _ Hi He). apply Hinv.
Qed.
End Move.

Lemma same_stripes i items ph ph' c st0 : inv st0 c -> threads c !! i = Some (Writer items ph) -> holds items ph = holds items ph' ->
  forall s, stripes c !! s = Some i <-> s ∈ holds items ph'.
Proof. intros Hinv Hi <- s. by eapply owner_holds. Qed.

Lemma lock_inv st0 c i items s want :
  inv st0 c -> threads c !! i = Some (Writer items (Locking (s :: want))) -> stripes c !! s = None ->
  inv st0 (moved c i items (Locking want) (<[s := i]> (stripes c)) (storage c) (committed c)).
Proof.
  intros Hinv Hi Hs. destruct (inv_phase _ _ Hinv _ _ _ Hi) as [Hsuf Hok]. pose proof (fun s => owner_holds _ _ _ _ _ s Hinv Hi) as Ho.
  eapply quiet_inv; [done|exact Hi|by eapply suffix_tail| | |done|done|done].
  - intros s'. cbn [holds]. rewrite (take_suffix _ _ _ Hsuf), elem_of_app, list_elem_of_singleton.
    destruct (decide (s' = s)) as [->|Hne]; [rewrite lookup_insert_eq; tauto|].
    rewrite lookup_insert_ne by congruence. rewrite Ho. cbn [holds]. tauto.
  - intros s' j Hj. destruct (decide (s' = s)) as [->|]; [rewrite lookup_insert_eq; naive_solver|by rewrite lookup_insert_ne].
Qed.

Lemma unlock_inv st0 c i items s held :
  inv st0 c -> threads c !! i = Some (Writer items (Releasing (s :: held))) ->
  inv st0 (moved c i items (Releasing held) (delete s (stripes c)) (storage c) (committed c)).
Proof.
  intros Hinv Hi. destruct (inv_phase _ _ Hinv _ _ _ Hi) as [[h Hsuf] Hok]. pose proof (fun s => owner_holds _ _ _ _ _ s Hinv Hi) as Ho.
  assert (Hnew : s ∉ held).
  { pose proof (lock_indices_sorted items) as Hs. rewrite Hsuf in Hs. apply StronglySorted_app_1_r, StronglySorted_inv in Hs as [_ Hs].
    rewrite Forall_forall in Hs. intros Hin%Hs. lia. }
  eapply quiet_inv; [done|exact Hi|cbn; eapply suffix_tail; by exists h| | |done|done|done].
  - intros s'. cbn [holds]. destruct (decide (s' = s)) as [->|Hne]; [by rewrite lookup_delete_eq|].
    rewrite lookup_delete_ne by congruence. rewrite Ho. cbn [holds]. rewrite elem_of_cons. tauto.
  - intros s' j Hj. destruct (decide (s' = s)) as [->|]; [|by rewrite lookup_delete_ne].
    rewrite lookup_delete_eq. assert (stripes c !! s = Some i) by (apply Ho; by left). naive_solver.
Qed.

Lemma begin_inv st0 c i items :
  inv st0 c -> threads c !! i = Some (Writer items (Locking [])) ->
  inv st0 (moved c i items (Committing items) (stripes c) (storage c) (committed c)).
Proof.
  intros Hinv Hi. eapply quiet_inv; [done|exact Hi|by exists []| |done|done|cbn; by rewrite Nat.sub_diag|done].
  eapply same_stripes; [done|done|]. cbn [holds length]. rewrite Nat.sub_0_r. apply firstn_all.
Qed.

(** The keys a committing writer touches are in stripes it holds. *)
Lemma committing_owner st0 c i items todo it :
  inv st0 c -> threads c !! i = Some (Writer items (Committing todo)) -> it ∈ items ->
  stripes c !! get_stripe_index hash (table_name it) (key it) = Some i.
Proof. intros Hinv Hi Hit. eapply owner_holds; [done|exact Hi|]. apply lock_indices_elem. eauto. Qed.

Lemma write_inv st0 c i items item todo :
  inv st0 c -> threads c !! i = Some (Writer items (Committing (item :: todo))) ->
  inv st0 (moved c i items (Committing todo) (stripes c) (commit_item (storage c) item) (committed c)).
Proof.
  intros Hinv Hi. destruct (inv_phase _ _ Hinv _ _ _ Hi) as [Hsuf Hok]. cbn [phase_ok] in Hsuf.
  assert (Hin : item ∈ items) by (destruct Hsuf as [h ->]; apply elem_of_app; right; by left).
  pose proof (committing_owner _ _ _ _ _ _ Hinv Hi Hin) as Hs.
  eapply moved_inv; [done|exact Hi|by eapply suffix_tail|by eapply same_stripes|done| |].
  2:{ unfold set_thread. by rewrite (ended_insert _ _ _ _ Hi), (inv_log _ _ Hinv). }
  destruct (inv_store _ _ Hinv) as (st & Hr & Hst). exists (spec_item st item). split.
  { apply commit_item_represents; [done|]. rewrite Forall_forall in Hok. auto. }
  intros t k. erewrite pending_moved; [|done..]. destruct (decide (stripes c !! get_stripe_index hash t k = Some i)) as [Ho|Ho].
  - cbn [written]. rewrite (take_suffix _ _ _ Hsuf). unfold spec_txn. rewrite fold_left_app. cbn [fold_left].
    apply spec_item_local. rewrite Hst. by erewrite pending_owned by done.
  - rewrite spec_item_other, Hst; [done|]. intros [= <- <-]. congruence.
Qed.

Lemma end_inv st0 c i items :
  inv st0 c -> threads c !! i = Some (Writer items (Committing [])) ->
  inv st0 (moved c i items (Releasing (lock_indices hash items)) (stripes c) (storage c) (committed c ++ [items])).
Proof.
  intros Hinv Hi. eapply moved_inv; [done|exact Hi|by exists []|by eapply same_stripes|done| |].
  2:{ unfold set_thread. erewrite ended_insert_new by done. rewrite (inv_log _ _ Hinv). symmetry. apply Permutation_cons_append. }
  destruct (inv_store _ _ Hinv) as (st & Hr & Hst). exists st. split; [done|].
  intros t k. rewrite Hst. erewrite pending_moved; [|done..]. unfold serial. rewrite fold_left_app. cbn [fold_left written].
  destruct (decide (stripes c !! get_stripe_index hash t k = Some i)) as [Ho|Ho].
  - erewrite pending_owned by done. cbn [written length]. rewrite Nat.sub_0_r, firstn_all. done.
  - apply spec_txn_local. symmetry. apply spec_txn_other. intros (it & [= -> ->] & Hit)%list_elem_of_fmap.
    by eapply Ho, committing_owner.
Qed.

Lemma read_inv st0 c i todo results todo' results' :
  inv st0 c -> threads c !! i = Some (Reader todo results) ->
  inv st0 {| threads := set_thread c i (Reader todo' results'); stripes := stripes c; storage := storage c; committed := committed c |}.
Proof.
  intros Hinv Hi.
  assert (Hw : forall j items ph, set_thread c i (Reader todo' results') !! j = Some (Writer items ph) <-> threads c !! j = Some (Writer items ph)).
  { intros j items ph. destruct (decide (j = i)) as [->|]; [|by rewrite moved_other]. rewrite (moved_same _ _ _ _ Hi), Hi. done. }
  split; cbn [threads stripes storage committed].
  - intros j items ph H%Hw. by apply (inv_phase _ _ Hinv) in H.
  - intros s j. rewrite (inv_owner _ _ Hinv). by setoid_rewrite Hw.
  - destruct (inv_store _ _ Hinv) as (st & Hr & Hst). exists st. split; [done|]. intros t k. rewrite Hst. f_equal. unfold pending. cbn [stripes threads].
    destruct (stripes c !! _) as [j|]; [|done]. destruct (decide (j = i)) as [->|]; [by rewrite Hi, (moved_same _ _ _ _ Hi)|by rewrite moved_other].
  - unfold set_thread. by rewrite (ended_insert _ _ _ _ Hi), (inv_log _ _ Hinv).
Qed.

Lemma step_inv st0 c c' : inv st0 c -> step hash c c' -> inv st0 c'.
Proof.
  intros Hinv []; [by apply lock_inv|by apply begin_inv|by apply write_inv|by apply end_inv|by apply unlock_inv|by eapply read_inv].
Qed.

Lemma start_inv writers readers e st : represents e st -> Forall (Forall item_ok) writers -> inv st (start hash writers readers e).
Proof.
  intros Hr Hw.
  assert (Hth : forall i items ph, threads (start hash writers readers e) !! i = Some (Writer items ph) -> ph = Locking (lock_indices hash items) /\ Forall item_ok items).
  { intros i items ph H. cbn [threads start] in H. apply list_elem_of_lookup_2, elem_of_app in H as [H|H]; apply list_elem_of_fmap in H as (x & ? & Hx); simplify_eq.
    split; [done|]. rewrite Forall_forall in Hw. auto. }
  split.
  - intros i items ph [-> Hok]%Hth. split; [by exists []|done].
  - intros s i. cbn [stripes start]. rewrite lookup_empty. split; [done|]. intros (items & ph & [-> _]%Hth & Hs).
    cbn [holds] in Hs. rewrite Nat.sub_diag in Hs. by apply not_elem_of_nil in Hs.
  - exists st. done.
  - cbn [threads committed start]. rewrite omap_app.
    assert (Ho : forall A (f : A -> Thread) l, (forall x, ended (f x) = None) -> omap ended (map f l) = [])
      by (induction l as [|a l IH]; intros Hf; [done|]; cbn; by rewrite Hf, IH).
    by rewrite !Ho.
Qed.

Lemma reachable_inv writers readers e st c :
  represents e st -> Forall (Forall item_ok) writers -> rtc (step hash) (start hash writers readers e) c -> inv st c.
Proof.
  intros Hr Hw Hrtc. refine (rtc_ind_r (R:=step hash) (inv st) _ _ _ _ Hrtc); [by apply start_inv|].
  intros x y _ Hs Hx. by eapply step_inv.
Qed.

(** *** When every thread has finished *)

Lemma finished_pending c t k : finished c -> pending c t k = [].
Proof.
  intros Hf. unfold pending. destruct (stripes c !! _) as [i|]; [|done]. destruct (threads c !! i) as [[items ph|]|] eqn:E0; try done.
  unfold finished in Hf. rewrite Forall_lookup in Hf. apply Hf in E0. by destruct ph.
Qed.

Definition thread_items (th : Thread) : option (list TransactWriteItem) :=
  match th with Writer items _ => Some items | Reader _ _ => None end.

Lemma items_insert (l : list Thread) i th th' :
  l !! i = Some th -> thread_items th = thread_items th' -> omap thread_items (<[i := th']> l) = omap thread_items l.
Proof.
  revert i. induction l as [|a l IH]; intros [|i] H E0; simplify_eq/=; [by rewrite E0|]. by rewrite IH.
Qed.

Lemma step_items c c' : step hash (E:=E) c c' -> omap thread_items (threads c') = omap thread_items (threads c).
Proof. intros []; cbn [threads]; unfold set_thread; by eapply items_insert. Qed.

Lemma start_items writers readers (e : E) : omap thread_items (threads (start hash writers readers e)) = writers.
Proof.
  cbn [threads start]. rewrite omap_app. induction writers as [|w ws IH]; [|cbn; by rewrite IH].
  cbn. induction readers as [|r rs IH]; [done|]. cbn. done.
Qed.

Lemma finished_log writers readers e c :
  rtc (step hash) (start hash writers readers e) c -> finished c -> omap ended (threads c) ≡ₚ writers.
Proof.
  intros Hrtc Hf. rewrite <- (start_items writers readers e) at 1.
  assert (H : omap thread_items (threads c) = omap thread_items (threads (start hash writers readers e))).
  { refine (rtc_ind_r (R:=step hash) (fun c => omap thread_items (threads c) = _) _ eq_refl _ _ Hrtc).
    intros x y _ Hs Hx. by rewrite (step_items _ _ Hs). }
  rewrite <- H. clear H Hrtc. unfold finished in Hf. induction Hf as [|th l Hth Hl IH]; [done|].
  destruct th as [items [| |[]]|]; cbn in *; try done. by rewrite IH.
Qed.

(** C8: write transactions are serializable.  However the threads of any number
    of write transactions and readers interleave, when all have finished the
    engine holds what running the transactions one at a time would leave, in the
    order in which their commit loops ended; every transaction runs exactly
    once. *)
Theorem transactions_serializable writers readers e st c :
  represents e st -> Forall (Forall item_ok) writers ->
  rtc (step hash) (start hash writers readers e) c -> finished c ->
  Permutation (committed c) writers /\ represents (storage c) (serial st (committed c)).
Proof.
  intros Hr Hw Hrtc Hfin. pose proof (reachable_inv _ _ _ _ _ Hr Hw Hrtc) as Hinv. split.
  - rewrite (inv_log _ _ Hinv). by apply finished_log with readers e.
  - destruct (inv_store _ _ Hinv) as (st' & [Hi Hrep] & Hst). split; [done|]. intros t k Ht. rewrite Hrep, Hst by done.
    by rewrite finished_pending.
Qed.

(** *** Progress *)

(** The owner of a stripe that is not itself waiting can move, and if it waits
    it waits for a higher stripe. *)
Lemma waiting_moves st0 c i items s want :
  inv st0 c -> threads c !! i = Some (Writer items (Locking (s :: want))) -> exists c', step hash c c'.
Proof.
  intros Hinv. remember (Z.to_nat (kNumStripes - s)) as n eqn:Hn. revert i items s want Hn.
  induction (lt_wf n) as [n _ IH]. intros i items s want Hn Hi.
  destruct (stripes c !! s) as [j|] eqn:Es; [|eexists; by eapply step_lock].
  apply (inv_owner _ _ Hinv) in Es as (items' & ph & Hj & Hs). destruct (inv_phase _ _ Hinv _ _ _ Hj) as [Hok _].
  destruct ph as [[|s' want']|[|it todo]|[|s' held]].
  - eexists. by eapply step_begin.
  - destruct Hok as [h Hh]. pose proof (lock_indices_sorted items') as Hsort. cbn [holds] in Hs. rewrite Hh in Hs, Hsort.
    rewrite length_app in Hs. replace (length h + length (s' :: want') - length (s' :: want'))%nat with (length h) in Hs by lia.
    rewrite take_app_length in Hs. pose proof (StronglySorted_app_1_elem_of _ _ _ _ _ Hsort Hs ltac:(by left)) as Hlt.
    assert (Hr : 0 <= s' < kNumStripes) by (apply (lock_indices_range items'); rewrite Hh; apply elem_of_app; right; by left).
    assert (Hr' : 0 <= s) by (apply (lock_indices_range items'); rewrite Hh; by apply elem_of_app; left).
    eapply (IH (Z.to_nat (kNumStripes - s'))); [lia|reflexivity|exact Hj].
  - eexists. by eapply step_end.
  - eexists. by eapply step_write.
  - by apply not_elem_of_nil in Hs.
  - eexists. by eapply step_unlock.
Qed.

#[local] Instance thread_done_dec th : Decision (thread_done th).
Proof. destruct th as [? [[]|[]|[]]|[]]; cbn; apply _. Defined.

Lemma unfinished_moves st0 c : inv st0 c -> finished c \/ exists c', step hash c c'.
Proof.
  intros Hinv. unfold finished. destruct (decide (Forall thread_done (threads c))) as [|Hn]; [by left|right].
  apply not_Forall_Exists, Exists_exists in Hn as (th & [i Hi]%list_elem_of_lookup & Hnd); [|apply _].
  destruct th as [items [[|s want]|[|it todo]|[|s held]]|[|g todo] results]; cbn in Hnd; try done.
  - eexists. by eapply step_begin.
  - by eapply waiting_moves.
  - eexists. by eapply step_end.
  - eexists. by eapply step_write.
  - eexists. by eapply step_unlock.
  - eexists. by eapply step_read.
Qed.

(** The steps a thread still has to take. *)
Definition thread_work (th : Thread) : nat :=
  match th with
  | Writer items (Locking want) => 2 + length want + length items + length (lock_indices hash items)
  | Writer items (Committing todo) => 1 + length todo + length (lock_indices hash items)
  | Writer _ (Releasing held) => length held
  | Reader todo _ => length todo
  end.

Definition work (c : Config (E:=E)) : nat := sum_list (map thread_work (threads c)).

Lemma work_insert (l : list Thread) i th th' :
  l !! i = Some th -> thread_work th = S (thread_work th') ->
  sum_list (map thread_work l) = S (sum_list (map thread_work (<[i := th']> l))).
Proof.
  revert i. induction l as [|a l IH]; intros [|i] H E0; simplify_eq/=; [by rewrite E0|]. rewrite (IH i) by done. lia.
Qed.

Lemma step_work c c' : step hash c c' -> work c = S (work c').
Proof. intros []; unfold work; cbn [threads]; (eapply work_insert; [done|]); cbn [thread_work length]; lia. Qed.

Lemma nsteps_work n c c' : nsteps (step hash) n c c' -> work c = (n + work c')%nat.
Proof. induction 1 as [|n c c1 c2 Hs Hn IH]; [done|]. rewrite (step_work _ _ Hs), IH. lia. Qed.

(** C23: the ordered acquisition of stripes excludes deadlock and every run ends:
    after any number of steps either all threads have finished or some thread
    can move, and the number of steps of a run is bounded by the work of the
    transactions (their items, twice their stripes and two more steps each, and
    the reads). *)
Theorem transactions_complete writers readers e st n c :
  represents e st -> Forall (Forall item_ok) writers ->
  nsteps (step hash) n (start hash writers readers e) c ->
  (finished c \/ exists c', step hash c c') /\ (n <= work (start hash writers readers e))%nat.
Proof.
  intros Hr Hw Hn. split; [|by rewrite (nsteps_work _ _ _ Hn); lia].
  apply (unfinished_moves st). eapply reachable_inv; [done|done|]. by eapply rtc_nsteps_2.
Qed.

(** *** One call *)

Lemma distinct_keys_spec seen items :
  NoDup seen -> distinct_keys seen items = true <-> NoDup (seen ++ map full_key items).
Proof.
  revert seen. induction items as [|it items IH]; intros seen Hs; cbn [distinct_keys map]; [by rewrite app_nil_r|].
  destruct (existsb (bytes_eqb (full_key it)) seen) eqn:E0.
  - split; [done|]. apply existsb_exists in E0 as (x & Hx & Ex). apply bytes_eqb_eq in Ex as <-. intros (_ & H & _)%NoDup_app.
    exfalso. apply (H (full_key it)); [by apply list_elem_of_In|by left].
  - assert (Hni : full_key it ∉ seen).
    { intros Hin. apply not_true_iff_false in E0. apply E0, existsb_exists. exists (full_key it). by rewrite <- list_elem_of_In, bytes_eqb_refl. }
    rewrite IH, <- app_assoc; [done|]. apply NoDup_app. split; [done|]. split; [|apply NoDup_singleton].
    intros x Hx ->%list_elem_of_singleton. done.
Qed.

(** The value an item leaves at its key. *)
Definition left_by (item : TransactWriteItem) (before : option AttributeMap) : option AttributeMap :=
  if is_delete item then None else match put_attributes item with Some a => Some a | None => before end.

Lemma spec_item_same st it : spec_item st it (table_name it) (key it) = left_by it (st (table_name it) (key it)).
Proof.
  unfold spec_item, left_by, store_set. destruct (is_delete it), (put_attributes it); rewrite ?bytes_eqb_refl; done.
Qed.

Lemma spec_txn_distinct items st it :
  NoDup (map full_key items) -> it ∈ items ->
  spec_txn st items (table_name it) (key it) = left_by it (st (table_name it) (key it)).
Proof.
  intros Hnd Hit. apply list_elem_of_split in Hit as (l1 & l2 & ->). rewrite map_app in Hnd. cbn [map] in Hnd.
  assert (Hout : forall l, full_key it ∉ map full_key l -> (table_name it, key it) ∉ map (fun it => (table_name it, key it)) l).
  { intros l Hn (x & [= E1 E2] & Hx)%list_elem_of_fmap. apply Hn, list_elem_of_fmap. exists x. unfold full_key. by rewrite E1, E2. }
  apply NoDup_app in Hnd as (_ & H1 & [H2 _]%NoDup_cons).
  unfold spec_txn. rewrite fold_left_app. cbn [fold_left]. fold (spec_txn st l1). fold (spec_txn (spec_item (spec_txn st l1) it) l2).
  rewrite spec_txn_other by auto. rewrite spec_item_same. f_equal. apply spec_txn_other, Hout. intros Hin. apply (H1 _ Hin). by left.
Qed.

(** One write transaction.  It is accepted exactly if it has 1 to 25 items
    with distinct full keys ([table:key]); then every item leaves its value (the
    attributes put, or none) and no other key changes.  A rejected transaction
    changes nothing.  A read transaction of at most 100 items returns the stored
    items in the order of the request. *)
Theorem transaction_exact now1 now2 m st items gets :
  represents (storage_engine_ m) st -> Forall item_ok items ->
  Forall (fun g => se_names (get_table_name g) (get_key g)) gets ->
  let (m', r) := execute_transact_write_items now1 now2 m items in
  let valid := items <> [] /\ len items <= 25 /\ NoDup (map full_key items) in
  (valid -> r = Ok tt /\ exists st', represents (storage_engine_ m') st' /\
        (forall it, it ∈ items -> st' (table_name it) (key it) = left_by it (st (table_name it) (key it))) /\
        (forall t k, (t, k) ∉ map (fun it => (table_name it, key it)) items -> st' t k = st t k)) /\
  (~ valid -> r = Err [ValidationFailed] /\ m' = m) /\
  execute_transact_get_items m gets =
    if decide (len gets <= 100) then Ok (map (fun g => st (get_table_name g) (get_key g)) gets) else Err ValidationFailed.
Proof.
  intros Hr Hit Hg.
  assert (Hget : execute_transact_get_items m gets =
    if decide (len gets <= 100) then Ok (map (fun g => st (get_table_name g) (get_key g)) gets) else Err ValidationFailed).
  { unfold execute_transact_get_items. destruct (Z.ltb_spec 100 (len gets)), (decide (len gets <= 100)); try done || lia.
    f_equal. apply map_ext_Forall. apply Forall_forall. intros g Hin. rewrite Forall_forall in Hg. apply represents_get; auto. }
  rewrite Hget. unfold execute_transact_write_items. pose proof (distinct_keys_spec [] items ltac:(constructor)) as Hd. cbn [app] in Hd.
  destruct (decide (items = [])) as [He|He]; [rewrite bool_decide_eq_true_2 by done; cbn [orb]; by split; [intros []|]|].
  rewrite bool_decide_eq_false_2 by done. cbn [orb].
  destruct (Z.ltb_spec 25 (len items)); [split; [lia|done]|].
  destruct (distinct_keys [] items); cbn [negb]; [|split; [intros (_ & _ & H'); by apply Hd in H'|done]].
  destruct (HLC.next now1 (tid_gen_ m)) as [g t]. split; [|split; [intros Hn; destruct Hn; split; [done|]; split; [done|by apply Hd]|done]].
  intros _. split; [done|]. exists (spec_txn st items). cbn [storage_engine_]. split; [by apply commit_represents|].
  split; [intros it Hin; apply spec_txn_distinct; [by apply Hd|done]|intros t' k; apply spec_txn_other].
Qed.

End Proofs.

(** *** Running a schedule *)

Section Schedule.
Context (hash : bytes -> Z).
Context {E : Type} {SE : StorageEngine E}.

(** The step of thread [i], if it can move. *)
Definition next_config (c : Config (E:=E)) (i : nat) : option Config :=
  let move th str e log := Some {| threads := set_thread c i th; stripes := str; storage := e; committed := log |} in
  match threads c !! i with
  | Some (Writer items (Locking (s :: want))) =>
      match stripes c !! s with
      | None => move (Writer items (Locking want)) (<[s := i]> (stripes c)) (storage c) (committed c)
      | Some _ => None
      end
  | Some (Writer items (Locking [])) => move (Writer items (Committing items)) (stripes c) (storage c) (committed c)
  | Some (Writer items (Committing (item :: todo))) =>
      move (Writer items (Committing todo)) (stripes c) (commit_item (storage c) item) (committed c)
  | Some (Writer items (Committing [])) =>
      move (Writer items (Releasing (lock_indices hash items))) (stripes c) (storage c) (committed c ++ [items])
  | Some (Writer items (Releasing (s :: held))) =>
      move (Writer items (Releasing held)) (delete s (stripes c)) (storage c) (committed c)
  | Some (Reader (item :: todo) results) =>
      move (Reader todo (results ++ [se_get (storage c) (get_table_name item) (get_key item)])) (stripes c) (storage c) (committed c)
  | _ => None
  end.

Fixpoint run_schedule (c : Config) (schedule : list nat) : option Config :=
  match schedule with
  | [] => Some c
  | i :: schedule' => match next_config c i with Some c' => run_schedule c' schedule' | None => None end
  end.

Lemma next_config_step c i c' : next_config c i = Some c' -> step hash c c'.
Proof.
  unfold next_config. destruct (threads c !! i) as [[items [[|s want]|[|item todo]|[|s held]]|[|item todo] results]|] eqn:Hi; try done.
  - intros [= <-]. by eapply step_begin.
  - destruct (stripes c !! s) eqn:Hs; [done|]. intros [= <-]. by eapply step_lock.
  - intros [= <-]. by eapply step_end.
  - intros [= <-]. by eapply step_write.
  - intros [= <-]. by eapply step_unlock.
  - intros [= <-]. by eapply step_read.
Qed.

Lemma run_schedule_steps schedule c c' : run_schedule c schedule = Some c' -> nsteps (step hash) (length schedule) c c'.
Proof.
  revert c. induction schedule as [|i l IH]; intros c H; [by simplify_eq/=; constructor|]. cbn [run_schedule] in H.
  destruct (next_config c i) eqn:E0; [|done]. econstructor; [by eapply next_config_step|by apply IH].
Qed.
End Schedule.

(** *** A concrete run *)

#[local] Existing Instance MemoryEngine.engine.
#[local] Existing Instance MemoryEngine.laws.

Definition demo_attrs : AttributeMap := [(lit "v", Some (AV_S (lit "new")))].
Definition demo_put (k : string) : TransactWriteItem :=
  {| table_name := lit "T"; key := lit k; put_attributes := Some demo_attrs; is_delete := false |}.
Definition demo_delete (k : string) : TransactWriteItem :=
  {| table_name := lit "T"; key := lit k; put_attributes := None; is_delete := true |}.
Definition demo_get (k : string) : TransactGetItem := {| get_table_name := lit "T"; get_key := lit k |}.
Definition demo_writers : list (list TransactWriteItem) := [[demo_put "a"; demo_put "bb"]; [demo_delete "a"; demo_put "ccc"]].
Definition demo_readers : list (list TransactGetItem) := [[demo_get "a"; demo_get "bb"]].
Definition demo_start := start len demo_writers demo_readers MemoryEngine.empty.
(** The reader (thread 2) reads between the two writes of the first transaction. *)
Definition demo_schedule : list nat := [0; 0; 0; 0; 2; 2; 0; 0; 0; 1; 1; 1; 1; 1; 1; 1; 1; 0]%nat.
Definition demo_end := default demo_start (run_schedule len demo_start demo_schedule).

Lemma demo_schedule_runs : run_schedule len demo_start demo_schedule = Some demo_end.
Proof. vm_compute. reflexivity. Qed.

Lemma demo_reached : rtc (step len) demo_start demo_end.
Proof. apply (rtc_nsteps_2 (length demo_schedule)), run_schedule_steps, demo_schedule_runs. Qed.

Lemma demo_finished : finished demo_end.
Proof. unfold finished. rewrite Forall_forall. apply Forall_forall. vm_compute. repeat constructor. Qed.

Lemma empty_represents : represents MemoryEngine.empty empty_store.
Proof. split; [apply MemoryEngine.wf_empty|done]. Qed.

Lemma demo_items_ok : Forall (Forall item_ok) demo_writers.
Proof. repeat constructor. Qed.

Lemma transactions_serializable_witness :
  Permutation (committed demo_end) demo_writers /\ represents (storage demo_end) (serial empty_store (committed demo_end)).
Proof.
  apply (transactions_serializable len demo_writers demo_readers MemoryEngine.empty empty_store demo_end).
  - apply empty_represents.
  - apply demo_items_ok.
  - apply demo_reached.
  - apply demo_finished.
Defined.

Lemma transactions_complete_witness :
  (finished demo_end \/ exists c', step len demo_end c') /\ (length demo_schedule <= work len demo_start)%nat.
Proof.
  apply (transactions_complete len demo_writers demo_readers MemoryEngine.empty empty_store).
  - apply empty_represents.
  - apply demo_items_ok.
  - apply run_schedule_steps, demo_schedule_runs.
Defined.

Lemma transaction_exact_witness :
  (execute_transact_write_items (E:=MemoryEngine.t) 1704067200000000 1704067200000001
     {| storage_engine_ := MemoryEngine.empty; tid_gen_ := {| HLC.current_time_ := 0; HLC.sequence_ := 0 |} |}
     [demo_put "a"; demo_delete "a"]).2 = Err [ValidationFailed].
Proof.
  set (m := {| storage_engine_ := MemoryEngine.empty; tid_gen_ := _ |}).
  pose proof (transaction_exact 1704067200000000 1704067200000001 m empty_store [demo_put "a"; demo_delete "a"] [] empty_represents
    ltac:(repeat constructor) ltac:(constructor)) as H.
  destruct (execute_transact_write_items _ _ m _) as [m' r]. destruct H as (_ & H & _). apply H.
  intros (_ & _ & Hd). revert Hd. apply (bool_decide_eq_false_1 _). vm_compute. reflexivity.
Defined.

(** Reads are not atomic with respect to write transactions, although the
    comment calls them snapshot reads: a reader that takes no stripe can see the
    first of two items a transaction puts and miss the second. *)
Theorem transact_get_torn :
  exists c, rtc (step len) (start len demo_writers demo_readers MemoryEngine.empty) c /\ finished c /\
    threads c !! 2%nat = Some (Reader [] [Some demo_attrs; None]).
Proof. exists demo_end. split; [apply demo_reached|]. split; [apply demo_finished|]. vm_compute. reflexivity. Qed.

End Txn.
