(* ===== verification/RecordCodec.v ===== *)
(** * The record codec

    [src/engine/lsm/record_codec.cpp]: the binary form of an item shared by the
    write-ahead log and the SSTables.  The writer appends to an output string;
    [None] is the dereference of a null child pointer, which the source does not
    guard.  The reader is the unread rest of the buffer; [None] is the [nullptr]
    or [nullopt] of a malformed buffer.  [decode_value] recurses on fuel, and
    [decode_fuel_enough] shows that any fuel above the length of the buffer
    gives the same result, so the fuel of the entry points is immaterial. *)

From Stdlib Require Import ZArith Lia Strings.String.
From stdpp Require Import prelude.
From S2P Require Import Prelude StdMap Types CLib KeyCodec Validator.

(** ** Writer *)

Definition put_u32 (out : bytes) (v : Z) : bytes := out ++ le_bytes 4 (u32 v).

Definition put_bytes (out s : bytes) : bytes := put_u32 out (len s) ++ s.

Section WriteAll.
Context {A : Type} (write : bytes -> A -> option bytes).

(** A range-based [for] that writes each element. *)
Fixpoint write_all (out : bytes) (l : list A) : option bytes :=
  match l with
  | [] => Some out
  | x :: l' => match write out x with Some out' => write_all out' l' | None => None end
  end.
End WriteAll.

Fixpoint encode_value (out : bytes) (av : AttributeValue) {struct av} : option bytes :=
  let out := out ++ [byte_of (type_tag (av_type av))] in
  match av with
  | AV_S s | AV_N s => Some (put_bytes out s)
  | AV_B b => Some (put_bytes out b)
  | AV_BOOL b => Some (out ++ [if b then Byte.x01 else Byte.x00])
  | AV_NUL => Some out
  | AV_M m =>
      write_all (fun out e =>
        match e.2 with Some v => encode_value (put_bytes out e.1) v | None => None end)
        (put_u32 out (len m)) m
  | AV_L l =>
      write_all (fun out v => match v with Some v => encode_value out v | None => None end)
        (put_u32 out (len l)) l
  | AV_SS vs | AV_NS vs | AV_BS vs =>
      write_all (fun out x => Some (put_bytes out x)) (put_u32 out (len vs)) vs
  end.

Definition encode_attribute (out : bytes) (e : bytes * AttrPtr) : option bytes :=
  match e.2 with Some v => encode_value (put_bytes out e.1) v | None => None end.

Definition encode_attributes (attrs : AttributeMap) : option bytes :=
  write_all encode_attribute (put_u32 [] (len attrs)) attrs.

Definition encode_attribute_value (av : AttributeValue) : option bytes := encode_value [] av.

(** ** Reader *)

Definition read_u32 (d : bytes) : option (Z * bytes) := read_le 4 d.
Definition read_u8 (d : bytes) : option (Z * bytes) := read_le 1 d.
Definition read_bytes (n : Z) (d : bytes) : option (bytes * bytes) := read_n n d.

(** The length-prefixed string every branch reads. *)
Definition read_sized (d : bytes) : option (bytes * bytes) :=
  match read_u32 d with Some (n, d') => read_bytes n d' | None => None end.

Section ReadMany.
Context {A B : Type} (read : bytes -> option (A * bytes)) (push : B -> A -> B).

(** [for (i = 0; i < count; ++i)] that reads an element and stores it.  Every
    read consumes input, so fuel above the length of the input is enough: when
    it runs out the input is empty and the read fails as well. *)
Fixpoint read_many (fuel : nat) (count : Z) (acc : B) (d : bytes) : option (B * bytes) :=
  if count <=? 0 then Some (acc, d) else
  match fuel with
  | O => None
  | S fuel' =>
      match read d with
      | Some (x, d') => read_many fuel' (count - 1) (push acc x) d'
      | None => None
      end
  end.
End ReadMany.

Definition read_counted {A B} (read : bytes -> option (A * bytes)) (push : B -> A -> B) (init : B) (d : bytes)
  : option (B * bytes) :=
  match read_u32 d with
  | Some (count, d') => read_many read push (S (length d')) count init d'
  | None => None
  end.

Definition push_back {A} (l : list A) (x : A) : list A := l ++ [x].
Definition map_store (m : AttributeMap) (e : bytes * AttributeValue) : AttributeMap := mset e.1 (Some e.2) m.

(** A key and a value, each as the loops over maps read them. *)
Definition read_entry (value : bytes -> option (AttributeValue * bytes)) (d : bytes)
  : option ((bytes * AttributeValue) * bytes) :=
  match read_sized d with
  | Some (key, d') => match value d' with Some (v, d'') => Some ((key, v), d'') | None => None end
  | None => None
  end.

Definition wrap {A} (f : A -> AttributeValue) (r : option (A * bytes)) : option (AttributeValue * bytes) :=
  match r with Some (x, d) => Some (f x, d) | None => None end.

Fixpoint decode_value (fuel : nat) (d : bytes) : option (AttributeValue * bytes) :=
  match fuel with
  | O => None
  | S fuel' =>
      match read_u8 d with
      | None => None
      | Some (tag, d) =>
          match tag with
          | 0 => wrap AV_S (read_sized d)
          | 1 => wrap AV_N (read_sized d)
          | 2 => wrap AV_B (read_sized d)
          | 3 => wrap (fun b => AV_BOOL (negb (b =? 0))) (read_u8 d)
          | 4 => Some (AV_NUL, d)
          | 5 => wrap AV_M (read_counted (read_entry (decode_value fuel')) map_store [] d)
          | 6 => wrap AV_L (read_counted (decode_value fuel') (fun l v => push_back l (Some v)) [] d)
          | 7 => wrap AV_SS (read_counted read_sized push_back [] d)
          | 8 => wrap AV_NS (read_counted read_sized push_back [] d)
          | 9 => wrap AV_BS (read_counted read_sized push_back [] d)
          | _ => None
          end
      end
  end.

Definition decode_attribute_value (data : bytes) : option AttributeValue :=
  match decode_value (S (length data)) data with Some (v, _) => Some v | None => None end.

Definition decode_attributes (data : bytes) : option AttributeMap :=
  match read_counted (read_entry (decode_value (S (length data)))) map_store [] data with
  | Some (attrs, _) => Some attrs
  | None => None
  end.

(** ** What a reader does: it consumes a prefix and does not look further *)

(** [strict] readers consume at least one octet; results do not depend on what
    follows the octets consumed. *)
Record reader_ok {A} (rd : bytes -> option (A * bytes)) : Prop := {
  rd_consumes : forall d x r, rd d = Some (x, r) -> (length r < length d)%nat;
  rd_local : forall d x r t, rd d = Some (x, r) -> rd (d ++ t) = Some (x, r ++ t)
}.

Lemma read_le_ok n : (0 < n)%nat -> reader_ok (read_le n).
Proof.
  intros Hn. split; intros d x r H.
  - apply read_le_Some in H as [-> _]. rewrite length_app, le_bytes_length. lia.
  - intros H'. apply read_le_Some in H' as [-> ?]. rewrite <- app_assoc. by apply read_le_app.
Qed.

Lemma read_sized_ok : reader_ok read_sized.
Proof.
  unfold read_sized, read_u32, read_bytes, read_n. split; intros d x r H.
  - destruct (read_le 4 d) as [[n d']|] eqn:E; [|done]. apply read_le_Some in E as [-> _].
    destruct (n <=? len d'); [|done]. injection H as <- <-. rewrite length_app, le_bytes_length, length_drop. lia.
  - intros H'. destruct (read_le 4 d) as [[n d']|] eqn:E; [|done].
    rewrite (rd_local _ (read_le_ok 4 ltac:(lia)) _ _ _ _ E). apply read_le_Some in E as [_ ?].
    destruct (Z.leb_spec n (len d')); [|done]. injection H' as <- <-. rewrite len_app.
    pose proof (len_nonneg H). unfold len in *. destruct (Z.leb_spec n (Z.of_nat (length d') + Z.of_nat (length H))); [|lia].
    by rewrite take_app_le, drop_app_le by lia.
Qed.

Lemma read_entry_ok value : reader_ok value -> reader_ok (read_entry value).
Proof.
  intros [Hc Hl]. unfold read_entry. split; intros d x r H.
  - destruct (read_sized d) as [[k d']|] eqn:E; [|done]. apply (rd_consumes _ read_sized_ok) in E.
    destruct (value d') as [[v d'']|] eqn:E'; [|done]. apply Hc in E'. injection H as <- <-. lia.
  - intros H'. destruct (read_sized d) as [[k d']|] eqn:E; [|done].
    rewrite (rd_local _ read_sized_ok _ _ _ _ E).
    destruct (value d') as [[v d'']|] eqn:E'; [|done]. rewrite (Hl _ _ _ _ E'). by injection H' as <- <-.
Qed.

Section ReadManyFacts.
Context {A B : Type} (read : bytes -> option (A * bytes)) (push : B -> A -> B).

Lemma read_many_consumes fuel count acc d x r :
  reader_ok read -> read_many read push fuel count acc d = Some (x, r) -> (length r <= length d)%nat.
Proof.
  intros Hok. revert count acc d. induction fuel as [|fuel IH]; intros count acc d; simpl;
    destruct (count <=? 0); try (by intros [= <- <-]).
  destruct (read d) as [[y d']|] eqn:E; [|done]. intros H. apply IH in H. apply (rd_consumes _ Hok) in E. lia.
Qed.

Lemma read_many_local fuel fuel' count acc d x r t :
  reader_ok read -> (fuel <= fuel')%nat -> read_many read push fuel count acc d = Some (x, r) ->
  read_many read push fuel' count acc (d ++ t) = Some (x, r ++ t).
Proof.
  intros Hok. revert fuel' count acc d. induction fuel as [|fuel IH]; intros fuel' count acc d Hf; simpl.
  - destruct fuel'; simpl; destruct (count <=? 0); try done; by intros [= <- <-].
  - destruct fuel' as [|fuel']; [lia|]. simpl. destruct (count <=? 0); [by intros [= <- <-]|].
    destruct (read d) as [[y d']|] eqn:E; [|done]. rewrite (rd_local _ Hok _ _ _ _ E). apply IH. lia.
Qed.

(** Enough fuel is as good as any. *)
Lemma read_many_fuel fuel fuel' count acc d :
  reader_ok read -> (length d < fuel)%nat -> (length d < fuel')%nat ->
  read_many read push fuel count acc d = read_many read push fuel' count acc d.
Proof.
  intros Hok. revert fuel' count acc d. induction fuel as [|fuel IH]; intros fuel' count acc d Hf Hf'; [lia|].
  destruct fuel' as [|fuel']; [lia|]. simpl. destruct (count <=? 0); [done|].
  destruct (read d) as [[y d']|] eqn:E; [|done]. apply (rd_consumes _ Hok) in E. apply IH; lia.
Qed.
End ReadManyFacts.

Lemma read_many_ext {A B} (read read' : bytes -> option (A * bytes)) (push : B -> A -> B) fuel count acc d :
  reader_ok read -> (forall d', (length d' <= length d)%nat -> read d' = read' d') ->
  read_many read push fuel count acc d = read_many read' push fuel count acc d.
Proof.
  intros Hok. revert count acc d. induction fuel as [|fuel IH]; intros count acc d Hext; simpl; [done|].
  destruct (count <=? 0); [done|]. rewrite <- Hext by lia. destruct (read d) as [[y d']|] eqn:E; [|done].
  apply (rd_consumes _ Hok) in E. apply IH. intros. apply Hext. lia.
Qed.

Lemma read_counted_ok {A B} (read : bytes -> option (A * bytes)) (push : B -> A -> B) init :
  reader_ok read -> reader_ok (read_counted read push init).
Proof.
  intros Hok. unfold read_counted. split; intros d x r H.
  - destruct (read_u32 d) as [[n d']|] eqn:E; [|done].
    apply (rd_consumes _ (read_le_ok 4 ltac:(lia))) in E. apply (read_many_consumes read push) in H; [lia|done].
  - intros H'. destruct (read_u32 d) as [[n d']|] eqn:E; [|done]. unfold read_u32 in *.
    rewrite (rd_local _ (read_le_ok 4 ltac:(lia)) _ _ _ _ E). eapply read_many_local; [done| |done].
    rewrite length_app. lia.
Qed.

Lemma wrap_ok {A} (f : A -> AttributeValue) (rd : bytes -> option (A * bytes)) :
  reader_ok rd -> reader_ok (fun d => wrap f (rd d)).
Proof.
  intros [Hc Hl]. split; intros d x r; unfold wrap; destruct (rd d) as [[y d']|] eqn:E; try done.
  - intros [= <- <-]. by eapply Hc.
  - intros t [= <- <-]. by rewrite (Hl _ _ _ t E).
Qed.

(** The branch taken after the tag. *)
Definition branch (dv : bytes -> option (AttributeValue * bytes)) (tag : Z) (d : bytes) :=
  match tag with
  | 0 => wrap AV_S (read_sized d)
  | 1 => wrap AV_N (read_sized d)
  | 2 => wrap AV_B (read_sized d)
  | 3 => wrap (fun b => AV_BOOL (negb (b =? 0))) (read_u8 d)
  | 4 => Some (AV_NUL, d)
  | 5 => wrap AV_M (read_counted (read_entry dv) map_store [] d)
  | 6 => wrap AV_L (read_counted dv (fun l v => push_back l (Some v)) [] d)
  | 7 => wrap AV_SS (read_counted read_sized push_back [] d)
  | 8 => wrap AV_NS (read_counted read_sized push_back [] d)
  | 9 => wrap AV_BS (read_counted read_sized push_back [] d)
  | _ => None
  end.

Lemma decode_value_step fuel d :
  decode_value (S fuel) d = match read_u8 d with None => None | Some (tag, d) => branch (decode_value fuel) tag d end.
Proof. done. Qed.

Lemma decode_value_ok fuel : reader_ok (decode_value fuel).
Proof.
  induction fuel as [|fuel IH]; [split; done|].
  assert (H1 : reader_ok read_u8) by (apply read_le_ok; lia).
  pose proof read_sized_ok as H2.
  assert (Hb : forall tag, tag = 4 \/ reader_ok (branch (decode_value fuel) tag) \/ forall d, branch (decode_value fuel) tag d = None).
  { intros tag. unfold branch. destruct tag as [|[[[|[]|]|[|[]|]|]|[[|[]|]|[[]|[]|]|]|]|];
      try (right; right; reflexivity); try (left; reflexivity); right; left;
      apply wrap_ok; auto using read_counted_ok, read_entry_ok. }
  split; intros d x r; rewrite decode_value_step.
  - destruct (read_u8 d) as [[tag d']|] eqn:E; [|done]. apply (rd_consumes _ H1) in E.
    destruct (Hb tag) as [->|[Hok|Hn]]; [by intros [= <- <-]| |by rewrite Hn].
    intros H. apply (rd_consumes _ Hok) in H. lia.
  - intros t. destruct (read_u8 d) as [[tag d']|] eqn:E; [|done]. rewrite decode_value_step, (rd_local _ H1 _ _ _ _ E).
    destruct (Hb tag) as [->|[Hok|Hn]]; [by intros [= <- <-]| |by rewrite Hn]. apply (rd_local _ Hok).
Qed.

Lemma read_counted_ext {A B} (rd rd' : bytes -> option (A * bytes)) (push : B -> A -> B) init d :
  reader_ok rd -> (forall r, (length r <= length d)%nat -> rd r = rd' r) ->
  read_counted rd push init d = read_counted rd' push init d.
Proof.
  intros Hok He. unfold read_counted. destruct (read_u32 d) as [[n d']|] eqn:E; [|done].
  apply (rd_consumes _ (read_le_ok 4 ltac:(lia))) in E. apply read_many_ext; [done|]. intros. apply He. lia.
Qed.

Lemma read_entry_ext value value' d :
  (forall r, (length r <= length d)%nat -> value r = value' r) -> read_entry value d = read_entry value' d.
Proof.
  intros He. unfold read_entry. destruct (read_sized d) as [[k r']|] eqn:Er; [|done].
  apply (rd_consumes _ read_sized_ok) in Er. by rewrite He by lia.
Qed.

(** Fuel above the length of the buffer is enough. *)
Lemma decode_fuel_enough f1 f2 d :
  (length d < f1)%nat -> (length d < f2)%nat -> decode_value f1 d = decode_value f2 d.
Proof.
  revert f2 d. induction f1 as [|f1 IH]; intros f2 d H1 H2; [lia|]. destruct f2 as [|f2]; [lia|].
  rewrite !decode_value_step. destruct (read_u8 d) as [[tag d']|] eqn:E; [|done].
  apply (rd_consumes _ (read_le_ok 1 ltac:(lia))) in E.
  assert (Hext : forall r, (length r <= length d')%nat -> decode_value f1 r = decode_value f2 r)
    by (intros; apply IH; lia).
  unfold branch. destruct tag as [|[[[|[]|]|[|[]|]|]|[[|[]|]|[[]|[]|]|]|]|]; try done; f_equal; apply read_counted_ext; auto.
  - apply read_entry_ok, decode_value_ok.
  - intros r Hr. apply read_entry_ext. intros. apply Hext. lia.
  - apply decode_value_ok.
Qed.

(** ** Round trip *)

(** The values the format can hold: no null child, sorted maps (every
    [std::map] is), and 32-bit sizes. *)
Definition fits (n : Z) : bool := n <? 2 ^ 32.

Fixpoint codec_ok (v : AttributeValue) : bool :=
  match v with
  | AV_S s | AV_N s | AV_B s => fits (len s)
  | AV_BOOL _ | AV_NUL => true
  | AV_M m =>
      fits (len m) && msortedb m &&
      forallb (fun e => fits (len e.1) && match e.2 with Some a => codec_ok a | None => false end) m
  | AV_L l => fits (len l) && forallb (fun v => match v with Some a => codec_ok a | None => false end) l
  | AV_SS vs | AV_NS vs | AV_BS vs => fits (len vs) && forallb (fun s => fits (len s)) vs
  end.

Definition codec_item_ok (m : AttributeMap) : bool := codec_ok (AV_M m).

(** [x] is written as some octets from which the reader recovers [a]. *)
Definition written {X A} (write : bytes -> X -> option bytes) (read : nat -> bytes -> option (A * bytes)) (x : X) (a : A) : Prop :=
  exists e, (forall out, write out x = Some (out ++ e)) /\
            (forall n r, (length (e ++ r) < n)%nat -> read n (e ++ r) = Some (a, r)).

Lemma read_u32_put n r : 0 <= n -> fits n = true -> read_u32 (le_bytes 4 (u32 n) ++ r) = Some (n, r).
Proof.
  intros H0 Hf%Z.ltb_lt. unfold u32. rewrite Z.mod_small by lia. apply read_le_app.
  change (256 ^ Z.of_nat 4) with (2 ^ 32). lia.
Qed.

Lemma read_sized_put s r : fits (len s) = true -> read_sized (put_bytes [] s ++ r) = Some (s, r).
Proof.
  intros Hf. unfold read_sized, put_bytes, put_u32. rewrite app_nil_l, <- app_assoc.
  rewrite read_u32_put by (auto with cyn). apply read_n_app.
Qed.

Lemma put_bytes_app out s : put_bytes out s = out ++ put_bytes [] s.
Proof. unfold put_bytes, put_u32. by rewrite <- !app_assoc. Qed.

Lemma written_sized s : fits (len s) = true -> written (fun out x => Some (put_bytes out x)) (fun _ => read_sized) s s.
Proof.
  intros Hf. exists (put_bytes [] s). split; [intros; by rewrite put_bytes_app|].
  intros _ r _. by apply read_sized_put.
Qed.

Lemma write_all_read_many {X A B} (write : bytes -> X -> option bytes) (read : nat -> bytes -> option (A * bytes))
  (push : B -> A -> B) l xs :
  (forall n, reader_ok (read n)) -> Forall2 (written write read) l xs ->
  exists es, (forall out, write_all write out l = Some (out ++ es)) /\
    forall n fuel acc r, (length (es ++ r) < n)%nat -> (length (es ++ r) < fuel)%nat ->
      read_many (read n) push fuel (len l) acc (es ++ r) = Some (fold_left push xs acc, r).
Proof.
  intros Hok. induction 1 as [|x a l xs (e & Hw & Hr) Hl (es & Hws & Hrs)].
  - exists []. split; [intros; by rewrite app_nil_r|]. intros n fuel acc r _ _. by destruct fuel.
  - exists (e ++ es). split; [intros; cbn [write_all]; by rewrite Hw, Hws, app_assoc|].
    intros n fuel acc r Hn Hf. rewrite <- app_assoc in *. destruct fuel as [|fuel]; [lia|].
    cbn [read_many]. rewrite len_cons. pose proof (len_nonneg l).
    destruct (Z.leb_spec (1 + len l) 0); [lia|].
    pose proof (Hr n (es ++ r) Hn) as E. rewrite E. apply (rd_consumes _ (Hok n)) in E.
    replace (1 + len l - 1) with (len l) by lia. cbn [fold_left]. apply Hrs; lia.
Qed.

(** A counted collection inside a value: count, then the elements. *)
Lemma write_counted {X A B} (write : bytes -> X -> option bytes) (read : nat -> bytes -> option (A * bytes))
  (push : B -> A -> B) (init : B) l xs :
  (forall n, reader_ok (read n)) -> Forall2 (written write read) l xs -> fits (len l) = true ->
  exists e, (forall out, write_all write (put_u32 out (len l)) l = Some (out ++ e)) /\
    forall n r, (length (e ++ r) < n)%nat -> read_counted (read n) push init (e ++ r) = Some (fold_left push xs init, r).
Proof.
  intros Hok Hl Hf. destruct (write_all_read_many write read push l xs Hok Hl) as (es & Hw & Hr).
  exists (le_bytes 4 (u32 (len l)) ++ es). split; [intros; rewrite Hw; unfold put_u32; by rewrite app_assoc|].
  intros n r Hn. unfold read_counted. rewrite <- app_assoc in *. rewrite read_u32_put by auto with cyn.
  rewrite length_app in Hn. apply Hr; lia.
Qed.

Lemma fold_push_back {A} (l acc : list A) : fold_left push_back l acc = acc ++ l.
Proof.
  revert acc. induction l as [|x l IH]; intros acc; simpl; [by rewrite app_nil_r|].
  rewrite IH. unfold push_back. by rewrite <- app_assoc.
Qed.

Lemma fold_push_ptr l acc :
  fold_left (fun l v => push_back l (Some v)) l acc = acc ++ map (@Some AttributeValue) l.
Proof.
  revert acc. induction l as [|x l IH]; intros acc; simpl; [by rewrite app_nil_r|].
  rewrite IH. unfold push_back. by rewrite <- app_assoc.
Qed.

(** Reading a sorted map back entry by entry rebuilds it. *)
Lemma fold_map_store (l : list (bytes * AttributeValue)) acc :
  msorted (acc ++ mmap Some l) -> fold_left map_store l acc = acc ++ mmap Some l.
Proof.
  revert acc. induction l as [|[k v] l IH]; intros acc Hs; simpl in *; [by rewrite app_nil_r|].
  unfold map_store at 2. simpl.
  assert (Hset : mset k (Some v) acc = acc ++ [(k, Some v)]).
  { apply mset_last. apply msorted_app in Hs as (_ & _ & Hf). eapply Forall_impl; [exact Hf|].
    intros e He. unfold above in He. apply Forall_cons in He as [He _]. exact He. }
  rewrite Hset. replace (acc ++ (k, Some v) :: mmap Some l) with ((acc ++ [(k, Some v)]) ++ mmap Some l) in *
    by (by rewrite <- app_assoc). by apply IH.
Qed.

Lemma written_entry k v : fits (len k) = true -> written encode_value decode_value v v ->
  written encode_attribute (fun n => read_entry (decode_value n)) (k, Some v) (k, v).
Proof.
  intros Hk (e & Hw & Hr). exists (put_bytes [] k ++ e). split.
  - intros out. unfold encode_attribute. cbn [fst snd]. by rewrite Hw, put_bytes_app, app_assoc.
  - intros n r Hn. unfold read_entry. rewrite <- app_assoc in *. rewrite read_sized_put by done.
    rewrite length_app in Hn. by rewrite Hr by lia.
Qed.

(** Prepending the tag. *)
Lemma written_tagged v e t :
  type_tag (av_type v) = t -> 0 <= t < 256 ->
  (forall out, encode_value out v = Some ((out ++ [byte_of t]) ++ e)) ->
  (forall n r, (length (e ++ r) < n)%nat -> branch (decode_value n) t (e ++ r) = Some (v, r)) ->
  written encode_value decode_value v v.
Proof.
  intros Ht Hb Hw Hr. exists (byte_of t :: e). split; [intros; by rewrite Hw, <- app_assoc|].
  intros n r Hn. simpl in Hn. destruct n as [|n]; [lia|]. rewrite decode_value_step.
  change ((byte_of t :: e) ++ r) with ([byte_of t] ++ (e ++ r)).
  replace [byte_of t] with (le_bytes 1 t) by done. unfold read_u8. rewrite read_le_app by (change (256 ^ Z.of_nat 1) with 256; lia).
  apply Hr. lia.
Qed.

Ltac solve_sized :=
  match goal with
  | Hf : fits (len ?s) = true |- written _ _ ?v _ =>
      eapply (written_tagged v (put_bytes [] s) _ eq_refl); [simpl; lia
        | intros; cbn [encode_value]; by rewrite put_bytes_app
        | intros; unfold branch; simpl type_tag; cbv iota beta; by rewrite read_sized_put]
  end.

Lemma forall2_sized vs : forallb (fun s => fits (len s)) vs = true ->
  Forall2 (written (fun out x => Some (put_bytes out x)) (fun _ => read_sized)) vs vs.
Proof.
  induction vs as [|s vs IH]; simpl; intros H; constructor; apply andb_prop in H as [? ?]; auto using written_sized.
Qed.

Ltac solve_set :=
  match goal with
  | Hf : fits (len ?s) = true, Ha : forallb _ ?s = true |- written _ _ ?v _ =>
      let e := fresh "e" in let Hw := fresh "Hw" in let Hr := fresh "Hr" in
      destruct (write_counted (fun out x => Some (put_bytes out x)) (fun _ => read_sized) push_back [] s s
        (fun _ => read_sized_ok) (forall2_sized s Ha) Hf) as (e & Hw & Hr);
      eapply (written_tagged v e _ eq_refl); [simpl; lia
        | intros; exact (Hw _)
        | intros n r Hn; unfold branch; simpl type_tag; cbv iota beta; rewrite (Hr n r Hn), fold_push_back; reflexivity]
  end.

(** The pointers of a collection without nulls. *)
Lemma ptrs_written l :
  Forall (opt_all (fun v => codec_ok v = true -> written encode_value decode_value v v)) l ->
  forallb (fun v => match v with Some a => codec_ok a | None => false end) l = true ->
  exists xs, l = map Some xs /\
    Forall2 (written (fun out v => match v with Some v => encode_value out v | None => None end) decode_value) l xs.
Proof.
  induction 1 as [|[v|] l Hv Hl IH]; simpl; intros H; [exists []; by split| |done].
  apply andb_prop in H as [Hv' Hl']. destruct (IH Hl') as (xs & -> & Hxs). exists (v :: xs). split; [done|].
  constructor; [exact (Hv Hv')|done].
Qed.

Lemma entries_written m :
  Forall (fun e => opt_all (fun v => codec_ok v = true -> written encode_value decode_value v v) e.2) m ->
  forallb (fun e => fits (len e.1) && match e.2 with Some a => codec_ok a | None => false end) m = true ->
  exists xs, m = mmap Some xs /\ Forall2 (written encode_attribute (fun n => read_entry (decode_value n))) m xs.
Proof.
  induction 1 as [|[k [v|]] m Hv Hm IH]; simpl; intros H; [exists []; by split| |bool_hyps; done].
  bool_hyps. destruct IH as (xs & -> & Hxs); [done|]. exists ((k, v) :: xs). split; [done|].
  constructor; [apply written_entry; auto|done].
Qed.

Lemma value_written v : codec_ok v = true -> written encode_value decode_value v v.
Proof.
  induction v as [s|s|s|b| |m Hm|l Hl|vs|vs|vs] using av_ind; simpl; intros Hok; bool_hyps;
    try solve_sized; try solve_set.
  - eapply (written_tagged (AV_BOOL b) [if b then Byte.x01 else Byte.x00] _ eq_refl); [simpl; lia|done|].
    intros n r _. by destruct b.
  - eapply (written_tagged AV_NUL [] _ eq_refl); [simpl; lia|intros; simpl; by rewrite app_nil_r|done].
  - destruct (entries_written m Hm) as (xs & -> & Hxs); [done|].
    destruct (write_counted _ _ map_store [] _ _ (fun n => read_entry_ok _ (decode_value_ok n)) Hxs) as (e & Hw & Hr); [done|].
    eapply (written_tagged (AV_M _) e _ eq_refl); [simpl; lia|intros; exact (Hw _)|].
    intros n r Hn. unfold branch. simpl type_tag. cbv iota beta. rewrite (Hr n r Hn), fold_map_store; [done|].
    by apply msortedb_sound.
  - destruct (ptrs_written l Hl) as (xs & -> & Hxs); [done|].
    destruct (write_counted _ _ (fun l v => push_back l (Some v)) [] _ _ decode_value_ok Hxs) as (e & Hw & Hr); [done|].
    eapply (written_tagged (AV_L _) e _ eq_refl); [simpl; lia|intros; exact (Hw _)|].
    intros n r Hn. unfold branch. simpl type_tag. cbv iota beta. by rewrite (Hr n r Hn), fold_push_ptr.
Qed.

Lemma item_written attrs :
  codec_item_ok attrs = true ->
  exists e, encode_attributes attrs = Some e /\
    forall n, (length e < n)%nat ->
      read_counted (read_entry (decode_value n)) map_store [] e = Some (attrs, []).
Proof.
  unfold codec_item_ok. simpl. intros Hok. bool_hyps.
  destruct (entries_written attrs) as (xs & -> & Hxs); [|done|].
  { apply Forall_forall. intros [k [v|]] _; simpl; [apply value_written|done]. }
  destruct (write_counted _ _ map_store [] _ _ (fun n => read_entry_ok _ (decode_value_ok n)) Hxs) as (e & Hw & Hr); [done|].
  exists e. split; [exact (Hw [])|]. intros n Hn. specialize (Hr n []). rewrite app_nil_r in Hr.
  rewrite Hr by done. rewrite fold_map_store; [done|]. by apply msortedb_sound.
Qed.

(** A strict prefix of an encoding is rejected. *)
Lemma truncated_rejected attrs e n :
  codec_item_ok attrs = true -> encode_attributes attrs = Some e -> (n < length e)%nat ->
  decode_attributes (take n e) = None.
Proof.
  intros Hok He Hn. destruct (item_written attrs Hok) as (e' & He' & Hr). rewrite He in He'. injection He' as <-.
  unfold decode_attributes. set (d := take n e).
  assert (Hd : e = d ++ drop n e) by (symmetry; apply take_drop).
  assert (Hld : (length d <= length e)%nat) by (unfold d; rewrite length_take; lia).
  rewrite (read_counted_ext _ (read_entry (decode_value (S (length e))))).
  2:{ apply read_entry_ok, decode_value_ok. }
  2:{ intros r Hr'. apply read_entry_ext. intros. apply decode_fuel_enough; lia. }
  destruct (read_counted _ _ _ d) as [[attrs' r]|] eqn:E; [|done]. exfalso.
  apply (rd_local _ (read_counted_ok _ _ _ (read_entry_ok _ (decode_value_ok _))) _ _ _ (drop n e)) in E.
  rewrite <- Hd, Hr in E by lia. injection E as _ E. symmetry in E. apply app_eq_nil in E as [_ E].
  apply (f_equal length) in E. rewrite length_drop in E. simpl in E. lia.
Qed.

(** ** Accepted items can be stored *)

(** What the type of the item guarantees beyond the validator's checks: maps are
    sorted, and no pointer is null (the JSON reader creates every child). *)
Fixpoint shape_ok (v : AttributeValue) : bool :=
  match v with
  | AV_M m => msortedb m && forallb (fun e => match e.2 with Some a => shape_ok a | None => false end) m
  | AV_L l => forallb (fun v => match v with Some a => shape_ok a | None => false end) l
  | _ => true
  end.

Definition total_len (l : list bytes) : Z := fold_right (fun s acc => len s + acc) 0 l.

(** Distinct strings: at most one is empty. *)
Lemma nodup_count l : NoDup l -> len l <= 1 + total_len l /\ Forall (fun s => len s <= total_len l) l.
Proof.
  intros Hnd. split.
  - assert (H : forall l, NoDup l -> ([] ∈ l -> len l <= 1 + total_len l) /\ ([] ∉ l -> len l <= total_len l)).
    { clear. induction 1 as [|s l Hs Hl [IH1 IH2]]; [split; [intros H; inv H|unfold len; simpl; lia]|].
      rewrite len_cons. simpl. destruct s as [|b s].
      - specialize (IH2 Hs). rewrite len_nil. split; [lia|]. intros H. exfalso. apply H. by left.
      - rewrite len_cons. pose proof (len_nonneg s).
        split; intros H'.
        + rewrite elem_of_cons in H'. destruct H' as [H'|H']; [done|]. specialize (IH1 H'). lia.
        + rewrite elem_of_cons in H'. assert ([] ∉ l) as Hn by tauto. specialize (IH2 Hn). lia. }
    destruct (H l Hnd) as [H1 H2]. destruct (decide ([] ∈ l)) as [Hi|Hi]; [auto|]. specialize (H2 Hi). lia.
  - clear Hnd. induction l as [|s l IH]; constructor; simpl.
    + assert (0 <= total_len l); [|lia]. clear. induction l as [|x l IH]; simpl; [lia|]. pose proof (len_nonneg x). lia.
    + pose proof (len_nonneg s). eapply Forall_impl; [exact IH|]. simpl. lia.
Qed.

Lemma set_fits check l : set_ok check l -> 3 + total_len l <= kMaxItemSizeBytes ->
  fits (len l) && forallb (fun s => fits (len s)) l = true.
Proof.
  intros (_ & Hnd & _) Hsz. destruct (nodup_count l Hnd) as [Hc Hf]. unfold fits, kMaxItemSizeBytes in *.
  apply andb_true_intro. split; [apply Z.ltb_lt; lia|]. apply forallb_forall. intros s Hs.
  rewrite Forall_forall in Hf. apply list_elem_of_In in Hs. apply Hf in Hs. simpl in Hs. apply Z.ltb_lt. lia.
Qed.

Lemma accepted_codec_ok v : forall d, value_ok d v -> shape_ok v = true -> exact_size v <= kMaxItemSizeBytes -> codec_ok v = true.
Proof.
  induction v as [s|s|s|b| |m Hm|l Hl|vs|vs|vs] using av_ind; intros d Hv Hsh Hsz;
    inv Hv; cbn [codec_ok exact_size] in *;
    try (unfold fits, kMaxItemSizeBytes in *; apply Z.ltb_lt; lia); try done; try (by eapply set_fits).
  - simpl in Hsh. apply andb_prop in Hsh as [Hso Hsh]. rewrite Hso, andb_true_r.
    assert (Hgo : len m <= fold_right (fun e acc => len e.1 + from_option exact_size 0 e.2 + 1 + acc) 0 m /\
      forallb (fun e => fits (len e.1) && match e.2 with Some a => codec_ok a | None => false end) m = true).
    { clear Hso. induction Hm as [|[k v] m Hv Hm IH]; simpl in *; [split; [unfold len; simpl; lia|done]|].
      apply Forall_cons in H1 as [(_ & Hk & Hva) H1]. simpl in *. apply andb_prop in Hsh as [Hsv Hsh].
      pose proof (len_nonneg k). pose proof (exact_opt_nonneg v).
      assert (0 <= fold_right (fun e acc => len e.1 + from_option exact_size 0 e.2 + 1 + acc) 0 m).
      { clear. induction m as [|[k v] m IH]; simpl; [lia|]. pose proof (len_nonneg k). pose proof (exact_opt_nonneg v). lia. }
      destruct IH as [IH1 IH2]; [first [done | unfold kMaxItemSizeBytes in *; lia] .. |]. rewrite len_cons, IH2, andb_true_r. split; [lia|].
      apply andb_true_intro. split; [unfold fits, kMaxAttributeNameBytes in *; apply Z.ltb_lt; lia|].
      destruct v as [v|]; [|done]. simpl in *. eapply Hv; [by apply Hva|done|unfold kMaxItemSizeBytes in *; lia]. }
    destruct Hgo as [Hc ->]. rewrite andb_true_r. unfold fits, kMaxItemSizeBytes in *. apply Z.ltb_lt. lia.
  - simpl in Hsh.
    assert (Hgo : len l <= fold_right (fun v acc => from_option exact_size 0 v + 1 + acc) 0 l /\
      forallb (fun v => match v with Some a => codec_ok a | None => false end) l = true).
    { induction Hl as [|v l Hv Hl IH]; simpl in *; [split; [unfold len; simpl; lia|done]|].
      apply Forall_cons in H1 as [(_ & Hva) H1]. apply andb_prop in Hsh as [Hsv Hsh].
      pose proof (exact_opt_nonneg v).
      assert (0 <= fold_right (fun v acc => from_option exact_size 0 v + 1 + acc) 0 l).
      { clear. induction l as [|v l IH]; simpl; [lia|]. pose proof (exact_opt_nonneg v). lia. }
      destruct IH as [IH1 IH2]; [first [done | unfold kMaxItemSizeBytes in *; lia] .. |]. rewrite len_cons, IH2, andb_true_r. split; [lia|].
      destruct v as [v|]; [|done]. simpl in *. eapply Hv; [by apply Hva|done|unfold kMaxItemSizeBytes in *; lia]. }
    destruct Hgo as [Hc ->]. rewrite andb_true_r. unfold fits, kMaxItemSizeBytes in *. apply Z.ltb_lt. lia.
Qed.

Lemma accepted_item_codec_ok item def :
  validate_item_standard item def = Ok tt -> shape_ok (AV_M item) = true -> codec_item_ok item = true.
Proof.
  intros [Hsz Hat _]%validate_item_ok Hsh. unfold codec_item_ok. simpl in *. apply andb_prop in Hsh as [Hso Hsh].
  rewrite Hso, andb_true_r.
  assert (Hc : len item <= 1 + exact_item_size item).
  { assert (Hnd : NoDup (mkeys item)).
    { apply msortedb_sound in Hso. clear -Hso. induction Hso as [|k v m Ha Hs IH]; constructor; [|done].
      intros ([k' v'] & Hk & Hin%list_elem_of_In)%list_elem_of_In%in_map_iff. unfold above in Ha. rewrite Forall_forall in Ha.
      simpl in Hk. subst k'. apply Ha in Hin. by apply (kcmp_Lt_irrefl (K:=bytes)) in Hin. }
    destruct (nodup_count _ Hnd) as [H _]. unfold mkeys, len in H. rewrite length_map in H.
    assert (total_len (map fst item) <= exact_item_size item); [|unfold len; lia].
    clear. induction item as [|[k v] item IH]; simpl; [lia|]. unfold exact_item_size in *. simpl.
    pose proof (exact_opt_nonneg v). lia. }
  apply andb_true_intro. split; [unfold fits, kMaxItemSizeBytes in *; apply Z.ltb_lt; lia|].
  clear Hc Hso. induction item as [|[k v] item IH]; simpl in *; [done|]. unfold exact_item_size in *. simpl in Hsz.
  apply Forall_cons in Hat as [[Hk Hv] Hat]. apply andb_prop in Hsh as [Hsv Hsh]. simpl in *.
  pose proof (len_nonneg k). pose proof (exact_opt_nonneg v).
  assert (0 <= fold_right (fun e acc => len e.1 + from_option exact_size 0 e.2 + acc) 0 item).
  { clear. induction item as [|[k v] item IH]; simpl; [lia|]. pose proof (len_nonneg k). pose proof (exact_opt_nonneg v). lia. }
  rewrite IH by (first [done | unfold kMaxItemSizeBytes in *; lia]). rewrite andb_true_r. apply andb_true_intro.
  split; [unfold fits, kMaxAttributeNameBytes in *; apply Z.ltb_lt; lia|]. destruct v as [v|]; [|done]. simpl in *.
  eapply accepted_codec_ok; [by apply Hv|done|unfold kMaxItemSizeBytes in *; lia].
Qed.

(** ** Properties *)

(** Every item the validator accepts survives storage: the encoder never
    dereferences a null pointer, and decoding its output gives the item back,
    every attribute type, nesting and set order included. *)
Theorem accepted_item_roundtrip item def :
  validate_item_standard item def = Ok tt -> shape_ok (AV_M item) = true ->
  exists e, encode_attributes item = Some e /\ decode_attributes e = Some item.
Proof.
  intros Hv Hs. destruct (item_written item) as (e & He & Hr); [by eapply accepted_item_codec_ok|].
  exists e. split; [done|]. unfold decode_attributes. by rewrite Hr by lia.
Qed.

(** A record cut short anywhere is rejected as corrupt, never decoded into a
    smaller item. *)
Theorem truncated_record_rejected attrs e n :
  codec_item_ok attrs = true -> encode_attributes attrs = Some e -> (n < length e)%nat ->
  decode_attributes (take n e) = None.
Proof. apply truncated_rejected. Qed.

Definition demo_nested_item : AttributeMap :=
  [ (lit "bs", Some (AV_BS [lit "x"; []]));
    (lit "m", Some (AV_M [(lit "a", Some (AV_L [Some (AV_BOOL true); Some AV_NUL])); (lit "b", Some (AV_N (lit "-1.5e3")))]));
    (lit "pk", Some (AV_S (lit "a"))); (lit "sk", Some (AV_N (lit "7"))) ].

Lemma accepted_item_roundtrip_witness :
  exists e, encode_attributes demo_nested_item = Some e /\ decode_attributes e = Some demo_nested_item.
Proof. apply (accepted_item_roundtrip demo_nested_item demo_schema); vm_compute; reflexivity. Defined.

Lemma truncated_record_rejected_witness :
  exists e, encode_attributes demo_nested_item = Some e /\ decode_attributes (take 40 e) = None.
Proof.
  eexists. split; [vm_compute; reflexivity|].
  eapply (truncated_record_rejected demo_nested_item); [vm_compute; reflexivity..|simpl; lia].
Defined.
