(* ===== verification/Crc32.v ===== *)
(** * CRC-32C

    [include/cynamodb/utils/crc32.hpp]: the table-driven Castagnoli checksum of
    the write-ahead log.  The table is computed by the source's own generator;
    the facts are that the table-driven update is the bit-serial one, that a
    checksum can be extended piecewise, and that a changed octet always changes
    the checksum. *)

From Stdlib Require Import ZArith Lia Strings.String.
From stdpp Require Import prelude.
From S2P Require Import Prelude.

Definition kCrcPoly : Z := 0x82F63B78.

(** One turn of the generator's loop. *)
Definition crc_step (crc : Z) : Z := Z.lxor (Z.shiftr crc 1) (Z.land kCrcPoly (u32 (0 - Z.land crc 1))).

Definition crc32c_entry (index : Z) : Z := Nat.iter 8 crc_step index.

Definition make_crc32c_table : list Z := map (fun i => crc32c_entry (Z.of_nat i)) (seq 0 256).

Definition kCrc32cTable : list Z := Eval vm_compute in make_crc32c_table.

Definition crc_update (crc : Z) (b : byte) : Z :=
  Z.lxor (nth (Z.to_nat (Z.land (Z.lxor crc (bval b)) 0xFF)) kCrc32cTable 0) (Z.shiftr crc 8).

(** [~crc] on [uint32_t]. *)
Definition not32 (crc : Z) : Z := Z.lxor crc (2 ^ 32 - 1).

Definition crc32c_extend (crc : Z) (data : bytes) : Z := not32 (fold_left crc_update data (not32 crc)).

Definition crc32c (data : bytes) : Z := crc32c_extend 0 data.

(** The reference: the polynomial division one bit at a time. *)
Definition crc_update_bits (crc : Z) (b : byte) : Z := Nat.iter 8 crc_step (Z.lxor crc (bval b)).
Definition crc_bitwise (data : bytes) : Z := not32 (fold_left crc_update_bits data (not32 0)).

(** ** Bounds *)

Lemma lxor_bound n a b : 0 <= n -> 0 <= a < 2 ^ n -> 0 <= b < 2 ^ n -> 0 <= Z.lxor a b < 2 ^ n.
Proof.
  intros Hn Ha Hb. assert (E : Z.lxor a b = Z.lxor a b mod 2 ^ n).
  { rewrite <- (Z.mod_small a (2 ^ n)), <- (Z.mod_small b (2 ^ n)) at 1 by lia.
    rewrite <- !Z.land_ones by lia. apply Z.bits_inj'. intros i Hi. rewrite Z.lxor_spec, !Z.land_spec, Z.lxor_spec.
    by destruct (Z.testbit (Z.ones n) i), (Z.testbit a i), (Z.testbit b i). }
  rewrite E. apply Z.mod_pos_bound. lia.
Qed.

Lemma crc_table_entry i : 0 <= i < 256 -> nth (Z.to_nat i) kCrc32cTable 0 = crc32c_entry i.
Proof.
  intros Hi. change kCrc32cTable with make_crc32c_table. unfold make_crc32c_table.
  rewrite (nth_indep _ 0 (crc32c_entry (Z.of_nat 0))) by (rewrite length_map, length_seq; lia).
  rewrite (map_nth (fun i => crc32c_entry (Z.of_nat i))), seq_nth by lia. f_equal. lia.
Qed.

Lemma table_bound i : 0 <= i < 256 -> 0 <= nth (Z.to_nat i) kCrc32cTable 0 < 2 ^ 32.
Proof.
  intros Hi. assert (H : forallb (fun x => (0 <=? x) && (x <? 2 ^ 32)) kCrc32cTable = true) by (vm_compute; reflexivity).
  rewrite forallb_forall in H. specialize (H (nth (Z.to_nat i) kCrc32cTable 0)).
  assert (Hin : In (nth (Z.to_nat i) kCrc32cTable 0) kCrc32cTable).
  { apply nth_In. change (length kCrc32cTable) with 256%nat. lia. }
  specialize (H Hin). bool_hyps. lia.
Qed.

Lemma land_ff z : Z.land z 0xFF = z mod 256.
Proof. change 0xFF with (Z.ones 8). rewrite Z.land_ones by lia. done. Qed.

Lemma index_bound crc b : 0 <= Z.land (Z.lxor crc (bval b)) 0xFF < 256.
Proof. rewrite land_ff. apply Z.mod_pos_bound. lia. Qed.

Lemma shiftr8_bound crc : 0 <= crc < 2 ^ 32 -> 0 <= Z.shiftr crc 8 < 2 ^ 24.
Proof.
  intros H. rewrite Z.shiftr_div_pow2 by lia. split; [apply Z.div_pos; lia|]. apply Z.div_lt_upper_bound; lia.
Qed.

Lemma crc_update_bound crc b : 0 <= crc < 2 ^ 32 -> 0 <= crc_update crc b < 2 ^ 32.
Proof.
  intros H. apply lxor_bound; [lia|apply table_bound, index_bound|]. pose proof (shiftr8_bound crc H). lia.
Qed.

Lemma not32_bound crc : 0 <= crc < 2 ^ 32 -> 0 <= not32 crc < 2 ^ 32.
Proof. intros. apply lxor_bound; lia. Qed.

Lemma not32_not32 crc : not32 (not32 crc) = crc.
Proof. unfold not32. by rewrite Z.lxor_assoc, Z.lxor_nilpotent, Z.lxor_0_r. Qed.

Lemma not32_inj a b : not32 a = not32 b -> a = b.
Proof. intros H. rewrite <- (not32_not32 a), H. apply not32_not32. Qed.

Lemma crc_fold_bound data crc : 0 <= crc < 2 ^ 32 -> 0 <= fold_left crc_update data crc < 2 ^ 32.
Proof. revert crc. induction data as [|b data IH]; intros crc H; simpl; [done|]. by apply IH, crc_update_bound. Qed.

Lemma crc32c_extend_bound crc data : 0 <= crc < 2 ^ 32 -> 0 <= crc32c_extend crc data < 2 ^ 32.
Proof. intros. by apply not32_bound, crc_fold_bound, not32_bound. Qed.

Lemma crc32c_extend_app crc a b : crc32c_extend crc (a ++ b) = crc32c_extend (crc32c_extend crc a) b.
Proof. unfold crc32c_extend. by rewrite not32_not32, fold_left_app. Qed.

(** ** The update is a permutation in each argument *)

(** The top octets of the table entries are pairwise distinct. *)
Definition tops : list Z := map (fun x => Z.shiftr x 24) kCrc32cTable.

Lemma tops_nodup : NoDup tops.
Proof. by_eval. Qed.

Lemma top_inj i j : 0 <= i < 256 -> 0 <= j < 256 ->
  Z.shiftr (nth (Z.to_nat i) kCrc32cTable 0) 24 = Z.shiftr (nth (Z.to_nat j) kCrc32cTable 0) 24 -> i = j.
Proof.
  intros Hi Hj H. pose proof tops_nodup as Hnd. rewrite NoDup_ListNoDup in Hnd.
  assert (Hn : forall k, nth k tops 0 = Z.shiftr (nth k kCrc32cTable 0) 24).
  { intros k. unfold tops. change 0 with (Z.shiftr 0 24) at 1. apply (map_nth (fun x => Z.shiftr x 24)). }
  rewrite <- !Hn in H. eapply (proj1 (NoDup_nth tops 0)) in H; [lia|done|..]; change (length tops) with 256%nat; lia.
Qed.

Lemma crc_update_top crc b : 0 <= crc < 2 ^ 32 ->
  Z.shiftr (crc_update crc b) 24 = Z.shiftr (nth (Z.to_nat (Z.land (Z.lxor crc (bval b)) 0xFF)) kCrc32cTable 0) 24.
Proof.
  intros H. unfold crc_update. rewrite Z.shiftr_lxor.
  pose proof (shiftr8_bound crc H). rewrite (Z.shiftr_div_pow2 (Z.shiftr crc 8)) by lia.
  rewrite (Z.div_small (Z.shiftr crc 8)) by lia. apply Z.lxor_0_r.
Qed.

Lemma lxor_cancel_l a b c : Z.lxor a b = Z.lxor a c -> b = c.
Proof.
  intros H. rewrite <- (Z.lxor_0_l b), <- (Z.lxor_0_l c), <- (Z.lxor_nilpotent a), !Z.lxor_assoc. congruence.
Qed.

Lemma low_octet_lxor a b : 0 <= b < 256 -> Z.land (Z.lxor a b) 0xFF = Z.lxor (a mod 256) b.
Proof.
  intros Hb. rewrite land_ff. change 256 with (2 ^ 8). rewrite <- !Z.land_ones by lia.
  rewrite <- (Z.mod_small b (2 ^ 8)) at 2 by lia. rewrite <- Z.land_ones by lia.
  apply Z.bits_inj'. intros n Hn. rewrite !Z.land_spec, !Z.lxor_spec, !Z.land_spec.
  by destruct (Z.testbit (Z.ones 8) n), (Z.testbit a n), (Z.testbit b n).
Qed.

Lemma crc_update_inj c1 c2 b1 b2 :
  0 <= c1 < 2 ^ 32 -> 0 <= c2 < 2 ^ 32 -> crc_update c1 b1 = crc_update c2 b2 ->
  Z.shiftr c1 8 = Z.shiftr c2 8 /\ Z.lxor (c1 mod 256) (bval b1) = Z.lxor (c2 mod 256) (bval b2).
Proof.
  intros H1 H2 H. pose proof (f_equal (fun x => Z.shiftr x 24) H) as Ht. simpl in Ht. rewrite !crc_update_top in Ht by done.
  apply top_inj in Ht; [|apply index_bound..]. split.
  - unfold crc_update in H. rewrite Ht in H. by apply lxor_cancel_l in H.
  - by rewrite !low_octet_lxor in Ht by apply bval_bound.
Qed.

Lemma crc_update_inj_crc c1 c2 b : 0 <= c1 < 2 ^ 32 -> 0 <= c2 < 2 ^ 32 -> crc_update c1 b = crc_update c2 b -> c1 = c2.
Proof.
  intros H1 H2 H. apply crc_update_inj in H as [Hh Hl]; [|done..].
  rewrite !(Z.lxor_comm _ (bval b)) in Hl. apply lxor_cancel_l in Hl.
  rewrite !Z.shiftr_div_pow2 in Hh by lia. change (2 ^ 8) with 256 in Hh.
  rewrite (Z.div_mod c1 256), (Z.div_mod c2 256) by lia. congruence.
Qed.

Lemma crc_update_inj_byte c b1 b2 : 0 <= c < 2 ^ 32 -> crc_update c b1 = crc_update c b2 -> b1 = b2.
Proof. intros H1 H. apply crc_update_inj in H as [_ Hl]; [|done..]. by apply lxor_cancel_l, bval_inj in Hl. Qed.

Lemma crc_fold_inj data c1 c2 : 0 <= c1 < 2 ^ 32 -> 0 <= c2 < 2 ^ 32 ->
  fold_left crc_update data c1 = fold_left crc_update data c2 -> c1 = c2.
Proof.
  revert c1 c2. induction data as [|b data IH]; intros c1 c2 H1 H2 H; simpl in *; [done|].
  apply IH in H; [|by apply crc_update_bound..]. by apply crc_update_inj_crc in H.
Qed.

(** One changed octet changes the checksum. *)
Lemma crc32c_octet_changed crc a b1 b2 c :
  0 <= crc < 2 ^ 32 -> b1 <> b2 -> crc32c_extend crc (a ++ b1 :: c) <> crc32c_extend crc (a ++ b2 :: c).
Proof.
  intros Hc Hb H. apply not32_inj in H. rewrite !fold_left_app in H. simpl in H.
  pose proof (crc_fold_bound a (not32 crc) (not32_bound _ Hc)) as Ha.
  apply crc_fold_inj in H; [|by apply crc_update_bound..]. by apply crc_update_inj_byte in H.
Qed.

(** ** Table-driven and bit-serial updates agree *)

Lemma crc_step_eq x : crc_step x = Z.lxor (Z.shiftr x 1) (if Z.odd x then kCrcPoly else 0).
Proof.
  unfold crc_step. f_equal. change 1 with (Z.ones 1) at 1. rewrite Z.land_ones by lia. change (2 ^ 1) with 2.
  rewrite Zmod_odd. destruct (Z.odd x); vm_compute; reflexivity.
Qed.

Lemma crc_step_lxor x y : crc_step (Z.lxor x y) = Z.lxor (crc_step x) (crc_step y).
Proof.
  rewrite !crc_step_eq, Z.shiftr_lxor, <- !Z.bit0_odd, Z.lxor_spec.
  apply Z.bits_inj'. intros n Hn. rewrite !Z.lxor_spec.
  destruct (Z.testbit x 0), (Z.testbit y 0); simpl; rewrite ?Z.bits_0;
    destruct (Z.testbit (Z.shiftr x 1) n), (Z.testbit (Z.shiftr y 1) n), (Z.testbit kCrcPoly n); reflexivity.
Qed.

Lemma crc_steps_lxor k x y : Nat.iter k crc_step (Z.lxor x y) = Z.lxor (Nat.iter k crc_step x) (Nat.iter k crc_step y).
Proof. induction k as [|k IH]; simpl; [done|]. by rewrite IH, crc_step_lxor. Qed.

(** Shifting out zero bits. *)
Lemma crc_steps_shift k h : Nat.iter k crc_step (Z.shiftl h (Z.of_nat k)) = h.
Proof.
  revert h. induction k as [|k IH]; intros h; [by rewrite Z.shiftl_0_r|].
  rewrite Nat.iter_succ_r.
  assert (E : crc_step (Z.shiftl h (Z.of_nat (S k))) = Z.shiftl h (Z.of_nat k)).
  { rewrite crc_step_eq, <- Z.bit0_odd, Z.shiftl_spec_low by lia. rewrite Z.lxor_0_r.
    rewrite Z.shiftr_shiftl_l by lia. f_equal. lia. }
  by rewrite E.
Qed.

Lemma split_low8 x : x = Z.lxor (Z.land x 0xFF) (Z.shiftl (Z.shiftr x 8) (Z.of_nat 8)).
Proof.
  apply Z.bits_inj'. intros n Hn. rewrite Z.lxor_spec, Z.land_spec. change 0xFF with (Z.ones 8).
  rewrite Z.testbit_ones_nonneg by lia. change (Z.of_nat 8) with 8.
  destruct (Z.ltb_spec n 8).
  - rewrite Z.shiftl_spec_low by lia. by rewrite andb_true_r, xorb_false_r.
  - rewrite Z.shiftl_spec, Z.shiftr_spec by lia. rewrite andb_false_r, xorb_false_l. f_equal. lia.
Qed.

Lemma crc_update_bitwise crc b :
  crc_update crc b = crc_update_bits crc b.
Proof.
  unfold crc_update_bits.
  set (x := Z.lxor crc (bval b)). unfold crc_update. fold x. rewrite crc_table_entry by apply index_bound.
  rewrite (split_low8 x) at 2. rewrite crc_steps_lxor, crc_steps_shift. unfold crc32c_entry. f_equal.
  unfold x. rewrite Z.shiftr_lxor. pose proof (bval_bound b).
  rewrite (Z.shiftr_div_pow2 (bval b)), (Z.div_small (bval b)) by lia. by rewrite Z.lxor_0_r.
Qed.

Lemma crc_fold_bitwise d c : fold_left crc_update d c = fold_left crc_update_bits d c.
Proof.
  assert (Hf : forall f g : Z -> byte -> Z, (forall c b, f c b = g c b) -> fold_left f d c = fold_left g d c).
  { intros f g Hfg. revert c. induction d as [|b d IH]; intros c; simpl; [done|]. rewrite Hfg. apply IH. }
  apply Hf, crc_update_bitwise.
Qed.

(** ** Properties *)

(** The table-driven CRC computes the bit-serial CRC-32C of every buffer,
    and extending a checksum by a second buffer gives the checksum of the
    concatenation, which is how the log checksums header, key and value. *)
Theorem crc32c_bitwise_and_incremental data1 data2 :
  crc32c (data1 ++ data2) = crc_bitwise (data1 ++ data2) /\
  crc32c_extend (crc32c data1) data2 = crc32c (data1 ++ data2).
Proof.
  split; [|unfold crc32c; by rewrite crc32c_extend_app].
  unfold crc32c, crc32c_extend, crc_bitwise. by rewrite crc_fold_bitwise.
Qed.

(** The standard check value. *)
Example crc32c_check_value : crc32c (lit "123456789") = 0xE3069283.
Proof. vm_compute. reflexivity. Qed.
