(* ===== verification/Wal.v ===== *)
(** * The write-ahead log

    [src/engine/lsm/wal.cpp].  A log file is a byte string: an 8-octet header
    followed by records.  [Log] is the object behind [WriteAheadLog]: the stream
    contents with its open and fail flags and the group-commit counters.  The
    first part models the operations and replay as functions; the second models
    group commit as a step relation on threads, since [commit] runs without the
    engine lock and interleaves with appends and other commits. *)

From Stdlib Require Import ZArith Lia Strings.String.
From stdpp Require Import prelude.
From S2P Require Import Prelude Crc32.

(** ** Layout *)

Definition kMagicNumber : Z := 0x43595741.
Definition kVersion : Z := 2.

(** The octets of a default-constructed [WALHeader]. *)
Definition wal_header : bytes := le_bytes 4 kMagicNumber ++ le_bytes 2 kVersion ++ le_bytes 2 0.

(** The first sixteen octets of a [WALRecord]: the part the checksum covers. *)
Definition record_head (seq : Z) (key value : bytes) : bytes :=
  le_bytes 8 (u64 seq) ++ le_bytes 4 (u32 (len key)) ++ le_bytes 4 (u32 (len value)).

Definition record_crc (head key value : bytes) : Z :=
  crc32c_extend (crc32c_extend (crc32c head) key) value.

(** [sizeof(WALRecord)] is 24: the struct ends in four octets of padding, whose
    contents are unspecified; [pad] is what the writer's stack held. *)
Definition record_bytes (pad : bytes) (seq : Z) (key value : bytes) : bytes :=
  let head := record_head seq key value in
  head ++ le_bytes 4 (record_crc head key value) ++ pad ++ key ++ value.

Record ReplayRecord := { rr_seq : Z; rr_key : bytes; rr_value : bytes }.

(** ** The log object *)

Record Log := {
  file_ : bytes;
  is_open : bool;
  good : bool;
  appended_ : Z;
  synced_ : Z;
  fsync_each_ : bool
}.

Definition with_file (l : Log) (f : bytes) : Log :=
  {| file_ := f; is_open := is_open l; good := good l; appended_ := appended_ l; synced_ := synced_ l;
     fsync_each_ := fsync_each_ l |}.

(** A short read leaves the rest of the default-initialised header in place and
    sets the fail bit; the comparison is made all the same. *)
Definition verify_header (content : bytes) : bool :=
  let header := take 8 content ++ drop (length content) wal_header in
  (le_value (take 4 header) =? kMagicNumber) && (le_value (take 2 (drop 4 header)) =? kVersion).

Definition open_log (existing : option bytes) (fsync_each : bool) : Log :=
  match existing with
  | None =>
      {| file_ := wal_header; is_open := true; good := true; appended_ := 0; synced_ := 0; fsync_each_ := fsync_each |}
  | Some content =>
      {| file_ := content; is_open := verify_header content; good := (8 <=? length content)%nat;
         appended_ := 0; synced_ := 0; fsync_each_ := fsync_each |}
  end.

Definition write_record (pad : bytes) (l : Log) (seq : Z) (key value : bytes) : Log * bool :=
  if negb (is_open l) then (l, false)
  else if negb (good l) then (l, false)
  else (with_file l (file_ l ++ record_bytes pad seq key value), true).

Definition append_only (pad : bytes) (l : Log) (seq : Z) (key value : bytes) : Log * bool :=
  let '(l, ok) := write_record pad l seq key value in
  if negb ok then (l, false)
  else ({| file_ := file_ l; is_open := is_open l; good := good l; appended_ := u64 (appended_ l + 1);
           synced_ := synced_ l; fsync_each_ := fsync_each_ l |}, true).

(** [commit] when no other thread interferes. *)
Definition commit (l : Log) : Log * bool :=
  if negb (is_open l) then (l, false)
  else
    let needed := appended_ l in
    if needed <=? synced_ l then (l, true)
    else
      let target := appended_ l in
      ({| file_ := file_ l; is_open := is_open l; good := good l; appended_ := appended_ l;
          synced_ := if synced_ l <? target then target else synced_ l; fsync_each_ := fsync_each_ l |}, good l).

Definition append (pad : bytes) (l : Log) (seq : Z) (key value : bytes) : Log * bool :=
  let '(l, ok) := append_only pad l seq key value in
  if negb ok then (l, false) else commit l.

Definition sync (l : Log) : Log * bool := commit l.

Definition reset (l : Log) : Log * bool :=
  ({| file_ := wal_header; is_open := true; good := true; appended_ := appended_ l; synced_ := synced_ l;
      fsync_each_ := fsync_each_ l |}, true).

(** One iteration of the replay loop: the record at the front, or [None] where
    the loop breaks (short read or checksum mismatch). *)
Definition replay_one (d : bytes) : option (ReplayRecord * bytes) :=
  match read_n 24 d with
  | None => None
  | Some (rec, d) =>
      let head := take 16 rec in
      let key_size := le_value (take 4 (drop 8 rec)) in
      let val_size := le_value (take 4 (drop 12 rec)) in
      let checksum := le_value (take 4 (drop 16 rec)) in
      match read_n key_size d with
      | None => None
      | Some (key, d) =>
          match read_n val_size d with
          | None => None
          | Some (val, d) =>
              if record_crc head key val =? checksum
              then Some ({| rr_seq := le_value (take 8 rec); rr_key := key; rr_value := val |}, d)
              else None
          end
      end
  end.

(** Every record takes at least 24 octets, so the length of the file is enough
    fuel. *)
Fixpoint replay_loop (fuel : nat) (d : bytes) : list ReplayRecord :=
  match fuel with
  | O => []
  | S fuel' =>
      match replay_one d with
      | Some (r, d') => r :: replay_loop fuel' d'
      | None => []
      end
  end.

Definition replay (l : Log) : list ReplayRecord :=
  if negb (is_open l) then []
  else if negb (good l) then []
  else replay_loop (S (length (file_ l))) (drop 8 (file_ l)).

(** ** Replay of what was written *)

Definition record_ok (r : ReplayRecord) : Prop :=
  0 <= rr_seq r < 2 ^ 64 /\ len (rr_key r) < 2 ^ 32 /\ len (rr_value r) < 2 ^ 32.

(** A record of the log together with its padding. *)
Definition Entry : Type := ReplayRecord * bytes.
Definition entry_bytes (e : Entry) : bytes := record_bytes e.2 (rr_seq e.1) (rr_key e.1) (rr_value e.1).
Definition entry_ok (e : Entry) : Prop := record_ok e.1 /\ length e.2 = 4%nat.
Definition entries_bytes (es : list Entry) : bytes := concat (map entry_bytes es).

Lemma record_crc_bound head key value : 0 <= record_crc head key value < 2 ^ 32.
Proof. unfold record_crc, crc32c. repeat apply crc32c_extend_bound. lia. Qed.

Lemma record_head_length seq key value : length (record_head seq key value) = 16%nat.
Proof. unfold record_head. by rewrite !length_app, !le_bytes_length. Qed.

Lemma read_n_Some n d x r : read_n n d = Some (x, r) -> 0 <= n -> d = x ++ r /\ len x = n.
Proof.
  unfold read_n. destruct (Z.leb_spec n (len d)); [|done]. intros [= <- <-] Hn. split; [by rewrite take_drop|].
  unfold len in *. rewrite length_take. lia.
Qed.

Lemma read_n_None n d : len d < n -> read_n n d = None.
Proof. intros. unfold read_n. destruct (Z.leb_spec n (len d)); [lia|done]. Qed.

Lemma read_n_app_len n x r : len x = n -> read_n n (x ++ r) = Some (x, r).
Proof. intros <-. apply read_n_app. Qed.

(** The fields of the fixed part of a record. *)
Lemma fixed_part_fields a b c s p :
  length p = 4%nat -> 0 <= a < 2 ^ 64 -> 0 <= b < 2 ^ 32 -> 0 <= c < 2 ^ 32 -> 0 <= s < 2 ^ 32 ->
  let h := le_bytes 8 a ++ le_bytes 4 b ++ le_bytes 4 c in
  let rec := h ++ le_bytes 4 s ++ p in
  len rec = 24 /\ take 16 rec = h /\ le_value (take 8 rec) = a /\ le_value (take 4 (drop 8 rec)) = b /\
  le_value (take 4 (drop 12 rec)) = c /\ le_value (take 4 (drop 16 rec)) = s.
Proof.
  intros Hp Ha Hb Hc Hs h rec. unfold rec, h.
  split; [unfold len; rewrite !length_app, !le_bytes_length, Hp; reflexivity|].
  split; [by rewrite take_app_length' by by rewrite !length_app, !le_bytes_length|].
  rewrite <- !app_assoc. split.
  { rewrite take_app_length' by by rewrite le_bytes_length. rewrite le_value_bytes. by apply Z.mod_small. }
  rewrite drop_app_length' by by rewrite le_bytes_length. split.
  { rewrite take_app_length' by by rewrite le_bytes_length. rewrite le_value_bytes. by apply Z.mod_small. }
  split.
  { rewrite (app_assoc (le_bytes 8 a)), drop_app_length' by by rewrite length_app, !le_bytes_length.
    rewrite take_app_length' by by rewrite le_bytes_length. rewrite le_value_bytes. by apply Z.mod_small. }
  rewrite (app_assoc (le_bytes 8 a)), (app_assoc (le_bytes 8 a ++ _)), drop_app_length' by by rewrite !length_app, !le_bytes_length.
  rewrite take_app_length' by by rewrite le_bytes_length. rewrite le_value_bytes. by apply Z.mod_small.
Qed.

Lemma entry_split e : entry_ok e ->
  let r := e.1 in let head := record_head (rr_seq r) (rr_key r) (rr_value r) in
  entry_bytes e = (head ++ le_bytes 4 (record_crc head (rr_key r) (rr_value r)) ++ e.2) ++ rr_key r ++ rr_value r.
Proof. intros _. unfold entry_bytes, record_bytes. by rewrite <- !app_assoc. Qed.

(** What replay sees of a record whose head, checksum and padding are intact. *)
Lemma replay_one_fixed e d :
  entry_ok e ->
  let r := e.1 in let head := record_head (rr_seq r) (rr_key r) (rr_value r) in
  let crc := record_crc head (rr_key r) (rr_value r) in
  replay_one ((head ++ le_bytes 4 crc ++ e.2) ++ d) =
  match read_n (len (rr_key r)) d with
  | None => None
  | Some (key, d) =>
      match read_n (len (rr_value r)) d with
      | None => None
      | Some (val, d) =>
          if record_crc head key val =? crc then Some ({| rr_seq := rr_seq r; rr_key := key; rr_value := val |}, d) else None
      end
  end.
Proof.
  intros [(Hs & Hk & Hv) Hp] r head crc. fold r in Hs, Hk, Hv.
  pose proof (len_nonneg (rr_key r)). pose proof (len_nonneg (rr_value r)).
  destruct (fixed_part_fields (u64 (rr_seq r)) (u32 (len (rr_key r))) (u32 (len (rr_value r))) crc e.2)
    as (H24 & H16 & Ea & Eb & Ec & Es); [done|unfold u64; apply Z.mod_pos_bound; lia|unfold u32; apply Z.mod_pos_bound; lia..|
      apply record_crc_bound|].
  fold (record_head (rr_seq r) (rr_key r) (rr_value r)) in H24, H16, Ea, Eb, Ec, Es. fold head in H24, H16, Ea, Eb, Ec, Es.
  unfold replay_one. rewrite read_n_app_len by done. rewrite H16, Ea, Eb, Ec, Es.
  unfold u32, u64. rewrite !Z.mod_small by lia. done.
Qed.

Lemma replay_one_entry e d : entry_ok e -> replay_one (entry_bytes e ++ d) = Some (e.1, d).
Proof.
  intros He. rewrite entry_split, <- app_assoc, replay_one_fixed by done. rewrite <- app_assoc, read_n_app, read_n_app.
  rewrite Z.eqb_refl. by destruct e as [[? ? ?] ?].
Qed.

Lemma entry_bytes_length e : entry_ok e -> (24 <= length (entry_bytes e))%nat.
Proof.
  intros [_ Hp]. unfold entry_bytes, record_bytes. rewrite !length_app, record_head_length, le_bytes_length, Hp. lia.
Qed.

Lemma replay_entries es d fuel :
  Forall entry_ok es -> (length es < fuel)%nat -> replay_one d = None ->
  replay_loop fuel (entries_bytes es ++ d) = map fst es.
Proof.
  intros Hes. revert fuel. induction Hes as [|e es He Hes IH]; intros fuel Hf Hd; (destruct fuel as [|fuel]; [simpl in Hf; lia|]).
  - simpl. by rewrite Hd.
  - unfold entries_bytes. cbn [map concat replay_loop]. rewrite <- app_assoc, replay_one_entry by done.
    simpl in Hf. f_equal. apply IH; [lia|done].
Qed.

Lemma entries_length es : Forall entry_ok es -> (length es <= length (entries_bytes es))%nat.
Proof.
  induction 1 as [|e es He Hes IH]; simpl; [done|]. unfold entries_bytes in *. cbn [map concat].
  rewrite length_app. pose proof (entry_bytes_length e He). lia.
Qed.

(** A strict prefix of a record is a short read. *)
Lemma replay_one_torn e n : entry_ok e -> (n < length (entry_bytes e))%nat -> replay_one (take n (entry_bytes e)) = None.
Proof.
  intros He Hn. pose proof He as [(_ & Hk & Hv) Hp]. pose proof (len_nonneg (rr_key e.1)). pose proof (len_nonneg (rr_value e.1)).
  rewrite entry_split in * by done. set (fixed := record_head _ _ _ ++ _ ++ _) in *.
  assert (Hf : length fixed = 24%nat) by (unfold fixed; rewrite !length_app, record_head_length, le_bytes_length, Hp; done).
  destruct (le_lt_dec 24 n) as [H24|H24].
  - rewrite length_app, Hf, length_app in Hn. rewrite take_app_ge by lia. rewrite Hf. subst fixed.
    rewrite replay_one_fixed by done. unfold len in *. destruct (le_lt_dec (length (rr_key e.1)) (n - 24)) as [Hkk|Hkk].
    + rewrite take_app_ge by lia. rewrite read_n_app_len by done.
      rewrite read_n_None; [done|]. unfold len. rewrite length_take. lia.
    + rewrite read_n_None; [done|]. unfold len. rewrite length_take. lia.
  - unfold replay_one. rewrite read_n_None; [done|]. unfold len. rewrite length_take. lia.
Qed.

Lemma wal_header_length : length wal_header = 8%nat.
Proof. reflexivity. Qed.

Lemma verify_header_ok rest : verify_header (wal_header ++ rest) = true.
Proof.
  unfold verify_header. cbv zeta. change (take 8 (wal_header ++ rest)) with wal_header.
  rewrite drop_ge by (rewrite length_app, wal_header_length; lia). by vm_compute.
Qed.

(** The records that lie entirely in the first [n] octets. *)
Fixpoint whole_entries (n : nat) (es : list Entry) : list Entry :=
  match es with
  | [] => []
  | e :: es' =>
      let k := length (entry_bytes e) in
      if (k <=? n)%nat then e :: whole_entries (n - k) es' else []
  end.

Lemma take_entries n es : Forall entry_ok es -> exists tail,
  take n (entries_bytes es) = entries_bytes (whole_entries n es) ++ tail /\ replay_one tail = None.
Proof.
  intros Hes. revert n. induction Hes as [|e es He Hes IH]; intros n; cbn [whole_entries].
  - exists []. unfold entries_bytes. cbn [map concat]. by rewrite take_nil.
  - unfold entries_bytes. cbn [map concat]. destruct (Nat.leb_spec (length (entry_bytes e)) n) as [Hle|Hlt].
    + destruct (IH (n - length (entry_bytes e))%nat) as (tail & E & Ht). exists tail. split; [|done].
      rewrite take_app_ge by done. unfold entries_bytes in E. cbn [map concat]. by rewrite E, app_assoc.
    + exists (take n (entry_bytes e)). split; [by rewrite take_app_le by lia|by apply replay_one_torn].
Qed.

Lemma whole_entries_ok n es : Forall entry_ok es -> Forall entry_ok (whole_entries n es).
Proof.
  intros H. revert n. induction H as [|e es He Hes IH]; intros n; cbn [whole_entries]; [constructor|].
  destruct (length (entry_bytes e) <=? n)%nat; constructor; auto.
Qed.

(** Replaying a file that is a valid log cut at any octet. *)
Lemma replay_cut es n b : Forall entry_ok es ->
  replay (open_log (Some (wal_header ++ take n (entries_bytes es))) b) = map fst (whole_entries n es).
Proof.
  intros Hes. unfold replay, open_log. cbn [is_open good file_]. rewrite verify_header_ok.
  replace (8 <=? length (wal_header ++ take n (entries_bytes es)))%nat with true by (rewrite length_app; reflexivity). cbn [negb].
  change (drop 8 (wal_header ++ take n (entries_bytes es))) with (take n (entries_bytes es)).
  destruct (take_entries n es Hes) as (tail & E & Ht). pose proof (whole_entries_ok n es Hes) as Hw.
  rewrite E. apply replay_entries; [done| |done]. pose proof (entries_length _ Hw) as Hl.
  rewrite !length_app. lia.
Qed.

(** Writing the entries one by one. *)
Fixpoint write_entries (l : Log) (es : list Entry) : Log :=
  match es with
  | [] => l
  | e :: es' => write_entries (append e.2 l (rr_seq e.1) (rr_key e.1) (rr_value e.1)).1 es'
  end.

Lemma append_open pad l seq key value :
  is_open l = true -> good l = true ->
  let l' := (append pad l seq key value).1 in
  is_open l' = true /\ good l' = true /\ file_ l' = file_ l ++ record_bytes pad seq key value /\
  (append pad l seq key value).2 = true.
Proof.
  intros Ho Hg. unfold append, append_only, write_record, commit. rewrite Ho, Hg. simpl. rewrite Ho. simpl.
  destruct (u64 (appended_ l + 1) <=? synced_ l); simpl; rewrite ?Ho, ?Hg; auto.
Qed.

Lemma write_entries_file es l :
  is_open l = true -> good l = true -> file_ (write_entries l es) = file_ l ++ entries_bytes es.
Proof.
  revert l. induction es as [|e es IH]; intros l Ho Hg; simpl; [by rewrite app_nil_r|].
  destruct (append_open e.2 l (rr_seq e.1) (rr_key e.1) (rr_value e.1) Ho Hg) as (Ho' & Hg' & Hf & _).
  rewrite IH by done. rewrite Hf. unfold entries_bytes, entry_bytes. cbn [map concat]. by rewrite app_assoc.
Qed.

(** ** Corruption *)

Lemma record_crc_concat head key value : record_crc head key value = crc32c (head ++ key ++ value).
Proof. unfold record_crc, crc32c. by rewrite !crc32c_extend_app. Qed.

(** A record of which one octet of the key or the value was changed. *)
Lemma replay_one_corrupt e a b1 b2 c rest :
  entry_ok e -> rr_key e.1 ++ rr_value e.1 = a ++ b1 :: c -> b1 <> b2 ->
  let head := record_head (rr_seq e.1) (rr_key e.1) (rr_value e.1) in
  replay_one ((head ++ le_bytes 4 (record_crc head (rr_key e.1) (rr_value e.1)) ++ e.2) ++ (a ++ b2 :: c) ++ rest) = None.
Proof.
  intros He Hp Hb head. unfold head. rewrite replay_one_fixed by done.
  destruct (read_n (len (rr_key e.1)) _) as [[key d1]|] eqn:E1; [|done].
  destruct (read_n (len (rr_value e.1)) d1) as [[val d2]|] eqn:E2; [|done].
  destruct (Z.eqb_spec (record_crc (record_head (rr_seq e.1) (rr_key e.1) (rr_value e.1)) key val)
    (record_crc (record_head (rr_seq e.1) (rr_key e.1) (rr_value e.1)) (rr_key e.1) (rr_value e.1))) as [Ec|]; [|done].
  exfalso. apply read_n_Some in E1 as [E1 L1]; [|apply len_nonneg]. apply read_n_Some in E2 as [-> L2]; [|apply len_nonneg].
  rewrite app_assoc in E1. apply app_inj_1 in E1 as [E1 _].
  2:{ apply (f_equal length) in Hp. rewrite !length_app in Hp |- *. simpl in *. unfold len in *. lia. }
  rewrite !record_crc_concat, Hp, <- E1, !app_assoc in Ec. unfold crc32c in Ec.
  by apply crc32c_octet_changed in Ec; [..|congruence]; [|lia].
Qed.

(** ** Group commit

    [append_only] runs under [mutex_]; [commit] reads [appended_] without a lock,
    then serialises on [sync_mutex_], and takes [mutex_] again only to flush.
    Each locked block is one step, and threads interleave between them.  The
    stream, the operating system and the device hold growing prefixes of the
    log; the latter two may also advance by themselves.  This is the
    configuration with [fsync_each_] (the default). *)

Inductive CommitPc :=
| Idle
| Written (n : nat)                    (** record number [n] (from 1) is in the stream *)
| Needs (n needed : nat)               (** [needed] loaded, [sync_mutex_] not yet held *)
| Holds (n needed : nat)               (** inside [sync_mutex_] *)
| Flushed (n target : nat)             (** flushed up to [target], before [fdatasync] *)
| Synced (n target : nat)              (** after [fdatasync] *)
| Acked (n : nat).                     (** [commit] returned true *)

Record GroupState := {
  g_log : list Entry;                  (** records written to the stream; [appended_] is its length *)
  g_flushed : nat;                     (** records the operating system has *)
  g_durable : nat;                     (** records on the device *)
  g_synced : nat;                      (** [synced_] *)
  g_holder : option nat;               (** the owner of [sync_mutex_] *)
  g_pc : nat -> CommitPc
}.

Definition set_pc (s : GroupState) (t : nat) (p : CommitPc) : nat -> CommitPc :=
  fun t' => if (t' =? t)%nat then p else g_pc s t'.

Inductive gstep : GroupState -> GroupState -> Prop :=
| gs_append s t e : g_pc s t = Idle -> entry_ok e ->
    gstep s {| g_log := g_log s ++ [e]; g_flushed := g_flushed s; g_durable := g_durable s; g_synced := g_synced s;
               g_holder := g_holder s; g_pc := set_pc s t (Written (S (length (g_log s)))) |}
| gs_load s t n : g_pc s t = Written n ->
    gstep s {| g_log := g_log s; g_flushed := g_flushed s; g_durable := g_durable s; g_synced := g_synced s;
               g_holder := g_holder s; g_pc := set_pc s t (Needs n (length (g_log s))) |}
| gs_lock s t n k : g_pc s t = Needs n k -> g_holder s = None ->
    gstep s {| g_log := g_log s; g_flushed := g_flushed s; g_durable := g_durable s; g_synced := g_synced s;
               g_holder := Some t; g_pc := set_pc s t (Holds n k) |}
| gs_covered s t n k : g_pc s t = Holds n k -> (k <= g_synced s)%nat ->
    gstep s {| g_log := g_log s; g_flushed := g_flushed s; g_durable := g_durable s; g_synced := g_synced s;
               g_holder := None; g_pc := set_pc s t (Acked n) |}
| gs_flush s t n k : g_pc s t = Holds n k -> (g_synced s < k)%nat ->
    gstep s {| g_log := g_log s; g_flushed := length (g_log s); g_durable := g_durable s; g_synced := g_synced s;
               g_holder := g_holder s; g_pc := set_pc s t (Flushed n (length (g_log s))) |}
| gs_fdatasync s t n k : g_pc s t = Flushed n k ->
    gstep s {| g_log := g_log s; g_flushed := g_flushed s; g_durable := g_flushed s; g_synced := g_synced s;
               g_holder := g_holder s; g_pc := set_pc s t (Synced n k) |}
| gs_finish s t n k : g_pc s t = Synced n k ->
    gstep s {| g_log := g_log s; g_flushed := g_flushed s; g_durable := g_durable s;
               g_synced := if (g_synced s <? k)%nat then k else g_synced s;
               g_holder := None; g_pc := set_pc s t (Acked n) |}
| gs_return s t n : g_pc s t = Acked n ->
    gstep s {| g_log := g_log s; g_flushed := g_flushed s; g_durable := g_durable s; g_synced := g_synced s;
               g_holder := g_holder s; g_pc := set_pc s t Idle |}
| gs_os s f d : (g_flushed s <= f <= length (g_log s))%nat -> (g_durable s <= d <= f)%nat ->
    gstep s {| g_log := g_log s; g_flushed := f; g_durable := d; g_synced := g_synced s;
               g_holder := g_holder s; g_pc := g_pc s |}.

Definition g_init : GroupState :=
  {| g_log := []; g_flushed := 0; g_durable := 0; g_synced := 0; g_holder := None; g_pc := fun _ => Idle |}.

(** A thread inside [sync_mutex_] owns it. *)
Definition inside (p : CommitPc) : bool :=
  match p with Holds _ _ | Flushed _ _ | Synced _ _ => true | _ => false end.

Definition pc_ok (s : GroupState) (p : CommitPc) : Prop :=
  match p with
  | Idle => True
  | Written n => (1 <= n <= length (g_log s))%nat
  | Needs n k | Holds n k => (1 <= n <= k)%nat /\ (k <= length (g_log s))%nat
  | Flushed n k => (1 <= n <= k)%nat /\ (k <= g_flushed s)%nat
  | Synced n k => (1 <= n <= k)%nat /\ (k <= g_durable s)%nat
  | Acked n => (1 <= n <= g_durable s)%nat
  end.

Record ginv (s : GroupState) : Prop := {
  gi_order : (g_synced s <= g_durable s)%nat /\ (g_durable s <= g_flushed s)%nat /\ (g_flushed s <= length (g_log s))%nat;
  gi_pcs : forall t, pc_ok s (g_pc s t);
  gi_holder : forall t, inside (g_pc s t) = true -> g_holder s = Some t;
  gi_entries : Forall entry_ok (g_log s)
}.

Lemma pc_ok_mono s s' p :
  pc_ok s p -> (length (g_log s) <= length (g_log s'))%nat -> (g_flushed s <= g_flushed s')%nat ->
  (g_durable s <= g_durable s')%nat -> pc_ok s' p.
Proof. destruct p; simpl; intros; lia || auto. Qed.

(** The step preserves the invariant when the moving thread's new position is
    justified and the prefixes grow. *)
Lemma ginv_step s s' : ginv s -> gstep s s' -> ginv s'.
Proof.
  intros [Ho Hp Hh He] Hs.
  assert (Hmono : forall t p, (length (g_log s) <= length (g_log s'))%nat -> (g_flushed s <= g_flushed s')%nat ->
    (g_durable s <= g_durable s')%nat -> g_pc s' = set_pc s t p -> pc_ok s' p -> forall t', pc_ok s' (g_pc s' t')).
  { intros t p H1 H2 H3 Hpc Hok t'. rewrite Hpc. unfold set_pc. destruct (t' =? t)%nat; [done|]. eauto using pc_ok_mono. }
  assert (Hin : forall t p, g_pc s' = set_pc s t p -> (inside p = true -> g_holder s' = Some t) ->
    (forall t', t' <> t -> inside (g_pc s t') = true -> g_holder s' = Some t') ->
    forall t', inside (g_pc s' t') = true -> g_holder s' = Some t').
  { intros t p Hpc H1 H2 t'. rewrite Hpc. unfold set_pc. destruct (Nat.eqb_spec t' t) as [->|]; auto. }
  inversion Hs as [s0 t e Hpc Hok|s0 t n Hpc|s0 t n k Hpc Hno|s0 t n k Hpc Hk|s0 t n k Hpc Hk|s0 t n k Hpc|s0 t n k Hpc|s0 t n Hpc|s0 f d Hf Hd];
    subst s0; subst s'; simpl in *; try (pose proof (Hp t) as Ht; rewrite Hpc in Ht; simpl in Ht).
  all: split; simpl; rewrite ?length_app; simpl; auto; try lia;
       try (eapply Hmono; [rewrite ?length_app; simpl; lia..|reflexivity|simpl; rewrite ?length_app; simpl; lia]);
       try (eapply Hin; [reflexivity|simpl; try done|]).
  all: try (intros t' Hne Hi; pose proof (Hh t' Hi) as Hh'; try done;
            assert (g_holder s = Some t) by (apply Hh; by rewrite Hpc); congruence).
  all: try (intros _; apply Hh; by rewrite Hpc).
  - apply Forall_app. auto.
  - intros t' _ Hi. apply Hh in Hi. congruence.
  - destruct (g_synced s <? k)%nat; lia.
  - intros t'. eapply pc_ok_mono; [apply Hp|simpl; lia..].
Qed.

Lemma ginv_init : ginv g_init.
Proof. split; simpl; auto; done. Qed.

Lemma ginv_reachable s : rtc gstep g_init s -> ginv s.
Proof.
  intros H. assert (Hgen : forall s0, ginv s0 -> rtc gstep s0 s -> ginv s).
  { intros s0 H0 Hr. induction Hr; eauto using ginv_step. }
  eapply Hgen; [apply ginv_init|done].
Qed.

(** What the device holds after a crash: the durable records, and perhaps some
    octets more of the log. *)
Definition crash_image (s : GroupState) (n : nat) : bytes := wal_header ++ take n (entries_bytes (g_log s)).

Definition may_survive (s : GroupState) (n : nat) : Prop :=
  (length (entries_bytes (take (g_durable s) (g_log s))) <= n)%nat.

Lemma whole_entries_take es k n :
  (length (entries_bytes (take k es)) <= n)%nat -> exists rest, whole_entries n es = take k es ++ rest.
Proof.
  revert k n. induction es as [|e es IH]; intros k n H; [exists []; by destruct k|].
  destruct k as [|k]; [eexists; reflexivity|]. unfold entries_bytes in H. rewrite firstn_cons in H |- *.
  cbn [map concat] in H. rewrite length_app in H. cbn [whole_entries].
  destruct (Nat.leb_spec (length (entry_bytes e)) n); [|lia].
  destruct (IH k (n - length (entry_bytes e))%nat) as (rest & E); [unfold entries_bytes; lia|].
  exists rest. by rewrite E.
Qed.

(** ** Properties *)

(** Replay returns what was appended.  Appending records to a new log and
    replaying the file gives back exactly the records, in order, whatever the
    padding octets. *)
Theorem wal_replay_roundtrip es b :
  Forall entry_ok es ->
  replay (open_log (Some (file_ (write_entries (open_log None b) es))) b) = map fst es.
Proof.
  intros Hes. rewrite write_entries_file by done. simpl file_.
  pose proof (replay_cut es (length (entries_bytes es)) b Hes) as H. rewrite take_ge in H by lia. rewrite H. f_equal.
  clear. induction es as [|e es IH]; [done|]. unfold entries_bytes. cbn [whole_entries map concat]. rewrite length_app.
  destruct (Nat.leb_spec (length (entry_bytes e)) (length (entry_bytes e) + length (concat (map entry_bytes es)))); [|lia].
  rewrite Nat.add_comm, Nat.add_sub. f_equal. exact IH.
Qed.

(** A log cut at any octet by a crash replays exactly the records that lie
    completely before the cut: a torn tail yields no partial and no spurious
    record. *)
Theorem wal_torn_tail es n b :
  Forall entry_ok es ->
  replay (open_log (Some (wal_header ++ take n (entries_bytes es))) b) = map fst (whole_entries n es).
Proof. apply replay_cut. Qed.

(** A changed octet in the key or value of a record is always detected:
    replay returns the records before it and stops. *)
Theorem wal_corruption_detected es e a b1 b2 c rest b :
  Forall entry_ok es -> entry_ok e -> rr_key e.1 ++ rr_value e.1 = a ++ b1 :: c -> b1 <> b2 ->
  let head := record_head (rr_seq e.1) (rr_key e.1) (rr_value e.1) in
  let corrupt := (head ++ le_bytes 4 (record_crc head (rr_key e.1) (rr_value e.1)) ++ e.2) ++ (a ++ b2 :: c) ++ rest in
  replay (open_log (Some (wal_header ++ entries_bytes es ++ corrupt)) b) = map fst es.
Proof.
  intros Hes He Hp Hb head corrupt. unfold replay, open_log. cbn [is_open good file_]. rewrite verify_header_ok.
  replace (8 <=? length (wal_header ++ entries_bytes es ++ corrupt))%nat with true by (rewrite length_app; reflexivity).
  cbn [negb]. change (drop 8 (wal_header ++ entries_bytes es ++ corrupt)) with (entries_bytes es ++ corrupt).
  apply replay_entries; [done| |by apply replay_one_corrupt with (b1 := b1)]. pose proof (entries_length es Hes).
  rewrite !length_app. lia.
Qed.

(** C15: an acknowledged write survives a crash.  In every interleaving of
    appends and group commits, when [commit] has returned for record [n], that
    record is among the ones replayed from whatever prefix of the log the crash
    left, even when the thread skipped its own [fdatasync] because another
    thread's covered it. *)
Theorem acknowledged_record_survives s t n m b :
  rtc gstep g_init s -> g_pc s t = Acked n -> may_survive s m ->
  exists e, g_log s !! (n - 1)%nat = Some e /\
    In e.1 (replay (open_log (Some (crash_image s m)) b)).
Proof.
  intros Hr Hpc Hm. pose proof (ginv_reachable s Hr) as [Ho Hp _ He].
  pose proof (Hp t) as Ht. rewrite Hpc in Ht. simpl in Ht.
  destruct (lookup_lt_is_Some_2 (g_log s) (n - 1)) as [e Hl]; [lia|]. exists e. split; [done|].
  unfold crash_image. rewrite replay_cut by done.
  destruct (whole_entries_take (g_log s) (g_durable s) m Hm) as (rest & ->).
  apply in_map, in_or_app. left. apply list_elem_of_In, elem_of_take. exists (n - 1)%nat. split; [done|lia].
Qed.

Definition demo_entries : list Entry :=
  [ ({| rr_seq := 0; rr_key := lit "k1"; rr_value := lit "P1" |}, lit "abcd");
    ({| rr_seq := 1; rr_key := lit "k2"; rr_value := lit "D" |}, lit "wxyz") ].

Lemma wal_demo_ok : Forall entry_ok demo_entries.
Proof. repeat constructor; vm_compute; congruence. Qed.

Lemma wal_replay_roundtrip_witness :
  replay (open_log (Some (file_ (write_entries (open_log None true) demo_entries))) true) = map fst demo_entries.
Proof. exact (wal_replay_roundtrip demo_entries true wal_demo_ok). Defined.

Lemma wal_torn_tail_witness :
  replay (open_log (Some (wal_header ++ take 30 (entries_bytes demo_entries))) true) =
  [{| rr_seq := 0; rr_key := lit "k1"; rr_value := lit "P1" |}].
Proof. rewrite (wal_torn_tail demo_entries 30 true wal_demo_ok). vm_compute. reflexivity. Defined.

Definition demo_victim : Entry := ({| rr_seq := 2; rr_key := lit "k3"; rr_value := lit "P3" |}, lit "pads").

Lemma wal_corruption_detected_witness :
  replay (open_log (Some (wal_header ++ entries_bytes demo_entries ++
    (record_head 2 (lit "k3") (lit "P3") ++
     le_bytes 4 (record_crc (record_head 2 (lit "k3") (lit "P3")) (lit "k3") (lit "P3")) ++ lit "pads") ++
    (lit "k" ++ Byte.x34 :: lit "P3") ++ [])) true) = map fst demo_entries.
Proof.
  apply (wal_corruption_detected demo_entries demo_victim (lit "k") Byte.x33 Byte.x34 (lit "P3") [] true wal_demo_ok).
  - repeat constructor; vm_compute; congruence.
  - reflexivity.
  - discriminate.
Defined.

(** One thread appends and commits; the crash keeps exactly the durable part. *)
Definition demo_move (s : GroupState) (log : list Entry) (f d y : nat) (h : option nat) (p : CommitPc) : GroupState :=
  {| g_log := log; g_flushed := f; g_durable := d; g_synced := y; g_holder := h; g_pc := set_pc s 0 p |}.
Definition demo_g1 : GroupState := demo_move g_init [demo_victim] 0 0 0 None (Written 1).
Definition demo_g2 : GroupState := demo_move demo_g1 [demo_victim] 0 0 0 None (Needs 1 1).
Definition demo_g3 : GroupState := demo_move demo_g2 [demo_victim] 0 0 0 (Some 0%nat) (Holds 1 1).
Definition demo_g4 : GroupState := demo_move demo_g3 [demo_victim] 1 0 0 (Some 0%nat) (Flushed 1 1).
Definition demo_g5 : GroupState := demo_move demo_g4 [demo_victim] 1 1 0 (Some 0%nat) (Synced 1 1).
Definition demo_g6 : GroupState := demo_move demo_g5 [demo_victim] 1 1 1 None (Acked 1).

Lemma demo_run : rtc gstep g_init demo_g6.
Proof.
  assert (Hv : entry_ok demo_victim) by (repeat constructor; vm_compute; congruence).
  apply (rtc_l _ _ demo_g1); [exact (gs_append g_init 0 demo_victim eq_refl Hv)|].
  apply (rtc_l _ _ demo_g2); [exact (gs_load demo_g1 0 1 eq_refl)|].
  apply (rtc_l _ _ demo_g3); [exact (gs_lock demo_g2 0 1 1 eq_refl eq_refl)|].
  apply (rtc_l _ _ demo_g4); [exact (gs_flush demo_g3 0 1 1 eq_refl (le_n 1))|].
  apply (rtc_l _ _ demo_g5); [exact (gs_fdatasync demo_g4 0 1 1 eq_refl)|].
  apply (rtc_l _ _ demo_g6); [exact (gs_finish demo_g5 0 1 1 eq_refl)|]. apply rtc_refl.
Qed.

Lemma acknowledged_record_survives_witness :
  exists e, g_log demo_g6 !! 0%nat = Some e /\ In e.1 (replay (open_log (Some (crash_image demo_g6 28)) true)).
Proof.
  apply (acknowledged_record_survives demo_g6 0 1 28 true demo_run eq_refl).
  unfold may_survive. apply Nat.leb_le. vm_compute. reflexivity.
Defined.
