(* ===== verification/Skiplist.v ===== *)
(** * The skip list and the memtable

    [include/cynamodb/engine/lsm/skiplist.hpp] and [src/engine/lsm/memtable.cpp].
    The nodes are a heap (a list indexed by node number, the head being number
    0), [forward] an array of nullable pointers, and the searches follow the
    pointers level by level as the source does.  The level of a new node is drawn
    by [random_level]; here the number of successful coin flips is an argument,
    so the theorems hold for every outcome.  [wf] states that level [i] links
    exactly the nodes taller than [i], in key order; from it follow that the
    skip list is the sorted map [get_all_entries] returns. *)

From Stdlib Require Import ZArith Lia Strings.String.
From stdpp Require Import prelude.
From S2P Require Import Prelude StdMap Types.

Definition kSkiplistMaxLevel : nat := 16.
Definition kMaxSkiplistKeyBytes : Z := 1024 * 1024.
Definition kMaxSkiplistEntries : Z := 2000000.

Record SnapshotEntry := { attributes : AttributeMap; is_deleted : bool }.

Definition tombstone : SnapshotEntry := {| attributes := []; is_deleted := true |}.

Module SL.

Record SkiplistNode := {
  nkey : bytes;
  nentry : SnapshotEntry;
  forward : list (option nat)
}.

Record Skiplist := { nodes : list SkiplistNode; level_ : nat; size_ : Z }.

Definition empty_skiplist : Skiplist :=
  {| nodes := [ {| nkey := []; nentry := {| attributes := []; is_deleted := false |};
                   forward := replicate kSkiplistMaxLevel None |} ];
     level_ := 1; size_ := 0 |}.

(** [node->forward[i].load()] *)
Definition fwd (h : list SkiplistNode) (c i : nat) : option nat :=
  match h !! c with Some n => mjoin (forward n !! i) | None => None end.

(** [node->forward[i].store(p)] *)
Definition set_fwd (h : list SkiplistNode) (c i : nat) (p : option nat) : list SkiplistNode :=
  alter (fun n => {| nkey := nkey n; nentry := nentry n; forward := <[i := p]> (forward n) |}) c h.

Definition key_of (h : list SkiplistNode) (c : nat) : bytes := from_option nkey [] (h !! c).
Definition height (h : list SkiplistNode) (c : nat) : nat := from_option (fun n => length (forward n)) 0%nat (h !! c).

Definition is_valid_user_key (key : bytes) : bool := negb (bool_decide (key = [])) && (len key <=? kMaxSkiplistKeyBytes).

(** The inner [while] at one level; a chain is no longer than the heap. *)
Fixpoint walk (fuel : nat) (h : list SkiplistNode) (i curr : nat) (key : bytes) : nat :=
  match fuel with
  | O => curr
  | S fuel' =>
      match fwd h curr i with
      | Some next => if bytes_ltb (key_of h next) key then walk fuel' h i next key else curr
      | None => curr
      end
  end.

(** The outer [for] over the levels, recording [update[i]]. *)
Fixpoint descend (i : nat) (h : list SkiplistNode) (curr : nat) (key : bytes) (update : list nat) : nat * list nat :=
  match i with
  | O => (curr, update)
  | S i' => let c := walk (length h) h i' curr key in descend i' h c key (c :: update)
  end.

Definition current_level (sl : Skiplist) : nat := Nat.max 1 (Nat.min (level_ sl) kSkiplistMaxLevel).

(** The node after the predecessor of [key]: the search common to all lookups. *)
Definition find_node (sl : Skiplist) (key : bytes) : option nat :=
  let '(c, _) := descend (current_level sl) (nodes sl) 0 key [] in
  match fwd (nodes sl) c 0 with
  | Some n => if bytes_eqb (key_of (nodes sl) n) key then Some n else None
  | None => None
  end.

Definition get (sl : Skiplist) (key : bytes) : option AttributeMap :=
  if negb (is_valid_user_key key) then None else
  match find_node sl key with
  | Some n => match nodes sl !! n with
              | Some nd => if is_deleted (nentry nd) then None else Some (attributes (nentry nd))
              | None => None
              end
  | None => None
  end.

Definition is_tombstoned (sl : Skiplist) (key : bytes) : bool :=
  if negb (is_valid_user_key key) then false else
  match find_node sl key with
  | Some n => match nodes sl !! n with Some nd => is_deleted (nentry nd) | None => false end
  | None => false
  end.

(** The traversals of level 0. *)
Fixpoint collect (fuel : nat) (h : list SkiplistNode) (curr : option nat) (result : list (bytes * SnapshotEntry))
  : list (bytes * SnapshotEntry) :=
  match fuel, curr with
  | S fuel', Some c =>
      match h !! c with
      | Some n => collect fuel' h (fwd h c 0) (mset (nkey n) (nentry n) result)
      | None => result
      end
  | _, _ => result
  end.

Definition get_all_entries (sl : Skiplist) : list (bytes * SnapshotEntry) :=
  collect (length (nodes sl)) (nodes sl) (fwd (nodes sl) 0 0) [].

Fixpoint collect_live (fuel : nat) (h : list SkiplistNode) (curr : option nat) (result : list (bytes * AttributeMap))
  : list (bytes * AttributeMap) :=
  match fuel, curr with
  | S fuel', Some c =>
      match h !! c with
      | Some n =>
          collect_live fuel' h (fwd h c 0)
            (if is_deleted (nentry n) then result else mset (nkey n) (attributes (nentry n)) result)
      | None => result
      end
  | _, _ => result
  end.

Definition get_all (sl : Skiplist) : list (bytes * AttributeMap) :=
  collect_live (length (nodes sl)) (nodes sl) (fwd (nodes sl) 0 0) [].

(** [while (dist(rng) < p && level < max) level++], with the number of
    successful flips given. *)
Definition random_level (flips : nat) : nat := Nat.min (S flips) kSkiplistMaxLevel.

(** The linking loop: [new->forward[i] = update[i]->forward[i];
    update[i]->forward[i] = new]. *)
Fixpoint link (h : list SkiplistNode) (new i : nat) (update : list nat) : list SkiplistNode :=
  match update with
  | [] => h
  | u :: update' => link (set_fwd (set_fwd h new i (fwd h u i)) u i (Some new)) new (S i) update'
  end.

(** The [else] branch of [insert]: a key that is not in the list. *)
Definition insert_new (sl : Skiplist) (flips : nat) (key : bytes) (entry : SnapshotEntry) (update : list nat) : Skiplist :=
  if kMaxSkiplistEntries <=? size_ sl then sl
  else
    let lvl := current_level sl in
    let new_level := random_level flips in
    let update := take new_level (update ++ replicate (new_level - lvl) 0%nat) in
    let new := length (nodes sl) in
    let h := nodes sl ++ [ {| nkey := key; nentry := entry; forward := replicate new_level None |} ] in
    {| nodes := link h new 0 update;
       level_ := if (lvl <? new_level)%nat then new_level else level_ sl;
       size_ := size_ sl + 1 |}.

Definition insert (sl : Skiplist) (flips : nat) (key : bytes) (entry : SnapshotEntry) : Skiplist :=
  if negb (is_valid_user_key key) then sl else
  let h := nodes sl in
  let '(c, update) := descend (current_level sl) h 0 key [] in
  match fwd h c 0 with
  | Some n =>
      if bytes_eqb (key_of h n) key
      then {| nodes := alter (fun nd => {| nkey := nkey nd; nentry := entry; forward := forward nd |}) n h;
              level_ := level_ sl; size_ := size_ sl |}
      else insert_new sl flips key entry update
  | None => insert_new sl flips key entry update
  end.

Definition size (sl : Skiplist) : Z := size_ sl.

(** ** Pointer chains *)

Fixpoint chain (h : list SkiplistNode) (i start : nat) (ids : list nat) : Prop :=
  match ids with
  | [] => fwd h start i = None
  | x :: r => fwd h start i = Some x /\ chain h i x r
  end.

Definition taller (h : list SkiplistNode) (i : nat) (ids : list nat) : list nat :=
  List.filter (fun x => (i <? height h x)%nat) ids.

Definition row_of (h : list SkiplistNode) (x : nat) : bytes * SnapshotEntry :=
  (key_of h x, from_option nentry tombstone (h !! x)).

(** [ids]: the nodes in key order. *)
Record wf_ids (sl : Skiplist) (ids : list nat) : Prop := {
  wi_heap : length (nodes sl) = S (length ids);
  wi_head : height (nodes sl) 0 = kSkiplistMaxLevel;
  wi_nodup : NoDup (0%nat :: ids);
  wi_range : Forall (fun x => (x < length (nodes sl))%nat) ids;
  wi_heights : Forall (fun x => (1 <= height (nodes sl) x <= level_ sl)%nat) ids;
  wi_level : (1 <= level_ sl <= kSkiplistMaxLevel)%nat;
  wi_sorted : msorted (map (row_of (nodes sl)) ids);
  wi_keys : Forall (fun x => is_valid_user_key (key_of (nodes sl) x) = true) ids;
  wi_chains : forall i, (i < kSkiplistMaxLevel)%nat -> chain (nodes sl) i 0 (taller (nodes sl) i ids);
  wi_size : size_ sl = len ids
}.

Definition wf (sl : Skiplist) : Prop := exists ids, wf_ids sl ids.

Definition last_or (d : nat) (l : list nat) : nat := List.last l d.

Lemma last_or_cons d x l : last_or d (x :: l) = last_or x l.
Proof. revert d x. induction l as [|y l IH]; intros d x; [done|]. unfold last_or in *. simpl in *. destruct l; [done|]. apply (IH d x). Qed.

Lemma last_or_app d l1 l2 : last_or d (l1 ++ l2) = last_or (last_or d l1) l2.
Proof. revert d. induction l1 as [|x l1 IH]; intros d; [done|]. rewrite <- app_comm_cons, !last_or_cons. apply IH. Qed.

Lemma last_or_In d l : last_or d l = d \/ In (last_or d l) l.
Proof. revert d. induction l as [|x l IH]; intros d; [by left|]. rewrite last_or_cons. destruct (IH x) as [->|]; right; simpl; auto. Qed.

Lemma chain_app h i c l1 l2 : chain h i c (l1 ++ l2) -> chain h i (last_or c l1) l2.
Proof. revert c. induction l1 as [|x l1 IH]; intros c; [done|]. rewrite last_or_cons. intros [_ H]. by apply IH. Qed.

Lemma walk_spec h i c l1 l2 key fuel :
  chain h i c (l1 ++ l2) -> Forall (fun x => bytes_ltb (key_of h x) key = true) l1 ->
  Forall (fun x => bytes_ltb (key_of h x) key = false) l2 -> (length l1 < fuel)%nat ->
  walk fuel h i c key = last_or c l1.
Proof.
  intros Hc H1 H2. revert c fuel Hc. induction H1 as [|x l1 Hx H1 IH]; intros c fuel Hc Hf; (destruct fuel as [|fuel]; [simpl in Hf; lia|]).
  - simpl. destruct l2 as [|y l2]; simpl in Hc; [by rewrite Hc|]. destruct Hc as [-> _].
    apply Forall_cons in H2 as [Hy _]. by rewrite Hy.
  - simpl in Hc. destruct Hc as [Hf' Hc]. cbn [walk]. rewrite Hf', Hx, last_or_cons. simpl in Hf. apply IH; [done|lia].
Qed.

(** ** Splitting the nodes at a key *)

Definition before (h : list SkiplistNode) (key : bytes) (ids : list nat) : list nat :=
  List.filter (fun x => bytes_ltb (key_of h x) key) ids.
Definition from (h : list SkiplistNode) (key : bytes) (ids : list nat) : list nat :=
  List.filter (fun x => negb (bytes_ltb (key_of h x) key)) ids.

Lemma sorted_split h key ids : msorted (map (row_of h) ids) -> ids = before h key ids ++ from h key ids.
Proof.
  unfold before, from. induction ids as [|x ids IH]; [done|]. intros [Ha Hs]%msorted_cons_inv. simpl.
  destruct (bytes_ltb (key_of h x) key) eqn:E; simpl; [by rewrite <- IH|].
  assert (Hnone : List.filter (fun x => bytes_ltb (key_of h x) key) ids = []).
  { clear IH Hs. unfold above in Ha. induction ids as [|y ids IH]; [done|]. apply Forall_cons in Ha as [Hy Ha]. simpl in *.
    destruct (bytes_ltb (key_of h y) key) eqn:Ey; [|by apply IH]. exfalso. unfold bytes_ltb in *.
    destruct (bytes_cmp (key_of h y) key) eqn:E1; try done. rewrite (bytes_cmp_trans _ _ _ Hy E1) in E. done. }
  rewrite Hnone in IH |- *. simpl. f_equal. by apply IH.
Qed.

Lemma taller_app h i l1 l2 : taller h i (l1 ++ l2) = taller h i l1 ++ taller h i l2.
Proof. apply List.filter_app. Qed.

Lemma before_lt h key ids : Forall (fun x => bytes_ltb (key_of h x) key = true) (before h key ids).
Proof. apply Forall_forall. intros x Hx. apply list_elem_of_In, filter_In in Hx. tauto. Qed.

Lemma from_ge h key ids : Forall (fun x => bytes_ltb (key_of h x) key = false) (from h key ids).
Proof. apply Forall_forall. intros x Hx. apply list_elem_of_In, filter_In in Hx as [_ Hx]. by apply negb_true_iff in Hx. Qed.

Lemma Forall_taller P h i ids : Forall P ids -> Forall P (taller h i ids).
Proof. intros H. apply Forall_forall. intros x Hx. apply list_elem_of_In, filter_In in Hx as [Hx _]. apply list_elem_of_In in Hx. rewrite Forall_forall in H. auto. Qed.

(** The predecessor at level [i]. *)
Definition pred (h : list SkiplistNode) (key : bytes) (ids : list nat) (i : nat) : nat :=
  last_or 0 (taller h i (before h key ids)).

Lemma walk_pred sl ids key i :
  wf_ids sl ids -> (S i < kSkiplistMaxLevel \/ S i = kSkiplistMaxLevel)%nat ->
  walk (length (nodes sl)) (nodes sl) i (pred (nodes sl) key ids (S i)) key = pred (nodes sl) key ids i /\
  walk (length (nodes sl)) (nodes sl) i 0 key = pred (nodes sl) key ids i.
Proof.
  intros Hwf Hi. set (h := nodes sl). pose proof (wi_chains _ _ Hwf i ltac:(lia)) as Hc. fold h in Hc.
  rewrite (sorted_split h key ids (wi_sorted _ _ Hwf)), taller_app in Hc.
  set (A := before h key ids) in *. set (B := from h key ids) in *.
  pose proof (Forall_taller _ h i _ (before_lt h key ids)) as HA. fold A in HA.
  pose proof (Forall_taller _ h i _ (from_ge h key ids)) as HB. fold B in HB.
  assert (Hlen : (length (taller h i A) < length h)%nat).
  { unfold h. rewrite (wi_heap _ _ Hwf). apply le_n_S. etransitivity; [apply List.filter_length_le|]. apply List.filter_length_le. }
  split; [|by apply (walk_spec h i 0 (taller h i A) (taller h i B))].
  unfold pred. fold A. destruct (last_or_In 0 (taller h (S i) A)) as [->|Hin]; [by apply (walk_spec h i 0 (taller h i A) (taller h i B))|].
  set (c := last_or 0 (taller h (S i) A)) in *.
  assert (Hc' : In c (taller h i A)).
  { apply filter_In in Hin as [Hin Hh]. apply filter_In. split; [done|]. apply Nat.ltb_lt in Hh. apply Nat.ltb_lt. lia. }
  apply in_split in Hc' as (l1 & l2 & E). rewrite E in *.
  rewrite last_or_app, last_or_cons.
  rewrite <- app_assoc in Hc. apply chain_app in Hc. destruct Hc as [_ Hc].
  apply Forall_app in HA as [_ HA]. apply Forall_cons in HA as [_ HA].
  apply (walk_spec h i c l2 (taller h i B)); [exact Hc|done|done|]. rewrite length_app in Hlen. simpl in Hlen. lia.
Qed.

Lemma descend_spec sl ids key :
  wf_ids sl ids -> forall n update, (n <= kSkiplistMaxLevel)%nat ->
  forall c, (c = pred (nodes sl) key ids n \/ c = 0%nat) ->
  descend n (nodes sl) c key update =
  (match n with O => c | _ => pred (nodes sl) key ids 0 end, map (pred (nodes sl) key ids) (seq 0 n) ++ update).
Proof.
  intros Hwf. induction n as [|n IH]; intros update Hn c Hc; [done|]. cbn [descend].
  destruct (walk_pred sl ids key n Hwf ltac:(lia)) as [H1 H2].
  assert (E : walk (length (nodes sl)) (nodes sl) n c key = pred (nodes sl) key ids n) by (destruct Hc as [->| ->]; done).
  rewrite E, IH by (auto; lia). rewrite seq_S, map_app. simpl. rewrite <- app_assoc. f_equal. by destruct n.
Qed.

(** ** The abstract contents *)

Definition rows (sl : Skiplist) (ids : list nat) : list (bytes * SnapshotEntry) := map (row_of (nodes sl)) ids.


Lemma taller_0 h ids : Forall (fun x => (1 <= height h x)%nat) ids -> taller h 0 ids = ids.
Proof.
  induction 1 as [|x ids Hx Hxs IH]; simpl; [done|]. destruct (Nat.ltb_spec 0 (height h x)); [|lia]. by f_equal.
Qed.

Lemma heights_pos sl ids : wf_ids sl ids -> Forall (fun x => (1 <= height (nodes sl) x)%nat) ids.
Proof. intros Hwf. eapply Forall_impl; [apply (wi_heights _ _ Hwf)|]. simpl. lia. Qed.

Lemma chain_0 sl ids : wf_ids sl ids -> chain (nodes sl) 0 0 ids.
Proof.
  intros Hwf. pose proof (wi_chains _ _ Hwf 0%nat ltac:(unfold kSkiplistMaxLevel; lia)) as H.
  by rewrite taller_0 in H by by eapply heights_pos.
Qed.

Lemma chain_fwd h i c ids : chain h i c ids -> fwd h c i = head ids.
Proof. destruct ids; simpl; tauto. Qed.

Lemma pred_0_next sl ids key : wf_ids sl ids ->
  fwd (nodes sl) (pred (nodes sl) key ids 0) 0 = head (from (nodes sl) key ids).
Proof.
  intros Hwf. pose proof (chain_0 _ _ Hwf) as Hc. pose proof (heights_pos _ _ Hwf) as Hh.
  rewrite (sorted_split _ key _ (wi_sorted _ _ Hwf)) in Hc, Hh. apply Forall_app in Hh as [Hh _].
  apply chain_app in Hc. apply chain_fwd in Hc. unfold pred. by rewrite taller_0.
Qed.

Lemma current_level_wf sl ids : wf_ids sl ids -> current_level sl = level_ sl.
Proof. intros Hwf. pose proof (wi_level _ _ Hwf). unfold current_level. lia. Qed.

Lemma descend_wf sl ids key : wf_ids sl ids ->
  descend (current_level sl) (nodes sl) 0 key [] =
  (pred (nodes sl) key ids 0, map (pred (nodes sl) key ids) (seq 0 (level_ sl))).
Proof.
  intros Hwf. pose proof (wi_level _ _ Hwf). rewrite (current_level_wf _ _ Hwf).
  rewrite (descend_spec sl ids key Hwf (level_ sl) [] ltac:(lia) 0%nat (or_intror eq_refl)), app_nil_r.
  f_equal. destruct (level_ sl); [lia|done].
Qed.

(** The first node not below the key is the only candidate. *)
Lemma mget_rows h ids key : msorted (map (row_of h) ids) ->
  mget key (map (row_of h) ids) =
  match head (from h key ids) with
  | Some n => if bytes_eqb (key_of h n) key then Some (from_option nentry tombstone (h !! n)) else None
  | None => None
  end.
Proof.
  induction ids as [|x ids IH]; [done|]. intros [Ha Hs]%msorted_cons_inv. cbn [map]. unfold row_of at 1. rewrite mget_cons.
  unfold from. simpl. unfold bytes_ltb at 1. unfold keqb. simpl kcmp. rewrite (bytes_cmp_opp (key_of h x) key).
  destruct (bytes_cmp (key_of h x) key) eqn:E; simpl.
  - unfold bytes_eqb. by rewrite E.
  - apply IH, Hs.
  - unfold bytes_eqb. rewrite E. apply (mget_above_lt (K:=bytes) (key_of h x)); [exact Ha|]. by apply bytes_cmp_Gt.
Qed.

Lemma find_node_spec sl ids key : wf_ids sl ids ->
  match find_node sl key with
  | Some n => In n ids /\ key_of (nodes sl) n = key /\
              mget key (rows sl ids) = Some (from_option nentry tombstone (nodes sl !! n))
  | None => mget key (rows sl ids) = None
  end.
Proof.
  intros Hwf. unfold find_node. rewrite (descend_wf _ _ _ Hwf), (pred_0_next _ _ _ Hwf).
  unfold rows. rewrite (mget_rows _ _ _ (wi_sorted _ _ Hwf)).
  destruct (head (from (nodes sl) key ids)) as [n|] eqn:E; [|done].
  destruct (bytes_eqb_spec (key_of (nodes sl) n) key) as [Ek|]; [|done]. split; [|done].
  assert (Hin : In n (from (nodes sl) key ids)) by (destruct (from (nodes sl) key ids); [done|left; simpl in E; congruence]).
  apply filter_In in Hin. tauto.
Qed.

Lemma collect_spec sl ids : wf_ids sl ids -> forall l c acc fuel,
  chain (nodes sl) 0 c l -> Forall (fun x => (x < length (nodes sl))%nat) l -> (length l < fuel)%nat ->
  msorted (acc ++ rows sl l) ->
  collect fuel (nodes sl) (fwd (nodes sl) c 0) acc = acc ++ rows sl l.
Proof.
  intros Hwf l. induction l as [|x l IH]; intros c acc fuel Hc Hr Hf Hs; simpl in Hc.
  - rewrite Hc, app_nil_r. by destruct fuel.
  - destruct Hc as [Hx Hc]. rewrite Hx. destruct fuel as [|fuel]; [simpl in Hf; lia|].
    apply Forall_cons in Hr as [Hxr Hr]. destruct (lookup_lt_is_Some_2 _ _ Hxr) as [n Hn].
    cbn [collect]. rewrite Hn.
    assert (Er : row_of (nodes sl) x = (nkey n, nentry n)) by (unfold row_of, key_of; by rewrite Hn).
    unfold rows in *. cbn [map] in *. rewrite Er in *.
    rewrite mset_last.
    2:{ apply msorted_app in Hs as (_ & _ & Hab). eapply Forall_impl; [exact Hab|]. intros e He. unfold above in He.
        by apply Forall_cons in He as [He _]. }
    rewrite cons_middle, app_assoc in Hs. rewrite (cons_middle _ acc (map _ _)), app_assoc.
    apply IH; auto. simpl in Hf. lia.
Qed.

Lemma get_all_entries_rows sl ids : wf_ids sl ids -> get_all_entries sl = rows sl ids.
Proof.
  intros Hwf. unfold get_all_entries. rewrite (collect_spec sl ids Hwf ids 0 []); auto.
  - by apply chain_0.
  - apply (wi_range _ _ Hwf).
  - rewrite (wi_heap _ _ Hwf). lia.
  - apply (wi_sorted _ _ Hwf).
Qed.

(** ** Writing pointers *)

Lemma fwd_set_fwd h c i p c' i' : (i < height h c)%nat ->
  fwd (set_fwd h c i p) c' i' = if (c =? c')%nat && (i =? i')%nat then p else fwd h c' i'.
Proof.
  unfold fwd, set_fwd, height. intros Hi.
  destruct (Nat.eqb_spec c c') as [->|Hne]; simpl; [|by rewrite list_lookup_alter_ne].
  rewrite list_lookup_alter_eq. destruct (h !! c') as [n|]; simpl in *; [|lia].
  destruct (Nat.eqb_spec i i') as [->|Hne]; [|by rewrite list_lookup_insert_ne].
  by rewrite list_lookup_insert_eq.
Qed.

Lemma fwd_above h c i : (height h c <= i)%nat -> fwd h c i = None.
Proof.
  unfold height, fwd. destruct (h !! c) as [n|]; simpl; [|done]. intros H. by rewrite lookup_ge_None_2.
Qed.

Lemma row_set_fwd h c i p x : row_of (set_fwd h c i p) x = row_of h x /\ height (set_fwd h c i p) x = height h x.
Proof.
  unfold row_of, key_of, height, set_fwd. destruct (Nat.eqb_spec c x) as [->|Hne]; [|by rewrite list_lookup_alter_ne].
  rewrite list_lookup_alter_eq. destruct (h !! x); simpl; [|done]. by rewrite length_insert.
Qed.

Lemma set_fwd_length h c i p : length (set_fwd h c i p) = length h.
Proof. apply length_alter. Qed.

(** The effect of the linking loop on every pointer. *)
Lemma link_spec update : forall h new i,
  (forall k u, update !! k = Some u -> u <> new /\ (i + k < height h u)%nat) ->
  (i + length update <= height h new)%nat ->
  let h' := link h new i update in
  length h' = length h /\ (forall x, row_of h' x = row_of h x /\ height h' x = height h x) /\
  (forall c j, fwd h' c j =
     if (i <=? j)%nat then
       match update !! (j - i)%nat with
       | Some u => if (c =? new)%nat then fwd h u j else if (c =? u)%nat then Some new else fwd h c j
       | None => fwd h c j
       end
     else fwd h c j).
Proof.
  induction update as [|u update IH]; intros h new i Hu Hn; simpl.
  - split; [done|]. split; [done|]. intros c j. destruct (i <=? j)%nat; done.
  - destruct (Hu 0%nat u eq_refl) as [Hune Hui]. rewrite Nat.add_0_r in Hui. simpl in Hn.
    set (h1 := set_fwd h new i (fwd h u i)). set (h2 := set_fwd h1 u i (Some new)).
    assert (Hrow : forall x, row_of h2 x = row_of h x /\ height h2 x = height h x).
    { intros x. unfold h2, h1. split; [by rewrite !(proj1 (row_set_fwd _ _ _ _ _))|by rewrite !(proj2 (row_set_fwd _ _ _ _ _))]. }
    assert (Hf2 : forall c j, fwd h2 c j = if (i =? j)%nat then (if (c =? new)%nat then fwd h u j else if (c =? u)%nat then Some new else fwd h c j) else fwd h c j).
    { intros c j. unfold h2. rewrite fwd_set_fwd by (unfold h1; rewrite (proj2 (row_set_fwd _ _ _ _ _)); done).
      unfold h1. rewrite fwd_set_fwd by lia. rewrite (Nat.eqb_sym u c), (Nat.eqb_sym new c).
      destruct (Nat.eqb_spec i j) as [<-|]; rewrite ?andb_true_r, ?andb_false_r; [|done].
      destruct (Nat.eqb_spec c u), (Nat.eqb_spec c new); try done. congruence. }
    destruct (IH h2 new (S i)) as (Hl & Hr & Hf).
    { intros k w Hw. rewrite (proj2 (Hrow w)). destruct (Hu (S k) w Hw) as [? ?]. split; [done|lia]. }
    { rewrite (proj2 (Hrow new)). lia. }
    split; [by rewrite Hl; unfold h2, h1; rewrite !set_fwd_length|]. split.
    { intros x. destruct (Hr x) as [-> ->]. apply Hrow. }
    intros c j. rewrite Hf. destruct (Nat.leb_spec (S i) j) as [Hj|Hj].
    + destruct (Nat.leb_spec i j); [|lia]. replace (j - i)%nat with (S (j - S i)) by lia. cbn [lookup list_lookup].
      destruct (update !! (j - S i)%nat) as [w|]; rewrite ?Hf2; destruct (Nat.eqb_spec i j); try lia; done.
    + rewrite Hf2. destruct (Nat.leb_spec i j) as [Hij|Hij].
      * assert (i = j) as <- by lia. by rewrite Nat.eqb_refl, Nat.sub_diag.
      * destruct (Nat.eqb_spec i j); [lia|done].
Qed.

Lemma chain_keep h h' i : forall l x, chain h i x l -> (forall y, In y (x :: l) -> fwd h' y i = fwd h y i) -> chain h' i x l.
Proof.
  induction l as [|y l IH]; intros x Hc He; simpl in *; [by rewrite He by auto|].
  destruct Hc as [Hx Hc]. split; [by rewrite He by auto|]. apply IH; auto.
Qed.

(** Splicing a node into a chain. *)
Lemma chain_splice h h' i l1 l2 new c :
  chain h i c (l1 ++ l2) -> NoDup (c :: l1 ++ l2) -> ~ In new (c :: l1 ++ l2) ->
  fwd h' new i = fwd h (last_or c l1) i -> fwd h' (last_or c l1) i = Some new ->
  (forall x, In x (c :: l1 ++ l2) -> x <> last_or c l1 -> fwd h' x i = fwd h x i) ->
  chain h' i c (l1 ++ new :: l2).
Proof.
  revert c. induction l1 as [|x l1 IH]; intros c Hc Hnd Hnew Hn Hp Hother.
  - simpl in *. split; [done|]. unfold last_or in *. simpl in *.
    destruct l2 as [|y l2]; simpl in *; [by rewrite Hn|]. destruct Hc as [Hx Hc]. split; [by rewrite Hn|].
    apply (chain_keep h); [done|]. intros z Hz. apply Hother; [simpl; tauto|]. intros ->.
    apply NoDup_cons in Hnd as [Hni _]. apply Hni. by apply list_elem_of_In.
  - simpl in Hc. destruct Hc as [Hx Hc]. rewrite last_or_cons in *. cbn [app chain]. split.
    + rewrite Hother; [done|by left|]. intros E. apply NoDup_cons in Hnd as [Hni _]. apply Hni, list_elem_of_In.
      destruct (last_or_In x l1) as [E'|E']; rewrite E' in E || rewrite <- E in E'; [left; congruence|].
      right. apply in_or_app. by left.
    + apply IH; auto; [by apply NoDup_cons in Hnd as [_ ?]|intros Hin; apply Hnew; by right|].
      intros y Hy. apply Hother. by right.
Qed.


(** ** Insertion *)

Lemma from_head_key sl ids key n : wf_ids sl ids -> head (from (nodes sl) key ids) = Some n ->
  exists rest, from (nodes sl) key ids = n :: rest /\ In n ids.
Proof.
  intros Hwf Hh. destruct (from (nodes sl) key ids) as [|n' rest] eqn:E; [done|]. injection Hh as <-.
  exists rest. split; [done|]. assert (H : In n' (from (nodes sl) key ids)) by (rewrite E; by left). apply filter_In in H. tauto.
Qed.

Lemma rows_before h key ids : Forall (fun e => kcmp (KeyOrder:=bytes_key_order) e.1 key = Lt) (map (row_of h) (before h key ids)).
Proof.
  apply Forall_map. eapply Forall_impl; [apply before_lt|]. intros x. simpl. unfold bytes_ltb.
  by destruct (bytes_cmp (key_of h x) key).
Qed.

(** Overwriting the entry of a node changes no pointer. *)
Lemma alter_entry h n entry x :
  let h' := alter (fun nd => {| nkey := nkey nd; nentry := entry; forward := forward nd |}) n h in
  (forall i, fwd h' x i = fwd h x i) /\ key_of h' x = key_of h x /\ height h' x = height h x /\
  (x <> n -> row_of h' x = row_of h x) /\ (x = n -> (n < length h)%nat -> row_of h' x = (key_of h n, entry)).
Proof.
  intros h'. unfold fwd, key_of, height, row_of, key_of, h'. destruct (Nat.eqb_spec n x) as [<-|Hne].
  - rewrite list_lookup_alter_eq. destruct (h !! n) as [nd|] eqn:E; simpl; repeat split; try done.
    intros _ Hl. apply lookup_lt_is_Some_2 in Hl as [? ?]. congruence.
  - rewrite list_lookup_alter_ne by done. repeat split; congruence.
Qed.

Lemma insert_existing sl ids key entry n :
  wf_ids sl ids -> head (from (nodes sl) key ids) = Some n -> key_of (nodes sl) n = key ->
  let sl' := {| nodes := alter (fun nd => {| nkey := nkey nd; nentry := entry; forward := forward nd |}) n (nodes sl);
                level_ := level_ sl; size_ := size_ sl |} in
  wf_ids sl' ids /\ rows sl' ids = mset key entry (rows sl ids).
Proof.
  intros Hwf Hh Hk sl'. destruct (from_head_key _ _ _ _ Hwf Hh) as (rest & Ef & Hin).
  set (h := nodes sl) in *. set (h' := nodes sl').
  pose proof (sorted_split h key ids (wi_sorted _ _ Hwf)) as Hsplit. rewrite Ef in Hsplit.
  pose proof (alter_entry h n entry) as Halt. fold h in Halt. change (alter _ n h) with h' in Halt.
  assert (Hn : (n < length h)%nat) by (pose proof (wi_range _ _ Hwf) as Hr; rewrite Forall_forall in Hr; apply Hr; by apply list_elem_of_In).
  pose proof (wi_nodup _ _ Hwf) as Hnd.
  assert (Hrows : rows sl' ids = mset key entry (rows sl ids)).
  { unfold rows. rewrite Hsplit, !map_app. cbn [map].
    assert (Hrn : row_of h' n = (key, entry)) by (destruct (Halt n) as (_ & _ & _ & _ & ->); congruence).
    assert (Hne : forall l, ~ In n l -> map (row_of h') l = map (row_of h) l).
    { induction l as [|x l IH]; intros Hni; [done|]. simpl in *. destruct (Halt x) as (_ & _ & _ & -> & _); [|tauto]. rewrite IH; tauto. }
    fold h'. rewrite Hrn. rewrite Hsplit in Hnd. apply NoDup_cons in Hnd as [_ Hnd]. apply NoDup_app in Hnd as (_ & Hd1 & Hd2).
    apply NoDup_cons in Hd2 as [Hd2 _].
    rewrite !Hne; [|by rewrite <- list_elem_of_In|intros Hb%list_elem_of_In; apply (Hd1 n Hb); by left].
    unfold row_of at 4. fold h. rewrite Hk. symmetry. apply mset_replace, rows_before. }
  split; [|done]. destruct Hwf. fold h in wi_heap0, wi_head0, wi_range0, wi_heights0, wi_keys0, wi_chains0, wi_sorted0.
  assert (Hhe : forall x, height h' x = height h x) by (intros x; apply Halt).
  assert (Hke : forall x, key_of h' x = key_of h x) by (intros x; apply Halt).
  split; auto; fold h'.
  - by unfold h'; simpl; rewrite length_alter.
  - by rewrite Hhe.
  - unfold h'. simpl. by rewrite length_alter.
  - eapply Forall_impl; [exact wi_heights0|]. intros x. simpl. by rewrite Hhe.
  - change (msorted (rows sl' ids)). rewrite Hrows. apply msorted_mset, wi_sorted0.
  - eapply Forall_impl; [exact wi_keys0|]. intros x. simpl. by rewrite Hke.
  - intros i Hi. assert (Et : taller h' i ids = taller h i ids).
    { unfold taller. apply filter_ext. intros x. by rewrite Hhe. }
    rewrite Et. eapply chain_keep; [by apply wi_chains0|]. intros y _. apply Halt.
Qed.

Lemma lookup_heap_app h nd x : (x < length h)%nat ->
  (forall i, fwd (h ++ [nd]) x i = fwd h x i) /\ row_of (h ++ [nd]) x = row_of h x /\ height (h ++ [nd]) x = height h x.
Proof. intros Hx. unfold fwd, row_of, key_of, height. by rewrite lookup_app_l by done. Qed.

Lemma lookup_heap_new h nd :
  row_of (h ++ [nd]) (length h) = (nkey nd, nentry nd) /\ height (h ++ [nd]) (length h) = length (forward nd).
Proof. unfold row_of, key_of, height. by rewrite lookup_app_r, Nat.sub_diag by done. Qed.

Lemma pred_range sl ids key i : wf_ids sl ids -> (i < kSkiplistMaxLevel)%nat ->
  (pred (nodes sl) key ids i < length (nodes sl))%nat /\ (i < height (nodes sl) (pred (nodes sl) key ids i))%nat.
Proof.
  intros Hwf Hi. unfold pred. destruct (last_or_In 0 (taller (nodes sl) i (before (nodes sl) key ids))) as [->|Hin].
  - rewrite (wi_head _ _ Hwf), (wi_heap _ _ Hwf). lia.
  - apply filter_In in Hin as [Hin Hh]. apply Nat.ltb_lt in Hh. split; [|done].
    apply filter_In in Hin as [Hin _]. pose proof (wi_range _ _ Hwf) as Hr. rewrite Forall_forall in Hr. by apply Hr, list_elem_of_In.
Qed.

Lemma taller_above sl ids key i : wf_ids sl ids -> (level_ sl <= i)%nat -> taller (nodes sl) i (before (nodes sl) key ids) = [].
Proof.
  intros Hwf Hi. pose proof (wi_heights _ _ Hwf) as Hh. unfold taller, before. clear Hwf.
  induction Hh as [|x ids' Hx Hh IH]; simpl; [done|]. destruct (bytes_ltb (key_of (nodes sl) x) key); simpl; [|apply IH].
  destruct (Nat.ltb_spec i (height (nodes sl) x)); [lia|apply IH].
Qed.

(** [update] holds the predecessor at every level of the new node. *)
Lemma update_lookup sl ids key new_level k : wf_ids sl ids -> (k < new_level)%nat ->
  take new_level (map (pred (nodes sl) key ids) (seq 0 (level_ sl)) ++ replicate (new_level - level_ sl) 0%nat) !! k =
  Some (pred (nodes sl) key ids k).
Proof.
  intros Hwf Hk. rewrite lookup_take_lt by done.
  destruct (le_lt_dec (level_ sl) k) as [Hge|Hlt].
  - rewrite lookup_app_r by (rewrite length_map, length_seq; lia). rewrite length_map, length_seq.
    rewrite lookup_replicate_2 by lia. unfold pred. by rewrite taller_above.
  - rewrite lookup_app_l by (rewrite length_map, length_seq; lia).
    change (map (pred (nodes sl) key ids) (seq 0 (level_ sl))) with (pred (nodes sl) key ids <$> seq 0 (level_ sl)).
    rewrite list_lookup_fmap, lookup_seq_lt by lia. done.
Qed.

Section Fresh.
Context (sl : Skiplist) (ids : list nat) (flips : nat) (key : bytes) (entry : SnapshotEntry).
Context (Hwf : wf_ids sl ids) (Hvalid : is_valid_user_key key = true).
Context (Habsent : match head (from (nodes sl) key ids) with Some n => key_of (nodes sl) n <> key | None => True end).

Let h := nodes sl.
Let new := length h.
Let new_level := random_level flips.
Let node := {| nkey := key; nentry := entry; forward := replicate new_level None |}.
Let update := take new_level (map (pred h key ids) (seq 0 (level_ sl)) ++ replicate (new_level - level_ sl) 0%nat).
Let h' := link (h ++ [node]) new 0 update.
Let ids' := before h key ids ++ new :: from h key ids.

Lemma new_level_range : (1 <= new_level <= kSkiplistMaxLevel)%nat.
Proof. unfold new_level, random_level, kSkiplistMaxLevel. lia. Qed.

Lemma update_length : length update = new_level.
Proof. unfold update. rewrite length_take, length_app, length_map, length_seq, length_replicate. lia. Qed.

Lemma fresh_heap : length h' = S new /\
  (forall x, (x < new)%nat -> row_of h' x = row_of h x /\ height h' x = height h x) /\
  row_of h' new = (key, entry) /\ height h' new = new_level /\
  (forall c j, (c <= new)%nat -> fwd h' c j =
     if (j <? new_level)%nat then
       if (c =? new)%nat then fwd h (pred h key ids j) j else if (c =? pred h key ids j)%nat then Some new else fwd h c j
     else if (c =? new)%nat then None else fwd h c j).
Proof.
  pose proof new_level_range as Hnl. pose proof (lookup_heap_new h node) as [Hrn Hhn]. fold new in Hrn, Hhn.
  simpl in Hrn, Hhn. rewrite length_replicate in Hhn.
  assert (Hpred : forall k, (k < new_level)%nat -> (pred h key ids k < new)%nat /\ (k < height h (pred h key ids k))%nat)
    by (intros k Hk; apply (pred_range sl ids key k Hwf); lia).
  destruct (link_spec update (h ++ [node]) new 0) as (Hl & Hr & Hf).
  { intros k u Hu. assert (Hk : (k < new_level)%nat) by (rewrite <- update_length; by eapply lookup_lt_Some).
    unfold update in Hu. unfold h in Hu. rewrite (update_lookup sl ids key new_level k Hwf Hk) in Hu. injection Hu as <-. fold h.
    destruct (Hpred k Hk). split; [lia|]. destruct (lookup_heap_app h node (pred h key ids k)) as (_ & _ & ->); [done|lia]. }
  { rewrite update_length. unfold new in Hhn |- *. rewrite Hhn. done. }
  fold h' in Hl, Hr, Hf. split; [rewrite Hl, length_app; simpl; fold new; lia|]. split.
  { intros x Hx. destruct (Hr x) as [-> ->]. by destruct (lookup_heap_app h node x Hx) as (_ & -> & ->). }
  split; [by rewrite (proj1 (Hr new))|]. split; [by rewrite (proj2 (Hr new))|].
  intros c j Hc. rewrite Hf. simpl. rewrite Nat.sub_0_r.
  assert (Hold : forall y, (y < new)%nat -> fwd (h ++ [node]) y j = fwd h y j) by (intros y Hy; by destruct (lookup_heap_app h node y Hy)).
  destruct (Nat.ltb_spec j new_level) as [Hj|Hj].
  - unfold update, h. rewrite (update_lookup sl ids key new_level j Hwf Hj). fold h.
    destruct (Hpred j Hj) as [Hp _]. rewrite (Hold _ Hp).
    destruct (Nat.eqb_spec c new) as [->|Hcn]; [done|]. rewrite Hold by lia. done.
  - rewrite lookup_ge_None_2 by (rewrite update_length; lia).
    destruct (Nat.eqb_spec c new) as [->|Hcn]; [|by rewrite Hold by lia].
    apply fwd_above. unfold new in Hhn |- *. rewrite Hhn. exact Hj.
Qed.

Lemma fresh_ids_old x : In x (before h key ids) \/ In x (from h key ids) -> In x ids /\ (x < new)%nat /\ x <> 0%nat.
Proof.
  intros Hx. assert (Hin : In x ids) by (destruct Hx as [Hx|Hx]; apply filter_In in Hx; tauto). split; [done|].
  pose proof (wi_range _ _ Hwf) as Hr. rewrite Forall_forall in Hr. split; [by apply Hr, list_elem_of_In|].
  intros ->. pose proof (wi_nodup _ _ Hwf) as Hnd. apply NoDup_cons in Hnd as [Hnd _]. apply Hnd. by apply list_elem_of_In.
Qed.

Lemma fresh_rows : map (row_of h') ids' = mset key entry (rows sl ids) /\ msorted (map (row_of h') ids').
Proof.
  destruct fresh_heap as (_ & Hold & Hnew & _ & _).
  assert (Hmap : forall l, (forall x, In x l -> (x < new)%nat) -> map (row_of h') l = map (row_of h) l).
  { intros l Hl. apply map_ext_in. intros x Hx. by apply Hold, Hl. }
  assert (E : map (row_of h') ids' = mset key entry (rows sl ids)).
  { unfold ids', rows. rewrite map_app. cbn [map]. rewrite Hnew, !Hmap by (intros x Hx; apply fresh_ids_old; auto).
    fold h. rewrite (sorted_split h key ids (wi_sorted _ _ Hwf)) at 3. rewrite map_app. symmetry.
    apply mset_middle; [apply rows_before|].
    pose proof (wi_sorted _ _ Hwf) as Hs. fold h in Hs. rewrite (sorted_split h key ids Hs), map_app in Hs.
    apply msorted_app in Hs as (_ & Hs & _). pose proof (from_ge h key ids) as Hge. fold h in Habsent.
    destruct (from h key ids) as [|n rest]; [constructor|]. simpl in Habsent. apply Forall_cons in Hge as [Hn _].
    apply msorted_cons_inv in Hs as [Ha _].
    assert (Hlt : bytes_cmp key (key_of h n) = Lt).
    { unfold bytes_ltb in Hn. rewrite (bytes_cmp_opp (key_of h n) key). destruct (bytes_cmp (key_of h n) key) eqn:Ec; try done.
      by apply bytes_cmp_eq in Ec. }
    constructor; [exact Hlt|]. eapply above_trans; [exact Hlt|exact Ha]. }
  split; [done|]. rewrite E. apply msorted_mset, (wi_sorted _ _ Hwf).
Qed.

Lemma fresh_nodup : NoDup (0%nat :: ids').
Proof.
  pose proof (wi_nodup _ _ Hwf) as Hnd. rewrite (sorted_split h key ids (wi_sorted _ _ Hwf)) in Hnd.
  assert (Hperm : 0%nat :: ids' ≡ₚ new :: 0%nat :: before h key ids ++ from h key ids).
  { unfold ids'. rewrite <- Permutation_middle. apply Permutation_swap. }
  rewrite Hperm. apply NoDup_cons. split; [|done]. intros Hin%list_elem_of_In.
  destruct Hin as [H0|Hin]; [unfold new, h in H0; rewrite (wi_heap _ _ Hwf) in H0; lia|].
  apply in_app_or in Hin. apply fresh_ids_old in Hin. lia.
Qed.

Lemma fresh_taller i : taller h' i ids' =
  taller h i (before h key ids) ++ (if (i <? new_level)%nat then [new] else []) ++ taller h i (from h key ids).
Proof.
  destruct fresh_heap as (_ & Hold & _ & Hnew & _). unfold ids'.
  assert (Hext : forall l, (forall x, In x l -> (x < new)%nat) -> taller h' i l = taller h i l).
  { intros l Hl. unfold taller. apply filter_ext_in. intros x Hx. by rewrite (proj2 (Hold x (Hl x Hx))). }
  rewrite taller_app, Hext by (intros x Hx; apply fresh_ids_old; auto).
  change (new :: from h key ids) with ([new] ++ from h key ids).
  rewrite taller_app, (Hext (from h key ids)) by (intros x Hx; apply fresh_ids_old; auto).
  f_equal. f_equal. unfold taller. simpl. by rewrite Hnew.
Qed.

Lemma fresh_chain i : (i < kSkiplistMaxLevel)%nat -> chain h' i 0 (taller h' i ids').
Proof.
  intros Hi. rewrite fresh_taller. destruct fresh_heap as (_ & _ & _ & _ & Hf).
  pose proof (wi_chains _ _ Hwf i Hi) as Hc. fold h in Hc.
  rewrite (sorted_split h key ids (wi_sorted _ _ Hwf)), taller_app in Hc.
  set (A := taller h i (before h key ids)) in *. set (B := taller h i (from h key ids)) in *.
  assert (Hlt : forall x, In x (0%nat :: A ++ B) -> (x < new)%nat).
  { intros x [<-|Hx]; [unfold new, h; rewrite (wi_heap _ _ Hwf); lia|]. apply fresh_ids_old.
    apply in_app_or in Hx. unfold A, B, taller in Hx. rewrite !filter_In in Hx. tauto. }
  assert (Hnd : NoDup (0%nat :: A ++ B)).
  { pose proof (wi_nodup _ _ Hwf) as Hnd. rewrite (sorted_split h key ids (wi_sorted _ _ Hwf)) in Hnd. fold h in Hnd.
    apply NoDup_cons in Hnd as [H0 Hnd]. apply NoDup_cons. split.
    - intros Hin. apply H0. apply list_elem_of_In in Hin. apply list_elem_of_In. unfold A, B in Hin. rewrite <- taller_app in Hin.
      apply filter_In in Hin. tauto.
    - unfold A, B. rewrite <- taller_app. apply NoDup_ListNoDup, List.NoDup_filter, NoDup_ListNoDup. done. }
  destruct (Nat.ltb_spec i new_level) as [Hnl|Hnl].
  - cbn [app]. apply (chain_splice h h' i A B new 0); auto.
    + intros Hin. apply Hlt in Hin. lia.
    + rewrite Hf by lia. destruct (Nat.ltb_spec i new_level); [|lia]. by rewrite Nat.eqb_refl.
    + assert (Hp : (last_or 0 A < new)%nat) by (apply Hlt; destruct (last_or_In 0 A) as [->|]; [by left|right; apply in_or_app; by left]).
      rewrite Hf by lia. destruct (Nat.ltb_spec i new_level); [|lia]. change (pred h key ids i) with (last_or 0 A).
      rewrite Nat.eqb_refl. destruct (Nat.eqb_spec (last_or 0 A) new); [lia|done].
    + intros x Hx Hne. pose proof (Hlt x Hx). rewrite Hf by lia. change (pred h key ids i) with (last_or 0 A).
      destruct (Nat.eqb_spec x new); [lia|]. destruct (Nat.eqb_spec x (last_or 0 A)); [done|]. by destruct (i <? new_level)%nat.
  - cbn [app]. eapply chain_keep; [exact Hc|]. intros x Hx. pose proof (Hlt x Hx). rewrite Hf by lia.
    destruct (Nat.ltb_spec i new_level); [lia|]. destruct (Nat.eqb_spec x new); [lia|done].
Qed.

Lemma fresh_wf :
  wf_ids {| nodes := h'; level_ := if (level_ sl <? new_level)%nat then new_level else level_ sl; size_ := size_ sl + 1 |} ids'.
Proof.
  destruct fresh_heap as (Hl & Hold & Hnew & Hhn & _). pose proof new_level_range as Hnl.
  assert (Hlen : length ids' = S (length ids)).
  { unfold ids'. rewrite (sorted_split h key ids (wi_sorted _ _ Hwf)) at 3. rewrite !length_app. simpl. lia. }
  assert (Hall : forall P : nat -> Prop, P new -> (forall x, In x ids -> (x < new)%nat -> P x) -> Forall P ids').
  { intros P Hn Ho. apply Forall_forall. intros x Hx%list_elem_of_In. unfold ids' in Hx. apply in_app_or in Hx.
    destruct Hx as [Hx|[<-|Hx]]; [|done|]; apply Ho; apply fresh_ids_old; auto. }
  pose proof (wi_level _ _ Hwf). pose proof (wi_heights _ _ Hwf) as Hhs. pose proof (wi_keys _ _ Hwf) as Hks.
  rewrite Forall_forall in Hhs, Hks.
  split; cbn [nodes level_ size_].
  - rewrite Hl, Hlen. unfold new, h. by rewrite (wi_heap _ _ Hwf).
  - destruct (Hold 0%nat) as [_ ->]; [unfold new, h; rewrite (wi_heap _ _ Hwf); lia|apply (wi_head _ _ Hwf)].
  - apply fresh_nodup.
  - rewrite Hl. apply Hall; intros; lia.
  - apply Hall.
    + rewrite Hhn. destruct (Nat.ltb_spec (level_ sl) new_level); lia.
    + intros x Hx Hxn. rewrite (proj2 (Hold x Hxn)). specialize (Hhs x (proj2 (list_elem_of_In _ _) Hx)). simpl in Hhs. fold h in Hhs.
      destruct (Nat.ltb_spec (level_ sl) new_level); lia.
  - destruct (Nat.ltb_spec (level_ sl) new_level); lia.
  - apply fresh_rows.
  - apply Hall.
    + pose proof (f_equal fst Hnew) as E. simpl in E. by rewrite E.
    + intros x Hx Hxn. pose proof (f_equal fst (proj1 (Hold x Hxn))) as E. simpl in E. rewrite E.
      apply Hks. by apply list_elem_of_In.
  - apply fresh_chain.
  - rewrite (wi_size _ _ Hwf). unfold len. rewrite Hlen. lia.
Qed.
End Fresh.

Lemma empty_wf : wf_ids empty_skiplist [].
Proof.
  split; simpl; try (by constructor); auto; try (unfold kSkiplistMaxLevel; lia).
  - apply NoDup_singleton.
  - intros i Hi. change (mjoin (replicate (A:=option nat) kSkiplistMaxLevel None !! i) = None).
    destruct (replicate _ None !! i) eqn:E; [|done]. by apply lookup_replicate in E as [-> _].
Qed.

(** A key is stored when it is valid and the list has room or has it already. *)
Definition accepts (sl : Skiplist) (key : bytes) : bool :=
  is_valid_user_key key && (bool_decide (is_Some (mget key (get_all_entries sl))) || (size_ sl <? kMaxSkiplistEntries)).

Lemma insert_spec sl flips key entry : wf sl ->
  wf (insert sl flips key entry) /\
  get_all_entries (insert sl flips key entry) =
    if accepts sl key then mset key entry (get_all_entries sl) else get_all_entries sl.
Proof.
  intros [ids Hwf]. unfold insert, accepts. rewrite (get_all_entries_rows _ _ Hwf).
  destruct (is_valid_user_key key) eqn:Hv; simpl; [|split; [by exists ids|by apply get_all_entries_rows]].
  rewrite (descend_wf _ _ _ Hwf), (pred_0_next _ _ _ Hwf).
  pose proof (mget_rows _ _ key (wi_sorted _ _ Hwf)) as Hm. fold (rows sl ids) in Hm.
  assert (Hfresh : match head (from (nodes sl) key ids) with Some n => key_of (nodes sl) n <> key | None => True end ->
    forall r, r = insert_new sl flips key entry (map (pred (nodes sl) key ids) (seq 0 (level_ sl))) ->
    wf r /\ get_all_entries r = if false || (size_ sl <? kMaxSkiplistEntries) then mset key entry (rows sl ids) else rows sl ids).
  { intros Habs r ->. unfold insert_new. rewrite (current_level_wf _ _ Hwf). simpl orb.
    destruct (Z.leb_spec kMaxSkiplistEntries (size_ sl)), (Z.ltb_spec (size_ sl) kMaxSkiplistEntries); try lia.
    - split; [by exists ids|by apply get_all_entries_rows].
    - pose proof (fresh_wf sl ids flips key entry Hwf Hv Habs) as Hw. split; [eexists; exact Hw|].
      rewrite (get_all_entries_rows _ _ Hw). apply (fresh_rows sl ids flips key entry Hwf Habs). }
  destruct (head (from (nodes sl) key ids)) as [n|] eqn:Eh.
  - destruct (bytes_eqb_spec (key_of (nodes sl) n) key) as [Ek|Ek].
    + destruct (insert_existing sl ids key entry n Hwf Eh Ek) as [Hw Hr]. rewrite bool_decide_eq_true_2 by by rewrite Hm.
      simpl. split; [by exists ids|]. by rewrite (get_all_entries_rows _ _ Hw).
    + rewrite bool_decide_eq_false_2 by (rewrite Hm; by intros [? ?]). by apply Hfresh.
  - rewrite bool_decide_eq_false_2 by (rewrite Hm; by intros [? ?]). by apply Hfresh.
Qed.

Definition live (e : SnapshotEntry) : option AttributeMap := if is_deleted e then None else Some (attributes e).

Lemma find_node_entries sl key : wf sl ->
  mget key (get_all_entries sl) =
  match find_node sl key with Some n => Some (from_option nentry tombstone (nodes sl !! n)) | None => None end.
Proof.
  intros [ids Hwf]. rewrite (get_all_entries_rows _ _ Hwf). pose proof (find_node_spec sl ids key Hwf) as H.
  destruct (find_node sl key); tauto.
Qed.

Lemma find_node_heap sl key n : wf sl -> find_node sl key = Some n -> exists nd, nodes sl !! n = Some nd.
Proof.
  intros [ids Hwf] E. pose proof (find_node_spec sl ids key Hwf) as H. rewrite E in H. destruct H as (Hin & _ & _).
  pose proof (wi_range _ _ Hwf) as Hr. rewrite Forall_forall in Hr. apply list_elem_of_In, Hr in Hin.
  apply lookup_lt_is_Some_2 in Hin as [nd ?]. by exists nd.
Qed.

Lemma entries_valid sl key e : wf sl -> mget key (get_all_entries sl) = Some e -> is_valid_user_key key = true.
Proof.
  intros [ids Hwf] H. rewrite (get_all_entries_rows _ _ Hwf) in H. apply mget_Some_In, in_map_iff in H as (x & Ex & Hin).
  pose proof (wi_keys _ _ Hwf) as Hk. rewrite Forall_forall in Hk. apply list_elem_of_In, Hk in Hin.
  unfold row_of in Ex. congruence.
Qed.

Lemma get_spec sl key : wf sl -> get sl key = mget key (get_all_entries sl) ≫= live.
Proof.
  intros Hwf. unfold get. destruct (is_valid_user_key key) eqn:Hv; simpl.
  - rewrite find_node_entries by done. destruct (find_node sl key) as [n|] eqn:E; [|done].
    destruct (find_node_heap _ _ _ Hwf E) as [nd Hn]. rewrite Hn. done.
  - destruct (mget key (get_all_entries sl)) eqn:E; [|done]. apply entries_valid in E; [congruence|done].
Qed.

Lemma is_tombstoned_spec sl key : wf sl ->
  is_tombstoned sl key = match mget key (get_all_entries sl) with Some e => is_deleted e | None => false end.
Proof.
  intros Hwf. unfold is_tombstoned. destruct (is_valid_user_key key) eqn:Hv; simpl.
  - rewrite find_node_entries by done. destruct (find_node sl key) as [n|] eqn:E; [|done].
    destruct (find_node_heap _ _ _ Hwf E) as [nd Hn]. rewrite Hn. done.
  - destruct (mget key (get_all_entries sl)) eqn:E; [|done]. apply entries_valid in E; [congruence|done].
Qed.

Lemma entries_sorted sl : wf sl -> msorted (get_all_entries sl).
Proof. intros [ids Hwf]. rewrite (get_all_entries_rows _ _ Hwf). apply (wi_sorted _ _ Hwf). Qed.

Lemma size_entries sl : wf sl -> size_ sl = len (get_all_entries sl).
Proof.
  intros [ids Hwf]. rewrite (get_all_entries_rows _ _ Hwf), (wi_size _ _ Hwf). unfold rows, len. by rewrite length_map.
Qed.

End SL.

(** ** MemTable *)

Definition MemTable := SL.Skiplist.
Definition mt_empty : MemTable := SL.empty_skiplist.
Definition mt_put (m : MemTable) (flips : nat) (key : bytes) (a : AttributeMap) : MemTable :=
  SL.insert m flips key {| attributes := a; is_deleted := false |}.
Definition mt_remove (m : MemTable) (flips : nat) (key : bytes) : MemTable := SL.insert m flips key tombstone.
Definition mt_get (m : MemTable) (key : bytes) : option AttributeMap := SL.get m key.
Definition mt_is_tombstoned (m : MemTable) (key : bytes) : bool := SL.is_tombstoned m key.
Definition mt_get_all_entries (m : MemTable) : list (bytes * SnapshotEntry) := SL.get_all_entries m.
Definition mt_size (m : MemTable) : Z := SL.size m.

(** The entries of a memtable after a history of writes. *)
Inductive MtOp := MtPut (flips : nat) (key : bytes) (a : AttributeMap) | MtRemove (flips : nat) (key : bytes).

Definition mt_run (m : MemTable) (op : MtOp) : MemTable :=
  match op with MtPut f k a => mt_put m f k a | MtRemove f k => mt_remove m f k end.

Definition mt_spec (e : list (bytes * SnapshotEntry)) (op : MtOp) : list (bytes * SnapshotEntry) :=
  match op with
  | MtPut _ k a => mset k {| attributes := a; is_deleted := false |} e
  | MtRemove _ k => mset k tombstone e
  end.

Definition mt_op_key (op : MtOp) : bytes := match op with MtPut _ k _ | MtRemove _ k => k end.

Lemma mset_len {V} (k : bytes) (v : V) m : len (mset k v m) <= len m + 1.
Proof.
  induction m as [|[k1 v1] m IH]; [unfold len; simpl; lia|]. cbn [mset]. destruct (kcmp k k1); rewrite ?len_cons; lia.
Qed.

(** Writes with a valid key and room are assignments on the entries. *)
Lemma mt_insert m flips k e : SL.wf m -> SL.is_valid_user_key k = true -> len (mt_get_all_entries m) < kMaxSkiplistEntries ->
  SL.wf (SL.insert m flips k e) /\ mt_get_all_entries (SL.insert m flips k e) = mset k e (mt_get_all_entries m).
Proof.
  unfold mt_get_all_entries. intros Hwf Hk Hlen. destruct (SL.insert_spec m flips k e Hwf) as [Hw He]. split; [done|].
  rewrite He. unfold SL.accepts. rewrite Hk, (SL.size_entries m Hwf).
  destruct (Z.ltb_spec (len (SL.get_all_entries m)) kMaxSkiplistEntries); [by rewrite orb_true_r|lia].
Qed.

(** C21: the skip list is a sorted map.  After any sequence of puts and removals
    with valid keys (fewer than the entry limit), whatever levels the coin flips
    give the nodes, the traversal of the bottom level returns exactly the map
    the writes define, and the pointer search of [get] and [is_tombstoned] finds
    in it the live value or the tombstone of every key. *)
Theorem skiplist_refines_map ops key :
  Forall (fun op => SL.is_valid_user_key (mt_op_key op) = true) ops -> len ops < kMaxSkiplistEntries ->
  let m := fold_left mt_run ops mt_empty in
  let spec := fold_left mt_spec ops [] in
  mt_get_all_entries m = spec /\ msorted spec /\
  mt_get m key = (mget key spec ≫= SL.live) /\
  mt_is_tombstoned m key = match mget key spec with Some e => is_deleted e | None => false end.
Proof.
  intros Hops Hlen m spec.
  assert (Hgen : forall ops m0, Forall (fun op => SL.is_valid_user_key (mt_op_key op) = true) ops -> SL.wf m0 ->
    len (mt_get_all_entries m0) + len ops < kMaxSkiplistEntries ->
    SL.wf (fold_left mt_run ops m0) /\ mt_get_all_entries (fold_left mt_run ops m0) = fold_left mt_spec ops (mt_get_all_entries m0)).
  { clear. induction ops as [|op ops IH]; intros m0 Hops Hwf Hlen; [done|]. apply Forall_cons in Hops as [Hop Hops]. rewrite len_cons in Hlen.
    assert (Hstep : SL.wf (mt_run m0 op) /\ mt_get_all_entries (mt_run m0 op) = mt_spec (mt_get_all_entries m0) op).
    { pose proof (len_nonneg ops). destruct op as [f k a|f k]; apply mt_insert; auto; lia. }
    destruct Hstep as [Hw He]. cbn [fold_left]. rewrite <- He. apply IH; [done|done|]. rewrite He.
    enough (len (mt_spec (mt_get_all_entries m0) op) <= len (mt_get_all_entries m0) + 1) by lia.
    destruct op; apply mset_len. }
  destruct (Hgen ops mt_empty Hops (ex_intro _ [] SL.empty_wf)) as [Hw He]; [exact Hlen|].
  fold m in Hw, He. change (mt_get_all_entries mt_empty) with (@nil (bytes * SnapshotEntry)) in He. fold spec in He.
  unfold mt_get_all_entries in He. unfold mt_get, mt_is_tombstoned. rewrite SL.get_spec, SL.is_tombstoned_spec by done. rewrite He.
  repeat split; try done. rewrite <- He. by apply SL.entries_sorted.
Qed.

Lemma skiplist_refines_map_witness :
  mt_get (fold_left mt_run [MtPut 3 (lit "b") []; MtPut 0 (lit "a") []; MtRemove 5 (lit "b")] mt_empty) (lit "b") = None /\
  mt_is_tombstoned (fold_left mt_run [MtPut 3 (lit "b") []; MtPut 0 (lit "a") []; MtRemove 5 (lit "b")] mt_empty) (lit "b") = true.
Proof.
  destruct (skiplist_refines_map [MtPut 3 (lit "b") []; MtPut 0 (lit "a") []; MtRemove 5 (lit "b")] (lit "b")) as (_ & _ & H1 & H2);
    [repeat constructor|reflexivity|]. rewrite H1, H2. split; reflexivity.
Defined.
