(* ===== verification/SSTable.v ===== *)
(** * SSTables

    [src/engine/lsm/sstable.cpp]: the writer that streams records and an index,
    and the reader over the mapped file.  A file is a byte string; a cursor into
    a region of the mapping is the unread rest of that region, so the source's
    bounds checks are the failures of [read_le] and [read_n].  [None] at the
    outer level of a reader's result is a thrown exception; stream and file
    system calls are taken to succeed (their failures make the writer return
    false before anything is published). *)

From Stdlib Require Import ZArith Lia Strings.String.
From stdpp Require Import prelude.
From S2P Require Import Prelude StdMap Types RecordCodec Skiplist Wal.

Module SST.

(** ** Writer *)

Record Writer := {
  data_ : bytes;
  index_ : bytes;
  entry_count_ : Z;
  min_key_ : bytes;
  max_key_ : bytes;
  previous_key_ : bytes;
  finished_ : bool
}.

Definition new_writer : Writer :=
  {| data_ := []; index_ := []; entry_count_ := 0; min_key_ := []; max_key_ := []; previous_key_ := []; finished_ := false |}.

Definition with_data (w : Writer) (d : bytes) : Writer :=
  {| data_ := d; index_ := index_ w; entry_count_ := entry_count_ w; min_key_ := min_key_ w; max_key_ := max_key_ w;
     previous_key_ := previous_key_ w; finished_ := finished_ w |}.

(** The loop over the attributes: the data written so far and whether it
    completed; [None] is the dereference of a null pointer inside a value. *)
Fixpoint write_attributes (data : bytes) (attrs : AttributeMap) : option (bytes * bool) :=
  match attrs with
  | [] => Some (data, true)
  | (name, value) :: attrs' =>
      match value with
      | None => Some (data, false)
      | Some v =>
          if u32_max <? len name then Some (data, false) else
          match encode_attribute_value v with
          | None => None
          | Some encoded =>
              if u32_max <? len encoded then Some (data, false)
              else write_attributes (put_bytes (put_bytes data name) encoded) attrs'
          end
      end
  end.

Definition append (w : Writer) (key : bytes) (entry : SnapshotEntry) : option (Writer * bool) :=
  if finished_ w || bool_decide (key = []) || (u32_max <? len key) || (u32_max <? len (attributes entry))
     || (u32_max <=? entry_count_ w)
  then Some (w, false)
  else if negb (bool_decide (previous_key_ w = [])) && bytes_leb key (previous_key_ w) then Some (w, false)
  else
    let record_offset := len (data_ w) in
    let data := put_bytes (data_ w) key ++ [if is_deleted entry then Byte.x01 else Byte.x00] in
    let data := put_u32 data (len (attributes entry)) in
    match write_attributes data (attributes entry) with
    | None => None
    | Some (data, false) => Some (with_data w data, false)
    | Some (data, true) =>
        Some ({| data_ := data;
                 index_ := put_bytes (index_ w) key ++ le_bytes 8 (u64 record_offset);
                 entry_count_ := entry_count_ w + 1;
                 min_key_ := if entry_count_ w =? 0 then key else min_key_ w;
                 max_key_ := key; previous_key_ := key; finished_ := false |}, true)
    end.

(** The finished file; the temporary index is copied behind the data. *)
Definition finish (w : Writer) : Writer * option bytes :=
  if finished_ w then (w, Some (data_ w))
  else if u32_max <? entry_count_ w then (w, None)
  else
    let index_offset := len (data_ w) in
    let file := put_u32 (data_ w) (entry_count_ w) ++ index_ w ++ le_bytes 8 (u64 index_offset) in
    ({| data_ := file; index_ := index_ w; entry_count_ := entry_count_ w; min_key_ := min_key_ w;
        max_key_ := max_key_ w; previous_key_ := previous_key_ w; finished_ := true |}, Some file).

Fixpoint append_all (w : Writer) (entries : list (bytes * SnapshotEntry)) : option (Writer * bool) :=
  match entries with
  | [] => Some (w, true)
  | (key, entry) :: entries' =>
      match append w key entry with
      | None => None
      | Some (w, false) => Some (w, false)
      | Some (w, true) => append_all w entries'
      end
  end.

(** [SSTable::create]: the contents of the published file, or [None] inside for
    the empty string it returns on failure. *)
Definition create (entries : list (bytes * SnapshotEntry)) : option (option bytes) :=
  match append_all new_writer entries with
  | None => None
  | Some (_, false) => Some None
  | Some (w, true) => Some (snd (finish w))
  end.

(** ** Reader *)

Record SSTable := {
  path_ : bytes;
  mapping_ : bytes;
  data_end_offset_ : Z;
  index_entry_offsets_ : list Z
}.

Inductive LoadError :=
| TruncatedFile | InvalidIndexOffset | TruncatedIndexHeader | ImpossibleIndexCount
| TruncatedIndexEntry | InvalidRecordOffset | IndexSizeMismatch.

(** The loop that validates the index and collects the entry positions; [d] is
    the unread rest of the index region and [position] where it starts. *)
Fixpoint load_entries (count : nat) (data_end position : Z) (d : bytes) (offsets : list Z)
  : expected (list Z * bytes) LoadError :=
  match count with
  | O => Ok (offsets, d)
  | S count' =>
      match read_le 4 d with
      | None => Err TruncatedIndexEntry
      | Some (key_len, d1) =>
          match read_n key_len d1 with
          | None => Err TruncatedIndexEntry
          | Some (_, d2) =>
              match read_le 8 d2 with
              | None => Err TruncatedIndexEntry
              | Some (record_offset, d3) =>
                  if data_end <=? record_offset then Err InvalidRecordOffset
                  else load_entries count' data_end (position + 4 + key_len + 8) d3 (offsets ++ [position])
              end
          end
      end
  end.

Definition load_index (path mapping : bytes) : expected SSTable LoadError :=
  let size := len mapping in
  if size <? 12 then Err TruncatedFile else
  let data_end := le_value (take 8 (drop (Z.to_nat (size - 8)) mapping)) in
  if size - 12 <? data_end then Err InvalidIndexOffset else
  let region := take (Z.to_nat (size - 8)) mapping in
  match read_le 4 (drop (Z.to_nat data_end) region) with
  | None => Err TruncatedIndexHeader
  | Some (index_size, d) =>
      if len d / 12 <? index_size then Err ImpossibleIndexCount else
      let? p := load_entries (Z.to_nat index_size) data_end (data_end + 4) d [] in
      if negb (bool_decide (snd p = [])) then Err IndexSizeMismatch
      else Ok {| path_ := path; mapping_ := mapping; data_end_offset_ := data_end; index_entry_offsets_ := fst p |}
  end.

Definition entry_count (s : SSTable) : nat := length (index_entry_offsets_ s).

Definition file_size (s : SSTable) : Z := len (mapping_ s).

Definition index_entry (s : SSTable) (position : nat) : option (bytes * Z) :=
  match index_entry_offsets_ s !! position with
  | None => None
  | Some off =>
      match read_le 4 (drop (Z.to_nat off) (mapping_ s)) with
      | None => None
      | Some (key_len, d) =>
          match read_n key_len d with
          | None => None
          | Some (key, d) => match read_le 8 d with None => None | Some (record_offset, _) => Some (key, record_offset) end
          end
      end
  end.

(** The two binary searches; [goes_right k] is the condition to continue in the
    upper half. *)
Fixpoint bound_loop (fuel : nat) (s : SSTable) (goes_right : bytes -> bool) (first count : nat) : option nat :=
  match fuel with
  | O => Some first
  | S fuel' =>
      if (count =? 0)%nat then Some first
      else
        let step := (count / 2)%nat in
        let middle := (first + step)%nat in
        match index_entry s middle with
        | None => None
        | Some (k, _) =>
            if goes_right k then bound_loop fuel' s goes_right (middle + 1) (count - (step + 1))
            else bound_loop fuel' s goes_right first step
        end
  end.

Definition lower_bound_index (s : SSTable) (key : bytes) : option nat :=
  bound_loop (S (entry_count s)) s (fun k => bytes_ltb k key) 0 (entry_count s).

Definition upper_bound_index (s : SSTable) (key : bytes) : option nat :=
  bound_loop (S (entry_count s)) s (fun k => negb (bytes_ltb key k)) 0 (entry_count s).

Definition contains (s : SSTable) (key : bytes) : option bool :=
  match lower_bound_index s key with
  | None => None
  | Some position =>
      if (position <? entry_count s)%nat
      then match index_entry s position with Some (k, _) => Some (bytes_eqb k key) | None => None end
      else Some false
  end.

(** One attribute of a record: a name and a length-delimited encoded value. *)
Definition read_attribute (d : bytes) : option ((bytes * AttributeValue) * bytes) :=
  match read_sized d with
  | None => None
  | Some (name, d) =>
      match read_sized d with
      | None => None
      | Some (encoded, d) =>
          match decode_attribute_value encoded with
          | Some v => Some ((name, v), d)
          | None => None
          end
      end
  end.

Definition emplace_attribute (m : AttributeMap) (e : bytes * AttributeValue) : AttributeMap := memplace e.1 (Some e.2) m.

(** The record at a cursor: its key must be the indexed one. *)
Definition parse_record (ikey d : bytes) : option SnapshotEntry :=
  match read_sized d with
  | None => None
  | Some (key, d) =>
      if negb (bytes_eqb key ikey) then None else
      match read_le 1 d with
      | None => None
      | Some (deleted, d) =>
          match read_counted read_attribute emplace_attribute [] d with
          | None => None
          | Some (attrs, _) => Some {| attributes := attrs; is_deleted := negb (deleted =? 0) |}
          end
      end
  end.

(** [None]: an exception; [Some None]: the [nullopt] of a corrupt record. *)
Definition read_entry (s : SSTable) (position : nat) : option (option SnapshotEntry) :=
  if negb (position <? entry_count s)%nat then Some None else
  match index_entry s position with
  | None => None
  | Some (ikey, off) =>
      Some (parse_record ikey (drop (Z.to_nat off) (take (Z.to_nat (data_end_offset_ s)) (mapping_ s))))
  end.

Definition get (s : SSTable) (key : bytes) : option (option AttributeMap) :=
  match lower_bound_index s key with
  | None => None
  | Some position =>
      if negb (position <? entry_count s)%nat then Some None else
      match index_entry s position with
      | None => None
      | Some (k, _) =>
          if negb (bytes_eqb k key) then Some None else
          match read_entry s position with
          | None => None
          | Some None => Some None
          | Some (Some entry) => if is_deleted entry then Some None else Some (Some (attributes entry))
          end
      end
  end.

(** ** What an opened table represents *)

Record rep (s : SSTable) (es : list (bytes * SnapshotEntry)) : Prop := {
  rep_count : entry_count s = length es;
  rep_sorted : msorted es;
  rep_index : forall i k e, es !! i = Some (k, e) -> exists off, index_entry s i = Some (k, off);
  rep_read : forall i k e, es !! i = Some (k, e) -> read_entry s i = Some (Some e)
}.

(** Binary search for the boundary of a monotone predicate. *)
Lemma bound_loop_spec s es p n :
  rep s es -> (forall i k e, es !! i = Some (k, e) -> p k = (i <? n)%nat) ->
  forall fuel first count, (first <= n <= first + count)%nat -> (first + count <= length es)%nat -> (count < fuel)%nat ->
  bound_loop fuel s p first count = Some n.
Proof.
  intros Hr Hp. induction fuel as [|fuel IH]; intros first count Hn Hl Hf; [lia|]. cbn [bound_loop].
  destruct (Nat.eqb_spec count 0) as [->|Hc]; [f_equal; lia|].
  assert (Hs : (count / 2 < count)%nat) by (apply Nat.div_lt; lia).
  destruct (lookup_lt_is_Some_2 es (first + count / 2)) as [[k e] He]; [lia|].
  destruct (rep_index _ _ Hr _ _ _ He) as [off ->]. rewrite (Hp _ _ _ He).
  destruct (Nat.ltb_spec (first + count / 2) n); apply IH; lia.
Qed.

Lemma mbefore_lookup {V} key (es : list (bytes * V)) i k e : msorted es -> es !! i = Some (k, e) ->
  bytes_ltb k key = (i <? length (mbefore key es))%nat.
Proof.
  intros Hs. revert i. induction Hs as [|k1 v1 es Ha Hs IH]; intros i Hi; [done|]. simpl. unfold bytes_ltb.
  destruct i as [|i]; simpl in Hi.
  - injection Hi as -> ->. by destruct (bytes_cmp k key).
  - specialize (IH i Hi). unfold bytes_ltb in IH. destruct (bytes_cmp k1 key) eqn:E; simpl.
    + apply bytes_cmp_eq in E. subst. unfold above in Ha. rewrite Forall_forall in Ha.
      apply list_elem_of_lookup_2, Ha in Hi. simpl in Hi. apply bytes_cmp_Gt in Hi. by rewrite Hi.
    + exact IH.
    + unfold above in Ha. rewrite Forall_forall in Ha. apply list_elem_of_lookup_2, Ha in Hi. simpl in Hi.
      apply bytes_cmp_Gt in E. pose proof (bytes_cmp_trans _ _ _ E Hi) as H. apply bytes_cmp_Gt in H. by rewrite H.
Qed.

Lemma drop_mbefore {V} key (es : list (bytes * V)) : drop (length (mbefore key es)) es = mlower key es.
Proof. rewrite <- (mlower_split key es) at 2. by rewrite drop_app_length. Qed.

Lemma mlower_head {V} key (es : list (bytes * V)) : msorted es ->
  mget key es = match mlower key es with (k, v) :: _ => if bytes_eqb k key then Some v else None | [] => None end.
Proof.
  induction 1 as [|k v es Ha Hs IH]; [done|]. simpl. unfold bytes_eqb. rewrite (bytes_cmp_opp k key).
  destruct (bytes_cmp k key) eqn:E; simpl; rewrite ?E; try done.
  apply (mget_above_lt (K:=bytes) k); [exact Ha|]. by apply bytes_cmp_Gt.
Qed.

Section Rep.
Context (s : SSTable) (es : list (bytes * SnapshotEntry)) (Hr : rep s es).

Lemma lower_bound_rep key : lower_bound_index s key = Some (length (mbefore key es)).
Proof.
  unfold lower_bound_index. rewrite (rep_count _ _ Hr). apply (bound_loop_spec s es); [done| | |lia|lia].
  - intros i k e Hi. by apply (mbefore_lookup key es i k e (rep_sorted _ _ Hr)).
  - split; [lia|]. rewrite <- (mlower_split key es) at 2. rewrite length_app. lia.
Qed.

Lemma upper_bound_rep key : exists n, upper_bound_index s key = Some n /\ drop n es = mupper key es /\ (n <= length es)%nat.
Proof.
  assert (Hn : exists n, drop n es = mupper key es /\ (n <= length es)%nat /\
    forall i k e, es !! i = Some (k, e) -> negb (bytes_ltb key k) = (i <? n)%nat).
  { pose proof (rep_sorted _ _ Hr) as Hs. clear Hr. induction Hs as [|k1 v1 es' Ha Hs (n & Hd & Hn & Hi)].
    - exists 0%nat. repeat split; [simpl; lia|done].
    - simpl. destruct (bytes_cmp k1 key) eqn:E.
      + exists (S n). simpl. split; [done|]. split; [lia|]. intros [|i] k e Hk; [injection Hk as <- <-|by apply (Hi i k e)].
        apply bytes_cmp_eq in E. subst. unfold bytes_ltb. by rewrite bytes_cmp_refl.
      + exists (S n). simpl. split; [done|]. split; [lia|]. intros [|i] k e Hk; [injection Hk as <- <-|by apply (Hi i k e)].
        unfold bytes_ltb. rewrite (bytes_cmp_opp k1 key), E. done.
      + exists 0%nat. split; [done|]. split; [lia|]. intros i k e Hk. unfold bytes_ltb.
        assert (Hlt : bytes_cmp key k = Lt); [|by rewrite Hlt]. apply bytes_cmp_Gt in E.
        destruct i as [|i]; [injection Hk as <- <-; done|]. unfold above in Ha. rewrite Forall_forall in Ha.
        simpl in Hk. apply list_elem_of_lookup_2, Ha in Hk. by eapply bytes_cmp_trans. }
  destruct Hn as (n & Hd & Hn & Hi). exists n. split; [|done]. unfold upper_bound_index. rewrite (rep_count _ _ Hr).
  apply (bound_loop_spec s es); auto; lia.
Qed.

Lemma entry_at_lower key :
  es !! length (mbefore key es) = head (mlower key es).
Proof. rewrite <- drop_mbefore, <- (Nat.add_0_r (length (mbefore key es))) at 1. by rewrite <- lookup_drop, head_lookup. Qed.

Lemma contains_rep key : contains s key = Some (bool_decide (is_Some (mget key es))).
Proof.
  unfold contains. rewrite lower_bound_rep, (rep_count _ _ Hr), (mlower_head key es (rep_sorted _ _ Hr)).
  pose proof (entry_at_lower key) as Hl. destruct (mlower key es) as [|[k e] rest]; simpl in Hl.
  - apply lookup_ge_None in Hl. destruct (Nat.ltb_spec (length (mbefore key es)) (length es)); [lia|].
    by rewrite bool_decide_eq_false_2 by (intros [? ?]; done).
  - destruct (rep_index _ _ Hr _ _ _ Hl) as [off ->]. apply lookup_lt_Some in Hl.
    destruct (Nat.ltb_spec (length (mbefore key es)) (length es)); [|lia]. f_equal.
    destruct (bytes_eqb k key); [by rewrite bool_decide_eq_true_2|by rewrite bool_decide_eq_false_2 by (intros [? ?]; done)].
Qed.

Lemma get_rep key : get s key = Some (mget key es ≫= SL.live).
Proof.
  unfold get. rewrite lower_bound_rep, (rep_count _ _ Hr), (mlower_head key es (rep_sorted _ _ Hr)).
  pose proof (entry_at_lower key) as Hl. destruct (mlower key es) as [|[k e] rest]; simpl in Hl.
  - apply lookup_ge_None in Hl. destruct (Nat.ltb_spec (length (mbefore key es)) (length es)); [lia|done].
  - destruct (rep_index _ _ Hr _ _ _ Hl) as [off ->]. rewrite (rep_read _ _ Hr _ _ _ Hl). apply lookup_lt_Some in Hl.
    destruct (Nat.ltb_spec (length (mbefore key es)) (length es)); [|lia]. simpl.
    destruct (bytes_eqb k key); simpl; [|done]. unfold SL.live. by destruct (is_deleted e).
Qed.
End Rep.

(** ** Writing and reading back *)

Lemma decode_encoded v enc : codec_ok v = true -> encode_attribute_value v = Some enc -> decode_attribute_value enc = Some v.
Proof.
  intros Hok He. destruct (value_written v Hok) as (e & Hw & Hr). unfold encode_attribute_value in He. rewrite Hw in He.
  injection He as <-. simpl. specialize (Hr (S (length e)) []). rewrite app_nil_r in Hr. unfold decode_attribute_value.
  by rewrite Hr by lia.
Qed.

Lemma u32_fits n : (u32_max <? n) = false -> fits n = true.
Proof. unfold fits, u32_max. intros H%Z.ltb_ge. apply Z.ltb_lt. lia. Qed.

Definition values_ok (attrs : AttributeMap) : Prop := Forall (fun e => opt_all (fun v => codec_ok v = true) e.2) attrs.

Lemma write_attributes_spec attrs : forall data data',
  values_ok attrs -> write_attributes data attrs = Some (data', true) ->
  exists xs R, attrs = mmap Some xs /\ data' = data ++ R /\
    forall fuel acc t, (length (R ++ t) < fuel)%nat ->
      read_many read_attribute emplace_attribute fuel (len attrs) acc (R ++ t) = Some (fold_left emplace_attribute xs acc, t).
Proof.
  induction attrs as [|[name value] attrs IH]; intros data data' Hok; cbn [write_attributes].
  - intros [= <-]. exists [], []. rewrite app_nil_r. repeat split. intros fuel acc t _. by destruct fuel.
  - destruct value as [v|]; [|done]. destruct (u32_max <? len name) eqn:En; [done|].
    apply Forall_cons in Hok as [Hv Hok]. simpl in Hv.
    destruct (encode_attribute_value v) as [enc|] eqn:Ee; [|done]. destruct (u32_max <? len enc) eqn:Eenc; [done|].
    intros H. destruct (IH _ _ Hok H) as (xs & R & -> & -> & Hread).
    exists ((name, v) :: xs), (put_bytes [] name ++ put_bytes [] enc ++ R). split; [done|].
    split; [by rewrite (put_bytes_app (put_bytes data name)), (put_bytes_app data), <- !app_assoc|].
    intros fuel acc t Hf. destruct fuel as [|fuel]; [lia|]. cbn [read_many]. rewrite len_cons.
    destruct (Z.leb_spec (1 + len (mmap Some xs)) 0) as [Hl|_]; [pose proof (len_nonneg (mmap Some xs)); lia|].
    rewrite <- !app_assoc. unfold read_attribute at 1.
    rewrite read_sized_put by by apply u32_fits. rewrite read_sized_put by by apply u32_fits.
    rewrite (decode_encoded v enc Hv Ee). replace (1 + len (mmap Some xs) - 1) with (len (mmap Some xs)) by lia.
    cbn [fold_left]. apply Hread. rewrite <- !app_assoc, length_app in Hf. rewrite length_app in Hf.
    assert (0 < length (put_bytes [] name))%nat; [|lia].
    unfold put_bytes, put_u32. rewrite app_nil_l, length_app, le_bytes_length. lia.
Qed.

Lemma fold_emplace (l : list (bytes * AttributeValue)) acc :
  msorted (acc ++ mmap Some l) -> fold_left emplace_attribute l acc = acc ++ mmap Some l.
Proof.
  revert acc. induction l as [|[k v] l IH]; intros acc Hs; simpl in *; [by rewrite app_nil_r|].
  assert (Hlt : Forall (fun e => kcmp (KeyOrder:=bytes_key_order) e.1 k = Lt) acc).
  { apply msorted_app in Hs as (_ & _ & Hf). eapply Forall_impl; [exact Hf|].
    intros e He. unfold above in He. by apply Forall_cons in He as [He _]. }
  assert (Hset : emplace_attribute acc (k, v) = acc ++ [(k, Some v)]).
  { unfold emplace_attribute, memplace. simpl. destruct (mget k acc) as [x|] eqn:E; [|by apply mset_last].
    apply mget_Some_In, list_elem_of_In in E. rewrite Forall_forall in Hlt. apply Hlt in E. simpl in E.
    by rewrite bytes_cmp_refl in E. }
  rewrite Hset. rewrite cons_middle, app_assoc in Hs. rewrite (cons_middle _ acc (mmap Some l)), app_assoc. by apply IH.
Qed.

(** The entries a table can hold: those whose values the codec can hold. *)
Definition entry_ok (e : bytes * SnapshotEntry) : Prop := codec_item_ok (attributes e.2) = true.

Lemma codec_item_values attrs : codec_item_ok attrs = true -> values_ok attrs /\ msorted attrs.
Proof.
  unfold codec_item_ok. simpl. intros H. bool_hyps. split; [|by apply msortedb_sound].
  apply Forall_forall. intros [k [v|]] Hin; simpl; [|done].
  match goal with Ha : forallb _ _ = true |- _ => rewrite forallb_forall in Ha; apply list_elem_of_In, Ha in Hin end.
  simpl in Hin. by bool_hyps.
Qed.

(** The images of the entries in the data and index parts of the file. *)
Inductive layout : Z -> list (bytes * SnapshotEntry) -> bytes -> bytes -> Prop :=
| lay_nil off : layout off [] [] []
| lay_cons off k e es R D I :
    (forall t, parse_record k (R ++ t) = Some e) -> R <> [] -> fits (len k) = true ->
    layout (off + len R) es D I ->
    layout off ((k, e) :: es) (R ++ D) ((put_bytes [] k ++ le_bytes 8 (u64 off)) ++ I).

Lemma append_spec w k e w' :
  entry_ok (k, e) -> append w k e = Some (w', true) ->
  exists R, data_ w' = data_ w ++ R /\ (forall t, parse_record k (R ++ t) = Some e) /\ R <> [] /\ fits (len k) = true /\
    index_ w' = index_ w ++ put_bytes [] k ++ le_bytes 8 (u64 (len (data_ w))) /\
    entry_count_ w' = entry_count_ w + 1 /\ finished_ w' = false /\ entry_count_ w < u32_max /\
    previous_key_ w' = k /\ (previous_key_ w = [] \/ bytes_ltb (previous_key_ w) k = true) /\ k <> [].
Proof.
  intros Hok. unfold append.
  destruct (finished_ w || bool_decide (k = []) || (u32_max <? len k) || (u32_max <? len (attributes e)) || (u32_max <=? entry_count_ w)) eqn:Eg; [done|].
  bool_hyps. destruct (negb (bool_decide (previous_key_ w = [])) && bytes_leb k (previous_key_ w)) eqn:Ep; [done|].
  destruct (codec_item_values _ Hok) as [Hv Hs]. simpl in Hv, Hs.
  destruct (write_attributes _ (attributes e)) as [[d [|]]|] eqn:Ew; try done. intros [= <-]. simpl.
  destruct (write_attributes_spec _ _ _ Hv Ew) as (xs & R & Ex & -> & Hread).
  set (del := [if is_deleted e then Byte.x01 else Byte.x00]).
  exists (put_bytes [] k ++ del ++ le_bytes 4 (u32 (len (attributes e))) ++ R).
  split; [unfold put_u32; by rewrite (put_bytes_app (data_ w)), <- !app_assoc|].
  assert (Hk : fits (len k) = true) by (apply u32_fits; by apply Z.ltb_ge).
  split.
  { intros t. unfold parse_record. rewrite <- !app_assoc, read_sized_put by done. rewrite bytes_eqb_refl. simpl negb. cbv iota.
    replace del with (le_bytes 1 (if is_deleted e then 1 else 0)) by (unfold del; by destruct (is_deleted e)).
    rewrite read_le_app by (destruct (is_deleted e); simpl; lia). unfold read_counted.
    rewrite read_u32_put by (auto with cyn; apply u32_fits; by apply Z.ltb_ge).
    rewrite Hread by lia. rewrite fold_emplace by (simpl; by rewrite <- Ex). simpl. rewrite <- Ex.
    destruct e as [a b]. simpl. by destruct b. }
  split; [intros E%(f_equal length); rewrite length_app in E; unfold put_bytes, put_u32 in E; rewrite !length_app, le_bytes_length in E; simpl in E; lia|].
  repeat split; auto.
  - by rewrite put_bytes_app, <- app_assoc.
  - destruct (bool_decide_reflect (previous_key_ w = [])); [by left|right]. simpl in Ep. unfold bytes_leb in Ep. unfold bytes_ltb.
    rewrite (bytes_cmp_opp k). by destruct (bytes_cmp k (previous_key_ w)).
Qed.

Lemma append_all_layout es : forall w w',
  Forall entry_ok es -> append_all w es = Some (w', true) ->
  exists D I, layout (len (data_ w)) es D I /\ data_ w' = data_ w ++ D /\ index_ w' = index_ w ++ I /\
    entry_count_ w' = entry_count_ w + len es /\ (finished_ w = false -> finished_ w' = false) /\
    (entry_count_ w <= u32_max -> entry_count_ w' <= u32_max).
Proof.
  induction es as [|[k e] es IH]; intros w w' Hok; cbn [append_all].
  - intros [= <-]. exists [], []. rewrite !app_nil_r. repeat split; auto; [constructor|unfold len; simpl; lia].
  - apply Forall_cons in Hok as [He Hok]. destruct (append w k e) as [[w1 [|]]|] eqn:Ea; try done. intros H.
    destruct (append_spec _ _ _ _ He Ea) as (R & Hd & Hp & HR & Hk & Hi & Hc & Hf & Hm & _).
    destruct (IH _ _ Hok H) as (D & I & Hl & Hd' & Hi' & Hc' & Hf' & Hm').
    exists (R ++ D), ((put_bytes [] k ++ le_bytes 8 (u64 (len (data_ w)))) ++ I).
    rewrite Hd, len_app in Hl. split; [by constructor|]. rewrite Hd', Hd, Hi', Hi, <- !app_assoc. repeat split.
    + rewrite Hc', Hc, len_cons. lia.
    + intros _. auto.
    + intros _. apply Hm'. lia.
Qed.

(** The positions of the index entries. *)
Fixpoint positions (pos : Z) (es : list (bytes * SnapshotEntry)) : list Z :=
  match es with [] => [] | (k, _) :: es' => pos :: positions (pos + 4 + len k + 8) es' end.

Lemma index_image_length k off : length (put_bytes [] k ++ le_bytes 8 off) = (12 + length k)%nat.
Proof. unfold put_bytes, put_u32. rewrite app_nil_l, !length_app, !le_bytes_length. lia. Qed.

Lemma load_entries_spec off es D I : layout off es D I ->
  forall data_end pos acc t, 0 <= off -> off + len D <= data_end -> data_end < 2 ^ 64 ->
  load_entries (length es) data_end pos (I ++ t) acc = Ok (acc ++ positions pos es, t).
Proof.
  induction 1 as [|off k e es R D I Hp HR Hk Hl IH]; intros data_end pos acc t Ho Hd Hb; cbn [length load_entries positions].
  - by rewrite app_nil_r.
  - rewrite len_app in Hd. pose proof (len_nonneg D). pose proof (len_nonneg k).
    assert (0 < len R) by (destruct R; [done|]; rewrite len_cons; pose proof (len_nonneg R); lia).
    unfold put_bytes, put_u32. rewrite app_nil_l, <- !app_assoc.
    pose proof (read_u32_put (len k) (k ++ le_bytes 8 (u64 off) ++ I ++ t) ltac:(auto with cyn) Hk) as E1. unfold read_u32 in E1.
    rewrite E1, read_n_app. unfold u64 at 1. rewrite Z.mod_small by lia. rewrite read_le_app by (change (256 ^ Z.of_nat 8) with (2 ^ 64); lia).
    destruct (Z.leb_spec data_end off); [lia|]. rewrite IH by lia. by rewrite <- app_assoc.
Qed.

(** Entry [i] in the two parts. *)
Lemma layout_lookup off es D I : layout off es D I -> forall i k e pos, es !! i = Some (k, e) ->
  exists D1 R D2 I1 I2, D = D1 ++ R ++ D2 /\ I = I1 ++ (put_bytes [] k ++ le_bytes 8 (u64 (off + len D1))) ++ I2 /\
    positions pos es !! i = Some (pos + len I1) /\ (forall t, parse_record k (R ++ t) = Some e) /\ R <> [] /\ fits (len k) = true.
Proof.
  induction 1 as [|off k0 e0 es R0 D I Hp HR Hk Hl IH]; intros i k e pos Hi; [done|].
  destruct i as [|i]; simpl in Hi.
  - injection Hi as -> ->. exists [], R0, D, [], I. rewrite len_nil, !Z.add_0_r. by repeat split.
  - destruct (IH i k e (pos + 4 + len k0 + 8) Hi) as (D1 & R & D2 & I1 & I2 & -> & -> & Hpos & Hp' & HR' & Hk').
    exists (R0 ++ D1), R, D2, ((put_bytes [] k0 ++ le_bytes 8 (u64 off)) ++ I1), I2.
    split; [by rewrite <- app_assoc|]. split; [by rewrite len_app, Z.add_assoc, <- !app_assoc|]. split; [|done].
    change (positions pos ((k0, e0) :: es) !! S i) with (positions (pos + 4 + len k0 + 8) es !! i). rewrite Hpos. f_equal. rewrite (len_app (_ ++ _)). unfold len at 3.
    rewrite index_image_length. unfold len. lia.
Qed.

Lemma layout_sizes off es D I : layout off es D I -> 12 * len es <= len I /\ (es <> [] -> 0 < len D).
Proof.
  induction 1 as [|off k e es R D I Hp HR Hk Hl IH]; [by unfold len|]. rewrite !len_app, len_cons. split.
  - rewrite <- (len_app (put_bytes [] k)). unfold len at 2. rewrite index_image_length. lia.
  - intros _. destruct R; [done|]. rewrite len_cons. pose proof (len_nonneg R). pose proof (len_nonneg D). lia.
Qed.

Definition file_image (es : list (bytes * SnapshotEntry)) (D I : bytes) : bytes :=
  D ++ le_bytes 4 (u32 (len es)) ++ I ++ le_bytes 8 (u64 (len D)).

Lemma create_image es file : Forall entry_ok es -> create es = Some (Some file) ->
  exists D I, layout 0 es D I /\ file = file_image es D I /\ len es <= u32_max.
Proof.
  intros Hok. unfold create. destruct (append_all new_writer es) as [[w [|]]|] eqn:E; try done.
  destruct (append_all_layout es _ _ Hok E) as (D & I & Hl & Hd & Hi & Hc & Hf & Hm).
  unfold finish. rewrite (Hf eq_refl). simpl in Hd, Hi, Hc. rewrite Z.add_0_l in Hc.
  destruct (Z.ltb_spec u32_max (entry_count_ w)); [done|]. simpl. intros [= <-]. exists D, I. split; [done|].
  rewrite Hd, Hi, Hc. unfold file_image, put_u32. split; [by rewrite <- app_assoc|]. lia.
Qed.

Lemma drop_len {A} (l1 l2 : list A) n : n = len l1 -> drop (Z.to_nat n) (l1 ++ l2) = l2.
Proof. intros ->. unfold len. by rewrite Nat2Z.id, drop_app_length. Qed.

Lemma take_len {A} (l1 l2 : list A) n : n = len l1 -> take (Z.to_nat n) (l1 ++ l2) = l1.
Proof. intros ->. unfold len. by rewrite Nat2Z.id, take_app_length. Qed.

Lemma load_image path es D I : layout 0 es D I -> len es <= u32_max -> len (file_image es D I) < 2 ^ 64 ->
  load_index path (file_image es D I) =
  Ok {| path_ := path; mapping_ := file_image es D I; data_end_offset_ := len D;
        index_entry_offsets_ := positions (len D + 4) es |}.
Proof.
  intros Hl Hc Hs. destruct (layout_sizes _ _ _ _ Hl) as [Hi Hd]. pose proof (len_nonneg D). pose proof (len_nonneg I). pose proof (len_nonneg es).
  set (front := D ++ le_bytes 4 (u32 (len es)) ++ I).
  assert (Efile : file_image es D I = front ++ le_bytes 8 (u64 (len D))) by (unfold file_image, front; by rewrite <- !app_assoc).
  assert (Hfront : len front = len D + 4 + len I) by (unfold front; rewrite !len_app; unfold len at 2; rewrite le_bytes_length; lia).
  assert (Hsize : len (file_image es D I) = len front + 8) by (rewrite Efile, len_app; unfold len at 2; rewrite le_bytes_length; done).
  unfold load_index. rewrite Hsize. destruct (Z.ltb_spec (len front + 8) 12); [lia|].
  replace (len front + 8 - 8) with (len front) by lia. rewrite Efile, drop_len, take_len by done.
  rewrite take_ge by (rewrite le_bytes_length; lia). rewrite le_value_bytes. change (256 ^ Z.of_nat 8) with (2 ^ 64).
  unfold u64. rewrite Z.mod_mod, Z.mod_small by lia. destruct (Z.ltb_spec (len front + 8 - 12) (len D)); [lia|].
  unfold front at 1. rewrite drop_len by done.
  pose proof (read_u32_put (len es) I ltac:(auto with cyn)) as E1. unfold read_u32 in E1.
  rewrite E1 by (unfold fits, u32_max in *; apply Z.ltb_lt; lia).
  destruct (Z.ltb_spec (len I / 12) (len es)) as [Hlt|_]; [pose proof (Z.div_le_lower_bound (len I) 12 (len es) ltac:(lia) Hi); lia|].
  replace (Z.to_nat (len es)) with (length es) by (unfold len; lia).
  pose proof (load_entries_spec _ _ _ _ Hl (len D) (len D + 4) [] []) as E2. rewrite app_nil_r in E2.
  rewrite E2 by lia. simpl. done.
Qed.

Lemma image_rep path es D I : layout 0 es D I -> msorted es -> len (file_image es D I) < 2 ^ 64 ->
  rep {| path_ := path; mapping_ := file_image es D I; data_end_offset_ := len D;
         index_entry_offsets_ := positions (len D + 4) es |} es.
Proof.
  intros Hl Hsort Hs. set (s := {| path_ := _ |}).
  assert (Hcount : entry_count s = length es).
  { unfold entry_count, s. simpl. clear. generalize (len D + 4). induction es as [|[k e] es IH]; intros p; simpl; [done|]. by rewrite IH. }
  assert (HD : len D <= len (file_image es D I)) by (unfold file_image; rewrite len_app; pose proof (len_nonneg (le_bytes 4 (u32 (len es)) ++ I ++ le_bytes 8 (u64 (len D)))); lia).
  pose proof (len_nonneg D).
  assert (Hent : forall i k e, es !! i = Some (k, e) -> exists off R D1 D2, D = D1 ++ R ++ D2 /\ off = len D1 /\
     index_entry s i = Some (k, off) /\ (forall t, parse_record k (R ++ t) = Some e)).
  { intros i k e Hi. destruct (layout_lookup _ _ _ _ Hl i k e (len D + 4) Hi) as (D1 & R & D2 & I1 & I2 & ED & EI & Hpos & Hp & HR & Hk).
    exists (len D1), R, D1, D2. repeat split; auto. unfold index_entry, s. cbn [index_entry_offsets_ mapping_]. rewrite Hpos.
    assert (Hd1 : 0 <= len D1 < 2 ^ 64) by (pose proof (f_equal len ED) as HL; rewrite !len_app in HL; pose proof (len_nonneg D1); pose proof (len_nonneg R); pose proof (len_nonneg D2); lia).
    unfold file_image. rewrite EI.
    replace (D ++ le_bytes 4 (u32 (len es)) ++ (I1 ++ (put_bytes [] k ++ le_bytes 8 (u64 (0 + len D1))) ++ I2) ++ le_bytes 8 (u64 (len D)))
      with ((D ++ le_bytes 4 (u32 (len es)) ++ I1) ++ le_bytes 4 (u32 (len k)) ++ k ++ le_bytes 8 (u64 (0 + len D1)) ++ I2 ++ le_bytes 8 (u64 (len D)))
      by (unfold put_bytes, put_u32; by rewrite app_nil_l, <- !app_assoc).
    rewrite drop_len by (rewrite !len_app; unfold len at 4; rewrite le_bytes_length; lia).
    pose proof (read_u32_put (len k) (k ++ le_bytes 8 (u64 (0 + len D1)) ++ I2 ++ le_bytes 8 (u64 (len D))) ltac:(auto with cyn) Hk) as E1. unfold read_u32 in E1.
    rewrite E1, read_n_app. unfold u64 at 1. rewrite Z.add_0_l, Z.mod_small by lia.
    by rewrite read_le_app by (change (256 ^ Z.of_nat 8) with (2 ^ 64); lia). }
  split; [done|done| |].
  - intros i k e Hi. destruct (Hent i k e Hi) as (off & _ & _ & _ & _ & _ & E & _). by exists off.
  - intros i k e Hi. destruct (Hent i k e Hi) as (off & R & D1 & D2 & ED & Eoff & E & Hp). unfold read_entry.
    apply lookup_lt_Some in Hi. rewrite Hcount. destruct (Nat.ltb_spec i (length es)); [|lia]. simpl negb. cbv iota. rewrite E.
    cbn [data_end_offset_ mapping_ s]. unfold file_image. rewrite take_len by done. rewrite ED, Eoff, drop_len by done. by rewrite Hp.
Qed.

Lemma create_load path es file : msorted es -> Forall entry_ok es -> create es = Some (Some file) -> len file < 2 ^ 64 ->
  exists s, load_index path file = Ok s /\ rep s es /\ path_ s = path /\ mapping_ s = file.
Proof.
  intros Hs Hok Hc Hlen. destruct (create_image es file Hok Hc) as (D & I & Hl & -> & Hm).
  eexists. split; [by apply load_image|]. split; [by apply image_rep|done].
Qed.

(** ** Properties *)

(** C20: what is flushed to an SSTable is read back.  Opening the file [create]
    wrote succeeds, every entry is indexed at its rank and decodes to itself,
    [get] finds exactly the live values and [contains] exactly the keys,
    tombstones included, by binary search over the mapped index. *)
Theorem sstable_roundtrip path es file :
  msorted es -> Forall entry_ok es -> create es = Some (Some file) -> len file < 2 ^ 64 ->
  exists s, load_index path file = Ok s /\ entry_count s = length es /\
    (forall i k e, es !! i = Some (k, e) -> read_entry s i = Some (Some e)) /\
    (forall key, get s key = Some (mget key es ≫= SL.live)) /\
    (forall key, contains s key = Some (bool_decide (is_Some (mget key es)))).
Proof.
  intros Hs Hok Hc Hlen. destruct (create_load path es file Hs Hok Hc Hlen) as (s & Hl & Hr & _).
  exists s. split; [done|]. split; [apply (rep_count _ _ Hr)|]. split; [apply (rep_read _ _ Hr)|].
  split; [apply (get_rep _ _ Hr)|apply (contains_rep _ _ Hr)].
Qed.

(** The bound searches over a well-formed table return the positions
    [std::map] bounds would: everything below the position is smaller, everything
    from it on is not (lower), respectively is greater (upper). *)
Theorem sstable_bounds s es key :
  rep s es ->
  (exists n, lower_bound_index s key = Some n /\ take n es = mbefore key es /\ drop n es = mlower key es) /\
  (exists n, upper_bound_index s key = Some n /\ drop n es = mupper key es).
Proof.
  intros Hr. split.
  - exists (length (mbefore key es)). split; [by apply lower_bound_rep|]. split; [|apply drop_mbefore].
    rewrite <- (mlower_split key es) at 2. by rewrite take_app_length.
  - destruct (upper_bound_rep s es Hr key) as (n & H1 & H2 & _). by exists n.
Qed.

Definition demo_entries : list (bytes * SnapshotEntry) :=
  [ (lit "a", {| attributes := [(lit "x", Some (AV_N (lit "1")))]; is_deleted := false |});
    (lit "b", tombstone);
    (lit "c", {| attributes := [(lit "m", Some (AV_M [(lit "k", Some AV_NUL)]))]; is_deleted := false |}) ].

Definition demo_file : bytes := Eval vm_compute in match create demo_entries with Some (Some f) => f | _ => [] end.

Lemma demo_created : create demo_entries = Some (Some demo_file).
Proof. vm_compute. reflexivity. Qed.

Lemma demo_entries_ok : Forall entry_ok demo_entries.
Proof. repeat constructor. Qed.

Lemma demo_entries_sorted : msorted demo_entries.
Proof. by_eval. Qed.

Lemma sstable_roundtrip_witness :
  exists s, load_index (lit "t.sst") demo_file = Ok s /\ get s (lit "b") = Some None /\ contains s (lit "b") = Some true.
Proof.
  destruct (sstable_roundtrip (lit "t.sst") demo_entries demo_file demo_entries_sorted demo_entries_ok demo_created eq_refl)
    as (s & Hl & _ & _ & Hg & Hc).
  exists s. split; [exact Hl|]. split; [exact (Hg (lit "b"))|exact (Hc (lit "b"))].
Defined.

Lemma sstable_bounds_witness :
  exists s n, load_index (lit "t.sst") demo_file = Ok s /\ upper_bound_index s (lit "a") = Some n /\ drop n demo_entries = tl demo_entries.
Proof.
  destruct (create_load (lit "t.sst") demo_entries demo_file demo_entries_sorted demo_entries_ok demo_created eq_refl) as (s & Hl & Hr & _).
  destruct (proj2 (sstable_bounds s demo_entries (lit "a") Hr)) as (n & Hn & Hd).
  exists s, n. split; [exact Hl|]. split; [exact Hn|exact Hd].
Defined.

End SST.
