(* ===== verification/Manifest.v ===== *)
(** * The manifest

    [src/engine/lsm/manifest.cpp]: the catalogue of SSTables per level and its
    file format.  [save] gives the octets published by the atomic rename, or
    [None] where it refuses; [load] parses them within the source's limits.  The
    running [remaining] count of the reader is the length of the unread rest. *)

From Stdlib Require Import ZArith Lia Strings.String.
From stdpp Require Import prelude.
From S2P Require Import Prelude StdMap RecordCodec.

Module Manifest.

Definition kMaxManifestBytes : Z := 256 * 1024 * 1024.
Definition kMaxManifestLevels : Z := 64.
Definition kMaxManifestStringBytes : Z := 1024 * 1024.

Record SSTableMetadata := {
  path : bytes;
  level : Z;
  sequence_number : Z;
  min_key : bytes;
  max_key : bytes;
  file_size : Z;
  entry_count : Z
}.

Record t := { levels_ : list (Z * list SSTableMetadata); next_sequence_ : Z }.

Definition empty : t := {| levels_ := []; next_sequence_ := 0 |}.

(** [levels_[level]], which creates the level. *)
Definition level_files (m : list (Z * list SSTableMetadata)) (l : Z) : list SSTableMetadata :=
  match mget l m with Some fs => fs | None => [] end.

Definition add_file (m : t) (l : Z) (meta : SSTableMetadata) : t :=
  {| levels_ := mset l (level_files (levels_ m) l ++ [meta]) (levels_ m); next_sequence_ := next_sequence_ m |}.

Definition remove_file (m : t) (l : Z) (p : bytes) : t :=
  {| levels_ := mset l (List.filter (fun meta => negb (bytes_eqb (path meta) p)) (level_files (levels_ m) l)) (levels_ m);
     next_sequence_ := next_sequence_ m |}.

Definition get_level_files (m : t) (l : Z) : list SSTableMetadata := level_files (levels_ m) l.
Definition get_next_sequence (m : t) : Z := next_sequence_ m.
Definition set_next_sequence (m : t) (seq : Z) : t := {| levels_ := levels_ m; next_sequence_ := seq |}.

(** ** Saving *)

Definition meta_savable (meta : SSTableMetadata) : bool :=
  negb (bool_decide (path meta = []) || (kMaxManifestStringBytes <? len (path meta))
        || (kMaxManifestStringBytes <? len (min_key meta)) || (kMaxManifestStringBytes <? len (max_key meta))).

Definition level_savable (e : Z * list SSTableMetadata) : bool :=
  negb ((kMaxManifestLevels <=? e.1) || (u32_max <? len e.2)) && forallb meta_savable e.2.

Definition meta_bytes (meta : SSTableMetadata) : bytes :=
  put_bytes [] (path meta) ++ le_bytes 8 (sequence_number meta) ++ put_bytes [] (min_key meta) ++ put_bytes [] (max_key meta).

Definition level_bytes (e : Z * list SSTableMetadata) : bytes :=
  le_bytes 4 e.1 ++ le_bytes 4 (u32 (len e.2)) ++ concat (map meta_bytes e.2).

Definition save (m : t) : option bytes :=
  if kMaxManifestLevels <? len (levels_ m) then None
  else if negb (forallb level_savable (levels_ m)) then None
  else Some (le_bytes 8 (next_sequence_ m) ++ le_bytes 4 (u32 (len (levels_ m))) ++ concat (map level_bytes (levels_ m))).

(** ** Loading *)

Definition read_bounded_string (d : bytes) : option (bytes * bytes) :=
  match read_le 4 d with
  | None => None
  | Some (length, d) =>
      if kMaxManifestStringBytes <? length then None
      else read_n length d
  end.

Definition read_meta (l : Z) (d : bytes) : option (SSTableMetadata * bytes) :=
  match read_bounded_string d with
  | None => None
  | Some (p, d) =>
      if bool_decide (p = []) then None else
      match read_le 8 d with
      | None => None
      | Some (seq, d) =>
          match read_bounded_string d with
          | None => None
          | Some (mn, d) =>
              match read_bounded_string d with
              | None => None
              | Some (mx, d) =>
                  Some ({| path := p; level := l; sequence_number := seq; min_key := mn; max_key := mx;
                           file_size := 0; entry_count := 0 |}, d)
              end
          end
      end
  end.

Fixpoint read_files (count : nat) (l : Z) (files : list SSTableMetadata) (d : bytes) : option (list SSTableMetadata * bytes) :=
  match count with
  | O => Some (files, d)
  | S count' => match read_meta l d with Some (meta, d) => read_files count' l (files ++ [meta]) d | None => None end
  end.

Definition kMinimumEntryBytes : Z := 4 * 3 + 8.

Fixpoint read_levels (count : nat) (loaded : list (Z * list SSTableMetadata)) (d : bytes)
  : option (list (Z * list SSTableMetadata) * bytes) :=
  match count with
  | O => Some (loaded, d)
  | S count' =>
      match read_le 4 d with
      | None => None
      | Some (l, d) =>
          if kMaxManifestLevels <=? l then None else
          match read_le 4 d with
          | None => None
          | Some (file_count, d) =>
              if len d / kMinimumEntryBytes <? file_count then None else
              match read_files (Z.to_nat file_count) l (level_files loaded l) d with
              | None => None
              | Some (files, d) => read_levels count' (mset l files loaded) d
              end
          end
      end
  end.

(** [None]: [load] returns false and leaves the manifest as it was. *)
Definition load (m : t) (file : option bytes) : option t :=
  match file with
  | None => Some m
  | Some d =>
      if (kMaxManifestBytes <? len d) || (len d <? 12) then None else
      match read_le 8 d with
      | None => None
      | Some (seq, d) =>
          match read_le 4 d with
          | None => None
          | Some (level_count, d) =>
              if kMaxManifestLevels <? level_count then None else
              match read_levels (Z.to_nat level_count) [] d with
              | Some (loaded, []) => Some {| levels_ := loaded; next_sequence_ := seq |}
              | _ => None
              end
          end
      end
  end.

(** ** Round trip *)

(** What the file keeps of an entry: its level is the one it is filed under,
    and the advisory sizes are not stored. *)
Definition stored (l : Z) (meta : SSTableMetadata) : SSTableMetadata :=
  {| path := path meta; level := l; sequence_number := sequence_number meta; min_key := min_key meta;
     max_key := max_key meta; file_size := 0; entry_count := 0 |}.

Definition stored_levels (ls : list (Z * list SSTableMetadata)) : list (Z * list SSTableMetadata) :=
  map (fun e => (e.1, map (stored e.1) e.2)) ls.

Record wf (m : t) : Prop := {
  wf_sorted : msorted (levels_ m);
  wf_seq : 0 <= next_sequence_ m < 2 ^ 64;
  wf_levels : Forall (fun e => 0 <= e.1 /\ Forall (fun meta => 0 <= sequence_number meta < 2 ^ 64) e.2) (levels_ m)
}.

Lemma read_string_put s r : len s <= kMaxManifestStringBytes -> read_bounded_string (put_bytes [] s ++ r) = Some (s, r).
Proof.
  intros Hs. unfold read_bounded_string, put_bytes, put_u32. rewrite app_nil_l, <- app_assoc.
  pose proof (read_u32_put (len s) (s ++ r) ltac:(auto with cyn)) as E. unfold read_u32 in E.
  rewrite E by (unfold fits, kMaxManifestStringBytes in *; apply Z.ltb_lt; lia).
  destruct (Z.ltb_spec kMaxManifestStringBytes (len s)); [lia|]. apply read_n_app.
Qed.

Lemma read_meta_put l meta r : meta_savable meta = true -> 0 <= sequence_number meta < 2 ^ 64 ->
  read_meta l (meta_bytes meta ++ r) = Some (stored l meta, r).
Proof.
  unfold meta_savable. intros H Hs. bool_hyps. unfold read_meta, meta_bytes. rewrite <- !app_assoc.
  rewrite read_string_put by done. rewrite bool_decide_eq_false_2 by done.
  rewrite read_le_app by (change (256 ^ Z.of_nat 8) with (2 ^ 64); lia).
  by rewrite !read_string_put by done.
Qed.

Lemma read_files_put l metas : forall acc r,
  forallb meta_savable metas = true -> Forall (fun meta => 0 <= sequence_number meta < 2 ^ 64) metas ->
  read_files (length metas) l acc (concat (map meta_bytes metas) ++ r) = Some (acc ++ map (stored l) metas, r).
Proof.
  induction metas as [|meta metas IH]; intros acc r Hs Hq; [simpl; by rewrite app_nil_r|].
  cbn [forallb] in Hs. bool_hyps. apply Forall_cons in Hq as [Hq1 Hq]. cbn [length read_files map concat].
  rewrite <- app_assoc, read_meta_put by done. rewrite IH by done. by rewrite <- app_assoc.
Qed.

Lemma metas_length metas : kMinimumEntryBytes * len metas <= len (concat (map meta_bytes metas)).
Proof.
  induction metas as [|meta metas IH]; [unfold len; simpl; lia|]. cbn [map concat]. rewrite len_app, len_cons.
  assert (20 <= len (meta_bytes meta)); [|unfold kMinimumEntryBytes in *; lia].
  unfold meta_bytes, put_bytes, put_u32, len. rewrite !app_nil_l, !length_app, !le_bytes_length. lia.
Qed.

Lemma read_levels_put ls : forall acc r,
  forallb level_savable ls = true ->
  Forall (fun e => 0 <= e.1 /\ Forall (fun meta => 0 <= sequence_number meta < 2 ^ 64) e.2) ls ->
  msorted (acc ++ stored_levels ls) ->
  read_levels (length ls) acc (concat (map level_bytes ls) ++ r) = Some (acc ++ stored_levels ls, r).
Proof.
  induction ls as [|[l metas] ls IH]; intros acc r Hs Hw Hm; [simpl; by rewrite app_nil_r|].
  cbn [forallb] in Hs. apply andb_prop in Hs as [Hl Hs]. unfold level_savable in Hl. cbn [fst snd] in Hl. bool_hyps.
  apply Forall_cons in Hw as [[Hl0 Hq] Hw]. cbn [fst snd] in *.
  cbn [length read_levels map concat]. unfold level_bytes at 1. cbn [fst snd]. rewrite <- !app_assoc.
  rewrite read_le_app by (change (256 ^ Z.of_nat 4) with (2 ^ 32); unfold kMaxManifestLevels in *; lia).
  destruct (Z.leb_spec kMaxManifestLevels l); [lia|].
  pose proof (read_u32_put (len metas) (concat (map meta_bytes metas) ++ concat (map level_bytes ls) ++ r) ltac:(auto with cyn)) as E.
  unfold read_u32 in E. rewrite E by (unfold fits, u32_max in *; apply Z.ltb_lt; lia).
  pose proof (metas_length metas) as Hml. pose proof (len_nonneg (concat (map level_bytes ls) ++ r)).
  destruct (Z.ltb_spec (len (concat (map meta_bytes metas) ++ concat (map level_bytes ls) ++ r) / kMinimumEntryBytes) (len metas)) as [Hlt|_].
  { rewrite len_app in Hlt.
    pose proof (Z.div_le_lower_bound (len (concat (map meta_bytes metas)) + len (concat (map level_bytes ls) ++ r)) kMinimumEntryBytes (len metas)).
    unfold kMinimumEntryBytes in *. lia. }
  replace (Z.to_nat (len metas)) with (length metas) by (unfold len; lia).
  assert (Hlt : Forall (fun e => kcmp (KeyOrder:=Z_key_order) e.1 l = Lt) acc).
  { simpl in Hm. apply msorted_app in Hm as (_ & _ & Hf). eapply Forall_impl; [exact Hf|]. intros e He. unfold above in He.
    by apply Forall_cons in He as [He _]. }
  assert (Hnone : level_files acc l = []).
  { unfold level_files. destruct (mget l acc) as [x|] eqn:E'; [|done]. apply mget_Some_In, list_elem_of_In in E'.
    rewrite Forall_forall in Hlt. apply Hlt in E'. simpl in E'. by rewrite Z.compare_refl in E'. }
  rewrite read_files_put by done. rewrite Hnone, app_nil_l. rewrite mset_last by done. simpl in Hm |- *.
  rewrite cons_middle, app_assoc in Hm. rewrite (cons_middle _ acc (stored_levels ls)), app_assoc. by apply IH.
Qed.

Lemma stored_levels_sorted ls : msorted ls -> msorted (stored_levels ls).
Proof.
  intros H. assert (Hk : forall m, msorted (V:=list SSTableMetadata) m -> msorted (stored_levels m) /\
     forall k, above k m -> above (V:=list SSTableMetadata) k (stored_levels m)); [|by apply Hk].
  clear. intros m. induction 1 as [|k v m Ha Hm [IH1 IH2]]; [split; constructor|]. split.
  - simpl. constructor; auto.
  - intros k' Hk'. unfold above in *. apply Forall_cons in Hk' as [? ?]. simpl. constructor; [done|]. by apply IH2.
Qed.

(** ** Properties *)

(** A manifest that [save] accepts is restored by [load]: the same levels in
    the same order with the same files, sequence numbers and key ranges, and the
    next sequence number.  Nothing is left unread. *)
Theorem manifest_roundtrip m m0 file :
  wf m -> save m = Some file -> len file <= kMaxManifestBytes ->
  load m0 (Some file) = Some {| levels_ := stored_levels (levels_ m); next_sequence_ := next_sequence_ m |}.
Proof.
  intros [Hs Hq Hl]. unfold save. destruct (Z.ltb_spec kMaxManifestLevels (len (levels_ m))) as [|Hn]; [done|].
  destruct (forallb level_savable (levels_ m)) eqn:Ef; [|done]. cbn [negb]. intros Hf Hlen. apply (inj Some) in Hf.
  assert (H12 : 12 <= len file).
  { rewrite <- Hf, !len_app. pose proof (len_nonneg (concat (map level_bytes (levels_ m)))).
    change (len (le_bytes 8 (next_sequence_ m))) with 8. change (len (le_bytes 4 (u32 (len (levels_ m))))) with 4. lia. }
  unfold load. destruct (Z.ltb_spec kMaxManifestBytes (len file)); [lia|]. destruct (Z.ltb_spec (len file) 12); [lia|].
  cbn [orb]. rewrite <- Hf. rewrite read_le_app by (change (256 ^ Z.of_nat 8) with (2 ^ 64); lia).
  pose proof (read_u32_put (len (levels_ m)) (concat (map level_bytes (levels_ m))) ltac:(auto with cyn)) as E.
  unfold read_u32 in E. rewrite E by (unfold fits, kMaxManifestLevels in *; apply Z.ltb_lt; lia).
  destruct (Z.ltb_spec kMaxManifestLevels (len (levels_ m))); [lia|].
  replace (Z.to_nat (len (levels_ m))) with (length (levels_ m)) by (unfold len; lia).
  pose proof (read_levels_put (levels_ m) [] [] Ef Hl (stored_levels_sorted _ Hs)) as E2. rewrite app_nil_r in E2. by rewrite E2.
Qed.

Definition demo : t :=
  add_file (add_file (set_next_sequence empty 7) 0
    {| path := lit "db/table_3.sst"; level := 0; sequence_number := 3; min_key := lit "a"; max_key := lit "z"; file_size := 0; entry_count := 0 |}) 1
    {| path := lit "db/table_4_c.sst"; level := 1; sequence_number := 2; min_key := []; max_key := []; file_size := 0; entry_count := 0 |}.

Lemma manifest_roundtrip_witness : exists file, save demo = Some file /\ load empty (Some file) = Some demo.
Proof.
  eexists. split; [vm_compute; reflexivity|].
  rewrite (manifest_roundtrip demo empty); [reflexivity| |vm_compute; reflexivity|vm_compute; discriminate].
  split; [by_eval|simpl; lia|repeat constructor; simpl; lia].
Defined.

End Manifest.
