(* ===== verification/MergedReader.v ===== *)
(** * The merged reader

    [MergedReader] in [src/engine/lsm/lsm_engine.cpp]: the k-way merge over the
    memtable snapshots and the SSTables behind every scan, query and table drop.
    A source is a snapshot or a table with a cursor; the priority queue holds one
    node per source, ordered by key (descending keys when reading backward) and
    then by rank, the newest source having rank 0.  [None] at the outer level is
    a thrown exception.

    The main result, [next_spec]: the reader yields the live entries of the
    merge of its sources in reading order, the newest source winning on equal
    keys. *)

From Stdlib Require Import ZArith Lia Strings.String Sorting.Sorted.
From stdpp Require Import prelude.
From S2P Require Import Prelude StdMap Ranges Types Skiplist SSTable.

(** ** Reading direction *)

Definition dir_cmp (fwd : bool) (a b : bytes) : comparison := if fwd then bytes_cmp a b else bytes_cmp b a.

Lemma dir_cmp_eq fwd a b : dir_cmp fwd a b = Eq <-> a = b.
Proof. unfold dir_cmp. destruct fwd; rewrite bytes_cmp_eq; split; congruence. Qed.
Lemma dir_cmp_opp fwd a b : dir_cmp fwd b a = CompOpp (dir_cmp fwd a b).
Proof. unfold dir_cmp. destruct fwd; apply bytes_cmp_opp. Qed.
Lemma dir_cmp_trans fwd a b c : dir_cmp fwd a b = Lt -> dir_cmp fwd b c = Lt -> dir_cmp fwd a c = Lt.
Proof. unfold dir_cmp. destruct fwd; eauto using bytes_cmp_trans. Qed.

Definition dir_order (fwd : bool) : KeyOrder bytes := {|
  kcmp := dir_cmp fwd; kcmp_eq := dir_cmp_eq fwd; kcmp_opp := dir_cmp_opp fwd; kcmp_trans := dir_cmp_trans fwd
|}.

Abbreviation Snapshot := (list (bytes * SnapshotEntry)).

(** ** Sources *)

Inductive Body := Memory (snapshot : Snapshot) | Table (sstable : SST.SSTable).

Record Source := { body : Body; position : nat; valid : bool }.

Record Node := { node_key : bytes; node_source : nat; node_rank : nat }.

Record Reader := {
  prefix_ : bytes;
  scan_forward_ : bool;
  sources_ : list Source;
  heap_ : list Node
}.

(** [left] is read before [right]: the negation of [NodeOrder], which says
    [left] has lower priority. *)
Definition node_before (fwd : bool) (left right : Node) : bool :=
  match dir_cmp fwd (node_key left) (node_key right) with
  | Lt => true
  | Gt => false
  | Eq => (node_rank left <=? node_rank right)%nat
  end.

(** [heap_.push]: the queue as the list of its nodes in the order they are
    popped. *)
Fixpoint heap_push (fwd : bool) (n : Node) (h : list Node) : list Node :=
  match h with
  | [] => [n]
  | m :: h' => if node_before fwd n m then n :: h else m :: heap_push fwd n h'
  end.

Definition in_range (r : Reader) (key : bytes) : bool := starts_with key (prefix_ r).

Definition source_count (s : Source) : nat :=
  match body s with Memory l => length l | Table t => SST.entry_count t end.

(** The key at the cursor. *)
Definition source_key (s : Source) : option bytes :=
  match body s with
  | Memory l => option_map fst (l !! position s)
  | Table t => option_map fst (SST.index_entry t (position s))
  end.

(** [enqueue]; [None] is an exception (an out-of-range index). *)
Definition enqueue (r : Reader) (source_index : nat) : option Reader :=
  match sources_ r !! source_index with
  | None => None
  | Some s =>
      if negb (valid s) then Some r else
      match source_key s with
      | None => None
      | Some key =>
          if negb (in_range r key) then Some r
          else Some {| prefix_ := prefix_ r; scan_forward_ := scan_forward_ r; sources_ := sources_ r;
                       heap_ := heap_push (scan_forward_ r) {| node_key := key; node_source := source_index; node_rank := source_index |} (heap_ r) |}
      end
  end.

Definition read_current (s : Source) : option (option SnapshotEntry) :=
  match body s with
  | Memory l => option_map (fun e => Some (snd e)) (l !! position s)
  | Table t => SST.read_entry t (position s)
  end.

Definition advance_source (fwd : bool) (s : Source) : Source :=
  if fwd then
    {| body := body s; position := S (position s); valid := (S (position s) <? source_count s)%nat |}
  else
    match position s with
    | O => {| body := body s; position := O; valid := false |}
    | S p => {| body := body s; position := p; valid := valid s |}
    end.

Definition advance (r : Reader) (source_index : nat) : option Reader :=
  match sources_ r !! source_index with
  | None => None
  | Some s =>
      enqueue {| prefix_ := prefix_ r; scan_forward_ := scan_forward_ r;
                 sources_ := <[source_index := advance_source (scan_forward_ r) s]> (sources_ r); heap_ := heap_ r |} source_index
  end.

(** ** Construction *)

(** Where a source starts: [lower]/[upper] are its bound positions. *)
Definition start_source (fwd : bool) (prefix : bytes) (exclusive_start : option bytes) (b : Body)
  (lower upper : bytes -> option nat) (count : nat) : option Source :=
  if fwd then
    match (match exclusive_start with Some k => upper k | None => lower prefix end) with
    | None => None
    | Some p => Some {| body := b; position := p; valid := (p <? count)%nat |}
    end
  else
    match (match exclusive_start with
           | Some k => lower k
           | None => match prefix_successor prefix with Some u => lower u | None => Some count end
           end) with
    | None => None
    | Some after => Some {| body := b; position := Nat.pred after; valid := (0 <? after)%nat |}
    end.

Definition map_lower (l : Snapshot) (k : bytes) : option nat := Some (length (mbefore k l)).
Definition map_upper (l : Snapshot) (k : bytes) : option nat := Some (length l - length (mupper k l))%nat.

Definition memory_source (fwd : bool) (prefix : bytes) (start : option bytes) (l : Snapshot) : option Source :=
  start_source fwd prefix start (Memory l) (map_lower l) (map_upper l) (length l).

Definition table_source (fwd : bool) (prefix : bytes) (start : option bytes) (t : SST.SSTable) : option Source :=
  start_source fwd prefix start (Table t) (SST.lower_bound_index t) (SST.upper_bound_index t) (SST.entry_count t).

Definition add_source (r : Reader) (s : Source) : option Reader :=
  enqueue {| prefix_ := prefix_ r; scan_forward_ := scan_forward_ r; sources_ := sources_ r ++ [s]; heap_ := heap_ r |}
          (length (sources_ r)).

Fixpoint add_sources (r : Reader) (l : list (option Source)) : option Reader :=
  match l with
  | [] => Some r
  | None :: _ => None
  | Some s :: l' => match add_source r s with Some r' => add_sources r' l' | None => None end
  end.

Definition make_reader (memory_snapshots : list Snapshot) (sstables : list SST.SSTable) (prefix : bytes)
  (exclusive_start : option bytes) (scan_forward : bool) : option Reader :=
  add_sources {| prefix_ := prefix; scan_forward_ := scan_forward; sources_ := []; heap_ := [] |}
    (map (memory_source scan_forward prefix exclusive_start) memory_snapshots ++
     map (table_source scan_forward prefix exclusive_start) sstables).

(** ** Reading *)

(** The [do]-[while] that pops all nodes with the key of the top. *)
Fixpoint pop_same (key : bytes) (h : list Node) : list Node * list Node :=
  match h with
  | [] => ([], [])
  | n :: h' => if bytes_eqb (node_key n) key then let '(a, b) := pop_same key h' in (n :: a, b) else ([], h)
  end.

Fixpoint min_rank (best : Node) (l : list Node) : Node :=
  match l with [] => best | n :: l' => min_rank (if (node_rank n <? node_rank best)%nat then n else best) l' end.

Fixpoint advance_all (r : Reader) (l : list Node) : option Reader :=
  match l with
  | [] => Some r
  | n :: l' => match advance r (node_source n) with Some r' => advance_all r' l' | None => None end
  end.

(** One turn of the loop of [next]: the key and the winning entry. *)
Definition step (r : Reader) : option (option (Reader * (bytes * SnapshotEntry))) :=
  match heap_ r with
  | [] => Some None
  | top :: _ =>
      let '(same_key, rest) := pop_same (node_key top) (heap_ r) in
      let winner := min_rank top same_key in
      match sources_ r !! node_source winner with
      | None => None
      | Some s =>
          match read_current s with
          | Some (Some entry) =>
              match advance_all {| prefix_ := prefix_ r; scan_forward_ := scan_forward_ r; sources_ := sources_ r; heap_ := rest |} same_key with
              | Some r' => Some (Some (r', (node_key top, entry)))
              | None => None
              end
          | _ => None
          end
      end
  end.

(** Every turn advances a source, so the number of entries bounds the turns. *)
Definition reader_fuel (r : Reader) : nat := S (list_sum (map source_count (sources_ r))).

Fixpoint next_loop (fuel : nat) (r : Reader) : option (Reader * option (bytes * AttributeMap)) :=
  match fuel with
  | O => None
  | S fuel' =>
      match step r with
      | None => None
      | Some None => Some (r, None)
      | Some (Some (r', (key, entry))) =>
          if is_deleted entry then next_loop fuel' r' else Some (r', Some (key, attributes entry))
      end
  end.

Definition next (r : Reader) : option (Reader * option (bytes * AttributeMap)) := next_loop (reader_fuel r) r.

(** All remaining rows. *)
Fixpoint read_rows (fuel : nat) (r : Reader) : option (list (bytes * AttributeMap)) :=
  match fuel with
  | O => None
  | S fuel' =>
      match next r with
      | None => None
      | Some (_, None) => Some []
      | Some (r', Some row) => match read_rows fuel' r' with Some rows => Some (row :: rows) | None => None end
      end
  end.

(** ** What a source still has to deliver *)

Definition body_rep (b : Body) (es : Snapshot) : Prop :=
  match b with Memory l => l = es /\ msorted es | Table t => SST.rep t es end.

(** The entries in visiting order from the cursor on. *)
Definition visit (fwd : bool) (s : Source) (es : Snapshot) : Snapshot :=
  if valid s then if fwd then drop (position s) es else rev (take (S (position s)) es) else [].

(** Up to the first key outside the prefix, where the source is abandoned. *)
Fixpoint in_block (p : bytes) (l : Snapshot) : Snapshot :=
  match l with [] => [] | e :: l' => if starts_with e.1 p then e :: in_block p l' else [] end.

Definition source_view (fwd : bool) (p : bytes) (s : Source) (v : Snapshot) : Prop :=
  exists es, body_rep (body s) es /\ (valid s = true -> (position s < length es)%nat) /\ v = in_block p (visit fwd s es).

Lemma body_rep_sorted b es : body_rep b es -> msorted es.
Proof. destruct b; simpl; [tauto|]. apply SST.rep_sorted. Qed.

Lemma body_rep_count b es p v : body_rep b es -> source_count {| body := b; position := p; valid := v |} = length es.
Proof. destruct b; unfold source_count; simpl; [by intros [-> _]|]. apply SST.rep_count. Qed.

Lemma dir_sorted_rev (es : Snapshot) : msorted es -> msorted (KO:=dir_order false) (rev es).
Proof.
  induction 1 as [|k e es Ha Hs IH]; simpl; [constructor|]. apply msorted_app. split; [done|]. split; [repeat constructor|].
  apply Forall_forall. intros x Hx. apply list_elem_of_In, in_rev, list_elem_of_In in Hx. unfold above in *.
  rewrite Forall_forall in Ha. apply Ha in Hx. repeat constructor. done.
Qed.

Lemma dir_sorted_fwd (es : Snapshot) : msorted es -> msorted (KO:=dir_order true) es.
Proof. induction 1 as [|k e es Ha Hs IH]; constructor; auto. Qed.

Lemma in_block_sorted (KO : KeyOrder bytes) p (l : Snapshot) : msorted (KO:=KO) l -> msorted (KO:=KO) (in_block p l).
Proof.
  intros H. assert (Hp : exists r, l = in_block p l ++ r).
  { clear. induction l as [|e l [r IH]]; simpl; [by exists []|]. destruct (starts_with e.1 p); [exists r; simpl; by f_equal|by exists (e :: l)]. }
  destruct Hp as [r E]. rewrite E in H. by apply msorted_app in H as [? _].
Qed.

Lemma visit_sorted fwd s es : msorted es -> msorted (KO:=dir_order fwd) (visit fwd s es).
Proof.
  intros Hs. unfold visit. destruct (valid s); [|constructor]. destruct fwd.
  - apply dir_sorted_fwd. rewrite <- (take_drop (position s) es) in Hs. by apply msorted_app in Hs as (_ & ? & _).
  - apply dir_sorted_rev. rewrite <- (take_drop (S (position s)) es) in Hs. by apply msorted_app in Hs as (? & _ & _).
Qed.

Lemma source_view_sorted fwd p s v : source_view fwd p s v -> msorted (KO:=dir_order fwd) v.
Proof. intros (es & Hb & _ & ->). apply in_block_sorted, visit_sorted. by eapply body_rep_sorted. Qed.

(** The entry under the cursor, and the effect of advancing. *)
Lemma visit_cons fwd s es : body_rep (body s) es -> valid s = true -> (position s < length es)%nat ->
  exists x v, es !! position s = Some x /\ visit fwd s es = x :: v /\ visit fwd (advance_source fwd s) es = v /\
    (valid (advance_source fwd s) = true -> (position (advance_source fwd s) < length es)%nat).
Proof.
  intros Hb Hv Hp. destruct (lookup_lt_is_Some_2 es (position s) Hp) as [x Hx].
  assert (Hc : source_count s = length es) by (destruct s; by apply body_rep_count).
  unfold visit, advance_source. rewrite Hv. destruct fwd.
  - exists x, (drop (S (position s)) es). split; [done|]. split; [by apply drop_S|]. cbn [valid position]. rewrite Hc.
    destruct (Nat.ltb_spec (S (position s)) (length es)); [done|]. split; [by rewrite drop_ge by lia|done].
  - exists x, (rev (take (position s) es)). split; [done|].
    split; [by rewrite (take_S_r es (position s) x Hx), rev_app_distr|].
    destruct (position s) as [|p']; cbn [valid position]; [done|]. rewrite ?Hv. split; [done|lia].
Qed.

Lemma body_key s es x : body_rep (body s) es -> es !! position s = Some x -> source_key s = Some x.1.
Proof.
  unfold source_key. destruct (body s) as [l|t]; simpl.
  - intros [-> _] ->. done.
  - intros Hr Hx. destruct x as [k e]. destruct (SST.rep_index _ _ Hr _ _ _ Hx) as [off ->]. done.
Qed.

Lemma body_read s es x : body_rep (body s) es -> es !! position s = Some x -> read_current s = Some (Some x.2).
Proof.
  unfold read_current. destruct (body s) as [l|t]; simpl.
  - intros [-> _] ->. done.
  - intros Hr Hx. destruct x as [k e]. by apply (SST.rep_read _ _ Hr _ k).
Qed.

Lemma view_cons fwd p s x v : source_view fwd p s (x :: v) ->
  read_current s = Some (Some x.2) /\ source_view fwd p (advance_source fwd s) v.
Proof.
  intros (es & Hb & Hp & E). destruct (valid s) eqn:Hv; [|unfold visit in E; by rewrite Hv in E].
  destruct (visit_cons fwd s es Hb Hv (Hp eq_refl)) as (y & w & Hy & Ev & Ea & Hpos). rewrite Ev in E. simpl in E.
  destruct (starts_with y.1 p); [|done]. injection E as -> ->. split; [by eapply body_read|].
  exists es. split; [by destruct fwd; unfold advance_source; try destruct (position s)|]. split; [done|]. by rewrite Ea.
Qed.

(** ** The queue *)

Definition node_lt (fwd : bool) (a b : Node) : Prop :=
  dir_cmp fwd (node_key a) (node_key b) = Lt \/ (node_key a = node_key b /\ (node_rank a < node_rank b)%nat).

Definition hsorted (fwd : bool) (h : list Node) : Prop := StronglySorted (node_lt fwd) h.

Lemma dir_cmp_refl fwd a : dir_cmp fwd a a = Eq.
Proof. by apply dir_cmp_eq. Qed.

Lemma node_lt_trans fwd a b c : node_lt fwd a b -> node_lt fwd b c -> node_lt fwd a c.
Proof.
  unfold node_lt. intros [H1|[E1 R1]] [H2|[E2 R2]]; [left; by eapply dir_cmp_trans|left; congruence|left; congruence|right; split; [congruence|lia]].
Qed.

Lemma node_before_lt fwd a b : node_rank a <> node_rank b ->
  if node_before fwd a b then node_lt fwd a b else node_lt fwd b a.
Proof.
  intros Hr. unfold node_before, node_lt. rewrite (dir_cmp_opp fwd (node_key a) (node_key b)).
  destruct (dir_cmp fwd (node_key a) (node_key b)) eqn:E; simpl; auto.
  apply dir_cmp_eq in E. destruct (Nat.leb_spec (node_rank a) (node_rank b)); right; split; auto; lia.
Qed.

Lemma heap_push_ok fwd n h : hsorted fwd h -> Forall (fun m => node_rank m <> node_rank n) h ->
  hsorted fwd (heap_push fwd n h) /\ forall m, In m (heap_push fwd n h) <-> m = n \/ In m h.
Proof.
  intros Hs Hr. induction Hs as [|m h Hs IH Hm]; simpl.
  - split; [repeat constructor|]. intros m. split; [intros [->|[]]; auto|intros [->|[]]; auto].
  - apply Forall_cons in Hr as [Hmn Hr]. pose proof (node_before_lt fwd n m ltac:(congruence)) as Hb.
    destruct (node_before fwd n m).
    + split; [|intros x; simpl; split; intros [->|Hx]; auto]. constructor; [by constructor|].
      constructor; [done|]. eapply Forall_impl; [exact Hm|]. intros x. by apply node_lt_trans.
    + destruct (IH Hr) as [IHs IHi]. split.
      * constructor; [done|]. apply Forall_forall. intros x Hx%list_elem_of_In. apply IHi in Hx as [->|Hx]; [done|].
        rewrite Forall_forall in Hm. by apply Hm, list_elem_of_In.
      * intros x. simpl. rewrite IHi. split; [intros [->|[->|]]; auto|intros [->|[->|]]; auto].
Qed.

Lemma pop_same_ok fwd top h a b : hsorted fwd (top :: h) -> pop_same (node_key top) (top :: h) = (a, b) ->
  top :: h = a ++ b /\ Forall (fun n => node_key n = node_key top) a /\
  Forall (fun n => dir_cmp fwd (node_key top) (node_key n) = Lt) b.
Proof.
  assert (Hgen : forall l key, hsorted fwd l -> Forall (fun n => node_key n = key \/ dir_cmp fwd key (node_key n) = Lt) l ->
    forall a b, pop_same key l = (a, b) -> l = a ++ b /\ Forall (fun n => node_key n = key) a /\
      Forall (fun n => dir_cmp fwd key (node_key n) = Lt) b).
  { clear. intros l key Hs. induction Hs as [|n l Hs IH Hn]; intros Hk a b; simpl; [intros [= <- <-]; by repeat constructor|].
    apply Forall_cons in Hk as [Hk1 Hk]. destruct (bytes_eqb_spec (node_key n) key) as [Ek|Ek].
    - destruct (pop_same key l) as [a' b'] eqn:E. intros [= <- <-]. destruct (IH Hk a' b' eq_refl) as (-> & ? & ?).
      repeat split; auto.
    - intros [= <- <-]. destruct Hk1 as [|Hk1]; [done|]. split; [done|]. split; [constructor|]. constructor; [done|].
      eapply Forall_impl; [exact Hn|]. intros m [Hm|[Hm _]]; [by eapply dir_cmp_trans|congruence]. }
  intros Hs. apply Hgen; [done|]. pose proof Hs as Hs'. inversion Hs' as [|? ? _ Ht]; subst. constructor; [by left|].
  eapply Forall_impl; [exact Ht|]. intros m [Hm|[Hm _]]; auto.
Qed.

Lemma min_rank_first top l : Forall (fun n => (node_rank top <= node_rank n)%nat) l -> min_rank top l = top.
Proof. induction 1 as [|n l Hn Hl IH]; simpl; [done|]. destruct (Nat.ltb_spec (node_rank n) (node_rank top)); [lia|done]. Qed.

(** ** The reader's invariant *)

(** The node of source [i] is queued exactly when the source has something to
    deliver and is not one of [pend], the sources popped but not yet advanced. *)
Record reads_except (r : Reader) (rems : list Snapshot) (pend : list nat) : Prop := {
  re_views : Forall2 (source_view (scan_forward_ r) (prefix_ r)) (sources_ r) rems;
  re_sorted : hsorted (scan_forward_ r) (heap_ r);
  re_nodes : forall n, In n (heap_ r) <->
    node_rank n = node_source n /\ ~ In (node_source n) pend /\
    exists e v, rems !! node_source n = Some ((node_key n, e) :: v)
}.

Definition reads (r : Reader) (rems : list Snapshot) : Prop := reads_except r rems [].

(** Queueing a source whose node is missing. *)
Lemma enqueue_ok r rems i pend :
  reads_except r rems (i :: pend) -> (i < length rems)%nat -> ~ In i pend ->
  exists r', enqueue r i = Some r' /\ reads_except r' rems pend /\
    sources_ r' = sources_ r /\ scan_forward_ r' = scan_forward_ r /\ prefix_ r' = prefix_ r.
Proof.
  intros [Hv Hs Hn] Hi Hp. unfold enqueue.
  destruct (lookup_lt_is_Some_2 rems i Hi) as [v Hrv].
  destruct (Forall2_lookup_r _ _ _ i v Hv Hrv) as (s & Hsrc & es & Hb & Hpos & Ev). rewrite Hsrc.
  assert (Hempty : v = [] -> reads_except r rems pend).
  { intros ->. split; auto. intros n. rewrite Hn. simpl. split; [tauto|]. intros (H1 & H2 & e & w & H3). repeat split; eauto.
    intros [E|H4]; [rewrite <- E in H3; congruence|done]. }
  destruct (valid s) eqn:Evalid; simpl; [|exists r; split; [done|]; split; [apply Hempty; by rewrite Ev; unfold visit; rewrite Evalid|done]].
  destruct (visit_cons (scan_forward_ r) s es Hb Evalid (Hpos eq_refl)) as ([k e] & w & Hx & Evisit & _).
  rewrite (body_key s es (k, e) Hb Hx). rewrite Evisit in Ev. simpl in Ev |- *. unfold in_range.
  destruct (starts_with k (prefix_ r)); simpl; [|exists r; split; [done|]; split; [by apply Hempty|done]].
  eexists. split; [reflexivity|]. split; [|done].
  destruct (heap_push_ok (scan_forward_ r) {| node_key := k; node_source := i; node_rank := i |} (heap_ r) Hs) as [Hs' Hin].
  { apply Forall_forall. intros m Hm%list_elem_of_In. apply Hn in Hm as (E1 & E2 & _). simpl. rewrite E1. intros E. apply E2. left. by rewrite E. }
  split; simpl; auto. intros n. rewrite Hin, Hn. split.
  - intros [->|(H1 & H2 & H3)]; simpl in *; [|tauto]. repeat split; eauto. rewrite Hrv, Ev. eauto.
  - intros (H1 & H2 & e' & w' & H3). destruct (Nat.eq_dec (node_source n) i) as [E|E].
    + left. rewrite E, Hrv, Ev in H3. injection H3 as E1 E2 E3. destruct n as [nk ns nr]. simpl in *. subst. done.
    + right. repeat split; eauto. simpl. intros [|]; [congruence|done].
Qed.

Lemma advance_ok r rems i pend x v :
  reads_except r rems (i :: pend) -> rems !! i = Some (x :: v) -> ~ In i pend ->
  exists r', advance r i = Some r' /\ reads_except r' (<[i := v]> rems) pend /\
    scan_forward_ r' = scan_forward_ r /\ prefix_ r' = prefix_ r.
Proof.
  intros [Hv Hs Hn] Hi Hp. destruct (Forall2_lookup_r _ _ _ i _ Hv Hi) as (s & Hsrc & Hview).
  destruct (view_cons _ _ _ _ _ Hview) as [_ Hview']. unfold advance. rewrite Hsrc.
  set (r1 := {| prefix_ := prefix_ r; scan_forward_ := scan_forward_ r;
                sources_ := <[i := advance_source (scan_forward_ r) s]> (sources_ r); heap_ := heap_ r |}).
  assert (Hr1 : reads_except r1 (<[i := v]> rems) (i :: pend)).
  { split; [by apply Forall2_insert|done|]. intros n. change (heap_ r1) with (heap_ r). rewrite Hn. simpl.
    split; intros (H1 & H2 & e & w & H3); repeat split; auto; exists e, w;
      rewrite list_lookup_insert_ne in *; try done; intros E; rewrite E in *; tauto. }
  destruct (enqueue_ok r1 (<[i := v]> rems) i pend Hr1) as (r' & E & Hr' & _ & H1 & H2); [|done|by exists r'].
  rewrite length_insert. by eapply lookup_lt_Some.
Qed.

(** The views after advancing a set of sources. *)
Definition advance_views (l : list Node) (rems : list Snapshot) : list Snapshot :=
  fold_left (fun rs n => alter (@tl (bytes * SnapshotEntry)) (node_source n) rs) l rems.

Lemma advance_all_ok l : forall r rems,
  reads_except r rems (map node_source l) -> NoDup (map node_source l) ->
  Forall (fun n => exists x v, rems !! node_source n = Some (x :: v)) l ->
  exists r', advance_all r l = Some r' /\ reads r' (advance_views l rems) /\
    scan_forward_ r' = scan_forward_ r /\ prefix_ r' = prefix_ r.
Proof.
  induction l as [|n l IH]; intros r rems Hr Hnd Hl; [by exists r|].
  cbn [map] in Hnd. apply NoDup_cons in Hnd as [Hni Hnd]. apply Forall_cons in Hl as [(x & v & Hx) Hl].
  rewrite list_elem_of_In in Hni.
  destruct (advance_ok r rems (node_source n) (map node_source l) x v Hr Hx Hni) as (r1 & E & Hr1 & H1 & H2).
  assert (Ealt : <[node_source n := v]> rems = alter (@tl (bytes * SnapshotEntry)) (node_source n) rems).
  { apply list_eq. intros j. destruct (Nat.eq_dec (node_source n) j) as [<-|Hne].
    - rewrite list_lookup_alter_eq, Hx, list_lookup_insert_eq by by eapply lookup_lt_Some. done.
    - by rewrite list_lookup_insert_ne, list_lookup_alter_ne. }
  rewrite Ealt in Hr1. destruct (IH r1 _ Hr1 Hnd) as (r' & E' & Hr' & H3 & H4).
  { apply Forall_forall. intros m Hm. rewrite Forall_forall in Hl. destruct (Hl m Hm) as (y & w & Hy). exists y, w.
    rewrite list_lookup_alter_ne; [done|]. intros Heq. apply Hni. rewrite Heq. by apply in_map, list_elem_of_In. }
  exists r'. cbn [advance_all]. rewrite E. split; [exact E'|]. split; [exact Hr'|]. split; congruence.
Qed.

Lemma advance_views_lookup l : forall rems j, NoDup (map node_source l) ->
  advance_views l rems !! j = if bool_decide (j ∈ map node_source l) then tl <$> (rems !! j) else rems !! j.
Proof.
  induction l as [|n l IH]; intros rems j Hnd; [done|]. cbn [map] in Hnd |- *. apply NoDup_cons in Hnd as [Hni Hnd].
  unfold advance_views. cbn [fold_left]. fold (advance_views l (alter (@tl (bytes * SnapshotEntry)) (node_source n) rems)).
  rewrite IH by done. destruct (Nat.eq_dec (node_source n) j) as [<-|Hne].
  - rewrite bool_decide_eq_false_2 by done. rewrite bool_decide_eq_true_2 by by left. apply list_lookup_alter_eq.
  - rewrite list_lookup_alter_ne by done. destruct (decide (j ∈ map node_source l)) as [Hin|Hin].
    + by rewrite !bool_decide_eq_true_2 by (try right; done).
    + rewrite !bool_decide_eq_false_2; [done| |done]. rewrite elem_of_cons. intros [|]; [congruence|done].
Qed.

(** ** Merging by rank *)

Section Merge.
Context (fwd : bool).

Definition overlay (top bottom : Snapshot) : Snapshot := fold_right (fun e m => mset (KO:=dir_order fwd) e.1 e.2 m) bottom top.

(** The merge of the sources, the first one on top. *)
Definition merged (rems : list Snapshot) : Snapshot := fold_right overlay [] rems.

Lemma mget_overlay k top bottom :
  mget (KO:=dir_order fwd) k (overlay top bottom) =
  match mget (KO:=dir_order fwd) k top with Some e => Some e | None => mget (KO:=dir_order fwd) k bottom end.
Proof.
  induction top as [|[k1 e1] top IH]; [done|]. change (overlay ((k1, e1) :: top) bottom) with (mset (KO:=dir_order fwd) k1 e1 (overlay top bottom)).
  rewrite mget_mset, mget_cons, IH.
  by destruct (keqb k k1).
Qed.

Lemma overlay_sorted top bottom : msorted (KO:=dir_order fwd) bottom -> msorted (KO:=dir_order fwd) (overlay top bottom).
Proof. intros H. induction top; simpl; [done|]. by apply msorted_mset. Qed.

Lemma merged_sorted rems : msorted (KO:=dir_order fwd) (merged rems).
Proof. induction rems; simpl; [constructor|by apply overlay_sorted]. Qed.

Fixpoint first_some {A} (l : list (option A)) : option A :=
  match l with [] => None | Some x :: _ => Some x | None :: l' => first_some l' end.

Lemma mget_merged k rems : mget (KO:=dir_order fwd) k (merged rems) = first_some (map (mget (KO:=dir_order fwd) k) rems).
Proof.
  induction rems as [|v rems IH]; [done|]. change (merged (v :: rems)) with (overlay v (merged rems)). cbn [map first_some].
  rewrite mget_overlay, IH. by destruct (mget k v).
Qed.

Lemma first_some_Some {A} (l : list (option A)) i x : l !! i = Some (Some x) ->
  (forall j, (j < i)%nat -> l !! j = Some None) -> first_some l = Some x.
Proof.
  revert i. induction l as [|o l IH]; intros i Hi Hj; [done|]. destruct i as [|i].
  - simpl in Hi. by injection Hi as ->.
  - pose proof (Hj 0%nat ltac:(lia)) as H0. simpl in H0. injection H0 as ->. simpl. apply (IH i Hi). intros j Hlt. apply (Hj (S j)). lia.
Qed.

Lemma first_some_ext {A} (l l' : list (option A)) : length l = length l' -> (forall j, l !! j = l' !! j) -> first_some l = first_some l'.
Proof. intros _ H. f_equal. by apply list_eq. Qed.

End Merge.

(** ** One turn *)

Definition total (rems : list Snapshot) : nat := list_sum (map length rems).

Lemma total_alter i : forall rems, (total (alter (@tl (bytes * SnapshotEntry)) i rems) <= total rems)%nat.
Proof.
  unfold total. induction i as [|i IH]; intros [|v rems]; simpl; auto; [destruct v; simpl; lia|]. specialize (IH rems).
  unfold alter in IH. lia.
Qed.

Lemma total_alter_lt i x v : forall rems, rems !! i = Some (x :: v) -> (total (alter (@tl (bytes * SnapshotEntry)) i rems) < total rems)%nat.
Proof.
  unfold total. induction i as [|i IH]; intros [|w rems] H; simpl in *; try done; [injection H as ->; simpl; lia|].
  specialize (IH rems H). unfold alter in IH. lia.
Qed.

Lemma total_advance l : forall rems, (total (advance_views l rems) <= total rems)%nat.
Proof.
  induction l as [|n l IH]; intros rems; [done|]. unfold advance_views. cbn [fold_left].
  fold (advance_views l (alter (@tl (bytes * SnapshotEntry)) (node_source n) rems)).
  etransitivity; [apply IH|apply total_alter].
Qed.

Lemma merged_empty fwd rems : Forall (fun v => v = []) rems -> merged fwd rems = [].
Proof. induction 1 as [|v rems -> _ IH]; simpl; done. Qed.

Lemma lookup_map {A B} (f : A -> B) (l : list A) j : map f l !! j = f <$> (l !! j).
Proof. exact (list_lookup_fmap f l j). Qed.

Section Turn.
Context (r : Reader) (rems : list Snapshot) (top : Node) (h : list Node) (Hr : reads r rems) (Hh : heap_ r = top :: h).
Let fwd := scan_forward_ r.
Let key := node_key top.
Let same := (pop_same key (top :: h)).1.
Let rest := (pop_same key (top :: h)).2.

Lemma turn_split : top :: h = same ++ rest /\ Forall (fun n => node_key n = key) same /\
  Forall (fun n => dir_cmp fwd key (node_key n) = Lt) rest /\ exists same', same = top :: same'.
Proof.
  pose proof (re_sorted _ _ _ Hr) as Hs. rewrite Hh in Hs.
  destruct (pop_same_ok fwd top h same rest Hs) as (H1 & H2 & H3); [unfold same, rest, key; by destruct (pop_same (node_key top) (top :: h))|].
  repeat split; auto. unfold same, key. cbn [pop_same]. rewrite bytes_eqb_refl.
  destruct (pop_same (node_key top) h) as [a b]. by exists a.
Qed.

Lemma turn_node n : In n (top :: h) <-> node_rank n = node_source n /\ exists e v, rems !! node_source n = Some ((node_key n, e) :: v).
Proof. rewrite <- Hh, (re_nodes _ _ _ Hr). simpl. tauto. Qed.

Lemma turn_min n : In n (top :: h) -> n = top \/ node_lt fwd top n.
Proof.
  intros [En|Hn]; [by left|right]. pose proof (re_sorted _ _ _ Hr) as Hs. rewrite Hh in Hs. inversion Hs as [|? ? _ Hf]; subst.
  rewrite Forall_forall in Hf. by apply Hf, list_elem_of_In.
Qed.

(** Sources that stand at the key are exactly the popped ones. *)
Lemma turn_same j : In j (map node_source same) <-> exists e v, rems !! j = Some ((key, e) :: v).
Proof.
  destruct turn_split as (E & Hk & Hl & _). rewrite Forall_forall in Hk, Hl. split.
  - intros (n & <- & Hn)%in_map_iff. assert (Hin : In n (top :: h)) by (rewrite E; apply in_or_app; by left).
    apply turn_node in Hin as (_ & e & v & Hv). apply list_elem_of_In, Hk in Hn. rewrite Hn in Hv. eauto.
  - intros (e & v & Hv). set (n := {| node_key := key; node_source := j; node_rank := j |}).
    assert (Hin : In n (top :: h)) by (apply turn_node; simpl; eauto). rewrite E in Hin. apply in_app_or in Hin as [Hin|Hin].
    + change j with (node_source n). by apply in_map.
    + apply list_elem_of_In, Hl in Hin. simpl in Hin. by rewrite dir_cmp_refl in Hin.
Qed.

(** Nothing that remains precedes the key. *)
Lemma turn_lower j v k e : rems !! j = Some v -> In (k, e) v -> dir_cmp fwd key k = Lt \/ (k = key /\ exists v', v = (key, e) :: v').
Proof.
  intros Hj Hin. destruct (Forall2_lookup_r _ _ _ j v (re_views _ _ _ Hr) Hj) as (s & _ & Hview).
  apply source_view_sorted in Hview. fold fwd in Hview. destruct v as [|[k0 e0] v]; [done|].
  assert (Hn : In {| node_key := k0; node_source := j; node_rank := j |} (top :: h)) by (apply turn_node; simpl; eauto).
  apply msorted_cons_inv in Hview as [Ha _]. unfold above in Ha. rewrite Forall_forall in Ha.
  assert (Hk0 : k0 = key \/ dir_cmp fwd key k0 = Lt).
  { apply turn_min in Hn as [En|[Hlt|[Ek _]]]; [left; unfold key; by rewrite <- En|by right|left; unfold key; by rewrite Ek]. }
  destruct Hin as [[= -> ->]|Hin].
  - destruct Hk0 as [->|]; [right; eauto|by left].
  - apply list_elem_of_In, Ha in Hin. simpl in Hin. left. destruct Hk0 as [->|Hlt]; [done|]. by eapply dir_cmp_trans.
Qed.

Lemma same_nodup : NoDup (map node_source same).
Proof.
  destruct turn_split as (E & Hk & _ & _). pose proof (re_sorted _ _ _ Hr) as Hs. rewrite Hh, E in Hs.
  assert (Hsame : StronglySorted (node_lt fwd) same) by (clear -Hs; induction same as [|n l IH]; [constructor|]; inversion Hs; subst; constructor; [auto|by match goal with H : Forall _ (_ ++ _) |- _ => apply Forall_app in H as [? _] end]).
  assert (Hrank : Forall (fun n => node_rank n = node_source n) same).
  { apply Forall_forall. intros n Hn%list_elem_of_In. apply turn_node. rewrite E. apply in_or_app. by left. }
  clear -Hsame Hk Hrank. induction Hsame as [|n l Hl IH Hn]; simpl; [constructor|].
  apply Forall_cons in Hk as [Hk1 Hk]. apply Forall_cons in Hrank as [Hr1 Hrank]. constructor; [|auto].
  intros (m & Em & Hm)%list_elem_of_In%in_map_iff. apply list_elem_of_In in Hm. rewrite Forall_forall in Hn, Hk, Hrank.
  destruct (Hn m Hm) as [Hlt|[_ Hlt]].
  - rewrite Hk1, (Hk m Hm), dir_cmp_refl in Hlt. done.
  - rewrite Hr1, (Hrank m Hm) in Hlt. lia.
Qed.

Lemma turn_winner : min_rank top same = top.
Proof.
  destruct turn_split as (E & Hk & _ & _). apply min_rank_first. apply Forall_forall. intros n Hn.
  rewrite Forall_forall in Hk. pose proof (Hk n Hn) as Hkn. apply list_elem_of_In in Hn.
  assert (Hin : In n (top :: h)) by (rewrite E; apply in_or_app; by left).
  apply turn_min in Hin as [En|[Hlt|[_ Hlt]]]; [rewrite En; lia| |lia]. fold key in Hlt. rewrite Hkn, dir_cmp_refl in Hlt. done.
Qed.

Lemma turn_except :
  reads_except {| prefix_ := prefix_ r; scan_forward_ := scan_forward_ r; sources_ := sources_ r; heap_ := rest |} rems (map node_source same).
Proof.
  destruct turn_split as (E & Hk & Hl & _). pose proof Hr as [Hv Hs Hn]. rewrite Hh, E in Hs. split; simpl; auto.
  - clear -Hs. induction same as [|n l IH]; [done|]. inversion Hs; subst. auto.
  - intros n. split.
    + intros Hin. assert (Hin' : In n (top :: h)) by (rewrite E; apply in_or_app; by right).
      apply turn_node in Hin' as (H1 & e & v & H2). repeat split; eauto. rewrite turn_same. intros (e' & v' & H3).
      rewrite Forall_forall in Hl. apply list_elem_of_In, Hl in Hin. rewrite H2 in H3. injection H3 as E3 _ _.
      rewrite E3, dir_cmp_refl in Hin. done.
    + intros (H1 & H2 & e & v & H3). assert (Hin : In n (top :: h)) by (apply turn_node; eauto).
      rewrite E in Hin. apply in_app_or in Hin as [Hin|Hin]; [|done]. exfalso. apply H2. by apply in_map.
Qed.

(** What a source has left after the turn. *)
Lemma turn_advanced j w : advance_views same rems !! j = Some w -> exists w0, rems !! j = Some w0 /\
  ((w = w0 /\ mget (KO:=dir_order fwd) key w0 = None) \/ (exists e0, w0 = (key, e0) :: w)) /\
  mget (KO:=dir_order fwd) key w = None /\ Forall (fun x => dir_cmp fwd key x.1 = Lt) w.
Proof.
  pose proof same_nodup as Hnd. revert j w.
  intros j w. rewrite advance_views_lookup by done. destruct (bool_decide_reflect (j ∈ map node_source same)) as [Hin|Hin].
  - apply list_elem_of_In, turn_same in Hin as (e0 & w0 & Hj). rewrite Hj. simpl. intros [= <-]. exists ((key, e0) :: w0).
    assert (Hab : above (KO:=dir_order fwd) key w0).
    { destruct (Forall2_lookup_r _ _ _ j _ (re_views _ _ _ Hr) Hj) as (s0 & _ & Hv0). apply source_view_sorted in Hv0.
      by apply msorted_cons_inv in Hv0 as [? _]. }
    repeat split; eauto. by apply mget_above.
  - intros Hj. exists w. assert (Hab : Forall (fun x => dir_cmp fwd key x.1 = Lt) w).
    { apply Forall_forall. intros [k0 e0] Hx%list_elem_of_In. destruct (turn_lower j w k0 e0 Hj Hx) as [|[_ (v' & ->)]]; [done|].
      exfalso. apply Hin, list_elem_of_In, turn_same. eauto. }
    assert (Hnone : mget (KO:=dir_order fwd) key w = None) by by apply mget_above. repeat split; eauto.
Qed.

Lemma advance_views_length : length (advance_views same rems) = length rems.
Proof.
  clear. generalize rems. induction same as [|n l IH]; intros rs; [done|]. unfold advance_views. cbn [fold_left].
  fold (advance_views l (alter (@tl (bytes * SnapshotEntry)) (node_source n) rs)). by rewrite IH, length_alter.
Qed.

Lemma turn_key_above : above (KO:=dir_order fwd) key (merged fwd (advance_views same rems)).
Proof.
  pose proof turn_advanced as Hnew. apply Forall_forall. intros [k0 e0] Hin%list_elem_of_In. simpl.
  apply (mget_In (KO:=dir_order fwd)) in Hin; [|apply merged_sorted]. rewrite mget_merged in Hin.
  assert (Hex : exists w, In w (advance_views same rems) /\ mget (KO:=dir_order fwd) k0 w = Some e0).
  { clear -Hin. induction (advance_views same rems) as [|w l IH]; simpl in *; [done|].
    destruct (mget (KO:=dir_order fwd) k0 w) eqn:Ew; [injection Hin as ->; exists w; auto|]. destruct (IH Hin) as (w' & ? & ?). exists w'. auto. }
  destruct Hex as (w & Hw & He). apply list_elem_of_In, list_elem_of_lookup in Hw as [j Hj].
  destruct (Hnew j w Hj) as (_ & _ & _ & _ & Hab). rewrite Forall_forall in Hab.
  apply (mget_Some_In (KO:=dir_order fwd)), list_elem_of_In, Hab in He. done.
Qed.

(** The turn gives the next entry of the merge. *)
Lemma turn_merged e v : rems !! node_source top = Some ((key, e) :: v) -> merged fwd rems = (key, e) :: merged fwd (advance_views same rems).
Proof.
  intros Hv. assert (Hrank : node_rank top = node_source top) by (apply turn_node; by left).
  pose proof advance_views_length as Hlen. pose proof turn_advanced as Hnew. apply (msorted_ext (KO:=dir_order fwd)); [apply merged_sorted|constructor; [apply turn_key_above|apply merged_sorted]|].
  intros k0. rewrite mget_cons. destruct (keqb_spec (KO:=dir_order fwd) k0 key) as [->|Hne].
  - rewrite mget_merged. apply (first_some_Some _ (node_source top)).
    + rewrite lookup_map, Hv. simpl. by rewrite dir_cmp_refl.
    + intros j Hj. rewrite lookup_map.
      assert (Hjl : (j < length rems)%nat) by (apply lookup_lt_Some in Hv; lia).
      destruct (lookup_lt_is_Some_2 rems j Hjl) as [w Hw]. rewrite Hw. simpl. f_equal.
      destruct (mget (KO:=dir_order fwd) key w) as [e0|] eqn:Ew; [|done]. exfalso. apply (mget_Some_In (KO:=dir_order fwd)) in Ew.
      destruct (turn_lower j w key e0 Hw Ew) as [Hlt|[_ (v' & ->)]]; [by rewrite dir_cmp_refl in Hlt|].
      assert (Hn : In {| node_key := key; node_source := j; node_rank := j |} (top :: h)) by (apply turn_node; simpl; eauto).
      apply turn_min in Hn as [En|[Hlt|[_ Hlt]]]; [rewrite <- En in Hj; simpl in Hj; lia|by simpl in Hlt; fold key in Hlt; rewrite dir_cmp_refl in Hlt|].
      simpl in Hlt. lia.
  - rewrite !mget_merged. apply first_some_ext; [by rewrite !length_map|]. intros j.
    rewrite !lookup_map.
    destruct (advance_views same rems !! j) as [w|] eqn:Ej.
    + destruct (Hnew j w Ej) as (w0 & Hw0 & Hcase & _). rewrite Hw0. simpl. f_equal.
      destruct Hcase as [[-> _]|(e0 & ->)]; [done|]. rewrite mget_cons. destruct (keqb_spec (KO:=dir_order fwd) k0 key); done.
    + apply lookup_ge_None in Ej. rewrite Hlen in Ej. by rewrite (proj2 (lookup_ge_None rems j) Ej).
Qed.

Lemma turn_ok : exists r' e,
  step r = Some (Some (r', (key, e))) /\ reads r' (advance_views same rems) /\
  scan_forward_ r' = fwd /\ prefix_ r' = prefix_ r /\
  merged fwd rems = (key, e) :: merged fwd (advance_views same rems) /\ (total (advance_views same rems) < total rems)%nat.
Proof.
  destruct turn_split as (E & Hk & Hl & same' & Esame). pose proof same_nodup as Hnd.
  assert (Htop : In top (top :: h)) by by left. apply turn_node in Htop as (Hrank & e & v & Hv). fold key in Hv.
  destruct (Forall2_lookup_r _ _ _ _ _ (re_views _ _ _ Hr) Hv) as (s & Hsrc & Hview).
  destruct (view_cons _ _ _ _ _ Hview) as [Hread _].
  destruct (advance_all_ok same _ rems turn_except Hnd) as (r' & Eadv & Hr' & Hf & Hp).
  { apply Forall_forall. intros n Hn. apply list_elem_of_In in Hn. assert (Hin : In (node_source n) (map node_source same)) by by apply in_map.
    apply turn_same in Hin as (e' & v' & H'). eauto. }
  exists r', e. split; [|split; [exact Hr'|split; [exact Hf|split; [exact Hp|]]]].
  { unfold step. rewrite Hh. fold key. pose proof turn_winner as Hw. pose proof Eadv as Eadv'. unfold same in Hw, Eadv'. unfold rest in Eadv'.
    destruct (pop_same key (top :: h)) as [a b]. simpl in Hw, Eadv'. rewrite Hw, Hsrc, Hread, Eadv'. done. }
  split; [by eapply turn_merged|].
  rewrite Esame. unfold advance_views. cbn [fold_left]. fold (advance_views same' (alter (@tl (bytes * SnapshotEntry)) (node_source top) rems)).
  eapply Nat.le_lt_trans; [apply total_advance|by eapply total_alter_lt].
Qed.
End Turn.

(** ** Rows *)

Definition live_row (e : bytes * SnapshotEntry) : list (bytes * AttributeMap) :=
  if is_deleted e.2 then [] else [(e.1, attributes e.2)].

Definition live_rows (l : Snapshot) : list (bytes * AttributeMap) := concat (map live_row l).

Lemma live_rows_app a b : live_rows (a ++ b) = live_rows a ++ live_rows b.
Proof. unfold live_rows. by rewrite map_app, concat_app. Qed.

Lemma step_spec r rems : reads r rems ->
  match step r with
  | None => False
  | Some None => merged (scan_forward_ r) rems = []
  | Some (Some (r', (k, e))) => exists rems', reads r' rems' /\ scan_forward_ r' = scan_forward_ r /\ prefix_ r' = prefix_ r /\
      merged (scan_forward_ r) rems = (k, e) :: merged (scan_forward_ r) rems' /\ (total rems' < total rems)%nat
  end.
Proof.
  intros Hr. destruct (heap_ r) as [|top h] eqn:Eh.
  - unfold step. rewrite Eh. apply merged_empty. apply Forall_lookup. intros j v Hj. destruct v as [|[k e] v]; [done|].
    assert (Hin : In {| node_key := k; node_source := j; node_rank := j |} (heap_ r)) by (apply (re_nodes _ _ _ Hr); simpl; split_and!; [done|tauto|eauto]).
    rewrite Eh in Hin. done.
  - destruct (turn_ok r rems top h Hr Eh) as (r' & e & -> & H1 & H2 & H3 & H4 & H5). eauto 10.
Qed.

Lemma next_loop_spec fuel : forall r rems, reads r rems -> (total rems < fuel)%nat ->
  exists r' rems', next_loop fuel r = Some (r', head (live_rows (merged (scan_forward_ r) rems))) /\ reads r' rems' /\
    scan_forward_ r' = scan_forward_ r /\
    live_rows (merged (scan_forward_ r) rems') = tl (live_rows (merged (scan_forward_ r) rems)).
Proof.
  induction fuel as [|fuel IH]; intros r rems Hr Hf; [lia|]. cbn [next_loop]. pose proof (step_spec r rems Hr) as Hs.
  destruct (step r) as [[[r1 [k e]]|]|]; [| |done].
  - destruct Hs as (rems1 & Hr1 & H1 & H2 & Em & Ht). rewrite Em. unfold live_rows. cbn [map concat]. fold (live_rows (merged (scan_forward_ r) rems1)).
    unfold live_row. cbn [fst snd]. destruct (is_deleted e).
    + destruct (IH r1 rems1 Hr1 ltac:(lia)) as (r' & rems' & E & Hr' & H3 & H4). rewrite H1 in *. exists r', rems'. by repeat split; try apply Hr'.
    + exists r1, rems1. split; [done|]. by repeat split; try apply Hr1.
  - rewrite Hs. exists r, rems. split; [done|]. split; [exact Hr|]. split; [done|]. by rewrite Hs.
Qed.

Lemma in_block_length p l : (length (in_block p l) <= length l)%nat.
Proof. induction l as [|e l IH]; simpl; [done|]. destruct (starts_with e.1 p); simpl; lia. Qed.

Lemma reads_fuel r rems : reads r rems -> (total rems < reader_fuel r)%nat.
Proof.
  intros Hr. unfold total, reader_fuel. apply le_n_S. pose proof (re_views _ _ _ Hr) as Hv. clear Hr.
  induction Hv as [|s v ss vs (es & Hb & Hp & ->) Hv IH]; [done|]. unfold list_sum in *. cbn [map fold_right].
  assert (Hc : source_count s = length es) by (destruct s; by apply body_rep_count).
  assert (length (in_block (prefix_ r) (visit (scan_forward_ r) s es)) <= length es)%nat; [|lia].
  etransitivity; [apply in_block_length|]. unfold visit. destruct (valid s); simpl; [|lia].
  destruct (scan_forward_ r); [rewrite length_drop; lia|]. rewrite length_rev, length_take. lia.
Qed.

(** [next] delivers the next live row, whatever lies in between. *)
Lemma next_spec r rems : reads r rems ->
  exists r' rems', next r = Some (r', head (live_rows (merged (scan_forward_ r) rems))) /\ reads r' rems' /\
    scan_forward_ r' = scan_forward_ r /\
    live_rows (merged (scan_forward_ r) rems') = tl (live_rows (merged (scan_forward_ r) rems)).
Proof. intros Hr. apply next_loop_spec; [done|by apply reads_fuel]. Qed.

(** ** Construction *)

Definition opt_block (fwd : bool) (p : bytes) (start : option bytes) (es : Snapshot) : Snapshot :=
  in_block p (if fwd then forward_rows (Some p) start es else rev (backward_rows (Some p) start es)).

Lemma take_pred_S {A} (l : list A) n : (0 < n)%nat -> take (S (Nat.pred n)) l = take n l.
Proof. intros. f_equal. lia. Qed.

Lemma start_source_ok fwd p start b es lower upper :
  body_rep b es ->
  (forall k, lower k = Some (length (mbefore k es))) ->
  (forall k, exists n, upper k = Some n /\ drop n es = mupper k es /\ (n <= length es)%nat) ->
  exists s, start_source fwd p start b lower upper (length es) = Some s /\ source_view fwd p s (opt_block fwd p start es).
Proof.
  intros Hb Hl Hu. pose proof (body_rep_sorted _ _ Hb) as Hs. unfold start_source, opt_block. destruct fwd.
  - assert (Hpos : exists n, match start with Some k => upper k | None => lower p end = Some n /\ drop n es = forward_rows (Some p) start es /\ (n <= length es)%nat).
    { unfold forward_rows. destruct start as [k|]; [apply Hu|]. exists (length (mbefore p es)). rewrite Hl, SST.drop_mbefore. repeat split.
      rewrite <- (mlower_split p es) at 2. rewrite length_app. lia. }
    destruct Hpos as (n & -> & Hd & Hn). eexists. split; [reflexivity|]. exists es. split; [done|]. simpl.
    split; [by intros ?%Nat.ltb_lt|]. unfold visit. simpl. rewrite <- Hd.
    destruct (Nat.ltb_spec n (length es)); [done|]. by rewrite drop_ge by lia.
  - assert (Hpos : exists n, match start with Some k => lower k | None => match prefix_successor p with Some u => lower u | None => Some (length es) end end = Some n /\
       take n es = backward_rows (Some p) start es /\ (n <= length es)%nat).
    { assert (Hm : forall k, take (length (mbefore k es)) es = mbefore k es /\ (length (mbefore k es) <= length es)%nat).
      { intros k. split; [rewrite <- (mlower_split k es) at 2; by rewrite take_app_length|].
        rewrite <- (mlower_split k es) at 2. rewrite length_app. lia. }
      unfold backward_rows. destruct start as [k|]; [exists (length (mbefore k es)); rewrite Hl; split; [done|apply Hm]|].
      destruct (prefix_successor p) as [u|]; [exists (length (mbefore u es)); rewrite Hl; split; [done|apply Hm]|].
      exists (length es). by rewrite take_ge by lia. }
    destruct Hpos as (n & -> & Ht & Hn). eexists. split; [reflexivity|]. exists es. split; [done|]. simpl.
    split; [intros ?%Nat.ltb_lt; lia|]. unfold visit. cbn [valid position]. rewrite <- Ht.
    destruct (Nat.ltb_spec 0 n); [by rewrite take_pred_S|]. assert (n = 0%nat) as -> by lia. done.
Qed.

Lemma memory_source_ok fwd p start es : msorted es ->
  exists s, memory_source fwd p start es = Some s /\ source_view fwd p s (opt_block fwd p start es).
Proof.
  intros Hs. apply (start_source_ok fwd p start (Memory es) es); [done|done|]. intros k. eexists. split; [reflexivity|].
  assert (Hsuf : exists l, es = l ++ mupper k es).
  { clear. induction es as [|[k1 e1] es [l IH]]; simpl; [by exists []|]. destruct (bytes_cmp k1 k);
      [exists ((k1, e1) :: l); simpl; by f_equal|exists ((k1, e1) :: l); simpl; by f_equal|by exists []]. }
  destruct Hsuf as [l E]. assert (El : length es = (length l + length (mupper k es))%nat) by (rewrite E at 1; apply length_app).
  rewrite El, Nat.add_sub. split; [|lia]. rewrite E at 1. apply drop_app_length.
Qed.

Lemma table_source_ok fwd p start t es : SST.rep t es ->
  exists s, table_source fwd p start t = Some s /\ source_view fwd p s (opt_block fwd p start es).
Proof.
  intros Hr. unfold table_source. rewrite (SST.rep_count _ _ Hr). apply (start_source_ok fwd p start (Table t) es); [done| |].
  - intros k. by apply SST.lower_bound_rep.
  - intros k. by apply SST.upper_bound_rep.
Qed.

Lemma add_source_ok r rems s v : reads r rems -> source_view (scan_forward_ r) (prefix_ r) s v ->
  exists r', add_source r s = Some r' /\ reads r' (rems ++ [v]) /\ scan_forward_ r' = scan_forward_ r /\ prefix_ r' = prefix_ r.
Proof.
  intros [Hv Hs Hn] Hsv. unfold add_source. pose proof (Forall2_length _ _ _ Hv) as Hlen. rewrite Hlen.
  set (r1 := {| prefix_ := prefix_ r; scan_forward_ := scan_forward_ r; sources_ := sources_ r ++ [s]; heap_ := heap_ r |}).
  assert (Hr1 : reads_except r1 (rems ++ [v]) [length rems]).
  { split; [apply Forall2_app; auto|done|]. intros n. change (heap_ r1) with (heap_ r). rewrite Hn. simpl.
    split; intros (H1 & H2 & e & w & H3).
    - assert (Hlt : (node_source n < length rems)%nat) by by eapply lookup_lt_Some.
      repeat split; auto; [lia|]. exists e, w. by rewrite lookup_app_l.
    - assert (Hlt : (node_source n < length rems)%nat).
      { apply lookup_lt_Some in H3. rewrite length_app in H3. simpl in H3. lia. }
      repeat split; auto. exists e, w. by rewrite lookup_app_l in H3. }
  destruct (enqueue_ok r1 (rems ++ [v]) (length rems) [] Hr1) as (r' & E & Hr' & _ & H1 & H2); [rewrite length_app; simpl; lia|auto|].
  by exists r'.
Qed.

Lemma add_sources_ok l vs : forall r rems, reads r rems ->
  Forall2 (fun o v => exists s, o = Some s /\ source_view (scan_forward_ r) (prefix_ r) s v) l vs ->
  exists r', add_sources r l = Some r' /\ reads r' (rems ++ vs) /\ scan_forward_ r' = scan_forward_ r /\ prefix_ r' = prefix_ r.
Proof.
  revert vs. induction l as [|o l IH]; intros vs r rems Hr Hl; inversion Hl as [|? v ? vs' (s & -> & Hs) Hl']; subst.
  - exists r. by rewrite app_nil_r.
  - destruct (add_source_ok r rems s v Hr Hs) as (r1 & E & Hr1 & H1 & H2). rewrite <- H1, <- H2 in Hl'.
    destruct (IH vs' r1 (rems ++ [v]) Hr1 Hl') as (r' & E' & Hr' & H3 & H4). exists r'. cbn [add_sources]. rewrite E.
    rewrite <- app_assoc in Hr'. split; [done|]. split; [done|]. split; congruence.
Qed.

Lemma make_reader_ok snaps tables tes p start fwd :
  Forall msorted snaps -> Forall2 SST.rep tables tes ->
  exists r, make_reader snaps tables p start fwd = Some r /\ scan_forward_ r = fwd /\
    reads r (map (opt_block fwd p start) (snaps ++ tes)).
Proof.
  intros Hsn Htab. set (r0 := {| prefix_ := p; scan_forward_ := fwd; sources_ := []; heap_ := [] |}).
  assert (Hr0 : reads r0 []) by (split; simpl; [constructor|constructor|intros n; split; [done|]; intros (_ & _ & ? & ? & ?); done]).
  destruct (add_sources_ok (map (memory_source fwd p start) snaps ++ map (table_source fwd p start) tables)
    (map (opt_block fwd p start) (snaps ++ tes)) r0 [] Hr0) as (r & E & Hr & H1 & _).
  { rewrite map_app. apply Forall2_app.
    - clear -Hsn. induction Hsn as [|es snaps Hs Hsn IH]; simpl; constructor; [|done]. by apply memory_source_ok.
    - clear -Htab. induction Htab as [|t es ts ess Ht Hts IH]; simpl; constructor; [|done]. by apply table_source_ok. }
  exists r. by repeat split; try apply Hr.
Qed.


(** ** What a read covers *)

(** A layer in reading order. *)
Definition oriented {A} (fwd : bool) (l : list A) : list A := if fwd then l else rev l.

(** The keys a read covers: those of the prefix beyond the start key. *)
Definition covers (fwd : bool) (p : bytes) (start : option bytes) (k : bytes) : bool :=
  starts_with k p && match start with
                     | Some s => match dir_cmp fwd s k with Lt => true | _ => false end
                     | None => true
                     end.

(** Everything the layers hold, tombstones included and then without them. *)
Definition contents (layers : list Snapshot) : list (bytes * AttributeMap) := live_rows (merged true layers).

Lemma keqb_dir fwd a b : keqb (KO:=dir_order fwd) a b = keqb a b.
Proof. destruct (keqb_spec (KO:=dir_order fwd) a b), (keqb_spec a b); congruence. Qed.

Lemma mget_dir {A} fwd k (l : list (bytes * A)) : mget (KO:=dir_order fwd) k l = mget k l.
Proof. induction l as [|[k1 e1] l IH]; [done|]. by rewrite !mget_cons, keqb_dir, IH. Qed.

Lemma msorted_dir_true {A} (l : list (bytes * A)) : msorted (KO:=dir_order true) l <-> msorted l.
Proof.
  induction l as [|[k e] l IH]; [split; intros _; constructor|].
  split; intros [Ha Hs]%msorted_cons_inv; (apply msorted_cons; [exact Ha|by apply IH]).
Qed.

Lemma merged_msorted layers : msorted (merged true layers).
Proof. apply msorted_dir_true, merged_sorted. Qed.

(** Lookup in a filtered sorted map, and in a reversed one. *)
Lemma mget_filter {A} {KO : KeyOrder bytes} (f : bytes -> bool) k (l : list (bytes * A)) :
  mget k (List.filter (fun e => f e.1) l) = if f k then mget k l else None.
Proof.
  induction l as [|[k1 e1] l IH]; [simpl; by destruct (f k)|]. cbn [List.filter fst]. destruct (f k1) eqn:E1.
  - rewrite !mget_cons, IH. destruct (keqb_spec k k1) as [->|]; [by rewrite E1|done].
  - rewrite IH. destruct (f k) eqn:E; [|done]. rewrite mget_cons. destruct (keqb_spec k k1); [congruence|done].
Qed.

Lemma msorted_filter {A} {KO : KeyOrder bytes} (f : bytes * A -> bool) l : msorted l -> msorted (List.filter f l).
Proof.
  induction 1 as [|k e l Ha Hs IH]; simpl; [constructor|]. destruct (f (k, e)); [|done]. constructor; [|done].
  unfold above in *. apply Forall_forall. intros x Hx%list_elem_of_In%filter_In. rewrite Forall_forall in Ha. apply Ha, list_elem_of_In. tauto.
Qed.

Lemma oriented_sorted {A} fwd (l : list (bytes * A)) : msorted l -> msorted (KO:=dir_order fwd) (oriented fwd l).
Proof.
  destruct fwd; simpl; [by apply msorted_dir_true|]. induction 1 as [|k e es Ha Hs IH]; simpl; [constructor|].
  apply msorted_app. split; [done|]. split; [repeat constructor|].
  apply Forall_forall. intros x Hx%list_elem_of_In%in_rev%list_elem_of_In. unfold above in *.
  rewrite Forall_forall in Ha. apply Ha in Hx. repeat constructor. done.
Qed.

Lemma mget_oriented {A} fwd k (l : list (bytes * A)) : msorted l -> mget k (oriented fwd l) = mget k l.
Proof.
  intros Hs. destruct fwd; [done|]. rewrite <- (mget_dir false). pose proof (oriented_sorted false l Hs) as Hr.
  destruct (mget k l) as [e|] eqn:E.
  - apply (mget_In (KO:=dir_order false)); [done|]. apply in_rev. simpl. rewrite rev_involutive. by apply mget_In.
  - destruct (mget (KO:=dir_order false) k (oriented false l)) as [e|] eqn:E'; [|done].
    apply (mget_In (KO:=dir_order false)) in E'; [|done]. apply in_rev, mget_In in E'; [|done]. congruence.
Qed.

(** A source's view is the covered part of its layer. *)
Lemma in_block_filter p (l block tail : Snapshot) : l = block ++ tail ->
  Forall (fun e => starts_with e.1 p = true) block -> Forall (fun e => starts_with e.1 p = false) tail ->
  in_block p l = List.filter (fun e => starts_with e.1 p) l.
Proof.
  intros -> Hb Ht. induction Hb as [|e block He Hb IH]; simpl.
  - rewrite filter_none by done. destruct Ht as [|e tail He _]; [done|]. simpl. by rewrite He.
  - by rewrite He, IH.
Qed.

Lemma opt_block_covers fwd p start es : msorted es -> start_ok start (Some p) ->
  opt_block fwd p start es = List.filter (fun e => covers fwd p start e.1) (oriented fwd es).
Proof.
  intros Hs Hst.
  assert (Hrows : List.filter (fun e : bytes * SnapshotEntry => starts_with e.1 p) (if fwd then rows_after start es else rev (rows_before start es)) =
    List.filter (fun e => covers fwd p start e.1) (oriented fwd es)).
  { apply (msorted_ext (KO:=dir_order fwd)).
    - apply msorted_filter. destruct fwd; [apply (oriented_sorted true)|apply (oriented_sorted false)];
        unfold rows_after, rows_before; destruct start; auto with cyn.
    - by apply msorted_filter, oriented_sorted.
    - intros k. rewrite !(mget_filter (KO:=dir_order fwd) (fun k => starts_with k p)).
      rewrite (mget_filter (KO:=dir_order fwd) (covers fwd p start)), !mget_dir, (mget_oriented fwd) by done.
      unfold covers. destruct (starts_with k p); [|done]. simpl. destruct fwd; simpl.
      + unfold rows_after. destruct start as [s|]; [|done]. rewrite mget_mupper by done. by destruct (bytes_cmp s k).
      + change (rev (rows_before start es)) with (oriented false (rows_before start es)).
        rewrite (mget_oriented false) by (unfold rows_before; destruct start; auto with cyn).
        unfold rows_before. destruct start as [s|]; [|done]. rewrite mget_mbefore by done. by destruct (bytes_cmp k s). }
  rewrite <- Hrows. unfold opt_block. destruct fwd.
  - destruct (forward_block (Some p) start es (fun e => starts_with e.1 p) Hs Hst) as [(block & tail & E & Hb & Ht) Hf]; [done|].
    rewrite <- Hf. by eapply in_block_filter.
  - destruct (backward_block (Some p) start es (fun e => starts_with e.1 p) Hs Hst) as [(block & tail & E & Hb & Ht) Hf]; [done|].
    rewrite <- Hf. by eapply in_block_filter.
Qed.

Lemma filter_oriented {A} fwd (f : A -> bool) l : List.filter f (oriented fwd l) = oriented fwd (List.filter f l).
Proof. destruct fwd; [done|]. apply filter_rev. Qed.

(** Merging commutes with restricting and with reversing every layer. *)
Lemma merged_covers fwd f layers : Forall msorted layers ->
  merged fwd (map (fun es => List.filter (fun e => f e.1) (oriented fwd es)) layers) =
  List.filter (fun e => f e.1) (oriented fwd (merged true layers)).
Proof.
  intros Hl. pose proof (merged_msorted layers) as Hm. apply (msorted_ext (KO:=dir_order fwd)).
  - apply merged_sorted.
  - by apply msorted_filter, oriented_sorted.
  - intros k. rewrite mget_merged, (mget_filter (KO:=dir_order fwd)), mget_dir, mget_oriented by done.
    rewrite <- (mget_dir true k (merged true layers)), mget_merged. clear Hm.
    induction Hl as [|es layers Hes Hl IH]; simpl; [by destruct (f k)|].
    rewrite (mget_filter (KO:=dir_order fwd)), !mget_dir, mget_oriented by done. rewrite IH. by destruct (f k), (mget k es).
Qed.

Lemma live_rows_filter (f : bytes -> bool) l :
  live_rows (List.filter (fun e => f e.1) l) = List.filter (fun e => f e.1) (live_rows l).
Proof.
  induction l as [|[k e] l IH]; [done|]. change ((k, e) :: l) with ([(k, e)] ++ l).
  rewrite List.filter_app, !live_rows_app, List.filter_app, IH. f_equal. unfold live_rows, live_row. simpl.
  destruct (f k) eqn:E; simpl; destruct (is_deleted e); simpl; by rewrite ?E.
Qed.

Lemma live_rows_oriented fwd l : live_rows (oriented fwd l) = oriented fwd (live_rows l).
Proof.
  destruct fwd; [done|]. simpl. induction l as [|[k e] l IH]; [done|]. change ((k, e) :: l) with ([(k, e)] ++ l).
  rewrite rev_app_distr, !live_rows_app, rev_app_distr, IH. f_equal. unfold live_rows, live_row. simpl. by destruct (is_deleted e).
Qed.

Lemma live_rows_above k l : above k l -> above k (live_rows l).
Proof.
  unfold above, live_rows. induction 1 as [|[k1 e1] l H1 Hl IH]; [constructor|]. simpl. apply Forall_app. split; [|done].
  unfold live_row. simpl. destruct (is_deleted e1); repeat constructor. done.
Qed.

Lemma live_rows_sorted l : msorted l -> msorted (live_rows l).
Proof.
  induction 1 as [|k e l Ha Hs IH]; [constructor|]. change ((k, e) :: l) with ([(k, e)] ++ l). rewrite live_rows_app.
  unfold live_rows at 1, live_row. simpl. destruct (is_deleted e); simpl; [done|]. constructor; [by apply live_rows_above|done].
Qed.

Definition live_value (o : option SnapshotEntry) : option AttributeMap :=
  match o with Some e => if is_deleted e then None else Some (attributes e) | None => None end.

Lemma mget_live_rows k l : msorted l -> mget k (live_rows l) = live_value (mget k l).
Proof.
  induction 1 as [|k1 e1 l Ha Hs IH]; [done|]. rewrite mget_cons. change ((k1, e1) :: l) with ([(k1, e1)] ++ l).
  rewrite live_rows_app. unfold live_rows at 1, live_row. cbn [map concat app fst snd]. destruct (keqb_spec k k1) as [->|Hne]; cbn [live_value].
  - destruct (is_deleted e1) eqn:Ed; simpl; [|by rewrite bytes_cmp_refl]. by apply mget_above, live_rows_above.
  - rewrite <- IH. destruct (is_deleted e1); cbn [app]; [done|]. rewrite mget_cons. by destruct (keqb_spec k k1).
Qed.

Lemma contents_sorted layers : msorted (contents layers).
Proof. apply live_rows_sorted, merged_msorted. Qed.

Lemma mget_contents layers k : mget k (contents layers) = live_value (first_some (map (mget k) layers)).
Proof.
  unfold contents. rewrite mget_live_rows by apply merged_msorted. rewrite <- (mget_dir true), mget_merged. do 2 f_equal.
Qed.

(** ** The reader *)

(** [reading r rows]: the rows the reader will deliver. *)
Definition reading (r : Reader) (rows : list (bytes * AttributeMap)) : Prop :=
  exists rems, reads r rems /\ rows = live_rows (merged (scan_forward_ r) rems).

Lemma next_reading r rows : reading r rows ->
  exists r', next r = Some (r', head rows) /\ reading r' (tl rows).
Proof.
  intros (rems & Hr & ->). destruct (next_spec r rems Hr) as (r' & rems' & E & Hr' & Hf & Ht).
  exists r'. split; [done|]. exists rems'. split; [done|]. by rewrite Hf, Ht.
Qed.

(** A fresh reader delivers the live rows it covers, in reading order. *)
Lemma make_reader_reading snaps tables tes p start fwd :
  Forall msorted snaps -> Forall2 SST.rep tables tes -> start_ok start (Some p) ->
  exists r, make_reader snaps tables p start fwd = Some r /\
    reading r (List.filter (fun e => covers fwd p start e.1) (oriented fwd (contents (snaps ++ tes)))).
Proof.
  intros Hsn Htab Hst. destruct (make_reader_ok snaps tables tes p start fwd Hsn Htab) as (r & E & Hf & Hr).
  exists r. split; [done|]. eexists. split; [exact Hr|]. rewrite Hf.
  assert (Hall : Forall msorted (snaps ++ tes)).
  { apply Forall_app. split; [done|]. clear -Htab. induction Htab as [|t es ts ess Ht _ IH]; constructor; [by eapply SST.rep_sorted|done]. }
  rewrite (map_ext_in _ (fun es => List.filter (fun e => covers fwd p start e.1) (oriented fwd es))).
  2:{ intros es Hin. apply opt_block_covers; [|done]. rewrite Forall_forall in Hall. by apply Hall, list_elem_of_In. }
  rewrite merged_covers by done. unfold contents. by rewrite live_rows_filter, live_rows_oriented.
Qed.

Lemma read_rows_reading fuel : forall r rows, reading r rows -> (length rows < fuel)%nat -> read_rows fuel r = Some rows.
Proof.
  induction fuel as [|fuel IH]; intros r rows Hr Hf; [lia|]. cbn [read_rows]. destruct (next_reading r rows Hr) as (r' & -> & Hr').
  destruct rows as [|row rows]; [done|]. cbn [head tl] in *. rewrite (IH r' rows Hr'); [done|simpl in Hf; lia].
Qed.

(** A reader's rows are no more than the entries of its sources. *)
Lemma mset_length {A} {KO : KeyOrder bytes} k (v : A) m : (length (mset k v m) <= S (length m))%nat.
Proof. induction m as [|[k1 v1] m IH]; simpl; [done|]. destruct (kcmp k k1); simpl; lia. Qed.

Lemma merged_length fwd rems : (length (merged fwd rems) <= total rems)%nat.
Proof.
  unfold total. induction rems as [|v rems IH]; [done|]. change (merged fwd (v :: rems)) with (overlay fwd v (merged fwd rems)).
  cbn [map]. change (list_sum (length v :: map length rems)) with (length v + list_sum (map length rems))%nat.
  induction v as [|[k e] v IHv]; simpl; [done|]. etransitivity; [apply mset_length|]. simpl. lia.
Qed.

Lemma live_rows_length l : (length (live_rows l) <= length l)%nat.
Proof.
  induction l as [|[k e] l IH]; [done|]. change ((k, e) :: l) with ([(k, e)] ++ l). rewrite live_rows_app, !length_app.
  unfold live_rows at 1, live_row. simpl. destruct (is_deleted e); simpl; lia.
Qed.

Lemma reading_fuel r rows : reading r rows -> (length rows < reader_fuel r)%nat.
Proof.
  intros (rems & Hr & ->). pose proof (reads_fuel r rems Hr). pose proof (live_rows_length (merged (scan_forward_ r) rems)).
  pose proof (merged_length (scan_forward_ r) rems). lia.
Qed.

(** ** Correctness *)

(** The merged reader behind every scan, query and table drop.  Over the
    memtable snapshots and the SSTables, newest first, it returns exactly the
    live rows whose key has the prefix and lies beyond the exclusive start key,
    in ascending or descending key order; for a key that several sources hold
    the newest source decides, and a tombstone there hides every older value.
    The reader terminates without an exception. *)
Theorem merged_reader_exact snaps tables tes p start fwd fuel :
  Forall msorted snaps -> Forall2 SST.rep tables tes -> start_ok start (Some p) ->
  (length (contents (snaps ++ tes)) < fuel)%nat ->
  exists r, make_reader snaps tables p start fwd = Some r /\
    read_rows fuel r = Some (List.filter (fun e => covers fwd p start e.1) (oriented fwd (contents (snaps ++ tes)))) /\
    (forall k, mget k (contents (snaps ++ tes)) = live_value (first_some (map (mget k) (snaps ++ tes)))).
Proof.
  intros Hsn Htab Hst Hf. destruct (make_reader_reading snaps tables tes p start fwd Hsn Htab Hst) as (r & E & Hr).
  exists r. split; [done|]. split; [|intros; apply mget_contents]. apply read_rows_reading; [done|].
  eapply Nat.le_lt_trans; [apply filter_length_le|]. unfold oriented. destruct fwd; [done|]. by rewrite length_rev.
Qed.

(** A snapshot whose tombstone hides a row of an older one. *)
Lemma merged_reader_exact_witness : exists r,
  make_reader [[(lit "t1", {| is_deleted := true; attributes := [] |})];
               [(lit "t1", {| is_deleted := false; attributes := [] |});
                (lit "t2", {| is_deleted := false; attributes := [] |});
                (lit "u", {| is_deleted := false; attributes := [] |})]] [] (lit "t") None false = Some r /\
  read_rows 4 r = Some [(lit "t2", [])].
Proof.
  destruct (merged_reader_exact
    [[(lit "t1", {| is_deleted := true; attributes := [] |})];
     [(lit "t1", {| is_deleted := false; attributes := [] |});
      (lit "t2", {| is_deleted := false; attributes := [] |});
      (lit "u", {| is_deleted := false; attributes := [] |})]] [] [] (lit "t") None false 4) as (r & E1 & E2 & _).
  - repeat constructor; by_eval.
  - constructor.
  - intros k q Hk. discriminate Hk.
  - by_eval.
  - exists r. split; [exact E1|]. rewrite E2. vm_compute. reflexivity.
Defined.
