(* ===== verification/LsmEngine.v ===== *)
(** * The LSM engine: client operations

    [src/engine/lsm/lsm_engine.cpp].  [Engine] is the engine's state together
    with the part of the disk it owns: the log segments (each with its
    [WriteAheadLog] object, keyed by generation), the SSTable files and the
    manifest file.  Every client operation holds the engine lock for its body, so
    it is one step on this state; the commit after the lock is released only
    moves the log's sync counters.  [None] is a thrown exception.

    Two things the code takes from its surroundings are arguments: the coin
    flips of a skip-list insertion and the padding octets of a log record, both
    indexed by the sequence number of the write.

    The 64-bit counters (generations, sequence numbers) are unbounded integers.

    What the engine stores is [contents (layers e)]: the live rows of the merge of
    the memtable, the immutable memtables and the SSTables, newest first. *)

From Stdlib Require Import ZArith Lia Strings.String.
From stdpp Require Import prelude.
From S2P Require Import Prelude StdMap Ranges Types Storage RecordCodec Wal Skiplist SSTable Manifest MergedReader.

Module Lsm.

Definition kSeparator : byte := Byte.x00.

Definition internal_key (table key : bytes) : bytes := table ++ [kSeparator] ++ key.

Definition table_prefix (table : bytes) : bytes := table ++ [kSeparator].

(** ** Conditions *)

Definition attribute_equals (a b : AttributeValue) : bool :=
  match a, b with
  | AV_S s, AV_S s' => bytes_eqb s s'
  | AV_N s, AV_N s' => bytes_eqb s s'
  | AV_BOOL x, AV_BOOL y => Bool.eqb x y
  | AV_NUL, AV_NUL => true
  | _, _ => false
  end.

Fixpoint item_matches (item conditions : AttributeMap) : bool :=
  match conditions with
  | [] => true
  | (name, expected) :: conditions' =>
      match expected with
      | None => false
      | Some e =>
          match mget name item with
          | Some (Some v) => if attribute_equals v e then item_matches item conditions' else false
          | _ => false
          end
      end
  end.

(** ** State *)

Record Engine := {
  db_path_ : bytes;
  memtable_ : MemTable;
  immutable_memtables_ : list (MemTable * Z);
  sstables_ : list SST.SSTable;
  wals_ : list (Z * Log);
  wal_generation_ : Z;
  wal_seq_ : Z;
  manifest_ : Manifest.t;
  sst_files_ : list (bytes * bytes);
  manifest_file_ : option bytes;
  compaction_pending_ : bool
}.

Definition memtable_flush_threshold_ : Z := 1000.

Definition with_wals (e : Engine) (ws : list (Z * Log)) (seq : Z) : Engine :=
  {| db_path_ := db_path_ e; memtable_ := memtable_ e; immutable_memtables_ := immutable_memtables_ e;
     sstables_ := sstables_ e; wals_ := ws; wal_generation_ := wal_generation_ e; wal_seq_ := seq;
     manifest_ := manifest_ e; sst_files_ := sst_files_ e; manifest_file_ := manifest_file_ e;
     compaction_pending_ := compaction_pending_ e |}.

Definition with_memtable (e : Engine) (m : MemTable) : Engine :=
  {| db_path_ := db_path_ e; memtable_ := m; immutable_memtables_ := immutable_memtables_ e;
     sstables_ := sstables_ e; wals_ := wals_ e; wal_generation_ := wal_generation_ e; wal_seq_ := wal_seq_ e;
     manifest_ := manifest_ e; sst_files_ := sst_files_ e; manifest_file_ := manifest_file_ e;
     compaction_pending_ := compaction_pending_ e |}.

Section Environment.
Context (coin : Z -> nat) (padding : Z -> bytes) (fsync : bool).

(** ** Writes *)

(** The payload of a log record. *)
Definition wal_value (is_delete : bool) (attributes : AttributeMap) : option bytes :=
  if is_delete then Some (lit "D") else option_map (fun enc => lit "P" ++ enc) (encode_attributes attributes).

(** The result of [append_only] is not looked at. *)
Definition append_to_wal (e : Engine) (ik : bytes) (is_delete : bool) (attributes : AttributeMap) : option Engine :=
  match mget (wal_generation_ e) (wals_ e) with
  | None => Some e
  | Some wal =>
      match wal_value is_delete attributes with
      | None => None
      | Some value =>
          let '(wal', _) := append_only (padding (wal_seq_ e)) wal (wal_seq_ e) ik value in
          Some (with_wals e (mset (wal_generation_ e) wal' (wals_ e)) (wal_seq_ e + 1))
      end
  end.

(** [commit] or [sync] of the log of one generation. *)
Definition commit_wal (e : Engine) (generation : Z) : Engine :=
  match mget generation (wals_ e) with
  | None => e
  | Some wal => with_wals e (mset generation (commit wal).1 (wals_ e)) (wal_seq_ e)
  end.

Definition rotate_memtable_if_needed (e : Engine) : Engine :=
  if mt_size (memtable_ e) <? memtable_flush_threshold_ then e
  else
    let e := commit_wal e (wal_generation_ e) in
    let generation := wal_generation_ e + 1 in
    let fresh := open_log (option_map file_ (mget generation (wals_ e))) fsync in
    {| db_path_ := db_path_ e; memtable_ := mt_empty;
       immutable_memtables_ := immutable_memtables_ e ++ [(memtable_ e, wal_generation_ e)];
       sstables_ := sstables_ e; wals_ := mset generation fresh (wals_ e);
       wal_generation_ := generation; wal_seq_ := wal_seq_ e; manifest_ := manifest_ e;
       sst_files_ := sst_files_ e; manifest_file_ := manifest_file_ e; compaction_pending_ := compaction_pending_ e |}.

Definition put_locked (e : Engine) (ik : bytes) (attributes : AttributeMap) : option (Engine * Z) :=
  let target_wal := wal_generation_ e in
  let flips := coin (wal_seq_ e) in
  match append_to_wal e ik false attributes with
  | None => None
  | Some e => Some (rotate_memtable_if_needed (with_memtable e (mt_put (memtable_ e) flips ik attributes)), target_wal)
  end.

Definition remove_locked (e : Engine) (ik : bytes) : option (Engine * Z) :=
  let target_wal := wal_generation_ e in
  let flips := coin (wal_seq_ e) in
  match append_to_wal e ik true [] with
  | None => None
  | Some e => Some (rotate_memtable_if_needed (with_memtable e (mt_remove (memtable_ e) flips ik)), target_wal)
  end.

(** ** Point reads *)

Definition memtable_lookup (m : MemTable) (ik : bytes) (otherwise : option (option AttributeMap))
  : option (option AttributeMap) :=
  match mt_get m ik with
  | Some val => Some (Some val)
  | None => if mt_is_tombstoned m ik then Some None else otherwise
  end.

Fixpoint sstable_lookup (l : list SST.SSTable) (ik : bytes) : option (option AttributeMap) :=
  match l with
  | [] => Some None
  | sstable :: l' =>
      match SST.get sstable ik with
      | None => None
      | Some (Some val) => Some (Some val)
      | Some None =>
          match SST.contains sstable ik with
          | None => None
          | Some true => Some None
          | Some false => sstable_lookup l' ik
          end
      end
  end.

Definition get_locked (e : Engine) (ik : bytes) : option (option AttributeMap) :=
  memtable_lookup (memtable_ e) ik
    (fold_right (fun m otherwise => memtable_lookup m ik otherwise) (sstable_lookup (sstables_ e) ik)
       (map fst (rev (immutable_memtables_ e)))).

(** ** Client operations *)

Definition put (e : Engine) (table_name key : bytes) (attributes : AttributeMap) : option Engine :=
  match put_locked e (internal_key table_name key) attributes with
  | None => None
  | Some (e, committed_wal) => Some (commit_wal e committed_wal)
  end.

Definition remove (e : Engine) (table_name key : bytes) : option Engine :=
  match remove_locked e (internal_key table_name key) with
  | None => None
  | Some (e, committed_wal) => Some (commit_wal e committed_wal)
  end.

Definition get (e : Engine) (table_name key : bytes) : option (option AttributeMap) :=
  get_locked e (internal_key table_name key).

Definition mutate (e : Engine) (table_name key : bytes) (mutator : Mutator) : option (Engine * MutationOutcome) :=
  let ik := internal_key table_name key in
  match get_locked e ik with
  | None => None
  | Some current =>
      match mutator current with
      | MutationPut attributes =>
          match put_locked e ik attributes with
          | None => None
          | Some (e, committed_wal) => Some (commit_wal e committed_wal, {| applied := true; previous := current |})
          end
      | MutationDelete =>
          match remove_locked e ik with
          | None => None
          | Some (e, committed_wal) => Some (commit_wal e committed_wal, {| applied := true; previous := current |})
          end
      | MutationNone => Some (e, {| applied := false; previous := current |})
      end
  end.

(** ** Range reads *)

(** The snapshots every reader starts from, newest first. *)
Definition snapshots (e : Engine) : list Snapshot :=
  mt_get_all_entries (memtable_ e) :: map (fun m => mt_get_all_entries m.1) (rev (immutable_memtables_ e)).

Definition reader_of (e : Engine) (prefix : bytes) (start : option bytes) (scan_forward : bool) : option Reader :=
  make_reader (snapshots e) (sstables_ e) prefix start scan_forward.

(** A reader has at most one row per entry of its sources, so [reader_fuel]
    turns of a loop over its rows are enough. *)
Fixpoint scan_loop (fuel : nat) (limit : Z) (prefix : bytes) (r : Reader) (result : list AttributeMap)
  (page_bytes : Z) (last_user_key : bytes) : option PageResult :=
  match fuel with
  | O => None
  | S fuel' =>
      match next r with
      | None => None
      | Some (_, None) => Some {| items := result; last_evaluated_key := None |}
      | Some (r, Some (key, attributes)) =>
          let item_bytes := item_size_bytes attributes in
          if negb (bool_decide (result = [])) &&
             ((negb (limit =? 0) && (len result =? limit)) ||
              (kMaxReadPageBytes - Z.min page_bytes kMaxReadPageBytes <? item_bytes))
          then Some {| items := result; last_evaluated_key := Some last_user_key |}
          else scan_loop fuel' limit prefix r (result ++ [attributes])
                 (size_saturating_add page_bytes item_bytes) (drop (length prefix) key)
      end
  end.

Definition scan (e : Engine) (table_name : bytes) (exclusive_start_key : option bytes) (limit : Z) : option PageResult :=
  let prefix := table_prefix table_name in
  let start := option_map (fun k => prefix ++ k) exclusive_start_key in
  match reader_of e prefix start true with
  | None => None
  | Some r => scan_loop (reader_fuel r) limit prefix r [] 0 []
  end.

Fixpoint query_loop (fuel : nat) (limit : Z) (key_conditions : AttributeMap) (prefix : bytes) (r : Reader)
  (result : list AttributeMap) (page_bytes : Z) (last_user_key : bytes) : option PageResult :=
  match fuel with
  | O => None
  | S fuel' =>
      match next r with
      | None => None
      | Some (_, None) => Some {| items := result; last_evaluated_key := None |}
      | Some (r, Some (key, attributes)) =>
          if negb (item_matches attributes key_conditions)
          then query_loop fuel' limit key_conditions prefix r result page_bytes last_user_key
          else
            let item_bytes := item_size_bytes attributes in
            if negb (bool_decide (result = [])) &&
               ((negb (limit =? 0) && (len result =? limit)) ||
                (kMaxReadPageBytes - Z.min page_bytes kMaxReadPageBytes <? item_bytes))
            then Some {| items := result; last_evaluated_key := Some last_user_key |}
            else query_loop fuel' limit key_conditions prefix r (result ++ [attributes])
                   (size_saturating_add page_bytes item_bytes) (drop (length prefix) key)
      end
  end.

Definition query (e : Engine) (table_name : bytes) (key_conditions : AttributeMap)
  (exclusive_start_key : option bytes) (limit : Z) (key_prefix : option bytes) (scan_forward : bool)
  : option PageResult :=
  let prefix := table_prefix table_name in
  let query_prefix := match key_prefix with Some p => prefix ++ p | None => prefix end in
  let start := option_map (fun k => prefix ++ k) exclusive_start_key in
  match reader_of e query_prefix start scan_forward with
  | None => None
  | Some r => query_loop (reader_fuel r) limit key_conditions prefix r [] 0 []
  end.

(** ** Dropping a table *)

(** The next batch of at most [n] keys. *)
Fixpoint collect_keys (n : nat) (r : Reader) : option (list bytes) :=
  match n with
  | O => Some []
  | S n' =>
      match next r with
      | None => None
      | Some (_, None) => Some []
      | Some (r, Some (key, _)) => option_map (cons key) (collect_keys n' r)
      end
  end.

Fixpoint remove_keys (e : Engine) (keys : list bytes) (committed_wal : option Z) : option (Engine * option Z) :=
  match keys with
  | [] => Some (e, committed_wal)
  | key :: keys' =>
      match remove_locked e key with
      | None => None
      | Some (e, w) => remove_keys e keys' (Some w)
      end
  end.

Fixpoint drop_loop (fuel : nat) (e : Engine) (prefix : bytes) (cursor : option bytes) : option Engine :=
  match fuel with
  | O => None
  | S fuel' =>
      match reader_of e prefix cursor true with
      | None => None
      | Some r =>
          match collect_keys (Z.to_nat memtable_flush_threshold_) r with
          | None => None
          | Some [] => Some e
          | Some keys =>
              match remove_keys e keys None with
              | None => None
              | Some (e, committed_wal) =>
                  let e := match committed_wal with Some w => commit_wal e w | None => e end in
                  drop_loop fuel' e prefix (last keys)
              end
          end
      end
  end.

(** Every round but the last removes a live row. *)
Definition drop_table (e : Engine) (table_name : bytes) : option Engine :=
  let prefix := table_prefix table_name in
  match reader_of e prefix None true with
  | None => None
  | Some r => drop_loop (S (reader_fuel r)) e prefix None
  end.
(** ** What the engine holds *)

(** The entries of an SSTable, read back one by one. *)
Definition sst_entry (t : SST.SSTable) (i : nat) : list (bytes * SnapshotEntry) :=
  match SST.index_entry t i, SST.read_entry t i with
  | Some (k, _), Some (Some e) => [(k, e)]
  | _, _ => []
  end.

Definition sst_entries (t : SST.SSTable) : Snapshot := concat (map (sst_entry t) (seq 0 (SST.entry_count t))).

Definition layers (e : Engine) : list Snapshot := snapshots e ++ map sst_entries (sstables_ e).

Definition holds (e : Engine) : list (bytes * AttributeMap) := contents (layers e).

Lemma sst_entries_rep t es : SST.rep t es -> sst_entries t = es.
Proof.
  intros Hr. unfold sst_entries. rewrite (SST.rep_count _ _ Hr).
  assert (Hgen : forall l i, drop i es = l -> concat (map (sst_entry t) (seq i (length l))) = l).
  { induction l as [|[k e] l IH]; intros i Hi; [done|]. cbn [length seq map concat].
    assert (Hx : es !! i = Some (k, e)) by (rewrite <- (Nat.add_0_r i), <- lookup_drop, Hi; done).
    rewrite IH.
    - unfold sst_entry. destruct (SST.rep_index _ _ Hr i k e Hx) as [off ->]. by rewrite (SST.rep_read _ _ Hr i k e Hx).
    - rewrite (drop_S _ _ _ Hx) in Hi. by injection Hi. }
  apply (Hgen es 0%nat). done.
Qed.

(** ** The invariant of the in-memory state *)

Definition row_ok (x : bytes * SnapshotEntry) : Prop := SST.entry_ok x /\ SL.is_valid_user_key x.1 = true.

Record inv (e : Engine) : Prop := {
  inv_mem : SL.wf (memtable_ e);
  inv_room : len (mt_get_all_entries (memtable_ e)) < kMaxSkiplistEntries;
  inv_imm : Forall (fun m => SL.wf m.1) (immutable_memtables_ e);
  inv_sst : Forall (fun t => SST.rep t (sst_entries t)) (sstables_ e);
  inv_ok : Forall (Forall row_ok) (layers e)
}.

Lemma snapshots_sorted e : inv e -> Forall msorted (snapshots e).
Proof.
  intros He. unfold snapshots. constructor; [apply SL.entries_sorted, (inv_mem _ He)|].
  apply Forall_forall. intros l Hl%list_elem_of_In%in_map_iff. destruct Hl as (m & <- & Hm%in_rev).
  pose proof (inv_imm _ He) as Hi. rewrite Forall_forall in Hi. by apply SL.entries_sorted, Hi, list_elem_of_In.
Qed.

Lemma tables_rep e : inv e -> Forall2 SST.rep (sstables_ e) (map sst_entries (sstables_ e)).
Proof. intros He. pose proof (inv_sst _ He) as H. induction H; simpl; constructor; auto. Qed.

Lemma layers_sorted e : inv e -> Forall msorted (layers e).
Proof.
  intros He. apply Forall_app. split; [by apply snapshots_sorted|]. apply Forall_forall. intros l Hl%list_elem_of_In%in_map_iff.
  destruct Hl as (t & <- & Ht). pose proof (inv_sst _ He) as H. rewrite Forall_forall in H. by eapply SST.rep_sorted, H, list_elem_of_In.
Qed.

Lemma holds_sorted e : msorted (holds e).
Proof. apply contents_sorted. Qed.

(** ** Contents under a write *)

Definition put_entry (a : AttributeMap) : SnapshotEntry := {| attributes := a; is_deleted := false |}.

(** The effect of a write on the rows. *)
Definition apply_write (ik : bytes) (entry : SnapshotEntry) (rows : list (bytes * AttributeMap)) : list (bytes * AttributeMap) :=
  if is_deleted entry then mdel ik rows else mset ik (attributes entry) rows.

Lemma contents_mset top rest ik entry :
  contents (mset ik entry top :: rest) = apply_write ik entry (contents (top :: rest)).
Proof.
  unfold apply_write. pose proof (contents_sorted (top :: rest)) as Hs. apply msorted_ext.
  - apply contents_sorted.
  - destruct (is_deleted entry); auto with cyn.
  - intros k. rewrite mget_contents. cbn [map first_some]. rewrite mget_mset.
    destruct (is_deleted entry) eqn:Ed; [rewrite mget_mdel|rewrite mget_mset]; rewrite mget_contents; cbn [map first_some];
      destruct (keqb k ik); simpl; rewrite ?Ed; done.
Qed.

Lemma contents_nil_layer rest : contents ([] :: rest) = contents rest.
Proof. done. Qed.

Lemma layers_with_wals e ws seq : layers (with_wals e ws seq) = layers e.
Proof. done. Qed.

Lemma inv_with_wals e ws seq : inv e -> inv (with_wals e ws seq).
Proof. intros []. by split. Qed.

Lemma commit_wal_spec e g : exists ws, commit_wal e g = with_wals e ws (wal_seq_ e).
Proof. unfold commit_wal. destruct (mget g (wals_ e)); [eauto|]. exists (wals_ e). by destruct e. Qed.

Lemma append_to_wal_spec e ik del a : codec_item_ok a = true ->
  exists ws seq, append_to_wal e ik del a = Some (with_wals e ws seq).
Proof.
  intros Hok. unfold append_to_wal. destruct (mget (wal_generation_ e) (wals_ e)) as [wal|];
    [|exists (wals_ e), (wal_seq_ e); by destruct e].
  destruct (item_written a Hok) as (enc & Henc & _). unfold wal_value.
  destruct del; [|rewrite Henc; simpl]; destruct (append_only _ _ _ _ _); eauto.
Qed.

(** The write common to [put_locked] and [remove_locked]. *)
Lemma write_spec e ik flips del a e1 :
  inv e -> SL.is_valid_user_key ik = true -> codec_item_ok a = true -> append_to_wal e ik del a = Some e1 ->
  let entry := {| attributes := a; is_deleted := del |} in
  let e2 := with_memtable e1 (SL.insert (memtable_ e1) flips ik entry) in
  inv (rotate_memtable_if_needed e2) /\ holds (rotate_memtable_if_needed e2) = apply_write ik entry (holds e).
Proof.
  intros He Hk Hok Ha entry e2. destruct (append_to_wal_spec e ik del a Hok) as (ws & seq & Ea). rewrite Ea in Ha. injection Ha as <-.
  destruct (mt_insert (memtable_ e) flips ik entry (inv_mem _ He) Hk (inv_room _ He)) as [Hw Hent].
  assert (Hlen : len (mt_get_all_entries (memtable_ e2)) <= kMaxSkiplistEntries).
  { change (memtable_ e2) with (SL.insert (memtable_ e) flips ik entry). rewrite Hent.
    pose proof (mset_len ik entry (mt_get_all_entries (memtable_ e))). pose proof (inv_room _ He). lia. }
  assert (Hholds : holds e2 = apply_write ik entry (holds e)).
  { unfold holds, layers, snapshots. simpl. rewrite Hent. apply contents_mset. }
  assert (Hoks : Forall (Forall row_ok) (layers e2)).
  { pose proof (inv_ok _ He) as Hl. unfold layers, snapshots in *. simpl in *. rewrite Hent. apply Forall_cons in Hl as [H1 H2].
    constructor; [|done]. by apply Forall_mset_rows. }
  unfold rotate_memtable_if_needed. destruct (Z.ltb_spec (mt_size (memtable_ e2)) memtable_flush_threshold_) as [Hlt|Hge].
  - split; [|done]. destruct He as [H1 H2 H3 H4 H5]. split; auto.
    unfold mt_size, SL.size in Hlt. rewrite SL.size_entries in Hlt by done. unfold mt_get_all_entries, memtable_flush_threshold_, kMaxSkiplistEntries in *. simpl in *. lia.
  - destruct (commit_wal_spec e2 (wal_generation_ e2)) as [ws' ->]. split.
    + destruct He as [H1 H2 H3 H4 H5]. split; simpl; [exists []; apply SL.empty_wf|done| |done|].
      * apply Forall_app. split; [done|]. by constructor.
      * unfold layers, snapshots in *. simpl in *. rewrite rev_app_distr. simpl. by constructor.
    + rewrite <- Hholds. unfold holds, layers, snapshots. simpl. rewrite rev_app_distr. simpl. apply contents_nil_layer.
Qed.

Lemma put_locked_spec e ik a : inv e -> SL.is_valid_user_key ik = true -> codec_item_ok a = true ->
  exists e' w, put_locked e ik a = Some (e', w) /\ inv e' /\ holds e' = mset ik a (holds e).
Proof.
  intros He Hk Hok. unfold put_locked. destruct (append_to_wal_spec e ik false a Hok) as (ws & seq & Ea). rewrite Ea.
  destruct (write_spec e ik (coin (wal_seq_ e)) false a _ He Hk Hok Ea) as [Hi Hh]. eauto.
Qed.

Lemma remove_locked_spec e ik : inv e -> SL.is_valid_user_key ik = true ->
  exists e' w, remove_locked e ik = Some (e', w) /\ inv e' /\ holds e' = mdel ik (holds e).
Proof.
  intros He Hk. unfold remove_locked. destruct (append_to_wal_spec e ik true [] eq_refl) as (ws & seq & Ea). rewrite Ea.
  destruct (write_spec e ik (coin (wal_seq_ e)) true [] _ He Hk eq_refl Ea) as [Hi Hh]. eauto.
Qed.

Lemma commit_wal_inv e g : inv e -> inv (commit_wal e g) /\ holds (commit_wal e g) = holds e.
Proof. intros He. destruct (commit_wal_spec e g) as [ws ->]. split; [by apply inv_with_wals|done]. Qed.

(** ** Point reads *)

Lemma memtable_lookup_spec m ik otherwise : SL.wf m ->
  memtable_lookup m ik otherwise =
  match mget ik (mt_get_all_entries m) with Some e => Some (live_value (Some e)) | None => otherwise end.
Proof.
  intros Hm. unfold memtable_lookup, mt_get, mt_is_tombstoned, mt_get_all_entries.
  rewrite SL.get_spec, SL.is_tombstoned_spec by done. destruct (mget ik (SL.get_all_entries m)) as [e|]; [|done].
  simpl. unfold SL.live. by destruct (is_deleted e).
Qed.

Lemma sstable_lookup_spec l ik : Forall (fun t => SST.rep t (sst_entries t)) l ->
  sstable_lookup l ik = Some (live_value (first_some (map (mget ik) (map sst_entries l)))).
Proof.
  induction 1 as [|t l Ht Hl IH]; [done|]. cbn [sstable_lookup map first_some].
  rewrite (SST.get_rep _ _ Ht), (SST.contains_rep _ _ Ht). destruct (mget ik (sst_entries t)) as [e|]; [|done].
  simpl. unfold SL.live. by destruct (is_deleted e).
Qed.

Lemma get_locked_spec e ik : inv e -> get_locked e ik = Some (mget ik (holds e)).
Proof.
  intros He. unfold holds. rewrite mget_contents. unfold get_locked, layers, snapshots.
  rewrite memtable_lookup_spec by apply (inv_mem _ He). cbn [app map first_some].
  destruct (mget ik (mt_get_all_entries (memtable_ e))) as [x|]; [done|].
  assert (Himm : Forall (fun m => SL.wf m.1) (rev (immutable_memtables_ e))).
  { apply Forall_forall. intros m Hm%list_elem_of_In%in_rev%list_elem_of_In. pose proof (inv_imm _ He) as H. rewrite Forall_forall in H. by apply H. }
  rewrite map_app. induction Himm as [|m l Hm Hl IH]; [apply sstable_lookup_spec, (inv_sst _ He)|].
  cbn [map fold_right app first_some]. rewrite memtable_lookup_spec by done.
  unfold MemTable in *. destruct (mget ik (mt_get_all_entries m.1)); [done|exact IH].
Qed.

(** ** Tables *)

(** A table name without the separator. *)
Definition name_ok (table : bytes) : bool := forallb (fun b => negb (bool_decide (b = kSeparator))) table.

(** Table and key make a key the skip list stores. *)
Definition names (table key : bytes) : Prop := name_ok table = true /\ len (internal_key table key) <= kMaxSkiplistKeyBytes.

Definition strip {A} (p : bytes) (l : list (bytes * A)) : list (bytes * A) := map (fun r => (drop (length p) r.1, r.2)) l.

Definition rows (e : Engine) (table : bytes) : list (bytes * AttributeMap) :=
  strip (table_prefix table) (List.filter (fun r => starts_with r.1 (table_prefix table)) (holds e)).

Lemma internal_key_prefix table key : internal_key table key = table_prefix table ++ key.
Proof. unfold internal_key, table_prefix. by rewrite <- app_assoc. Qed.

Lemma names_valid table key : names table key -> SL.is_valid_user_key (internal_key table key) = true.
Proof.
  intros [_ Hl]. unfold SL.is_valid_user_key. rewrite bool_decide_eq_false_2 by (unfold internal_key; destruct table; discriminate). simpl.
  by apply Z.leb_le.
Qed.

(** Distinct names have disjoint key ranges. *)
Lemma prefix_same_table t t' k : name_ok t = true -> name_ok t' = true ->
  starts_with (internal_key t k) (table_prefix t') = true -> t = t'.
Proof.
  unfold internal_key, table_prefix. revert t'. induction t as [|b t IH]; intros [|b' t'] Ht Ht' H; simpl in *; auto;
    repeat match goal with
    | H : _ && _ = true |- _ => apply andb_prop in H as [? ?]
    | H : bool_decide _ = true |- _ => apply bool_decide_eq_true in H
    | H : negb (bool_decide _) = true |- _ => apply negb_true_iff, bool_decide_eq_false in H
    end; subst; try done.
  f_equal. by apply IH.
Qed.

(** ** Stripping a common prefix *)

Definition prefixed {A} (p : bytes) (l : list (bytes * A)) : Prop := Forall (fun r => starts_with r.1 p = true) l.

Lemma strip_key p k : starts_with k p = true -> k = p ++ drop (length p) k.
Proof. intros [r ->]%starts_with_spec. by rewrite drop_app_length. Qed.

Lemma strip_spec {A} p (l : list (bytes * A)) : prefixed p l -> msorted l ->
  msorted (strip p l) /\ forall k, mget k (strip p l) = mget (p ++ k) l.
Proof.
  intros Hp Hs. induction Hs as [|k v l Ha Hs IH]; [split; [constructor|done]|]. apply Forall_cons in Hp as [Hk Hp].
  destruct (IH Hp) as [IHs IHg]. apply strip_key in Hk. simpl in Hk. split.
  - cbn [strip map fst snd]. constructor; [|done]. unfold above in *. apply Forall_forall. intros r Hr%list_elem_of_In%in_map_iff.
    destruct Hr as (x & <- & Hx%list_elem_of_In). simpl. rewrite Forall_forall in Ha. pose proof (Ha x Hx) as Hlt. simpl in Hlt.
    unfold prefixed in Hp. rewrite Forall_forall in Hp. pose proof (strip_key p x.1 (Hp x Hx)) as Ex.
    by rewrite Hk, Ex, bytes_cmp_app in Hlt.
  - intros k'. cbn [strip map fst snd]. fold (strip p l). rewrite !mget_cons, IHg.
    destruct (keqb_spec k' (drop (length p) k)) as [Ek|Hne]; destruct (keqb_spec (p ++ k') k) as [E|E]; try done.
    + rewrite Ek in E. by rewrite <- Hk in E.
    + exfalso. apply Hne. by rewrite <- E, drop_app_length.
Qed.

Lemma strip_rev {A} p (l : list (bytes * A)) : strip p (rev l) = rev (strip p l).
Proof. apply map_rev. Qed.

Lemma filter_prefixed {A} p (f : bytes -> bool) (l : list (bytes * A)) : (forall k, f k = true -> starts_with k p = true) ->
  prefixed p (List.filter (fun r => f r.1) l).
Proof. intros H. apply Forall_forall. intros x Hx%list_elem_of_In%filter_In. apply H. tauto. Qed.

Lemma rows_spec e t : msorted (rows e t) /\ forall k, mget k (rows e t) = mget (internal_key t k) (holds e).
Proof.
  pose proof (holds_sorted e) as Hs.
  destruct (strip_spec (table_prefix t) (List.filter (fun r => starts_with r.1 (table_prefix t)) (holds e))) as [H1 H2];
    [by apply (filter_prefixed _ (fun k => starts_with k (table_prefix t)))|by apply msorted_filter|].
  split; [exact H1|]. intros k. etransitivity; [apply H2|]. rewrite (mget_filter (fun k => starts_with k (table_prefix t))).
  by rewrite starts_with_app, internal_key_prefix.
Qed.

(** What a read of a table covers, in terms of the table's own rows. *)
Lemma starts_with_app_l p q k : starts_with (p ++ k) (p ++ q) = starts_with k q.
Proof. induction p as [|b p IH]; simpl; [done|]. by rewrite bool_decide_eq_true_2. Qed.

Lemma starts_with_weaken p q k : starts_with k (p ++ q) = true -> starts_with k p = true.
Proof. intros [r ->]%starts_with_spec. rewrite <- app_assoc. apply starts_with_app. Qed.

Lemma covered_rows fwd e t q start :
  let p := table_prefix t in
  strip p (List.filter (fun r => covers fwd (p ++ q) (option_map (app p) start) r.1) (oriented fwd (holds e))) =
  List.filter (fun r => starts_with r.1 q) (if fwd then rows_after start (rows e t) else rev (rows_before start (rows e t))).
Proof.
  intros p. destruct (rows_spec e t) as [Hs Hg]. pose proof (holds_sorted e) as Hh.
  set (rest := if fwd then rows_after start (rows e t) else rows_before start (rows e t)).
  assert (Hrest : msorted rest) by (unfold rest, rows_after, rows_before; destruct fwd, start; auto with cyn).
  assert (Hcore : strip p (List.filter (fun r => covers fwd (p ++ q) (option_map (app p) start) r.1) (holds e)) =
    List.filter (fun r => starts_with r.1 q) rest).
  { destruct (strip_spec p (List.filter (fun r => covers fwd (p ++ q) (option_map (app p) start) r.1) (holds e))) as [H1 H2].
    { apply (filter_prefixed _ (covers fwd (p ++ q) (option_map (app p) start))). unfold covers. intros k H.
      apply andb_prop in H as [H _]. by apply starts_with_weaken in H. }
    { by apply msorted_filter. }
    apply msorted_ext; [exact H1|by apply msorted_filter|]. intros k. rewrite H2.
    rewrite (mget_filter (covers fwd (p ++ q) (option_map (app p) start))), (mget_filter (fun k => starts_with k q)).
    unfold covers. rewrite starts_with_app_l. destruct (starts_with k q); [|done]. simpl.
    pose proof (Hg k) as Ek. rewrite internal_key_prefix in Ek. fold p in Ek. rewrite <- Ek.
    unfold rest, rows_after, rows_before, dir_cmp. destruct start as [s|], fwd; simpl; try done; rewrite bytes_cmp_app.
    - rewrite mget_mupper by done. by destruct (bytes_cmp s k).
    - rewrite mget_mbefore by done. by destruct (bytes_cmp k s). }
  destruct fwd; [exact Hcore|]. unfold oriented. rewrite filter_rev, strip_rev. rewrite Hcore. symmetry. apply filter_rev.
Qed.

(** ** Range reads *)

Lemma reader_of_spec e p start fwd : inv e -> start_ok start (Some p) ->
  exists r, reader_of e p start fwd = Some r /\
    reading r (List.filter (fun x => covers fwd p start x.1) (oriented fwd (holds e))).
Proof. intros He Hst. apply make_reader_reading; [by apply snapshots_sorted|by apply tables_rep|done]. Qed.

Lemma scan_loop_spec limit p fuel : forall r rws result pb lk,
  reading r rws -> (length rws < fuel)%nat ->
  scan_loop fuel limit p r result pb lk = Some (fill_page limit (strip p rws) result pb lk).
Proof.
  induction fuel as [|fuel IH]; intros r rws result pb lk Hr Hf; [lia|]. cbn [scan_loop].
  destruct (next_reading r rws Hr) as (r' & -> & Hr'). destruct rws as [|[k a] rws]; [done|]. cbn [head tl strip map fill_page] in *.
  fold (strip p rws). cbn [fst snd]. rewrite (IH r' rws) by (done || simpl in Hf; lia). unfold page_full. by destruct result, (_ || _).
Qed.

Lemma query_loop_spec limit conds p fuel : forall r rws result pb lk,
  reading r rws -> (length rws < fuel)%nat ->
  query_loop fuel limit conds p r result pb lk =
  Some (fill_page limit (List.filter (fun x => item_matches x.2 conds) (strip p rws)) result pb lk).
Proof.
  induction fuel as [|fuel IH]; intros r rws result pb lk Hr Hf; [lia|]. cbn [query_loop].
  destruct (next_reading r rws Hr) as (r' & -> & Hr'). destruct rws as [|[k a] rws]; [done|]. cbn [head tl strip map List.filter] in *.
  fold (strip p rws). cbn [fst snd]. assert (Hlt : (length rws < fuel)%nat) by (simpl in Hf; lia).
  destruct (item_matches a conds); cbn [negb]; [|by apply IH]. cbn [fill_page].
  rewrite (IH r' rws) by done. unfold page_full. by destruct result, (_ || _).
Qed.

Lemma start_ok_app p q start : start_ok start (Some q) -> start_ok (option_map (app p) start) (Some (p ++ q)).
Proof. intros H k q' Hk [= <-]. destruct start as [s|]; [|done]. injection Hk as <-. rewrite starts_with_app_l. by apply (H s q). Qed.

Lemma start_ok_nil start : start_ok start (Some []).
Proof. intros k q _ [= <-]. done. Qed.

Lemma filter_starts_nil {A} (l : list (bytes * A)) : List.filter (fun r => starts_with r.1 []) l = l.
Proof. apply filter_all. apply Forall_forall. done. Qed.

Lemma scan_spec e t start limit : inv e -> scan e t start limit = Some (page limit (rows_after start (rows e t))).
Proof.
  intros He. unfold scan. set (p := table_prefix t).
  assert (Hst : start_ok (option_map (app p) start) (Some p)) by (rewrite <- (app_nil_r p) at 2; apply start_ok_app, start_ok_nil).
  destruct (reader_of_spec e p (option_map (app p) start) true He Hst) as (r & E & Hr).
  change (option_map (fun k => p ++ k) start) with (option_map (app p) start). rewrite E.
  rewrite (scan_loop_spec limit p _ r _ [] 0 [] Hr) by by apply reading_fuel. unfold page. do 2 f_equal.
  pose proof (covered_rows true e t [] start) as Hc. cbv zeta in Hc. rewrite app_nil_r in Hc. fold p in Hc. rewrite Hc. apply filter_starts_nil.
Qed.

(** The rows a query returns. *)
Definition selected (conds : AttributeMap) (q : option bytes) (r : bytes * AttributeMap) : bool :=
  in_prefix q r.1 && item_matches r.2 conds.

Lemma query_spec e t conds start limit q fwd : inv e -> start_ok start q ->
  query e t conds start limit q fwd =
  Some (page limit (List.filter (selected conds q)
    (if fwd then rows_after start (rows e t) else rev (rows_before start (rows e t))))).
Proof.
  intros He Hst. unfold query. set (p := table_prefix t). set (q' := default [] q).
  replace (match q with Some q0 => p ++ q0 | None => p end) with (p ++ q') by (unfold q'; destruct q; [done|by rewrite app_nil_r]).
  assert (Hst' : start_ok (option_map (app p) start) (Some (p ++ q'))).
  { apply start_ok_app. unfold q'. destruct q; [done|apply start_ok_nil]. }
  destruct (reader_of_spec e (p ++ q') (option_map (app p) start) fwd He Hst') as (r & E & Hr).
  change (option_map (fun k => p ++ k) start) with (option_map (app p) start). rewrite E.
  rewrite (query_loop_spec limit conds p _ r _ [] 0 [] Hr) by by apply reading_fuel. unfold page. do 2 f_equal.
  unfold p. rewrite covered_rows. set (l := if fwd then _ else _). clearbody l. clear. unfold selected, q'.
  destruct q as [q|]; cbn [default in_prefix]; unfold id.
  - induction l as [|[k a] l IH]; [done|]. cbn [List.filter fst snd].
    destruct (starts_with k q); cbn [List.filter fst snd andb]; by rewrite IH.
  - by rewrite filter_starts_nil.
Qed.

(** ** Dropping a table *)

Lemma collect_keys_spec n : forall r rws, reading r rws -> collect_keys n r = Some (map fst (take n rws)).
Proof.
  induction n as [|n IH]; intros r rws Hr; [done|]. cbn [collect_keys]. destruct (next_reading r rws Hr) as (r' & -> & Hr').
  destruct rws as [|[k a] rws]; [done|]. cbn [head tl] in *. by rewrite (IH r' rws Hr').
Qed.

Lemma holds_valid e k v : inv e -> mget k (holds e) = Some v -> SL.is_valid_user_key k = true.
Proof.
  intros He. unfold holds. rewrite mget_contents. pose proof (inv_ok _ He) as H. induction H as [|l ls Hl Hls IH]; [done|].
  cbn [map first_some]. destruct (mget k l) as [x|] eqn:E; [|exact IH]. intros _. apply mget_Some_In, list_elem_of_In in E.
  rewrite Forall_forall in Hl. by apply Hl in E as [_ ?].
Qed.

(** Removing keys the engine holds. *)
Lemma remove_keys_spec keys : forall e w,
  inv e -> Forall (fun k => SL.is_valid_user_key k = true) keys ->
  exists e' w', remove_keys e keys w = Some (e', w') /\ inv e' /\
    forall k, mget k (holds e') = if bool_decide (k ∈ keys) then None else mget k (holds e).
Proof.
  induction keys as [|key keys IH]; intros e w He Hk; [by exists e, w|]. apply Forall_cons in Hk as [Hk1 Hk].
  destruct (remove_locked_spec e key He Hk1) as (e1 & w1 & E1 & He1 & Hh1). cbn [remove_keys]. rewrite E1.
  destruct (IH e1 (Some w1) He1 Hk) as (e' & w' & E' & He' & Hh'). exists e', w'. split; [done|]. split; [done|].
  intros k. rewrite Hh', Hh1, mget_mdel. destruct (keqb_spec k key) as [->|Hne].
  - rewrite (bool_decide_eq_true_2 (key ∈ key :: keys)) by by left. by destruct (bool_decide (key ∈ keys)).
  - destruct (decide (k ∈ keys)) as [Hin|Hin].
    + by rewrite !bool_decide_eq_true_2 by (try right; done).
    + rewrite !bool_decide_eq_false_2; [done| |done]. rewrite elem_of_cons. intros [|]; done.
Qed.

(** The rows of a sorted map up to its [n]-th key are the first [n]. *)
Lemma take_upto (l : list (bytes * AttributeMap)) n key k v : msorted l -> last (map fst (take n l)) = Some key ->
  In (k, v) l -> (In k (map fst (take n l)) <-> bytes_cmp key k <> Lt).
Proof.
  intros Hs Hl Hin. pose proof (mupper_take_last l n key Hs Hl) as Hu. split.
  - intros (x & <- & Hx)%in_map_iff Hlt. destruct x as [k1 v1]. simpl in *.
    assert (Hd : In (k1, v1) (drop n l)).
    { rewrite <- Hu. apply mupper_In; [done|]. split; [|done]. rewrite <- (take_drop n l). apply in_or_app. by left. }
    rewrite <- (take_drop n l) in Hs. apply msorted_app in Hs as (_ & _ & Hs). rewrite Forall_forall in Hs.
    apply list_elem_of_In in Hx. apply Hs in Hx. unfold above in Hx. rewrite Forall_forall in Hx. apply list_elem_of_In, Hx in Hd. simpl in Hd.
    by rewrite bytes_cmp_refl in Hd.
  - intros Hge. rewrite <- (take_drop n l) in Hin. apply in_app_or in Hin as [Hin|Hin]; [by apply (in_map fst) in Hin|].
    rewrite <- Hu in Hin. apply mupper_In in Hin as [_ Hlt]; [|done]. done.
Qed.

Definition covered (e : Engine) (p : bytes) (cursor : option bytes) : list (bytes * AttributeMap) :=
  List.filter (fun x => covers true p cursor x.1) (holds e).

Lemma covers_later p cursor key k : covers true p cursor key = true ->
  covers true p (Some key) k = true -> covers true p cursor k = true.
Proof.
  unfold covers, dir_cmp. intros [_ H1]%andb_prop [H2 H3]%andb_prop. rewrite H2. simpl. destruct cursor as [c|]; [|done].
  destruct (bytes_cmp c key) eqn:E1; try done. destruct (bytes_cmp key k) eqn:E2; try done. by rewrite (bytes_cmp_trans _ _ _ E1 E2).
Qed.

Lemma mget_covered e p cursor k : mget k (covered e p cursor) = if covers true p cursor k then mget k (holds e) else None.
Proof. apply (mget_filter (covers true p cursor)). Qed.

(** One round of the loop. *)
Lemma drop_round e p cursor n key e' :
  let batch := map fst (take n (covered e p cursor)) in
  last batch = Some key ->
  (forall k, mget k (holds e') = if bool_decide (k ∈ batch) then None else mget k (holds e)) ->
  covered e' p (Some key) = drop n (covered e p cursor) /\ start_ok (Some key) (Some p) /\
  forall k, (if covers true p (Some key) k then None else mget k (holds e')) =
            (if covers true p cursor k then None else mget k (holds e)).
Proof.
  intros batch Hl Hh. set (cov := covered e p cursor) in *.
  assert (Hs : msorted cov) by apply msorted_filter, holds_sorted.
  assert (Hcov : forall k, k ∈ batch -> covers true p cursor k = true).
  { intros k (x & <- & Hx)%list_elem_of_In%in_map_iff. assert (Hin : In x cov) by (rewrite <- (take_drop n cov); apply in_or_app; by left).
    apply filter_In in Hin. tauto. }
  assert (Hkey : covers true p cursor key = true).
  { apply Hcov, list_elem_of_In. apply last_Some in Hl as [l ->]. apply in_or_app. right. by left. }
  assert (Hbatch : forall k v, mget k cov = Some v -> (k ∈ batch <-> bytes_cmp key k <> Lt)).
  { intros k v Hk. rewrite list_elem_of_In. apply (take_upto cov n key k v); [done|done|]. by apply mget_In. }
  split; [|split].
  - etransitivity; [|apply (mupper_take_last cov n key Hs Hl)]. apply msorted_ext; [apply msorted_filter, holds_sorted|auto with cyn|].
    intros k. rewrite mget_covered, mget_mupper by done. destruct (covers true p (Some key) k) eqn:Ec.
    + pose proof (covers_later _ _ _ _ Hkey Ec) as Ec'. unfold covers, dir_cmp in Ec. destruct (bytes_cmp key k) eqn:Ek; bool_hyps; try done.
      rewrite Hh. unfold cov. rewrite mget_covered, Ec'. destruct (decide (k ∈ batch)) as [Hb|Hb]; [|by rewrite bool_decide_eq_false_2].
      exfalso. apply list_elem_of_In, in_map_iff in Hb as ([k1 v1] & <- & Hx). simpl in *.
      assert (Hin : In (k1, v1) cov) by (rewrite <- (take_drop n cov); apply in_or_app; by left).
      apply mget_In in Hin; [|done]. apply (Hbatch _ _ Hin); [|done]. apply list_elem_of_In. by apply (in_map fst) in Hx.
    + destruct (bytes_cmp key k) eqn:Ek; try done. unfold cov. rewrite mget_covered. unfold covers, dir_cmp in *. rewrite Ek in Ec.
      rewrite andb_true_r in Ec. by rewrite Ec.
  - intros k q [= <-] [= <-]. unfold covers in Hkey. by apply andb_prop in Hkey as [? _].
  - intros k. destruct (covers true p cursor k) eqn:Ec.
    + destruct (covers true p (Some key) k) eqn:Ek; [done|]. rewrite Hh. destruct (decide (k ∈ batch)) as [Hb|Hb]; [by rewrite bool_decide_eq_true_2|].
      rewrite bool_decide_eq_false_2 by done. destruct (mget k (holds e)) as [v|] eqn:Ev; [|done]. exfalso. apply Hb.
      apply (Hbatch k v); [unfold cov; by rewrite mget_covered, Ec|]. intros Hlt. unfold covers, dir_cmp in Ek, Ec. rewrite Hlt in Ek.
      rewrite andb_true_r in Ek. by rewrite Ek in Ec.
    + rewrite Hh. destruct (covers true p (Some key) k) eqn:Ek; [by rewrite (covers_later _ _ _ _ Hkey Ek) in Ec|].
      rewrite bool_decide_eq_false_2; [done|]. intros Hb. by rewrite (Hcov k Hb) in Ec.
Qed.

Lemma drop_loop_spec p fuel : forall e cursor, inv e -> start_ok cursor (Some p) -> (length (covered e p cursor) < fuel)%nat ->
  exists e', drop_loop fuel e p cursor = Some e' /\ inv e' /\
    forall k, mget k (holds e') = if covers true p cursor k then None else mget k (holds e).
Proof.
  induction fuel as [|fuel IH]; intros e cursor He Hst Hf; [lia|]. cbn [drop_loop].
  destruct (reader_of_spec e p cursor true He Hst) as (r & -> & Hr). change (reading r (covered e p cursor)) in Hr.
  rewrite (collect_keys_spec _ r _ Hr). set (n := Z.to_nat memtable_flush_threshold_). set (batch := map fst (take n (covered e p cursor))).
  destruct (last batch) as [key|] eqn:El.
  - assert (Hvalid : Forall (fun k => SL.is_valid_user_key k = true) batch).
    { apply Forall_forall. intros k ([k1 v1] & <- & Hx)%list_elem_of_In%in_map_iff. simpl.
      assert (Hin : In (k1, v1) (covered e p cursor)) by (rewrite <- (take_drop n (covered e p cursor)); apply in_or_app; by left).
      apply filter_In in Hin as [Hin _]. apply mget_In in Hin; [|apply holds_sorted]. by eapply holds_valid. }
    destruct (remove_keys_spec batch e None He Hvalid) as (e1 & w & E1 & He1 & Hh1).
    set (e2 := match w with Some w => commit_wal e1 w | None => e1 end).
    assert (He2 : inv e2 /\ holds e2 = holds e1) by (unfold e2; destruct w; [by apply commit_wal_inv|done]).
    destruct He2 as [He2 Hh2]. rewrite <- Hh2 in Hh1.
    destruct (drop_round e p cursor n key e2 El Hh1) as (Hc & Hst' & Hk).
    assert (Hn : (0 < length (covered e p cursor))%nat).
    { destruct (covered e p cursor) eqn:Ec; [|simpl; lia]. unfold batch in El. by rewrite take_nil in El. }
    destruct (IH e2 (Some key) He2 Hst') as (e' & E' & He' & Hh').
    { rewrite Hc, length_drop. unfold n, memtable_flush_threshold_. lia. }
    exists e'. split; [|split; [done|intros k; by rewrite Hh', Hk]].
    destruct batch as [|b bs] eqn:Eb; [done|]. rewrite E1. fold e2. exact E'.
  - apply last_None in El. rewrite El. exists e. split; [done|]. split; [done|]. intros k.
    destruct (covers true p cursor k) eqn:Ec; [|done].
    assert (Hnil : covered e p cursor = []).
    { unfold batch in El. destruct (covered e p cursor); [done|]. change n with (S (Nat.pred n)) in El. done. }
    pose proof (mget_covered e p cursor k) as Hm. by rewrite Hnil, Ec in Hm.
Qed.

Lemma covers_table t k : covers true (table_prefix t) None k = starts_with k (table_prefix t).
Proof. unfold covers. apply andb_true_r. Qed.

Lemma drop_table_spec e t : inv e ->
  exists e', drop_table e t = Some e' /\ inv e' /\
    forall k, mget k (holds e') = if starts_with k (table_prefix t) then None else mget k (holds e).
Proof.
  intros He. unfold drop_table.
  destruct (reader_of_spec e (table_prefix t) None true He) as (r & -> & Hr); [done|].
  destruct (drop_loop_spec (table_prefix t) (S (reader_fuel r)) e None He) as (e' & E & He' & Hh); [done| |].
  { apply reading_fuel in Hr. unfold covered. cbn [oriented] in Hr. lia. }
  exists e'. split; [done|]. split; [done|]. intros k. by rewrite Hh, covers_table.
Qed.

(** ** The engine implements the storage interface *)

Definition or_else {A} (d : A) (o : option A) : A := match o with Some x => x | None => d end.

Definition no_page : PageResult := {| items := []; last_evaluated_key := None |}.

(** The operations with exceptions made visible as the unchanged state; the laws
    below hold for operations that do not throw. *)
Local Instance lsm_engine : StorageEngine Engine := {
  se_put := fun e t k a => or_else e (put e t k a);
  se_remove := fun e t k => or_else e (remove e t k);
  se_get := fun e t k => or_else None (get e t k);
  se_mutate := fun e t k m => or_else (e, {| applied := false; previous := None |}) (mutate e t k m);
  se_drop_table := fun e t => or_else e (drop_table e t);
  se_scan := fun e t start limit => or_else no_page (scan e t start limit)
}.

Lemma names_table t k : names t k -> names t [].
Proof. intros [H1 H2]. split; [done|]. unfold internal_key in *. rewrite !len_app in *. pose proof (len_nonneg k). change (len []) with 0. lia. Qed.

Lemma put_spec e t k a : inv e -> names t k -> codec_item_ok a = true ->
  exists e', put e t k a = Some e' /\ inv e' /\ holds e' = mset (internal_key t k) a (holds e).
Proof.
  intros He Hn Hok. unfold put. destruct (put_locked_spec e (internal_key t k) a He (names_valid _ _ Hn) Hok) as (e' & w & -> & He' & Hh).
  destruct (commit_wal_inv e' w He') as [Hi <-] in Hh. eauto.
Qed.

Lemma remove_spec e t k : inv e -> names t k ->
  exists e', remove e t k = Some e' /\ inv e' /\ holds e' = mdel (internal_key t k) (holds e).
Proof.
  intros He Hn. unfold remove. destruct (remove_locked_spec e (internal_key t k) He (names_valid _ _ Hn)) as (e' & w & -> & He' & Hh).
  destruct (commit_wal_inv e' w He') as [Hi <-] in Hh. eauto.
Qed.

Lemma lsm_get_spec e t k : inv e -> get e t k = Some (mget k (rows e t)).
Proof. intros He. unfold get. rewrite get_locked_spec by done. by rewrite (proj2 (rows_spec e t)). Qed.

Lemma mutate_spec e t k m : inv e -> names t k -> (forall a, m (mget k (rows e t)) = MutationPut a -> codec_item_ok a = true) ->
  exists e', mutate e t k m =
    Some (e', {| applied := match m (mget k (rows e t)) with MutationNone => false | _ => true end; previous := mget k (rows e t) |}) /\
    inv e' /\ holds e' = match m (mget k (rows e t)) with
                        | MutationPut a => mset (internal_key t k) a (holds e)
                        | MutationDelete => mdel (internal_key t k) (holds e)
                        | MutationNone => holds e
                        end.
Proof.
  intros He Hn Hok. unfold mutate. rewrite get_locked_spec by done. rewrite <- (proj2 (rows_spec e t) k).
  destruct (m (mget k (rows e t))) as [|a|]; [eauto| |].
  - destruct (put_locked_spec e (internal_key t k) a He (names_valid _ _ Hn) (Hok a eq_refl)) as (e' & w & -> & He' & Hh).
    destruct (commit_wal_inv e' w He') as [Hi <-] in Hh. eauto.
  - destruct (remove_locked_spec e (internal_key t k) He (names_valid _ _ Hn)) as (e' & w & -> & He' & Hh).
    destruct (commit_wal_inv e' w He') as [Hi <-] in Hh. eauto.
Qed.

(** The rows of a table after the rows of the engine changed at one key. *)
Lemma keqb_internal t k k' : keqb (internal_key t k') (internal_key t k) = keqb k' k.
Proof.
  rewrite !internal_key_prefix. destruct (keqb_spec k' k) as [->|Hne]; [apply keqb_refl|].
  destruct (keqb_spec (table_prefix t ++ k') (table_prefix t ++ k)) as [E|]; [|done]. by apply app_inv_head in E.
Qed.

Lemma internal_key_other t t' k k' : name_ok t = true -> name_ok t' = true -> t <> t' -> internal_key t' k' <> internal_key t k.
Proof.
  intros Ht Ht' Hne E. apply Hne. apply (prefix_same_table t t' k Ht Ht'). rewrite <- E, internal_key_prefix. apply starts_with_app.
Qed.

Lemma rows_mset e e' t k a t' : name_ok t = true -> name_ok t' = true -> holds e' = mset (internal_key t k) a (holds e) ->
  rows e' t' = if bytes_eqb t t' then mset k a (rows e t) else rows e t'.
Proof.
  intros Ht Ht' Hh. destruct (rows_spec e' t') as [Hs' Hg'], (rows_spec e t) as [Hs Hg], (rows_spec e t') as [Hs2 Hg2].
  apply msorted_ext; [done|destruct (bytes_eqb t t'); auto with cyn|]. intros k'. rewrite Hg', Hh, mget_mset.
  destruct (bytes_eqb_spec t t') as [->|Hne].
  - by rewrite mget_mset, keqb_internal, Hg.
  - rewrite Hg2. destruct (keqb_spec (internal_key t' k') (internal_key t k)) as [E|]; [|done]. by apply internal_key_other in E.
Qed.

Lemma rows_mdel e e' t k t' : name_ok t = true -> name_ok t' = true -> holds e' = mdel (internal_key t k) (holds e) ->
  rows e' t' = if bytes_eqb t t' then mdel k (rows e t) else rows e t'.
Proof.
  intros Ht Ht' Hh. destruct (rows_spec e' t') as [Hs' Hg'], (rows_spec e t) as [Hs Hg], (rows_spec e t') as [Hs2 Hg2].
  apply msorted_ext; [done|destruct (bytes_eqb t t'); auto with cyn|]. intros k'. rewrite Hg', Hh, mget_mdel.
  destruct (bytes_eqb_spec t t') as [->|Hne].
  - by rewrite mget_mdel, keqb_internal, Hg.
  - rewrite Hg2. destruct (keqb_spec (internal_key t' k') (internal_key t k)) as [E|]; [|done]. by apply internal_key_other in E.
Qed.

Lemma rows_drop e e' t t' : name_ok t = true -> name_ok t' = true ->
  (forall k, mget k (holds e') = if starts_with k (table_prefix t) then None else mget k (holds e)) ->
  rows e' t' = if bytes_eqb t t' then [] else rows e t'.
Proof.
  intros Ht Ht' Hh. destruct (rows_spec e' t') as [Hs' Hg'], (rows_spec e t') as [Hs2 Hg2].
  apply msorted_ext; [done|destruct (bytes_eqb t t'); [constructor|done]|]. intros k. rewrite Hg', Hh.
  destruct (bytes_eqb_spec t t') as [->|Hne]; [by rewrite internal_key_prefix, starts_with_app|].
  destruct (starts_with (internal_key t' k) (table_prefix t)) eqn:E; [|by rewrite Hg2].
  exfalso. apply Hne. symmetry. by apply (prefix_same_table t' t k).
Qed.

Lemma rows_same e e' t : holds e' = holds e -> rows e' t = rows e t.
Proof. intros Hh. unfold rows. by rewrite Hh. Qed.

Definition admits (t k : bytes) (a : AttributeMap) : Prop := names t k /\ codec_item_ok a = true.

Local Instance lsm_laws : StorageLaws Engine.
Proof.
  refine {| se_inv := inv; se_rows := rows; se_admits := admits; se_names := names |}.
  - exact names_table.
  - intros t k a [H _]. exact H.
  - intros e t _. apply rows_spec.
  - intros e t k a He [Hn Hok]. simpl. destruct (put_spec e t k a He Hn Hok) as (e' & -> & Hi & _). exact Hi.
  - intros e t k a t' He [Hn Hok] Hn'. simpl. destruct (put_spec e t k a He Hn Hok) as (e' & -> & _ & Hh). simpl.
    apply rows_mset; [apply Hn|apply Hn'|done].
  - intros e t k He Hn. simpl. destruct (remove_spec e t k He Hn) as (e' & -> & Hi & _). exact Hi.
  - intros e t k t' He Hn Hn'. simpl. destruct (remove_spec e t k He Hn) as (e' & -> & _ & Hh). simpl.
    apply rows_mdel; [apply Hn|apply Hn'|done].
  - intros e t k He _. simpl. by rewrite lsm_get_spec.
  - intros e t k m He Hn Hm. simpl. destruct (mutate_spec e t k m He Hn) as (e' & -> & Hi & _); [|exact Hi].
    intros a Ha. apply (Hm a Ha).
  - intros e t k m t' He Hn Hn' Hm. simpl. destruct (mutate_spec e t k m He Hn) as (e' & -> & _ & Hh); [intros a Ha; apply (Hm a Ha)|].
    simpl. destruct (m (mget k (rows e t))); [by apply rows_same|apply rows_mset|apply rows_mdel]; try done; first [apply Hn|apply Hn'].
  - intros e t k m He Hn Hm. simpl. destruct (mutate_spec e t k m He Hn) as (e' & -> & _); [intros a Ha; apply (Hm a Ha)|done].
  - intros e t He Hn. simpl. destruct (drop_table_spec e t He) as (e' & -> & Hi & _). exact Hi.
  - intros e t t' He Hn Hn'. simpl. destruct (drop_table_spec e t He) as (e' & -> & _ & Hh). simpl.
    apply rows_drop; [apply Hn|apply Hn'|done].
  - intros e t start limit He _. simpl. by rewrite scan_spec.
Defined.

End Environment.

#[export] Existing Instances lsm_engine lsm_laws.

(** ** Range reads *)


Definition demo_item (s : string) : AttributeMap := [(lit "v", Some (AV_S (lit s)))].

Definition demo_rows_engine : Engine :=
  {| db_path_ := lit "db"; memtable_ := mt_put mt_empty 2 (internal_key (lit "T") (lit "a1")) (demo_item "1");
     immutable_memtables_ := [(mt_put mt_empty 0 (internal_key (lit "T") (lit "a2")) (demo_item "2"), 0);
                              (mt_put mt_empty 0 (internal_key (lit "U") (lit "a3")) (demo_item "3"), 1)];
     sstables_ := []; wals_ := [(2, open_log None true)]; wal_generation_ := 2; wal_seq_ := 3;
     manifest_ := Manifest.empty; sst_files_ := []; manifest_file_ := None; compaction_pending_ := false |}.


End Lsm.
