(* ===== verification/LsmBackground.v ===== *)
(** * The LSM engine: flush and compaction

    The two background threads of [src/engine/lsm/lsm_engine.cpp].  Each runs in
    phases: it takes the engine lock to choose its input, works without the lock,
    and takes the lock again to publish.  A phase is one step of a [System] (the
    engine with the two threads' program counters), so client operations and the
    other thread's phases fall between any two phases.  Input and output failures
    are an argument of the step that can meet them. *)

From Stdlib Require Import ZArith Lia Strings.String.
From stdpp Require Import prelude.
From S2P Require Import Prelude StdMap Ranges Types CLib Storage RecordCodec Wal Skiplist SSTable Manifest MergedReader LsmEngine.
Import Lsm.

Module LsmSystem.

(** ** File names *)

Definition sst_path (db : bytes) (seq : Z) : bytes := db ++ lit "/table_" ++ dec_of_nonneg seq ++ lit ".sst".
Definition merged_path (db : bytes) (seq : Z) : bytes := db ++ lit "/table_" ++ dec_of_nonneg seq ++ lit "_c.sst".

(** ** Field updates *)

Definition with_manifest (e : Engine) (m : Manifest.t) : Engine :=
  {| db_path_ := db_path_ e; memtable_ := memtable_ e; immutable_memtables_ := immutable_memtables_ e;
     sstables_ := sstables_ e; wals_ := wals_ e; wal_generation_ := wal_generation_ e; wal_seq_ := wal_seq_ e;
     manifest_ := m; sst_files_ := sst_files_ e; manifest_file_ := manifest_file_ e;
     compaction_pending_ := compaction_pending_ e |}.

Definition with_files (e : Engine) (fs : list (bytes * bytes)) : Engine :=
  {| db_path_ := db_path_ e; memtable_ := memtable_ e; immutable_memtables_ := immutable_memtables_ e;
     sstables_ := sstables_ e; wals_ := wals_ e; wal_generation_ := wal_generation_ e; wal_seq_ := wal_seq_ e;
     manifest_ := manifest_ e; sst_files_ := fs; manifest_file_ := manifest_file_ e;
     compaction_pending_ := compaction_pending_ e |}.

Definition with_manifest_file (e : Engine) (f : bytes) : Engine :=
  {| db_path_ := db_path_ e; memtable_ := memtable_ e; immutable_memtables_ := immutable_memtables_ e;
     sstables_ := sstables_ e; wals_ := wals_ e; wal_generation_ := wal_generation_ e; wal_seq_ := wal_seq_ e;
     manifest_ := manifest_ e; sst_files_ := sst_files_ e; manifest_file_ := Some f;
     compaction_pending_ := compaction_pending_ e |}.

Definition with_sstables (e : Engine) (imm : list (MemTable * Z)) (l : list SST.SSTable) (pending : bool) : Engine :=
  {| db_path_ := db_path_ e; memtable_ := memtable_ e; immutable_memtables_ := imm;
     sstables_ := l; wals_ := wals_ e; wal_generation_ := wal_generation_ e; wal_seq_ := wal_seq_ e;
     manifest_ := manifest_ e; sst_files_ := sst_files_ e; manifest_file_ := manifest_file_ e;
     compaction_pending_ := pending |}.

(** [manifest_->save()]: the new contents of the manifest file, or failure
    (which leaves the old file in place); [io] is false when a system call fails. *)
Definition save_manifest (io : bool) (m : Manifest.t) : option bytes := if io then Manifest.save m else None.

(** A file is written when no call fails and it stays within [off_t]. *)
Definition writable (io : bool) (file : bytes) : bool := io && (len file <? 2 ^ 63).

(** The next sequence number, taken. *)
Definition allocate_sequence (e : Engine) : Engine * Z :=
  let seq := Manifest.get_next_sequence (manifest_ e) in
  (with_manifest e (Manifest.set_next_sequence (manifest_ e) (seq + 1)), seq).

(** ** Flush *)

Record FlushJob := { to_flush : MemTable; wal_to_delete : Z; flush_seq : Z }.

Definition flush_begin (e : Engine) : option (Engine * FlushJob) :=
  match immutable_memtables_ e with
  | [] => None
  | (table, wal) :: _ =>
      let '(e, seq) := allocate_sequence e in
      Some (e, {| to_flush := table; wal_to_delete := wal; flush_seq := seq |})
  end.

Definition flush_meta (path : bytes) (job : FlushJob) (entries : Snapshot) : Manifest.SSTableMetadata :=
  {| Manifest.path := path; Manifest.level := 0; Manifest.sequence_number := flush_seq job;
     Manifest.min_key := match entries with (k, _) :: _ => k | [] => [] end;
     Manifest.max_key := match last entries with Some (k, _) => k | None => [] end;
     Manifest.file_size := 0; Manifest.entry_count := 0 |}.

(** The rest of the round, from [SSTable::create] to the publication: the new
    engine and whether the table was published.  [None] is an exception. *)
Definition flush_publish (auto_compaction create_io save_io : bool) (e : Engine) (job : FlushJob) : option (Engine * bool) :=
  let path := sst_path (db_path_ e) (flush_seq job) in
  let entries := mt_get_all_entries (to_flush job) in
  match SST.create entries with
  | None => None
  | Some None => Some (e, false)
  | Some (Some file) =>
      if negb (writable create_io file) then Some (e, false) else
      match SST.load_index path file with
      | Err _ => None
      | Ok flushed_sstable =>
          let e := with_files e (mset path file (sst_files_ e)) in
          let added := Manifest.add_file (manifest_ e) 0 (flush_meta path job entries) in
          match save_manifest save_io added with
          | None =>
              Some (with_files (with_manifest e (Manifest.remove_file added 0 path)) (mdel path (sst_files_ e)), false)
          | Some image =>
              let tables := flushed_sstable :: sstables_ e in
              let due := auto_compaction && (4 <=? length tables)%nat in
              Some (with_sstables (with_manifest_file (with_manifest e added) image)
                      (tl (immutable_memtables_ e)) tables (due || compaction_pending_ e), true)
          end
      end
  end.

Definition remove_wal (e : Engine) (generation : Z) : Engine := with_wals e (mdel generation (wals_ e)) (wal_seq_ e).

(** ** Compaction *)

Definition kCompactionFanout : nat := 4.

Definition size_tier (file_bytes : Z) : Z :=
  let kBaseSize := 1024 * 1024 in
  let units := Z.max 1 (u64 (file_bytes + kBaseSize - 1) / kBaseSize) in
  Z.log2 units / 2.

(** The first four neighbours of one size tier, from the oldest table on. *)
Fixpoint select_run (l run : list SST.SSTable) (run_tier : option Z) : list SST.SSTable :=
  match l with
  | [] => []
  | t :: l' =>
      let tier := size_tier (SST.file_size t) in
      let run := (if bool_decide (run_tier = Some tier) then run else []) ++ [t] in
      if (length run =? kCompactionFanout)%nat then run else select_run l' run (Some tier)
  end.

(** [manifest_files] and [manifest_metadata]: path to level and metadata. *)
Definition index_level (m : Manifest.t) (acc : list (bytes * (Z * Manifest.SSTableMetadata))) (level : Z) :=
  fold_left (fun acc meta => mset (Manifest.path meta) (level, meta) acc) (Manifest.get_level_files m level) acc.

Definition manifest_index (m : Manifest.t) : list (bytes * (Z * Manifest.SSTableMetadata)) :=
  fold_left (index_level m) (map Z.of_nat (seq 0 16)) [].

Record CompactJob := {
  to_merge : list SST.SSTable;
  complete_snapshot : bool;
  physical_sequence : Z;
  manifest_files : list (bytes * (Z * Manifest.SSTableMetadata))
}.

(** [None]: [compact] returns false. *)
Definition compact_begin (e : Engine) : option (Engine * CompactJob) :=
  if (length (sstables_ e) <? kCompactionFanout)%nat then None else
  match rev (select_run (rev (sstables_ e)) [] None) with
  | [] => None
  | merge =>
      let files := manifest_index (manifest_ e) in
      let complete := (length merge =? length (sstables_ e))%nat in
      let '(e, seq) := allocate_sequence e in
      Some (e, {| to_merge := merge; complete_snapshot := complete; physical_sequence := seq; manifest_files := files |})
  end.

(** The merge loop.  Its queue of cursors is the reader's queue of nodes over
    table sources with the empty prefix, which every key has. *)
Fixpoint merge_loop (fuel : nat) (complete : bool) (r : Reader) (w : SST.Writer) : option SST.Writer :=
  match fuel with
  | O => None
  | S fuel' =>
      match step r with
      | None => None
      | Some None => Some w
      | Some (Some (r, (key, entry))) =>
          if negb (is_deleted entry) || negb complete then
            match SST.append w key entry with
            | Some (w, true) => merge_loop fuel' complete r w
            | _ => None
            end
          else merge_loop fuel' complete r w
      end
  end.

Definition cursor_source (t : SST.SSTable) : Source :=
  {| body := Table t; position := 0; valid := (0 <? SST.entry_count t)%nat |}.

(** The merged file and the writer's key range; [None] is an exception. *)
Definition compact_merge (io : bool) (job : CompactJob) : option (bytes * SST.Writer) :=
  match add_sources {| prefix_ := []; scan_forward_ := true; sources_ := []; heap_ := [] |}
          (map (fun t => Some (cursor_source t)) (to_merge job)) with
  | None => None
  | Some r =>
      match merge_loop (reader_fuel r) (complete_snapshot job) r SST.new_writer with
      | None => None
      | Some w => match SST.finish w with
                  | (w, Some file) => if writable io file then Some (file, w) else None
                  | (_, None) => None
                  end
      end
  end.

(** The highest sequence number of the inputs; [None]: [at] throws. *)
Fixpoint logical_sequence (files : list (bytes * (Z * Manifest.SSTableMetadata))) (l : list SST.SSTable) (acc : Z) : option Z :=
  match l with
  | [] => Some acc
  | t :: l' =>
      match mget (SST.path_ t) files with
      | None => None
      | Some (_, meta) => logical_sequence files l' (Z.max acc (Manifest.sequence_number meta))
      end
  end.

Fixpoint remove_inputs (files : list (bytes * (Z * Manifest.SSTableMetadata))) (paths : list bytes) (m : Manifest.t) : option Manifest.t :=
  match paths with
  | [] => Some m
  | p :: paths' =>
      match mget p files with
      | None => None
      | Some (level, _) => remove_inputs files paths' (Manifest.remove_file m level p)
      end
  end.

Fixpoint restore_inputs (files : list (bytes * (Z * Manifest.SSTableMetadata))) (paths : list bytes) (m : Manifest.t) : option Manifest.t :=
  match paths with
  | [] => Some m
  | p :: paths' =>
      match mget p files with
      | None => None
      | Some (_, meta) => restore_inputs files paths' (Manifest.add_file m (Manifest.level meta) meta)
      end
  end.

Definition compact_meta (path : bytes) (seq : Z) (file : bytes) (w : SST.Writer) : Manifest.SSTableMetadata :=
  {| Manifest.path := path; Manifest.level := 1; Manifest.sequence_number := seq;
     Manifest.min_key := SST.min_key_ w; Manifest.max_key := SST.max_key_ w;
     Manifest.file_size := len file; Manifest.entry_count := SST.entry_count_ w |}.

(** The list of tables with the inputs replaced by the output, at the place of
    the newest input. *)
Fixpoint replace_run (old_paths : list bytes) (merged : SST.SSTable) (inserted : bool) (l : list SST.SSTable) : list SST.SSTable :=
  match l with
  | [] => if inserted then [] else [merged]
  | t :: l' =>
      if bool_decide (SST.path_ t ∈ old_paths)
      then if inserted then replace_run old_paths merged true l' else merged :: replace_run old_paths merged true l'
      else t :: replace_run old_paths merged inserted l'
  end.

(** From the merge to the publication: the new engine, and whether the manifest
    was saved ([false]: the old entries are restored and [compact] throws). *)
Definition compact_publish (merge_io save_io retry_io : bool) (e : Engine) (job : CompactJob) : option (Engine * bool) :=
  let path := merged_path (db_path_ e) (physical_sequence job) in
  let old_paths := map SST.path_ (to_merge job) in
  match logical_sequence (manifest_files job) (to_merge job) 0, compact_merge merge_io job with
  | Some seq, Some (file, w) =>
      match SST.load_index path file with
      | Err _ => None
      | Ok merged =>
          let e := with_files e (mset path file (sst_files_ e)) in
          match remove_inputs (manifest_files job) old_paths (manifest_ e) with
          | None => None
          | Some removed =>
              let added := Manifest.add_file removed 1 (compact_meta path seq file w) in
              match save_manifest save_io added with
              | Some image =>
                  Some (with_sstables (with_manifest_file (with_manifest e added) image) (immutable_memtables_ e)
                          (replace_run old_paths merged false (sstables_ e)) (compaction_pending_ e), true)
              | None =>
                  match restore_inputs (manifest_files job) old_paths (Manifest.remove_file added 1 path) with
                  | None => None
                  | Some restored =>
                      let e := with_files (with_manifest e restored) (mdel path (sst_files_ e)) in
                      Some (match save_manifest retry_io restored with
                            | Some image => with_manifest_file e image
                            | None => e
                            end, false)
                  end
              end
          end
      end
  | _, _ => None
  end.

Definition remove_files (e : Engine) (paths : list bytes) : Engine :=
  with_files e (fold_left (fun fs p => mdel p fs) paths (sst_files_ e)).

(** ** The system *)

Inductive FlushPc := FlushIdle | Flushing (job : FlushJob) | FlushPublished (generation : Z).

Inductive CompactPc := CompactIdle | Compacting (job : CompactJob) | CompactPublished (old_paths : list bytes).

Record System := { engine : Engine; flusher : FlushPc; compactor : CompactPc }.

Inductive Event :=
| Client (op : EngineOp)
| FlushBegin
| FlushPublish (create_io save_io : bool)
| FlushRemoveWal
| CompactBegin
| CompactPublish (merge_io save_io retry_io : bool)
| CompactRemoveFiles.

Section Steps.
Context (coin : Z -> nat) (padding : Z -> bytes) (fsync auto_compaction : bool).

(** A client operation; an exception reaches the caller and the state is the one
    before it. *)
Definition client_step (e : Engine) (op : EngineOp) : Engine := run_op (H := lsm_engine coin padding fsync) e op.

(** [None]: the event cannot happen in this state.  The compaction thread logs
    an exception and goes on; they all come before the engine is touched. *)
Definition sys_step (s : System) (ev : Event) : option System :=
  match ev with
  | Client op => Some {| engine := client_step (engine s) op; flusher := flusher s; compactor := compactor s |}
  | FlushBegin =>
      match flusher s, flush_begin (engine s) with
      | FlushIdle, Some (e, job) => Some {| engine := e; flusher := Flushing job; compactor := compactor s |}
      | _, _ => None
      end
  | FlushPublish create_io save_io =>
      match flusher s with
      | Flushing job =>
          match flush_publish auto_compaction create_io save_io (engine s) job with
          | Some (e, true) => Some {| engine := e; flusher := FlushPublished (wal_to_delete job); compactor := compactor s |}
          | Some (e, false) => Some {| engine := e; flusher := FlushIdle; compactor := compactor s |}
          | None => None
          end
      | _ => None
      end
  | FlushRemoveWal =>
      match flusher s with
      | FlushPublished g => Some {| engine := remove_wal (engine s) g; flusher := FlushIdle; compactor := compactor s |}
      | _ => None
      end
  | CompactBegin =>
      match compactor s, compact_begin (engine s) with
      | CompactIdle, Some (e, job) => Some {| engine := e; flusher := flusher s; compactor := Compacting job |}
      | _, _ => None
      end
  | CompactPublish merge_io save_io retry_io =>
      match compactor s with
      | Compacting job =>
          match compact_publish merge_io save_io retry_io (engine s) job with
          | Some (e, true) => Some {| engine := e; flusher := flusher s; compactor := CompactPublished (map SST.path_ (to_merge job)) |}
          | Some (e, false) => Some {| engine := e; flusher := flusher s; compactor := CompactIdle |}
          | None => Some {| engine := engine s; flusher := flusher s; compactor := CompactIdle |}
          end
      | _ => None
      end
  | CompactRemoveFiles =>
      match compactor s with
      | CompactPublished ps => Some {| engine := remove_files (engine s) ps; flusher := flusher s; compactor := CompactIdle |}
      | _ => None
      end
  end.

Fixpoint sys_run (s : System) (evs : list Event) : option System :=
  match evs with
  | [] => Some s
  | ev :: evs' => match sys_step s ev with Some s => sys_run s evs' | None => None end
  end.
End Steps.

(** ** Contents under flush and compaction *)

Lemma first_some_app {A} (l1 l2 : list (option A)) :
  first_some (l1 ++ l2) = match first_some l1 with Some x => Some x | None => first_some l2 end.
Proof. induction l1 as [|[x|] l1 IH]; simpl; done. Qed.

Lemma mget_merged_true k l : mget k (merged true l) = first_some (map (mget k) l).
Proof. rewrite <- (mget_dir true), mget_merged. done. Qed.

Lemma mget_filter_rows (f : bytes * SnapshotEntry -> bool) k l : msorted l ->
  mget k (List.filter f l) = match mget k l with Some v => if f (k, v) then Some v else None | None => None end.
Proof.
  induction 1 as [|k1 v1 l Ha Hs IH]; [done|]. cbn [List.filter]. rewrite (mget_cons k k1 v1 l).
  destruct (keqb_spec k k1) as [->|Hne].
  - destruct (f (k1, v1)); [rewrite mget_cons, keqb_refl; done|]. rewrite IH. by rewrite mget_above.
  - destruct (f (k1, v1)); [|done]. rewrite mget_cons. by destruct (keqb_spec k k1).
Qed.

(** What compaction keeps. *)
Definition keep (complete : bool) (x : bytes * SnapshotEntry) : bool := negb (is_deleted x.2) || negb complete.

(** Replacing neighbours by their merge changes nothing; tombstones may be
    dropped when nothing older is left. *)
Lemma contents_compact newer run older complete : (complete = true -> older = []) ->
  contents (newer ++ List.filter (keep complete) (merged true run) :: older) = contents (newer ++ run ++ older).
Proof.
  intros Hc. apply msorted_ext; [apply contents_sorted..|]. intros k. rewrite !mget_contents, !map_app. cbn [map].
  rewrite !first_some_app. destruct (first_some (map (mget k) newer)) as [x|]; [done|]. cbn [first_some].
  rewrite mget_filter_rows by apply merged_msorted. rewrite mget_merged_true.
  destruct (first_some (map (mget k) run)) as [x|]; [|done]. unfold keep. cbn [snd].
  destruct (is_deleted x) eqn:Ed; cbn [negb orb]; [|done]. destruct complete; cbn [negb]; [|done]. rewrite Hc by done.
  simpl. by rewrite Ed.
Qed.

(** ** The merge loop *)

Lemma merge_loop_spec complete fuel : forall r rems w w',
  reads r rems -> scan_forward_ r = true -> (total rems < fuel)%nat -> merge_loop fuel complete r w = Some w' ->
  SST.append_all w (List.filter (keep complete) (merged true rems)) = Some (w', true).
Proof.
  induction fuel as [|fuel IH]; intros r rems w w' Hr Hf Hlt; [lia|]. cbn [merge_loop].
  pose proof (step_spec r rems Hr) as Hs. destruct (step r) as [[[r1 [k e]]|]|]; [| |done].
  - destruct Hs as (rems1 & Hr1 & Hf1 & _ & Em & Ht). rewrite Hf in *. rewrite Em. cbn [List.filter]. unfold keep at 1. cbn [snd].
    destruct (negb (is_deleted e) || negb complete); [|intros H; apply (IH r1 rems1); [done|congruence|lia|done]].
    destruct (SST.append w k e) as [[w1 [|]]|] eqn:Ea; try done. intros H. cbn [SST.append_all]. rewrite Ea.
    apply (IH r1 rems1); [done|congruence|lia|done].
  - rewrite Hf in Hs. rewrite Hs. by intros [= <-].
Qed.

Lemma in_block_nil l : in_block [] l = l.
Proof. induction l as [|e l IH]; simpl; [done|]. by rewrite IH. Qed.

Lemma cursor_source_ok t es : SST.rep t es -> source_view true [] (cursor_source t) es.
Proof.
  intros Hr. exists es. unfold visit. cbn [cursor_source body valid position]. rewrite (SST.rep_count _ _ Hr).
  split; [done|]. split; [by intros ?%Nat.ltb_lt|]. rewrite in_block_nil. destruct es; done.
Qed.

Lemma compact_merge_spec io job file w :
  Forall (fun t => SST.rep t (sst_entries t)) (to_merge job) -> compact_merge io job = Some (file, w) ->
  SST.create (List.filter (keep (complete_snapshot job)) (merged true (map sst_entries (to_merge job)))) = Some (Some file) /\
  len file < 2 ^ 64.
Proof.
  intros Hrep. unfold compact_merge. set (r0 := {| prefix_ := []; scan_forward_ := true; sources_ := []; heap_ := [] |}).
  assert (Hr0 : reads r0 []) by (split; simpl; [constructor|constructor|intros n; split; [done|]; intros (_ & _ & ? & ? & ?); done]).
  destruct (add_sources_ok (map (fun t => Some (cursor_source t)) (to_merge job)) (map sst_entries (to_merge job)) r0 [] Hr0)
    as (r & -> & Hr & Hf & _).
  { clear -Hrep. induction Hrep as [|t l Ht Hl IH]; simpl; constructor; [|done]. eexists. split; [done|]. by apply cursor_source_ok. }
  destruct (merge_loop _ _ r SST.new_writer) as [w1|] eqn:Em; [|done].
  apply (merge_loop_spec _ _ _ _ _ _ Hr Hf) in Em; [|by apply reads_fuel]. unfold SST.create. cbn [app] in Em. rewrite Em.
  destruct (SST.finish w1) as [w2 [f|]]; [|done]. unfold writable. destruct io; [|done]. simpl.
  destruct (Z.ltb_spec (len f) (2 ^ 63)); [|done]. intros [= <- <-]. split; [done|lia].
Qed.

(** ** Choosing the run *)

Lemma select_run_spec l : forall run tier r, select_run l run tier = r -> r <> [] ->
  exists pre post, run ++ l = pre ++ r ++ post.
Proof.
  induction l as [|t l IH]; intros run tier r; cbn [select_run]; [by intros <-|].
  set (run' := (if bool_decide (tier = Some (size_tier (SST.file_size t))) then run else []) ++ [t]). intros E Hr.
  assert (Hpre : exists pre, run ++ t :: l = pre ++ run' ++ l).
  { unfold run'. destruct (bool_decide _); [exists []|exists run]; by rewrite <- app_assoc. }
  destruct Hpre as [pre Hpre]. destruct (length run' =? kCompactionFanout)%nat; [subst r; by exists pre, l|].
  destruct (IH run' _ r E Hr) as (pre' & post & E'). exists (pre ++ pre'), post. by rewrite Hpre, E', <- app_assoc.
Qed.

Lemma replace_run_spec newer run older merged :
  NoDup (map SST.path_ (newer ++ run ++ older)) -> run <> [] ->
  replace_run (map SST.path_ run) merged false (newer ++ run ++ older) = newer ++ merged :: older.
Proof.
  intros Hnd Hrun. rewrite !map_app in Hnd. apply NoDup_app in Hnd as (_ & Hn & Hnd). apply NoDup_app in Hnd as (_ & Ho & _).
  assert (Hold : forall l, (forall x, x ∈ map SST.path_ l -> x ∉ map SST.path_ run) -> forall b rest,
    replace_run (map SST.path_ run) merged b (l ++ rest) = l ++ replace_run (map SST.path_ run) merged b rest).
  { induction l as [|t l IH]; intros Hl b rest; [done|]. cbn [app replace_run]. rewrite bool_decide_eq_false_2 by (apply Hl; by left).
    f_equal. apply IH. intros x Hx. apply Hl. by right. }
  rewrite Hold. 2:{ intros x Hx Hr. apply (Hn x Hx), elem_of_app. by left. }
  f_equal. assert (Hmid : forall r2, (forall x, x ∈ r2 -> x ∈ run) ->
    replace_run (map SST.path_ run) merged true (r2 ++ older) = older).
  { induction r2 as [|t r2 IH]; intros Hin; cbn [app replace_run].
    - rewrite <- (app_nil_r older) at 1. rewrite Hold; [simpl; apply app_nil_r|]. intros x Hx Hr. by apply (Ho x Hr).
    - rewrite bool_decide_eq_true_2 by (apply list_elem_of_In, in_map, list_elem_of_In, Hin; by left). apply IH. intros x Hx. apply Hin. by right. }
  destruct run as [|t run]; [done|]. cbn [app replace_run]. rewrite bool_decide_eq_true_2 by by left.
  f_equal. apply Hmid. intros x Hx. by right.
Qed.

(** ** Distinct file names *)

Definition named (db p : bytes) (n : Z) : Prop := 0 <= n /\ (p = sst_path db n \/ p = merged_path db n).

Lemma named_inj db p n m : named db p n -> named db p m -> n = m.
Proof.
  intros [Hn Ep] [Hm Eq].
  assert (Hgen : forall b r b' r', isdigit b = false -> isdigit b' = false ->
    db ++ lit "/table_" ++ dec_of_nonneg n ++ b :: r = db ++ lit "/table_" ++ dec_of_nonneg m ++ b' :: r' -> n = m).
  { intros b r b' r' Hb Hb' E. apply app_inv_head, app_inv_head in E. by apply dec_inj in E. }
  unfold sst_path, merged_path in *.
  destruct Ep as [->| ->], Eq as [Eq|Eq]; refine (Hgen _ _ _ _ _ _ Eq); reflexivity.
Qed.

(** ** The invariant of the system *)

Definition flush_seqs (f : FlushPc) : list Z := match f with Flushing job => [flush_seq job] | _ => [] end.
Definition compact_seqs (c : CompactPc) : list Z := match c with Compacting job => [physical_sequence job] | _ => [] end.

Definition flush_ok (e : Engine) (f : FlushPc) : Prop :=
  match f with
  | Flushing job => exists rest, immutable_memtables_ e = (to_flush job, wal_to_delete job) :: rest
  | _ => True
  end.

Definition compact_ok (e : Engine) (c : CompactPc) : Prop :=
  match c with
  | Compacting job => to_merge job <> [] /\ exists newer older,
      sstables_ e = newer ++ to_merge job ++ older /\ (complete_snapshot job = true -> older = [])
  | _ => True
  end.

Definition names_ok (e : Engine) (taken : list Z) : Prop :=
  exists ns, Forall2 (fun t n => named (db_path_ e) (SST.path_ t) n) (sstables_ e) ns /\
    NoDup (ns ++ taken) /\ Forall (fun n => 0 <= n < Manifest.next_sequence_ (manifest_ e)) (ns ++ taken) /\
    0 <= Manifest.next_sequence_ (manifest_ e).

Record sinv (s : System) : Prop := {
  si_engine : inv (engine s);
  si_names : names_ok (engine s) (flush_seqs (flusher s) ++ compact_seqs (compactor s));
  si_flush : flush_ok (engine s) (flusher s);
  si_compact : compact_ok (engine s) (compactor s)
}.

(** Distinct sequence numbers give distinct paths. *)
Lemma names_paths db (l : list SST.SSTable) ns :
  Forall2 (fun t n => named db (SST.path_ t) n) l ns -> NoDup ns -> NoDup (map SST.path_ l).
Proof.
  intros H. induction H as [|t n l ns Hn Hl IH]; intros Hnd; [constructor|]. apply NoDup_cons in Hnd as [Hni Hnd].
  cbn [map]. apply NoDup_cons. split; [|by apply IH]. intros (t' & Ep & Ht)%list_elem_of_In%in_map_iff.
  apply list_elem_of_In, list_elem_of_lookup in Ht as [i Hi]. destruct (Forall2_lookup_l _ _ _ i t' Hl Hi) as (n' & Hn' & Hnm).
  rewrite Ep in Hnm. rewrite (named_inj _ _ _ _ Hn Hnm) in Hni. apply Hni. by eapply list_elem_of_lookup_2.
Qed.

(** ** What a client operation leaves alone *)

Record extends (e e' : Engine) : Prop := {
  ex_db : db_path_ e' = db_path_ e;
  ex_sst : sstables_ e' = sstables_ e;
  ex_manifest : manifest_ e' = manifest_ e;
  ex_files : sst_files_ e' = sst_files_ e;
  ex_mfile : manifest_file_ e' = manifest_file_ e;
  ex_imm : exists more, immutable_memtables_ e' = immutable_memtables_ e ++ more
}.

Lemma extends_refl e : extends e e.
Proof. split; auto. exists []. by rewrite app_nil_r. Qed.

Lemma extends_trans a b c : extends a b -> extends b c -> extends a c.
Proof. intros [? ? ? ? ? [m1 E1]] [? ? ? ? ? [m2 E2]]. split; try congruence. exists (m1 ++ m2). by rewrite E2, E1, app_assoc. Qed.

Lemma extends_wals e ws seq : extends e (with_wals e ws seq).
Proof. split; auto. exists []. by rewrite app_nil_r. Qed.

Lemma extends_commit e g : extends e (commit_wal e g).
Proof. destruct (commit_wal_spec e g) as [ws ->]. apply extends_wals. Qed.

Section Frames.
Context (coin : Z -> nat) (padding : Z -> bytes) (fsync auto_compaction : bool).

Lemma extends_rotate e : extends e (rotate_memtable_if_needed fsync e).
Proof.
  unfold rotate_memtable_if_needed. destruct (_ <? _); [apply extends_refl|]. destruct (commit_wal_spec e (wal_generation_ e)) as [ws ->].
  split; auto. simpl. eauto.
Qed.

Lemma extends_append e ik del a e' : append_to_wal padding e ik del a = Some e' -> extends e e'.
Proof.
  unfold append_to_wal. destruct (mget _ _); [|intros [= <-]; apply extends_refl]. destruct (wal_value _ _); [|done].
  destruct (append_only _ _ _ _ _). intros [= <-]. apply extends_wals.
Qed.

Lemma extends_memtable e m : extends e (with_memtable e m).
Proof. split; auto. exists []. by rewrite app_nil_r. Qed.

Lemma extends_put e ik a e' w : put_locked coin padding fsync e ik a = Some (e', w) -> extends e e'.
Proof.
  unfold put_locked. destruct (append_to_wal _ _ _ _ _) as [e1|] eqn:E; [|done]. intros [= <- _].
  eapply extends_trans; [by eapply extends_append|]. eapply extends_trans; [apply extends_memtable|apply extends_rotate].
Qed.

Lemma extends_remove e ik e' w : remove_locked coin padding fsync e ik = Some (e', w) -> extends e e'.
Proof.
  unfold remove_locked. destruct (append_to_wal _ _ _ _ _) as [e1|] eqn:E; [|done]. intros [= <- _].
  eapply extends_trans; [by eapply extends_append|]. eapply extends_trans; [apply extends_memtable|apply extends_rotate].
Qed.

Lemma extends_remove_keys keys : forall e w e' w', remove_keys coin padding fsync e keys w = Some (e', w') -> extends e e'.
Proof.
  induction keys as [|k keys IH]; intros e w e' w'; cbn [remove_keys]; [intros [= <- _]; apply extends_refl|].
  destruct (remove_locked _ _ _ _ _) as [[e1 w1]|] eqn:E; [|done]. intros H.
  eapply extends_trans; [by eapply extends_remove|by eapply IH].
Qed.

Lemma extends_drop_loop p fuel : forall e cursor e', drop_loop coin padding fsync fuel e p cursor = Some e' -> extends e e'.
Proof.
  induction fuel as [|fuel IH]; intros e cursor e'; cbn [drop_loop]; [done|]. destruct (reader_of _ _ _ _); [|done].
  destruct (collect_keys _ _) as [[|k keys]|]; [intros [= <-]; apply extends_refl| |done].
  destruct (remove_keys _ _ _ _ _ _) as [[e1 w]|] eqn:E; [|done]. intros H. apply IH in H.
  eapply extends_trans; [by eapply extends_remove_keys|]. destruct w; [|done]. eapply extends_trans; [apply extends_commit|done].
Qed.

Lemma extends_client e op : extends e (client_step coin padding fsync e op).
Proof.
  destruct op as [t k a|t k|t k m|t]; unfold client_step, run_op; simpl.
  - unfold put. destruct (put_locked _ _ _ _ _ _) as [[e' w]|] eqn:E; simpl; [|apply extends_refl].
    eapply extends_trans; [by eapply extends_put|apply extends_commit].
  - unfold remove. destruct (remove_locked _ _ _ _ _) as [[e' w]|] eqn:E; simpl; [|apply extends_refl].
    eapply extends_trans; [by eapply extends_remove|apply extends_commit].
  - unfold mutate. destruct (get_locked _ _) as [c|]; [|apply extends_refl]. destruct (m c); [apply extends_refl| |].
    + destruct (put_locked _ _ _ _ _ _) as [[e' w]|] eqn:E; simpl; [|apply extends_refl].
      eapply extends_trans; [by eapply extends_put|apply extends_commit].
    + destruct (remove_locked _ _ _ _ _) as [[e' w]|] eqn:E; simpl; [|apply extends_refl].
      eapply extends_trans; [by eapply extends_remove|apply extends_commit].
  - unfold drop_table. destruct (reader_of _ _ _ _); [|apply extends_refl].
    destruct (drop_loop _ _ _ _ _ _ _) as [e'|] eqn:E; simpl; [by eapply extends_drop_loop|apply extends_refl].
Qed.
End Frames.

(** ** Every step keeps the invariant and the contents *)

Lemma same_state e e' : memtable_ e' = memtable_ e -> immutable_memtables_ e' = immutable_memtables_ e ->
  sstables_ e' = sstables_ e -> (inv e -> inv e') /\ holds e' = holds e.
Proof.
  intros Hm Hi Hs. assert (Hl : layers e' = layers e) by (unfold layers, snapshots; by rewrite Hm, Hi, Hs).
  split; [|unfold holds; by rewrite Hl]. intros [? ? ? ? ?]. split; rewrite ?Hl, ?Hm, ?Hi, ?Hs; done.
Qed.

Lemma names_forget e taken taken' : taken' ⊆+ taken -> names_ok e taken -> names_ok e taken'.
Proof.
  intros [more Hp]%submseteq_Permutation (ns & H1 & H2 & H3 & H4). exists ns. split; [done|].
  rewrite Hp, app_assoc in H2, H3. apply NoDup_app in H2 as (H2 & _). apply Forall_app in H3 as [H3 _]. done.
Qed.

Lemma names_same e e' taken : db_path_ e' = db_path_ e -> sstables_ e' = sstables_ e ->
  Manifest.next_sequence_ (manifest_ e') = Manifest.next_sequence_ (manifest_ e) -> names_ok e taken -> names_ok e' taken.
Proof. intros Hd Hs Hm (ns & H1 & H2 & H3 & H4). exists ns. by rewrite Hd, Hs, Hm. Qed.

(** A freshly allocated number is not in use. *)
Lemma names_allocate e taken taken' : Permutation taken' (Manifest.next_sequence_ (manifest_ e) :: taken) ->
  names_ok e taken -> names_ok (allocate_sequence e).1 taken'.
Proof.
  intros Hp (ns & H1 & H2 & H3 & H4). set (n := Manifest.next_sequence_ (manifest_ e)) in *.
  assert (Hperm : Permutation (ns ++ taken') (n :: ns ++ taken)) by (rewrite Hp; symmetry; apply Permutation_middle).
  exists ns. simpl. split; [done|]. split; [|split].
  - rewrite Hperm. apply NoDup_cons. split; [|done]. intros Hin. rewrite Forall_forall in H3. specialize (H3 n Hin). lia.
  - rewrite Hperm. constructor; [unfold Manifest.get_next_sequence; lia|]. eapply Forall_impl; [exact H3|]. intros x. simpl. unfold Manifest.get_next_sequence. fold n. lia.
  - unfold Manifest.get_next_sequence. lia.
Qed.

(** ** Flush *)

Lemma flush_publish_spec auto cio sio e job rest e' b :
  inv e -> immutable_memtables_ e = (to_flush job, wal_to_delete job) :: rest ->
  flush_publish auto cio sio e job = Some (e', b) ->
  inv e' /\ holds e' = holds e /\ db_path_ e' = db_path_ e /\ wals_ e' = wals_ e /\
  Manifest.next_sequence_ (manifest_ e') = Manifest.next_sequence_ (manifest_ e) /\
  if b then exists t, sstables_ e' = t :: sstables_ e /\ SST.path_ t = sst_path (db_path_ e) (flush_seq job) /\
              immutable_memtables_ e' = rest
  else sstables_ e' = sstables_ e /\ immutable_memtables_ e' = immutable_memtables_ e.
Proof.
  intros He Hi. unfold flush_publish. set (path := sst_path _ _). set (entries := mt_get_all_entries (to_flush job)).
  assert (Hwf : SL.wf (to_flush job)) by (pose proof (inv_imm _ He) as H; rewrite Hi in H; by apply Forall_cons in H as [? _]).
  assert (Hrows : Forall row_ok entries).
  { pose proof (inv_ok _ He) as H. apply Forall_app in H as [H _]. unfold snapshots in H. apply Forall_cons in H as [_ H].
    rewrite Hi in H. cbn [rev] in H. rewrite map_app in H. apply Forall_app in H as [_ H]. by apply Forall_cons in H as [? _]. }
  destruct (SST.create entries) as [[file|]|] eqn:Ec; [| |done].
  2:{ intros [= <- <-]. auto 10. }
  unfold writable. destruct cio; cbn [andb negb]; [|intros [= <- <-]; auto 10].
  destruct (Z.ltb_spec (len file) (2 ^ 63)); cbn [negb]; [|intros [= <- <-]; auto 10].
  destruct (SST.create_load path entries file) as (t & El & Hrep & Hpath & Hmap);
    [by apply SL.entries_sorted|by eapply Forall_impl; [exact Hrows|]; intros x [? _]|done|lia|]. rewrite El.
  pose proof (sst_entries_rep _ _ Hrep) as Het.
  destruct (save_manifest sio _) as [image|].
  - intros [= <- <-]. cbn [immutable_memtables_ with_files]. rewrite Hi.
    match goal with |- inv ?e2 /\ _ => set (e' := e2) end.
    assert (Hl : layers e' = layers e).
    { unfold layers, snapshots. simpl. rewrite Hi. cbn [rev map]. rewrite map_app, Het. cbn [map]. by rewrite <- app_assoc. }
    split; [|split; [unfold holds; by rewrite Hl|split; [done|split; [done|split; [done|exists t; done]]]]].
    destruct He as [H1 H2 H3 H4 H5]. rewrite Hi in H3. apply Forall_cons in H3 as [_ H3].
    split; rewrite ?Hl; unfold e'; simpl; auto. constructor; [by rewrite Het|done].
  - intros [= <- <-]. match goal with |- inv ?e2 /\ _ => destruct (same_state e e2 eq_refl eq_refl eq_refl) as [H1 H2] end. auto 10.
Qed.

(** ** Compaction *)

Lemma merged_rows_ok ls : Forall (Forall row_ok) ls -> Forall row_ok (merged true ls).
Proof.
  intros H. apply Forall_forall. intros [k x] Hin%list_elem_of_In. apply mget_In in Hin; [|apply merged_msorted].
  rewrite mget_merged_true in Hin. induction H as [|l ls Hl Hls IH]; [done|]. cbn [map first_some] in Hin.
  destruct (mget k l) as [y|] eqn:E; [|by apply IH]. injection Hin as ->. apply mget_Some_In, list_elem_of_In in E.
  rewrite Forall_forall in Hl. by apply Hl.
Qed.

Lemma compact_publish_spec mio sio rio e job newer older e' b :
  inv e -> sstables_ e = newer ++ to_merge job ++ older -> (complete_snapshot job = true -> older = []) -> to_merge job <> [] ->
  NoDup (map SST.path_ (sstables_ e)) -> compact_publish mio sio rio e job = Some (e', b) ->
  inv e' /\ holds e' = holds e /\ db_path_ e' = db_path_ e /\ wals_ e' = wals_ e /\ immutable_memtables_ e' = immutable_memtables_ e /\
  if b then exists t, sstables_ e' = newer ++ t :: older /\ SST.path_ t = merged_path (db_path_ e) (physical_sequence job) /\
    SST.rep t (List.filter (keep (complete_snapshot job)) (merged true (map sst_entries (to_merge job))))
  else sstables_ e' = sstables_ e.
Proof.
  intros He Hs Hc Hne Hnd. unfold compact_publish. set (path := merged_path _ _).
  destruct (logical_sequence _ _ _) as [lseq|]; [|done]. destruct (compact_merge mio job) as [[file w]|] eqn:Em; [|done].
  set (merged_entries := List.filter (keep (complete_snapshot job)) (merged true (map sst_entries (to_merge job)))).
  assert (Hreps : Forall (fun t => SST.rep t (sst_entries t)) (to_merge job)).
  { pose proof (inv_sst _ He) as H. rewrite Hs in H. apply Forall_app in H as [_ H]. by apply Forall_app in H as [? _]. }
  assert (Hrows : Forall row_ok merged_entries).
  { assert (Hm : Forall row_ok (merged true (map sst_entries (to_merge job)))).
    { apply merged_rows_ok. pose proof (inv_ok _ He) as H. apply Forall_app in H as [_ H]. rewrite Hs, !map_app in H.
      apply Forall_app in H as [_ H]. by apply Forall_app in H as [? _]. }
    apply Forall_forall. intros x Hx%list_elem_of_In%filter_In. rewrite Forall_forall in Hm. apply Hm, list_elem_of_In. tauto. }
  destruct (compact_merge_spec mio job file w Hreps Em) as [Hcreate Hlen]. fold merged_entries in Hcreate.
  destruct (SST.create_load path merged_entries file) as (t & El & Hrep & Hpath & Hmap);
    [apply msorted_filter, merged_msorted|by eapply Forall_impl; [exact Hrows|]; intros x [? _]|done|done|]. rewrite El.
  pose proof (sst_entries_rep _ _ Hrep) as Het.
  destruct (remove_inputs _ _ _) as [removed|]; [|done]. destruct (save_manifest sio _) as [image|].
  - intros [= <- <-]. cbn [sstables_ with_files immutable_memtables_]. rewrite Hs in Hnd |- *. rewrite replace_run_spec by done.
    match goal with |- inv ?e2 /\ _ => set (e' := e2) end.
    assert (Hholds : holds e' = holds e).
    { unfold holds, layers. change (snapshots e') with (snapshots e). change (sstables_ e') with (newer ++ t :: older).
      rewrite Hs, !map_app. cbn [map]. rewrite Het, !(app_assoc (snapshots e)). apply contents_compact.
      intros Hcs. by rewrite (Hc Hcs). }
    split; [|split; [done|split; [done|split; [done|split; [done|by exists t]]]]].
    destruct He as [H1 H2 H3 H4 H5]. rewrite Hs in H4. apply Forall_app in H4 as [H4 H4']. apply Forall_app in H4' as [_ H4'].
    split; auto.
    + change (sstables_ e') with (newer ++ t :: older). apply Forall_app. split; [done|]. constructor; [by rewrite Het|done].
    + unfold layers in *. change (snapshots e') with (snapshots e). change (sstables_ e') with (newer ++ t :: older). rewrite Hs, !map_app in H5. apply Forall_app in H5 as [H5 H6]. apply Forall_app in H6 as [H6 H7]. apply Forall_app in H7 as [_ H7].
      apply Forall_app. split; [done|]. rewrite map_app. apply Forall_app. split; [done|]. cbn [map]. constructor; [by rewrite Het|done].
  - destruct (restore_inputs _ _ _) as [restored|]; [|done]. intros [= <- <-].
    destruct (save_manifest rio restored); match goal with |- inv ?e2 /\ _ => destruct (same_state e e2 eq_refl eq_refl eq_refl) as [H1 H2] end; auto 10.
Qed.

Lemma run_seqs_sub (nn nm no fs : list Z) n : ((nn ++ n :: no) ++ fs) ⊆+ ((nn ++ nm ++ no) ++ fs ++ [n]).
Proof.
  assert (Hp : Permutation ((nn ++ nm ++ no) ++ fs ++ [n]) (((nn ++ n :: no) ++ fs) ++ nm)).
  { rewrite (Permutation_app_comm fs [n]). cbn [app]. rewrite <- !Permutation_middle. cbn [app]. constructor.
    rewrite <- !app_assoc. apply Permutation_app_head. rewrite (Permutation_app_comm nm). by rewrite <- !app_assoc. }
  rewrite Hp. by apply submseteq_inserts_r.
Qed.

Lemma remove_inputs_next files paths : forall m m', remove_inputs files paths m = Some m' -> Manifest.next_sequence_ m' = Manifest.next_sequence_ m.
Proof.
  induction paths as [|p paths IH]; intros m m'; cbn [remove_inputs]; [by intros [= <-]|]. destruct (mget p files) as [[l meta]|]; [|done].
  intros H. by apply IH in H.
Qed.

Lemma restore_inputs_next files paths : forall m m', restore_inputs files paths m = Some m' -> Manifest.next_sequence_ m' = Manifest.next_sequence_ m.
Proof.
  induction paths as [|p paths IH]; intros m m'; cbn [restore_inputs]; [by intros [= <-]|]. destruct (mget p files) as [[l meta]|]; [|done].
  intros H. by apply IH in H.
Qed.

Lemma compact_next_sequence mio sio rio e job e' b : compact_publish mio sio rio e job = Some (e', b) ->
  Manifest.next_sequence_ (manifest_ e') = Manifest.next_sequence_ (manifest_ e).
Proof.
  unfold compact_publish. destruct (logical_sequence _ _ _); [|done]. destruct (compact_merge mio job) as [[file w]|]; [|done].
  destruct (SST.load_index _ _); [|done]. destruct (remove_inputs _ _ _) as [removed|] eqn:Er; [|done].
  apply remove_inputs_next in Er. destruct (save_manifest sio _); [by intros [= <- <-]|].
  destruct (restore_inputs _ _ _) as [restored|] eqn:Es; [|done]. apply restore_inputs_next in Es. simpl in Es, Er.
  destruct (save_manifest rio _); intros [= <- <-]; simpl; congruence.
Qed.

Section Run.
Context (coin : Z -> nat) (padding : Z -> bytes) (fsync auto_compaction : bool).

Local Instance run_engine : StorageEngine Engine := lsm_engine coin padding fsync.
Local Instance run_laws : StorageLaws Engine := lsm_laws coin padding fsync.

Definition event_ok (ev : Event) : Prop := match ev with Client op => op_ok op | _ => True end.

Lemma client_inv e op : inv e -> op_ok op -> inv (client_step coin padding fsync e op).
Proof.
  intros He Hop. pose proof (run_op_represents (E:=Engine) e (fun t k => mget k (rows e t)) op) as H.
  destruct H as [H _]; [split; [exact He|done]|exact Hop|exact H].
Qed.

Lemma flush_publish_sinv s cio sio s' : sinv s -> sys_step coin padding fsync auto_compaction s (FlushPublish cio sio) = Some s' ->
  sinv s' /\ holds (engine s') = holds (engine s).
Proof.
  intros [He Hn Hf Hc]. destruct s as [e f c]. simpl in *. cbn [sys_step engine flusher compactor].
  destruct f as [|job|]; try done. destruct Hf as [rest Hf]. destruct (flush_publish _ _ _ _ _) as [[e' b]|] eqn:Ep; [|done].
  destruct (flush_publish_spec _ _ _ _ _ rest _ _ He Hf Ep) as (H1 & H2 & H3 & _ & H4 & H5).
  destruct b; intros [= <-]; (split; [|exact H2]); split; simpl; auto.
  - destruct H5 as (t & Hs & Hp & Hi). destruct Hn as (ns & N1 & N2 & N3 & N4). exists (flush_seq job :: ns).
    rewrite Hs, H3, H4. simpl in N2, N3. assert (Hperm : Permutation (ns ++ flush_seq job :: compact_seqs c) ((flush_seq job :: ns) ++ compact_seqs c)) by (symmetry; apply Permutation_middle).
    rewrite Hperm in N2, N3. split; [constructor; [|done]|done]. split; [|left; by rewrite Hp].
    apply Forall_cons in N3 as [? _]. lia.
  - destruct H5 as (t & Hs & _ & _). destruct c as [|cj|]; simpl in *; auto. destruct Hc as [Hne (newer & older & Es & Ho)]. split; [done|].
    exists (t :: newer), older. by rewrite Hs, Es.
  - destruct H5 as [Hs _]. apply (names_same e); [done|done|done|]. eapply names_forget; [|exact Hn]. apply submseteq_cons. done.
  - destruct H5 as [Hs _]. destruct c; simpl in *; auto. by rewrite Hs.
Qed.

Lemma compact_publish_sinv s mio sio rio s' : sinv s -> sys_step coin padding fsync auto_compaction s (CompactPublish mio sio rio) = Some s' ->
  sinv s' /\ holds (engine s') = holds (engine s).
Proof.
  intros [He Hn Hf Hc]. destruct s as [e f c]. simpl in *. cbn [sys_step engine flusher compactor].
  destruct c as [|job|]; try done. destruct Hc as [Hne (newer & older & Es & Ho)].
  destruct (compact_publish _ _ _ _ _) as [[e' b]|] eqn:Ep.
  - destruct Hn as (ns & N1 & N2 & N3 & N4). simpl in N2, N3.
    assert (Hnd : NoDup (map SST.path_ (sstables_ e))) by (eapply names_paths; [exact N1|]; by apply NoDup_app in N2 as [? _]).
    destruct (compact_publish_spec _ _ _ _ _ newer older _ _ He Es Ho Hne Hnd Ep) as (H1 & H2 & H3 & _ & H4 & H5).
    assert (H6 : Manifest.next_sequence_ (manifest_ e') = Manifest.next_sequence_ (manifest_ e)) by by eapply compact_next_sequence.
    destruct b; intros [= <-]; (split; [|exact H2]); split; simpl; auto.
    + destruct H5 as (t & Hs & Hp & _). rewrite Es in N1. apply Forall2_app_inv_l in N1 as (nn & nr & Nn & Nr & ->).
      apply Forall2_app_inv_l in Nr as (nm & no & Nm & No & ->). exists (nn ++ physical_sequence job :: no).
      rewrite Hs, H3, H6, app_nil_r. assert (Hsub : ((nn ++ physical_sequence job :: no) ++ flush_seqs f) ⊆+ ((nn ++ nm ++ no) ++ flush_seqs f ++ [physical_sequence job])) by by apply run_seqs_sub.
      apply submseteq_Permutation in Hsub as [more Hsub]. rewrite Hsub in N2, N3.
      apply NoDup_app in N2 as (N2 & _). apply Forall_app in N3 as [N3 _]. split; [|done].
      apply Forall2_app; [done|]. constructor; [|done]. split; [|right; by rewrite Hp]. apply Forall_app in N3 as [N3 _].
      apply Forall_app in N3 as [_ N3]. apply Forall_cons in N3 as [? _]. lia.
    + destruct f; simpl in *; auto. by rewrite H4.
    + apply (names_same e); [done|done|done|]. eapply names_forget; [|by exists ns]. simpl. rewrite app_nil_r. by apply submseteq_inserts_r.
    + destruct f; simpl in *; auto. by rewrite H4.
  - intros [= <-]. split; [|done]. split; simpl; auto. eapply names_forget; [|exact Hn]. simpl. rewrite app_nil_r. by apply submseteq_inserts_r.
Qed.

Lemma sys_step_sinv s ev s' : sinv s -> event_ok ev -> sys_step coin padding fsync auto_compaction s ev = Some s' ->
  sinv s' /\ match ev with Client op => engine s' = client_step coin padding fsync (engine s) op | _ => holds (engine s') = holds (engine s) end.
Proof.
  intros [He Hn Hf Hc] Hev. destruct s as [e f c]. simpl in *. destruct ev as [op| |cio sio| | |mio sio rio|]; cbn [sys_step engine flusher compactor].
  - intros [= <-]. split; [|done]. pose proof (extends_client coin padding fsync e op) as [H1 H2 H3 H4 H5 [more H6]]. split; simpl.
    + by apply client_inv.
    + apply (names_same e); [done|done|by rewrite H3|done].
    + destruct f; simpl in *; auto. destruct Hf as [rest Hf]. exists (rest ++ more). by rewrite H6, Hf.
    + destruct c; simpl in *; auto. by rewrite H2.
  - destruct f; try done. unfold flush_begin. destruct (immutable_memtables_ e) as [|[m g] rest] eqn:Ei; [done|]. intros [= <-].
    destruct (same_state e (allocate_sequence e).1 eq_refl eq_refl eq_refl) as [H1 H2]. split; [|exact H2]. split; simpl; auto.
    + apply (names_allocate e (compact_seqs c)); [done|exact Hn].
    + exists rest. done.
  - by apply (flush_publish_sinv {| engine := e; flusher := f; compactor := c |}).
  - destruct f as [| |g]; try done. intros [= <-].
    destruct (same_state e (remove_wal e g) eq_refl eq_refl eq_refl) as [H1 H2]. split; [|exact H2]. split; simpl; auto.
  - destruct c; try done. unfold compact_begin. destruct (_ <? _)%nat; [done|].
    destruct (rev (select_run (rev (sstables_ e)) [] None)) as [|t0 merge] eqn:Er; [done|]. intros [= <-].
    destruct (same_state e (allocate_sequence e).1 eq_refl eq_refl eq_refl) as [H1 H2]. split; [|exact H2]. split; simpl; auto.
    + apply (names_allocate e (flush_seqs f)); [|by rewrite app_nil_r in Hn]. rewrite Permutation_app_comm. done.
    + split; [done|]. destruct (select_run_spec (rev (sstables_ e)) [] None _ eq_refl) as (pre & post & E).
      { intros E. by rewrite E in Er. }
      exists (rev post), (rev pre). cbn [app] in E. apply (f_equal (@rev SST.SSTable)) in E. rewrite rev_involutive, !rev_app_distr, Er in E.
      rewrite <- app_assoc in E. split; [done|]. intros Hlen. change ((length (t0 :: merge) =? length (sstables_ e))%nat = true) in Hlen.
      apply Nat.eqb_eq in Hlen. rewrite E, !length_app in Hlen. apply length_zero_iff_nil. lia.
  - by apply (compact_publish_sinv {| engine := e; flusher := f; compactor := c |}).
  - destruct c as [| |ps]; try done. intros [= <-].
    destruct (same_state e (remove_files e ps) eq_refl eq_refl eq_refl) as [H1 H2]. split; [|exact H2]. split; simpl; auto.
Qed.

(** The client operations among the events. *)
Definition client_ops (evs : list Event) : list EngineOp :=
  concat (map (fun ev => match ev with Client op => [op] | _ => [] end) evs).

Lemma sys_run_represents evs : forall s st s',
  sinv s -> represents (engine s) st -> Forall event_ok evs -> sys_run coin padding fsync auto_compaction s evs = Some s' ->
  sinv s' /\ represents (engine s') (fold_left spec_op (client_ops evs) st).
Proof.
  induction evs as [|ev evs IH]; intros s st s' Hs Hrep Hev; cbn [sys_run]; [by intros [= <-]|].
  apply Forall_cons in Hev as [Hev1 Hev]. destruct (sys_step _ _ _ _ s ev) as [s1|] eqn:E; [|done]. intros Hrun.
  destruct (sys_step_sinv s ev s1 Hs Hev1 E) as [Hs1 Hh].
  assert (Hrep1 : represents (engine s1) (match ev with Client op => spec_op st op | _ => st end)).
  { destruct ev as [op| | | | | |]; [rewrite Hh; by apply run_op_represents|..]; destruct Hrep as [_ Hr]; (split; [apply Hs1|]);
      intros t k Ht; rewrite <- (Hr t k Ht); simpl; by rewrite (rows_same _ _ t Hh). }
  destruct (IH s1 _ s' Hs1 Hrep1 Hev Hrun) as [Hs' Hr']. split; [done|]. unfold client_ops. cbn [map concat]. rewrite fold_left_app.
  by destruct ev.
Qed.


End Run.

(** ** A concrete run: four flushes and a compaction *)

Definition demo_row (s : string) : AttributeMap := [(lit "v", Some (AV_S (lit s)))].
Definition demo_memtable (k : string) (a : AttributeMap) : MemTable := mt_put mt_empty 1 (internal_key (lit "T") (lit k)) a.
Definition demo_tombstone (k : string) : MemTable := mt_remove mt_empty 0 (internal_key (lit "T") (lit k)).

Definition demo_engine : Engine :=
  {| db_path_ := lit "db"; memtable_ := mt_empty;
     immutable_memtables_ := [(demo_memtable "a" (demo_row "1"), 0); (demo_memtable "b" (demo_row "2"), 1);
                              (demo_tombstone "a", 2); (demo_memtable "c" (demo_row "3"), 3)];
     sstables_ := []; wals_ := [(4, open_log None true)]; wal_generation_ := 4; wal_seq_ := 4;
     manifest_ := Manifest.empty; sst_files_ := []; manifest_file_ := None; compaction_pending_ := false |}.

Definition demo_system : System := {| engine := demo_engine; flusher := FlushIdle; compactor := CompactIdle |}.

Definition demo_flush : list Event := [FlushBegin; FlushPublish true true; FlushRemoveWal].

Definition demo_events : list Event :=
  demo_flush ++ demo_flush ++ [FlushBegin; Client (OpPut (lit "T") (lit "d") (demo_row "4")); FlushPublish true true; FlushRemoveWal] ++
  demo_flush ++ [CompactBegin; Client (OpRemove (lit "T") (lit "c")); CompactPublish true true true; CompactRemoveFiles].

Definition demo_pad (seq : Z) : bytes := replicate 4 Byte.x00.

Lemma demo_sinv : sinv demo_system.
Proof.
  split; simpl; auto.
  - split; simpl.
    + exists []. apply SL.empty_wf.
    + done.
    + repeat apply Forall_cons_2; try apply Forall_nil_2; apply SL.insert_spec; exists []; apply SL.empty_wf.
    + constructor.
    + unfold layers, row_ok. by_eval.
  - exists []. simpl. repeat split; try constructor. done.
Qed.

(** Every phase of the run is enabled; the four tables become one. *)
Lemma demo_run_ends : exists s, sys_run (fun _ => 0%nat) demo_pad true true demo_system demo_events = Some s /\
  map SST.path_ (sstables_ (engine s)) = [lit "db/table_4_c.sst"] /\
  map fst (sst_files_ (engine s)) = [lit "db/table_4_c.sst"].
Proof. eexists. split; [vm_compute; reflexivity|]. split; vm_compute; reflexivity. Qed.


End LsmSystem.
