(* ===== verification/LsmRecovery.v ===== *)
(** * The LSM engine: start-up, recovery and shutdown

    The constructor and the destructor of [src/engine/lsm/lsm_engine.cpp].  A
    [Disk] is the database directory between two processes: the log segments by
    file name, the SSTable files by path and the manifest file.  [reopen] is the
    constructor: it loads the manifest, opens the SSTables, removes the orphans,
    replays the logs, writes the checkpoint log and removes the old segments;
    [None] is an exception.  [life] runs an engine through client operations,
    background phases, crashes and shutdowns.

    A crash falls between two steps, so a log ends with a complete record; a log
    cut inside a record is the subject of [Wal.wal_torn_tail]. *)

From Stdlib Require Import ZArith Lia Strings.String Sorting.Sorted.
From stdpp Require Import prelude sorting.
From S2P Require Import Prelude StdMap Ranges Types CLib Storage RecordCodec Wal Skiplist SSTable Manifest MergedReader LsmEngine LsmBackground.
Import Lsm LsmSystem.

Module LsmRecovery.

(** ** File names *)

(** [path::extension] of a file name. *)
Definition extension (name : bytes) : bytes :=
  if bytes_eqb name (lit "..") then [] else
  let '(suffix, rest) := span (fun b => negb (is_char 46 b)) (rev name) in
  match rest with
  | dot :: _ :: _ => dot :: rev suffix
  | _ => []
  end.

Fixpoint split_path (s cur : bytes) : list bytes :=
  match s with
  | [] => [cur]
  | c :: s' => if is_char 47 c then cur :: split_path s' [] else split_path s' (cur ++ [c])
  end.

(** [path::filename] *)
Definition filename (p : bytes) : bytes := default [] (last (split_path p [])).

(** One component: the names kept so far (innermost first) and whether the path
    read so far ends in a directory separator. *)
Definition normal_step (absolute : bool) (st : list bytes * bool) (c : bytes) : list bytes * bool :=
  let '(names, trailing) := st in
  if bool_decide (c = []) || bytes_eqb c (lit ".") then (names, true)
  else if bytes_eqb c (lit "..") then
    match names with
    | [] => if absolute then ([], true) else ([c], false)
    | n :: names' => if bytes_eqb n (lit "..") then (c :: names, false) else (names', true)
    end
  else (c :: names, false).

Fixpoint join_path (names : list bytes) : bytes :=
  match names with
  | [] => []
  | [n] => n
  | n :: names' => n ++ lit "/" ++ join_path names'
  end.

(** [path::lexically_normal] on a POSIX system. *)
Definition lexically_normal (p : bytes) : bytes :=
  match p with
  | [] => []
  | c :: _ =>
      let absolute := is_char 47 c in
      let '(names, trailing) := fold_left (normal_step absolute) (split_path p []) ([], false) in
      let slash := match names with
                   | n :: _ => trailing && negb (bytes_eqb n (lit ".."))
                   | [] => false
                   end in
      match (if absolute then lit "/" else []) ++ join_path (rev names) ++ (if slash then lit "/" else []) with
      | [] => lit "."
      | r => r
      end
  end.

Definition wal_name (generation : Z) : bytes := lit "wal_" ++ dec_of_nonneg generation ++ lit ".log".

(** The generation of a directory entry; [None]: the entry is passed over. *)
Definition segment_generation (name : bytes) : option Z :=
  if starts_with name (lit "wal_") && bytes_eqb (extension name) (lit ".log")
  then stoul (take (length name - 8) (drop 4 name))
  else None.

(** ** The database directory *)

Record Disk := {
  disk_logs : list (bytes * bytes);
  disk_tables : list (bytes * bytes);
  disk_manifest : option bytes
}.

Definition disk_of (e : Engine) : Disk :=
  {| disk_logs := map (fun w => (wal_name w.1, file_ w.2)) (wals_ e);
     disk_tables := sst_files_ e; disk_manifest := manifest_file_ e |}.

(** ** Opening the SSTables *)

Definition newer_file (a b : Manifest.SSTableMetadata) : Prop := Manifest.sequence_number b <= Manifest.sequence_number a.

#[global] Instance newer_file_dec a b : Decision (newer_file a b).
Proof. unfold newer_file. apply _. Defined.

Definition listed_files (m : Manifest.t) : list Manifest.SSTableMetadata :=
  concat (map (fun l => Manifest.get_level_files m (Z.of_nat l)) (seq 0 16)).

Fixpoint open_tables (tables : list (bytes * bytes)) (metas : list Manifest.SSTableMetadata) : option (list SST.SSTable) :=
  match metas with
  | [] => Some []
  | meta :: metas' =>
      match mget (Manifest.path meta) tables with
      | None => None
      | Some content =>
          match SST.load_index (Manifest.path meta) content with
          | Err _ => None
          | Ok t => option_map (cons t) (open_tables tables metas')
          end
      end
  end.

(** Unreferenced [.sst] files are removed. *)
Definition kept_file (referenced : list bytes) (p : bytes) : bool :=
  negb (bytes_eqb (extension (filename p)) (lit ".sst")) || bool_decide (lexically_normal p ∈ referenced).

(** The open tables, newest first, and the files that stay. *)
Definition load_sstables_from_manifest (m : Manifest.t) (tables : list (bytes * bytes))
  : option (list SST.SSTable * list (bytes * bytes)) :=
  let all := merge_sort newer_file (listed_files m) in
  let referenced := map (fun meta => lexically_normal (Manifest.path meta)) all in
  match open_tables tables all with
  | None => None
  | Some opened =>
      Some (opened, List.filter (fun f => kept_file referenced f.1) tables)
  end.

(** ** Replaying the logs *)

Definition segment_le (a b : Z * bytes) : Prop := a.1 < b.1 \/ (a.1 = b.1 /\ bytes_cmp a.2 b.2 <> Gt).

#[global] Instance segment_le_dec a b : Decision (segment_le a b).
Proof. unfold segment_le. apply _. Defined.

Definition log_segments (logs : list (bytes * bytes)) : list (Z * bytes) :=
  merge_sort segment_le (omap (fun f => option_map (fun g => (g, f.1)) (segment_generation f.1)) logs).

(** The entry a log record stands for; [None]: the record is passed over. *)
Definition record_entry (value : bytes) : option SnapshotEntry :=
  match value with
  | [] => None
  | op :: rest =>
      if is_char 68 op then Some tombstone
      else if is_char 80 op then option_map put_entry (decode_attributes rest)
      else None
  end.

Section Environment.
Context (coin replay_coin : Z -> nat) (padding : Z -> bytes) (fsync : bool).

(** The memtable and the number of records applied. *)
Definition replay_record (st : MemTable * Z) (rec : ReplayRecord) : MemTable * Z :=
  match record_entry (rr_value rec) with
  | Some entry => (SL.insert st.1 (replay_coin st.2) (rr_key rec) entry, st.2 + 1)
  | None => st
  end.

Definition replay_segment (logs : list (bytes * bytes)) (st : MemTable * Z) (segment : Z * bytes) : MemTable * Z :=
  fold_left replay_record (replay (open_log (mget segment.2 logs) fsync)) st.

(** The checkpoint of the recovered memtable; the result of [append] is not
    looked at. *)
Fixpoint checkpoint (wal : Log) (seq : Z) (es : Snapshot) : option (Log * Z) :=
  match es with
  | [] => Some (wal, seq)
  | (k, entry) :: es' =>
      match wal_value (is_deleted entry) (attributes entry) with
      | None => None
      | Some value => checkpoint (append (padding seq) wal seq k value).1 (seq + 1) es'
      end
  end.

(** The memtable, the generation and the log of the new engine, with the number
    of log records. *)
Definition recover_from_wal (logs : list (bytes * bytes)) : option (MemTable * Z * Log * Z) :=
  let segments := log_segments logs in
  let memtable := (fold_left (replay_segment logs) segments (mt_empty, 0)).1 in
  let generation := match segments with
                    | [] => 0
                    | _ => fold_left (fun m s => Z.max m s.1) segments 0 + 1
                    end in
  let wal := open_log (mget (wal_name generation) logs) fsync in
  match checkpoint wal 0 (mt_get_all_entries memtable) with
  | None => None
  | Some (wal, seq) => Some (memtable, generation, (sync wal).1, seq)
  end.

(** The constructor.  Afterwards the active log is the only segment. *)
Definition reopen (db_path : bytes) (disk : Disk) : option Engine :=
  match Manifest.load Manifest.empty (disk_manifest disk) with
  | None => None
  | Some manifest =>
      match load_sstables_from_manifest manifest (disk_tables disk) with
      | None => None
      | Some (tables, files) =>
          match recover_from_wal (disk_logs disk) with
          | None => None
          | Some (memtable, generation, wal, seq) =>
              Some {| db_path_ := db_path; memtable_ := memtable; immutable_memtables_ := [];
                      sstables_ := tables; wals_ := [(generation, wal)]; wal_generation_ := generation;
                      wal_seq_ := seq; manifest_ := manifest; sst_files_ := files;
                      manifest_file_ := disk_manifest disk; compaction_pending_ := false |}
          end
      end
  end.

(** The destructor, once the two threads have ended. *)
Definition shutdown (save_io : bool) (e : Engine) : Engine :=
  match save_manifest save_io (manifest_ e) with
  | Some image => with_manifest_file e image
  | None => e
  end.

(** ** Life of a database *)

Inductive LifeEvent :=
| Step (ev : Event)
| Crash
| Restart (save_io : bool).

Definition restart (db_path : bytes) (disk : Disk) : option System :=
  option_map (fun e => {| engine := e; flusher := FlushIdle; compactor := CompactIdle |}) (reopen db_path disk).

(** [None] at the outer level: the event cannot happen; at the inner level: the
    constructor throws. *)
Definition life_step (auto_compaction : bool) (s : System) (ev : LifeEvent) : option (option System) :=
  match ev with
  | Step ev => option_map Some (sys_step coin padding fsync auto_compaction s ev)
  | Crash => Some (restart (db_path_ (engine s)) (disk_of (engine s)))
  | Restart save_io =>
      match flusher s, compactor s with
      | FlushIdle, CompactIdle => Some (restart (db_path_ (engine s)) (disk_of (shutdown save_io (engine s))))
      | _, _ => None
      end
  end.

End Environment.

(** ** Logs and the rows they stand for *)

(** What replaying records does to the rows. *)
Definition journal (recs : list ReplayRecord) (rows : Snapshot) : Snapshot :=
  fold_left (fun rows r => match record_entry (rr_value r) with Some e => mset (rr_key r) e rows | None => rows end) recs rows.

(** A row that a log record can carry. *)
Definition loggable (x : bytes * SnapshotEntry) : Prop :=
  row_ok x /\ (is_deleted x.2 = true -> attributes x.2 = []) /\
  exists v, wal_value (is_deleted x.2) (attributes x.2) = Some v /\ len v < 2 ^ 32.

Definition carries (en : Entry) : Prop :=
  exists x, loggable (rr_key en.1, x) /\ wal_value (is_deleted x) (attributes x) = Some (rr_value en.1).

(** The log object is usable and its records amount to the rows. *)
Definition log_holds (l : Log) (rows : Snapshot) : Prop :=
  is_open l = true /\ good l = true /\ exists es,
    file_ l = wal_header ++ entries_bytes es /\ Forall entry_ok es /\ Forall carries es /\ journal (map fst es) [] = rows.

Lemma decode_encoded_item attrs enc : codec_item_ok attrs = true -> encode_attributes attrs = Some enc -> decode_attributes enc = Some attrs.
Proof.
  intros Hok E. destruct (item_written attrs Hok) as (e & He & Hr). rewrite E in He. injection He as <-.
  unfold decode_attributes. by rewrite Hr by lia.
Qed.

Lemma record_entry_value k x v : loggable (k, x) -> wal_value (is_deleted x) (attributes x) = Some v -> record_entry v = Some x.
Proof.
  intros ((Hok & _) & Hd & _). unfold wal_value. destruct x as [a []]; simpl in *.
  - intros [= <-]. by rewrite Hd.
  - destruct (encode_attributes a) as [enc|] eqn:E; simpl; [|done]. intros [= <-]. simpl.
    by rewrite (decode_encoded_item a enc Hok E).
Qed.

Lemma loggable_key k x : loggable (k, x) -> SL.is_valid_user_key k = true.
Proof. intros [[_ H] _]. exact H. Qed.

Lemma valid_key_len k : SL.is_valid_user_key k = true -> len k < 2 ^ 32.
Proof. unfold SL.is_valid_user_key, kMaxSkiplistKeyBytes. intros H. bool_hyps. lia. Qed.

Lemma journal_app r1 r2 rows : journal (r1 ++ r2) rows = journal r2 (journal r1 rows).
Proof. apply fold_left_app. Qed.

Lemma journal_cons r recs rows :
  journal (r :: recs) rows = journal recs (match record_entry (rr_value r) with Some e => mset (rr_key r) e rows | None => rows end).
Proof. done. Qed.

(** Later records win over earlier rows. *)
Lemma mget_journal recs : forall rows k,
  mget k (journal recs rows) = match mget k (journal recs []) with Some x => Some x | None => mget k rows end.
Proof.
  induction recs as [|r recs IH]; intros rows k; [done|]. rewrite !journal_cons.
  rewrite (IH (match record_entry (rr_value r) with Some e => mset (rr_key r) e rows | None => rows end)),
          (IH (match record_entry (rr_value r) with Some e => mset (rr_key r) e [] | None => [] end)).
  destruct (mget k (journal recs [])) as [x|]; [done|].
  destruct (record_entry (rr_value r)) as [e|]; [|done]. rewrite !mget_mset. by destruct (keqb k (rr_key r)).
Qed.

Lemma journal_sorted recs : forall rows, msorted rows -> msorted (journal recs rows).
Proof.
  induction recs as [|r recs IH]; intros rows Hs; [done|]. rewrite journal_cons. apply IH.
  destruct (record_entry _); auto with cyn.
Qed.

Lemma log_sorted l rows : log_holds l rows -> msorted rows.
Proof. intros (_ & _ & es & _ & _ & _ & <-). apply journal_sorted. constructor. Qed.

Lemma log_fresh b : log_holds (open_log None b) [].
Proof. split; [done|]. split; [done|]. exists []. repeat split; try constructor. Qed.

Lemma log_commit l rows : log_holds l rows -> log_holds (commit l).1 rows.
Proof.
  intros (Ho & Hg & H). unfold commit. rewrite Ho. simpl. destruct (appended_ l <=? synced_ l); by split.
Qed.

Lemma log_write l rows pad seq k x v : log_holds l rows -> loggable (k, x) -> length pad = 4%nat ->
  wal_value (is_deleted x) (attributes x) = Some v -> log_holds (append_only pad l seq k v).1 (mset k x rows).
Proof.
  intros (Ho & Hg & es & Hf & Hes & Hc & Hj) Hx Hp Hv. unfold append_only, write_record. rewrite Ho, Hg. simpl.
  split; [done|]. split; [done|]. set (rec := {| rr_seq := u64 seq; rr_key := k; rr_value := v |}).
  exists (es ++ [(rec, pad)]). split; [|split; [|split]].
  - cbn [file_ with_file fst]. rewrite Hf. unfold entries_bytes. rewrite map_app, concat_app. cbn [map concat]. rewrite app_nil_r, <- app_assoc. do 2 f_equal.
    unfold entry_bytes, record_bytes, record_head, rec. cbn [fst snd rr_seq rr_key rr_value].
    replace (u64 (u64 seq)) with (u64 seq); [done|]. unfold u64. by rewrite Z.mod_mod.
  - apply Forall_app. split; [done|]. constructor; [|done]. split; [|done]. split; simpl.
    + unfold u64. apply Z.mod_pos_bound. lia.
    + split; [by eapply valid_key_len, loggable_key|]. destruct Hx as (_ & _ & v' & Hv' & Hl). simpl in *. congruence.
  - apply Forall_app. split; [done|]. constructor; [|done]. by exists x.
  - replace (map fst (es ++ [(rec, pad)])) with (map fst es ++ [rec]) by (by rewrite map_app). rewrite journal_app, Hj.
    unfold journal. cbn [fold_left rec rr_value rr_key]. by rewrite (record_entry_value k x v Hx Hv).
Qed.

Lemma log_append l rows pad seq k x v : log_holds l rows -> loggable (k, x) -> length pad = 4%nat ->
  wal_value (is_deleted x) (attributes x) = Some v -> log_holds (append pad l seq k v).1 (mset k x rows).
Proof.
  intros Hl Hx Hp Hv. pose proof (log_write l rows pad seq k x v Hl Hx Hp Hv) as H. unfold append.
  destruct (append_only pad l seq k v) as [l' ok]. destruct ok; simpl; [by apply log_commit|done].
Qed.

Lemma whole_entries_all es : Forall entry_ok es -> whole_entries (length (entries_bytes es)) es = es.
Proof.
  induction 1 as [|e es He Hes IH]; [done|]. cbn [whole_entries]. unfold entries_bytes in *. cbn [map concat]. rewrite length_app.
  destruct (Nat.leb_spec (length (entry_bytes e)) (length (entry_bytes e) + length (concat (map entry_bytes es)))); [|lia].
  f_equal. rewrite Nat.add_comm, Nat.add_sub. done.
Qed.

(** Reopening a log and replaying it. *)
Lemma log_replay l rows b : log_holds l rows -> exists recs, replay (open_log (Some (file_ l)) b) = recs /\
  journal recs [] = rows /\ Forall (fun r => exists x, loggable (rr_key r, x) /\ record_entry (rr_value r) = Some x) recs.
Proof.
  intros (_ & _ & es & Hf & Hes & Hc & Hj). exists (map fst es). split; [|split; [done|]].
  - rewrite Hf. rewrite <- (whole_entries_all es Hes) at 2. rewrite <- (replay_cut es _ b Hes). by rewrite take_ge by lia.
  - clear -Hc. induction Hc as [|en es (x & Hx & Hv) _ IH]; simpl; constructor; [|done]. exists x. split; [done|].
    by eapply record_entry_value.
Qed.

(** ** The segments of a running engine *)

(** Rows and generation of each segment, oldest first: segments of memtables that
    are already published, then the frozen memtables, then the active one. *)
Definition segments (stale : list (Snapshot * Z)) (e : Engine) : list (Snapshot * Z) :=
  stale ++ map (fun m => (mt_get_all_entries m.1, m.2)) (immutable_memtables_ e) ++
  [(mt_get_all_entries (memtable_ e), wal_generation_ e)].

Definition segment_ok (w : Z * Log) (r : Snapshot * Z) : Prop := w.1 = r.2 /\ 0 <= w.1 /\ log_holds w.2 r.1.

Record logged (stale : list (Snapshot * Z)) (e : Engine) : Prop := {
  lg_sorted : msorted (wals_ e);
  lg_segments : Forall2 segment_ok (wals_ e) (segments stale e)
}.

Lemma logged_active stale e : logged stale e -> exists pre l,
  wals_ e = pre ++ [(wal_generation_ e, l)] /\ 0 <= wal_generation_ e /\ log_holds l (mt_get_all_entries (memtable_ e)) /\
  Forall2 segment_ok pre (stale ++ map (fun m => (mt_get_all_entries m.1, m.2)) (immutable_memtables_ e)) /\
  Forall (fun w => kcmp w.1 (wal_generation_ e) = Lt) pre.
Proof.
  intros [Hs Hg]. unfold segments in Hg. rewrite app_assoc in Hg. apply Forall2_app_inv_r in Hg as (pre & last & Hp & Hl & E).
  apply Forall2_cons_inv_r in Hl as ([g l] & rest & (Eg & H0 & Hh) & Hr & ->). apply Forall2_nil_inv_r in Hr as ->. simpl in *. subst g.
  exists pre, l. split; [done|]. split; [done|]. split; [done|]. split; [done|]. rewrite E in Hs. apply msorted_app in Hs as (_ & _ & Hs).
  eapply Forall_impl; [exact Hs|]. intros w Hw. unfold above in Hw. apply Forall_cons in Hw as [Hw _]. exact Hw.
Qed.

Lemma logged_intro stale e pre l :
  wals_ e = pre ++ [(wal_generation_ e, l)] -> 0 <= wal_generation_ e -> log_holds l (mt_get_all_entries (memtable_ e)) ->
  Forall2 segment_ok pre (stale ++ map (fun m => (mt_get_all_entries m.1, m.2)) (immutable_memtables_ e)) ->
  msorted (wals_ e) -> logged stale e.
Proof.
  intros E Hg Hl Hp Hs. split; [done|]. unfold segments. rewrite app_assoc, E. apply Forall2_app; [done|]. by constructor.
Qed.

(** Replacing a log object by an equivalent one. *)
Lemma segments_mset ws rs g l l' : msorted ws -> Forall2 segment_ok ws rs -> mget g ws = Some l ->
  (forall rows, log_holds l rows -> log_holds l' rows) -> Forall2 segment_ok (mset g l' ws) rs.
Proof.
  intros Hs H Hm Hl. revert Hs Hm. induction H as [|[g1 l1] r ws rs (E & H0 & Hh) Hws IH]; intros Hs Hm; [done|].
  rewrite mget_cons in Hm. apply msorted_cons_inv in Hs as [Ha Hs]. cbn [fst snd] in *. cbn [mset]. destruct (keqb_spec g g1) as [->|Hne].
  - injection Hm as ->. rewrite kcmp_refl. constructor; [|done]. split; [done|]. split; [done|]. by apply Hl.
  - destruct (kcmp_spec g g1); [congruence| |].
    + by rewrite (mget_above_lt g1 g ws) in Hm.
    + constructor; [done|]. by apply IH.
Qed.

Lemma commit_logged stale e g : logged stale e -> logged stale (commit_wal e g).
Proof.
  intros [Hs Hg]. unfold commit_wal. destruct (mget g (wals_ e)) as [l|] eqn:E; [|done]. split; simpl; [auto with cyn|].
  eapply segments_mset; [done|exact Hg|done|apply log_commit].
Qed.

Section Writes.
Context (coin : Z -> nat) (padding : Z -> bytes) (fsync : bool).
Context (Hpad : forall seq, length (padding seq) = 4%nat).

Lemma append_logged stale e ik flips del a e1 :
  inv e -> logged stale e -> loggable (ik, {| attributes := a; is_deleted := del |}) ->
  append_to_wal padding e ik del a = Some e1 ->
  logged stale (with_memtable e1 (SL.insert (memtable_ e1) flips ik {| attributes := a; is_deleted := del |})).
Proof.
  intros He Hlg Hx. destruct (logged_active _ _ Hlg) as (pre & l & Ew & H0 & Hl & Hp & Hlt).
  unfold append_to_wal. rewrite Ew. rewrite <- (mset_replace (wal_generation_ e) l l pre []) at 1 by done. rewrite mget_mset_eq.
  destruct Hx as [Hr [Hd (v & Hv & Hvl)]]. simpl in Hv. rewrite Hv.
  destruct (append_only (padding (wal_seq_ e)) l (wal_seq_ e) ik v) as [l' ok] eqn:Ea. intros [= <-].
  assert (Hl' : log_holds l' (mset ik {| attributes := a; is_deleted := del |} (mt_get_all_entries (memtable_ e)))).
  { change l' with (l', ok).1. rewrite <- Ea. apply log_write; try done. split; [done|]. split; [done|]. by exists v. }
  destruct (mt_insert (memtable_ e) flips ik {| attributes := a; is_deleted := del |} (inv_mem _ He) (proj2 Hr) (inv_room _ He)) as [_ Hent].
  rewrite mset_replace by done.
  apply (logged_intro _ _ pre l'); simpl; try done.
  - by rewrite Hent.
  - rewrite <- (mset_replace (wal_generation_ e) l' l pre []) by done. rewrite <- Ew. apply msorted_mset, Hlg.
Qed.

Lemma rotate_logged stale e : logged stale e -> logged stale (rotate_memtable_if_needed fsync e).
Proof.
  intros Hlg. unfold rotate_memtable_if_needed. destruct (_ <? _); [done|].
  pose proof (commit_logged stale e (wal_generation_ e) Hlg) as Hc. destruct (commit_wal_spec e (wal_generation_ e)) as [ws Ew].
  rewrite Ew in *. destruct (logged_active _ _ Hc) as (pre & l & Es & H0 & Hl & Hp & Hlt). simpl in *.
  assert (Hall : Forall (fun w => kcmp (KeyOrder:=Z_key_order) w.1 (wal_generation_ e + 1) = Lt) ws).
  { rewrite Es. apply Forall_app. split; [|constructor; [|done]; change (wal_generation_ e < wal_generation_ e + 1); lia].
    eapply Forall_impl; [exact Hlt|]. intros w Hw. change (w.1 < wal_generation_ e) in Hw. change (w.1 < wal_generation_ e + 1). lia. }
  assert (Hnone : mget (wal_generation_ e + 1) ws = None).
  { destruct (mget (wal_generation_ e + 1) ws) as [x|] eqn:E; [|done]. apply mget_Some_In, list_elem_of_In in E.
    rewrite Forall_forall in Hall. apply Hall in E. simpl in E. by rewrite Z.compare_refl in E. }
  rewrite Hnone. change (option_map file_ None) with (@None bytes). rewrite mset_last by done.
  apply (logged_intro _ _ ws (open_log None fsync)); simpl; try done.
  - lia.
  - apply log_fresh.
  - rewrite Es, map_app, app_assoc. apply Forall2_app; [done|]. by constructor.
  - rewrite <- mset_last by done. apply msorted_mset, Hc.
Qed.

(** ** Client operations write what they apply *)

Definition value_fits (a : AttributeMap) : Prop := exists v, wal_value false a = Some v /\ len v < 2 ^ 32.

Lemma loggable_put ik a : codec_item_ok a = true -> SL.is_valid_user_key ik = true -> value_fits a ->
  loggable (ik, {| attributes := a; is_deleted := false |}).
Proof. intros Hok Hk Hv. by repeat split. Qed.

Lemma loggable_tombstone ik : SL.is_valid_user_key ik = true -> loggable (ik, {| attributes := []; is_deleted := true |}).
Proof. intros Hk. repeat split; try done. exists (lit "D"). by split. Qed.

Lemma put_logged stale e ik a e' w : inv e -> logged stale e -> codec_item_ok a = true -> SL.is_valid_user_key ik = true ->
  value_fits a -> put_locked coin padding fsync e ik a = Some (e', w) -> logged stale e'.
Proof.
  intros He Hlg Hok Hk Hv. unfold put_locked. destruct (append_to_wal padding e ik false a) as [e1|] eqn:E; [|done]. intros [= <- _].
  apply rotate_logged. eapply append_logged; [done|done| |exact E]. by apply loggable_put.
Qed.

Lemma remove_logged stale e ik e' w : inv e -> logged stale e -> SL.is_valid_user_key ik = true ->
  remove_locked coin padding fsync e ik = Some (e', w) -> logged stale e'.
Proof.
  intros He Hlg Hk. unfold remove_locked. destruct (append_to_wal padding e ik true []) as [e1|] eqn:E; [|done]. intros [= <- _].
  apply rotate_logged. eapply append_logged; [done|done| |exact E]. by apply loggable_tombstone.
Qed.

Lemma remove_keys_logged stale keys : forall e w e' w', inv e -> logged stale e -> Forall (fun k => SL.is_valid_user_key k = true) keys ->
  remove_keys coin padding fsync e keys w = Some (e', w') -> logged stale e'.
Proof.
  induction keys as [|k keys IH]; intros e w e' w' He Hlg Hk; cbn [remove_keys]; [by intros [= <- _]|].
  apply Forall_cons in Hk as [Hk Hks]. destruct (remove_locked_spec coin padding fsync e k He Hk) as (e1 & w1 & E & He1 & _). rewrite E.
  intros H. eapply IH; [exact He1| |exact Hks|exact H]. exact (remove_logged stale e k e1 w1 He Hlg Hk E).
Qed.

Lemma covered_valid e p cursor : inv e -> Forall (fun r => SL.is_valid_user_key r.1 = true) (covered e p cursor).
Proof.
  intros He. apply Forall_forall. intros [k v] Hx%list_elem_of_In. simpl. apply filter_In in Hx as [Hx _].
  apply mget_In in Hx; [|apply holds_sorted]. by eapply holds_valid.
Qed.

Lemma drop_loop_logged stale p fuel : forall e cursor e', inv e -> logged stale e -> start_ok cursor (Some p) ->
  drop_loop coin padding fsync fuel e p cursor = Some e' -> logged stale e'.
Proof.
  induction fuel as [|fuel IH]; intros e cursor e' He Hlg Hst; cbn [drop_loop]; [done|].
  destruct (reader_of_spec e p cursor true He Hst) as (r & -> & Hr). change (reading r (covered e p cursor)) in Hr.
  rewrite (collect_keys_spec _ r _ Hr). set (n := Z.to_nat memtable_flush_threshold_). set (batch := map fst (take n (covered e p cursor))).
  destruct (last batch) as [key|] eqn:El; [|apply last_None in El; rewrite El; by intros [= <-]].
  assert (Hvalid : Forall (fun k => SL.is_valid_user_key k = true) batch).
  { apply Forall_map. eapply Forall_take, covered_valid, He. }
  destruct (remove_keys_spec coin padding fsync batch e None He Hvalid) as (e1 & w & E1 & He1 & Hh1).
  set (e2 := match w with Some w => commit_wal e1 w | None => e1 end).
  assert (He2 : inv e2 /\ holds e2 = holds e1) by (unfold e2; destruct w; [by apply commit_wal_inv|done]).
  destruct He2 as [He2 Hh2]. rewrite <- Hh2 in Hh1. destruct (drop_round e p cursor n key e2 El Hh1) as (_ & Hst' & _).
  destruct batch as [|b bs] eqn:Eb; [done|]. rewrite E1. fold e2. intros H.
  apply (IH e2 (Some key) e'); [done| |done|exact H]. assert (Hlg1 : logged stale e1) by exact (remove_keys_logged stale _ e None e1 w He Hlg Hvalid E1).
  unfold e2. destruct w; [by apply commit_logged|done].
Qed.

(** What a put stores fits a log record. *)
Definition op_fits (op : EngineOp) : Prop :=
  match op with
  | OpPut _ _ a => value_fits a
  | OpMutate _ _ m => forall c a, m c = MutationPut a -> value_fits a
  | _ => True
  end.



Lemma client_logged stale e op : inv e -> logged stale e -> event_ok coin padding fsync (Client op) -> op_fits op -> logged stale (client_step coin padding fsync e op).
Proof.
  intros He Hlg Hop Hf. destruct op as [t k a|t k|t k m|t]; unfold client_step, run_op; cbn [se_put se_remove se_mutate se_drop_table lsm_engine].
  - unfold put. destruct Hop as [Hn Hok]. destruct (put_locked _ _ _ _ _ _) as [[e' w]|] eqn:E; [|done]. simpl.
    apply commit_logged. eapply put_logged; [done|done|done|exact (names_valid _ _ Hn)|done|exact E].
  - unfold remove. destruct (remove_locked _ _ _ _ _) as [[e' w]|] eqn:E; [|done]. simpl.
    apply commit_logged. eapply remove_logged; [done|done|exact (names_valid _ _ Hop)|exact E].
  - destruct Hop as [Hn Hadm]. unfold mutate. destruct (get_locked _ _) as [c|]; [|done]. destruct (m c) as [|a|] eqn:Em; [done| |].
    + destruct (put_locked _ _ _ _ _ _) as [[e' w]|] eqn:E; [|done]. simpl. apply commit_logged.
      eapply put_logged; [done|done|apply (Hadm c a Em)|exact (names_valid _ _ Hn)|by apply (Hf c)|exact E].
    + destruct (remove_locked _ _ _ _ _) as [[e' w]|] eqn:E; [|done]. simpl. apply commit_logged.
      eapply remove_logged; [done|done|exact (names_valid _ _ Hn)|exact E].
  - unfold drop_table. destruct (reader_of _ _ _ _) as [r|] eqn:Er; [|done].
    destruct (drop_loop _ _ _ _ _ _ _) as [e'|] eqn:E; [|done]. simpl. eapply drop_loop_logged; [exact He|exact Hlg| |exact E]. done.
Qed.

End Writes.

(** ** Finding the segments again *)

Lemma extension_log s : s <> [] -> head s <> Some Byte.x2e -> extension (s ++ lit ".log") = lit ".log".
Proof.
  intros Hne Hd. unfold extension. destruct (bytes_eqb_spec (s ++ lit ".log") (lit "..")) as [E|_].
  { apply (f_equal (@length byte)) in E. rewrite length_app in E. simpl in E. lia. }
  rewrite rev_app_distr. cbn. destruct (rev s) as [|c r] eqn:E; [|done]. apply (f_equal (@rev byte)) in E. rewrite rev_involutive in E. done.
Qed.

Lemma segment_generation_name g : 0 <= g < 2 ^ 64 -> segment_generation (wal_name g) = Some g.
Proof.
  intros Hg. unfold segment_generation, wal_name. rewrite starts_with_app. rewrite app_assoc, extension_log; [|by destruct (dec_of_nonneg g)|done].
  rewrite !length_app. change (length (lit "wal_")) with 4%nat. change (length (lit ".log")) with 4%nat.
  rewrite <- app_assoc. change (drop 4 (lit "wal_" ++ ?s)) with s.
  rewrite take_app_length' by lia. cbn. by apply stoul_dec.
Qed.

Lemma wal_name_inj g h : 0 <= g -> 0 <= h -> wal_name g = wal_name h -> g = h.
Proof. intros Hg Hh E. unfold wal_name in E. apply app_inv_head in E. by apply dec_inj in E. Qed.

Definition log_files (ws : list (Z * Log)) : list (bytes * bytes) := map (fun w => (wal_name w.1, file_ w.2)) ws.

Lemma mget_log_files ws g : Forall (fun w => 0 <= w.1) ws -> 0 <= g ->
  mget (wal_name g) (log_files ws) = option_map file_ (mget g ws).
Proof.
  intros Hws Hg. induction Hws as [|[h l] ws Hh _ IH]; [done|]. cbn [log_files map fst snd]. rewrite !mget_cons. fold (log_files ws).
  rewrite IH. destruct (keqb_spec (wal_name g) (wal_name h)) as [E|Hne], (keqb_spec g h) as [->|Hn]; try done.
  exfalso. apply Hn. by apply wal_name_inj.
Qed.

#[local] Instance segment_le_total : Total segment_le.
Proof.
  intros [g a] [h b]. unfold segment_le. simpl. destruct (Z.lt_total g h) as [?|[->|?]]; [auto| |auto].
  destruct (kcmp_spec (KO:=bytes_key_order) a b) as [->|Hlt|Hlt]; [left|left|right]; right; (split; [done|]).
  - intros E. by rewrite (kcmp_refl (KO:=bytes_key_order)) in E.
  - intros E. change (bytes_cmp a b = Lt) in Hlt. congruence.
  - intros E. change (bytes_cmp b a = Lt) in Hlt. congruence.
Qed.

(** Sorting by a key in which the elements are distinct. *)
Lemma merge_sort_strict {A} (R : relation A) `{!forall x y, Decision (R x y), !Total R} (f : A -> Z) :
  (forall x y, R x y -> f x <= f y) -> forall l l0, StronglySorted (fun a b => f a < f b) l -> l0 ≡ₚ l -> merge_sort R l0 = l.
Proof.
  intros Hf l l0 Hs Hp.
  assert (Hu : forall l', StronglySorted (fun a b => f a < f b) l -> Sorted R l' -> l' ≡ₚ l -> l' = l).
  { clear Hs Hp l0. induction l as [|x l IH]; intros l' Hl Hs Hp; [by apply Permutation_nil_r in Hp|]. inversion Hl as [|? ? Hl1 Hx]; subst.
    assert (Hx' : x ∈ l') by (rewrite Hp; by left). destruct l' as [|y l']; [by apply not_elem_of_nil in Hx'|].
    assert (x = y) as <-.
    { assert (Hy : y ∈ x :: l) by (rewrite <- Hp; by left). apply elem_of_cons in Hy as [->|Hy]; [done|].
      rewrite Forall_forall in Hx. pose proof (Hx y Hy) as Hxy. apply elem_of_cons in Hx' as [->|Hx']; [done|]. exfalso.
      assert (Hge : Forall (fun z => f y <= f z) l'); [|rewrite Forall_forall in Hge; specialize (Hge x Hx'); lia].
      clear -Hs Hf. revert y Hs. induction l' as [|z l' IHl]; intros y Hs; [constructor|]. inversion Hs as [|? ? Hs1 Hh]; subst. inversion Hh as [|? ? Hyz]; subst.
      apply Hf in Hyz. constructor; [done|]. eapply Forall_impl; [by apply IHl|]. simpl. lia. }
    f_equal. apply Permutation_cons_inv in Hp. apply IH; [done|by inversion Hs|done]. }
  apply Hu; [done|by apply Sorted_merge_sort|by rewrite merge_sort_Permutation].
Qed.

Lemma log_segments_files ws : msorted ws -> Forall (fun w => 0 <= w.1 < 2 ^ 64) ws ->
  log_segments (log_files ws) = map (fun w => (w.1, wal_name w.1)) ws.
Proof.
  intros Hs Hr. unfold log_segments.
  assert (E : omap (fun f => option_map (fun g => (g, f.1)) (segment_generation f.1)) (log_files ws) = map (fun w => (w.1, wal_name w.1)) ws).
  { clear Hs. induction Hr as [|w ws Hw _ IH]; [done|]. cbn [log_files map]. fold (log_files ws). simpl. rewrite segment_generation_name by done.
    simpl. f_equal. exact IH. }
  rewrite E. apply (merge_sort_strict segment_le fst); [by intros [g a] [h b] [?|[? _]]; simpl in *; lia| |done]. clear -Hs. induction Hs as [|k v m Ha Hm IH]; [constructor|]. cbn [map]. constructor; [exact IH|].
  unfold above in Ha. apply Forall_map. eapply Forall_impl; [exact Ha|]. intros w Hw. simpl in *. by apply Z.compare_lt_iff.
Qed.

(** ** Replaying into the memtable *)

Lemma len_mset_ge {V} (k : bytes) (v : V) m : len m <= len (mset k v m).
Proof. induction m as [|[k1 v1] m IH]; [unfold len; simpl; lia|]. cbn [mset]. destruct (kcmp k k1); rewrite ?len_cons; lia. Qed.

Lemma len_journal recs : forall rows, len rows <= len (journal recs rows).
Proof.
  induction recs as [|r recs IH]; intros rows; [done|]. rewrite journal_cons. etransitivity; [|apply IH].
  destruct (record_entry _); [apply len_mset_ge|done].
Qed.

Definition replayable (r : ReplayRecord) : Prop := exists x, loggable (rr_key r, x) /\ record_entry (rr_value r) = Some x.

(** The rows all logs amount to. *)
Definition recovered_rows (ws : list (Z * Log)) (rows : Snapshot) : Snapshot :=
  fold_left (fun rows w => journal (replay w.2) rows) ws rows.

Lemma recovered_cons w ws rows : recovered_rows (w :: ws) rows = recovered_rows ws (journal (replay w.2) rows).
Proof. done. Qed.

Lemma len_recovered ws : forall rows, len rows <= len (recovered_rows ws rows).
Proof.
  induction ws as [|w ws IH]; intros rows; [done|]. rewrite recovered_cons. etransitivity; [|apply IH]. apply len_journal.
Qed.

Lemma mget_recovered ws rs : Forall2 segment_ok ws rs -> forall rows k,
  mget k (recovered_rows ws rows) = match first_some (map (mget k) (rev (map fst rs))) with Some x => Some x | None => mget k rows end.
Proof.
  induction 1 as [|w [r g] ws rs (_ & _ & Hl) Hws IH]; intros rows k; [done|]. rewrite recovered_cons. rewrite IH. cbn [map rev fst]. rewrite map_app, first_some_app. destruct (first_some (map (mget k) (rev (map fst rs)))); [done|].
  cbn [map first_some]. rewrite mget_journal. destruct (log_replay _ _ (fsync_each_ w.2) Hl) as (recs & E & Hj & _).
  assert (Er : replay w.2 = recs).
  { rewrite <- E. destruct Hl as (Ho & Hg & es & Hf & _). unfold replay, open_log. cbn [is_open good file_]. rewrite Ho, Hg, Hf, verify_header_ok.
    rewrite length_app. done. }
  rewrite Er, Hj. cbn [fst]. by destruct (mget k r).
Qed.

Lemma recovered_sorted ws : forall rows, msorted rows -> msorted (recovered_rows ws rows).
Proof.
  induction ws as [|w ws IH]; intros rows Hs; [done|]. rewrite recovered_cons. apply IH. by apply journal_sorted.
Qed.

Lemma replay_loggable l rows : log_holds l rows -> Forall replayable (replay l) /\
  forall b, replay (open_log (Some (file_ l)) b) = replay l.
Proof.
  intros Hl. assert (Er : forall b, replay (open_log (Some (file_ l)) b) = replay l).
  { intros b. destruct Hl as (Ho & Hg & es & Hf & _). unfold replay, open_log. cbn [is_open good file_]. rewrite Ho, Hg, Hf, verify_header_ok.
    by rewrite length_app. }
  split; [|done]. destruct (log_replay _ _ true Hl) as (recs & E & _ & H). by rewrite <- (Er true), E.
Qed.

Lemma journal_loggable recs : forall rows, Forall replayable recs -> Forall loggable rows -> Forall loggable (journal recs rows).
Proof.
  induction recs as [|r recs IH]; intros rows Hr Hrows; [done|]. apply Forall_cons in Hr as [(x & Hx & E) Hr]. rewrite journal_cons. apply IH; [done|]. rewrite E. by apply Forall_mset_rows.
Qed.

Lemma recovered_loggable ws rs : Forall2 segment_ok ws rs -> forall rows, Forall loggable rows -> Forall loggable (recovered_rows ws rows).
Proof.
  induction 1 as [|w r ws rs (_ & _ & Hl) Hws IH]; intros rows Hr; [done|]. rewrite recovered_cons. apply IH, journal_loggable; [|done]. by apply (replay_loggable _ _ Hl).
Qed.

Section Replay.
Context (replay_coin : Z -> nat) (padding : Z -> bytes) (fsync : bool).
Context (Hpad : forall seq, length (padding seq) = 4%nat).

Lemma replay_records_spec recs : forall m n, SL.wf m -> Forall replayable recs ->
  len (journal recs (mt_get_all_entries m)) < kMaxSkiplistEntries ->
  SL.wf (fold_left (replay_record replay_coin) recs (m, n)).1 /\
  mt_get_all_entries (fold_left (replay_record replay_coin) recs (m, n)).1 = journal recs (mt_get_all_entries m).
Proof.
  induction recs as [|r recs IH]; intros m n Hm Hr Hlen; [done|]. apply Forall_cons in Hr as [(x & Hx & E) Hr].
  rewrite journal_cons, E in Hlen |- *. cbn [fold_left]. unfold replay_record at 2 4. rewrite E. cbn [fst snd].
  pose proof (len_journal recs (mset (rr_key r) x (mt_get_all_entries m))). pose proof (len_mset_ge (rr_key r) x (mt_get_all_entries m)).
  destruct (mt_insert m (replay_coin n) (rr_key r) x Hm (loggable_key _ _ Hx)) as [Hw He]; [lia|].
  rewrite <- He. apply IH; [done|done|]. by rewrite He.
Qed.

Lemma replay_segments_spec logs ws rs : Forall2 segment_ok ws rs -> forall m n, SL.wf m ->
  Forall (fun w => mget (wal_name w.1) logs = Some (file_ w.2)) ws ->
  len (recovered_rows ws (mt_get_all_entries m)) < kMaxSkiplistEntries ->
  let st := fold_left (replay_segment replay_coin fsync logs) (map (fun w => (w.1, wal_name w.1)) ws) (m, n) in
  SL.wf st.1 /\ mt_get_all_entries st.1 = recovered_rows ws (mt_get_all_entries m).
Proof.
  induction 1 as [|w r ws rs (_ & _ & Hl) Hws IH]; intros m n Hm Hlogs Hlen; [done|]. apply Forall_cons in Hlogs as [Hlog Hlogs].
  rewrite recovered_cons in Hlen |- *. cbn [map fold_left]. unfold replay_segment at 2 4. cbn [snd]. rewrite Hlog.
  destruct (replay_loggable _ _ Hl) as [Hr Er]. rewrite Er. pose proof (len_recovered ws (journal (replay w.2) (mt_get_all_entries m))).
  destruct (replay_records_spec (replay w.2) m n Hm Hr) as [Hw He]; [lia|].
  destruct (fold_left (replay_record replay_coin) (replay w.2) (m, n)) as [m' n']. cbn [fst] in *. rewrite <- He. apply IH; [done|done|].
  by rewrite He.
Qed.

Lemma checkpoint_spec es : forall wal seq rows, log_holds wal rows -> Forall loggable es -> msorted (rows ++ es) ->
  exists wal' seq', checkpoint padding wal seq es = Some (wal', seq') /\ log_holds wal' (rows ++ es).
Proof.
  induction es as [|[k x] es IH]; intros wal seq rows Hl Hes Hs; cbn [checkpoint].
  - exists wal, seq. by rewrite app_nil_r.
  - apply Forall_cons in Hes as [Hx Hes]. pose proof Hx as (_ & _ & v & Hv & _). cbn [snd] in Hv. rewrite Hv.
    pose proof (log_append _ _ (padding seq) seq k x v Hl Hx (Hpad seq) Hv) as Hl'.
    assert (Hlast : mset k x rows = rows ++ [(k, x)]).
    { apply mset_last. apply msorted_app in Hs as (_ & _ & Hs). eapply Forall_impl; [exact Hs|]. intros e He. unfold above in He.
      by apply Forall_cons in He as [He _]. }
    rewrite Hlast in Hl'. rewrite cons_middle, app_assoc in Hs |- *. by apply (IH _ (seq + 1)).
Qed.

Lemma max_generation (ws : list (Z * Log)) : forall m, m <= fold_left (fun m s => Z.max m s.1) (map (fun w => (w.1, wal_name w.1)) ws) m /\
  Forall (fun w => w.1 <= fold_left (fun m s => Z.max m s.1) (map (fun w => (w.1, wal_name w.1)) ws) m) ws.
Proof.
  induction ws as [|w ws IH]; intros m; cbn [map fold_left fst]; [split; [lia|constructor]|]. destruct (IH (Z.max m w.1)) as [H1 H2]. split; [lia|].
  constructor; [lia|done].
Qed.

(** What the constructor makes of the logs of an engine. *)
Lemma recover_from_wal_spec stale e : logged stale e -> Forall (fun w => w.1 < 2 ^ 64) (wals_ e) ->
  len (recovered_rows (wals_ e) []) < kMaxSkiplistEntries ->
  exists m g wal seq, recover_from_wal replay_coin padding fsync (log_files (wals_ e)) = Some (m, g, wal, seq) /\ 0 <= g /\
    SL.wf m /\ mt_get_all_entries m = recovered_rows (wals_ e) [] /\ log_holds wal (recovered_rows (wals_ e) []).
Proof.
  intros [Hs Hg] Hlt Hlen. assert (H0 : Forall (fun w => 0 <= w.1) (wals_ e)) by (clear -Hg; induction Hg as [|w r ws rs (_ & ? & _)]; constructor; auto).
  unfold recover_from_wal. rewrite log_segments_files; [|done|].
  2:{ apply Forall_forall. intros w Hw. rewrite Forall_forall in H0, Hlt. specialize (H0 w Hw). specialize (Hlt w Hw). lia. }
  destruct (replay_segments_spec (log_files (wals_ e)) (wals_ e) _ Hg mt_empty 0) as [Hm He].
  { exists []. apply SL.empty_wf. }
  { apply Forall_forall. intros [h l] Hw. simpl. rewrite Forall_forall in H0. rewrite mget_log_files; [|by apply Forall_forall|by apply (H0 (h, l))].
    apply list_elem_of_In, mget_In in Hw; [|done]. by rewrite Hw. }
  { exact Hlen. }
  set (m := (fold_left _ _ _).1) in *. change (mt_get_all_entries mt_empty) with (@nil (bytes * SnapshotEntry)) in He.
  set (g := match map _ _ with [] => 0 | _ => _ end).
  assert (Hgen : 0 <= g /\ Forall (fun w => w.1 < g) (wals_ e)).
  { unfold g. clear. destruct (wals_ e) as [|w ws]; [done|]. destruct (max_generation (w :: ws) 0) as [H1 H2]. cbn [map] in *.
    split; [lia|]. eapply Forall_impl; [exact H2|]. intros x Hx. cbn beta in *. lia. }
  destruct Hgen as [Hg0 Hg1].
  assert (Hfresh : mget (wal_name g) (log_files (wals_ e)) = None).
  { rewrite mget_log_files by done. destruct (mget g (wals_ e)) as [l|] eqn:E; [|done]. apply mget_Some_In, list_elem_of_In in E.
    rewrite Forall_forall in Hg1. specialize (Hg1 _ E). simpl in Hg1. lia. }
  rewrite Hfresh, He. pose proof (recovered_sorted (wals_ e) [] msorted_nil) as Hrs.
  destruct (checkpoint_spec (recovered_rows (wals_ e) []) (open_log None fsync) 0 []) as (wal & seq & -> & Hwal);
    [apply log_fresh|by eapply recovered_loggable; [exact Hg|constructor]|done|].
  exists m, g, (sync wal).1, seq. split; [done|]. split; [done|]. split; [done|]. split; [done|]. by apply log_commit.
Qed.
End Replay.

End LsmRecovery.
