(* ===== verification/LsmDurability.v ===== *)
(** * The LSM engine: durability

    What a crash or a shutdown leaves on disk is enough to continue: the invariant
    [dinv] ties the log segments to the memtables, the saved manifest to the list
    of SSTables and the SSTable files to the open tables; every step of the
    engine and of its two threads keeps it, and [LsmRecovery.reopen] restores the
    contents from it. *)

From Stdlib Require Import ZArith Lia Strings.String Sorting.Sorted.
From stdpp Require Import prelude sorting.
From S2P Require Import Prelude StdMap Ranges Types CLib Storage RecordCodec Wal Skiplist SSTable Manifest MergedReader LsmEngine LsmBackground LsmRecovery.
Import Lsm LsmSystem LsmRecovery.

Module LsmDurability.

(** ** The files of a manifest *)

Abbreviation Meta := Manifest.SSTableMetadata.
Abbreviation seqno := Manifest.sequence_number.

Definition all_metas (m : Manifest.t) : list Meta := concat (map snd (Manifest.levels_ m)).

Record catalog_wf (m : Manifest.t) : Prop := {
  cw_sorted : msorted (Manifest.levels_ m);
  cw_levels : Forall (fun e => 0 <= e.1 < 16 /\ Forall (fun meta => Manifest.level meta = e.1) e.2) (Manifest.levels_ m);
  cw_seqs : Forall (fun meta => 0 <= seqno meta < Manifest.next_sequence_ m) (all_metas m);
  cw_next : 0 <= Manifest.next_sequence_ m
}.

(** The manifest lists exactly these tables, and by falling sequence number in
    this order. *)
Definition matches (m : Manifest.t) (ts : list SST.SSTable) : Prop :=
  exists ms, all_metas m ≡ₚ ms /\ StronglySorted (fun a b => b < a) (map seqno ms) /\
    map Manifest.path ms = map SST.path_ ts.

Definition catalog (m : Manifest.t) (ts : list SST.SSTable) : Prop := catalog_wf m /\ matches m ts.

Lemma concat_mset (ls : list (Z * list Meta)) l fs : msorted ls ->
  concat (map snd (mset l fs ls)) ++ Manifest.level_files ls l ≡ₚ concat (map snd ls) ++ fs.
Proof.
  unfold Manifest.level_files. induction 1 as [|k v m Ha Hm IH]; [simpl; by rewrite !app_nil_r|]. rewrite mget_cons. cbn [mset].
  destruct (kcmp_spec l k) as [->|Hlt|Hgt].
  - rewrite keqb_refl. cbn [map concat snd]. rewrite <- !app_assoc. rewrite (Permutation_app_comm fs), <- app_assoc.
    rewrite (Permutation_app_comm (concat (map snd m)) (v ++ fs)), <- app_assoc. apply Permutation_app_head.
    apply Permutation_app_comm.
  - destruct (keqb_spec l k) as [->|]; [by apply kcmp_Lt_irrefl in Hlt|]. rewrite (mget_above_lt k l m Ha Hlt). cbn [map concat snd].
    rewrite app_nil_r. rewrite Permutation_app_comm. done.
  - destruct (keqb_spec l k) as [->|]; [by apply kcmp_Lt_irrefl in Hgt|]. cbn [map concat snd]. rewrite <- !app_assoc, IH. done.
Qed.

Lemma perm_cancel_add {A} (X Y fs : list A) x : X ++ fs ≡ₚ Y ++ fs ++ [x] -> X ≡ₚ x :: Y.
Proof.
  intros H. rewrite (Permutation_app_comm fs [x]), app_assoc in H. apply Permutation_app_inv_r in H. rewrite H.
  symmetry. apply Permutation_cons_append.
Qed.

Lemma perm_cancel_filter {A} (X Y fs g h : list A) : X ++ fs ≡ₚ Y ++ g -> g ++ h ≡ₚ fs -> X ++ h ≡ₚ Y.
Proof.
  intros H E. rewrite <- E, (Permutation_app_comm g h), app_assoc in H. by apply Permutation_app_inv_r in H.
Qed.

Lemma all_metas_add m l meta : catalog_wf m -> all_metas (Manifest.add_file m l meta) ≡ₚ meta :: all_metas m.
Proof. intros Hw. eapply perm_cancel_add, (concat_mset (Manifest.levels_ m) l), (cw_sorted _ Hw). Qed.

Lemma filter_split {A} (f : A -> bool) l : List.filter f l ++ List.filter (fun x => negb (f x)) l ≡ₚ l.
Proof.
  induction l as [|x l IH]; [done|]. cbn [List.filter]. destruct (f x); cbn [negb app]; [by rewrite IH|].
  by rewrite <- Permutation_middle, IH.
Qed.

Definition other_path (p : bytes) (meta : Meta) : bool := negb (bytes_eqb (Manifest.path meta) p).

Lemma all_metas_remove m l p : catalog_wf m ->
  all_metas (Manifest.remove_file m l p) ++ List.filter (fun x => negb (other_path p x)) (Manifest.get_level_files m l) ≡ₚ all_metas m.
Proof.
  intros Hw. eapply perm_cancel_filter; [apply (concat_mset (Manifest.levels_ m) l), (cw_sorted _ Hw)|apply filter_split].
Qed.

Lemma level_files_in m l meta : meta ∈ Manifest.get_level_files m l -> meta ∈ all_metas m.
Proof.
  unfold Manifest.get_level_files, Manifest.level_files. destruct (mget l (Manifest.levels_ m)) as [fs|] eqn:E; [|by intros ?%not_elem_of_nil].
  intros H. apply mget_Some_In in E. unfold all_metas. apply list_elem_of_In, in_concat. exists fs. split; [by apply (in_map snd) in E|by apply list_elem_of_In].
Qed.

Lemma in_level_files m meta : catalog_wf m -> meta ∈ all_metas m ->
  meta ∈ Manifest.get_level_files m (Manifest.level meta) /\ 0 <= Manifest.level meta < 16.
Proof.
  intros Hw H. unfold all_metas in H. apply list_elem_of_In, in_concat in H as (fs & Hfs & Hin). apply in_map_iff in Hfs as ([l fs'] & <- & He).
  pose proof (cw_levels _ Hw) as Hl. rewrite Forall_forall in Hl. destruct (Hl (l, fs')) as [Hr Hm]; [by apply list_elem_of_In|]. simpl in *.
  rewrite Forall_forall in Hm. rewrite (Hm meta) by by apply list_elem_of_In. split; [|done].
  unfold Manifest.get_level_files, Manifest.level_files. apply mget_In in He; [|apply Hw]. rewrite He. by apply list_elem_of_In.
Qed.

(** ** Editing a manifest *)

Lemma level_files_levels m l meta : catalog_wf m -> meta ∈ Manifest.level_files (Manifest.levels_ m) l -> Manifest.level meta = l.
Proof.
  intros Hw. unfold Manifest.level_files. destruct (mget l (Manifest.levels_ m)) as [fs|] eqn:E; [|by intros ?%not_elem_of_nil].
  apply mget_Some_In, list_elem_of_In in E. pose proof (cw_levels _ Hw) as Hl. rewrite Forall_forall in Hl. destruct (Hl _ E) as [_ H].
  rewrite Forall_forall in H. apply H.
Qed.

Lemma catalog_wf_add m l meta : catalog_wf m -> 0 <= l < 16 -> Manifest.level meta = l ->
  0 <= seqno meta < Manifest.next_sequence_ m -> catalog_wf (Manifest.add_file m l meta).
Proof.
  intros Hw Hl Hm Hs. pose proof (all_metas_add m l meta Hw) as Hp. pose proof Hw as [H1 H2 H3 H4]. split; simpl; auto with cyn.
  - apply Forall_mset_rows; [|done]. simpl. split; [done|]. apply Forall_app. split; [|by constructor].
    apply Forall_forall. intros x Hx. by apply (level_files_levels m).
  - rewrite Hp. by constructor.
Qed.

Lemma catalog_wf_remove m l p : catalog_wf m -> 0 <= l < 16 -> catalog_wf (Manifest.remove_file m l p).
Proof.
  intros Hw Hl. pose proof (all_metas_remove m l p Hw) as Hp. pose proof Hw as [H1 H2 H3 H4]. split; simpl; auto with cyn.
  - apply Forall_mset_rows; [|done]. simpl. split; [done|].
    apply Forall_forall. intros x Hx%list_elem_of_In%filter_In. apply (level_files_levels m); [done|]. apply list_elem_of_In. tauto.
  - rewrite <- Hp in H3. by apply Forall_app in H3 as [? _].
Qed.

Lemma catalog_wf_next m n : catalog_wf m -> Manifest.next_sequence_ m <= n -> catalog_wf (Manifest.set_next_sequence m n).
Proof. intros [H1 H2 H3 H4] Hn. split; simpl; auto; [|lia]. eapply Forall_impl; [exact H3|]. simpl. lia. Qed.

(** Removing the one file with a path. *)
Lemma remove_listed m meta : catalog_wf m -> NoDup (map Manifest.path (all_metas m)) -> meta ∈ all_metas m ->
  all_metas (Manifest.remove_file m (Manifest.level meta) (Manifest.path meta)) ++ [meta] ≡ₚ all_metas m.
Proof.
  intros Hw Hnd Hin. etransitivity; [|apply (all_metas_remove m (Manifest.level meta) (Manifest.path meta) Hw)]. apply Permutation_app_head.
  destruct (in_level_files m meta Hw Hin) as [Hl _]. set (fs := Manifest.get_level_files m (Manifest.level meta)) in *.
  assert (Hsub : NoDup (map Manifest.path fs)).
  { unfold fs, Manifest.get_level_files, Manifest.level_files. destruct (mget (Manifest.level meta) (Manifest.levels_ m)) as [x|] eqn:E; [|constructor].
    apply mget_Some_In, in_split in E as (l1 & l2 & E). unfold all_metas in Hnd. rewrite E, map_app, concat_app in Hnd. cbn [map concat snd] in Hnd.
    rewrite !map_app in Hnd. apply NoDup_app in Hnd as (_ & _ & Hnd). by apply NoDup_app in Hnd as (Hnd & _). }
  clear -Hl Hsub. induction fs as [|x fs IH]; [by apply not_elem_of_nil in Hl|]. cbn [List.filter map] in *. apply NoDup_cons in Hsub as [Hx Hsub].
  unfold other_path at 1. apply elem_of_cons in Hl as [<-|Hl].
  - destruct (bytes_eqb_spec (Manifest.path meta) (Manifest.path meta)); [|done]. simpl.
    assert (E : List.filter (fun x => negb (other_path (Manifest.path meta) x)) fs = []); [|by rewrite E].
    clear -Hx. induction fs as [|y fs IH]; [done|]. cbn [List.filter map] in *. unfold other_path at 1.
    destruct (bytes_eqb_spec (Manifest.path y) (Manifest.path meta)) as [E|]; simpl; [exfalso; apply Hx; rewrite E; by left|].
    apply IH. intros H. apply Hx. by right.
  - destruct (bytes_eqb_spec (Manifest.path x) (Manifest.path meta)) as [E|]; simpl; [|by apply IH].
    exfalso. apply Hx. rewrite E. apply list_elem_of_In, in_map. by apply list_elem_of_In.
Qed.

(** Removing a path that is not listed. *)
Lemma remove_unlisted m l p : catalog_wf m -> p ∉ map Manifest.path (all_metas m) -> all_metas (Manifest.remove_file m l p) ≡ₚ all_metas m.
Proof.
  intros Hw Hp. etransitivity; [|apply (all_metas_remove m l p Hw)].
  assert (E : List.filter (fun x => negb (other_path p x)) (Manifest.get_level_files m l) = []); [|by rewrite E, app_nil_r].
  destruct (List.filter _ _) as [|x r] eqn:E; [done|]. exfalso. assert (Hx : In x (x :: r)) by by left. rewrite <- E in Hx. apply filter_In in Hx as [Hx Hq].
  unfold other_path in Hq. destruct (bytes_eqb_spec (Manifest.path x) p) as [<-|]; [|done]. apply Hp, list_elem_of_In, in_map, list_elem_of_In.
  eapply level_files_in. by apply list_elem_of_In.
Qed.

Lemma remove_keeps m l p l' meta : Manifest.path meta <> p -> meta ∈ Manifest.get_level_files m l' ->
  meta ∈ Manifest.get_level_files (Manifest.remove_file m l p) l'.
Proof.
  intros Hne H. unfold Manifest.get_level_files, Manifest.remove_file, Manifest.level_files in *. cbn [Manifest.levels_]. rewrite mget_mset.
  destruct (keqb_spec l' l) as [->|]; [|done]. apply list_elem_of_In, filter_In. split; [by apply list_elem_of_In|].
  by destruct (bytes_eqb_spec (Manifest.path meta) p).
Qed.

Lemma add_keeps m l x l' meta : meta ∈ Manifest.get_level_files m l' -> meta ∈ Manifest.get_level_files (Manifest.add_file m l x) l'.
Proof.
  intros H. unfold Manifest.get_level_files, Manifest.add_file, Manifest.level_files in *. cbn [Manifest.levels_]. rewrite mget_mset.
  destruct (keqb_spec l' l) as [->|]; [|done]. apply elem_of_app. by left.
Qed.

(** ** Listing and indexing the files *)

Lemma level_range n : forall lo (ls : list (Z * list Meta)), msorted ls ->
  Forall (fun e => Z.of_nat lo <= e.1 < Z.of_nat (lo + n)) ls ->
  concat (map (fun l => Manifest.level_files ls (Z.of_nat l)) (seq lo n)) = concat (map snd ls).
Proof.
  induction n as [|n IH]; intros lo ls Hs Hr.
  - destruct Hr as [|e ls He _]; [done|lia].
  - cbn [seq map concat]. inversion Hs as [|k fs m Ha Hm]; subst.
    + rewrite (IH (S lo) []) by constructor. done.
    + apply Forall_cons in Hr as [Hk Hr]. cbn [fst] in Hk. unfold Manifest.level_files at 1. rewrite mget_cons.
      unfold above in Ha. destruct (keqb_spec (Z.of_nat lo) k) as [<-|Hne].
      * cbn [map concat snd]. f_equal. rewrite <- (IH (S lo) m Hm).
        -- f_equal. apply map_ext_in. intros l Hl%in_seq. unfold Manifest.level_files. rewrite mget_cons.
           destruct (keqb_spec (Z.of_nat l) (Z.of_nat lo)); [lia|done].
        -- apply Forall_forall. intros e He. rewrite Forall_forall in Ha, Hr. specialize (Ha e He). specialize (Hr e He).
           change (Z.of_nat lo < e.1) in Ha. lia.
      * rewrite (mget_above_lt k (Z.of_nat lo) m Ha) by (change (Z.of_nat lo < k); lia). cbn [app]. apply IH; [done|].
        constructor; [simpl; lia|]. apply Forall_forall. intros e He. rewrite Forall_forall in Ha, Hr. specialize (Ha e He). specialize (Hr e He).
        change (k < e.1) in Ha. lia.
Qed.

Lemma listed_files_all m : catalog_wf m -> listed_files m = all_metas m.
Proof.
  intros [H1 H2 _ _]. unfold listed_files, all_metas, Manifest.get_level_files. apply level_range; [done|].
  eapply Forall_impl; [exact H2|]. intros e [He _]. simpl. lia.
Qed.

Lemma manifest_index_flat m : manifest_index m =
  fold_left (fun acc x => mset (Manifest.path x.2) x acc)
    (concat (map (fun l => map (pair (Z.of_nat l)) (Manifest.get_level_files m (Z.of_nat l))) (seq 0 16))) [].
Proof.
  unfold manifest_index. generalize (@nil (bytes * (Z * Meta))) as acc. generalize (seq 0 16) as ls. induction ls as [|l ls IH]; intros acc; [done|].
  cbn [map fold_left concat]. rewrite fold_left_app, IH. f_equal. unfold index_level. generalize (Manifest.get_level_files m (Z.of_nat l)) as fs.
  clear. intros fs. revert acc. induction fs as [|x fs IH]; intros acc; [done|]. cbn [map fold_left]. apply IH.
Qed.

Lemma fold_index (l : list (Z * Meta)) : forall acc x, NoDup (map (fun x => Manifest.path x.2) l) -> x ∈ l ->
  mget (Manifest.path x.2) (fold_left (fun acc x => mset (Manifest.path x.2) x acc) l acc) = Some x.
Proof.
  assert (Hout : forall l acc p, p ∉ map (fun x : Z * Meta => Manifest.path x.2) l ->
    mget p (fold_left (fun acc x => mset (Manifest.path x.2) x acc) l acc) = mget p acc).
  { clear. induction l as [|y l IH]; intros acc p Hp; [done|]. cbn [map fold_left] in *. apply not_elem_of_cons in Hp as [Hy Hp].
    rewrite IH by done. by apply mget_mset_ne. }
  induction l as [|y l IH]; intros acc x Hnd Hx; [by apply not_elem_of_nil in Hx|]. cbn [map fold_left] in *. apply NoDup_cons in Hnd as [Hy Hnd].
  apply elem_of_cons in Hx as [->|Hx]; [|by apply IH]. rewrite Hout by done. apply mget_mset_eq.
Qed.

(** Every listed file is indexed under its path. *)
Lemma manifest_index_spec m meta : catalog_wf m -> NoDup (map Manifest.path (all_metas m)) -> meta ∈ all_metas m ->
  mget (Manifest.path meta) (manifest_index m) = Some (Manifest.level meta, meta).
Proof.
  intros Hw Hnd Hin. rewrite manifest_index_flat. destruct (in_level_files m meta Hw Hin) as [Hl Hr].
  apply (fold_index _ [] (Manifest.level meta, meta)).
  - rewrite concat_map, map_map. rewrite <- (listed_files_all m Hw) in Hnd. unfold listed_files in Hnd. rewrite concat_map, map_map in Hnd.
    erewrite map_ext; [exact Hnd|]. intros l. simpl. by rewrite map_map.
  - apply list_elem_of_In, in_concat. exists (map (pair (Manifest.level meta)) (Manifest.get_level_files m (Manifest.level meta))). split.
    + apply in_map_iff. exists (Z.to_nat (Manifest.level meta)). split; [by rewrite Z2Nat.id by lia|]. apply in_seq. lia.
    + apply in_map. by apply list_elem_of_In.
Qed.

(** ** Loading a saved manifest *)

Definition restored (meta : Meta) : Meta := Manifest.stored (Manifest.level meta) meta.

Lemma stored_metas m : catalog_wf m -> concat (map snd (Manifest.stored_levels (Manifest.levels_ m))) = map restored (all_metas m).
Proof.
  intros [_ H _ _]. unfold all_metas, Manifest.stored_levels. rewrite map_map, concat_map, map_map. f_equal. apply map_ext_in.
  intros [l fs] Hin. cbn [fst snd]. rewrite Forall_forall in H. destruct (H (l, fs)) as [_ Hl]; [by apply list_elem_of_In|]. cbn [fst snd] in Hl.
  apply map_ext_in. intros x Hx. rewrite Forall_forall in Hl. unfold restored. by rewrite Hl by by apply list_elem_of_In.
Qed.

Lemma load_catalog sm image ts : Manifest.save sm = Some image -> catalog sm ts -> len image <= Manifest.kMaxManifestBytes ->
  Manifest.next_sequence_ sm < 2 ^ 64 ->
  exists m, Manifest.load Manifest.empty (Some image) = Some m /\ Manifest.next_sequence_ m = Manifest.next_sequence_ sm /\
    catalog m ts.
Proof.
  intros Hsave [Hw (ms & Hp & Hs & Ht)] Hlen Hnext. pose proof Hw as [H1 H2 H3 H4].
  assert (Hmwf : Manifest.wf sm).
  { split; [done|lia|]. apply Forall_forall. intros e He. rewrite Forall_forall in H2. destruct (H2 e He) as [Hr _]. split; [lia|].
    apply Forall_forall. intros x Hx. rewrite Forall_forall in H3. assert (Hin : x ∈ all_metas sm); [|specialize (H3 x Hin); lia].
    unfold all_metas. apply list_elem_of_In, in_concat. exists e.2. split; [apply in_map; by apply list_elem_of_In|by apply list_elem_of_In]. }
  assert (Hload : forall m0, Manifest.load m0 (Some image) =
    Some {| Manifest.levels_ := Manifest.stored_levels (Manifest.levels_ sm); Manifest.next_sequence_ := Manifest.next_sequence_ sm |}).
  { intros m0. by apply Manifest.manifest_roundtrip. }
  eexists. split; [apply Hload|]. split; [done|].
  assert (Hms : exists ms, all_metas {| Manifest.levels_ := Manifest.stored_levels (Manifest.levels_ sm); Manifest.next_sequence_ := Manifest.next_sequence_ sm |} ≡ₚ ms /\
    StronglySorted (fun a b => b < a) (map seqno ms) /\ map Manifest.path ms = map SST.path_ ts).
  { exists (map restored ms). split; [|split].
    - unfold all_metas at 1. cbn [Manifest.levels_]. rewrite stored_metas by done. by rewrite Hp.
    - rewrite map_map. erewrite map_ext; [exact Hs|]. done.
    - rewrite map_map. erewrite map_ext; [exact Ht|]. done. }
  split; [|exact Hms]. split; cbn [Manifest.levels_ Manifest.next_sequence_].
  - by apply Manifest.stored_levels_sorted.
  - apply Forall_map. eapply Forall_impl; [exact H2|]. intros e [He _]. cbn [fst snd]. split; [done|]. apply Forall_map, Forall_forall. done.
  - unfold all_metas. cbn [Manifest.levels_]. rewrite stored_metas by done. apply Forall_map. eapply Forall_impl; [exact H3|]. done.
  - done.
Qed.

(** ** Opening the tables *)

(** The file of an open table is on disk. *)
Definition file_backed (files : list (bytes * bytes)) (t : SST.SSTable) : Prop :=
  exists content, mget (SST.path_ t) files = Some content /\ SST.load_index (SST.path_ t) content = Ok t.

Lemma open_tables_spec files ts : Forall (file_backed files) ts -> forall ms, map Manifest.path ms = map SST.path_ ts ->
  open_tables files ms = Some ts.
Proof.
  induction 1 as [|t ts (content & Hm & Hl) _ IH]; intros ms E; destruct ms as [|meta ms]; try done. cbn [map open_tables] in *. injection E as Ep Es.
  rewrite Ep, Hm, Hl, (IH ms Es). done.
Qed.

#[local] Instance newer_file_total : Total newer_file.
Proof. intros a b. unfold newer_file. lia. Qed.

Lemma load_sstables_spec m ts files : catalog m ts -> Forall (file_backed files) ts ->
  exists files', load_sstables_from_manifest m files = Some (ts, files') /\ Forall (file_backed files') ts.
Proof.
  intros [Hw (ms & Hp & Hs & Ht)] Hf. unfold load_sstables_from_manifest. rewrite (listed_files_all m Hw).
  rewrite (merge_sort_strict newer_file (fun x => - seqno x) ltac:(unfold newer_file; intros; lia) ms); [|clear -Hs|done].
  2:{ remember (map seqno ms) as qs eqn:E. revert ms E. induction Hs as [|q qs Hq IH Ha]; intros [|x ms] E; try done; [constructor|].
      injection E as -> ->. constructor; [by apply IH|]. apply Forall_map in Ha. eapply Forall_impl; [exact Ha|]. simpl. lia. }
  rewrite (open_tables_spec files ts Hf ms Ht). eexists. split; [done|]. rewrite Forall_forall in Hf |- *. intros t Hin.
  destruct (Hf t Hin) as (content & Hm & Hl). exists content. split; [|done].
  rewrite mget_filter. unfold kept_file. rewrite (bool_decide_eq_true_2 (lexically_normal (SST.path_ t) ∈ _)); [by rewrite orb_true_r|].
  rewrite <- (map_map Manifest.path lexically_normal), Ht. apply list_elem_of_In, in_map, in_map. by apply list_elem_of_In.
Qed.

(** ** The invariant *)

Abbreviation tables e := (map sst_entries (sstables_ e)).

(** Rows already published: the tables say the same. *)
Definition shadowed (rows : Snapshot) (layers : list Snapshot) : Prop :=
  forall k x, mget k rows = Some x -> live_value (Some x) = mget k (contents layers).

Definition published (f : FlushPc) : list Z := match f with FlushPublished g => [g] | _ => [] end.

Definition saved_ok (e : Engine) : Prop :=
  match manifest_file_ e with
  | None => sstables_ e = []
  | Some image => exists sm, Manifest.save sm = Some image /\ catalog sm (sstables_ e) /\
      Manifest.next_sequence_ sm <= Manifest.next_sequence_ (manifest_ e) /\
      Forall (fun t => exists n, named (db_path_ e) (SST.path_ t) n /\ n < Manifest.next_sequence_ sm) (sstables_ e)
  end.

Definition flush_pending (e : Engine) (f : FlushPc) : Prop :=
  match f with Flushing job => Forall (fun meta => seqno meta < flush_seq job) (all_metas (manifest_ e)) | _ => True end.

Definition input_ok (e : Engine) (job : CompactJob) (t : SST.SSTable) : Prop :=
  exists meta, mget (SST.path_ t) (manifest_files job) = Some (Manifest.level meta, meta) /\ Manifest.path meta = SST.path_ t /\
    meta ∈ all_metas (manifest_ e).

(** A replaced table: its path is not used any more. *)
Definition retired (e : Engine) (f : FlushPc) (p : bytes) : Prop :=
  exists n, named (db_path_ e) p n /\ n < Manifest.next_sequence_ (manifest_ e) /\ ~ (p ∈ map SST.path_ (sstables_ e)) /\ ~ (n ∈ flush_seqs f).

Definition compact_pending (e : Engine) (f : FlushPc) (c : CompactPc) : Prop :=
  match c with
  | Compacting job => Forall (input_ok e job) (to_merge job)
  | CompactPublished ps => Forall (retired e f) ps
  | CompactIdle => True
  end.

Record dinv (s : System) : Prop := {
  di_sys : sinv s;
  di_logs : exists stale, logged stale (engine s) /\ map snd stale = published (flusher s) /\
    Forall (fun r => shadowed r.1 (tables (engine s))) stale;
  di_catalog : catalog (manifest_ (engine s)) (sstables_ (engine s));
  di_saved : saved_ok (engine s);
  di_files : Forall (file_backed (sst_files_ (engine s))) (sstables_ (engine s));
  di_flush : flush_pending (engine s) (flusher s);
  di_compact : compact_pending (engine s) (flusher s) (compactor s)
}.

(** ** Reopening *)

(** The limits of the formats: 64-bit generations and sequence numbers, the
    capacity of a memtable and the size of a manifest that can be loaded. *)
Definition limits (e : Engine) : bool :=
  forallb (fun w => w.1 <? 2 ^ 64) (wals_ e) && (len (recovered_rows (wals_ e) []) <? kMaxSkiplistEntries) &&
  (Manifest.next_sequence_ (manifest_ e) <? 2 ^ 64) &&
  match manifest_file_ e with Some image => len image <=? Manifest.kMaxManifestBytes | None => true end.

Lemma limits_spec e : limits e = true ->
  Forall (fun w => w.1 < 2 ^ 64) (wals_ e) /\ len (recovered_rows (wals_ e) []) < kMaxSkiplistEntries /\
  Manifest.next_sequence_ (manifest_ e) < 2 ^ 64 /\ (forall image, manifest_file_ e = Some image -> len image <= Manifest.kMaxManifestBytes).
Proof.
  unfold limits. intros H. apply andb_prop in H as [H Hm]. apply andb_prop in H as [H Hn]. apply andb_prop in H as [Hw Hr].
  split; [|split; [by apply Z.ltb_lt|split; [by apply Z.ltb_lt|]]].
  - rewrite forallb_forall in Hw. apply Forall_forall. intros w Hx%list_elem_of_In. by apply Z.ltb_lt, Hw.
  - intros image E. rewrite E in Hm. by apply Z.leb_le.
Qed.

Lemma contents_recovered e stale : logged stale e -> Forall (fun r => shadowed r.1 (tables e)) stale ->
  contents (recovered_rows (wals_ e) [] :: tables e) = holds e.
Proof.
  intros [_ Hg] Hsh. apply msorted_ext; [apply contents_sorted..|]. intros k. unfold holds. rewrite !mget_contents. unfold layers. cbn [map first_some].
  rewrite (mget_recovered _ _ Hg). unfold segments, snapshots. rewrite !map_app, !rev_app_distr, <- !app_assoc. cbn [map rev app fst].
  rewrite map_map. cbn [fst]. rewrite <- map_rev. cbn [first_some]. destruct (mget k (mt_get_all_entries (memtable_ e))) as [x|]; [done|].
  rewrite !map_app, !first_some_app. destruct (first_some (map (mget k) (map _ (rev (immutable_memtables_ e))))) as [x|]; [done|].
  change (mget k []) with (@None SnapshotEntry).
  assert (Hst : forall x, first_some (map (mget k) (rev (map fst stale))) = Some x -> live_value (Some x) = mget k (contents (tables e))).
  { intros x Hx. assert (Hin : exists rows, rows ∈ rev (map fst stale) /\ mget k rows = Some x).
    { revert Hx. generalize (rev (map fst stale)). induction l as [|r l IH]; [done|]. cbn [map first_some]. destruct (mget k r) as [y|] eqn:E.
      - intros [= ->]. exists r. split; [by left|done].
      - intros H. destruct (IH H) as (r' & Hr & E'). exists r'. split; [by right|done]. }
    destruct Hin as (rows & Hin & E). apply list_elem_of_In, in_rev, in_map_iff in Hin as ([r g] & <- & Hin). rewrite Forall_forall in Hsh.
    apply (Hsh (r, g)); [by apply list_elem_of_In|done]. }
  destruct (first_some (map (mget k) (rev (map fst stale)))) as [x|] eqn:E; [|done].
  rewrite (Hst x eq_refl), mget_contents. done.
Qed.

Definition idle (e : Engine) : System := {| engine := e; flusher := FlushIdle; compactor := CompactIdle |}.

Lemma loggable_rows rows : Forall loggable rows -> Forall row_ok rows.
Proof. intros H. eapply Forall_impl; [exact H|]. intros x [Hx _]. exact Hx. Qed.

(** The numbers in the file names stay below the next sequence number. *)
Lemma names_reopened e e' taken next : names_ok e taken -> db_path_ e' = db_path_ e -> sstables_ e' = sstables_ e ->
  Manifest.next_sequence_ (manifest_ e') = next -> 0 <= next ->
  Forall (fun t => exists n, named (db_path_ e) (SST.path_ t) n /\ n < next) (sstables_ e) -> names_ok e' [].
Proof.
  intros (ns & H1 & H2 & H3 & H4) Hd Hs Hn H0 Hlt. exists ns. rewrite Hd, Hs, Hn, app_nil_r in *. split; [done|].
  apply NoDup_app in H2 as (H2 & _ & _). split; [done|]. split; [|done]. apply Forall_app in H3 as [H3 _].
  clear -H1 Hlt H3. induction H1 as [|t n ts ns Ht Hts IH]; [constructor|]. apply Forall_cons in Hlt as [(n' & Hn' & Hl) Hlt]. apply Forall_cons in H3 as [H3 H3'].
  constructor; [|by apply IH]. rewrite (named_inj _ _ _ _ Ht Hn'). split; [apply Hn'|done].
Qed.

Section Reopen.
Context (replay_coin : Z -> nat) (padding : Z -> bytes) (fsync : bool).
Context (Hpad : forall seq, length (padding seq) = 4%nat).

Lemma saved_catalog e : saved_ok e -> limits e = true -> exists m, Manifest.load Manifest.empty (manifest_file_ e) = Some m /\
  catalog m (sstables_ e) /\ Forall (fun t => exists n, named (db_path_ e) (SST.path_ t) n /\ n < Manifest.next_sequence_ m) (sstables_ e) /\
  forall e', manifest_file_ e' = manifest_file_ e -> sstables_ e' = sstables_ e -> db_path_ e' = db_path_ e -> manifest_ e' = m -> saved_ok e'.
Proof.
  intros Hsv (_ & _ & Hnext & Hsize)%limits_spec. unfold saved_ok in Hsv. destruct (manifest_file_ e) as [image|] eqn:Em.
  - destruct Hsv as (sm & Hsave & Hcat & Hle & Hn). destruct (load_catalog sm image (sstables_ e) Hsave Hcat (Hsize image eq_refl)) as (m & Hl & Hnx & Hm); [lia|].
    exists m. split; [done|]. split; [done|]. rewrite Hnx. split; [done|]. intros e' E1 E2 E3 E4. unfold saved_ok. rewrite E1, E2, E3, E4.
    exists sm. rewrite Hnx. split; [done|]. split; [done|]. split; [lia|done].
  - exists Manifest.empty. split; [done|]. rewrite Hsv. split; [|split; [constructor|]].
    + split; [split; try constructor; done|]. exists []. repeat split; try done. constructor.
    + intros e' E1 E2 _ _. unfold saved_ok. by rewrite E1, E2.
Qed.

(** The constructor succeeds on what a running engine left on disk, and restores
    the contents and the invariant. *)
Lemma reopen_spec s : dinv s -> limits (engine s) = true ->
  exists e', reopen replay_coin padding fsync (db_path_ (engine s)) (disk_of (engine s)) = Some e' /\
    holds e' = holds (engine s) /\ dinv (idle e').
Proof.
  intros [Hsys (stale & Hlg & _ & Hsh) Hcat Hsv Hf _ _] Hlim. set (e := engine s) in *.
  destruct (saved_catalog e Hsv Hlim) as (m & Hload & Hm & Hn & Hsv'). apply limits_spec in Hlim as (Hgen & Hrows & _ & _).
  destruct (load_sstables_spec m (sstables_ e) (sst_files_ e) Hm Hf) as (files & Htab & Hf').
  destruct (recover_from_wal_spec replay_coin padding fsync Hpad stale e Hlg Hgen Hrows) as (mt & g & wal & seq & Hrec & Hg & Hwf & Hent & Hwal).
  unfold reopen, disk_of. cbn [disk_manifest disk_tables disk_logs]. rewrite Hload, Htab. change (map _ (wals_ e)) with (log_files (wals_ e)). rewrite Hrec.
  eexists. split; [reflexivity|]. match goal with |- holds ?x = _ /\ _ => set (e' := x) end.
  assert (Hh : holds e' = holds e).
  { rewrite <- (contents_recovered e stale Hlg Hsh). unfold holds, layers, snapshots. cbn [e' memtable_ immutable_memtables_ sstables_ rev map app].
    by rewrite Hent. }
  split; [exact Hh|]. destruct Hsys as [He Hnames _ _]. fold e in He, Hnames. destruct He as [H1 H2 H3 H4 H5]. split; cbn [engine flusher compactor idle].
  - split; cbn [engine flusher compactor idle]; [|by eapply names_reopened; [exact Hnames|done|done|done|apply Hm|exact Hn]|done..].
    split; cbn [e' memtable_ immutable_memtables_ sstables_]; [done|by rewrite Hent|constructor|done|].
    unfold layers, snapshots. cbn [e' memtable_ immutable_memtables_ sstables_ rev map app]. rewrite Hent. constructor.
    + apply loggable_rows. eapply recovered_loggable; [apply Hlg|constructor].
    + apply Forall_app in H5 as [_ H5]. exact H5.
  - exists []. split; [|by split]. apply (logged_intro [] e' [] (wal)); [done|done|by change (memtable_ e') with mt; rewrite Hent|constructor|].
    cbn [e' wals_]. constructor; constructor.
  - exact Hm.
  - by apply Hsv'.
  - exact Hf'.
  - done.
  - done.
Qed.

(** A clean shutdown leaves the invariant in place. *)
Lemma shutdown_dinv e io : dinv (idle e) -> dinv (idle (shutdown io e)) /\ holds (shutdown io e) = holds e /\
  db_path_ (shutdown io e) = db_path_ e.
Proof.
  intros Hd. unfold shutdown. destruct (save_manifest io (manifest_ e)) as [image|] eqn:E; [|done].
  assert (Hsave : Manifest.save (manifest_ e) = Some image) by (unfold save_manifest in E; by destruct io). destruct Hd as [Hsys Hlg Hcat Hsv Hf Hfl Hc].
  split; [|done]. split; try done.
  - destruct Hsys as [He Hn Hfl' Hc']. split; try done. cbn [engine idle] in *. destruct (same_state e (with_manifest_file e image) eq_refl eq_refl eq_refl) as [H _]. by apply H.
  - destruct Hlg as (stale & [L1 L2] & Hrest). exists stale. split; [|done]. by split.
  - cbn [engine idle] in *. unfold saved_ok. cbn [manifest_file_ with_manifest_file sstables_ manifest_ db_path_]. exists (manifest_ e).
    split; [done|]. split; [done|]. split; [lia|]. destruct (si_names _ Hsys) as (ns & N1 & _ & N3 & _). cbn [engine idle] in *.
    apply Forall_app in N3 as [N3 _]. clear -N1 N3. induction N1 as [|t n ts ns Ht _ IH]; [constructor|]. apply Forall_cons in N3 as [? ?].
    constructor; [|by apply IH]. exists n. split; [done|lia].
Qed.
End Reopen.

(** ** Steps that leave the files alone *)

Lemma matches_paths m ts : matches m ts -> NoDup (map SST.path_ ts) -> NoDup (map Manifest.path (all_metas m)).
Proof. intros (ms & Hp & _ & Ht) Hnd. rewrite Hp, Ht. exact Hnd. Qed.

Lemma matches_listed m ts p : matches m ts -> p ∈ map Manifest.path (all_metas m) <-> p ∈ map SST.path_ ts.
Proof. intros (ms & Hp & _ & Ht). by rewrite Hp, Ht. Qed.

Lemma sinv_paths s : sinv s -> NoDup (map SST.path_ (sstables_ (engine s))).
Proof. intros [_ (ns & H1 & H2 & _) _ _]. eapply names_paths; [exact H1|]. by apply NoDup_app in H2 as [? _]. Qed.

(** A number taken by a running job names a new path. *)
Lemma fresh_path e taken n p : names_ok e taken -> n ∈ taken -> named (db_path_ e) p n -> ~ (p ∈ map SST.path_ (sstables_ e)).
Proof.
  intros (ns & H1 & H2 & _) Hn Hp Hin. apply list_elem_of_In, in_map_iff in Hin as (t & <- & Ht). apply list_elem_of_In, list_elem_of_lookup in Ht as [i Hi].
  destruct (Forall2_lookup_l _ _ _ i t H1 Hi) as (n' & Hi' & Hn'). rewrite (named_inj _ _ _ _ Hp Hn') in Hn.
  apply NoDup_app in H2 as (_ & H2 & _). apply (H2 n'); [by eapply list_elem_of_lookup_2|done].
Qed.

Lemma taken_range e taken n : names_ok e taken -> n ∈ taken -> 0 <= n < Manifest.next_sequence_ (manifest_ e).
Proof. intros (ns & _ & _ & H3 & _) Hn. rewrite Forall_forall in H3. apply H3, elem_of_app. by right. Qed.

Record same_disk (e e' : Engine) : Prop := {
  sd_db : db_path_ e' = db_path_ e;
  sd_sst : sstables_ e' = sstables_ e;
  sd_mfile : manifest_file_ e' = manifest_file_ e;
  sd_files : sst_files_ e' = sst_files_ e;
  sd_levels : Manifest.levels_ (manifest_ e') = Manifest.levels_ (manifest_ e);
  sd_next : Manifest.next_sequence_ (manifest_ e) <= Manifest.next_sequence_ (manifest_ e')
}.

Lemma same_metas e e' : same_disk e e' -> all_metas (manifest_ e') = all_metas (manifest_ e).
Proof. intros H. unfold all_metas. by rewrite (sd_levels _ _ H). Qed.

Lemma same_disk_fields e e' f c : same_disk e e' -> catalog (manifest_ e) (sstables_ e) -> saved_ok e ->
  Forall (file_backed (sst_files_ e)) (sstables_ e) -> flush_pending e f -> compact_pending e f c ->
  catalog (manifest_ e') (sstables_ e') /\ saved_ok e' /\ Forall (file_backed (sst_files_ e')) (sstables_ e') /\
  flush_pending e' f /\ compact_pending e' f c.
Proof.
  intros Hd [[W1 W2 W3 W4] (ms & Hp & Hs & Ht)] Hsv Hf Hfl Hc. pose proof (same_metas _ _ Hd) as Hm. destruct Hd as [D1 D2 D3 D4 D5 D6].
  split; [|split; [|split; [|split]]].
  - split; [split; rewrite ?D5, ?Hm; auto; [|lia]|exists ms; by rewrite Hm, D2]. eapply Forall_impl; [exact W3|]. simpl. lia.
  - unfold saved_ok in *. rewrite D3, D2, D1. destruct (manifest_file_ e) as [image|]; [|done]. destruct Hsv as (sm & S1 & S2 & S3 & S4).
    exists sm. split; [done|]. split; [done|]. split; [lia|done].
  - by rewrite D4, D2.
  - unfold flush_pending in *. destruct f; auto. by rewrite Hm.
  - unfold compact_pending in *. destruct c as [|job|ps]; [done| |].
    + eapply Forall_impl; [exact Hc|]. intros t (meta & H1 & H2 & H3). exists meta. by rewrite Hm.
    + eapply Forall_impl; [exact Hc|]. intros p (n & H1 & H2 & H3 & H4). exists n. rewrite D1, D2. split; [done|]. split; [lia|done].
Qed.

Lemma same_disk_extends e e' : extends e e' -> same_disk e e'.
Proof. intros [H1 H2 H3 H4 H5 _]. split; try done; rewrite H3; [done|lia]. Qed.

Lemma same_disk_allocate e : same_disk e (allocate_sequence e).1.
Proof. split; try done. simpl. unfold Manifest.get_next_sequence. lia. Qed.

Lemma same_disk_remove_wal e g : same_disk e (remove_wal e g).
Proof. by split. Qed.

(** ** Removing the log of a published memtable *)

Lemma remove_wal_logged e rows g : logged [(rows, g)] e -> logged [] (remove_wal e g).
Proof.
  intros [Hs Hg]. unfold segments in Hg. apply Forall2_cons_inv_r in Hg as ([g' l] & ws & (Eg & _ & _) & Hws & E). simpl in Eg. subst g'.
  cbn [app] in Hws. rewrite E in Hs. apply msorted_cons_inv in Hs as [Ha Hs].
  assert (Hdel : mdel g (wals_ e) = ws).
  { rewrite E. apply msorted_ext; [apply msorted_mdel; by constructor|done|]. intros k. rewrite mget_mdel, mget_cons.
    destruct (keqb_spec k g) as [->|]; [|done]. by rewrite mget_above. }
  split; unfold remove_wal; cbn [wals_ with_wals]; rewrite Hdel; [done|exact Hws].
Qed.

(** ** Publishing a flushed memtable *)

Lemma flush_publish_disk auto cio sio e job e' b : inv e -> flush_publish auto cio sio e job = Some (e', b) ->
  (exists rest, immutable_memtables_ e = (to_flush job, wal_to_delete job) :: rest) ->
  let path := sst_path (db_path_ e) (flush_seq job) in
  let meta := flush_meta path job (mt_get_all_entries (to_flush job)) in
  memtable_ e' = memtable_ e /\ wal_generation_ e' = wal_generation_ e /\
  if b then exists t file image, SST.load_index path file = Ok t /\ SST.path_ t = path /\ sst_entries t = mt_get_all_entries (to_flush job) /\
         sst_files_ e' = mset path file (sst_files_ e) /\ manifest_ e' = Manifest.add_file (manifest_ e) 0 meta /\
         Manifest.save (manifest_ e') = Some image /\ manifest_file_ e' = Some image /\ sstables_ e' = t :: sstables_ e
  else e' = e \/ exists file, sst_files_ e' = mdel path (mset path file (sst_files_ e)) /\ manifest_file_ e' = manifest_file_ e /\
         manifest_ e' = Manifest.remove_file (Manifest.add_file (manifest_ e) 0 meta) 0 path.
Proof.
  intros He Hpub (rest & Hi) path meta. revert Hpub. unfold flush_publish. fold path. set (entries := mt_get_all_entries (to_flush job)).
  assert (Hwf : SL.wf (to_flush job)) by (pose proof (inv_imm _ He) as H; rewrite Hi in H; by apply Forall_cons in H as [? _]).
  assert (Hrows : Forall row_ok entries).
  { pose proof (inv_ok _ He) as H. apply Forall_app in H as [H _]. unfold snapshots in H. apply Forall_cons in H as [_ H].
    rewrite Hi in H. cbn [rev] in H. rewrite map_app in H. apply Forall_app in H as [_ H]. by apply Forall_cons in H as [? _]. }
  destruct (SST.create entries) as [[file|]|] eqn:Ec; [|intros [= <- <-]; auto|done].
  unfold writable. destruct cio; cbn [andb negb]; [|intros [= <- <-]; auto].
  destruct (Z.ltb_spec (len file) (2 ^ 63)); cbn [negb]; [|intros [= <- <-]; auto].
  destruct (SST.create_load path entries file) as (t & El & Hrep & Hpath & Hmap);
    [by apply SL.entries_sorted|by eapply Forall_impl; [exact Hrows|]; intros x [? _]|done|lia|]. rewrite El.
  pose proof (sst_entries_rep _ _ Hrep) as Het. unfold save_manifest.
  destruct (if sio then _ else _) as [image|] eqn:Es; intros [= <- <-]; (split; [done|]); (split; [done|]).
  - exists t, file, image. destruct sio; [|done]. by repeat split.
  - right. exists file. done.
Qed.

Lemma names_below e taken : names_ok e taken ->
  Forall (fun t => exists n, named (db_path_ e) (SST.path_ t) n /\ n < Manifest.next_sequence_ (manifest_ e)) (sstables_ e).
Proof.
  intros (ns & N1 & _ & N3 & _). apply Forall_app in N3 as [N3 _]. clear -N1 N3. induction N1 as [|t n ts ns Ht _ IH]; [constructor|].
  apply Forall_cons in N3 as [? ?]. constructor; [|by apply IH]. exists n. split; [done|lia].
Qed.

(** Saving the current manifest. *)
Lemma saved_now e image taken : names_ok e taken -> catalog (manifest_ e) (sstables_ e) ->
  Manifest.save (manifest_ e) = Some image -> manifest_file_ e = Some image -> saved_ok e.
Proof.
  intros Hn Hc Hs Hm. unfold saved_ok. rewrite Hm. exists (manifest_ e). split; [done|]. split; [done|]. split; [lia|]. by eapply names_below.
Qed.

Lemma matches_perm m m' ts : all_metas m' ≡ₚ all_metas m -> matches m ts -> matches m' ts.
Proof. intros Hp (ms & H & Hs & Ht). exists ms. by rewrite Hp. Qed.

Lemma file_backed_other files files' t : mget (SST.path_ t) files' = mget (SST.path_ t) files -> file_backed files t -> file_backed files' t.
Proof. intros E (c & H1 & H2). exists c. by rewrite E. Qed.

Lemma files_other files files' ts p : (forall q, q <> p -> mget q files' = mget q files) -> ~ (p ∈ map SST.path_ ts) ->
  Forall (file_backed files) ts -> Forall (file_backed files') ts.
Proof.
  intros Hq Hp H. rewrite Forall_forall in H |- *. intros t Ht. eapply file_backed_other; [|by apply H]. apply Hq. intros E. apply Hp.
  rewrite <- E. apply list_elem_of_In, in_map. by apply list_elem_of_In.
Qed.

(** Adding a file and taking it back. *)
Lemma add_remove_metas m meta : catalog_wf m -> 0 <= Manifest.level meta < 16 -> 0 <= seqno meta < Manifest.next_sequence_ m ->
  NoDup (map Manifest.path (all_metas m)) -> ~ (Manifest.path meta ∈ map Manifest.path (all_metas m)) ->
  let m' := Manifest.remove_file (Manifest.add_file m (Manifest.level meta) meta) (Manifest.level meta) (Manifest.path meta) in
  catalog_wf m' /\ all_metas m' ≡ₚ all_metas m.
Proof.
  intros Hw Hl Hs Hnd Hp m'. pose proof (catalog_wf_add m (Manifest.level meta) meta Hw Hl eq_refl Hs) as Ha.
  pose proof (all_metas_add m (Manifest.level meta) meta Hw) as Hadd. split; [by apply catalog_wf_remove|].
  assert (Hnd' : NoDup (map Manifest.path (all_metas (Manifest.add_file m (Manifest.level meta) meta)))).
  { rewrite Hadd. cbn [map]. by apply NoDup_cons. }
  pose proof (remove_listed _ meta Ha Hnd') as Hr. rewrite Hadd in Hr. rewrite <- Permutation_cons_append in Hr.
  eapply Permutation_cons_inv, Hr. by left.
Qed.

Lemma retired_cons e e' f p : db_path_ e' = db_path_ e ->
  Manifest.next_sequence_ (manifest_ e') = Manifest.next_sequence_ (manifest_ e) -> forall t n,
  sstables_ e' = t :: sstables_ e -> named (db_path_ e) (SST.path_ t) n -> n ∈ flush_seqs f -> retired e f p -> retired e' FlushIdle p.
Proof.
  intros Hd Hn t n Hs Ht Hin (q & H1 & H2 & H3 & H4). exists q. rewrite Hd, Hn, Hs. split; [done|]. split; [done|]. split; [|by intros ?%not_elem_of_nil].
  cbn [map]. intros [E|Hx]%elem_of_cons; [|done]. apply H4. rewrite E in H1. by rewrite (named_inj _ _ _ _ H1 Ht).
Qed.

(** Whether the round published the table or failed. *)
Definition flushed (b : bool) (g : Z) : FlushPc := if b then FlushPublished g else FlushIdle.

Lemma retired_flushed e b g p : retired e FlushIdle p -> retired e (flushed b g) p.
Proof. intros (n & H1 & H2 & H3 & H4). exists n. split; [done|]. split; [done|]. split; [done|]. by destruct b. Qed.

(** A new table with the highest number goes first. *)
Lemma catalog_cons m ts l meta t : catalog m ts -> 0 <= l < 16 -> Manifest.level meta = l -> 0 <= seqno meta < Manifest.next_sequence_ m ->
  Forall (fun x => seqno x < seqno meta) (all_metas m) -> Manifest.path meta = SST.path_ t -> catalog (Manifest.add_file m l meta) (t :: ts).
Proof.
  intros [Hw (ms & Hp & Hs & Ht)] Hl Hm Hr Hlow Hpath. split; [by apply catalog_wf_add|]. exists (meta :: ms). rewrite (all_metas_add m l meta Hw), Hp. split; [done|].
  cbn [map]. rewrite Ht, Hpath. split; [|done]. constructor; [done|]. apply Forall_map. by rewrite Hp in Hlow.
Qed.

(** A round of the flusher that has left the catalogue as it was leaves the files that a compaction has replaced. *)
Lemma retired_failed e e' f p : db_path_ e' = db_path_ e -> sstables_ e' = sstables_ e ->
  Manifest.next_sequence_ (manifest_ e') = Manifest.next_sequence_ (manifest_ e) -> retired e f p -> retired e' FlushIdle p.
Proof. intros Hd Hs Hn (n & H1 & H2 & H3 & _). exists n. rewrite Hd, Hs, Hn. repeat (split; [done|]). by intros ?%not_elem_of_nil. Qed.

Lemma flush_publish_dinv auto cio sio e job c e' b :
  dinv {| engine := e; flusher := Flushing job; compactor := c |} ->
  sinv {| engine := e'; flusher := flushed b (wal_to_delete job); compactor := c |} ->
  flush_publish auto cio sio e job = Some (e', b) ->
  dinv {| engine := e'; flusher := flushed b (wal_to_delete job); compactor := c |}.
Proof.
  intros [Hsys (stale & Hlg & Hst & _) Hcat Hsv Hf Hfl Hc] Hsys' Hpub. pose proof (sinv_paths _ Hsys) as Hnd. destruct Hsys as [He Hn [rest Hi] _].
  cbn [engine flusher compactor] in *. destruct stale; [|done]. destruct Hcat as [Hw Hmt]. pose proof (matches_paths _ _ Hmt Hnd) as Hndm.
  pose proof (flush_publish_spec _ _ _ _ _ rest _ _ He Hi Hpub) as (_ & _ & Hdb & Hwals & Hnext & Hb).
  pose proof (flush_publish_disk _ _ _ _ _ _ _ He Hpub (ex_intro _ rest Hi)) as (Hmem & Hgen & Hd). set (path := sst_path (db_path_ e) (flush_seq job)) in *.
  assert (Hin : flush_seq job ∈ flush_seqs (Flushing job) ++ compact_seqs c) by (apply elem_of_app; left; by left).
  pose proof (taken_range _ _ _ Hn Hin) as Hrange. assert (Hnamed : named (db_path_ e) path (flush_seq job)) by (split; [lia|by left]).
  pose proof (fresh_path _ _ _ _ Hn Hin Hnamed) as Hfresh.
  set (meta := flush_meta path job (mt_get_all_entries (to_flush job))) in *.
  assert (Hfm : ~ (Manifest.path meta ∈ map Manifest.path (all_metas (manifest_ e)))) by (rewrite (matches_listed _ _ _ Hmt); exact Hfresh).
  destruct b; cbn [flushed] in *.
  - destruct Hb as (t' & Hs' & _ & Hi'). destruct Hd as (t & file & image & El & Hp & Het & Hfiles & Hman & Hsave & Hmf & Hs). clear t' Hs'.
    pose proof (all_metas_add (manifest_ e) 0 meta Hw) as Hadd.
    assert (Hcat' : catalog (manifest_ e') (sstables_ e')).
    { rewrite Hman, Hs. by apply catalog_cons. }
    split; cbn [engine flusher compactor]; [done| |done| | |done|].
    + exists [(mt_get_all_entries (to_flush job), wal_to_delete job)]. split; [|split; [done|]].
      * destruct Hlg as [L1 L2]. unfold segments in L2. rewrite Hi in L2. split; [by rewrite Hwals|]. unfold segments. rewrite Hwals, Hi', Hmem, Hgen. exact L2.
      * constructor; [|done]. intros k x Hk. cbn [fst] in Hk. rewrite Hs. cbn [map]. rewrite mget_contents, Het. cbn [map first_some]. by rewrite Hk.
    + eapply saved_now; [exact (si_names _ Hsys')|done|exact Hsave|exact Hmf].
    + rewrite Hfiles, Hs. constructor.
      * exists file. rewrite Hp. split; [apply mget_mset_eq|exact El].
      * eapply files_other; [|exact Hfresh|exact Hf]. intros q Hq. by apply mget_mset_ne.
    + unfold compact_pending in *. destruct c as [|cj|ps]; [done| |].
      * eapply Forall_impl; [exact Hc|]. intros t0 (m0 & M1 & M2 & M3). exists m0. split; [done|]. split; [done|]. rewrite Hman, Hadd. by right.
      * eapply Forall_impl; [exact Hc|]. intros p Hr. apply (retired_flushed _ true).
        eapply (retired_cons e e' (Flushing job)); [done|done|exact Hs|by rewrite Hp|by left|exact Hr].
  - destruct Hb as [Hs Hi']. destruct Hd as [->|(file & Hfiles & Hmf & Hman)].
    + split; cbn [engine flusher compactor]; try done. { by exists []. }
      unfold compact_pending in *. destruct c as [|cj|ps]; [done|done|]. eapply Forall_impl; [exact Hc|]. intros p. by apply retired_failed.
    + destruct (add_remove_metas (manifest_ e) meta Hw) as [Hw' Hperm]; [done|done|done|done|]. change (Manifest.level meta) with 0 in Hw', Hperm.
      change (Manifest.path meta) with path in Hw', Hperm. rewrite <- Hman in Hw', Hperm.
      split; cbn [engine flusher compactor]; [done| | | | |done|].
      * exists []. split; [|done]. destruct Hlg as [L1 L2]. split; [by rewrite Hwals|]. unfold segments. rewrite Hwals, Hi', Hmem, Hgen. exact L2.
      * split; [done|]. rewrite Hs. by eapply matches_perm.
      * unfold saved_ok in *. rewrite Hmf, Hs, Hdb, Hnext. done.
      * rewrite Hfiles, Hs. eapply files_other; [|exact Hfresh|exact Hf]. intros q Hq. rewrite mget_mdel_ne by done. by apply mget_mset_ne.
      * unfold compact_pending in *. destruct c as [|cj|ps]; [done| |].
        -- eapply Forall_impl; [exact Hc|]. intros t0 (m0 & M1 & M2 & M3). exists m0. by rewrite Hperm.
        -- eapply Forall_impl; [exact Hc|]. intros p. by apply retired_failed.
Qed.

(** ** Publishing a compaction *)

Lemma load_index_path p file t : SST.load_index p file = Ok t -> SST.path_ t = p.
Proof.
  unfold SST.load_index. repeat case_match; try done. unfold expected_bind. repeat case_match; try done. by intros [= <-].
Qed.

Lemma logical_sequence_spec files ts ms : Forall2 (fun t meta => mget (SST.path_ t) files = Some (Manifest.level meta, meta)) ts ms -> forall acc,
  logical_sequence files ts acc = Some (fold_left Z.max (map seqno ms) acc).
Proof. induction 1 as [|t meta ts ms Ht _ IH]; intros acc; [done|]. cbn [logical_sequence map fold_left]. by rewrite Ht. Qed.

Lemma max_falling q qs : StronglySorted (fun a b => b < a) (q :: qs) -> 0 <= q -> fold_left Z.max (q :: qs) 0 = q.
Proof.
  intros Hs Hq. inversion Hs as [|? ? _ Ha]; subst. cbn [fold_left]. rewrite Z.max_r by done. clear Hs Hq.
  induction Ha as [|x qs Hx _ IH]; [done|]. cbn [fold_left]. by rewrite Z.max_l by lia.
Qed.

Definition indexed (files : list (bytes * (Z * Meta))) (meta : Meta) : Prop :=
  mget (Manifest.path meta) files = Some (Manifest.level meta, meta).

Lemma remove_inputs_spec files ms : Forall (indexed files) ms -> forall m, catalog_wf m -> NoDup (map Manifest.path (all_metas m)) ->
  NoDup (map Manifest.path ms) -> Forall (fun meta => meta ∈ all_metas m) ms ->
  exists m', remove_inputs files (map Manifest.path ms) m = Some m' /\ catalog_wf m' /\ ms ++ all_metas m' ≡ₚ all_metas m.
Proof.
  induction 1 as [|meta ms Hx _ IH]; intros m Hw Hnd Hms Hin; cbn [map remove_inputs]; [by exists m|].
  rewrite Hx. apply Forall_cons in Hin as [Hm Hin]. cbn [map] in Hms. apply NoDup_cons in Hms as [Hnm Hms]. destruct (in_level_files m meta Hw Hm) as [_ Hl].
  pose proof (remove_listed m meta Hw Hnd Hm) as Hp. set (m1 := Manifest.remove_file m (Manifest.level meta) (Manifest.path meta)) in *.
  assert (Hw1 : catalog_wf m1) by by apply catalog_wf_remove. rewrite <- Permutation_cons_append in Hp.
  destruct (IH m1 Hw1) as (m' & Hr & Hw' & Hp'); [|done| |].
  - rewrite <- Hp in Hnd. cbn [map] in Hnd. by apply NoDup_cons in Hnd as [_ ?].
  - rewrite Forall_forall in Hin |- *. intros x Hx'. specialize (Hin x Hx'). rewrite <- Hp in Hin. apply elem_of_cons in Hin as [->|?]; [|done].
    exfalso. apply Hnm, list_elem_of_In, in_map. by apply list_elem_of_In.
  - exists m'. split; [done|]. split; [done|]. cbn [app]. by rewrite Hp', Hp.
Qed.

Lemma restore_inputs_spec files ms : Forall (indexed files) ms -> forall m, catalog_wf m ->
  Forall (fun meta => 0 <= Manifest.level meta < 16 /\ 0 <= seqno meta < Manifest.next_sequence_ m) ms ->
  exists m', restore_inputs files (map Manifest.path ms) m = Some m' /\ catalog_wf m' /\ all_metas m' ≡ₚ ms ++ all_metas m.
Proof.
  induction 1 as [|meta ms Hx _ IH]; intros m Hw Hin; cbn [map restore_inputs]; [by exists m|].
  rewrite Hx. apply Forall_cons in Hin as [[Hl Hs] Hin].
  destruct (IH (Manifest.add_file m (Manifest.level meta) meta)) as (m' & Hr & Hw' & Hp'); [by apply catalog_wf_add|done|].
  exists m'. split; [done|]. split; [done|]. rewrite Hp', all_metas_add by done. cbn [app]. symmetry. apply Permutation_middle.
Qed.

Lemma compact_publish_disk mio sio rio e job newer older e' b :
  sstables_ e = newer ++ to_merge job ++ older -> to_merge job <> [] -> NoDup (map SST.path_ (sstables_ e)) ->
  compact_publish mio sio rio e job = Some (e', b) ->
  let path := merged_path (db_path_ e) (physical_sequence job) in
  let old_paths := map SST.path_ (to_merge job) in
  memtable_ e' = memtable_ e /\ wal_generation_ e' = wal_generation_ e /\
  exists q file w t removed, logical_sequence (manifest_files job) (to_merge job) 0 = Some q /\ SST.load_index path file = Ok t /\
    remove_inputs (manifest_files job) old_paths (manifest_ e) = Some removed /\
    let added := Manifest.add_file removed 1 (compact_meta path q file w) in
    if b then manifest_ e' = added /\ sst_files_ e' = mset path file (sst_files_ e) /\ sstables_ e' = newer ++ t :: older /\
           exists image, Manifest.save added = Some image /\ manifest_file_ e' = Some image
    else restore_inputs (manifest_files job) old_paths (Manifest.remove_file added 1 path) = Some (manifest_ e') /\
         sst_files_ e' = mdel path (mset path file (sst_files_ e)) /\ sstables_ e' = sstables_ e /\
         (manifest_file_ e' = manifest_file_ e \/ exists image, Manifest.save (manifest_ e') = Some image /\ manifest_file_ e' = Some image).
Proof.
  intros Hs Hne Hnd Hpub path old_paths. revert Hpub. unfold compact_publish. fold path old_paths.
  destruct (logical_sequence _ _ _) as [q|]; [|done]. destruct (compact_merge mio job) as [[file w]|]; [|done].
  destruct (SST.load_index path file) as [t|] eqn:El; [|done]. cbn [manifest_ with_files].
  destruct (remove_inputs _ _ _) as [removed|] eqn:Er; [|done]. destruct (save_manifest sio _) as [image|] eqn:Es.
  - intros [= <- <-]. split; [done|]. split; [done|]. exists q, file, w, t, removed. do 3 (split; [done|]). cbn [sstables_ with_files]. cbv zeta.
    split; [done|]. split; [done|]. split; [|exists image; split; [|done]; unfold save_manifest in Es; by destruct sio].
    cbn [sstables_ with_sstables with_manifest_file]. rewrite Hs in Hnd |- *. by apply replace_run_spec.
  - destruct (restore_inputs _ _ _) as [restored|] eqn:Et; [|done]. intros [= <- <-]. destruct (save_manifest rio restored) as [image|] eqn:Ei;
      (split; [done|]); (split; [done|]); exists q, file, w, t, removed; do 3 (split; [done|]); cbv zeta; cbn [manifest_ with_files with_manifest with_manifest_file].
    + do 3 (split; [done|]). right. exists image. split; [|done]. unfold save_manifest in Ei. by destruct rio.
    + do 3 (split; [done|]). by left.
Qed.

Lemma same_path (l : list Meta) x y : NoDup (map Manifest.path l) -> x ∈ l -> y ∈ l -> Manifest.path x = Manifest.path y -> x = y.
Proof.
  induction l as [|z l IH]; intros Hnd Hx Hy E; [by apply not_elem_of_nil in Hx|]. cbn [map] in Hnd. apply NoDup_cons in Hnd as [Hz Hnd].
  apply elem_of_cons in Hx as [Ex|Hx]; apply elem_of_cons in Hy as [Ey|Hy]; [by subst| | |by apply IH]; exfalso; apply Hz; subst.
  - rewrite E. apply list_elem_of_In, in_map. by apply list_elem_of_In.
  - rewrite <- E. apply list_elem_of_In, in_map. by apply list_elem_of_In.
Qed.

(** The manifest's view of the run that is merged. *)
Lemma run_metas m files newer run older : catalog m (newer ++ run ++ older) -> NoDup (map SST.path_ (newer ++ run ++ older)) ->
  Forall (fun t => exists meta, mget (SST.path_ t) files = Some (Manifest.level meta, meta) /\ Manifest.path meta = SST.path_ t /\ meta ∈ all_metas m) run ->
  exists msn msr mso, all_metas m ≡ₚ msn ++ msr ++ mso /\ StronglySorted (fun a b => b < a) (map seqno msn ++ map seqno msr ++ map seqno mso) /\
    map Manifest.path msn = map SST.path_ newer /\ map Manifest.path msr = map SST.path_ run /\ map Manifest.path mso = map SST.path_ older /\
    Forall (indexed files) msr.
Proof.
  intros [Hw Hmt] Hnd Hin. pose proof (matches_paths _ _ Hmt Hnd) as Hndm. destruct Hmt as (ms & Hp & Hs & Ht).
  rewrite !map_app in Ht. apply map_eq_app in Ht as (msn & msx & -> & Hn & Hx). apply map_eq_app in Hx as (msr & mso & -> & Hr & Ho).
  rewrite !map_app in Hs. exists msn, msr, mso. do 5 (split; [done|]). apply Forall_forall. intros meta Hmeta.
  assert (Hpath : Manifest.path meta ∈ map SST.path_ run) by (rewrite <- Hr; apply list_elem_of_In, in_map; by apply list_elem_of_In).
  apply list_elem_of_In, in_map_iff in Hpath as (t & Et & Ht). rewrite Forall_forall in Hin.
  destruct (Hin t) as (meta' & H1 & H2 & H3); [by apply list_elem_of_In|].
  assert (meta = meta') as <-.
  { apply (same_path (all_metas m)); [done| |done|congruence]. rewrite Hp. apply elem_of_app. right. apply elem_of_app. by left. }
  unfold indexed. by rewrite <- Et, H1.
Qed.

Lemma run_falling (qn qr qo : list Z) q : StronglySorted (fun a b => b < a) (qn ++ (q :: qr) ++ qo) -> StronglySorted (fun a b => b < a) (qn ++ q :: qo).
Proof.
  intros H. apply StronglySorted_app in H as (H1 & H2 & H3). cbn [app] in H3. inversion H3 as [|? ? H4 H5]; subst.
  apply StronglySorted_app in H4 as (_ & _ & H4). apply Forall_app in H5 as [_ H5]. apply StronglySorted_app. split; [|split; [done|by constructor]].
  intros x y Hx [->|Hy]%elem_of_cons; [apply H1; [done|by left]|]. apply H1; [done|]. right. apply elem_of_app. by right.
Qed.

(** What publishing does to the catalogue, on success and on failure. *)
Lemma compact_catalog m files newer run older q file w t p removed :
  catalog m (newer ++ run ++ older) -> NoDup (map SST.path_ (newer ++ run ++ older)) -> run <> [] ->
  Forall (fun t => exists meta, mget (SST.path_ t) files = Some (Manifest.level meta, meta) /\ Manifest.path meta = SST.path_ t /\ meta ∈ all_metas m) run ->
  logical_sequence files run 0 = Some q -> remove_inputs files (map SST.path_ run) m = Some removed ->
  SST.path_ t = p -> ~ (p ∈ map SST.path_ (newer ++ run ++ older)) ->
  let added := Manifest.add_file removed 1 (compact_meta p q file w) in
  catalog added (newer ++ t :: older) /\ (forall b, Forall (fun meta => seqno meta < b) (all_metas m) -> Forall (fun meta => seqno meta < b) (all_metas added)) /\
  exists m', restore_inputs files (map SST.path_ run) (Manifest.remove_file added 1 p) = Some m' /\ catalog_wf m' /\ all_metas m' ≡ₚ all_metas m.
Proof.
  intros Hcat Hnd Hne Hin Hq Hrem Hp Hfresh added. pose proof Hcat as [Hw Hmt].
  destruct (run_metas m files newer run older Hcat Hnd Hin) as (msn & msr & mso & Hperm & Hs & Hpn & Hpr & Hpo & Hix).
  assert (Hrange : Forall (fun meta => 0 <= seqno meta < Manifest.next_sequence_ m) (msn ++ msr ++ mso)) by (rewrite <- Hperm; apply Hw).
  pose proof (matches_paths _ _ Hmt Hnd) as Hndm.
  destruct (remove_inputs_spec files msr Hix m Hw Hndm) as (m1 & Hr1 & Hw1 & Hp1).
  { rewrite Hpr. rewrite !map_app in Hnd. apply NoDup_app in Hnd as (_ & _ & Hnd). by apply NoDup_app in Hnd as (Hnd & _). }
  { apply Forall_forall. intros x Hx. rewrite Hperm. apply elem_of_app. right. apply elem_of_app. by left. }
  rewrite Hpr, Hrem in Hr1. injection Hr1 as <-.
  assert (Hrest : all_metas removed ≡ₚ msn ++ mso).
  { apply (Permutation_app_inv_l msr). rewrite Hp1, Hperm, !app_assoc. apply Permutation_app_tail, Permutation_app_comm. }
  assert (Hnext : Manifest.next_sequence_ removed = Manifest.next_sequence_ m) by by eapply remove_inputs_next.
  assert (Hqs : exists meta msr', msr = meta :: msr' /\ q = seqno meta).
  { destruct msr as [|meta msr']; [by destruct run|]. exists meta, msr'. split; [done|].
    rewrite (logical_sequence_spec files run (meta :: msr')) in Hq.
    - injection Hq as <-. cbn [map]. apply max_falling.
      + apply StronglySorted_app in Hs as (_ & _ & Hs). by apply StronglySorted_app in Hs as (_ & Hs & _).
      + apply Forall_app in Hrange as [_ Hrange]. apply Forall_app in Hrange as [Hrange _]. apply Forall_cons in Hrange as [? _]. lia.
    - clear -Hpr Hix. revert run Hpr Hix. generalize (meta :: msr') as l. induction l as [|x l IH]; intros [|t run] E Hix; try done.
      injection E as E1 E2. apply Forall_cons in Hix as [Hx Hix]. constructor; [by rewrite <- E1|by apply IH]. }
  destruct Hqs as (meta & msr' & Emsr & ->). set (cm := compact_meta p (seqno meta) file w) in *.
  assert (Hmeta : 0 <= seqno meta < Manifest.next_sequence_ m).
  { rewrite Emsr in Hrange. apply Forall_app in Hrange as [_ Hrange]. apply Forall_app in Hrange as [Hrange _]. by apply Forall_cons in Hrange as [? _]. }
  pose proof (all_metas_add removed 1 cm Hw1) as Hadd. fold added in Hadd.
  assert (Hwa : catalog_wf added) by (apply catalog_wf_add; [done|lia|done|rewrite Hnext; exact Hmeta]).
  split; [|split].
  - split; [done|]. exists (msn ++ cm :: mso). split; [|split].
    + rewrite Hadd, Hrest. apply Permutation_middle.
    + rewrite map_app. cbn [map]. rewrite Emsr in Hs. cbn [map] in Hs. by apply run_falling in Hs.
    + rewrite !map_app. cbn [map]. by rewrite Hpn, Hpo, Hp.
  - intros b Hb. rewrite Hadd, Hrest. rewrite Hperm, Emsr in Hb. apply Forall_app in Hb as [Hb1 Hb2]. cbn [app] in Hb2. apply Forall_cons in Hb2 as [Hb2 Hb3].
    apply Forall_app in Hb3 as [_ Hb3]. constructor; [exact Hb2|]. by apply Forall_app.
  - assert (Hfm : ~ (p ∈ map Manifest.path (all_metas removed))).
    { rewrite Hrest, map_app, Hpn, Hpo. intros Hx. apply Hfresh. rewrite !map_app. apply elem_of_app in Hx as [Hx|Hx]; apply elem_of_app; [by left|right; apply elem_of_app; by right]. }
    assert (Hndr : NoDup (map Manifest.path (all_metas removed))).
    { rewrite <- Hp1, map_app in Hndm. by apply NoDup_app in Hndm as (_ & _ & ?). }
    destruct (add_remove_metas removed cm Hw1) as [Hw2 Hp2]; [done|by rewrite Hnext|done|done|].
    destruct (restore_inputs_spec files msr Hix _ Hw2) as (m' & Hm' & Hw' & Hp').
    { apply Forall_forall. intros x Hx. assert (Hxm : x ∈ all_metas m) by (rewrite Hperm; apply elem_of_app; right; apply elem_of_app; by left).
      split; [by apply (in_level_files m)|]. pose proof (cw_seqs _ Hw) as Hsq. rewrite Forall_forall in Hsq. specialize (Hsq x Hxm). simpl. rewrite Hnext. exact Hsq. }
    exists m'. rewrite Hpr in Hm'. split; [exact Hm'|]. split; [done|]. by rewrite Hp', Hp2.
Qed.

Definition compacted (b : bool) (job : CompactJob) : CompactPc := if b then CompactPublished (map SST.path_ (to_merge job)) else CompactIdle.

(** The inputs of a published compaction are retired. *)
Lemma inputs_retired e e' f newer run older n t : names_ok e (flush_seqs f ++ [n]) -> sstables_ e = newer ++ run ++ older ->
  db_path_ e' = db_path_ e -> Manifest.next_sequence_ (manifest_ e') = Manifest.next_sequence_ (manifest_ e) ->
  sstables_ e' = newer ++ t :: older -> named (db_path_ e) (SST.path_ t) n -> Forall (retired e' f) (map SST.path_ run).
Proof.
  intros (ns & H1 & H2 & H3 & _) Hs Hd Hn Hs' Ht. rewrite Hs in H1. apply Forall2_app_inv_l in H1 as (nn & nr & Nn & Nr & ->).
  apply Forall2_app_inv_l in Nr as (nm & no & Nm & No & ->). apply Forall_forall. intros p (x & <- & Hx)%list_elem_of_In%in_map_iff.
  apply list_elem_of_In, list_elem_of_lookup in Hx as [i Hi]. destruct (Forall2_lookup_l _ _ _ i x Nm Hi) as (k & Hk & Hname). apply list_elem_of_lookup_2 in Hk.
  exists k. rewrite Hd, Hn. split; [done|]. split.
  { rewrite Forall_forall in H3. assert (Hin : k ∈ (nn ++ nm ++ no) ++ flush_seqs f ++ [n]); [|specialize (H3 k Hin); lia].
    apply elem_of_app. left. apply elem_of_app. right. apply elem_of_app. by left. }
  apply NoDup_app in H2 as (H2 & H2' & _). split.
  - rewrite Hs', map_app. cbn [map]. intros Hin.
    assert (Hother : forall ts qs, Forall2 (fun t n => named (db_path_ e) (SST.path_ t) n) ts qs -> SST.path_ x ∈ map SST.path_ ts -> k ∈ qs).
    { clear -Hname. intros ts qs H (y & E & Hy)%list_elem_of_In%in_map_iff. apply list_elem_of_In, list_elem_of_lookup in Hy as [j Hj].
      destruct (Forall2_lookup_l _ _ _ j y H Hj) as (k' & Hk' & Hn'). rewrite E in Hn'. rewrite (named_inj _ _ _ _ Hname Hn'). by eapply list_elem_of_lookup_2. }
    apply NoDup_app in H2 as (_ & D1 & H2). apply NoDup_app in H2 as (_ & D2 & _).
    apply elem_of_app in Hin as [Hin|[Hin|Hin]%elem_of_cons].
    + apply (D1 k); [by apply (Hother newer)|]. apply elem_of_app. by left.
    + rewrite Hin in Hname. apply (H2' k).
      * apply elem_of_app. right. apply elem_of_app. by left.
      * rewrite (named_inj _ _ _ _ Hname Ht). apply elem_of_app. right. by left.
    + apply (D2 k); [done|]. by apply (Hother older).
  - intros Hf. apply (H2' k); [apply elem_of_app; right; apply elem_of_app; by left|]. apply elem_of_app. by left.
Qed.

Lemma contents_tables e e' job newer older t : sstables_ e = newer ++ to_merge job ++ older -> (complete_snapshot job = true -> older = []) ->
  sstables_ e' = newer ++ t :: older -> SST.rep t (List.filter (keep (complete_snapshot job)) (merged true (map sst_entries (to_merge job)))) ->
  contents (tables e') = contents (tables e).
Proof.
  intros Hs Hc Hs' Hrep. rewrite Hs, Hs', !map_app. cbn [map]. rewrite (sst_entries_rep _ _ Hrep). apply contents_compact.
  intros H. by rewrite (Hc H).
Qed.

Lemma compact_publish_dinv mio sio rio e f job e' b :
  dinv {| engine := e; flusher := f; compactor := Compacting job |} ->
  sinv {| engine := e'; flusher := f; compactor := compacted b job |} ->
  compact_publish mio sio rio e job = Some (e', b) ->
  dinv {| engine := e'; flusher := f; compactor := compacted b job |}.
Proof.
  intros [Hsys (stale & Hlg & Hst & Hsh) Hcat Hsv Hf Hfl Hc] Hsys' Hpub. pose proof (sinv_paths _ Hsys) as Hnd.
  destruct Hsys as [He Hn _ [Hne (newer & older & Hs & Hcomp)]]. cbn [engine flusher compactor flush_seqs compact_seqs compact_pending] in *.
  pose proof (compact_publish_spec _ _ _ _ _ newer older _ _ He Hs Hcomp Hne Hnd Hpub) as (_ & _ & Hdb & Hwals & Himm & Hb).
  pose proof (compact_next_sequence _ _ _ _ _ _ _ Hpub) as Hnext.
  destruct (compact_publish_disk _ _ _ _ _ newer older _ _ Hs Hne Hnd Hpub) as (Hmem & Hgen & q & file & w & t & removed & Hq & Hl & Hr & Hd).
  set (path := merged_path (db_path_ e) (physical_sequence job)) in *.
  assert (Hin : physical_sequence job ∈ flush_seqs f ++ [physical_sequence job]) by (apply elem_of_app; right; by left).
  pose proof (taken_range _ _ _ Hn Hin) as Hrange. assert (Hnamed : named (db_path_ e) path (physical_sequence job)) by (split; [lia|by right]).
  pose proof (fresh_path _ _ _ _ Hn Hin Hnamed) as Hfresh. pose proof (load_index_path _ _ _ Hl) as Hpt.
  assert (Hlog : logged stale e') by (destruct Hlg as [L1 L2]; split; unfold segments; rewrite ?Hwals, ?Himm, ?Hmem, ?Hgen; done).
  assert (Hcc := compact_catalog (manifest_ e) (manifest_files job) newer (to_merge job) older q file w t path removed).
  rewrite <- Hs in Hcc. specialize (Hcc Hcat Hnd Hne Hc Hq Hr Hpt Hfresh). cbv zeta in Hcc, Hd. destruct Hcc as (Hc1 & Hc2 & m' & Hm' & Hw' & Hp').
  destruct b; cbn [compacted] in *.
  - destruct Hd as (Hman & Hfiles & Hs' & image & Hsave & Hmf). rewrite <- Hman, <- Hs' in Hc1. destruct Hb as (t' & Hst' & _ & Hrep).
    rewrite Hs' in Hst'. apply app_inv_head in Hst'. injection Hst' as <-.
    split; cbn [engine flusher compactor]; [done| |done| | | |].
    + exists stale. split; [done|]. split; [done|]. eapply Forall_impl; [exact Hsh|]. intros r Hshr k x Hk.
      rewrite (contents_tables e e' job newer older t Hs Hcomp Hs' Hrep). by apply Hshr.
    + eapply saved_now; [exact (si_names _ Hsys')|done| |exact Hmf]. cbn [engine]. by rewrite Hman.
    + rewrite Hfiles, Hs'. assert (Hall : Forall (file_backed (mset path file (sst_files_ e))) (sstables_ e)).
      { eapply files_other; [|exact Hfresh|exact Hf]. intros p Hpp. by apply mget_mset_ne. }
      rewrite Hs in Hall. apply Forall_app in Hall as [A1 A2]. apply Forall_app in A2 as [_ A2]. apply Forall_app. split; [done|]. constructor; [|done].
      exists file. rewrite Hpt. split; [apply mget_mset_eq|exact Hl].
    + unfold flush_pending in *. destruct f; auto. rewrite Hman. by apply Hc2.
    + cbn [compact_pending]. eapply inputs_retired; [exact Hn|exact Hs|exact Hdb|exact Hnext|exact Hs'|by rewrite Hpt].
  - destruct Hd as (Hrest & Hfiles & Hs' & Hmf). rewrite Hm' in Hrest. injection Hrest as ->.
    assert (Hcat' : catalog (manifest_ e') (sstables_ e')) by (split; [done|]; rewrite Hs'; eapply matches_perm; [exact Hp'|apply Hcat]).
    split; cbn [engine flusher compactor]; [done| |done| | | |done].
    + exists stale. split; [done|]. split; [done|]. by rewrite Hs'.
    + destruct Hmf as [Hmf|(image & Hsave & Hmf)]; [|by eapply saved_now; [exact (si_names _ Hsys')|..]].
      unfold saved_ok in *. rewrite Hmf, Hs', Hdb, Hnext. exact Hsv.
    + rewrite Hfiles, Hs'. eapply files_other; [|exact Hfresh|exact Hf]. intros p Hpp. rewrite mget_mdel_ne by done. by apply mget_mset_ne.
    + unfold flush_pending in *. destruct f; auto. by rewrite Hp'.
Qed.

Lemma mget_mdels (ps : list bytes) : forall (files : list (bytes * bytes)) p, ~ (p ∈ ps) ->
  mget p (fold_left (fun fs q => mdel q fs) ps files) = mget p files.
Proof.
  induction ps as [|q ps IH]; intros files p Hp; [done|]. cbn [fold_left]. apply not_elem_of_cons in Hp as [Hq Hp]. rewrite IH by done. by apply mget_mdel_ne.
Qed.

Lemma remove_files_dinv e f ps : dinv {| engine := e; flusher := f; compactor := CompactPublished ps |} ->
  sinv {| engine := remove_files e ps; flusher := f; compactor := CompactIdle |} ->
  dinv {| engine := remove_files e ps; flusher := f; compactor := CompactIdle |}.
Proof.
  intros [Hsys Hlg Hcat Hsv Hf Hfl Hc] Hsys'. cbn [engine flusher compactor compact_pending] in *. split; cbn [engine flusher compactor]; try done.
  - destruct Hlg as (stale & [L1 L2] & Hrest). exists stale. by split.
  - cbn [remove_files sst_files_ with_files sstables_]. rewrite Forall_forall in Hf |- *. intros t Ht. eapply file_backed_other; [|by apply Hf].
    apply mget_mdels. intros Hp. rewrite Forall_forall in Hc. destruct (Hc _ Hp) as (n & _ & _ & Hx & _). apply Hx, list_elem_of_In, in_map. by apply list_elem_of_In.
Qed.

(** ** Every step keeps the invariant *)

Section Life.
Context (coin replay_coin : Z -> nat) (padding : Z -> bytes) (fsync auto_compaction : bool).
Context (Hpad : forall seq, length (padding seq) = 4%nat).

Definition event_fits (ev : Event) : Prop := match ev with Client op => op_fits op | _ => True end.

Lemma flush_begin_dinv e c e' job : dinv {| engine := e; flusher := FlushIdle; compactor := c |} -> flush_begin e = Some (e', job) ->
  sinv {| engine := e'; flusher := Flushing job; compactor := c |} -> dinv {| engine := e'; flusher := Flushing job; compactor := c |}.
Proof.
  intros [Hsys Hlg Hcat Hsv Hf Hfl Hc] Hb Hsys'. cbn [engine flusher compactor] in *. unfold flush_begin in Hb.
  destruct (immutable_memtables_ e) as [|[m g] rest] eqn:Ei; [done|]. injection Hb as <- <-.
  destruct (same_disk_fields _ _ FlushIdle c (same_disk_allocate e) Hcat Hsv Hf Hfl Hc) as (C1 & C2 & C3 & C4 & C5).
  split; cbn [engine flusher compactor]; try done.
  - destruct Hlg as (stale & [L1 L2] & Hrest). exists stale. by split.
  - change (Forall (fun meta => seqno meta < Manifest.next_sequence_ (manifest_ e)) (all_metas (manifest_ e))). destruct Hcat as [[_ _ W _] _].
    eapply Forall_impl; [exact W|]. simpl. lia.
  - unfold compact_pending in *. destruct c as [|cj|ps]; [done|exact C5|]. clear C5. rewrite Forall_forall in Hc |- *. intros p Hp.
    destruct (Hc p Hp) as (n & H1 & H2 & H3 & H4). exists n. split; [done|]. split; [simpl; unfold Manifest.get_next_sequence; lia|]. split; [done|].
    cbn [flush_seqs flush_seq]. intros [E|E%not_elem_of_nil]%elem_of_cons; [|done]. unfold Manifest.get_next_sequence in E. lia.
Qed.

Lemma compact_begin_dinv e f e' job : dinv {| engine := e; flusher := f; compactor := CompactIdle |} -> compact_begin e = Some (e', job) ->
  sinv {| engine := e'; flusher := f; compactor := Compacting job |} -> dinv {| engine := e'; flusher := f; compactor := Compacting job |}.
Proof.
  intros [Hsys Hlg Hcat Hsv Hf Hfl Hc] Hb Hsys'. pose proof (sinv_paths _ Hsys) as Hnd. pose proof (si_compact _ Hsys') as [_ (newer & older & Hrun & _)].
  cbn [engine flusher compactor] in *. unfold compact_begin in Hb.
  destruct (_ <? _)%nat; [done|]. destruct (rev (select_run (rev (sstables_ e)) [] None)) as [|t0 merge]; [done|]. injection Hb as <- <-.
  destruct (same_disk_fields _ _ f CompactIdle (same_disk_allocate e) Hcat Hsv Hf Hfl Hc) as (C1 & C2 & C3 & C4 & _).
  split; cbn [engine flusher compactor]; try done.
  - destruct Hlg as (stale & [L1 L2] & Hrest). exists stale. by split.
  - cbn [compact_pending to_merge manifest_files] in *. apply Forall_forall. intros t Ht. unfold input_ok. change (all_metas (manifest_ _)) with (all_metas (manifest_ e)).
    destruct Hcat as [Hw Hmt]. assert (Hp : SST.path_ t ∈ map Manifest.path (all_metas (manifest_ e))).
    { rewrite (matches_listed _ _ _ Hmt). apply list_elem_of_In, in_map, list_elem_of_In. change (t ∈ sstables_ e). cbn [sstables_ with_manifest to_merge] in Hrun. rewrite Hrun.
      apply elem_of_app. right. apply elem_of_app. by left. }
    apply list_elem_of_In, in_map_iff in Hp as (meta & Ep & Hm%list_elem_of_In). exists meta. rewrite <- Ep.
    split; [|done]. apply manifest_index_spec; [done|by eapply matches_paths|done].
Qed.

Lemma sys_step_dinv s ev s' : dinv s -> event_ok coin padding fsync ev -> event_fits ev ->
  sys_step coin padding fsync auto_compaction s ev = Some s' -> dinv s'.
Proof.
  intros Hd Hok Hfit Hstep. destruct (sys_step_sinv coin padding fsync auto_compaction s ev s' (di_sys _ Hd) Hok Hstep) as [Hsys' _].
  destruct s as [e f c]. revert Hstep. destruct ev as [op| |cio sio| | |mio sio rio|]; cbn [sys_step engine flusher compactor].
  - intros [= <-]. pose proof (extends_client coin padding fsync e op) as Hx. destruct Hd as [Hsys Hlg Hcat Hsv Hf Hfl Hc]. cbn [engine flusher compactor] in *.
    destruct (same_disk_fields _ _ f c (same_disk_extends _ _ Hx) Hcat Hsv Hf Hfl Hc) as (C1 & C2 & C3 & C4 & C5).
    split; cbn [engine flusher compactor]; try done. destruct Hlg as (stale & Hl & Hst & Hsh). exists stale.
    split; [|split; [done|by rewrite (ex_sst _ _ Hx)]]. apply client_logged; [done|apply Hsys|done|exact Hok|exact Hfit].
  - destruct f; try done. destruct (flush_begin e) as [[e' job]|] eqn:E; [|done]. intros [= <-]. by eapply flush_begin_dinv.
  - destruct f as [|job|]; try done. destruct (flush_publish _ _ _ _ _) as [[e' b]|] eqn:E; [|done].
    intros Hs. assert (s' = {| engine := e'; flusher := flushed b (wal_to_delete job); compactor := c |}) as -> by (destruct b; by injection Hs).
    by eapply flush_publish_dinv.
  - destruct f as [| |g]; try done. intros [= <-]. destruct Hd as [Hsys (stale & Hl & Hst & Hsh) Hcat Hsv Hf Hfl Hc]. cbn [engine flusher compactor published] in *.
    destruct stale as [|[rows g'] [|]]; try done. injection Hst as ->.
    destruct (same_disk_fields _ _ (FlushPublished g) c (same_disk_remove_wal e g) Hcat Hsv Hf Hfl Hc) as (C1 & C2 & C3 & C4 & C5).
    split; cbn [engine flusher compactor]; try done. exists []. split; [by eapply remove_wal_logged|done].
  - destruct c; try done. destruct (compact_begin e) as [[e' job]|] eqn:E; [|done]. intros [= <-]. by eapply compact_begin_dinv.
  - destruct c as [|job|]; try done. destruct (compact_publish _ _ _ _ _) as [[e' b]|] eqn:E.
    + intros Hs. assert (s' = {| engine := e'; flusher := f; compactor := compacted b job |}) as -> by (destruct b; by injection Hs).
      by eapply compact_publish_dinv.
    + intros [= <-]. destruct Hd as [Hsys Hlg Hcat Hsv Hf Hfl Hc]. by split.
  - destruct c as [| |ps]; try done. intros [= <-]. by apply remove_files_dinv.
Qed.

(** ** Lives *)

(** [None]: some event cannot happen; [Some None]: a constructor threw. *)
Fixpoint life (s : System) (evs : list LifeEvent) : option (option System) :=
  match evs with
  | [] => Some (Some s)
  | ev :: evs' =>
      match life_step coin replay_coin padding fsync auto_compaction s ev with
      | None => None
      | Some None => Some None
      | Some (Some s) => life s evs'
      end
  end.

(** The limits hold whenever the database is left. *)
Fixpoint life_limits (s : System) (evs : list LifeEvent) : bool :=
  match evs with
  | [] => true
  | ev :: evs' =>
      match ev with Step _ => true | Crash => limits (engine s) | Restart io => limits (shutdown io (engine s)) end &&
      match life_step coin replay_coin padding fsync auto_compaction s ev with Some (Some s) => life_limits s evs' | _ => true end
  end.

Definition life_ok (ev : LifeEvent) : Prop :=
  match ev with Step ev => event_ok coin padding fsync ev /\ event_fits ev | _ => True end.

Definition life_ops (evs : list LifeEvent) : list EngineOp :=
  concat (map (fun ev => match ev with Step (Client op) => [op] | _ => [] end) evs).

Lemma restart_spec s : dinv s -> limits (engine s) = true ->
  exists s', restart replay_coin padding fsync (db_path_ (engine s)) (disk_of (engine s)) = Some s' /\ dinv s' /\ holds (engine s') = holds (engine s).
Proof.
  intros Hd Hl. destruct (reopen_spec replay_coin padding fsync Hpad s Hd Hl) as (e' & E & Hh & Hd'). unfold restart. rewrite E. by exists (idle e').
Qed.

Local Instance life_engine : StorageEngine Engine := lsm_engine coin padding fsync.
Local Instance life_laws : StorageLaws Engine := lsm_laws coin padding fsync.

Lemma represents_holds e e' st : represents e st -> inv e' -> holds e' = holds e -> represents e' st.
Proof. intros [_ Hr] He' Hh. split; [exact He'|]. intros t k Ht. rewrite <- (Hr t k Ht). simpl. by rewrite (rows_same _ _ t Hh). Qed.

Lemma life_represents evs : forall s st r, dinv s -> represents (engine s) st -> Forall life_ok evs -> life_limits s evs = true -> life s evs = Some r ->
  exists s', r = Some s' /\ dinv s' /\ represents (engine s') (fold_left spec_op (life_ops evs) st).
Proof.
  induction evs as [|ev evs IH]; intros s st r Hd Hrep Hok Hlim; cbn [life life_limits] in *; [intros [= <-]; by exists s|].
  apply Forall_cons in Hok as [Hok1 Hok]. apply andb_prop in Hlim as [Hl1 Hl2].
  assert (Hstep : forall s1, life_step coin replay_coin padding fsync auto_compaction s ev = Some s1 ->
    exists s', s1 = Some s' /\ dinv s' /\ represents (engine s') (fold_left spec_op (life_ops [ev]) st)).
  { intros s1. destruct ev as [ev| |io]; cbn [life_step].
    - destruct (sys_step _ _ _ _ s ev) as [s'|] eqn:E; [|done]. intros [= <-]. exists s'. destruct Hok1 as [Hev Hfit].
      pose proof (sys_step_dinv s ev s' Hd Hev Hfit E) as Hd'. split; [done|]. split; [done|].
      destruct (sys_step_sinv coin padding fsync auto_compaction s ev s' (di_sys _ Hd) Hev E) as [_ Hh].
      destruct ev as [op| | | | | |]; [rewrite Hh; by apply run_op_represents|..]; (eapply represents_holds; [exact Hrep|apply Hd'|exact Hh]).
    - destruct (restart_spec s Hd Hl1) as (s' & -> & Hd' & Hh). intros [= <-]. exists s'. split; [done|]. split; [done|].
      eapply represents_holds; [exact Hrep|apply Hd'|exact Hh].
    - destruct (flusher s) eqn:Ef; try done. destruct (compactor s) eqn:Ec; try done. assert (Es : s = idle (engine s)) by (destruct s; simpl in *; by subst).
      rewrite Es in Hd. destruct (shutdown_dinv (engine s) io Hd) as (Hd1 & Hh1 & Hdb). rewrite <- Hdb.
      destruct (restart_spec (idle (shutdown io (engine s))) Hd1 Hl1) as (s' & E & Hd' & Hh). cbn [engine idle] in *. rewrite E. intros [= <-].
      exists s'. split; [done|]. split; [done|]. eapply represents_holds; [exact Hrep|apply Hd'|congruence]. }
  destruct (life_step _ _ _ _ _ s ev) as [s1|]; [|done]. destruct (Hstep s1 eq_refl) as (s' & -> & Hd' & Hrep'). intros Hlife.
  destruct (IH s' _ r Hd' Hrep' Hok Hl2 Hlife) as (s2 & -> & Hd2 & Hrep2). exists s2. split; [done|]. split; [done|].
  unfold life_ops in *. cbn [map concat] in *. rewrite app_nil_r in Hrep2. by rewrite fold_left_app.
Qed.

(** ** Properties *)

(** An empty directory. *)
Definition empty_disk : Disk := {| disk_logs := []; disk_tables := []; disk_manifest := None |}.

Lemma fresh_database db : exists e0, restart replay_coin padding fsync db empty_disk = Some (idle e0) /\
  dinv (idle e0) /\ holds e0 = [].
Proof.
  eexists. split; [reflexivity|]. split; [|reflexivity]. split; cbn [engine flusher compactor idle].
  - split; cbn [engine flusher compactor idle]; [|exists []; simpl; repeat split; try constructor; done|done..].
    split; cbn [memtable_ immutable_memtables_ sstables_]; [exists []; apply SL.empty_wf|done|constructor|constructor|].
    unfold layers. by_eval.
  - exists []. split; [|by split]. eapply (logged_intro [] _ []); [reflexivity|done|apply log_commit, log_fresh|constructor|constructor; constructor].
  - split; [split; try constructor; done|]. exists []. repeat split; try done. constructor.
  - done.
  - constructor.
  - done.
  - done.
Qed.


End Life.

(** ** A concrete life *)

Definition demo_put (k v : string) : LifeEvent := Step (Client (OpPut (lit "T") (lit k) (demo_row v))).
Definition demo_remove (k : string) : LifeEvent := Step (Client (OpRemove (lit "T") (lit k))).

Definition demo_life : list LifeEvent :=
  [demo_put "a" "1"; demo_put "b" "2"; Crash; demo_remove "a"; Restart true; demo_put "b" "3"; Crash].

Lemma demo_put_ok k v : names (lit "T") (lit k) -> codec_item_ok (demo_row v) = true -> value_fits (demo_row v) ->
  life_ok (fun _ => 1%nat) demo_pad true (demo_put k v).
Proof. intros Hn Hc Hv. split; [split; [exact Hn|exact Hc]|exact Hv]. Qed.

Lemma demo_life_ok : Forall (life_ok (fun _ => 1%nat) demo_pad true) demo_life.
Proof.
  assert (Hn : forall k, In k ["a"; "b"]%string -> names (lit "T") (lit k)).
  { intros k [<-|[<-|[]]]; (split; vm_compute; [reflexivity|discriminate]). }
  assert (Hv : forall v, In v ["1"; "2"; "3"]%string -> codec_item_ok (demo_row v) = true /\ value_fits (demo_row v)).
  { intros v Hin. split; [|exists (default [] (wal_value false (demo_row v)))]; destruct Hin as [<-|[<-|[<-|[]]]]; try split; vm_compute; reflexivity. }
  assert (Hp : forall k v, In k ["a"; "b"]%string -> In v ["1"; "2"; "3"]%string -> life_ok (fun _ => 1%nat) demo_pad true (demo_put k v)).
  { intros k v Hk Hv'. apply demo_put_ok; [by apply Hn|apply (Hv v Hv')|apply (Hv v Hv')]. }
  unfold demo_life. constructor; [apply Hp; simpl; auto|]. constructor; [apply Hp; simpl; auto|]. constructor; [exact I|].
  constructor; [split; [apply Hn; simpl; auto|exact I]|]. constructor; [exact I|]. constructor; [apply Hp; simpl; auto|]. constructor; [exact I|]. constructor.
Qed.


End LsmDurability.
