(* ===== verification/Lexer.v ===== *)
(** * The expression lexer

    [src/expressions/lexer.cpp].  The position in the input is the unread rest of
    it.  A character class test on [char] goes through [unsigned char], as the
    classes of [CLib] do. *)

From Stdlib Require Import ZArith Lia Strings.String.
From stdpp Require Import prelude.
From S2P Require Import Prelude CLib.

Inductive TokenType :=
| IDENTIFIER | PLACEHOLDER_NAME | PLACEHOLDER_VALUE | OPERATOR | KEYWORD | OPEN_PAREN | CLOSE_PAREN
| COMMA | DOT | INDEX | INVALID | END_OF_FILE.

#[export] Instance TokenType_eq_dec : EqDecision TokenType.
Proof. solve_decision. Defined.

Record Token := { ttype : TokenType; tvalue : bytes }.

#[export] Instance Token_eq_dec : EqDecision Token.
Proof. solve_decision. Defined.

Definition tok (t : TokenType) (v : bytes) : Token := {| ttype := t; tvalue := v |}.

Definition kMaxLexerTokens : nat := Z.to_nat 4096.
Definition kMaxExpressionChars : Z := 64 * 1024.
Definition kMaxTokenBytes : Z := 255.

Definition is_identifier_start (c : byte) : bool := isalpha c || is_char 95 c.
Definition is_identifier_char (c : byte) : bool := isalnum c || is_char 95 c.

Definition kKeywords : list bytes :=
  map lit ["SET"; "REMOVE"; "ADD"; "DELETE"; "AND"; "OR"; "NOT"; "BETWEEN"; "IN"; "ATTRIBUTE_EXISTS"; "ATTRIBUTE_NOT_EXISTS"]%string.

Definition skip_whitespace (d : bytes) : bytes := snd (span isspace d).

(** [#name] and [:value]: the mark and the identifier after it. *)
Definition placeholder_token (t : TokenType) (mark : byte) (too_long : bytes) (d : bytes) : Token * bytes :=
  match d with
  | c :: _ =>
      if negb (is_identifier_start c) then (tok INVALID [mark], d)
      else
        let '(name, rest) := span is_identifier_char d in
        if kMaxTokenBytes <? len (mark :: name) then (tok INVALID too_long, rest)
        else (tok t (mark :: name), rest)
  | [] => (tok INVALID [mark], d)
  end.

Definition next_token (d : bytes) : Token * bytes :=
  match skip_whitespace d with
  | [] => (tok END_OF_FILE [], [])
  | c :: r =>
      if is_char 35 c then placeholder_token PLACEHOLDER_NAME c (lit "placeholder-name-too-long") r
      else if is_char 58 c then placeholder_token PLACEHOLDER_VALUE c (lit "placeholder-value-too-long") r
      else if is_identifier_start c then
        let '(val, rest) := span is_identifier_char (c :: r) in
        if kMaxTokenBytes <? len val then (tok INVALID (lit "identifier-too-long"), rest)
        else if bool_decide (upper_bytes val ∈ kKeywords) then (tok KEYWORD (upper_bytes val), rest)
        else (tok IDENTIFIER val, rest)
      else if is_char 61 c then (tok OPERATOR (lit "="), r)
      else if is_char 60 c then
        match r with
        | c' :: r' =>
            if is_char 61 c' then (tok OPERATOR (lit "<="), r')
            else if is_char 62 c' then (tok OPERATOR (lit "<>"), r')
            else (tok OPERATOR (lit "<"), r)
        | [] => (tok OPERATOR (lit "<"), r)
        end
      else if is_char 62 c then
        match r with
        | c' :: r' => if is_char 61 c' then (tok OPERATOR (lit ">="), r') else (tok OPERATOR (lit ">"), r)
        | [] => (tok OPERATOR (lit ">"), r)
        end
      else if is_char 40 c then (tok OPEN_PAREN (lit "("), r)
      else if is_char 41 c then (tok CLOSE_PAREN (lit ")"), r)
      else if is_char 44 c then (tok COMMA (lit ","), r)
      else if is_char 46 c then (tok DOT (lit "."), r)
      else if is_char 91 c then
        let '(digits, rest) := span isdigit r in
        match digits, rest with
        | [], _ => (tok INVALID (lit "["), rest)
        | _, [] => (tok INVALID (lit "["), rest)
        | _, c' :: rest' =>
            if negb (is_char 93 c') then (tok INVALID (lit "["), rest)
            else if 9 <? len digits then (tok INVALID (lit "index-too-large"), rest')
            else (tok INDEX digits, rest')
        end
      else (tok INVALID [c], r)
  end.

(** The loop of [tokenize]; [room] is [kMaxLexerTokens - tokens.size()]. *)
Fixpoint tokenize_loop (room : nat) (d : bytes) : list Token :=
  match room with
  | O => [tok INVALID (lit "token-limit"); tok END_OF_FILE []]
  | S room' =>
      let '(token, d) := next_token d in
      match ttype token with
      | INVALID => [token; tok END_OF_FILE []]
      | END_OF_FILE => [token]
      | _ => token :: tokenize_loop room' d
      end
  end.

Definition tokenize (input : bytes) : list Token :=
  if kMaxExpressionChars <? len input then [tok INVALID (lit "input-too-large"); tok END_OF_FILE []]
  else tokenize_loop kMaxLexerTokens input.

(** ** Printing tokens *)

(** The text of a token; a list index is written in brackets. *)
Definition token_text (t : Token) : bytes :=
  match ttype t with
  | INDEX => lit "[" ++ tvalue t ++ lit "]"
  | _ => tvalue t
  end.

Definition identifier_ok (s : bytes) : bool :=
  match s with
  | c :: _ => is_identifier_start c && forallb is_identifier_char s
  | [] => false
  end.

(** The tokens the lexer produces. *)
Definition token_ok (t : Token) : bool :=
  match ttype t with
  | IDENTIFIER => identifier_ok (tvalue t) && (len (tvalue t) <=? kMaxTokenBytes) && negb (bool_decide (upper_bytes (tvalue t) ∈ kKeywords))
  | KEYWORD => bool_decide (tvalue t ∈ kKeywords)
  | PLACEHOLDER_NAME => match tvalue t with c :: name => is_char 35 c && identifier_ok name && (len (tvalue t) <=? kMaxTokenBytes) | [] => false end
  | PLACEHOLDER_VALUE => match tvalue t with c :: name => is_char 58 c && identifier_ok name && (len (tvalue t) <=? kMaxTokenBytes) | [] => false end
  | OPERATOR => bool_decide (tvalue t ∈ map lit ["="; "<"; "<="; "<>"; ">"; ">="]%string)
  | OPEN_PAREN => bool_decide (tvalue t = lit "(")
  | CLOSE_PAREN => bool_decide (tvalue t = lit ")")
  | COMMA => bool_decide (tvalue t = lit ",")
  | DOT => bool_decide (tvalue t = lit ".")
  | INDEX => negb (bool_decide (tvalue t = [])) && forallb isdigit (tvalue t) && (len (tvalue t) <=? 9)
  | INVALID | END_OF_FILE => false
  end.

(** Tokens written with a blank after each. *)
Definition print_tokens (ts : list Token) : bytes := concat (map (fun t => token_text t ++ lit " ") ts).

(** ** The lexer reads back what is printed *)

Lemma span_blank f s r : Forall (fun x => f x = true) s -> f Byte.x20 = false -> span f (s ++ lit " " ++ r) = (s, lit " " ++ r).
Proof. intros Hs Hb. by apply span_prefix. Qed.

Lemma identifier_start_not_space c : is_identifier_start c = true -> isspace c = false.
Proof. destruct c; vm_compute; congruence. Qed.

Lemma identifier_start_char c : is_identifier_start c = true -> is_identifier_char c = true.
Proof. destruct c; vm_compute; congruence. Qed.

Lemma identifier_start_marks c : is_identifier_start c = true -> is_char 35 c = false /\ is_char 58 c = false.
Proof. destruct c; vm_compute; (discriminate || by split). Qed.

Lemma skip_nonspace c r : isspace c = false -> skip_whitespace (c :: r) = c :: r.
Proof. unfold skip_whitespace. simpl. by intros ->. Qed.

Lemma forallb_Forall {A} (f : A -> bool) l : forallb f l = true -> Forall (fun x => f x = true) l.
Proof. intros H. apply Forall_forall. intros x Hx%list_elem_of_In. rewrite forallb_forall in H. auto. Qed.

Lemma keyword_upper s : s ∈ kKeywords -> upper_bytes s = s /\ identifier_ok s = true /\ len s <= kMaxTokenBytes.
Proof.
  intros H. assert (Hall : Forall (fun s => upper_bytes s = s /\ identifier_ok s = true /\ len s <= kMaxTokenBytes) kKeywords) by by_eval.
  rewrite Forall_forall in Hall. by apply Hall.
Qed.

(** An identifier, keyword or not. *)
Lemma next_identifier s r : identifier_ok s = true -> len s <= kMaxTokenBytes ->
  next_token (s ++ lit " " ++ r) =
  (if bool_decide (upper_bytes s ∈ kKeywords) then tok KEYWORD (upper_bytes s) else tok IDENTIFIER s, lit " " ++ r).
Proof.
  intros Hs Hl. destruct s as [|c s]; [done|]. cbn [identifier_ok] in Hs. apply andb_prop in Hs as [Hc Hall].
  unfold next_token. cbn [app]. rewrite skip_nonspace by by apply identifier_start_not_space.
  destruct (identifier_start_marks c Hc) as [-> ->]. rewrite Hc. rewrite app_comm_cons, span_blank by (done || by apply forallb_Forall).
  destruct (Z.ltb_spec kMaxTokenBytes (len (c :: s))); [lia|]. by destruct (bool_decide _).
Qed.

Lemma next_placeholder t mark msg name r : identifier_ok name = true -> len (mark :: name) <= kMaxTokenBytes ->
  placeholder_token t mark msg (name ++ lit " " ++ r) = (tok t (mark :: name), lit " " ++ r).
Proof.
  intros Hs Hl. destruct name as [|c s]; [done|]. cbn [identifier_ok] in Hs. apply andb_prop in Hs as [Hc Hall].
  unfold placeholder_token. cbn [app]. rewrite Hc. cbn [negb]. rewrite app_comm_cons, span_blank by (done || by apply forallb_Forall).
  destruct (Z.ltb_spec kMaxTokenBytes (len (mark :: c :: s))); [lia|done].
Qed.

Lemma is_char_eq n c : is_char n c = true -> c = byte_of n.
Proof. unfold is_char. intros H%Z.eqb_eq. by rewrite <- H, byte_of_bval. Qed.

Lemma next_token_print t r : token_ok t = true -> next_token (token_text t ++ lit " " ++ r) = (t, lit " " ++ r).
Proof.
  destruct t as [ty v]. unfold token_ok, token_text. cbn [ttype tvalue]. destruct ty; intros H.
  - apply andb_prop in H as [H Hk]. apply andb_prop in H as [H Hl]. apply Z.leb_le in Hl. rewrite next_identifier by done.
    by destruct (bool_decide _).
  - destruct v as [|c v]; [done|]. apply andb_prop in H as [H Hl]. apply andb_prop in H as [Hc H]. apply Z.leb_le in Hl.
    pose proof (is_char_eq _ _ Hc) as ->. unfold next_token. cbn [app]. rewrite skip_nonspace by done. cbn [is_char]. rewrite Hc. by apply next_placeholder.
  - destruct v as [|c v]; [done|]. apply andb_prop in H as [H Hl]. apply andb_prop in H as [Hc H]. apply Z.leb_le in Hl.
    pose proof (is_char_eq _ _ Hc) as ->. unfold next_token. cbn [app]. rewrite skip_nonspace by done. rewrite Hc. by apply next_placeholder.
  - apply bool_decide_eq_true in H. cbn [map] in H. repeat (apply elem_of_cons in H as [->|H]; [reflexivity|]). by apply elem_of_nil in H.
  - apply bool_decide_eq_true in H. destruct (keyword_upper v H) as (Hu & Hi & Hl). rewrite next_identifier by done.
    rewrite Hu. by rewrite bool_decide_eq_true_2.
  - by apply bool_decide_eq_true in H as ->.
  - by apply bool_decide_eq_true in H as ->.
  - by apply bool_decide_eq_true in H as ->.
  - by apply bool_decide_eq_true in H as ->.
  - apply andb_prop in H as [H Hl]. apply andb_prop in H as [Hn H]. apply Z.leb_le in Hl.
    unfold next_token. change ((lit "[" ++ v ++ lit "]") ++ lit " " ++ r) with (byte_of 91 :: (v ++ lit "]") ++ lit " " ++ r).
    rewrite skip_nonspace by done. cbv iota beta zeta. rewrite <- app_assoc.
    change (is_char 35 (byte_of 91)) with false. change (is_char 58 (byte_of 91)) with false. change (is_identifier_start (byte_of 91)) with false.
    change (is_char 61 (byte_of 91)) with false. change (is_char 60 (byte_of 91)) with false. change (is_char 62 (byte_of 91)) with false.
    change (is_char 40 (byte_of 91)) with false. change (is_char 41 (byte_of 91)) with false. change (is_char 44 (byte_of 91)) with false.
    change (is_char 46 (byte_of 91)) with false. change (is_char 91 (byte_of 91)) with true. cbv iota.
    change (lit "]" ++ lit " " ++ r) with (byte_of 93 :: lit " " ++ r). rewrite span_prefix by (done || by apply forallb_Forall).
    destruct v as [|b v]; [done|]. change (is_char 93 (byte_of 93)) with true. cbn [negb]. destruct (Z.ltb_spec 9 (len (b :: v))); [lia|done].
  - done.
  - done.
Qed.

Lemma next_token_skip r : next_token (lit " " ++ r) = next_token r.
Proof. unfold next_token, skip_whitespace. cbn [lit app]. simpl span. by destruct (span isspace r). Qed.

Lemma tokenize_loop_print ts : forall room, (length ts < room)%nat -> forallb token_ok ts = true ->
  tokenize_loop room (print_tokens ts) = ts ++ [tok END_OF_FILE []].
Proof.
  assert (Hgen : forall ts room d, (length ts < room)%nat -> forallb token_ok ts = true -> next_token d = next_token (print_tokens ts) ->
    tokenize_loop room d = ts ++ [tok END_OF_FILE []]).
  { clear. induction ts as [|t ts IH]; intros room d Hr Hok Hd; (destruct room as [|room]; [simpl in Hr; lia|]); cbn [tokenize_loop]; rewrite Hd.
    - done.
    - cbn [forallb] in Hok. apply andb_prop in Hok as [Ht Hok]. unfold print_tokens. cbn [map concat].
      rewrite <- app_assoc, next_token_print by done. fold (print_tokens ts).
      rewrite (IH room) by (simpl in Hr; first [lia|done|apply next_token_skip]).
      unfold token_ok in Ht. destruct (ttype t); done. }
  intros room Hr Hok. by apply Hgen.
Qed.

Lemma tokenize_printed ts :
  forallb token_ok ts = true -> (length ts < kMaxLexerTokens)%nat -> len (print_tokens ts) <= kMaxExpressionChars ->
  tokenize (print_tokens ts) = ts ++ [tok END_OF_FILE []].
Proof.
  intros Hok Hn Hl. unfold tokenize. destruct (Z.ltb_spec kMaxExpressionChars (len (print_tokens ts))); [lia|].
  by apply tokenize_loop_print.
Qed.

(** ** Properties *)

(** The lexer reads back what is printed: any sequence of tokens of the
    expression language, written with a blank after each, within the limits on
    input size and token count, is returned unchanged and followed by one
    end-of-file token. *)
Theorem tokenize_print ts :
  forallb token_ok ts = true -> (length ts < kMaxLexerTokens)%nat -> len (print_tokens ts) <= kMaxExpressionChars ->
  tokenize (print_tokens ts) = ts ++ [tok END_OF_FILE []].
Proof. apply tokenize_printed. Qed.

Lemma tokenize_print_witness :
  tokenize (lit "#a . b [7] >= :v AND attribute_exists ( c ) ") =
  [tok PLACEHOLDER_NAME (lit "#a"); tok DOT (lit "."); tok IDENTIFIER (lit "b"); tok INDEX (lit "7"); tok OPERATOR (lit ">=");
   tok PLACEHOLDER_VALUE (lit ":v"); tok KEYWORD (lit "AND"); tok KEYWORD (lit "ATTRIBUTE_EXISTS"); tok OPEN_PAREN (lit "(");
   tok IDENTIFIER (lit "c"); tok CLOSE_PAREN (lit ")"); tok END_OF_FILE []] /\
  tokenize (print_tokens [tok IDENTIFIER (lit "a"); tok OPERATOR (lit "<>"); tok PLACEHOLDER_VALUE (lit ":v")]) =
  [tok IDENTIFIER (lit "a"); tok OPERATOR (lit "<>"); tok PLACEHOLDER_VALUE (lit ":v"); tok END_OF_FILE []].
Proof.
  split; [vm_compute; reflexivity|].
  apply (tokenize_print [tok IDENTIFIER (lit "a"); tok OPERATOR (lit "<>"); tok PLACEHOLDER_VALUE (lit ":v")]);
    [vm_compute; reflexivity|vm_compute; lia|vm_compute; discriminate].
Defined.
