(* ===== verification/Parser.v ===== *)
(** * The expression parser

    [include/cynamodb/expressions/ast.hpp] and [src/expressions/parser.cpp].  The
    position in the token vector is the unread rest of it, and [back] the last
    token, which [peek] and [consume] return at the end.  A parse function takes
    the number of levels left, [kMaxParserDepth + 1 - depth]: it is zero exactly
    when the source's depth check fails, and every call passes one less. *)

From Stdlib Require Import ZArith Lia Strings.String.
From stdpp Require Import prelude.
From S2P Require Import Prelude Types CLib Lexer.

(** ** Syntax trees *)

Inductive PathSegment := SegName (name : bytes) | SegIndex (index : Z).

(** Children are never null in a tree the parser builds. *)
#[warnings="-register-all"]
Inductive ASTNode :=
| LiteralNode (value : AttrPtr)
| BinaryOpNode (op : bytes) (lhs rhs : ASTNode)
| IdentifierNode (name : bytes)
| PlaceholderNode (name : bytes)
| FunctionCallNode (function_name : bytes) (arguments : list ASTNode)
| PathNode (segments : list PathSegment).

Inductive ParserError := UnexpectedToken | ExpectedIdentifier | ExpectedOperator | InvalidExpression.

Definition kMaxParserDepth : nat := 50.
Definition kMaxParserTokens : Z := 4096.
Definition kMaxFunctionArgs : Z := 128.
Definition kMaxIdentifierBytes : Z := 255.

Definition is_supported_comparison_operator (op : bytes) : bool :=
  bool_decide (op ∈ map lit ["="; "<>"; "<"; "<="; ">"; ">="]%string).

Definition is_allowed_function_name (name : bytes) : bool :=
  bool_decide (name ∈ map lit ["ATTRIBUTE_EXISTS"; "ATTRIBUTE_NOT_EXISTS"; "NOT"]%string).

Fixpoint fold_constants (node : ASTNode) : ASTNode :=
  match node with
  | BinaryOpNode op l r => BinaryOpNode op (fold_constants l) (fold_constants r)
  | _ => node
  end.

Section Tokens.
Context (back : Token).

Definition peek (ts : list Token) : Token := match ts with t :: _ => t | [] => back end.

Definition consume (ts : list Token) : Token * list Token := match ts with t :: ts' => (t, ts') | [] => (back, []) end.

Definition peek_is (t : TokenType) (ts : list Token) : bool := bool_decide (ttype (peek ts) = t).

(** [match]: the rest when the next token has the type. *)
Definition match_type (t : TokenType) (ts : list Token) : option (list Token) :=
  if peek_is t ts then Some (tl ts) else None.

Definition match_keyword (keyword : bytes) (ts : list Token) : option (list Token) :=
  if peek_is KEYWORD ts && bytes_eqb (tvalue (peek ts)) keyword then Some (tl ts) else None.

Definition Result : Type := expected (ASTNode * list Token) ParserError.

(** ** Paths *)

(** The loop of [parse_path]; [room] is [kMaxParserDepth + 1 - segments.size()]. *)
Fixpoint parse_path_loop (room : nat) (segments : list PathSegment) (ts : list Token) : Result :=
  if negb (peek_is DOT ts || peek_is INDEX ts) then Ok (PathNode segments, ts)
  else
    match room with
    | O => Err InvalidExpression
    | S room' =>
        if peek_is DOT ts then
          let '(_, ts) := consume ts in
          let '(seg, ts) := consume ts in
          match ttype seg with
          | IDENTIFIER | KEYWORD | PLACEHOLDER_NAME =>
              if bool_decide (tvalue seg = []) || (kMaxIdentifierBytes <? len (tvalue seg)) then Err InvalidExpression
              else parse_path_loop room' (segments ++ [SegName (tvalue seg)]) ts
          | _ => Err ExpectedIdentifier
          end
        else
          let '(seg, ts) := consume ts in
          match stoul (tvalue seg) with
          | None => Err InvalidExpression
          | Some idx => parse_path_loop room' (segments ++ [SegIndex idx]) ts
          end
    end.

Definition parse_path (root : bytes) (ts : list Token) : Result := parse_path_loop kMaxParserDepth [SegName root] ts.

(** ** The loops of the grammar *)

(** [while (match_keyword(op))] with a right operand each time; every turn
    consumes a token, so the number of tokens bounds the turns. *)
Fixpoint chain_loop (operand : list Token -> Result) (op : bytes) (fuel : nat) (left : ASTNode) (ts : list Token) : Result :=
  match fuel with
  | O => Err InvalidExpression
  | S fuel' =>
      match match_keyword op ts with
      | None => Ok (left, ts)
      | Some ts => let? p := operand ts in chain_loop operand op fuel' (BinaryOpNode op left (fst p)) (snd p)
      end
  end.

(** The comma-separated operands after [IN] and in a function call; [room] is how
    many more arguments the limit admits. *)
Fixpoint args_loop (operand : list Token -> Result) (room : nat) (args : list ASTNode) (ts : list Token)
  : expected (list ASTNode * list Token) ParserError :=
  match room with
  | O => Err InvalidExpression
  | S room' =>
      let? p := operand ts in
      let args := args ++ [fst p] in
      if peek_is COMMA (snd p) then args_loop operand room' args (snd (consume (snd p))) else Ok (args, snd p)
  end.

Definition expect_close (ts : list Token) : expected (list Token) ParserError :=
  match match_type CLOSE_PAREN ts with Some ts => Ok ts | None => Err UnexpectedToken end.

(** What follows the first operand of a comparison. *)
Definition comparison_tail (operand : list Token -> Result) (left : ASTNode) (ts : list Token) : Result :=
  if peek_is OPERATOR ts then
    let '(op_token, ts) := consume ts in
    if negb (is_supported_comparison_operator (tvalue op_token)) then Err UnexpectedToken
    else let? p := operand ts in Ok (BinaryOpNode (tvalue op_token) left (fst p), snd p)
  else match match_keyword (lit "BETWEEN") ts with
  | Some ts =>
      let? lo := operand ts in
      match match_keyword (lit "AND") (snd lo) with
      | None => Err UnexpectedToken
      | Some ts => let? hi := operand ts in Ok (FunctionCallNode (lit "BETWEEN") [left; fst lo; fst hi], snd hi)
      end
  | None =>
      match match_keyword (lit "IN") ts with
      | Some ts =>
          match match_type OPEN_PAREN ts with
          | None => Err UnexpectedToken
          | Some ts =>
              let? p := args_loop operand (Z.to_nat kMaxFunctionArgs) [left] ts in
              let? ts := expect_close (snd p) in
              Ok (FunctionCallNode (lit "IN") (fst p), ts)
          end
      | None => Ok (left, ts)
      end
  end.

(** An identifier or keyword: a function call or a path. *)
Definition name_tail (operand : list Token -> Result) (token : Token) (ts : list Token) : Result :=
  if bool_decide (tvalue token = []) || (kMaxIdentifierBytes <? len (tvalue token)) then Err InvalidExpression
  else if bool_decide (ttype token = KEYWORD) && negb (is_allowed_function_name (tvalue token)) then Err UnexpectedToken
  else if peek_is OPEN_PAREN ts then
    let '(_, ts) := consume ts in
    let? p := (if peek_is CLOSE_PAREN ts then Ok ([], ts) else args_loop operand (Z.to_nat kMaxFunctionArgs) [] ts) in
    let? ts := expect_close (snd p) in
    Ok (FunctionCallNode (tvalue token) (fst p), ts)
  else parse_path (tvalue token) ts.

(** ** The grammar *)

Fixpoint parse_or (levels : nat) (ts : list Token) : Result :=
  match levels with
  | O => Err InvalidExpression
  | S l => let? p := parse_and l ts in chain_loop (parse_and l) (lit "OR") (S (length (snd p))) (fst p) (snd p)
  end
with parse_and (levels : nat) (ts : list Token) : Result :=
  match levels with
  | O => Err InvalidExpression
  | S l => let? p := parse_not l ts in chain_loop (parse_not l) (lit "AND") (S (length (snd p))) (fst p) (snd p)
  end
with parse_not (levels : nat) (ts : list Token) : Result :=
  match levels with
  | O => Err InvalidExpression
  | S l =>
      match match_keyword (lit "NOT") ts with
      | Some ts => let? p := parse_not l ts in Ok (FunctionCallNode (lit "NOT") [fst p], snd p)
      | None => parse_comparison l ts
      end
  end
with parse_comparison (levels : nat) (ts : list Token) : Result :=
  match levels with
  | O => Err InvalidExpression
  | S l => let? p := parse_primary l ts in comparison_tail (parse_primary l) (fst p) (snd p)
  end
with parse_primary (levels : nat) (ts : list Token) : Result :=
  match levels with
  | O => Err InvalidExpression
  | S l =>
      match match_type OPEN_PAREN ts with
      | Some ts =>
          let? p := parse_or l ts in
          let? ts := expect_close (snd p) in
          Ok (fst p, ts)
      | None =>
          let '(token, ts) := consume ts in
          match ttype token with
          | IDENTIFIER | KEYWORD => name_tail (parse_or l) token ts
          | PLACEHOLDER_NAME =>
              if (kMaxIdentifierBytes <? len (tvalue token)) || (len (tvalue token) <? 2) then Err InvalidExpression
              else parse_path (tvalue token) ts
          | PLACEHOLDER_VALUE =>
              if (kMaxIdentifierBytes <? len (tvalue token)) || (len (tvalue token) <? 2) then Err InvalidExpression
              else Ok (PlaceholderNode (tvalue token), ts)
          | _ => Err UnexpectedToken
          end
      end
  end.
End Tokens.

Definition section_keywords : list bytes := map lit ["SET"; "REMOVE"; "ADD"; "DELETE"]%string.

Definition parse_expression (tokens : list Token) : expected ASTNode ParserError :=
  let back := default (tok END_OF_FILE []) (last tokens) in
  if kMaxParserTokens <? len tokens then Err InvalidExpression
  else if existsb (fun t => bool_decide (ttype t = INVALID)) tokens then Err InvalidExpression
  else
    let first := peek back tokens in
    let tokens := if bool_decide (ttype first = KEYWORD) && bool_decide (tvalue first ∈ section_keywords)
                  then snd (consume back tokens) else tokens in
    let? p := parse_or back (S kMaxParserDepth) tokens in
    if negb (peek_is back END_OF_FILE (snd p)) then Err UnexpectedToken
    else Ok (fold_constants (fst p)).

Definition parse_single_path (text : bytes) : option (list PathSegment) :=
  match parse_expression (tokenize text) with
  | Ok (PathNode segments) => Some segments
  | _ => None
  end.

(** ** Printing

    Trees are written with the parentheses the precedences require: [OR] binds
    weakest, then [AND], [NOT] and the comparisons; [OR] and [AND] associate to
    the left. *)

Section Induction.
Context (P : ASTNode -> Prop).
Context (Hlit : forall v, P (LiteralNode v)) (Hbin : forall op l r, P l -> P r -> P (BinaryOpNode op l r))
        (Hid : forall n, P (IdentifierNode n)) (Hph : forall n, P (PlaceholderNode n))
        (Hfun : forall f args, Forall P args -> P (FunctionCallNode f args)) (Hpath : forall segs, P (PathNode segs)).

Fixpoint ast_ind (e : ASTNode) : P e :=
  match e with
  | LiteralNode v => Hlit v
  | BinaryOpNode op l r => Hbin op l r (ast_ind l) (ast_ind r)
  | IdentifierNode n => Hid n
  | PlaceholderNode n => Hph n
  | FunctionCallNode f args =>
      Hfun f args ((fix go l : Forall P l := match l with [] => Forall_nil_2 P | x :: l' => Forall_cons_2 P x l' (ast_ind x) (go l') end) args)
  | PathNode segs => Hpath segs
  end.
End Induction.

Inductive Shape := ShapeOr (l r : ASTNode) | ShapeAnd (l r : ASTNode) | ShapeCompare (op : bytes) (l r : ASTNode)
| ShapeNot (x : ASTNode) | ShapeBetween (x lo hi : ASTNode) | ShapeIn (x : ASTNode) (l : list ASTNode)
| ShapeCall (f : bytes) (args : list ASTNode) | ShapeLeaf.

Definition shape (e : ASTNode) : Shape :=
  match e with
  | BinaryOpNode op l r =>
      if bytes_eqb op (lit "OR") then ShapeOr l r else if bytes_eqb op (lit "AND") then ShapeAnd l r else ShapeCompare op l r
  | FunctionCallNode f args =>
      if bytes_eqb f (lit "NOT") then match args with [x] => ShapeNot x | _ => ShapeCall f args end
      else if bytes_eqb f (lit "BETWEEN") then match args with [x; lo; hi] => ShapeBetween x lo hi | _ => ShapeCall f args end
      else if bytes_eqb f (lit "IN") then match args with x :: l => ShapeIn x l | _ => ShapeCall f args end
      else ShapeCall f args
  | _ => ShapeLeaf
  end.

(** The precedence level: 0 for [OR] up to 4 for primaries. *)
Definition level_of (e : ASTNode) : nat :=
  match shape e with
  | ShapeOr _ _ => 0 | ShapeAnd _ _ => 1 | ShapeNot _ => 2
  | ShapeCompare _ _ _ | ShapeBetween _ _ _ | ShapeIn _ _ => 3
  | ShapeCall _ _ | ShapeLeaf => 4
  end%nat.

Definition keyword (s : string) : Token := tok KEYWORD (lit s).
Definition open_paren : Token := tok OPEN_PAREN (lit "(").
Definition close_paren : Token := tok CLOSE_PAREN (lit ")").
Definition comma : Token := tok COMMA (lit ",").

(** Tokens at a level, in parentheses when the tree binds weaker. *)
Definition paren (lvl own : nat) (ts : list Token) : list Token :=
  if (lvl <=? own)%nat then ts else open_paren :: ts ++ [close_paren].

Fixpoint comma_separated (l : list (list Token)) : list Token :=
  match l with
  | [] => []
  | [ts] => ts
  | ts :: l' => ts ++ comma :: comma_separated l'
  end.

Definition name_token (n : bytes) : Token :=
  if starts_with n (lit "#") then tok PLACEHOLDER_NAME n
  else if bool_decide (n ∈ kKeywords) then tok KEYWORD n else tok IDENTIFIER n.

Definition segment_tokens (s : PathSegment) : list Token :=
  match s with
  | SegName n => [tok DOT (lit "."); name_token n]
  | SegIndex i => [tok INDEX (dec_of_nonneg i)]
  end.

Definition path_tokens (segs : list PathSegment) : list Token :=
  match segs with
  | SegName root :: segs => name_token root :: concat (map segment_tokens segs)
  | _ => []
  end.

Fixpoint print (e : ASTNode) : list Token :=
  let at_level lvl x := paren lvl (level_of x) (print x) in
  match e with
  | BinaryOpNode op l r =>
      if bytes_eqb op (lit "OR") then at_level 0%nat l ++ keyword "OR" :: at_level 1%nat r
      else if bytes_eqb op (lit "AND") then at_level 1%nat l ++ keyword "AND" :: at_level 2%nat r
      else at_level 4%nat l ++ tok OPERATOR op :: at_level 4%nat r
  | FunctionCallNode f args =>
      let call := name_token f :: open_paren :: comma_separated (map (at_level 0%nat) args) ++ [close_paren] in
      if bytes_eqb f (lit "NOT") then match args with [x] => keyword "NOT" :: at_level 2%nat x | _ => call end
      else if bytes_eqb f (lit "BETWEEN") then
        match args with
        | [x; lo; hi] => at_level 4%nat x ++ keyword "BETWEEN" :: at_level 4%nat lo ++ keyword "AND" :: at_level 4%nat hi
        | _ => call
        end
      else if bytes_eqb f (lit "IN") then
        match args with
        | x :: l => at_level 4%nat x ++ keyword "IN" :: open_paren :: comma_separated (map (at_level 4%nat) l) ++ [close_paren]
        | _ => call
        end
      else call
  | PlaceholderNode n => [tok PLACEHOLDER_VALUE n]
  | PathNode segs => path_tokens segs
  | LiteralNode _ | IdentifierNode _ => []
  end.

Definition print_at (lvl : nat) (e : ASTNode) : list Token := paren lvl (level_of e) (print e).

(** The levels of recursion the parser needs for a tree printed at a level. *)
Fixpoint need (e : ASTNode) : nat :=
  let at_level lvl x := if (lvl <=? level_of x)%nat then (level_of x - lvl + need x)%nat else (5 - lvl + (level_of x + need x))%nat in
  match e with
  | BinaryOpNode op l r =>
      if bytes_eqb op (lit "OR") then Nat.max (at_level 0 l) (S (at_level 1 r))
      else if bytes_eqb op (lit "AND") then Nat.max (at_level 1 l) (S (at_level 2 r))
      else S (Nat.max (at_level 4 l) (at_level 4 r))
  | FunctionCallNode f args =>
      let most lvl l := fold_right (fun x n => Nat.max (at_level lvl x) n) 0 l in
      if bytes_eqb f (lit "NOT") then match args with [x] => S (at_level 2 x) | _ => S (most 0 args) end
      else if bytes_eqb f (lit "BETWEEN") then S (most 4 args)
      else if bytes_eqb f (lit "IN") then S (most 4 args)
      else S (most 0 args)
  | _ => 1
  end%nat.

Definition need_at (lvl : nat) (e : ASTNode) : nat :=
  if (lvl <=? level_of e)%nat then (level_of e - lvl + need e)%nat else (5 - lvl + (level_of e + need e))%nat.

(** The trees that have a text: names the lexer produces, argument and segment
    counts within the limits. *)
Definition name_ok (n : bytes) : bool := token_ok (name_token n).

Definition segment_ok (s : PathSegment) : bool :=
  match s with SegName n => name_ok n | SegIndex i => (0 <=? i) && (i <? 10 ^ 9) end.

Definition function_ok (f : bytes) : bool :=
  bool_decide (f ∈ map lit ["ATTRIBUTE_EXISTS"; "ATTRIBUTE_NOT_EXISTS"]%string) || token_ok (tok IDENTIFIER f).

Fixpoint ast_ok (e : ASTNode) : bool :=
  match e with
  | BinaryOpNode op l r =>
      (bytes_eqb op (lit "OR") || bytes_eqb op (lit "AND") || is_supported_comparison_operator op) && ast_ok l && ast_ok r
  | FunctionCallNode f args =>
      forallb ast_ok args && (len args <=? kMaxFunctionArgs) &&
      (if bytes_eqb f (lit "NOT") then (len args =? 1)
       else if bytes_eqb f (lit "BETWEEN") then (len args =? 3)
       else if bytes_eqb f (lit "IN") then (2 <=? len args)
       else function_ok f)
  | PlaceholderNode n => token_ok (tok PLACEHOLDER_VALUE n)
  | PathNode (SegName root :: segs) =>
      name_ok root && negb (bool_decide (root ∈ kKeywords)) && forallb segment_ok segs && (len segs <=? 50)
  | _ => false
  end.

(** ** The parser inverts the printer *)

Lemma fold_constants_id e : fold_constants e = e.
Proof. induction e using ast_ind; simpl; congruence. Qed.

Section Inverse.
Context (back : Token).

(** The next token is a given keyword. *)
Definition kw (s : string) (ts : list Token) : bool := peek_is back KEYWORD ts && bytes_eqb (tvalue (peek back ts)) (lit s).

(** What may follow a tree parsed at a level. *)
Definition follow4 (ts : list Token) : bool := negb (peek_is back DOT ts || peek_is back INDEX ts || peek_is back OPEN_PAREN ts).
Definition follow3 (ts : list Token) : bool := follow4 ts && negb (peek_is back OPERATOR ts || kw "BETWEEN" ts || kw "IN" ts).
Definition follow1 (ts : list Token) : bool := follow3 ts && negb (kw "AND" ts).
Definition follow0 (ts : list Token) : bool := follow1 ts && negb (kw "OR" ts).

(** The tokens do not begin with [NOT]. *)
Definition heads (ts : list Token) : bool :=
  match ts with t :: _ => negb (bool_decide (ttype t = KEYWORD) && bytes_eqb (tvalue t) (lit "NOT")) | [] => false end.

Definition reads4 (n : nat) (toks : list Token) (e : ASTNode) : Prop :=
  heads toks = true /\ forall L ts, follow4 ts = true -> (n <= L)%nat -> parse_primary back L (toks ++ ts) = Ok (e, ts).
Definition reads3 (n : nat) (toks : list Token) (e : ASTNode) : Prop :=
  heads toks = true /\ forall L ts, follow3 ts = true -> (n <= L)%nat -> parse_comparison back L (toks ++ ts) = Ok (e, ts).
Definition reads2 (n : nat) (toks : list Token) (e : ASTNode) : Prop :=
  forall L ts, follow3 ts = true -> (n <= L)%nat -> parse_not back L (toks ++ ts) = Ok (e, ts).

(** At the chain levels the tree may be the first operand of a longer chain. *)
Definition reads1 (n : nat) (toks : list Token) (e : ASTNode) : Prop :=
  forall L ts, follow3 ts = true -> (n <= L)%nat -> exists fuel, (length ts < fuel)%nat /\
    parse_and back L (toks ++ ts) = chain_loop back (parse_not back (Nat.pred L)) (lit "AND") fuel e ts.
Definition reads0 (n : nat) (toks : list Token) (e : ASTNode) : Prop :=
  forall L ts, follow1 ts = true -> (n <= L)%nat -> exists fuel, (length ts < fuel)%nat /\
    parse_or back L (toks ++ ts) = chain_loop back (parse_and back (Nat.pred L)) (lit "OR") fuel e ts.

Lemma chain_stop operand op fuel e ts : kw op ts = false -> (0 < fuel)%nat -> chain_loop back operand (lit op) fuel e ts = Ok (e, ts).
Proof. intros Hk Hf. destruct fuel; [lia|]. cbn [chain_loop]. unfold match_keyword. fold (kw op ts). by rewrite Hk. Qed.

Lemma chain_turn operand op fuel e ts r ts' : operand ts = Ok (r, ts') ->
  chain_loop back operand (lit op) (S fuel) e (keyword op :: ts) = chain_loop back operand (lit op) fuel (BinaryOpNode (lit op) e r) ts'.
Proof. intros Hr. cbn [chain_loop]. unfold match_keyword, peek_is. cbn [peek keyword tok ttype tvalue]. by rewrite bool_decide_eq_true_2, bytes_eqb_refl; simpl; rewrite ?Hr. Qed.

Lemma follow3_4 ts : follow3 ts = true -> follow4 ts = true.
Proof. unfold follow3. by intros [? _]%andb_prop. Qed.
Lemma follow1_3 ts : follow1 ts = true -> follow3 ts = true.
Proof. unfold follow1. by intros [? _]%andb_prop. Qed.

Lemma comparison_stop operand e ts : follow3 ts = true -> comparison_tail back operand e ts = Ok (e, ts).
Proof.
  unfold follow3, comparison_tail, match_keyword. fold (kw "BETWEEN" ts) (kw "IN" ts). intros [_ H]%andb_prop. apply negb_true_iff in H.
  apply orb_false_elim in H as [H H3]. apply orb_false_elim in H as [H1 H2]. by rewrite H1, H2, H3.
Qed.

(** Moving between the levels. *)
Lemma reads_43 n toks e : reads4 n toks e -> reads3 (S n) toks e.
Proof.
  intros [Hh H]. split; [done|]. intros L ts Hf HL. destruct L as [|L]; [lia|]. cbn [parse_comparison].
  rewrite H by (by apply follow3_4 || lia). cbn [expected_bind fst snd]. by apply comparison_stop.
Qed.

Lemma reads_32 n toks e : reads3 n toks e -> reads2 (S n) toks e.
Proof.
  intros [Hh H] L ts Hf HL. destruct L as [|L]; [lia|]. cbn [parse_not]. unfold match_keyword, peek_is.
  destruct toks as [|t toks]; [done|]. cbn [app peek heads] in *. apply negb_true_iff in Hh. rewrite Hh. apply H; [done|lia].
Qed.

Lemma reads_21 n toks e : reads2 n toks e -> reads1 (S n) toks e.
Proof.
  intros H L ts Hf HL. destruct L as [|L]; [lia|]. cbn [parse_and Nat.pred]. rewrite H by (done || lia). cbn [expected_bind fst snd]. eauto.
Qed.

Lemma reads_10 n toks e : reads1 n toks e -> reads0 (S n) toks e.
Proof.
  intros H L ts Hf HL. destruct L as [|L]; [lia|]. destruct (H L ts (follow1_3 _ Hf) ltac:(lia)) as (fuel & Hfu & E).
  cbn [parse_or Nat.pred]. rewrite E, chain_stop; [|by unfold follow1 in Hf; apply andb_prop in Hf as [_ ?%negb_true_iff]|lia].
  cbn [expected_bind fst snd]. eauto.
Qed.

(** A whole tree at a chain level. *)
Lemma reads1_whole n toks e L ts : reads1 n toks e -> follow1 ts = true -> (n <= L)%nat -> parse_and back L (toks ++ ts) = Ok (e, ts).
Proof.
  intros H Hf HL. destruct (H L ts (follow1_3 _ Hf) HL) as (fuel & Hfu & ->). apply chain_stop; [|lia].
  unfold follow1 in Hf. by apply andb_prop in Hf as [_ ?%negb_true_iff].
Qed.

Lemma reads0_whole n toks e L ts : reads0 n toks e -> follow0 ts = true -> (n <= L)%nat -> parse_or back L (toks ++ ts) = Ok (e, ts).
Proof.
  unfold follow0. intros H [Hf Hk%negb_true_iff]%andb_prop HL. destruct (H L ts Hf HL) as (fuel & Hfu & ->). apply chain_stop; [done|lia].
Qed.

Lemma reads_paren n toks e : reads0 n toks e -> reads4 (S n) (open_paren :: toks ++ [close_paren]) e.
Proof.
  intros H. split; [done|]. intros L ts Hf HL. destruct L as [|L]; [lia|]. cbn [parse_primary app].
  unfold match_type, peek_is. cbn [peek open_paren tok ttype tl]. rewrite bool_decide_eq_true_2 by done. rewrite <- app_assoc. cbn [app].
  rewrite (reads0_whole n toks e L (close_paren :: ts) H eq_refl) by lia. done.
Qed.

(** The statement at every level, from the one at the tree's own level. *)
Definition reads (lvl n : nat) (toks : list Token) (e : ASTNode) : Prop :=
  match lvl with 0 => reads0 n toks e | 1 => reads1 n toks e | 2 => reads2 n toks e | 3 => reads3 n toks e | _ => reads4 n toks e end%nat.

Lemma reads_down lvl n toks e : (lvl < 4)%nat -> reads (S lvl) n toks e -> reads lvl (S n) toks e.
Proof.
  intros Hl. destruct lvl as [|[|[|[|?]]]]; cbn [reads]; [apply reads_10|apply reads_21|apply reads_32|apply reads_43|lia].
Qed.

Lemma reads_lower k lvl n toks e : (k <= 4)%nat -> (lvl <= k)%nat -> reads k n toks e -> reads lvl (k - lvl + n) toks e.
Proof.
  intros Hk Hl H. remember (k - lvl)%nat as d eqn:Ed. revert lvl Hl Ed. induction d as [|d IH]; intros lvl Hl Ed.
  - by replace lvl with k by lia.
  - apply (reads_down lvl (d + n)); [lia|]. apply IH; lia.
Qed.

Lemma level_of_le e : (level_of e <= 4)%nat.
Proof. unfold level_of. destruct (shape e); lia. Qed.

Lemma reads_at lvl e : (lvl <= 4)%nat -> reads (level_of e) (need e) (print e) e -> reads lvl (need_at lvl e) (print_at lvl e) e.
Proof.
  intros Hl H. unfold need_at, print_at, paren. pose proof (level_of_le e). destruct (Nat.leb_spec lvl (level_of e)).
  - by apply reads_lower.
  - assert (Hor : reads 0 (level_of e + need e) (print e) e).
    { replace (level_of e + need e)%nat with (level_of e - 0 + need e)%nat by lia. apply reads_lower; [done|lia|done]. }
    apply reads_paren in Hor. replace (5 - lvl + (level_of e + need e))%nat with (4 - lvl + S (level_of e + need e))%nat by lia.
    apply (reads_lower 4); [lia|lia|done].
Qed.
(** The constructs of the grammar. *)
Lemma reads_or nl nr tl tr l r : reads 0 nl tl l -> reads 1 nr tr r ->
  reads 0 (Nat.max nl (S nr)) (tl ++ keyword "OR" :: tr) (BinaryOpNode (lit "OR") l r).
Proof.
  intros Hl Hr L ts Hf HL. rewrite <- app_assoc. cbn [app].
  destruct (Hl L (keyword "OR" :: tr ++ ts) eq_refl ltac:(lia)) as (fuel & Hfu & ->). destruct fuel as [|fuel]; [lia|].
  exists fuel. cbn [length] in Hfu. rewrite length_app in Hfu. split; [lia|]. apply chain_turn. apply (reads1_whole nr); [done|done|lia].
Qed.

Lemma reads_and nl nr tl tr l r : reads 1 nl tl l -> reads 2 nr tr r ->
  reads 1 (Nat.max nl (S nr)) (tl ++ keyword "AND" :: tr) (BinaryOpNode (lit "AND") l r).
Proof.
  intros Hl Hr L ts Hf HL. rewrite <- app_assoc. cbn [app].
  destruct (Hl L (keyword "AND" :: tr ++ ts) eq_refl ltac:(lia)) as (fuel & Hfu & ->). destruct fuel as [|fuel]; [lia|].
  exists fuel. cbn [length] in Hfu. rewrite length_app in Hfu. split; [lia|]. apply chain_turn. apply Hr; [done|lia].
Qed.

Lemma reads_not n toks x : reads 2 n toks x -> reads 2 (S n) (keyword "NOT" :: toks) (FunctionCallNode (lit "NOT") [x]).
Proof.
  intros H L ts Hf HL. destruct L as [|L]; [lia|]. cbn [app parse_not].
  change (match_keyword back (lit "NOT") (keyword "NOT" :: toks ++ ts)) with (Some (toks ++ ts)).
  cbv iota. rewrite H by (done || lia). done.
Qed.

Lemma heads_app a b : heads a = true -> heads (a ++ b) = true.
Proof. by destruct a. Qed.

Lemma reads_compare nl nr tl tr op l r : is_supported_comparison_operator op = true -> reads 4 nl tl l -> reads 4 nr tr r ->
  reads 3 (S (Nat.max nl nr)) (tl ++ tok OPERATOR op :: tr) (BinaryOpNode op l r).
Proof.
  intros Hop [Hh Hl] [_ Hr]. split; [by apply heads_app|]. intros L ts Hf HL. destruct L as [|L]; [lia|]. cbn [parse_comparison].
  rewrite <- app_assoc. cbn [app]. rewrite Hl by (done || lia). cbn [expected_bind fst snd]. unfold comparison_tail, peek_is.
  cbn [peek tok ttype consume tvalue]. rewrite bool_decide_eq_true_2 by done. rewrite Hop. cbn [negb].
  rewrite Hr by (by apply follow3_4 || lia). done.
Qed.

Lemma reads_between nx nl nh tx tl th x lo hi : reads 4 nx tx x -> reads 4 nl tl lo -> reads 4 nh th hi ->
  reads 3 (S (Nat.max nx (Nat.max nl (Nat.max nh 0)))) (tx ++ keyword "BETWEEN" :: tl ++ keyword "AND" :: th)
    (FunctionCallNode (lit "BETWEEN") [x; lo; hi]).
Proof.
  intros [Hh Hx] [_ Hl] [_ Hr]. split; [by apply heads_app|]. intros L ts Hf HL. destruct L as [|L]; [lia|]. cbn [parse_comparison].
  rewrite <- app_assoc. cbn [app]. rewrite Hx by (done || lia). cbn [expected_bind fst snd]. unfold comparison_tail.
  change (peek_is back OPERATOR (keyword "BETWEEN" :: (tl ++ keyword "AND" :: th) ++ ts)) with false.
  change (match_keyword back (lit "BETWEEN") (keyword "BETWEEN" :: (tl ++ keyword "AND" :: th) ++ ts)) with (Some ((tl ++ keyword "AND" :: th) ++ ts)).
  cbv iota. rewrite <- app_assoc. cbn [app]. rewrite Hl by (done || lia). cbn [expected_bind fst snd].
  change (match_keyword back (lit "AND") (keyword "AND" :: th ++ ts)) with (Some (th ++ ts)). cbv iota.
  rewrite Hr by (by apply follow3_4 || lia). done.
Qed.

(** Comma-separated operands up to the closing parenthesis. *)
Lemma args_loop_reads operand (text : ASTNode -> list Token) l : forall room args ts,
  l <> [] -> (length l <= room)%nat ->
  Forall (fun x => forall ts, peek_is back COMMA ts || peek_is back CLOSE_PAREN ts = true -> operand (text x ++ ts) = Ok (x, ts)) l ->
  args_loop back operand room args (comma_separated (map text l) ++ close_paren :: ts) = Ok (args ++ l, close_paren :: ts).
Proof.
  induction l as [|x l IH]; intros room args ts Hne Hroom Hl; [done|]. apply Forall_cons in Hl as [Hx Hl].
  destruct room as [|room]; [simpl in Hroom; lia|]. cbn [args_loop]. destruct l as [|y l].
  - cbn [map comma_separated]. rewrite Hx by done. done.
  - change (comma_separated (map text (x :: y :: l))) with (text x ++ comma :: comma_separated (map text (y :: l))).
    rewrite <- app_assoc. cbn [app]. rewrite Hx by done. cbn [expected_bind fst snd].
    change (peek_is back COMMA (comma :: comma_separated (map text (y :: l)) ++ close_paren :: ts)) with true. cbv iota. cbn [consume snd].
    rewrite IH; [by rewrite <- app_assoc|done|simpl in *; lia|done].
Qed.

Lemma follow_sep ts : peek_is back COMMA ts || peek_is back CLOSE_PAREN ts = true -> follow0 ts = true /\ follow4 ts = true.
Proof.
  unfold follow0, follow1, follow3, follow4, kw, peek_is. destruct (peek back ts) as [ty v]. cbn [ttype]. by destruct ty.
Qed.

Lemma reads_in nx nl tx x l text : reads 4 nx tx x -> l <> [] -> (length l <= Z.to_nat kMaxFunctionArgs)%nat ->
  Forall (fun y => reads 4 nl (text y) y) l ->
  reads 3 (S (Nat.max nx nl)) (tx ++ keyword "IN" :: open_paren :: comma_separated (map text l) ++ [close_paren])
    (FunctionCallNode (lit "IN") (x :: l)).
Proof.
  intros [Hh Hx] Hne Hlen Hl. split; [by apply heads_app|]. intros L ts Hf HL. destruct L as [|L]; [lia|]. cbn [parse_comparison].
  rewrite <- app_assoc. cbn [app]. rewrite Hx by (done || lia). cbn [expected_bind fst snd]. unfold comparison_tail.
  rewrite <- app_assoc. set (rest := comma_separated (map text l) ++ [close_paren] ++ ts).
  change (peek_is back OPERATOR (keyword "IN" :: open_paren :: rest)) with false.
  change (match_keyword back (lit "BETWEEN") (keyword "IN" :: open_paren :: rest)) with (@None (list Token)).
  change (match_keyword back (lit "IN") (keyword "IN" :: open_paren :: rest)) with (Some (open_paren :: rest)).
  cbv iota. change (match_type back OPEN_PAREN (open_paren :: rest)) with (Some rest). cbv iota. unfold rest. cbn [app].
  rewrite args_loop_reads; [done|done|done|]. eapply Forall_impl; [exact Hl|]. intros y [_ Hy] ts' Hs. apply Hy; [by apply follow_sep|lia].
Qed.

Lemma identifier_no_mark c f : identifier_ok (c :: f) = true -> starts_with (c :: f) (lit "#") = false.
Proof.
  cbn [identifier_ok]. intros [Hi _]%andb_prop. change (lit "#") with [Byte.x23]. cbn [starts_with].
  destruct (decide (c = Byte.x23)) as [->|]; [by vm_compute in Hi|]. by rewrite bool_decide_eq_false_2.
Qed.

Lemma function_token f : function_ok f = true -> bytes_eqb f (lit "NOT") = false ->
  exists ty, name_token f = tok ty f /\ (ty = IDENTIFIER \/ ty = KEYWORD /\ is_allowed_function_name f = true) /\
    f <> [] /\ len f <= kMaxIdentifierBytes /\ token_ok (name_token f) = true.
Proof.
  unfold function_ok. intros [H|H]%orb_prop Hn.
  - apply bool_decide_eq_true in H. exists KEYWORD. cbn [map] in H.
    repeat (apply elem_of_cons in H as [->|H]; [vm_compute; split; [done|]; split; [by right|]; split; [done|]; split; [discriminate|done]|]). by apply elem_of_nil in H.
  - exists IDENTIFIER. unfold token_ok in H. cbn [tok ttype tvalue] in H. apply andb_prop in H as [H Hk]. apply andb_prop in H as [Hi Hl].
    assert (Hf : f ∉ kKeywords).
    { intros Hin. destruct (keyword_upper f Hin) as [Hu _]. apply negb_true_iff, bool_decide_eq_false in Hk. by rewrite Hu in Hk. }
    unfold name_token. destruct f as [|c f]; [done|]. replace (starts_with (c :: f) (lit "#")) with false.
    + rewrite bool_decide_eq_false_2 by done. split; [done|]. split; [by left|]. split; [done|]. split; [by apply Z.leb_le in Hl|].
      unfold token_ok. cbn [tok ttype tvalue]. by rewrite Hi, Hl, Hk.
    + symmetry. by apply identifier_no_mark.
Qed.

Lemma reads_call f args n text : function_ok f = true -> bytes_eqb f (lit "NOT") = false ->
  (length args <= Z.to_nat kMaxFunctionArgs)%nat -> Forall (fun y => reads 0 n (text y) y) args ->
  Forall (fun y => peek_is back CLOSE_PAREN (text y ++ [close_paren]) = false) args ->
  reads 4 (S n) (name_token f :: open_paren :: comma_separated (map text args) ++ [close_paren]) (FunctionCallNode f args).
Proof.
  intros Hf Hnot Hlen Hargs Hheads. destruct (function_token f Hf Hnot) as (ty & Ety & Hty & Hne & Hl & _). rewrite Ety. split.
  { cbn [heads tok ttype tvalue]. rewrite Hnot. by rewrite andb_false_r. }
  intros L ts Hfo HL. destruct L as [|L]; [lia|]. cbn [app parse_primary]. unfold match_type, peek_is at 1. cbn [peek tok ttype].
  rewrite bool_decide_eq_false_2 by (destruct Hty as [->|[-> _]]; done). cbv iota. cbn [consume tok ttype].
  assert (Hname : name_tail back (parse_or back L) (tok ty f) (open_paren :: (comma_separated (map text args) ++ [close_paren]) ++ ts) =
    Ok (FunctionCallNode f args, ts)).
  { unfold name_tail. cbn [tok tvalue ttype]. rewrite bool_decide_eq_false_2 by done. destruct (Z.ltb_spec kMaxIdentifierBytes (len f)); [lia|].
    replace (bool_decide (ty = KEYWORD) && negb (is_allowed_function_name f)) with false
      by (destruct Hty as [->|[-> ->]]; [done|by rewrite andb_false_r]). cbn [orb].
    change (peek_is back OPEN_PAREN (open_paren :: (comma_separated (map text args) ++ [close_paren]) ++ ts)) with true. cbv iota. cbn [consume].
    rewrite <- app_assoc. cbn [app]. destruct args as [|a args]; [done|].
    assert (Hp : peek_is back CLOSE_PAREN (comma_separated (map text (a :: args)) ++ close_paren :: ts) = false).
    { apply Forall_cons in Hheads as [Ha _]. clear -Ha. cbn [map comma_separated]. destruct (text a) as [|t tt]; [done|]. by destruct (map text args). }
    rewrite Hp. rewrite args_loop_reads; [done|done|done|].
    eapply Forall_impl; [exact Hargs|]. intros y Hy ts' Hs. apply (reads0_whole n); [done|by apply follow_sep|lia]. }
  by destruct Hty as [->|[-> _]].
Qed.

(** Names, values and paths. *)
Lemma name_token_ok n : name_ok n = true -> exists ty, name_token n = tok ty n /\ n <> [] /\ len n <= kMaxIdentifierBytes /\
  (ty = KEYWORD /\ n ∈ kKeywords \/ ty = IDENTIFIER \/ ty = PLACEHOLDER_NAME /\ 2 <= len n).
Proof.
  unfold name_ok, name_token. destruct (starts_with n (lit "#")).
  - exists PLACEHOLDER_NAME. unfold token_ok in *. cbn [tok ttype tvalue] in *. destruct n as [|c [|d n]]; [done|by rewrite andb_false_r in H|].
    apply andb_prop in H as [_ Hl%Z.leb_le]. split; [done|]. split; [done|]. split; [done|]. right. right. split; [done|]. rewrite !len_cons. pose proof (len_nonneg n). lia.
  - destruct (bool_decide_reflect (n ∈ kKeywords)) as [Hk|].
    + intros _. exists KEYWORD. destruct (keyword_upper n Hk) as (_ & Hi & Hl). destruct n; [done|]. repeat split; [done|done|by left].
    + unfold token_ok. cbn [tok ttype tvalue]. intros [[Hi Hl%Z.leb_le]%andb_prop _]%andb_prop. exists IDENTIFIER.
      destruct n; [done|]. repeat split; [done|done|]. by right; left.
Qed.

Lemma parse_path_reads segs : forall room acc ts, follow4 ts = true -> (length segs <= room)%nat -> forallb segment_ok segs = true ->
  parse_path_loop back room acc (concat (map segment_tokens segs) ++ ts) = Ok (PathNode (acc ++ segs), ts).
Proof.
  induction segs as [|s segs IH]; intros room acc ts Hf Hroom Hok.
  - cbn [map concat app]. unfold follow4 in Hf. apply negb_true_iff, orb_false_elim in Hf as [Hf _]. 
    destruct room; cbn [parse_path_loop]; rewrite Hf; by rewrite app_nil_r.
  - destruct room as [|room]; [simpl in Hroom; lia|]. cbn [forallb] in Hok. apply andb_prop in Hok as [Hs Hok].
    assert (Hnext : forall acc, parse_path_loop back room acc (concat (map segment_tokens segs) ++ ts) = Ok (PathNode (acc ++ segs), ts))
      by (intros; apply IH; [done|simpl in Hroom; lia|done]).
    cbn [map concat]. rewrite <- app_assoc. destruct s as [n|i]; cbn [segment_tokens app segment_ok] in *.
    + destruct (name_token_ok n Hs) as (ty & -> & Hne & Hl & Hty). cbn [parse_path_loop]. unfold peek_is. cbn [peek tok ttype tvalue consume orb negb].
      rewrite (bool_decide_eq_true_2 (DOT = DOT)) by done. cbn [orb negb]. rewrite bool_decide_eq_false_2 by done.
      destruct (Z.ltb_spec kMaxIdentifierBytes (len n)); [lia|]. cbn [orb]. rewrite Hnext, <- app_assoc.
      by destruct Hty as [[-> _]|[->|[-> _]]].
    + apply andb_prop in Hs as [H0%Z.leb_le H1%Z.ltb_lt]. cbn [parse_path_loop]. unfold peek_is. cbn [peek tok ttype tvalue consume].
      change (bool_decide (INDEX = DOT)) with false. change (bool_decide (INDEX = INDEX)) with true. cbn [orb negb].
      rewrite stoul_dec by lia. by rewrite Hnext, <- app_assoc.
Qed.

Lemma segment_follow segs ts : follow4 ts = true -> peek_is back OPEN_PAREN (concat (map segment_tokens segs) ++ ts) = false.
Proof.
  unfold follow4. intros H. destruct segs as [|[n|i] segs]; [|done|done]. cbn [map concat app]. by destruct (peek_is back OPEN_PAREN ts); [rewrite orb_true_r in H|].
Qed.

Lemma reads_path root segs : ast_ok (PathNode (SegName root :: segs)) = true ->
  reads 4 1 (path_tokens (SegName root :: segs)) (PathNode (SegName root :: segs)).
Proof.
  cbn [ast_ok path_tokens]. intros [[[Hn Hk%negb_true_iff]%andb_prop Hs]%andb_prop Hl%Z.leb_le]%andb_prop. apply bool_decide_eq_false in Hk.
  destruct (name_token_ok root Hn) as (ty & -> & Hne & Hb & Hty). destruct Hty as [[_ ?]|Hty]; [done|]. split.
  { by destruct Hty as [->|[-> _]]. }
  intros L ts Hf HL. destruct L as [|L]; [lia|]. cbn [app parse_primary].
  assert (Hp : parse_path back root (concat (map segment_tokens segs) ++ ts) = Ok (PathNode (SegName root :: segs), ts)).
  { unfold parse_path. rewrite parse_path_reads; [done|done| |done]. unfold len, kMaxParserDepth in *. lia. }
  assert (Hlt : (kMaxIdentifierBytes <? len root) = false) by by apply Z.ltb_ge.
  unfold match_type, peek_is at 1. cbn [peek tok ttype]. rewrite bool_decide_eq_false_2 by (destruct Hty as [->|[-> _]]; done). cbv iota. cbn [consume tok ttype].
  destruct Hty as [->|[-> H2]].
  - unfold name_tail. cbn [tok tvalue ttype]. rewrite bool_decide_eq_false_2 by done. rewrite Hlt. cbn [orb].
    rewrite bool_decide_eq_false_2 by done. cbn [andb]. by rewrite segment_follow.
  - cbn [tok tvalue]. rewrite Hlt. destruct (Z.ltb_spec (len root) 2); [lia|done].
Qed.

Lemma reads_value n : ast_ok (PlaceholderNode n) = true -> reads 4 1 [tok PLACEHOLDER_VALUE n] (PlaceholderNode n).
Proof.
  cbn [ast_ok]. unfold token_ok. cbn [tok ttype tvalue]. intros H. split; [done|]. intros L ts Hf HL. destruct L as [|L]; [lia|].
  cbn [app parse_primary]. change (match_type back OPEN_PAREN (tok PLACEHOLDER_VALUE n :: ts)) with (@None (list Token)). cbv iota.
  cbn [consume tok ttype tvalue]. destruct n as [|c [|d n]]; [done|by rewrite andb_false_r in H|].
  apply andb_prop in H as [_ Hl%Z.leb_le]. destruct (Z.ltb_spec kMaxIdentifierBytes (len (c :: d :: n))) as [Hx|_];
    [unfold kMaxTokenBytes, kMaxIdentifierBytes in *; lia|].
  destruct (Z.ltb_spec (len (c :: d :: n)) 2) as [Hx|_]; [rewrite !len_cons in Hx; pose proof (len_nonneg n); lia|done].
Qed.

Lemma reads_mono lvl n n' toks e : (n <= n')%nat -> reads lvl n toks e -> reads lvl n' toks e.
Proof.
  intros Hn. destruct lvl as [|[|[|[|?]]]]; cbn [reads]; intros H; (split; [by apply H|]) || idtac;
    intros L ts Hf HL; apply H; (done || lia).
Qed.

(** The levels needed by the most demanding of several trees. *)
Definition most (lvl : nat) (l : list ASTNode) : nat := fold_right (fun x n => Nat.max (need_at lvl x) n) 0%nat l.

Lemma reads_most lvl l : Forall (fun x => reads lvl (need_at lvl x) (print_at lvl x) x) l ->
  Forall (fun x => reads lvl (most lvl l) (print_at lvl x) x) l.
Proof.
  induction 1 as [|x l Hx Hl IH]; [constructor|]. cbn [most fold_right]. fold (most lvl l). constructor.
  - eapply reads_mono; [|exact Hx]. lia.
  - eapply Forall_impl; [exact IH|]. intros y. apply reads_mono. lia.
Qed.

(** A printed tree starts with a token that opens an operand. *)
Definition opens (ts : list Token) : bool :=
  match ts with
  | t :: _ => negb (bool_decide (ttype t = CLOSE_PAREN)) && negb (bool_decide (ttype t = KEYWORD) && bool_decide (tvalue t ∈ section_keywords))
  | [] => false
  end.

Lemma opens_app a b : opens a = true -> opens (a ++ b) = true.
Proof. by destruct a. Qed.

Lemma opens_at lvl e : opens (print e) = true -> opens (print_at lvl e) = true.
Proof. unfold print_at, paren. by destruct (_ <=? _)%nat. Qed.

Lemma function_opens f ts : function_ok f = true -> bytes_eqb f (lit "NOT") = false -> opens (name_token f :: ts) = true.
Proof.
  intros H Hn. destruct (function_token f H Hn) as (ty & -> & [->|[-> Ha]] & _); [done|]. cbn [opens tok ttype tvalue].
  unfold is_allowed_function_name in Ha. apply bool_decide_eq_true in Ha. cbn [map] in Ha.
  repeat (apply elem_of_cons in Ha as [->|Ha]; [vm_compute; done|]). by apply elem_of_nil in Ha.
Qed.

Lemma print_opens e : ast_ok e = true -> opens (print e) = true.
Proof.
  induction e as [v|op l r IHl IHr|n|n|f args IH|segs] using ast_ind; cbn [ast_ok print]; intros H; try done.
  - apply andb_prop in H as [[_ Hl]%andb_prop _]. specialize (IHl Hl).
    destruct (bytes_eqb op (lit "OR")); [|destruct (bytes_eqb op (lit "AND"))]; apply opens_app; by apply opens_at.
  - apply andb_prop in H as [[Hargs _]%andb_prop H]. 
    destruct (bytes_eqb f (lit "NOT")) eqn:E1; [|destruct (bytes_eqb f (lit "BETWEEN")) eqn:E2; [|destruct (bytes_eqb f (lit "IN")) eqn:E3]].
    + destruct args as [|x [|y l]]; [done|done|apply Z.eqb_eq in H; unfold len in H; simpl in H; lia].
    + destruct args as [|x [|y [|z [|u l]]]]; try done; [|apply Z.eqb_eq in H; unfold len in H; simpl in H; lia]. apply opens_app, opens_at. inversion IH; subst. cbn [forallb] in Hargs. apply andb_prop in Hargs as [? _]. auto.
    + destruct args as [|x l]; try done. apply opens_app, opens_at. inversion IH; subst. cbn [forallb] in Hargs. apply andb_prop in Hargs as [? _]. auto.
    + by apply function_opens.
  - destruct segs as [|[root|i] segs]; [done| |done]. apply andb_prop in H as [[[Hn Hk%negb_true_iff]%andb_prop _]%andb_prop _].
    apply bool_decide_eq_false in Hk. cbn [path_tokens]. destruct (name_token_ok root Hn) as (ty & -> & _ & _ & [[_ ?]|[->|[-> _]]]); done.
Qed.

Lemma reads_print e : ast_ok e = true -> reads (level_of e) (need e) (print e) e.
Proof.
  induction e as [v|op l r IHl IHr|n|n|f args IH|segs] using ast_ind; intros H; try done.
  - cbn [ast_ok] in H. apply andb_prop in H as [[Hop Hl]%andb_prop Hr]. specialize (IHl Hl). specialize (IHr Hr).
    unfold level_of. cbn [shape need print]. destruct (bytes_eqb op (lit "OR")) eqn:E1; [|destruct (bytes_eqb op (lit "AND")) eqn:E2].
    + apply bytes_eqb_eq in E1 as ->. apply reads_or; [apply (reads_at 0)|apply (reads_at 1)]; (done || lia).
    + apply bytes_eqb_eq in E2 as ->. apply reads_and; [apply (reads_at 1)|apply (reads_at 2)]; (done || lia).
    + apply reads_compare; [done|apply (reads_at 4)|apply (reads_at 4)]; done.
  - by apply reads_value.
  - cbn [ast_ok] in H. apply andb_prop in H as [[Hargs Hlen%Z.leb_le]%andb_prop H].
    assert (Hall : Forall (fun x => reads (level_of x) (need x) (print x) x) args).
    { apply forallb_Forall in Hargs. rewrite Forall_forall in *. auto. }
    assert (Hat : forall lvl, (lvl <= 4)%nat -> Forall (fun x => reads lvl (need_at lvl x) (print_at lvl x) x) args).
    { intros lvl Hl. eapply Forall_impl; [exact Hall|]. intros x. by apply reads_at. }
    unfold level_of. cbn [shape need print].
    destruct (bytes_eqb f (lit "NOT")) eqn:E1; [|destruct (bytes_eqb f (lit "BETWEEN")) eqn:E2; [|destruct (bytes_eqb f (lit "IN")) eqn:E3]].
    + apply bytes_eqb_eq in E1 as ->. destruct args as [|x [|y l]]; [done| |apply Z.eqb_eq in H; unfold len in H; simpl in H; lia].
      apply reads_not. specialize (Hat 2%nat ltac:(lia)). by inversion Hat.
    + apply bytes_eqb_eq in E2 as ->. destruct args as [|x [|y [|z [|u l]]]]; try done.
      * specialize (Hat 4%nat ltac:(lia)). rewrite !Forall_cons in Hat. destruct Hat as (Hx & Hy & Hz & _). by apply reads_between.
      * apply Z.eqb_eq in H. unfold len in H. simpl in H. lia.
    + apply bytes_eqb_eq in E3 as ->. destruct args as [|x l]; [done|]. specialize (Hat 4%nat ltac:(lia)). apply Forall_cons in Hat as [Hx Hl].
      apply (reads_in _ (most 4 l)); [done| | |by apply reads_most].
      * by destruct l.
      * rewrite len_cons in Hlen. unfold len in Hlen. lia.
    + apply (reads_call f args (most 0 args) (print_at 0)); [done|done|unfold len in Hlen; lia|apply reads_most, Hat; lia|].
      apply forallb_Forall in Hargs. eapply Forall_impl; [exact Hargs|]. intros x Hx%print_opens%(opens_at 0).
      destruct (print_at 0 x) as [|t ts]; [done|]. cbn [app opens] in *. unfold peek_is. cbn [peek]. apply andb_prop in Hx as [Hx _]. by apply negb_true_iff in Hx.
  - destruct segs as [|[root|i] segs]; [done| |done]. by apply reads_path.
Qed.

End Inverse.

(** ** Printed trees are token sequences of the lexer *)

Lemma comma_separated_ok l : Forall (fun ts => forallb token_ok ts = true) l -> forallb token_ok (comma_separated l) = true.
Proof.
  induction 1 as [|ts l Hts Hl IH]; [done|]. cbn [comma_separated]. destruct l as [|ts' l]; [done|].
  rewrite forallb_app, Hts. cbn [forallb andb]. by rewrite IH.
Qed.

Lemma print_at_ok lvl e : forallb token_ok (print e) = true -> forallb token_ok (print_at lvl e) = true.
Proof. unfold print_at, paren. intros H. destruct (_ <=? _)%nat; [done|]. cbn [forallb]. by rewrite forallb_app, H. Qed.

Lemma arguments_ok lvl l : Forall (fun e => forallb token_ok (print e) = true) l ->
  forallb token_ok (comma_separated (map (print_at lvl) l) ++ [close_paren]) = true.
Proof.
  intros H. rewrite forallb_app, comma_separated_ok; [done|]. apply Forall_map. eapply Forall_impl; [exact H|]. intros x. apply print_at_ok.
Qed.

Lemma segments_ok segs : forallb segment_ok segs = true -> forallb token_ok (concat (map segment_tokens segs)) = true.
Proof.
  induction segs as [|[n|i] segs IH]; cbn [forallb map concat segment_ok segment_tokens app]; [done| |]; intros [Hs Hok]%andb_prop; rewrite (IH Hok), andb_true_r.
  - exact Hs.
  - bool_hyps. unfold token_ok. cbn [tok ttype tvalue]. pose proof (dec_of_nonempty i). rewrite bool_decide_eq_false_2 by done. cbn [negb andb].
    pose proof (dec_of_isdigit i ltac:(lia)) as Hd. apply andb_true_intro. split.
    + apply forallb_forall. intros x Hx. rewrite Forall_forall in Hd. by apply Hd, list_elem_of_In.
    + apply Z.leb_le. unfold len, dec_of_nonneg. pose proof (dec_digits_length 8 (S (Z.to_nat (Z.log2 i))) i [] ltac:(simpl; lia)). simpl in *. lia.
Qed.

Lemma print_ok e : ast_ok e = true -> forallb token_ok (print e) = true.
Proof.
  induction e as [v|op l r IHl IHr|n|n|f args IH|segs] using ast_ind; intros H; try done.
  - cbn [ast_ok print] in *. apply andb_prop in H as [[Hop Hl]%andb_prop Hr]. specialize (IHl Hl). specialize (IHr Hr).
    assert (Hcat : forall a b t, token_ok t = true -> forallb token_ok (print_at a l ++ t :: print_at b r) = true).
    { intros a b t Ht. rewrite forallb_app. cbn [forallb]. by rewrite Ht, !print_at_ok. }
    destruct (bytes_eqb op (lit "OR")); [by apply Hcat|]. destruct (bytes_eqb op (lit "AND")); [by apply Hcat|]. apply Hcat.
    unfold token_ok, is_supported_comparison_operator in *. cbn [orb tok ttype tvalue] in *. apply bool_decide_eq_true in Hop. apply bool_decide_eq_true.
    cbn [map] in *. repeat (apply elem_of_cons in Hop as [->|Hop]; [by_eval|]). by apply elem_of_nil in Hop.
  - cbn [ast_ok print forallb] in *. by rewrite H.
  - cbn [ast_ok print] in *. apply andb_prop in H as [[Hargs Hlen%Z.leb_le]%andb_prop H].
    assert (Hall : Forall (fun x => forallb token_ok (print x) = true) args).
    { apply forallb_Forall in Hargs. rewrite Forall_forall in *. auto. }
    destruct (bytes_eqb f (lit "NOT")) eqn:E1; [|destruct (bytes_eqb f (lit "BETWEEN")) eqn:E2; [|destruct (bytes_eqb f (lit "IN")) eqn:E3]].
    + destruct args as [|x [|y l]]; [done| |apply Z.eqb_eq in H; unfold len in H; simpl in H; lia]. inversion Hall; subst. by apply (print_at_ok 2).
    + destruct args as [|x [|y [|z [|u l]]]]; try done; [|apply Z.eqb_eq in H; unfold len in H; simpl in H; lia].
      rewrite !Forall_cons in Hall. destruct Hall as (Hx & Hy & Hz & _). rewrite forallb_app. cbn [forallb]. rewrite forallb_app. cbn [forallb].
      fold (print_at 4 x) (print_at 4 y) (print_at 4 z). by rewrite (print_at_ok 4 x), (print_at_ok 4 y), (print_at_ok 4 z).
    + destruct args as [|x l]; [done|]. inversion Hall; subst. rewrite forallb_app. cbn [forallb]. fold (print_at 4 x). rewrite (print_at_ok 4 x) by done. by apply (arguments_ok 4).
    + destruct (function_token f H E1) as (_ & _ & _ & _ & _ & Ht). cbn [forallb]. rewrite Ht. by apply (arguments_ok 0).
  - destruct segs as [|[root|i] segs]; [done| |done]. cbn [ast_ok print path_tokens forallb] in *. bool_hyps.
    apply andb_true_intro. split; [done|by apply segments_ok].
Qed.

(** ** The trees the parser builds *)

Definition name_bounds (n : bytes) : bool := (1 <=? len n) && (len n <=? kMaxIdentifierBytes).

Definition segment_bounds (s : PathSegment) : bool :=
  match s with SegName n => name_bounds n | SegIndex i => (0 <=? i) && (i <? 2 ^ 64) end.

(** The operators are those of the grammar, every name, argument list and path
    is within its limit, and the node kinds the parser never creates do not
    occur. *)
Fixpoint tree_ok (e : ASTNode) : bool :=
  match e with
  | BinaryOpNode op l r =>
      (bytes_eqb op (lit "OR") || bytes_eqb op (lit "AND") || is_supported_comparison_operator op) && tree_ok l && tree_ok r
  | FunctionCallNode f args => name_bounds f && forallb tree_ok args && (len args <=? kMaxFunctionArgs + 1)
  | PlaceholderNode n => (2 <=? len n) && (len n <=? kMaxIdentifierBytes)
  | PathNode segs => (1 <=? len segs) && (len segs <=? Z.of_nat kMaxParserDepth + 1) && forallb segment_bounds segs
  | LiteralNode _ | IdentifierNode _ => false
  end.

Definition good (r : Result) : Prop := forall e ts, r = Ok (e, ts) -> tree_ok e = true.

Lemma good_err er : good (Err er).
Proof. by intros e ts ?. Qed.

Lemma good_ok e ts : tree_ok e = true -> good (Ok (e, ts)).
Proof. intros H e' ts' E. by injection E as <- <-. Qed.

Lemma good_bind r k : good r -> (forall p, tree_ok (fst p) = true -> good (k p)) -> good (let? p := r in k p).
Proof. intros Hr Hk. destruct r as [[e ts]|er]; [|apply good_err]. apply Hk. by apply (Hr e ts). Qed.

Lemma name_bounds_intro n : bool_decide (n = []) || (kMaxIdentifierBytes <? len n) = false -> name_bounds n = true.
Proof. unfold name_bounds. intros H. bool_hyps. destruct n as [|c n]; [done|]. rewrite len_cons in *. pose proof (len_nonneg n). rewrite andb_true_iff, !Z.leb_le. lia. Qed.

Lemma parse_path_good back room : forall segs ts, segs <> [] -> forallb segment_bounds segs = true ->
  (length segs + room <= S kMaxParserDepth)%nat -> good (parse_path_loop back room segs ts).
Proof.
  induction room as [|room IH]; intros segs ts Hne Hs Hl;
    assert (Hend : tree_ok (PathNode segs) = true)
      by (cbn [tree_ok]; rewrite Hs, !andb_true_iff, !Z.leb_le; unfold len, kMaxParserDepth in *; destruct segs; [done|]; cbn [length] in *; lia);
    cbn [parse_path_loop]; destruct (negb _); try by apply good_ok.
  - apply good_err.
  - assert (Hnext : forall s ts, segment_bounds s = true -> good (parse_path_loop back room (segs ++ [s]) ts)).
    { intros s ts' Hb. apply IH; [by destruct segs| |rewrite length_app; simpl; lia]. rewrite forallb_app, Hs. cbn [forallb]. by rewrite Hb. }
    destruct (peek_is back DOT ts); [destruct (consume back ts) as [t1 ts1], (consume back ts1) as [t2 ts2]|destruct (consume back ts) as [t2 ts2]].
    + destruct (_ || _) eqn:E; [by destruct (ttype t2); apply good_err|].
      destruct (ttype t2); first [apply good_err|by apply Hnext, name_bounds_intro].
    + destruct (stoul (tvalue t2)) as [i|] eqn:E; [|apply good_err]. apply Hnext. apply stoul_range in E. cbn [segment_bounds]. rewrite andb_true_iff, Z.leb_le, Z.ltb_lt. lia.
Qed.

Lemma chain_good back operand op fuel : (bytes_eqb op (lit "OR") || bytes_eqb op (lit "AND") = true) -> (forall ts, good (operand ts)) ->
  forall left ts, tree_ok left = true -> good (chain_loop back operand op fuel left ts).
Proof.
  intros Hop Ho. induction fuel as [|fuel IH]; intros left ts Hl; cbn [chain_loop]; [apply good_err|].
  destruct (match_keyword back op ts) as [ts'|]; [|by apply good_ok]. apply good_bind; [apply Ho|]. intros p Hp. apply IH. cbn [tree_ok]. by rewrite Hop, Hl, Hp.
Qed.

Lemma args_good back operand room : (forall ts, good (operand ts)) -> forall args ts r, forallb tree_ok args = true ->
  args_loop back operand room args ts = Ok r -> forallb tree_ok (fst r) = true /\ len (fst r) <= len args + Z.of_nat room.
Proof.
  intros Ho. induction room as [|room IH]; intros args ts r Ha E; cbn [args_loop] in E; [done|].
  destruct (operand ts) as [[x ts1]|er] eqn:Ex; [|done]. cbn [expected_bind fst snd] in E.
  assert (Ha' : forallb tree_ok (args ++ [x]) = true) by (rewrite forallb_app, Ha; cbn [forallb]; by rewrite (Ho _ _ _ Ex)).
  destruct (peek_is back COMMA ts1).
  - apply IH in E as [E1 E2]; [|done]. split; [done|]. rewrite len_app in E2. change (len [x]) with 1 in E2. lia.
  - simplify_eq. cbn [fst]. split; [done|]. rewrite len_app. change (len [x]) with 1. lia.
Qed.

Lemma comparison_tail_good back operand left ts : (forall ts, good (operand ts)) -> tree_ok left = true -> good (comparison_tail back operand left ts).
Proof.
  intros Ho Hl. unfold comparison_tail. destruct (peek_is back OPERATOR ts).
  - destruct (consume back ts) as [t ts1]. destruct (is_supported_comparison_operator (tvalue t)) eqn:E; [cbn [negb]|apply good_err].
    apply good_bind; [apply Ho|]. intros p Hp. apply good_ok. cbn [tree_ok]. by rewrite E, Hl, Hp, !orb_true_r.
  - destruct (match_keyword back (lit "BETWEEN") ts) as [ts1|].
    + apply good_bind; [apply Ho|]. intros lo Hlo. destruct (match_keyword back (lit "AND") (snd lo)) as [ts2|]; [|apply good_err].
      apply good_bind; [apply Ho|]. intros hi Hhi. apply good_ok. cbn [tree_ok forallb]. by rewrite Hl, Hlo, Hhi.
    + destruct (match_keyword back (lit "IN") ts) as [ts1|]; [|by apply good_ok].
      destruct (match_type back OPEN_PAREN ts1) as [ts2|]; [|apply good_err].
      destruct (args_loop _ _ _ _ _) as [r|er] eqn:E; [|apply good_err]. cbn [expected_bind]. destruct (expect_close back (snd r)) as [ts3|er]; [|apply good_err].
      apply good_ok. apply (args_good back operand _ Ho) in E as [E1 E2]; [|cbn [forallb]; by rewrite Hl]. cbn [tree_ok]. rewrite E1.
      change (name_bounds (lit "IN")) with true. cbn [andb]. apply Z.leb_le. change (len [left]) with 1 in E2. unfold kMaxFunctionArgs in *. lia.
Qed.

Lemma name_tail_good back operand token ts : (forall ts, good (operand ts)) -> good (name_tail back operand token ts).
Proof.
  intros Ho. unfold name_tail. destruct (bool_decide _ || _) eqn:Hn; [apply good_err|]. apply name_bounds_intro in Hn. destruct (_ && _); [apply good_err|].
  destruct (peek_is back OPEN_PAREN ts).
  - destruct (consume back ts) as [t ts1].
    assert (Hargs : forall r, (if peek_is back CLOSE_PAREN ts1 then Ok ([], ts1) else args_loop back operand (Z.to_nat kMaxFunctionArgs) [] ts1) = Ok r ->
      forallb tree_ok (fst r) = true /\ len (fst r) <= kMaxFunctionArgs).
    { intros r. destruct (peek_is back CLOSE_PAREN ts1); [by intros [= <-]|]. intros E. by apply (args_good back operand _ Ho) in E. }
    destruct (if peek_is back CLOSE_PAREN ts1 then _ else _) as [r|er]; [|apply good_err]. destruct (Hargs r eq_refl) as [E1 E2].
    cbn [expected_bind]. destruct (expect_close back (snd r)) as [ts3|er]; [|apply good_err].
    apply good_ok. cbn [tree_ok]. rewrite Hn, E1. cbn [andb]. apply Z.leb_le. lia.
  - apply parse_path_good; [done| |done]. cbn [forallb segment_bounds]. by rewrite Hn.
Qed.

Lemma primary_good back L : (forall ts, good (parse_or back L ts)) -> forall ts, good (parse_primary back (S L) ts).
Proof.
  intros Ho ts. cbn [parse_primary]. destruct (match_type back OPEN_PAREN ts) as [ts1|].
  - apply good_bind; [apply Ho|]. intros p Hp. destruct (expect_close back (snd p)); [by apply good_ok|apply good_err].
  - destruct (consume back ts) as [t ts1]. destruct (ttype t); try apply good_err; try by apply name_tail_good.
    + destruct (_ || _) eqn:E; [apply good_err|]. bool_hyps. apply parse_path_good; [done| |done]. cbn [forallb segment_bounds]. unfold name_bounds. rewrite !andb_true_iff, !Z.leb_le. lia.
    + destruct (_ || _) eqn:E; [apply good_err|]. bool_hyps. apply good_ok. cbn [tree_ok]. rewrite !andb_true_iff, !Z.leb_le. lia.
Qed.

Lemma parse_good back L :
  (forall ts, good (parse_or back L ts)) /\ (forall ts, good (parse_and back L ts)) /\ (forall ts, good (parse_not back L ts)) /\
  (forall ts, good (parse_comparison back L ts)) /\ (forall ts, good (parse_primary back L ts)).
Proof.
  induction L as [|L (Hor & Hand & Hnot & Hcmp & Hprim)]; [by repeat split; intros; apply good_err|]. repeat split; intros ts.
  - cbn [parse_or]. apply good_bind; [apply Hand|]. intros p Hp. by apply chain_good.
  - cbn [parse_and]. apply good_bind; [apply Hnot|]. intros p Hp. by apply chain_good.
  - cbn [parse_not]. destruct (match_keyword back (lit "NOT") ts) as [ts1|]; [|apply Hcmp].
    apply good_bind; [apply Hnot|]. intros p Hp. apply good_ok. cbn [tree_ok forallb]. by rewrite Hp.
  - cbn [parse_comparison]. apply good_bind; [apply Hprim|]. intros p Hp. by apply comparison_tail_good.
  - by apply primary_good.
Qed.

(** ** Properties *)

(** C28: parsing inverts printing with the grammar's precedences.  For every
    syntax tree of the expression language, the text that writes [OR] below
    [AND] below [NOT] below the comparisons, both chains associating to the left,
    with parentheses only where these precedences require them, is parsed to that
    very tree, provided the tree needs at most the parser's depth of 50 and the
    text stays within the limits of the lexer. *)
Theorem parse_print e :
  ast_ok e = true -> (need_at 0 e <= S kMaxParserDepth)%nat ->
  (length (print e) < kMaxLexerTokens)%nat -> len (print_tokens (print e)) <= kMaxExpressionChars ->
  parse_expression (tokenize (print_tokens (print e))) = Ok e.
Proof.
  intros Hok Hneed Hn Hl. pose proof (print_ok e Hok) as Htok. rewrite tokenize_printed by done. set (eof := tok END_OF_FILE []).
  unfold parse_expression. rewrite last_snoc. cbn [default].
  destruct (Z.ltb_spec kMaxParserTokens (len (print e ++ [eof]))) as [Hx|_].
  { rewrite len_app in Hx. unfold len, kMaxParserTokens, kMaxLexerTokens in *. simpl in Hx. lia. }
  assert (Hinv : existsb (fun t => bool_decide (ttype t = INVALID)) (print e ++ [eof]) = false).
  { rewrite existsb_app. cbn [existsb]. rewrite orb_false_r. clear -Htok. induction (print e) as [|t ts IH]; [done|].
    cbn [existsb forallb] in *. apply andb_prop in Htok as [Ht Hts]. rewrite (IH Hts), orb_false_r. unfold token_ok in Ht. by destruct (ttype t). }
  rewrite Hinv. pose proof (print_opens e Hok) as Hopen. pose proof (reads_print eof e Hok) as Hr.
  apply (reads_at eof 0) in Hr; [|lia]. change (print_at 0 e) with (print e) in Hr.
  destruct (print e) as [|t ts]; [done|]. cbn [app peek opens] in *. apply andb_prop in Hopen as [_ Hopen%negb_true_iff]. rewrite Hopen.
  change (t :: ts ++ [eof]) with ((t :: ts) ++ [eof]). rewrite (reads0_whole eof _ _ _ _ [eof] Hr) by done.
  cbn [expected_bind fst snd]. change (negb (peek_is eof END_OF_FILE [eof])) with false. cbv iota. by rewrite fold_constants_id.
Qed.

(** The tree of [NOT (a = :x OR b.c[3] IN (:y, :z)) AND attribute_exists(#d)]. *)
Definition sample : ASTNode :=
  let path s := PathNode [SegName s] in
  let value s := PlaceholderNode s in
  BinaryOpNode (lit "AND")
    (FunctionCallNode (lit "NOT")
       [BinaryOpNode (lit "OR")
          (BinaryOpNode (lit "=") (path (lit "a")) (value (lit ":x")))
          (FunctionCallNode (lit "IN")
             [PathNode [SegName (lit "b"); SegName (lit "c"); SegIndex 3]; value (lit ":y"); value (lit ":z")])])
    (FunctionCallNode (lit "ATTRIBUTE_EXISTS") [path (lit "#d")]).

Lemma parse_print_witness :
  print_tokens (print sample) = lit "NOT ( a = :x OR b . c [3] IN ( :y , :z ) ) AND ATTRIBUTE_EXISTS ( #d ) " /\
  parse_expression (tokenize (print_tokens (print sample))) = Ok sample.
Proof.
  split; [vm_compute; reflexivity|].
  apply (parse_print sample); [vm_compute; reflexivity|vm_compute; lia|vm_compute; lia|vm_compute; discriminate].
Defined.

(** Whatever text a client sends, a tree the parser accepts contains only
    operators of the grammar, names of 1 to 255 bytes, at most 129 arguments per
    call, and non-empty document paths of at most 51 segments whose list indices
    fit an unsigned 64-bit integer; literal and plain-identifier nodes, which the
    evaluator treats differently, never occur. *)
Theorem parse_expression_bounds text e : parse_expression (tokenize text) = Ok e -> tree_ok e = true.
Proof.
  unfold parse_expression. intros H. destruct (_ <? _); [done|]. destruct (existsb _ _); [done|].
  destruct (parse_or _ _ _) as [p|er] eqn:E; [|done]. cbn [expected_bind] in H. destruct (negb _); [done|]. simplify_eq.
  rewrite fold_constants_id. destruct p as [x ts]. by apply parse_good in E.
Qed.

Lemma parse_expression_bounds_witness :
  exists e, parse_expression (tokenize (lit "size(a) > :n and not b[18446744073709551615] = :m or c between :l and :h")) = Err InvalidExpression /\
    parse_expression (tokenize (lit "size(a) > :n and not b[12] = :m or c between :l and :h")) = Ok e /\ tree_ok e = true.
Proof.
  eexists. split; [vm_compute; reflexivity|]. split; [vm_compute; reflexivity|].
  apply (parse_expression_bounds (lit "size(a) > :n and not b[12] = :m or c between :l and :h")). vm_compute. reflexivity.
Defined.
