(* ===== verification/Evaluator.v ===== *)
(** * The condition evaluator

    [src/expressions/evaluator.cpp].  A null [shared_ptr] result is [None]; a
    value found in a map may itself be a null pointer.  The item, the attribute
    names and the attribute values are the maps of the request. *)

From Stdlib Require Import ZArith Lia Strings.String SpecFloat.
From stdpp Require Import prelude.
From S2P Require Import Prelude StdMap Types CLib LongDouble Validator Lexer Parser.

Abbreviation NameMap := (list (bytes * bytes)).

(** ** Numbers *)

Definition is_valid_identifier (value : bytes) : bool :=
  negb (bool_decide (value = [])) &&
  forallb (fun c => isalnum c || is_char 95 c || is_char 45 c || is_char 46 c) value.

Definition parse_number (s : bytes) : option spec_float :=
  let '(out, consumed) := strtold s in
  if (consumed =? len s) && negb (bool_decide (s = [])) then Some out else None.

(** The comparison operators on an ordering; [None] is an unordered pair. *)
Definition op_is (op : bytes) (s : string) : bool := bytes_eqb op (lit s).

Definition ordered (op : bytes) (c : option comparison) : bool :=
  if op_is op "=" then bool_decide (c = Some Eq)
  else if op_is op "<>" then bool_decide (c <> Some Eq)
  else if op_is op "<" then bool_decide (c = Some Lt)
  else if op_is op "<=" then bool_decide (c = Some Lt) || bool_decide (c = Some Eq)
  else if op_is op ">" then bool_decide (c = Some Gt)
  else if op_is op ">=" then bool_decide (c = Some Gt) || bool_decide (c = Some Eq)
  else false.

Definition compare_numeric (l r : bytes) (op : bytes) : bool :=
  match parse_number l, parse_number r with
  | Some ln, Some rn => ordered op (SFcompare ln rn)
  | _, _ => if op_is op "=" then bytes_eqb l r else if op_is op "<>" then negb (bytes_eqb l r) else false
  end.

(** [9.2e18L] is exact in the extended format. *)
Definition make_number (n : spec_float) : AttributeValue :=
  let limit := ld_of_Z 9200000000000000000 in
  if SFeqb n (ld_of_Z (ld_to_ll n)) && SFltb n limit && SFltb (SFopp limit) n
  then AV_N (dec_of_Z (ld_to_ll n))
  else AV_N (format_g17 n).

(** ** Paths *)

Definition resolve_segment_name (raw : bytes) (names : NameMap) : option bytes :=
  if starts_with raw (lit "#") then
    match mget raw names with
    | Some n => if is_valid_identifier n then Some n else None
    | None => None
    end
  else Some raw.

(** The loop of [navigate_path], which also stops at a null pointer. *)
Fixpoint navigate_steps (segs : list PathSegment) (names : NameMap) (current : AttrPtr) : AttrPtr :=
  match segs, current with
  | [], _ => current
  | _, None => None
  | SegName raw :: segs, Some (AV_M m) =>
      match resolve_segment_name raw names with
      | None => None
      | Some name => match mget name m with None => None | Some v => navigate_steps segs names v end
      end
  | SegIndex i :: segs, Some (AV_L l) =>
      if len l <=? i then None else match l !! Z.to_nat i with Some v => navigate_steps segs names v | None => None end
  | _, Some _ => None
  end.

Definition navigate_path (path : list PathSegment) (item : AttributeMap) (names : NameMap) : AttrPtr :=
  match path with
  | SegName root :: segs =>
      match resolve_segment_name root names with
      | None => None
      | Some root_name => match mget root_name item with None => None | Some v => navigate_steps segs names v end
      end
  | _ => None
  end.

Definition type_code (t : AttributeType) : bytes :=
  match t with
  | T_S => lit "S" | T_N => lit "N" | T_B => lit "B" | T_BOOL => lit "BOOL" | T_NUL => lit "NULL"
  | T_M => lit "M" | T_L => lit "L" | T_SS => lit "SS" | T_NS => lit "NS" | T_BS => lit "BS"
  end.

(** ** Comparison *)

Definition compare_values (left right : AttrPtr) (op : bytes) : bool :=
  match left, right with
  | Some (AV_S l), Some (AV_S r) => ordered op (Some (bytes_cmp l r))
  | Some (AV_N l), Some (AV_N r) => compare_numeric l r op
  | Some (AV_B l), Some (AV_B r) => ordered op (Some (bytes_cmp l r))
  | Some (AV_BOOL l), Some (AV_BOOL r) =>
      if op_is op "=" then Bool.eqb l r else if op_is op "<>" then negb (Bool.eqb l r) else false
  | Some AV_NUL, Some AV_NUL => if op_is op "=" then true else false
  | _, _ => false
  end.

(** [std::string::find(needle) != npos]. *)
Fixpoint contains (hay needle : bytes) : bool :=
  starts_with hay needle || match hay with [] => false | _ :: hay' => contains hay' needle end.

(** ** Evaluation *)

Section Evaluate.
Context (item : AttributeMap) (names : NameMap) (values : AttributeMap).

Definition size_of (v : AttributeValue) : AttrPtr :=
  let number n := Some (make_number (ld_of_Z n)) in
  match v with
  | AV_S s => number (len s)
  | AV_B b => number (len b)
  | AV_L l => number (len l)
  | AV_M m => number (len m)
  | AV_SS vs | AV_NS vs | AV_BS vs => number (len vs)
  | _ => None
  end.

Fixpoint evaluate_expression (node : ASTNode) : AttrPtr :=
  match node with
  | LiteralNode value => value
  | FunctionCallNode function_name arguments =>
      if bytes_eqb (upper_bytes function_name) (lit "SIZE") then
        match arguments with
        | [x] => match evaluate_expression x with None => None | Some v => size_of v end
        | _ => None
        end
      else None
  | PathNode segments => navigate_path segments item names
  | IdentifierNode name => match mget name item with Some v => v | None => None end
  | PlaceholderNode name =>
      if starts_with name (lit "#") then
        match mget name names with
        | Some n => if negb (is_valid_identifier n) then None else match mget n item with Some v => v | None => None end
        | None => None
        end
      else if starts_with name (lit ":") then match mget name values with Some v => v | None => None end
      else None
  | BinaryOpNode _ _ _ => None
  end.

Definition begins_with (val prefix : AttrPtr) : bool :=
  match val, prefix with
  | Some (AV_S v), Some (AV_S p) => starts_with v p
  | Some (AV_B v), Some (AV_B p) => (len p <=? len v) && bytes_eqb p (take (length p) v)
  | _, _ => false
  end.

Definition contains_value (val operand : AttrPtr) : bool :=
  match val, operand with
  | Some (AV_S v), Some (AV_S o) => contains v o
  | Some (AV_SS set), Some (AV_S o) => existsb (bytes_eqb o) set
  | Some (AV_NS set), Some (AV_N o) => existsb (bytes_eqb o) set
  | _, _ => false
  end.

Definition attribute_type (val type : AttrPtr) : bool :=
  match val, type with
  | Some v, Some (AV_S want) => bytes_eqb (type_code (av_type v)) want
  | _, _ => false
  end.

Definition exists_attribute (v : AttrPtr) : bool := match v with Some _ => true | None => false end.

(** The functions on operands; a call with another argument count is false. *)
Definition evaluate_function (fn : bytes) (arguments : list ASTNode) : bool :=
  let eval := evaluate_expression in
  if bytes_eqb fn (lit "ATTRIBUTE_EXISTS") || bytes_eqb fn (lit "ATTRIBUTE_NOT_EXISTS") then
    match arguments with
    | [x] => let found := exists_attribute (eval x) in if bytes_eqb fn (lit "ATTRIBUTE_EXISTS") then found else negb found
    | _ => false
    end
  else if bytes_eqb fn (lit "BEGINS_WITH") then
    match arguments with [v; p] => begins_with (eval v) (eval p) | _ => false end
  else if bytes_eqb fn (lit "CONTAINS") then
    match arguments with [v; o] => contains_value (eval v) (eval o) | _ => false end
  else if bytes_eqb fn (lit "ATTRIBUTE_TYPE") then
    match arguments with [v; t] => attribute_type (eval v) (eval t) | _ => false end
  else if bytes_eqb fn (lit "BETWEEN") then
    match arguments with
    | [v; lo; hi] => compare_values (eval v) (eval lo) (lit ">=") && compare_values (eval v) (eval hi) (lit "<=")
    | _ => false
    end
  else if bytes_eqb fn (lit "IN") then
    match arguments with
    | v :: candidates => existsb (fun c => compare_values (eval v) (eval c) (lit "=")) candidates
    | _ => false
    end
  else false.

Definition kMaxConditionDepth : Z := 128.

Fixpoint evaluate_condition_impl (node : ASTNode) (depth : Z) : bool :=
  if kMaxConditionDepth <? depth then false
  else
    match node with
    | BinaryOpNode op l r =>
        if bytes_eqb op (lit "AND") then
          if negb (evaluate_condition_impl l (depth + 1)) then false else evaluate_condition_impl r (depth + 1)
        else if bytes_eqb op (lit "OR") then
          if evaluate_condition_impl l (depth + 1) then true else evaluate_condition_impl r (depth + 1)
        else compare_values (evaluate_expression l) (evaluate_expression r) op
    | FunctionCallNode function_name arguments =>
        let fn := upper_bytes function_name in
        match arguments with
        | [x] => if bytes_eqb fn (lit "NOT") then negb (evaluate_condition_impl x (depth + 1)) else evaluate_function fn arguments
        | _ => evaluate_function fn arguments
        end
    | _ => false
    end.

Definition evaluate_condition (node : ASTNode) : bool := evaluate_condition_impl node 0.

Definition resolve_path (path : list PathSegment) : AttrPtr := navigate_path path item names.
End Evaluate.

Definition get_attribute_name (node : ASTNode) (names : NameMap) : option bytes :=
  match node with
  | PathNode [SegName n] => resolve_segment_name n names
  | IdentifierNode name => Some name
  | PlaceholderNode name => if starts_with name (lit "#") then mget name names else None
  | _ => None
  end.

(** ** The meaning of a condition *)

Section Meaning.
Context (item : AttributeMap) (names : NameMap) (values : AttributeMap).

(** What a condition means, without evaluation order or depth. *)
Fixpoint holds (node : ASTNode) : Prop :=
  match node with
  | BinaryOpNode op l r =>
      if bytes_eqb op (lit "AND") then holds l /\ holds r
      else if bytes_eqb op (lit "OR") then holds l \/ holds r
      else compare_values (evaluate_expression item names values l) (evaluate_expression item names values r) op = true
  | FunctionCallNode f args =>
      match args with
      | [x] => if bytes_eqb (upper_bytes f) (lit "NOT") then ~ holds x else evaluate_function item names values (upper_bytes f) args = true
      | _ => evaluate_function item names values (upper_bytes f) args = true
      end
  | _ => False
  end.

(** The nesting of [AND], [OR] and [NOT]. *)
Fixpoint cond_height (node : ASTNode) : Z :=
  match node with
  | BinaryOpNode op l r =>
      if bytes_eqb op (lit "AND") || bytes_eqb op (lit "OR") then 1 + Z.max (cond_height l) (cond_height r) else 0
  | FunctionCallNode f args =>
      match args with [x] => if bytes_eqb (upper_bytes f) (lit "NOT") then 1 + cond_height x else 0 | _ => 0 end
  | _ => 0
  end.

Lemma cond_height_nonneg e : 0 <= cond_height e.
Proof.
  induction e as [| | | |f args IH|] using ast_ind; cbn [cond_height]; repeat case_match; try lia.
  apply Forall_cons in IH as [IH _]. lia.
Qed.

Lemma impl_exact e : forall depth, depth + cond_height e <= kMaxConditionDepth ->
  evaluate_condition_impl item names values e depth = true <-> holds e.
Proof.
  induction e as [v|op l r IHl IHr|n|n|f args IH|segs] using ast_ind; intros depth Hd;
    (match goal with H : depth + cond_height ?n <= _ |- _ => pose proof (cond_height_nonneg n) end);
    cbn [evaluate_condition_impl holds cond_height] in *; (destruct (Z.ltb_spec kMaxConditionDepth depth) as [?|_]; [lia|]); try done.
  - destruct (bytes_eqb op (lit "AND")) eqn:E1; [|destruct (bytes_eqb op (lit "OR")) eqn:E2; [|done]]; cbn [orb] in *.
    + rewrite <- (IHl (depth + 1)), <- (IHr (depth + 1)) by lia. destruct (evaluate_condition_impl item names values l (depth + 1)); cbn [negb]; intuition congruence.
    + rewrite <- (IHl (depth + 1)), <- (IHr (depth + 1)) by lia. destruct (evaluate_condition_impl item names values l (depth + 1)); intuition congruence.
  - destruct args as [|x [|y args]]; [done| |done]. apply Forall_cons in IH as [IH _]. destruct (bytes_eqb (upper_bytes f) (lit "NOT")); [|done].
    rewrite <- (IH (depth + 1)) by lia. by rewrite negb_true_iff, not_true_iff_false.
Qed.
End Meaning.

(** ** The nesting of parsed conditions

    A condition parsed from [n] tokens nests at most [n] operators. *)

Section Nesting.
Context (back : Token) (Hback : ttype back = END_OF_FILE).

Definition fits (n : Z) (r : Result) : Prop := forall e ts, r = Ok (e, ts) -> cond_height e + len ts <= n.

Lemma fits_err n er : fits n (Err er).
Proof. by intros e ts ?. Qed.

Lemma fits_ok n e ts : cond_height e + len ts <= n -> fits n (Ok (e, ts)).
Proof. intros H e' ts' E. by injection E as <- <-. Qed.

Lemma fits_bind n m r k : fits m r -> (forall e ts, cond_height e + len ts <= m -> fits n (k (e, ts))) -> fits n (let? p := r in k p).
Proof. intros Hr Hk. destruct r as [[e ts]|er]; [|apply fits_err]. cbn [expected_bind]. apply Hk. by apply Hr. Qed.

Lemma fits_mono n m r : n <= m -> fits n r -> fits m r.
Proof. intros Hn H e ts E. specialize (H e ts E). lia. Qed.

(** A token other than the final one is consumed. *)
Lemma peek_cons ts t : peek_is back t ts = true -> t <> END_OF_FILE -> len ts = 1 + len (tl ts).
Proof.
  unfold peek_is. intros H%bool_decide_eq_true Ht. destruct ts as [|x ts]; [cbn [peek] in H; congruence|]. by rewrite len_cons.
Qed.

Lemma consume_len ts : len (snd (consume back ts)) <= len ts.
Proof. destruct ts; cbn [consume snd]; rewrite ?len_cons; lia. Qed.

Lemma consume_strict ts t : peek_is back t ts = true -> t <> END_OF_FILE -> len ts = 1 + len (snd (consume back ts)).
Proof. intros H Ht. rewrite (peek_cons ts t H Ht). destruct ts; [|done]. apply (peek_cons [] t) in H; [|done]. cbn [tl] in H. lia. Qed.

Lemma keyword_len op ts ts' : match_keyword back op ts = Some ts' -> len ts = 1 + len ts'.
Proof.
  unfold match_keyword. destruct (peek_is back KEYWORD ts) eqn:E; [|done]. cbn [andb]. destruct (bytes_eqb _ _); [|done].
  intros [= <-]. by apply (peek_cons ts KEYWORD).
Qed.

Lemma match_type_len t ts ts' : t <> END_OF_FILE -> match_type back t ts = Some ts' -> len ts = 1 + len ts'.
Proof. unfold match_type. intros Ht. destruct (peek_is back t ts) eqn:E; [|done]. intros [= <-]. by apply (peek_cons ts t). Qed.

Lemma expect_close_len ts ts' : expect_close back ts = Ok ts' -> len ts = 1 + len ts'.
Proof.
  unfold expect_close. destruct (match_type back CLOSE_PAREN ts) eqn:E; [|done]. intros [= <-]. by apply (match_type_len CLOSE_PAREN).
Qed.

Lemma chain_fits operand op fuel : (forall ts, fits (len ts) (operand ts)) ->
  forall l ts n, cond_height l + len ts <= n -> fits n (chain_loop back operand op fuel l ts).
Proof.
  intros Ho. induction fuel as [|fuel IH]; intros l ts n Hl; cbn [chain_loop]; [apply fits_err|].
  destruct (match_keyword back op ts) as [ts1|] eqn:E; [|by apply fits_ok]. apply keyword_len in E.
  eapply fits_bind; [apply Ho|]. intros r ts2 Hr. cbn [fst snd]. apply IH. cbn [cond_height].
  pose proof (cond_height_nonneg l). pose proof (cond_height_nonneg r). destruct (_ || _); lia.
Qed.

Lemma args_fits operand room : (forall ts, fits (len ts) (operand ts)) ->
  forall args ts n r, len ts <= n -> Forall (fun x => cond_height x + len ts <= n) args -> args_loop back operand room args ts = Ok r ->
  len (snd r) <= n /\ Forall (fun x => cond_height x + len (snd r) <= n) (fst r).
Proof.
  intros Ho. induction room as [|room IH]; intros args ts n r Hn Ha E; cbn [args_loop] in E; [done|].
  destruct (operand ts) as [[x ts1]|er] eqn:Ex; [|done]. cbn [expected_bind fst snd] in E. apply Ho in Ex. pose proof (cond_height_nonneg x).
  assert (Ha' : forall ts2 : list Token, len ts2 <= len ts1 -> Forall (fun x => cond_height x + len ts2 <= n) (args ++ [x])).
  { intros ts2 H2. apply Forall_app. split; [eapply Forall_impl; [exact Ha|]; intros y Hy; cbn beta in *; lia|]. repeat constructor. lia. }
  pose proof (consume_len ts1). destruct (peek_is back COMMA ts1).
  - apply (IH _ _ n) in E; [done|lia|by apply Ha'].
  - simplify_eq. cbn [fst snd]. split; [lia|by apply Ha'].
Qed.

Lemma path_fits room : forall segs ts, fits (len ts) (parse_path_loop back room segs ts).
Proof.
  induction room as [|room IH]; intros segs ts; cbn [parse_path_loop]; (destruct (negb _); [by apply fits_ok|]); [apply fits_err|].
  pose proof (consume_len ts). destruct (consume back ts) as [t1 ts1]. cbn [snd] in *. destruct (peek_is back DOT ts).
  - pose proof (consume_len ts1). destruct (consume back ts1) as [t2 ts2]. cbn [snd] in *.
    destruct (ttype t2); try apply fits_err; (destruct (_ || _); [apply fits_err|]); (eapply fits_mono; [|apply IH]; lia).
  - destruct (stoul (tvalue t1)); [|apply fits_err]. eapply fits_mono; [|apply IH]. lia.
Qed.

Lemma not_and_or op : is_supported_comparison_operator op = true -> bytes_eqb op (lit "AND") || bytes_eqb op (lit "OR") = false.
Proof.
  unfold is_supported_comparison_operator. intros H%bool_decide_eq_true. cbn [map] in H.
  repeat (apply elem_of_cons in H as [->|H]; [done|]). by apply elem_of_nil in H.
Qed.

Lemma comparison_fits operand l ts n : (forall ts, fits (len ts) (operand ts)) -> cond_height l + len ts <= n ->
  fits n (comparison_tail back operand l ts).
Proof.
  intros Ho Hl. pose proof (cond_height_nonneg l). unfold comparison_tail. destruct (peek_is back OPERATOR ts).
  - pose proof (consume_len ts). destruct (consume back ts) as [t ts1]. cbn [snd] in *.
    destruct (is_supported_comparison_operator (tvalue t)) eqn:E; [cbn [negb]|apply fits_err].
    eapply fits_bind; [apply Ho|]. intros r ts2 Hr. apply fits_ok. cbn [fst snd cond_height]. rewrite not_and_or by done. pose proof (cond_height_nonneg r). lia.
  - destruct (match_keyword back (lit "BETWEEN") ts) as [ts1|] eqn:E1.
    + apply keyword_len in E1. eapply fits_bind; [apply Ho|]. intros lo ts2 Hlo. cbn [fst snd]. pose proof (cond_height_nonneg lo).
      destruct (match_keyword back (lit "AND") ts2) as [ts3|] eqn:E2; [|apply fits_err]. apply keyword_len in E2.
      eapply fits_bind; [apply Ho|]. intros hi ts4 Hhi. pose proof (cond_height_nonneg hi). apply fits_ok. cbn [fst snd cond_height]. lia.
    + destruct (match_keyword back (lit "IN") ts) as [ts1|] eqn:E2; [|by apply fits_ok]. apply keyword_len in E2.
      destruct (match_type back OPEN_PAREN ts1) as [ts2|] eqn:E3; [|apply fits_err]. apply match_type_len in E3; [|done].
      destruct (args_loop _ _ _ _ _) as [[args ts3]|er] eqn:E; [|apply fits_err]. cbn [expected_bind fst snd].
      destruct (expect_close back ts3) as [ts4|er] eqn:E4; [|apply fits_err]. apply expect_close_len in E4.
      apply (args_fits operand _ Ho _ _ n) in E as [E _]; [|lia|repeat constructor; lia]. cbn [snd] in E.
      apply fits_ok. change (cond_height (FunctionCallNode (lit "IN") args)) with (match args with [x] => 0 | _ => 0 end).
      destruct args as [|? [|]]; lia.
Qed.

Lemma name_fits operand t ts : (forall ts, fits (len ts) (operand ts)) -> fits (len ts) (name_tail back operand t ts).
Proof.
  intros Ho. unfold name_tail. destruct (bool_decide _ || _); [apply fits_err|]. destruct (_ && _); [apply fits_err|].
  destruct (peek_is back OPEN_PAREN ts) eqn:E1; [|apply path_fits]. apply consume_strict in E1; [|done].
  destruct (consume back ts) as [t1 ts1]. cbn [snd] in *.
  assert (Hargs : forall r, (if peek_is back CLOSE_PAREN ts1 then Ok ([], ts1) else args_loop back operand (Z.to_nat kMaxFunctionArgs) [] ts1) = Ok r ->
    len (snd r) <= len ts1 /\ Forall (fun x => cond_height x + len (snd r) <= len ts1) (fst r)).
  { intros r. destruct (peek_is back CLOSE_PAREN ts1); [by intros [= <-]|]. apply args_fits; [done|lia|constructor]. }
  destruct (if peek_is back CLOSE_PAREN ts1 then _ else _) as [[args ts2]|er]; [|apply fits_err]. destruct (Hargs _ eq_refl) as [E2 E3]. cbn [fst snd] in *.
  cbn [expected_bind fst snd]. destruct (expect_close back ts2) as [ts3|er] eqn:E4; [|apply fits_err]. apply expect_close_len in E4.
  apply fits_ok. cbn [cond_height]. destruct args as [|x [|y args]]; [lia| |lia]. apply Forall_cons in E3 as [E3 _]. destruct (bytes_eqb _ _); lia.
Qed.

Lemma primary_fits L : (forall ts, fits (len ts) (parse_or back L ts)) -> forall ts, fits (len ts) (parse_primary back (S L) ts).
Proof.
  intros Ho ts. cbn [parse_primary]. destruct (match_type back OPEN_PAREN ts) as [ts1|] eqn:E1.
  - apply match_type_len in E1; [|done]. eapply fits_bind; [apply Ho|]. intros e ts2 He. cbn [fst snd].
    destruct (expect_close back ts2) as [ts3|er] eqn:E2; [|apply fits_err]. apply expect_close_len in E2. apply fits_ok. lia.
  - pose proof (consume_len ts). destruct (consume back ts) as [t ts1]. cbn [snd] in *.
    destruct (ttype t); try apply fits_err; try (eapply fits_mono; [|by apply name_fits]; lia).
    + destruct (_ || _); [apply fits_err|]. eapply fits_mono; [|apply path_fits]. lia.
    + destruct (_ || _); [apply fits_err|]. by apply fits_ok.
Qed.

Lemma parse_fits L :
  (forall ts, fits (len ts) (parse_or back L ts)) /\ (forall ts, fits (len ts) (parse_and back L ts)) /\ (forall ts, fits (len ts) (parse_not back L ts)) /\
  (forall ts, fits (len ts) (parse_comparison back L ts)) /\ (forall ts, fits (len ts) (parse_primary back L ts)).
Proof.
  induction L as [|L (Hor & Hand & Hnot & Hcmp & Hprim)]; [by repeat split; intros; apply fits_err|]. repeat split; intros ts.
  - cbn [parse_or]. eapply fits_bind; [apply Hand|]. intros e ts1 He. by apply chain_fits.
  - cbn [parse_and]. eapply fits_bind; [apply Hnot|]. intros e ts1 He. by apply chain_fits.
  - cbn [parse_not]. destruct (match_keyword back (lit "NOT") ts) as [ts1|] eqn:E; [|apply Hcmp]. apply keyword_len in E.
    eapply fits_bind; [apply Hnot|]. intros e ts2 He. apply fits_ok. cbn [fst snd cond_height]. change (bytes_eqb (upper_bytes (lit "NOT")) (lit "NOT")) with true. cbv iota. lia.
  - cbn [parse_comparison]. eapply fits_bind; [apply Hprim|]. intros e ts1 He. by apply comparison_fits.
  - by apply primary_fits.
Qed.
End Nesting.

Lemma tokenize_last text : last (tokenize text) = Some (tok END_OF_FILE []).
Proof.
  unfold tokenize. destruct (_ <? _); [done|]. generalize kMaxLexerTokens as room. intros room. revert text.
  induction room as [|room IH]; intros text; cbn [tokenize_loop]; [done|]. destruct (next_token text) as [t d] eqn:E.
  specialize (IH d). destruct (ttype t) eqn:Et; try (rewrite last_cons, IH; done); [done|].
  unfold next_token in E. destruct (skip_whitespace text); [by simplify_eq|]. unfold placeholder_token in E.
  repeat case_match; simplify_eq; done.
Qed.

Lemma parsed_height text e : parse_expression (tokenize text) = Ok e -> cond_height e <= len (tokenize text).
Proof.
  unfold parse_expression. rewrite tokenize_last. cbn [default]. unfold id. set (eof := tok END_OF_FILE []). intros H. destruct (_ <? _); [done|]. destruct (existsb _ _); [done|].
  match type of H with context [parse_or eof ?L ?tt] => set (ts0 := tt) in H; destruct (parse_or eof L ts0) as [[x ts]|er] eqn:E end; [|done].
  cbn [expected_bind fst snd] in H. destruct (negb _); [done|]. simplify_eq. rewrite fold_constants_id.
  apply (parse_fits eof eq_refl) in E. pose proof (len_nonneg ts). assert (len ts0 <= len (tokenize text)); [|lia].
  unfold ts0. destruct (_ && _); [apply consume_len|done].
Qed.

(** ** Properties *)



(** [c OR d OR ... OR d]. *)
Fixpoint or_chain (c d : ASTNode) (n : nat) : ASTNode :=
  match n with O => c | S n' => BinaryOpNode (lit "OR") (or_chain c d n') d end.

Lemma or_chain_tail item names values c op l r n : forall depth, is_supported_comparison_operator op = true -> depth <= 128 -> 129 <= Z.of_nat n + depth ->
  evaluate_condition_impl item names values (or_chain c (BinaryOpNode op l r) n) depth =
  if depth <? 128 then compare_values (evaluate_expression item names values l) (evaluate_expression item names values r) op else false.
Proof.
  intros depth Hop. revert depth. induction n as [|n IH]; intros depth Hd Hn; [lia|]. cbn [or_chain evaluate_condition_impl]. unfold kMaxConditionDepth.
  apply not_and_or in Hop. apply orb_false_elim in Hop as [-> ->]. destruct (Z.ltb_spec 128 depth); [lia|].
  change (bytes_eqb (lit "OR") (lit "AND")) with false. change (bytes_eqb (lit "OR") (lit "OR")) with true. cbv iota.
  destruct (Z.ltb_spec depth 128).
  - destruct (Z.ltb_spec 128 (depth + 1)); [lia|]. rewrite IH by lia. destruct (_ <? _); by destruct (compare_values _ _ _).
  - destruct (Z.ltb_spec 128 (depth + 1)); [|lia]. destruct (or_chain c (BinaryOpNode op l r) n); cbn [evaluate_condition_impl];
      unfold kMaxConditionDepth; by destruct (Z.ltb_spec 128 (depth + 1)); [|lia].
Qed.

(** The evaluator's nesting limit changes the meaning of long conditions the
    parser accepts: in [c OR d OR ... OR d] with at least 129 occurrences of a
    comparison [d], the first term is never looked at, so the condition is
    reported false whenever [d] is false, even when [c] holds. *)
Theorem long_or_chain_ignores_first item names values c op l r n :
  is_supported_comparison_operator op = true -> (129 <= n)%nat ->
  evaluate_condition item names values (or_chain c (BinaryOpNode op l r) n) = evaluate_condition item names values (BinaryOpNode op l r).
Proof.
  intros Hop Hn. unfold evaluate_condition. rewrite or_chain_tail by (done || lia). cbn [evaluate_condition_impl].
  apply not_and_or in Hop. by apply orb_false_elim in Hop as [-> ->].
Qed.

Lemma long_or_chain_ignores_first_witness :
  let item := [(lit "a", Some (AV_S (lit "x")))] in
  let values := [(lit ":x", Some (AV_S (lit "x")))] in
  let term a := BinaryOpNode (lit "=") (PathNode [SegName (lit a)]) (PlaceholderNode (lit ":x")) in
  let text := (lit "a=:x" ++ concat (replicate (Z.to_nat 150) (lit " OR b=:x")))%list in
  parse_expression (tokenize text) = Ok (or_chain (term "a"%string) (term "b"%string) (Z.to_nat 150)) /\
  evaluate_condition item [] values (term "a"%string) = true /\
  evaluate_condition item [] values (or_chain (term "a"%string) (term "b"%string) (Z.to_nat 150)) = false.
Proof.
  intros item values term text. split; [vm_compute; reflexivity|]. split; [vm_compute; reflexivity|].
  unfold term. rewrite (long_or_chain_ignores_first item [] values); [vm_compute; reflexivity|vm_compute; reflexivity|].
  lia.
Defined.

(** ** Comparisons *)

Definition comparable (l r : AttributeValue) : bool :=
  match l, r with
  | AV_S _, AV_S _ | AV_B _, AV_B _ => true
  | AV_N a, AV_N b => is_valid_number a && is_valid_number b
  | _, _ => false
  end.

Lemma parse_valid_number s : is_valid_number s = true -> exists x, parse_number s = Some x /\ x <> S754_nan.
Proof.
  intros H. destruct (valid_number_strtold s H) as [[_ Hn] Hl]. unfold parse_number. destruct (strtold s) as [x n]. cbn [fst snd] in *.
  rewrite Hl, Z.eqb_refl. destruct s; [done|]. eauto.
Qed.

Lemma SFcompare_total x y : x <> S754_nan -> y <> S754_nan -> exists c, SFcompare x y = Some c /\ SFcompare y x = Some (CompOpp c).
Proof.
  intros Hx Hy. destruct x as [sx|sx| |sx mx ex], y as [sy|sy| |sy my ey]; try done; destruct sx, sy; cbn [SFcompare]; eauto;
    rewrite (Z.compare_antisym ex ey); destruct (ex ?= ey); cbn [CompOpp]; try (by eexists; split);
    change (Pos.compare_cont Eq mx my) with (Pos.compare mx my); change (Pos.compare_cont Eq my mx) with (Pos.compare my mx);
    rewrite (Pos.compare_antisym mx my); eexists; split; try reflexivity; by destruct (Pos.compare mx my).
Qed.

Lemma comparable_order l r : comparable l r = true ->
  exists c, (forall op, compare_values (Some l) (Some r) op = ordered op (Some c)) /\
            (forall op, compare_values (Some r) (Some l) op = ordered op (Some (CompOpp c))).
Proof.
  destruct l as [a|a|a|?| |?|?|?|?|?], r as [c|c|c|?| |?|?|?|?|?]; try done; cbn [comparable compare_values]; intros H.
  - exists (bytes_cmp a c). by rewrite (bytes_cmp_opp a c).
  - apply andb_prop in H as [Ha Hb]. destruct (parse_valid_number a Ha) as (x & Ex & Hx). destruct (parse_valid_number c Hb) as (y & Ey & Hy).
    destruct (SFcompare_total x y Hx Hy) as (o & E1 & E2). exists o. unfold compare_numeric. rewrite Ex, Ey, E1, E2. done.
  - exists (bytes_cmp a c). by rewrite (bytes_cmp_opp a c).
Qed.

(** On two strings, two binaries or two numbers of the accepted syntax the
    six comparison operators describe one total order: exactly one of [<], [=]
    and [>] is true, the other three operators are their combinations, and
    exchanging the operands exchanges the directions.  In particular [BETWEEN],
    which tests [>=] and [<=], never disagrees with [<] and [>]. *)
Theorem comparison_operators_coherent l r :
  comparable l r = true ->
  let cmp op := compare_values (Some l) (Some r) (lit op) in
  let swapped op := compare_values (Some r) (Some l) (lit op) in
  ((cmp "<", cmp "=", cmp ">") = (true, false, false) \/ (cmp "<", cmp "=", cmp ">") = (false, true, false) \/
   (cmp "<", cmp "=", cmp ">") = (false, false, true))%string /\
  (cmp "<=" = cmp "<" || cmp "=")%string /\ (cmp ">=" = cmp ">" || cmp "=")%string /\ (cmp "<>" = negb (cmp "="))%string /\
  (swapped ">" = cmp "<" /\ swapped "<" = cmp ">" /\ swapped "=" = cmp "=" /\ swapped ">=" = cmp "<=" /\ swapped "<=" = cmp ">=")%string.
Proof.
  intros H cmp swapped. destruct (comparable_order l r H) as (c & E1 & E2). unfold cmp, swapped. rewrite !E1, !E2.
  destruct c; vm_compute; intuition.
Qed.

Lemma comparison_operators_coherent_witness :
  compare_values (Some (AV_N (lit "2"))) (Some (AV_N (lit "10"))) (lit "<") = true /\
  compare_values (Some (AV_N (lit "10"))) (Some (AV_N (lit "2"))) (lit ">") = true /\
  compare_values (Some (AV_S (lit "2"))) (Some (AV_S (lit "10"))) (lit "<") = false.
Proof.
  split; [vm_compute; reflexivity|]. split; [|vm_compute; reflexivity].
  destruct (comparison_operators_coherent (AV_N (lit "2")) (AV_N (lit "10")) ltac:(vm_compute; reflexivity)) as (_ & _ & _ & _ & H & _).
  rewrite H. vm_compute. reflexivity.
Defined.

(** ** Sizes *)

Definition size_value (v : AttributeValue) : option Z :=
  match v with
  | AV_S s | AV_B s => Some (len s)
  | AV_L l => Some (len l)
  | AV_M m => Some (len m)
  | AV_SS vs | AV_NS vs | AV_BS vs => Some (len vs)
  | AV_N _ | AV_BOOL _ | AV_NUL => None
  end.

Lemma make_number_int n : Z.abs n < 9200000000000000000 -> make_number (ld_of_Z n) = AV_N (dec_of_Z n).
Proof.
  intros Hn. unfold make_number. rewrite ld_roundtrip by lia. unfold SFeqb, SFltb. rewrite <- ld_opp by lia. rewrite !ld_compare by lia.
  rewrite Z.compare_refl. destruct (Z.compare_spec n 9200000000000000000); try lia. destruct (Z.compare_spec (- (9200000000000000000)) n); try lia. done.
Qed.

Lemma parse_number_int n : parse_number (dec_of_Z n) = Some (ld_of_Z n).
Proof.
  unfold parse_number. rewrite strtold_dec, Z.eqb_refl. assert (dec_of_Z n <> []) by (unfold dec_of_Z; destruct (n <? 0); [done|apply dec_of_nonempty]).
  by destruct (dec_of_Z n).
Qed.

Lemma dec_of_Z_nonneg n : 0 <= n -> dec_of_Z n = dec_of_nonneg n.
Proof. intros Hn. unfold dec_of_Z. by destruct (Z.ltb_spec n 0); [lia|]. Qed.

(** [size(path)] is exact.  For an attribute with [n] bytes, elements or
    entries, comparing its size with any 64-bit integer [k] written in decimal
    gives the comparison of the integers, for all six operators; there is no
    rounding although the evaluator goes through long doubles and decimal text. *)
Theorem size_comparison_exact item names values x v n k op :
  evaluate_expression item names values x = Some v -> size_value v = Some n -> n < 9200000000000000000 -> 0 <= k < 2 ^ 64 ->
  compare_values (evaluate_expression item names values (FunctionCallNode (lit "size") [x])) (Some (AV_N (dec_of_nonneg k))) op =
  ordered op (Some (n ?= k)).
Proof.
  intros Hx Hs Hn Hk. assert (Hn0 : 0 <= n) by (destruct v; simplify_eq/=; apply len_nonneg).
  assert (Hsz : evaluate_expression item names values (FunctionCallNode (lit "size") [x]) = Some (AV_N (dec_of_Z n))).
  { cbn [evaluate_expression]. change (bytes_eqb (upper_bytes (lit "size")) (lit "SIZE")) with true. cbv iota. rewrite Hx.
    rewrite <- make_number_int by lia. destruct v; simplify_eq/=; done. }
  rewrite Hsz, <- (dec_of_Z_nonneg k) by lia. cbn [compare_values]. unfold compare_numeric. rewrite !parse_number_int. by rewrite ld_compare by lia.
Qed.

Lemma size_comparison_exact_witness :
  let item := [(lit "a", Some (AV_L [Some AV_NUL; Some (AV_BOOL true)]))] in
  compare_values (evaluate_expression item [] [] (FunctionCallNode (lit "size") [PathNode [SegName (lit "a")]])) (Some (AV_N (dec_of_nonneg 3))) (lit "<") = true.
Proof.
  intros item. rewrite (size_comparison_exact item [] [] (PathNode [SegName (lit "a")]) (AV_L [Some AV_NUL; Some (AV_BOOL true)]) 2 3 (lit "<"));
    [vm_compute; reflexivity|reflexivity|reflexivity|lia|lia].
Defined.
