(* ===== verification/UpdateExpression.v ===== *)
(** * Update expressions

    [src/expressions/update_expression.cpp]: its tokenizer, the parser that
    applies clauses while it reads them, and the path operations on documents.
    Every in-place change of the source is made to a value that was cloned or
    created just before ([deep_clone], [make_shared], a new vector), so values
    shared between attributes are never changed and the store of values needs no
    model: an attribute value is a tree.  [Applier] is the mutable state: the
    unread tokens, the working item and the first error message.  Loops run on
    fuel; [None] at the outer level would be running out of it. *)

From Stdlib Require Import ZArith Lia Strings.String SpecFloat.
From stdpp Require Import prelude.
From S2P Require Import Prelude StdMap Types CLib LongDouble Validator Lexer Parser Evaluator.

Module Update.

Inductive TT := Ident | Name | Value | Op | LParen | RParen | Comma | Dot | Index | Keyword | End | Bad.

#[export] Instance TT_eq_dec : EqDecision TT.
Proof. solve_decision. Defined.

Record Tok := { type : TT; text : bytes; index : Z }.

Definition tok (t : TT) (s : bytes) : Tok := {| type := t; text := s; index := 0 |}.

Definition ident_start (c : byte) : bool := isalpha c || is_char 95 c.
Definition ident_char (c : byte) : bool := isalnum c || is_char 95 c.
Definition upper (s : bytes) : bytes := map toupper s.

Definition is_section_keyword (up : bytes) : bool :=
  bytes_eqb up (lit "SET") || bytes_eqb up (lit "REMOVE") || bytes_eqb up (lit "ADD") || bytes_eqb up (lit "DELETE").

Definition kMaxTokens : Z := 8192.

(** One token at a character that is not white space; [None] is [bad]. *)
Definition next_tok (c : byte) (r : bytes) : option (Tok * bytes) :=
  let mark t :=
    match r with
    | c' :: _ => if ident_start c' then let '(name, rest) := span ident_char r in Some (tok t (c :: name), rest) else None
    | [] => None
    end in
  if is_char 35 c then mark Name
  else if is_char 58 c then mark Value
  else if ident_start c then
    let '(word, rest) := span ident_char (c :: r) in
    Some (if is_section_keyword (upper word) then tok Keyword (upper word) else tok Ident word, rest)
  else if is_char 61 c || is_char 43 c || is_char 45 c then Some (tok Op [c], r)
  else if is_char 40 c then Some (tok LParen (lit "("), r)
  else if is_char 41 c then Some (tok RParen (lit ")"), r)
  else if is_char 44 c then Some (tok Comma (lit ","), r)
  else if is_char 46 c then Some (tok Dot (lit "."), r)
  else if is_char 91 c then
    let '(digits, rest) := span isdigit r in
    match digits, rest with
    | [], _ => None
    | _, [] => None
    | _, c' :: rest =>
        if negb (is_char 93 c') then None
        else match stoul digits with
             | Some idx => Some ({| type := Index; text := []; index := idx |}, rest)
             | None => None
             end
    end
  else None.

(** The loop of [tokenize]: the tokens and [bad].  Every turn reads a character. *)
Fixpoint tokenize_loop (fuel : nat) (d : bytes) (out : list Tok) : option (list Tok * bool) :=
  match d with
  | [] => Some (out ++ [tok End []], false)
  | c :: r =>
      match fuel with
      | O => None
      | S fuel' =>
          if isspace c then tokenize_loop fuel' r out
          else if kMaxTokens <? len out then Some (out ++ [tok End []], true)
          else match next_tok c r with
               | None => Some (out ++ [tok End []], true)
               | Some (t, r) => tokenize_loop fuel' r (out ++ [t])
               end
      end
  end.

Definition tokenize (input : bytes) : option (list Tok * bool) := tokenize_loop (length input) input [].

(** ** Numbers and copies *)

Definition parse_num (s : bytes) : option spec_float :=
  if bool_decide (s = []) then None
  else let '(out, consumed) := strtold s in if consumed =? len s then Some out else None.

Definition make_number (n : spec_float) : AttributeValue :=
  let limit := ld_of_Z 9200000000000000000 in
  if SFeqb n (ld_of_Z (ld_to_ll n)) && SFltb n limit && SFltb (SFopp limit) n
  then AV_N (dec_of_Z (ld_to_ll n))
  else AV_N (format_g17 n).

Fixpoint deep_clone (v : AttributeValue) : AttributeValue :=
  match v with
  | AV_M m =>
      AV_M ((fix go m acc :=
               match m with
               | [] => acc
               | (k, child) :: m' => go m' (mset k (match child with Some a => Some (deep_clone a) | None => None end) acc)
               end) m [])
  | AV_L l =>
      AV_L ((fix go l :=
               match l with
               | [] => []
               | child :: l' => (match child with Some a => Some (deep_clone a) | None => None end) :: go l'
               end) l)
  | _ => v
  end.

(** ** Document paths *)

Inductive Seg := SName (name : bytes) | SIndex (index : Z).
Abbreviation Path := (list Seg).

Fixpoint read_steps (p : Path) (cur : AttrPtr) : AttrPtr :=
  match p, cur with
  | [], _ => cur
  | _, None => None
  | SIndex i :: p, Some (AV_L l) =>
      if len l <=? i then None else match l !! Z.to_nat i with Some v => read_steps p v | None => None end
  | SName n :: p, Some (AV_M m) => match mget n m with None => None | Some v => read_steps p v end
  | _, Some _ => None
  end.

Definition read_path (item : AttributeMap) (p : Path) : AttrPtr :=
  match p with
  | SName root :: p => match mget root item with None => None | Some v => read_steps p v end
  | _ => None
  end.

(** The change of a value at the end of a path below it, copied along the way. *)
Fixpoint write_steps (p : Path) (value : AttrPtr) (cur : AttributeValue) : expected AttributeValue bytes :=
  match p with
  | [] => Ok cur
  | [SIndex i] =>
      match cur with
      | AV_L l =>
          if i <? len l then Ok (AV_L (<[Z.to_nat i := value]> l))
          else if i =? len l then Ok (AV_L (l ++ [value]))
          else Err (lit "Update list index out of range")
      | _ => Err (lit "Update path is not a list")
      end
  | [SName n] =>
      match cur with
      | AV_M m => Ok (AV_M (mset n value m))
      | _ => Err (lit "Update path is not a map")
      end
  | SIndex i :: p =>
      match cur with
      | AV_L l =>
          if len l <=? i then Err (lit "Update path index out of range")
          else match l !! Z.to_nat i with
               | Some (Some v) => let? v := write_steps p value v in Ok (AV_L (<[Z.to_nat i := Some v]> l))
               | _ => Err (lit "Update path index out of range")
               end
      | _ => Err (lit "Update path is not a list")
      end
  | SName n :: p =>
      match cur with
      | AV_M m =>
          match mget n m with
          | Some (Some v) => let? v := write_steps p value v in Ok (AV_M (mset n (Some v) m))
          | _ => Err (lit "Update path parent does not exist")
          end
      | _ => Err (lit "Update path is not a map")
      end
  end.

Definition write_path (item : AttributeMap) (p : Path) (value : AttrPtr) : expected AttributeMap bytes :=
  match p with
  | [SName root] => Ok (mset root value item)
  | SName root :: p =>
      match mget root item with
      | Some (Some v) => let? v := write_steps p value (deep_clone v) in Ok (mset root (Some v) item)
      | _ => Err (lit "Update path parent does not exist")
      end
  | _ => Err (lit "Invalid update path")
  end.

(** [None] when there is nothing to remove. *)
Fixpoint erase_steps (p : Path) (cur : AttributeValue) : option AttributeValue :=
  match p with
  | [] => Some cur
  | [SIndex i] =>
      match cur with
      | AV_L l => Some (AV_L (if i <? len l then take (Z.to_nat i) l ++ drop (S (Z.to_nat i)) l else l))
      | _ => None
      end
  | [SName n] => Some (match cur with AV_M m => AV_M (mdel n m) | _ => cur end)
  | SIndex i :: p =>
      match cur with
      | AV_L l =>
          if len l <=? i then None
          else match l !! Z.to_nat i with
               | Some (Some v) => match erase_steps p v with Some v => Some (AV_L (<[Z.to_nat i := Some v]> l)) | None => None end
               | _ => None
               end
      | _ => None
      end
  | SName n :: p =>
      match cur with
      | AV_M m =>
          match mget n m with
          | Some (Some v) => match erase_steps p v with Some v => Some (AV_M (mset n (Some v) m)) | None => None end
          | _ => None
          end
      | _ => None
      end
  end.

Definition erase_path (item : AttributeMap) (p : Path) : AttributeMap :=
  match p with
  | [SName root] => mdel root item
  | SName root :: p =>
      match mget root item with
      | Some (Some v) => match erase_steps p (deep_clone v) with Some v => mset root (Some v) item | None => item end
      | _ => item
      end
  | _ => item
  end.

(** ** The applier *)

Record Applier := { rest : list Tok; item : AttributeMap; error : bytes }.

Definition with_rest (s : Applier) (ts : list Tok) : Applier := {| rest := ts; item := item s; error := error s |}.
Definition with_item (s : Applier) (i : AttributeMap) : Applier := {| rest := rest s; item := i; error := error s |}.

Definition peek (s : Applier) : Tok := match rest s with t :: _ => t | [] => tok End [] end.
Definition peek_type (s : Applier) : TT := type (peek s).

(** The type of the token after the next one. *)
Definition second_type (s : Applier) : TT := match rest s with _ :: t :: _ => type t | _ => End end.

(** The last token is never passed. *)
Definition advance (s : Applier) : Tok * Applier :=
  (peek s, match rest s with _ :: t :: ts => with_rest s (t :: ts) | _ => s end).

Definition skip (s : Applier) : Applier := snd (advance s).

Definition fail (msg : bytes) (s : Applier) : Applier :=
  if bool_decide (error s = []) then {| rest := rest s; item := item s; error := msg |} else s.

Section Apply.
Context (names : NameMap) (values : AttributeMap).

Definition resolve_name (raw : bytes) (s : Applier) : option bytes * Applier :=
  if starts_with raw (lit "#") then
    match mget raw names with
    | None => (None, fail (lit "ExpressionAttributeNames missing entry for " ++ raw) s)
    | Some n => (Some n, s)
    end
  else (Some raw, s).

Definition is_name (t : TT) : bool := bool_decide (t = Ident) || bool_decide (t = Name).

(** The steps of a path.  [fuel] is the number of tokens, one of which every turn
    reads. *)
Fixpoint path_loop (fuel : nat) (p : Path) (s : Applier) : option (option Path * Applier) :=
  match fuel with
  | O => None
  | S fuel' =>
      match peek_type s with
      | Dot =>
          let s := skip s in
          if negb (is_name (peek_type s)) then Some (None, fail (lit "Expected a name after '.'") s)
          else
            let '(seg, s) := advance s in
            match resolve_name (text seg) s with
            | (None, s) => Some (None, s)
            | (Some n, s) => path_loop fuel' (p ++ [SName n]) s
            end
      | Index => let '(t, s) := advance s in path_loop fuel' (p ++ [SIndex (index t)]) s
      | _ => Some (Some p, s)
      end
  end.

Definition parse_path (s : Applier) : option (option Path * Applier) :=
  if negb (is_name (peek_type s)) then Some (None, fail (lit "Expected an attribute path") s)
  else
    let '(t, s) := advance s in
    match resolve_name (text t) s with
    | (None, s) => Some (None, s)
    | (Some root, s) => path_loop (S (length (rest s))) [SName root] s
    end.

Definition resolve_value_ref (s : Applier) : AttrPtr * Applier :=
  if negb (bool_decide (peek_type s = Value)) then (None, fail (lit "Expected a value placeholder") s)
  else
    let '(t, s) := advance s in
    match mget (text t) values with
    | None => (None, fail (lit "ExpressionAttributeValues missing entry for " ++ text t) s)
    | Some v => (v, s)
    end.

Definition path_operand (s : Applier) : option (AttrPtr * Applier) :=
  match parse_path s with
  | None => None
  | Some (None, s) => Some (None, s)
  | Some (Some p, s) => Some (read_path (item s) p, s)
  end.

(** The arguments of [if_not_exists] and [list_append], after the parenthesis. *)
Definition if_not_exists_args (additive : Applier -> option (AttrPtr * Applier)) (s : Applier) : option (AttrPtr * Applier) :=
  match parse_path s with
  | None => None
  | Some (None, s) => Some (None, s)
  | Some (Some p, s) =>
      if negb (bool_decide (peek_type s = Comma)) then Some (None, fail (lit "if_not_exists expects two arguments") s)
      else
        match additive (skip s) with
        | None => None
        | Some (fallback, s) =>
            if negb (bool_decide (peek_type s = RParen)) then Some (None, fail (lit "if_not_exists missing )") s)
            else
              let s := skip s in
              Some (match read_path (item s) p with Some v => Some v | None => fallback end, s)
        end
  end.

Definition list_append (a b : AttrPtr) : AttrPtr :=
  match a, b with Some (AV_L x), Some (AV_L y) => Some (AV_L (x ++ y)) | _, _ => None end.

Definition list_append_args (additive : Applier -> option (AttrPtr * Applier)) (s : Applier) : option (AttrPtr * Applier) :=
  match additive s with
  | None => None
  | Some (a, s) =>
      if negb (bool_decide (peek_type s = Comma)) then Some (None, fail (lit "list_append expects two arguments") s)
      else
        match additive (skip s) with
        | None => None
        | Some (b, s) =>
            if negb (bool_decide (peek_type s = RParen)) then Some (None, fail (lit "list_append missing )") s)
            else
              let s := skip s in
              match list_append a b with
              | Some v => Some (Some v, s)
              | None => Some (None, fail (lit "list_append requires two list operands") s)
              end
        end
  end.

Definition parse_operand (additive : Applier -> option (AttrPtr * Applier)) (s : Applier) : option (AttrPtr * Applier) :=
  let t := peek s in
  match type t with
  | Value => Some (resolve_value_ref s)
  | Ident =>
      let lname := upper (text t) in
      if bytes_eqb lname (lit "IF_NOT_EXISTS") && bool_decide (second_type s = LParen) then if_not_exists_args additive (skip (skip s))
      else if bytes_eqb lname (lit "LIST_APPEND") && bool_decide (second_type s = LParen) then list_append_args additive (skip (skip s))
      else path_operand s
  | Name => path_operand s
  | _ => Some (None, fail (lit "Unexpected token in UpdateExpression operand") s)
  end.

Definition is_sign_op (s : Applier) : bool :=
  bool_decide (peek_type s = Op) && (bytes_eqb (text (peek s)) (lit "+") || bytes_eqb (text (peek s)) (lit "-")).

Definition arithmetic (op : bytes) (left right : AttrPtr) : expected AttributeValue bytes :=
  match left, right with
  | Some (AV_N l), Some (AV_N r) =>
      match parse_num l, parse_num r with
      | Some l, Some r => Ok (make_number (if bytes_eqb op (lit "+") then ld_add l r else ld_sub l r))
      | _, _ => Err (lit "Invalid number in SET arithmetic")
      end
  | _, _ => Err (lit "Arithmetic in SET requires numeric operands")
  end.

Fixpoint additive_loop (operand : Applier -> option (AttrPtr * Applier)) (fuel : nat) (left : AttrPtr) (s : Applier)
  : option (AttrPtr * Applier) :=
  match fuel with
  | O => None
  | S fuel' =>
      if is_sign_op s then
        let '(op, s) := advance s in
        match operand s with
        | None => None
        | Some (rhs, s) =>
            match arithmetic (text op) left rhs with
            | Ok v => additive_loop operand fuel' (Some v) s
            | Err msg => Some (None, fail msg s)
            end
        end
      else Some (left, s)
  end.

Fixpoint parse_additive (fuel : nat) (s : Applier) : option (AttrPtr * Applier) :=
  match fuel with
  | O => None
  | S fuel' =>
      let operand := parse_operand (parse_additive fuel') in
      match operand s with
      | None => None
      | Some (lhs, s) => additive_loop operand (S (length (rest s))) lhs s
      end
  end.

(** ** Clauses *)

Definition store (p : Path) (v : AttrPtr) (s : Applier) : bool * Applier :=
  match write_path (item s) p v with
  | Ok i => (true, with_item s i)
  | Err msg => (false, fail msg s)
  end.

(** One action of a clause: false when it fails. *)
Definition set_action (s : Applier) : option (bool * Applier) :=
  match parse_path s with
  | None => None
  | Some (None, s) => Some (false, s)
  | Some (Some target, s) =>
      if negb (bool_decide (peek_type s = Op) && bytes_eqb (text (peek s)) (lit "=")) then Some (false, fail (lit "SET clause expects '='") s)
      else
        let s := skip s in
        match parse_additive (S (length (rest s))) s with
        | None => None
        | Some (value, s) =>
            if negb (bool_decide (error s = [])) then Some (false, s)
            else match value with
                 | None => Some (false, fail (lit "SET value resolves to nothing") s)
                 | Some _ => Some (store target value s)
                 end
        end
  end.

Definition remove_action (s : Applier) : option (bool * Applier) :=
  match parse_path s with
  | None => None
  | Some (None, s) => Some (false, s)
  | Some (Some target, s) => Some (true, with_item s (erase_path (item s) target))
  end.

(** Set union: the new elements in the order of the operand. *)
Definition set_union (dst add : list bytes) : list bytes :=
  fold_left (fun dst v => if existsb (bytes_eqb v) dst then dst else dst ++ [v]) add dst.

(** [parse_num] also assigns its output when it returns false. *)
Definition add_base (existing : AttrPtr) : spec_float :=
  match existing with
  | Some (AV_N n) => if bool_decide (n = []) then S754_zero false else fst (strtold n)
  | _ => S754_zero false
  end.

Definition added_value (existing operand : AttrPtr) : expected AttrPtr bytes :=
  match operand with
  | Some (AV_N d) =>
      match parse_num d with
      | None => Err (lit "ADD value is not a number")
      | Some delta => Ok (Some (make_number (ld_add (add_base existing) delta)))
      end
  | Some (AV_SS vs) =>
      match existing with
      | None => Ok operand
      | Some (AV_SS dst) => Ok (Some (AV_SS (set_union dst vs)))
      | _ => Err (lit "ADD set type does not match existing attribute")
      end
  | Some (AV_NS vs) =>
      match existing with
      | None => Ok operand
      | Some (AV_NS dst) => Ok (Some (AV_NS (set_union dst vs)))
      | _ => Err (lit "ADD set type does not match existing attribute")
      end
  | _ => Err (lit "ADD supports only Number and Set values")
  end.

Definition add_action (s : Applier) : option (bool * Applier) :=
  match parse_path s with
  | None => None
  | Some (None, s) => Some (false, s)
  | Some (Some target, s) =>
      match resolve_value_ref s with
      | (None, s) => Some (false, s)
      | (operand, s) =>
          match added_value (read_path (item s) target) operand with
          | Ok v => Some (store target v s)
          | Err msg => Some (false, fail msg s)
          end
      end
  end.

Definition set_difference (dst rm : list bytes) : list bytes := List.filter (fun v => negb (existsb (bytes_eqb v) rm)) dst.

(** The set that is left, when the attribute is a set of the operand's type. *)
Definition deleted_value (existing operand : AttrPtr) : option AttributeValue :=
  match existing, operand with
  | Some (AV_SS dst), Some (AV_SS rm) => Some (AV_SS (set_difference dst rm))
  | Some (AV_NS dst), Some (AV_NS rm) => Some (AV_NS (set_difference dst rm))
  | _, _ => None
  end.

Definition is_empty_set (v : AttributeValue) : bool := match v with AV_SS [] | AV_NS [] => true | _ => false end.

Definition delete_action (s : Applier) : option (bool * Applier) :=
  match parse_path s with
  | None => None
  | Some (None, s) => Some (false, s)
  | Some (Some target, s) =>
      match resolve_value_ref s with
      | (None, s) => Some (false, s)
      | (operand, s) =>
          match deleted_value (read_path (item s) target) operand with
          | None => Some (true, s)
          | Some remaining =>
              if is_empty_set remaining then Some (true, with_item s (erase_path (item s) target)) else Some (store target (Some remaining) s)
          end
      end
  end.

(** Actions separated by commas. *)
Fixpoint clause (action : Applier -> option (bool * Applier)) (fuel : nat) (s : Applier) : option (bool * Applier) :=
  match fuel with
  | O => None
  | S fuel' =>
      match action s with
      | None => None
      | Some (false, s) => Some (false, s)
      | Some (true, s) => if bool_decide (peek_type s = Comma) then clause action fuel' (skip s) else Some (true, s)
      end
  end.

Definition section_action (section : bytes) : option (Applier -> option (bool * Applier)) :=
  if bytes_eqb section (lit "SET") then Some set_action
  else if bytes_eqb section (lit "REMOVE") then Some remove_action
  else if bytes_eqb section (lit "ADD") then Some add_action
  else if bytes_eqb section (lit "DELETE") then Some delete_action
  else None.

Fixpoint run_loop (fuel : nat) (s : Applier) : option (bool * Applier) :=
  match fuel with
  | O => None
  | S fuel' =>
      if bool_decide (peek_type s = Keyword) then
        let '(section, s) := advance s in
        match section_action (text section) with
        | None => Some (false, s)
        | Some action =>
            match clause action (S (length (rest s))) s with
            | None => None
            | Some (false, s) => Some (false, s)
            | Some (true, s) => run_loop fuel' s
            end
        end
      else if negb (bool_decide (peek_type s = End)) then Some (false, fail (lit "Unexpected trailing tokens in UpdateExpression") s)
      else Some (true, s)
  end.

Definition run (s : Applier) : option (bool * Applier) :=
  if bool_decide (peek_type s = End) then Some (false, fail (lit "UpdateExpression is empty") s)
  else run_loop (S (length (rest s))) s.

(** The new item or the error message; the working copy is dropped on failure. *)
Definition apply_update_expression (expression : bytes) (old : AttributeMap) : option (expected AttributeMap bytes) :=
  match tokenize expression with
  | None => None
  | Some (toks, true) => Some (Err (lit "Invalid UpdateExpression syntax"))
  | Some (toks, false) =>
      match run {| rest := toks; item := old; error := [] |} with
      | None => None
      | Some (false, s) => Some (Err (if bool_decide (error s = []) then lit "Invalid UpdateExpression" else error s))
      | Some (true, s) => Some (Ok (item s))
      end
  end.
End Apply.

(** ** Laws of the path operations *)

(** Values whose maps are sorted, at every depth, as [std::map] keeps them. *)
Fixpoint tree_wf (v : AttributeValue) : bool :=
  match v with
  | AV_M m => msortedb m && forallb (fun e => match e.2 with Some a => tree_wf a | None => true end) m
  | AV_L l => forallb (fun x => match x with Some a => tree_wf a | None => true end) l
  | _ => true
  end.

Definition ptr_wf (v : AttrPtr) : bool := match v with Some a => tree_wf a | None => true end.
Definition item_wf (i : AttributeMap) : bool := tree_wf (AV_M i).

Definition clone_ptr (v : AttrPtr) : AttrPtr := match v with Some a => Some (deep_clone a) | None => None end.

Lemma deep_clone_id v : tree_wf v = true -> deep_clone v = v.
Proof.
  induction v as [s|s|s|b| |m IH|l IH|vs|vs|vs] using av_ind; intros Hw; try done; cbn [deep_clone tree_wf] in *.
  - apply andb_prop in Hw as [Hs Hw]. apply msortedb_sound in Hs. f_equal.
    assert (Hgen : forall m acc : AttributeMap, Forall (fun e => clone_ptr e.2 = e.2) m -> msorted (acc ++ m) ->
      (fix go m acc := match m with [] => acc | (k, child) :: m' => go m' (mset k (clone_ptr child) acc) end) m acc = acc ++ m).
    { clear. induction m as [|[k c] m IHm]; intros acc Hc Hs; [by rewrite app_nil_r|]. apply Forall_cons in Hc as [Hc Hm]. cbn [snd] in Hc. rewrite Hc.
      rewrite mset_last by (apply msorted_app in Hs as (_ & _ & Hs); eapply Forall_impl; [exact Hs|]; intros e He; by apply (Forall_cons_1 _ _ _ He)).
      rewrite IHm; [by rewrite <- app_assoc|done|by rewrite <- app_assoc]. }
    apply (Hgen m []); [|done]. apply forallb_Forall in Hw. rewrite Forall_forall in *. intros e He. specialize (IH e He). specialize (Hw e He).
    destruct (e.2) as [a|]; [|done]. cbn [clone_ptr]. f_equal. by apply IH.
  - f_equal. induction l as [|c l IHl]; [done|]. apply Forall_cons in IH as [Hc Hl]. cbn [forallb] in Hw. apply andb_prop in Hw as [Hwc Hwl].
    f_equal; [|by apply IHl]. destruct c; [|done]. f_equal. by apply Hc.
Qed.

Definition step_ok (s : Seg) : bool := match s with SName _ => true | SIndex i => 0 <=? i end.

(** Two paths part at some step. *)
Inductive diverge : Path -> Path -> Prop :=
| diverge_here s t p q : s <> t -> diverge (s :: p) (t :: q)
| diverge_later s p q : diverge p q -> diverge (s :: p) (s :: q).

(** What a write below a value does to reads. *)
Definition writes (p : Path) (v : AttrPtr) (cur cur' : AttributeValue) : Prop :=
  read_steps p (Some cur') = v /\ (forall q, diverge p q -> forallb step_ok q = true -> read_steps q (Some cur') = read_steps q (Some cur)).

Lemma read_name n p m : read_steps (SName n :: p) (Some (AV_M m)) = match mget n m with None => None | Some v => read_steps p v end.
Proof. done. Qed.

Lemma read_index i p l : 0 <= i -> read_steps (SIndex i :: p) (Some (AV_L l)) = match l !! Z.to_nat i with None => None | Some v => read_steps p v end.
Proof.
  intros Hi. cbn [read_steps]. destruct (Z.leb_spec (len l) i) as [Hl|]; [|done]. rewrite lookup_ge_None_2; [done|]. unfold len in Hl. lia.
Qed.

Lemma read_mismatch_map i p m : read_steps (SIndex i :: p) (Some (AV_M m)) = None.
Proof. done. Qed.
Lemma read_mismatch_list n p l : read_steps (SName n :: p) (Some (AV_L l)) = None.
Proof. done. Qed.

Lemma writes_name n p v m c c' : (p = [] /\ c' = v \/ exists a a', mget n m = Some (Some a) /\ c = Some a /\ c' = Some a' /\ writes p v a a') ->
  writes (SName n :: p) v (AV_M m) (AV_M (mset n c' m)).
Proof.
  intros H. split.
  - rewrite read_name, mget_mset_eq. destruct H as [[-> ->]|(a & a' & _ & _ & -> & [Hr _])]; done.
  - intros q Hd Hq. inversion Hd as [s t p' q' Hne|s p' q' Hd']; subst.
    + destruct t as [n'|i]; [|done]. rewrite !read_name. rewrite mget_mset_ne by congruence. done.
    + rewrite !read_name, mget_mset_eq. destruct H as [[-> ->]|(a & a' & -> & -> & -> & [_ Hf])]; [inversion Hd'|].
      apply Hf; [done|]. by apply andb_prop in Hq as [_ ?].
Qed.

Lemma writes_index i p v l c' : 0 <= i < len l ->
  (p = [] /\ c' = v \/ exists a a', l !! Z.to_nat i = Some (Some a) /\ c' = Some a' /\ writes p v a a') ->
  writes (SIndex i :: p) v (AV_L l) (AV_L (<[Z.to_nat i := c']> l)).
Proof.
  intros Hi H. assert (Hlt : (Z.to_nat i < length l)%nat) by (unfold len in Hi; lia). split.
  - rewrite read_index, list_lookup_insert_eq by (done || lia). destruct H as [[-> ->]|(a & a' & _ & -> & [Hr _])]; done.
  - intros q Hd Hq. inversion Hd as [s t p' q' Hne|s p' q' Hd']; subst; cbn [forallb] in Hq; apply andb_prop in Hq as [Hs Hq].
    + destruct t as [n'|j]; [done|]. cbn [step_ok] in Hs. apply Z.leb_le in Hs. rewrite !read_index by done.
      rewrite list_lookup_insert_ne; [done|]. intros E. apply Hne. f_equal. lia.
    + rewrite !read_index, list_lookup_insert_eq by (done || lia). destruct H as [[-> ->]|(a & a' & -> & -> & [_ Hf])]; [inversion Hd'|]. by apply Hf.
Qed.

Lemma writes_append v l : writes [SIndex (len l)] v (AV_L l) (AV_L (l ++ [v])).
Proof.
  pose proof (len_nonneg l). split.
  - rewrite read_index by done. unfold len. rewrite Nat2Z.id, lookup_app_r, Nat.sub_diag by done. done.
  - intros q Hd Hq. inversion Hd as [s t p' q' Hne|s p' q' Hd']; subst; [|inversion Hd']. cbn [forallb] in Hq. apply andb_prop in Hq as [Hs Hq].
    destruct t as [n'|j]; [done|]. cbn [step_ok] in Hs. apply Z.leb_le in Hs. rewrite !read_index by done.
    assert (j <> len l) by (intros ->; by apply Hne). destruct (Z.lt_ge_cases j (len l)) as [Hl|Hg].
    + rewrite lookup_app_l by (unfold len in *; lia). done.
    + rewrite !lookup_ge_None_2; [done| |]; unfold len in *; rewrite ?length_app; simpl; lia.
Qed.

Lemma write_steps_writes p v : forall cur cur', p <> [] -> forallb step_ok p = true -> write_steps p v cur = Ok cur' -> writes p v cur cur'.
Proof.
  induction p as [|s p IH]; intros cur cur' Hne Hok H; [done|]. cbn [forallb] in Hok. apply andb_prop in Hok as [Hs Hok].
  destruct p as [|s2 p].
  - destruct s as [n|i]; cbn [write_steps] in H; destruct cur as [ | | | | |m|l| | | ]; try done.
    + simplify_eq. apply (writes_name _ _ _ _ None). by left.
    + cbn [step_ok] in Hs. apply Z.leb_le in Hs. destruct (Z.ltb_spec i (len l)); [|destruct (Z.eqb_spec i (len l)); [|done]]; simplify_eq.
      * apply writes_index; [lia|]. by left.
      * apply writes_append.
  - remember (s2 :: p) as p' eqn:Ep. destruct s as [n|i]; cbn [write_steps] in H; rewrite Ep in H; rewrite <- Ep in H;
      destruct cur as [ | | | | |m|l| | | ]; try done.
    + destruct (mget n m) as [[a|]|] eqn:Em; try done. destruct (write_steps p' v a) as [a'|] eqn:E; [|done]. cbn [expected_bind] in H. simplify_eq.
      eapply (writes_name _ _ _ _ (Some a)). right. exists a, a'. split; [done|]. split; [done|]. split; [done|]. by apply IH.
    + cbn [step_ok] in Hs. apply Z.leb_le in Hs. destruct (Z.leb_spec (len l) i); [done|]. destruct (l !! Z.to_nat i) as [[a|]|] eqn:El; try done.
      destruct (write_steps p' v a) as [a'|] eqn:E; [|done]. cbn [expected_bind] in H. simplify_eq.
      apply writes_index; [lia|]. right. exists a, a'. split; [done|]. split; [done|]. by apply IH.
Qed.

(** Well-formedness is kept. *)
Lemma tree_wf_map m : tree_wf (AV_M m) = true <-> msorted m /\ Forall (fun e => ptr_wf e.2 = true) m.
Proof. cbn [tree_wf]. by rewrite andb_true_iff, msortedb_sound, forallb_iff. Qed.

Lemma tree_wf_list l : tree_wf (AV_L l) = true <-> Forall (fun x => ptr_wf x = true) l.
Proof. cbn [tree_wf]. by rewrite forallb_iff. Qed.

Lemma wf_mset n v m : tree_wf (AV_M m) = true -> ptr_wf v = true -> tree_wf (AV_M (mset n v m)) = true.
Proof. rewrite !tree_wf_map. intros [Hs Hf] Hv. split; [by apply msorted_mset|]. by apply Forall_mset_rows. Qed.

Lemma wf_child n m a : tree_wf (AV_M m) = true -> mget n m = Some (Some a) -> tree_wf a = true.
Proof. rewrite tree_wf_map, Forall_forall. intros [_ Hf] Hg. apply (Hf (n, Some a)). by apply list_elem_of_In, mget_Some_In. Qed.

Lemma wf_element i l a : tree_wf (AV_L l) = true -> l !! i = Some (Some a) -> tree_wf a = true.
Proof. rewrite tree_wf_list. intros Hf Hl. by apply (Forall_lookup_1 _ _ _ _ Hf Hl). Qed.

Lemma write_steps_wf p v : forall cur cur', tree_wf cur = true -> ptr_wf v = true -> write_steps p v cur = Ok cur' -> tree_wf cur' = true.
Proof.
  induction p as [|s p IH]; intros cur cur' Hc Hv H; [by simplify_eq/=|]. destruct p as [|s2 p].
  - destruct s as [n|i]; cbn [write_steps] in H; destruct cur as [ | | | | |m|l| | | ]; try done.
    + simplify_eq. by apply wf_mset.
    + destruct (i <? len l); [|destruct (i =? len l); [|done]]; simplify_eq; apply tree_wf_list; apply tree_wf_list in Hc;
        [by apply Forall_insert|by apply Forall_app_2; [|repeat constructor]].
  - remember (s2 :: p) as p' eqn:Ep. destruct s as [n|i]; cbn [write_steps] in H; rewrite Ep in H; rewrite <- Ep in H; destruct cur as [ | | | | |m|l| | | ]; try done.
    + destruct (mget n m) as [[a|]|] eqn:Em; try done. destruct (write_steps p' v a) as [a'|] eqn:E; [|done]. cbn [expected_bind] in H. simplify_eq.
      apply wf_mset; [done|]. cbn [ptr_wf]. eapply IH; [|done|exact E]. by eapply wf_child.
    + destruct (len l <=? i); [done|]. destruct (l !! Z.to_nat i) as [[a|]|] eqn:El; try done.
      destruct (write_steps p' v a) as [a'|] eqn:E; [|done]. cbn [expected_bind] in H. simplify_eq.
      pose proof Hc as Hl. apply tree_wf_list in Hc. apply tree_wf_list, Forall_insert; [done|]. cbn [ptr_wf]. eapply IH; [|done|exact E]. by eapply wf_element.
Qed.

(** Storing a value at a document path.  If the write succeeds, reading the
    path gives the value, every path that parts from it reads as before, and the
    item keeps sorted maps at every depth; a list index may be the length of the
    list, which appends. *)
Theorem write_path_read_path i p v i' :
  item_wf i = true -> ptr_wf v = true -> forallb step_ok p = true -> write_path i p v = Ok i' ->
  read_path i' p = v /\ (forall q, diverge p q -> forallb step_ok q = true -> read_path i' q = read_path i q) /\ item_wf i' = true.
Proof.
  intros Hi Hv Hok H. destruct p as [|[root|?] p]; [done| |done]. cbn [forallb] in Hok. apply andb_prop in Hok as [_ Hok].
  assert (Hw : writes (SName root :: p) v (AV_M i) (AV_M i') /\ item_wf i' = true).
  { destruct p as [|s p].
    - cbn [write_path] in H. simplify_eq. split; [apply (writes_name _ _ _ _ None); by left|by apply wf_mset].
    - remember (s :: p) as p' eqn:Ep. cbn [write_path] in H. rewrite Ep in H. rewrite <- Ep in H. destruct (mget root i) as [[a|]|] eqn:Em; try done.
      assert (Ha : tree_wf a = true) by by eapply wf_child. rewrite deep_clone_id in H by done.
      destruct (write_steps p' v a) as [a'|] eqn:E; [|done]. cbn [expected_bind] in H. simplify_eq. split.
      + eapply (writes_name _ _ _ _ (Some a)). right. exists a, a'. split; [done|]. split; [done|]. split; [done|]. by apply write_steps_writes.
      + apply wf_mset; [done|]. cbn [ptr_wf]. by eapply write_steps_wf. }
  destruct Hw as [[Hr Hf] Hw]. split; [exact Hr|]. split; [|done].
  intros q Hd Hq. assert (Hroot : forall t q', read_path i (SName t :: q') = read_steps (SName t :: q') (Some (AV_M i))) by done.
  specialize (Hf q Hd Hq). destruct q as [|[t|?] q]; [inversion Hd| |done]. exact Hf.
Qed.

Lemma write_path_read_path_witness :
  let i := [(lit "a", Some (AV_M [(lit "k", Some (AV_L [Some (AV_N (lit "1"))]))])); (lit "b", Some (AV_S (lit "x")))] in
  let i' := [(lit "a", Some (AV_M [(lit "k", Some (AV_L [Some (AV_N (lit "1")); Some AV_NUL]))])); (lit "b", Some (AV_S (lit "x")))] in
  write_path i [SName (lit "a"); SName (lit "k"); SIndex 1] (Some AV_NUL) = Ok i' /\
  read_path i' [SName (lit "a"); SName (lit "k"); SIndex 1] = Some AV_NUL.
Proof.
  intros i i'. split; [vm_compute; reflexivity|].
  apply (write_path_read_path i [SName (lit "a"); SName (lit "k"); SIndex 1] (Some AV_NUL) i'); vm_compute; reflexivity.
Defined.

(** *** Removal *)

Lemma read_none p : read_steps p None = None.
Proof. by destruct p as [|[] p]. Qed.

Lemma read_app p q : forall c, read_steps (p ++ q) c = read_steps q (read_steps p c).
Proof.
  induction p as [|s p IH]; intros c; [done|]. destruct c as [c|]; [|by rewrite !read_none]. cbn [app].
  destruct s as [n|i], c as [ | | | | |m|l| | | ]; cbn [read_steps]; rewrite ?read_none; try done.
  - destruct (mget n m); [apply IH|by rewrite read_none].
  - destruct (len l <=? i); [by rewrite read_none|]. destruct (l !! Z.to_nat i); [apply IH|by rewrite read_none].
Qed.

(** The effect of removing one step below its parent. *)
Definition erase_leaf (s : Seg) (v : AttributeValue) : AttributeValue :=
  match s, v with
  | SName n, AV_M m => AV_M (mdel n m)
  | SIndex i, AV_L l => AV_L (if i <? len l then take (Z.to_nat i) l ++ drop (S (Z.to_nat i)) l else l)
  | _, _ => v
  end.

Definition leaf_fits (s : Seg) (v : AttributeValue) : bool := match s, v with SName _, _ | SIndex _, AV_L _ => true | _, _ => false end.

Definition frame (p : Path) (cur cur' : AttributeValue) : Prop :=
  forall q, diverge p q -> forallb step_ok q = true -> read_steps q (Some cur') = read_steps q (Some cur).

Lemma erase_steps_leaf s cur : erase_steps [s] cur = if leaf_fits s cur then Some (erase_leaf s cur) else None.
Proof. destruct s, cur; done. Qed.

Lemma erase_steps_cons s p cur : p <> [] -> erase_steps (s :: p) cur =
  match s, cur with
  | SName n, AV_M m =>
      match mget n m with Some (Some v) => match erase_steps p v with Some v => Some (AV_M (mset n (Some v) m)) | None => None end | _ => None end
  | SIndex i, AV_L l =>
      if len l <=? i then None
      else match l !! Z.to_nat i with
           | Some (Some v) => match erase_steps p v with Some v => Some (AV_L (<[Z.to_nat i := Some v]> l)) | None => None end
           | _ => None
           end
  | _, _ => None
  end.
Proof. destruct p; [done|]. by destruct s. Qed.

(** Removal changes the parent of the leaf and nothing else, or there is no such
    parent. *)
Lemma erase_steps_spec s p : forall cur, forallb step_ok p = true ->
  match erase_steps (p ++ [s]) cur with
  | Some cur' => exists a, read_steps p (Some cur) = Some a /\ leaf_fits s a = true /\ read_steps p (Some cur') = Some (erase_leaf s a) /\ frame p cur cur'
  | None => forall a, read_steps p (Some cur) = Some a -> leaf_fits s a = false
  end.
Proof.
  induction p as [|t p IH]; intros cur Hok.
  - cbn [app]. rewrite erase_steps_leaf. destruct (leaf_fits s cur) eqn:E; [|by intros a [= <-]]. exists cur. repeat split; [done|]. intros q Hd. inversion Hd.
  - cbn [forallb] in Hok. apply andb_prop in Hok as [Ht Hok]. cbn [app]. rewrite erase_steps_cons by by destruct p.
    destruct t as [n|i], cur as [ | | | | |m|l| | | ]; try done.
    + rewrite read_name. destruct (mget n m) as [[v|]|] eqn:Em; [|by rewrite read_none|done]. specialize (IH v Hok).
      destruct (erase_steps (p ++ [s]) v) as [v'|]; [|done]. destruct IH as (a & Ha & Hl & Ha' & Hf). exists a. split; [done|]. split; [done|].
      rewrite read_name, mget_mset_eq. split; [done|]. refine (proj2 (writes_name n p (read_steps p (Some v')) m (Some v) (Some v') _)). right. by exists v, v'.
    + cbn [step_ok] in Ht. apply Z.leb_le in Ht. rewrite read_index by done. destruct (Z.leb_spec (len l) i) as [Hge|Hlt].
      { rewrite lookup_ge_None_2; [done|]. unfold len in Hge. lia. }
      destruct (l !! Z.to_nat i) as [[v|]|] eqn:El; [|by rewrite read_none|done]. specialize (IH v Hok).
      destruct (erase_steps (p ++ [s]) v) as [v'|]; [|done]. destruct IH as (a & Ha & Hl & Ha' & Hf). exists a. split; [done|]. split; [done|].
      rewrite read_index, list_lookup_insert_eq by (done || unfold len in Hlt; lia). split; [done|].
      refine (proj2 (writes_index i p (read_steps p (Some v')) l (Some v') ltac:(lia) _)). right. by exists v, v'.
Qed.

(** The same for a whole item. *)
Lemma erase_path_spec i root p s : item_wf i = true -> forallb step_ok p = true ->
  let i' := erase_path i (SName root :: p ++ [s]) in
  (exists a, read_path i (SName root :: p) = Some a /\ leaf_fits s a = true /\ read_path i' (SName root :: p) = Some (erase_leaf s a) /\
     forall q, diverge (SName root :: p) q -> forallb step_ok q = true -> read_path i' q = read_path i q) \/
  i' = i /\ forall a, read_path i (SName root :: p) = Some a -> leaf_fits s a = false.
Proof.
  intros Hi Hok i'. subst i'. assert (E : erase_path i (SName root :: p ++ [s]) =
    match mget root i with Some (Some v) => match erase_steps (p ++ [s]) (deep_clone v) with Some v => mset root (Some v) i | None => i end | _ => i end) by by destruct p.
  rewrite E. cbn [read_path]. destruct (mget root i) as [[v|]|] eqn:Em; [|right; by rewrite read_none|by right].
  assert (Hv : tree_wf v = true) by by eapply wf_child. rewrite deep_clone_id by done. pose proof (erase_steps_spec s p v Hok) as H.
  destruct (erase_steps (p ++ [s]) v) as [v'|]; [|by right]. left. destruct H as (a & Ha & Hl & Ha' & Hf). exists a. rewrite mget_mset_eq. repeat split; try done.
  intros q Hd Hq. destruct (writes_name root p (read_steps p (Some v')) i (Some v) (Some v')) as [_ Hw].
  { right. exists v, v'. repeat split; done. }
  specialize (Hw q Hd Hq). destruct q as [|[t|?] q]; [inversion Hd| |done]. exact Hw.
Qed.

Lemma lookup_removed {A} (l : list A) i j : (i < length l)%nat ->
  (take i l ++ drop (S i) l) !! j = l !! (if (j <? i)%nat then j else S j).
Proof.
  intros Hi. destruct (Nat.ltb_spec j i).
  - rewrite lookup_app_l by (rewrite length_take; lia). by rewrite lookup_take_lt.
  - rewrite lookup_app_r by (rewrite length_take; lia). rewrite length_take, lookup_drop. f_equal. lia.
Qed.

(** Removing a document path.  A removed map entry reads as absent afterwards
    and a removed list element makes its successors move up by one; every path
    that parts from the removed one above it reads as before.  Removing below a
    parent that does not exist changes nothing. *)
Theorem erase_path_read_path i root p s :
  item_wf i = true -> forallb step_ok p = true -> step_ok s = true ->
  let i' := erase_path i (SName root :: p ++ [s]) in
  (forall q, diverge (SName root :: p) q -> forallb step_ok q = true -> read_path i' q = read_path i q) /\
  (read_path i (SName root :: p) = None -> i' = i) /\
  match s with
  | SName n => read_path i' (SName root :: p ++ [s]) = None /\
      forall n' r, n' <> n -> read_path i' (SName root :: p ++ SName n' :: r) = read_path i (SName root :: p ++ SName n' :: r)
  | SIndex k => forall l j r, read_path i (SName root :: p) = Some (AV_L l) -> k < len l -> 0 <= j ->
      read_path i' (SName root :: p ++ SIndex j :: r) = read_path i (SName root :: p ++ SIndex (if j <? k then j else j + 1) :: r)
  end.
Proof.
  intros Hi Hok Hs. assert (Happ : forall x r, read_path x (SName root :: p ++ r) = read_steps r (read_path x (SName root :: p))).
  { intros x r. cbn [read_path]. destruct (mget root x); [apply read_app|by rewrite read_none]. }
  destruct (erase_path_spec i root p s Hi Hok) as [(a & Ha & Hl & Ha' & Hf)|[Ei Hno]]; cbv zeta; set (i' := erase_path i _) in *.
  - split; [done|]. split; [congruence|]. destruct s as [n|k].
    + rewrite Happ, Ha'. split; [destruct a; try done; cbn [erase_leaf]; by rewrite read_name, mget_mdel_eq|].
      intros n' r Hn. rewrite !Happ, Ha, Ha'. destruct a; try done. cbn [erase_leaf]. by rewrite !read_name, mget_mdel_ne.
    + intros l j r El Hk Hj. rewrite !Happ, Ha, Ha'. replace a with (AV_L l) by congruence. cbn [erase_leaf step_ok] in *. apply Z.leb_le in Hs.
      destruct (Z.ltb_spec k (len l)); [|lia]. rewrite !read_index by (destruct (j <? k); lia). rewrite lookup_removed by (unfold len in *; lia).
      replace (if (Z.to_nat j <? Z.to_nat k)%nat then Z.to_nat j else S (Z.to_nat j)) with (Z.to_nat (if j <? k then j else j + 1)); [done|].
      destruct (Z.ltb_spec j k), (Nat.ltb_spec (Z.to_nat j) (Z.to_nat k)); lia.
  - rewrite Ei. split; [done|]. split; [done|]. destruct s as [n|k].
    + split; [|done]. rewrite Happ. destruct (read_path i (SName root :: p)) as [a|]; [by specialize (Hno a eq_refl)|by rewrite read_none].
    + intros l j r El. by specialize (Hno _ El).
Qed.

Lemma erase_path_read_path_witness :
  let i := [(lit "a", Some (AV_L [Some (AV_N (lit "1")); Some (AV_N (lit "2")); Some (AV_N (lit "3"))])); (lit "b", Some AV_NUL)] in
  read_path (erase_path i (SName (lit "a") :: [] ++ [SIndex 0])) [SName (lit "a"); SIndex 1] = Some (AV_N (lit "3")).
Proof.
  intros i. destruct (erase_path_read_path i (lit "a") [] (SIndex 0)) as (_ & _ & H); [vm_compute; reflexivity|reflexivity|reflexivity|].
  specialize (H [Some (AV_N (lit "1")); Some (AV_N (lit "2")); Some (AV_N (lit "3"))] 1 []). etransitivity; [apply H; [vm_compute; reflexivity|reflexivity|lia]|vm_compute; reflexivity].
Defined.

(** ** Termination

    The fuel of every loop is the number of tokens, and every turn reads one: the
    unread tokens always end with the [End] token, which is not passed. *)

Definition closed (s : Applier) : Prop := exists pre, rest s = pre ++ [tok End []].
Definition left_to_read (s : Applier) : nat := length (rest s).

Lemma closed_skip s : closed s -> closed (skip s) /\ (left_to_read (skip s) <= left_to_read s)%nat /\
  (peek_type s <> End -> S (left_to_read (skip s)) = left_to_read s).
Proof.
  intros [pre E]. unfold closed, left_to_read, skip, advance, peek_type, peek. cbn [snd]. rewrite E. destruct pre as [|t [|t2 pre]]; cbn [app rest with_rest].
  - rewrite E. split; [by exists []|]. split; [done|]. by intros [].
  - split; [by exists []|]. cbn [length]. split; [lia|done].
  - split; [by exists (t2 :: pre)|]. cbn [length]. split; [lia|done].
Qed.

Lemma closed_fail msg s : closed s -> closed (fail msg s) /\ left_to_read (fail msg s) = left_to_read s.
Proof. intros H. unfold fail. by destruct (bool_decide _). Qed.

(** An operation that returns and only reads on. *)
Definition returns {A} (s : Applier) (r : option (A * Applier)) : Prop :=
  exists x s', r = Some (x, s') /\ closed s' /\ (left_to_read s' <= left_to_read s)%nat.

Lemma returns_now {A} (x : A) s0 s : closed s -> (left_to_read s <= left_to_read s0)%nat -> returns s0 (Some (x, s)).
Proof. intros. by exists x, s. Qed.

Lemma returns_fail {A} (x : A) msg s0 s : closed s -> (left_to_read s <= left_to_read s0)%nat -> returns s0 (Some (x, fail msg s)).
Proof. intros Hc Hl. destruct (closed_fail msg s Hc) as [Hc' E]. apply returns_now; [done|]. lia. Qed.

#[local] Hint Resolve returns_now returns_fail : cyn.

Section Total.
Context (names : NameMap) (values : AttributeMap).

Lemma resolve_name_state raw s : closed s -> closed (snd (resolve_name names raw s)) /\ left_to_read (snd (resolve_name names raw s)) = left_to_read s.
Proof.
  intros H. unfold resolve_name. destruct (starts_with raw (lit "#")); [|done]. destruct (mget raw names); [done|]. by apply closed_fail.
Qed.

Lemma path_loop_returns fuel : forall p s, closed s -> (left_to_read s < fuel)%nat -> returns s (path_loop names fuel p s).
Proof.
  induction fuel as [|fuel IH]; intros p s Hc Hf; [lia|]. cbn [path_loop]. destruct (closed_skip s Hc) as (Hc1 & _ & Hs1).
  destruct (peek_type s) eqn:Et; try (by apply returns_now).
  - specialize (Hs1 ltac:(done)). destruct (closed_skip _ Hc1) as (Hc2 & Hs2 & _).
    destruct (is_name (peek_type (skip s))); cbn [negb]; [|apply returns_fail; [done|lia]].
    change (advance (skip s)) with (peek (skip s), skip (skip s)). cbv iota beta.
    destruct (resolve_name_state (text (peek (skip s))) (skip (skip s)) Hc2) as [Hc3 Hs3].
    destruct (resolve_name names (text (peek (skip s))) (skip (skip s))) as [[n|] s3]; cbn [snd] in *; [|apply returns_now; [done|lia]].
    destruct (IH (p ++ [SName n]) s3 Hc3 ltac:(lia)) as (x & s' & -> & Hc' & Hl'). apply returns_now; [done|lia].
  - specialize (Hs1 ltac:(done)). change (advance s) with (peek s, skip s). cbv iota beta.
    destruct (IH (p ++ [SIndex (index (peek s))]) (skip s) Hc1 ltac:(lia)) as (x & s' & -> & Hc' & Hl'). apply returns_now; [done|lia].
Qed.

Lemma parse_path_returns s : closed s -> returns s (parse_path names s).
Proof.
  intros Hc. unfold parse_path. destruct (is_name (peek_type s)); cbn [negb]; [|by apply returns_fail].
  destruct (closed_skip s Hc) as (Hc1 & Hs1 & _). change (advance s) with (peek s, skip s). cbv iota beta.
  destruct (resolve_name_state (text (peek s)) (skip s) Hc1) as [Hc2 Hs2].
  destruct (resolve_name names (text (peek s)) (skip s)) as [[n|] s2]; cbn [snd] in *; [|apply returns_now; [done|lia]].
  destruct (path_loop_returns (S (length (rest s2))) [SName n] s2 Hc2) as (x & s' & -> & Hc' & Hl'); [unfold left_to_read; lia|]. apply returns_now; [done|lia].
Qed.

Lemma resolve_value_ref_returns s : closed s -> returns s (Some (resolve_value_ref values s)).
Proof.
  intros Hc. unfold resolve_value_ref. destruct (closed_skip s Hc) as (Hc1 & Hs1 & _). destruct (negb _); [by apply returns_fail|].
  change (advance s) with (peek s, skip s). cbv iota beta. destruct (mget _ values); [by apply returns_now|by apply returns_fail].
Qed.

Lemma path_operand_returns s : closed s -> returns s (path_operand names s).
Proof.
  intros Hc. unfold path_operand. destruct (parse_path_returns s Hc) as ([p|] & s1 & -> & Hc1 & Hs1); by apply returns_now.
Qed.

(** Operands, given that the nested expressions return. *)
Lemma operand_returns additive s : closed s ->
  (forall s1, closed s1 -> (left_to_read s1 < left_to_read s)%nat -> returns s1 (additive s1)) -> returns s (parse_operand names values additive s).
Proof.
  intros Hc Ha. unfold parse_operand. destruct (closed_skip s Hc) as (Hc1 & _ & Hs1). destruct (closed_skip _ Hc1) as (Hc2 & Hs2 & _).
  fold (peek_type s). destruct (peek_type s) eqn:Et; try (by apply returns_fail); [|by apply path_operand_returns|by apply resolve_value_ref_returns].
  specialize (Hs1 ltac:(done)). destruct (_ && _); [|destruct (_ && _); [|by apply path_operand_returns]].
  - unfold if_not_exists_args. destruct (parse_path_returns _ Hc2) as ([p|] & s3 & -> & Hc3 & Hs3); [|apply returns_now; [done|lia]].
    destruct (closed_skip _ Hc3) as (Hc4 & Hs4 & _). destruct (negb _); [apply returns_fail; [done|lia]|].
    destruct (Ha (skip s3) Hc4 ltac:(lia)) as (v & s5 & -> & Hc5 & Hs5). destruct (closed_skip _ Hc5) as (Hc6 & Hs6 & _).
    destruct (negb _); [apply returns_fail; [done|lia]|]. apply returns_now; [done|lia].
  - unfold list_append_args. destruct (Ha (skip (skip s)) Hc2 ltac:(lia)) as (a & s3 & -> & Hc3 & Hs3).
    destruct (closed_skip _ Hc3) as (Hc4 & Hs4 & _). destruct (negb _); [apply returns_fail; [done|lia]|].
    destruct (Ha (skip s3) Hc4 ltac:(lia)) as (b & s5 & -> & Hc5 & Hs5). destruct (closed_skip _ Hc5) as (Hc6 & Hs6 & _).
    destruct (negb _); [apply returns_fail; [done|lia]|]. destruct (list_append a b); [apply returns_now; [done|lia]|apply returns_fail; [done|lia]].
Qed.

Lemma additive_loop_returns operand fuel : (forall s, closed s -> (left_to_read s < fuel)%nat -> returns s (operand s)) ->
  forall n lhs s, closed s -> (left_to_read s < n)%nat -> (left_to_read s < fuel)%nat -> returns s (additive_loop operand n lhs s).
Proof.
  intros Ho n. induction n as [|n IH]; intros lhs s Hc Hn Hf; [lia|]. cbn [additive_loop]. destruct (is_sign_op s) eqn:E; [|by apply returns_now].
  destruct (closed_skip s Hc) as (Hc1 & _ & Hs1).
  assert (Hne : peek_type s <> End) by (unfold is_sign_op in E; apply andb_prop in E as [E _]; apply bool_decide_eq_true in E; congruence).
  specialize (Hs1 Hne). change (advance s) with (peek s, skip s). cbv iota beta.
  destruct (Ho (skip s) Hc1 ltac:(lia)) as (r & s2 & -> & Hc2 & Hs2). destruct (arithmetic _ _ _) as [v|msg]; [|apply returns_fail; [done|lia]].
  destruct (IH (Some v) s2 Hc2 ltac:(lia) ltac:(lia)) as (x & s' & -> & Hc' & Hl'). apply returns_now; [done|lia].
Qed.

Lemma additive_returns fuel : forall s, closed s -> (left_to_read s < fuel)%nat -> returns s (parse_additive names values fuel s).
Proof.
  induction fuel as [|fuel IH]; intros s Hc Hf; [lia|]. cbn [parse_additive].
  assert (Ho : forall s, closed s -> (left_to_read s < S fuel)%nat -> returns s (parse_operand names values (parse_additive names values fuel) s)).
  { intros s1 Hc1 Hl1. apply operand_returns; [done|]. intros s2 Hc2 Hl2. apply IH; [done|lia]. }
  destruct (Ho s Hc Hf) as (lhs & s1 & -> & Hc1 & Hs1).
  destruct (additive_loop_returns _ (S fuel) Ho (S (length (rest s1))) lhs s1 Hc1) as (x & s' & -> & Hc' & Hl'); [unfold left_to_read; lia|lia|].
  apply returns_now; [done|lia].
Qed.

Lemma store_returns p v s : closed s -> returns s (Some (store p v s)).
Proof. intros Hc. unfold store. destruct (write_path _ _ _); [by apply returns_now|by apply returns_fail]. Qed.

Lemma returns_later {A} s0 s (r : option (A * Applier)) : (left_to_read s <= left_to_read s0)%nat -> returns s r -> returns s0 r.
Proof. intros Hl (x & s' & -> & Hc & Hs). apply returns_now; [done|lia]. Qed.

Lemma section_returns sec action s : section_action names values sec = Some action -> closed s -> returns s (action s).
Proof.
  intros Hsec Hc. destruct (parse_path_returns s Hc) as (r & s1 & Ep & Hc1 & Hs1).
  destruct (closed_skip _ Hc1) as (Hc2 & Hs2 & _). destruct (resolve_value_ref_returns s1 Hc1) as (v & s3 & Ev & Hc3 & Hs3). injection Ev as Ev.
  unfold section_action in Hsec. repeat (destruct (bytes_eqb sec _); [injection Hsec as <-|]); [| | | |done].
  - unfold set_action. rewrite Ep. destruct r as [p|]; [|by apply returns_now]. destruct (negb _); [by apply returns_fail|].
    destruct (additive_returns (S (length (rest (skip s1)))) (skip s1) Hc2) as (x & s4 & -> & Hc4 & Hs4); [unfold left_to_read; lia|].
    destruct (negb _); [apply returns_now; [done|lia]|]. destruct x; [|apply returns_fail; [done|lia]]. eapply returns_later; [|by apply store_returns]. lia.
  - unfold remove_action. rewrite Ep. destruct r as [p|]; by apply returns_now.
  - unfold add_action. rewrite Ep. destruct r as [p|]; [|by apply returns_now]. rewrite Ev. destruct v as [v|]; [|apply returns_now; [done|lia]].
    destruct (added_value _ _); [|apply returns_fail; [done|lia]]. eapply returns_later; [|by apply store_returns]. lia.
  - unfold delete_action. rewrite Ep. destruct r as [p|]; [|by apply returns_now]. rewrite Ev. destruct v as [v|]; [|apply returns_now; [done|lia]].
    destruct (deleted_value _ _) as [w|]; [|apply returns_now; [done|lia]]. destruct (is_empty_set w); [apply returns_now; [done|unfold left_to_read in *; cbn [with_item rest]; lia]|].
    eapply returns_later; [|by apply store_returns]. lia.
Qed.

Lemma clause_returns action : (forall s, closed s -> returns s (action s)) ->
  forall fuel s, closed s -> (left_to_read s < fuel)%nat -> returns s (clause action fuel s).
Proof.
  intros Ha fuel. induction fuel as [|fuel IH]; intros s Hc Hf; [lia|]. cbn [clause]. destruct (Ha s Hc) as ([] & s1 & -> & Hc1 & Hs1); [|by apply returns_now].
  destruct (closed_skip _ Hc1) as (Hc2 & _ & Hs2). destruct (bool_decide_reflect (peek_type s1 = Comma)) as [E|]; [|by apply returns_now].
  specialize (Hs2 ltac:(congruence)). eapply returns_later; [|apply IH; [done|lia]]. lia.
Qed.

Lemma run_loop_returns fuel : forall s, closed s -> (left_to_read s < fuel)%nat -> returns s (run_loop names values fuel s).
Proof.
  induction fuel as [|fuel IH]; intros s Hc Hf; [lia|]. cbn [run_loop]. destruct (closed_skip _ Hc) as (Hc1 & _ & Hs1).
  destruct (bool_decide_reflect (peek_type s = Keyword)) as [E|]; [|destruct (negb _); [by apply returns_fail|by apply returns_now]].
  specialize (Hs1 ltac:(congruence)). change (advance s) with (peek s, skip s). cbv iota beta.
  destruct (section_action names values (text (peek s))) as [action|] eqn:Es; [|apply returns_now; [done|lia]].
  destruct (clause_returns action (fun s => section_returns _ _ s Es) (S (length (rest (skip s)))) (skip s) Hc1) as ([] & s2 & -> & Hc2 & Hs2);
    [unfold left_to_read; lia| |apply returns_now; [done|lia]].
  eapply returns_later; [|apply IH; [done|lia]]. lia.
Qed.

Lemma run_returns s : closed s -> returns s (run names values s).
Proof.
  intros Hc. unfold run. destruct (bool_decide _); [by apply returns_fail|]. apply run_loop_returns; [done|]. unfold left_to_read. lia.
Qed.

End Total.

Lemma span_suffix f d : (length (snd (span f d)) <= length d)%nat.
Proof. induction d as [|b d IH]; simpl; [lia|]. destruct (f b); [|simpl; lia]. destruct (span f d). simpl in *. lia. Qed.

Lemma next_tok_shorter c r t r' : next_tok c r = Some (t, r') -> (length r' <= length r)%nat.
Proof.
  pose proof (span_suffix ident_char r) as H1. pose proof (span_suffix isdigit r) as H2.
  assert (H3 : ident_start c = true -> (length (snd (span ident_char (c :: r))) <= length r)%nat).
  { intros H. assert (Hc : ident_char c = true) by (clear -H; destruct c; vm_compute in *; done). simpl. rewrite Hc. by destruct (span ident_char r). }
  unfold next_tok. destruct (span ident_char r), (span isdigit r), (span ident_char (c :: r)). cbn [snd] in *.
  intros H. repeat case_match; simplify_eq; cbn [length] in *; first [lia|by apply H3].
Qed.

Lemma tokenize_returns fuel : forall d out, (length d <= fuel)%nat -> exists pre bad, tokenize_loop fuel d out = Some (pre ++ [tok End []], bad).
Proof.
  induction fuel as [|fuel IH]; intros d out Hf; (destruct d as [|c r]; [by exists out, false|]); cbn [length] in Hf; [lia|]. cbn [tokenize_loop].
  destruct (isspace c); [apply IH; lia|]. destruct (_ <? _); [by exists out, true|].
  destruct (next_tok c r) as [[t r']|] eqn:E; [|by exists out, true]. apply next_tok_shorter in E. apply IH. lia.
Qed.

(** An update expression always terminates with a new item or an error
    message: whatever the text, the names, the values and the item, the
    tokenizer and the nested loops of the parser reach the end of the input. *)
Theorem update_terminates names values text i : exists r, apply_update_expression names values text i = Some r.
Proof.
  unfold apply_update_expression, tokenize. destruct (tokenize_returns (length text) text [] ltac:(done)) as (pre & [] & ->); [by eexists|].
  destruct (run_returns names values {| rest := pre ++ [tok End []]; item := i; error := [] |}) as ([] & s & -> & _); [by exists pre|by eexists|by eexists].
Qed.

(** ** Arithmetic *)

Lemma parse_num_int n : parse_num (dec_of_Z n) = Some (ld_of_Z n).
Proof.
  pose proof (parse_number_int n) as H. unfold parse_number in H. unfold parse_num. destruct (strtold (dec_of_Z n)) as [x c].
  destruct (bool_decide (dec_of_Z n = [])); [by rewrite andb_false_r in H|]. by rewrite andb_true_r in H.
Qed.



(** *** Sets *)

Lemma existsb_elem v (l : list bytes) : existsb (bytes_eqb v) l = true <-> v ∈ l.
Proof.
  rewrite existsb_exists, list_elem_of_In. split; [|intros H; exists v; by rewrite bytes_eqb_refl].
  intros (x & Hx & E). apply bytes_eqb_eq in E. by subst.
Qed.

Lemma set_union_step dst v : let dst' := if existsb (bytes_eqb v) dst then dst else dst ++ [v] in
  (forall x, x ∈ dst' <-> x ∈ dst \/ x = v) /\ (NoDup dst -> NoDup dst') /\ dst `prefix_of` dst'.
Proof.
  destruct (existsb (bytes_eqb v) dst) eqn:E; cbv zeta.
  - apply existsb_elem in E. split; [|by split]. intros x. split; [by left|]. by intros [?| ->].
  - assert (Hv : v ∉ dst) by (rewrite <- existsb_elem; congruence). split; [intros x; by rewrite elem_of_app, list_elem_of_singleton|].
    split; [|by exists [v]]. intros Hnd. apply NoDup_app. split; [done|]. split; [|apply NoDup_singleton]. intros x Hx ->%list_elem_of_singleton. done.
Qed.

Lemma set_union_spec vs : forall dst, (forall x, x ∈ set_union dst vs <-> x ∈ dst \/ x ∈ vs) /\ (NoDup dst -> NoDup (set_union dst vs)) /\ dst `prefix_of` set_union dst vs.
Proof.
  induction vs as [|v vs IH]; intros dst; [split; [|by split]; intros x; split; [by left|]; by intros [?|?%elem_of_nil]|].
  destruct (set_union_step dst v) as (H1 & H2 & H3). unfold set_union. cbn [fold_left]. destruct (IH (if existsb (bytes_eqb v) dst then dst else dst ++ [v])) as (I1 & I2 & I3).
  split; [|split; [auto|by etransitivity]]. intros x. fold (set_union (if existsb (bytes_eqb v) dst then dst else dst ++ [v]) vs). rewrite I1, H1, elem_of_cons. tauto.
Qed.

Lemma set_difference_spec dst vs : (forall x, x ∈ set_difference dst vs <-> x ∈ dst /\ x ∉ vs) /\ (NoDup dst -> NoDup (set_difference dst vs)).
Proof.
  unfold set_difference. split.
  - intros x. rewrite !list_elem_of_In, filter_In, negb_true_iff, <- not_true_iff_false, existsb_elem, list_elem_of_In. done.
  - rewrite !NoDup_ListNoDup. apply List.NoDup_filter.
Qed.

(** [ADD] and [DELETE] on sets are union and difference.  The result of [ADD]
    has the members of both sets, no duplicate that was not there before, and the
    old elements first in their old order; [DELETE] keeps exactly the members that
    the operand does not have. *)
Theorem set_updates dst vs :
  let added := added_value (Some (AV_SS dst)) (Some (AV_SS vs)) in
  let deleted := deleted_value (Some (AV_SS dst)) (Some (AV_SS vs)) in
  (exists u, added = Ok (Some (AV_SS u)) /\ (forall x, x ∈ u <-> x ∈ dst \/ x ∈ vs) /\ (NoDup dst -> NoDup u) /\ dst `prefix_of` u) /\
  (exists d, deleted = Some (AV_SS d) /\ (forall x, x ∈ d <-> x ∈ dst /\ x ∉ vs) /\ (NoDup dst -> NoDup d)).
Proof.
  split; [exists (set_union dst vs)|exists (set_difference dst vs)]; (split; [done|]); [apply set_union_spec|apply set_difference_spec].
Qed.

End Update.
