(* ===== verification/Streams.v ===== *)
(** * Streams

    [src/streams/manager.cpp]: the change streams of the tables.  The manager
    keeps the streams by ARN, the active stream of each table and the shard
    iterators.  The two clocks, the random numbers and the iteration order of the
    unordered maps are arguments of the operations that use them; lookups in the
    maps do not depend on the order, so they are sorted maps here.  Code that
    dereferences an empty optional or reads a deque out of range has no defined
    result: such a call returns [None]. *)

From Stdlib Require Import ZArith Lia Sorting.Permutation Strings.String.
From stdpp Require Import prelude list_numbers.
From S2P Require Import Prelude StdMap Types CLib.

Module Streams.

(** ** [gmtime] and [put_time] *)

(** Year, month and day of a number of days since 1970-01-01 (proleptic
    Gregorian calendar): the cycle of 400 years, the century, the group of four
    years, the year in it and the day of the year, years starting in March. *)
Definition civil_from_days (days : Z) : Z * Z * Z :=
  let z := days + 719468 in
  let era := z / 146097 in
  let doe := z mod 146097 in
  let century := Z.min (doe / 36524) 3 in
  let doc := doe - 36524 * century in
  let doq := doc mod 1461 in
  let yoq := Z.min (doq / 365) 3 in
  let yoe := 100 * century + 4 * (doc / 1461) + yoq in
  let doy := doq - 365 * yoq in
  let mp := (5 * doy + 2) / 153 in
  let d := doy - (153 * mp + 2) / 5 + 1 in
  let m := if mp <? 10 then mp + 3 else mp - 9 in
  (yoe + era * 400 + (if m <=? 2 then 1 else 0), m, d).

(** [std::put_time(tm, "%Y-%m-%dT%H:%M:%S.000")] *)
Definition put_time (timestamp : Z) : bytes :=
  let '(y, m, d) := civil_from_days (timestamp / 86400) in
  let s := timestamp mod 86400 in
  padded 4 y ++ lit "-" ++ padded 2 m ++ lit "-" ++ padded 2 d ++ lit "T" ++
  padded 2 (s / 3600) ++ lit ":" ++ padded 2 (s / 60 mod 60) ++ lit ":" ++ padded 2 (s mod 60) ++ lit ".000".

Definition build_stream_arn (table_name : bytes) (timestamp : Z) : bytes :=
  lit "arn:aws:dynamodb:ddblocal:000000000000:table/" ++ table_name ++ lit "/stream/" ++ put_time timestamp.

Example put_time_2023 : put_time 1698408000 = lit "2023-10-27T12:00:00.000".
Proof. vm_compute. reflexivity. Qed.

(** [snprintf("%016llx%016llx")] of two random 64-bit numbers *)
Definition hex_digit (n : Z) : byte := byte_of (if n <? 10 then 48 + n else 87 + n).

Fixpoint hex16 (digits : nat) (n : Z) : bytes :=
  match digits with
  | O => []
  | S d => hex16 d (n / 16) ++ [hex_digit (n mod 16)]
  end.

Definition generate_event_id (random : Z * Z) : bytes := hex16 16 random.1 ++ hex16 16 random.2.

(** ** State *)

Inductive StreamError := ResourceNotFound | ExpiredIterator | LimitExceeded | InternalError.

Record SequenceNumberRange := { starting_sequence_number : bytes; ending_sequence_number : option bytes }.

Record Shard := {
  shard_id : bytes;
  parent_shard_id : option bytes;
  sequence_number_range : SequenceNumberRange
}.

Record StreamRecord := {
  event_id : bytes;
  event_name : bytes;
  approximate_creation_date_time : Z;
  keys : AttributeMap;
  old_image : option AttributeMap;
  new_image : option AttributeMap;
  sequence_number : bytes;
  size_bytes : Z
}.

Record StreamDescription := {
  stream_arn : bytes;
  stream_label : bytes;
  stream_status : bytes;
  view_type : StreamViewType;
  creation_request_date_time : Z;
  stream_table_name : bytes;
  shards : list Shard;
  last_evaluated_shard_id : option bytes
}.

Record ListStreamsResult := { streams : list StreamDescription; last_evaluated_stream_arn : option bytes }.
Record GetRecordsResult := { result_records : list StreamRecord; next_shard_iterator : option bytes }.

Record StreamState := { description : StreamDescription; records : list StreamRecord }.

Record IteratorState := {
  iterator_stream_arn : bytes;
  iterator_shard_id : bytes;
  record_index : Z;
  expires_at : Z
}.

Record StreamManager := {
  streams_by_arn_ : list (bytes * StreamState);
  active_stream_arn_by_table_ : list (bytes * bytes);
  iterators_ : list (bytes * IteratorState)
}.

Definition empty : StreamManager := {| streams_by_arn_ := []; active_stream_arn_by_table_ := []; iterators_ := [] |}.

Definition set_streams (m : StreamManager) x : StreamManager :=
  {| streams_by_arn_ := x; active_stream_arn_by_table_ := active_stream_arn_by_table_ m; iterators_ := iterators_ m |}.
Definition set_active (m : StreamManager) x : StreamManager :=
  {| streams_by_arn_ := streams_by_arn_ m; active_stream_arn_by_table_ := x; iterators_ := iterators_ m |}.
Definition set_iterators (m : StreamManager) x : StreamManager :=
  {| streams_by_arn_ := streams_by_arn_ m; active_stream_arn_by_table_ := active_stream_arn_by_table_ m; iterators_ := x |}.

(** ** Operations *)

Definition is_stream_enabled (def : TableDefinition) : bool :=
  match stream_specification def with Some s => stream_enabled s | None => false end.

Definition root_shard : Shard :=
  {| shard_id := lit "shardId-0000000000000001"; parent_shard_id := None;
     sequence_number_range := {| starting_sequence_number := lit "1"; ending_sequence_number := None |} |}.

(** [*table_def.stream_specification->stream_view_type] *)
Definition view_of (def : TableDefinition) : option StreamViewType :=
  match stream_specification def with Some s => stream_view_type s | None => None end.

Definition sync_table (now : Z) (def : TableDefinition) (m : StreamManager) : option StreamManager :=
  if is_stream_enabled def then
    match mget (table_name def) (active_stream_arn_by_table_ m) with
    | Some _ => Some m
    | None =>
        let arn := build_stream_arn (table_name def) now in
        match view_of def with
        | None => None
        | Some vt =>
            let state := {| description := {| stream_arn := arn; stream_label := []; stream_status := lit "ACTIVE"; view_type := vt;
                                              creation_request_date_time := now; stream_table_name := table_name def;
                                              shards := [root_shard]; last_evaluated_shard_id := None |};
                            records := [] |} in
            Some {| streams_by_arn_ := mset arn state (streams_by_arn_ m);
                    active_stream_arn_by_table_ := mset (table_name def) arn (active_stream_arn_by_table_ m);
                    iterators_ := iterators_ m |}
        end
    end
  else Some (set_active m (mdel (table_name def) (active_stream_arn_by_table_ m))).

Definition remove_table (table : bytes) (m : StreamManager) : StreamManager :=
  set_active m (mdel table (active_stream_arn_by_table_ m)).

(** The record of a change, before it has a sequence number. *)
Definition make_record (random : Z * Z) (now : Z) (vt : StreamViewType) (name : bytes) (ks : AttributeMap)
  (old new : option AttributeMap) : StreamRecord :=
  {| event_id := generate_event_id random; event_name := name; approximate_creation_date_time := now; keys := ks;
     old_image := match vt with SV_OLD_IMAGE | SV_NEW_AND_OLD_IMAGES => old | _ => None end;
     new_image := match vt with SV_NEW_IMAGE | SV_NEW_AND_OLD_IMAGES => new | _ => None end;
     sequence_number := []; size_bytes := 0 |}.

Definition number_record (r : StreamRecord) (n : Z) : StreamRecord :=
  {| event_id := event_id r; event_name := event_name r; approximate_creation_date_time := approximate_creation_date_time r;
     keys := keys r; old_image := old_image r; new_image := new_image r; sequence_number := dec_of_nonneg n; size_bytes := size_bytes r |}.

(** The retention loop. *)
Fixpoint purge (now_s : Z) (rs : list StreamRecord) : list StreamRecord :=
  match rs with
  | [] => []
  | r :: rs' => if 86400 <? u64 (now_s - approximate_creation_date_time r) then purge now_s rs' else rs
  end.

Definition push_record (now_s : Z) (r : StreamRecord) (st : StreamState) : StreamState :=
  {| description := description st; records := purge now_s (records st ++ [number_record r (len (records st) + 1)]) |}.

Definition append_record (random : Z * Z) (now now_s : Z) (def : TableDefinition) (name : bytes) (ks : AttributeMap)
  (old new : option AttributeMap) (m : StreamManager) : option StreamManager :=
  match mget (table_name def) (active_stream_arn_by_table_ m) with
  | None => Some m
  | Some arn =>
      match view_of def with
      | None => None
      | Some vt =>
          match mget arn (streams_by_arn_ m) with
          | None => Some m
          | Some st => Some (set_streams m (mset arn (push_record now_s (make_record random now vt name ks old new) st) (streams_by_arn_ m)))
          end
      end
  end.

(** [order] lists the streams in the iteration order of the unordered map. *)
Fixpoint list_loop (order : list (bytes * StreamState)) (table start : option bytes) (limit : Z) (acc : list StreamDescription)
  : ListStreamsResult :=
  match order with
  | [] => {| streams := acc; last_evaluated_stream_arn := None |}
  | (arn, st) :: order' =>
      if match table with Some t => negb (bytes_eqb (stream_table_name (description st)) t) | None => false end
      then list_loop order' table start limit acc
      else if match start with Some s => bytes_leb arn s | None => false end then list_loop order' table start limit acc
      else let acc := acc ++ [description st] in
           if limit <=? len acc then {| streams := acc; last_evaluated_stream_arn := Some arn |}
           else list_loop order' table start limit acc
  end.

Definition list_streams (order : list (bytes * StreamState)) (table start : option bytes) (limit : Z) : ListStreamsResult :=
  list_loop order table start limit [].

Definition describe_stream (m : StreamManager) (arn : bytes) : expected StreamDescription StreamError :=
  match mget arn (streams_by_arn_ m) with Some st => Ok (description st) | None => Err ResourceNotFound end.

(** The linear search for a sequence number. *)
Fixpoint find_sequence (rs : list StreamRecord) (n : bytes) (idx : Z) : Z :=
  match rs with
  | [] => idx
  | r :: rs' => if bytes_eqb (sequence_number r) n then idx else find_sequence rs' n (idx + 1)
  end.

Definition start_index (st : StreamState) (iterator_type : bytes) (sequence : option bytes) : Z :=
  if bytes_eqb iterator_type (lit "TRIM_HORIZON") then 0
  else if bytes_eqb iterator_type (lit "LATEST") then len (records st)
  else match sequence with
       | Some n => if bytes_eqb iterator_type (lit "AT_SEQUENCE_NUMBER") then find_sequence (records st) n 0 else 0
       | None => 0
       end.

(** [steady] is the reading of the steady clock in nanoseconds; 15 minutes are
    added. *)
Definition create_shard_iterator (random : Z * Z) (steady : Z) (m : StreamManager) (arn shard iterator_type : bytes)
  (sequence : option bytes) : StreamManager * expected bytes StreamError :=
  match mget arn (streams_by_arn_ m) with
  | None => (m, Err ResourceNotFound)
  | Some st =>
      let id := generate_event_id random in
      let it := {| iterator_stream_arn := arn; iterator_shard_id := shard;
                   record_index := start_index st iterator_type sequence; expires_at := steady + 15 * 60 * 1000000000 |} in
      (set_iterators m (mset id it (iterators_ m)), Ok id)
  end.

(** [records[start], ..., records[start + count - 1]] *)
Fixpoint read_range (rs : list StreamRecord) (start : Z) (count : nat) : option (list StreamRecord) :=
  match count with
  | O => Some []
  | S c => match rs !! Z.to_nat start with
           | Some r => match read_range rs (start + 1) c with Some l => Some (r :: l) | None => None end
           | None => None
           end
  end.

Definition get_records (steady : Z) (m : StreamManager) (shard_iterator : bytes) (limit : Z)
  : option (StreamManager * expected GetRecordsResult StreamError) :=
  match mget shard_iterator (iterators_ m) with
  | None => Some (m, Err ExpiredIterator)
  | Some it =>
      if expires_at it <? steady then Some (set_iterators m (mdel shard_iterator (iterators_ m)), Err ExpiredIterator)
      else match mget (iterator_stream_arn it) (streams_by_arn_ m) with
           | None => Some (m, Err InternalError)
           | Some st =>
               let start := record_index it in
               let count := Z.min limit (u64 (len (records st) - start)) in
               match read_range (records st) start (Z.to_nat count) with
               | None => None
               | Some l =>
                   let it' := {| iterator_stream_arn := iterator_stream_arn it; iterator_shard_id := iterator_shard_id it;
                                 record_index := u64 (start + count); expires_at := expires_at it |} in
                   Some (set_iterators m (mset shard_iterator it' (iterators_ m)),
                         Ok {| result_records := l; next_shard_iterator := Some shard_iterator |})
               end
           end
  end.

(** ** Reading a stream *)

Lemma purge_none now_s rs :
  Forall (fun r => 0 <= now_s - approximate_creation_date_time r <= 86400) rs -> purge now_s rs = rs.
Proof.
  intros [|r l Hr _]; [done|]. cbn [purge]. unfold u64. rewrite Z.mod_small by lia. destruct (Z.ltb_spec 86400 (now_s - approximate_creation_date_time r)); [lia|done].
Qed.

Lemma read_range_spec rs start count :
  0 <= start -> Z.of_nat count <= len rs - start -> read_range rs start count = Some (take count (drop (Z.to_nat start) rs)).
Proof.
  revert start. induction count as [|c IH]; intros start Hs Hc; [done|]. cbn [read_range].
  destruct (lookup_lt_is_Some_2 rs (Z.to_nat start)) as [r Hr]; [unfold len in Hc; lia|]. rewrite Hr, IH by lia.
  rewrite (drop_S _ _ _ Hr). replace (Z.to_nat (start + 1)) with (S (Z.to_nat start)) by lia. done.
Qed.

Lemma read_range_out rs start count : len rs <= start -> (0 < count)%nat -> read_range rs start count = None.
Proof.
  intros Hs Hc. destruct count as [|c]; [lia|]. cbn [read_range]. rewrite lookup_ge_None_2; [done|]. unfold len in Hs. lia.
Qed.

(** What a consumer and the writers of a table do to a stream: an append of a
    change, or a read through the iterator. *)
Inductive StreamOp :=
| AppendChange (random : Z * Z) (now now_s : Z) (name : bytes) (ks : AttributeMap) (old new : option AttributeMap)
| ReadBatch (steady limit : Z).

Definition run_stream_op (def : TableDefinition) (id : bytes) (s : StreamManager * list StreamRecord) (op : StreamOp)
  : option (StreamManager * list StreamRecord) :=
  match op with
  | AppendChange random now now_s name ks old new =>
      match append_record random now now_s def name ks old new s.1 with Some m => Some (m, s.2) | None => None end
  | ReadBatch steady limit =>
      match get_records steady s.1 id limit with
      | Some (m, Ok r) => Some (m, s.2 ++ result_records r)
      | _ => None
      end
  end.

Fixpoint run_stream (def : TableDefinition) (id : bytes) (s : StreamManager * list StreamRecord) (ops : list StreamOp)
  : option (StreamManager * list StreamRecord) :=
  match ops with
  | [] => Some s
  | op :: ops' => match run_stream_op def id s op with Some s' => run_stream def id s' ops' | None => None end
  end.

(** The changes of the appends, numbered from [n]. *)
Fixpoint changes (vt : StreamViewType) (n : Z) (ops : list StreamOp) : list StreamRecord :=
  match ops with
  | [] => []
  | AppendChange random now _ name ks old new :: ops' =>
      number_record (make_record random now vt name ks old new) n :: changes vt (n + 1) ops'
  | ReadBatch _ _ :: ops' => changes vt n ops'
  end.

(** No record gets older than the retention period, the wall clock does not step
    back and the iterator does not expire while the operations run. *)
Fixpoint well_timed (from expires last : Z) (ops : list StreamOp) : Prop :=
  match ops with
  | [] => True
  | AppendChange _ now now_s _ _ _ _ :: ops' =>
      last <= now <= now_s /\ now_s <= from + 86400 /\ well_timed from expires now_s ops'
  | ReadBatch steady limit :: ops' => steady <= expires /\ 0 <= limit /\ well_timed from expires last ops'
  end.

(** The state of the table's stream and of one iterator over it. *)
Record following (def : TableDefinition) (arn id : bytes) (vt : StreamViewType) (from expires last : Z) (m : StreamManager)
  (rs : list StreamRecord) (index : Z) : Prop := {
  fol_active : mget (table_name def) (active_stream_arn_by_table_ m) = Some arn;
  fol_view : view_of def = Some vt;
  fol_stream : exists d, mget arn (streams_by_arn_ m) = Some {| description := d; records := rs |};
  fol_iterator : exists sh, mget id (iterators_ m) =
    Some {| iterator_stream_arn := arn; iterator_shard_id := sh; record_index := index; expires_at := expires |};
  fol_index : 0 <= index <= len rs;
  fol_window : Forall (fun r => from <= approximate_creation_date_time r <= last) rs;
  fol_last : from <= last
}.

Section Following.
Context (def : TableDefinition) (arn id : bytes) (vt : StreamViewType) (from expires : Z).

Lemma append_following last random now now_s name ks old new m rs index :
  following def arn id vt from expires last m rs index -> last <= now <= now_s -> now_s <= from + 86400 ->
  exists m', append_record random now now_s def name ks old new m = Some m' /\
    following def arn id vt from expires now_s m' (rs ++ [number_record (make_record random now vt name ks old new) (len rs + 1)]) index.
Proof.
  intros [Ha Hv [d Hs] [sh Hi] Hx Hw Hl] Hn Hns. unfold append_record. rewrite Ha, Hv, Hs. eexists. split; [done|].
  set (r := number_record _ _).
  assert (Hw' : Forall (fun r => from <= approximate_creation_date_time r <= now_s) (rs ++ [r])).
  { apply Forall_app. split; [eapply Forall_impl; [exact Hw|cbn; lia]|]. repeat constructor; cbn; lia. }
  split; cbn [set_streams active_stream_arn_by_table_ streams_by_arn_ iterators_]; [done|done| |by exists sh| |done|lia].
  - exists d. rewrite mget_mset_eq. unfold push_record. cbn [description records]. fold r.
    rewrite purge_none; [done|]. eapply Forall_impl; [exact Hw'|cbn; lia].
  - rewrite len_app. pose proof (len_nonneg [r]). lia.
Qed.

Lemma read_following last steady limit m rs index :
  following def arn id vt from expires last m rs index -> steady <= expires -> 0 <= limit -> len rs < 2 ^ 64 ->
  let index' := Z.min (index + limit) (len rs) in
  exists m', get_records steady m id limit =
      Some (m', Ok {| result_records := take (Z.to_nat (index' - index)) (drop (Z.to_nat index) rs); next_shard_iterator := Some id |}) /\
    following def arn id vt from expires last m' rs index'.
Proof.
  intros [Ha Hv [d Hs] [sh Hi] Hx Hw Hl] Hst Hlim Hlen index'. unfold get_records. rewrite Hi. cbn [expires_at iterator_stream_arn record_index].
  destruct (Z.ltb_spec expires steady); [lia|]. rewrite Hs. cbn [records].
  assert (Eu : u64 (len rs - index) = len rs - index) by (apply Z.mod_small; lia). rewrite Eu.
  replace (Z.min limit (len rs - index)) with (index' - index) by lia. rewrite read_range_spec by lia.
  eexists. split; [done|]. split; cbn [set_iterators active_stream_arn_by_table_ streams_by_arn_ iterators_]; eauto; [|lia].
  rewrite mget_mset_eq. exists sh. do 2 f_equal. unfold u64. rewrite Z.mod_small; lia.
Qed.

Lemma changes_app n ops1 ops2 : changes vt n (ops1 ++ ops2) = changes vt n ops1 ++ changes vt (n + len (changes vt n ops1)) ops2.
Proof.
  revert n. induction ops1 as [|[] ops1 IH]; intros n; cbn [changes app]; rewrite ?len_nil, ?Z.add_0_r; [done| |done].
  rewrite IH, len_cons. do 3 f_equal. lia.
Qed.

Lemma run_following ops : forall last m rs index out,
  following def arn id vt from expires last m rs index -> well_timed from expires last ops ->
  len rs + len (changes vt (len rs + 1) ops) < 2 ^ 64 ->
  exists m' last' index', index <= index' /\
    run_stream def id (m, out) ops = Some (m', out ++ take (Z.to_nat (index' - index)) (drop (Z.to_nat index) (rs ++ changes vt (len rs + 1) ops))) /\
    following def arn id vt from expires last' m' (rs ++ changes vt (len rs + 1) ops) index'.
Proof.
  induction ops as [|op ops IH]; intros last m rs index out Hf Ht Hlen.
  { exists m, last, index. split; [lia|]. cbn [run_stream changes]. rewrite !app_nil_r, Z.sub_diag. cbn [Z.to_nat take]. by rewrite app_nil_r. }
  destruct op as [random now now_s name ks old new|steady limit]; cbn [well_timed] in Ht.
  - destruct Ht as (Hn & Hns & Ht). destruct (append_following _ random now now_s name ks old new _ _ _ Hf Hn Hns) as (m1 & E1 & Hf1).
    cbn [run_stream run_stream_op fst snd changes]. rewrite E1. cbn [changes] in Hlen. rewrite len_cons in Hlen.
    destruct (IH now_s m1 _ index out Hf1 Ht) as (m' & last' & index' & Hle & E2 & Hf2).
    { rewrite len_app, len_cons, len_nil. replace (len rs + (1 + 0) + 1) with (len rs + 1 + 1) by lia. lia. }
    rewrite len_app, len_cons, len_nil in E2, Hf2. replace (len rs + (1 + 0) + 1) with (len rs + 1 + 1) in E2, Hf2 by lia.
    rewrite <- app_assoc in E2, Hf2. exists m', last', index'. done.
  - destruct Ht as (Hs & Hl & Ht). cbn [changes] in *. pose proof (len_nonneg (changes vt (len rs + 1) ops)).
    destruct (read_following _ steady limit _ _ _ Hf Hs Hl ltac:(lia)) as (m1 & E1 & Hf1).
    cbn [run_stream run_stream_op fst snd]. rewrite E1. cbn [result_records].
    set (i1 := Z.min (index + limit) (len rs)) in *. pose proof (fol_index _ _ _ _ _ _ _ _ _ _ Hf) as Hx.
    destruct (IH last m1 rs i1 (out ++ take (Z.to_nat (i1 - index)) (drop (Z.to_nat index) rs)) Hf1 Ht Hlen) as (m' & last' & index' & Hle & E2 & Hf2).
    exists m', last', index'. split; [lia|]. split; [|done]. rewrite E2. f_equal. f_equal. rewrite <- app_assoc. f_equal.
    set (all := rs ++ changes vt (len rs + 1) ops).
    replace (Z.to_nat (index' - index)) with (Z.to_nat (i1 - index) + Z.to_nat (index' - i1))%nat by lia.
    rewrite <- take_take_drop, drop_drop. f_equal; [|f_equal; f_equal; lia].
    subst all. rewrite drop_app_le by (unfold len in *; lia). rewrite take_app_le; [done|]. rewrite length_drop. unfold len in *; lia.
Qed.

End Following.

(** C35: an iterator over a stream misses nothing and repeats nothing.  However
    appends to the table and reads through the iterator interleave, and whatever
    the limits of the reads, the records read so far are, in order, those from
    the iterator's first position on, and a last read of the remaining size
    returns the rest: every change appended meanwhile, with the images of the
    stream's view type and consecutive sequence numbers.  This is for a day in
    which no record is old enough for the retention to remove it. *)
Theorem stream_read_in_order def arn id vt from expires last m rs index ops steady limit :
  following def arn id vt from expires last m rs index -> well_timed from expires last ops ->
  let all := rs ++ changes vt (len rs + 1) ops in
  len all < 2 ^ 64 -> steady <= expires -> len all <= limit ->
  (exists m' n, run_stream def id (m, []) ops = Some (m', take n (drop (Z.to_nat index) all))) /\
  (exists m'', run_stream def id (m, []) (ops ++ [ReadBatch steady limit]) = Some (m'', drop (Z.to_nat index) all)).
Proof.
  intros Hf Ht all Hlen Hst Hlim. subst all. rewrite len_app in Hlen, Hlim.
  destruct (run_following _ _ _ _ _ _ ops _ _ _ _ [] Hf Ht Hlen) as (m' & last' & index' & Hle & E & Hf').
  split; [by eexists _, _|].
  destruct (read_following _ _ _ _ _ _ _ steady limit _ _ _ Hf' Hst) as (m'' & E2 & Hf''); [rewrite ?len_app; pose proof (len_nonneg rs); pose proof (len_nonneg (changes vt (len rs + 1) ops)); lia..|].
  assert (Hrun : forall ops2 s, run_stream def id s (ops ++ ops2) = match run_stream def id s ops with Some s' => run_stream def id s' ops2 | None => None end).
  { clear. induction ops as [|op ops IH]; intros ops2 s; [done|]. cbn [run_stream app]. destruct (run_stream_op def id s op); [apply IH|done]. }
  exists m''. rewrite Hrun, E. cbn [run_stream run_stream_op fst snd]. rewrite E2. cbn [result_records app]. f_equal. f_equal.
  pose proof (fol_index _ _ _ _ _ _ _ _ _ _ Hf) as Hx. pose proof (fol_index _ _ _ _ _ _ _ _ _ _ Hf') as Hx'. rewrite len_app in Hx' |- *.
  set (all := rs ++ _) in *. assert (Hall : len all = len rs + len (changes vt (len rs + 1) ops)) by (subst all; by rewrite len_app).
  rewrite (take_ge (drop (Z.to_nat index') all)) by (rewrite length_drop; unfold len in *; lia).
  replace (drop (Z.to_nat index') all) with (drop (Z.to_nat (index' - index)) (drop (Z.to_nat index) all)) by (rewrite drop_drop; f_equal; lia).
  apply take_drop.
Qed.

(** ** The retention period *)

(** Once the iterator is beyond the end of the deque, the size left wraps around
    and the read leaves the deque. *)
Lemma get_records_beyond steady m id limit it st :
  mget id (iterators_ m) = Some it -> steady <= expires_at it -> mget (iterator_stream_arn it) (streams_by_arn_ m) = Some st ->
  len (records st) < record_index it < 2 ^ 64 -> 0 < limit -> get_records steady m id limit = None.
Proof.
  intros Hi Hs Hst Hx Hl. unfold get_records. rewrite Hi. destruct (Z.ltb_spec (expires_at it) steady); [lia|]. rewrite Hst.
  assert (Hw : 0 < u64 (len (records st) - record_index it)).
  { unfold u64. rewrite <- (Z.mod_add _ 1) by lia. pose proof (len_nonneg (records st)). rewrite Z.mod_small; lia. }
  rewrite read_range_out; [done|lia|lia].
Qed.

Definition demo_def : TableDefinition :=
  {| table_name := lit "T"; key_schema := []; attribute_definitions := []; billing_mode := PAY_PER_REQUEST;
     provisioned_throughput := throughput_default; table_class := STANDARD; deletion_protection_enabled := false;
     creation_epoch_seconds := 0; tags := []; local_secondary_indexes := []; global_secondary_indexes := [];
     stream_specification := Some {| stream_enabled := true; stream_view_type := Some SV_NEW_IMAGE |};
     latest_stream_arn := None; latest_stream_label := None; ttl_specification := None; point_in_time_recovery := pitr_default |}.

Definition demo_arn : bytes := build_stream_arn (lit "T") 1000.
Definition demo_id : bytes := generate_event_id (7, 8).

(** A stream with two changes and an iterator at its end. *)
Definition demo_append (now : Z) (m : StreamManager) : StreamManager :=
  default m (append_record (1, 2) now now demo_def (lit "INSERT") [] None (Some []) m).
Definition demo_stream : StreamManager :=
  let m := demo_append 1001 (demo_append 1000 (default empty (sync_table 1000 demo_def empty))) in
  (create_shard_iterator (7, 8) 0 m demo_arn (lit "shardId-0000000000000001") (lit "LATEST") None).1.

Lemma demo_following : following demo_def demo_arn demo_id SV_NEW_IMAGE 1000 900000000000 1001 demo_stream
  (default [] (records <$> mget demo_arn (streams_by_arn_ demo_stream))) 2.
Proof.
  split; [reflexivity|reflexivity|eexists; vm_compute; reflexivity|eexists; vm_compute; reflexivity| | |lia].
  - vm_compute. split; discriminate.
  - vm_compute. repeat constructor; discriminate.
Qed.

Lemma stream_read_in_order_witness :
  exists m'', run_stream demo_def demo_id (demo_stream, [])
    [AppendChange (3, 4) 1002 1002 (lit "MODIFY") [] None None; ReadBatch 5 0; AppendChange (5, 6) 1003 1004 (lit "REMOVE") [] None None; ReadBatch 6 10]
  = Some (m'', [number_record (make_record (3, 4) 1002 SV_NEW_IMAGE (lit "MODIFY") [] None None) 3;
                number_record (make_record (5, 6) 1003 SV_NEW_IMAGE (lit "REMOVE") [] None None) 4]).
Proof.
  apply (stream_read_in_order demo_def demo_arn demo_id SV_NEW_IMAGE 1000 900000000000 1001 demo_stream _ 2
    [AppendChange (3, 4) 1002 1002 (lit "MODIFY") [] None None; ReadBatch 5 0; AppendChange (5, 6) 1003 1004 (lit "REMOVE") [] None None] 6 10 demo_following).
  - cbn [well_timed]. lia.
  - by_eval.
  - lia.
  - by_eval.
Defined.

(** After the retention has removed records, positions and sequence numbers
    no longer fit.  From a stream with two changes and an iterator at its end, one
    change a day later removes the first two and is stored with sequence number 3
    where the iterator, at index 2, is beyond the end: its next read of any
    positive limit leaves the deque.  The change after that gets sequence number
    2, which an earlier record had. *)
Theorem retention_breaks_iterators limit :
  0 < limit ->
  let late := demo_append 90000 demo_stream in
  get_records 0 late demo_id limit = None /\
  sequence_number <$> (default [] (records <$> mget demo_arn (streams_by_arn_ demo_stream))) = [lit "1"; lit "2"] /\
  sequence_number <$> (default [] (records <$> mget demo_arn (streams_by_arn_ (demo_append 90001 late)))) = [lit "3"; lit "2"].
Proof.
  intros Hl late. split; [|split; vm_compute; reflexivity].
  eapply get_records_beyond; [vm_compute; reflexivity|discriminate|vm_compute; reflexivity|vm_compute; split; reflexivity|done].
Qed.

Lemma retention_breaks_iterators_witness : get_records 0 (demo_append 90000 demo_stream) demo_id 1 = None.
Proof. apply (retention_breaks_iterators 1). lia. Defined.

(** ** Listing *)

(** A page holds the first [limit] streams, in the order of the enumeration, whose
    ARN is above the start, and the last of their ARNs exactly if it is full.
    Resuming from it is right when the enumeration is in ARN order. *)
Lemma list_loop_spec order start limit acc :
  len acc < limit ->
  let after := List.filter (fun e => match start with Some s => negb (bytes_leb e.1 s) | None => true end) order in
  list_loop order None start limit acc =
    {| streams := acc ++ map (fun e => description e.2) (take (Z.to_nat (limit - len acc)) after);
       last_evaluated_stream_arn := if limit - len acc <=? len after then fst <$> (after !! Z.to_nat (limit - len acc - 1)) else None |}.
Proof.
  revert acc. induction order as [|[arn st] order IH]; intros acc Hl; cbn [list_loop List.filter fst].
  { cbn zeta. rewrite take_nil. cbn [map]. rewrite app_nil_r, len_nil. destruct (Z.leb_spec (limit - len acc) 0); [lia|done]. }
  replace (match start with Some s => negb (bytes_leb arn s) | None => true end) with (negb (match start with Some s => bytes_leb arn s | None => false end)) by by destruct start.
  destruct (match start with Some s => bytes_leb arn s | None => false end); cbn [negb]; [by apply IH|]. cbn zeta.
  set (after := List.filter _ order) in *. rewrite len_app, len_cons, len_nil, (len_cons (arn, st)).
  destruct (Z.leb_spec limit (len acc + (1 + 0))).
  - assert (limit = len acc + 1) as -> by lia. replace (Z.to_nat (len acc + 1 - len acc)) with 1%nat by lia. cbn [take map fst snd].
    pose proof (len_nonneg after). destruct (Z.leb_spec (len acc + 1 - len acc) (1 + len after)); [|lia].
    replace (Z.to_nat (len acc + 1 - len acc - 1)) with 0%nat by lia. done.
  - rewrite IH by (rewrite len_app, len_cons, len_nil; lia). cbn zeta. fold after. rewrite len_app, len_cons, len_nil, <- app_assoc.
    replace (Z.to_nat (limit - len acc)) with (S (Z.to_nat (limit - (len acc + (1 + 0))))) by lia. cbn [take map app fst snd].
    replace (Z.to_nat (limit - len acc - 1)) with (S (Z.to_nat (limit - (len acc + (1 + 0)) - 1))) by lia. cbn [lookup list_lookup].
    destruct (Z.leb_spec (limit - len acc) (1 + len after)), (Z.leb_spec (limit - (len acc + (1 + 0))) (len after)); try lia; done.
Qed.

Definition demo_streams : StreamManager := default empty (sync_table 2000 demo_def (remove_table (lit "T") demo_stream)).

(** In another order, which the unordered map is free to have, resuming from the
    last ARN of a page skips the streams that the page has not reached: of two
    streams, the second page of size one is empty. *)
Theorem list_streams_skips :
  exists order, Permutation order (streams_by_arn_ demo_streams) /\ length order = 2%nat /\
    let first := list_streams order None None 1 in
    length (streams first) = 1%nat /\ streams (list_streams order None (last_evaluated_stream_arn first) 1) = [].
Proof.
  exists (rev (streams_by_arn_ demo_streams)). split; [symmetry; apply Permutation_rev|].
  split; [vm_compute; reflexivity|]. split; vm_compute; reflexivity.
Qed.

(** ** Stream ARNs *)

Definition days_from_civil (ymd : Z * Z * Z) : Z :=
  let '(y, m, d) := ymd in
  let y' := if m <=? 2 then y - 1 else y in
  let yoe := y' mod 400 in
  let mp := if 2 <? m then m - 3 else m + 9 in
  (y' / 400) * 146097 + (yoe * 365 + yoe / 4 - yoe / 100 + (153 * mp + 2) / 5 + d - 1) - 719468.

Lemma civil_ok days : 0 <= days ->
  days_from_civil (civil_from_days days) = days /\
  let '(y, m, d) := civil_from_days days in 0 <= y /\ 0 <= m /\ 0 <= d.
Proof.
  intros Hd. unfold civil_from_days. cbv zeta.
  pose proof (Z.div_mod (days + 719468) 146097 ltac:(lia)) as Hz. pose proof (Z.div_pos (days + 719468) 146097 ltac:(lia) ltac:(lia)) as He.
  pose proof (Z.mod_pos_bound (days + 719468) 146097 ltac:(lia)) as Hdoe.
  set (era := (days + 719468) / 146097) in *. set (doe := (days + 719468) mod 146097) in *.
  set (c := Z.min (doe / 36524) 3). assert (Hc : 0 <= c <= 3 /\ 0 <= doe - 36524 * c <= 36524) by (subst c; Z.div_mod_to_equations; lia).
  set (doc := doe - 36524 * c) in *. pose proof (Z.div_mod doc 1461 ltac:(lia)) as Hq. pose proof (Z.mod_pos_bound doc 1461 ltac:(lia)) as Hdoq.
  set (q := doc / 1461) in *. set (doq := doc mod 1461) in *. assert (Hqr : 0 <= q <= 24) by lia.
  set (a := Z.min (doq / 365) 3). assert (Ha : 0 <= a <= 3 /\ 0 <= doq - 365 * a <= 365) by (subst a; Z.div_mod_to_equations; lia).
  set (doy := doq - 365 * a) in *. set (mp := (5 * doy + 2) / 153).
  assert (Hmp : 0 <= mp <= 11 /\ 0 <= doy - (153 * mp + 2) / 5) by (subst mp; Z.div_mod_to_equations; lia).
  set (yoe := 100 * c + 4 * q + a). assert (Hyoe : 0 <= yoe < 400 /\ yoe / 4 = 25 * c + q /\ yoe / 100 = c) by (subst yoe; Z.div_mod_to_equations; lia).
  assert (Hyear : forall e, (yoe + era * 400 + e - e) / 400 = era /\ (yoe + era * 400 + e - e) mod 400 = yoe).
  { intros e. replace (yoe + era * 400 + e - e) with (yoe + era * 400) by lia. split; [rewrite Z.div_add, Z.div_small; lia|rewrite Z.mod_add, Z.mod_small; lia]. }
  destruct Hyoe as (Hy & Hy4 & Hy100). clearbody mp. unfold days_from_civil. destruct (Z.ltb_spec mp 10).
  - destruct (Z.leb_spec (mp + 3) 2); [lia|]. destruct (Z.ltb_spec 2 (mp + 3)); [|lia]. rewrite Z.add_0_r.
    destruct (Hyear 0) as [Ed Em]. rewrite Z.sub_0_r, Z.add_0_r in Ed, Em.
    rewrite Ed, Em, Hy4, Hy100. replace (mp + 3 - 3) with mp by lia. split; lia.
  - destruct (Z.leb_spec (mp - 9) 2); [|lia]. destruct (Z.ltb_spec 2 (mp - 9)); [lia|]. destruct (Hyear 1) as [Ed Em].
    rewrite Ed, Em, Hy4, Hy100. replace (mp - 9 + 9) with mp by lia. split; lia.
Qed.

Lemma put_time_inj a b : 0 <= a -> 0 <= b -> put_time a = put_time b -> a = b.
Proof.
  intros Ha Hb. unfold put_time.
  pose proof (Z.div_pos a 86400 Ha ltac:(lia)) as Hda. pose proof (Z.div_pos b 86400 Hb ltac:(lia)) as Hdb.
  destruct (civil_ok _ Hda) as [Ra Pa]. destruct (civil_ok _ Hdb) as [Rb Pb].
  destruct (civil_from_days (a / 86400)) as [[ya ma] da]. destruct (civil_from_days (b / 86400)) as [[yb mb] db].
  pose proof (Z.mod_pos_bound a 86400 ltac:(lia)) as Hsa. pose proof (Z.mod_pos_bound b 86400 ltac:(lia)) as Hsb.
  set (sa := a mod 86400) in *. set (sb := b mod 86400) in *.
  assert (Hpos : forall s, 0 <= s -> 0 <= s / 3600 /\ 0 <= s / 60 mod 60 /\ 0 <= s mod 60)
    by (intros s ?; repeat split; (apply Z.div_pos || apply Z.mod_pos_bound); lia).
  pose proof (Hpos sa ltac:(lia)) as (?&?&?). pose proof (Hpos sb ltac:(lia)) as (?&?&?).
  intros E.
  apply padded_inj in E as [-> E]; [|lia|lia|done]. apply padded_inj in E as [-> E]; [|lia|lia|done]. apply padded_inj in E as [-> E]; [|lia|lia|done].
  apply padded_inj in E as [E1 E]; [|lia|lia|done]. apply padded_inj in E as [E2 E]; [|lia|lia|done].
  change (lit ".000") with ([Byte.x2e] ++ lit "000") in E. apply padded_inj in E as [E3 _]; [|lia|lia|done].
  assert (sa = sb) by (clear - E1 E2 E3; Z.div_mod_to_equations; lia).
  rewrite (Z.div_mod a 86400), (Z.div_mod b 86400) by lia. fold sa sb. congruence.
Qed.

(** The streams of a table that were created in different seconds have different
    ARNs.  (Streams of one second share an ARN: the second replaces the first.) *)
Theorem stream_arns_distinct table a b :
  0 <= a -> 0 <= b -> build_stream_arn table a = build_stream_arn table b -> a = b.
Proof.
  intros Ha Hb E. unfold build_stream_arn in E. rewrite !(app_assoc _ table), !(app_assoc _ (lit "/stream/")) in E.
  apply app_inv_head in E. by apply put_time_inj.
Qed.

End Streams.
