(* ===== verification/TableManager.v ===== *)
(** * The table manager

    [src/engine/table_manager.cpp]: the catalogue of table definitions and its
    metadata file, and the tracking of item-collection sizes.  The metadata file
    is the byte string it contains ([None] when it does not exist); the calls to
    the file system are taken to succeed.  Loading is a parser with three outcomes:
    a value and the rest of the input, the early [return] of the code, or an enum
    octet that is not the value of an enumerator (the code would then hold a value
    outside the enumeration, which the types here do not have). *)

From Stdlib Require Import ZArith Lia Strings.String.
From stdpp Require Import prelude.
From S2P Require Import Prelude StdMap Types.

Module Tables.

Inductive TableError := TableAlreadyExists | TableNotFound | ItemCollectionSizeLimitExceeded | InternalError.

Record TableManager := {
  tables_ : list (bytes * TableDefinition);
  collection_sizes_ : list (bytes * list (bytes * Z));
  dirty_ : bool;
  metadata_file : option bytes
}.

(** ** Writing *)

Definition kMetadataMagic : Z := 1129927757.
Definition kMetadataVersion : Z := 4.

Definition write_u8 (v : Z) : bytes := le_bytes 1 v.
Definition write_u32 (v : Z) : bytes := le_bytes 4 v.
Definition write_u64 (v : Z) : bytes := le_bytes 8 v.
Definition write_str (s : bytes) : bytes := write_u32 (len s) ++ s.

(** The numeric values of the enumerators. *)
Definition billing_value (b : BillingMode) : Z := match b with PROVISIONED => 0 | PAY_PER_REQUEST => 1 end.
Definition key_type_value (k : KeyType) : Z := match k with HASH => 0 | RANGE => 1 end.
Definition projection_value (p : ProjectionType) : Z := match p with PT_KEYS_ONLY => 0 | PT_INCLUDE => 1 | PT_ALL => 2 end.
Definition view_value (v : StreamViewType) : Z :=
  match v with SV_KEYS_ONLY => 0 | SV_NEW_IMAGE => 1 | SV_OLD_IMAGE => 2 | SV_NEW_AND_OLD_IMAGES => 3 end.

(** A count and the elements. *)
Definition write_list {A} (w : A -> bytes) (l : list A) : bytes := write_u32 (len l) ++ concat (map w l).

Definition write_key_element (ks : KeySchemaElement) : bytes := write_str (attribute_name ks) ++ write_u8 (key_type_value (key_type ks)).
Definition write_key_schema (schema : list KeySchemaElement) : bytes := write_list write_key_element schema.
Definition write_projection (p : Projection) : bytes :=
  write_u8 (projection_value (projection_type p)) ++ write_list write_str (non_key_attributes p).
Definition write_attribute (e : bytes * AttributeType) : bytes := write_str e.1 ++ write_u8 (type_tag e.2).
Definition write_gsi (g : GlobalSecondaryIndex) : bytes :=
  write_str (gsi_index_name g) ++ write_key_schema (gsi_key_schema g) ++ write_projection (gsi_projection g).
Definition write_lsi (l : LocalSecondaryIndex) : bytes :=
  write_str (lsi_index_name l) ++ write_key_schema (lsi_key_schema l) ++ write_projection (lsi_projection l).

Definition write_base (name : bytes) (def : TableDefinition) : bytes :=
  write_str name ++ write_u8 (billing_value (billing_mode def)) ++ write_u64 (creation_epoch_seconds def) ++
  write_key_schema (key_schema def) ++ write_list write_attribute (attribute_definitions def).

Definition write_ttl (def : TableDefinition) : bytes :=
  match ttl_specification def with
  | Some spec => write_u8 1 ++ write_u8 (if ttl_enabled spec then 1 else 0) ++ write_str (ttl_attribute_name spec)
  | None => write_u8 0
  end.

Definition write_indexes (def : TableDefinition) : bytes :=
  write_list write_gsi (global_secondary_indexes def) ++ write_list write_lsi (local_secondary_indexes def).

Definition write_stream (def : TableDefinition) : bytes :=
  match stream_specification def with
  | Some spec =>
      write_u8 1 ++ write_u8 (if stream_enabled spec then 1 else 0) ++
      match stream_view_type spec with Some vt => write_u8 1 ++ write_u8 (view_value vt) | None => write_u8 0 end
  | None => write_u8 0
  end.

Definition write_table (e : bytes * TableDefinition) : bytes :=
  write_base e.1 e.2 ++ write_ttl e.2 ++ write_indexes e.2 ++ write_stream e.2.

Definition metadata_image (tables : list (bytes * TableDefinition)) : bytes :=
  write_u32 kMetadataMagic ++ write_u32 kMetadataVersion ++ write_list write_table tables.

Definition save_metadata (m : TableManager) : TableManager :=
  {| tables_ := tables_ m; collection_sizes_ := collection_sizes_ m; dirty_ := dirty_ m;
     metadata_file := Some (metadata_image (tables_ m)) |}.

(** ** Reading *)

Inductive parsed (A : Type) :=
| Got (a : A) (rest : bytes)
| Stop
| Foreign.
Arguments Got {A} a rest.
Arguments Stop {A}.
Arguments Foreign {A}.

Definition parser (A : Type) : Type := bytes -> parsed A.

Definition ret {A} (a : A) : parser A := fun d => Got a d.

Definition bind {A B} (p : parser A) (f : A -> parser B) : parser B :=
  fun d => match p d with Got a r => f a r | Stop => Stop | Foreign => Foreign end.

Notation "x <~ p ; q" := (bind p (fun x => q)) (at level 100, p at next level, right associativity) : cyn_scope.

Definition read_number (n : nat) : parser Z :=
  fun d => match read_le n d with Some (v, r) => Got v r | None => Stop end.
Definition read_u8 : parser Z := read_number 1.
Definition read_u32 : parser Z := read_number 4.
Definition read_u64 : parser Z := read_number 8.

Definition read_octets (n : Z) : parser bytes :=
  fun d => match read_n n d with Some (s, r) => Got s r | None => Stop end.

Definition read_str : parser bytes :=
  n <~ read_u32; if 64 * 1024 <? n then (fun _ => Stop) else read_octets n.

(** An enum octet, with the enumerators in the order of their values. *)
Definition read_enum {A} (values : list A) : parser A :=
  n <~ read_u8; fun d => match values !! Z.to_nat n with Some a => Got a d | None => Foreign end.

(** [for (i = 0; i < count; ++i)] of reads that consume input: fuel above the
    length of the input is enough. *)
Fixpoint read_loop {A} (p : parser A) (fuel : nat) (count : Z) (acc : list A) : parser (list A) :=
  if count <=? 0 then ret acc else
  match fuel with
  | O => fun _ => Stop
  | S fuel' => x <~ p; read_loop p fuel' (count - 1) (acc ++ [x])
  end.

Definition read_list {A} (p : parser A) : parser (list A) :=
  count <~ read_u32; fun d => read_loop p (S (length d)) count [] d.

Definition read_key_element : parser KeySchemaElement :=
  n <~ read_str; kt <~ read_enum [HASH; RANGE]; ret {| attribute_name := n; key_type := kt |}.
Definition read_key_schema : parser (list KeySchemaElement) := read_list read_key_element.
Definition read_projection : parser Projection :=
  pt <~ read_enum [PT_KEYS_ONLY; PT_INCLUDE; PT_ALL]; l <~ read_list read_str; ret {| projection_type := pt; non_key_attributes := l |}.
Definition read_attribute : parser (bytes * AttributeType) :=
  n <~ read_str; t <~ read_enum [T_S; T_N; T_B; T_BOOL; T_NUL; T_M; T_L; T_SS; T_NS; T_BS]; ret (n, t).
Definition read_gsi : parser GlobalSecondaryIndex :=
  n <~ read_str; ks <~ read_key_schema; p <~ read_projection;
  ret {| gsi_index_name := n; gsi_key_schema := ks; gsi_projection := p; gsi_provisioned_throughput := throughput_default |}.
Definition read_lsi : parser LocalSecondaryIndex :=
  n <~ read_str; ks <~ read_key_schema; p <~ read_projection;
  ret {| lsi_index_name := n; lsi_key_schema := ks; lsi_projection := p |}.

(** [if (version >= v)] before a block that older files do not have. *)
Definition since {A} (v version : Z) (p : parser A) (otherwise : A) : parser A :=
  if v <=? version then p else ret otherwise.

Definition read_ttl : parser (option TimeToLiveSpecification) :=
  has_ttl <~ read_u8;
  if has_ttl =? 0 then ret None
  else enabled <~ read_u8; n <~ read_str; ret (Some {| ttl_attribute_name := n; ttl_enabled := negb (enabled =? 0) |}).

Definition read_stream : parser (option StreamSpecification) :=
  has_stream <~ read_u8;
  if has_stream =? 0 then ret None
  else enabled <~ read_u8; has_view <~ read_u8;
       vt <~ (if has_view =? 0 then ret None
              else v <~ read_enum [SV_KEYS_ONLY; SV_NEW_IMAGE; SV_OLD_IMAGE; SV_NEW_AND_OLD_IMAGES]; ret (Some v));
       ret (Some {| stream_enabled := negb (enabled =? 0); stream_view_type := vt |}).

(** [def.attribute_definitions[attr_name] = ...] for each element read *)
Definition store_all {V} (l : list (bytes * V)) : list (bytes * V) := fold_left (fun m e => mset e.1 e.2 m) l [].

Definition read_table (version : Z) : parser TableDefinition :=
  name <~ read_str; billing <~ read_enum [PROVISIONED; PAY_PER_REQUEST]; created <~ read_u64;
  schema <~ read_key_schema; attrs <~ read_list read_attribute;
  ttl <~ since 2 version read_ttl None;
  gsis <~ since 3 version (read_list read_gsi) [];
  lsis <~ since 3 version (read_list read_lsi) [];
  stream <~ since 4 version read_stream None;
  ret {| table_name := name; key_schema := schema; attribute_definitions := store_all attrs; billing_mode := billing;
         provisioned_throughput := throughput_default; table_class := STANDARD; deletion_protection_enabled := false;
         creation_epoch_seconds := created; tags := []; local_secondary_indexes := lsis; global_secondary_indexes := gsis;
         stream_specification := stream; latest_stream_arn := None; latest_stream_label := None;
         ttl_specification := ttl; point_in_time_recovery := pitr_default |}.

Definition load_tables (version : Z) : parser (list (bytes * TableDefinition)) :=
  defs <~ read_list (read_table version); ret (store_all (map (fun def => (table_name def, def)) defs)).

(** The tables after loading; [Foreign] as above. *)
Definition load_metadata (file : option bytes) (tables : list (bytes * TableDefinition)) : option (list (bytes * TableDefinition)) :=
  match file with
  | None => Some tables
  | Some d =>
      match read_u32 d with
      | Got magic d =>
          match read_u32 d with
          | Got version d =>
              if negb (magic =? kMetadataMagic) || (version <? 1) || (kMetadataVersion <? version)
              then Some tables  (* also when the count that follows is missing *)
              else match load_tables version d with
                   | Got loaded _ => Some loaded
                   | Stop => Some tables
                   | Foreign => None
                   end
          | _ => Some tables
          end
      | _ => Some tables
      end
  end.

(** The constructor: [None] for a file with a foreign enum octet. *)
Definition open (file : option bytes) : option TableManager :=
  match load_metadata file [] with
  | Some tables => Some {| tables_ := tables; collection_sizes_ := []; dirty_ := false; metadata_file := file |}
  | None => None
  end.

(** ** Operations *)

Definition create_table (m : TableManager) (def : TableDefinition) : TableManager * expected TableDefinition TableError :=
  match mget (table_name def) (tables_ m) with
  | Some _ => (m, Err TableAlreadyExists)
  | None => (save_metadata {| tables_ := mset (table_name def) def (tables_ m); collection_sizes_ := collection_sizes_ m;
                              dirty_ := true; metadata_file := metadata_file m |}, Ok def)
  end.

Definition describe_table (m : TableManager) (name : bytes) : expected TableDefinition TableError :=
  match mget name (tables_ m) with Some def => Ok def | None => Err TableNotFound end.

Definition delete_table (m : TableManager) (name : bytes) : TableManager * expected TableDefinition TableError :=
  match mget name (tables_ m) with
  | None => (m, Err TableNotFound)
  | Some def => (save_metadata {| tables_ := mdel name (tables_ m); collection_sizes_ := mdel name (collection_sizes_ m);
                                  dirty_ := true; metadata_file := metadata_file m |}, Ok def)
  end.

Definition with_ttl (def : TableDefinition) (spec : TimeToLiveSpecification) : TableDefinition :=
  {| table_name := table_name def; key_schema := key_schema def; attribute_definitions := attribute_definitions def;
     billing_mode := billing_mode def; provisioned_throughput := provisioned_throughput def; table_class := table_class def;
     deletion_protection_enabled := deletion_protection_enabled def; creation_epoch_seconds := creation_epoch_seconds def;
     tags := tags def; local_secondary_indexes := local_secondary_indexes def; global_secondary_indexes := global_secondary_indexes def;
     stream_specification := stream_specification def; latest_stream_arn := latest_stream_arn def; latest_stream_label := latest_stream_label def;
     ttl_specification := Some spec; point_in_time_recovery := point_in_time_recovery def |}.

Definition set_ttl (m : TableManager) (name : bytes) (spec : TimeToLiveSpecification) : TableManager * expected TableDefinition TableError :=
  match mget name (tables_ m) with
  | None => (m, Err TableNotFound)
  | Some def =>
      let def' := with_ttl def spec in
      (save_metadata {| tables_ := mset name def' (tables_ m); collection_sizes_ := collection_sizes_ m;
                        dirty_ := true; metadata_file := metadata_file m |}, Ok def')
  end.

Definition list_tables (m : TableManager) : list bytes := map fst (tables_ m).

(** [-size_delta] of the least 64-bit integer overflows and is excluded. *)
Definition update_collection_size (m : TableManager) (name partition_key : bytes) (size_delta : Z) : TableManager :=
  let coll := default [] (mget name (collection_sizes_ m)) in
  let current := default 0 (mget partition_key coll) in
  let size := if (size_delta <? 0) && (current <? u64 (- size_delta)) then 0 else u64 (current + size_delta) in
  {| tables_ := tables_ m; collection_sizes_ := mset name (mset partition_key size coll) (collection_sizes_ m);
     dirty_ := dirty_ m; metadata_file := metadata_file m |}.

Definition kMaxCollectionSize : Z := 10 * 1024 * 1024 * 1024.

Definition check_collection_limit (m : TableManager) (name partition_key : bytes) (new_item_size : Z) : expected unit TableError :=
  match mget name (tables_ m) with
  | None => Err TableNotFound
  | Some def =>
      match local_secondary_indexes def with
      | [] => Ok tt
      | _ => match mget name (collection_sizes_ m) with
             | None => Ok tt
             | Some coll => match mget partition_key coll with
                            | None => Ok tt
                            | Some size => if kMaxCollectionSize <? u64 (size + new_item_size)
                                           then Err ItemCollectionSizeLimitExceeded else Ok tt
                            end
             end
      end
  end.

(** ** What is read back *)

(** The parser [p] reads the text [w] as [a] and leaves the rest. *)
Definition reads {A} (p : parser A) (w : bytes) (a : A) : Prop := forall r, p (w ++ r) = Got a r.

Lemma reads_ret {A} (a : A) : reads (ret a) [] a.
Proof. done. Qed.

Lemma reads_bind {A B} (p : parser A) (f : A -> parser B) w w' a b : reads p w a -> reads (f a) w' b -> reads (bind p f) (w ++ w') b.
Proof. intros Hp Hf r. unfold bind. by rewrite <- app_assoc, Hp. Qed.

(** The last parser of a chain. *)
Lemma reads_last {A B} (p : parser A) (f : A -> B) w a : reads p w a -> reads (x <~ p; ret (f x)) w (f a).
Proof. intros Hp r. unfold bind. by rewrite Hp. Qed.

Lemma reads_number n v : 0 <= v < 256 ^ Z.of_nat n -> reads (read_number n) (le_bytes n v) v.
Proof. intros Hv r. unfold read_number. by rewrite read_le_app. Qed.

Lemma reads_u8 v : 0 <= v < 256 -> reads read_u8 (write_u8 v) v.
Proof. apply (reads_number 1). Qed.

Lemma reads_u32 v : 0 <= v < 2 ^ 32 -> reads read_u32 (write_u32 v) v.
Proof. apply (reads_number 4). Qed.

Lemma reads_u64 v : 0 <= v < 2 ^ 64 -> reads read_u64 (write_u64 v) v.
Proof. apply (reads_number 8). Qed.

Lemma reads_str s : len s <= 65536 -> reads read_str (write_str s) s.
Proof.
  intros Hs. pose proof (len_nonneg s). apply (reads_bind _ _ _ _ (len s)); [apply reads_u32; lia|].
  change (64 * 1024) with 65536. destruct (Z.ltb_spec 65536 (len s)); [lia|]. intros r. unfold read_octets. by rewrite read_n_app.
Qed.

Lemma reads_enum {A} (values : list A) n a : 0 <= n < 256 -> values !! Z.to_nat n = Some a -> reads (read_enum values) (write_u8 n) a.
Proof. intros Hn Ha r. unfold read_enum, bind. rewrite reads_u8 by done. by rewrite Ha. Qed.

Lemma read_loop_reads {A B} (p : parser B) (w : A -> bytes) (f : A -> B) l : forall fuel acc r,
  Forall (fun a => reads p (w a) (f a)) l -> (length l <= fuel)%nat ->
  read_loop p fuel (len l) acc (concat (map w l) ++ r) = Got (acc ++ map f l) r.
Proof.
  induction l as [|a l IH]; intros fuel acc r Hl Hf.
  { destruct fuel; cbn; by rewrite app_nil_r. }
  apply Forall_cons in Hl as [Ha Hl]. destruct fuel as [|fuel]; [cbn in Hf; lia|]. cbn [read_loop]. rewrite len_cons.
  pose proof (len_nonneg l). destruct (Z.leb_spec (1 + len l) 0); [lia|]. cbn [map concat]. rewrite <- app_assoc. unfold bind. rewrite Ha.
  replace (1 + len l - 1) with (len l) by lia. cbn [length] in Hf. rewrite IH by (done || lia). by rewrite <- app_assoc.
Qed.

(** Every element is written with at least one octet, so the fuel is enough. *)
Lemma reads_list {A B} (p : parser B) (w : A -> bytes) (f : A -> B) l :
  len l < 2 ^ 32 -> (forall a, w a <> []) -> Forall (fun a => reads p (w a) (f a)) l ->
  reads (read_list p) (write_list w l) (map f l).
Proof.
  intros Hl Hw Hf. pose proof (len_nonneg l). apply (reads_bind _ _ _ _ (len l)); [apply reads_u32; lia|]. intros r.
  apply (read_loop_reads p w f l _ [] r); [done|]. rewrite length_app.
  assert (length l <= length (concat (map w l)))%nat; [|lia]. clear - Hw. induction l as [|a l IH]; [done|]. cbn. rewrite length_app.
  specialize (Hw a). destruct (w a); [done|]. cbn. lia.
Qed.

Lemma reads_list_id {A} (p : parser A) (w : A -> bytes) l :
  len l < 2 ^ 32 -> (forall a, w a <> []) -> Forall (fun a => reads p (w a) a) l -> reads (read_list p) (write_list w l) l.
Proof. intros Hl Hw Hf. rewrite <- (map_id l) at 2. by apply reads_list. Qed.

Lemma write_str_nonempty s r : write_str s ++ r <> [].
Proof. unfold write_str, write_u32. intros E. apply (f_equal length) in E. rewrite !length_app, le_bytes_length in E. cbn in E. lia. Qed.

(** *** Definitions that fit the file *)

Definition str_fits (s : bytes) : bool := len s <=? 65536.
Definition count_fits {A} (l : list A) : bool := len l <? 2 ^ 32.
Definition schema_fits (l : list KeySchemaElement) : bool := count_fits l && forallb (fun k => str_fits (attribute_name k)) l.
Definition projection_fits (p : Projection) : bool := count_fits (non_key_attributes p) && forallb str_fits (non_key_attributes p).
Definition gsi_fits (g : GlobalSecondaryIndex) : bool :=
  str_fits (gsi_index_name g) && schema_fits (gsi_key_schema g) && projection_fits (gsi_projection g).
Definition lsi_fits (l : LocalSecondaryIndex) : bool :=
  str_fits (lsi_index_name l) && schema_fits (lsi_key_schema l) && projection_fits (lsi_projection l).
Definition ttl_fits (t : option TimeToLiveSpecification) : bool :=
  match t with Some spec => str_fits (ttl_attribute_name spec) | None => true end.

(** The bounds under which a definition is read back: strings of at most 64 KiB
    and 32-bit counts. *)
Definition def_fits (def : TableDefinition) : bool :=
  str_fits (table_name def) && (0 <=? creation_epoch_seconds def) && (creation_epoch_seconds def <? 2 ^ 64) &&
  schema_fits (key_schema def) && count_fits (attribute_definitions def) &&
  forallb (fun e => str_fits e.1) (attribute_definitions def) && msortedb (attribute_definitions def) &&
  ttl_fits (ttl_specification def) &&
  count_fits (global_secondary_indexes def) && forallb gsi_fits (global_secondary_indexes def) &&
  count_fits (local_secondary_indexes def) && forallb lsi_fits (local_secondary_indexes def).

Definition persisted_gsi (g : GlobalSecondaryIndex) : GlobalSecondaryIndex :=
  {| gsi_index_name := gsi_index_name g; gsi_key_schema := gsi_key_schema g; gsi_projection := gsi_projection g;
     gsi_provisioned_throughput := throughput_default |}.

(** The part of a definition that a file of the given version keeps. *)
Definition persisted (version : Z) (def : TableDefinition) : TableDefinition :=
  {| table_name := table_name def; key_schema := key_schema def; attribute_definitions := attribute_definitions def;
     billing_mode := billing_mode def; provisioned_throughput := throughput_default; table_class := STANDARD;
     deletion_protection_enabled := false; creation_epoch_seconds := creation_epoch_seconds def; tags := [];
     local_secondary_indexes := if 3 <=? version then local_secondary_indexes def else [];
     global_secondary_indexes := if 3 <=? version then map persisted_gsi (global_secondary_indexes def) else [];
     stream_specification := if 4 <=? version then stream_specification def else None;
     latest_stream_arn := None; latest_stream_label := None;
     ttl_specification := if 2 <=? version then ttl_specification def else None;
     point_in_time_recovery := pitr_default |}.

(** The files of the earlier versions, without the blocks added later. *)
Definition versioned_table (version : Z) (e : bytes * TableDefinition) : bytes :=
  write_base e.1 e.2 ++ (if 2 <=? version then write_ttl e.2 else []) ++
  (if 3 <=? version then write_indexes e.2 else []) ++ (if 4 <=? version then write_stream e.2 else []).

Definition versioned_image (version : Z) (tables : list (bytes * TableDefinition)) : bytes :=
  write_u32 kMetadataMagic ++ write_u32 version ++ write_list (versioned_table version) tables.

Lemma metadata_image_versioned tables : metadata_image tables = versioned_image 4 tables.
Proof. reflexivity. Qed.

Lemma reads_key_element k : str_fits (attribute_name k) = true -> reads read_key_element (write_key_element k) k.
Proof.
  intros H%Z.leb_le. destruct k as [n kt]. apply (reads_bind _ _ _ _ n); [by apply reads_str|]. 
  apply (reads_last _ (fun kt => {| attribute_name := n; key_type := kt |})). by apply reads_enum; destruct kt.
Qed.

Lemma reads_schema l : schema_fits l = true -> reads read_key_schema (write_key_schema l) l.
Proof.
  unfold schema_fits, count_fits. rewrite andb_true_iff, Z.ltb_lt, forallb_iff. intros [Hc Hs]. apply reads_list_id; [done|intros; apply write_str_nonempty|].
  eapply Forall_impl; [exact Hs|apply reads_key_element].
Qed.

Lemma reads_projection p : projection_fits p = true -> reads read_projection (write_projection p) p.
Proof.
  unfold projection_fits, count_fits. rewrite andb_true_iff, Z.ltb_lt, forallb_iff. intros [Hc Hs]. destruct p as [pt l].
  apply (reads_bind _ _ _ _ pt); [by apply reads_enum; destruct pt|].
  apply (reads_last _ (fun l => {| projection_type := pt; non_key_attributes := l |})).
  apply reads_list_id; [done|intros a E; by apply (write_str_nonempty a []); rewrite app_nil_r|].
  eapply Forall_impl; [exact Hs|]. intros s Hs'%Z.leb_le. by apply reads_str.
Qed.

Lemma reads_attribute e : str_fits e.1 = true -> reads read_attribute (write_attribute e) e.
Proof.
  intros H%Z.leb_le. destruct e as [n t]. apply (reads_bind _ _ _ _ n); [by apply reads_str|].
  apply (reads_last _ (fun t => (n, t))). by apply reads_enum; destruct t.
Qed.

Lemma reads_gsi g : gsi_fits g = true -> reads read_gsi (write_gsi g) (persisted_gsi g).
Proof.
  unfold gsi_fits, str_fits. rewrite !andb_true_iff, Z.leb_le. intros [[Hn Hs] Hp].
  apply (reads_bind _ _ _ _ (gsi_index_name g)); [by apply reads_str|].
  apply (reads_bind _ _ _ _ (gsi_key_schema g)); [by apply reads_schema|].
  apply (reads_last _ (fun p => {| gsi_index_name := gsi_index_name g; gsi_key_schema := gsi_key_schema g; gsi_projection := p; gsi_provisioned_throughput := throughput_default |})).
  by apply reads_projection.
Qed.

Lemma reads_lsi l : lsi_fits l = true -> reads read_lsi (write_lsi l) l.
Proof.
  unfold lsi_fits, str_fits. rewrite !andb_true_iff, Z.leb_le. intros [[Hn Hs] Hp]. destruct l as [n ks p]. cbn [lsi_index_name lsi_key_schema lsi_projection] in *.
  apply (reads_bind _ _ _ _ n); [by apply reads_str|]. apply (reads_bind _ _ _ _ ks); [by apply reads_schema|].
  apply (reads_last _ (fun p => {| lsi_index_name := n; lsi_key_schema := ks; lsi_projection := p |})). by apply reads_projection.
Qed.

Lemma reads_flag b : reads read_u8 (write_u8 (if b : bool then 1 else 0)) (if b then 1 else 0).
Proof. apply reads_u8. destruct b; lia. Qed.

Lemma reads_ttl def : ttl_fits (ttl_specification def) = true -> reads read_ttl (write_ttl def) (ttl_specification def).
Proof.
  unfold write_ttl. destruct (ttl_specification def) as [[n en]|]; cbn [ttl_fits ttl_attribute_name ttl_enabled].
  - intros H%Z.leb_le. apply (reads_bind _ _ _ _ 1); [by apply reads_u8|]. cbn [Z.eqb]. apply (reads_bind _ _ _ _ (if en then 1 else 0)); [apply reads_flag|].
    replace (Some {| ttl_attribute_name := n; ttl_enabled := en |}) with (Some {| ttl_attribute_name := n; ttl_enabled := negb ((if en then 1 else 0) =? 0) |}) by (by destruct en).
    apply (reads_last _ (fun n => Some {| ttl_attribute_name := n; ttl_enabled := negb ((if en then 1 else 0) =? 0) |})). by apply reads_str.
  - intros _ r. unfold read_ttl, bind. by rewrite reads_u8.
Qed.

Lemma reads_stream def : reads read_stream (write_stream def) (stream_specification def).
Proof.
  unfold write_stream. destruct (stream_specification def) as [[en vt]|]; cbn [stream_enabled stream_view_type].
  - intros r. unfold read_stream, bind. rewrite <- !app_assoc, reads_u8 by done. cbn [Z.eqb]. rewrite reads_flag.
    destruct vt as [v|]; rewrite <- ?app_assoc, reads_u8 by done; cbn [Z.eqb].
    + rewrite (reads_enum _ _ v) by (destruct v; done). cbn. by destruct en.
    + cbn. by destruct en.
  - intros r. unfold read_stream, bind. by rewrite reads_u8.
Qed.

Lemma reads_since {A} v version (p : parser A) w a d :
  reads p w a -> reads (since v version p d) (if v <=? version then w else []) (if v <=? version then a else d).
Proof. intros H. unfold since. by destruct (v <=? version). Qed.

Lemma store_all_sorted {V} (l : list (bytes * V)) : msorted l -> store_all l = l.
Proof.
  intros Hs. unfold store_all. assert (H : forall acc, msorted (acc ++ l) -> fold_left (fun m e => mset e.1 e.2 m) l acc = acc ++ l); [|by apply H].
  clear Hs. induction l as [|[k v] l IH]; intros acc Hs; [by rewrite app_nil_r|]. cbn [fold_left fst snd].
  rewrite mset_last; [rewrite IH; rewrite <- app_assoc; done|]. apply msorted_app in Hs as (_ & _ & Hs).
  eapply Forall_impl; [exact Hs|]. intros e He. unfold above in He. apply Forall_cons in He as [He _]. done.
Qed.

Lemma reads_indexes version def : 
  forall (A : Type) (k : list GlobalSecondaryIndex -> list LocalSecondaryIndex -> parser A) w a,
  count_fits (global_secondary_indexes def) = true -> forallb gsi_fits (global_secondary_indexes def) = true ->
  count_fits (local_secondary_indexes def) = true -> forallb lsi_fits (local_secondary_indexes def) = true ->
  reads (k (if 3 <=? version then map persisted_gsi (global_secondary_indexes def) else [])
           (if 3 <=? version then local_secondary_indexes def else [])) w a ->
  reads (gsis <~ since 3 version (read_list read_gsi) []; lsis <~ since 3 version (read_list read_lsi) []; k gsis lsis)
    ((if 3 <=? version then write_indexes def else []) ++ w) a.
Proof.
  intros A k w a Hgc Hg Hlc Hl Hk. unfold count_fits in *. rewrite Z.ltb_lt in Hgc, Hlc. rewrite forallb_iff in Hg. rewrite forallb_iff in Hl.
  replace ((if 3 <=? version then write_indexes def else []) ++ w) with
    ((if 3 <=? version then write_list write_gsi (global_secondary_indexes def) else []) ++
     (if 3 <=? version then write_list write_lsi (local_secondary_indexes def) else []) ++ w)
    by (unfold write_indexes; destruct (3 <=? version); by rewrite <- ?app_assoc).
  eapply reads_bind; [apply reads_since, (reads_list _ _ persisted_gsi); [done|intros; apply write_str_nonempty|]|].
  { eapply Forall_impl; [exact Hg|apply reads_gsi]. }
  eapply reads_bind; [apply reads_since, reads_list_id; [done|intros; apply write_str_nonempty|]|done].
  eapply Forall_impl; [exact Hl|apply reads_lsi].
Qed.

Lemma reads_table version e :
  e.1 = table_name e.2 -> def_fits e.2 = true -> reads (read_table version) (versioned_table version e) (persisted version e.2).
Proof.
  destruct e as [name def]. cbn [fst snd]. intros -> H. unfold def_fits in H. rewrite !andb_true_iff in H. destruct H as [[[[[[[[[[[Hn H0] H1] Hs] Hac] Ha] Hsort] Ht] Hgc] Hg] Hlc] Hl].
  apply Z.leb_le in Hn, H0. apply Z.ltb_lt in H1, Hac. apply msortedb_sound in Hsort. rewrite forallb_iff in Ha.
  unfold versioned_table, write_base. cbn [fst snd]. rewrite <- !app_assoc.
  apply (reads_bind _ _ _ _ (table_name def)); [by apply reads_str|].
  apply (reads_bind _ _ _ _ (billing_mode def)); [by apply reads_enum; destruct (billing_mode def)|].
  apply (reads_bind _ _ _ _ (creation_epoch_seconds def)); [by apply reads_u64|].
  apply (reads_bind _ _ _ _ (key_schema def)); [by apply reads_schema|].
  apply (reads_bind _ _ _ _ (attribute_definitions def)).
  { apply reads_list_id; [done|intros; apply write_str_nonempty|]. eapply Forall_impl; [exact Ha|apply reads_attribute]. }
  eapply reads_bind; [by apply reads_since, reads_ttl|]. apply reads_indexes; [done..|].
  rewrite <- (app_nil_r (if 4 <=? version then _ else _)). eapply reads_bind; [apply reads_since, reads_stream|].
  rewrite store_all_sorted by done. apply reads_ret.
Qed.

(** *** The catalogue *)

Definition catalogue_ok (tables : list (bytes * TableDefinition)) : Prop :=
  msorted tables /\ Forall (fun e => e.1 = table_name e.2 /\ def_fits e.2 = true) tables.

Lemma load_metadata_image version tables :
  1 <= version <= 4 -> catalogue_ok tables -> len tables < 2 ^ 32 ->
  load_metadata (Some (versioned_image version tables)) [] = Some (mmap (persisted version) tables).
Proof.
  intros Hv [Hs Ht] Hl. unfold load_metadata, versioned_image. rewrite (reads_u32 kMetadataMagic), (reads_u32 version) by (unfold kMetadataMagic; lia).
  rewrite Z.eqb_refl. destruct (Z.ltb_spec version 1); [lia|]. destruct (Z.ltb_spec kMetadataVersion version); [unfold kMetadataVersion in *; lia|].
  cbn [negb orb]. unfold load_tables, bind. rewrite <- (app_nil_r (write_list _ _)).
  rewrite (reads_list (read_table version) _ (fun e => persisted version e.2)); [| |intros; unfold versioned_table, write_base; rewrite <- !app_assoc; apply write_str_nonempty|].
  - cbn [ret]. f_equal. rewrite store_all_sorted; [|]; rewrite map_map.
    + unfold mmap. apply map_ext_Forall. eapply Forall_impl; [exact Ht|]. intros e [He _]. by rewrite He.
    + replace (map _ tables) with (mmap (persisted version) tables); [by apply msorted_mmap|].
      apply map_ext_Forall. eapply Forall_impl; [exact Ht|]. intros e [He _]. by rewrite He.
  - done.
  - eapply Forall_impl; [exact Ht|]. intros e [He Hf]. by apply reads_table.
Qed.

(** *** Histories *)

Inductive TableOp :=
| CreateTable (def : TableDefinition)
| DeleteTable (name : bytes)
| SetTtl (name : bytes) (spec : TimeToLiveSpecification)
| UpdateSize (name partition_key : bytes) (size_delta : Z).

Definition run_table_op (m : TableManager) (op : TableOp) : TableManager :=
  match op with
  | CreateTable def => (create_table m def).1
  | DeleteTable name => (delete_table m name).1
  | SetTtl name spec => (set_ttl m name spec).1
  | UpdateSize name pk delta => update_collection_size m name pk delta
  end.

Definition table_op_ok (op : TableOp) : Prop :=
  match op with
  | CreateTable def => def_fits def = true
  | SetTtl _ spec => ttl_fits (Some spec) = true
  | _ => True
  end.

Definition fresh : TableManager := {| tables_ := []; collection_sizes_ := []; dirty_ := false; metadata_file := None |}.

(** The metadata file is the image of the catalogue, or there is none yet. *)
Record manager_inv (n : Z) (m : TableManager) : Prop := {
  mi_tables : catalogue_ok (tables_ m);
  mi_count : len (tables_ m) <= n;
  mi_file : metadata_file m = Some (metadata_image (tables_ m)) \/ (metadata_file m = None /\ tables_ m = [])
}.

Lemma mdel_length k (m : list (bytes * TableDefinition)) : len (mdel k m) <= len m.
Proof.
  induction m as [|[k1 v1] m IH]; [done|]. cbn [mdel]. destruct (kcmp k k1); rewrite !len_cons; pose proof (len_nonneg m); lia.
Qed.

Lemma mset_length_le k v (m : list (bytes * TableDefinition)) : len (mset k v m) <= 1 + len m.
Proof.
  induction m as [|[k1 v1] m IH]; [done|]. cbn [mset]. destruct (kcmp k k1); rewrite !len_cons; pose proof (len_nonneg m); lia.
Qed.

Lemma mset_length_found k v w (m : list (bytes * TableDefinition)) : msorted m -> mget k m = Some w -> len (mset k v m) = len m.
Proof.
  induction 1 as [|k1 v1 m Ha Hm IH]; [done|]. cbn [mget mset]. destruct (kcmp k k1) eqn:E; rewrite ?len_cons; [done| |intros H; by rewrite IH].
  intros H. rewrite (mget_above_lt k1 k m) in H by done. done.
Qed.

Lemma catalogue_set tables name def :
  catalogue_ok tables -> name = table_name def -> def_fits def = true -> catalogue_ok (mset name def tables).
Proof.
  intros [Hs Ht] -> Hd. split; [by apply msorted_mset|]. apply Forall_mset_rows; [done|]. done.
Qed.

Lemma catalogue_get tables name def : catalogue_ok tables -> mget name tables = Some def -> name = table_name def /\ def_fits def = true.
Proof. intros [Hs Ht] H. apply mget_Some_In in H. rewrite List.Forall_forall in Ht. by apply Ht in H. Qed.

Lemma manager_inv_mono n m m' : manager_inv n m -> tables_ m' = tables_ m -> metadata_file m' = metadata_file m -> manager_inv (n + 1) m'.
Proof. intros [Ht Hc Hf] E1 E2. split; rewrite ?E1, ?E2; [done|lia|done]. Qed.

Lemma run_table_op_inv n m op : manager_inv n m -> table_op_ok op -> manager_inv (n + 1) (run_table_op m op).
Proof.
  intros Hm Hop. pose proof Hm as [Ht Hc Hf]. destruct op as [def|name|name spec|name pk delta]; cbn [run_table_op table_op_ok] in *.
  - unfold create_table. destruct (mget (table_name def) (tables_ m)) eqn:E; [by eapply (manager_inv_mono n m)|].
    split; cbn [fst tables_ save_metadata metadata_file]; [by apply catalogue_set| |by left].
    pose proof (mset_length_le (table_name def) def (tables_ m)). lia.
  - unfold delete_table. destruct (mget name (tables_ m)) eqn:E; [|by eapply (manager_inv_mono n m)].
    split; cbn [fst tables_ save_metadata metadata_file]; [|pose proof (mdel_length name (tables_ m)); lia|by left].
    destruct Ht as [Hs Ht]. split; [by apply msorted_mdel|]. apply Forall_mdel_rows. done.
  - unfold set_ttl. destruct (mget name (tables_ m)) as [def|] eqn:E; [|by eapply (manager_inv_mono n m)].
    destruct (catalogue_get _ _ _ Ht E) as [-> Hd].
    split; cbn [fst tables_ save_metadata metadata_file]; [|rewrite (mset_length_found _ _ _ _ (proj1 Ht) E); lia|by left].
    apply catalogue_set; [done|done|]. unfold def_fits in *. cbn [with_ttl table_name creation_epoch_seconds key_schema attribute_definitions ttl_specification global_secondary_indexes local_secondary_indexes].
    rewrite !andb_true_iff in *. tauto.
  - by eapply (manager_inv_mono n m).
Qed.

Lemma run_table_ops_inv ops : forall n m, manager_inv n m -> Forall table_op_ok ops -> manager_inv (n + len ops) (fold_left run_table_op ops m).
Proof.
  induction ops as [|op ops IH]; intros n m Hm Ho; [by rewrite len_nil, Z.add_0_r|]. apply Forall_cons in Ho as [Ho Hos].
  cbn [fold_left]. rewrite len_cons. replace (n + (1 + len ops)) with (n + 1 + len ops) by lia. apply IH; [|done]. by apply run_table_op_inv.
Qed.


(** Files of the versions 1 to 3 still load, without the blocks they lack. *)
Theorem older_metadata_loads version tables :
  1 <= version <= 4 -> catalogue_ok tables -> len tables < 2 ^ 32 ->
  exists m, open (Some (versioned_image version tables)) = Some m /\ tables_ m = mmap (persisted version) tables.
Proof. intros Hv Ht Hl. unfold open. rewrite load_metadata_image by done. by eexists. Qed.

Definition demo_table : TableDefinition :=
  {| table_name := lit "orders"; key_schema := [{| attribute_name := lit "id"; key_type := HASH |}];
     attribute_definitions := [(lit "id", T_S); (lit "when", T_N)]; billing_mode := PROVISIONED;
     provisioned_throughput := {| read_capacity_units := 5; write_capacity_units := 5 |}; table_class := STANDARD;
     deletion_protection_enabled := true; creation_epoch_seconds := 1704067200; tags := [(lit "team", lit "a")];
     local_secondary_indexes := [{| lsi_index_name := lit "by_when";
       lsi_key_schema := [{| attribute_name := lit "id"; key_type := HASH |}; {| attribute_name := lit "when"; key_type := RANGE |}];
       lsi_projection := {| projection_type := PT_INCLUDE; non_key_attributes := [lit "total"] |} |}];
     global_secondary_indexes := [];
     stream_specification := Some {| stream_enabled := true; stream_view_type := Some SV_NEW_IMAGE |};
     latest_stream_arn := None; latest_stream_label := None;
     ttl_specification := None; point_in_time_recovery := pitr_default |}.

Definition demo_ops : list TableOp :=
  [CreateTable demo_table; CreateTable (with_ttl demo_table {| ttl_attribute_name := lit "x"; ttl_enabled := true |});
   SetTtl (lit "orders") {| ttl_attribute_name := lit "expires"; ttl_enabled := true |}; DeleteTable (lit "other")].


(** Deletion protection is not kept: a protected table is unprotected after a
    restart. *)
Lemma deletion_protection_lost :
  deletion_protection_enabled demo_table = true /\ deletion_protection_enabled (persisted 4 demo_table) = false.
Proof. done. Qed.

(** *** Item collections *)

Definition collection_size (m : TableManager) (name pk : bytes) : Z :=
  default 0 (mget pk (default [] (mget name (collection_sizes_ m)))).

Lemma update_size_exact m name pk delta name' pk' :
  0 <= collection_size m name pk < 2 ^ 63 -> - 2 ^ 63 < delta < 2 ^ 63 ->
  collection_size (update_collection_size m name pk delta) name' pk' =
    if bytes_eqb name name' && bytes_eqb pk pk' then Z.max 0 (collection_size m name pk + delta) else collection_size m name' pk'.
Proof.
  intros Hs Hd. unfold collection_size in *. unfold update_collection_size. cbn [collection_sizes_].
  set (cur := default 0 (mget pk _)) in *.
  assert (Hnew : (if (delta <? 0) && (cur <? u64 (- delta)) then 0 else u64 (cur + delta)) = Z.max 0 (cur + delta)).
  { unfold u64. destruct (Z.ltb_spec delta 0); cbn [andb]; [|rewrite Z.mod_small; lia]. rewrite (Z.mod_small (- delta)) by lia.
    destruct (Z.ltb_spec cur (- delta)); [lia|]. rewrite Z.mod_small; lia. }
  rewrite Hnew, mget_mset. destruct (bytes_eqb_spec name name') as [->|Hne].
  - rewrite keqb_refl. cbn [from_option id andb]. rewrite mget_mset. destruct (bytes_eqb_spec pk pk') as [->|Hp]; [by rewrite keqb_refl|].
    destruct (keqb_spec pk' pk); [congruence|done].
  - destruct (keqb_spec name' name); [congruence|done].
Qed.

(** A run of size updates of one collection, as the code clamps it at zero. *)
Definition clamped_sum (deltas : list Z) (size : Z) : Z := fold_left (fun s d => Z.max 0 (s + d)) deltas size.

Lemma clamped_bounds deltas : forall s B, 0 <= s -> Forall (fun d => - 2 ^ 63 < d < 2 ^ 63) deltas ->
  s + fold_right (fun d b => Z.max 0 d + b) 0 deltas <= B ->
  0 <= clamped_sum deltas s <= B.
Proof.
  induction deltas as [|d ds IH]; intros s B Hs Hd HB; cbn in *; [lia|]. apply Forall_cons in Hd as [Hd Hds]. apply IH; [lia|done|lia].
Qed.

(** The size of an item collection is the sum of its updates, clamped at zero,
    and a write to a table with local indexes is refused exactly if it would take
    a collection that has been written to above 10 GiB; no 64-bit sum wraps
    around while the additions stay below 2^63. *)
Theorem collection_limit_exact m name pk deltas def new_item_size :
  mget name (tables_ m) = Some def -> local_secondary_indexes def <> [] -> collection_sizes_ m = [] -> deltas <> [] ->
  Forall (fun d => - 2 ^ 63 < d < 2 ^ 63) deltas ->
  fold_right (fun d b => Z.max 0 d + b) 0 deltas + new_item_size < 2 ^ 63 -> 0 <= new_item_size ->
  let m' := fold_left (fun m d => update_collection_size m name pk d) deltas m in
  collection_size m' name pk = clamped_sum deltas 0 /\
  check_collection_limit m' name pk new_item_size =
    if kMaxCollectionSize <? clamped_sum deltas 0 + new_item_size then Err ItemCollectionSizeLimitExceeded else Ok tt.
Proof.
  intros Ht Hlsi Hc Hne Hd Hb Hn.
  assert (Hrun : forall ds m s, collection_size m name pk = s -> 0 <= s -> Forall (fun d => - 2 ^ 63 < d < 2 ^ 63) ds ->
    s + fold_right (fun d b => Z.max 0 d + b) 0 ds < 2 ^ 63 ->
    collection_size (fold_left (fun m d => update_collection_size m name pk d) ds m) name pk = clamped_sum ds s).
  { clear. induction ds as [|d ds IH]; intros m s Es Hs Hd Hb; [done|]. cbn in Hb. apply Forall_cons in Hd as [Hd Hds]. 
    assert (0 <= fold_right (fun d b => Z.max 0 d + b) 0 ds) by (clear; induction ds; cbn; lia).
    cbn [fold_left clamped_sum]. apply IH; [|lia|done|lia]. rewrite update_size_exact by (rewrite ?Es; lia). by rewrite !bytes_eqb_refl, Es. }
  intros m'. assert (Hsize : collection_size m' name pk = clamped_sum deltas 0).
  { apply Hrun; [unfold collection_size; by rewrite Hc|done|done|lia]. }
  split; [done|].
  assert (Hkeep : forall ds m, tables_ (fold_left (fun m d => update_collection_size m name pk d) ds m) = tables_ m)
    by (clear; induction ds as [|d ds IH]; intros m; [done|]; cbn [fold_left]; by rewrite IH).
  assert (Hpresent : exists coll, mget name (collection_sizes_ m') = Some coll /\ exists s, mget pk coll = Some s).
  { subst m'. destruct deltas as [|d ds] using rev_ind; [done|]. rewrite fold_left_app. cbn [fold_left].
    unfold update_collection_size at 1. cbn [collection_sizes_]. rewrite mget_mset_eq. eexists. split; [done|]. rewrite mget_mset_eq. by eexists. }
  destruct Hpresent as (coll & Hcoll & s & Hs). unfold collection_size in Hsize. rewrite Hcoll in Hsize. cbn [from_option id] in Hsize. rewrite Hs in Hsize. cbn in Hsize.
  unfold check_collection_limit. unfold m' at 1. rewrite Hkeep, Ht. destruct (local_secondary_indexes def); [done|]. rewrite Hcoll, Hs, Hsize.
  pose proof (clamped_bounds deltas 0 (2 ^ 63 - 1 - new_item_size) ltac:(lia) Hd ltac:(lia)). unfold u64. rewrite Z.mod_small by lia. done.
Qed.

Lemma collection_limit_exact_witness :
  check_collection_limit (fold_left (fun m d => update_collection_size m (lit "orders") (lit "p") d) [11000000000; -500000000]
    {| tables_ := [(lit "orders", demo_table)]; collection_sizes_ := []; dirty_ := false; metadata_file := None |}) (lit "orders") (lit "p") 400000000
  = Err ItemCollectionSizeLimitExceeded.
Proof.
  apply (collection_limit_exact {| tables_ := [(lit "orders", demo_table)]; collection_sizes_ := []; dirty_ := false; metadata_file := None |}
    (lit "orders") (lit "p") [11000000000; -500000000] demo_table 400000000); try reflexivity; try discriminate.
  repeat constructor.
Defined.

End Tables.
