(* ===== verification/BloomFilter.v ===== *)
(** * The blocked Bloom filter

    [include/cynamodb/engine/lsm/bloom_filter.hpp]: 256-bit blocks of eight 32-bit
    words, of which a key sets one bit each.  The vector of words is a list;
    indexing out of range is [None], and is excluded by [bloom_in_range]. *)

From Stdlib Require Import ZArith Lia Strings.String.
From stdpp Require Import prelude.
From S2P Require Import Prelude.

Module Bloom.

(** [data_] *)
Abbreviation BlockedBloomFilter := (list Z).

Definition create (num_items : Z) : BlockedBloomFilter :=
  let total_bits := u64 (num_items * 10) in
  let num_blocks := u64 (total_bits + 255) / 256 in
  let num_blocks := if num_blocks =? 0 then 1 else num_blocks in
  replicate (Z.to_nat (u64 (num_blocks * 8))) 0.

(** [static_cast<uint64_t>(c)] of a [char], which is signed. *)
Definition sign_extend (c : byte) : Z := if bval c <? 128 then bval c else u64 (bval c - 256).

Definition hash (key : bytes) : Z :=
  fold_left (fun h c => u64 (Z.lxor h (sign_extend c) * 13787848793156543929)) key 305419896.

(** [data_[block_idx * 8]], an offset of type [uint32_t] *)
Definition block_offset (data : BlockedBloomFilter) (h : Z) : Z :=
  let block_idx := u32 (Z.shiftr h 32 mod (len data / 8)) in u32 (block_idx * 8).

Definition bit_pos (hash_val i : Z) : Z := Z.lxor hash_val (u32 (i * 2654435769)) mod 32.

(** The body of the loop of [add] for word [i]: [None] out of range. *)
Definition set_bit (offset hash_val i : Z) (data : BlockedBloomFilter) : option BlockedBloomFilter :=
  match data !! Z.to_nat (offset + i) with
  | Some w => Some (<[Z.to_nat (offset + i) := Z.lor w (u32 (Z.shiftl 1 (bit_pos hash_val i)))]> data)
  | None => None
  end.

Fixpoint set_bits (offset hash_val : Z) (js : list Z) (data : BlockedBloomFilter) : option BlockedBloomFilter :=
  match js with
  | [] => Some data
  | i :: js' => match set_bit offset hash_val i data with Some data' => set_bits offset hash_val js' data' | None => None end
  end.

(** [for (int i = 0; i < 8; ++i)] *)
Definition words : list Z := [0; 1; 2; 3; 4; 5; 6; 7].

Definition add (data : BlockedBloomFilter) (key : bytes) : option BlockedBloomFilter :=
  let h := hash key in set_bits (block_offset data h) (u32 h) words data.

Fixpoint test_bits (offset hash_val : Z) (js : list Z) (data : BlockedBloomFilter) : option bool :=
  match js with
  | [] => Some true
  | i :: js' =>
      match data !! Z.to_nat (offset + i) with
      | Some w => if Z.land w (u32 (Z.shiftl 1 (bit_pos hash_val i))) =? 0 then Some false else test_bits offset hash_val js' data
      | None => None
      end
  end.

Definition contains (data : BlockedBloomFilter) (key : bytes) : option bool :=
  let h := hash key in test_bits (block_offset data h) (u32 h) words data.

(** ** In range *)

(** The size of the vector is a positive multiple of eight. *)
Definition wf (data : BlockedBloomFilter) : Prop := exists n, 0 < n /\ len data = n * 8.

Lemma create_wf num_items : wf (create num_items).
Proof.
  unfold create, wf. set (b := u64 (u64 (num_items * 10) + 255) / 256).
  assert (Hb : 0 <= b < 2 ^ 56).
  { subst b. unfold u64. pose proof (Z.mod_pos_bound ((num_items * 10) mod 2 ^ 64 + 255) (2 ^ 64) ltac:(lia)).
    split; [apply Z.div_pos; lia|]. apply Z.div_lt_upper_bound; lia. }
  exists (if b =? 0 then 1 else b). destruct (Z.eqb_spec b 0); (split; [lia|]); unfold len; rewrite length_replicate; [done|].
  unfold u64. rewrite Z.mod_small by lia. lia.
Qed.

Lemma offset_in_range data h i : wf data -> 0 <= i < 8 -> 0 <= block_offset data h + i < len data.
Proof.
  intros (n & Hn & Hl) Hi. unfold block_offset. rewrite Hl, Z.div_mul by lia.
  set (x := Z.shiftr h 32 mod n). assert (Hx : 0 <= x < n) by (apply Z.mod_pos_bound; lia).
  unfold u32. set (y := x mod 2 ^ 32). assert (Hy : 0 <= y <= x) by (subst y; split; [apply Z.mod_pos_bound; lia|apply Z.mod_le; lia]).
  replace (y * 8) with (8 * y) by lia. change (2 ^ 32) with (8 * 2 ^ 29). rewrite Z.mul_mod_distr_l by lia.
  pose proof (Z.mod_pos_bound y (2 ^ 29) ltac:(lia)). pose proof (Z.mod_le y (2 ^ 29) ltac:(lia) ltac:(lia)). lia.
Qed.

(** ** Bits only get set *)

(** Every word of [data'] has the bits of the word of [data]. *)
Definition below (data data' : BlockedBloomFilter) : Prop :=
  length data' = length data /\
  forall j w, data !! j = Some w -> exists w', data' !! j = Some w' /\ forall b, Z.testbit w b = true -> Z.testbit w' b = true.

#[export] Instance below_preorder : PreOrder below.
Proof.
  split; [by intros data; split; eauto|]. intros d1 d2 d3 [L1 H1] [L2 H2]. split; [congruence|].
  intros j w Hw. destruct (H1 j w Hw) as (w2 & Hw2 & B1). destruct (H2 j w2 Hw2) as (w3 & Hw3 & B2). eauto.
Qed.

Lemma below_offset data data' h : below data data' -> block_offset data' h = block_offset data h.
Proof. intros [Hl _]. unfold block_offset, len. by rewrite Hl. Qed.

Lemma below_wf data data' : below data data' -> wf data -> wf data'.
Proof. intros [Hl _] (n & Hn & E). exists n. unfold len in *. by rewrite Hl. Qed.

Lemma bit_pos_range h i : 0 <= bit_pos h i < 32.
Proof. apply Z.mod_pos_bound. lia. Qed.

Lemma bit_mask p : 0 <= p < 32 -> u32 (Z.shiftl 1 p) = 2 ^ p.
Proof. intros Hp. unfold u32. rewrite Z.shiftl_1_l, Z.mod_small; [done|]. split; [apply Z.pow_nonneg; lia|apply Z.pow_lt_mono_r; lia]. Qed.

Lemma mask_test w p : 0 <= p -> (Z.land w (2 ^ p) =? 0) = negb (Z.testbit w p).
Proof.
  intros Hp. destruct (Z.testbit w p) eqn:E; cbn [negb].
  - apply Z.eqb_neq. intros H. apply (f_equal (fun x => Z.testbit x p)) in H.
    rewrite Z.land_spec, E, Z.pow2_bits_true, Z.bits_0 in H by lia. done.
  - apply Z.eqb_eq. apply Z.bits_inj'. intros n Hn. rewrite Z.land_spec, Z.bits_0, Z.pow2_bits_eqb by lia.
    destruct (Z.eqb_spec p n) as [->|]; [by rewrite E|by rewrite andb_false_r].
Qed.

(** One word, set. *)
Lemma set_bit_spec offset h i data :
  0 <= offset + i < len data ->
  exists data', set_bit offset h i data = Some data' /\ below data data' /\
    exists w, data' !! Z.to_nat (offset + i) = Some w /\ Z.testbit w (bit_pos h i) = true.
Proof.
  intros Hr. unfold set_bit. destruct (lookup_lt_is_Some_2 data (Z.to_nat (offset + i))) as [w Hw]; [unfold len in Hr; lia|].
  rewrite Hw, bit_mask by apply bit_pos_range. pose proof (bit_pos_range h i). pose proof (lookup_lt_Some _ _ _ Hw).
  eexists. split; [done|]. split.
  - split; [apply length_insert|]. intros j w1 Hj. destruct (decide (j = Z.to_nat (offset + i))) as [->|Hne].
    + rewrite list_lookup_insert_eq by done. eexists. split; [done|]. intros b Hb. rewrite Z.lor_spec. simplify_eq. by rewrite Hb.
    + rewrite list_lookup_insert_ne by done. eauto.
  - rewrite list_lookup_insert_eq by done. eexists. split; [done|]. rewrite Z.lor_spec, Z.pow2_bits_true by lia. apply orb_true_r.
Qed.

(** The bits that [contains] tests for a key. *)
Definition marked (offset h : Z) (js : list Z) (data : BlockedBloomFilter) : Prop :=
  Forall (fun i => exists w, data !! Z.to_nat (offset + i) = Some w /\ Z.testbit w (bit_pos h i) = true) js.

Lemma marked_below offset h js data data' : below data data' -> marked offset h js data -> marked offset h js data'.
Proof.
  intros [_ Hb] Hm. eapply Forall_impl; [exact Hm|]. intros i (w & Hw & Ht). destruct (Hb _ _ Hw) as (w' & Hw' & Hb'). eauto.
Qed.

Lemma set_bits_spec offset h js : forall data,
  Forall (fun i => 0 <= offset + i < len data) js ->
  exists data', set_bits offset h js data = Some data' /\ below data data' /\ marked offset h js data'.
Proof.
  induction js as [|i js IH]; intros data Hr; [exists data; repeat split; eauto; constructor|].
  apply Forall_cons in Hr as [Hi Hr]. cbn [set_bits]. destruct (set_bit_spec offset h i data Hi) as (d1 & -> & B1 & Hw).
  destruct (IH d1) as (d2 & -> & B2 & M2).
  { eapply Forall_impl; [exact Hr|]. intros j Hj. destruct B1 as [Hl _]. unfold len in *. by rewrite Hl. }
  exists d2. split; [done|]. split; [by transitivity d1|]. constructor; [|done].
  assert (M1 : marked offset h [i] d1) by by constructor. apply (marked_below _ _ _ _ _ B2) in M1. by apply Forall_cons in M1 as [M1 _].
Qed.

Lemma test_marked offset h js data : marked offset h js data -> test_bits offset h js data = Some true.
Proof.
  induction 1 as [|i js (w & Hw & Ht) Hm IH]; [done|]. cbn [test_bits]. pose proof (bit_pos_range h i).
  by rewrite Hw, bit_mask, mask_test, Ht by (done || lia).
Qed.

Lemma words_range data h : wf data -> Forall (fun i => 0 <= block_offset data h + i < len data) words.
Proof. intros Hw. repeat constructor; apply offset_in_range; (done || lia). Qed.

Lemma add_spec data key : wf data ->
  exists data', add data key = Some data' /\ below data data' /\ marked (block_offset data (hash key)) (u32 (hash key)) words data'.
Proof. intros Hw. unfold add. apply set_bits_spec. by apply words_range. Qed.

Lemma test_bits_defined offset h js data : Forall (fun i => 0 <= offset + i < len data) js -> exists b, test_bits offset h js data = Some b.
Proof.
  induction 1 as [|i js Hi Hr IH]; [by exists true|]. cbn [test_bits].
  destruct (lookup_lt_is_Some_2 data (Z.to_nat (offset + i))) as [w ->]; [unfold len in Hi; lia|]. destruct (_ =? 0); eauto.
Qed.

(** A filter with some keys added. *)
Fixpoint add_all (data : BlockedBloomFilter) (keys : list bytes) : option BlockedBloomFilter :=
  match keys with
  | [] => Some data
  | k :: keys' => match add data k with Some data' => add_all data' keys' | None => None end
  end.

Lemma add_all_spec keys : forall data, wf data ->
  exists data', add_all data keys = Some data' /\ below data data' /\
    Forall (fun k => marked (block_offset data (hash k)) (u32 (hash k)) words data') keys.
Proof.
  induction keys as [|k keys IH]; intros data Hw; [by exists data|]. cbn [add_all].
  destruct (add_spec data k Hw) as (d1 & -> & B1 & M1). destruct (IH d1 (below_wf _ _ B1 Hw)) as (d2 & -> & B2 & M2).
  exists d2. split; [done|]. split; [by transitivity d1|]. constructor; [by eapply marked_below|].
  eapply Forall_impl; [exact M2|]. intros k' H. cbv beta in H. by rewrite (below_offset data d1 (hash k') B1) in H.
Qed.

(** The Bloom filter has no false negatives and stays in range.  Whatever
    number of items it was sized for and whatever keys are added, every access
    is inside the vector, a query is answered for every key and it is answered
    yes for every key that was added. *)
Theorem bloom_no_false_negatives num_items keys :
  exists data, add_all (create num_items) keys = Some data /\
    (forall key, exists b, contains data key = Some b) /\
    (forall key, key ∈ keys -> contains data key = Some true).
Proof.
  pose proof (create_wf num_items) as Hw. destruct (add_all_spec keys _ Hw) as (data & E & B & M). exists data. split; [done|]. split.
  - intros key. apply test_bits_defined, words_range. by eapply below_wf.
  - intros key Hk. rewrite Forall_forall in M. apply M in Hk. unfold contains. rewrite (below_offset _ _ _ B). by apply test_marked.
Qed.

End Bloom.
