(* ===== verification/BlockCache.v ===== *)
(** * The block cache

    [include/cynamodb/engine/lsm/block_cache.hpp]: shards that keep their blocks in
    a hash map and the keys, most recent first, in a doubly linked list.  A list
    iterator is the identity of a node: the list holds nodes with an identity and
    a key, and erasing at an iterator removes the node with that identity.
    [std::hash] is a parameter. *)

From Stdlib Require Import ZArith Lia Strings.String.
From stdpp Require Import prelude.
From S2P Require Import Prelude StdMap.

Module Cache.

Abbreviation Block := bytes.

Record CacheShard := {
  capacity_ : Z;
  current_size_ : Z;
  cache_ : list (bytes * (Block * nat));
  lru_list_ : list (nat * bytes);
  next_node : nat
}.

Definition create_shard (capacity_bytes : Z) : CacheShard :=
  {| capacity_ := capacity_bytes; current_size_ := 0; cache_ := []; lru_list_ := []; next_node := 0 |}.

(** [lru_list_.erase(it)] *)
Definition erase_node (it : nat) (l : list (nat * bytes)) : list (nat * bytes) :=
  List.filter (fun e => negb (e.1 =? it)%nat) l.

(** [lru_list_.push_front(key)]: the new node's identity is [next_node]. *)
Definition push_front (sh : CacheShard) (key : bytes) (l : list (nat * bytes)) : list (nat * bytes) := (next_node sh, key) :: l.

Definition drop_entry (sh : CacheShard) (key : bytes) : CacheShard :=
  match mget key (cache_ sh) with
  | Some (b, it) =>
      {| capacity_ := capacity_ sh; current_size_ := u64 (current_size_ sh - len b); cache_ := mdel key (cache_ sh);
         lru_list_ := erase_node it (lru_list_ sh); next_node := next_node sh |}
  | None => sh
  end.

(** One turn of the eviction loop: the last key of the list. *)
Definition evict_last (sh : CacheShard) (last_key : bytes) : CacheShard :=
  let (size, cache) := match mget last_key (cache_ sh) with
                       | Some (b, _) => (u64 (current_size_ sh - len b), mdel last_key (cache_ sh))
                       | None => (current_size_ sh, cache_ sh)
                       end in
  {| capacity_ := capacity_ sh; current_size_ := size; cache_ := cache; lru_list_ := removelast (lru_list_ sh); next_node := next_node sh |}.

(** Every turn removes a node, so the length of the list is enough fuel. *)
Fixpoint evict (fuel : nat) (size : Z) (sh : CacheShard) : CacheShard :=
  match fuel with
  | O => sh
  | S fuel' =>
      if capacity_ sh <? u64 (current_size_ sh + size) then
        match last (lru_list_ sh) with
        | Some (_, last_key) => evict fuel' size (evict_last sh last_key)
        | None => sh
        end
      else sh
  end.

Definition insert_shard (sh : CacheShard) (key : bytes) (block : Block) : CacheShard :=
  if capacity_ sh <? len block then sh
  else
    let sh := drop_entry sh key in
    let sh := evict (length (lru_list_ sh)) (len block) sh in
    {| capacity_ := capacity_ sh; current_size_ := u64 (current_size_ sh + len block);
       cache_ := mset key (block, next_node sh) (cache_ sh); lru_list_ := push_front sh key (lru_list_ sh); next_node := S (next_node sh) |}.

Definition get_shard_entry (sh : CacheShard) (key : bytes) : CacheShard * option Block :=
  match mget key (cache_ sh) with
  | None => (sh, None)
  | Some (b, it) =>
      ({| capacity_ := capacity_ sh; current_size_ := current_size_ sh; cache_ := mset key (b, next_node sh) (cache_ sh);
          lru_list_ := push_front sh key (erase_node it (lru_list_ sh)); next_node := S (next_node sh) |}, Some b)
  end.

(** [ShardedBlockCache] *)
Section Sharded.
Context (hash : bytes -> Z).

Definition create (total_capacity_bytes num_shards : Z) : list CacheShard :=
  let num_shards := if num_shards =? 0 then 1 else num_shards in
  replicate (Z.to_nat num_shards) (create_shard (total_capacity_bytes / num_shards)).

Definition shard_index (shards : list CacheShard) (key : bytes) : nat := Z.to_nat (hash key mod len shards).

Definition insert (shards : list CacheShard) (key : bytes) (block : Block) : list CacheShard :=
  alter (fun sh => insert_shard sh key block) (shard_index shards key) shards.

Definition get (shards : list CacheShard) (key : bytes) : list CacheShard * option Block :=
  match shards !! shard_index shards key with
  | Some sh => let (sh', r) := get_shard_entry sh key in (<[shard_index shards key := sh']> shards, r)
  | None => (shards, None)
  end.
End Sharded.

(** ** The abstract cache: keys and blocks, most recent first *)

Fixpoint total (l : list (bytes * Block)) : Z :=
  match l with [] => 0 | e :: l' => len e.2 + total l' end.

(** The longest prefix within a limit. *)
Fixpoint fit (limit : Z) (l : list (bytes * Block)) : list (bytes * Block) :=
  match l with
  | [] => []
  | e :: l' => if len e.2 <=? limit then e :: fit (limit - len e.2) l' else []
  end.

Definition without (key : bytes) (l : list (bytes * Block)) : list (bytes * Block) := List.filter (fun e => negb (bytes_eqb e.1 key)) l.

Definition find_block (key : bytes) (l : list (bytes * Block)) : option Block :=
  option_map snd (List.find (fun e => bytes_eqb e.1 key) l).

Definition lru_insert (capacity : Z) (l : list (bytes * Block)) (key : bytes) (block : Block) : list (bytes * Block) :=
  if capacity <? len block then l else (key, block) :: fit (capacity - len block) (without key l).

Definition lru_get (l : list (bytes * Block)) (key : bytes) : list (bytes * Block) * option Block :=
  match find_block key l with
  | Some b => ((key, b) :: without key l, Some b)
  | None => (l, None)
  end.

(** ** Simulation *)

(** A cached block with its node. *)
Record Entry := { node : nat; ekey : bytes; eblock : Block }.

Definition plain (es : list Entry) : list (bytes * Block) := map (fun e => (ekey e, eblock e)) es.

Record rep (sh : CacheShard) (es : list Entry) : Prop := {
  rep_lru : lru_list_ sh = map (fun e => (node e, ekey e)) es;
  rep_sorted : msorted (cache_ sh);
  rep_cache : forall e, e ∈ es -> mget (ekey e) (cache_ sh) = Some (eblock e, node e);
  rep_only : forall k b it, mget k (cache_ sh) = Some (b, it) -> {| node := it; ekey := k; eblock := b |} ∈ es;
  rep_nodes : NoDup (map node es);
  rep_fresh : Forall (fun e => (node e < next_node sh)%nat) es;
  rep_keys : NoDup (map ekey es);
  rep_size : current_size_ sh = total (plain es);
  rep_bound : 0 <= total (plain es) <= capacity_ sh;
  rep_capacity : capacity_ sh < 2 ^ 63
}.

Lemma total_app l1 l2 : total (l1 ++ l2) = total l1 + total l2.
Proof. induction l1; cbn; lia. Qed.

Lemma total_nonneg l : 0 <= total l.
Proof. induction l as [|e l IH]; cbn; [lia|]. pose proof (len_nonneg e.2). lia. Qed.

Lemma fit_all limit l : total l <= limit -> fit limit l = l.
Proof.
  revert limit. induction l as [|e l IH]; intros limit H; [done|]. cbn in *. pose proof (total_nonneg l).
  destruct (Z.leb_spec (len e.2) limit); [|lia]. by rewrite IH by lia.
Qed.

Lemma fit_last limit l e : limit < total (l ++ [e]) -> fit limit (l ++ [e]) = fit limit l.
Proof.
  revert limit. induction l as [|e' l IH]; intros limit H; cbn in *.
  - destruct (Z.leb_spec (len e.2) limit); [lia|done].
  - destruct (Z.leb_spec (len e'.2) limit); [|done]. by rewrite IH by lia.
Qed.

Lemma entries_without es e :
  e ∈ es -> NoDup (map node es) -> NoDup (map ekey es) ->
  exists es1 es2, es = es1 ++ e :: es2 /\
    erase_node (node e) (map (fun e => (node e, ekey e)) es) = map (fun e => (node e, ekey e)) (es1 ++ es2) /\
    without (ekey e) (plain es) = plain (es1 ++ es2) /\ ekey e ∉ map ekey (es1 ++ es2).
Proof.
  intros He Hn Hk. apply list_elem_of_split in He as (es1 & es2 & ->). exists es1, es2. split; [done|].
  rewrite map_app in Hn. rewrite map_app in Hk. cbn [map] in Hn, Hk.
  apply NoDup_app in Hn as (_ & Hn1 & [Hn2 _]%NoDup_cons). apply NoDup_app in Hk as (_ & Hk1 & [Hk2 _]%NoDup_cons).
  assert (Hni : node e ∉ map node (es1 ++ es2)).
  { rewrite map_app, elem_of_app. intros [H|H]; [by eapply Hn1; [exact H|left]|done]. }
  assert (Hki : ekey e ∉ map ekey (es1 ++ es2)).
  { rewrite map_app, elem_of_app. intros [H|H]; [by eapply Hk1; [exact H|left]|done]. }
  assert (Hid1 : forall l, node e ∉ map node l -> erase_node (node e) (map (fun e => (node e, ekey e)) l) = map (fun e => (node e, ekey e)) l).
  { induction l as [|x l IH]; intros H; [done|]. cbn [map] in *. apply not_elem_of_cons in H as [H1 H2]. unfold erase_node in *. cbn [List.filter fst].
    destruct (Nat.eqb_spec (node x) (node e)); [congruence|]. cbn [negb]. by rewrite IH. }
  assert (Hid2 : forall l, ekey e ∉ map ekey l -> without (ekey e) (plain l) = plain l).
  { induction l as [|x l IH]; intros H; [done|]. cbn [map] in *. apply not_elem_of_cons in H as [H1 H2]. unfold without, plain in *. cbn [map List.filter fst].
    destruct (bytes_eqb_spec (ekey x) (ekey e)); [congruence|]. cbn [negb]. by rewrite IH. }
  rewrite map_app in Hni. rewrite map_app in Hki. rewrite elem_of_app in Hni. rewrite elem_of_app in Hki. split; [|split; [|by rewrite map_app, elem_of_app]].
  - rewrite !map_app. unfold erase_node. rewrite List.filter_app. cbn [map List.filter fst]. rewrite Nat.eqb_refl. cbn [negb].
    fold (erase_node (node e) (map (fun e => (node e, ekey e)) es1)). fold (erase_node (node e) (map (fun e => (node e, ekey e)) es2)).
    by rewrite !Hid1 by tauto.
  - unfold plain, without. rewrite !map_app, List.filter_app. cbn [map List.filter fst]. rewrite bytes_eqb_refl. cbn [negb].
    fold (plain es1). fold (plain es2). fold (without (ekey e) (plain es1)). fold (without (ekey e) (plain es2)). by rewrite !Hid2 by tauto.
Qed.

Lemma without_none es key : key ∉ map ekey es -> without key (plain es) = plain es /\ find_block key (plain es) = None.
Proof.
  induction es as [|e es IH]; intros H; [done|]. cbn [map] in H. apply not_elem_of_cons in H as [H1 H2]. destruct (IH H2) as [E1 E2].
  unfold without, find_block, plain in *. cbn [map List.filter List.find fst]. destruct (bytes_eqb_spec (ekey e) key); [congruence|]. cbn [negb]. by rewrite E1.
Qed.

(** Removing one entry keeps the representation of the rest. *)
Lemma rep_remove sh es1 e es2 sh' :
  rep sh (es1 ++ e :: es2) ->
  lru_list_ sh' = map (fun e => (node e, ekey e)) (es1 ++ es2) -> cache_ sh' = mdel (ekey e) (cache_ sh) ->
  current_size_ sh' = u64 (current_size_ sh - len (eblock e)) -> capacity_ sh' = capacity_ sh -> next_node sh' = next_node sh ->
  rep sh' (es1 ++ es2).
Proof.
  intros [R1 R2 R3 R4 R5 R6 R7 R8 R9 R10] E1 E2 E3 E4 E5.
  assert (Htot : total (plain (es1 ++ e :: es2)) = total (plain (es1 ++ es2)) + len (eblock e))
    by (unfold plain; rewrite !map_app, !total_app; cbn; lia).
  pose proof (total_nonneg (plain (es1 ++ es2))) as Hp. pose proof (len_nonneg (eblock e)).
  rewrite map_app in R5. rewrite map_app in R7. cbn [map] in R5, R7.
  apply NoDup_app in R5 as (N1 & N2 & [N3 N4]%NoDup_cons). apply NoDup_app in R7 as (K1 & K2 & [K3 K4]%NoDup_cons).
  assert (Hother : forall x, x ∈ es1 ++ es2 -> ekey x <> ekey e).
  { intros x [Hx|Hx]%elem_of_app Hk.
    - apply (K2 (ekey x)); [by apply list_elem_of_fmap_2|rewrite Hk; by left].
    - apply K3. rewrite <- Hk. by apply list_elem_of_fmap_2. }
  split.
  - done.
  - rewrite E2. by apply msorted_mdel.
  - intros x Hx. rewrite E2, mget_mdel. destruct (keqb_spec (ekey x) (ekey e)) as [Hk|]; [by apply Hother in Hk|].
    apply R3. apply elem_of_app in Hx. apply elem_of_app. rewrite elem_of_cons. tauto.
  - intros k b it. rewrite E2, mget_mdel. destruct (keqb_spec k (ekey e)) as [->|Hk]; [done|]. intros Hg%R4.
    apply elem_of_app in Hg as [Hg|Hg]; [apply elem_of_app; by left|]. apply elem_of_cons in Hg as [<-|Hg]; [done|]. apply elem_of_app; by right.
  - rewrite map_app. apply NoDup_app. split; [done|]. split; [|done]. intros x Hx Hx'. apply (N2 x Hx). by right.
  - rewrite E5. apply Forall_app in R6 as [? ?%Forall_cons]. apply Forall_app. tauto.
  - rewrite map_app. apply NoDup_app. split; [done|]. split; [|done]. intros x Hx Hx'. apply (K2 x Hx). by right.
  - rewrite E3, R8, Htot. unfold u64. rewrite Z.mod_small; lia.
  - rewrite E4. lia.
  - by rewrite E4.
Qed.

Lemma evict_rep fuel size : forall sh es,
  rep sh es -> 0 <= size <= capacity_ sh -> (length es <= fuel)%nat ->
  exists es', rep (evict fuel size sh) es' /\ plain es' = fit (capacity_ sh - size) (plain es) /\
    (map ekey es') `sublist_of` (map ekey es) /\ capacity_ (evict fuel size sh) = capacity_ sh /\ total (plain es') <= capacity_ sh - size.
Proof.
  induction fuel as [|fuel IH]; intros sh es Hr Hs Hf.
  { exists es. destruct es; [|cbn in Hf; lia]. split; [done|]. split; [done|]. split; [reflexivity|]. split; [done|]. cbn [plain map total]. lia. }
  pose proof (rep_bound _ _ Hr) as Hb. pose proof (rep_capacity _ _ Hr) as Hc. cbn [evict].
  assert (Eu : u64 (current_size_ sh + size) = total (plain es) + size) by (rewrite (rep_size _ _ Hr); apply Z.mod_small; lia). rewrite Eu.
  destruct (Z.ltb_spec (capacity_ sh) (total (plain es) + size)) as [Hlt|Hle].
  2:{ exists es. split; [done|]. split; [by rewrite fit_all by lia|]. split; [reflexivity|]. split; [done|lia]. }
  destruct es as [|e es _] using rev_ind; [cbn in Hlt; lia|].
  rewrite (rep_lru _ _ Hr), map_app. cbn [map]. rewrite last_snoc.
  assert (He : mget (ekey e) (cache_ sh) = Some (eblock e, node e)) by (apply (rep_cache _ _ Hr), elem_of_app; right; by left).
  assert (Hr' : rep (evict_last sh (ekey e)) es).
  { rewrite <- (app_nil_r es). eapply rep_remove; [exact Hr|..]; unfold evict_last; rewrite He; cbn; try done.
    rewrite (rep_lru _ _ Hr), map_app, app_nil_r. cbn [map]. apply removelast_last. }
  assert (Hcap : capacity_ (evict_last sh (ekey e)) = capacity_ sh) by (unfold evict_last; by destruct (mget _ _) as [[]|]).
  rewrite length_app in Hf. cbn in Hf. destruct (IH _ _ Hr' ltac:(rewrite Hcap; lia) ltac:(lia)) as (es' & H1 & H2 & H3 & H4 & H5).
  exists es'. rewrite Hcap in *. split; [done|]. split; [|split; [|done]].
  - rewrite H2. unfold plain. rewrite map_app. cbn [map]. symmetry. apply fit_last. unfold plain in Hlt. rewrite map_app in Hlt. cbn [map] in Hlt. lia.
  - rewrite map_app. etrans; [exact H3|]. by apply sublist_inserts_r.
Qed.


(** The new node at the front. *)
Lemma rep_push sh es key block sh' :
  rep sh es -> key ∉ map ekey es -> total (plain es) + len block <= capacity_ sh ->
  lru_list_ sh' = (next_node sh, key) :: lru_list_ sh -> cache_ sh' = mset key (block, next_node sh) (cache_ sh) ->
  current_size_ sh' = u64 (current_size_ sh + len block) -> capacity_ sh' = capacity_ sh -> next_node sh' = S (next_node sh) ->
  rep sh' ({| node := next_node sh; ekey := key; eblock := block |} :: es).
Proof.
  intros [R1 R2 R3 R4 R5 R6 R7 R8 R9 R10] Hk Ht E1 E2 E3 E4 E5. pose proof (len_nonneg block). split.
  - by rewrite E1, R1.
  - rewrite E2. by apply msorted_mset.
  - intros x Hx. rewrite E2, mget_mset. apply elem_of_cons in Hx as [->|Hx]; [by rewrite keqb_refl|].
    destruct (keqb_spec (ekey x) key) as [<-|]; [|by apply R3]. destruct Hk. by apply list_elem_of_fmap_2.
  - intros k b it. rewrite E2, mget_mset. destruct (keqb_spec k key) as [->|]; [intros [= <- <-]; by left|]. intros Hg. right. by apply R4.
  - cbn [map node]. constructor; [|done]. intros (x & Hx & Hin)%list_elem_of_fmap. rewrite Forall_forall in R6. apply R6 in Hin. lia.
  - rewrite E5. constructor; [cbn; lia|]. eapply Forall_impl; [exact R6|]. cbn. lia.
  - cbn [map ekey]. by constructor.
  - cbn [plain map total eblock snd]. fold (plain es). rewrite E3, R8. unfold u64. rewrite Z.mod_small; [lia|]. lia.
  - cbn [plain map total eblock snd]. fold (plain es). rewrite E4. lia.
  - by rewrite E4.
Qed.

(** A key is in the entries exactly if the map has it. *)
Lemma rep_absent sh es key : rep sh es -> mget key (cache_ sh) = None -> key ∉ map ekey es.
Proof. intros Hr H (e & -> & He)%list_elem_of_fmap. apply (rep_cache _ _ Hr) in He. congruence. Qed.

Lemma drop_entry_rep sh es key : rep sh es ->
  exists es', rep (drop_entry sh key) es' /\ plain es' = without key (plain es) /\ (key ∉ map ekey es') /\
    capacity_ (drop_entry sh key) = capacity_ sh /\
    (forall b it, mget key (cache_ sh) = Some (b, it) -> total (plain es) = total (plain es') + len b).
Proof.
  intros Hr. unfold drop_entry. destruct (mget key (cache_ sh)) as [[b it]|] eqn:E.
  - destruct (entries_without es _ (rep_only _ _ Hr _ _ _ E) (rep_nodes _ _ Hr) (rep_keys _ _ Hr)) as (es1 & es2 & -> & E1 & E2 & Hk).
    cbn [node ekey] in *. exists (es1 ++ es2). split; [eapply rep_remove; [exact Hr|..]; cbn; try done; by rewrite (rep_lru _ _ Hr)|].
    split; [done|]. split; [done|]. split; [done|]. intros b' it' [= <- <-]. unfold plain. rewrite !map_app, !total_app. cbn [map total snd eblock]. lia.
  - exists es. pose proof (rep_absent _ _ _ Hr E) as Hk. split; [done|]. split; [symmetry; by apply without_none|]. done.
Qed.

Lemma insert_rep sh es key block : rep sh es ->
  exists es', rep (insert_shard sh key block) es' /\ plain es' = lru_insert (capacity_ sh) (plain es) key block /\
    capacity_ (insert_shard sh key block) = capacity_ sh.
Proof.
  intros Hr. unfold insert_shard, lru_insert. pose proof (len_nonneg block).
  destruct (Z.ltb_spec (capacity_ sh) (len block)) as [|Hle]; [by exists es|].
  destruct (drop_entry_rep sh es key Hr) as (es1 & Hr1 & P1 & K1 & C1 & _).
  assert (Hlen : length (lru_list_ (drop_entry sh key)) = length es1) by (by rewrite (rep_lru _ _ Hr1), length_map).
  rewrite Hlen. destruct (evict_rep (length es1) (len block) _ _ Hr1 ltac:(rewrite C1; lia) ltac:(lia)) as (es2 & Hr2 & P2 & K2 & C2 & T2).
  set (sh2 := evict _ _ _) in *. rewrite C1 in *.
  exists ({| node := next_node sh2; ekey := key; eblock := block |} :: es2). cbn [capacity_]. split; [|split; [|done]].
  - eapply rep_push; [exact Hr2| |rewrite C2; lia|done..]. intros Hin. apply K1. eapply elem_of_submseteq; [exact Hin|]. by apply sublist_submseteq.
  - cbn [plain map ekey eblock]. fold (plain es2). by rewrite P2, P1.
Qed.

Lemma find_entry es e : e ∈ es -> NoDup (map ekey es) -> find_block (ekey e) (plain es) = Some (eblock e).
Proof.
  induction es as [|x es IH]; [by intros ?%elem_of_nil|]. intros He Hk. cbn [map] in Hk. apply NoDup_cons in Hk as [Hx Hk].
  unfold find_block, plain in *. cbn [map List.find fst]. apply elem_of_cons in He as [->|He].
  - by rewrite bytes_eqb_refl.
  - destruct (bytes_eqb_spec (ekey x) (ekey e)) as [E|]; [|by apply IH]. destruct Hx. rewrite E. by apply list_elem_of_fmap_2.
Qed.

Lemma lru_get_rep sh es key : rep sh es ->
  (get_shard_entry sh key).2 = (lru_get (plain es) key).2 /\
  exists es', rep (get_shard_entry sh key).1 es' /\ plain es' = (lru_get (plain es) key).1 /\ capacity_ (get_shard_entry sh key).1 = capacity_ sh.
Proof.
  intros Hr. unfold get_shard_entry, lru_get. destruct (mget key (cache_ sh)) as [[b it]|] eqn:E.
  2:{ rewrite (proj2 (without_none _ _ (rep_absent _ _ _ Hr E))). split; [done|]. by exists es. }
  pose proof (rep_only _ _ Hr _ _ _ E) as He. pose proof (find_entry _ _ He (rep_keys _ _ Hr)) as Hf. cbn [ekey eblock] in Hf. rewrite Hf. split; [done|].
  destruct (drop_entry_rep sh es key Hr) as (es1 & Hr1 & P1 & K1 & C1 & T1). specialize (T1 _ _ E).
  exists ({| node := next_node sh; ekey := key; eblock := b |} :: es1). split; [|split; [cbn [plain map ekey eblock fst]; fold (plain es1); by rewrite P1|done]].
  pose proof (rep_bound _ _ Hr) as Hb. pose proof (rep_size _ _ Hr) as Hs. pose proof (rep_capacity _ _ Hr) as Hc.
  pose proof (total_nonneg (plain es1)). pose proof (len_nonneg b).
  assert (Hn : next_node (drop_entry sh key) = next_node sh) by (unfold drop_entry; by rewrite E).
  rewrite <- Hn. eapply rep_push; [exact Hr1|done|rewrite C1; lia|..]; unfold drop_entry; rewrite E; cbn [lru_list_ cache_ current_size_ capacity_ next_node fst]; try done.
  - by rewrite mset_mdel by apply Hr.
  - unfold u64. rewrite Zplus_mod_idemp_l, Hs, Z.mod_small; lia.
Qed.

Lemma total_perm l1 l2 : Permutation l1 l2 -> total l1 = total l2.
Proof. induction 1; cbn; lia. Qed.

(** The sizes of the map's blocks add up to those of the list. *)
Lemma cache_total sh es : rep sh es -> total (plain es) = fold_right (fun e s => len e.2.1 + s) 0 (cache_ sh).
Proof.
  intros Hr. transitivity (total (map (fun e => (e.1, e.2.1)) (cache_ sh))).
  2:{ clear. induction (cache_ sh) as [|e l IH]; cbn; [done|]. by rewrite IH. }
  apply total_perm, NoDup_Permutation.
  - pose proof (rep_keys _ _ Hr) as Hk. apply (NoDup_fmap_1 fst). unfold plain. by rewrite <- list_fmap_compose.
  - apply (NoDup_fmap_1 fst). rewrite <- list_fmap_compose. by apply (msorted_nodup (cache_ sh)), Hr.
  - intros [k b]. unfold plain. rewrite !list_elem_of_fmap. split.
    + intros (e & [= -> ->] & He). apply (rep_cache _ _ Hr), mget_Some_In in He. exists (ekey e, (eblock e, node e)). split; [done|by apply list_elem_of_In].
    + intros ([k' [b' it]] & [= -> ->] & He). apply list_elem_of_In, mget_In in He; [|apply Hr]. apply (rep_only _ _ Hr) in He. by eexists; split; [|exact He].
Qed.

(** ** Histories *)

Inductive CacheOp :=
| CacheInsert (key : bytes) (block : Block)
| CacheGet (key : bytes).

Definition run_cache_op (sh : CacheShard) (op : CacheOp) : CacheShard * option Block :=
  match op with
  | CacheInsert key block => (insert_shard sh key block, None)
  | CacheGet key => get_shard_entry sh key
  end.

Definition spec_cache_op (capacity : Z) (l : list (bytes * Block)) (op : CacheOp) : list (bytes * Block) * option Block :=
  match op with
  | CacheInsert key block => (lru_insert capacity l key block, None)
  | CacheGet key => lru_get l key
  end.

(** The results of a sequence of operations. *)
Fixpoint run_cache (sh : CacheShard) (ops : list CacheOp) : CacheShard * list (option Block) :=
  match ops with
  | [] => (sh, [])
  | op :: ops' => let (sh1, r) := run_cache_op sh op in let (sh2, rs) := run_cache sh1 ops' in (sh2, r :: rs)
  end.

Fixpoint spec_cache (capacity : Z) (l : list (bytes * Block)) (ops : list CacheOp) : list (bytes * Block) * list (option Block) :=
  match ops with
  | [] => (l, [])
  | op :: ops' => let (l1, r) := spec_cache_op capacity l op in let (l2, rs) := spec_cache capacity l1 ops' in (l2, r :: rs)
  end.

Lemma run_cache_op_rep sh es op : rep sh es ->
  (run_cache_op sh op).2 = (spec_cache_op (capacity_ sh) (plain es) op).2 /\
  exists es', rep (run_cache_op sh op).1 es' /\ plain es' = (spec_cache_op (capacity_ sh) (plain es) op).1 /\ capacity_ (run_cache_op sh op).1 = capacity_ sh.
Proof. intros Hr. destruct op as [key block|key]; cbn [run_cache_op spec_cache_op fst snd]; [split; [done|by apply insert_rep]|by apply lru_get_rep]. Qed.

Lemma run_cache_rep ops : forall sh es, rep sh es ->
  (run_cache sh ops).2 = (spec_cache (capacity_ sh) (plain es) ops).2 /\
  exists es', rep (run_cache sh ops).1 es' /\ plain es' = (spec_cache (capacity_ sh) (plain es) ops).1 /\ capacity_ (run_cache sh ops).1 = capacity_ sh.
Proof.
  induction ops as [|op ops IH]; intros sh es Hr; [split; [done|by exists es]|]. cbn [run_cache spec_cache].
  destruct (run_cache_op_rep sh es op Hr) as [E1 (es1 & Hr1 & P1 & C1)].
  destruct (run_cache_op sh op) as [sh1 r1]. destruct (spec_cache_op (capacity_ sh) (plain es) op) as [l1 r1']. cbn [fst snd] in *. subst r1' l1.
  destruct (IH sh1 es1 Hr1) as [E2 (es2 & Hr2 & P2 & C2)]. rewrite C1 in *.
  destruct (run_cache sh1 ops) as [sh2 rs]. destruct (spec_cache (capacity_ sh) (plain es1) ops) as [l2 rs']. cbn [fst snd] in *.
  split; [by subst|]. by exists es2.
Qed.

Lemma create_rep capacity : 0 <= capacity < 2 ^ 63 -> rep (create_shard capacity) [].
Proof.
  intros Hc. split; cbn; try done; try constructor; try lia. intros e He. by apply elem_of_nil in He.
Qed.

(** C36: a cache shard is a least-recently-used cache.  Every sequence of
    insertions and lookups gives the results of the abstract cache, a list of
    blocks with the most recently used first, from which an insertion removes the
    old block of its key and then the least recent blocks until the new one
    fits. *)
Theorem shard_refines_lru capacity ops :
  0 <= capacity < 2 ^ 63 -> (run_cache (create_shard capacity) ops).2 = (spec_cache capacity [] ops).2.
Proof. intros Hc. by destruct (run_cache_rep ops _ _ (create_rep capacity Hc)) as [H _]. Qed.

Lemma shard_refines_lru_witness :
  (run_cache (create_shard 4) [CacheInsert (lit "a") (lit "12"); CacheInsert (lit "b") (lit "34"); CacheGet (lit "a");
     CacheInsert (lit "c") (lit "5"); CacheGet (lit "b"); CacheGet (lit "a")]).2
  = [None; None; Some (lit "12"); None; None; Some (lit "12")].
Proof. etransitivity; [apply (shard_refines_lru 4); lia|]. vm_compute. reflexivity. Defined.

(** The invariant of a shard.  After any sequence of operations the size kept
    is the total size of the cached blocks and within the capacity, the linked
    list and the map hold the same keys, once each, and every iterator of the map
    points to the node of its key. *)
Theorem shard_invariant capacity ops :
  0 <= capacity < 2 ^ 63 ->
  let sh := (run_cache (create_shard capacity) ops).1 in
  current_size_ sh = fold_right (fun e s => len e.2.1 + s) 0 (cache_ sh) /\ current_size_ sh <= capacity /\
  NoDup (map snd (lru_list_ sh)) /\ NoDup (map fst (lru_list_ sh)) /\
  forall k it, (it, k) ∈ lru_list_ sh <-> exists b, mget k (cache_ sh) = Some (b, it).
Proof.
  intros Hc sh. destruct (run_cache_rep ops _ _ (create_rep capacity Hc)) as [_ (es & Hr & _ & C)]. fold sh in Hr, C.
  split; [|split; [|split; [|split]]].
  - rewrite (rep_size _ _ Hr). by apply cache_total.
  - rewrite (rep_size _ _ Hr). destruct (rep_bound _ _ Hr) as [_ Hb]. by rewrite C in Hb.
  - rewrite (rep_lru _ _ Hr), map_map. apply Hr.
  - rewrite (rep_lru _ _ Hr), map_map. apply Hr.
  - intros k it. rewrite (rep_lru _ _ Hr), list_elem_of_fmap. split.
    + intros (e & [= -> ->] & He). eexists. by apply Hr.
    + intros (b & Hb). apply (rep_only _ _ Hr) in Hb. by eexists; split; [|exact Hb].
Qed.

Lemma shard_invariant_witness : current_size_ (run_cache (create_shard 4) [CacheInsert (lit "a") (lit "12"); CacheInsert (lit "b") (lit "345")]).1 <= 4.
Proof. apply (shard_invariant 4). lia. Defined.

End Cache.
