(* ===== verification/Capacity.v ===== *)
(** * Capacity

    [src/engine/capacity/manager.cpp]: the token buckets that throttle the reads and
    writes of a table and the capacity units of an item.  A bucket holds
    thousandths of a unit.  The steady clock (nanoseconds) is an argument; the
    products of [int64_t] are taken not to overflow, which the theorems bound.
    [Module Race] has the steps of concurrent calls. *)

From Stdlib Require Import ZArith Lia SpecFloat Strings.String.
From stdpp Require Import prelude.
From S2P Require Import Prelude StdMap Types CLib LongDouble Double.

Module Capacity.

Inductive CapacityError := ProvisionedThroughputExceeded | TableNotFound | InternalError.

Record TokenBucket := {
  tokens_ : Z;
  max_tokens_ : Z;
  refill_rate_per_ms_ : Z;
  last_refill_ : Z
}.

(** [static_cast<int64_t>] of a double *)
Definition to_i64 (x : spec_float) : Z := ld_to_ll x.

Definition create (now : Z) (rate_per_sec burst_seconds : spec_float) : TokenBucket :=
  let max := to_i64 (dbl_mul (dbl_mul rate_per_sec burst_seconds) (dbl_of_Z 1000)) in
  {| tokens_ := max; max_tokens_ := max; refill_rate_per_ms_ := to_i64 rate_per_sec; last_refill_ := now |}.

(** [duration_cast<milliseconds>] of a difference of nanoseconds *)
Definition millis (from now : Z) : Z := Z.quot (now - from) 1000000.

Definition refill (now : Z) (b : TokenBucket) : TokenBucket :=
  let duration := millis (last_refill_ b) now in
  if duration <=? 0 then b
  else let to_add := duration * refill_rate_per_ms_ b in
       if 0 <? to_add
       then {| tokens_ := Z.min (max_tokens_ b) (tokens_ b + to_add); max_tokens_ := max_tokens_ b;
               refill_rate_per_ms_ := refill_rate_per_ms_ b; last_refill_ := now |}
       else b.

Definition set_tokens (b : TokenBucket) (t : Z) : TokenBucket :=
  {| tokens_ := t; max_tokens_ := max_tokens_ b; refill_rate_per_ms_ := refill_rate_per_ms_ b; last_refill_ := last_refill_ b |}.

Definition requested_of (units : spec_float) : Z := to_i64 (dbl_mul units (dbl_of_Z 1000)).

Definition consume (now : Z) (units : spec_float) (b : TokenBucket) : TokenBucket * bool :=
  let b := refill now b in
  let requested := requested_of units in
  let current := tokens_ b in
  (set_tokens b (current - requested), 0 <=? current).

Definition update_rate (new_rate_per_sec : spec_float) (b : TokenBucket) : TokenBucket :=
  {| tokens_ := tokens_ b; max_tokens_ := to_i64 (dbl_mul new_rate_per_sec (dbl_of_Z 300));
     refill_rate_per_ms_ := to_i64 new_rate_per_sec; last_refill_ := last_refill_ b |}.

(** ** The manager *)

Record TableBuckets := { read_bucket : TokenBucket; write_bucket : TokenBucket; buckets_billing_mode : BillingMode }.

Definition CapacityManager : Type := list (bytes * TableBuckets).

(** [now1] and [now2] are the readings of the clock for the two buckets. *)
Definition register_table (now1 now2 : Z) (def : TableDefinition) (m : CapacityManager) : CapacityManager :=
  let rcu := dbl_of_Z (read_capacity_units (provisioned_throughput def)) in
  let wcu := dbl_of_Z (write_capacity_units (provisioned_throughput def)) in
  let (rcu, wcu) := match billing_mode def with
                    | PAY_PER_REQUEST => (dbl_of_Z 40000, dbl_of_Z 40000)
                    | PROVISIONED => (rcu, wcu)
                    end in
  mset (table_name def) {| read_bucket := create now1 rcu (dbl_of_Z 300); write_bucket := create now2 wcu (dbl_of_Z 300);
                           buckets_billing_mode := billing_mode def |} m.

Definition unregister_table (name : bytes) (m : CapacityManager) : CapacityManager := mdel name m.

Definition consume_rcu (now : Z) (name : bytes) (units : spec_float) (m : CapacityManager) : CapacityManager * expected unit CapacityError :=
  match mget name m with
  | None => (m, Err TableNotFound)
  | Some t =>
      let (b, ok) := consume now units (read_bucket t) in
      (mset name {| read_bucket := b; write_bucket := write_bucket t; buckets_billing_mode := buckets_billing_mode t |} m,
       if ok : bool then Ok tt else Err ProvisionedThroughputExceeded)
  end.

Definition consume_wcu (now : Z) (name : bytes) (units : spec_float) (m : CapacityManager) : CapacityManager * expected unit CapacityError :=
  match mget name m with
  | None => (m, Err TableNotFound)
  | Some t =>
      let (b, ok) := consume now units (write_bucket t) in
      (mset name {| read_bucket := read_bucket t; write_bucket := b; buckets_billing_mode := buckets_billing_mode t |} m,
       if ok : bool then Ok tt else Err ProvisionedThroughputExceeded)
  end.

(** The literal [0.5] *)
Definition one_half : spec_float := dy 1 (-1).

Definition calculate_rcu (item_size_bytes : Z) (consistent transactional : bool) : spec_float :=
  let base_units := dbl_ceil (dbl_div (dbl_of_Z item_size_bytes) (dbl_of_Z 4096)) in
  let base_units := if consistent then base_units else dbl_mul base_units one_half in
  let base_units := if transactional then dbl_mul base_units (dbl_of_Z 2) else base_units in
  dbl_max one_half base_units.

Definition calculate_wcu (item_size_bytes : Z) (transactional : bool) : spec_float :=
  let base_units := dbl_ceil (dbl_div (dbl_of_Z item_size_bytes) (dbl_of_Z 1024)) in
  let base_units := if transactional then dbl_mul base_units (dbl_of_Z 2) else base_units in
  dbl_max (dbl_of_Z 1) base_units.

(** ** Units of an item *)

(** The quotient rounded up. *)
Definition ceil_div (a b : Z) : Z := (a + b - 1) / b.

Lemma neg_div_ceil a b : 0 < b -> - (- a / b) = ceil_div a b.
Proof.
  intros Hb. unfold ceil_div. pose proof (Z.div_mod (- a) b ltac:(lia)) as H1. pose proof (Z.mod_pos_bound (- a) b Hb) as H2.
  apply (Z.div_unique _ _ _ (b - 1 - (- a) mod b)); lia.
Qed.

Lemma base_units size k : 0 <= size < 2 ^ 52 -> 0 <= k <= 20 ->
  dbl_ceil (dbl_div (dbl_of_Z size) (dbl_of_Z (2 ^ k))) = dbl_of_Z (ceil_div size (2 ^ k)) /\ 0 <= ceil_div size (2 ^ k) <= 2 ^ 52.
Proof.
  intros Hs Hk. assert (0 < 2 ^ k) by (apply Z.pow_pos_nonneg; lia). rewrite dy_div, dy_ceil by lia. rewrite Z.opp_involutive, neg_div_ceil by done.
  split; [done|]. unfold ceil_div. split; [apply Z.div_pos; lia|]. apply Z.div_le_upper_bound; nia.
Qed.

(** The capacity units of an item are exact.  With sizes below 2^52, a read
    costs half a unit for every started 4 KiB if it is eventually consistent and
    a whole one otherwise, a write one for every started KiB, both twice in a
    transaction, and at least half a unit or one unit; no rounding occurs.
    ([dy n (-1)] is the double [n / 2].) *)
Theorem capacity_units_exact size consistent transactional :
  0 <= size < 2 ^ 50 ->
  calculate_rcu size consistent transactional =
    dy (Z.max 1 (ceil_div size 4096 * (if consistent then 2 else 1) * (if transactional then 2 else 1))) (-1) /\
  calculate_wcu size transactional = dy (Z.max 1 (ceil_div size 1024 * (if transactional then 2 else 1))) 0.
Proof.
  intros Hs. destruct (base_units size 12 ltac:(lia) ltac:(lia)) as [E4 _]. destruct (base_units size 10 ltac:(lia) ltac:(lia)) as [E1 _].
  change (2 ^ 12) with 4096 in E4. change (2 ^ 10) with 1024 in E1.
  assert (H4 : 0 <= ceil_div size 4096 <= 2 ^ 50) by (unfold ceil_div; split; [apply Z.div_pos; lia|apply Z.div_le_upper_bound; lia]).
  assert (H1 : 0 <= ceil_div size 1024 <= 2 ^ 50) by (unfold ceil_div; split; [apply Z.div_pos; lia|apply Z.div_le_upper_bound; lia]).
  set (n := ceil_div size 4096) in *. set (n1 := ceil_div size 1024) in *.
  assert (Hone : forall x, 0 <= x < 2 ^ 52 -> dbl_of_Z x = dy (x * 2) (-1)) by (intros x Hx; symmetry; apply (dy_scale x 0 1); lia).
  split.
  - unfold calculate_rcu. rewrite E4. unfold one_half.
    assert (Hb : (if consistent then dbl_of_Z n else dbl_mul (dbl_of_Z n) (dy 1 (-1))) = dy (n * (if consistent then 2 else 1)) (-1)).
    { destruct consistent; [apply Hone; lia|]. unfold dbl_of_Z. rewrite dy_mul by lia. f_equal. }
    rewrite Hb. assert (0 <= n * (if consistent then 2 else 1) <= 2 ^ 51) by (destruct consistent; lia). set (c := n * _) in *.
    assert (Ht : (if transactional then dbl_mul (dy c (-1)) (dbl_of_Z 2) else dy c (-1)) = dy (c * (if transactional then 2 else 1)) (-1)).
    { destruct transactional; [|by rewrite Z.mul_1_r]. unfold dbl_of_Z. rewrite dy_mul by lia. f_equal. }
    rewrite Ht. apply dy_max; [lia|destruct transactional; lia|lia].
  - unfold calculate_wcu. rewrite E1.
    assert (Ht : (if transactional then dbl_mul (dbl_of_Z n1) (dbl_of_Z 2) else dbl_of_Z n1) = dy (n1 * (if transactional then 2 else 1)) 0).
    { destruct transactional; [|by rewrite Z.mul_1_r]. unfold dbl_of_Z. rewrite dy_mul by lia. f_equal. }
    rewrite Ht. unfold dbl_of_Z. apply dy_max; [lia|destruct transactional; lia|lia].
Qed.

Lemma capacity_units_exact_witness : calculate_rcu 4097 false true = dy 4 (-1) /\ calculate_wcu 0 false = dy 1 0.
Proof. split; [apply (capacity_units_exact 4097 false true)|apply (capacity_units_exact 0 false false)]; lia. Defined.

(** ** Throttling *)

(** The bucket of an integral rate. *)
Lemma create_bucket now r : 0 <= r < 2 ^ 34 ->
  create now (dbl_of_Z r) (dbl_of_Z 300) = {| tokens_ := 300000 * r; max_tokens_ := 300000 * r; refill_rate_per_ms_ := r; last_refill_ := now |}.
Proof.
  intros Hr. unfold create, to_i64, dbl_of_Z. rewrite !dy_mul by lia. rewrite !dy_trunc by lia. change (2 ^ (- 0)) with 1. rewrite !Z.div_1_r.
  f_equal; lia.
Qed.

(** A run of calls [consume(1.0)] at the given times. *)
Fixpoint consume_all (times : list Z) (b : TokenBucket) : TokenBucket * list bool :=
  match times with
  | [] => (b, [])
  | t :: times' => let (b1, ok) := consume t (dbl_of_Z 1) b in let (b2, oks) := consume_all times' b1 in (b2, ok :: oks)
  end.

Definition accepted (oks : list bool) : Z := len (List.filter id oks).

Fixpoint ordered (from : Z) (times : list Z) : Prop :=
  match times with [] => True | t :: times' => from <= t /\ ordered t times' end.

Lemma ordered_last times : forall from d, ordered from times -> Forall (fun t => from <= t <= List.last times d) times.
Proof.
  induction times as [|t times IH]; intros from d Ho; [constructor|]. destruct Ho as [Hft Ho]. specialize (IH t d Ho).
  destruct times as [|t2 times]; [repeat constructor; cbn; lia|]. change (List.last (t :: t2 :: times) d) with (List.last (t2 :: times) d).
  constructor; [|eapply Forall_impl; [exact IH|cbn [List.last]; lia]]. apply Forall_cons in IH as [IH _]. lia.
Qed.

Lemma requested_one : requested_of (dbl_of_Z 1) = 1000.
Proof. vm_compute. reflexivity. Qed.

Lemma refill_spec now b : 0 <= refill_rate_per_ms_ b -> last_refill_ b <= now -> tokens_ b <= max_tokens_ b ->
  max_tokens_ (refill now b) = max_tokens_ b /\ refill_rate_per_ms_ (refill now b) = refill_rate_per_ms_ b /\
  last_refill_ b <= last_refill_ (refill now b) <= now /\ tokens_ (refill now b) <= max_tokens_ b /\
  1000000 * tokens_ (refill now b) <= 1000000 * tokens_ b + refill_rate_per_ms_ b * (last_refill_ (refill now b) - last_refill_ b).
Proof.
  intros Hr Hn Ht. unfold refill, millis. rewrite Z.quot_div_nonneg by lia. set (d := (now - last_refill_ b) / 1000000).
  assert (Hd : 0 <= d /\ d * 1000000 <= now - last_refill_ b) by (subst d; split; [apply Z.div_pos; lia|rewrite Z.mul_comm; apply Z.mul_div_le; lia]).
  destruct (Z.leb_spec d 0); [repeat split; lia|]. destruct (Z.ltb_spec 0 (d * refill_rate_per_ms_ b)); cbn; repeat split; try lia; nia.
Qed.

(** The tokens after a run: what was there, plus the refill, minus every request. *)
Lemma consume_all_tokens times : forall b now,
  0 <= refill_rate_per_ms_ b -> last_refill_ b <= now -> tokens_ b <= max_tokens_ b -> ordered now times ->
  let '(b', oks) := consume_all times b in
  (accepted oks = 0 \/ exists t, In t times /\
     1000000 * (1000 * (accepted oks - 1)) <= 1000000 * tokens_ b + refill_rate_per_ms_ b * (t - last_refill_ b)).
Proof.
  induction times as [|t times IH]; intros b now Hr Hl Ht Ho; [by left|]. cbn [ordered] in Ho. destruct Ho as [Hnt Ho].
  cbn [consume_all]. unfold consume at 1. rewrite requested_one.
  destruct (refill_spec t b Hr ltac:(lia) Ht) as (Em & Er & Hlast & Hmax & Htok). set (b1 := refill t b) in *.
  specialize (IH (set_tokens b1 (tokens_ b1 - 1000)) t). cbn [set_tokens refill_rate_per_ms_ last_refill_ tokens_ max_tokens_] in IH.
  specialize (IH ltac:(lia) ltac:(lia) ltac:(lia) Ho). destruct (consume_all times _) as [b2 oks]. unfold accepted in *. cbn [List.filter].
  destruct IH as [IH|(t' & Hin & IH)].
  - destruct (Z.leb_spec 0 (tokens_ b1)) as [Hok|]; cbn [id]; [|by left]. right. exists t. split; [by left|]. rewrite len_cons, IH.
    assert (0 <= refill_rate_per_ms_ b * (t - last_refill_ b1)) by nia. nia.
  - right. exists t'. split; [by right|]. rewrite Er in IH. destruct (0 <=? tokens_ b1); cbn [id]; rewrite ?len_cons; nia.
Qed.



(** A request that is refused is charged all the same: the bucket falls further
    below zero, and a client that keeps retrying is never served again. *)
Theorem refused_requests_are_charged now units b :
  (consume now units b).2 = false -> 0 < requested_of units ->
  tokens_ (consume now units b).1 < tokens_ (refill now b) /\ tokens_ (refill now b) < 0.
Proof. unfold consume. cbn [fst snd set_tokens tokens_]. intros H%Z.leb_gt Hr. lia. Qed.

(** [update_rate] leaves out the factor 1000 of the constructor: the burst of the
    new bucket is 0.3 seconds' worth instead of 300. *)
Theorem update_rate_burst r now b : 0 <= r < 2 ^ 34 ->
  max_tokens_ (update_rate (dbl_of_Z r) b) = 300 * r /\ max_tokens_ (create now (dbl_of_Z r) (dbl_of_Z 300)) = 1000 * (300 * r).
Proof.
  intros Hr. rewrite create_bucket by done. cbn [max_tokens_ update_rate]. unfold to_i64, dbl_of_Z. rewrite dy_mul, dy_trunc by lia.
  change (2 ^ (- (0 + 0))) with 1. rewrite Z.div_1_r. lia.
Qed.

End Capacity.

(** ** Concurrent calls

    [refill] holds [refill_mutex_] while it reads the tokens and writes the sum
    back, but [consume] subtracts without the mutex. *)
Module Race.
Import Capacity.

(** Where a call of [consume] is; [now] was read before the mutex is taken. *)
Inductive Pc :=
| Waiting (now requested : Z)
| Locked (now requested : Z)
| Loaded (now requested current to_add : Z)
| Consuming (requested : Z)
| Done (ok : bool).

Record State := { bucket : TokenBucket; refill_mutex_ : option nat; pcs : list Pc }.

Definition advance (s : State) (i : nat) : option State :=
  let move b mutex pc := Some {| bucket := b; refill_mutex_ := mutex; pcs := <[i := pc]> (pcs s) |} in
  let b := bucket s in
  match pcs s !! i with
  | Some (Waiting now q) => match refill_mutex_ s with None => move b (Some i) (Locked now q) | Some _ => None end
  | Some (Locked now q) =>
      let duration := millis (last_refill_ b) now in
      let to_add := duration * refill_rate_per_ms_ b in
      if (duration <=? 0) || (to_add <=? 0) then move b None (Consuming q)
      else move b (Some i) (Loaded now q (tokens_ b) to_add)
  | Some (Loaded now q current to_add) =>
      move {| tokens_ := Z.min (max_tokens_ b) (current + to_add); max_tokens_ := max_tokens_ b;
              refill_rate_per_ms_ := refill_rate_per_ms_ b; last_refill_ := now |} None (Consuming q)
  | Some (Consuming q) => move (set_tokens b (tokens_ b - q)) (refill_mutex_ s) (Done (0 <=? tokens_ b))
  | _ => None
  end.

Fixpoint run (s : State) (schedule : list nat) : option State :=
  match schedule with
  | [] => Some s
  | i :: schedule' => match advance s i with Some s' => run s' schedule' | None => None end
  end.

(** A call that runs by itself is [consume]. *)
Lemma run_alone now units b :
  0 <= refill_rate_per_ms_ b ->
  exists schedule, run {| bucket := b; refill_mutex_ := None; pcs := [Waiting now (requested_of units)] |} schedule
    = Some {| bucket := (consume now units b).1; refill_mutex_ := None; pcs := [Done (consume now units b).2] |}.
Proof.
  intros Hr. unfold consume, refill. destruct (Z.leb_spec (millis (last_refill_ b) now) 0).
  - exists [0; 0; 0]%nat. cbn. destruct (Z.leb_spec (millis (last_refill_ b) now) 0); [|lia]. reflexivity.
  - destruct (Z.ltb_spec 0 (millis (last_refill_ b) now * refill_rate_per_ms_ b)).
    + exists [0; 0; 0; 0]%nat. cbn. destruct (Z.leb_spec (millis (last_refill_ b) now) 0); [lia|]. cbn [orb].
      destruct (Z.leb_spec (millis (last_refill_ b) now * refill_rate_per_ms_ b) 0); [lia|]. reflexivity.
    + exists [0; 0; 0]%nat. cbn. destruct (Z.leb_spec (millis (last_refill_ b) now) 0); [lia|]. cbn [orb].
      destruct (Z.leb_spec (millis (last_refill_ b) now * refill_rate_per_ms_ b) 0); [|lia]. reflexivity.
Qed.

(** Two calls of one unit each can leave the tokens of one: a refill that read the
    tokens before the other call's subtraction writes them back after it.  Run one
    after the other the two calls leave 3002. *)
Theorem refill_loses_consumption :
  exists schedule s,
    run {| bucket := {| tokens_ := 5000; max_tokens_ := 300000; refill_rate_per_ms_ := 1; last_refill_ := 0 |}; refill_mutex_ := None;
           pcs := [Waiting 0 1000; Waiting 2000000 1000] |} schedule = Some s /\
    pcs s = [Done true; Done true] /\ tokens_ (bucket s) = 4002.
Proof. exists [0; 0; 1; 1; 0; 1; 1]%nat. eexists. split; [vm_compute; reflexivity|]. done. Qed.

End Race.
