(* ===== verification/NumberText.v ===== *)
(** * Canonical numbers

    [normalize_number] of [src/json/serializer.cpp]: the canonical text of a DynamoDB
    number.  A number text has a value [m * 10^p]; the canonical text has the
    same value, and texts of equal value have the same canonical text. *)

From Stdlib Require Import ZArith Lia Strings.String.
From stdpp Require Import prelude.
From S2P Require Import Prelude CLib Validator.

Module NumberText.

(** ** Reading *)

(** [for (char c : ed) { exp = exp * 10 + (c - '0'); if (exp > 100000) break; }] *)
Fixpoint exponent_loop (ed : bytes) (exp : Z) : Z :=
  match ed with
  | [] => exp
  | c :: ed' => let exp := exp * 10 + digit_val c in if 100000 <? exp then exp else exponent_loop ed' exp
  end.

(** The exponent part, if any; [None]: a mark without digits. *)
Definition read_exponent (s : bytes) : option (Z * bytes) :=
  match s with
  | c :: s' =>
      if is_char 101 c || is_char 69 c then
        let '(eneg, s') := match s' with
                           | c :: r => if is_char 43 c || is_char 45 c then (is_char 45 c, r) else (false, s')
                           | [] => (false, s')
                           end in
        let '(ed, r) := span isdigit s' in
        match ed with
        | [] => None
        | _ => let exp := exponent_loop ed 0 in Some (if eneg then - exp else exp, r)
        end
      else Some (0, s)
  | [] => Some (0, s)
  end.

(** Sign, integer digits, fraction digits and exponent; [None]: the text is not a
    number and is returned unchanged. *)
Definition decimal (s : bytes) : option (bool * bytes * bytes * Z) :=
  let '(neg, r) := match s with
                   | c :: r => if is_char 43 c then (false, r) else if is_char 45 c then (true, r) else (false, s)
                   | [] => (false, s)
                   end in
  let '(int_digits, r) := span isdigit r in
  let '(frac_digits, r) := match r with
                           | c :: r' => if is_char 46 c then span isdigit r' else ([], r)
                           | [] => ([], r)
                           end in
  match int_digits, frac_digits with
  | [], [] => None
  | _, _ =>
      match read_exponent r with
      | Some (exp, []) => Some (neg, int_digits, frac_digits, exp)
      | _ => None
      end
  end.

(** ** Writing *)

Fixpoint strip_leading (digits : bytes) : bytes :=
  match digits with
  | c :: ((_ :: _) as rest) => if is_char 48 c then strip_leading rest else digits
  | _ => digits
  end.

(** The digits in reverse order, with the exponent. *)
Fixpoint pop_zeros (digits : bytes) (pexp : Z) : bytes * Z :=
  match digits with
  | c :: ((_ :: _) as rest) => if is_char 48 c then pop_zeros rest (pexp + 1) else (digits, pexp)
  | _ => (digits, pexp)
  end.

Definition kMaxPlain : Z := 40.

Definition plain_body (digits : bytes) (pexp : Z) : bytes :=
  let point_pos := len digits + pexp in
  if 0 <=? pexp then if pexp <=? kMaxPlain then digits ++ zeros pexp else []
  else if 0 <? point_pos then take (Z.to_nat point_pos) digits ++ lit "." ++ drop (Z.to_nat point_pos) digits
  else if - point_pos <=? kMaxPlain then lit "0." ++ zeros (- point_pos) ++ digits
  else [].

Definition scientific_body (digits : bytes) (pexp : Z) : bytes :=
  let adj := len digits + pexp - 1 in
  take 1 digits ++ (if 1 <? len digits then lit "." ++ drop 1 digits else []) ++
  lit "E" ++ (if 0 <=? adj then lit "+" else []) ++ dec_of_Z adj.

Definition render (neg : bool) (digits : bytes) (pexp : Z) : bytes :=
  let digits := strip_leading digits in
  if forallb (is_char 48) digits then lit "0" else
  let '(rdigits, pexp) := pop_zeros (rev digits) pexp in
  let digits := rev rdigits in
  let body := match plain_body digits pexp with [] => scientific_body digits pexp | b => b end in
  (if neg then lit "-" else []) ++ body.

Definition normalize_number (s : bytes) : bytes :=
  match decimal s with
  | None => s
  | Some (neg, int_digits, frac_digits, exp) => render neg (int_digits ++ frac_digits) (exp - len frac_digits)
  end.

(** ** Values *)

(** Mantissa and exponent: the number is [m * 10^p]. *)
Definition number_value (s : bytes) : option (Z * Z) :=
  match decimal s with
  | None => None
  | Some (neg, ip, fp, exp) => Some ((if neg then -1 else 1) * parse_dec (ip ++ fp), exp - len fp)
  end.

Definition same_value (v w : Z * Z) : Prop := v.1 * 10 ^ (v.2 - Z.min v.2 w.2) = w.1 * 10 ^ (w.2 - Z.min v.2 w.2).

(** ** Digit strings *)

Abbreviation digits_only ds := (Forall (fun b => isdigit b = true) ds).

Lemma parse_dec_snoc ds d : parse_dec (ds ++ [d]) = 10 * parse_dec ds + digit_val d.
Proof. unfold parse_dec. by rewrite fold_left_app. Qed.

Lemma parse_dec_nonneg ds : digits_only ds -> 0 <= parse_dec ds.
Proof. intros H. by apply fold_digits_nonneg. Qed.

Lemma digit_val_range d : isdigit d = true -> 0 <= digit_val d < 10.
Proof. intros H. apply isdigit_range in H. unfold digit_val. lia. Qed.

Lemma digit_val_inj d e : digit_val d = digit_val e -> d = e.
Proof. unfold digit_val. intros H. rewrite <- (byte_of_bval d), <- (byte_of_bval e). f_equal. lia. Qed.

Lemma digit_zero d : isdigit d = true -> (is_char 48 d = true <-> digit_val d = 0).
Proof. intros H. unfold is_char, digit_val. rewrite Z.eqb_eq. lia. Qed.

Lemma fold_dec_acc ds : forall n, fold_left (fun n d => 10 * n + digit_val d) ds n = n * 10 ^ len ds + parse_dec ds.
Proof.
  unfold parse_dec. induction ds as [|d ds IH]; intros n; [unfold len; simpl; lia|]. cbn [fold_left]. rewrite (IH (10 * n + digit_val d)), (IH (10 * 0 + digit_val d)).
  rewrite len_cons, Z.pow_add_r by (pose proof (len_nonneg ds); lia). change (10 ^ 1) with 10. lia.
Qed.

Lemma parse_dec_cons d ds : parse_dec (d :: ds) = digit_val d * 10 ^ len ds + parse_dec ds.
Proof. unfold parse_dec at 1. cbn [fold_left]. rewrite fold_dec_acc. lia. Qed.

Lemma parse_dec_app a b : parse_dec (a ++ b) = parse_dec a * 10 ^ len b + parse_dec b.
Proof. unfold parse_dec at 1. rewrite fold_left_app. apply fold_dec_acc. Qed.

Lemma parse_dec_zeros n : parse_dec (zeros n) = 0.
Proof. unfold zeros. induction (Z.to_nat n) as [|k IH]; [done|]. cbn [replicate]. rewrite parse_dec_cons, IH. done. Qed.

Lemma zeros_digits n : digits_only (zeros n).
Proof. unfold zeros. induction (Z.to_nat n); simpl; constructor; auto. Qed.

Lemma len_zeros n : 0 <= n -> len (zeros n) = n.
Proof. intros. unfold zeros, len. rewrite length_replicate. lia. Qed.

(** No leading zero. *)
Definition lead_ok (ds : bytes) : Prop := match ds with c :: _ => is_char 48 c = false | [] => True end.

Lemma lead_positive ds : digits_only ds -> lead_ok ds -> ds <> [] -> 0 < parse_dec ds.
Proof.
  destruct ds as [|d ds]; [done|]. intros H Hl _. apply Forall_cons in H as [Hd H]. rewrite parse_dec_cons. pose proof (parse_dec_nonneg ds H).
  pose proof (digit_val_range d Hd). assert (digit_val d <> 0) by (intros E; apply digit_zero in E; [simpl in Hl; congruence|done]).
  assert (0 < 10 ^ len ds) by (apply Z.pow_pos_nonneg; [lia|apply len_nonneg]). nia.
Qed.

(** A number has one text without leading zeros. *)
Lemma digits_unique a : forall b, digits_only a -> digits_only b -> lead_ok a -> lead_ok b -> parse_dec a = parse_dec b -> a = b.
Proof.
  induction a as [|d a IH] using rev_ind; intros b Ha Hb Hla Hlb E.
  - destruct b as [|e b]; [done|]. pose proof (lead_positive (e :: b) Hb Hlb ltac:(done)). change (parse_dec []) with 0 in E. lia.
  - destruct b as [|e b _] using rev_ind.
    { pose proof (lead_positive _ Ha Hla ltac:(by destruct a)). change (parse_dec []) with 0 in E. lia. }
    rewrite !parse_dec_snoc in E. apply Forall_app in Ha as [Ha Hd]. apply Forall_app in Hb as [Hb He]. apply Forall_cons in Hd as [Hd _]. apply Forall_cons in He as [He _].
    pose proof (digit_val_range d Hd). pose proof (digit_val_range e He).
    assert (parse_dec a = parse_dec b /\ digit_val d = digit_val e) as [E1 E2%digit_val_inj] by lia. subst e. f_equal.
    apply IH; auto; [by destruct a|by destruct b].
Qed.

(** ** Stripping zeros *)

Lemma zero_digits ds : digits_only ds -> (forallb (is_char 48) ds = true <-> parse_dec ds = 0).
Proof.
  induction 1 as [|d ds Hd Hds IH]; [done|]. cbn [forallb]. rewrite parse_dec_cons, andb_true_iff, IH, (digit_zero d Hd).
  pose proof (parse_dec_nonneg ds Hds). pose proof (digit_val_range d Hd). assert (0 < 10 ^ len ds) by (apply Z.pow_pos_nonneg; [lia|apply len_nonneg]).
  split; [intros [-> ->]; lia|]. intros E. assert (0 <= digit_val d * 10 ^ len ds) by nia. split; nia.
Qed.

Lemma strip_leading_spec ds : digits_only ds -> parse_dec (strip_leading ds) = parse_dec ds /\ digits_only (strip_leading ds) /\
  (parse_dec ds <> 0 -> lead_ok (strip_leading ds) /\ strip_leading ds <> []).
Proof.
  induction 1 as [|d ds Hd Hds IH]; [done|]. cbn [strip_leading]. destruct ds as [|e ds].
  - split; [done|]. split; [by constructor|]. intros Hne. split; [|done]. simpl. destruct (is_char 48 d) eqn:E; [|done].
    exfalso. apply Hne. rewrite parse_dec_cons. apply digit_zero in E; [|done]. rewrite E. done.
  - destruct (is_char 48 d) eqn:E.
    + destruct IH as (E1 & E2 & E3). apply digit_zero in E; [|done]. rewrite (parse_dec_cons d), E, Z.mul_0_l, Z.add_0_l. done.
    + split; [done|]. split; [by constructor|]. intros _. split; [exact E|done].
Qed.

Lemma zeros_snoc k : 0 <= k -> zeros (k + 1) = byte_of 48 :: zeros k.
Proof. intros. unfold zeros. replace (Z.to_nat (k + 1)) with (S (Z.to_nat k)) by lia. done. Qed.

Lemma pop_zeros_spec rds : digits_only rds -> forall p, exists r k, pop_zeros rds p = (r, p + k) /\ 0 <= k /\ rds = zeros k ++ r /\
  (parse_dec (rev rds) <> 0 -> r <> [] /\ lead_ok r).
Proof.
  induction 1 as [|d ds Hd Hds IH]; intros p; [exists [], 0; split; [f_equal; lia|done]|].
  assert (Hstop : is_char 48 d = false \/ ds = [] -> exists r k, (d :: ds, p) = (r, p + k) /\ 0 <= k /\ d :: ds = zeros k ++ r /\
    (parse_dec (rev (d :: ds)) <> 0 -> r <> [] /\ lead_ok r)).
  { intros Hs. exists (d :: ds), 0. split; [f_equal; lia|]. split; [done|]. split; [done|]. intros Hne. split; [done|].
    destruct Hs as [?| ->]; [done|]. simpl. destruct (is_char 48 d) eqn:E; [|done]. exfalso. apply Hne. simpl.
    apply digit_zero in E; [|done]. rewrite parse_dec_cons, E. done. }
  cbn [pop_zeros]. destruct ds as [|e ds]; [apply Hstop; by right|]. destruct (is_char 48 d) eqn:E; [|apply Hstop; by left]. clear Hstop.
  destruct (IH (p + 1)) as (r & k & E1 & Hk & E2 & E3). exists r, (k + 1). split; [rewrite E1; f_equal; lia|]. split; [lia|]. split.
  - rewrite zeros_snoc by done. cbn [app]. f_equal; [|exact E2]. apply digit_val_inj. apply digit_zero in E; [|done]. by rewrite E.
  - intros Hne. apply E3. intros Hz. apply Hne. cbn [rev] in Hz |- *. rewrite parse_dec_snoc. apply digit_zero in E; [|done]. rewrite Hz, E. done.
Qed.

(** ** The canonical digits *)

Record canonical (ds : bytes) : Prop := {
  cn_digits : digits_only ds;
  cn_nonempty : ds <> [];
  cn_lead : lead_ok ds;
  cn_last : parse_dec ds mod 10 <> 0
}.

Definition body_of (ds : bytes) (q : Z) : bytes := match plain_body ds q with [] => scientific_body ds q | b => b end.
Definition sign_of (neg : bool) : bytes := if neg then lit "-" else [].

Lemma rev_zeros k : rev (zeros k) = zeros k.
Proof.
  unfold zeros. generalize (Z.to_nat k). clear k. intros n. induction n as [|n IH]; [done|]. cbn [replicate rev]. rewrite IH.
  clear. induction n as [|n IH]; [done|]. cbn [replicate app]. by rewrite IH.
Qed.

Lemma render_spec neg digits p : digits_only digits ->
  (parse_dec digits = 0 -> render neg digits p = lit "0") /\
  (parse_dec digits <> 0 -> exists ds q, render neg digits p = sign_of neg ++ body_of ds q /\ canonical ds /\ p <= q /\
     q <= p + len digits /\ len ds <= len digits /\ parse_dec digits = parse_dec ds * 10 ^ (q - p)).
Proof.
  intros Hd. destruct (strip_leading_spec digits Hd) as (E1 & H1 & H2).
  assert (Hlen : len (strip_leading digits) <= len digits).
  { clear. induction digits as [|c ds IH]; [done|]. cbn [strip_leading]. destruct ds as [|d ds]; [done|]. destruct (is_char 48 c); [|done]. rewrite (len_cons c). lia. }
  unfold render. destruct (forallb (is_char 48) (strip_leading digits)) eqn:Ez.
  { apply zero_digits in Ez; [|done]. split; [done|]. intros. congruence. }
  assert (Hne : parse_dec digits <> 0) by (rewrite <- E1; intros E; apply zero_digits in E; [congruence|done]).
  split; [done|]. intros _. destruct (H2 Hne) as [Hlead Hnn].
  destruct (pop_zeros_spec (rev (strip_leading digits)) ltac:(by apply Forall_rev) p) as (r & k & Ep & Hk & Er & Hr).
  rewrite rev_involutive in Hr. destruct Hr as [Hrn Hrl]; [congruence|]. rewrite Ep. exists (rev r), (p + k). split; [done|].
  assert (Es : strip_leading digits = rev r ++ zeros k) by (rewrite <- (rev_involutive (strip_leading digits)), Er, rev_app_distr; by rewrite rev_zeros).
  assert (Hdr : digits_only (rev r)) by (rewrite Es in H1; by apply Forall_app in H1 as [? _]).
  rewrite Es in Hlen. rewrite len_app, len_zeros in Hlen by done. pose proof (len_nonneg (rev r)).
  split; [|split; [lia|split; [lia|split; [lia|]]]].
  - split; [done| | |].
    + intros E. apply Hrn. apply (f_equal (@rev byte)) in E. by rewrite rev_involutive in E.
    + rewrite Es in Hlead. destruct (rev r) eqn:E; [|exact Hlead]. apply (f_equal (@rev byte)) in E. rewrite rev_involutive in E. done.
    + destruct r as [|c r]; [done|]. cbn [rev] in *. rewrite parse_dec_snoc. apply Forall_app in Hdr as [_ Hc]. apply Forall_cons in Hc as [Hc _].
      pose proof (digit_val_range c Hc). replace (10 * parse_dec (rev r) + digit_val c) with (digit_val c + parse_dec (rev r) * 10) by lia.
      rewrite Z.mod_add, Z.mod_small by lia. intros E. apply digit_zero in E; [|done]. simpl in Hrl. congruence.
  - rewrite <- E1, Es, parse_dec_app, parse_dec_zeros, len_zeros by done. replace (p + k - p) with k by lia. lia.
Qed.

(** Equal values have equal canonical digits. *)
Lemma canonical_unique a b p q (s t : Z) : canonical a -> canonical b -> s * s = 1 -> t * t = 1 ->
  same_value (s * parse_dec a, p) (t * parse_dec b, q) -> a = b /\ p = q /\ s = t.
Proof.
  intros [A1 A2 A3 A4] [B1 B2 B3 B4] Hs Ht. unfold same_value. cbn [fst snd]. pose proof (lead_positive a A1 A3 A2). pose proof (lead_positive b B1 B3 B2).
  assert (s = 1 \/ s = -1) by nia. assert (t = 1 \/ t = -1) by nia.
  assert (Hpow : forall k, 0 <= k -> 0 < 10 ^ k) by (intros; by apply Z.pow_pos_nonneg).
  assert (Hmod : forall x y k, 0 < k -> x = y * 10 ^ k -> x mod 10 = 0).
  { intros x y k Hk ->. replace (10 ^ k) with (10 * 10 ^ (k - 1)) by (rewrite <- (Z.pow_succ_r 10) by lia; f_equal; lia).
    replace (y * (10 * 10 ^ (k - 1))) with (y * 10 ^ (k - 1) * 10) by lia. apply Z.mod_mul. lia. }
  destruct (Z.le_ge_cases p q) as [Hle|Hle].
  - rewrite Z.min_l by done. rewrite Z.sub_diag, Z.pow_0_r, Z.mul_1_r. intros E. specialize (Hpow (q - p) ltac:(lia)).
    assert (E1 : s = t /\ parse_dec a = parse_dec b * 10 ^ (q - p)) by (destruct H1 as [-> | ->], H2 as [-> | ->]; nia). destruct E1 as [-> E1].
    destruct (Z.eq_dec p q) as [->|Hne]; [|exfalso; apply A4; apply (Hmod _ (parse_dec b) (q - p)); [lia|done]].
    rewrite Z.sub_diag, Z.pow_0_r, Z.mul_1_r in E1. split; [|done]. by apply digits_unique.
  - rewrite Z.min_r by done. rewrite Z.sub_diag, Z.pow_0_r, Z.mul_1_r. intros E. specialize (Hpow (p - q) ltac:(lia)).
    assert (E1 : s = t /\ parse_dec b = parse_dec a * 10 ^ (p - q)) by (destruct H1 as [-> | ->], H2 as [-> | ->]; nia). destruct E1 as [-> E1].
    destruct (Z.eq_dec p q) as [->|Hne]; [|exfalso; apply B4; apply (Hmod _ (parse_dec a) (p - q)); [lia|done]].
    rewrite Z.sub_diag, Z.pow_0_r, Z.mul_1_r in E1. split; [|done]. by apply digits_unique.
Qed.

(** ** Equality of values *)

Lemma same_value_at m v w : m <= v.2 -> m <= w.2 -> same_value v w <-> v.1 * 10 ^ (v.2 - m) = w.1 * 10 ^ (w.2 - m).
Proof.
  intros Hv Hw. unfold same_value. set (n := Z.min v.2 w.2). replace (v.2 - m) with ((v.2 - n) + (n - m)) by lia.
  replace (w.2 - m) with ((w.2 - n) + (n - m)) by lia. rewrite !Z.pow_add_r by lia. assert (0 < 10 ^ (n - m)) by (apply Z.pow_pos_nonneg; lia).
  rewrite !Z.mul_assoc. split; [by intros ->|]. intros E. by apply Z.mul_cancel_r in E; [|lia].
Qed.

#[global] Instance same_value_equivalence : Equivalence same_value.
Proof.
  split.
  - intros v. done.
  - intros v w. unfold same_value. rewrite (Z.min_comm w.2 v.2). by intros ->.
  - intros u v w H1 H2. set (m := Z.min (Z.min u.2 v.2) w.2). apply (same_value_at m) in H1, H2; try lia. apply (same_value_at m); [lia|lia|]. congruence.
Qed.

Lemma same_value_scale m k p : 0 <= k -> same_value (m * 10 ^ k, p) (m, p + k).
Proof. intros Hk. apply (same_value_at p); simpl; [lia|lia|]. rewrite Z.sub_diag. replace (p + k - p) with k by lia. lia. Qed.

Lemma same_value_zero v w : same_value v w -> v.1 = 0 <-> w.1 = 0.
Proof.
  unfold same_value. set (n := Z.min v.2 w.2). intros E. assert (0 < 10 ^ (v.2 - n)) by (apply Z.pow_pos_nonneg; lia).
  assert (0 < 10 ^ (w.2 - n)) by (apply Z.pow_pos_nonneg; lia). split; intros E0; rewrite E0 in E; nia.
Qed.

Lemma decimal_digits s neg ip fp ex : decimal s = Some (neg, ip, fp, ex) -> digits_only (ip ++ fp).
Proof.
  unfold decimal. intros H. apply Forall_app.
  destruct (match s with [] => _ | _ => _ end) as [n r]. pose proof (span_class isdigit r) as Hi. destruct (span isdigit r) as [i r1]. cbn [fst] in Hi.
  assert (Hf : digits_only (match r1 with c :: r' => if is_char 46 c then span isdigit r' else ([], r1) | [] => ([], r1) end).1).
  { destruct r1 as [|c r']; [constructor|]. destruct (is_char 46 c); [apply span_class|constructor]. }
  destruct (match r1 with [] => _ | _ => _ end) as [f r2]. cbn [fst] in Hf.
  destruct i, f; try done; (destruct (read_exponent r2) as [[e [|]]|]; try done); injection H as <- <- <- <-; done.
Qed.

Definition sign_value (neg : bool) : Z := if neg then -1 else 1.

Lemma sign_square neg : sign_value neg * sign_value neg = 1.
Proof. by destruct neg. Qed.

(** What [normalize_number] makes of a number. *)
Lemma normalize_cases s v : number_value s = Some v ->
  (v.1 = 0 /\ normalize_number s = lit "0") \/
  exists neg ds q, normalize_number s = sign_of neg ++ body_of ds q /\ canonical ds /\ same_value v (sign_value neg * parse_dec ds, q).
Proof.
  unfold number_value, normalize_number. destruct (decimal s) as [[[[neg ip] fp] ex]|] eqn:E; [|done]. intros [= <-]. apply decimal_digits in E.
  destruct (render_spec neg (ip ++ fp) (ex - len fp) E) as [Hz Hn]. cbn [fst]. destruct (Z.eq_dec (parse_dec (ip ++ fp)) 0) as [E0|E0].
  - left. rewrite E0. split; [by destruct neg|by apply Hz].
  - right. destruct (Hn E0) as (ds & q & -> & Hc & Hpq & _ & _ & Hv). exists neg, ds, q. split; [done|]. split; [done|]. rewrite Hv. fold (sign_value neg).
    rewrite Z.mul_assoc. replace q with (ex - len fp + (q - (ex - len fp))) at 2 by lia. apply same_value_scale. lia.
Qed.

(** ** Reading the canonical text back *)

Lemma exponent_loop_exact ed : digits_only ed -> forall n, 0 <= n -> n * 10 ^ len ed + parse_dec ed <= 100000 ->
  exponent_loop ed n = n * 10 ^ len ed + parse_dec ed.
Proof.
  induction 1 as [|d ds Hd Hds IH]; intros n Hn Hle; [unfold len, parse_dec; simpl; lia|]. cbn [exponent_loop]. rewrite len_cons, parse_dec_cons in *.
  pose proof (digit_val_range d Hd). pose proof (parse_dec_nonneg ds Hds). pose proof (len_nonneg ds). rewrite Z.pow_add_r in * by lia. change (10 ^ 1) with 10 in *.
  assert (1 <= 10 ^ len ds) by (pose proof (Z.pow_pos_nonneg 10 (len ds)); lia).
  destruct (Z.ltb_spec 100000 (n * 10 + digit_val d)); [nia|]. rewrite IH by nia. lia.
Qed.

Definition not_mantissa (s : bytes) : Prop := match s with c :: _ => isdigit c = false /\ is_char 46 c = false | [] => True end.

Lemma span_stop p r : digits_only p -> (match r with c :: _ => isdigit c = false | [] => True end) -> span isdigit (p ++ r) = (p, r).
Proof. intros Hp Hr. destruct r as [|c r]; [rewrite app_nil_r; by apply span_all|by apply span_prefix]. Qed.

Lemma decimal_text neg ip (dot : bool) fp et ex : digits_only ip -> ip <> [] -> digits_only fp -> (dot = false -> fp = []) ->
  read_exponent et = Some (ex, []) -> not_mantissa et ->
  decimal (sign_of neg ++ ip ++ (if dot then lit "." else []) ++ fp ++ et) = Some (neg, ip, fp, ex).
Proof.
  intros Hi Hne Hf Hdot Hex Het. destruct ip as [|d ip]; [done|]. assert (Hd : isdigit d = true) by by inversion Hi.
  unfold decimal, sign_of.
  assert (Hsign : is_char 43 d = false /\ is_char 45 d = false) by (apply isdigit_range in Hd; unfold is_char; split; apply Z.eqb_neq; lia).
  assert (Hrest : forall r, r = (d :: ip) ++ (if dot then lit "." else []) ++ fp ++ et ->
    (let '(int_digits, r) := span isdigit r in
     let '(frac_digits, r) := match r with c :: r' => if is_char 46 c then span isdigit r' else ([], r) | [] => ([], r) end in
     match int_digits, frac_digits with
     | [], [] => None
     | _, _ => match read_exponent r with Some (exp, []) => Some (neg, int_digits, frac_digits, exp) | _ => None end
     end) = Some (neg, d :: ip, fp, ex)).
  { intros r ->. rewrite span_stop; [|done|]; [|destruct dot; [done|]; rewrite Hdot by done; simpl; destruct et as [|c et]; [done|apply Het]].
    destruct dot.
    - change (lit ".") with [Byte.x2e]. cbn [app]. change (is_char 46 Byte.x2e) with true. cbv iota. rewrite span_stop; [by rewrite Hex|done|]. destruct et as [|c et]; [done|apply Het].
    - rewrite Hdot by done. cbn [app]. destruct et as [|c et]; [by rewrite Hex|]. destruct Het as [_ ->]. by rewrite Hex. }
  destruct neg; cbn [app].
  - change (lit "-") with [Byte.x2d]. cbn [app]. change (is_char 43 Byte.x2d) with false. change (is_char 45 Byte.x2d) with true. cbv iota. by apply Hrest.
  - destruct Hsign as [-> ->]. by apply Hrest.
Qed.

Lemma read_exponent_text adj : -100000 <= adj <= 100000 ->
  let et := lit "E" ++ (if 0 <=? adj then lit "+" else []) ++ dec_of_Z adj in
  read_exponent et = Some (adj, []) /\ not_mantissa et.
Proof.
  intros Hr et. split; [|done]. unfold et, read_exponent, dec_of_Z. change (lit "E") with [Byte.x45]. cbn [app]. change (is_char 101 Byte.x45 || is_char 69 Byte.x45) with true.
  cbv iota. assert (Hgo : forall n, 0 <= n <= 100000 -> span isdigit (dec_of_nonneg n) = (dec_of_nonneg n, []) /\ dec_of_nonneg n <> [] /\ exponent_loop (dec_of_nonneg n) 0 = n).
  { intros n Hn. pose proof (dec_of_isdigit n ltac:(lia)) as Hd. pose proof (parse_dec_of n ltac:(lia)) as Hp. split; [by apply span_all|]. split; [apply dec_of_nonempty|].
    rewrite exponent_loop_exact by (done || lia). lia. }
  destruct (Z.leb_spec 0 adj) as [H0|H0].
  - destruct (Z.ltb_spec adj 0); [lia|]. change (lit "+") with [Byte.x2b]. cbn [app]. change (is_char 43 Byte.x2b || is_char 45 Byte.x2b) with true. change (is_char 45 Byte.x2b) with false.
    cbv iota. destruct (Hgo adj ltac:(lia)) as (-> & Hne & ->). by destruct (dec_of_nonneg adj).
  - destruct (Z.ltb_spec adj 0); [|lia]. change (lit "-") with [Byte.x2d]. cbn [app]. change (is_char 43 Byte.x2d || is_char 45 Byte.x2d) with true. change (is_char 45 Byte.x2d) with true.
    cbv iota. destruct (Hgo (- adj) ltac:(lia)) as (-> & Hne & ->). destruct (dec_of_nonneg (- adj)); [done|]. do 2 f_equal. lia.
Qed.

(** The text [t] reads as the value [v]. *)
Definition reads_as (t : bytes) (v : Z * Z) : Prop := exists v', match decimal t with
  | Some (neg, ip, fp, exp) => Some ((if neg then -1 else 1) * parse_dec (ip ++ fp), exp - len fp) | None => None end = Some v' /\ same_value v' v.

Lemma scientific_value neg ds q : canonical ds -> -100000 <= len ds + q - 1 <= 100000 -> reads_as (sign_of neg ++ scientific_body ds q) (sign_value neg * parse_dec ds, q).
Proof.
  intros [Hd Hne _ _] Hr. assert (Hlen : 0 < len ds) by (destruct ds; [done|]; rewrite len_cons; pose proof (len_nonneg ds); lia). unfold reads_as.
  unfold scientific_body. destruct (read_exponent_text (len ds + q - 1) Hr) as [Hex Hnm]. set (et := lit "E" ++ _) in *.
  assert (Edot : (if 1 <? len ds then lit "." ++ drop 1 ds else []) ++ et = (if 1 <? len ds then lit "." else []) ++ drop 1 ds ++ et).
  { destruct (Z.ltb_spec 1 (len ds)); [by rewrite <- app_assoc|]. destruct ds as [|d [|e ds]]; [done|done|]. unfold len in *. simpl in *. lia. }
  rewrite Edot. rewrite decimal_text with (ex := len ds + q - 1).
  - eexists. split; [reflexivity|]. rewrite take_drop. replace (len ds + q - 1 - len (drop 1 ds)) with q by (unfold len in *; rewrite length_drop; lia). done.
  - by apply Forall_take.
  - by destruct ds.
  - by apply Forall_drop.
  - intros E. apply Z.ltb_ge in E. destruct ds as [|d [|e ds]]; [done|done|]. unfold len in E. simpl in E. lia.
  - exact Hex.
  - exact Hnm.
Qed.

Lemma plain_value neg ds q ip (dot : bool) fp m : digits_only ip -> ip <> [] -> digits_only fp -> (dot = false -> fp = []) ->
  plain_body ds q = ip ++ (if dot then lit "." else []) ++ fp -> parse_dec (ip ++ fp) = m -> same_value (sign_value neg * m, - len fp) (sign_value neg * parse_dec ds, q) ->
  reads_as (sign_of neg ++ match plain_body ds q with [] => scientific_body ds q | b => b end) (sign_value neg * parse_dec ds, q).
Proof.
  assert (Hnil : read_exponent [] = Some (0, [])) by done.
  intros H1 H2 H3 H4 E Em Hv. assert (Enz : match plain_body ds q with [] => scientific_body ds q | b => b end = ip ++ (if dot then lit "." else []) ++ fp ++ []).
  { rewrite E, app_nil_r. by destruct ip. }
  unfold reads_as. rewrite Enz, (decimal_text neg ip dot fp [] 0) by done. eexists. split; [reflexivity|]. rewrite Em. exact Hv.
Qed.

Lemma body_value neg ds q : canonical ds -> -100000 <= len ds + q - 1 <= 100000 ->
  exists v, number_value (sign_of neg ++ body_of ds q) = Some v /\ same_value v (sign_value neg * parse_dec ds, q).
Proof.
  intros Hcan Hr. pose proof Hcan as [Hd Hne _ _]. unfold body_of, number_value. fold (sign_value neg).
  assert (Hlen : 0 < len ds) by (destruct ds; [done|]; rewrite len_cons; pose proof (len_nonneg ds); lia).
  assert (Hsci := scientific_value neg ds q Hcan Hr). unfold reads_as in Hsci. pose proof (plain_value neg ds q) as Hplain. unfold reads_as in Hplain.
  unfold plain_body in *. destruct (Z.leb_spec 0 q) as [H0|H0].
  - destruct (Z.leb_spec q kMaxPlain); [|exact Hsci]. apply (Hplain (ds ++ zeros q) false [] (parse_dec ds * 10 ^ q)).
    + apply Forall_app. split; [done|apply zeros_digits].
    + by destruct ds.
    + constructor.
    + done.
    + by rewrite !app_nil_r.
    + rewrite app_nil_r, parse_dec_app, parse_dec_zeros, len_zeros by done. lia.
    + rewrite Z.mul_assoc. change (- len []) with 0. by apply (same_value_scale _ q 0).
  - destruct (Z.ltb_spec 0 (len ds + q)) as [Hp|Hp].
    + apply (Hplain (take (Z.to_nat (len ds + q)) ds) true (drop (Z.to_nat (len ds + q)) ds) (parse_dec ds)); [by apply Forall_take| |by apply Forall_drop|done|done| |].
      * intros E. apply (f_equal length) in E. rewrite length_take in E. unfold len in *. simpl in E. lia.
      * by rewrite take_drop.
      * replace (- len (drop (Z.to_nat (len ds + q)) ds)) with q; [done|]. unfold len in *. rewrite length_drop. lia.
    + destruct (Z.leb_spec (- (len ds + q)) kMaxPlain); [|exact Hsci].
      apply (Hplain (lit "0") true (zeros (- (len ds + q)) ++ ds) (parse_dec ds)); [repeat constructor|done| |done|done| |].
      * apply Forall_app. split; [apply zeros_digits|done].
      * rewrite !parse_dec_app, parse_dec_zeros. change (parse_dec (lit "0")) with 0. lia.
      * rewrite len_app, len_zeros by lia. replace (- (- (len ds + q) + len ds)) with q by lia. done.
Qed.

(** ** Properties *)

(** The exponent and the number of digits are within what the exponent loop
    reads exactly. *)
Definition moderate (s : bytes) : bool :=
  match decimal s with
  | None => true
  | Some (_, ip, fp, ex) => (Z.abs ex + 2 * len (ip ++ fp) <? 100000)
  end.

(** Texts of equal value have one canonical text. *)
Lemma normalize_same s t v w : number_value s = Some v -> number_value t = Some w -> same_value v w -> normalize_number s = normalize_number t.
Proof.
  intros Hs Ht Hvw. destruct (normalize_cases s v Hs) as [[Hv Es]|(n1 & d1 & q1 & Es & C1 & V1)], (normalize_cases t w Ht) as [[Hw Et]|(n2 & d2 & q2 & Et & C2 & V2)].
  - congruence.
  - exfalso. pose proof (lead_positive d2 (cn_digits _ C2) (cn_lead _ C2) (cn_nonempty _ C2)). apply (same_value_zero _ _ Hvw) in Hv. apply (same_value_zero _ _ V2) in Hv.
    simpl in Hv. destruct n2; simpl in Hv; lia.
  - exfalso. pose proof (lead_positive d1 (cn_digits _ C1) (cn_lead _ C1) (cn_nonempty _ C1)). apply (same_value_zero _ _ Hvw) in Hw. apply (same_value_zero _ _ V1) in Hw.
    simpl in Hw. destruct n1; simpl in Hw; lia.
  - assert (Hx : same_value (sign_value n1 * parse_dec d1, q1) (sign_value n2 * parse_dec d2, q2)) by (etransitivity; [symmetry; exact V1|]; etransitivity; [exact Hvw|exact V2]).
    destruct (canonical_unique _ _ _ _ _ _ C1 C2 (sign_square n1) (sign_square n2) Hx) as (-> & -> & E). assert (n1 = n2) as -> by (destruct n1, n2; done). congruence.
Qed.

(** The canonical text has the value of the text. *)
Lemma normalize_value s v : number_value s = Some v -> moderate s = true ->
  exists w, number_value (normalize_number s) = Some w /\ same_value w v.
Proof.
  unfold number_value at 1, moderate, normalize_number. destruct (decimal s) as [[[[neg ip] fp] ex]|] eqn:E; [|done]. intros [= <-] Hm. apply Z.ltb_lt in Hm.
  apply decimal_digits in E. destruct (render_spec neg (ip ++ fp) (ex - len fp) E) as [Hz Hn]. fold (sign_value neg).
  destruct (Z.eq_dec (parse_dec (ip ++ fp)) 0) as [E0|E0].
  - rewrite (Hz E0). exists (0, 0). split; [reflexivity|]. rewrite E0, Z.mul_0_r. unfold same_value. simpl. lia.
  - destruct (Hn E0) as (ds & q & -> & Hc & Hpq & Hq & Hl & Hv). rewrite len_app in *. pose proof (len_nonneg ip). pose proof (len_nonneg fp). pose proof (len_nonneg ds).
    destruct (body_value neg ds q Hc) as (w & Hw & Hsw); [lia|]. exists w. split; [done|]. etransitivity; [exact Hsw|]. symmetry. rewrite Hv.
    rewrite Z.mul_assoc. replace q with (ex - len fp + (q - (ex - len fp))) at 2 by lia. apply same_value_scale. lia.
Qed.

Lemma normalize_idempotent s : moderate s = true -> normalize_number (normalize_number s) = normalize_number s.
Proof.
  intros Hm. destruct (number_value s) as [v|] eqn:E.
  - destruct (normalize_value s v E Hm) as (w & Hw & Hs). by apply (normalize_same _ _ w v).
  - unfold number_value in E. unfold normalize_number at 2 3. destruct (decimal s) as [[[[? ?] ?] ?]|] eqn:Ed; [done|]. unfold normalize_number. by rewrite Ed.
Qed.

(** Canonical numbers.  For number texts with exponents of moderate size the
    canonical text denotes the same number (exactly, however many digits), two
    texts have the same canonical text exactly when they denote the same number,
    and canonical texts are left as they are. *)
Theorem canonical_numbers s t v w :
  number_value s = Some v -> number_value t = Some w -> moderate s = true -> moderate t = true ->
  (normalize_number s = normalize_number t <-> same_value v w) /\
  (exists v', number_value (normalize_number s) = Some v' /\ same_value v' v) /\
  normalize_number (normalize_number s) = normalize_number s.
Proof.
  intros Hs Ht Ms Mt. destruct (normalize_value s v Hs Ms) as (v' & Hv' & Sv), (normalize_value t w Ht Mt) as (w' & Hw' & Sw).
  split; [split|split; [by exists v'|by apply normalize_idempotent]].
  - intros E. rewrite E, Hw' in Hv'. injection Hv' as ->. etransitivity; [symmetry; exact Sv|exact Sw].
  - by apply normalize_same.
Qed.

Lemma canonical_numbers_witness :
  normalize_number (lit "+0150.0e-1") = normalize_number (lit "15") /\ normalize_number (lit "15") = lit "15" /\
  normalize_number (lit "-1e50") = lit "-1E+50".
Proof.
  split; [|split; vm_compute; reflexivity].
  apply (canonical_numbers (lit "+0150.0e-1") (lit "15") (1500, -2) (15, 0)); vm_compute; reflexivity.
Defined.

End NumberText.
