(* ===== verification/Base64.v ===== *)
(** * Base64

    [include/cynamodb/utils/base64.hpp]: RFC 4648 base64 with padding, in which
    binary attribute values travel in JSON.  The loops over groups of three octets
    and of four characters are structural recursions. *)

From Stdlib Require Import ZArith Lia Strings.String.
From stdpp Require Import prelude.
From S2P Require Import Prelude.

Module Base64.

Definition kTable : bytes := lit "ABCDEFGHIJKLMNOPQRSTUVWXYZabcdefghijklmnopqrstuvwxyz0123456789+/".

(** [kTable[v]] *)
Definition table (v : Z) : byte := default Byte.x00 (kTable !! Z.to_nat v).

Definition pad : byte := Byte.x3d.

Fixpoint base64_encode (data : bytes) : bytes :=
  match data with
  | a :: b :: c :: rest =>
      let n := Z.lor (Z.lor (Z.shiftl (bval a) 16) (Z.shiftl (bval b) 8)) (bval c) in
      table (Z.land (Z.shiftr n 18) 63) :: table (Z.land (Z.shiftr n 12) 63) ::
      table (Z.land (Z.shiftr n 6) 63) :: table (Z.land n 63) :: base64_encode rest
  | [a; b] =>
      let n := Z.lor (Z.shiftl (bval a) 16) (Z.shiftl (bval b) 8) in
      [table (Z.land (Z.shiftr n 18) 63); table (Z.land (Z.shiftr n 12) 63); table (Z.land (Z.shiftr n 6) 63); pad]
  | [a] =>
      let n := Z.shiftl (bval a) 16 in
      [table (Z.land (Z.shiftr n 18) 63); table (Z.land (Z.shiftr n 12) 63); pad; pad]
  | [] => []
  end.

Definition in_range (lo hi c : Z) : bool := (lo <=? c) && (c <=? hi).

Definition decode_char (c : byte) : Z :=
  let c := bval c in
  if in_range 65 90 c then c - 65
  else if in_range 97 122 c then c - 97 + 26
  else if in_range 48 57 c then c - 48 + 52
  else if c =? 43 then 62
  else if c =? 47 then 63
  else -1.

(** The body of the loop, with whether this is the last group. *)
Definition decode_group (c0 c1 c2 c3 : byte) (is_last : bool) : option bytes :=
  let v0 := decode_char c0 in
  let v1 := decode_char c1 in
  if (v0 <? 0) || (v1 <? 0) then None
  else
    let pad2 := bool_decide (c2 = pad) in
    let pad3 := bool_decide (c3 = pad) in
    if pad2 && negb pad3 then None
    else if (pad2 || pad3) && negb is_last then None
    else
      let o0 := byte_of (Z.lor (Z.shiftl v0 2) (Z.shiftr v1 4)) in
      if pad2 then Some [o0]
      else
        let v2 := decode_char c2 in
        if v2 <? 0 then None
        else
          let o1 := byte_of (Z.lor (Z.shiftl (Z.land v1 15) 4) (Z.shiftr v2 2)) in
          if pad3 then Some [o0; o1]
          else
            let v3 := decode_char c3 in
            if v3 <? 0 then None
            else Some [o0; o1; byte_of (Z.lor (Z.shiftl (Z.land v2 3) 6) v3)].

Fixpoint decode_loop (input : bytes) : option bytes :=
  match input with
  | c0 :: c1 :: c2 :: c3 :: rest =>
      match decode_group c0 c1 c2 c3 (bool_decide (rest = [])) with
      | Some out => match decode_loop rest with Some out' => Some (out ++ out') | None => None end
      | None => None
      end
  | _ => Some []
  end.

Definition base64_decode (input : bytes) : option bytes :=
  if len input mod 4 =? 0 then decode_loop input else None.

(** ** Characters *)

Lemma decode_table v : 0 <= v < 64 -> decode_char (table v) = v /\ table v <> pad.
Proof.
  intros Hv. assert (Hall : forallb (fun v => (decode_char (table v) =? v) && negb (bool_decide (table v = pad))) (map Z.of_nat (seq 0 64)) = true) by (vm_compute; reflexivity).
  rewrite List.forallb_forall in Hall. specialize (Hall v). rewrite andb_true_iff, Z.eqb_eq, negb_true_iff, bool_decide_eq_false in Hall. apply Hall.
  apply in_map_iff. exists (Z.to_nat v). split; [lia|]. apply in_seq. lia.
Qed.

Lemma decode_char_range c : -1 <= decode_char c < 64.
Proof.
  unfold decode_char, in_range. repeat (match goal with |- context [if ?b then _ else _] => destruct b eqn:? end); try lia;
  rewrite andb_true_iff, !Z.leb_le in *; lia.
Qed.

(** ** Groups as arithmetic *)

Lemma group3 a b c : 0 <= a < 256 -> 0 <= b < 256 -> 0 <= c < 256 ->
  let n := Z.lor (Z.lor (Z.shiftl a 16) (Z.shiftl b 8)) c in
  Z.land (Z.shiftr n 18) 63 = a / 4 /\ Z.land (Z.shiftr n 12) 63 = a mod 4 * 16 + b / 16 /\
  Z.land (Z.shiftr n 6) 63 = b mod 16 * 4 + c / 64 /\ Z.land n 63 = c mod 64.
Proof.
  intros Ha Hb Hc n. assert (En : n = a * 65536 + b * 256 + c).
  { subst n. rewrite !shiftl_mul by lia. rewrite (lor_field a (b * 2 ^ 8) 16) by lia.
    replace (a * 2 ^ 16 + b * 2 ^ 8) with ((a * 256 + b) * 2 ^ 8) by lia. rewrite lor_field by lia. lia. }
  change 63 with (2 ^ 6 - 1). rewrite !land_low, !shiftr_div by lia. rewrite En. clear n En.
  change (2 ^ 18) with 262144. change (2 ^ 12) with 4096. change (2 ^ 6) with 64. zlia.
Qed.

Lemma ungroup v0 v1 v2 v3 : 0 <= v0 < 64 -> 0 <= v1 < 64 -> 0 <= v2 < 64 -> 0 <= v3 < 64 ->
  Z.lor (Z.shiftl v0 2) (Z.shiftr v1 4) = v0 * 4 + v1 / 16 /\
  Z.lor (Z.shiftl (Z.land v1 15) 4) (Z.shiftr v2 2) = v1 mod 16 * 16 + v2 / 4 /\
  Z.lor (Z.shiftl (Z.land v2 3) 6) v3 = v2 mod 4 * 64 + v3.
Proof.
  intros H0 H1 H2 H3. change 15 with (2 ^ 4 - 1). change 3 with (2 ^ 2 - 1). rewrite !land_low, !shiftl_mul, !shiftr_div by lia.
  rewrite (lor_field v0), (lor_field (v1 mod 2 ^ 4)), (lor_field (v2 mod 2 ^ 2)).
  all: change (2 ^ 4) with 16; change (2 ^ 2) with 4; zlia.
Qed.

Lemma byte_of_eq b z : z = bval b -> byte_of z = b.
Proof. intros ->. apply byte_of_bval. Qed.

(** ** Round trip *)

Lemma decode_group3 a b c is_last :
  let n := Z.lor (Z.lor (Z.shiftl (bval a) 16) (Z.shiftl (bval b) 8)) (bval c) in
  decode_group (table (Z.land (Z.shiftr n 18) 63)) (table (Z.land (Z.shiftr n 12) 63))
    (table (Z.land (Z.shiftr n 6) 63)) (table (Z.land n 63)) is_last = Some [a; b; c].
Proof.
  pose proof (bval_bound a) as Ha. pose proof (bval_bound b) as Hb. pose proof (bval_bound c) as Hc. intros n.
  destruct (group3 _ _ _ Ha Hb Hc) as (E0 & E1 & E2 & E3). fold n in E0, E1, E2, E3. rewrite E0, E1, E2, E3.
  set (v0 := bval a / 4) in *. set (v1 := bval a mod 4 * 16 + bval b / 16) in *. set (v2 := bval b mod 16 * 4 + bval c / 64) in *. set (v3 := bval c mod 64) in *.
  assert (H0 : 0 <= v0 < 64) by (subst v0; zlia). assert (H1 : 0 <= v1 < 64) by (subst v1; zlia).
  assert (H2 : 0 <= v2 < 64) by (subst v2; zlia). assert (H3 : 0 <= v3 < 64) by (subst v3; zlia).
  destruct (decode_table v0 H0) as [D0 _]. destruct (decode_table v1 H1) as [D1 _]. destruct (decode_table v2 H2) as [D2 P2]. destruct (decode_table v3 H3) as [D3 P3].
  unfold decode_group. rewrite D0, D1, D2, D3, !bool_decide_eq_false_2 by done. destruct (ungroup v0 v1 v2 v3) as (U0 & U1 & U2); try done. rewrite U0, U1, U2.
  destruct (Z.ltb_spec v0 0); [lia|]. destruct (Z.ltb_spec v1 0); [lia|]. destruct (Z.ltb_spec v2 0); [lia|]. destruct (Z.ltb_spec v3 0); [lia|]. cbn [orb andb].
  rewrite (byte_of_eq a), (byte_of_eq b), (byte_of_eq c); [done| | |]; subst v0 v1 v2 v3; zlia.
Qed.

Lemma decode_group2 a b :
  let n := Z.lor (Z.shiftl (bval a) 16) (Z.shiftl (bval b) 8) in
  decode_group (table (Z.land (Z.shiftr n 18) 63)) (table (Z.land (Z.shiftr n 12) 63)) (table (Z.land (Z.shiftr n 6) 63)) pad true = Some [a; b].
Proof.
  pose proof (bval_bound a) as Ha. pose proof (bval_bound b) as Hb. intros n.
  destruct (group3 _ _ 0 Ha Hb ltac:(lia)) as (E0 & E1 & E2 & _). rewrite Z.lor_0_r in E0, E1, E2. fold n in E0, E1, E2. rewrite E0, E1, E2.
  change (0 / 64) with 0. rewrite Z.add_0_r.
  set (v0 := bval a / 4) in *. set (v1 := bval a mod 4 * 16 + bval b / 16) in *. set (v2 := bval b mod 16 * 4) in *.
  assert (H0 : 0 <= v0 < 64) by (subst v0; zlia). assert (H1 : 0 <= v1 < 64) by (subst v1; zlia). assert (H2 : 0 <= v2 < 64) by (subst v2; zlia).
  destruct (decode_table v0 H0) as [D0 _]. destruct (decode_table v1 H1) as [D1 _]. destruct (decode_table v2 H2) as [D2 P2].
  unfold decode_group. rewrite D0, D1, D2, (bool_decide_eq_false_2 _ P2), bool_decide_eq_true_2 by done. destruct (ungroup v0 v1 v2 0) as (U0 & U1 & _); try done. rewrite U0, U1.
  destruct (Z.ltb_spec v0 0); [lia|]. destruct (Z.ltb_spec v1 0); [lia|]. destruct (Z.ltb_spec v2 0); [lia|]. cbn [orb andb negb].
  rewrite (byte_of_eq a), (byte_of_eq b); [done| |]; subst v0 v1 v2; zlia.
Qed.

Lemma decode_group1 a :
  let n := Z.shiftl (bval a) 16 in
  decode_group (table (Z.land (Z.shiftr n 18) 63)) (table (Z.land (Z.shiftr n 12) 63)) pad pad true = Some [a].
Proof.
  pose proof (bval_bound a) as Ha. intros n.
  destruct (group3 _ 0 0 Ha ltac:(lia) ltac:(lia)) as (E0 & E1 & _). rewrite Z.lor_0_r, Z.shiftl_0_l, Z.lor_0_r in E0, E1. fold n in E0, E1. rewrite E0, E1.
  change (0 / 16) with 0. rewrite Z.add_0_r.
  set (v0 := bval a / 4) in *. set (v1 := bval a mod 4 * 16) in *.
  assert (H0 : 0 <= v0 < 64) by (subst v0; zlia). assert (H1 : 0 <= v1 < 64) by (subst v1; zlia).
  destruct (decode_table v0 H0) as [D0 _]. destruct (decode_table v1 H1) as [D1 _].
  unfold decode_group. rewrite D0, D1. destruct (ungroup v0 v1 0 0) as (U0 & _ & _); try done. rewrite U0.
  destruct (Z.ltb_spec v0 0); [lia|]. destruct (Z.ltb_spec v1 0); [lia|]. cbn [orb].
  rewrite bool_decide_eq_true_2 by done. cbn [negb andb orb]. rewrite (byte_of_eq a); [done|]; subst v0 v1; zlia.
Qed.

(** Induction over groups of three. *)
Lemma groups3_ind (P : bytes -> Prop) :
  P [] -> (forall a, P [a]) -> (forall a b, P [a; b]) -> (forall a b c l, P l -> P (a :: b :: c :: l)) -> forall l, P l.
Proof.
  intros H0 H1 H2 H3. assert (Hn : forall n l, (length l <= n)%nat -> P l); [|intros l; by apply (Hn (length l))].
  induction n as [|n IH]; intros l Hl; [by destruct l; [|cbn in Hl; lia]|].
  destruct l as [|a [|b [|c l]]]; auto. apply H3, IH. cbn in Hl. lia.
Qed.

Lemma encode_length data : len (base64_encode data) = 4 * ((len data + 2) / 3).
Proof.
  induction data as [|a|a b|a b c l IH] using groups3_ind; [done|done|done|]. cbn [base64_encode]. rewrite !len_cons, IH. zlia.
Qed.

Lemma encode_nil data : base64_encode data = [] -> data = [].
Proof. by destruct data as [|a [|b [|c l]]]. Qed.

Lemma decode_encode data : decode_loop (base64_encode data) = Some data.
Proof.
  induction data as [|a|a b|a b c l IH] using groups3_ind; [done| | |].
  - cbn [base64_encode decode_loop]. rewrite bool_decide_eq_true_2 by done. by rewrite decode_group1.
  - cbn [base64_encode decode_loop]. rewrite bool_decide_eq_true_2 by done. by rewrite decode_group2.
  - cbn [base64_encode decode_loop]. rewrite decode_group3, IH. done.
Qed.

(** What decoding accepts: groups of four with padding only at the end. *)
Lemma decode_group_length c0 c1 c2 c3 is_last out : decode_group c0 c1 c2 c3 is_last = Some out ->
  (1 <= length out <= 3)%nat /\ (length out <> 3%nat -> is_last = true).
Proof.
  unfold decode_group. intros H. repeat (match type of H with (if ?b then _ else _) = _ => destruct b eqn:? end); simplify_eq; cbn [length]; (split; [lia|]); try lia; intros _.
  all: destruct is_last; [done|]; destruct (bool_decide (c2 = pad)), (bool_decide (c3 = pad)); done.
Qed.

Lemma base64_decodes data : base64_decode (base64_encode data) = Some data.
Proof. unfold base64_decode. rewrite encode_length, Z.mul_comm, Z.mod_mul by lia. cbn [Z.eqb]. apply decode_encode. Qed.

(** Base64 round trip.  Decoding an encoding gives the octets back, an
    encoding has four characters for every started group of three octets, and an
    accepted text has the length of the encoding of its octets. *)
Theorem base64_roundtrip data :
  base64_decode (base64_encode data) = Some data /\
  len (base64_encode data) = 4 * ((len data + 2) / 3) /\
  (forall input, base64_decode input = Some data -> len input = len (base64_encode data)).
Proof.
  split; [|split; [apply encode_length|]].
  - apply base64_decodes.
  - intros input. unfold base64_decode. destruct (Z.eqb_spec (len input mod 4) 0) as [Hm|]; [|done]. rewrite encode_length. revert data.
    assert (Hn : forall n input, (length input <= n)%nat -> len input mod 4 = 0 -> forall data, decode_loop input = Some data -> len input = 4 * ((len data + 2) / 3)).
    { clear. induction n as [|n IH]; intros input Hl Hm data Hd; [destruct input; [|cbn in Hl; lia]; cbn in Hd; by simplify_eq|].
      destruct input as [|c0 [|c1 [|c2 [|c3 rest]]]]; [cbn in Hd; by simplify_eq|discriminate Hm..|].
      cbn [decode_loop] in Hd. destruct (decode_group c0 c1 c2 c3 (bool_decide (rest = []))) as [out|] eqn:Eg; [|done].
      destruct (decode_loop rest) as [out'|] eqn:Er; [|done]. simplify_eq. cbn [length] in Hl. rewrite !len_cons in Hm |- *.
      apply IH in Er; [|lia|zlia]. apply decode_group_length in Eg as [Hlen Hlast]. rewrite len_app.
      assert (H3 : len out = 3 \/ (rest = [] /\ 1 <= len out <= 3)).
      { unfold len. destruct (decide (length out = 3%nat)) as [->|Hne]; [by left|]. right. apply Hlast, bool_decide_eq_true in Hne. split; [done|lia]. }
      destruct H3 as [H3|[-> H3]]; [rewrite Er, H3; zlia|]. pose proof (len_nonneg out'). rewrite len_nil in *. zlia. }
    intros data Hd. by apply (Hn (length input)).
Qed.

(** Decoding ignores the unused low bits of a padded group: two texts can decode to
    the same octets. *)
Lemma base64_not_canonical : base64_decode (lit "QQ==") = base64_decode (lit "QR==").
Proof. vm_compute. reflexivity. Qed.

End Base64.
