(* ===== verification/Json.v ===== *)
(** * JSON

    [src/json/serializer.cpp]: the text of attribute values and items, and the
    attribute values of a parsed document.  The text is parsed by simdjson, which
    is not part of the program: [Json] is the document it hands over, and
    [read_json] is the grammar of RFC 8259 as a function, the meaning of the texts
    the program writes.  A thrown exception is [None]; so is the dereference of
    a null child pointer. *)

From Stdlib Require Import ZArith Lia Strings.String.
From stdpp Require Import prelude.
From S2P Require Import Prelude StdMap Types CLib RecordCodec NumberText Base64.
Import NumberText Base64.

Module Json.

(** ** Documents *)

(** A number is kept as its text. *)
#[warnings="-register-all"]
Inductive Json :=
| JNull
| JBool (b : bool)
| JNum (text : bytes)
| JStr (s : bytes)
| JArr (elements : list Json)
| JObj (fields : list (bytes * Json)).

Section JsonInd.
Context (P : Json -> Prop) (Hnull : P JNull) (Hbool : forall b, P (JBool b)) (Hnum : forall t, P (JNum t)) (Hstr : forall s, P (JStr s))
  (Harr : forall l, Forall P l -> P (JArr l)) (Hobj : forall l, Forall (fun f => P f.2) l -> P (JObj l)).

Fixpoint json_ind (j : Json) : P j :=
  match j with
  | JNull => Hnull
  | JBool b => Hbool b
  | JNum t => Hnum t
  | JStr s => Hstr s
  | JArr l => Harr l ((fix go l : Forall P l := match l with [] => Forall_nil_2 _ | x :: l => Forall_cons_2 _ _ _ (json_ind x) (go l) end) l)
  | JObj l => Hobj l ((fix go l : Forall (fun f => P f.2) l :=
                        match l with [] => Forall_nil_2 _ | (k, x) :: l => Forall_cons_2 _ (k, x) _ (json_ind x) (go l) end) l)
  end.
End JsonInd.

(** ** The grammar *)

Definition is_ws (b : byte) : bool := is_char 32 b || is_char 9 b || is_char 10 b || is_char 13 b.
Definition skip_ws (s : bytes) : bytes := snd (span is_ws s).

Definition hex4 (a b c d : byte) : option Z :=
  if isxdigit a && isxdigit b && isxdigit c && isxdigit d
  then Some (parse_hex [a; b; c; d]) else None.

Definition utf8 (cp : Z) : bytes :=
  if cp <? 0x80 then [byte_of cp]
  else if cp <? 0x800 then [byte_of (0xc0 + cp / 64); byte_of (0x80 + cp mod 64)]
  else if cp <? 0x10000 then [byte_of (0xe0 + cp / 4096); byte_of (0x80 + cp / 64 mod 64); byte_of (0x80 + cp mod 64)]
  else [byte_of (0xf0 + cp / 262144); byte_of (0x80 + cp / 4096 mod 64); byte_of (0x80 + cp / 64 mod 64); byte_of (0x80 + cp mod 64)].

(** The character after a backslash, other than [u]. *)
Definition simple_escape (c : byte) : option byte :=
  if is_char 34 c then Some Byte.x22
  else if is_char 92 c then Some Byte.x5c
  else if is_char 47 c then Some Byte.x2f
  else if is_char 98 c then Some Byte.x08
  else if is_char 102 c then Some Byte.x0c
  else if is_char 110 c then Some Byte.x0a
  else if is_char 114 c then Some Byte.x0d
  else if is_char 116 c then Some Byte.x09
  else None.

(** The rest of a string after its opening quote. *)
Fixpoint read_string (fuel : nat) (s : bytes) : option (bytes * bytes) :=
  match fuel with
  | O => None
  | S fuel =>
      match s with
      | [] => None
      | c :: s =>
          if is_char 34 c then Some ([], s)
          else if is_char 92 c then
            match s with
            | [] => None
            | e :: s =>
                if is_char 117 e then
                  match s with
                  | a :: b :: c :: d :: s =>
                      match hex4 a b c d with
                      | None => None
                      | Some u =>
                          if (0xd800 <=? u) && (u <? 0xdc00) then
                            match s with
                            | b1 :: u1 :: a :: b :: c :: d :: s =>
                                if is_char 92 b1 && is_char 117 u1 then
                                  match hex4 a b c d with
                                  | Some v => if (0xdc00 <=? v) && (v <? 0xe000)
                                              then option_map (fun r => (utf8 (0x10000 + (u - 0xd800) * 1024 + (v - 0xdc00)) ++ fst r, snd r)) (read_string fuel s)
                                              else None
                                  | None => None
                                  end
                                else None
                            | _ => None
                            end
                          else if (0xdc00 <=? u) && (u <? 0xe000) then None
                          else option_map (fun r => (utf8 u ++ fst r, snd r)) (read_string fuel s)
                      end
                  | _ => None
                  end
                else match simple_escape e with
                     | Some b => option_map (fun r => (b :: fst r, snd r)) (read_string fuel s)
                     | None => None
                     end
            end
          else if bval c <? 32 then None
          else option_map (fun r => (c :: fst r, snd r)) (read_string fuel s)
      end
  end.

(** [int frac exp] of a number, after an optional sign. *)
Definition read_number (s : bytes) : option (bytes * bytes) :=
  let '(sign, r) := match s with c :: r => if is_char 45 c then ([c], r) else ([], s) | [] => ([], s) end in
  let '(ip, r) := span isdigit r in
  let int_ok := match ip with [] => false | [_] => true | c :: _ => negb (is_char 48 c) end in
  if negb int_ok then None else
  let frac := match r with
              | c :: r' => if is_char 46 c then match span isdigit r' with ([], _) => None | (fp, r') => Some (c :: fp, r') end else Some ([], r)
              | [] => Some ([], r)
              end in
  match frac with
  | None => None
  | Some (fp, r) =>
      match r with
      | c :: r' =>
          if is_char 101 c || is_char 69 c then
            let '(es, r') := match r' with c :: r'' => if is_char 43 c || is_char 45 c then ([c], r'') else ([], r') | [] => ([], r') end in
            match span isdigit r' with
            | ([], _) => None
            | (ed, r') => Some (sign ++ ip ++ fp ++ c :: es ++ ed, r')
            end
          else Some (sign ++ ip ++ fp, r)
      | [] => Some (sign ++ ip ++ fp, r)
      end
  end.

Definition literal (word s : bytes) : option bytes := if starts_with s word then Some (drop (length word) s) else None.

(** A value, the members after an opening brace or a comma, and the elements
    after an opening bracket or a comma. *)
Fixpoint read_value (fuel : nat) (s : bytes) : option (Json * bytes) :=
  match fuel with
  | O => None
  | S fuel =>
      match skip_ws s with
      | [] => None
      | c :: r =>
          if is_char 123 c then
            match skip_ws r with
            | d :: r' => if is_char 125 d then Some (JObj [], r')
                         else option_map (fun x => (JObj (fst x), snd x)) (read_members fuel r)
            | [] => None
            end
          else if is_char 91 c then
            match skip_ws r with
            | d :: r' => if is_char 93 d then Some (JArr [], r')
                         else option_map (fun x => (JArr (fst x), snd x)) (read_elements fuel r)
            | [] => None
            end
          else if is_char 34 c then option_map (fun x => (JStr (fst x), snd x)) (read_string (S (length r)) r)
          else if is_char 116 c then option_map (fun r => (JBool true, r)) (literal (lit "true") (c :: r))
          else if is_char 102 c then option_map (fun r => (JBool false, r)) (literal (lit "false") (c :: r))
          else if is_char 110 c then option_map (fun r => (JNull, r)) (literal (lit "null") (c :: r))
          else option_map (fun x => (JNum (fst x), snd x)) (read_number (c :: r))
      end
  end
with read_members (fuel : nat) (s : bytes) : option (list (bytes * Json) * bytes) :=
  match fuel with
  | O => None
  | S fuel =>
      match skip_ws s with
      | c :: r =>
          if negb (is_char 34 c) then None else
          match read_string (S (length r)) r with
          | None => None
          | Some (k, r) =>
              match skip_ws r with
              | c :: r =>
                  if negb (is_char 58 c) then None else
                  match read_value fuel r with
                  | None => None
                  | Some (v, r) =>
                      match skip_ws r with
                      | c :: r =>
                          if is_char 44 c then option_map (fun x => ((k, v) :: fst x, snd x)) (read_members fuel r)
                          else if is_char 125 c then Some ([(k, v)], r)
                          else None
                      | [] => None
                      end
                  end
              | [] => None
              end
          end
      | [] => None
      end
  end
with read_elements (fuel : nat) (s : bytes) : option (list Json * bytes) :=
  match fuel with
  | O => None
  | S fuel =>
      match read_value fuel s with
      | None => None
      | Some (v, r) =>
          match skip_ws r with
          | c :: r =>
              if is_char 44 c then option_map (fun x => (v :: fst x, snd x)) (read_elements fuel r)
              else if is_char 93 c then Some ([v], r)
              else None
          | [] => None
          end
      end
  end.

(** A JSON text. *)
Definition read_json (s : bytes) : option Json :=
  match read_value (S (length s)) s with
  | Some (j, r) => match skip_ws r with [] => Some j | _ => None end
  | None => None
  end.

(** ** Text *)

(** A literal of the source, with an apostrophe for each quotation mark. *)
Definition q (s : string) : bytes := map (fun b => if is_char 39 b then Byte.x22 else b) (lit s).
Arguments q s%_string.

Lemma read_json_demo : read_json (q "{ 'a' : [-1.5e3, true, null], 'b':{'c':'x\u00e9\n'}}") =
  Some (JObj [(lit "a", JArr [JNum (lit "-1.5e3"); JBool true; JNull]); (lit "b", JObj [(lit "c", JStr [Byte.x78; Byte.xc3; Byte.xa9; Byte.x0a])])]).
Proof. vm_compute. reflexivity. Qed.

(** Escaping, with the digits used for other control characters. *)
Definition escape_char (hex : bytes) (c : byte) : bytes :=
  if is_char 34 c then [Byte.x5c; Byte.x22]
  else if is_char 92 c then [Byte.x5c; Byte.x5c]
  else if is_char 8 c then lit "\b"
  else if is_char 12 c then lit "\f"
  else if is_char 10 c then lit "\n"
  else if is_char 13 c then lit "\r"
  else if is_char 9 c then lit "\t"
  else if bval c <? 32 then
    lit "\u00" ++ [default Byte.x00 (hex !! Z.to_nat (Z.land (Z.shiftr (bval c) 4) 0xf)); default Byte.x00 (hex !! Z.to_nat (Z.land (bval c) 0xf))]
  else [c].

Definition kHex : bytes := lit "0123456789ABCDEF".

Fixpoint escape_json (input : bytes) : bytes :=
  match input with [] => [] | c :: input' => escape_char kHex c ++ escape_json input' end.

(** ** Serializing *)

(** The loops over the children: a comma before all but the first. *)
Section Loops.
Context (serialize : AttributeValue -> option bytes).

Definition comma (first : bool) : bytes := if first then [] else lit ",".

Fixpoint serialize_fields (first : bool) (m : list (bytes * AttrPtr)) : option bytes :=
  match m with
  | [] => Some []
  | (k, v) :: m' =>
      match v with
      | None => None
      | Some v =>
          match serialize v with
          | None => None
          | Some x => option_map (fun r => comma first ++ q "'" ++ escape_json k ++ q "':" ++ x ++ r) (serialize_fields false m')
          end
      end
  end.

Fixpoint serialize_elements (first : bool) (l : list AttrPtr) : option bytes :=
  match l with
  | [] => Some []
  | v :: l' =>
      match v with
      | None => None
      | Some v =>
          match serialize v with
          | None => None
          | Some x => option_map (fun r => comma first ++ x ++ r) (serialize_elements false l')
          end
      end
  end.

Fixpoint serialize_strings (text : bytes -> bytes) (first : bool) (l : list bytes) : bytes :=
  match l with
  | [] => []
  | s :: l' => comma first ++ q "'" ++ text s ++ q "'" ++ serialize_strings text false l'
  end.
End Loops.

Fixpoint serialize_attribute_value (val : AttributeValue) : option bytes :=
  match val with
  | AV_S s => Some (q "{'S':'" ++ escape_json s ++ q "'}")
  | AV_N s => Some (q "{'N':'" ++ escape_json s ++ q "'}")
  | AV_BOOL b => Some (q "{'BOOL':" ++ lit (if b then "true" else "false") ++ q "}")
  | AV_NUL => Some (q "{'NULL':true}")
  | AV_M m => option_map (fun r => q "{'M':{" ++ r ++ q "}}") (serialize_fields serialize_attribute_value true m)
  | AV_L l => option_map (fun r => q "{'L':[" ++ r ++ q "]}") (serialize_elements serialize_attribute_value true l)
  | AV_B b => Some (q "{'B':'" ++ base64_encode b ++ q "'}")
  | AV_SS values => Some (q "{'SS':[" ++ serialize_strings escape_json true values ++ q "]}")
  | AV_NS values => Some (q "{'NS':[" ++ serialize_strings escape_json true values ++ q "]}")
  | AV_BS values => Some (q "{'BS':[" ++ serialize_strings base64_encode true values ++ q "]}")
  end.

Definition serialize_item (item : AttributeMap) : option bytes :=
  option_map (fun r => q "{" ++ r ++ q "}") (serialize_fields serialize_attribute_value true item).

Definition serialize_error (type message : bytes) : bytes :=
  q "{'__type':'" ++ escape_json type ++ q "','message':'" ++ escape_json message ++ q "'}".

(** ** Parsing *)

(** [get_string().value()] *)
Definition get_string (j : Json) : option bytes := match j with JStr s => Some s | _ => None end.

Fixpoint parse_strings (f : bytes -> option bytes) (l : list Json) : option (list bytes) :=
  match l with
  | [] => Some []
  | e :: l' =>
      match get_string e with
      | None => None
      | Some s => match f s with Some x => option_map (cons x) (parse_strings f l') | None => None end
      end
  end.

Section ParseLoops.
Context (parse : Json -> option AttributeValue).

Fixpoint parse_fields (fields : list (bytes * Json)) (map : AttributeMap) : option AttributeMap :=
  match fields with
  | [] => Some map
  | (k, j) :: fields' => match parse j with Some v => parse_fields fields' (mset k (Some v) map) | None => None end
  end.

Fixpoint parse_elements (l : list Json) : option (list AttrPtr) :=
  match l with
  | [] => Some []
  | j :: l' => match parse j with Some v => option_map (cons (Some v)) (parse_elements l') | None => None end
  end.
End ParseLoops.

Fixpoint parse_attribute_value (el : Json) : option AttributeValue :=
  match el with
  | JObj [(key, v)] =>
      if bytes_eqb key (lit "S") then option_map AV_S (get_string v)
      else if bytes_eqb key (lit "N") then option_map (fun s => AV_N (normalize_number s)) (get_string v)
      else if bytes_eqb key (lit "BOOL") then match v with JBool b => Some (AV_BOOL b) | _ => None end
      else if bytes_eqb key (lit "NULL") then Some AV_NUL
      else if bytes_eqb key (lit "M") then
        match v with JObj fields => option_map AV_M (parse_fields parse_attribute_value fields []) | _ => None end
      else if bytes_eqb key (lit "L") then
        match v with JArr l => option_map AV_L (parse_elements parse_attribute_value l) | _ => None end
      else if bytes_eqb key (lit "B") then match get_string v with Some s => option_map AV_B (base64_decode s) | None => None end
      else if bytes_eqb key (lit "SS") then match v with JArr l => option_map AV_SS (parse_strings Some l) | _ => None end
      else if bytes_eqb key (lit "NS") then
        match v with JArr l => option_map AV_NS (parse_strings (fun s => Some (normalize_number s)) l) | _ => None end
      else if bytes_eqb key (lit "BS") then match v with JArr l => option_map AV_BS (parse_strings base64_decode l) | _ => None end
      else None
  | _ => None
  end.

(** ** Compact texts *)

Definition kHexLower : bytes := lit "0123456789abcdef".

Definition hex_table (hex : bytes) : Prop := hex = kHex \/ hex = kHexLower.

Fixpoint escape (hex s : bytes) : bytes := match s with [] => [] | c :: s' => escape_char hex c ++ escape hex s' end.

Fixpoint joined (l : list bytes) : bytes :=
  match l with
  | [] => []
  | [x] => x
  | x :: l' => x ++ lit "," ++ joined l'
  end.

Definition quoted (hex s : bytes) : bytes := Byte.x22 :: escape hex s ++ [Byte.x22].

Fixpoint print (hex : bytes) (j : Json) : bytes :=
  match j with
  | JNull => lit "null"
  | JBool b => lit (if b then "true" else "false")
  | JNum t => t
  | JStr s => quoted hex s
  | JArr l => Byte.x5b :: joined (map (print hex) l) ++ [Byte.x5d]
  | JObj l => Byte.x7b :: joined (map (fun f => quoted hex f.1 ++ Byte.x3a :: print hex f.2) l) ++ [Byte.x7d]
  end.

(** The text of a non-negative integer. *)
Definition integer_text (t : bytes) : bool :=
  match t with [] => false | c :: t' => forallb isdigit t && (negb (is_char 48 c) || bool_decide (t' = [])) end.

(** Documents whose numbers are such integers; an item carries its numbers in strings. *)
Fixpoint plain (j : Json) : bool :=
  match j with
  | JNum t => integer_text t
  | JArr l => forallb plain l
  | JObj l => forallb (fun f => plain f.2) l
  | _ => true
  end.

Lemma read_string_char hex c f r : hex_table hex ->
  read_string (S f) (escape_char hex c ++ r) = option_map (fun x => (c :: x.1, x.2)) (read_string f r).
Proof. intros [-> | ->]; destruct c; reflexivity. Qed.

Lemma read_string_escape hex s : hex_table hex -> forall f r, (length s < f)%nat ->
  read_string f (escape hex s ++ Byte.x22 :: r) = Some (s, r).
Proof.
  intros Hh. induction s as [|c s IH]; intros f r Hf; (destruct f as [|f]; [simpl in Hf; lia|]); [done|].
  cbn [escape]. rewrite <- app_assoc, read_string_char by done. rewrite IH by (simpl in Hf; lia). done.
Qed.

Lemma escape_char_nonempty hex c : (1 <= length (escape_char hex c))%nat.
Proof. unfold escape_char. repeat case_match; simpl; lia. Qed.

Lemma escape_length hex s : (length s <= length (escape hex s))%nat.
Proof. induction s as [|c s IH]; [done|]. cbn [escape]. rewrite length_app. pose proof (escape_char_nonempty hex c). simpl. lia. Qed.

(** A quoted string, from after its opening quote. *)
Lemma read_quoted hex s r : hex_table hex ->
  let t := escape hex s ++ Byte.x22 :: r in read_string (S (length t)) t = Some (s, r).
Proof. intros Hh t. apply read_string_escape; [done|]. unfold t. rewrite length_app. pose proof (escape_length hex s). lia. Qed.

Lemma skip_ws_char c r : is_ws c = false -> skip_ws (c :: r) = c :: r.
Proof. intros H. unfold skip_ws. simpl. by rewrite H. Qed.

Lemma print_head hex j : plain j = true -> exists c r, print hex j = c :: r /\ is_ws c = false /\ is_char 93 c = false.
Proof.
  destruct j as [| [] |t| | |]; intros H; try (eexists _, _; split; [reflexivity|done]). destruct t as [|c t]; [done|]. exists c, t. split; [done|].
  cbn in H. destruct c; done.
Qed.

Lemma joined_cons x y l : joined (x :: y :: l) = x ++ Byte.x2c :: joined (y :: l).
Proof. done. Qed.

(** What cannot continue a number. *)
Definition ends_number (r : bytes) : bool :=
  match r with [] => true | c :: _ => negb (isdigit c || is_char 46 c || is_char 101 c || is_char 69 c) end.

Lemma read_integer t r : integer_text t = true -> ends_number r = true -> read_number (t ++ r) = Some (t, r).
Proof.
  destruct t as [|c t]; [done|]. cbn [integer_text]. intros [Hd Hz]%andb_prop Hr. assert (Hdig : Forall (fun b => isdigit b = true) (c :: t)).
  { apply Forall_forall. intros x Hx%list_elem_of_In. by rewrite forallb_forall in Hd; apply Hd. }
  assert (Hc : is_char 45 c = false) by (apply Forall_cons in Hdig as [Hc _]; destruct c; done).
  assert (Hspan : span isdigit ((c :: t) ++ r) = (c :: t, r)).
  { destruct r as [|e r]; [rewrite app_nil_r; by apply span_all|]. apply span_prefix; [done|]. cbn in Hr. destruct (isdigit e); done. }
  unfold read_number. change ((c :: t) ++ r) with (c :: t ++ r) in *. cbv iota. rewrite Hc, Hspan.
  assert (Hint : negb (match t with [] => true | _ :: _ => negb (is_char 48 c) end) = false) by (destruct t; [done|]; rewrite bool_decide_eq_false_2, orb_false_r in Hz by done; by rewrite Hz).
  rewrite Hint. destruct r as [|e r]; [by rewrite !app_nil_r|]. cbn in Hr. destruct (isdigit e), (is_char 46 e), (is_char 101 e), (is_char 69 e); try done. cbn [orb]. by rewrite !app_nil_r.
Qed.

Section ReadPrint.
Context (hex : bytes) (Hhex : hex_table hex).

Definition reads_back (j : Json) : Prop := plain j = true -> forall fuel r, (length (print hex j) < fuel)%nat -> ends_number r = true ->
  read_value fuel (print hex j ++ r) = Some (j, r).

Lemma read_print_elements l : l <> [] -> Forall reads_back l -> forallb plain l = true -> forall fuel r,
  (length (joined (map (print hex) l)) + 1 < fuel)%nat -> read_elements fuel (joined (map (print hex) l) ++ Byte.x5d :: r) = Some (l, r).
Proof.
  induction l as [|j l IH]; intros Hne Hl Hp fuel r Hf; [done|]. apply Forall_cons in Hl as [Hj Hl]. cbn [forallb] in Hp. apply andb_prop in Hp as [Hpj Hpl].
  destruct fuel as [|fuel]; [lia|]. cbn [read_elements]. destruct l as [|j' l].
  - cbn [map joined] in *. rewrite Hj by (done || lia). by rewrite skip_ws_char.
  - cbn [map] in *. rewrite joined_cons in *. rewrite length_app in Hf. cbn [length] in Hf. rewrite <- app_assoc, Hj by (done || lia). cbn [app]. rewrite skip_ws_char by done.
    change (is_char 44 Byte.x2c) with true. cbv iota. rewrite IH by (done || lia). done.
Qed.

Lemma read_print_members l : l <> [] -> Forall (fun f => reads_back f.2) l -> forallb (fun f => plain f.2) l = true -> forall fuel r,
  (length (joined (map (fun f => quoted hex f.1 ++ Byte.x3a :: print hex f.2) l)) + 1 < fuel)%nat ->
  read_members fuel (joined (map (fun f => quoted hex f.1 ++ Byte.x3a :: print hex f.2) l) ++ Byte.x7d :: r) = Some (l, r).
Proof.
  induction l as [|[k j] l IH]; intros Hne Hl Hp fuel r Hf; [done|]. apply Forall_cons in Hl as [Hj Hl]. cbn [forallb snd] in *. apply andb_prop in Hp as [Hpj Hpl].
  destruct fuel as [|fuel]; [lia|].
  assert (Hfield : forall t, (length (print hex j) < fuel)%nat -> ends_number t = true -> read_members (S fuel) ((quoted hex k ++ Byte.x3a :: print hex j) ++ t) =
    match skip_ws t with
    | c :: r => if is_char 44 c then option_map (fun x => ((k, j) :: fst x, snd x)) (read_members fuel r)
                else if is_char 125 c then Some ([(k, j)], r) else None
    | [] => None
    end).
  { intros t Ht Hends. unfold quoted. cbn [read_members app]. rewrite skip_ws_char by done. change (negb (is_char 34 Byte.x22)) with false. cbv iota.
    rewrite <- !app_assoc. cbn [app]. rewrite (read_quoted hex k (Byte.x3a :: print hex j ++ t) Hhex). rewrite skip_ws_char by done. change (negb (is_char 58 Byte.x3a)) with false. cbv iota.
    rewrite Hj by done. done. }
  destruct l as [|f' l].
  - cbn [map joined fst snd] in *. rewrite length_app in Hf. cbn [length] in Hf. rewrite Hfield by (done || lia). by rewrite skip_ws_char.
  - cbn [map fst snd] in *. rewrite joined_cons in *. rewrite !length_app in Hf. cbn [length] in Hf. rewrite <- (app_assoc (quoted hex k ++ _)), Hfield by (done || lia). cbn [app].
    rewrite skip_ws_char by done. change (is_char 44 Byte.x2c) with true. cbv iota. rewrite IH by (done || lia). done.
Qed.

Lemma read_print j : reads_back j.
Proof.
  induction j as [|b|t|s|l IH|l IH] using json_ind; intros Hp fuel r Hf Hends; (destruct fuel as [|fuel]; [lia|]).
  - done.
  - by destruct b.
  - cbn [plain print] in *. pose proof (read_integer t r Hp Hends) as E. destruct t as [|c t]; [done|]. cbn [app read_value] in *.
    assert (Hc : isdigit c = true) by (cbn in Hp; destruct (isdigit c); done). rewrite skip_ws_char, E by (destruct c; done). destruct c; done.
  - cbn [print quoted app read_value]. rewrite skip_ws_char by done. cbv beta. rewrite <- !app_assoc. cbn [app].
    change (is_char 123 Byte.x22) with false. change (is_char 91 Byte.x22) with false. change (is_char 34 Byte.x22) with true. cbv iota.
    rewrite (read_quoted hex s r Hhex). done.
  - cbn [print app read_value] in *. rewrite skip_ws_char by done. change (is_char 123 Byte.x5b) with false. change (is_char 91 Byte.x5b) with true. cbv iota.
    destruct l as [|j l]; [done|]. cbn [length] in Hf. rewrite length_app in Hf. cbn [length] in Hf. cbn [plain forallb] in Hp.
    assert (Hhead : exists c t, joined (map (print hex) (j :: l)) = c :: t /\ is_ws c = false /\ is_char 93 c = false).
    { apply andb_prop in Hp as [Hpj _]. destruct (print_head hex j Hpj) as (c & t & E & H1 & H2). destruct l as [|j' l]; cbn [map joined]; rewrite E; eauto. }
    destruct Hhead as (c & t & E & H1 & H2). rewrite <- app_assoc. cbn [app]. rewrite E at 1. cbn [app]. rewrite skip_ws_char, H2 by done.
    rewrite (read_print_elements (j :: l)) by (done || lia). done.
  - cbn [print app read_value] in *. rewrite skip_ws_char by done. change (is_char 123 Byte.x7b) with true. cbv iota.
    destruct l as [|[k j] l]; [done|]. cbn [length] in Hf. rewrite length_app in Hf. cbn [length] in Hf. cbn [plain forallb] in Hp.
    assert (Hhead : exists t, joined (map (fun f => quoted hex f.1 ++ Byte.x3a :: print hex f.2) ((k, j) :: l)) = Byte.x22 :: t) by (destruct l; eexists; reflexivity).
    destruct Hhead as (t & E). rewrite <- app_assoc. cbn [app]. rewrite E at 1. cbn [app]. rewrite skip_ws_char by done. change (is_char 125 Byte.x22) with false. cbv iota.
    rewrite (read_print_members ((k, j) :: l)) by (done || lia). done.
Qed.

(** Every conforming reader gets the document back. *)
Lemma read_json_print j : plain j = true -> read_json (print hex j) = Some j.
Proof.
  intros Hp. unfold read_json. pose proof (read_print j Hp (S (length (print hex j))) [] ltac:(lia) eq_refl) as E. rewrite app_nil_r in E. by rewrite E.
Qed.
End ReadPrint.

(** ** The document of a value *)

Definition tagged (tag : string) (j : Json) : Json := JObj [(lit tag, j)].

(** A null pointer stands for a null value. *)
Fixpoint dom_of (v : AttributeValue) : Json :=
  let dom_ptr (p : AttrPtr) := match p with Some v => dom_of v | None => tagged "NULL" (JBool true) end in
  match v with
  | AV_S s => tagged "S" (JStr s)
  | AV_N s => tagged "N" (JStr s)
  | AV_B b => tagged "B" (JStr (base64_encode b))
  | AV_BOOL b => tagged "BOOL" (JBool b)
  | AV_NUL => tagged "NULL" (JBool true)
  | AV_M m => tagged "M" (JObj (map (fun f => (f.1, dom_ptr f.2)) m))
  | AV_L l => tagged "L" (JArr (map dom_ptr l))
  | AV_SS vs => tagged "SS" (JArr (map JStr vs))
  | AV_NS vs => tagged "NS" (JArr (map JStr vs))
  | AV_BS vs => tagged "BS" (JArr (map (fun b => JStr (base64_encode b)) vs))
  end.

Definition dom_ptr (p : AttrPtr) : Json := match p with Some v => dom_of v | None => tagged "NULL" (JBool true) end.
Definition dom_fields (m : AttributeMap) : list (bytes * Json) := map (fun f => (f.1, dom_ptr f.2)) m.

Lemma dom_plain v : plain (dom_of v) = true.
Proof.
  induction v as [s|s|s|b| |m Hm|l Hl|vs|vs|vs] using av_ind; try done; cbn [dom_of tagged plain forallb snd]; rewrite andb_true_r.
  - induction Hm as [|[k [v|]] m Hv _ IH]; [done| |]; cbn [map forallb snd fst]; [by rewrite Hv|done].
  - induction Hl as [|[v|] l Hv _ IH]; [done| |]; cbn [map forallb]; [by rewrite Hv|done].
  - by induction vs.
  - by induction vs.
  - by induction vs.
Qed.

Lemma joined_concat x l : joined (x :: l) = x ++ concat (map (fun y => lit "," ++ y) l).
Proof.
  revert x. induction l as [|y l IH]; intros x; [simpl; by rewrite app_nil_r|]. rewrite joined_cons, IH. done.
Qed.

Lemma escape_json_spec s : escape_json s = escape kHex s.
Proof. induction s as [|c s IH]; [done|]. cbn [escape_json escape]. by rewrite IH. Qed.

(** Characters that need no escape. *)
Definition safe (c : byte) : bool := (32 <=? bval c) && negb (is_char 34 c) && negb (is_char 92 c).

Lemma escape_safe hex s : forallb safe s = true -> escape hex s = s.
Proof.
  induction s as [|c s IH]; [done|]. cbn [forallb]. intros [Hc Hs]%andb_prop. cbn [escape]. rewrite (IH Hs).
  assert (E : escape_char hex c = [c]) by (destruct c; done). by rewrite E.
Qed.

Lemma table_safe v : safe (table v) = true \/ table v = Byte.x00.
Proof.
  unfold table. destruct (kTable !! Z.to_nat v) as [c|] eqn:E; [|by right]. left. cbn [default].
  assert (H : forallb safe kTable = true) by (vm_compute; reflexivity). rewrite forallb_forall in H. apply H. apply list_elem_of_In. by eapply list_elem_of_lookup_2.
Qed.

Lemma encode_safe b : forallb safe (base64_encode b) = true.
Proof.
  assert (Ht : forall v, 0 <= v < 64 -> safe (table v) = true).
  { intros v Hv. destruct (table_safe v) as [?|E]; [done|]. destruct (decode_table v Hv) as [Hd _]. rewrite E in Hd. vm_compute in Hd. lia. }
  assert (Hl : forall x, safe (table (Z.land x 63)) = true) by (intros x; apply Ht; change 63 with (2 ^ 6 - 1); rewrite land_low by lia; apply Z.mod_pos_bound; lia).
  induction b as [|x|x y|x y z b IH] using groups3_ind; cbn [base64_encode forallb]; rewrite ?Hl; [done|done|done|exact IH].
Qed.

(** ** What the serializer writes *)

Definition comma_list (first : bool) (l : list bytes) : bytes := match l with [] => [] | _ => comma first ++ joined l end.

Lemma comma_list_cons first x l : comma_list first (x :: l) = comma first ++ x ++ comma_list false l.
Proof. unfold comma_list. f_equal. rewrite joined_concat. f_equal. destruct l as [|y l]; [done|]. by rewrite joined_concat. Qed.

Lemma comma_list_first l : comma_list true l = joined l.
Proof. by destruct l. Qed.

Lemma concat_fields first m : Forall (fun e => exists v, e.2 = Some v /\ serialize_attribute_value v = Some (print kHex (dom_of v))) m ->
  serialize_fields serialize_attribute_value first m =
  Some (comma_list first (map (fun f => quoted kHex f.1 ++ Byte.x3a :: print kHex f.2) (dom_fields m))).
Proof.
  intros H. revert first. induction H as [|[k p] m (v & E & Hv) _ IH]; intros first; [done|]. cbn [snd] in E. subst p. cbn [serialize_fields]. rewrite Hv, IH.
  cbn [dom_fields map fst snd dom_ptr option_map]. fold (dom_fields m). f_equal. rewrite comma_list_cons. f_equal. change (q "'") with [Byte.x22]. change (q "':") with [Byte.x22; Byte.x3a].
  unfold quoted. rewrite escape_json_spec. cbn [app]. rewrite <- !app_assoc. done.
Qed.

Lemma concat_elements first l : Forall (fun p => exists v, p = Some v /\ serialize_attribute_value v = Some (print kHex (dom_of v))) l ->
  serialize_elements serialize_attribute_value first l = Some (comma_list first (map (print kHex) (map dom_ptr l))).
Proof.
  intros H. revert first. induction H as [|p l (v & -> & Hv) _ IH]; intros first; [done|]. cbn [serialize_elements]. rewrite Hv, IH. cbn [map dom_ptr option_map]. by rewrite comma_list_cons.
Qed.

Lemma concat_strings f g first l : (forall s, f s = escape kHex (g s)) ->
  serialize_strings f first l = comma_list first (map (print kHex) (map (fun s => JStr (g s)) l)).
Proof.
  intros Hf. revert first. induction l as [|s l IH]; intros first; [done|]. cbn [serialize_strings map print]. rewrite IH, Hf, comma_list_cons. f_equal.
  change (q "'") with [Byte.x22]. unfold quoted. cbn [app]. by rewrite <- !app_assoc.
Qed.

Lemma serialize_print v : shape_ok v = true -> serialize_attribute_value v = Some (print kHex (dom_of v)).
Proof.
  induction v as [s|s|s|b| |m Hm|l Hl|vs|vs|vs] using av_ind; intros Hsh; cbn [serialize_attribute_value].
  - rewrite escape_json_spec. cbn. unfold quoted. by rewrite <- !app_assoc.
  - rewrite escape_json_spec. cbn. unfold quoted. by rewrite <- !app_assoc.
  - cbn. unfold quoted. rewrite escape_safe by apply encode_safe. by rewrite <- !app_assoc.
  - by destruct b.
  - done.
  - cbn [shape_ok] in Hsh. apply andb_prop in Hsh as [_ Hsh]. rewrite concat_fields, comma_list_first.
    + cbn [option_map dom_of tagged print map fst snd joined]. f_equal. change (map _ m) with (dom_fields m). cbn. by rewrite <- !app_assoc.
    + clear -Hm Hsh. induction Hm as [|[k [v|]] m Hv _ IH]; [constructor| |by simpl in Hsh]. cbn [forallb snd] in Hsh. apply andb_prop in Hsh as [H1 H2].
      constructor; [|by apply IH]. exists v. split; [done|]. by apply Hv.
  - cbn [shape_ok] in Hsh. rewrite concat_elements, comma_list_first.
    + cbn [option_map dom_of tagged print map fst snd joined]. f_equal. fold dom_ptr. cbn. by rewrite <- !app_assoc.
    + clear -Hl Hsh. induction Hl as [|[v|] l Hv _ IH]; [constructor| |by simpl in Hsh]. cbn [forallb] in Hsh. apply andb_prop in Hsh as [H1 H2].
      constructor; [|by apply IH]. exists v. split; [done|]. by apply Hv.
  - rewrite (concat_strings escape_json (fun s => s)), comma_list_first by apply escape_json_spec. cbn. by rewrite <- !app_assoc.
  - rewrite (concat_strings escape_json (fun s => s)), comma_list_first by apply escape_json_spec. cbn. by rewrite <- !app_assoc.
  - rewrite (concat_strings base64_encode base64_encode), comma_list_first by (intros s; by rewrite escape_safe by apply encode_safe). cbn. by rewrite <- !app_assoc.
Qed.

(** ** Reading values back *)

(** Every number is in canonical form. *)
Fixpoint numbers_normal (v : AttributeValue) : Prop :=
  match v with
  | AV_N s => normalize_number s = s
  | AV_NS vs => Forall (fun s => normalize_number s = s) vs
  | AV_M m => (fix all m := match m with [] => True | (_, p) :: m => match p with Some v => numbers_normal v | None => True end /\ all m end) m
  | AV_L l => (fix all l := match l with [] => True | p :: l => match p with Some v => numbers_normal v | None => True end /\ all l end) l
  | _ => True
  end.

Definition ptr_normal (p : AttrPtr) : Prop := match p with Some v => numbers_normal v | None => True end.

Lemma normal_map m : numbers_normal (AV_M m) <-> Forall (fun e => ptr_normal e.2) m.
Proof. cbn [numbers_normal]. induction m as [|[k p] m IH]; [by split|]. rewrite Forall_cons. cbn [snd]. rewrite <- IH. done. Qed.

Lemma normal_list l : numbers_normal (AV_L l) <-> Forall ptr_normal l.
Proof. cbn [numbers_normal]. induction l as [|p l IH]; [by split|]. rewrite Forall_cons, <- IH. done. Qed.

Lemma parse_strings_map f g vs : Forall (fun s => f (g s) = Some s) vs -> parse_strings f (map (fun s => JStr (g s)) vs) = Some vs.
Proof. induction 1 as [|s vs Hs _ IH]; [done|]. cbn [map parse_strings get_string]. by rewrite Hs, IH. Qed.

Lemma parse_fields_dom m : Forall (fun e => exists v, e.2 = Some v /\ parse_attribute_value (dom_of v) = Some v) m -> forall acc, msorted (acc ++ m) ->
  parse_fields parse_attribute_value (dom_fields m) acc = Some (acc ++ m).
Proof.
  induction 1 as [|[k p] m (v & E & Hv) _ IH]; intros acc Hs; [by rewrite app_nil_r|]. cbn [snd] in E. subst p. cbn [dom_fields map parse_fields fst snd dom_ptr].
  fold (dom_fields m). rewrite Hv. rewrite mset_last.
  - rewrite IH; rewrite <- app_assoc; done.
  - apply msorted_app in Hs as (_ & _ & Hs). eapply Forall_impl; [exact Hs|]. intros e He. unfold above in He. by apply Forall_cons in He as [He _].
Qed.

Lemma parse_elements_dom l : Forall (fun p => exists v, p = Some v /\ parse_attribute_value (dom_of v) = Some v) l ->
  parse_elements parse_attribute_value (map dom_ptr l) = Some l.
Proof. induction 1 as [|p l (v & -> & Hv) _ IH]; [done|]. cbn [map parse_elements dom_ptr]. by rewrite Hv, IH. Qed.

Lemma parse_dom v : shape_ok v = true -> numbers_normal v -> parse_attribute_value (dom_of v) = Some v.
Proof.
  induction v as [s|s|s|b| |m Hm|l Hl|vs|vs|vs] using av_ind; intros Hsh Hn; try done.
  - cbn in Hn |- *. by rewrite Hn.
  - cbn. by rewrite base64_decodes.
  - cbn [shape_ok] in Hsh. apply andb_prop in Hsh as [Hs Hsh]. apply msortedb_sound in Hs. apply normal_map in Hn.
    change (dom_of (AV_M m)) with (tagged "M" (JObj (dom_fields m))). cbn. rewrite (parse_fields_dom m) with (acc := []); [done| |done].
    clear Hs. induction Hm as [|[k [v|]] m Hv _ IH]; [constructor| |by simpl in Hsh]. cbn [forallb snd] in Hsh. apply andb_prop in Hsh as [H1 H2]. apply Forall_cons in Hn as [N1 N2].
    constructor; [|by apply IH]. exists v. split; [done|]. by apply Hv.
  - cbn [shape_ok] in Hsh. apply normal_list in Hn. change (dom_of (AV_L l)) with (tagged "L" (JArr (map dom_ptr l))). cbn. rewrite parse_elements_dom; [done|].
    induction Hl as [|[v|] l Hv _ IH]; [constructor| |by simpl in Hsh]. cbn [forallb] in Hsh. apply andb_prop in Hsh as [H1 H2]. apply Forall_cons in Hn as [N1 N2].
    constructor; [|by apply IH]. exists v. split; [done|]. by apply Hv.
  - cbn. rewrite (parse_strings_map Some (fun s => s)); [done|]. by apply Forall_forall.
  - cbn in Hn |- *. rewrite (parse_strings_map (fun s => Some (normalize_number s)) (fun s => s)); [done|]. eapply Forall_impl; [exact Hn|]. simpl. congruence.
  - cbn. rewrite (parse_strings_map base64_decode base64_encode); [done|]. apply Forall_forall. intros s _. apply base64_decodes.
Qed.

(** ** Items *)

Lemma shape_values (item : AttributeMap) (P : AttributeValue -> Prop) : shape_ok (AV_M item) = true ->
  (forall k v, In (k, Some v) item -> shape_ok v = true -> P v) -> Forall (fun e => exists v, e.2 = Some v /\ P v) item.
Proof.
  cbn [shape_ok]. intros [_ Hs]%andb_prop HP. rewrite forallb_forall in Hs. apply Forall_forall. intros [k p] Hin%list_elem_of_In. specialize (Hs _ Hin). cbn [snd] in *.
  destruct p as [v|]; [|done]. exists v. split; [done|]. by apply (HP k).
Qed.

Lemma serialize_item_print item : shape_ok (AV_M item) = true -> serialize_item item = Some (print kHex (JObj (dom_fields item))).
Proof.
  intros Hs. unfold serialize_item. rewrite concat_fields by (apply shape_values; [done|]; intros; by apply serialize_print). by rewrite comma_list_first.
Qed.

Lemma item_plain item : plain (JObj (dom_fields item)) = true.
Proof.
  cbn [plain]. unfold dom_fields. rewrite forallb_forall. intros f (e & <- & _)%in_map_iff. cbn [snd]. destruct e.2 as [v|]; [apply dom_plain|done].
Qed.

Lemma parse_item_dom item : shape_ok (AV_M item) = true -> numbers_normal (AV_M item) -> parse_fields parse_attribute_value (dom_fields item) [] = Some item.
Proof.
  intros Hs Hn. apply (parse_fields_dom item) with (acc := []); [|cbn [shape_ok] in Hs; apply andb_prop in Hs as [Hs _]; by apply msortedb_sound].
  apply shape_values; [done|]. intros k v Hin Hv. apply normal_map in Hn. rewrite Forall_forall in Hn. apply list_elem_of_In, Hn in Hin. by apply parse_dom.
Qed.

(** ** What parsing produces *)

(** The numbers of a document have exponents of moderate size. *)
Definition moderate_string (j : Json) : bool := match j with JStr s => moderate s | _ => true end.

Fixpoint moderate_doc (j : Json) : bool :=
  match j with
  | JObj [(k, v)] =>
      (if bytes_eqb k (lit "N") then moderate_string v
       else if bytes_eqb k (lit "NS") then match v with JArr l => forallb moderate_string l | _ => true end
       else true) && moderate_doc v
  | JObj l => forallb (fun f => moderate_doc f.2) l
  | JArr l => forallb moderate_doc l
  | _ => true
  end.

Lemma moderate_fields l : moderate_doc (JObj l) = true -> forallb (fun f => moderate_doc f.2) l = true.
Proof.
  destruct l as [|[k v] [|f l]]; [done| |done]. cbn [moderate_doc forallb snd]. intros [_ H]%andb_prop. by rewrite H.
Qed.

Lemma parse_strings_normal l vs : forallb moderate_string l = true -> parse_strings (fun s => Some (normalize_number s)) l = Some vs ->
  Forall (fun s => normalize_number s = s) vs.
Proof.
  revert vs. induction l as [|j l IH]; intros vs Hm; cbn [parse_strings]; [intros [= <-]; constructor|]. cbn [forallb] in Hm. apply andb_prop in Hm as [Hj Hm].
  destruct j as [| | |s| |]; try done. cbn [get_string]. destruct (parse_strings _ l) as [r|] eqn:E; [|done]. intros [= <-]. constructor; [by apply normalize_idempotent|by apply IH].
Qed.

Definition parsed_ok (j : Json) : Prop := forall v, moderate_doc j = true -> parse_attribute_value j = Some v -> shape_ok v = true /\ numbers_normal v.

Lemma parse_fields_ok fields : Forall (fun f => parsed_ok f.2) fields -> forallb (fun f => moderate_doc f.2) fields = true -> forall acc m,
  shape_ok (AV_M acc) = true -> numbers_normal (AV_M acc) -> parse_fields parse_attribute_value fields acc = Some m -> shape_ok (AV_M m) = true /\ numbers_normal (AV_M m).
Proof.
  induction 1 as [|[k j] fields Hj _ IH]; intros Hm acc m Hs Hn; cbn [parse_fields]; [by intros [= <-]|]. cbn [forallb snd] in *. apply andb_prop in Hm as [Hmj Hm].
  destruct (parse_attribute_value j) as [v|] eqn:E; [|done]. destruct (Hj v Hmj E) as [Hv Hnv]. apply IH; [done| |].
  - cbn [shape_ok] in *. apply andb_prop in Hs as [H1 H2]. apply andb_true_intro. split; [by apply msortedb_sound, msorted_mset, msortedb_sound|].
    rewrite forallb_forall in *. intros x Hx%list_elem_of_In. revert x Hx. apply Forall_forall, Forall_mset_rows; [exact Hv|]. apply Forall_forall. intros x Hx. by apply H2, list_elem_of_In.
  - apply normal_map. apply Forall_mset_rows; [exact Hnv|]. by apply normal_map.
Qed.

Lemma parse_elements_ok l : Forall parsed_ok l -> forallb moderate_doc l = true -> forall r, parse_elements parse_attribute_value l = Some r ->
  shape_ok (AV_L r) = true /\ numbers_normal (AV_L r).
Proof.
  induction 1 as [|j l Hj _ IH]; intros Hm r; cbn [parse_elements]; [by intros [= <-]|]. cbn [forallb] in Hm. apply andb_prop in Hm as [Hmj Hm].
  destruct (parse_attribute_value j) as [v|] eqn:E; [|done]. destruct (parse_elements _ l) as [r'|]; [|done]. intros [= <-]. destruct (Hj v Hmj E) as [Hv Hnv].
  destruct (IH Hm r' eq_refl) as [H1 H2]. split; [cbn [shape_ok forallb] in *; by rewrite Hv|]. apply normal_list. constructor; [exact Hnv|by apply normal_list].
Qed.

(** The children of a document, two levels down included. *)
Lemma parse_ok j : parsed_ok j /\ match j with JObj l => Forall (fun f => parsed_ok f.2) l | JArr l => Forall parsed_ok l | _ => True end.
Proof.
  induction j as [|b|t|s|l IH|l IH] using json_ind; (split; [|try done]); try (intros v Hm H; done).
  - eapply Forall_impl; [exact IH|]. by intros j [? _].
  - intros v Hm. destruct l as [|[key x] [|f l]]; try done. apply Forall_cons in IH as [[_ Hx] _]. cbn [snd] in Hx. cbn [moderate_doc] in Hm. apply andb_prop in Hm as [Hnum Hm].
    cbn [parse_attribute_value]. destruct (bytes_eqb_spec key (lit "S")); [destruct x; try done; by intros [= <-]|].
    destruct (bytes_eqb_spec key (lit "N")).
    { destruct x; try done. intros [= <-]. split; [done|]. by apply normalize_idempotent. }
    destruct (bytes_eqb_spec key (lit "BOOL")); [destruct x; try done; by intros [= <-]|].
    destruct (bytes_eqb_spec key (lit "NULL")); [by intros [= <-]|].
    destruct (bytes_eqb_spec key (lit "M")).
    { destruct x as [| | | | |fields]; try done. destruct (parse_fields _ _ _) as [m|] eqn:E; [|done]. intros [= <-].
      eapply (parse_fields_ok fields); [done|by apply moderate_fields| | |exact E]; done. }
    destruct (bytes_eqb_spec key (lit "L")).
    { destruct x as [| | | |l|]; try done. destruct (parse_elements _ _) as [r|] eqn:E; [|done]. intros [= <-]. by eapply parse_elements_ok. }
    destruct (bytes_eqb_spec key (lit "B")); [destruct (get_string x) as [s|]; [|done]; destruct (base64_decode s); [|done]; by intros [= <-]|].
    destruct (bytes_eqb_spec key (lit "SS")); [destruct x; try done; destruct (parse_strings _ _); [|done]; by intros [= <-]|].
    destruct (bytes_eqb_spec key (lit "NS")).
    { destruct x as [| | | |l|]; try done. destruct (parse_strings _ _) as [vs|] eqn:E; [|done]. intros [= <-]. split; [done|]. by eapply parse_strings_normal. }
    destruct (bytes_eqb_spec key (lit "BS")); [destruct x; try done; destruct (parse_strings _ _); [|done]; by intros [= <-]|done].
  - eapply Forall_impl; [exact IH|]. by intros f [? _].
Qed.

(** ** Properties *)

(** C29: items survive JSON.  An item that was parsed from a document can be
    serialized without dereferencing a null pointer; the text is JSON, and
    parsing what a reader of the grammar reads in it gives the same item: strings with
    any octets, numbers (with exponents of moderate size), binary values, sets and
    nested documents. *)
Theorem item_json_roundtrip fields item :
  parse_fields parse_attribute_value fields [] = Some item -> forallb (fun f => moderate_doc f.2) fields = true ->
  exists text fields', serialize_item item = Some text /\ read_json text = Some (JObj fields') /\
    parse_fields parse_attribute_value fields' [] = Some item.
Proof.
  intros Hp Hm. destruct (parse_fields_ok fields) with (acc := @nil (bytes * AttrPtr)) (m := item) as [Hs Hn]; try done.
  { apply Forall_forall. intros f _. apply parse_ok. }
  eexists _, (dom_fields item). split; [by apply serialize_item_print|]. split; [apply (read_json_print kHex (or_introl eq_refl)), item_plain|by apply parse_item_dom].
Qed.

Definition demo_doc : list (bytes * Json) :=
  [(lit "pk", tagged "S" (JStr [Byte.x22; Byte.x5c; Byte.x01; Byte.xc3; Byte.xa9])); (lit "n", tagged "N" (JStr (lit "+01.50")));
   (lit "m", tagged "M" (JObj [(lit "z", tagged "L" (JArr [tagged "NULL" (JBool true); tagged "B" (JStr (lit "AP8="))])); (lit "a", tagged "NS" (JArr [JStr (lit "1e2")]))]))].

Lemma item_json_roundtrip_witness : exists item text fields',
  parse_fields parse_attribute_value demo_doc [] = Some item /\ serialize_item item = Some text /\
  read_json text = Some (JObj fields') /\ parse_fields parse_attribute_value fields' [] = Some item.
Proof.
  destruct (parse_fields parse_attribute_value demo_doc []) as [item|] eqn:E; [|exfalso; revert E; vm_compute; discriminate].
  destruct (item_json_roundtrip demo_doc item E ltac:(vm_compute; reflexivity)) as (text & fields' & H1 & H2 & H3). by exists item, text, fields'.
Defined.

End Json.
