(* ===== verification/JsonWriter.v ===== *)
(** * The bounded JSON writer

    [src/json/json_writer.cpp]: [JsonWriter] writes attribute values into a buffer of
    fixed size and gives up with an error when the buffer is full or the value is
    nested too deeply.  [write_number] of a [double] is left out: it prints the
    shortest decimal of [std::to_chars]. *)

From Stdlib Require Import ZArith Lia Strings.String.
From stdpp Require Import prelude.
From S2P Require Import Prelude StdMap Types CLib RecordCodec NumberText Base64 Json.
Import Base64 Json.

Module JsonWriter.

Inductive SerializationError := BufferFull | InvalidType | DepthLimitExceeded.

Record Writer := { buffer_ : bytes; offset_ : Z; depth_ : Z }.

Definition make (buffer : bytes) : Writer := {| buffer_ := buffer; offset_ := 0; depth_ := 0 |}.

Definition reset (w : Writer) : Writer := {| buffer_ := buffer_ w; offset_ := 0; depth_ := 0 |}.

(** A call: the writer it leaves and what it returns. *)
Definition call : Type := Writer -> Writer * expected unit SerializationError.

(** [if (auto r = m1; !r) return r;] followed by the rest. *)
Definition andthen (m1 m2 : call) : call := fun w =>
  let '(w', r) := m1 w in match r with Ok _ => m2 w' | Err e => (w', Err e) end.

Declare Scope writer_scope.
Delimit Scope writer_scope with writer.
Bind Scope writer_scope with call.
Notation "m1 ;> m2" := (andthen m1 m2) (at level 61, left associativity) : writer_scope.
#[local] Open Scope writer_scope.

Definition inc_depth : call := fun w => ({| buffer_ := buffer_ w; offset_ := offset_ w; depth_ := depth_ w + 1 |}, Ok tt).
Definition dec_depth : call := fun w => ({| buffer_ := buffer_ w; offset_ := offset_ w; depth_ := depth_ w - 1 |}, Ok tt).

(** [raw] copied to the offset. *)
Definition put (raw : bytes) (w : Writer) : Writer :=
  {| buffer_ := take (Z.to_nat (offset_ w)) (buffer_ w) ++ raw ++ drop (Z.to_nat (offset_ w) + length raw) (buffer_ w);
     offset_ := offset_ w + len raw;
     depth_ := depth_ w |}.

Definition write_raw (raw : bytes) : call := fun w =>
  if len (buffer_ w) <? offset_ w + len raw then (w, Err BufferFull) else (put raw w, Ok tt).

Definition write_char (c : byte) : call := fun w =>
  if len (buffer_ w) <? offset_ w + 1 then (w, Err BufferFull) else (put [c] w, Ok tt).

Definition done_ : call := fun w => (w, Ok tt).

Definition escaped_char (c : byte) : call :=
  if (bval c <? 32) || is_char 34 c || is_char 92 c then
    if is_char 34 c then write_raw [Byte.x5c; Byte.x22]
    else if is_char 92 c then write_raw [Byte.x5c; Byte.x5c]
    else if is_char 8 c then write_raw (lit "\b")
    else if is_char 12 c then write_raw (lit "\f")
    else if is_char 10 c then write_raw (lit "\n")
    else if is_char 13 c then write_raw (lit "\r")
    else if is_char 9 c then write_raw (lit "\t")
    else write_raw (lit "\u00" ++ [default Byte.x00 (kHexLower !! Z.to_nat (Z.land (Z.shiftr (bval c) 4) 0xf));
                                   default Byte.x00 (kHexLower !! Z.to_nat (Z.land (bval c) 0xf))])
  else write_char c.

Fixpoint write_escaped_string (str : bytes) : call :=
  match str with [] => done_ | c :: str' => escaped_char c ;> write_escaped_string str' end.

Definition write_string (str : bytes) : call := write_char Byte.x22 ;> write_escaped_string str ;> write_char Byte.x22.

(** [write_number] of an integer; [std::to_chars] needs at most 20 characters. *)
Definition write_number (num : Z) : call := fun w =>
  if len (buffer_ w) <? offset_ w + 24 then (w, Err BufferFull)
  else if len (buffer_ w) <? offset_ w + len (dec_of_Z num) then (w, Err BufferFull)
  else (put (dec_of_Z num) w, Ok tt).

Definition write_bool (b : bool) : call := if b then write_raw (lit "true") else write_raw (lit "false").
Definition write_null : call := write_raw (lit "null").

(** The loops over children. *)
Section Elements.
Context {A : Type} (element : A -> call).

Fixpoint write_elements (first : bool) (l : list A) : call :=
  match l with
  | [] => done_
  | x :: l' => (if first then done_ else write_char Byte.x2c) ;> element x ;> write_elements false l'
  end.
End Elements.

Fixpoint write (val : AttributeValue) : call := fun w =>
  let child (v : AttrPtr) := match v with Some v => write v | None => write_raw (q "{'NULL':true}") end in
  if 32 <? depth_ w then (w, Err DepthLimitExceeded)
  else
   (inc_depth ;> write_raw (lit "{") ;>
    match val with
    | AV_S s => write_raw (q "'S':") ;> write_string s
    | AV_N s => write_raw (q "'N':") ;> write_string s
    | AV_BOOL b => write_raw (q "'BOOL':") ;> write_bool b
    | AV_NUL => write_raw (q "'NULL':true")
    | AV_B b => write_raw (q "'B':") ;> write_string (base64_encode b)
    | AV_SS values => write_raw (q "'SS':[") ;> write_elements write_string true values ;> write_char Byte.x5d
    | AV_NS values => write_raw (q "'NS':[") ;> write_elements write_string true values ;> write_char Byte.x5d
    | AV_BS values => write_raw (q "'BS':[") ;> write_elements (fun b => write_string (base64_encode b)) true values ;> write_char Byte.x5d
    | AV_M m => write_raw (q "'M':{") ;> write_elements (fun e => write_string e.1 ;> write_char Byte.x3a ;> child e.2) true m ;> write_char Byte.x7d
    | AV_L l => write_raw (q "'L':[") ;> write_elements child true l ;> write_char Byte.x5d
    end ;>
    write_raw (lit "}") ;> dec_depth) w.

Lemma write_demo : let w := (write (AV_M [(lit "a", Some (AV_N (lit "1"))); (lit "b", None)]) (make (repeat Byte.x00 50))).1 in
  take (Z.to_nat (offset_ w)) (buffer_ w) = q "{'M':{'a':{'N':'1'},'b':{'NULL':true}}}" /\ depth_ w = 0.
Proof. vm_compute. done. Qed.

(** ** What a call emits *)

Definition writer_ok (w : Writer) : Prop := 0 <= offset_ w <= len (buffer_ w).

Definition room (w : Writer) : Z := len (buffer_ w) - offset_ w.

(** The states a call may leave that was to emit [t] from nesting depth [d], to end at [d'],
    and that meets no value nested too deeply when [ok]. *)
Definition emits (d d' : Z) (m : call) (t : bytes) (ok : bool) : Prop := forall w, writer_ok w -> depth_ w = d ->
  exists p s, t = p ++ s /\ len p <= room w /\
    buffer_ (m w).1 = buffer_ (put p w) /\ offset_ (m w).1 = offset_ w + len p /\
    match (m w).2 with
    | Ok _ => s = [] /\ ok = true /\ depth_ (m w).1 = d'
    | Err BufferFull => room w < len t
    | Err DepthLimitExceeded => ok = false
    | Err InvalidType => False
    end.

Lemma put_length p w : writer_ok w -> len p <= room w -> len (buffer_ (put p w)) = len (buffer_ w).
Proof. unfold writer_ok, room, len. intros Hw Hp. cbn [put buffer_]. rewrite !length_app, length_take, length_drop. lia. Qed.

Lemma put_nil w : writer_ok w -> buffer_ (put [] w) = buffer_ w.
Proof. intros Hw. cbn [put buffer_ length app]. by rewrite Nat.add_0_r, take_drop. Qed.

(** Two copies one after the other are one copy. *)
Lemma put_app p p' w : writer_ok w -> len p <= room w -> buffer_ (put p' (put p w)) = buffer_ (put (p ++ p') w).
Proof.
  unfold writer_ok, room, len. intros Hw Hp. cbn [put buffer_ offset_]. set (b := buffer_ w) in *. set (n := Z.to_nat (offset_ w)).
  assert (E : Z.to_nat (offset_ w + Z.of_nat (length p)) = (n + length p)%nat) by (subst n; lia).
  unfold len. rewrite E. assert (Hn : length (take n b) = n) by (rewrite length_take; subst n; lia).
  rewrite (app_assoc (take n b) p), take_app_le, take_ge by (rewrite length_app, Hn; lia). rewrite <- !app_assoc. do 3 f_equal.
  rewrite app_assoc, drop_app_ge by (rewrite length_app, Hn; lia). rewrite drop_drop, !length_app, Hn. f_equal. lia.
Qed.

Lemma put_depth d w : buffer_ (put d w) = take (Z.to_nat (offset_ w)) (buffer_ w) ++ d ++ drop (Z.to_nat (offset_ w) + length d) (buffer_ w).
Proof. done. Qed.

(** A copy only looks at the buffer and the offset. *)
Lemma put_cong p w w' : buffer_ w = buffer_ w' -> offset_ w = offset_ w' -> buffer_ (put p w) = buffer_ (put p w').
Proof. intros E1 E2. by rewrite !put_depth, E1, E2. Qed.

Lemma emits_andthen d d1 d2 m1 m2 t1 t2 ok1 ok2 : emits d d1 m1 t1 ok1 -> emits d1 d2 m2 t2 ok2 -> emits d d2 (m1 ;> m2) (t1 ++ t2) (ok1 && ok2).
Proof.
  intros H1 H2 w Hw Hd. destruct (H1 w Hw Hd) as (p & s & -> & Hp & Eb & Eo & Hr). unfold andthen. destruct (m1 w) as [w1 [[]|e]]; cbn [fst snd] in *.
  - destruct Hr as (-> & -> & Hd1). assert (Hlen : len (buffer_ w1) = len (buffer_ w)) by (rewrite Eb; by apply put_length).
    assert (Hw1 : writer_ok w1) by (unfold writer_ok, room in *; pose proof (len_nonneg p); lia).
    destruct (H2 w1 Hw1 Hd1) as (p' & s' & -> & Hp' & Eb' & Eo' & Hr'). unfold room in *. rewrite app_nil_r.
    exists (p ++ p'), s'. rewrite len_app. split_and!; [by rewrite app_assoc|lia| |lia|].
    + rewrite Eb'. rewrite <- (put_app p p' w) by (done || unfold room; lia). by apply put_cong.
    + destruct ((m2 w1).2) as [|[]]; [done| |done|done]. rewrite !len_app in *. lia.
  - exists p, (s ++ t2). split_and!; [by rewrite app_assoc|done..|]. destruct e; [|done|by rewrite Hr]. rewrite !len_app in *. pose proof (len_nonneg t2). lia.
Qed.

Lemma emits_raw d t : emits d d (write_raw t) t true.
Proof.
  intros w Hw Hd. unfold write_raw, writer_ok, room in *. destruct (Z.ltb_spec (len (buffer_ w)) (offset_ w + len t)); cbn [fst snd].
  - exists [], t. change (len []) with 0. rewrite put_nil by done. split_and!; try done; lia.
  - exists t, []. rewrite app_nil_r. split_and!; try done; lia.
Qed.

Lemma emits_char d c : emits d d (write_char c) [c] true.
Proof. apply (emits_raw d [c]). Qed.

Lemma emits_done d : emits d d done_ [] true.
Proof. intros w Hw Hd. exists [], []. rewrite put_nil by done. unfold room, writer_ok in *. change (len []) with 0. cbn [done_ fst snd]. split_and!; try done; lia. Qed.

Lemma emits_depth d m d' : (forall w, (m w).2 = Ok tt /\ buffer_ (m w).1 = buffer_ w /\ offset_ (m w).1 = offset_ w /\ (depth_ w = d -> depth_ (m w).1 = d')) -> emits d d' m [] true.
Proof.
  intros Hm w Hw Hd. destruct (Hm w) as (E & Eb & Eo & Ed). exists [], []. rewrite put_nil, E by done. unfold room, writer_ok in *. change (len []) with 0.
  split_and!; try done; try lia.
Qed.

Lemma emits_eq d d' m t t' ok ok' : emits d d' m t ok -> t = t' -> ok = ok' -> emits d d' m t' ok'.
Proof. by intros H <- <-. Qed.

Lemma emits_escaped_char d c : emits d d (escaped_char c) (escape_char kHexLower c) true.
Proof. destruct c; first [exact (emits_char d _) | exact (emits_raw d _)]. Qed.

Lemma emits_escaped d s : emits d d (write_escaped_string s) (escape kHexLower s) true.
Proof. induction s as [|c s IH]; [apply emits_done|]. cbn [write_escaped_string escape]. exact (emits_andthen _ _ _ _ _ _ _ _ _ (emits_escaped_char d c) IH). Qed.

Lemma emits_string d s : emits d d (write_string s) (quoted kHexLower s) true.
Proof.
  unfold write_string. eapply emits_eq; [eapply emits_andthen; [eapply emits_andthen; [apply emits_char|apply emits_escaped]|apply emits_char]| |done]. done.
Qed.

Lemma emits_bool d b : emits d d (write_bool b) (lit (if b then "true" else "false")) true.
Proof. destruct b; apply emits_raw. Qed.

Lemma emits_comma d (first : bool) : emits d d (if first then done_ else write_char Byte.x2c) (comma first) true.
Proof. destruct first; [apply emits_done|apply emits_char]. Qed.

(** A loop over children, each with its text. *)
Lemma emits_elements {A} d (element : A -> call) (text : A -> bytes) (ok : A -> bool) l : Forall (fun x => emits d d (element x) (text x) (ok x)) l ->
  forall first, emits d d (write_elements element first l) (comma_list first (map text l)) (forallb ok l).
Proof.
  induction 1 as [|x l Hx _ IH]; intros first; [apply emits_done|]. cbn [write_elements map forallb]. rewrite comma_list_cons.
  eapply emits_eq; [eapply emits_andthen; [eapply emits_andthen; [apply emits_comma|exact Hx]|apply IH]| |done]. by rewrite <- app_assoc.
Qed.

(** ** Nesting *)

(** The levels of nested values. *)
Fixpoint height (v : AttributeValue) : Z :=
  let ptr (p : AttrPtr) := match p with Some v => height v | None => 0 end in
  match v with
  | AV_M m => 1 + fold_right (fun e h => Z.max (ptr e.2) h) 0 m
  | AV_L l => 1 + fold_right (fun p h => Z.max (ptr p) h) 0 l
  | _ => 1
  end.

Definition ptr_height (p : AttrPtr) : Z := match p with Some v => height v | None => 0 end.

(** No level is deeper than the limit when the value starts at level [d]. *)
Definition shallow (d : Z) (h : Z) : bool := (h =? 0) || (d + h <=? 33).

Lemma height_pos v : 1 <= height v.
Proof.
  destruct v; cbn [height]; try lia; match goal with |- 1 <= 1 + ?x => enough (0 <= x) by lia end;
    match goal with |- 0 <= fold_right _ _ ?l => induction l; cbn [fold_right]; lia end.
Qed.

Lemma shallow_fold {A} d (h : A -> Z) l : (forall x, 0 <= h x) ->
  (d <=? 32) && forallb (fun x => shallow (d + 1) (h x)) l = (d + (1 + fold_right (fun x m => Z.max (h x) m) 0 l) <=? 33).
Proof.
  intros Hh. assert (Hf : forall l, 0 <= fold_right (fun x m => Z.max (h x) m) 0 l) by (clear l; induction l as [|x l IH]; cbn [fold_right]; lia).
  destruct (Z.leb_spec d 32) as [Hd|Hd]; cbn [andb]; [|specialize (Hf l); lia]. clear Hf.
  induction l as [|x l IH]; cbn [fold_right forallb]; [lia|]. rewrite IH. unfold shallow. specialize (Hh x).
  destruct (Z.eqb_spec (h x) 0), (Z.leb_spec (d + 1 + h x) 33); cbn [orb andb]; lia.
Qed.

(** ** Values *)

Lemma ptr_height_nonneg p : 0 <= ptr_height p.
Proof. destruct p as [v|]; [|done]. cbn [ptr_height]. pose proof (height_pos v). lia. Qed.

(** A value between its braces. *)
Lemma emits_value d body t ok : 0 <= d -> (d <= 32 -> emits (d + 1) (d + 1) body t ok) ->
  emits d d (fun w => if 32 <? depth_ w then (w, Err DepthLimitExceeded)
                      else (inc_depth ;> write_raw (lit "{") ;> body ;> write_raw (lit "}") ;> dec_depth) w) (lit "{" ++ t ++ lit "}") ((d <=? 32) && ok).
Proof.
  intros Hd0 Hb w Hw Hd. destruct (Z.ltb_spec 32 (depth_ w)).
  - cbn [fst snd]. exists [], (lit "{" ++ t ++ lit "}"). rewrite put_nil by done. unfold room, writer_ok in *. change (len []) with 0. split_and!; try done; try lia.
  - revert w Hw Hd H. assert (Hle : d <= 32 -> emits d d (inc_depth ;> write_raw (lit "{") ;> body ;> write_raw (lit "}") ;> dec_depth) (lit "{" ++ t ++ lit "}") ((d <=? 32) && ok)).
    { intros Hle. eapply emits_eq.
      - eapply emits_andthen; [eapply emits_andthen; [eapply emits_andthen; [eapply emits_andthen; [apply (emits_depth d inc_depth (d + 1))|apply emits_raw]|by apply Hb]|apply emits_raw]|apply (emits_depth (d + 1) dec_depth d)].
        + intros w. cbn. split_and!; try done. lia.
        + intros w. cbn. split_and!; try done. lia.
      - rewrite app_nil_r. cbn [app]. done.
      - destruct (Z.leb_spec d 32); [|lia]. by destruct ok. }
    intros w Hw Hd Hlt. apply Hle; [lia|done|done].
Qed.

Lemma emits_ptr d p : (forall v, p = Some v -> emits d d (write v) (print kHexLower (dom_of v)) (d + height v <=? 33)) ->
  emits d d (match p with Some v => write v | None => write_raw (q "{'NULL':true}") end) (print kHexLower (dom_ptr p)) (shallow d (ptr_height p)).
Proof.
  intros H. destruct p as [v|].
  - eapply emits_eq; [by apply H|done|]. unfold shallow. cbn [ptr_height]. pose proof (height_pos v). destruct (Z.eqb_spec (height v) 0); [lia|done].
  - apply emits_raw.
Qed.

(** The tag with the opening bracket, the children and the closing bracket. *)
Lemma emits_collection {A} d opening closing (element : A -> call) (text : A -> bytes) (ok : A -> bool) l :
  Forall (fun x => emits d d (element x) (text x) (ok x)) l ->
  emits d d (write_raw opening ;> write_elements element true l ;> write_char closing) (opening ++ joined (map text l) ++ [closing]) (forallb ok l).
Proof.
  intros H. eapply emits_eq; [eapply emits_andthen; [eapply emits_andthen; [apply emits_raw|by apply emits_elements]|apply emits_char]| |].
  - by rewrite comma_list_first, <- !app_assoc.
  - by rewrite andb_true_r.
Qed.

Lemma emits_strings {A} d opening closing (text : A -> bytes) l :
  emits d d (write_raw opening ;> write_elements (fun x => write_string (text x)) true l ;> write_char closing)
    (opening ++ joined (map (fun x => quoted kHexLower (text x)) l) ++ [closing]) true.
Proof.
  eapply emits_eq; [apply (emits_collection d opening closing _ (fun x => quoted kHexLower (text x)) (fun _ => true)); apply Forall_forall; intros x _; apply emits_string|done|].
  by induction l.
Qed.

Lemma emits_write v : forall d, 0 <= d -> emits d d (write v) (print kHexLower (dom_of v)) (d + height v <=? 33).
Proof.
  assert (Hleaf : forall d, (d <=? 32) && true = (d + 1 <=? 33)) by (intros d; rewrite andb_true_r; lia).
  induction v as [s|s|b|b| |m Hm|l Hl|vs|vs|vs] using av_ind; intros d Hd; (eapply emits_eq; [apply emits_value; [exact Hd|intros Hle]| |]).
  1,4,7: eapply emits_andthen; [apply emits_raw|apply emits_string].
  1-6: first [cbn; by rewrite <- ?app_assoc | apply Hleaf].
  1: eapply emits_andthen; [apply emits_raw|apply emits_bool].
  1-2: first [by destruct b | apply Hleaf].
  1: apply emits_raw.
  1-2: first [done | apply Hleaf].
  all: cbn [height].
  7,10,13: first [apply (emits_strings (d + 1) _ _ (fun s => s)) | apply (emits_strings (d + 1) _ _ base64_encode)].
  7-12: first [apply Hleaf | cbn; rewrite map_map; by rewrite <- ?app_assoc].
  - apply (emits_collection (d + 1) _ _ _ (fun e => quoted kHexLower e.1 ++ Byte.x3a :: print kHexLower (dom_ptr e.2)) (fun e => shallow (d + 1) (ptr_height e.2))).
    eapply Forall_impl; [exact Hm|]. intros [k p] Hp. cbn [fst snd].
    eapply emits_eq; [eapply emits_andthen; [eapply emits_andthen; [apply emits_string|apply emits_char]|apply (emits_ptr (d + 1) p)]| |done].
    + intros v ->. apply Hp. lia.
    + by rewrite <- app_assoc.
  - cbn. rewrite map_map. by rewrite <- ?app_assoc.
  - apply (shallow_fold d (fun e : bytes * AttrPtr => ptr_height e.2)). intros e. apply ptr_height_nonneg.
  - apply (emits_collection (d + 1) _ _ _ (fun p => print kHexLower (dom_ptr p)) (fun p => shallow (d + 1) (ptr_height p))).
    eapply Forall_impl; [exact Hl|]. intros p Hp. apply (emits_ptr (d + 1) p). intros v ->. apply Hp. lia.
  - cbn. rewrite map_map. by rewrite <- ?app_assoc.
  - apply (shallow_fold d ptr_height). intros p. apply ptr_height_nonneg.
Qed.

Definition written (w : Writer) : bytes := take (Z.to_nat (offset_ w)) (buffer_ w).

(** The bounded writer.  Writing a value at any nesting level appends a prefix of
    its JSON text to what the buffer holds and leaves the rest of the buffer alone.
    The call succeeds exactly when the text fits and the value is nested at most 33
    levels, and then the whole text was appended and the level restored;
    [BufferFull] is returned only when the text does not fit, [DepthLimitExceeded] only
    when the nesting is too deep.  A text that was written is read back as the document
    of the value. *)
Theorem writer_exact w v : writer_ok w -> 0 <= depth_ w ->
  let text := print kHexLower (dom_of v) in let w' := (write v w).1 in let r := (write v w).2 in
  exists p s, text = p ++ s /\ written w' = written w ++ p /\ drop (length (written w')) (buffer_ w') = drop (length (written w')) (buffer_ w) /\
    (r = Ok tt <-> depth_ w + height v <= 33 /\ offset_ w + len text <= len (buffer_ w)) /\
    (r = Ok tt -> p = text /\ depth_ w' = depth_ w) /\
    (r = Err BufferFull -> len (buffer_ w) < offset_ w + len text) /\
    (r = Err DepthLimitExceeded -> 33 < depth_ w + height v) /\
    read_json text = Some (dom_of v).
Proof.
  intros Hw Hd text w' r. destruct (emits_write v (depth_ w) Hd w Hw eq_refl) as (p & s & Et & Hp & Eb & Eo & Hr).
  fold text w' r in Et, Eb, Eo, Hr. exists p, s. split; [done|]. unfold writer_ok, room, len in *.
  assert (Hn : length (take (Z.to_nat (offset_ w)) (buffer_ w)) = Z.to_nat (offset_ w)) by (rewrite length_take; lia).
  assert (Ew : written w' = written w ++ p).
  { unfold written. rewrite Eo, Eb. cbn [put buffer_]. rewrite app_assoc, take_app_le, take_ge; [done|rewrite length_app, Hn; lia..]. }
  split; [done|]. split.
  { rewrite Ew. unfold written. rewrite length_app, Hn, Eb. cbn [put buffer_]. rewrite app_assoc, drop_app_length'; [done|by rewrite length_app, Hn]. }
  assert (Hread : read_json text = Some (dom_of v)) by (apply read_json_print; [by right|apply dom_plain]).
  destruct r as [[]|[]]; [destruct Hr as (-> & Hok & Hdep)| |done|]; rewrite ?app_nil_r in *.
  - apply Z.leb_le in Hok. split_and!; try done. subst text. rewrite Et in *. split; [intros _; split; lia|done].
  - split_and!; try done; [split; [done|lia]|lia].
  - apply Z.leb_gt in Hr. split_and!; try done; split; [done|lia].
Qed.

Lemma writer_exact_witness : let v := AV_M [(lit "a", Some (AV_L [None; Some (AV_S (lit "x"))]))] in let w := make (repeat Byte.x00 60) in
  (write v w).2 = Ok tt /\ read_json (print kHexLower (dom_of v)) = Some (dom_of v).
Proof.
  intros v w. destruct (writer_exact w v ltac:(vm_compute; split; discriminate) ltac:(vm_compute; discriminate)) as (p & s & _ & _ & _ & Hok & _ & _ & _ & Hread).
  split; [apply Hok; vm_compute; split; discriminate|exact Hread].
Defined.

End JsonWriter.
