(* ===== verification/TableJson.v ===== *)
(** * Table definitions from JSON

    [src/json/serializer.cpp]: [JsonParser::parse_table_definition], the reader of
    the body of a CreateTable request, and [JsonSerializer::calculate_item_size].
    A missing member or one of the wrong type leaves the field as it was.  The code
    leaves [projection_type] of an index without a [Projection] member uninitialised:
    its value is the argument [indeterminate] here. *)

From Stdlib Require Import ZArith Lia Strings.String.
From stdpp Require Import prelude.
From S2P Require Import Prelude StdMap Types CLib RecordCodec NumberText Base64 Json.
Import Json.

Module TableJson.

(** ** Access to a document *)

(** [el[key]]: the first member of that name. *)
Fixpoint find_member (key : bytes) (fields : list (bytes * Json)) : option Json :=
  match fields with
  | [] => None
  | (k, v) :: fields' => if bytes_eqb k key then Some v else find_member key fields'
  end.

Definition at_key (el : Json) (key : string) : option Json :=
  match el with JObj fields => find_member (lit key) fields | _ => None end.

Definition get_string_at (el : Json) (key : string) : option bytes :=
  match at_key el key with Some j => get_string j | None => None end.

Definition get_array (j : Json) : option (list Json) := match j with JArr l => Some l | _ => None end.

Definition get_array_at (el : Json) (key : string) : option (list Json) :=
  match at_key el key with Some j => get_array j | None => None end.

Definition get_bool_at (el : Json) (key : string) : option bool :=
  match at_key el key with Some (JBool b) => Some b | _ => None end.

(** [get_int64]: an integer literal in the range of the type. *)
Definition int64_text (t : bytes) : option Z :=
  let '(neg, ds) := match t with c :: r => if is_char 45 c then (true, r) else (false, t) | [] => (false, []) end in
  if negb (forallb isdigit ds) || bool_decide (ds = []) then None
  else let n := if neg then - parse_dec ds else parse_dec ds in
       if (- 2 ^ 63 <=? n) && (n <? 2 ^ 63) then Some n else None.

Definition get_int64_at (el : Json) (key : string) : option Z :=
  match at_key el key with Some (JNum t) => int64_text t | _ => None end.

Arguments at_key el key%_string.
Arguments get_string_at el key%_string.
Arguments get_array_at el key%_string.
Arguments get_bool_at el key%_string.
Arguments get_int64_at el key%_string.

(** ** The parser *)

Definition parse_key_type (s : bytes) : KeyType := if bytes_eqb s (lit "RANGE") then RANGE else HASH.

Definition parse_attribute_type (s : bytes) : option AttributeType :=
  if bytes_eqb s (lit "S") then Some T_S
  else if bytes_eqb s (lit "N") then Some T_N
  else if bytes_eqb s (lit "B") then Some T_B
  else None.

Fixpoint key_elements (arr : list Json) : list KeySchemaElement :=
  match arr with
  | [] => []
  | elem :: arr' =>
      match get_string_at elem "AttributeName", get_string_at elem "KeyType" with
      | Some attr_name, Some key_type => {| attribute_name := attr_name; key_type := parse_key_type key_type |} :: key_elements arr'
      | _, _ => key_elements arr'
      end
  end.

Definition parse_key_schema (el : Json) : list KeySchemaElement :=
  match get_array el with Some arr => key_elements arr | None => [] end.

Fixpoint strings_of (arr : list Json) : list bytes :=
  match arr with
  | [] => []
  | a :: arr' => match get_string a with Some v => v :: strings_of arr' | None => strings_of arr' end
  end.

Definition parse_projection (el : Json) : Projection :=
  {| projection_type :=
       match get_string_at el "ProjectionType" with
       | Some ptype =>
           if bytes_eqb ptype (lit "KEYS_ONLY") then PT_KEYS_ONLY
           else if bytes_eqb ptype (lit "INCLUDE") then PT_INCLUDE
           else PT_ALL
       | None => PT_ALL
       end;
     non_key_attributes := match get_array_at el "NonKeyAttributes" with Some nka => strings_of nka | None => [] end |}.

Section Parser.
Context (indeterminate : ProjectionType).

Definition index_projection (g : Json) : Projection :=
  match at_key g "Projection" with
  | Some proj => parse_projection proj
  | None => {| projection_type := indeterminate; non_key_attributes := [] |}
  end.

Definition index_key_schema (g : Json) : list KeySchemaElement :=
  match at_key g "KeySchema" with Some ks => parse_key_schema ks | None => [] end.

Fixpoint parse_gsis (gsis : list Json) : list GlobalSecondaryIndex :=
  match gsis with
  | [] => []
  | g :: gsis' =>
      match get_string_at g "IndexName" with
      | None => parse_gsis gsis'
      | Some iname =>
          {| gsi_index_name := iname; gsi_key_schema := index_key_schema g; gsi_projection := index_projection g;
             gsi_provisioned_throughput := throughput_default |} :: parse_gsis gsis'
      end
  end.

Fixpoint parse_lsis (lsis : list Json) : list LocalSecondaryIndex :=
  match lsis with
  | [] => []
  | li :: lsis' =>
      match get_string_at li "IndexName" with
      | None => parse_lsis lsis'
      | Some iname =>
          {| lsi_index_name := iname; lsi_key_schema := index_key_schema li; lsi_projection := index_projection li |} :: parse_lsis lsis'
      end
  end.

Fixpoint parse_attribute_definitions (attr_defs : list Json) (defs : list (bytes * AttributeType)) : list (bytes * AttributeType) :=
  match attr_defs with
  | [] => defs
  | elem :: attr_defs' =>
      parse_attribute_definitions attr_defs'
        (match get_string_at elem "AttributeName", get_string_at elem "AttributeType" with
         | Some attr_name, Some attr_type =>
             match parse_attribute_type attr_type with Some t => mset attr_name t defs | None => defs end
         | _, _ => defs
         end)
  end.

Definition parse_stream_specification (ss : Json) : StreamSpecification :=
  {| stream_enabled := default false (get_bool_at ss "StreamEnabled");
     stream_view_type :=
       match get_string_at ss "StreamViewType" with
       | Some svt =>
           Some (if bytes_eqb svt (lit "KEYS_ONLY") then SV_KEYS_ONLY
                 else if bytes_eqb svt (lit "NEW_IMAGE") then SV_NEW_IMAGE
                 else if bytes_eqb svt (lit "OLD_IMAGE") then SV_OLD_IMAGE
                 else SV_NEW_AND_OLD_IMAGES)
       | None => None
       end |}.

Definition parse_table_definition (el : Json) : TableDefinition :=
  let billing := match get_string_at el "BillingMode" with
                 | Some b => if bytes_eqb b (lit "PROVISIONED") then PROVISIONED else PAY_PER_REQUEST
                 | None => PAY_PER_REQUEST
                 end in
  let '(rcu, wcu) := match at_key el "ProvisionedThroughput" with
                     | Some pt => (default 0 (get_int64_at pt "ReadCapacityUnits"), default 0 (get_int64_at pt "WriteCapacityUnits"))
                     | None => (0, 0)
                     end in
  {| table_name := default [] (get_string_at el "TableName");
     key_schema := index_key_schema el;
     attribute_definitions := match get_array_at el "AttributeDefinitions" with Some l => parse_attribute_definitions l [] | None => [] end;
     billing_mode := if (0 <? rcu) || (0 <? wcu) then PROVISIONED else billing;
     provisioned_throughput := {| read_capacity_units := if 0 <? rcu then rcu else 0; write_capacity_units := if 0 <? wcu then wcu else 0 |};
     table_class := table_class table_definition_default;
     deletion_protection_enabled := deletion_protection_enabled table_definition_default;
     creation_epoch_seconds := creation_epoch_seconds table_definition_default;
     tags := tags table_definition_default;
     local_secondary_indexes := match get_array_at el "LocalSecondaryIndexes" with Some l => parse_lsis l | None => [] end;
     global_secondary_indexes := match get_array_at el "GlobalSecondaryIndexes" with Some l => parse_gsis l | None => [] end;
     stream_specification := option_map parse_stream_specification (at_key el "StreamSpecification");
     latest_stream_arn := latest_stream_arn table_definition_default;
     latest_stream_label := latest_stream_label table_definition_default;
     ttl_specification := ttl_specification table_definition_default;
     point_in_time_recovery := point_in_time_recovery table_definition_default |}.
End Parser.

(** [calculate_item_size]. *)
Definition calculate_item_size (item : AttributeMap) : Z :=
  fold_left (fun size e =>
    let size := size_saturating_add size (len e.1) in
    match e.2 with Some v => size_saturating_add size (attribute_size v) | None => size end) item 0.

(** ** Requests *)

(** The document a client sends for a definition. *)
Definition key_type_name (k : KeyType) : bytes := match k with HASH => lit "HASH" | RANGE => lit "RANGE" end.

Definition key_schema_doc (ks : list KeySchemaElement) : Json :=
  JArr (map (fun k => JObj [(lit "AttributeName", JStr (attribute_name k)); (lit "KeyType", JStr (key_type_name (key_type k)))]) ks).

Definition projection_name (p : ProjectionType) : bytes :=
  match p with PT_KEYS_ONLY => lit "KEYS_ONLY" | PT_INCLUDE => lit "INCLUDE" | PT_ALL => lit "ALL" end.

Definition projection_doc (p : Projection) : Json :=
  JObj [(lit "ProjectionType", JStr (projection_name (projection_type p))); (lit "NonKeyAttributes", JArr (map JStr (non_key_attributes p)))].

Definition index_doc (name : bytes) (ks : list KeySchemaElement) (p : Projection) : Json :=
  JObj [(lit "IndexName", JStr name); (lit "KeySchema", key_schema_doc ks); (lit "Projection", projection_doc p)].

Definition attribute_type_name (t : AttributeType) : bytes :=
  match t with T_S => lit "S" | T_N => lit "N" | _ => lit "B" end.

Definition attribute_doc (e : bytes * AttributeType) : Json :=
  JObj [(lit "AttributeName", JStr e.1); (lit "AttributeType", JStr (attribute_type_name e.2))].

Definition view_name (v : StreamViewType) : bytes :=
  match v with SV_KEYS_ONLY => lit "KEYS_ONLY" | SV_NEW_IMAGE => lit "NEW_IMAGE" | SV_OLD_IMAGE => lit "OLD_IMAGE" | SV_NEW_AND_OLD_IMAGES => lit "NEW_AND_OLD_IMAGES" end.

Definition stream_doc (s : StreamSpecification) : Json :=
  JObj ((lit "StreamEnabled", JBool (stream_enabled s)) :: match stream_view_type s with Some v => [(lit "StreamViewType", JStr (view_name v))] | None => [] end).

Definition throughput_doc (t : ProvisionedThroughput) : Json :=
  JObj [(lit "ReadCapacityUnits", JNum (dec_of_nonneg (read_capacity_units t))); (lit "WriteCapacityUnits", JNum (dec_of_nonneg (write_capacity_units t)))].

Definition create_table_doc (def : TableDefinition) : Json :=
  JObj ([(lit "TableName", JStr (table_name def));
         (lit "KeySchema", key_schema_doc (key_schema def));
         (lit "AttributeDefinitions", JArr (map attribute_doc (attribute_definitions def)));
         (lit "GlobalSecondaryIndexes", JArr (map (fun g => index_doc (gsi_index_name g) (gsi_key_schema g) (gsi_projection g)) (global_secondary_indexes def)));
         (lit "LocalSecondaryIndexes", JArr (map (fun l => index_doc (lsi_index_name l) (lsi_key_schema l) (lsi_projection l)) (local_secondary_indexes def)));
         (lit "BillingMode", JStr (match billing_mode def with PROVISIONED => lit "PROVISIONED" | PAY_PER_REQUEST => lit "PAY_PER_REQUEST" end));
         (lit "ProvisionedThroughput", throughput_doc (provisioned_throughput def))]
        ++ match stream_specification def with Some s => [(lit "StreamSpecification", stream_doc s)] | None => [] end).

(** The definitions a request can express. *)
Record requestable (def : TableDefinition) : Prop := {
  requestable_sorted : msorted (attribute_definitions def);
  requestable_types : Forall (fun e => e.2 = T_S \/ e.2 = T_N \/ e.2 = T_B) (attribute_definitions def);
  requestable_read : 0 <= read_capacity_units (provisioned_throughput def) < 2 ^ 63;
  requestable_write : 0 <= write_capacity_units (provisioned_throughput def) < 2 ^ 63;
  requestable_billing : billing_mode def = PAY_PER_REQUEST -> provisioned_throughput def = throughput_default;
  requestable_gsi : Forall (fun g => gsi_provisioned_throughput g = throughput_default) (global_secondary_indexes def);
  requestable_rest :
    def = {| table_name := table_name def; key_schema := key_schema def; attribute_definitions := attribute_definitions def;
             billing_mode := billing_mode def; provisioned_throughput := provisioned_throughput def;
             table_class := STANDARD; deletion_protection_enabled := false; creation_epoch_seconds := 0; tags := [];
             local_secondary_indexes := local_secondary_indexes def; global_secondary_indexes := global_secondary_indexes def;
             stream_specification := stream_specification def; latest_stream_arn := None; latest_stream_label := None;
             ttl_specification := None; point_in_time_recovery := pitr_default |}
}.

Lemma key_schema_read ks : parse_key_schema (key_schema_doc ks) = ks.
Proof. induction ks as [|[n k] ks IH]; [done|]. cbn in *. rewrite IH. by destruct k. Qed.

Lemma strings_read l : strings_of (map JStr l) = l.
Proof. induction l as [|s l IH]; [done|]. cbn. by rewrite IH. Qed.

Lemma projection_read p : parse_projection (projection_doc p) = p.
Proof. destruct p as [t nka]. unfold parse_projection. cbn -[strings_of]. rewrite strings_read. by destruct t. Qed.

Section Read.
Context (ind : ProjectionType).

Lemma index_read name ks p : get_string_at (index_doc name ks p) "IndexName" = Some name /\
  index_key_schema (index_doc name ks p) = ks /\ index_projection ind (index_doc name ks p) = p.
Proof.
  split; [done|]. split; [apply key_schema_read|]. apply projection_read.
Qed.

Lemma gsis_read l : Forall (fun g => gsi_provisioned_throughput g = throughput_default) l ->
  parse_gsis ind (map (fun g => index_doc (gsi_index_name g) (gsi_key_schema g) (gsi_projection g)) l) = l.
Proof.
  induction 1 as [|[n ks p t] l Ht _ IH]; [done|]. cbn [map parse_gsis gsi_index_name gsi_key_schema gsi_projection].
  destruct (index_read n ks p) as (-> & -> & ->). rewrite IH. cbn in Ht. by subst t.
Qed.

Lemma lsis_read l : parse_lsis ind (map (fun l => index_doc (lsi_index_name l) (lsi_key_schema l) (lsi_projection l)) l) = l.
Proof.
  induction l as [|[n ks p] l IH]; [done|]. cbn [map parse_lsis lsi_index_name lsi_key_schema lsi_projection].
  destruct (index_read n ks p) as (-> & -> & ->). by rewrite IH.
Qed.
End Read.

Lemma attributes_read l : Forall (fun e => e.2 = T_S \/ e.2 = T_N \/ e.2 = T_B) l -> forall acc, msorted (acc ++ l) ->
  parse_attribute_definitions (map attribute_doc l) acc = acc ++ l.
Proof.
  induction 1 as [|[n t] l Ht _ IH]; intros acc Hs; [by rewrite app_nil_r|].
  assert (E : parse_attribute_definitions (map attribute_doc ((n, t) :: l)) acc = parse_attribute_definitions (map attribute_doc l) (mset n t acc)).
  { cbn [snd] in Ht. by destruct Ht as [->|[->| ->]]. }
  rewrite E, mset_last.
  - rewrite IH; rewrite <- app_assoc; done.
  - apply msorted_app in Hs as (_ & _ & Hs). eapply Forall_impl; [exact Hs|]. intros e He. unfold above in He. by apply Forall_cons in He as [He _].
Qed.

Lemma int64_read n : 0 <= n < 2 ^ 63 -> int64_text (dec_of_nonneg n) = Some n.
Proof.
  intros Hn. unfold int64_text. pose proof (dec_of_isdigit n ltac:(lia)) as Hd. pose proof (dec_of_nonempty n) as Hne.
  destruct (dec_of_nonneg n) as [|c ds] eqn:E; [done|]. assert (Hc : is_char 45 c = false) by (apply Forall_cons in Hd as [Hc _]; destruct c; done).
  rewrite Hc. assert (Hall : forallb isdigit (c :: ds) = true) by (apply forallb_forall; intros x Hx%list_elem_of_In; by eapply Forall_forall in Hd).
  rewrite Hall. rewrite bool_decide_eq_false_2 by done. cbn [negb orb]. rewrite <- E, parse_dec_of by lia.
  destruct (Z.leb_spec (- 2 ^ 63) n), (Z.ltb_spec n (2 ^ 63)); (done || lia).
Qed.

Lemma stream_read s : parse_stream_specification (stream_doc s) = s.
Proof. destruct s as [e [[]|]]; done. Qed.

(** Table requests.  Whatever the uninitialised memory holds, the document of a
    CreateTable request is read as exactly the table definition it describes: key
    schema, attribute types, secondary indexes with their projections, billing mode,
    throughput and stream. *)
Theorem create_table_roundtrip indeterminate def : requestable def -> parse_table_definition indeterminate (create_table_doc def) = def.
Proof.
  intros [Hs Ht Hr Hw Hb Hg Hrest]. rewrite Hrest at 2. unfold parse_table_definition, get_string_at, get_array_at, get_int64_at, index_key_schema.
  set (doc := create_table_doc def).
  assert (E1 : at_key doc "TableName" = Some (JStr (table_name def))) by done.
  assert (E2 : at_key doc "KeySchema" = Some (key_schema_doc (key_schema def))) by done.
  assert (E3 : at_key doc "AttributeDefinitions" = Some (JArr (map attribute_doc (attribute_definitions def)))) by done.
  assert (E4 : at_key doc "GlobalSecondaryIndexes" = Some (JArr (map (fun g => index_doc (gsi_index_name g) (gsi_key_schema g) (gsi_projection g)) (global_secondary_indexes def)))) by done.
  assert (E5 : at_key doc "LocalSecondaryIndexes" = Some (JArr (map (fun l => index_doc (lsi_index_name l) (lsi_key_schema l) (lsi_projection l)) (local_secondary_indexes def)))) by done.
  assert (E6 : at_key doc "BillingMode" = Some (JStr (match billing_mode def with PROVISIONED => lit "PROVISIONED" | PAY_PER_REQUEST => lit "PAY_PER_REQUEST" end))) by done.
  assert (E7 : at_key doc "ProvisionedThroughput" = Some (throughput_doc (provisioned_throughput def))) by done.
  assert (E8 : at_key doc "StreamSpecification" = option_map stream_doc (stream_specification def)) by (subst doc; unfold create_table_doc; by destruct (stream_specification def)).
  rewrite E1, E2, E3, E4, E5, E6, E7, E8. cbn [get_string get_array default].
  change (at_key (throughput_doc ?t) "ReadCapacityUnits") with (Some (JNum (dec_of_nonneg (read_capacity_units t)))).
  change (at_key (throughput_doc ?t) "WriteCapacityUnits") with (Some (JNum (dec_of_nonneg (write_capacity_units t)))). cbv iota beta.
  rewrite !int64_read, key_schema_read, gsis_read, lsis_read, (attributes_read _ Ht []) by done. cbn [default app].
  assert (Hstream : option_map parse_stream_specification (option_map stream_doc (stream_specification def)) = stream_specification def)
    by (destruct (stream_specification def); cbn [option_map]; [by rewrite stream_read|done]).
  rewrite Hstream. f_equal.
  - destruct (billing_mode def); [by destruct (_ || _)|]. by rewrite Hb.
  - destruct (provisioned_throughput def) as [r w]. cbn in *. f_equal; [destruct (Z.ltb_spec 0 r)|destruct (Z.ltb_spec 0 w)]; lia.
Qed.

Definition demo_table : TableDefinition :=
  {| table_name := lit "t"; key_schema := [{| attribute_name := lit "pk"; key_type := HASH |}; {| attribute_name := lit "sk"; key_type := RANGE |}];
     attribute_definitions := [(lit "pk", T_S); (lit "sk", T_N)]; billing_mode := PROVISIONED;
     provisioned_throughput := {| read_capacity_units := 5; write_capacity_units := 7 |};
     table_class := STANDARD; deletion_protection_enabled := false; creation_epoch_seconds := 0; tags := [];
     local_secondary_indexes := []; global_secondary_indexes := [{| gsi_index_name := lit "g"; gsi_key_schema := [{| attribute_name := lit "sk"; key_type := HASH |}];
       gsi_projection := {| projection_type := PT_INCLUDE; non_key_attributes := [lit "a"] |}; gsi_provisioned_throughput := throughput_default |}];
     stream_specification := Some {| stream_enabled := true; stream_view_type := Some SV_OLD_IMAGE |}; latest_stream_arn := None; latest_stream_label := None;
     ttl_specification := None; point_in_time_recovery := pitr_default |}.

Lemma create_table_roundtrip_witness : parse_table_definition PT_ALL (create_table_doc demo_table) = demo_table.
Proof.
  apply create_table_roundtrip. constructor; cbn; try done; [|by repeat constructor; auto|by repeat constructor].
  apply msortedb_sound. vm_compute. reflexivity.
Defined.

End TableJson.
