(* ===== verification/Backups.v ===== *)
(** * Backups

    [src/backups/manager.cpp]: [BackupManager] keeps the descriptions and the items
    of the backups in memory and writes one JSON snapshot per backup; a restart
    rebuilds the catalogue from the snapshots it finds.

    The directory is a map from file names to contents, and the calls of the file
    system are taken to succeed; the order in which a restart meets the files is an
    argument.  So are the clock, the parser of the JSON library and the memory
    that the code reads before writing it ([junk]). *)

From Stdlib Require Import ZArith Lia Strings.String.
From stdpp Require Import prelude.
From S2P Require Import Prelude StdMap Types CLib RecordCodec NumberText Base64 Json TableJson.
Import NumberText Base64 Json TableJson.

Module Backups.

Record BackupSummary := {
  backup_arn : bytes;
  backup_name : bytes;
  backup_creation_datetime : Z;
  backup_expiry_datetime : Z;
  backup_size_bytes : Z;
  backup_status : bytes;
  backup_type : bytes;
  backup_table_name : bytes;
  backup_table_id : bytes;
  backup_table_arn : bytes
}.

Record BackupDescription := { backup_summary : BackupSummary; table_metadata : TableDefinition }.

Record BackupSnapshot := { description : BackupDescription; snapshot_items : list AttributeMap }.

Record BackupManager := {
  backups_ : list (bytes * BackupDescription);
  items_ : list (bytes * list AttributeMap);
  next_sequence_ : Z;
  files : list (bytes * bytes)
}.

(** ** Snapshots *)

Definition attribute_type_str (t : AttributeType) : bytes :=
  match t with T_N => lit "N" | T_B => lit "B" | _ => lit "S" end.

Fixpoint serialize_key_schema (first : bool) (ks : list KeySchemaElement) : bytes :=
  match ks with
  | [] => []
  | k :: ks' =>
      comma first ++ q "{'AttributeName':'" ++ attribute_name k ++ q "','KeyType':'" ++
      (match key_type k with HASH => lit "HASH" | RANGE => lit "RANGE" end) ++ q "'}" ++ serialize_key_schema false ks'
  end.

Fixpoint serialize_attribute_definitions (first : bool) (defs : list (bytes * AttributeType)) : bytes :=
  match defs with
  | [] => []
  | (name, type) :: defs' =>
      comma first ++ q "{'AttributeName':'" ++ name ++ q "','AttributeType':'" ++ attribute_type_str type ++ q "'}" ++
      serialize_attribute_definitions false defs'
  end.

Fixpoint serialize_items (first : bool) (items : list AttributeMap) : option bytes :=
  match items with
  | [] => Some []
  | item :: items' =>
      match serialize_item item with
      | Some x => option_map (fun r => comma first ++ x ++ r) (serialize_items false items')
      | None => None
      end
  end.

Definition serialize_snapshot (desc : BackupDescription) (items : list AttributeMap) : option bytes :=
  let def := table_metadata desc in
  let s := backup_summary desc in
  let head :=
    q "{'summary':{'BackupArn':'" ++ backup_arn s ++ q "','BackupName':'" ++ backup_name s ++
    q "','BackupCreationDateTime':" ++ dec_of_nonneg (backup_creation_datetime s) ++ q ",'TableName':'" ++ backup_table_name s ++
    q "','BackupSizeBytes':" ++ dec_of_nonneg (backup_size_bytes s) ++ q "}," ++
    q "'table':{'TableName':'" ++ table_name def ++ q "','KeySchema':[" ++ serialize_key_schema true (key_schema def) ++
    q "],'AttributeDefinitions':[" ++ serialize_attribute_definitions true (attribute_definitions def) ++ q "]},'items':[" in
  option_map (fun r => head ++ r ++ q "]}") (serialize_items true items).

Definition generate_backup_arn (table_name : bytes) (timestamp sequence : Z) : bytes :=
  lit "arn:aws:dynamodb:ddblocal:000000000000:table/" ++ table_name ++ lit "/backup/" ++ dec_of_nonneg timestamp ++ lit "-" ++ padded 8 sequence.

(** The file name of [snapshot_path]. *)
Definition safe_char (c : byte) : byte := if is_char 47 c || is_char 58 c then Byte.x5f else c.

Definition snapshot_path (arn : bytes) : bytes := map safe_char arn ++ lit ".backup.json".

Definition write_snapshot (arn : bytes) (desc : BackupDescription) (items : list AttributeMap) (m : BackupManager) : option BackupManager :=
  option_map (fun text => {| backups_ := backups_ m; items_ := items_ m; next_sequence_ := next_sequence_ m; files := mset (snapshot_path arn) text (files m) |})
    (serialize_snapshot desc items).

(** ** Operations *)

Section Operations.
Context (junk : Z) (junk_projection : ProjectionType).

Definition create_backup (now : Z) (table_name backup_name : bytes) (table_def : TableDefinition) (items : list AttributeMap) (m : BackupManager) :
    option (BackupDescription * BackupManager) :=
  let arn := generate_backup_arn table_name now (next_sequence_ m) in
  let desc :=
    {| backup_summary :=
         {| backup_arn := arn; backup_name := backup_name; backup_creation_datetime := now; backup_expiry_datetime := junk;
            backup_size_bytes := u64 (len items * 1024); backup_status := lit "AVAILABLE"; backup_type := lit "USER";
            backup_table_name := table_name; backup_table_id := []; backup_table_arn := [] |};
       table_metadata := table_def |} in
  let m1 := {| backups_ := mset arn desc (backups_ m); items_ := mset arn items (items_ m);
               next_sequence_ := u64 (next_sequence_ m + 1); files := files m |} in
  option_map (fun m2 => (desc, m2)) (write_snapshot arn desc items m1).

Definition delete_backup (arn : bytes) (m : BackupManager) : bool * BackupManager :=
  match mget arn (backups_ m) with
  | Some _ => (true, {| backups_ := mdel arn (backups_ m); items_ := mdel arn (items_ m); next_sequence_ := next_sequence_ m;
                        files := mdel (snapshot_path arn) (files m) |})
  | None => (false, m)
  end.

Definition describe_backup (arn : bytes) (m : BackupManager) : option BackupDescription := mget arn (backups_ m).

Definition list_backups (table_name : bytes) (m : BackupManager) : list BackupSummary :=
  map (fun e => backup_summary e.2)
    (List.filter (fun e => bool_decide (table_name = []) || bytes_eqb (backup_table_name (backup_summary e.2)) table_name) (backups_ m)).

Definition restore_backup (arn : bytes) (m : BackupManager) : option BackupSnapshot :=
  option_map (fun d => {| description := d; snapshot_items := default [] (mget arn (items_ m)) |}) (mget arn (backups_ m)).

(** ** Restart *)

(** [path::extension]: from the last dot, unless the name starts with it. *)
Definition extension (name : bytes) : bytes :=
  let '(e, r) := span (fun c => negb (is_char 46 c)) (rev name) in
  match r with
  | dot :: _ :: _ => dot :: rev e
  | _ => []
  end.

Fixpoint find_sub (s needle : bytes) : bool :=
  starts_with s needle || match s with [] => false | _ :: s' => find_sub s' needle end.

(** [doc[a][b]] *)
Definition at_path (doc : Json) (a b : string) : option Json := match at_key doc a with Some j => at_key j b | None => None end.

Fixpoint parse_items (arr : list Json) : option (list AttributeMap) :=
  match arr with
  | [] => Some []
  | item_el :: arr' =>
      match item_el with
      | JObj fields =>
          match parse_fields parse_attribute_value fields [] with
          | Some item => option_map (cons item) (parse_items arr')
          | None => None
          end
      | _ => None
      end
  end.

(** The part after the last dash, read as a number. *)
Definition sequence_of (arn : bytes) : option Z :=
  let '(digits, r) := span (fun c => negb (is_char 45 c)) (rev arn) in
  match r with [] => None | _ => stoul (rev digits) end.

Context (parse : bytes -> option Json).

(** One entry of the directory. *)
Definition load_file (entry : bytes * bytes) : option (bytes * BackupDescription * list AttributeMap) :=
  let '(name, contents) := entry in
  if negb (bytes_eqb (extension name) (lit ".json")) then None
  else if negb (find_sub name (lit ".backup.json")) then None
  else
    match parse contents with
    | None => None
    | Some doc =>
        match at_path doc "summary" "BackupArn" with
        | Some (JStr arn) =>
            let desc :=
              {| backup_summary :=
                   {| backup_arn := arn;
                      backup_name := match at_path doc "summary" "BackupName" with Some (JStr s) => s | _ => [] end;
                      backup_creation_datetime := match at_path doc "summary" "BackupCreationDateTime" with
                                                  | Some (JNum t) => match int64_text t with Some n => u64 n | None => junk end
                                                  | _ => junk
                                                  end;
                      backup_expiry_datetime := junk;
                      backup_size_bytes := junk;
                      backup_status := lit "AVAILABLE"; backup_type := lit "USER";
                      backup_table_name := match at_path doc "summary" "TableName" with Some (JStr s) => s | _ => [] end;
                      backup_table_id := []; backup_table_arn := [] |};
                 table_metadata := match at_key doc "table" with
                                   | Some table_el => parse_table_definition junk_projection table_el
                                   | None => table_definition_default
                                   end |} in
            match get_array_at doc "items" with
            | Some arr => option_map (fun items => (arn, desc, items)) (parse_items arr)
            | None => Some (arn, desc, [])
            end
        | _ => None
        end
    end.

Definition load_entry (st : list (bytes * BackupDescription) * list (bytes * list AttributeMap) * Z) (entry : bytes * bytes) :
    list (bytes * BackupDescription) * list (bytes * list AttributeMap) * Z :=
  let '(backups, items, max_seq) := st in
  match load_file entry with
  | None => st
  | Some (arn, desc, its) =>
      (mset arn desc backups, mset arn its items, match sequence_of arn with Some n => Z.max max_seq n | None => max_seq end)
  end.

(** The constructor on the directory [fs], whose entries come in the order [order]. *)
Definition load_metadata (order fs : list (bytes * bytes)) : BackupManager :=
  let '(backups, items, max_seq) := fold_left load_entry order ([], [], 0) in
  {| backups_ := backups; items_ := items; next_sequence_ := u64 (max_seq + 1); files := fs |}.
End Operations.

(** ** The document of a snapshot *)

Definition summary_doc (s : BackupSummary) : Json :=
  JObj [(lit "BackupArn", JStr (backup_arn s)); (lit "BackupName", JStr (backup_name s));
        (lit "BackupCreationDateTime", JNum (dec_of_nonneg (backup_creation_datetime s))); (lit "TableName", JStr (backup_table_name s));
        (lit "BackupSizeBytes", JNum (dec_of_nonneg (backup_size_bytes s)))].

Definition attribute_definition_doc (e : bytes * AttributeType) : Json :=
  JObj [(lit "AttributeName", JStr e.1); (lit "AttributeType", JStr (attribute_type_str e.2))].

Definition table_doc (def : TableDefinition) : Json :=
  JObj [(lit "TableName", JStr (table_name def)); (lit "KeySchema", key_schema_doc (key_schema def));
        (lit "AttributeDefinitions", JArr (map attribute_definition_doc (attribute_definitions def)))].

Definition snapshot_doc (desc : BackupDescription) (items : list AttributeMap) : Json :=
  JObj [(lit "summary", summary_doc (backup_summary desc)); (lit "table", table_doc (table_metadata desc));
        (lit "items", JArr (map (fun item => JObj (dom_fields item)) items))].

(** Text that the code may put between quotes as it is. *)
Definition clean (s : bytes) : Prop := forallb safe s = true.

(** Backups whose names need no escape, of a table with a sorted catalogue of key
    attributes, and of items as the parser produces them. *)
Record savable (desc : BackupDescription) (items : list AttributeMap) : Prop := {
  savable_arn : clean (backup_arn (backup_summary desc));
  savable_name : clean (backup_name (backup_summary desc));
  savable_table : clean (backup_table_name (backup_summary desc));
  savable_created : 0 <= backup_creation_datetime (backup_summary desc) < 2 ^ 63;
  savable_size : 0 <= backup_size_bytes (backup_summary desc);
  savable_def : clean (table_name (table_metadata desc));
  savable_keys : Forall (fun k => clean (attribute_name k)) (key_schema (table_metadata desc));
  savable_attributes : Forall (fun e => clean e.1 /\ (e.2 = T_S \/ e.2 = T_N \/ e.2 = T_B)) (attribute_definitions (table_metadata desc));
  savable_sorted : msorted (attribute_definitions (table_metadata desc));
  savable_items : Forall (fun item => shape_ok (AV_M item) = true /\ numbers_normal (AV_M item)) items
}.

Lemma key_schema_text ks : Forall (fun k => clean (attribute_name k)) ks -> forall first,
  serialize_key_schema first ks = comma_list first (map (print kHex) (map (fun k => JObj [(lit "AttributeName", JStr (attribute_name k)); (lit "KeyType", JStr (key_type_name (key_type k)))]) ks)).
Proof.
  induction 1 as [|[n k] ks Hn _ IH]; intros first; [done|]. cbn [map serialize_key_schema attribute_name key_type] in *. rewrite IH, comma_list_cons. f_equal.
  cbn [print map fst snd joined]. unfold quoted. rewrite !(escape_safe kHex) by (done || by destruct k). destruct k; cbn; rewrite <- !app_assoc; done.
Qed.

Lemma attribute_definitions_text l : Forall (fun e => clean e.1 /\ (e.2 = T_S \/ e.2 = T_N \/ e.2 = T_B)) l -> forall first,
  serialize_attribute_definitions first l = comma_list first (map (print kHex) (map attribute_definition_doc l)).
Proof.
  induction 1 as [|[n t] l [Hn _] _ IH]; intros first; [done|]. cbn [map serialize_attribute_definitions fst] in *. rewrite IH, comma_list_cons. f_equal.
  unfold attribute_definition_doc. cbn [print map fst snd joined]. unfold quoted. rewrite !(escape_safe kHex) by (done || by destruct t). destruct t; cbn; rewrite <- !app_assoc; done.
Qed.

Lemma items_text items : Forall (fun item => shape_ok (AV_M item) = true /\ numbers_normal (AV_M item)) items -> forall first,
  serialize_items first items = Some (comma_list first (map (print kHex) (map (fun item => JObj (dom_fields item)) items))).
Proof.
  induction 1 as [|item items [Hs _] _ IH]; intros first; [done|]. cbn [map serialize_items]. rewrite (serialize_item_print item Hs), IH. cbn [option_map]. by rewrite comma_list_cons.
Qed.

Lemma snapshot_text desc items : savable desc items -> serialize_snapshot desc items = Some (print kHex (snapshot_doc desc items)).
Proof.
  intros []. unfold serialize_snapshot. rewrite items_text by done. cbn [option_map]. f_equal.
  rewrite key_schema_text, attribute_definitions_text, !comma_list_first by done.
  unfold snapshot_doc, summary_doc, table_doc, key_schema_doc. cbn [print map fst snd joined]. unfold quoted.
  rewrite !(escape_safe kHex) by (done || (vm_compute; reflexivity)). repeat first [progress cbn [app] | rewrite <- app_assoc].
  reflexivity.
Qed.

Lemma integer_dec n : 0 <= n -> integer_text (dec_of_nonneg n) = true.
Proof.
  intros Hn. assert (Hd : forallb isdigit (dec_of_nonneg n) = true) by (apply forallb_forall; intros x Hx%list_elem_of_In; pose proof (dec_of_isdigit n Hn) as Hd; rewrite Forall_forall in Hd; by apply Hd).
  destruct (Z.eq_dec n 0) as [->|Hz]; [done|]. destruct (dec_of_head n ltac:(lia)) as (c & r & E & Hc). rewrite E in *. cbn [integer_text]. by rewrite Hd, Hc.
Qed.

Lemma strings_plain {A} (f : A -> Json) l : (forall x, plain (f x) = true) -> forallb plain (map f l) = true.
Proof. intros Hf. apply forallb_forall. by intros j (x & <- & _)%in_map_iff. Qed.

Lemma snapshot_plain desc items : savable desc items -> plain (snapshot_doc desc items) = true.
Proof.
  intros []. unfold snapshot_doc, summary_doc, table_doc, key_schema_doc. cbn [plain forallb fst snd]. rewrite !integer_dec, !strings_plain; try done; try lia.
  intros item. apply item_plain.
Qed.

Lemma snapshot_read desc items : savable desc items -> read_json (print kHex (snapshot_doc desc items)) = Some (snapshot_doc desc items).
Proof. intros H. apply read_json_print; [by left|by apply snapshot_plain]. Qed.

(** ** Names *)

Lemma extension_snapshot arn : extension (snapshot_path arn) = lit ".json".
Proof. unfold extension, snapshot_path. rewrite rev_app_distr. reflexivity. Qed.

Lemma find_sub_suffix p needle : find_sub (p ++ needle) needle = true.
Proof.
  induction p as [|c p IH]; [|cbn [app find_sub]; by rewrite IH, orb_true_r].
  assert (H : starts_with needle needle = true) by (apply starts_with_spec; exists []; by rewrite app_nil_r). destruct needle; cbn [app find_sub]; by rewrite H.
Qed.

(** The sequence number is what follows the last dash, also in a file name. *)
Lemma sequence_suffix p n : 0 <= n < 2 ^ 64 -> sequence_of (p ++ Byte.x2d :: padded 8 n) = Some n.
Proof.
  intros Hn. unfold sequence_of. rewrite rev_app_distr. cbn [rev]. rewrite <- app_assoc. cbn [app].
  pose proof (padded_digits 8 n ltac:(lia)) as Hd. rewrite span_prefix; [|apply Forall_rev; eapply Forall_impl; [exact Hd|]; intros c Hc; by destruct c|done].
  rewrite rev_involutive, stoul_digits; [by rewrite parse_padded by lia|done| |rewrite parse_padded by lia; lia].
  unfold padded. intros [_ E]%app_eq_nil. by apply dec_of_nonempty in E.
Qed.

Lemma sequence_arn t now n : 0 <= n < 2 ^ 64 -> sequence_of (generate_backup_arn t now n) = Some n.
Proof.
  intros Hn. rewrite <- (sequence_suffix (lit "arn:aws:dynamodb:ddblocal:000000000000:table/" ++ t ++ lit "/backup/" ++ dec_of_nonneg now) n Hn).
  unfold generate_backup_arn. by rewrite <- !app_assoc.
Qed.

Lemma sequence_file t now n : 0 <= n < 2 ^ 64 -> sequence_of (map safe_char (generate_backup_arn t now n)) = Some n.
Proof.
  intros Hn. unfold generate_backup_arn. rewrite !map_app. rewrite !app_assoc. change (map safe_char (lit "-")) with [Byte.x2d].
  assert (E : map safe_char (padded 8 n) = padded 8 n).
  { pose proof (padded_digits 8 n ltac:(lia)) as Hd. induction Hd as [|c l Hc _ IH]; [done|]. cbn [map]. rewrite IH. f_equal. by destruct c. }
  rewrite E, <- app_assoc. by apply sequence_suffix.
Qed.

Lemma snapshot_path_inj a b : snapshot_path a = snapshot_path b -> map safe_char a = map safe_char b.
Proof. apply app_inv_tail. Qed.

(** ** What a restart keeps *)

(** Of a table definition: the name, the key schema and the attribute types. *)
Definition reduced (def : TableDefinition) : TableDefinition :=
  {| table_name := table_name def; key_schema := key_schema def; attribute_definitions := attribute_definitions def;
     billing_mode := PAY_PER_REQUEST; provisioned_throughput := throughput_default; table_class := STANDARD;
     deletion_protection_enabled := false; creation_epoch_seconds := 0; tags := []; local_secondary_indexes := []; global_secondary_indexes := [];
     stream_specification := None; latest_stream_arn := None; latest_stream_label := None; ttl_specification := None; point_in_time_recovery := pitr_default |}.

Section Restart.
Context (junk : Z) (junk_projection : ProjectionType) (parse : bytes -> option Json).

(** The description a restart makes of a backup. *)
Definition reloaded (desc : BackupDescription) : BackupDescription :=
  let s := backup_summary desc in
  {| backup_summary :=
       {| backup_arn := backup_arn s; backup_name := backup_name s; backup_creation_datetime := backup_creation_datetime s;
          backup_expiry_datetime := junk; backup_size_bytes := junk; backup_status := lit "AVAILABLE"; backup_type := lit "USER";
          backup_table_name := backup_table_name s; backup_table_id := []; backup_table_arn := [] |};
     table_metadata := reduced (table_metadata desc) |}.

(** The JSON library reads a file as the grammar says. *)
Definition conforms (entry : bytes * bytes) : Prop := parse entry.2 = read_json entry.2.

Lemma parse_items_doc items : Forall (fun item => shape_ok (AV_M item) = true /\ numbers_normal (AV_M item)) items ->
  parse_items (map (fun item => JObj (dom_fields item)) items) = Some items.
Proof. induction 1 as [|item items [Hs Hn] _ IH]; [done|]. cbn [map parse_items]. by rewrite parse_item_dom, IH. Qed.

Lemma table_read def : Forall (fun e => clean e.1 /\ (e.2 = T_S \/ e.2 = T_N \/ e.2 = T_B)) (attribute_definitions def) -> msorted (attribute_definitions def) ->
  parse_table_definition junk_projection (table_doc def) = reduced def.
Proof.
  intros Ht Hs. assert (E : map attribute_definition_doc (attribute_definitions def) = map attribute_doc (attribute_definitions def)).
  { induction Ht as [|[n t] l [_ Ht] _ IH]; [done|]. apply msorted_cons_inv in Hs as [_ Hs]. cbn [map]. rewrite IH by done. f_equal.
    cbn [snd] in Ht. by destruct Ht as [->|[-> | ->]]. }
  unfold parse_table_definition, get_string_at, get_array_at, index_key_schema. set (doc := table_doc def).
  assert (E1 : at_key doc "TableName" = Some (JStr (table_name def))) by done.
  assert (E2 : at_key doc "KeySchema" = Some (key_schema_doc (key_schema def))) by done.
  assert (E3 : at_key doc "AttributeDefinitions" = Some (JArr (map attribute_definition_doc (attribute_definitions def)))) by done.
  rewrite E1, E2, E3. cbn [get_string get_array default]. rewrite key_schema_read, E, attributes_read; [done| |done].
  eapply Forall_impl; [exact Ht|]. by intros e [_ He].
Qed.

(** Loading a snapshot the manager wrote. *)
Lemma load_snapshot arn desc items : savable desc items -> backup_arn (backup_summary desc) = arn ->
  conforms (snapshot_path arn, print kHex (snapshot_doc desc items)) ->
  load_file junk junk_projection parse (snapshot_path arn, print kHex (snapshot_doc desc items)) = Some (arn, reloaded desc, items).
Proof.
  intros Hs Ha Hc. unfold load_file. rewrite extension_snapshot. change (negb (bytes_eqb (lit ".json") (lit ".json"))) with false. cbv iota.
  unfold snapshot_path at 1. rewrite find_sub_suffix. cbn [negb]. unfold conforms in Hc. cbn [snd] in Hc. rewrite Hc, (snapshot_read desc items Hs).
  set (doc := snapshot_doc desc items). set (s := backup_summary desc) in *.
  assert (E1 : at_path doc "summary" "BackupArn" = Some (JStr (backup_arn s))) by done.
  assert (E2 : at_path doc "summary" "BackupName" = Some (JStr (backup_name s))) by done.
  assert (E3 : at_path doc "summary" "BackupCreationDateTime" = Some (JNum (dec_of_nonneg (backup_creation_datetime s)))) by done.
  assert (E4 : at_path doc "summary" "TableName" = Some (JStr (backup_table_name s))) by done.
  assert (E5 : at_key doc "table" = Some (table_doc (table_metadata desc))) by done.
  assert (E6 : get_array_at doc "items" = Some (map (fun item => JObj (dom_fields item)) items)) by done.
  destruct Hs. fold s in savable_created0. rewrite E1, E2, E3, E4, E5, E6, int64_read, parse_items_doc, table_read by done. cbn [option_map].
  unfold u64. rewrite Z.mod_small by lia. rewrite Ha. unfold reloaded. fold s. by rewrite Ha.
Qed.

(** ** Loading a directory *)

Definition arn_of (entry : bytes * bytes) : option bytes := option_map (fun r => r.1.1) (load_file junk junk_projection parse entry).

(** An entry that restores the backup the manager [m] has under that name. *)
Definition restores (m : BackupManager) (entry : bytes * bytes) : Prop := exists arn desc items n,
  load_file junk junk_projection parse entry = Some (arn, reloaded desc, items) /\
  mget arn (backups_ m) = Some desc /\ mget arn (items_ m) = Some items /\ sequence_of arn = Some n /\ 0 <= n < next_sequence_ m.

Lemma load_fold m order : Forall (restores m) order -> forall b i s, msorted b -> msorted i -> 0 <= s < next_sequence_ m ->
  let '(b', i', s') := fold_left (load_entry junk junk_projection parse) order (b, i, s) in
  msorted b' /\ msorted i' /\ s <= s' < next_sequence_ m /\
  (forall arn, Some arn ∈ map arn_of order ->
    mget arn b' = option_map reloaded (mget arn (backups_ m)) /\ mget arn i' = mget arn (items_ m) /\ (forall n, sequence_of arn = Some n -> n <= s')) /\
  (forall arn, ~ Some arn ∈ map arn_of order -> mget arn b' = mget arn b /\ mget arn i' = mget arn i).
Proof.
  induction 1 as [|e order (arn & desc & items & n & El & Hb & Hi & Hn & Hr) _ IH]; intros b i s Sb Si Hs; cbn [fold_left].
  - split_and!; try done; try lia. intros arn Hin. by apply not_elem_of_nil in Hin.
  - cbn [load_entry]. rewrite El, Hn. specialize (IH (mset arn (reloaded desc) b) (mset arn items i) (Z.max s n) ltac:(by apply msorted_mset) ltac:(by apply msorted_mset) ltac:(lia)).
    destruct (fold_left _ order _) as [[b' i'] s']. destruct IH as (Sb' & Si' & Hs' & Hin & Hout).
    assert (Ea : arn_of e = Some arn) by (unfold arn_of; by rewrite El).
    split_and!; try done; try lia; intros a Ha; cbn [map] in Ha.
    + destruct (decide (Some a ∈ map arn_of order)) as [Hd|Hd]; [by apply Hin|].
      apply elem_of_cons in Ha as [Ha|Ha]; [|done]. rewrite Ea in Ha. injection Ha as ->. destruct (Hout arn Hd) as [-> ->].
      rewrite !mget_mset_eq, Hb, Hi. split_and!; try done. intros n' E. rewrite Hn in E. simplify_eq. lia.
    + rewrite elem_of_cons, Ea in Ha. destruct (Hout a ltac:(tauto)) as [-> ->]. rewrite !mget_mset_ne by (intros ->; tauto). done.
Qed.

(** ** The invariant of the manager *)

Record backups_ok (m : BackupManager) : Prop := {
  ok_backups : msorted (backups_ m);
  ok_items : msorted (items_ m);
  ok_files : msorted (files m);
  ok_sequence : 0 < next_sequence_ m < 2 ^ 64;
  ok_saved : forall arn desc, mget arn (backups_ m) = Some desc -> exists items t now n desc0,
    arn = generate_backup_arn t now n /\ 0 <= n < next_sequence_ m /\ mget arn (items_ m) = Some items /\
    mget (snapshot_path arn) (files m) = Some (print kHex (snapshot_doc desc0 items)) /\
    savable desc0 items /\ reloaded desc0 = reloaded desc /\ backup_arn (backup_summary desc0) = arn;
  ok_no_items : forall arn, mget arn (backups_ m) = None -> mget arn (items_ m) = None;
  ok_no_file : forall name text, mget name (files m) = Some text -> exists arn desc, name = snapshot_path arn /\ mget arn (backups_ m) = Some desc;
  ok_distinct : forall a b da db, mget a (backups_ m) = Some da -> mget b (backups_ m) = Some db -> sequence_of a = sequence_of b -> a = b
}.

Lemma ok_number m arn desc : backups_ok m -> mget arn (backups_ m) = Some desc ->
  exists n, sequence_of arn = Some n /\ sequence_of (map safe_char arn) = Some n /\ 0 <= n < next_sequence_ m.
Proof.
  intros H Hd. destruct (ok_saved m H arn desc Hd) as (items & t & now & n & desc0 & -> & Hn & _). pose proof (ok_sequence m H).
  exists n. rewrite sequence_arn, sequence_file by lia. done.
Qed.

(** File names tell backups apart. *)
Lemma ok_paths m a b da db : backups_ok m -> mget a (backups_ m) = Some da -> mget b (backups_ m) = Some db -> snapshot_path a = snapshot_path b -> a = b.
Proof.
  intros H Ha Hb E%snapshot_path_inj. eapply (ok_distinct m H); [done..|].
  destruct (ok_number m a da H Ha) as (n & -> & Hna & _), (ok_number m b db H Hb) as (n' & -> & Hnb & _). by rewrite <- Hna, <- Hnb, E.
Qed.

Lemma ok_restores m : backups_ok m -> Forall conforms (files m) -> Forall (restores m) (files m) /\
  (forall arn desc, mget arn (backups_ m) = Some desc -> Some arn ∈ map arn_of (files m)) /\
  (forall arn, Some arn ∈ map arn_of (files m) -> mget arn (backups_ m) <> None).
Proof.
  intros H Hc. rewrite Forall_forall in Hc.
  assert (Hload : forall arn desc, mget arn (backups_ m) = Some desc -> exists text items, mget (snapshot_path arn) (files m) = Some text /\
    load_file junk junk_projection parse (snapshot_path arn, text) = Some (arn, reloaded desc, items) /\ mget arn (items_ m) = Some items).
  { intros arn desc Hd. destruct (ok_saved m H arn desc Hd) as (items & t & now & n & desc0 & Earn & Hn & Hi & Hf & Hs & Hr & Ha).
    exists (print kHex (snapshot_doc desc0 items)), items. split; [done|]. split; [|done]. rewrite <- Hr. apply load_snapshot; [done|done|].
    apply Hc, list_elem_of_In, mget_In; [apply H|done]. }
  assert (Hentry : forall e, e ∈ files m -> restores m e).
  { intros [name text] Hin. apply list_elem_of_In, mget_In in Hin; [|apply H]. destruct (ok_no_file m H name text Hin) as (arn & desc & -> & Hd).
    destruct (Hload arn desc Hd) as (text' & items & Hf & Hl & Hi). simplify_eq. destruct (ok_number m arn desc H Hd) as (n & Hn & _ & Hr).
    exists arn, desc, items, n. done. }
  split; [by apply Forall_forall|]. split.
  - intros arn desc Hd. destruct (Hload arn desc Hd) as (text & items & Hf & Hl & Hi). apply list_elem_of_In, in_map_iff. exists (snapshot_path arn, text).
    split; [unfold arn_of; by rewrite Hl|]. apply mget_In; [apply H|done].
  - intros arn Ha. apply list_elem_of_In, in_map_iff in Ha as (e & Ee & He). destruct (Hentry e (proj2 (list_elem_of_In _ _) He)) as (a & d & its & n & El & Hb & _).
    unfold arn_of in Ee. rewrite El in Ee. cbn in Ee. simplify_eq. by rewrite Hb.
Qed.

(** What a restart makes of the directory, in whatever order it comes. *)
Lemma restart_state m order : backups_ok m -> Permutation order (files m) -> Forall conforms (files m) ->
  let m' := load_metadata junk junk_projection parse order (files m) in
  backups_ m' = mmap reloaded (backups_ m) /\ items_ m' = items_ m /\ files m' = files m /\ next_sequence_ m' <= next_sequence_ m /\ 0 < next_sequence_ m' /\
  (forall arn desc n, mget arn (backups_ m) = Some desc -> sequence_of arn = Some n -> n < next_sequence_ m').
Proof.
  intros H Hp Hc m'. destruct (ok_restores m H Hc) as (Hres & Hall & Honly). pose proof (ok_sequence m H) as Hseq.
  assert (Hres' : Forall (restores m) order) by (by eapply Permutation_Forall; [symmetry; exact Hp|]).
  assert (Hmem : forall arn, Some arn ∈ map arn_of order <-> Some arn ∈ map arn_of (files m)) by (intros arn; rewrite !list_elem_of_In; split; apply Permutation_in, Permutation_map; [done|by symmetry]).
  pose proof (load_fold m order Hres' [] [] 0 (@msorted_nil _ _ _) (@msorted_nil _ _ _) ltac:(lia)) as Hf. subst m'. unfold load_metadata.
  destruct (fold_left _ order _) as [[b' i'] s']. destruct Hf as (Sb & Si & Hs & Hin & Hout). cbn [backups_ items_ files next_sequence_].
  unfold u64. rewrite Z.mod_small by lia. split_and!; try done; try lia.
  - apply msorted_ext; [done|apply msorted_mmap, H|]. intros arn. rewrite mget_mmap. destruct (mget arn (backups_ m)) as [d|] eqn:E.
    + destruct (Hin arn (proj2 (Hmem arn) (Hall arn d E))) as [-> _]. by rewrite E.
    + apply Hout. rewrite Hmem. intros Ha. by apply (Honly arn Ha).
  - apply msorted_ext; [done|apply H|]. intros arn. destruct (mget arn (backups_ m)) as [d|] eqn:E.
    + by destruct (Hin arn (proj2 (Hmem arn) (Hall arn d E))) as (_ & -> & _).
    + rewrite (ok_no_items m H arn E). apply Hout. rewrite Hmem. intros Ha. by apply (Honly arn Ha).
  - intros arn desc n Hd Hn. apply Hall, Hmem, Hin in Hd as (_ & _ & Hle). specialize (Hle n Hn). lia.
Qed.

(** ** Histories *)

(** Requests for a backup whose snapshot can be read back. *)
Record storable (now : Z) (tname bname : bytes) (def : TableDefinition) (items : list AttributeMap) : Prop := {
  storable_now : 0 <= now < 2 ^ 63;
  storable_table : clean tname;
  storable_name : clean bname;
  storable_def : clean (table_name def);
  storable_keys : Forall (fun k => clean (attribute_name k)) (key_schema def);
  storable_attributes : Forall (fun e => clean e.1 /\ (e.2 = T_S \/ e.2 = T_N \/ e.2 = T_B)) (attribute_definitions def);
  storable_sorted : msorted (attribute_definitions def);
  storable_items : Forall (fun item => shape_ok (AV_M item) = true /\ numbers_normal (AV_M item)) items
}.

(** The managers that creating and deleting backups and restarting lead to. *)
Inductive reachable : BackupManager -> Prop :=
| reach_empty : reachable (load_metadata junk junk_projection parse [] [])
| reach_create now tname bname def items m desc m' : reachable m -> storable now tname bname def items -> next_sequence_ m < 2 ^ 64 - 1 ->
    create_backup junk now tname bname def items m = Some (desc, m') -> reachable m'
| reach_delete arn m : reachable m -> reachable (delete_backup arn m).2
| reach_restart order m : reachable m -> Permutation order (files m) -> Forall conforms (files m) ->
    reachable (load_metadata junk junk_projection parse order (files m)).

Lemma clean_digits s : Forall (fun b => isdigit b = true) s -> clean s.
Proof. unfold clean. intros H. apply forallb_forall. intros c Hc%list_elem_of_In. rewrite Forall_forall in H. specialize (H c Hc). by destruct c. Qed.

Lemma clean_app s t : clean (s ++ t) <-> clean s /\ clean t.
Proof. unfold clean. rewrite forallb_app, andb_true_iff. done. Qed.

Lemma clean_arn t now n : clean t -> 0 <= now -> 0 <= n -> clean (generate_backup_arn t now n).
Proof.
  intros Ht Hnow Hn. unfold generate_backup_arn. rewrite !clean_app. split_and!; try done; apply clean_digits; [by apply dec_of_isdigit|by apply padded_digits].
Qed.

Lemma reloaded_twice desc : reloaded (reloaded desc) = reloaded desc.
Proof. done. Qed.

Lemma create_ok now tname bname def items m desc m' : backups_ok m -> storable now tname bname def items -> next_sequence_ m < 2 ^ 64 - 1 ->
  create_backup junk now tname bname def items m = Some (desc, m') -> backups_ok m'.
Proof.
  intros H Hst Hlt. unfold create_backup, write_snapshot. set (arn := generate_backup_arn tname now (next_sequence_ m)). pose proof (ok_sequence m H) as Hseq.
  match goal with |- context [serialize_snapshot ?d items] => set (d0 := d) end.
  assert (Hsav : savable d0 items).
  { destruct Hst. constructor; try done; cbn; [apply clean_arn; [done|lia..]|]. unfold u64. apply Z.mod_pos_bound. lia. }
  rewrite (snapshot_text d0 items Hsav). cbn [option_map backups_ items_ files next_sequence_]. intros [= _ <-].
  assert (Hnew : sequence_of arn = Some (next_sequence_ m) /\ sequence_of (map safe_char arn) = Some (next_sequence_ m)) by (split; [apply sequence_arn|apply sequence_file]; lia).
  destruct Hnew as [Hn1 Hn2].
  assert (Hfresh : forall a d, mget a (backups_ m) = Some d -> a <> arn /\ snapshot_path a <> snapshot_path arn).
  { intros a d Ha. destruct (ok_number m a d H Ha) as (k & K1 & K2 & Hk). split; [intros ->|intros E%snapshot_path_inj; rewrite E in K2]; simplify_eq; lia. }
  assert (Hu : u64 (next_sequence_ m + 1) = next_sequence_ m + 1) by (unfold u64; apply Z.mod_small; lia). rewrite Hu.
  constructor; cbn [backups_ items_ files next_sequence_]; try (apply msorted_mset, H); [lia| | | |].
  - intros a d. rewrite mget_mset. destruct (keqb_spec a arn) as [->|Hne].
    + intros [= <-]. exists items, tname, now, (next_sequence_ m), d0. rewrite !mget_mset_eq. split_and!; try done; lia.
    + intros Ha. destruct (ok_saved m H a d Ha) as (its & t & nw & n & dd & E & Hn & Hi & Hf & Hs & Hr & Hb). exists its, t, nw, n, dd.
      rewrite !mget_mset_ne by (done || by eapply Hfresh). split_and!; try done; lia.
  - intros a. rewrite !mget_mset. destruct (keqb_spec a arn); [done|]. apply H.
  - intros name text. rewrite mget_mset. destruct (keqb_spec name (snapshot_path arn)) as [->|Hne].
    + intros _. exists arn, d0. by rewrite mget_mset_eq.
    + intros Hf. destruct (ok_no_file m H name text Hf) as (a & d & -> & Ha). exists a, d. rewrite mget_mset_ne by (by eapply Hfresh). done.
  - intros a b da db. rewrite !mget_mset. destruct (keqb_spec a arn) as [->|], (keqb_spec b arn) as [->|]; try done.
    + intros _ Hb E. destruct (ok_number m b db H Hb) as (k & K1 & _ & Hk). rewrite Hn1, K1 in E. simplify_eq. lia.
    + intros Ha _ E. destruct (ok_number m a da H Ha) as (k & K1 & _ & Hk). rewrite Hn1, K1 in E. simplify_eq. lia.
    + apply H.
Qed.

Lemma delete_ok arn m : backups_ok m -> backups_ok (delete_backup arn m).2.
Proof.
  intros H. unfold delete_backup. destruct (mget arn (backups_ m)) as [d0|] eqn:E0; [|done]. cbn [snd].
  constructor; cbn [backups_ items_ files next_sequence_]; try (apply msorted_mdel, H); [apply H| | | |].
  - intros a d. rewrite mget_mdel. destruct (keqb_spec a arn) as [|Hne]; [done|]. intros Ha.
    destruct (ok_saved m H a d Ha) as (its & t & nw & n & dd & E & Hn & Hi & Hf & Hs & Hr & Hb). exists its, t, nw, n, dd.
    rewrite !mget_mdel_ne by (done || (intros Ep; apply Hne; by eapply ok_paths)). done.
  - intros a. rewrite !mget_mdel. destruct (keqb_spec a arn); [done|]. apply H.
  - intros name text. rewrite mget_mdel. destruct (keqb_spec name (snapshot_path arn)) as [|Hne]; [done|]. intros Hf.
    destruct (ok_no_file m H name text Hf) as (a & d & -> & Ha). exists a, d. rewrite mget_mdel_ne by congruence. done.
  - intros a b da db. rewrite !mget_mdel. destruct (keqb_spec a arn), (keqb_spec b arn); try done. apply H.
Qed.

Lemma restart_ok m order : backups_ok m -> Permutation order (files m) -> Forall conforms (files m) ->
  backups_ok (load_metadata junk junk_projection parse order (files m)).
Proof.
  intros H Hp Hc. destruct (restart_state m order H Hp Hc) as (Eb & Ei & Ef & Hle & Hpos & Hmax). pose proof (ok_sequence m H).
  set (m' := load_metadata _ _ _ _ _) in *.
  assert (Hget : forall a d, mget a (backups_ m') = Some d -> exists d', mget a (backups_ m) = Some d' /\ d = reloaded d').
  { intros a d. rewrite Eb, mget_mmap. destruct (mget a (backups_ m)) as [d'|]; [|done]. intros [= <-]. eauto. }
  constructor.
  - rewrite Eb. apply msorted_mmap, H.
  - rewrite Ei. apply H.
  - rewrite Ef. apply H.
  - lia.
  - intros a d (d' & Ha & ->)%Hget. rewrite Ei, Ef. destruct (ok_saved m H a d' Ha) as (its & t & nw & n & dd & E & Hn & Hi & Hf & Hs & Hr & Hb).
    exists its, t, nw, n, dd. rewrite reloaded_twice. split_and!; try done; [lia|]. apply (Hmax a d' n Ha). rewrite E. apply sequence_arn. lia.
  - intros a. rewrite Eb, Ei, mget_mmap. destruct (mget a (backups_ m)) eqn:E; [done|]. intros _. by apply H.
  - intros name text. rewrite Ef. intros Hf. destruct (ok_no_file m H name text Hf) as (a & d & -> & Ha). exists a, (reloaded d). by rewrite Eb, mget_mmap, Ha.
  - intros a b da db (da' & Ha & _)%Hget (db' & Hb & _)%Hget. by eapply (ok_distinct m H).
Qed.

Lemma reachable_ok m : reachable m -> backups_ok m.
Proof.
  induction 1 as [|now tname bname def items m desc m' _ IH Hst Hlt Hc|arn m _ IH|order m _ IH Hp Hc].
  - constructor; cbn; try done; try constructor; lia.
  - by eapply create_ok.
  - by apply delete_ok.
  - by apply restart_ok.
Qed.

End Restart.

(** ** A concrete history *)

Definition demo_items : list AttributeMap := [[(lit "pk", Some (AV_S [Byte.x22; Byte.x61])); (lit "v", Some (AV_N (lit "1.5")))]].

Definition demo_definition : TableDefinition :=
  reduced {| table_name := lit "t"; key_schema := [{| attribute_name := lit "pk"; key_type := HASH |}]; attribute_definitions := [(lit "pk", T_S)];
             billing_mode := PAY_PER_REQUEST; provisioned_throughput := throughput_default; table_class := STANDARD;
             deletion_protection_enabled := false; creation_epoch_seconds := 0; tags := []; local_secondary_indexes := []; global_secondary_indexes := [];
             stream_specification := None; latest_stream_arn := None; latest_stream_label := None; ttl_specification := None; point_in_time_recovery := pitr_default |}.

Lemma demo_storable : storable 1700000000 (lit "t") (lit "nightly") demo_definition demo_items.
Proof.
  constructor; try (vm_compute; done); [by repeat constructor|by repeat constructor; auto|by apply msortedb_sound|repeat constructor; vm_compute; done].
Qed.

Definition empty_manager : BackupManager := load_metadata 0 PT_ALL read_json [] [].

Definition demo_manager : BackupManager :=
  match create_backup 0 1700000000 (lit "t") (lit "nightly") demo_definition demo_items empty_manager with
  | Some (_, m) => m
  | None => empty_manager
  end.

Definition demo_restarted (m : BackupManager) : BackupManager := load_metadata 0 PT_ALL read_json (files m) (files m).

Lemma demo_reachable : reachable 0 PT_ALL read_json demo_manager.
Proof.
  assert (He : reachable 0 PT_ALL read_json empty_manager) by apply reach_empty. unfold demo_manager.
  destruct (create_backup 0 1700000000 (lit "t") (lit "nightly") demo_definition demo_items empty_manager) as [[desc m]|] eqn:E; [|exact He].
  refine (reach_create _ _ _ 1700000000 (lit "t") (lit "nightly") demo_definition demo_items empty_manager desc m He demo_storable _ E). vm_compute. reflexivity.
Qed.


(** A quotation mark in the name of a backup, which the code writes without escaping it:
    the snapshot is not JSON, and the backup is gone after a restart. *)
Definition quoted_manager : BackupManager :=
  match create_backup 0 1700000000 (lit "t") (q "my 'backup'") demo_definition demo_items empty_manager with
  | Some (_, m) => m
  | None => empty_manager
  end.

Lemma unescaped_name_lost :
  describe_backup (generate_backup_arn (lit "t") 1700000000 1) quoted_manager <> None /\
  describe_backup (generate_backup_arn (lit "t") 1700000000 1) (demo_restarted quoted_manager) = None.
Proof.
  split; [|vm_compute; reflexivity]. assert (H : bool_decide (is_Some (describe_backup (generate_backup_arn (lit "t") 1700000000 1) quoted_manager)) = true) by (vm_compute; reflexivity).
  apply bool_decide_eq_true_1 in H. destruct H as [d Hd]. by rewrite Hd.
Qed.

End Backups.
