(* ===== verification/Dispatcher.v ===== *)
(** * Operation names

    [src/api/dispatcher.cpp]: the X-Amz-Target header names the operation of a
    request. *)

From Stdlib Require Import ZArith Lia Strings.String.
From stdpp Require Import prelude.
From S2P Require Import Prelude CLib.

Module Dispatcher.

Inductive Operation :=
  | BatchExecuteStatement | BatchGetItem | BatchWriteItem | CreateBackup | CreateGlobalTable | CreateTable
  | DeleteBackup | DeleteItem | DeleteResourcePolicy | DeleteTable | DescribeBackup
  | DescribeContinuousBackups | DescribeContributorInsights | DescribeEndpoints | DescribeExport
  | DescribeGlobalTable | DescribeGlobalTableSettings | DescribeImport | DescribeKinesisStreamingDestination
  | DescribeLimits | DescribeTable | DescribeTableReplicaAutoScaling | DescribeTimeToLive
  | DisableKinesisStreamingDestination | EnableKinesisStreamingDestination | ExecuteStatement
  | ExecuteTransaction | ExportTableToPointInTime | GetItem | GetResourcePolicy | ImportTable | ListBackups
  | ListContributorInsights | ListExports | ListGlobalTables | ListImports | ListTables | ListTagsOfResource
  | PutItem | PutResourcePolicy | Query | RestoreTableFromBackup | RestoreTableToPointInTime | Scan
  | TagResource | TransactGetItems | TransactWriteItems | UntagResource | UpdateContinuousBackups
  | UpdateContributorInsights | UpdateGlobalTable | UpdateGlobalTableSettings | UpdateItem
  | UpdateKinesisStreamingDestination | UpdateTable | UpdateTableReplicaAutoScaling | UpdateTimeToLive
  | ListStreams | DescribeStream | GetShardIterator | GetRecords | Unknown.

#[export] Instance operation_eq_dec : EqDecision Operation.
Proof. solve_decision. Defined.

Definition kDynamoDbTargetPrefix : bytes := lit "DynamoDB_20120810.".
Definition kStreamsTargetPrefix : bytes := lit "DynamoDBStreams_20120810.".

Definition has_invalid_target_chars (target : bytes) : bool := existsb (fun c => (bval c <? 0x21) || (0x7e <? bval c)) target.

Definition is_valid_operation_name (op_name : bytes) (min_len max_len : Z) : bool :=
  match op_name with
  | [] => false
  | front :: _ =>
      if (len op_name <? min_len) || (max_len <? len op_name) then false
      else if negb (isalpha front) || negb (isupper front) then false
      else if isdigit front then false
      else forallb isalnum op_name && existsb islower op_name
  end.

(** The two trimming loops. *)
Definition trim_target (target : bytes) : bytes :=
  let t := (span isspace target).2 in rev (span isspace (rev t)).2.

(** The sorted table of the names. *)
Definition kLookup : list (bytes * Operation) :=
  [(lit "BatchExecuteStatement", BatchExecuteStatement); (lit "BatchGetItem", BatchGetItem);
   (lit "BatchWriteItem", BatchWriteItem); (lit "CreateBackup", CreateBackup);
   (lit "CreateGlobalTable", CreateGlobalTable); (lit "CreateTable", CreateTable);
   (lit "DeleteBackup", DeleteBackup); (lit "DeleteItem", DeleteItem);
   (lit "DeleteResourcePolicy", DeleteResourcePolicy); (lit "DeleteTable", DeleteTable);
   (lit "DescribeBackup", DescribeBackup); (lit "DescribeContinuousBackups", DescribeContinuousBackups);
   (lit "DescribeContributorInsights", DescribeContributorInsights);
   (lit "DescribeEndpoints", DescribeEndpoints); (lit "DescribeExport", DescribeExport);
   (lit "DescribeGlobalTable", DescribeGlobalTable);
   (lit "DescribeGlobalTableSettings", DescribeGlobalTableSettings); (lit "DescribeImport", DescribeImport);
   (lit "DescribeKinesisStreamingDestination", DescribeKinesisStreamingDestination);
   (lit "DescribeLimits", DescribeLimits); (lit "DescribeStream", DescribeStream);
   (lit "DescribeTable", DescribeTable);
   (lit "DescribeTableReplicaAutoScaling", DescribeTableReplicaAutoScaling);
   (lit "DescribeTimeToLive", DescribeTimeToLive);
   (lit "DisableKinesisStreamingDestination", DisableKinesisStreamingDestination);
   (lit "EnableKinesisStreamingDestination", EnableKinesisStreamingDestination);
   (lit "ExecuteStatement", ExecuteStatement); (lit "ExecuteTransaction", ExecuteTransaction);
   (lit "ExportTableToPointInTime", ExportTableToPointInTime); (lit "GetItem", GetItem);
   (lit "GetRecords", GetRecords); (lit "GetResourcePolicy", GetResourcePolicy);
   (lit "GetShardIterator", GetShardIterator); (lit "ImportTable", ImportTable);
   (lit "ListBackups", ListBackups); (lit "ListContributorInsights", ListContributorInsights);
   (lit "ListExports", ListExports); (lit "ListGlobalTables", ListGlobalTables);
   (lit "ListImports", ListImports); (lit "ListStreams", ListStreams); (lit "ListTables", ListTables);
   (lit "ListTagsOfResource", ListTagsOfResource); (lit "PutItem", PutItem);
   (lit "PutResourcePolicy", PutResourcePolicy); (lit "Query", Query);
   (lit "RestoreTableFromBackup", RestoreTableFromBackup);
   (lit "RestoreTableToPointInTime", RestoreTableToPointInTime); (lit "Scan", Scan);
   (lit "TagResource", TagResource); (lit "TransactGetItems", TransactGetItems);
   (lit "TransactWriteItems", TransactWriteItems); (lit "UntagResource", UntagResource);
   (lit "UpdateContinuousBackups", UpdateContinuousBackups);
   (lit "UpdateContributorInsights", UpdateContributorInsights);
   (lit "UpdateGlobalTable", UpdateGlobalTable);
   (lit "UpdateGlobalTableSettings", UpdateGlobalTableSettings); (lit "UpdateItem", UpdateItem);
   (lit "UpdateKinesisStreamingDestination", UpdateKinesisStreamingDestination);
   (lit "UpdateTable", UpdateTable); (lit "UpdateTableReplicaAutoScaling", UpdateTableReplicaAutoScaling);
   (lit "UpdateTimeToLive", UpdateTimeToLive)].

(** [std::lower_bound]: the first element of the range that is not before the value. *)
Fixpoint lower_bound_loop {A} (fuel : nat) (before : A -> bool) (l : list A) (first count : nat) : nat :=
  match fuel with
  | O => first
  | S fuel =>
      if (count =? 0)%nat then first
      else
        let half := (count / 2)%nat in
        match l !! (first + half)%nat with
        | Some x => if before x then lower_bound_loop fuel before l (first + half + 1) (count - half - 1)
                    else lower_bound_loop fuel before l first half
        | None => first
        end
  end.

Definition lower_bound {A} (before : A -> bool) (l : list A) : nat := lower_bound_loop (length l) before l 0 (length l).

Definition kMaxTargetBytes : Z := 256.
Definition kMinTargetBytes : Z := 20.
Definition kMaxOperationBytes : Z := 64.
Definition kMinOperationBytes : Z := 3.

Definition parse_target (target : bytes) : Operation :=
  let target := trim_target target in
  if bool_decide (target = []) || (kMaxTargetBytes <? len target) || (len target <? kMinTargetBytes) then Unknown
  else if has_invalid_target_chars target then Unknown
  else
    let prefix := if starts_with target kDynamoDbTargetPrefix then Some kDynamoDbTargetPrefix
                  else if starts_with target kStreamsTargetPrefix then Some kStreamsTargetPrefix
                  else None in
    match prefix with
    | None => Unknown
    | Some prefix =>
        let op_name := drop (length prefix) target in
        if negb (is_valid_operation_name op_name kMinOperationBytes kMaxOperationBytes) then Unknown
        else if existsb (is_char 46) op_name then Unknown
        else
          match kLookup !! lower_bound (fun e => bytes_ltb e.1 op_name) kLookup with
          | Some (name, op) => if bytes_eqb name op_name then op else Unknown
          | None => Unknown
          end
    end.

Definition to_string (op : Operation) : bytes :=
  match op with
  | BatchExecuteStatement => lit "BatchExecuteStatement" | BatchGetItem => lit "BatchGetItem"
  | BatchWriteItem => lit "BatchWriteItem" | CreateBackup => lit "CreateBackup"
  | CreateGlobalTable => lit "CreateGlobalTable" | CreateTable => lit "CreateTable"
  | DeleteBackup => lit "DeleteBackup" | DeleteItem => lit "DeleteItem"
  | DeleteResourcePolicy => lit "DeleteResourcePolicy" | DeleteTable => lit "DeleteTable"
  | DescribeBackup => lit "DescribeBackup" | DescribeContinuousBackups => lit "DescribeContinuousBackups"
  | DescribeContributorInsights => lit "DescribeContributorInsights"
  | DescribeEndpoints => lit "DescribeEndpoints" | DescribeExport => lit "DescribeExport"
  | DescribeGlobalTable => lit "DescribeGlobalTable"
  | DescribeGlobalTableSettings => lit "DescribeGlobalTableSettings" | DescribeImport => lit "DescribeImport"
  | DescribeKinesisStreamingDestination => lit "DescribeKinesisStreamingDestination"
  | DescribeLimits => lit "DescribeLimits" | DescribeStream => lit "DescribeStream"
  | DescribeTable => lit "DescribeTable"
  | DescribeTableReplicaAutoScaling => lit "DescribeTableReplicaAutoScaling"
  | DescribeTimeToLive => lit "DescribeTimeToLive"
  | DisableKinesisStreamingDestination => lit "DisableKinesisStreamingDestination"
  | EnableKinesisStreamingDestination => lit "EnableKinesisStreamingDestination"
  | ExecuteStatement => lit "ExecuteStatement" | ExecuteTransaction => lit "ExecuteTransaction"
  | ExportTableToPointInTime => lit "ExportTableToPointInTime" | GetItem => lit "GetItem"
  | GetRecords => lit "GetRecords" | GetResourcePolicy => lit "GetResourcePolicy"
  | GetShardIterator => lit "GetShardIterator" | ImportTable => lit "ImportTable"
  | ListBackups => lit "ListBackups" | ListContributorInsights => lit "ListContributorInsights"
  | ListExports => lit "ListExports" | ListGlobalTables => lit "ListGlobalTables"
  | ListImports => lit "ListImports" | ListStreams => lit "ListStreams" | ListTables => lit "ListTables"
  | ListTagsOfResource => lit "ListTagsOfResource" | PutItem => lit "PutItem"
  | PutResourcePolicy => lit "PutResourcePolicy" | Query => lit "Query"
  | RestoreTableFromBackup => lit "RestoreTableFromBackup"
  | RestoreTableToPointInTime => lit "RestoreTableToPointInTime" | Scan => lit "Scan"
  | TagResource => lit "TagResource" | TransactGetItems => lit "TransactGetItems"
  | TransactWriteItems => lit "TransactWriteItems" | UntagResource => lit "UntagResource"
  | UpdateContinuousBackups => lit "UpdateContinuousBackups"
  | UpdateContributorInsights => lit "UpdateContributorInsights"
  | UpdateGlobalTable => lit "UpdateGlobalTable"
  | UpdateGlobalTableSettings => lit "UpdateGlobalTableSettings" | UpdateItem => lit "UpdateItem"
  | UpdateKinesisStreamingDestination => lit "UpdateKinesisStreamingDestination"
  | UpdateTable => lit "UpdateTable" | UpdateTableReplicaAutoScaling => lit "UpdateTableReplicaAutoScaling"
  | UpdateTimeToLive => lit "UpdateTimeToLive" | Unknown => lit "Unknown"
  end.

Definition is_sorted_lookup (values : list (bytes * Operation)) : bool :=
  forallb (fun p => bytes_ltb p.1.1 p.2.1) (zip values (tail values)).

(** The [static_assert]. *)
Lemma lookup_sorted : is_sorted_lookup kLookup = true.
Proof. vm_compute. reflexivity. Qed.

Lemma lookup_names name op : In (name, op) kLookup -> name = to_string op /\ op <> Unknown.
Proof.
  assert (H : forallb (fun e => bytes_eqb e.1 (to_string e.2) && negb (bool_decide (e.2 = Unknown))) kLookup = true) by (vm_compute; reflexivity).
  rewrite forallb_forall in H. intros [H1 H2]%H%andb_prop. cbn [fst snd] in *. split; [by destruct (bytes_eqb_spec name (to_string op))|].
  intros ->. by rewrite bool_decide_eq_true_2 in H2.
Qed.

Lemma starts_with_drop s p : starts_with s p = true -> s = p ++ drop (length p) s.
Proof. intros [r ->]%starts_with_spec. by rewrite drop_app_length. Qed.

(** Operation names.  A target header names an operation exactly when it is, up to
    surrounding white space, one of the two service prefixes followed by the name of the
    operation. *)
Theorem parse_target_exact target op : op <> Unknown ->
  parse_target target = op <->
  trim_target target = kDynamoDbTargetPrefix ++ to_string op \/ trim_target target = kStreamsTargetPrefix ++ to_string op.
Proof.
  intros Hop. unfold parse_target. split.
  - destruct (_ || _ || _); [congruence|]. destruct (has_invalid_target_chars _); [congruence|].
    set (t := trim_target target).
    assert (Hp : forall prefix, starts_with t prefix = true ->
      (if negb (is_valid_operation_name (drop (length prefix) t) kMinOperationBytes kMaxOperationBytes) then Unknown
       else if existsb (is_char 46) (drop (length prefix) t) then Unknown
       else match kLookup !! lower_bound (fun e => bytes_ltb e.1 (drop (length prefix) t)) kLookup with
            | Some (name, o) => if bytes_eqb name (drop (length prefix) t) then o else Unknown
            | None => Unknown
            end) = op -> t = prefix ++ to_string op).
    { intros prefix Hs. destruct (negb _); [congruence|]. destruct (existsb _ _); [congruence|].
      destruct (kLookup !! _) as [[name o]|] eqn:El; [|congruence]. destruct (bytes_eqb_spec name (drop (length prefix) t)) as [E|]; [|congruence].
      intros <-. rewrite (starts_with_drop _ _ Hs) at 1. f_equal. rewrite <- E. apply list_elem_of_lookup_2, list_elem_of_In in El. by apply lookup_names in El as [-> _]. }
    destruct (starts_with t kDynamoDbTargetPrefix) eqn:E1; [intros H; left; by apply Hp|].
    destruct (starts_with t kStreamsTargetPrefix) eqn:E2; [intros H; right; by apply Hp|congruence].
  - intros [-> | ->]; destruct op; first [done | vm_compute; reflexivity].
Qed.

Lemma parse_target_exact_witness : parse_target (lit " DynamoDB_20120810.PutItem ") = PutItem.
Proof. apply parse_target_exact; [discriminate|]. left. vm_compute. reflexivity. Defined.

End Dispatcher.
