(* ===== verification/Sha256.v ===== *)
(** * SHA-256 and HMAC

    [include/cynamodb/utils/sha256.hpp]: the streaming hash with its 64-octet buffer,
    hexadecimal output and HMAC-SHA256.  [sha256_spec] is the hash of the standard:
    the whole message is padded first and its blocks are compressed one after the
    other. *)

From Stdlib Require Import ZArith Lia Strings.String.
From stdpp Require Import prelude.
From S2P Require Import Prelude.

Module Sha.

Definition rotr (x n : Z) : Z := Z.lor (Z.shiftr x n) (u32 (Z.shiftl x (32 - n))).

(** The table [k], a row per line of the source. *)
Definition k_table : list Z :=
  mjoin [
    [0x428a2f98; 0x71374491; 0xb5c0fbcf; 0xe9b5dba5; 0x3956c25b; 0x59f111f1; 0x923f82a4; 0xab1c5ed5];
    [0xd807aa98; 0x12835b01; 0x243185be; 0x550c7dc3; 0x72be5d74; 0x80deb1fe; 0x9bdc06a7; 0xc19bf174];
    [0xe49b69c1; 0xefbe4786; 0x0fc19dc6; 0x240ca1cc; 0x2de92c6f; 0x4a7484aa; 0x5cb0a9dc; 0x76f988da];
    [0x983e5152; 0xa831c66d; 0xb00327c8; 0xbf597fc7; 0xc6e00bf3; 0xd5a79147; 0x06ca6351; 0x14292967];
    [0x27b70a85; 0x2e1b2138; 0x4d2c6dfc; 0x53380d13; 0x650a7354; 0x766a0abb; 0x81c2c92e; 0x92722c85];
    [0xa2bfe8a1; 0xa81a664b; 0xc24b8b70; 0xc76c51a3; 0xd192e819; 0xd6990624; 0xf40e3585; 0x106aa070];
    [0x19a4c116; 0x1e376c08; 0x2748774c; 0x34b0bcb5; 0x391c0cb3; 0x4ed8aa4a; 0x5b9cca4f; 0x682e6ff3];
    [0x748f82ee; 0x78a5636f; 0x84c87814; 0x8cc70208; 0x90befffa; 0xa4506ceb; 0xbef9a3f7; 0xc67178f2]].

Definition nth_word (w : list Z) (i : nat) : Z := default 0 (w !! i).
Definition nth_octet (buffer : bytes) (i : nat) : Z := bval (default Byte.x00 (buffer !! i)).

(** The first 16 words of the message schedule. *)
Definition load_words (buffer : bytes) : list Z :=
  map (fun i => Z.lor (Z.lor (Z.lor (Z.shiftl (nth_octet buffer (i * 4)) 24) (Z.shiftl (nth_octet buffer (i * 4 + 1)) 16))
                             (Z.shiftl (nth_octet buffer (i * 4 + 2)) 8)) (nth_octet buffer (i * 4 + 3)))
      (seq 0 16).

(** [for (i = 16; i < 64; ++i)] *)
Definition extend_word (w : list Z) (i : nat) : list Z :=
  let s0 := Z.lxor (Z.lxor (rotr (nth_word w (i - 15)) 7) (rotr (nth_word w (i - 15)) 18)) (Z.shiftr (nth_word w (i - 15)) 3) in
  let s1 := Z.lxor (Z.lxor (rotr (nth_word w (i - 2)) 17) (rotr (nth_word w (i - 2)) 19)) (Z.shiftr (nth_word w (i - 2)) 10) in
  w ++ [u32 (nth_word w (i - 16) + s0 + nth_word w (i - 7) + s1)].

Definition schedule (buffer : bytes) : list Z := fold_left extend_word (seq 16 48) (load_words buffer).

(** The working variables. *)
Record Vars := { va : Z; vb : Z; vc : Z; vd : Z; ve : Z; vf : Z; vg : Z; vh : Z }.

Definition round (w : list Z) (v : Vars) (i : nat) : Vars :=
  let s1 := Z.lxor (Z.lxor (rotr (ve v) 6) (rotr (ve v) 11)) (rotr (ve v) 25) in
  let ch := Z.lxor (Z.land (ve v) (vf v)) (Z.land (u32 (Z.lnot (ve v))) (vg v)) in
  let t1 := u32 (vh v + s1 + ch + nth_word k_table i + nth_word w i) in
  let s0 := Z.lxor (Z.lxor (rotr (va v) 2) (rotr (va v) 13)) (rotr (va v) 22) in
  let maj := Z.lxor (Z.lxor (Z.land (va v) (vb v)) (Z.land (va v) (vc v))) (Z.land (vb v) (vc v)) in
  let t2 := u32 (s0 + maj) in
  {| va := u32 (t1 + t2); vb := va v; vc := vb v; vd := vc v; ve := u32 (vd v + t1); vf := ve v; vg := vf v; vh := vg v |}.

(** [transform], on the state and the buffer *)
Definition compress (state : list Z) (buffer : bytes) : list Z :=
  let s i := nth_word state i in
  let v := fold_left (round (schedule buffer)) (seq 0 64)
             {| va := s 0%nat; vb := s 1%nat; vc := s 2%nat; vd := s 3%nat; ve := s 4%nat; vf := s 5%nat; vg := s 6%nat; vh := s 7%nat |} in
  [u32 (s 0%nat + va v); u32 (s 1%nat + vb v); u32 (s 2%nat + vc v); u32 (s 3%nat + vd v);
   u32 (s 4%nat + ve v); u32 (s 5%nat + vf v); u32 (s 6%nat + vg v); u32 (s 7%nat + vh v)].

Record Sha256 := { state_ : list Z; buffer_ : bytes; bitlen_ : Z; buflen_ : nat }.

Definition initial_state : list Z :=
  [0x6a09e667; 0xbb67ae85; 0x3c6ef372; 0xa54ff53a; 0x510e527f; 0x9b05688c; 0x1f83d9ab; 0x5be0cd19].

(** The constructor; [reset] leaves the buffer as it is. *)
Definition reset (buffer : bytes) : Sha256 := {| state_ := initial_state; buffer_ := buffer; bitlen_ := 0; buflen_ := 0 |}.
Definition new : Sha256 := reset (replicate 64 Byte.x00).

Definition update_octet (h : Sha256) (b : byte) : Sha256 :=
  let buffer := <[buflen_ h := b]> (buffer_ h) in
  let buflen := S (buflen_ h) in
  if (buflen =? 64)%nat
  then {| state_ := compress (state_ h) buffer; buffer_ := buffer; bitlen_ := u64 (bitlen_ h + 512); buflen_ := 0 |}
  else {| state_ := state_ h; buffer_ := buffer; bitlen_ := bitlen_ h; buflen_ := buflen |}.

Definition update (h : Sha256) (data : bytes) : Sha256 := fold_left update_octet data h.

(** [while (i < to) buffer_[i++] = 0x00] *)
Definition zero_fill (from to : nat) (buffer : bytes) : bytes :=
  fold_left (fun b i => <[i := Byte.x00]> b) (seq from (to - from)) buffer.

(** The eight octets of the length, from index 56. *)
Definition write_length (total_bits : Z) (buffer : bytes) : bytes :=
  fold_left (fun b j => <[(63 - j)%nat := byte_of (Z.land (Z.shiftr total_bits (Z.of_nat j * 8)) 255)]> b) [7; 6; 5; 4; 3; 2; 1; 0]%nat buffer.

Definition state_octets (state : list Z) : bytes :=
  flat_map (fun s => [byte_of (Z.land (Z.shiftr s 24) 255); byte_of (Z.land (Z.shiftr s 16) 255);
                      byte_of (Z.land (Z.shiftr s 8) 255); byte_of (Z.land s 255)]) state.

Definition digest (h : Sha256) : bytes :=
  let total_bits := u64 (bitlen_ h + Z.of_nat (buflen_ h) * 8) in
  let buffer := <[buflen_ h := Byte.x80]> (buffer_ h) in
  let i := S (buflen_ h) in
  let '(state, buffer, i) :=
    if (56 <? i)%nat then let b := zero_fill i 64 buffer in (compress (state_ h) b, b, 0%nat) else (state_ h, buffer, i) in
  let buffer := write_length total_bits (zero_fill i 56 buffer) in
  state_octets (compress state buffer).

Definition sha256 (data : bytes) : bytes := digest (update new data).

Definition hex_char (v : Z) : byte := default Byte.x00 (lit "0123456789abcdef" !! Z.to_nat v).
Definition to_hex (data : bytes) : bytes :=
  flat_map (fun b => [hex_char (Z.land (Z.shiftr (bval b) 4) 15); hex_char (Z.land (bval b) 15)]) data.
Definition sha256_hex (data : bytes) : bytes := to_hex (sha256 data).

(** [memcpy] of the key (or its hash) into a zeroed block *)
Definition hmac_block (key : bytes) : bytes :=
  let key := if 64 <? len key then sha256 key else key in key ++ replicate (64 - length key) Byte.x00.

Definition xor_octets (c : Z) (block : bytes) : bytes := map (fun b => byte_of (Z.lxor (bval b) c)) block.

Definition hmac_sha256 (key msg : bytes) : bytes :=
  let block := hmac_block key in
  let inner := digest (update (update new (xor_octets 54 block)) msg) in
  digest (update (update new (xor_octets 92 block)) inner).

(** ** The standard *)

Definition padding (data : bytes) : bytes :=
  [Byte.x80] ++ replicate (Z.to_nat ((55 - len data) mod 64)) Byte.x00 ++ rev (le_bytes 8 (8 * len data)).

Fixpoint compress_all (blocks : nat) (state : list Z) (data : bytes) : list Z :=
  match blocks with
  | O => state
  | S n => compress_all n (compress state (take 64 data)) (drop 64 data)
  end.

Definition sha256_spec (data : bytes) : bytes :=
  let message := data ++ padding data in
  state_octets (compress_all (length message / 64) initial_state message).

Example sha256_abc : sha256_hex (lit "abc") = lit "ba7816bf8f01cfea414140de5dae2223b00361a396177a9cb410ff61f20015ad".
Proof. vm_compute. reflexivity. Qed.

(** ** Blocks *)

Lemma compress_all_app n : forall m st l1 l2, length l1 = (64 * n)%nat ->
  compress_all (n + m) st (l1 ++ l2) = compress_all m (compress_all n st l1) l2.
Proof.
  induction n as [|n IH]; intros m st l1 l2 Hl; [by destruct l1|]. cbn [compress_all Nat.add].
  rewrite take_app_le, drop_app_le by lia. apply IH. rewrite length_drop. lia.
Qed.

Lemma compress_one st b : length b = 64%nat -> compress_all 1 st b = compress st b.
Proof. intros Hb. cbn [compress_all]. by rewrite take_ge by lia. Qed.

(** ** Writing into the buffer *)

Lemma take_insert_next {A} (l : list A) i x : (i < length l)%nat -> take (S i) (<[i := x]> l) = take i l ++ [x].
Proof.
  intros Hi. rewrite (take_S_r _ _ x); [|by apply list_lookup_insert_eq]. by rewrite take_insert_ge by lia.
Qed.

Lemma zero_fill_spec to b : forall k from, (from + k = to)%nat -> (to <= length b)%nat ->
  length (fold_left (fun b i => <[i := Byte.x00]> b) (seq from k) b) = length b /\
  take to (fold_left (fun b i => <[i := Byte.x00]> b) (seq from k) b) = take from b ++ replicate k Byte.x00.
Proof.
  intros k. revert b. induction k as [|k IH]; intros b from Hk Hl; cbn [seq fold_left replicate].
  - split; [done|]. rewrite app_nil_r. f_equal. lia.
  - destruct (IH (<[from := Byte.x00]> b) (S from)) as [H1 H2]; [lia|rewrite length_insert; lia|]. rewrite length_insert in H1. split; [done|].
    rewrite H2, take_insert_next by lia. by rewrite <- app_assoc.
Qed.

Lemma zero_fill_ok from to b : (from <= to)%nat -> (to <= length b)%nat ->
  length (zero_fill from to b) = length b /\ take to (zero_fill from to b) = take from b ++ replicate (to - from) Byte.x00.
Proof. intros H1 H2. unfold zero_fill. apply zero_fill_spec; lia. Qed.

Lemma byte_of_land x : byte_of (Z.land x 255) = byte_of x.
Proof.
  change 255 with (2 ^ 8 - 1). rewrite land_low by lia. unfold byte_of. change (2 ^ 8) with 256. by rewrite Z.mod_mod by lia.
Qed.

Lemma write_length_ok v b : length b = 64%nat -> write_length v b = take 56 b ++ rev (le_bytes 8 v).
Proof.
  intros Hb. rewrite <- (take_drop 56 b) at 1. assert (Hl : length (take 56 b) = 56%nat) by (rewrite length_take; lia).
  assert (Hd : length (drop 56 b) = 8%nat) by (rewrite length_drop; lia). revert Hl Hd. generalize (take 56 b) as l1, (drop 56 b) as l2. intros l1 l2 Hl Hd.
  destruct l2 as [|x0 [|x1 [|x2 [|x3 [|x4 [|x5 [|x6 [|x7 [|]]]]]]]]]; try done.
  unfold write_length. cbn [fold_left Nat.sub]. rewrite !byte_of_land, !shiftr_div by lia.
  repeat (rewrite insert_app_r_alt by lia; rewrite Hl; cbn [Nat.sub insert list_insert]). f_equal.
  cbn [le_bytes rev app Z.of_nat]. rewrite !Z.div_div by lia. by rewrite ?Z.div_1_r.
Qed.

(** ** Streaming *)

(** The hash has absorbed [data]. *)
Definition absorbed (data : bytes) (h : Sha256) : Prop :=
  exists n full rest, data = full ++ rest /\ length full = (64 * n)%nat /\ (length rest < 64)%nat /\
    state_ h = compress_all n initial_state full /\ buflen_ h = length rest /\ length (buffer_ h) = 64%nat /\
    take (length rest) (buffer_ h) = rest /\ bitlen_ h = u64 (512 * Z.of_nat n).

Lemma absorbed_new : absorbed [] new.
Proof. exists 0%nat, [], []. repeat split. cbn. lia. Qed.

Lemma absorbed_octet data h b : absorbed data h -> absorbed (data ++ [b]) (update_octet h b).
Proof.
  intros (n & full & rest & -> & Hf & Hr & Hs & Hl & Hb & Ht & Hbits). unfold update_octet. rewrite Hl.
  pose proof (take_insert_next (buffer_ h) (length rest) b ltac:(lia)) as Hnext. rewrite Ht in Hnext.
  destruct (Nat.eqb_spec (S (length rest)) 64) as [E|E].
  - assert (Hbuf : <[length rest := b]> (buffer_ h) = rest ++ [b]) by (rewrite <- Hnext, take_ge; [done|rewrite length_insert; lia]).
    exists (S n), (full ++ rest ++ [b]), []. rewrite !app_nil_r, <- app_assoc. split; [done|]. split; [rewrite !length_app; cbn; lia|]. split; [cbn; lia|].
    cbn [state_ buflen_ buffer_ bitlen_]. split; [|split; [done|split; [rewrite length_insert; done|split; [done|]]]].
    + replace (S n) with (n + 1)%nat by lia. rewrite compress_all_app by done. rewrite compress_one by (rewrite length_app; cbn; lia). by rewrite Hbuf, Hs.
    + rewrite Hbits. unfold u64. rewrite Zplus_mod_idemp_l. f_equal. lia.
  - exists n, full, (rest ++ [b]). rewrite <- app_assoc. split; [done|]. split; [done|]. split; [rewrite length_app; cbn; lia|].
    cbn [state_ buflen_ buffer_ bitlen_]. rewrite length_app, length_insert. cbn [length]. split; [done|]. split; [lia|]. split; [done|]. split; [|done].
    replace (length rest + 1)%nat with (S (length rest)) by lia. done.
Qed.

Lemma absorbed_update more : forall data h, absorbed data h -> absorbed (data ++ more) (update h more).
Proof.
  induction more as [|b more IH]; intros data h H; [by rewrite app_nil_r|].
  cbn [update fold_left]. replace (data ++ b :: more) with ((data ++ [b]) ++ more) by by rewrite <- app_assoc. by apply IH, absorbed_octet.
Qed.

Lemma digest_absorbed data h : absorbed data h -> len data < 2 ^ 61 -> digest h = sha256_spec data.
Proof.
  intros (n & full & rest & -> & Hf & Hr & Hs & Hl & Hb & Ht & Hbits) Hlen. rewrite len_app in Hlen.
  assert (Hfull : len full = 64 * Z.of_nat n) by (unfold len; lia).
  assert (Htotal : u64 (bitlen_ h + Z.of_nat (buflen_ h) * 8) = 8 * len (full ++ rest)).
  { rewrite Hbits, Hl, len_app, Hfull. unfold u64. rewrite Zplus_mod_idemp_l. fold (len rest). rewrite Z.mod_small; unfold len in *; lia. }
  assert (Hpad : (55 - len (full ++ rest)) mod 64 = if (length rest <=? 55)%nat then 55 - len rest else 119 - len rest).
  { rewrite len_app, Hfull. replace (55 - (64 * Z.of_nat n + len rest)) with (55 - len rest + (- Z.of_nat n) * 64) by lia. rewrite Z.mod_add by lia.
    destruct (Nat.leb_spec (length rest) 55); [rewrite Z.mod_small; unfold len; lia|].
    rewrite <- (Z.mod_add _ 1) by lia. rewrite Z.mod_small; unfold len; lia. }
  unfold digest. rewrite Htotal, Hl, Hs. set (v := 8 * len (full ++ rest)).
  pose proof (take_insert_next (buffer_ h) (length rest) Byte.x80 ltac:(lia)) as Hnext. rewrite Ht in Hnext.
  set (buf := <[length rest := Byte.x80]> (buffer_ h)) in *. assert (Hbuf : length buf = 64%nat) by (subst buf; by rewrite length_insert).
  unfold sha256_spec, padding. rewrite Hpad. fold v. set (tail := rev (le_bytes 8 v)). assert (Htail : length tail = 8%nat) by (subst tail; by rewrite length_rev, le_bytes_length).
  destruct (Nat.leb_spec (length rest) 55) as [H55|H55].
  - destruct (Nat.ltb_spec 56 (S (length rest))); [lia|].
    destruct (zero_fill_ok (S (length rest)) 56 buf ltac:(lia) ltac:(lia)) as [Hz1 Hz2].
    rewrite write_length_ok by lia. fold tail. rewrite Hz2, Hnext, <- !app_assoc. f_equal.
    replace (Z.to_nat (55 - len rest)) with (56 - S (length rest))%nat by (unfold len; lia).
    set (blk := rest ++ [Byte.x80] ++ replicate (56 - S (length rest)) Byte.x00 ++ tail).
    assert (Hblk : length blk = 64%nat) by (subst blk; rewrite !length_app, length_replicate, Htail; cbn; lia).
    replace (length (full ++ blk) / 64)%nat with (n + 1)%nat.
    + rewrite compress_all_app by done. by rewrite compress_one.
    + rewrite length_app, Hf, Hblk. replace (64 * n + 64)%nat with ((n + 1) * 64)%nat by lia. by rewrite Nat.div_mul by lia.
  - destruct (Nat.ltb_spec 56 (S (length rest))); [|lia].
    destruct (zero_fill_ok (S (length rest)) 64 buf ltac:(lia) ltac:(lia)) as [Hz1 Hz2]. rewrite take_ge in Hz2 by lia.
    destruct (zero_fill_ok 0 56 (zero_fill (S (length rest)) 64 buf) ltac:(lia) ltac:(lia)) as [Hy1 Hy2].
    rewrite write_length_ok by lia. fold tail. rewrite Hy2, Hz2, Hnext, take_0, app_nil_l, <- !app_assoc. change (56 - 0)%nat with 56%nat. f_equal.
    replace (Z.to_nat (119 - len rest)) with ((64 - S (length rest)) + 56)%nat by (unfold len; lia). rewrite replicate_add, <- !app_assoc.
    set (blk1 := rest ++ [Byte.x80] ++ replicate (64 - S (length rest)) Byte.x00). set (blk2 := replicate 56 Byte.x00 ++ tail).
    assert (H1 : length blk1 = 64%nat) by (subst blk1; rewrite !length_app, length_replicate; cbn; lia).
    assert (H2 : length blk2 = 64%nat) by (subst blk2; rewrite !length_app, length_replicate, Htail; done).
    assert (Hmsg : full ++ rest ++ [Byte.x80] ++ replicate (64 - S (length rest)) Byte.x00 ++ blk2 = full ++ blk1 ++ blk2)
      by (subst blk1; by rewrite <- !app_assoc).
    rewrite Hmsg. replace (length (full ++ blk1 ++ blk2) / 64)%nat with (n + (1 + 1))%nat.
    + rewrite (compress_all_app n) by done. rewrite (compress_all_app 1) by done. by rewrite !compress_one.
    + rewrite !length_app, Hf, H1, H2. replace (64 * n + (64 + 64))%nat with ((n + 2) * 64)%nat by lia. by rewrite Nat.div_mul by lia.
Qed.

Lemma digest_length h : length (digest h) = 32%nat.
Proof. unfold digest. destruct (56 <? S (buflen_ h))%nat; reflexivity. Qed.

Lemma sha256_chunks chunks : len (concat chunks) < 2 ^ 61 -> digest (fold_left update chunks new) = sha256_spec (concat chunks).
Proof.
  intros Hl. apply digest_absorbed; [|done].
  assert (H : forall data h, absorbed data h -> absorbed (data ++ concat chunks) (fold_left update chunks h)); [|apply (H [] new absorbed_new)].
  clear Hl. induction chunks as [|c chunks IH]; intros data h Ha; cbn [concat fold_left]; [by rewrite app_nil_r|].
  rewrite app_assoc. by apply IH, absorbed_update.
Qed.



(** HMAC of the standard. *)
Lemma hmac_spec key msg : len key < 2 ^ 60 -> len msg < 2 ^ 60 ->
  let block := (if 64 <? len key then sha256_spec key else key) in
  let padded := block ++ replicate (64 - length block) Byte.x00 in
  hmac_sha256 key msg = sha256_spec (xor_octets 92 padded ++ sha256_spec (xor_octets 54 padded ++ msg)).
Proof.
  intros Hk Hm block padded.
  assert (Hkey : (if 64 <? len key then sha256 key else key) = block).
  { subst block. destruct (64 <? len key); [|done]. unfold sha256. pose proof (sha256_chunks [key]) as H. cbn [concat fold_left] in H. rewrite app_nil_r in H. apply H. lia. }
  assert (Hblock : len padded <= 64).
  { subst padded. rewrite len_app. unfold len at 2. rewrite length_replicate. assert (len block <= 64).
    { rewrite <- Hkey. destruct (Z.ltb_spec 64 (len key)); [|lia]. unfold sha256, len. rewrite digest_length. lia. }
    unfold len in *. lia. }
  unfold hmac_sha256, hmac_block. rewrite Hkey. fold padded.
  assert (Hx : forall c, len (xor_octets c padded) <= 64) by (intros c; unfold xor_octets, len in *; rewrite length_map; lia).
  assert (Htwo : forall x y, len x <= 64 -> len y < 2 ^ 60 -> digest (update (update new x) y) = sha256_spec (x ++ y)).
  { intros x y Hx' Hy'. pose proof (sha256_chunks [x; y]) as H. cbn [concat fold_left] in H. rewrite app_nil_r, len_app in H. apply H. lia. }
  rewrite (Htwo _ _ (Hx 54) Hm). apply Htwo; [apply Hx|]. rewrite <- (Htwo _ _ (Hx 54) Hm). unfold len. rewrite digest_length. lia.
Qed.

End Sha.
