(* ===== verification/SigV4.v ===== *)
(** * Signed requests

    [src/auth/sigv4.cpp] and [include/cynamodb/auth]: the [Authorization] header of AWS
    Signature Version 4, the verification of a request's signature and the store of
    credentials. *)

From Stdlib Require Import ZArith Lia Strings.String.
From stdpp Require Import prelude.
From S2P Require Import Prelude StdMap CLib Sha256.

Module SigV4.
Import Sha.

(** ** Text *)

Definition trim_view (s : bytes) : bytes :=
  let t := (span isspace s).2 in rev (span isspace (rev t)).2.

(** The loop of [split_view]: no part follows a final delimiter. *)
Fixpoint split_loop (fuel : nat) (delim : byte) (s : bytes) : list bytes :=
  match fuel with
  | O => []
  | S fuel' =>
      match s with
      | [] => []
      | _ => let '(part, rest) := span (fun c => negb (bool_decide (c = delim))) s in
             match rest with
             | [] => [trim_view part]
             | _ :: rest' => trim_view part :: split_loop fuel' delim rest'
             end
      end
  end.

Definition split_view (s : bytes) (delim : byte) : list bytes := split_loop (S (length s)) delim s.

Definition to_lower (s : bytes) : bytes := map tolower s.

(** [in_space] and [out] of the loop of [canonicalize_header_value] *)
Definition canonical_char (acc : bool * bytes) (c : byte) : bool * bytes :=
  let '(in_space, out) := acc in
  if bool_decide (c = Byte.x20) || bool_decide (c = Byte.x09) then (true, out)
  else (false, (if in_space && negb (bool_decide (out = [])) then out ++ [Byte.x20] else out) ++ [c]).

Definition canonicalize_header_value (v : bytes) : bytes := (fold_left canonical_char (trim_view v) (false, [])).2.

Definition secure_equals (a b : bytes) : bool :=
  if negb (len a =? len b) then false
  else fold_left (fun diff ab => Z.lor diff (Z.lxor (bval ab.1) (bval ab.2))) (combine a b) 0 =? 0.

(** ** The Authorization header *)

Record SigV4Parameters := {
  algorithm : bytes;
  access_key : bytes;
  date : bytes;
  region : bytes;
  service : bytes;
  request_type : bytes;
  signed_headers : list bytes;
  signature : bytes
}.

Definition no_parameters : SigV4Parameters :=
  {| algorithm := lit "AWS4-HMAC-SHA256"; access_key := []; date := []; region := []; service := []; request_type := [];
     signed_headers := []; signature := [] |}.

(** One part of the header. *)
Definition parse_part (params : SigV4Parameters) (part : bytes) : SigV4Parameters :=
  let '(k, rest) := span (fun c => negb (bool_decide (c = Byte.x3d))) part in
  match rest with
  | [] => params
  | _ :: v =>
      let key := trim_view k in
      let val := trim_view v in
      if bytes_eqb key (lit "Credential") then
        match split_view val Byte.x2f with
        | [c0; c1; c2; c3; c4] =>
            {| algorithm := algorithm params; access_key := c0; date := c1; region := c2; service := c3; request_type := c4;
               signed_headers := signed_headers params; signature := signature params |}
        | _ => params
        end
      else if bytes_eqb key (lit "SignedHeaders") then
        {| algorithm := algorithm params; access_key := access_key params; date := date params; region := region params;
           service := service params; request_type := request_type params; signed_headers := split_view val Byte.x3b;
           signature := signature params |}
      else if bytes_eqb key (lit "Signature") then
        {| algorithm := algorithm params; access_key := access_key params; date := date params; region := region params;
           service := service params; request_type := request_type params; signed_headers := signed_headers params; signature := val |}
      else params
  end.

Definition parse_authorization_header (auth_header : bytes) : option SigV4Parameters :=
  if negb (starts_with auth_header (lit "AWS4-HMAC-SHA256 ")) then None
  else
    let params := fold_left parse_part (split_view (drop 17 auth_header) Byte.x2c) no_parameters in
    if bool_decide (access_key params = []) || bool_decide (signature params = []) then None else Some params.

(** ** Verification *)

Record SigV4Credential := { cred_access_key : bytes; secret_key : bytes; session_token : option bytes }.

Inductive SigV4VerifyError :=
| InvalidRequest | MissingSignedHeader | MissingCredential | SignatureMismatch | SessionTokenMismatch | ExpiredRequest.

Record SigV4VerifyRequest := {
  method : bytes;
  canonical_uri : bytes;
  canonical_query_string : bytes;
  payload : bytes;
  signed_header_values : list (bytes * bytes);
  security_token_header : option bytes
}.

Definition newline : bytes := [Byte.x0a].

(** The canonical headers and the date header: [None] for a header that is
    missing. *)
Fixpoint collect_headers (headers : list bytes) (values : list (bytes * bytes)) (canonical_headers amz_date : bytes)
  : option (bytes * bytes) :=
  match headers with
  | [] => Some (canonical_headers, amz_date)
  | h :: headers' =>
      let name := to_lower h in
      match mget name values with
      | None => None
      | Some v =>
          let value := canonicalize_header_value v in
          collect_headers headers' values (canonical_headers ++ name ++ lit ":" ++ value ++ newline)
            (if bytes_eqb name (lit "x-amz-date") then value else amz_date)
      end
  end.

Fixpoint join (sep : bytes) (l : list bytes) : bytes :=
  match l with
  | [] => []
  | x :: l' => match l' with [] => x | _ => x ++ sep ++ join sep l' end
  end.

Definition signed_headers_text (headers : list bytes) : bytes := join (lit ";") (map to_lower headers).

Definition canonical_request (request : SigV4VerifyRequest) (canonical_headers : bytes) (headers : list bytes) : bytes :=
  method request ++ newline ++
  (if bool_decide (canonical_uri request = []) then lit "/" else canonical_uri request) ++ newline ++
  canonical_query_string request ++ newline ++
  canonical_headers ++ newline ++
  signed_headers_text headers ++ newline ++
  sha256_hex (payload request).

Definition credential_scope (params : SigV4Parameters) : bytes :=
  date params ++ lit "/" ++ region params ++ lit "/" ++ service params ++ lit "/" ++ request_type params.

Definition string_to_sign (params : SigV4Parameters) (amz_date request_text : bytes) : bytes :=
  lit "AWS4-HMAC-SHA256" ++ newline ++ amz_date ++ newline ++ credential_scope params ++ newline ++ sha256_hex request_text.

Definition compute_signature (params : SigV4Parameters) (secret amz_date request_text : bytes) : bytes :=
  let k_date := hmac_sha256 (lit "AWS4" ++ secret) (date params) in
  let k_region := hmac_sha256 k_date (region params) in
  let k_service := hmac_sha256 k_region (service params) in
  let k_signing := hmac_sha256 k_service (request_type params) in
  to_hex (hmac_sha256 k_signing (string_to_sign params amz_date request_text)).

Definition verify_request (params : SigV4Parameters) (credential : SigV4Credential) (request : SigV4VerifyRequest)
  : expected unit SigV4VerifyError :=
  if bool_decide (access_key params = []) || bool_decide (signature params = []) then Err MissingCredential
  else if bool_decide (signed_headers params = []) then Err MissingSignedHeader
  else if negb (bytes_eqb (cred_access_key credential) (access_key params)) then Err MissingCredential
  else
    match collect_headers (signed_headers params) (signed_header_values request) [] [] with
    | None => Err MissingSignedHeader
    | Some (canonical_headers, amz_date) =>
        if bool_decide (amz_date = []) then Err MissingSignedHeader
        else
          let computed := compute_signature params (secret_key credential) amz_date
                            (canonical_request request canonical_headers (signed_headers params)) in
          if secure_equals computed (signature params) then Ok tt else Err SignatureMismatch
    end.

Definition sha256_hex_digest (data : bytes) : bytes := sha256_hex data.

(** ** Credentials *)

Definition CredentialStore : Type := list (bytes * bytes).

(** The constructor, from the two environment variables. *)
Definition create_store (ak sk : option bytes) : CredentialStore :=
  match ak, sk with
  | Some (a :: ak'), Some (s :: sk') => [(a :: ak', s :: sk')]
  | _, _ => [(lit "cynamodb", lit "cynamodb-secret")]
  end.

Definition add_credential (st : CredentialStore) (ak sk : bytes) : CredentialStore := mset ak sk st.
Definition secret_for (st : CredentialStore) (ak : bytes) : option bytes := mget ak st.

(** ** Comparison *)

Lemma secure_equals_eq a b : secure_equals a b = bytes_eqb a b.
Proof.
  unfold secure_equals. destruct (Z.eqb_spec (len a) (len b)) as [E|E]; cbn [negb].
  2:{ symmetry. apply bytes_eqb_neq. congruence. }
  assert (Hacc : forall l x, 0 <= x -> fold_left (fun diff (ab : byte * byte) => Z.lor diff (Z.lxor (bval ab.1) (bval ab.2))) l x = 0 <->
    x = 0 /\ Forall (fun ab => ab.1 = ab.2) l).
  { induction l as [|[c d] l IH]; intros x Hx; cbn [fold_left fst snd]; [rewrite Forall_nil; tauto|].
    rewrite IH, Z.lor_eq_0_iff, Z.lxor_eq_0_iff, Forall_cons; cbn [fst snd].
    - split; [intros [[-> Hcd] Hl]; by apply bval_inj in Hcd|]. intros (-> & -> & Hl). done.
    - apply Z.lor_nonneg. split; [done|]. apply Z.lxor_nonneg. pose proof (bval_bound c). pose proof (bval_bound d). lia. }
  assert (Hlen : length a = length b) by (unfold len in E; lia). clear E.
  assert (Hpairs : Forall (fun ab => ab.1 = ab.2) (combine a b) <-> a = b).
  { revert b Hlen. induction a as [|c a IH]; intros [|d b] Hlen; try done; cbn [combine]. rewrite Forall_cons, IH by (cbn in Hlen; lia). cbn [fst snd].
    split; [by intros [-> ->]|by intros [= -> ->]]. }
  destruct (bytes_eqb_spec a b) as [Hab|Hab]; [apply Z.eqb_eq, Hacc; [done|]; split; [done|by apply Hpairs]|].
  apply Z.eqb_neq. rewrite Hacc by done. intros [_ H]. by apply Hab, Hpairs.
Qed.

(** ** Printing and parsing the header *)

(** Text without delimiters and white space. *)
Definition plain_char (c : byte) : bool :=
  negb (isspace c || bool_decide (c = Byte.x2c) || bool_decide (c = Byte.x2f) || bool_decide (c = Byte.x3b) || bool_decide (c = Byte.x3d)).
Definition token (s : bytes) : bool := negb (bool_decide (s = [])) && forallb plain_char s.

Definition print_header (p : SigV4Parameters) : bytes :=
  lit "AWS4-HMAC-SHA256 Credential=" ++ join (lit "/") [access_key p; date p; region p; service p; request_type p] ++
  lit ", SignedHeaders=" ++ join (lit ";") (signed_headers p) ++ lit ", Signature=" ++ signature p.

Lemma span_spec_all f s b r : Forall (fun c => f c = true) s -> f b = false -> span f (s ++ b :: r) = (s, b :: r).
Proof. apply span_prefix. Qed.

Lemma span_forall f s : Forall (fun c => f c = true) s -> span f s = (s, []).
Proof. induction 1 as [|c s Hc Hs IH]; [done|]. cbn [span]. by rewrite Hc, IH. Qed.

Lemma trim_plain s : Forall (fun c => isspace c = false) s -> trim_view s = s.
Proof.
  intros Hs. assert (Hnone : forall t, Forall (fun c => isspace c = false) t -> (span isspace t).2 = t).
  { intros t [|c t' Hc _]; [done|]. cbn [span]. by rewrite Hc. }
  unfold trim_view. rewrite (Hnone s Hs), (Hnone (rev s)) by (by apply Forall_rev). apply rev_involutive.
Qed.

Lemma trim_leading c s : isspace c = true -> Forall (fun c => isspace c = false) s -> trim_view (c :: s) = s.
Proof.
  intros Hc Hs. rewrite <- (trim_plain s Hs) at 2. unfold trim_view. cbn [span]. rewrite Hc. by destruct (span isspace s).
Qed.

(** Splitting joined parts. *)
Lemma split_parts delim parts : forall fuel,
  Forall (fun s => Forall (fun c => c <> delim) s) parts -> Forall (fun s => s <> []) parts -> (length (join [delim] parts) < fuel)%nat ->
  split_loop fuel delim (join [delim] parts) = map trim_view parts.
Proof.
  induction parts as [|s parts IH]; intros fuel Hd Hne Hf; [by destruct fuel|].
  apply Forall_cons in Hd as [Hd Hds]. apply Forall_cons in Hne as [Hs Hne].
  assert (Hspan : Forall (fun c => negb (bool_decide (c = delim)) = true) s) by (eapply Forall_impl; [exact Hd|]; intros c Hc; by rewrite bool_decide_eq_false_2).
  destruct fuel as [|fuel]; [lia|]. destruct parts as [|s2 parts].
  - cbn [join map split_loop]. rewrite span_forall by done. by destruct s.
  - change (join [delim] (s :: s2 :: parts)) with (s ++ delim :: join [delim] (s2 :: parts)) in *. cbn [split_loop].
    rewrite span_prefix by (done || by rewrite bool_decide_eq_true_2). destruct s as [|c s]; [done|]. cbn [app map].
    rewrite IH; [done|done|done|]. rewrite !length_app in Hf. cbn [length] in Hf. lia.
Qed.

Lemma split_view_join delim parts :
  Forall (fun s => Forall (fun c => c <> delim) s) parts -> Forall (fun s => s <> []) parts -> split_view (join [delim] parts) delim = map trim_view parts.
Proof. intros Hd Hne. unfold split_view. apply split_parts; [done|done|lia]. Qed.

(** *** The whole header *)

Lemma token_spec s : token s = true -> s <> [] /\ Forall (fun c => plain_char c = true) s.
Proof. unfold token. rewrite andb_true_iff, negb_true_iff, bool_decide_eq_false, forallb_iff. done. Qed.

Lemma plain_not c : plain_char c = true ->
  isspace c = false /\ c <> Byte.x2c /\ c <> Byte.x2f /\ c <> Byte.x3b /\ c <> Byte.x3d.
Proof.
  unfold plain_char. rewrite negb_true_iff, !orb_false_iff, !bool_decide_eq_false. tauto.
Qed.

(** A property of the characters of tokens and of the separator holds of the joined text. *)
Lemma join_forall (P : byte -> Prop) sep parts :
  Forall P sep -> Forall (fun s => Forall P s) parts -> Forall P (join sep parts).
Proof.
  intros Hs. induction 1 as [|s parts H1 H2 IH]; [constructor|]. cbn [join]. destruct parts; [done|].
  apply Forall_app. split; [done|]. apply Forall_app. done.
Qed.

Lemma join_nonempty sep parts : parts <> [] -> Forall (fun s => s <> []) parts -> join sep parts <> [].
Proof.
  intros Hp Hne. destruct Hne as [|s parts Hs Hne]; [done|]. cbn [join]. destruct parts; [done|]. by destruct s.
Qed.

Lemma tokens_forall (P : byte -> Prop) ts : (forall c, plain_char c = true -> P c) -> Forall (fun s => token s = true) ts ->
  Forall (fun s => Forall P s) ts.
Proof. intros HP Ht. eapply Forall_impl; [exact Ht|]. intros s [_ Hs]%token_spec. eapply Forall_impl; [exact Hs|apply HP]. Qed.

Lemma split_tokens delim ts : (forall c, plain_char c = true -> c <> delim) -> Forall (fun s => token s = true) ts ->
  split_view (join [delim] ts) delim = ts.
Proof.
  intros Hd Ht. rewrite split_view_join.
  - rewrite <- (map_id ts) at 2. apply map_ext_Forall. eapply Forall_impl; [exact Ht|]. intros s [_ Hs]%token_spec. apply trim_plain.
    eapply Forall_impl; [exact Hs|]. intros c Hc. by apply plain_not in Hc as [].
  - by apply tokens_forall.
  - eapply Forall_impl; [exact Ht|]. intros s [Hs _]%token_spec. done.
Qed.

(** A part [key=value]. *)
Lemma parse_part_spec params key v :
  Forall (fun c => c <> Byte.x3d) key -> Forall (fun c => isspace c = false) key -> Forall (fun c => isspace c = false) v ->
  parse_part params (key ++ Byte.x3d :: v) =
    if bytes_eqb key (lit "Credential") then
      match split_view v Byte.x2f with
      | [c0; c1; c2; c3; c4] =>
          {| algorithm := algorithm params; access_key := c0; date := c1; region := c2; service := c3; request_type := c4;
             signed_headers := signed_headers params; signature := signature params |}
      | _ => params
      end
    else if bytes_eqb key (lit "SignedHeaders") then
      {| algorithm := algorithm params; access_key := access_key params; date := date params; region := region params;
         service := service params; request_type := request_type params; signed_headers := split_view v Byte.x3b; signature := signature params |}
    else if bytes_eqb key (lit "Signature") then
      {| algorithm := algorithm params; access_key := access_key params; date := date params; region := region params;
         service := service params; request_type := request_type params; signed_headers := signed_headers params; signature := v |}
    else params.
Proof.
  intros Hk Hs Hv. unfold parse_part. rewrite span_prefix.
  - by rewrite !trim_plain.
  - eapply Forall_impl; [exact Hk|]. intros c Hc. by rewrite bool_decide_eq_false_2.
  - by rewrite bool_decide_eq_true_2.
Qed.

Definition header_ok (p : SigV4Parameters) : bool :=
  bytes_eqb (algorithm p) (lit "AWS4-HMAC-SHA256") &&
  forallb token [access_key p; date p; region p; service p; request_type p; signature p] &&
  negb (bool_decide (signed_headers p = [])) && forallb token (signed_headers p).

(** The header as parts separated by commas. *)
Lemma print_header_parts p :
  print_header p = lit "AWS4-HMAC-SHA256 " ++
    join [Byte.x2c] [lit "Credential" ++ Byte.x3d :: join [Byte.x2f] [access_key p; date p; region p; service p; request_type p];
                     Byte.x20 :: lit "SignedHeaders" ++ Byte.x3d :: join [Byte.x3b] (signed_headers p);
                     Byte.x20 :: lit "Signature" ++ Byte.x3d :: signature p].
Proof.
  unfold print_header. change (lit "/") with [Byte.x2f]. change (lit ";") with [Byte.x3b]. generalize (join [Byte.x2f] [access_key p; date p; region p; service p; request_type p]).
  generalize (join [Byte.x3b] (signed_headers p)). intros b a. cbn [join].
  change (lit "AWS4-HMAC-SHA256 Credential=") with (lit "AWS4-HMAC-SHA256 " ++ lit "Credential" ++ [Byte.x3d]).
  change (lit ", SignedHeaders=") with ([Byte.x2c] ++ [Byte.x20] ++ lit "SignedHeaders" ++ [Byte.x3d]).
  change (lit ", Signature=") with ([Byte.x2c] ++ [Byte.x20] ++ lit "Signature" ++ [Byte.x3d]).
  rewrite <- !app_assoc. cbn [app]. reflexivity.
Qed.

Lemma parse_printed p : header_ok p = true -> parse_authorization_header (print_header p) = Some p.
Proof.
  unfold header_ok. rewrite !andb_true_iff, negb_true_iff, bool_decide_eq_false, bytes_eqb_eq, !forallb_iff. intros [[[Halg Ht] Hne] Hh].
  rewrite !Forall_cons in Ht. destruct Ht as (Hak & Hdt & Hrg & Hsv & Hrt & Hsig & _).
  assert (Hcred : Forall (fun s => token s = true) [access_key p; date p; region p; service p; request_type p]) by by rewrite !Forall_cons, Forall_nil.
  pose proof (token_spec _ Hak) as [Hak0 _]. pose proof (token_spec _ Hsig) as [Hsig0 Hsigp].
  unfold parse_authorization_header. rewrite print_header_parts, starts_with_app. cbn [negb].
  rewrite drop_app_length' by reflexivity.
  assert (Hplain : forall c, plain_char c = true -> isspace c = false /\ c <> Byte.x2c) by (intros c Hc; by apply plain_not in Hc as (? & ? & _)).
  assert (Hno : forall (P : byte -> Prop), (forall c, plain_char c = true -> P c) -> P Byte.x2f -> P Byte.x3b ->
    Forall P (join [Byte.x2f] [access_key p; date p; region p; service p; request_type p]) /\ Forall P (join [Byte.x3b] (signed_headers p)) /\ Forall P (signature p)).
  { intros P HP H1 H2. split; [|split]; [apply join_forall; [by constructor|by apply tokens_forall]..|]. eapply Forall_impl; [exact Hsigp|apply HP]. }
  destruct (Hno (fun c => isspace c = false)) as (S1 & S2 & S3); [intros c Hc; by apply Hplain|done|done|].
  destruct (Hno (fun c => c <> Byte.x2c)) as (C1 & C2 & C3); [intros c Hc; by apply Hplain|done|done|].
  set (cred := join [Byte.x2f] _) in *. set (hdrs := join [Byte.x3b] _) in *.
  assert (Hchars : forall k, Forall (fun c => plain_char c = true) k -> Forall (fun c => c <> Byte.x2c) k /\ Forall (fun c => isspace c = false) k /\ Forall (fun c => c <> Byte.x3d) k).
  { intros k Hk. repeat split; (eapply Forall_impl; [exact Hk|]); intros c Hc; apply plain_not in Hc; tauto. }
  destruct (Hchars (lit "Credential")) as (K1 & K1' & K1''); [repeat constructor|]. destruct (Hchars (lit "SignedHeaders")) as (K2 & K2' & K2''); [repeat constructor|].
  destruct (Hchars (lit "Signature")) as (K3 & K3' & K3''); [repeat constructor|].
  assert (Hpart : forall (P : byte -> Prop) k v, Forall P k -> P Byte.x3d -> Forall P v -> Forall P (k ++ Byte.x3d :: v)) by (intros P k v Hk He Hv; apply Forall_app; split; [done|by constructor]).
  rewrite split_view_join.
  2:{ constructor; [by apply Hpart|]. constructor; [constructor; [done|by apply Hpart]|]. constructor; [constructor; [done|by apply Hpart]|constructor]. }
  2:{ constructor; [done|]. constructor; [done|]. by constructor. }
  cbn [map]. rewrite (trim_plain (lit "Credential" ++ _)), !trim_leading by (done || by apply Hpart).
  cbn [fold_left]. rewrite !parse_part_spec by done.
  change (bytes_eqb (lit "Credential") (lit "Credential")) with true. change (bytes_eqb (lit "SignedHeaders") (lit "Credential")) with false.
  change (bytes_eqb (lit "SignedHeaders") (lit "SignedHeaders")) with true. change (bytes_eqb (lit "Signature") (lit "Credential")) with false.
  change (bytes_eqb (lit "Signature") (lit "SignedHeaders")) with false. change (bytes_eqb (lit "Signature") (lit "Signature")) with true. cbv iota.
  unfold cred, hdrs. rewrite !split_tokens by (done || intros c Hc; apply plain_not in Hc; tauto).
  cbn [no_parameters algorithm access_key date region service request_type signed_headers signature].
  rewrite !bool_decide_eq_false_2 by done. cbn [orb]. f_equal. destruct p. cbn in *. by subst.
Qed.

(** ** What is signed *)

Definition header_value (values : list (bytes * bytes)) (name : bytes) : bytes := canonicalize_header_value (default [] (mget name values)).

Definition header_lines (values : list (bytes * bytes)) (headers : list bytes) : bytes :=
  concat (map (fun h => to_lower h ++ lit ":" ++ header_value values (to_lower h) ++ newline) headers).

Definition date_header : bytes := lit "x-amz-date".

Lemma collect_headers_spec values headers : forall acc amz,
  collect_headers headers values acc amz =
    if forallb (fun h => bool_decide (is_Some (mget (to_lower h) values))) headers
    then Some (acc ++ header_lines values headers,
               if existsb (fun h => bytes_eqb (to_lower h) date_header) headers then header_value values date_header else amz)
    else None.
Proof.
  induction headers as [|h headers IH]; intros acc amz; cbn [collect_headers forallb existsb]; [by rewrite app_nil_r|].
  unfold header_lines. cbn [map concat]. fold (header_lines values headers). unfold header_value at 1.
  destruct (mget (to_lower h) values) as [v|] eqn:E; [|by rewrite bool_decide_eq_false_2 by (intros []; done)].
  rewrite bool_decide_eq_true_2 by done. cbn [andb default from_option id]. rewrite IH. destruct (forallb _ headers); [|done]. f_equal. f_equal.
  - by rewrite <- !app_assoc.
  - fold date_header. destruct (bytes_eqb_spec (to_lower h) date_header) as [Eh|]; cbn [orb]; [|done].
    destruct (existsb _ headers); [done|]. unfold header_value. by rewrite <- Eh, E.
Qed.

(** The signature of a request: the HMAC chain over the canonical request. *)
Definition request_signature (p : SigV4Parameters) (secret : bytes) (request : SigV4VerifyRequest) : bytes :=
  let values := signed_header_values request in
  compute_signature p secret (header_value values date_header)
    (canonical_request request (header_lines values (signed_headers p)) (signed_headers p)).


Definition demo_request : SigV4VerifyRequest :=
  {| method := lit "POST"; canonical_uri := []; canonical_query_string := []; payload := lit "{}";
     signed_header_values := [(lit "host", lit "localhost")]; security_token_header := None |}.
Definition demo_credential : SigV4Credential := {| cred_access_key := lit "cynamodb"; secret_key := lit "cynamodb-secret"; session_token := None |}.
Definition demo_unsigned : SigV4Parameters :=
  {| algorithm := lit "AWS4-HMAC-SHA256"; access_key := lit "cynamodb"; date := lit "20240101"; region := lit "us-east-1"; service := lit "dynamodb";
     request_type := lit "aws4_request"; signed_headers := [lit "host"; lit "x-amz-date"]; signature := lit "0" |}.


End SigV4.
