(* ===== verification/Api.v ===== *)
(** * Request handling: common parts

    [src/api/handlers.cpp] up to the handlers: results and errors, reading the
    members of a request, conditions, table descriptions, time to live, secondary
    indexes, stream records and projections.  The handlers are proved against the
    engine interface of [Storage].

    A handler takes the readings of the clocks and the random numbers of the request
    ([Env]) and the state of the server ([World]); [None] stands for the undefined
    behaviour of dereferencing a null pointer.  Attribute values are copied where the
    code shares pointers to them. *)

From Stdlib Require Import ZArith Lia Strings.String Floats.SpecFloat.
From stdpp Require Import prelude.
From S2P Require Import Prelude StdMap Ranges Types CLib KeyCodec Storage Lexer Parser Evaluator Streams TableManager RecordCodec NumberText Base64 Json TableJson.
Import Json TableJson.

Module Api.

(** ** Results *)

Record ApiResult := { status : Z; error_type : bytes; body : bytes }.

Definition ok (b : bytes) : ApiResult := {| status := 200; error_type := []; body := b |}.

Definition error (st : Z) (type message : bytes) : ApiResult :=
  {| status := st; error_type := type; body := serialize_error (lit "com.amazonaws.dynamodb.v20120810#" ++ type) message |}.

Definition kMaxReadPageItems : Z := 1000.

Definition bounded_read_limit (requested : Z) : Z :=
  if requested =? 0 then kMaxReadPageItems else Z.min requested kMaxReadPageItems.

Definition key_type_str (t : KeyType) : bytes := match t with HASH => lit "HASH" | RANGE => lit "RANGE" end.

Definition attribute_type_str (t : AttributeType) : bytes :=
  match t with T_S => lit "S" | T_N => lit "N" | T_B => lit "B" | _ => lit "S" end.

(** ** Members of a request *)

Definition parse_attribute_map (el : Json) : option AttributeMap :=
  match el with JObj fields => parse_fields parse_attribute_value fields [] | _ => None end.

Fixpoint name_fields (fields : list (bytes * Json)) (names : NameMap) : NameMap :=
  match fields with
  | [] => names
  | (k, JStr v) :: fields' => name_fields fields' (mset k v names)
  | _ :: fields' => name_fields fields' names
  end.

Definition parse_expr_names (doc : Json) : NameMap :=
  match at_key doc "ExpressionAttributeNames" with Some (JObj fields) => name_fields fields [] | _ => [] end.

Definition parse_expr_values (doc : Json) : option AttributeMap :=
  match at_key doc "ExpressionAttributeValues" with Some (JObj fields) => parse_fields parse_attribute_value fields [] | _ => Some [] end.

(** 1, 0 and -1 *)
Inductive Verdict := Passed | Failed | ParseError.

Definition evaluate_boolean_expr (expr : bytes) (item : AttributeMap) (names : NameMap) (values : AttributeMap) : Verdict :=
  match parse_expression (tokenize expr) with
  | Ok ast => if evaluate_condition item names values ast then Passed else Failed
  | Err _ => ParseError
  end.

Definition read_limit (doc : Json) : option Z :=
  match get_int64_at doc "Limit" with Some limit => if 0 <? limit then Some limit else None | None => None end.

Definition read_select_count (doc : Json) (has_projection : bool) : expected bool bytes :=
  match get_string_at doc "Select" with
  | Some sel =>
      if bytes_eqb sel (lit "COUNT") then
        if has_projection then Err (lit "Cannot specify the ProjectionExpression parameter when the Select parameter is set to COUNT") else Ok true
      else Ok false
  | None => Ok false
  end.

Definition read_start_key (doc : Json) (def : TableDefinition) : option bytes :=
  match at_key doc "ExclusiveStartKey" with
  | Some esk => option_map (encode_primary_key def) (parse_attribute_map esk)
  | None => None
  end.

(** ** Table descriptions *)

(** Texts with a comma before all but the first. *)
Definition commas (l : list bytes) : bytes := joined l.

Definition key_element_json (k : KeySchemaElement) : bytes :=
  q "{'AttributeName':'" ++ attribute_name k ++ q "','KeyType':'" ++ key_type_str (key_type k) ++ q "'}".

Definition attribute_json (e : bytes * AttributeType) : bytes :=
  q "{'AttributeName':'" ++ e.1 ++ q "','AttributeType':'" ++ attribute_type_str e.2 ++ q "'}".

Definition projection_str (t : ProjectionType) : bytes :=
  match t with PT_KEYS_ONLY => lit "KEYS_ONLY" | PT_INCLUDE => lit "INCLUDE" | PT_ALL => lit "ALL" end.

Definition index_schema_json (schema : list KeySchemaElement) : bytes := q "[" ++ commas (map key_element_json schema) ++ q "]".

Definition gsi_json (g : GlobalSecondaryIndex) : bytes :=
  q "{'IndexName':'" ++ gsi_index_name g ++ q "','IndexStatus':'ACTIVE','KeySchema':" ++ index_schema_json (gsi_key_schema g) ++
  q ",'Projection':{'ProjectionType':'" ++ projection_str (projection_type (gsi_projection g)) ++ q "'}}".

Definition lsi_json (l : LocalSecondaryIndex) : bytes :=
  q "{'IndexName':'" ++ lsi_index_name l ++ q "','KeySchema':" ++ index_schema_json (lsi_key_schema l) ++
  q ",'Projection':{'ProjectionType':'" ++ projection_str (projection_type (lsi_projection l)) ++ q "'}}".

Definition serialize_table_description (def : TableDefinition) : bytes :=
  q "{'TableName':'" ++ table_name def ++ q "','TableStatus':'ACTIVE'" ++
  q ",'KeySchema':[" ++ commas (map key_element_json (key_schema def)) ++ q "]" ++
  q ",'AttributeDefinitions':[" ++ commas (map attribute_json (attribute_definitions def)) ++ q "]" ++
  (if bool_decide (global_secondary_indexes def = []) then []
   else q ",'GlobalSecondaryIndexes':[" ++ commas (map gsi_json (global_secondary_indexes def)) ++ q "]") ++
  (if bool_decide (local_secondary_indexes def = []) then []
   else q ",'LocalSecondaryIndexes':[" ++ commas (map lsi_json (local_secondary_indexes def)) ++ q "]") ++
  q ",'ItemCount':0" ++ q ",'TableArn':'arn:aws:dynamodb:ddblocal:000000000000:table/" ++ table_name def ++ q "'" ++ q "}".

(** ** Keys of an item *)

(** The attributes of [item] that the schema names, added to [keys]. *)
Definition copy_keys (schema : list KeySchemaElement) (item keys : AttributeMap) : AttributeMap :=
  fold_left (fun keys ks => match mget (attribute_name ks) item with Some v => mset (attribute_name ks) v keys | None => keys end) schema keys.

Definition key_only_json (def : TableDefinition) (item : AttributeMap) : option bytes := serialize_item (copy_keys (key_schema def) item []).

Definition has_keys (schema : list KeySchemaElement) (item : AttributeMap) : bool :=
  forallb (fun ks => match mget (attribute_name ks) item with Some (Some _) => true | _ => false end) schema.

Definition item_has_all_keys (def : TableDefinition) (item : AttributeMap) : bool := has_keys (key_schema def) item.

Definition key_values_non_empty (def : TableDefinition) (item : AttributeMap) : bool :=
  forallb (fun ks =>
    match mget (attribute_name ks) item with
    | Some (Some (AV_S s)) => negb (bool_decide (s = []))
    | Some (Some (AV_B b)) => negb (bool_decide (b = []))
    | _ => true
    end) (key_schema def).

Definition extract_keys (def : TableDefinition) (item : AttributeMap) : AttributeMap := copy_keys (key_schema def) item [].

(** [std::strtoll] in base 10 on a string without its NUL: the value, saturated, and
    the number of characters used. *)
Definition strtoll (s : bytes) : Z * Z :=
  let '(sp, r) := span isspace s in
  let '(neg, sg, r) := match r with
                       | c :: r' => if is_char 45 c then (true, 1, r') else if is_char 43 c then (false, 1, r') else (false, 0, r)
                       | [] => (false, 0, r)
                       end in
  match (span isdigit r).1 with
  | [] => (0, 0)
  | ds => let v := if neg : bool then - parse_dec ds else parse_dec ds in
          (Z.max (- 2 ^ 63) (Z.min (2 ^ 63 - 1) v), len sp + sg + len ds)
  end.

Definition item_is_expired (now : Z) (def : TableDefinition) (item : AttributeMap) : bool :=
  match ttl_specification def with
  | Some ttl =>
      if ttl_enabled ttl then
        match mget (ttl_attribute_name ttl) item with
        | Some (Some (AV_N s)) => let '(ts, used) := strtoll s in if used =? len s then ts <=? now else false
        | _ => false
        end
      else false
  | None => false
  end.

(** ** Secondary indexes *)

Record IndexSpec := { index_name : bytes; index_key_schema : list KeySchemaElement; index_projection : Projection }.

Definition all_indexes (def : TableDefinition) : list IndexSpec :=
  map (fun g => {| index_name := gsi_index_name g; index_key_schema := gsi_key_schema g; index_projection := gsi_projection g |}) (global_secondary_indexes def) ++
  map (fun l => {| index_name := lsi_index_name l; index_key_schema := lsi_key_schema l; index_projection := lsi_projection l |}) (local_secondary_indexes def).

Definition index_is_gsi (def : TableDefinition) (name : bytes) : bool := existsb (fun g => bytes_eqb (gsi_index_name g) name) (global_secondary_indexes def).

Definition find_index (idxs : list IndexSpec) (name : bytes) : option IndexSpec := find (fun i => bytes_eqb (index_name i) name) idxs.

Definition index_storage_table (base name : bytes) : bytes := base ++ [Byte.x1d] ++ name.

(** The components of a schema, [00 00] for an attribute that is missing. *)
Definition encode_components (schema : list KeySchemaElement) (item : AttributeMap) (out : bytes) : bytes :=
  fold_left (fun out ks =>
    match mget (attribute_name ks) item with
    | Some (Some v) => encode_key_component out v
    | _ => out ++ [Byte.x00] ++ [Byte.x00]
    end) schema out.

Definition encode_index_storage_key (idx : IndexSpec) (base : TableDefinition) (item : AttributeMap) : bytes :=
  encode_components (key_schema base) item (encode_components (index_key_schema idx) item []).

Definition encode_key_prefix (value : AttrPtr) : bytes :=
  match value with Some v => encode_key_component [] v | None => [Byte.x00; Byte.x00] end.

(** [copy_attr] over names. *)
Definition copy_attrs (names : list bytes) (item out : AttributeMap) : AttributeMap :=
  fold_left (fun out name => match mget name item with Some v => mset name v out | None => out end) names out.

Definition project_for_index (item : AttributeMap) (idx : IndexSpec) (base : TableDefinition) : option AttributeMap :=
  if negb (has_keys (index_key_schema idx) item) then None
  else
    let out := copy_keys (index_key_schema idx) item (copy_keys (key_schema base) item []) in
    match projection_type (index_projection idx) with
    | PT_ALL => Some item
    | PT_INCLUDE => Some (copy_attrs (non_key_attributes (index_projection idx)) item out)
    | PT_KEYS_ONLY => Some out
    end.

Definition index_key_only_json (idx : IndexSpec) (def : TableDefinition) (item : AttributeMap) : option bytes :=
  serialize_item (copy_keys (key_schema def) item (copy_keys (index_key_schema idx) item [])).

Section Indexes.
Context {E : Type} {SE : StorageEngine E}.

(** The turn of one index. *)
Definition maintain_index (def : TableDefinition) (old_item new_item : option AttributeMap) (storage : E) (idx : IndexSpec) : E :=
  let tbl := index_storage_table (table_name def) (index_name idx) in
  let storage := match old_item with
                 | Some o => match project_for_index o idx def with
                             | Some _ => se_remove storage tbl (encode_index_storage_key idx def o)
                             | None => storage
                             end
                 | None => storage
                 end in
  match new_item with
  | Some n => match project_for_index n idx def with
              | Some proj => se_put storage tbl (encode_index_storage_key idx def n) proj
              | None => storage
              end
  | None => storage
  end.

Definition maintain_indexes (storage : E) (def : TableDefinition) (old_item new_item : option AttributeMap) : E :=
  fold_left (maintain_index def old_item new_item) (all_indexes def) storage.
End Indexes.

(** ** Projections *)

Definition projected_name (raw : bytes) (names : NameMap) : bytes :=
  if starts_with raw (lit "#") then default raw (mget raw names) else raw.

(** The new value of [slot]; a list index appends. *)
Fixpoint project_merge (segs : list PathSegment) (names : NameMap) (value : AttrPtr) (slot : AttrPtr) : AttrPtr :=
  match segs with
  | [] => value
  | SegIndex _ :: segs' =>
      let l := match slot with Some (AV_L l) => l | _ => [] end in
      Some (AV_L (l ++ [project_merge segs' names value None]))
  | SegName raw :: segs' =>
      let m := match slot with Some (AV_M m) => m | _ => [] end in
      let name := projected_name raw names in
      Some (AV_M (mset name (project_merge segs' names value (default None (mget name m))) m))
  end.

Definition blank (c : byte) : bool := is_char 32 c || is_char 9 c || is_char 13 c || is_char 10 c.

Definition trim_blank (s : bytes) : bytes := rev (span blank (rev (span blank s).2)).2.

(** The pieces between commas. *)
Fixpoint split_commas (s cur : bytes) : list bytes :=
  match s with
  | [] => [rev cur]
  | c :: s' => if is_char 44 c then rev cur :: split_commas s' [] else split_commas s' (c :: cur)
  end.

Definition project_token (item : AttributeMap) (names : NameMap) (st : AttributeMap * bool) (token : bytes) : AttributeMap * bool :=
  let '(out, unsupported) := st in
  let token := trim_blank token in
  if bool_decide (token = []) then st
  else
    match parse_single_path token with
    | Some (SegName root :: segs) =>
        match resolve_path item names (SegName root :: segs) with
        | Some v =>
            let root := projected_name root names in
            (mset root (project_merge segs names (Some v) (default None (mget root out))) out, unsupported)
        | None => st
        end
    | _ => (out, true)
    end.

Definition apply_projection (item : AttributeMap) (projection : bytes) (names : NameMap) : AttributeMap * bool :=
  fold_left (project_token item names) (split_commas projection []) ([], false).

(** The code stores the pointer of a projected value in the output and extends the output
    in place: when a path of names is followed by a path that goes on from it through a
    list index, the element is appended to the stored value itself.  The functions above
    copy instead, and describe the code for projections without such a pair of paths. *)
Definition resolve_segment (names : NameMap) (s : PathSegment) : PathSegment :=
  match s with SegName raw => SegName (projected_name raw names) | SegIndex i => SegIndex i end.

Definition is_index (s : PathSegment) : bool := match s with SegIndex _ => true | SegName _ => false end.

Fixpoint appends_to (p p' : list PathSegment) : bool :=
  match p, p' with
  | [], _ => existsb is_index p'
  | SegName a :: p, SegName b :: p' => bytes_eqb a b && appends_to p p'
  | _, _ => false
  end.

Fixpoint separate_paths (paths : list (list PathSegment)) : bool :=
  match paths with
  | [] => true
  | p :: paths' => negb (existsb (appends_to p) paths') && separate_paths paths'
  end.

Definition projected_paths (projection : bytes) (names : NameMap) : list (list PathSegment) :=
  omap (fun token => option_map (map (resolve_segment names)) (parse_single_path (trim_blank token))) (split_commas projection []).

Definition separate_projection (doc : Json) : bool :=
  match get_string_at doc "ProjectionExpression" with
  | Some projection => separate_paths (projected_paths projection (parse_expr_names doc))
  | None => true
  end.

(** ** Lists of items *)

Fixpoint serialize_all (items : list AttributeMap) : option (list bytes) :=
  match items with
  | [] => Some []
  | i :: items' => match serialize_item i with Some x => option_map (cons x) (serialize_all items') | None => None end
  end.

Definition items_to_json (items : list AttributeMap) : option bytes :=
  option_map (fun l => q "[" ++ commas l ++ q "]") (serialize_all items).

(** ** The server *)

(** Clocks and random numbers of a request: seconds since the epoch for the time to
    live, the two readings a stream record takes, and its random numbers by number. *)
Record Env := { now_epoch_seconds : Z; record_time : Z; purge_time : Z; random_id : nat -> Z * Z }.

Section World.
Context {E : Type}.

Record World := { tables : Tables.TableManager; storage : E; streams : option Streams.StreamManager }.

Definition set_tables (w : World) (t : Tables.TableManager) : World := {| tables := t; storage := storage w; streams := streams w |}.
Definition set_storage (w : World) (s : E) : World := {| tables := tables w; storage := s; streams := streams w |}.
Definition set_streams (w : World) (s : option Streams.StreamManager) : World := {| tables := tables w; storage := storage w; streams := s |}.

(** [emit_stream]: record number [i] of the request. *)
Definition emit_stream (env : Env) (i : nat) (def : TableDefinition) (event : bytes) (keys : AttributeMap) (old_image new_image : option AttributeMap) (w : World) : option World :=
  match streams w with
  | None => Some w
  | Some m =>
      if Streams.is_stream_enabled def
      then option_map (fun m => set_streams w (Some m))
             (Streams.append_record (random_id env i) (record_time env) (purge_time env) def event keys old_image new_image m)
      else Some w
  end.

Definition find_table (w : World) (name : bytes) : option TableDefinition :=
  match Tables.describe_table (tables w) name with Ok def => Some def | Err _ => None end.
End World.
Arguments World : clear implicits.

(** What a handler does: the reply and the state it leaves. *)
Definition reply (E : Type) : Type := option (ApiResult * World E).

(** [x] or an early return. *)
Notation "'need' x ':=' e 'else' r 'in' k" := (match e with Some x => k | None => r end)
  (at level 10, x pattern, e at level 100, r at level 100, k at level 200, only parsing).

Definition bad_request (message : bytes) : ApiResult := error 400 (lit "ValidationException") message.

Definition table_missing (name : bytes) : ApiResult :=
  error 400 (lit "ResourceNotFoundException") (lit "Requested resource not found: Table: " ++ name ++ lit " not found").

Definition table_not_found (name : bytes) : ApiResult := error 400 (lit "ResourceNotFoundException") (lit "Table not found: " ++ name).

End Api.
