(* ===== verification/Handlers.v ===== *)
(** * Tables and single items

    [src/api/handlers.cpp]: the handlers of the table operations and of PutItem,
    GetItem, DeleteItem and UpdateItem, each as a function of the request document and
    the server.  What the code's lambdas record while the engine runs them (a condition
    that failed, an update that is invalid, the new item) is computed from the item
    they are given, which the engine reports as the previous item. *)

From Stdlib Require Import ZArith Lia Strings.String Floats.SpecFloat.
From stdpp Require Import prelude.
From S2P Require Import Prelude StdMap Ranges Types CLib KeyCodec Validator Storage Lexer Parser Evaluator UpdateExpression Streams TableManager RecordCodec NumberText Base64 Json TableJson Api.
Import Json TableJson Api.

Module Handlers.
Section Handlers.
Context {E : Type} {SE : StorageEngine E} (indeterminate : ProjectionType) (env : Env).

(** ** Tables *)

Definition handle_create_table (doc : Json) (w : World E) : ApiResult * World E :=
  let def := parse_table_definition indeterminate doc in
  if bool_decide (table_name def = []) then (bad_request (lit "TableName is required"), w)
  else if bool_decide (key_schema def = []) then (bad_request (lit "KeySchema is required"), w)
  else
    let '(t, created) := Tables.create_table (tables w) def in
    (match created with
     | Ok created => ok (q "{'TableDescription':" ++ serialize_table_description created ++ q "}")
     | Err Tables.TableAlreadyExists => error 400 (lit "ResourceInUseException") (lit "Table already exists: " ++ table_name def)
     | Err _ => error 500 (lit "InternalServerError") (lit "Failed to create table")
     end, set_tables w t).

Definition handle_describe_table (doc : Json) (w : World E) : ApiResult * World E :=
  need name := get_string_at doc "TableName" else (bad_request (lit "TableName is required"), w) in
  need def := find_table w name else (table_missing name, w) in
  (ok (q "{'Table':" ++ serialize_table_description def ++ q "}"), w).

Definition handle_delete_table (doc : Json) (w : World E) : ApiResult * World E :=
  need name := get_string_at doc "TableName" else (bad_request (lit "TableName is required"), w) in
  let '(t, removed) := Tables.delete_table (tables w) name in
  match removed with
  | Err _ => (table_missing name, set_tables w t)
  | Ok removed =>
      let s := se_drop_table (storage w) name in
      let s := fold_left (fun s idx => se_drop_table s (index_storage_table (table_name removed) (index_name idx))) (all_indexes removed) s in
      (ok (q "{'TableDescription':" ++ serialize_table_description removed ++ q "}"), set_storage (set_tables w t) s)
  end.

Definition handle_update_table (doc : Json) (w : World E) : ApiResult * World E :=
  need name := get_string_at doc "TableName" else (bad_request (lit "TableName is required"), w) in
  need def := find_table w name else (table_missing name, w) in
  (ok (q "{'TableDescription':" ++ serialize_table_description def ++ q "}"), w).

Definition handle_update_time_to_live (doc : Json) (w : World E) : ApiResult * World E :=
  need name := get_string_at doc "TableName" else (bad_request (lit "TableName is required"), w) in
  need spec_el := at_key doc "TimeToLiveSpecification" else (bad_request (lit "TimeToLiveSpecification is required"), w) in
  need attr := get_string_at spec_el "AttributeName" else (bad_request (lit "TimeToLiveSpecification.AttributeName is required"), w) in
  need enabled := get_bool_at spec_el "Enabled" else (bad_request (lit "TimeToLiveSpecification.Enabled is required"), w) in
  let '(t, updated) := Tables.set_ttl (tables w) name {| ttl_attribute_name := attr; ttl_enabled := enabled |} in
  (match updated with
   | Err _ => table_missing name
   | Ok _ => ok (q "{'TimeToLiveSpecification':{'AttributeName':'" ++ attr ++ q "','Enabled':" ++ lit (if enabled then "true" else "false") ++ q "}}")
   end, set_tables w t).

Definition handle_describe_time_to_live (doc : Json) (w : World E) : ApiResult * World E :=
  need name := get_string_at doc "TableName" else (bad_request (lit "TableName is required"), w) in
  need def := find_table w name else (table_missing name, w) in
  let inner := match ttl_specification def with
               | Some ttl => if ttl_enabled ttl then q "'TimeToLiveStatus':'ENABLED','AttributeName':'" ++ ttl_attribute_name ttl ++ q "'"
                             else q "'TimeToLiveStatus':'DISABLED'"
               | None => q "'TimeToLiveStatus':'DISABLED'"
               end in
  (ok (q "{'TimeToLiveDescription':{" ++ inner ++ q "}}"), w).

Definition handle_list_tables (w : World E) : ApiResult * World E :=
  (ok (q "{'TableNames':[" ++ commas (map (fun n => q "'" ++ n ++ q "'") (Tables.list_tables (tables w))) ++ q "]}"), w).

(** ** Conditions *)

(** The members of a write request that its condition needs. *)
Record Condition := { condition : option bytes; names : NameMap; values : AttributeMap }.

Definition read_condition (doc : Json) : option Condition :=
  option_map (fun vs => {| condition := get_string_at doc "ConditionExpression"; names := parse_expr_names doc; values := vs |}) (parse_expr_values doc).

(** The check inside the engine's lock. *)
Definition check_condition (c : Condition) (current : option AttributeMap) : Verdict :=
  match condition c with
  | Some expr => evaluate_boolean_expr expr (default [] current) (names c) (values c)
  | None => Passed
  end.

Definition invalid_values : ApiResult := bad_request (lit "Invalid ExpressionAttributeValues").
Definition invalid_condition : ApiResult := bad_request (lit "Invalid ConditionExpression").
Definition condition_failed : ApiResult := error 400 (lit "ConditionalCheckFailedException") (lit "The conditional request failed").

Definition empty_reply : ApiResult := ok (q "{}").

Definition attributes_reply (item : AttributeMap) : option ApiResult :=
  option_map (fun x => ok (q "{'Attributes':" ++ x ++ q "}")) (serialize_item item).

Definition return_values (doc : Json) : bytes := default [] (get_string_at doc "ReturnValues").

Definition event_of (old : option AttributeMap) : bytes := match old with Some _ => lit "MODIFY" | None => lit "INSERT" end.

(** ** PutItem *)

Definition validation_message (e : ValidationError) : bytes :=
  match e with
  | ItemTooLarge => lit "Item size has exceeded the maximum allowed size"
  | TypeMismatchForKey => lit "Type mismatch for key attribute against the table schema"
  | EmptyKeyAttribute => lit "One or more parameter values were invalid: An AttributeValue may not contain an empty string for key attribute"
  | InvalidNumber => lit "The parameter cannot be converted to a numeric value"
  | EmptySet => lit "One or more parameter values were invalid: An attribute value of type set must not be empty"
  | DuplicateSetValue => lit "One or more parameter values were invalid: Input collection contains duplicates"
  | _ => lit "Item failed validation"
  end.

Definition handle_put_item (doc : Json) (w : World E) : reply E :=
  need name := get_string_at doc "TableName" else Some (bad_request (lit "TableName is required"), w) in
  need def := find_table w name else Some (table_missing name, w) in
  need item_el := at_key doc "Item" else Some (bad_request (lit "Item is required"), w) in
  need item := parse_attribute_map item_el else Some (bad_request (lit "Item is not a valid attribute map"), w) in
  if negb (item_has_all_keys def item) then Some (bad_request (lit "One of the required keys was not given a value"), w)
  else
    match validate_item_standard item def with
    | Err e => Some (bad_request (validation_message e), w)
    | Ok _ =>
        need c := read_condition doc else Some (invalid_values, w) in
        let '(s, outcome) := se_mutate (storage w) name (encode_primary_key def item)
          (fun current => match check_condition c current with Passed => MutationPut item | _ => MutationNone end) in
        let w := set_storage w s in
        match check_condition c (previous outcome) with
        | ParseError => Some (invalid_condition, w)
        | Failed => Some (condition_failed, w)
        | Passed =>
            let w := set_storage w (maintain_indexes (storage w) def (previous outcome) (Some item)) in
            need w := emit_stream env 0 def (event_of (previous outcome)) (extract_keys def item) (previous outcome) (Some item) w else None in
            match previous outcome with
            | Some old => if bytes_eqb (return_values doc) (lit "ALL_OLD") then option_map (fun r => (r, w)) (attributes_reply old) else Some (empty_reply, w)
            | None => Some (empty_reply, w)
            end
        end
    end.

(** ** Requests with a key *)

Definition read_key (def : TableDefinition) (doc : Json) : expected AttributeMap ApiResult :=
  match at_key doc "Key" with
  | None => Err (bad_request (lit "Key is required"))
  | Some key_el =>
      match parse_attribute_map key_el with
      | None => Err (bad_request (lit "The provided key element does not match the schema"))
      | Some key_map =>
          if negb (item_has_all_keys def key_map) then Err (bad_request (lit "The provided key element does not match the schema"))
          else if negb (key_values_non_empty def key_map) then Err (bad_request (lit "One or more parameter values were invalid: empty key attribute value"))
          else Ok key_map
      end
  end.

Definition item_reply (item : AttributeMap) : option ApiResult := option_map (fun x => ok (q "{'Item':" ++ x ++ q "}")) (serialize_item item).

Definition handle_get_item (doc : Json) (w : World E) : reply E :=
  need name := get_string_at doc "TableName" else Some (bad_request (lit "TableName is required"), w) in
  need def := find_table w name else Some (table_missing name, w) in
  match read_key def doc with
  | Err r => Some (r, w)
  | Ok key_map =>
      let key := encode_primary_key def key_map in
      match se_get (storage w) name key with
      | None => Some (empty_reply, w)
      | Some item =>
          if item_is_expired (now_epoch_seconds env) def item then Some (empty_reply, set_storage w (se_remove (storage w) name key))
          else
            match get_string_at doc "ProjectionExpression" with
            | Some projection =>
                let '(projected, unsupported) := apply_projection item projection (parse_expr_names doc) in
                if unsupported : bool
                then Some (bad_request (lit "Document-path ProjectionExpression is not yet supported; use top-level attributes"), w)
                else option_map (fun r => (r, w)) (item_reply projected)
            | None => option_map (fun r => (r, w)) (item_reply item)
            end
      end
  end.

Definition handle_delete_item (doc : Json) (w : World E) : reply E :=
  need name := get_string_at doc "TableName" else Some (bad_request (lit "TableName is required"), w) in
  need def := find_table w name else Some (table_missing name, w) in
  match read_key def doc with
  | Err r => Some (r, w)
  | Ok key_map =>
      need c := read_condition doc else Some (invalid_values, w) in
      let '(s, outcome) := se_mutate (storage w) name (encode_primary_key def key_map)
        (fun current => match check_condition c current with Passed => MutationDelete | _ => MutationNone end) in
      let w := set_storage w s in
      match check_condition c (previous outcome) with
      | ParseError => Some (invalid_condition, w)
      | Failed => Some (condition_failed, w)
      | Passed =>
          match previous outcome with
          | Some old =>
              let w := set_storage w (maintain_indexes (storage w) def (Some old) None) in
              need w := emit_stream env 0 def (lit "REMOVE") (extract_keys def old) (Some old) None w else None in
              if bytes_eqb (return_values doc) (lit "ALL_OLD") then option_map (fun r => (r, w)) (attributes_reply old) else Some (empty_reply, w)
          | None => Some (empty_reply, w)
          end
      end
  end.

(** ** UpdateItem *)

(** The key attributes written over the item. *)
Definition with_keys (key_map item : AttributeMap) : AttributeMap := fold_left (fun i e => mset e.1 e.2 i) key_map item.

(** The working copy after the update expression, or its error. *)
Definition updated_item (update : option bytes) (c : Condition) (key_map : AttributeMap) (current : option AttributeMap) : option (expected AttributeMap bytes) :=
  let working := with_keys key_map (default [] current) in
  match update with
  | Some expr => Update.apply_update_expression (names c) (values c) expr working
  | None => Some (Ok working)
  end.

Definition attr_eq (a b : AttrPtr) : option bool :=
  match a, b with
  | None, None => Some true
  | Some a, Some b =>
      match serialize_attribute_value a, serialize_attribute_value b with Some x, Some y => Some (bytes_eqb x y) | _, _ => None end
  | _, _ => Some false
  end.

(** The attributes of [m] that [other] lacks or has with another value. *)
Fixpoint changed_attributes (m other changed : AttributeMap) : option AttributeMap :=
  match m with
  | [] => Some changed
  | (k, v) :: m' =>
      match mget k other with
      | None => changed_attributes m' other (mset k v changed)
      | Some v' => match attr_eq v' v with
                   | None => None
                   | Some true => changed_attributes m' other changed
                   | Some false => changed_attributes m' other (mset k v changed)
                   end
      end
  end.

Definition update_reply (return_values : bytes) (old : option AttributeMap) (new_item : AttributeMap) : option ApiResult :=
  if bytes_eqb return_values (lit "ALL_NEW") then attributes_reply new_item
  else if bytes_eqb return_values (lit "ALL_OLD") && bool_decide (is_Some old) then attributes_reply (default [] old)
  else if bytes_eqb return_values (lit "UPDATED_NEW") then
    match changed_attributes new_item (default [] old) [] with Some changed => attributes_reply changed | None => None end
  else if bytes_eqb return_values (lit "UPDATED_OLD") then
    match changed_attributes (default [] old) new_item [] with Some changed => attributes_reply changed | None => None end
  else Some empty_reply.

Definition handle_update_item (doc : Json) (w : World E) : reply E :=
  need name := get_string_at doc "TableName" else Some (bad_request (lit "TableName is required"), w) in
  need def := find_table w name else Some (table_missing name, w) in
  match read_key def doc with
  | Err r => Some (r, w)
  | Ok key_map =>
      let update := get_string_at doc "UpdateExpression" in
      need c := read_condition doc else Some (invalid_values, w) in
      let '(s, outcome) := se_mutate (storage w) name (encode_primary_key def key_map)
        (fun current => match check_condition c current with
                        | Passed => match updated_item update c key_map current with Some (Ok working) => MutationPut working | _ => MutationNone end
                        | _ => MutationNone
                        end) in
      let w := set_storage w s in
      match check_condition c (previous outcome) with
      | ParseError => Some (invalid_condition, w)
      | Failed => Some (condition_failed, w)
      | Passed =>
          match updated_item update c key_map (previous outcome) with
          | None => None
          | Some (Err update_error) => Some (bad_request update_error, w)
          | Some (Ok new_item) =>
              let w := set_storage w (maintain_indexes (storage w) def (previous outcome) (Some new_item)) in
              need w := emit_stream env 0 def (event_of (previous outcome)) (extract_keys def new_item) (previous outcome) (Some new_item) w else None in
              option_map (fun r => (r, w)) (update_reply (return_values doc) (previous outcome) new_item)
          end
      end
  end.
End Handlers.
End Handlers.
