(* ===== verification/Queries.v ===== *)
(** * Queries through the engine interface

    [StorageEngine::query] as a class of its own beside [StorageEngine], and its law:
    a query is a page of the rows that carry the key prefix and satisfy the conditions,
    beyond the start key, in the direction asked for.  Both engines keep the law. *)

From Stdlib Require Import ZArith Lia Strings.String.
From stdpp Require Import prelude.
From S2P Require Import Prelude StdMap Ranges Types Storage MemoryEngine LsmEngine.

Class QueryEngine (E : Type) := {
  se_query : E -> bytes -> AttributeMap -> option bytes -> Z -> option bytes -> bool -> PageResult
}.

(** The rows beyond [start] in the order of the direction. *)
Definition visited (forward : bool) (start : option bytes) (rows : list (bytes * AttributeMap)) : list (bytes * AttributeMap) :=
  if forward then rows_after start rows else rev (rows_before start rows).

(** Conditions whose values are not binary. *)
Definition textual (conds : AttributeMap) : bool := forallb (fun c => match c.2 with Some (AV_B _) => false | _ => true end) conds.

Class QueryLaws (E : Type) {SE : StorageEngine E} {SL : StorageLaws E} {QE : QueryEngine E} := {
  se_matches : AttributeMap -> AttributeMap -> bool;
  se_matches_textual : forall item conds, textual conds = true -> se_matches item conds = MemoryEngine.item_matches_conditions item conds;
  se_query_rows : forall e t conds start limit prefix forward, se_inv e -> se_names t [] -> start_ok start prefix ->
    se_query e t conds start limit prefix forward =
    page limit (List.filter (fun r => in_prefix prefix r.1 && se_matches r.2 conds) (visited forward start (se_rows e t)))
}.

#[export] Instance memory_queries : QueryEngine MemoryEngine.t := { se_query := MemoryEngine.query }.

#[export] Instance memory_query_laws : @QueryLaws MemoryEngine.t MemoryEngine.engine MemoryEngine.laws memory_queries.
Proof.
  refine {| se_matches := MemoryEngine.item_matches_conditions |}; [done|].
  intros e t conds start limit prefix [] He _ Hst; [by apply MemoryEngine.query_forward|by apply MemoryEngine.query_backward].
Defined.

Section Lsm.
Context (coin : Z -> nat) (padding : Z -> bytes) (fsync : bool).

Local Instance lsm_queries : QueryEngine Lsm.Engine :=
  { se_query := fun e t conds start limit prefix forward => default {| items := []; last_evaluated_key := None |} (Lsm.query e t conds start limit prefix forward) }.

Lemma item_matches_same item conds : textual conds = true -> Lsm.item_matches item conds = MemoryEngine.item_matches_conditions item conds.
Proof.
  induction conds as [|[k [v|]] conds IH]; cbn; [done| |done]. intros [Hv Ht]%andb_prop. rewrite (IH Ht). destruct (mget k item) as [[w|]|]; [|done..].
  by destruct w, v.
Qed.

Local Instance lsm_query_laws : @QueryLaws Lsm.Engine (Lsm.lsm_engine coin padding fsync) (Lsm.lsm_laws coin padding fsync) lsm_queries.
Proof.
  refine {| se_matches := Lsm.item_matches |}; [apply item_matches_same|].
  intros e t conds start limit prefix forward He _ Hst. cbn [se_query lsm_queries].
  rewrite Lsm.query_spec by done. done.
Defined.

(** The LSM engine has no equality on binary values: a binary condition is never met. *)
Lemma lsm_binary_condition_fails item name b conds : Lsm.item_matches item ((name, Some (AV_B b)) :: conds) = false.
Proof. cbn. destruct (mget name item) as [[v|]|]; [|done..]. by destruct v. Qed.
End Lsm.
