(* ===== verification/Reads.v ===== *)
(** * Scan, Query and the batch reads

    [src/api/handlers.cpp]: the key condition of a query, parallel-scan segments, and
    the handlers of Scan, Query (of a table and of an index), BatchGetItem and
    TransactGetItems.  They do not change the server. *)

From Stdlib Require Import ZArith Lia Strings.String Floats.SpecFloat.
From stdpp Require Import prelude.
From S2P Require Import Prelude StdMap Ranges Types CLib KeyCodec Storage Lexer Parser Evaluator TableManager NumberText Json TableJson Api Handlers Queries.
Import Json TableJson Api Handlers.

Module Reads.

(** ** Key conditions *)

(** [second] is the upper bound of BETWEEN. *)
Record SortCondition := { op : bytes; first : AttributeValue; second : option AttributeValue }.

Record KeyCondition := { pk_name : bytes; pk_value : AttributeValue; sk_name : bytes; sort : option SortCondition }.

(** A step of the parser on the tokens from [pos]: [None] is a read past the last
    token, [Err] the message the parser returns. *)
Definition Step (A : Type) : Type := list Token -> option (expected (A * list Token) bytes).

Definition step_ret {A} (a : A) : Step A := fun ts => Some (Ok (a, ts)).
Definition step_err {A} (msg : bytes) : Step A := fun _ => Some (Err msg).
Definition step_bind {A B} (m : Step A) (k : A -> Step B) : Step B := fun ts =>
  match m ts with
  | Some (Ok (a, ts)) => k a ts
  | Some (Err e) => Some (Err e)
  | None => None
  end.

Notation "x <~ m ; k" := (step_bind m (fun x => k)) (at level 100, m at next level, right associativity).

Definition peek : Step Token := fun ts => match ts with t :: _ => Some (Ok (t, ts)) | [] => None end.

(** [pos++] *)
Definition advance : Step unit := fun ts => Some (Ok (tt, tail ts)).

Definition resolve_name (names : NameMap) (t : Token) : option bytes :=
  match ttype t with
  | IDENTIFIER => Some (tvalue t)
  | PLACEHOLDER_NAME => mget (tvalue t) names
  | _ => None
  end.

Definition resolve_value (values : AttributeMap) (t : Token) : AttrPtr :=
  match ttype t with PLACEHOLDER_VALUE => default None (mget (tvalue t) values) | _ => None end.

(** What [f] finds in the next token, or the message. *)
Definition accept {A} (f : Token -> option A) (msg : string) : Step A :=
  t <~ peek;
  match f t with
  | Some a => _ <~ advance; step_ret a
  | None => step_err (lit msg)
  end.

Definition is_token (ty : TokenType) (t : Token) : option unit := if bool_decide (ttype t = ty) then Some tt else None.

Definition is_text (ty : TokenType) (s : string) (t : Token) : option unit :=
  if bool_decide (ttype t = ty) && bytes_eqb (tvalue t) (lit s) then Some tt else None.

Definition finish (c : KeyCondition) : Step KeyCondition :=
  t <~ peek;
  if bool_decide (ttype t = END_OF_FILE) then step_ret c else step_err (lit "Trailing tokens in KeyConditionExpression").

Definition sort_operators : list bytes := [lit "="; lit "<"; lit "<="; lit ">"; lit ">="].

Section KeyCondition.
Context (names : NameMap) (values : AttributeMap).

Let name := accept (resolve_name names).
Let value := accept (resolve_value values).

Definition parse_begins_with (pk : bytes) (pkv : AttributeValue) : Step KeyCondition :=
  _ <~ advance;
  _ <~ accept (is_token OPEN_PAREN) "begins_with expects '('";
  sk <~ name "begins_with sort-key name not found";
  _ <~ accept (is_token COMMA) "begins_with expects two args";
  v <~ value "begins_with value not found";
  _ <~ accept (is_token CLOSE_PAREN) "begins_with missing ')'";
  finish {| pk_name := pk; pk_value := pkv; sk_name := sk; sort := Some {| op := lit "begins_with"; first := v; second := None |} |}.

Definition parse_comparison (pk : bytes) (pkv : AttributeValue) : Step KeyCondition :=
  sk <~ name "Sort key name not found";
  let condition s := {| pk_name := pk; pk_value := pkv; sk_name := sk; sort := Some s |} in
  t <~ peek;
  match ttype t with
  | OPERATOR =>
      if negb (bool_decide (tvalue t ∈ sort_operators)) then step_err (lit "Unsupported sort key operator")
      else
        _ <~ advance;
        v <~ value "Sort key value not found";
        finish (condition {| op := tvalue t; first := v; second := None |})
  | KEYWORD =>
      if bytes_eqb (tvalue t) (lit "BETWEEN") then
        _ <~ advance;
        v1 <~ value "BETWEEN low value not found";
        _ <~ accept (is_text KEYWORD "AND") "BETWEEN expects AND";
        v2 <~ value "BETWEEN high value not found";
        finish (condition {| op := lit "BETWEEN"; first := v1; second := Some v2 |})
      else step_err (lit "Invalid sort key condition")
  | _ => step_err (lit "Invalid sort key condition")
  end.

Definition parse_condition : Step KeyCondition :=
  pk <~ name "KeyConditionExpression must start with a partition key";
  _ <~ accept (is_text OPERATOR "=") "Partition key condition must use '='";
  pkv <~ value "Partition key value placeholder not found";
  t <~ peek;
  if bool_decide (ttype t = END_OF_FILE) then step_ret {| pk_name := pk; pk_value := pkv; sk_name := []; sort := None |}
  else
    _ <~ accept (is_text KEYWORD "AND") "Expected AND before sort key condition";
    t <~ peek;
    if bool_decide (ttype t = IDENTIFIER) && bytes_eqb (upper_bytes (tvalue t)) (lit "BEGINS_WITH") then parse_begins_with pk pkv
    else parse_comparison pk pkv.

Definition parse_key_condition (expr : bytes) : option (expected KeyCondition bytes) :=
  option_map (fun r => match r with Ok (c, _) => Ok c | Err e => Err e end) (parse_condition (tokenize expr)).
End KeyCondition.

(** [cmp] of [sort_matches]: numbers without the checks of the expression evaluator. *)
Definition scalar_compare (a b : AttributeValue) (op : bytes) : bool :=
  match a, b with
  | AV_S l, AV_S r => bool_decide (op ∈ sort_operators) && ordered op (Some (bytes_cmp l r))
  | AV_N l, AV_N r => bool_decide (op ∈ sort_operators) && ordered op (SFcompare (strtold l).1 (strtold r).1)
  | AV_B l, AV_B r => bool_decide (op ∈ sort_operators) && ordered op (Some (bytes_cmp l r))
  | _, _ => false
  end.

Definition sort_matches (item_val : AttrPtr) (cond : SortCondition) : bool :=
  match item_val with
  | None => false
  | Some v =>
      if bytes_eqb (op cond) (lit "begins_with") then match v, first cond with AV_S s, AV_S p => starts_with s p | _, _ => false end
      else if bytes_eqb (op cond) (lit "BETWEEN") then
        scalar_compare v (first cond) (lit ">=") && match second cond with Some hi => scalar_compare v hi (lit "<=") | None => false end
      else scalar_compare v (first cond) (op cond)
  end.

(** ** Filters and projections of a page *)

Record Selection := { filter : option bytes; projection : option bytes; count_only : bool; sel_names : NameMap; sel_values : AttributeMap }.

(** Whether only the count is wanted. *)
Definition read_count (doc : Json) : expected bool ApiResult :=
  match read_select_count doc (bool_decide (is_Some (get_string_at doc "ProjectionExpression"))) with
  | Err msg => Err (bad_request msg)
  | Ok c => Ok c
  end.

Definition selection (doc : Json) (count_only : bool) (values : AttributeMap) : Selection :=
  {| filter := get_string_at doc "FilterExpression"; projection := get_string_at doc "ProjectionExpression"; count_only := count_only;
     sel_names := parse_expr_names doc; sel_values := values |}.

(** The tail of the loop body: the new output and count. *)
Definition select_item (sel : Selection) (item : AttributeMap) (output : list AttributeMap) (matched_count : Z) : expected (list AttributeMap * Z) ApiResult :=
  match match filter sel with Some f => evaluate_boolean_expr f item (sel_names sel) (sel_values sel) | None => Passed end with
  | ParseError => Err (bad_request (lit "Invalid FilterExpression"))
  | Failed => Ok (output, matched_count)
  | Passed =>
      let matched_count := matched_count + 1 in
      if count_only sel then Ok (output, matched_count)
      else
        match projection sel with
        | Some p =>
            let '(projected, unsupported) := apply_projection item p (sel_names sel) in
            if unsupported : bool then Err (bad_request (lit "Document-path ProjectionExpression is not yet supported"))
            else Ok (output ++ [projected], matched_count)
        | None => Ok (output ++ [item], matched_count)
        end
  end.

Definition page_reply (count_only : bool) (output : list AttributeMap) (matched_count scanned : Z) (last_evaluated : option bytes) : option ApiResult :=
  match if count_only then Some [] else option_map (fun l => q "'Items':" ++ l ++ q ",") (items_to_json output) with
  | None => None
  | Some items =>
      Some (ok (q "{" ++ items ++ q "'Count':" ++ dec_of_nonneg matched_count ++ q ",'ScannedCount':" ++ dec_of_nonneg scanned ++
                match last_evaluated with Some k => q ",'LastEvaluatedKey':" ++ k | None => [] end ++ q "}"))
  end.

(** The JSON of the cursor: of the last item, when the engine has more. *)
Definition cursor_json (key_json : AttributeMap -> option bytes) (page : PageResult) : option (option bytes) :=
  match last_evaluated_key page, last (items page) with
  | Some _, Some item => option_map Some (key_json item)
  | _, _ => Some None
  end.

(** ** Scan *)

Definition fnv1a (s : bytes) : Z := fold_left (fun h c => (Z.lxor h (bval c) * 1099511628211) mod 2 ^ 64) s 1469598103934665603.

(** [None] outside a parallel scan. *)
Definition in_segment (segment : option (Z * Z)) (key : bytes) : bool :=
  match segment with Some (n, total) => fnv1a key mod total =? n | None => true end.

Definition read_segment (doc : Json) : expected (option (Z * Z)) ApiResult :=
  match get_int64_at doc "Segment", get_int64_at doc "TotalSegments" with
  | Some segment, Some total =>
      if (total <? 1) || (1000000 <? total) then Err (bad_request (lit "TotalSegments must be between 1 and 1000000"))
      else if (segment <? 0) || (total <=? segment) then Err (bad_request (lit "Segment must be between 0 and TotalSegments-1"))
      else Ok (Some (segment, total))
  | None, None => Ok None
  | _, _ => Err (bad_request (lit "The Segment and TotalSegments parameters must be provided together"))
  end.

(** The loop of a scan: output, matching items and items of the segment. *)
Fixpoint scan_loop (sel : Selection) (segment : option (Z * Z)) (storage_key : AttributeMap -> bytes) (expired : AttributeMap -> bool)
  (page : list AttributeMap) (output : list AttributeMap) (matched_count scanned : Z) : expected (list AttributeMap * Z * Z) ApiResult :=
  match page with
  | [] => Ok (output, matched_count, scanned)
  | item :: page' =>
      if negb (in_segment segment (storage_key item)) then scan_loop sel segment storage_key expired page' output matched_count scanned
      else if expired item then scan_loop sel segment storage_key expired page' output matched_count (scanned + 1)
      else
        match select_item sel item output matched_count with
        | Err r => Err r
        | Ok (output, matched_count) => scan_loop sel segment storage_key expired page' output matched_count (scanned + 1)
        end
  end.

(** ** Query *)

(** The loop of a query over the items after the cursor; [prev] is [matched[i - 1]]. *)
Fixpoint query_loop (sel : Selection) (limit : Z) (key_json : AttributeMap -> option bytes) (rest : list AttributeMap) (prev : option AttributeMap)
  (output : list AttributeMap) (matched_count examined : Z) : option (expected (list AttributeMap * Z * Z * option bytes) ApiResult) :=
  match rest with
  | [] => Some (Ok (output, matched_count, examined, None))
  | item :: rest' =>
      if negb (limit =? 0) && (examined =? limit) then
        match prev with
        | Some p => option_map (fun k => Ok (output, matched_count, examined, Some k)) (key_json p)
        | None => None
        end
      else
        match select_item sel item output matched_count with
        | Err r => Some (Err r)
        | Ok (output, matched_count) => query_loop sel limit key_json rest' (Some item) output matched_count (examined + 1)
        end
  end.

(** The items up to and including [esk], which the handler skips. *)
Fixpoint skip_to (forward : bool) (key_of : AttributeMap -> bytes) (esk : bytes) (items : list AttributeMap) : list AttributeMap :=
  match items with
  | [] => []
  | item :: items' =>
      if if forward then bytes_ltb esk (key_of item) else bytes_ltb (key_of item) esk then items else skip_to forward key_of esk items'
  end.

Definition satisfies_sort (sk_name : bytes) (sort : option SortCondition) (item : AttributeMap) : bool :=
  match sort with
  | Some cond => match mget sk_name item with Some v => sort_matches v cond | None => false end
  | None => true
  end.

(** From the page of the engine to the reply.  [start] is the cursor the engine was
    given, [esk] the cursor of the request. *)
Definition answer_query (sel : Selection) (limit : Z) (forward : bool) (keep : AttributeMap -> bool) (key_of : AttributeMap -> bytes)
  (key_json : AttributeMap -> option bytes) (start esk : option bytes) (result : PageResult) : option ApiResult :=
  need cursor := cursor_json key_json result else None in
  let matched := List.filter keep (items result) in
  let rest := match start, esk with None, Some k => skip_to forward key_of k matched | _, _ => matched end in
  match query_loop sel limit key_json rest None [] 0 0 with
  | None => None
  | Some (Err r) => Some r
  | Some (Ok (output, matched_count, examined, last_evaluated)) =>
      page_reply (count_only sel) output matched_count examined (match last_evaluated with Some k => Some k | None => cursor end)
  end.

(** The legacy conditions: every one an equality. *)
Fixpoint legacy_conditions (fields : list (bytes * Json)) (conds : AttributeMap) : expected AttributeMap ApiResult :=
  match fields with
  | [] => Ok conds
  | (key, value) :: fields' =>
      if negb (bool_decide (get_string_at value "ComparisonOperator" = Some (lit "EQ")))
      then Err (bad_request (lit "Only the EQ comparison operator is supported in legacy KeyConditions"))
      else
        match get_array_at value "AttributeValueList" with
        | None => Err (bad_request (lit "AttributeValueList is required for each condition"))
        | Some [] => Err (bad_request (lit "EQ requires exactly one attribute value"))
        | Some (v :: _) =>
            match parse_attribute_value v with
            | Some av => legacy_conditions fields' (mset key (Some av) conds)
            | None => Err (bad_request (lit "Invalid attribute value in KeyConditions"))
            end
        end
  end.

Definition scan_forward (doc : Json) : bool := default true (get_bool_at doc "ScanIndexForward").

Section Handlers.
Context {E : Type} {SE : StorageEngine E} {QE : QueryEngine E} (env : Env).

Definition unknown_index (name : bytes) : ApiResult := bad_request (lit "The table does not have the specified index: " ++ name).

(** [ExclusiveStartKey] over the attributes of the index and of the table. *)
Definition read_index_start_key (doc : Json) (idx : IndexSpec) (def : TableDefinition) : option bytes :=
  match at_key doc "ExclusiveStartKey" with
  | Some esk => option_map (encode_index_storage_key idx def) (parse_attribute_map esk)
  | None => None
  end.

(** The scan of a table, or of one of its indexes. *)
Definition scan_of (doc : Json) (def : TableDefinition) (idx : option IndexSpec) (scan_table : bytes) (w : World E) : option ApiResult :=
  match read_segment doc with
  | Err r => Some r
  | Ok segment =>
      let limit := default 0 (read_limit doc) in
      let start := match idx with Some i => read_index_start_key doc i def | None => read_start_key doc def end in
      match read_count doc with
      | Err r => Some r
      | Ok count_only =>
          need values := parse_expr_values doc else Some invalid_values in
          let storage_key item := match idx with Some i => encode_index_storage_key i def item | None => encode_primary_key def item end in
          let lek_json item := match idx with Some i => index_key_only_json i def item | None => key_only_json def item end in
          let expired item := match idx with Some _ => false | None => item_is_expired (now_epoch_seconds env) def item end in
          let page := se_scan (storage w) scan_table start (bounded_read_limit limit) in
          match scan_loop (selection doc count_only values) segment storage_key expired (items page) [] 0 0 with
          | Err r => Some r
          | Ok (output, matched_count, scanned) =>
              let scanned := match segment with Some _ => scanned | None => len (items page) end in
              need last_evaluated := cursor_json lek_json page else None in
              page_reply count_only output matched_count scanned last_evaluated
          end
      end
  end.

Definition handle_scan (doc : Json) (w : World E) : option ApiResult :=
  need name := get_string_at doc "TableName" else Some (bad_request (lit "TableName is required")) in
  need def := find_table w name else Some (table_missing name) in
  match get_string_at doc "IndexName" with
  | Some index_name =>
      need idx := find_index (all_indexes def) index_name else Some (unknown_index index_name) in
      scan_of doc def (Some idx) (index_storage_table name index_name) w
  | None => scan_of doc def None name w
  end.

(** A parsed condition whose partition key is the first attribute of [schema], or the
    error. *)
Definition key_condition_for (schema : list KeySchemaElement) (wrong_key : bytes) (names : NameMap) (values : AttributeMap) (expr : bytes) :
  option (expected KeyCondition ApiResult) :=
  match parse_key_condition names values expr with
  | None => None
  | Some (Err msg) => Some (Err (bad_request (if bool_decide (msg = []) then lit "Invalid KeyConditionExpression" else msg)))
  | Some (Ok c) =>
      Some match schema with
           | ks :: _ => if bytes_eqb (pk_name c) (attribute_name ks) then Ok c else Err (bad_request wrong_key)
           | [] => Err (bad_request wrong_key)
           end
  end.

Definition handle_index_query (doc : Json) (def : TableDefinition) (index_name : bytes) (w : World E) : option ApiResult :=
  need idx := find_index (all_indexes def) index_name else Some (unknown_index index_name) in
  if bool_decide (index_key_schema idx = []) then Some (bad_request (lit "Index has no key schema: " ++ index_name))
  else if bool_decide (get_bool_at doc "ConsistentRead" = Some true) && index_is_gsi def index_name
  then Some (bad_request (lit "Consistent reads are not supported on global secondary indexes"))
  else
    let names := parse_expr_names doc in
    need values := parse_expr_values doc else Some invalid_values in
    need expr := get_string_at doc "KeyConditionExpression" else Some (bad_request (lit "Querying an index requires KeyConditionExpression")) in
    match key_condition_for (index_key_schema idx) (lit "KeyConditionExpression partition key must be the index hash key") names values expr with
    | None => None
    | Some (Err r) => Some r
    | Some (Ok parsed) =>
        let limit := default 0 (read_limit doc) in
        match read_count doc with
        | Err r => Some r
        | Ok count_only =>
            let start := read_index_start_key doc idx def in
            let result := se_query (storage w) (index_storage_table (table_name def) index_name) [(pk_name parsed, Some (pk_value parsed))] start
                            (bounded_read_limit limit) (Some (encode_key_prefix (Some (pk_value parsed)))) (scan_forward doc) in
            answer_query (selection doc count_only values) limit (scan_forward doc) (satisfies_sort (sk_name parsed) (sort parsed))
              (encode_index_storage_key idx def) (index_key_only_json idx def) start (read_index_start_key doc idx def) result
        end
    end.

(** The conditions of a query on a table: for the engine, its key prefix, and on the
    sort key. *)
Definition query_conditions (doc : Json) (def : TableDefinition) (names : NameMap) (values : AttributeMap) :
  option (expected (AttributeMap * option bytes * bytes * option SortCondition) ApiResult) :=
  match get_string_at doc "KeyConditionExpression" with
  | Some expr =>
      match key_condition_for (key_schema def) (lit "KeyConditionExpression partition key must be the table hash key") names values expr with
      | None => None
      | Some (Err r) => Some (Err r)
      | Some (Ok c) => Some (Ok ([(pk_name c, Some (pk_value c))], Some (encode_key_prefix (Some (pk_value c))), sk_name c, sort c))
      end
  | None =>
      Some match at_key doc "KeyConditions" with
           | Some (JObj fields) =>
               match legacy_conditions fields [] with
               | Err r => Err r
               | Ok [] => Err (bad_request (lit "KeyConditions must not be empty"))
               | Ok conds => Ok (conds, None, [], None)
               end
           | _ => Err (bad_request (lit "Query requires KeyConditionExpression or KeyConditions"))
           end
  end.

Definition handle_query (doc : Json) (w : World E) : option ApiResult :=
  need name := get_string_at doc "TableName" else Some (bad_request (lit "TableName is required")) in
  need def := find_table w name else Some (table_missing name) in
  match get_string_at doc "IndexName" with
  | Some index_name => handle_index_query doc def index_name w
  | None =>
      let names := parse_expr_names doc in
      need values := parse_expr_values doc else Some invalid_values in
      match query_conditions doc def names values with
      | None => None
      | Some (Err r) => Some r
      | Some (Ok (conds, prefix, sk_name, sort)) =>
          let limit := default 0 (read_limit doc) in
          match read_count doc with
          | Err r => Some r
          | Ok count_only =>
              let start := read_start_key doc def in
              let result := se_query (storage w) name conds start (bounded_read_limit limit) prefix (scan_forward doc) in
              let keep item := negb (item_is_expired (now_epoch_seconds env) def item) && satisfies_sort sk_name sort item in
              answer_query (selection doc count_only values) limit (scan_forward doc) keep (encode_primary_key def) (key_only_json def)
                start (read_start_key doc def) result
          end
      end
  end.

(** ** Batch reads *)

(** A key of a batch read, or the error. *)
Definition batch_key (def : TableDefinition) (msg : bytes) (key_el : Json) : expected bytes ApiResult :=
  match parse_attribute_map key_el with
  | Some key_map => if item_has_all_keys def key_map then Ok (encode_primary_key def key_map) else Err (bad_request msg)
  | None => Err (bad_request msg)
  end.

(** The item under [key] unless it has expired. *)
Definition live_item (def : TableDefinition) (name key : bytes) (w : World E) : option AttributeMap :=
  match se_get (storage w) name key with
  | Some item => if item_is_expired (now_epoch_seconds env) def item then None else Some item
  | None => None
  end.

Fixpoint batch_get_keys (def : TableDefinition) (name : bytes) (w : World E) (keys : list Json) (items : list AttributeMap) : expected (list AttributeMap) ApiResult :=
  match keys with
  | [] => Ok items
  | key_el :: keys' =>
      match batch_key def (lit "A key does not match the table schema") key_el with
      | Err r => Err r
      | Ok key => batch_get_keys def name w keys' (items ++ match live_item def name key w with Some i => [i] | None => [] end)
      end
  end.

Definition keys_of (value : Json) : option (list Json) := get_array_at value "Keys".

Fixpoint batch_get_tables (w : World E) (fields : list (bytes * Json)) (responses : list bytes) : option (expected (list bytes) ApiResult) :=
  match fields with
  | [] => Some (Ok responses)
  | (name, value) :: fields' =>
      need def := find_table w name else Some (Err (table_missing name)) in
      need keys := keys_of value else Some (Err (bad_request (lit "Each table entry requires Keys"))) in
      match batch_get_keys def name w keys [] with
      | Err r => Some (Err r)
      | Ok items =>
          need json := items_to_json items else None in
          batch_get_tables w fields' (responses ++ [q "'" ++ name ++ q "':" ++ json])
      end
  end.

Definition handle_batch_get_item (doc : Json) (w : World E) : option ApiResult :=
  match at_key doc "RequestItems" with
  | Some (JObj request_items) =>
      if 100 <? fold_left (fun n f => n + match keys_of f.2 with Some keys => len keys | None => 0 end) request_items 0
      then Some (bad_request (lit "Too many items requested for the BatchGetItem call"))
      else
        match batch_get_tables w request_items [] with
        | None => None
        | Some (Err r) => Some r
        | Some (Ok responses) => Some (ok (q "{'Responses':" ++ (q "{" ++ commas responses ++ q "}") ++ q ",'UnprocessedKeys':{}}"))
        end
  | _ => Some (bad_request (lit "RequestItems is required"))
  end.

Fixpoint transact_get (w : World E) (entries : list Json) (responses : list bytes) : option (expected (list bytes) ApiResult) :=
  match entries with
  | [] => Some (Ok responses)
  | entry :: entries' =>
      need get_el := at_key entry "Get" else Some (Err (bad_request (lit "Each TransactItem must contain Get"))) in
      need name := get_string_at get_el "TableName" else Some (Err (bad_request (lit "Get requires TableName"))) in
      need def := find_table w name else Some (Err (table_not_found name)) in
      need key_el := at_key get_el "Key" else Some (Err (bad_request (lit "Get requires Key"))) in
      match batch_key def (lit "Get key does not match schema") key_el with
      | Err r => Some (Err r)
      | Ok key =>
          match live_item def name key w with
          | Some item => need json := serialize_item item else None in transact_get w entries' (responses ++ [q "{'Item':" ++ json ++ q "}"])
          | None => transact_get w entries' (responses ++ [q "{}"])
          end
      end
  end.

Definition handle_transact_get_items (doc : Json) (w : World E) : option ApiResult :=
  need transact_items := get_array_at doc "TransactItems" else Some (bad_request (lit "TransactItems is required")) in
  if 100 <? len transact_items then Some (bad_request (lit "Member must have length less than or equal to 100 (TransactGetItems)"))
  else
    match transact_get w transact_items [] with
    | None => None
    | Some (Err r) => Some r
    | Some (Ok responses) => Some (ok (q "{'Responses':" ++ (q "[" ++ commas responses ++ q "]") ++ q "}"))
    end.
End Handlers.
End Reads.
