(* ===== verification/Writes.v ===== *)
(** * Batch writes and transactions

    [src/api/handlers.cpp]: BatchWriteItem, the cache of completed client request
    tokens, and TransactWriteItems.  The cache is an explicit state; the readings of the
    steady clock it takes are arguments. *)

From Stdlib Require Import ZArith Lia Strings.String.
From stdpp Require Import prelude.
From S2P Require Import Prelude StdMap Ranges Types CLib KeyCodec Validator Storage Lexer Parser Evaluator UpdateExpression Streams TableManager NumberText Json TableJson Api Handlers Sha256.
Import Json TableJson Api Handlers.

Module Writes.

(** ** Tokens of completed transactions *)

Module Idempotency.

Record Entry := { body_hash : bytes; response : bytes; at_ : Z }.

Record Cache := { entries_ : list (bytes * Entry); order_ : list bytes }.

Definition empty : Cache := {| entries_ := []; order_ := [] |}.

Definition kMax : Z := 4096.

(** Ten minutes, in nanoseconds of the steady clock. *)
Definition kTtl : Z := 10 * 60 * 1000000000.

Inductive Lookup := Miss | Hit (response : bytes) | Mismatch.

Definition lookup (now : Z) (token hash : bytes) (c : Cache) : Cache * Lookup :=
  match mget token (entries_ c) with
  | None => (c, Miss)
  | Some e =>
      if kTtl <? now - at_ e then ({| entries_ := mdel token (entries_ c); order_ := order_ c |}, Miss)
      else if bytes_eqb (body_hash e) hash then (c, Hit (response e))
      else (c, Mismatch)
  end.

(** The loop that drops the oldest tokens. *)
Fixpoint evict (entries : list (bytes * Entry)) (order : list bytes) : Cache :=
  match order with
  | [] => {| entries_ := entries; order_ := [] |}
  | t :: order' => if kMax <? len entries then evict (mdel t entries) order' else {| entries_ := entries; order_ := order |}
  end.

Definition store (now : Z) (token hash resp : bytes) (c : Cache) : Cache :=
  let order := match mget token (entries_ c) with Some _ => order_ c | None => order_ c ++ [token] end in
  evict (mset token {| body_hash := hash; response := resp; at_ := now |} (entries_ c)) order.
End Idempotency.

Section Handlers.
Context {E : Type} {SE : StorageEngine E} (env : Env).

(** ** The write of one action *)

Definition has_indexes (def : TableDefinition) : bool :=
  negb (bool_decide (global_secondary_indexes def = [])) || negb (bool_decide (local_secondary_indexes def = [])).

Definition has_stream (def : TableDefinition) (w : World E) : bool :=
  match streams w with Some _ => Streams.is_stream_enabled def | None => false end.

(** [new] under [key], the indexes and the stream brought up to date; the old item is
    read only when one of them needs it. *)
Definition apply_write (i : nat) (name key : bytes) (new : option AttributeMap) (w : World E) : option (World E) :=
  let def := find_table w name in
  let has_idx := match def with Some d => has_indexes d | None => false end in
  let streaming := match def with Some d => has_stream d w | None => false end in
  let old := if has_idx || streaming then se_get (storage w) name key else None in
  let w := set_storage w match new with Some item => se_put (storage w) name key item | None => se_remove (storage w) name key end in
  match def with
  | None => Some w
  | Some d =>
      let w := if has_idx : bool then set_storage w (maintain_indexes (storage w) d old new) else w in
      if streaming : bool then
        match new, old with
        | Some item, _ => emit_stream env i d (event_of old) (extract_keys d item) old (Some item) w
        | None, Some o => emit_stream env i d (lit "REMOVE") (extract_keys d o) old None w
        | None, None => Some w
        end
      else Some w
  end.

(** ** BatchWriteItem *)

(** [new = None] is a delete. *)
Record BatchOp := { op_table : bytes; op_key : bytes; op_new : option AttributeMap }.

Definition batch_op (def : TableDefinition) (name : bytes) (req : Json) : expected BatchOp ApiResult :=
  match at_key req "PutRequest" with
  | Some put_el =>
      match at_key put_el "Item" with
      | None => Err (bad_request (lit "PutRequest requires Item"))
      | Some item_el =>
          let missing := Err (bad_request (lit "PutRequest item missing key attributes")) in
          match parse_attribute_map item_el with
          | None => missing
          | Some item =>
              if negb (item_has_all_keys def item) then missing
              else
                match validate_item_standard item def with
                | Err _ => Err (bad_request (lit "PutRequest item failed validation"))
                | Ok _ => Ok {| op_table := name; op_key := encode_primary_key def item; op_new := Some item |}
                end
          end
      end
  | None =>
      match at_key req "DeleteRequest" with
      | None => Err (bad_request (lit "Each request must be a PutRequest or DeleteRequest"))
      | Some del_el =>
          match at_key del_el "Key" with
          | None => Err (bad_request (lit "DeleteRequest requires Key"))
          | Some key_el =>
              let missing := Err (bad_request (lit "DeleteRequest key missing attributes")) in
              match parse_attribute_map key_el with
              | None => missing
              | Some key_map =>
                  if negb (item_has_all_keys def key_map) then missing
                  else Ok {| op_table := name; op_key := encode_primary_key def key_map; op_new := None |}
              end
          end
      end
  end.

Fixpoint batch_requests (def : TableDefinition) (name : bytes) (reqs : list Json) (ops : list BatchOp) : expected (list BatchOp) ApiResult :=
  match reqs with
  | [] => Ok ops
  | req :: reqs' => match batch_op def name req with Err r => Err r | Ok op => batch_requests def name reqs' (ops ++ [op]) end
  end.

Fixpoint batch_tables (w : World E) (fields : list (bytes * Json)) (ops : list BatchOp) : expected (list BatchOp) ApiResult :=
  match fields with
  | [] => Ok ops
  | (name, value) :: fields' =>
      need def := find_table w name else Err (table_missing name) in
      match value with
      | JArr reqs => match batch_requests def name reqs ops with Err r => Err r | Ok ops => batch_tables w fields' ops end
      | _ => Err (bad_request (lit "Each table entry must be a list of write requests"))
      end
  end.

(** The writes in order; [i] numbers the stream records. *)
Fixpoint apply_ops (i : nat) (ops : list BatchOp) (w : World E) : option (World E) :=
  match ops with
  | [] => Some w
  | op :: ops' => match apply_write i (op_table op) (op_key op) (op_new op) w with Some w => apply_ops (S i) ops' w | None => None end
  end.

Definition handle_batch_write_item (doc : Json) (w : World E) : reply E :=
  match at_key doc "RequestItems" with
  | Some (JObj request_items) =>
      match batch_tables w request_items [] with
      | Err r => Some (r, w)
      | Ok ops =>
          if 25 <? len ops then Some (bad_request (lit "Too many items requested for the BatchWriteItem call"), w)
          else option_map (fun w => (ok (q "{'UnprocessedItems':{}}"), w)) (apply_ops 0 ops w)
      end
  | _ => Some (bad_request (lit "RequestItems is required"), w)
  end.

(** ** TransactWriteItems *)

Inductive Kind := KPut (item : AttributeMap) | KDelete | KUpdate (update_expr : option bytes) | KCheck.

Record Action := { kind : Kind; action_table : bytes; action_key : bytes; key_map : AttributeMap; action_condition : Condition }.

(** [load_expr]: values that do not parse are taken as none. *)
Definition load_expr (el : Json) : Condition :=
  {| condition := get_string_at el "ConditionExpression"; names := parse_expr_names el; values := default [] (parse_expr_values el) |}.

(** The table of an action. *)
Definition action_def (w : World E) (what : string) (sub : Json) : expected (bytes * TableDefinition) ApiResult :=
  need name := get_string_at sub "TableName" else Err (bad_request (lit what ++ lit " requires TableName")) in
  need def := find_table w name else Err (table_not_found name) in
  Ok (name, def).

(** An action that addresses an item by its key. *)
Definition keyed_action (w : World E) (what : string) (k : Kind) (sub : Json) : expected Action ApiResult :=
  match action_def w what sub with
  | Err r => Err r
  | Ok (name, def) =>
      need key_el := at_key sub "Key" else Err (bad_request (lit what ++ lit " requires Key")) in
      let invalid := Err (bad_request (lit what ++ lit " key invalid")) in
      need key := parse_attribute_map key_el else invalid in
      if negb (item_has_all_keys def key) then invalid
      else Ok {| kind := k; action_table := name; action_key := encode_primary_key def key; key_map := key; action_condition := load_expr sub |}
  end.

Definition put_action (w : World E) (sub : Json) : expected Action ApiResult :=
  match action_def w "Put" sub with
  | Err r => Err r
  | Ok (name, def) =>
      need item_el := at_key sub "Item" else Err (bad_request (lit "Put requires Item")) in
      let missing := Err (bad_request (lit "Put item missing keys")) in
      need item := parse_attribute_map item_el else missing in
      if negb (item_has_all_keys def item) then missing
      else Ok {| kind := KPut item; action_table := name; action_key := encode_primary_key def item; key_map := []; action_condition := load_expr sub |}
  end.

Definition read_action (w : World E) (entry : Json) : expected Action ApiResult :=
  match at_key entry "Put" with
  | Some sub => put_action w sub
  | None =>
  match at_key entry "Delete" with
  | Some sub => keyed_action w "Delete" KDelete sub
  | None =>
  match at_key entry "Update" with
  | Some sub => keyed_action w "Update" (KUpdate (get_string_at sub "UpdateExpression")) sub
  | None =>
  match at_key entry "ConditionCheck" with
  | Some sub =>
      match keyed_action w "ConditionCheck" KCheck sub with
      | Err r => Err r
      | Ok a => if condition (action_condition a) is Some _ then Ok a else Err (bad_request (lit "ConditionCheck requires a ConditionExpression"))
      end
  | None => Err (bad_request (lit "Each TransactItem must be Put/Delete/Update/ConditionCheck"))
  end end end end.

Fixpoint read_actions (w : World E) (entries : list Json) (actions : list Action) : expected (list Action) ApiResult :=
  match entries with
  | [] => Ok actions
  | entry :: entries' => match read_action w entry with Err r => Err r | Ok a => read_actions w entries' (actions ++ [a]) end
  end.

Definition target (a : Action) : bytes := action_table a ++ [Byte.x00] ++ action_key a.

Fixpoint distinct_targets (seen : list bytes) (actions : list Action) : bool :=
  match actions with
  | [] => true
  | a :: actions' => if bool_decide (target a ∈ seen) then false else distinct_targets (target a :: seen) actions'
  end.

(** Phase 1 for one action: the item an update results in. *)
Definition check_action (w : World E) (a : Action) : option (expected AttributeMap ApiResult) :=
  let current := se_get (storage w) (action_table a) (action_key a) in
  match check_condition (action_condition a) current with
  | ParseError => Some (Err (bad_request (lit "Invalid ConditionExpression in transaction")))
  | Failed => Some (Err (error 400 (lit "TransactionCanceledException")
      (lit "Transaction cancelled, please refer cancellation reasons for specific reasons [ConditionalCheckFailed]")))
  | Passed =>
      match kind a with
      | KUpdate update =>
          match updated_item update (action_condition a) (key_map a) current with
          | None => None
          | Some (Ok working) => Some (Ok working)
          | Some (Err e) => Some (Err (bad_request e))
          end
      | _ => Some (Ok [])
      end
  end.

Fixpoint check_actions (w : World E) (actions : list Action) : option (expected (list AttributeMap) ApiResult) :=
  match actions with
  | [] => Some (Ok [])
  | a :: actions' =>
      match check_action w a with
      | None => None
      | Some (Err r) => Some (Err r)
      | Some (Ok item) =>
          match check_actions w actions' with
          | Some (Ok items) => Some (Ok (item :: items))
          | r => r
          end
      end
  end.

(** Phase 2: [Some None] deletes, [None] writes nothing. *)
Definition effect_of (a : Action) (precomputed : AttributeMap) : option (option AttributeMap) :=
  match kind a with
  | KPut item => Some (Some item)
  | KDelete => Some None
  | KUpdate _ => Some (Some precomputed)
  | KCheck => None
  end.

Fixpoint apply_actions (i : nat) (actions : list (Action * AttributeMap)) (w : World E) : option (World E) :=
  match actions with
  | [] => Some w
  | (a, precomputed) :: actions' =>
      match effect_of a precomputed with
      | None => apply_actions (S i) actions' w
      | Some new => match apply_write i (action_table a) (action_key a) new w with Some w => apply_actions (S i) actions' w | None => None end
      end
  end.

(** The transaction without the token: [None] in the second place when it was refused. *)
Definition transact (entries : list Json) (w : World E) : option (ApiResult * option (World E)) :=
  match read_actions w entries [] with
  | Err r => Some (r, None)
  | Ok actions =>
      if negb (distinct_targets [] actions) then Some (bad_request (lit "Transaction request cannot include multiple operations on one item"), None)
      else
        match check_actions w actions with
        | None => None
        | Some (Err r) => Some (r, None)
        | Some (Ok precomputed) => option_map (fun w => (empty_reply, Some w)) (apply_actions 0 (zip actions precomputed) w)
        end
  end.

(** [lookup_time] and [store_time] are the readings of the steady clock. *)
Definition handle_transact_write_items (lookup_time store_time : Z) (raw_body : bytes) (doc : Json) (cache : Idempotency.Cache) (w : World E) :
  option (ApiResult * Idempotency.Cache * World E) :=
  need entries := get_array_at doc "TransactItems" else Some (bad_request (lit "TransactItems is required"), cache, w) in
  if 100 <? len entries then Some (bad_request (lit "Member must have length less than or equal to 100 (TransactWriteItems)"), cache, w)
  else
    let run cache store :=
      match transact entries w with
      | None => None
      | Some (r, None) => Some (r, cache, w)
      | Some (r, Some w) => Some (r, store cache, w)
      end in
    match get_string_at doc "ClientRequestToken" with
    | None | Some [] => run cache id
    | Some token =>
        let hash := Sha.sha256_hex raw_body in
        match Idempotency.lookup lookup_time token hash cache with
        | (cache, Idempotency.Hit cached) => Some (ok cached, cache, w)
        | (cache, Idempotency.Mismatch) =>
            Some (error 400 (lit "IdempotentParameterMismatchException")
              (lit "Request parameters do not match the parameters of a previous request with the same ClientRequestToken"), cache, w)
        | (cache, Idempotency.Miss) => run cache (Idempotency.store store_time token hash (q "{}"))
        end
    end.
End Handlers.
End Writes.
