(* ===== verification/PartiQL.v ===== *)
(** * PartiQL

    [src/api/handlers.cpp]: the tokenizer, the value parser, and SELECT, INSERT, UPDATE
    and DELETE.  The tokenizer and the value parser recurse on fuel, and [None] is its
    exhaustion or the undefined behaviour of the engine below; the fuel given is enough
    ([pql_tokenize_total], [parse_value_total]). *)

From Stdlib Require Import ZArith Lia Strings.String Floats.SpecFloat.
From stdpp Require Import prelude.
From S2P Require Import Prelude StdMap Ranges Types CLib KeyCodec Storage Lexer Parser Evaluator Streams TableManager NumberText Json TableJson Api Handlers.
Import Json TableJson Api Handlers.

Module PartiQL.

(** ** Tokens *)

Inductive PqlType := Ident | Str | Num | Param | Punct | End.

#[export] Instance PqlType_eq_dec : EqDecision PqlType.
Proof. solve_decision. Defined.

Record PqlToken := { pt : PqlType; ps : bytes }.

Definition ptok (t : PqlType) (s : bytes) : PqlToken := {| pt := t; ps := s |}.

Definition ident_char (c : byte) : bool := isalnum c || is_char 95 c || is_char 46 c.
Definition num_char (c : byte) : bool := isdigit c || is_char 46 c || is_char 45 c || is_char 43 c || is_char 101 c || is_char 69 c.
Definition punct_char (c : byte) : bool := bool_decide (c ∈ lit "={}[](),*<>.:").

(** What the loop does at [c :: r]: the token, if any, and the rest; [None] is a
    character or a quote that makes the statement bad. *)
Definition pql_step (c : byte) (r : bytes) : option (list PqlToken * bytes) :=
  if isspace c then Some ([], r)
  else if is_char 39 c then
    let '(s, r) := span (fun c => negb (is_char 39 c)) r in match r with [] => None | _ :: r => Some ([ptok Str s], r) end
  else if is_char 34 c then
    let '(s, r) := span (fun c => negb (is_char 34 c)) r in match r with [] => None | _ :: r => Some ([ptok Ident s], r) end
  else if is_char 63 c then Some ([ptok Param (lit "?")], r)
  else if isalpha c || is_char 95 c then let '(s, r) := span ident_char (c :: r) in Some ([ptok Ident s], r)
  else if isdigit c || is_char 45 c then let '(s, r) := span num_char (c :: r) in Some ([ptok Num s], r)
  else
    let single := if punct_char c then Some ([ptok Punct [c]], r) else None in
    match r with
    | c2 :: r2 =>
        if is_char 60 c && is_char 61 c2 then Some ([ptok Punct (lit "<=")], r2)
        else if is_char 62 c && is_char 61 c2 then Some ([ptok Punct (lit ">=")], r2)
        else if is_char 60 c && is_char 62 c2 then Some ([ptok Punct (lit "<>")], r2)
        else single
    | [] => single
    end.

(** [None] when the fuel runs out, [Some None] when the statement is bad. *)
Fixpoint pql_loop (fuel : nat) (d : bytes) : option (option (list PqlToken)) :=
  match d, fuel with
  | [], _ => Some (Some [ptok End []])
  | _, O => None
  | c :: r, S fuel' =>
      match pql_step c r with
      | None => Some None
      | Some (t, r) => option_map (option_map (app t)) (pql_loop fuel' r)
      end
  end.

Definition pql_tokenize (d : bytes) : option (option (list PqlToken)) := pql_loop (length d) d.

(** ** The parser *)

(** The tokens from [pos] and the parameters from [next_param]. *)
Record P := { rest : list PqlToken; params : list AttributeValue }.

Definition peek (p : P) : PqlToken := default (ptok End []) (head (rest p)).

(** [advance] stays at the last token. *)
Definition advance (p : P) : P :=
  {| rest := match rest p with _ :: (_ :: _) as r => r | r => r end; params := params p |}.

Definition at_kw (k : string) (p : P) : bool := bool_decide (pt (peek p) = Ident) && bytes_eqb (upper_bytes (ps (peek p))) (lit k).
Definition at_punct (s : string) (p : P) : bool := bool_decide (pt (peek p) = Punct) && bytes_eqb (ps (peek p)) (lit s).

Definition kw (k : string) (p : P) : P * bool := if at_kw k p then (advance p, true) else (p, false).
Definition punct (s : string) (p : P) : P * bool := if at_punct s p then (advance p, true) else (p, false).

(** A parsed thing and the state, or the message. *)
Definition parsed (A : Type) : Type := option (expected (A * P) bytes).

Section Value.
Context (parse_value : P -> parsed AttributeValue).

(** The entries of a map literal after its brace; [fuel] bounds their number. *)
Fixpoint map_entries (fuel : nat) (m : AttributeMap) (p : P) : parsed AttributeMap :=
  match fuel with
  | O => None
  | S fuel' =>
      if negb (bool_decide (pt (peek p) = Str)) then Some (Err (lit "Map keys must be quoted strings"))
      else
        let key := ps (peek p) in
        let '(p, colon) := punct ":" (advance p) in
        if negb colon then Some (Err (lit "Map entry requires ':'"))
        else
          match parse_value p with
          | Some (Ok (v, p)) =>
              let m := mset key (Some v) m in
              let '(p, more) := punct "," p in
              if more : bool then map_entries fuel' m p else Some (Ok (m, p))
          | Some (Err e) => Some (Err e)
          | None => None
          end
  end.

Fixpoint list_entries (fuel : nat) (l : list AttrPtr) (p : P) : parsed (list AttrPtr) :=
  match fuel with
  | O => None
  | S fuel' =>
      match parse_value p with
      | Some (Ok (v, p)) =>
          let l := l ++ [Some v] in
          let '(p, more) := punct "," p in
          if more : bool then list_entries fuel' l p else Some (Ok (l, p))
      | Some (Err e) => Some (Err e)
      | None => None
      end
  end.

(** The literal once its entries are read. *)
Definition closed {A} (s msg : string) (f : A -> AttributeValue) (r : parsed A) : parsed AttributeValue :=
  match r with
  | Some (Ok (a, p)) => let '(p, ok) := punct s p in if ok : bool then Some (Ok (f a, p)) else Some (Err (lit msg))
  | Some (Err e) => Some (Err e)
  | None => None
  end.

Definition unexpected : parsed AttributeValue := Some (Err (lit "Unexpected token in PartiQL value")).

Definition value_step (fuel : nat) (p : P) : parsed AttributeValue :=
  let t := peek p in
  let p' := advance p in
  match pt t with
  | Param =>
      match params p with
      | [] => Some (Err (lit "Not enough parameters for PartiQL statement"))
      | v :: vs => Some (Ok (v, {| rest := rest p'; params := vs |}))
      end
  | Str => Some (Ok (AV_S (ps t), p'))
  | Num => Some (Ok (AV_N (ps t), p'))
  | Ident =>
      if at_kw "TRUE" p then Some (Ok (AV_BOOL true, p'))
      else if at_kw "FALSE" p then Some (Ok (AV_BOOL false, p'))
      else if at_kw "NULL" p then Some (Ok (AV_NUL, p'))
      else unexpected
  | Punct =>
      if bytes_eqb (ps t) (lit "{") then
        closed "}" "Unterminated map literal" AV_M (if at_punct "}" p' then Some (Ok ([], p')) else map_entries fuel [] p')
      else if bytes_eqb (ps t) (lit "[") then
        closed "]" "Unterminated list literal" AV_L (if at_punct "]" p' then Some (Ok ([], p')) else list_entries fuel [] p')
      else unexpected
  | End => unexpected
  end.
End Value.

Fixpoint parse_value_fuel (fuel : nat) (p : P) : parsed AttributeValue :=
  match fuel with
  | O => None
  | S fuel' => value_step (parse_value_fuel fuel') fuel p
  end.

(** Every nested value and every further entry has its own token. *)
Definition parse_value (p : P) : parsed AttributeValue := parse_value_fuel (S (length (rest p))) p.

(** ** Conditions *)

Definition same_type (a b : AttributeValue) : bool := bool_decide (av_type a = av_type b).

Definition pql_lt (a b : AttributeValue) : bool :=
  match a, b with
  | AV_S l, AV_S r => bytes_ltb l r
  | AV_N l, AV_N r => SFltb (strtold l).1 (strtold r).1
  | _, _ => false
  end.

(** Numbers are equal when their texts are. *)
Definition pql_eq (a b : AttributeValue) : bool :=
  match a, b with
  | AV_S l, AV_S r => bytes_eqb l r
  | AV_N l, AV_N r => bytes_eqb l r
  | AV_BOOL x, AV_BOOL y => Bool.eqb x y
  | AV_NUL, AV_NUL => true
  | _, _ => false
  end.

Definition pql_attr_compare (a : AttributeValue) (op : bytes) (b : AttributeValue) : bool :=
  if negb (same_type a b) then op_is op "<>"
  else if op_is op "=" then pql_eq a b
  else if op_is op "<>" then negb (pql_eq a b)
  else if op_is op "<" then pql_lt a b
  else if op_is op ">" then negb (pql_lt a b) && negb (pql_eq a b)
  else if op_is op "<=" then pql_lt a b || pql_eq a b
  else if op_is op ">=" then negb (pql_lt a b)
  else false.

Record PqlCond := { attr : bytes; cop : bytes; value : AttributeValue }.

(** The conjuncts after WHERE. *)
Fixpoint where_loop (fuel : nat) (conds : list PqlCond) (p : P) : parsed (list PqlCond) :=
  match fuel with
  | O => None
  | S fuel' =>
      if negb (bool_decide (pt (peek p) = Ident)) then Some (Err (lit "Expected attribute in WHERE"))
      else
        let a := ps (peek p) in
        let p := advance p in
        if negb (bool_decide (pt (peek p) = Punct)) then Some (Err (lit "Expected operator in WHERE"))
        else
          let o := ps (peek p) in
          match parse_value (advance p) with
          | Some (Ok (v, p)) =>
              let conds := conds ++ [{| attr := a; cop := o; value := v |}] in
              let '(p, more) := kw "AND" p in
              if more : bool then where_loop fuel' conds p else Some (Ok (conds, p))
          | Some (Err e) => Some (Err e)
          | None => None
          end
  end.

Definition parse_where (p : P) : parsed (list PqlCond) :=
  let '(p, present) := kw "WHERE" p in
  if present : bool then where_loop (S (length (rest p))) [] p else Some (Ok ([], p)).

Definition matches (conds : list PqlCond) (item : AttributeMap) : bool :=
  forallb (fun c => match mget (attr c) item with Some (Some v) => pql_attr_compare v (cop c) (value c) | _ => false end) conds.

(** The attributes named by SELECT. *)
Fixpoint select_names (fuel : nat) (names : list bytes) (p : P) : parsed (list bytes) :=
  match fuel with
  | O => None
  | S fuel' =>
      if negb (bool_decide (pt (peek p) = Ident)) then Some (Err (lit "Invalid SELECT list"))
      else
        let names := names ++ [ps (peek p)] in
        let '(p, more) := punct "," (advance p) in
        if more : bool then select_names fuel' names p else Some (Ok (names, p))
  end.

Definition select_list (p : P) : parsed (list bytes) :=
  let '(p', all) := punct "*" p in
  if all : bool then Some (Ok ([], p')) else select_names (S (length (rest p))) [] p.

(** The assignments of SET; the operator of an assignment is empty. *)
Fixpoint set_loop (fuel : nat) (sets : list PqlCond) (p : P) : parsed (list PqlCond) :=
  match fuel with
  | O => None
  | S fuel' =>
      if negb (bool_decide (pt (peek p) = Ident)) then Some (Err (lit "Invalid SET assignment"))
      else
        let a := ps (peek p) in
        let '(p, eq) := punct "=" (advance p) in
        if negb eq then Some (Err (lit "SET assignment requires '='"))
        else
          match parse_value p with
          | Some (Ok (v, p)) =>
              let sets := sets ++ [{| attr := a; cop := []; value := v |}] in
              let '(p, more) := punct "," p in
              if more : bool then set_loop fuel' sets p else Some (Ok (sets, p))
          | Some (Err e) => Some (Err e)
          | None => None
          end
  end.

Definition equalities (conds : list PqlCond) : AttributeMap :=
  fold_left (fun m c => if op_is (cop c) "=" then mset (attr c) (Some (value c)) m else m) conds [].

Definition assign (sets : list PqlCond) (item : AttributeMap) : AttributeMap :=
  fold_left (fun m c => mset (attr c) (Some (value c)) m) sets item.

(** What a statement asks for, once it is parsed and its table is found. *)
Inductive Plan :=
| PSelect (names : list bytes) (name : bytes) (def : TableDefinition) (conds : list PqlCond)
| PInsert (name : bytes) (def : TableDefinition) (item : AttributeMap)
| PUpdate (name : bytes) (def : TableDefinition) (sets : list PqlCond) (key_map : AttributeMap)
| PDelete (name : bytes) (def : TableDefinition) (key_map : AttributeMap).

Section Statements.
Context {E : Type} {SE : StorageEngine E} (env : Env).

(** ** Reading a statement *)

Definition planned : Type := option (expected Plan ApiResult).

Definition invalid (msg : bytes) : planned := Some (Err (bad_request msg)).

(** The table named next. *)
Definition table_of (p : P) (w : World E) (k : bytes -> TableDefinition -> P -> planned) : planned :=
  if negb (bool_decide (pt (peek p) = Ident)) then invalid (lit "Expected table name")
  else
    let name := ps (peek p) in
    need def := find_table w name else Some (Err (table_not_found name)) in
    k name def (advance p).

(** The rest of a statement after something parsed. *)
Definition then_ {A} (r : parsed A) (k : A -> P -> planned) : planned :=
  match r with
  | None => None
  | Some (Err msg) => invalid msg
  | Some (Ok (a, p)) => k a p
  end.

Definition required (k : string) (msg : string) (p : P) (f : P -> planned) : planned :=
  let '(p, found) := kw k p in if found : bool then f p else invalid (lit msg).

Definition plan_select (p : P) (w : World E) : planned :=
  then_ (select_list p) (fun names p =>
  required "FROM" "PartiQL SELECT requires FROM" p (fun p =>
  table_of p w (fun name def p =>
  then_ (parse_where p) (fun conds _ => Some (Ok (PSelect names name def conds)))))).

Definition plan_insert (p : P) (w : World E) : planned :=
  required "INTO" "PartiQL INSERT requires INTO" p (fun p =>
  table_of p w (fun name def p =>
  required "VALUE" "PartiQL INSERT requires VALUE" p (fun p =>
  then_ (parse_value p) (fun v _ =>
  match v with
  | AV_M m =>
      let item := with_keys m [] in
      if negb (item_has_all_keys def item) then invalid (lit "INSERT item missing key attributes") else Some (Ok (PInsert name def item))
  | _ => invalid (lit "INSERT VALUE must be a map")
  end)))).

Definition plan_update (p : P) (w : World E) : planned :=
  table_of p w (fun name def p =>
  required "SET" "PartiQL UPDATE requires SET" p (fun p =>
  then_ (set_loop (S (length (rest p))) [] p) (fun sets p =>
  then_ (parse_where p) (fun conds _ =>
    let key_map := equalities conds in
    if negb (item_has_all_keys def key_map) then invalid (lit "PartiQL UPDATE requires the full primary key in WHERE")
    else Some (Ok (PUpdate name def sets key_map)))))).

Definition plan_delete (p : P) (w : World E) : planned :=
  required "FROM" "PartiQL DELETE requires FROM" p (fun p =>
  table_of p w (fun name def p =>
  then_ (parse_where p) (fun conds _ =>
    let key_map := equalities conds in
    if negb (item_has_all_keys def key_map) then invalid (lit "PartiQL DELETE requires the full primary key in WHERE")
    else Some (Ok (PDelete name def key_map))))).

Definition plan_statement (statement : bytes) (parameters : list AttributeValue) (w : World E) : planned :=
  match pql_tokenize statement with
  | None => None
  | Some None => invalid (lit "Invalid PartiQL statement syntax")
  | Some (Some toks) =>
      let p := {| rest := toks; params := parameters |} in
      if at_kw "SELECT" p then plan_select (advance p) w
      else if at_kw "INSERT" p then plan_insert (advance p) w
      else if at_kw "UPDATE" p then plan_update (advance p) w
      else if at_kw "DELETE" p then plan_delete (advance p) w
      else invalid (lit "Unsupported PartiQL statement")
  end.

(** ** Performing it *)

Definition select_item (names : list bytes) (item : AttributeMap) : AttributeMap :=
  match names with [] => item | _ => copy_attrs names item [] end.

Definition perform_select (names : list bytes) (name : bytes) (def : TableDefinition) (conds : list PqlCond) (w : World E) : option ApiResult :=
  let page := se_scan (storage w) name None 0 in
  let live := List.filter (fun item => negb (item_is_expired (now_epoch_seconds env) def item) && matches conds item) (items page) in
  option_map (fun json => ok (q "{'Items':" ++ json ++ q "}")) (items_to_json (map (select_item names) live)).

Definition perform_insert (i : nat) (name : bytes) (def : TableDefinition) (item : AttributeMap) (w : World E) : option (World E) :=
  let key := encode_primary_key def item in
  let old := se_get (storage w) name key in
  let w := set_storage w (maintain_indexes (se_put (storage w) name key item) def old (Some item)) in
  emit_stream env i def (event_of old) (extract_keys def item) old (Some item) w.

Definition pql_updated (sets : list PqlCond) (key_map : AttributeMap) (current : option AttributeMap) : AttributeMap :=
  assign sets (with_keys key_map (default [] current)).

Definition perform_update (i : nat) (name : bytes) (def : TableDefinition) (sets : list PqlCond) (key_map : AttributeMap) (w : World E) : option (World E) :=
  let '(s, outcome) := se_mutate (storage w) name (encode_primary_key def key_map) (fun current => MutationPut (pql_updated sets key_map current)) in
  let new_item := pql_updated sets key_map (previous outcome) in
  let w := set_storage w (maintain_indexes s def (previous outcome) (Some new_item)) in
  emit_stream env i def (event_of (previous outcome)) (extract_keys def new_item) (previous outcome) (Some new_item) w.

Definition perform_delete (i : nat) (name : bytes) (def : TableDefinition) (key_map : AttributeMap) (w : World E) : option (World E) :=
  let '(s, outcome) := se_mutate (storage w) name (encode_primary_key def key_map) (fun _ => MutationDelete) in
  let w := set_storage w s in
  match previous outcome with
  | Some old =>
      let w := set_storage w (maintain_indexes (storage w) def (Some old) None) in
      emit_stream env i def (lit "REMOVE") (extract_keys def old) (Some old) None w
  | None => Some w
  end.

Definition perform (i : nat) (plan : Plan) (w : World E) : reply E :=
  match plan with
  | PSelect names name def conds => option_map (fun r => (r, w)) (perform_select names name def conds w)
  | PInsert name def item => option_map (pair empty_reply) (perform_insert i name def item w)
  | PUpdate name def sets key_map => option_map (pair empty_reply) (perform_update i name def sets key_map w)
  | PDelete name def key_map => option_map (pair empty_reply) (perform_delete i name def key_map w)
  end.

(** [i] is the number of the stream record of the statement. *)
Definition execute_partiql (i : nat) (statement : bytes) (parameters : list AttributeValue) (w : World E) : reply E :=
  match plan_statement statement parameters w with
  | None => None
  | Some (Err r) => Some (r, w)
  | Some (Ok plan) => perform i plan w
  end.

(** ** The handlers *)

Fixpoint parse_values (arr : list Json) : option (list AttributeValue) :=
  match arr with
  | [] => Some []
  | x :: arr' => match parse_attribute_value x with Some v => option_map (cons v) (parse_values arr') | None => None end
  end.

Definition read_parameters (doc : Json) : option (list AttributeValue) :=
  match get_array_at doc "Parameters" with Some arr => parse_values arr | None => Some [] end.

Definition handle_execute_statement (doc : Json) (w : World E) : reply E :=
  need stmt := get_string_at doc "Statement" else Some (bad_request (lit "Statement is required"), w) in
  need parameters := read_parameters doc else Some (bad_request (lit "Invalid Parameters"), w) in
  execute_partiql 0 stmt parameters w.

Definition statement_failed : bytes := q "{'Error':{'Code':'ValidationError','Message':'statement failed'}}".

(** The statements in order; an unreadable one ends the request. *)
Fixpoint run_statements (i : nat) (stmts : list Json) (responses : list bytes) (w : World E) : reply E :=
  match stmts with
  | [] => Some (ok (q "{'Responses':" ++ (q "[" ++ commas responses ++ q "]") ++ q "}"), w)
  | s :: stmts' =>
      need stmt := get_string_at s "Statement" else Some (bad_request (lit "Each statement requires a Statement"), w) in
      need parameters := read_parameters s else Some (bad_request (lit "Invalid Parameters"), w) in
      need (r, w) := execute_partiql i stmt parameters w else None in
      let entry := if status r =? 200 then if starts_with (body r) (q "{'Items':") then body r else q "{}" else statement_failed in
      run_statements (S i) stmts' (responses ++ [entry]) w
  end.

Definition handle_batch_execute_statement (doc : Json) (w : World E) : reply E :=
  need stmts := get_array_at doc "Statements" else Some (bad_request (lit "Statements is required"), w) in
  run_statements 0 stmts [] w.
End Statements.

(** ** The tokenizer ends *)

Lemma span_shorter f s : (length (span f s).2 <= length s)%nat.
Proof. induction s as [|c s IH]; cbn [span]; [done|]. destruct (f c); [|done]. destruct (span f s). cbn [length fst snd] in *. lia. Qed.

Lemma span_shorter_first f c s : f c = true -> (length (span f (c :: s)).2 <= length s)%nat.
Proof. intros Hc. cbn [span]. rewrite Hc. pose proof (span_shorter f s). by destruct (span f s). Qed.

Lemma pql_step_shorter c r ts r' : pql_step c r = Some (ts, r') -> (length r' <= length r)%nat.
Proof.
  unfold pql_step. destruct (isspace c); [by intros [= <- <-]|].
  destruct (is_char 39 c). { pose proof (span_shorter (fun c => negb (is_char 39 c)) r) as H. destruct (span _ r) as [s [|x r1]]; [done|]. intros [= <- <-]. cbn [snd length] in H. lia. }
  destruct (is_char 34 c). { pose proof (span_shorter (fun c => negb (is_char 34 c)) r) as H. destruct (span _ r) as [s [|x r1]]; [done|]. intros [= <- <-]. cbn [snd length] in H. lia. }
  destruct (is_char 63 c); [by intros [= <- <-]|].
  destruct (isalpha c || is_char 95 c) eqn:Ea.
  { pose proof (span_shorter_first ident_char c r) as H. destruct (span ident_char (c :: r)) as [s r1]. intros [= <- <-]. apply H. unfold ident_char, isalnum.
    apply orb_prop in Ea as [->| ->]; by rewrite ?orb_true_r. }
  destruct (isdigit c || is_char 45 c) eqn:Ed.
  { pose proof (span_shorter_first num_char c r) as H. destruct (span num_char (c :: r)) as [s r1]. intros [= <- <-]. apply H. unfold num_char.
    apply orb_prop in Ed as [->| ->]; by rewrite ?orb_true_r. }
  cbn zeta. destruct r as [|c2 r2]; [destruct (punct_char c); [by intros [= <- <-]|done]|].
  repeat match goal with |- (if ?b then _ else _) = _ -> _ => destruct b end; intros [= <- <-]; cbn [length]; lia.
Qed.

Lemma pql_loop_ends fuel : forall d, (length d <= fuel)%nat -> exists r, pql_loop fuel d = Some r /\ forall ts, r = Some ts -> last ts = Some (ptok End []).
Proof.
  induction fuel as [|fuel IH]; intros [|c d] Hf; cbn [pql_loop length] in *; [eexists; split; [done|by intros ts [= <-]]|lia|eexists; split; [done|by intros ts [= <-]]|].
  destruct (pql_step c d) as [[ts r]|] eqn:Es; [|by eexists]. apply pql_step_shorter in Es. destruct (IH r) as ([ts'|] & -> & Hl); [lia| |by eexists].
  eexists. split; [done|]. intros ts0 [= <-]. specialize (Hl ts' eq_refl). rewrite last_app. by rewrite Hl.
Qed.

(** ** The parsers end *)

Definition ended (p : P) : Prop := last (rest p) = Some (ptok End []).

Definition size (p : P) : nat := length (rest p).

Lemma ended_head p : ended p -> exists t ts, rest p = t :: ts.
Proof. unfold ended. destruct (rest p) as [|t ts]; [done|eauto]. Qed.

(** Past a token that is not the last one. *)
Lemma advance_ended p : ended p -> ended (advance p) /\ (size (advance p) <= size p)%nat.
Proof. unfold ended, advance, size. cbn [rest]. destruct (rest p) as [|t [|t2 ts]]; [done|done|]. cbn [length]. split; [done|lia]. Qed.

Lemma advance_shorter p : ended p -> pt (peek p) <> End -> (size (advance p) < size p)%nat.
Proof.
  unfold ended, advance, size, peek. cbn [rest]. destruct (rest p) as [|t [|t2 ts]]; [done| |cbn; lia]. cbn. by intros [= ->].
Qed.

(** A parser that ends: it never runs out of fuel, and goes forward. *)
Definition ends {A} (p : P) (r : parsed A) : Prop :=
  match r with None => False | Some (Err _) => True | Some (Ok (_, p')) => ended p' /\ (size p' < size p)%nat end.

Lemma ends_mono {A} p p' (r : parsed A) : ends p' r -> (size p' <= size p)%nat -> ends p r.
Proof. destruct r as [[[a p1]|]|]; cbn [ends]; [|done..]. intros [? ?] ?. split; [done|lia]. Qed.

Lemma punct_ended s p p' b : ended p -> punct s p = (p', b) -> ended p' /\ (size p' <= size p)%nat /\ (b = true -> (size p' < size p)%nat).
Proof.
  intros He. unfold punct, at_punct. destruct (bool_decide _ && _) eqn:Eb; intros [= <- <-]; [|done]. apply andb_prop in Eb as [Eb%bool_decide_eq_true _].
  destruct (advance_ended p He). split; [done|]. split; [done|]. intros _. apply advance_shorter; [done|]. by rewrite Eb.
Qed.

Lemma kw_ended s p p' b : ended p -> kw s p = (p', b) -> ended p' /\ (size p' <= size p)%nat /\ (b = true -> (size p' < size p)%nat).
Proof.
  intros He. unfold kw, at_kw. destruct (bool_decide _ && _) eqn:Eb; intros [= <- <-]; [|done]. apply andb_prop in Eb as [Eb%bool_decide_eq_true _].
  destruct (advance_ended p He). split; [done|]. split; [done|]. intros _. apply advance_shorter; [done|]. by rewrite Eb.
Qed.

Lemma closed_ends {A} s msg (f : A -> AttributeValue) p (r : parsed A) : ends p r -> ends p (closed s msg f r).
Proof.
  destruct r as [[[a p1]|]|]; cbn [ends closed]; [|done..]. intros [He Hs]. destruct (punct s p1) as [p2 b] eqn:Ep. destruct (punct_ended s p1 p2 b He Ep) as (He2 & Hs2 & _).
  destruct b; [|done]. cbn [ends]. split; [done|lia].
Qed.

Section Entries.
Context (pv : P -> parsed AttributeValue) (n : nat) (Hpv : forall p, ended p -> (size p < n)%nat -> ends p (pv p)).

Lemma map_entries_ends fuel : forall m p, ended p -> (size p < n)%nat -> (size p < fuel)%nat -> ends p (map_entries pv fuel m p).
Proof.
  induction fuel as [|fuel IH]; intros m p He Hn Hf; [lia|]. cbn [map_entries]. destruct (bool_decide (pt (peek p) = Str)) eqn:Es; cbn [negb]; [|done]. apply bool_decide_eq_true in Es.
  destruct (advance_ended p He) as [He1 _]. pose proof (advance_shorter p He ltac:(by rewrite Es)) as Hs1. destruct (punct ":" (advance p)) as [p2 b] eqn:Ep.
  destruct (punct_ended _ _ _ _ He1 Ep) as (He2 & Hs2 & _). destruct b; cbn [negb]; [|done]. pose proof (Hpv p2 He2 ltac:(lia)) as Hv.
  destruct (pv p2) as [[[v p3]|]|]; cbn [ends] in Hv; [|done|done]. destruct Hv as [He3 Hs3]. destruct (punct "," p3) as [p4 b] eqn:Ep4.
  destruct (punct_ended _ _ _ _ He3 Ep4) as (He4 & Hs4 & _). destruct b; [|cbn [ends]; split; [done|lia]]. eapply ends_mono; [apply IH|]; try done; lia.
Qed.

Lemma list_entries_ends fuel : forall l p, ended p -> (size p < n)%nat -> (size p < fuel)%nat -> ends p (list_entries pv fuel l p).
Proof.
  induction fuel as [|fuel IH]; intros l p He Hn Hf; [lia|]. cbn [list_entries]. pose proof (Hpv p He Hn) as Hv.
  destruct (pv p) as [[[v p3]|]|]; cbn [ends] in Hv; [|done|done]. destruct Hv as [He3 Hs3]. destruct (punct "," p3) as [p4 b] eqn:Ep4.
  destruct (punct_ended _ _ _ _ He3 Ep4) as (He4 & Hs4 & _). destruct b; [|cbn [ends]; split; [done|lia]]. eapply ends_mono; [apply IH|]; try done; lia.
Qed.

Lemma value_step_ends fuel p : ended p -> (size p <= n)%nat -> (size p <= fuel)%nat -> ends p (value_step pv fuel p).
Proof.
  intros He Hn Hf. unfold value_step. destruct (advance_ended p He) as [He1 _].
  assert (Hstep : forall v, pt (peek p) <> End -> ends p (Some (Ok (v, advance p)) : parsed AttributeValue)) by (intros v Hp; cbn [ends]; split; [done|by apply advance_shorter]).
  destruct (pt (peek p)) eqn:Et; try (by apply Hstep); try done.
  - destruct (at_kw "TRUE" p); [by apply Hstep|]. destruct (at_kw "FALSE" p); [by apply Hstep|]. destruct (at_kw "NULL" p); [by apply Hstep|done].
  - destruct (params p) as [|v vs]; [done|]. cbn [ends]. split; [exact He1|]. change (size (advance p) < size p)%nat. apply advance_shorter; [done|]. by rewrite Et.
  - pose proof (advance_shorter p He ltac:(by rewrite Et)) as Hs. destruct (bytes_eqb _ _).
    + apply closed_ends. destruct (at_punct "}" (advance p)); [by cbn [ends]|]. eapply ends_mono; [apply map_entries_ends|]; try done; lia.
    + destruct (bytes_eqb _ _); [|done]. apply closed_ends. destruct (at_punct "]" (advance p)); [by cbn [ends]|]. eapply ends_mono; [apply list_entries_ends|]; try done; lia.
Qed.
End Entries.

Lemma parse_value_ends p : ended p -> ends p (parse_value p).
Proof.
  assert (Hf : forall fuel p, ended p -> (size p < fuel)%nat -> ends p (parse_value_fuel fuel p)).
  { induction fuel as [|fuel IH]; intros p0 He Hs; [lia|]. cbn [parse_value_fuel]. apply (value_step_ends _ fuel IH); [done|lia..]. }
  intros He. apply Hf; [done|]. unfold size. lia.
Qed.

(** The end of a conjunct or an assignment: [more] decides whether another follows. *)
Lemma where_ends fuel : forall conds p, ended p -> (size p < fuel)%nat -> ends p (where_loop fuel conds p).
Proof.
  induction fuel as [|fuel IH]; intros conds p He Hf; [lia|]. cbn [where_loop]. destruct (bool_decide (pt (peek p) = Ident)) eqn:Es; cbn [negb]; [|done]. apply bool_decide_eq_true in Es.
  destruct (advance_ended p He) as [He1 _]. pose proof (advance_shorter p He ltac:(by rewrite Es)) as Hs1. destruct (negb _); [done|]. destruct (advance_ended _ He1) as [He2 Hs2].
  pose proof (parse_value_ends _ He2) as Hv. destruct (parse_value _) as [[[v p3]|]|]; cbn [ends] in Hv; [|done|done]. destruct Hv as [He3 Hs3].
  destruct (kw "AND" p3) as [p4 b] eqn:Ep4. destruct (kw_ended _ _ _ _ He3 Ep4) as (He4 & Hs4 & _). destruct b; [|cbn [ends]; split; [done|lia]]. eapply ends_mono; [apply IH|]; try done; lia.
Qed.

Lemma set_ends fuel : forall sets p, ended p -> (size p < fuel)%nat -> ends p (set_loop fuel sets p).
Proof.
  induction fuel as [|fuel IH]; intros sets p He Hf; [lia|]. cbn [set_loop]. destruct (bool_decide (pt (peek p) = Ident)) eqn:Es; cbn [negb]; [|done]. apply bool_decide_eq_true in Es.
  destruct (advance_ended p He) as [He1 _]. pose proof (advance_shorter p He ltac:(by rewrite Es)) as Hs1. destruct (punct "=" _) as [p2 b] eqn:Ep. destruct (punct_ended _ _ _ _ He1 Ep) as (He2 & Hs2 & _).
  destruct b; cbn [negb]; [|done]. pose proof (parse_value_ends _ He2) as Hv. destruct (parse_value _) as [[[v p3]|]|]; cbn [ends] in Hv; [|done|done]. destruct Hv as [He3 Hs3].
  destruct (punct "," p3) as [p4 b] eqn:Ep4. destruct (punct_ended _ _ _ _ He3 Ep4) as (He4 & Hs4 & _). destruct b; [|cbn [ends]; split; [done|lia]]. eapply ends_mono; [apply IH|]; try done; lia.
Qed.

Lemma select_ends fuel : forall names p, ended p -> (size p < fuel)%nat -> ends p (select_names fuel names p).
Proof.
  induction fuel as [|fuel IH]; intros names p He Hf; [lia|]. cbn [select_names]. destruct (bool_decide (pt (peek p) = Ident)) eqn:Es; cbn [negb]; [|done]. apply bool_decide_eq_true in Es.
  destruct (advance_ended p He) as [He1 _]. pose proof (advance_shorter p He ltac:(by rewrite Es)) as Hs1. destruct (punct "," _) as [p2 b] eqn:Ep. destruct (punct_ended _ _ _ _ He1 Ep) as (He2 & Hs2 & _).
  destruct b; [|cbn [ends]; split; [done|lia]]. eapply ends_mono; [apply IH|]; try done; lia.
Qed.

(** ** Every statement is read *)

(** A parser in the middle of a statement that ends: what it returns is ended. *)
Definition settles {A} (r : parsed A) : Prop := match r with None => False | Some (Err _) => True | Some (Ok (_, p')) => ended p' end.

Lemma ends_settles {A} p (r : parsed A) : ends p r -> settles r.
Proof. destruct r as [[[a p1]|]|]; cbn; [|done..]. by intros [? _]. Qed.

Lemma parse_where_settles p : ended p -> settles (parse_where p).
Proof.
  intros He. unfold parse_where. destruct (kw "WHERE" p) as [p' []] eqn:Ek; destruct (kw_ended _ _ _ _ He Ek) as (He' & _ & _); [|done].
  eapply ends_settles, where_ends; [done|]. unfold size. lia.
Qed.

Lemma select_list_settles p : ended p -> settles (select_list p).
Proof.
  intros He. unfold select_list. destruct (punct "*" p) as [p' []] eqn:Ek; destruct (punct_ended _ _ _ _ He Ek) as (He' & _ & _); [done|].
  eapply ends_settles, select_ends; [done|]. unfold size. lia.
Qed.

Section Total.
Context {E : Type} {SE : StorageEngine E} (w : World E).

Lemma then_total {A} (r : parsed A) k : settles r -> (forall a p, ended p -> k a p <> None) -> then_ r k <> None.
Proof. destruct r as [[[a p]|]|]; cbn; [|done..]. intros He Hk. by apply Hk. Qed.

Lemma required_total k msg p f : ended p -> (forall p, ended p -> f p <> None) -> required k msg p f <> None.
Proof. intros He Hf. unfold required. destruct (kw k p) as [p' []] eqn:Ek; [|done]. apply Hf. by eapply kw_ended. Qed.

Lemma table_of_total p k : ended p -> (forall name def p, ended p -> k name def p <> None) -> table_of p w k <> None.
Proof. intros He Hk. unfold table_of. destruct (negb _); [done|]. destruct (find_table w _); [|done]. apply Hk. by apply advance_ended. Qed.

(** C32: every PartiQL statement is read to an end.  Whatever the text, the parameters and
    the tables, the tokenizer and the parsers of values, conditions, lists and
    assignments stop, so a statement is refused with an error or becomes a plan; the
    loops of the code never go round without consuming a token. *)
Theorem partiql_terminates statement parameters : plan_statement statement parameters w <> None.
Proof.
  unfold plan_statement, pql_tokenize. destruct (pql_loop_ends (length statement) statement (le_n _)) as (r & -> & Hl). destruct r as [toks|]; [|done].
  assert (He : ended {| rest := toks; params := parameters |}) by (by apply Hl). apply advance_ended in He as [He _].
  repeat match goal with |- (if ?b then _ else _) <> _ => destruct b end; [| | | |done];
    unfold plan_select, plan_insert, plan_update, plan_delete;
    repeat first [apply required_total; [done|intros ? ?]|apply table_of_total; [done|intros ? ? ? ?]|apply then_total;
      [first [by apply parse_where_settles|by apply select_list_settles|by eapply ends_settles, parse_value_ends|eapply ends_settles, set_ends; [done|unfold size; lia]]|intros ? ? ?]|progress cbn zeta];
    repeat match goal with |- (if ?b then _ else _) <> _ => destruct b | |- (match ?v with _ => _ end) <> _ => destruct v end; done.
Qed.
End Total.

(** ** What UPDATE and DELETE do with their conditions

    Only the equalities of WHERE are used, and only to find and to write the item: a
    condition with another operator is ignored, and an equality on an attribute that is
    not a key is no condition but an assignment. *)

Lemma conditions_other_than_equality_ignored conds c : op_is (cop c) "=" = false -> equalities (conds ++ [c]) = equalities conds.
Proof. intros Hc. unfold equalities. rewrite fold_left_app. cbn [fold_left]. by rewrite Hc. Qed.

(** Numbers compare equal by text: 1 > 1.0 holds and 1 = 1.0 does not. *)
Lemma number_texts_compared :
  pql_attr_compare (AV_N (lit "1")) (lit ">") (AV_N (lit "1.0")) = true /\ pql_attr_compare (AV_N (lit "1")) (lit "=") (AV_N (lit "1.0")) = false.
Proof. split; vm_compute; reflexivity. Qed.

(** Equal binary values compare as different. *)
Lemma binary_values_differ b : pql_attr_compare (AV_B b) (lit "=") (AV_B b) = false /\ pql_attr_compare (AV_B b) (lit "<>") (AV_B b) = true.
Proof. split; reflexivity. Qed.

End PartiQL.
