(* ===== verification/Admin.v ===== *)
(** * Streams, backups and global tables

    [src/api/handlers.cpp]: the handlers of the stream operations, of backups and of
    point-in-time recovery, and of global tables. *)

From Stdlib Require Import ZArith Lia Strings.String.
From stdpp Require Import prelude.
From S2P Require Import Prelude StdMap Ranges Types CLib KeyCodec Storage Streams TableManager NumberText Json TableJson Backups Dispatcher Api Handlers.
Import Json TableJson Api Handlers.

Module Admin.

(** ** Streams *)

Definition stream_view_type_str (v : StreamViewType) : bytes :=
  match v with
  | SV_KEYS_ONLY => lit "KEYS_ONLY"
  | SV_NEW_IMAGE => lit "NEW_IMAGE"
  | SV_OLD_IMAGE => lit "OLD_IMAGE"
  | SV_NEW_AND_OLD_IMAGES => lit "NEW_AND_OLD_IMAGES"
  end.

(** An image, when the record has it. *)
Definition image_json (name : bytes) (image : option AttributeMap) : option bytes :=
  match image with
  | Some i => option_map (fun x => q ",'" ++ name ++ q "':" ++ x) (serialize_item i)
  | None => Some []
  end.

Definition serialize_stream_record (r : Streams.StreamRecord) (view : StreamViewType) : option bytes :=
  match serialize_item (Streams.keys r), image_json (lit "NewImage") (Streams.new_image r), image_json (lit "OldImage") (Streams.old_image r) with
  | Some keys, Some new_image, Some old_image =>
      Some (q "{'eventID':'" ++ Streams.event_id r ++ q "','eventName':'" ++ Streams.event_name r ++
            q "','eventVersion':'1.1','eventSource':'aws:dynamodb','dynamodb':{" ++
            q "'ApproximateCreationDateTime':" ++ dec_of_nonneg (Streams.approximate_creation_date_time r) ++ q ",'Keys':" ++ keys ++ new_image ++ old_image ++
            q ",'SequenceNumber':'" ++ Streams.sequence_number r ++ q "'" ++ q ",'SizeBytes':" ++ dec_of_nonneg (Streams.size_bytes r) ++
            q ",'StreamViewType':'" ++ stream_view_type_str view ++ q "'}}")
  | _, _, _ => None
  end.

Definition shard_json (s : Streams.Shard) : bytes :=
  q "{'ShardId':'" ++ Streams.shard_id s ++ q "','SequenceNumberRange':{'StartingSequenceNumber':'" ++
  Streams.starting_sequence_number (Streams.sequence_number_range s) ++ q "'" ++
  match Streams.ending_sequence_number (Streams.sequence_number_range s) with
  | Some e => q ",'EndingSequenceNumber':'" ++ e ++ q "'"
  | None => []
  end ++ q "}}".

Definition serialize_stream_description (d : Streams.StreamDescription) : bytes :=
  q "{'StreamArn':'" ++ Streams.stream_arn d ++ q "','StreamLabel':'" ++ Streams.stream_label d ++ q "','StreamStatus':'" ++ Streams.stream_status d ++
  q "','StreamViewType':'" ++ stream_view_type_str (Streams.view_type d) ++ q "','CreationRequestDateTime':" ++ dec_of_nonneg (Streams.creation_request_date_time d) ++
  q ",'TableName':'" ++ Streams.stream_table_name d ++ q "','Shards':[" ++ commas (map shard_json (Streams.shards d)) ++ q "]}".

Definition stream_error (e : Streams.StreamError) : ApiResult :=
  match e with
  | Streams.ResourceNotFound => error 400 (lit "ResourceNotFoundException") (lit "Requested resource not found")
  | Streams.ExpiredIterator => error 400 (lit "ExpiredIteratorException") (lit "The shard iterator has expired")
  | Streams.LimitExceeded => error 400 (lit "LimitExceededException") (lit "Too many requests")
  | Streams.InternalError => error 500 (lit "InternalServerError") (lit "Stream operation failed")
  end.

Definition stream_entry_json (s : Streams.StreamDescription) : bytes :=
  q "{'StreamArn':'" ++ Streams.stream_arn s ++ q "','TableName':'" ++ Streams.stream_table_name s ++ q "','StreamLabel':'" ++ Streams.stream_label s ++ q "'}".

(** [order] lists the streams in the iteration order of the unordered map. *)
Definition handle_list_streams (order : list (bytes * Streams.StreamState)) (doc : Json) : ApiResult :=
  let res := Streams.list_streams order (get_string_at doc "TableName") (get_string_at doc "ExclusiveStartStreamArn") (default 100 (read_limit doc)) in
  ok (q "{'Streams':[" ++ commas (map stream_entry_json (Streams.streams res)) ++ q "]" ++
      match Streams.last_evaluated_stream_arn res with Some a => q ",'LastEvaluatedStreamArn':'" ++ a ++ q "'" | None => [] end ++ q "}").

Definition handle_describe_stream (m : Streams.StreamManager) (doc : Json) : ApiResult :=
  need arn := get_string_at doc "StreamArn" else bad_request (lit "StreamArn is required") in
  match Streams.describe_stream m arn with
  | Err e => stream_error e
  | Ok d => ok (q "{'StreamDescription':" ++ serialize_stream_description d ++ q "}")
  end.

Definition handle_get_shard_iterator (random : Z * Z) (steady : Z) (m : Streams.StreamManager) (doc : Json) : ApiResult * Streams.StreamManager :=
  match get_string_at doc "StreamArn", get_string_at doc "ShardId", get_string_at doc "ShardIteratorType" with
  | Some arn, Some shard, Some itype =>
      let '(m, res) := Streams.create_shard_iterator random steady m arn shard itype (get_string_at doc "SequenceNumber") in
      (match res with Err e => stream_error e | Ok id => ok (q "{'ShardIterator':'" ++ id ++ q "'}") end, m)
  | _, _, _ => (bad_request (lit "StreamArn, ShardId and ShardIteratorType are required"), m)
  end.

Fixpoint records_json (rs : list Streams.StreamRecord) : option (list bytes) :=
  match rs with
  | [] => Some []
  | r :: rs' => match serialize_stream_record r SV_NEW_AND_OLD_IMAGES with Some x => option_map (cons x) (records_json rs') | None => None end
  end.

Definition handle_get_records (steady : Z) (m : Streams.StreamManager) (doc : Json) : option (ApiResult * Streams.StreamManager) :=
  need it := get_string_at doc "ShardIterator" else Some (bad_request (lit "ShardIterator is required"), m) in
  match Streams.get_records steady m it (default 1000 (read_limit doc)) with
  | None => None
  | Some (m, Err e) => Some (stream_error e, m)
  | Some (m, Ok res) =>
      option_map (fun records =>
        (ok (q "{'Records':[" ++ commas records ++ q "]" ++
             match Streams.next_shard_iterator res with Some n => q ",'NextShardIterator':'" ++ n ++ q "'" | None => [] end ++ q "}"), m))
        (records_json (Streams.result_records res))
  end.

(** ** Backups *)

Definition serialize_backup_details (d : Backups.BackupDescription) : bytes :=
  let s := Backups.backup_summary d in
  q "{'BackupArn':'" ++ Backups.backup_arn s ++ q "','BackupName':'" ++ Backups.backup_name s ++ q "','BackupStatus':'" ++ Backups.backup_status s ++
  q "','BackupType':'" ++ Backups.backup_type s ++ q "','BackupCreationDateTime':" ++ dec_of_nonneg (Backups.backup_creation_datetime s) ++
  q ",'BackupSizeBytes':" ++ dec_of_nonneg (Backups.backup_size_bytes s) ++ q "}".

Definition serialize_backup_summary (s : Backups.BackupSummary) : bytes :=
  q "{'BackupArn':'" ++ Backups.backup_arn s ++ q "','BackupName':'" ++ Backups.backup_name s ++ q "','BackupStatus':'" ++ Backups.backup_status s ++
  q "','BackupType':'" ++ Backups.backup_type s ++ q "','TableName':'" ++ Backups.backup_table_name s ++
  q "','BackupCreationDateTime':" ++ dec_of_nonneg (Backups.backup_creation_datetime s) ++ q ",'BackupSizeBytes':" ++ dec_of_nonneg (Backups.backup_size_bytes s) ++ q "}".

Definition backup_missing (arn : bytes) : ApiResult := error 400 (lit "BackupNotFoundException") (lit "Backup not found: " ++ arn).

Definition handle_list_backups (m : Backups.BackupManager) (doc : Json) : ApiResult :=
  ok (q "{'BackupSummaries':[" ++ commas (map serialize_backup_summary (Backups.list_backups (default [] (get_string_at doc "TableName")) m)) ++ q "]}").

Definition backup_description_reply (d : Backups.BackupDescription) : ApiResult :=
  ok (q "{'BackupDescription':{'BackupDetails':" ++ serialize_backup_details d ++ q "}}").

Definition handle_describe_backup (m : Backups.BackupManager) (doc : Json) : ApiResult :=
  need arn := get_string_at doc "BackupArn" else bad_request (lit "BackupArn is required") in
  need d := Backups.describe_backup arn m else backup_missing arn in
  backup_description_reply d.

Definition handle_delete_backup (m : Backups.BackupManager) (doc : Json) : ApiResult * Backups.BackupManager :=
  need arn := get_string_at doc "BackupArn" else (bad_request (lit "BackupArn is required"), m) in
  need d := Backups.describe_backup arn m else (backup_missing arn, m) in
  (backup_description_reply d, (Backups.delete_backup arn m).2).

Definition rename_table (def : TableDefinition) (name : bytes) : TableDefinition :=
  {| table_name := name; key_schema := key_schema def; attribute_definitions := attribute_definitions def;
     billing_mode := billing_mode def; provisioned_throughput := provisioned_throughput def; table_class := table_class def;
     deletion_protection_enabled := deletion_protection_enabled def; creation_epoch_seconds := creation_epoch_seconds def;
     tags := tags def; local_secondary_indexes := local_secondary_indexes def; global_secondary_indexes := global_secondary_indexes def;
     stream_specification := stream_specification def; latest_stream_arn := latest_stream_arn def; latest_stream_label := latest_stream_label def;
     ttl_specification := ttl_specification def; point_in_time_recovery := point_in_time_recovery def |}.

Section Handlers.
Context {E : Type} {SE : StorageEngine E}.

(** [junk] is the uninitialised expiry time of a new backup. *)
Definition handle_create_backup (junk now : Z) (doc : Json) (m : Backups.BackupManager) (w : World E) : option (ApiResult * Backups.BackupManager) :=
  match get_string_at doc "TableName", get_string_at doc "BackupName" with
  | Some tname, Some bname =>
      need def := find_table w tname else Some (table_not_found tname, m) in
      let page := se_scan (storage w) tname None 0 in
      option_map (fun r => (ok (q "{'BackupDetails':" ++ serialize_backup_details r.1 ++ q "}"), r.2))
        (Backups.create_backup junk now tname bname def (items page) m)
  | _, _ => Some (bad_request (lit "TableName and BackupName are required"), m)
  end.

(** One item of a snapshot put back. *)
Definition restore_item (def : TableDefinition) (s : E) (item : AttributeMap) : E :=
  maintain_indexes (se_put s (table_name def) (encode_primary_key def item) item) def None (Some item).

Definition restore_into (def : TableDefinition) (target : bytes) (snapshot : list AttributeMap) (w : World E) : ApiResult * World E :=
  let def := rename_table def target in
  let '(t, created) := Tables.create_table (tables w) def in
  let w := set_tables w t in
  match created with
  | Err Tables.TableAlreadyExists => (error 400 (lit "TableAlreadyExistsException") (lit "Target table already exists: " ++ target), w)
  | Err _ => (error 500 (lit "InternalServerError") (lit "Failed to restore table"), w)
  | Ok created =>
      (ok (q "{'TableDescription':" ++ serialize_table_description created ++ q "}"),
       set_storage w (fold_left (restore_item created) snapshot (storage w)))
  end.

Definition handle_restore_table_from_backup (doc : Json) (m : Backups.BackupManager) (w : World E) : ApiResult * World E :=
  match get_string_at doc "BackupArn", get_string_at doc "TargetTableName" with
  | Some arn, Some target =>
      need snap := Backups.restore_backup arn m else (backup_missing arn, w) in
      restore_into (Backups.table_metadata (Backups.description snap)) target (Backups.snapshot_items snap) w
  | _, _ => (bad_request (lit "BackupArn and TargetTableName are required"), w)
  end.

Definition handle_restore_table_to_pit (doc : Json) (w : World E) : ApiResult * World E :=
  match get_string_at doc "SourceTableName", get_string_at doc "TargetTableName" with
  | Some source, Some target =>
      need def := find_table w source else (table_not_found source, w) in
      restore_into def target (items (se_scan (storage w) source None 0)) w
  | _, _ => (bad_request (lit "SourceTableName and TargetTableName are required"), w)
  end.

Definition handle_continuous_backups (update : bool) (doc : Json) (w : World E) : ApiResult :=
  need tname := get_string_at doc "TableName" else bad_request (lit "TableName is required") in
  need def := find_table w tname else table_not_found tname in
  let enabled := point_in_time_recovery_enabled (point_in_time_recovery def) in
  let enabled := if update : bool then
                   match at_key doc "PointInTimeRecoverySpecification" with
                   | Some pit => default enabled (get_bool_at pit "PointInTimeRecoveryEnabled")
                   | None => enabled
                   end
                 else enabled in
  ok (q "{'ContinuousBackupsDescription':{'ContinuousBackupsStatus':'ENABLED','PointInTimeRecoveryDescription':{'PointInTimeRecoveryStatus':'" ++
      lit (if enabled then "ENABLED" else "DISABLED") ++ q "'}}}").

(** ** Global tables *)

Definition global_table_json (name : bytes) : bytes :=
  q "{'GlobalTableName':'" ++ name ++ q "','ReplicationGroup':[{'RegionName':'ddblocal'}]}".

(** The operations that name a global table. *)
Definition named_global_table (doc : Json) (k : bytes -> ApiResult -> ApiResult) : ApiResult :=
  need name := get_string_at doc "GlobalTableName" else bad_request (lit "GlobalTableName is required") in
  k name (ok (q "{'GlobalTableDescription':{'GlobalTableName':'" ++ name ++
              q "','GlobalTableStatus':'ACTIVE','ReplicationGroup':[{'RegionName':'ddblocal'}]}}")).

Definition handle_global_table (op : Dispatcher.Operation) (doc : Json) (w : World E) : ApiResult :=
  match op with
  | Dispatcher.ListGlobalTables => ok (q "{'GlobalTables':[" ++ commas (map global_table_json (Tables.list_tables (tables w))) ++ q "]}")
  | Dispatcher.CreateGlobalTable => named_global_table doc (fun _ described => described)
  | Dispatcher.DescribeGlobalTable | Dispatcher.UpdateGlobalTable =>
      named_global_table doc (fun name described =>
        match find_table w name with
        | Some _ => described
        | None => error 400 (lit "GlobalTableNotFoundException") (lit "Global table not found: " ++ name)
        end)
  | _ => named_global_table doc (fun _ _ => error 501 (lit "NotImplementedException") (lit "Unsupported global table operation"))
  end.
End Handlers.
End Admin.
