(* ===== verification/Service.v ===== *)
(** * The request dispatcher of the server

    [handle_operation] of [src/api/handlers.cpp]: the body is parsed, capacity is taken,
    the handler of the operation runs, and the capacity and stream managers follow the
    life of tables.  The JSON parser (simdjson) is an argument; what the clocks and the
    random number generators return during a request is [Readings]. *)

From Stdlib Require Import ZArith Lia Strings.String Floats.SpecFloat.
From stdpp Require Import prelude.
From S2P Require Import Prelude StdMap Ranges Types CLib Double Storage Capacity Streams TableManager NumberText Json TableJson Backups Dispatcher Api Handlers Queries Reads Writes PartiQL Admin.
Import Json TableJson Api Handlers.

Module Service.

Record Readings := {
  request_env : Env;
  capacity_time : Z;
  bucket_times : Z * Z;
  sync_time : Z;
  backup_time : Z;
  backup_junk : Z;
  steady_time : Z;
  cache_times : Z * Z;
  iterator_random : Z * Z;
  stream_order : list (bytes * Streams.StreamState)
}.

Section Service.
Context {E : Type} {SE : StorageEngine E} {QE : QueryEngine E} (indeterminate : ProjectionType) (parse : bytes -> option Json).

Record Server := {
  world : World E;
  capacity : option Capacity.CapacityManager;
  backups : option Backups.BackupManager;
  completed : Writes.Idempotency.Cache
}.

Definition set_world (s : Server) (w : World E) : Server := {| world := w; capacity := capacity s; backups := backups s; completed := completed s |}.
Definition set_capacity (s : Server) (c : option Capacity.CapacityManager) : Server := {| world := world s; capacity := c; backups := backups s; completed := completed s |}.
Definition set_backups (s : Server) (b : option Backups.BackupManager) : Server := {| world := world s; capacity := capacity s; backups := b; completed := completed s |}.
Definition set_completed (s : Server) (c : Writes.Idempotency.Cache) : Server := {| world := world s; capacity := capacity s; backups := backups s; completed := c |}.

Definition is_read_op (op : Dispatcher.Operation) : bool :=
  match op with Dispatcher.GetItem | Dispatcher.Query | Dispatcher.Scan => true | _ => false end.

Definition is_write_op (op : Dispatcher.Operation) : bool :=
  match op with Dispatcher.PutItem | Dispatcher.UpdateItem | Dispatcher.DeleteItem => true | _ => false end.

Definition throttled : ApiResult :=
  error 400 (lit "ProvisionedThroughputExceededException") (lit "The level of configured provisioned throughput for the table was exceeded").

(** Whether the request may go on. *)
Definition take_capacity (r : Readings) (op : Dispatcher.Operation) (doc : Json) (s : Server) : Server * bool :=
  if is_read_op op || is_write_op op then
    match capacity s, get_string_at doc "TableName" with
    | Some m, Some table =>
        let '(m, consumed) := if is_read_op op then Capacity.consume_rcu (capacity_time r) table (dbl_of_Z 1) m
                              else Capacity.consume_wcu (capacity_time r) table (dbl_of_Z 1) m in
        (set_capacity s (Some m), match consumed with Err Capacity.ProvisionedThroughputExceeded => false | _ => true end)
    | _, _ => (s, true)
    end
  else (s, true).

Definition not_implemented (op : Dispatcher.Operation) : ApiResult :=
  error 501 (lit "NotImplementedException") (lit "Operation is recognized but not yet implemented by cynamoDB: " ++ Dispatcher.to_string op).

(** Handlers of the world, total or not, and of reads. *)
Definition runs (s : Server) (x : ApiResult * World E) : option (ApiResult * Server) := Some (x.1, set_world s x.2).
Definition may (s : Server) (x : reply E) : option (ApiResult * Server) := match x with Some x => runs s x | None => None end.
Definition reads (s : Server) (x : option ApiResult) : option (ApiResult * Server) := option_map (fun r => (r, s)) x.

(** An operation of the stream manager, when there is one. *)
Definition on_streams (op : Dispatcher.Operation) (s : Server) (f : Streams.StreamManager -> option (ApiResult * Streams.StreamManager)) : option (ApiResult * Server) :=
  match streams (world s) with
  | Some m => option_map (fun x => (x.1, set_world s (set_streams (world s) (Some x.2)))) (f m)
  | None => Some (not_implemented op, s)
  end.

Definition on_backups (op : Dispatcher.Operation) (s : Server) (f : Backups.BackupManager -> option (ApiResult * Server)) : option (ApiResult * Server) :=
  match backups s with Some m => f m | None => Some (not_implemented op, s) end.

(** The switch. *)
Definition dispatch (r : Readings) (op : Dispatcher.Operation) (raw : bytes) (doc : Json) (s : Server) : option (ApiResult * Server) :=
  let w := world s in
  let env := request_env r in
  match op with
  | Dispatcher.CreateTable => runs s (handle_create_table indeterminate doc w)
  | Dispatcher.DescribeTable => runs s (handle_describe_table doc w)
  | Dispatcher.DeleteTable => runs s (handle_delete_table doc w)
  | Dispatcher.UpdateTable => runs s (handle_update_table doc w)
  | Dispatcher.UpdateTimeToLive => runs s (handle_update_time_to_live doc w)
  | Dispatcher.DescribeTimeToLive => runs s (handle_describe_time_to_live doc w)
  | Dispatcher.ListTables => runs s (handle_list_tables w)
  | Dispatcher.PutItem => may s (handle_put_item env doc w)
  | Dispatcher.GetItem => may s (handle_get_item env doc w)
  | Dispatcher.DeleteItem => may s (handle_delete_item env doc w)
  | Dispatcher.UpdateItem => may s (handle_update_item env doc w)
  | Dispatcher.Scan => reads s (Reads.handle_scan env doc w)
  | Dispatcher.Query => reads s (Reads.handle_query env doc w)
  | Dispatcher.BatchWriteItem => may s (Writes.handle_batch_write_item env doc w)
  | Dispatcher.BatchGetItem => reads s (Reads.handle_batch_get_item env doc w)
  | Dispatcher.TransactWriteItems =>
      option_map (fun x => (x.1.1, set_completed (set_world s x.2) x.1.2))
        (Writes.handle_transact_write_items env (cache_times r).1 (cache_times r).2 raw doc (completed s) w)
  | Dispatcher.TransactGetItems => reads s (Reads.handle_transact_get_items env doc w)
  | Dispatcher.ExecuteStatement => may s (PartiQL.handle_execute_statement env doc w)
  | Dispatcher.BatchExecuteStatement => may s (PartiQL.handle_batch_execute_statement env doc w)
  | Dispatcher.ListStreams => on_streams op s (fun m => Some (Admin.handle_list_streams (stream_order r) doc, m))
  | Dispatcher.DescribeStream => on_streams op s (fun m => Some (Admin.handle_describe_stream m doc, m))
  | Dispatcher.GetShardIterator => on_streams op s (fun m => Some (Admin.handle_get_shard_iterator (iterator_random r) (steady_time r) m doc))
  | Dispatcher.GetRecords => on_streams op s (fun m => Admin.handle_get_records (steady_time r) m doc)
  | Dispatcher.CreateBackup =>
      on_backups op s (fun m => option_map (fun x => (x.1, set_backups s (Some x.2))) (Admin.handle_create_backup (backup_junk r) (backup_time r) doc m w))
  | Dispatcher.ListBackups => on_backups op s (fun m => Some (Admin.handle_list_backups m doc, s))
  | Dispatcher.DescribeBackup => on_backups op s (fun m => Some (Admin.handle_describe_backup m doc, s))
  | Dispatcher.DeleteBackup => on_backups op s (fun m => let '(res, m) := Admin.handle_delete_backup m doc in Some (res, set_backups s (Some m)))
  | Dispatcher.RestoreTableFromBackup => on_backups op s (fun m => runs s (Admin.handle_restore_table_from_backup doc m w))
  | Dispatcher.RestoreTableToPointInTime => runs s (Admin.handle_restore_table_to_pit doc w)
  | Dispatcher.UpdateContinuousBackups => Some (Admin.handle_continuous_backups true doc w, s)
  | Dispatcher.DescribeContinuousBackups => Some (Admin.handle_continuous_backups false doc w, s)
  | Dispatcher.CreateGlobalTable | Dispatcher.DescribeGlobalTable | Dispatcher.UpdateGlobalTable | Dispatcher.ListGlobalTables =>
      Some (Admin.handle_global_table op doc w, s)
  | Dispatcher.Unknown => Some (error 400 (lit "UnknownOperationException") (lit "Unknown operation requested of cynamoDB"), s)
  | _ => Some (not_implemented op, s)
  end.

(** A table that was created: its buckets and its stream. *)
Definition register (r : Readings) (name : bytes) (s : Server) : option Server :=
  match find_table (world s) name with
  | None => Some s
  | Some def =>
      let s := set_capacity s (option_map (Capacity.register_table (bucket_times r).1 (bucket_times r).2 def) (capacity s)) in
      match streams (world s) with
      | None => Some s
      | Some m => option_map (fun m => set_world s (set_streams (world s) (Some m))) (Streams.sync_table (sync_time r) def m)
      end
  end.

Definition unregister (name : bytes) (s : Server) : Server :=
  let s := set_capacity s (option_map (Capacity.unregister_table name) (capacity s)) in
  set_world s (set_streams (world s) (option_map (Streams.remove_table name) (streams (world s)))).

(** The managers after a change of the tables. *)
Definition follow (r : Readings) (op : Dispatcher.Operation) (doc : Json) (s : Server) : option Server :=
  match op with
  | Dispatcher.CreateTable | Dispatcher.UpdateTable =>
      match get_string_at doc "TableName" with Some name => register r name s | None => Some s end
  | Dispatcher.DeleteTable => match get_string_at doc "TableName" with Some name => Some (unregister name s) | None => Some s end
  | Dispatcher.RestoreTableFromBackup | Dispatcher.RestoreTableToPointInTime =>
      match get_string_at doc "TargetTableName" with Some name => register r name s | None => Some s end
  | _ => Some s
  end.

Definition handle_operation (r : Readings) (op : Dispatcher.Operation) (raw : bytes) (s : Server) : option (ApiResult * Server) :=
  need doc := parse (match raw with [] => lit "{}" | _ => raw end)
    else Some (error 400 (lit "SerializationException") (lit "Could not parse the request body as JSON"), s) in
  let '(s, admitted) := take_capacity r op doc s in
  if negb admitted then Some (throttled, s)
  else
    need (result, s) := dispatch r op raw doc s else None in
    if status result =? 200 then option_map (pair result) (follow r op doc s) else Some (result, s).
End Service.
Arguments Server : clear implicits.
End Service.
