(* ===== verification/IndexSync.v ===== *)
(** * Secondary indexes follow their table

    The handlers of PutItem, DeleteItem and UpdateItem keep every secondary index equal
    to the projection of its table.  The proof is against the laws of the engine
    interface, so it holds for both engines. *)

From Stdlib Require Import ZArith Lia Strings.String Floats.SpecFloat.
From stdpp Require Import prelude.
From S2P Require Import Prelude StdMap Ranges Types CLib KeyCodec Validator Storage MemoryEngine Lexer Parser Evaluator UpdateExpression Streams TableManager RecordCodec NumberText Base64 Json TableJson Api Handlers.
Import Json TableJson Api Handlers.

Module IndexSync.

(** ** Storage keys determine their components *)

(** What an attribute contributes to a storage key. *)
Definition slot_code (o : option AttrPtr) : bytes := match o with Some (Some v) => component v | _ => [Byte.x00; Byte.x00] end.

Definition codes (schema : list KeySchemaElement) (item : AttributeMap) : list bytes := map (fun ks => slot_code (mget (attribute_name ks) item)) schema.

Lemma encode_components_eq schema item : forall out, encode_components schema item out = out ++ concat (codes schema item).
Proof.
  unfold encode_components, codes. induction schema as [|ks schema IH]; intros out; cbn [fold_left map concat]; [by rewrite app_nil_r|]. rewrite IH.
  destruct (mget (attribute_name ks) item) as [[v|]|]; cbn [slot_code]; rewrite ?encode_key_component_eq, <- ?app_assoc; reflexivity.
Qed.

Lemma primary_key_codes def item : encode_primary_key def item = concat (codes (key_schema def) item).
Proof. apply (encode_components_eq (key_schema def) item []). Qed.

Lemma index_key_codes idx def item :
  encode_index_storage_key idx def item = concat (codes (index_key_schema idx) item) ++ encode_primary_key def item.
Proof. unfold encode_index_storage_key. rewrite !encode_components_eq, primary_key_codes. done. Qed.

Lemma escape_code a b r1 r2 : KeyCodec.escape a ++ r1 = KeyCodec.escape b ++ r2 -> a = b /\ r1 = r2.
Proof.
  intros E. apply bytes_cmp_eq in E. rewrite escape_cmp in E. destruct (bytes_cmp a b) eqn:Ea; try done. split; by apply bytes_cmp_eq.
Qed.

(** The shape of a component: a tag that determines how the rest is read. *)
Lemma number_code s : exists bs, component (AV_N s) = Byte.x4e :: bs /\ length bs = 8%nat.
Proof.
  unfold component. cbn [encode_key_component]. rewrite append_number_eq by apply strtod_valid. eexists. split; [reflexivity|].
  pose proof (be_bytes_len (ordered_bits (strtod s)) 8) as H. unfold len in H. lia.
Qed.

Lemma escaped_component tag (s : bytes) : append_escaped ([] ++ tag) s = tag ++ KeyCodec.escape s.
Proof. by rewrite append_escaped_eq. Qed.

Lemma slot_code_split a b r1 r2 : slot_code a ++ r1 = slot_code b ++ r2 -> slot_code a = slot_code b /\ r1 = r2.
Proof.
  assert (Hn : forall s v r1 r2, component (AV_N s) ++ r1 = component v ++ r2 -> (forall t, v <> AV_N t) -> False).
  { intros s v r r' E Hv. destruct (number_code s) as (bs & Ec & _). rewrite Ec in E. unfold component in E.
    destruct v; cbn [encode_key_component] in E; rewrite ?escaped_component in E; try discriminate E. by apply (Hv s0). }
  assert (Hnil : forall v r1 r2, component v ++ r1 = [Byte.x00; Byte.x00] ++ r2 -> False).
  { intros v r r' E. destruct v; try (destruct (number_code s) as (bs & Ec & _); by rewrite Ec in E);
      unfold component in E; cbn [encode_key_component] in E; rewrite ?escaped_component in E; discriminate E. }
  destruct a as [[a|]|], b as [[b|]|]; cbn [slot_code]; try (intros E; by apply Hnil in E); try (intros E; symmetry in E; by apply Hnil in E);
    try (intros [= ->]; done).
  intros E. destruct a, b; try (exfalso; eapply Hn; [exact E|done]); try (exfalso; symmetry in E; eapply Hn; [exact E|done]);
    try (unfold component in E |- *; cbn [encode_key_component] in E |- *; rewrite ?escaped_component in E |- *; try discriminate E; cbn [app] in E; injection E as E; try (by subst);
         apply escape_code in E as [-> ->]; done).
  destruct (number_code s) as (bs & Ec & Hl), (number_code s0) as (bs0 & Ec0 & Hl0). rewrite Ec, Ec0 in E |- *. injection E as E.
  apply app_inj_1 in E as [-> ->]; [done|lia].
Qed.

Lemma codes_split schema i1 i2 r1 r2 : concat (codes schema i1) ++ r1 = concat (codes schema i2) ++ r2 -> codes schema i1 = codes schema i2 /\ r1 = r2.
Proof.
  induction schema as [|ks schema IH]; [done|]. cbn [codes map concat]. fold (codes schema i1) (codes schema i2). rewrite <- !app_assoc.
  intros E. apply slot_code_split in E as [-> E]. apply IH in E as [-> ->]. done.
Qed.

(** An index entry belongs to one row of the table. *)
Lemma index_key_primary idx def i1 i2 : encode_index_storage_key idx def i1 = encode_index_storage_key idx def i2 ->
  encode_primary_key def i1 = encode_primary_key def i2.
Proof. rewrite !index_key_codes. intros E. by apply codes_split in E as [_ ->]. Qed.

(** ** The contents of an index *)

Definition index_table (def : TableDefinition) (idx : IndexSpec) : bytes := index_storage_table (table_name def) (index_name idx).

(** Rows with [new] at [pk]. *)
Definition alter (pk : bytes) (new : option AttributeMap) (rows : list (bytes * AttributeMap)) : list (bytes * AttributeMap) :=
  match new with Some item => mset pk item rows | None => mdel pk rows end.

Lemma mget_alter pk new rows k : mget k (alter pk new rows) = if keqb k pk then new else mget k rows.
Proof. unfold alter. destruct new; [apply mget_mset|apply mget_mdel]. Qed.

(** [a] is the entry under [k] that some row of the table has. *)
Definition entry (def : TableDefinition) (idx : IndexSpec) (rows : list (bytes * AttributeMap)) (k : bytes) (a : AttributeMap) : Prop :=
  exists pk item, mget pk rows = Some item /\ project_for_index item idx def = Some a /\ encode_index_storage_key idx def item = k.

Definition index_exact (def : TableDefinition) (idx : IndexSpec) (rows irows : list (bytes * AttributeMap)) : Prop :=
  forall k a, mget k irows = Some a <-> entry def idx rows k a.

Definition keyed (def : TableDefinition) (rows : list (bytes * AttributeMap)) : Prop := forall pk item, mget pk rows = Some item -> pk = encode_primary_key def item.

(** What the turn of one index does to its rows. *)
Definition maintained (def : TableDefinition) (idx : IndexSpec) (old new : option AttributeMap) (irows : list (bytes * AttributeMap)) : list (bytes * AttributeMap) :=
  let irows := match old with
               | Some o => if project_for_index o idx def is Some _ then mdel (encode_index_storage_key idx def o) irows else irows
               | None => irows
               end in
  match new with
  | Some n => match project_for_index n idx def with Some proj => mset (encode_index_storage_key idx def n) proj irows | None => irows end
  | None => irows
  end.

Lemma maintained_exact def idx pk old new rows irows : keyed def rows -> mget pk rows = old -> (forall n, new = Some n -> pk = encode_primary_key def n) ->
  index_exact def idx rows irows -> index_exact def idx (alter pk new rows) (maintained def idx old new irows).
Proof.
  intros Hk Hold Hnew Hex k a.
  assert (Hk' : keyed def (alter pk new rows)).
  { intros pk2 i2. rewrite mget_alter. destruct (keqb_spec pk2 pk) as [->|]; [apply Hnew|apply Hk]. }
  assert (Hof : forall n, new = Some n -> forall pk2 i2, mget pk2 (alter pk new rows) = Some i2 -> encode_index_storage_key idx def i2 = encode_index_storage_key idx def n -> i2 = n).
  { intros n En pk2 i2 H2 E. apply index_key_primary in E. rewrite <- (Hnew n En), <- (Hk' _ _ H2) in E. subst pk2. rewrite mget_alter, keqb_refl in H2. congruence. }
  assert (Hmid : forall k a, (forall n, new = Some n -> project_for_index n idx def <> None -> k <> encode_index_storage_key idx def n) ->
    (mget k (match old with Some o => if project_for_index o idx def is Some _ then mdel (encode_index_storage_key idx def o) irows else irows | None => irows end) = Some a <->
     entry def idx (alter pk new rows) k a)).
  { intros k' a' Hne.
    assert (Hrest : (forall o, old = Some o -> project_for_index o idx def <> None -> k' <> encode_index_storage_key idx def o) -> (mget k' irows = Some a' <-> entry def idx (alter pk new rows) k' a')).
    { intros Hno. rewrite (Hex k' a'). split; intros (pk2 & i2 & H2 & Hp & E); exists pk2, i2; rewrite mget_alter in *; destruct (keqb_spec pk2 pk) as [->|]; try done.
      - exfalso. rewrite Hold in H2. apply (Hno i2 H2); [congruence|done].
      - exfalso. apply (Hne i2 H2); [congruence|done]. }
    destruct old as [o|] eqn:Eo; [|apply Hrest; done]. destruct (project_for_index o idx def) as [po|] eqn:Ep.
    - rewrite mget_mdel. destruct (keqb_spec k' (encode_index_storage_key idx def o)) as [->|Hko]; [|apply Hrest; intros ? [= <-]; done].
      split; [done|]. intros (pk2 & i2 & H2 & Hp & E). exfalso. pose proof (index_key_primary _ _ _ _ E) as Epk. rewrite <- (Hk _ _ Hold), <- (Hk' _ _ H2) in Epk. subst pk2.
      pose proof H2 as H2'. rewrite mget_alter, keqb_refl in H2'. apply (Hne i2 H2'); [congruence|done].
    - apply Hrest. intros ? [= <-]. done. }
  unfold maintained. destruct new as [n|] eqn:En; [|apply Hmid; done].
  destruct (project_for_index n idx def) as [pn|] eqn:Ep; [|apply Hmid; intros ? [= <-]; done].
  rewrite mget_mset. destruct (keqb_spec k (encode_index_storage_key idx def n)) as [->|Hkn]; [|apply Hmid; intros ? [= <-]; done].
  split.
  - intros [= <-]. exists pk, n. rewrite mget_alter, keqb_refl. done.
  - intros (pk2 & i2 & H2 & Hp & E). rewrite (Hof n eq_refl pk2 i2 H2 E) in Hp. congruence.
Qed.

(** ** One write *)

Section Sync.
Context {E : Type} {SE : StorageEngine E} {SL : StorageLaws E}.

(** The tables of the engine that hold the rows of [def] and of its indexes. *)
Definition owns (def : TableDefinition) (t : bytes) : Prop := t = table_name def \/ exists idx, idx ∈ all_indexes def /\ t = index_table def idx.

(** The engine can store the item and its index entries. *)
Definition storable (def : TableDefinition) (item : AttributeMap) : Prop :=
  se_admits (table_name def) (encode_primary_key def item) item /\
  forall idx proj, idx ∈ all_indexes def -> project_for_index item idx def = Some proj ->
    se_admits (index_table def idx) (encode_index_storage_key idx def item) proj.

(** No name of the table holds the separator of index tables, and index names differ. *)
Record table_ok (def : TableDefinition) : Prop := {
  ok_name : Byte.x1d ∉ table_name def;
  ok_distinct : NoDup (map index_name (all_indexes def));
  ok_nameable : forall t, owns def t -> se_names t []
}.

Lemma index_table_inj d1 d2 i1 i2 : Byte.x1d ∉ table_name d1 -> Byte.x1d ∉ table_name d2 -> index_table d1 i1 = index_table d2 i2 ->
  table_name d1 = table_name d2 /\ index_name i1 = index_name i2.
Proof.
  unfold index_table, index_storage_table. generalize (table_name d1) (table_name d2). intros a. induction a as [|x a IH]; intros [|y b] H1 H2; cbn [app].
  - by intros [= ->].
  - intros [= <- _]. set_solver.
  - intros [= -> _]. set_solver.
  - intros [= -> Eb]. destruct (IH b) as [-> ->]; [set_solver..|]; done.
Qed.

Lemma index_table_sep def idx : Byte.x1d ∈ index_table def idx.
Proof. unfold index_table, index_storage_table. set_solver. Qed.

Lemma owns_disjoint d1 d2 t : table_ok d1 -> table_ok d2 -> owns d1 t -> owns d2 t -> table_name d1 = table_name d2.
Proof.
  intros [H1 _ _] [H2 _ _] [->|(i1 & _ & ->)] [E2|(i2 & _ & E2)]; [done| | |by apply index_table_inj in E2 as [? _]].
  - exfalso. apply H1. rewrite E2. apply index_table_sep.
  - exfalso. apply H2. rewrite <- E2. apply index_table_sep.
Qed.

(** The state after one index had its turn. *)
Lemma maintain_index_rows def old new e idx : se_inv e -> table_ok def -> idx ∈ all_indexes def ->
  (forall o, old = Some o -> storable def o) -> (forall n, new = Some n -> storable def n) ->
  let e' := maintain_index def old new e idx in
  se_inv e' /\ forall t, se_names t [] ->
    se_rows e' t = if bytes_eqb (index_table def idx) t then maintained def idx old new (se_rows e t) else se_rows e t.
Proof.
  intros He Hd Hin Hold Hnew. unfold maintain_index, maintained. fold (index_table def idx).
  assert (H1 : let e1 := match old with Some o => match project_for_index o idx def with Some _ => se_remove e (index_table def idx) (encode_index_storage_key idx def o) | None => e end | None => e end in
    se_inv e1 /\ forall t, se_names t [] -> se_rows e1 t = if bytes_eqb (index_table def idx) t
      then match old with Some o => if project_for_index o idx def is Some _ then mdel (encode_index_storage_key idx def o) (se_rows e t) else se_rows e t | None => se_rows e t end else se_rows e t).
  { destruct old as [o|]; [|split; [done|intros; by destruct (bytes_eqb _ _)]]. destruct (project_for_index o idx def) as [po|] eqn:Ep; [|split; [done|intros; by destruct (bytes_eqb _ _)]].
    assert (Hn : se_names (index_table def idx) (encode_index_storage_key idx def o)) by (eapply se_admits_names, (Hold o eq_refl); eauto).
    split; [by apply se_remove_inv|]. intros t Ht. rewrite se_remove_rows by done. by destruct (bytes_eqb_spec (index_table def idx) t) as [<-|]. }
  set (e1 := match old with Some o => _ | None => e end) in *. destruct H1 as [Hi Hr].
  destruct new as [n|]; [|done]. destruct (project_for_index n idx def) as [pn|] eqn:Ep; [|done].
  assert (Ha : se_admits (index_table def idx) (encode_index_storage_key idx def n) pn) by (eapply (Hnew n eq_refl); eauto).
  split; [by apply se_put_inv|]. intros t Ht. rewrite se_put_rows by done. destruct (bytes_eqb_spec (index_table def idx) t) as [<-|]; rewrite Hr by eauto using se_names_table, se_admits_names.
  - by rewrite bytes_eqb_refl.
  - by destruct (bytes_eqb_spec (index_table def idx) t).
Qed.

Lemma maintain_loop_rows def old new : table_ok def -> (forall o, old = Some o -> storable def o) -> (forall n, new = Some n -> storable def n) ->
  forall idxs e, NoDup (map index_name idxs) -> (forall idx, idx ∈ idxs -> idx ∈ all_indexes def) -> se_inv e ->
  let e' := fold_left (maintain_index def old new) idxs e in
  se_inv e' /\
  (forall idx, idx ∈ idxs -> se_rows e' (index_table def idx) = maintained def idx old new (se_rows e (index_table def idx))) /\
  (forall t, se_names t [] -> (forall idx, idx ∈ idxs -> t <> index_table def idx) -> se_rows e' t = se_rows e t).
Proof.
  intros Hd Hold Hnew. induction idxs as [|i idxs IH]; intros e Hnd Hin He; [split; [done|]; split; [set_solver|done]|].
  cbn [map] in Hnd. apply NoDup_cons in Hnd as [Hni Hnd].
  destruct (maintain_index_rows def old new e i He Hd ltac:(set_solver) Hold Hnew) as [Hi Hr].
  destruct (IH (maintain_index def old new e i) Hnd ltac:(set_solver) Hi) as (Hi' & Hx & Hf). cbn [fold_left]. split; [done|].
  assert (Hne : forall idx, idx ∈ idxs -> index_table def i <> index_table def idx).
  { intros idx Hidx [_ En]%index_table_inj; [|apply Hd..]. apply Hni. rewrite En. apply list_elem_of_fmap. eauto. }
  assert (Hown : forall idx, idx ∈ i :: idxs -> se_names (index_table def idx) []) by (intros idx Hidx; apply Hd; right; eauto).
  split.
  - intros idx [->|Hidx]%elem_of_cons.
    + rewrite Hf, Hr, bytes_eqb_refl; [done|apply Hown; set_solver..|]. intros idx Hidx. by apply Hne.
    + rewrite Hx, Hr by (first [done|apply Hown; set_solver]). by destruct (bytes_eqb_spec (index_table def i) (index_table def idx)) as [E0%Hne|].
  - intros t Ht Hno. rewrite Hf, Hr by set_solver. destruct (bytes_eqb_spec (index_table def i) t) as [E0|]; [|done]. exfalso. apply (Hno i); [set_solver|done].
Qed.

(** [e'] is [e] with [new] as the row at [pk] of [def] and every index brought up to date. *)
Record written (def : TableDefinition) (pk : bytes) (new : option AttributeMap) (e e' : E) : Prop := {
  w_inv : se_inv e';
  w_rows : se_rows e' (table_name def) = alter pk new (se_rows e (table_name def));
  w_index : forall idx, idx ∈ all_indexes def ->
    se_rows e' (index_table def idx) = maintained def idx (mget pk (se_rows e (table_name def))) new (se_rows e (index_table def idx));
  w_frame : forall t, se_names t [] -> ~ owns def t -> se_rows e' t = se_rows e t
}.

Lemma index_table_name def idx : table_ok def -> index_table def idx <> table_name def.
Proof. intros Hd E0. apply (ok_name def Hd). rewrite <- E0. apply index_table_sep. Qed.

(** An engine that has the row written but not the indexes. *)
Record row_written (def : TableDefinition) (pk : bytes) (new : option AttributeMap) (e e' : E) : Prop := {
  rw_inv : se_inv e';
  rw_rows : forall t, se_names t [] -> se_rows e' t = if bytes_eqb (table_name def) t then alter pk new (se_rows e t) else se_rows e t
}.

Lemma maintain_written def pk new e e' : table_ok def -> row_written def pk new e e' ->
  (forall o, mget pk (se_rows e (table_name def)) = Some o -> storable def o) -> (forall n, new = Some n -> storable def n) ->
  written def pk new e (maintain_indexes e' def (mget pk (se_rows e (table_name def))) new).
Proof.
  intros Hd [Hi Hr] Hold Hnew.
  destruct (maintain_loop_rows def _ new Hd Hold Hnew (all_indexes def) e' (ok_distinct def Hd) ltac:(done) Hi) as (Hi' & Hx & Hf).
  assert (Hn : se_names (table_name def) []) by (apply Hd; by left).
  assert (Hni : forall idx, idx ∈ all_indexes def -> se_names (index_table def idx) []) by (intros idx ?; apply Hd; right; eauto).
  unfold maintain_indexes. split; [done| | |].
  - rewrite Hf, Hr, bytes_eqb_refl; [done..|]. intros idx _ E0. by apply (index_table_name def idx Hd).
  - intros idx Hidx. rewrite Hx, Hr by auto. destruct (bytes_eqb_spec (table_name def) (index_table def idx)) as [E0|]; [|done]. by destruct (index_table_name def idx Hd).
  - intros t Ht Hno. rewrite Hf, Hr; [|done..|].
    + destruct (bytes_eqb_spec (table_name def) t) as [<-|]; [|done]. exfalso. apply Hno. by left.
    + intros idx Hidx ->. apply Hno. right. eauto.
Qed.

(** ** Consistent servers *)

(** Every index is exact, every row is under its key, and nothing else is stored. *)
Record consistent (tabs : list (bytes * TableDefinition)) (e : E) : Prop := {
  c_inv : se_inv e;
  c_def : forall name def, mget name tabs = Some def -> name = table_name def /\ table_ok def;
  c_keyed : forall name def, mget name tabs = Some def -> keyed def (se_rows e name);
  c_storable : forall name def pk item, mget name tabs = Some def -> mget pk (se_rows e name) = Some item -> storable def item;
  c_index : forall name def idx, mget name tabs = Some def -> idx ∈ all_indexes def ->
    index_exact def idx (se_rows e name) (se_rows e (index_table def idx));
  c_rest : forall t, se_names t [] -> (forall name def, mget name tabs = Some def -> ~ owns def t) -> se_rows e t = []
}.

Lemma written_consistent tabs def pk new e e' : consistent tabs e -> mget (table_name def) tabs = Some def ->
  (forall n, new = Some n -> storable def n /\ pk = encode_primary_key def n) -> written def pk new e e' -> consistent tabs e'.
Proof.
  intros [Hi Hdef Hk Hst Hx Hrest] Ht Hnew [Wi Wr Wx Wf]. pose proof (Hdef _ _ Ht) as [_ Hd].
  assert (Hother : forall name2 d2 t, mget name2 tabs = Some d2 -> name2 <> table_name def -> owns d2 t -> se_rows e' t = se_rows e t).
  { intros name2 d2 t H2 Hne Ho. destruct (Hdef _ _ H2) as [-> Hd2]. apply Wf; [by apply Hd2|]. intros Ho'. apply Hne. eapply owns_disjoint; eauto. }
  assert (Hname : forall name2 d2, mget name2 tabs = Some d2 -> owns d2 name2) by (intros ? ? H2; left; by apply Hdef).
  split; [done|done| | | |].
  - intros name2 d2 H2. destruct (decide (name2 = table_name def)) as [->|Hne]; [|rewrite (Hother _ _ _ H2) by eauto; by apply Hk].
    assert (d2 = def) as -> by congruence. rewrite Wr. intros pk2 i2. rewrite mget_alter. destruct (keqb_spec pk2 pk) as [->|]; [apply Hnew|by apply Hk].
  - intros name2 d2 pk2 i2 H2. destruct (decide (name2 = table_name def)) as [->|Hne]; [|rewrite (Hother _ _ _ H2) by eauto; by apply Hst].
    assert (d2 = def) as -> by congruence. rewrite Wr, mget_alter. destruct (keqb_spec pk2 pk) as [->|]; [apply Hnew|by apply Hst].
  - intros name2 d2 idx H2 Hidx. destruct (decide (name2 = table_name def)) as [->|Hne].
    + assert (d2 = def) as -> by congruence. rewrite Wr, Wx by done. apply maintained_exact; auto. intros n En. by apply Hnew.
    + rewrite !(Hother _ _ _ H2) by (first [done|by eauto|right; eauto]). by apply Hx.
  - intros t Hn Ho. rewrite Wf by eauto. auto.
Qed.

(** ** Writing through the engine *)

(** What may be written under [pk]. *)
Definition writable (def : TableDefinition) (pk : bytes) (new : option AttributeMap) : Prop :=
  se_names (table_name def) pk /\ forall n, new = Some n -> storable def n /\ pk = encode_primary_key def n.

Lemma storable_writable def item : storable def item -> writable def (encode_primary_key def item) (Some item).
Proof. intros H. split; [by eapply se_admits_names, H|]. by intros n [= <-]. Qed.

Section Consistent.
Context (tabs : list (bytes * TableDefinition)) (e : E) (He : consistent tabs e) (def : TableDefinition) (Hdef : mget (table_name def) tabs = Some def) (pk : bytes).

Let old := mget pk (se_rows e (table_name def)).

Lemma maintained_consistent new e' : row_written def pk new e e' -> writable def pk new -> consistent tabs (maintain_indexes e' def old new).
Proof.
  intros Hw [Hn Hnew]. destruct (c_def tabs e He _ _ Hdef) as [_ Hd]. eapply written_consistent; [exact He|done|exact Hnew|].
  apply maintain_written; [done|done| |intros n ->; by apply Hnew]. intros o Ho. by eapply (c_storable tabs e He).
Qed.

Lemma put_row_written item : writable def pk (Some item) -> row_written def pk (Some item) e (se_put e (table_name def) pk item).
Proof.
  intros [Hn Hnew]. destruct (Hnew item eq_refl) as [[Ha _] Epk]. rewrite <- Epk in Ha. split; [by apply se_put_inv; [apply He|]|].
  intros t Ht. rewrite se_put_rows by (first [done|apply He]). by destruct (bytes_eqb_spec (table_name def) t) as [<-|].
Qed.

Lemma remove_row_written : se_names (table_name def) pk -> row_written def pk None e (se_remove e (table_name def) pk).
Proof.
  intros Hn. split; [by apply se_remove_inv; [apply He|]|]. intros t Ht. rewrite se_remove_rows by (first [done|apply He]).
  by destruct (bytes_eqb_spec (table_name def) t) as [<-|].
Qed.

(** Engines with the same rows. *)
Lemma consistent_same e' : se_inv e' -> (forall t, se_names t [] -> se_rows e' t = se_rows e t) -> consistent tabs e'.
Proof.
  intros Hi Hs. destruct He as [_ Hd Hk Hst Hx Hr].
  assert (Hown : forall name d t, mget name tabs = Some d -> owns d t -> se_rows e' t = se_rows e t) by (intros name d t Hm Ho; apply Hs, (Hd _ _ Hm), Ho).
  assert (Hname : forall name d, mget name tabs = Some d -> se_rows e' name = se_rows e name) by (intros name d Hm; eapply Hown; [done|]; left; by apply Hd).
  split; [done|done| | | |].
  - intros name d Hm. rewrite (Hname _ _ Hm). by apply Hk.
  - intros name d pk' item Hm. rewrite (Hname _ _ Hm). by apply Hst.
  - intros name d idx Hm Hidx. rewrite (Hname _ _ Hm), (Hown _ _ _ Hm) by (right; eauto). by apply Hx.
  - intros t Ht Ho. rewrite Hs by done. auto.
Qed.

(** A read-modify-write and the indexes after it. *)
Lemma mutate_consistent m : se_names (table_name def) pk -> (forall a, m old = MutationPut a -> writable def pk (Some a)) ->
  previous (se_mutate e (table_name def) pk m).2 = old /\
  let e' := (se_mutate e (table_name def) pk m).1 in
  match m old with
  | MutationNone => consistent tabs e'
  | MutationPut a => consistent tabs (maintain_indexes e' def old (Some a))
  | MutationDelete => consistent tabs (maintain_indexes e' def old None)
  end.
Proof.
  intros Hn Hm. pose proof (c_inv tabs e He) as Hi.
  assert (Hadm : forall a, m (mget pk (se_rows e (table_name def))) = MutationPut a -> se_admits (table_name def) pk a).
  { intros a Ha. destruct (Hm a Ha) as [_ Hw]. destruct (Hw a eq_refl) as [[Hd _] ->]. done. }
  rewrite se_mutate_outcome by done. split; [done|]. cbn zeta.
  pose proof (se_mutate_inv e (table_name def) pk m Hi Hn Hadm) as Hi'.
  pose proof (fun t H => se_mutate_rows e (table_name def) pk m t Hi Hn H Hadm) as Hr. fold old in Hr. destruct (m old) as [|a|] eqn:Em.
  - by apply consistent_same.
  - apply maintained_consistent; [|by apply Hm]. split; [done|]. intros t Ht. rewrite Hr by done. by destruct (bytes_eqb_spec (table_name def) t) as [<-|].
  - apply maintained_consistent; [|split; [done|by intros]]. split; [done|]. intros t Ht. rewrite Hr by done. by destruct (bytes_eqb_spec (table_name def) t) as [<-|].
Qed.

(** The same write, with what it does to every table. *)
Lemma maintained_written new e' : row_written def pk new e e' -> writable def pk new -> written def pk new e (maintain_indexes e' def old new).
Proof.
  intros Hw [Hn Hnew]. destruct (c_def tabs e He _ _ Hdef) as [_ Hd]. apply maintain_written; [done|done| |intros n ->; by apply Hnew]. intros o Ho. by eapply (c_storable tabs e He).
Qed.

Lemma mutate_row_written m a : se_names (table_name def) pk -> m old = MutationPut a -> writable def pk (Some a) -> row_written def pk (Some a) e (se_mutate e (table_name def) pk m).1.
Proof.
  intros Hn Hm [_ Hw]. destruct (Hw a eq_refl) as [[Ha _] Epk]. rewrite <- Epk in Ha. pose proof (c_inv tabs e He) as Hi.
  assert (Hadm : forall b, m (mget pk (se_rows e (table_name def))) = MutationPut b -> se_admits (table_name def) pk b) by (intros b Hb; unfold old in Hm; congruence).
  split; [by apply se_mutate_inv|]. intros t Ht. rewrite se_mutate_rows by done. unfold old in Hm. rewrite Hm. by destruct (bytes_eqb_spec (table_name def) t) as [<-|].
Qed.

Lemma get_old : se_names (table_name def) pk -> se_get e (table_name def) pk = old.
Proof. intros Hn. by apply se_get_rows; [apply He|]. Qed.
End Consistent.

Lemma maintain_nothing (e : E) def : maintain_indexes e def None None = e.
Proof. unfold maintain_indexes. induction (all_indexes def) as [|i l IH]; [done|]. apply IH. Qed.

Lemma maintain_no_indexes (e : E) def old new : all_indexes def = [] -> maintain_indexes e def old new = e.
Proof. intros H. unfold maintain_indexes. by rewrite H. Qed.

(** ** Tables *)

Lemma create_consistent tabs e def : consistent tabs e -> table_ok def -> mget (table_name def) tabs = None ->
  (forall t, owns def t -> se_rows e t = []) /\ consistent (mset (table_name def) def tabs) e.
Proof.
  intros He Hd Hnew. pose proof He as [Hi Hdef Hk Hst Hx Hr].
  assert (Hempty : forall t, owns def t -> se_rows e t = []).
  { intros t Ho. apply Hr; [by apply Hd|]. intros name d2 H2 Ho2. destruct (Hdef _ _ H2) as [-> Hd2]. rewrite (owns_disjoint def d2 t) in Hnew by done. congruence. }
  split; [done|]. split; [done| | | | |].
  - intros name d. rewrite mget_mset. destruct (keqb_spec name (table_name def)) as [->|]; [by intros [= <-]|apply Hdef].
  - intros name d. rewrite mget_mset. destruct (keqb_spec name (table_name def)) as [->|]; [|apply Hk]. intros [= <-] pk item. by rewrite Hempty by (by left).
  - intros name d pk item. rewrite mget_mset. destruct (keqb_spec name (table_name def)) as [->|]; [|apply Hst]. intros [= <-]. by rewrite Hempty by (by left).
  - intros name d idx. rewrite mget_mset. destruct (keqb_spec name (table_name def)) as [->|]; [|apply Hx]. intros [= <-] Hidx.
    rewrite !Hempty by (first [by left|right; eauto]). intros k a. split; [done|]. by intros (pk & item & ? & _).
  - intros t Ht Ho. apply Hr; [done|]. intros name d H2. apply (Ho name d). rewrite mget_mset. destruct (keqb_spec name (table_name def)) as [->|]; [congruence|done].
Qed.

Lemma drop_tables_rows ts : forall e, se_inv e -> (forall t, t ∈ ts -> se_names t []) ->
  let e' := fold_left se_drop_table ts e in
  se_inv e' /\ forall t, se_names t [] -> se_rows e' t = if bool_decide (t ∈ ts) then [] else se_rows e t.
Proof.
  induction ts as [|t0 ts IH]; intros e He Hn; cbn [fold_left].
  - split; [done|]. intros t _. by rewrite bool_decide_eq_false_2 by set_solver.
  - destruct (IH (se_drop_table e t0)) as [Hi Hr]; [by apply se_drop_inv, Hn; [|left]|intros t Ht; apply Hn; by right|]. split; [done|].
    intros t Ht. rewrite Hr, se_drop_rows by (first [done|apply Hn; by left]). destruct (bytes_eqb_spec t0 t) as [->|Hne].
    + rewrite (bool_decide_eq_true_2 (t ∈ t :: ts)) by set_solver. by destruct (bool_decide _).
    + destruct (decide (t ∈ ts)); [by rewrite !bool_decide_eq_true_2 by set_solver|by rewrite !bool_decide_eq_false_2 by set_solver].
Qed.

(** The engine after DeleteTable. *)
Definition drop_all (def : TableDefinition) (e : E) : E := fold_left se_drop_table (table_name def :: map (index_table def) (all_indexes def)) e.

Lemma drop_consistent tabs e def : consistent tabs e -> mget (table_name def) tabs = Some def -> consistent (mdel (table_name def) tabs) (drop_all def e).
Proof.
  intros He Hm. pose proof He as [Hi Hdef Hk Hst Hx Hr]. pose proof (Hdef _ _ Hm) as [_ Hd].
  assert (Hown : forall t, t ∈ table_name def :: map (index_table def) (all_indexes def) <-> owns def t).
  { intros t. rewrite elem_of_cons, list_elem_of_fmap. unfold owns. naive_solver. }
  destruct (drop_tables_rows (table_name def :: map (index_table def) (all_indexes def)) e Hi) as [Hi' Hrows]; [intros t Ht; by apply Hd, Hown|]. fold (drop_all def e) in *.
  assert (Hother : forall name d t, mget name (mdel (table_name def) tabs) = Some d -> owns d t -> se_rows (drop_all def e) t = se_rows e t /\ mget name tabs = Some d).
  { intros name d t. rewrite mget_mdel. destruct (keqb_spec name (table_name def)) as [->|Hne]; [done|]. intros H2 Ho. destruct (Hdef _ _ H2) as [-> Hd2].
    rewrite Hrows by (by apply Hd2). rewrite bool_decide_eq_false_2; [done|]. intros Ho'%Hown. apply Hne. by eapply owns_disjoint. }
  assert (Hname : forall name d, mget name (mdel (table_name def) tabs) = Some d -> name = table_name d).
  { intros name d. rewrite mget_mdel. destruct (keqb_spec name (table_name def)) as [->|Hne]; [done|]. intros H2. by apply Hdef in H2 as [-> _]. }
  split; [done| | | | |].
  - intros name d H2. pose proof (Hname _ _ H2) as ->. destruct (Hother _ _ (table_name d) H2) as [_ H3]; [by left|]. by apply Hdef.
  - intros name d H2. pose proof (Hname _ _ H2) as ->. destruct (Hother _ _ (table_name d) H2) as [-> H3]; [by left|]. by apply Hk.
  - intros name d pk item H2. pose proof (Hname _ _ H2) as ->. destruct (Hother _ _ (table_name d) H2) as [-> H3]; [by left|]. by apply Hst.
  - intros name d idx H2 Hidx. pose proof (Hname _ _ H2) as ->. destruct (Hother _ _ (table_name d) H2) as [-> H3]; [by left|].
    destruct (Hother _ _ (index_table d idx) H2) as [-> _]; [right; eauto|]. by apply Hx.
  - intros t Ht Ho. rewrite Hrows by done. destruct (decide (t ∈ table_name def :: map (index_table def) (all_indexes def))) as [Hin|Hnin]; [by rewrite bool_decide_eq_true_2|].
    rewrite bool_decide_eq_false_2 by done. apply Hr; [done|]. intros name d H2 Ho2. destruct (Hdef _ _ H2) as [-> _]. destruct (decide (table_name d = table_name def)) as [E0|Hne].
    + rewrite E0 in H2. assert (d = def) as -> by congruence. by apply Hnin, Hown.
    + apply (Ho (table_name d) d); [|done]. rewrite mget_mdel. by destruct (keqb_spec (table_name d) (table_name def)).
Qed.

Lemma ttl_consistent tabs e def spec : consistent tabs e -> mget (table_name def) tabs = Some def -> consistent (mset (table_name def) (Tables.with_ttl def spec) tabs) e.
Proof.
  intros [Hi Hdef Hk Hst Hx Hr] Hm. split; [done| | | | |].
  - intros name d. rewrite mget_mset. destruct (keqb_spec name (table_name def)) as [->|]; [|apply Hdef]. intros [= <-]. destruct (Hdef _ _ Hm) as [_ [H1 H2 H3]]. split; [done|by split].
  - intros name d. rewrite mget_mset. destruct (keqb_spec name (table_name def)) as [->|]; [|apply Hk]. intros [= <-]. exact (Hk _ _ Hm).
  - intros name d pk item. rewrite mget_mset. destruct (keqb_spec name (table_name def)) as [->|]; [|apply Hst]. intros [= <-]. exact (Hst _ _ pk item Hm).
  - intros name d idx. rewrite mget_mset. destruct (keqb_spec name (table_name def)) as [->|]; [|apply Hx]. intros [= <-]. exact (Hx _ _ idx Hm).
  - intros t Ht Ho. apply Hr; [done|]. intros name d H2 Ho2. destruct (Hdef _ _ H2) as [-> _]. destruct (decide (table_name d = table_name def)) as [E0|Hne].
    + apply (Ho (table_name def) (Tables.with_ttl def spec)); [by rewrite mget_mset, keqb_refl|]. rewrite E0 in H2. assert (d = def) as -> by congruence. exact Ho2.
    + apply (Ho (table_name d) d); [|done]. rewrite mget_mset. by destruct (keqb_spec (table_name d) (table_name def)).
Qed.
End Sync.
End IndexSync.
