(* ===== verification/Consistency.v ===== *)
(** * Every request keeps the indexes of every table exact

    Each handler of the service, on a server whose indexes are exact, leaves them exact:
    the lemmas of [IndexSync] for one write, applied along the paths of the handlers.
    A history of requests from an empty server is a derivation of [reachable]. *)

From Stdlib Require Import ZArith Lia Strings.String.
From stdpp Require Import prelude.
From S2P Require Import Prelude StdMap Ranges Types CLib KeyCodec Validator Storage MemoryEngine Lexer Parser Evaluator UpdateExpression Streams TableManager NumberText Json TableJson Backups Dispatcher Api Handlers Queries Reads Writes PartiQL Admin Service IndexSync.
Import Json TableJson Api Handlers IndexSync.

Module Consistency.
Section Consistency.
Context {E : Type} {SE : StorageEngine E} {SL : StorageLaws E} {QE : QueryEngine E} (indeterminate : ProjectionType) (parse : bytes -> option Json).

Definition synced (w : World E) : Prop := consistent (Tables.tables_ (tables w)) (storage w).

(** [synced] depends on the tables and on the engine only. *)
Lemma synced_ext w w' : synced w -> tables w' = tables w -> storage w' = storage w -> synced w'.
Proof. unfold synced. by intros ? -> ->. Qed.

Lemma find_table_get (w : World E) name : find_table w name = mget name (Tables.tables_ (tables w)).
Proof. unfold find_table, Tables.describe_table. by destruct (mget name _). Qed.

Lemma synced_found w name def : synced w -> find_table w name = Some def -> name = table_name def /\ table_ok def /\ mget (table_name def) (Tables.tables_ (tables w)) = Some def.
Proof. rewrite find_table_get. intros Hw Hf. by destruct (c_def _ _ Hw _ _ Hf) as [-> ?]. Qed.

Lemma emit_same env i def event keys old new (w w' : World E) : emit_stream env i def event keys old new w = Some w' -> tables w' = tables w /\ storage w' = storage w.
Proof.
  unfold emit_stream. destruct (streams w) as [m|]; [|by intros [= <-]]. destruct (Streams.is_stream_enabled def); [|by intros [= <-]].
  destruct (Streams.append_record _ _ _ _ _ _ _ _ _); [|done]. by intros [= <-].
Qed.

Lemma emit_synced env i def event keys old new w w' : emit_stream env i def event keys old new w = Some w' -> synced w -> synced w'.
Proof. intros [Ht Hs]%emit_same Hw. by eapply synced_ext. Qed.

(** Cases of the next early return in a reply. *)
Ltac next H := match type of H with
  | match ?e with Some _ => _ | None => _ end = _ => let x := fresh "x" in let Hx := fresh "Ex" in destruct e as [x|] eqn:Hx
  | match ?e with Ok _ => _ | Err _ => _ end = _ => let x := fresh "x" in let Hx := fresh "Ex" in destruct e as [x|x] eqn:Hx
  | (if ?b then _ else _) = _ => let Hx := fresh "Ex" in destruct b eqn:Hx
  | option_map _ ?e = _ => let x := fresh "x" in let Hx := fresh "Ex" in destruct e as [x|] eqn:Hx
  end; cbn [option_map] in H; try discriminate H; try (injection H as <- <-; done).

(** ** One item *)

Definition put_ok (doc : Json) (w : World E) : Prop := forall name def el item,
  get_string_at doc "TableName" = Some name -> find_table w name = Some def -> at_key doc "Item" = Some el -> parse_attribute_map el = Some item -> storable def item.

Lemma put_synced env doc w r w' : synced w -> put_ok doc w -> handle_put_item env doc w = Some (r, w') -> synced w'.
Proof.
  intros Hw Hok H. unfold handle_put_item in H. next H. rename x into name. next H. rename x into def. next H. next H. rename x0 into item.
  next H. next H. next H. rename x1 into c.
  destruct (synced_found w name def Hw Ex0) as (-> & Hd & Hm).
  pose proof (Hok _ _ _ _ Ex Ex0 Ex1 Ex2) as Hs.
  destruct (mutate_consistent _ _ Hw def Hm (encode_primary_key def item)
    (fun current => match check_condition c current with Passed => MutationPut item | _ => MutationNone end)) as [Hold Hcon].
  { by eapply se_admits_names, Hs. }
  { intros a Ha. destruct (check_condition c _); try discriminate Ha. injection Ha as <-. by apply storable_writable. }
  destruct (se_mutate _ _ _ _) as [s outcome]. cbn [fst snd] in *. rewrite Hold in H.
  set (old := mget _ _) in *. destruct (check_condition c old); try (injection H as <- <-; exact Hcon).
  next H. apply emit_synced in Ex6; [|exact Hcon]. destruct old; [|by injection H as <- <-]. next H; next H.
Qed.

(** The key of a request is one the engine takes. *)
Definition key_ok (doc : Json) (w : World E) : Prop := forall name def key_map,
  get_string_at doc "TableName" = Some name -> find_table w name = Some def -> read_key def doc = Ok key_map -> se_names name (encode_primary_key def key_map).

Lemma delete_synced env doc w r w' : synced w -> key_ok doc w -> handle_delete_item env doc w = Some (r, w') -> synced w'.
Proof.
  intros Hw Hok H. unfold handle_delete_item in H. next H. rename x into name. next H. rename x into def. next H. rename x into key_map. next H. rename x into c.
  destruct (synced_found w name def Hw Ex0) as (-> & Hd & Hm).
  destruct (mutate_consistent _ _ Hw def Hm (encode_primary_key def key_map)
    (fun current => match check_condition c current with Passed => MutationDelete | _ => MutationNone end)) as [Hold Hcon]; [by eapply Hok| |].
  { intros a Ha. by destruct (check_condition c _). }
  destruct (se_mutate _ _ _ _) as [s outcome]. cbn [fst snd] in *. rewrite Hold in H.
  set (old := mget _ _) in *. destruct (check_condition c old); try (injection H as <- <-; exact Hcon).
  destruct old as [o|]; [|injection H as <- <-; by rewrite maintain_nothing in Hcon].
  next H. apply emit_synced in Ex3; [|exact Hcon]. next H; next H.
Qed.

(** An item that has expired is only reaped from a table without indexes. *)
Definition get_ok (env : Env) (doc : Json) (w : World E) : Prop := separate_projection doc = true /\ key_ok doc w /\ forall name def key_map item,
  get_string_at doc "TableName" = Some name -> find_table w name = Some def -> read_key def doc = Ok key_map ->
  mget (encode_primary_key def key_map) (se_rows (storage w) name) = Some item -> item_is_expired (now_epoch_seconds env) def item = true -> all_indexes def = [].

Lemma get_synced env doc w r w' : synced w -> get_ok env doc w -> handle_get_item env doc w = Some (r, w') -> synced w'.
Proof.
  intros Hw Hget H. unfold handle_get_item in H. next H. rename x into name. next H. rename x into def. next H. rename x into key_map. pose proof Hget as (_ & Hok & Hreap).
  destruct (synced_found w name def Hw Ex0) as (-> & Hd & Hm). pose proof (Hok _ _ _ Ex Ex0 Ex1) as Hn.
  rewrite (get_old _ _ Hw def (encode_primary_key def key_map) Hn) in H. next H. rename x into item. next H.
  - injection H as <- <-. pose proof (Hreap _ _ _ _ Ex Ex0 Ex1 Ex2 Ex3) as Hno. unfold synced. cbn [tables storage set_storage].
    rewrite <- (maintain_no_indexes (se_remove (storage w) (table_name def) (encode_primary_key def key_map)) def (mget (encode_primary_key def key_map) (se_rows (storage w) (table_name def))) None Hno).
    apply maintained_consistent; [done..|by apply (remove_row_written (Tables.tables_ (tables w)))|]. split; [done|by intros].
  - next H; [|next H]. destruct (apply_projection _ _ _) as [projected unsupported]. next H; next H.
Qed.

Definition update_ok (doc : Json) (w : World E) : Prop := key_ok doc w /\ forall name def key_map c item,
  get_string_at doc "TableName" = Some name -> find_table w name = Some def -> read_key def doc = Ok key_map -> read_condition doc = Some c ->
  updated_item (get_string_at doc "UpdateExpression") c key_map (mget (encode_primary_key def key_map) (se_rows (storage w) name)) = Some (Ok item) ->
  storable def item /\ encode_primary_key def key_map = encode_primary_key def item.

Lemma update_synced env doc w r w' : synced w -> update_ok doc w -> handle_update_item env doc w = Some (r, w') -> synced w'.
Proof.
  intros Hw Hup H. unfold handle_update_item in H. next H. rename x into name. next H. rename x into def. next H. rename x into key_map. next H. rename x into c. pose proof Hup as [Hok _].
  destruct (synced_found w name def Hw Ex0) as (-> & Hd & Hm). pose proof (Hok _ _ _ Ex Ex0 Ex1) as Hn.
  set (m := fun current => match check_condition c current with Passed => match updated_item (get_string_at doc "UpdateExpression") c key_map current with Some (Ok working) => MutationPut working | _ => MutationNone end | _ => MutationNone end) in *.
  destruct (mutate_consistent _ _ Hw def Hm (encode_primary_key def key_map) m Hn) as [Hold Hcon].
  { intros a Ha. unfold m in Ha. destruct (check_condition c _); try discriminate Ha. destruct (updated_item _ _ _ _) as [[i|]|] eqn:Eu; try discriminate Ha. injection Ha as <-.
    destruct (proj2 Hup _ _ _ _ _ Ex Ex0 Ex1 Ex2 Eu) as [Hs ->]. by apply storable_writable. }
  destruct (se_mutate _ _ _ _) as [s outcome]. cbn [fst snd] in *. rewrite Hold in H. unfold m in Hcon.
  set (old := mget _ _) in *. destruct (check_condition c old); try (injection H as <- <-; exact Hcon).
  destruct (updated_item _ _ _ old) as [[new_item|]|]; [|by injection H as <- <-|done].
  next H. apply emit_synced in Ex3; [|exact Hcon]. next H.
Qed.

(** ** Tables *)

Lemma create_table_synced doc w r w' : synced w -> table_ok (parse_table_definition indeterminate doc) -> handle_create_table indeterminate doc w = (r, w') -> synced w'.
Proof.
  intros Hw Hd. unfold handle_create_table. set (def := parse_table_definition indeterminate doc) in *.
  destruct (bool_decide _); [by intros [= <- <-]|]. destruct (bool_decide _); [by intros [= <- <-]|]. unfold Tables.create_table.
  destruct (mget (table_name def) _) eqn:Em; intros [= <- <-]; [exact Hw|]. by apply (create_consistent _ _ def Hw Hd Em).
Qed.

Lemma delete_table_synced doc w r w' : synced w -> handle_delete_table doc w = (r, w') -> synced w'.
Proof.
  intros Hw. unfold handle_delete_table. destruct (get_string_at doc "TableName") as [name|]; [|by intros [= <- <-]]. unfold Tables.delete_table.
  destruct (mget name _) as [def|] eqn:Em; intros [= <- <-]; [|exact Hw]. pose proof (c_def _ _ Hw _ _ Em) as [-> _].
  pose proof (drop_consistent _ _ def Hw Em) as Hc. unfold synced. cbn [tables storage set_storage set_tables Tables.save_metadata Tables.tables_].
  unfold drop_all in Hc. cbn [fold_left] in Hc.
  assert (Hfold : forall (l : list IndexSpec) s, fold_left se_drop_table (map (index_table def) l) s = fold_left (fun s idx => se_drop_table s (index_storage_table (table_name def) (index_name idx))) l s).
  { induction l as [|i l IH]; intros s; [done|]. apply IH. }
  by rewrite Hfold in Hc.
Qed.

Lemma ttl_synced doc w r w' : synced w -> handle_update_time_to_live doc w = (r, w') -> synced w'.
Proof.
  intros Hw. unfold handle_update_time_to_live. destruct (get_string_at doc "TableName") as [name|]; [|by intros [= <- <-]]. destruct (at_key _ _) as [spec_el|]; [|by intros [= <- <-]].
  destruct (get_string_at spec_el _); [|by intros [= <- <-]]. destruct (get_bool_at _ _); [|by intros [= <- <-]]. unfold Tables.set_ttl.
  destruct (mget name _) as [def|] eqn:Em; intros [= <- <-]; [|exact Hw]. pose proof (c_def _ _ Hw _ _ Em) as [-> _]. by apply ttl_consistent.
Qed.

(** ** Batches and transactions *)

Lemma no_indexes def : Writes.has_indexes def = false -> all_indexes def = [].
Proof.
  unfold Writes.has_indexes, all_indexes. intros [H1 H2]%orb_false_elim. apply negb_false_iff in H1, H2. apply bool_decide_eq_true in H1, H2. by rewrite H1, H2.
Qed.

Lemma apply_write_written env i name key new w w' def : synced w -> find_table w name = Some def -> writable def key new ->
  Writes.apply_write env i name key new w = Some w' -> written def key new (storage w) (storage w') /\ tables w' = tables w.
Proof.
  intros Hw Hf Hwr H. destruct (synced_found w name def Hw Hf) as (-> & Hd & Hm). pose proof Hwr as [Hn _].
  unfold Writes.apply_write in H. rewrite Hf, (get_old _ _ Hw def key Hn) in H.
  set (e' := match new with Some item => se_put _ _ _ _ | None => se_remove _ _ _ end) in H.
  assert (He' : row_written def key new (storage w) e') by (unfold e'; destruct new as [item|]; [by apply (put_row_written (Tables.tables_ (tables w)))|by apply (remove_row_written (Tables.tables_ (tables w)))]).
  pose proof (maintained_written _ _ Hw def Hm key new e' He' Hwr) as Hc.
  set (w1 := if Writes.has_indexes def then _ else _) in H.
  assert (H1 : written def key new (storage w) (storage w1) /\ tables w1 = tables w).
  { unfold w1. destruct (Writes.has_indexes def) eqn:Ei; [by cbn [orb]|]. cbn [orb tables storage set_storage]. split; [|done].
    erewrite maintain_no_indexes in Hc by (by apply no_indexes). exact Hc. }
  clearbody w1. destruct (Writes.has_stream def w); [|by injection H as <-].
  assert (Hemit : forall event ks old n, emit_stream env i def event ks old n w1 = Some w' -> written def key new (storage w) (storage w') /\ tables w' = tables w).
  { intros event ks old n Hem. pose proof (emit_same _ _ _ _ _ _ _ _ _ Hem) as [-> ->]. exact H1. }
  destruct new; [by eapply Hemit|]. destruct (if Writes.has_indexes def || true then _ else _); [by eapply Hemit|by injection H as <-].
Qed.

Lemma apply_write_synced env i name key new w w' def : synced w -> find_table w name = Some def -> writable def key new ->
  Writes.apply_write env i name key new w = Some w' -> synced w' /\ tables w' = tables w.
Proof.
  intros Hw Hf Hwr H. destruct (apply_write_written _ _ _ _ _ _ _ _ Hw Hf Hwr H) as [Hwt Ht]. split; [|done].
  destruct (synced_found w name def Hw Hf) as (-> & Hd & Hm). unfold synced. rewrite Ht. eapply written_consistent; [exact Hw|exact Hm|apply Hwr|exact Hwt].
Qed.

(** The writes of a request, each to a table the server has. *)
Definition write_ok (w : World E) (name key : bytes) (new : option AttributeMap) : Prop :=
  exists def, find_table w name = Some def /\ writable def key new.

Lemma write_ok_tables w w' name key new : tables w' = tables w -> write_ok w name key new -> write_ok w' name key new.
Proof. unfold write_ok, find_table. by intros ->. Qed.

Lemma apply_ops_synced env ops : forall i w w', synced w -> Forall (fun op => write_ok w (Writes.op_table op) (Writes.op_key op) (Writes.op_new op)) ops ->
  Writes.apply_ops env i ops w = Some w' -> synced w'.
Proof.
  induction ops as [|op ops IH]; intros i w w' Hw Hok H; cbn [Writes.apply_ops] in H; [by injection H as <-|].
  apply Forall_cons in Hok as [(def & Hf & Hwr) Hok]. destruct (Writes.apply_write _ _ _ _ _ _) as [w1|] eqn:E1; [|done].
  destruct (apply_write_synced _ _ _ _ _ _ _ _ Hw Hf Hwr E1) as [Hw1 Ht]. eapply IH; [exact Hw1| |exact H].
  eapply Forall_impl; [exact Hok|]. intros o. by apply write_ok_tables.
Qed.

Lemma batch_requests_found (w : World E) def name reqs : forall ops ops', find_table w name = Some def ->
  Forall (fun op => is_Some (find_table w (Writes.op_table op))) ops -> Writes.batch_requests def name reqs ops = Ok ops' -> Forall (fun op => is_Some (find_table w (Writes.op_table op))) ops'.
Proof.
  induction reqs as [|req reqs IH]; intros ops ops' Hf Hops H; cbn [Writes.batch_requests] in H; [by injection H as <-|].
  destruct (Writes.batch_op def name req) as [op|] eqn:Eo; [|done]. eapply IH; [done| |exact H]. apply Forall_app. split; [done|]. apply Forall_singleton.
  assert (Writes.op_table op = name) as ->; [|by rewrite Hf]. unfold Writes.batch_op in Eo. repeat (case_match; simplify_eq; try done).
Qed.

Lemma batch_tables_found (w : World E) fields : forall ops ops',
  Forall (fun op => is_Some (find_table w (Writes.op_table op))) ops -> Writes.batch_tables w fields ops = Ok ops' -> Forall (fun op => is_Some (find_table w (Writes.op_table op))) ops'.
Proof.
  induction fields as [|[name value] fields IH]; intros ops ops' Hops H; cbn [Writes.batch_tables] in H; [by injection H as <-|].
  destruct (find_table w name) as [def|] eqn:Ef; [|done]. destruct value; try done. destruct (Writes.batch_requests _ _ _ _) as [ops1|] eqn:Eb; [|done].
  eapply IH; [|exact H]. by eapply batch_requests_found.
Qed.

Definition batch_ok (doc : Json) (w : World E) : Prop := forall fields ops, at_key doc "RequestItems" = Some (JObj fields) -> Writes.batch_tables w fields [] = Ok ops ->
  Forall (fun op => forall def, find_table w (Writes.op_table op) = Some def -> writable def (Writes.op_key op) (Writes.op_new op)) ops.

Lemma batch_synced env doc w r w' : synced w -> batch_ok doc w -> Writes.handle_batch_write_item env doc w = Some (r, w') -> synced w'.
Proof.
  intros Hw Hok H. unfold Writes.handle_batch_write_item in H. destruct (at_key doc "RequestItems") as [[]|] eqn:Er; try (by injection H as <- <-).
  destruct (Writes.batch_tables w fields []) as [ops|] eqn:Eb; [|by injection H as <- <-]. next H. next H. injection H as <- <-.
  eapply apply_ops_synced; [exact Hw| |exact Ex0]. pose proof (batch_tables_found w fields [] ops (Forall_nil_2 _) Eb) as Hf.
  eapply Forall_impl; [apply Forall_and; exact (conj Hf (Hok _ _ Er Eb))|]. intros op [[def Hd] Hwr]. exists def. auto.
Qed.

Lemma keyed_action_found (w : World E) what k sub a : Writes.keyed_action w what k sub = Ok a -> is_Some (find_table w (Writes.action_table a)).
Proof.
  unfold Writes.keyed_action, Writes.action_def. destruct (get_string_at sub "TableName") as [name|]; [|done]. destruct (find_table w name) as [def|] eqn:Ef; [|done].
  intros H. repeat (case_match; simplify_eq; try done).
Qed.

Lemma put_action_found (w : World E) sub a : Writes.put_action w sub = Ok a -> is_Some (find_table w (Writes.action_table a)).
Proof.
  unfold Writes.put_action, Writes.action_def. destruct (get_string_at sub "TableName") as [name|]; [|done]. destruct (find_table w name) as [def|] eqn:Ef; [|done].
  intros H. repeat (case_match; simplify_eq; try done).
Qed.

Lemma read_action_found (w : World E) entry a : Writes.read_action w entry = Ok a -> is_Some (find_table w (Writes.action_table a)).
Proof.
  unfold Writes.read_action. destruct (at_key entry "Put"); [apply put_action_found|]. destruct (at_key entry "Delete"); [apply keyed_action_found|].
  destruct (at_key entry "Update"); [apply keyed_action_found|]. destruct (at_key entry "ConditionCheck"); [|done].
  destruct (Writes.keyed_action _ _ _ _) as [a'|] eqn:Ea; [|done]. destruct (condition _); [|done]. intros [= <-]. by eapply keyed_action_found.
Qed.

Lemma read_actions_found (w : World E) entries : forall actions actions',
  Forall (fun a => is_Some (find_table w (Writes.action_table a))) actions -> Writes.read_actions w entries actions = Ok actions' -> Forall (fun a => is_Some (find_table w (Writes.action_table a))) actions'.
Proof.
  induction entries as [|entry entries IH]; intros actions actions' Ha H; cbn [Writes.read_actions] in H; [by injection H as <-|].
  destruct (Writes.read_action w entry) as [a|] eqn:Ea; [|done]. eapply IH; [|exact H]. apply Forall_app. split; [done|]. apply Forall_singleton. by eapply read_action_found.
Qed.

(** Every write of the actions is possible. *)
Definition action_ok (w : World E) (ap : Writes.Action * AttributeMap) : Prop := forall new, Writes.effect_of ap.1 ap.2 = Some new ->
  write_ok w (Writes.action_table ap.1) (Writes.action_key ap.1) new.

Lemma apply_actions_synced env actions : forall i w w', synced w -> Forall (action_ok w) actions -> Writes.apply_actions env i actions w = Some w' -> synced w'.
Proof.
  induction actions as [|[a pre] actions IH]; intros i w w' Hw Hok H; cbn [Writes.apply_actions] in H; [by injection H as <-|].
  apply Forall_cons in Hok as [Ha Hok]. destruct (Writes.effect_of a pre) as [new|] eqn:Ee; [|by eapply IH].
  destruct (Ha new Ee) as (def & Hf & Hwr). destruct (Writes.apply_write _ _ _ _ _ _) as [w1|] eqn:E1; [|done].
  destruct (apply_write_synced _ _ _ _ _ _ _ _ Hw Hf Hwr E1) as [Hw1 Ht]. eapply IH; [exact Hw1| |exact H].
  eapply Forall_impl; [exact Hok|]. intros ap Hap n Hn. eapply write_ok_tables; [exact Ht|]. by apply Hap.
Qed.

Definition transact_ok (doc : Json) (w : World E) : Prop := forall entries actions precomputed,
  get_array_at doc "TransactItems" = Some entries -> Writes.read_actions w entries [] = Ok actions -> Writes.check_actions w actions = Some (Ok precomputed) ->
  Forall (fun ap : Writes.Action * AttributeMap => forall def new, find_table w (Writes.action_table ap.1) = Some def -> Writes.effect_of ap.1 ap.2 = Some new ->
    writable def (Writes.action_key ap.1) new) (zip actions precomputed).

Lemma transact_run_synced env entries actions w r w' : synced w -> Writes.read_actions w entries [] = Ok actions ->
  (forall precomputed, Writes.check_actions w actions = Some (Ok precomputed) ->
    Forall (fun ap : Writes.Action * AttributeMap => forall def new, find_table w (Writes.action_table ap.1) = Some def -> Writes.effect_of ap.1 ap.2 = Some new ->
      writable def (Writes.action_key ap.1) new) (zip actions precomputed)) ->
  Writes.transact env entries w = Some (r, Some w') -> synced w'.
Proof.
  intros Hw Ea Hok H. unfold Writes.transact in H. rewrite Ea in H. destruct (negb _); [done|]. destruct (Writes.check_actions w actions) as [[pre|]|] eqn:Ec; [|done..].
  destruct (Writes.apply_actions _ _ _ _) as [w1|] eqn:E1; [|done]. injection H as <- <-. eapply apply_actions_synced; [exact Hw| |exact E1].
  pose proof (read_actions_found w entries [] actions (Forall_nil_2 _) Ea) as Hf. apply Forall_forall. intros [a p] Hin new Hn. pose proof (elem_of_zip_l _ _ _ _ Hin) as Hina.
  rewrite Forall_forall in Hf. destruct (Hf a Hina) as [def Hd]. exists def. split; [done|]. specialize (Hok pre eq_refl). rewrite Forall_forall in Hok. by apply (Hok (a, p) Hin).
Qed.

Lemma transact_synced env t1 t2 raw doc cache w r cache' w' : synced w -> transact_ok doc w ->
  Writes.handle_transact_write_items env t1 t2 raw doc cache w = Some (r, cache', w') -> synced w'.
Proof.
  intros Hw Hok H. unfold Writes.handle_transact_write_items in H. destruct (get_array_at doc "TransactItems") as [entries|] eqn:Ee; [|by injection H as <- <- <-].
  destruct (100 <? _); [by injection H as <- <- <-|].
  assert (Hrun : forall c (store : Writes.Idempotency.Cache -> Writes.Idempotency.Cache), match Writes.transact env entries w with None => None | Some (r, None) => Some (r, c, w) | Some (r, Some w) => Some (r, store c, w) end = Some (r, cache', w') -> synced w').
  { intros c store Hr. destruct (Writes.transact env entries w) as [[r1 [w1|]]|] eqn:Et; [|by injection Hr as <- <- <-|done]. injection Hr as <- <- <-.
    destruct (Writes.read_actions w entries []) as [actions|] eqn:Ea; [|unfold Writes.transact in Et; by rewrite Ea in Et].
    eapply transact_run_synced; [exact Hw|exact Ea| |exact Et]. intros pre Hp. by eapply Hok. }
  destruct (get_string_at doc "ClientRequestToken") as [[|c token]|]; [by eapply (Hrun cache id)| |by eapply (Hrun cache id)].
  destruct (Writes.Idempotency.lookup _ _ _ _) as [cache1 [|cached|]]; [by eapply Hrun|by injection H as <- <- <-..].
Qed.

(** ** PartiQL *)

Definition plan_ok (w : World E) (plan : PartiQL.Plan) : Prop :=
  match plan with
  | PartiQL.PSelect _ _ _ _ => True
  | PartiQL.PInsert _ def item => storable def item
  | PartiQL.PUpdate name def sets key_map =>
      writable def (encode_primary_key def key_map) (Some (PartiQL.pql_updated sets key_map (mget (encode_primary_key def key_map) (se_rows (storage w) name))))
  | PartiQL.PDelete name def key_map => se_names name (encode_primary_key def key_map)
  end.

(** The table of a plan is one of the server. *)
Definition plan_table (plan : PartiQL.Plan) : bytes * TableDefinition :=
  match plan with
  | PartiQL.PSelect _ name def _ | PartiQL.PInsert name def _ | PartiQL.PUpdate name def _ _ | PartiQL.PDelete name def _ => (name, def)
  end.

Definition planned_in (w : World E) (r : PartiQL.planned) : Prop := forall plan, r = Some (Ok plan) -> find_table w (plan_table plan).1 = Some (plan_table plan).2.

Lemma table_of_in w p k : (forall name def p, find_table w name = Some def -> planned_in w (k name def p)) -> planned_in w (PartiQL.table_of p w k).
Proof. intros Hk. unfold PartiQL.table_of. destruct (negb _); [done|]. destruct (find_table w _) eqn:Ef; [by apply Hk|done]. Qed.

Lemma then_in {A} w (r : PartiQL.parsed A) k : (forall a p, planned_in w (k a p)) -> planned_in w (PartiQL.then_ r k).
Proof. intros Hk. destruct r as [[[a p]|]|]; [apply Hk|done..]. Qed.

Lemma required_in w kw msg p f : (forall p, planned_in w (f p)) -> planned_in w (PartiQL.required kw msg p f).
Proof. intros Hf. unfold PartiQL.required. destruct (PartiQL.kw kw p) as [p' []]; [apply Hf|done]. Qed.

Lemma plan_statement_in w stmt params : planned_in w (PartiQL.plan_statement stmt params w).
Proof.
  unfold PartiQL.plan_statement. destruct (PartiQL.pql_tokenize stmt) as [[toks|]|]; [|done..].
  repeat match goal with |- planned_in _ (if ?b then _ else _) => destruct b end; [| | | |done];
    unfold PartiQL.plan_select, PartiQL.plan_insert, PartiQL.plan_update, PartiQL.plan_delete;
    repeat first [apply then_in; intros|apply required_in; intros|apply table_of_in; intros|progress cbn zeta];
    repeat match goal with |- planned_in _ (if ?b then _ else _) => destruct b | |- planned_in _ (match ?v with _ => _ end) => destruct v end;
    intros plan [= <-]; done.
Qed.

Lemma perform_synced env i plan w r w' : synced w -> find_table w (plan_table plan).1 = Some (plan_table plan).2 -> plan_ok w plan ->
  PartiQL.perform env i plan w = Some (r, w') -> synced w'.
Proof.
  intros Hw Hf Hok H. destruct plan as [names name def conds|name def item|name def sets key_map|name def key_map]; cbn [PartiQL.perform plan_table fst snd plan_ok] in *;
    destruct (synced_found w name def Hw Hf) as (-> & Hd & Hm); next H; injection H as <- <-; rename x into w1; rename Ex into H.
  - unfold PartiQL.perform_insert in H. apply storable_writable in Hok. rewrite (get_old _ _ Hw def _ (proj1 Hok)) in H. eapply emit_synced; [exact H|].
    apply maintained_consistent; [done..| |done]. by apply (put_row_written (Tables.tables_ (tables w))).
  - unfold PartiQL.perform_update in H.
    destruct (mutate_consistent _ _ Hw def Hm (encode_primary_key def key_map) (fun current => MutationPut (PartiQL.pql_updated sets key_map current)) (proj1 Hok)) as [Hold Hcon]; [by intros a [= <-]|].
    destruct (se_mutate _ _ _ _) as [e outcome]. cbn [fst snd] in *. rewrite Hold in H. by eapply emit_synced.
  - unfold PartiQL.perform_delete in H.
    destruct (mutate_consistent _ _ Hw def Hm (encode_primary_key def key_map) (fun _ => MutationDelete) Hok) as [Hold Hcon]; [done|].
    destruct (se_mutate _ _ _ _) as [e outcome]. cbn [fst snd] in *. rewrite Hold in H.
    destruct (mget _ (se_rows _ _)) as [o|]; [by eapply emit_synced|]. injection H as <-. by rewrite maintain_nothing in Hcon.
Qed.

Definition statement_ok (w : World E) (stmt : bytes) (params : list AttributeValue) : Prop :=
  forall plan, PartiQL.plan_statement stmt params w = Some (Ok plan) -> plan_ok w plan.

Lemma statement_synced env i stmt params w r w' : synced w -> statement_ok w stmt params -> PartiQL.execute_partiql env i stmt params w = Some (r, w') -> synced w'.
Proof.
  intros Hw Hok H. unfold PartiQL.execute_partiql in H. pose proof (plan_statement_in w stmt params) as Hin.
  destruct (PartiQL.plan_statement stmt params w) as [[plan|]|] eqn:Ep; [|by injection H as <- <-|done]. eapply perform_synced; [exact Hw|by apply Hin|by apply Hok|exact H].
Qed.

(** Every statement, in the state the ones before it leave. *)
Fixpoint statements_ok (env : Env) (i : nat) (stmts : list Json) (w : World E) : Prop :=
  match stmts with
  | [] => True
  | s :: stmts' => forall stmt params, get_string_at s "Statement" = Some stmt -> PartiQL.read_parameters s = Some params ->
      statement_ok w stmt params /\ forall r w', PartiQL.execute_partiql env i stmt params w = Some (r, w') -> statements_ok env (S i) stmts' w'
  end.

Lemma statements_synced env stmts : forall i responses w r w', synced w -> statements_ok env i stmts w -> PartiQL.run_statements env i stmts responses w = Some (r, w') -> synced w'.
Proof.
  induction stmts as [|s stmts IH]; intros i responses w r w' Hw Hok H; cbn [PartiQL.run_statements statements_ok] in *; [by injection H as <- <-|].
  destruct (get_string_at s "Statement") as [stmt|]; [|by injection H as <- <-]. destruct (PartiQL.read_parameters s) as [params|]; [|by injection H as <- <-].
  destruct (Hok _ _ eq_refl eq_refl) as [Hs Hrest]. destruct (PartiQL.execute_partiql _ _ _ _ _) as [[r1 w1]|] eqn:E1; [|done].
  eapply IH; [by eapply statement_synced|by eapply Hrest|exact H].
Qed.

(** ** Restores *)

Lemma restore_items_consistent tabs def items : forall e, consistent tabs e -> mget (table_name def) tabs = Some def -> Forall (storable def) items ->
  NoDup (map (encode_primary_key def) items) -> Forall (fun i => mget (encode_primary_key def i) (se_rows e (table_name def)) = None) items ->
  consistent tabs (fold_left (Admin.restore_item def) items e).
Proof.
  induction items as [|item items IH]; intros e He Hm Hst Hnd Hno; cbn [fold_left map] in *; [done|].
  apply Forall_cons in Hst as [Hs Hst]. apply NoDup_cons in Hnd as [Hni Hnd]. apply Forall_cons in Hno as [Hn Hno]. apply storable_writable in Hs.
  pose proof (put_row_written tabs e He def (encode_primary_key def item) item Hs) as Hrw.
  pose proof (maintained_consistent tabs e He def Hm _ _ _ Hrw Hs) as Hc. rewrite Hn in Hc. apply IH; [exact Hc|done..|].
  destruct (c_def _ _ He _ _ Hm) as [_ Hd].
  pose proof (maintain_written def (encode_primary_key def item) (Some item) e _ Hd Hrw) as Hw. rewrite Hn in Hw.
  assert (Hwr : written def (encode_primary_key def item) (Some item) e (Admin.restore_item def e item)) by (apply Hw; [done|intros n [= <-]; by apply Hs]).
  rewrite (w_rows _ _ _ _ _ Hwr). apply Forall_forall. intros i Hi. rewrite mget_alter.
  destruct (keqb_spec (encode_primary_key def i) (encode_primary_key def item)) as [E0|]; [|rewrite Forall_forall in Hno; by apply Hno].
  exfalso. apply Hni. rewrite <- E0. apply list_elem_of_fmap. eauto.
Qed.

(** The items of the snapshot fit the table and have different keys. *)
Definition restorable (def : TableDefinition) (items : list AttributeMap) : Prop :=
  table_ok def /\ Forall (storable def) items /\ NoDup (map (encode_primary_key def) items).

Lemma restore_into_synced def target items w r w' : synced w -> restorable (Admin.rename_table def target) items -> Admin.restore_into def target items w = (r, w') -> synced w'.
Proof.
  intros Hw (Hd & Hst & Hnd). unfold Admin.restore_into. set (def' := Admin.rename_table def target) in *. unfold Tables.create_table.
  destruct (mget (table_name def') _) eqn:Em; intros [= <- <-]; [exact Hw|]. unfold synced. cbn [tables storage set_storage set_tables Tables.save_metadata Tables.tables_].
  destruct (create_consistent _ _ def' Hw Hd Em) as [Hempty Hc]. apply restore_items_consistent; [exact Hc|by rewrite mget_mset, keqb_refl|done..|].
  apply Forall_forall. intros i _. by rewrite Hempty by (by left).
Qed.

Definition execute_ok (doc : Json) (w : World E) : Prop := forall stmt params, get_string_at doc "Statement" = Some stmt -> PartiQL.read_parameters doc = Some params -> statement_ok w stmt params.

Lemma execute_synced env doc w r w' : synced w -> execute_ok doc w -> PartiQL.handle_execute_statement env doc w = Some (r, w') -> synced w'.
Proof. intros Hw Hok H. unfold PartiQL.handle_execute_statement in H. next H. next H. eapply statement_synced; [exact Hw|by apply Hok|exact H]. Qed.

Definition batch_execute_ok (env : Env) (doc : Json) (w : World E) : Prop := forall stmts, get_array_at doc "Statements" = Some stmts -> statements_ok env 0 stmts w.

Lemma batch_execute_synced env doc w r w' : synced w -> batch_execute_ok env doc w -> PartiQL.handle_batch_execute_statement env doc w = Some (r, w') -> synced w'.
Proof. intros Hw Hok H. unfold PartiQL.handle_batch_execute_statement in H. next H. eapply statements_synced; [exact Hw|by apply Hok|exact H]. Qed.

Definition restore_ok (doc : Json) (backups : option Backups.BackupManager) : Prop := forall m arn target snap, backups = Some m ->
  get_string_at doc "BackupArn" = Some arn -> get_string_at doc "TargetTableName" = Some target -> Backups.restore_backup arn m = Some snap ->
  restorable (Admin.rename_table (Backups.table_metadata (Backups.description snap)) target) (Backups.snapshot_items snap).

Lemma restore_synced doc m w : synced w -> restore_ok doc (Some m) -> synced (Admin.handle_restore_table_from_backup doc m w).2.
Proof.
  intros Hw Hok. unfold Admin.handle_restore_table_from_backup. destruct (get_string_at doc "BackupArn") as [arn|] eqn:E1; [|done].
  destruct (get_string_at doc "TargetTableName") as [target|] eqn:E2; [|done]. destruct (Backups.restore_backup arn m) as [snap|] eqn:E3; [|done].
  eapply restore_into_synced; [exact Hw|by eapply Hok|apply surjective_pairing].
Qed.

Definition restore_pit_ok (doc : Json) (w : World E) : Prop := forall source target def, get_string_at doc "SourceTableName" = Some source ->
  get_string_at doc "TargetTableName" = Some target -> find_table w source = Some def -> restorable (Admin.rename_table def target) (items (se_scan (storage w) source None 0)).

Lemma restore_pit_synced doc w : synced w -> restore_pit_ok doc w -> synced (Admin.handle_restore_table_to_pit doc w).2.
Proof.
  intros Hw Hok. unfold Admin.handle_restore_table_to_pit. destruct (get_string_at doc "SourceTableName") as [source|] eqn:E1; [|done].
  destruct (get_string_at doc "TargetTableName") as [target|] eqn:E2; [|done]. destruct (find_table w source) as [def|] eqn:E3; [|done].
  eapply restore_into_synced; [exact Hw|by eapply Hok|apply surjective_pairing].
Qed.

(** ** Histories *)

(** What a request writes can be stored under its key: updates keep the key attributes,
    no expired item is reaped from a table with indexes, a restore does not bring two items
    of one key, and a projection does not append to a stored list. *)
Definition admissible (r : Service.Readings) (op : Dispatcher.Operation) (doc : Json) (s : Service.Server E) : Prop :=
  let w := Service.world s in
  let env := Service.request_env r in
  match op with
  | Dispatcher.CreateTable => table_ok (parse_table_definition indeterminate doc)
  | Dispatcher.PutItem => put_ok doc w
  | Dispatcher.GetItem => get_ok env doc w
  | Dispatcher.Scan | Dispatcher.Query => separate_projection doc = true
  | Dispatcher.DeleteItem => key_ok doc w
  | Dispatcher.UpdateItem => update_ok doc w
  | Dispatcher.BatchWriteItem => batch_ok doc w
  | Dispatcher.TransactWriteItems => transact_ok doc w
  | Dispatcher.ExecuteStatement => execute_ok doc w
  | Dispatcher.BatchExecuteStatement => batch_execute_ok env doc w
  | Dispatcher.RestoreTableFromBackup => restore_ok doc (Service.backups s)
  | Dispatcher.RestoreTableToPointInTime => restore_pit_ok doc w
  | _ => True
  end.

Lemma runs_synced (s : Service.Server E) x r s' : Service.runs s x = Some (r, s') -> synced x.2 -> synced (Service.world s').
Proof. unfold Service.runs. by intros [= <- <-]. Qed.

Lemma may_synced (s : Service.Server E) x r s' : (forall r w, x = Some (r, w) -> synced w) -> Service.may s x = Some (r, s') -> synced (Service.world s').
Proof. intros Hx. destruct x as [[r1 w1]|]; [|done]. intros [= <- <-]. by eapply Hx. Qed.

Lemma reads_synced (s : Service.Server E) x r s' : Service.reads s x = Some (r, s') -> synced (Service.world s) -> synced (Service.world s').
Proof. destruct x; [|done]. by intros [= <- <-]. Qed.

Lemma on_streams_synced op (s : Service.Server E) f r s' : Service.on_streams op s f = Some (r, s') -> synced (Service.world s) -> synced (Service.world s').
Proof. unfold Service.on_streams. destruct (streams _) as [m|]; [|by intros [= <- <-]]. destruct (f m) as [[r1 m1]|]; [|done]. intros [= <- <-] Hs. by eapply synced_ext. Qed.

Lemma dispatch_synced r op raw doc s res s' : synced (Service.world s) -> admissible r op doc s ->
  Service.dispatch indeterminate r op raw doc s = Some (res, s') -> synced (Service.world s').
Proof.
  intros Hs Hok H. destruct op; cbn [Service.dispatch admissible] in *;
    try (by injection H as <- <-); try (by eapply reads_synced); try (by eapply on_streams_synced);
    try (unfold Service.on_backups in H; destruct (Service.backups s) as [m|] eqn:Em; [|by injection H as <- <-]; try (by injection H as <- <-));
    try (eapply may_synced; [|exact H]; intros r1 w1 H1;
         first [by eapply put_synced|by eapply get_synced|by eapply delete_synced|by eapply update_synced|by eapply batch_synced|by eapply execute_synced|by eapply batch_execute_synced]);
    try (eapply runs_synced; [exact H|];
         first [by eapply create_table_synced; [..|apply surjective_pairing]|by eapply delete_table_synced; [..|apply surjective_pairing]
               |by eapply ttl_synced; [..|apply surjective_pairing]|by apply restore_synced|by apply restore_pit_synced
               |unfold handle_describe_table, handle_describe_time_to_live, handle_update_table; repeat case_match; done]).
  - destruct (Admin.handle_create_backup _ _ _ _ _) as [[]|]; [|done]. by injection H as <- <-.
  - destruct (Admin.handle_delete_backup _ _) as []. by injection H as <- <-.
  - destruct (Writes.handle_transact_write_items _ _ _ _ _ _ _) as [[[r1 c1] w1]|] eqn:Et; [|done]. injection H as <- <-. by eapply transact_synced.
Qed.

Lemma follow_synced r op doc (s s' : Service.Server E) : synced (Service.world s) -> Service.follow r op doc s = Some s' -> synced (Service.world s').
Proof.
  intros Hs H.
  assert (Hreg : forall name, Service.register r name s = Some s' -> synced (Service.world s')).
  { intros name. unfold Service.register. destruct (find_table _ _) as [def|]; [|by intros [= <-]]. destruct (streams _) as [m|]; [|by intros [= <-]].
    destruct (Streams.sync_table _ _ _) as [m'|]; [|done]. intros [= <-]. by eapply synced_ext. }
  destruct op; cbn [Service.follow] in H; try (by injection H as <-); destruct (get_string_at doc _); try (by injection H as <-); try (by eapply Hreg).
Qed.

Lemma handle_operation_synced r op raw s res s' : synced (Service.world s) ->
  (forall doc, parse (match raw with [] => lit "{}" | _ => raw end) = Some doc -> admissible r op doc s) ->
  Service.handle_operation indeterminate parse r op raw s = Some (res, s') -> synced (Service.world s').
Proof.
  intros Hs Hok H. unfold Service.handle_operation in H. destruct (parse _) as [doc|]; [|by injection H as <- <-]. specialize (Hok doc eq_refl).
  assert (Hcap : forall s1 ad, Service.take_capacity r op doc s = (s1, ad) -> Service.world s1 = Service.world s /\ Service.backups s1 = Service.backups s).
  { intros s1 ad. unfold Service.take_capacity. destruct (_ || _); [|by intros [= <- <-]]. destruct (Service.capacity s); [|by intros [= <- <-]].
    destruct (get_string_at _ _); [|by intros [= <- <-]]. destruct (if Service.is_read_op op then _ else _) as [m1 c1]. by intros [= <- <-]. }
  destruct (Service.take_capacity r op doc s) as [s1 ad]. destruct (Hcap s1 ad eq_refl) as [Ew Eb]. destruct ad; cbn [negb] in H; [|injection H as <- <-; by rewrite Ew].
  destruct (Service.dispatch _ _ _ _ _ _) as [[res1 s2]|] eqn:Ed; [|done].
  assert (Hs2 : synced (Service.world s2)) by (eapply dispatch_synced; [by rewrite Ew| |exact Ed]; unfold admissible; by rewrite Ew, Eb).
  destruct (status res1 =? 200); [|by injection H as <- <-]. destruct (Service.follow r op doc s2) as [s3|] eqn:Ef; [|done]. injection H as <- <-. by eapply follow_synced.
Qed.

(** A server without tables over an empty engine. *)
Definition fresh (s : Service.Server E) : Prop :=
  Tables.tables_ (tables (Service.world s)) = [] /\ se_inv (storage (Service.world s)) /\ forall t, se_names t [] -> se_rows (storage (Service.world s)) t = [].

Inductive reachable : Service.Server E -> Prop :=
| reach_start s : fresh s -> reachable s
| reach_step s r op raw res s' : reachable s ->
    (forall doc, parse (match raw with [] => lit "{}" | _ => raw end) = Some doc -> admissible r op doc s) ->
    Service.handle_operation indeterminate parse r op raw s = Some (res, s') -> reachable s'.

Lemma reachable_synced s : reachable s -> synced (Service.world s).
Proof.
  induction 1 as [s (Ht & Hi & He)|s r op raw res s' _ IH Hok H]; [|by eapply handle_operation_synced].
  unfold synced. rewrite Ht. split; [done|done|done|done|done|]. intros t Hn _. by apply He.
Qed.

End Consistency.

(** ** A history on the in-memory engine *)

Section Demo.
Import MemoryEngine.

Definition demo_env : Env := {| now_epoch_seconds := 1000; record_time := 1000; purge_time := 1000; random_id := fun _ => (1, 2) |}.

Definition demo_readings : Service.Readings :=
  {| Service.request_env := demo_env; Service.capacity_time := 0; Service.bucket_times := (0, 0); Service.sync_time := 1000; Service.backup_time := 1000;
     Service.backup_junk := 0; Service.steady_time := 0; Service.cache_times := (0, 0); Service.iterator_random := (3, 4); Service.stream_order := [] |}.

Definition demo_server : Service.Server MemoryEngine.t :=
  {| Service.world := {| tables := Tables.fresh; storage := MemoryEngine.empty; streams := None |}; Service.capacity := None; Service.backups := None;
     Service.completed := Writes.Idempotency.empty |}.

Definition demo_step (op : Dispatcher.Operation) (body : bytes) (s : Service.Server MemoryEngine.t) : option (Service.Server MemoryEngine.t) :=
  option_map snd (Service.handle_operation PT_ALL read_json demo_readings op body s).

Definition demo_create : bytes :=
  q "{'TableName':'T','KeySchema':[{'AttributeName':'pk','KeyType':'HASH'}],'AttributeDefinitions':[{'AttributeName':'pk','AttributeType':'S'},{'AttributeName':'g','AttributeType':'S'}],'GlobalSecondaryIndexes':[{'IndexName':'I','KeySchema':[{'AttributeName':'g','KeyType':'HASH'}],'Projection':{'ProjectionType':'KEYS_ONLY'}}]}".

Definition demo_put (g : bytes) : bytes := q "{'TableName':'T','Item':{'pk':{'S':'a'},'v':{'N':'1'},'g':{'S':'" ++ g ++ q "'}}}".

Definition demo_run (s : Service.Server MemoryEngine.t) (req : Dispatcher.Operation * bytes) : Service.Server MemoryEngine.t := default s (demo_step req.1 req.2 s).

Definition demo_history : list (Dispatcher.Operation * bytes) :=
  [(Dispatcher.CreateTable, demo_create); (Dispatcher.PutItem, demo_put (lit "x")); (Dispatcher.PutItem, demo_put (lit "y"))].

Definition demo_final : Service.Server MemoryEngine.t := fold_left demo_run demo_history demo_server.

Lemma demo_item_storable def item : storable (E := MemoryEngine.t) def item.
Proof. split; [exact I|]. intros. exact I. Qed.

Lemma demo_reach s op body : reachable PT_ALL read_json s -> (forall doc, read_json (match body with [] => lit "{}" | _ => body end) = Some doc -> admissible PT_ALL demo_readings op doc s) ->
  reachable PT_ALL read_json (demo_run s (op, body)).
Proof.
  intros Hs Hok. unfold demo_run, demo_step. cbn [fst snd].
  destruct (Service.handle_operation PT_ALL read_json demo_readings op body s) as [[res s']|] eqn:E0; [|done]. by eapply reach_step.
Qed.

Definition demo_doc : Json := default JNull (read_json demo_create).

Lemma demo_server_reachable : reachable PT_ALL read_json demo_final.
Proof.
  assert (Hput : forall doc s, admissible PT_ALL demo_readings Dispatcher.PutItem doc s) by (intros doc s ? def ? item ? ? ? ?; apply demo_item_storable).
  unfold demo_final, demo_history. cbn [fold_left]. apply demo_reach; [|by intros]. apply demo_reach; [|by intros]. apply demo_reach.
  - apply reach_start. split; [reflexivity|]. split; [split; constructor|]. intros t _. reflexivity.
  - intros doc Hd. assert (doc = demo_doc) as -> by (change (read_json demo_create = Some doc) in Hd; unfold demo_doc; by rewrite Hd). clear Hd.
    split; [by_eval|by_eval|]. intros t _. exact I.
Qed.

Definition demo_def : TableDefinition := parse_table_definition PT_ALL demo_doc.
Definition demo_index : IndexSpec := default {| index_name := []; index_key_schema := []; index_projection := {| projection_type := PT_ALL; non_key_attributes := [] |} |} (head (all_indexes demo_def)).

End Demo.
End Consistency.
