(* ===== verification/Effects.v ===== *)
(** * A request that fails writes nothing

    An error reply leaves the tables and the rows of every table as they were, whatever
    the operation; BatchExecuteStatement alone may fail after some of its statements ran
    ([failed_batch_writes]). *)

From Stdlib Require Import ZArith Lia Strings.String.
From stdpp Require Import prelude.
From S2P Require Import Prelude StdMap Ranges Types CLib KeyCodec Validator Storage MemoryEngine Lexer Parser Evaluator UpdateExpression Streams TableManager NumberText Json TableJson Backups Dispatcher Api Handlers Queries Reads Writes PartiQL Admin Service IndexSync Consistency.
Import Json TableJson Api Handlers IndexSync Consistency.

Module Effects.
Section Effects.
Context {E : Type} {SE : StorageEngine E} {SL : StorageLaws E} {QE : QueryEngine E} (indeterminate : ProjectionType) (parse : bytes -> option Json).

(** The same tables with the same rows. *)
Definition unchanged (w w' : World E) : Prop :=
  Tables.tables_ (tables w') = Tables.tables_ (tables w) /\ forall t, se_names t [] -> se_rows (storage w') t = se_rows (storage w) t.

Lemma unchanged_refl w : unchanged w w.
Proof. done. Qed.

(** A reply that is an error comes with an unchanged world. *)
Definition faultless (w : World E) (x : ApiResult * World E) : Prop := status x.1 <> 200 -> unchanged w x.2.

Lemma faultless_ok w b w' : faultless w (ok b, w').
Proof. by intros []. Qed.

Lemma faultless_same w r : faultless w (r, w).
Proof. done. Qed.

(** What a mutation reports, and that one that declines changes no rows. *)
Lemma mutate_declined e t k m : se_inv e -> se_names t k -> (forall a, m (mget k (se_rows e t)) = MutationPut a -> se_admits t k a) ->
  previous (se_mutate e t k m).2 = mget k (se_rows e t) /\
  (m (mget k (se_rows e t)) = MutationNone -> forall t', se_names t' [] -> se_rows (se_mutate e t k m).1 t' = se_rows e t').
Proof.
  intros Hi Hn Ha. rewrite se_mutate_outcome by done. split; [done|]. intros Hm t' Ht'. rewrite se_mutate_rows by done. by rewrite Hm.
Qed.

Ltac ends := first [apply faultless_same|apply faultless_ok].

Lemma put_faultless env doc w r w' : synced w -> put_ok doc w -> handle_put_item env doc w = Some (r, w') -> faultless w (r, w').
Proof.
  intros Hw Hok H. unfold handle_put_item in H. destruct (get_string_at doc "TableName") as [name|] eqn:E1; [|injection H as <- <-; ends].
  destruct (find_table w name) as [def|] eqn:E2; [|injection H as <- <-; ends]. destruct (at_key doc "Item") as [el|] eqn:E3; [|injection H as <- <-; ends].
  destruct (parse_attribute_map el) as [item|] eqn:E4; [|injection H as <- <-; ends]. destruct (negb _); [injection H as <- <-; ends|].
  destruct (validate_item_standard item def); [|injection H as <- <-; ends]. destruct (read_condition doc) as [c|]; [|injection H as <- <-; ends].
  pose proof (Hok _ _ _ _ E1 E2 E3 E4) as [Ha _]. destruct (synced_found w name def Hw E2) as (-> & _ & _).
  set (m := fun current => _) in H. destruct (mutate_declined (storage w) (table_name def) (encode_primary_key def item) m) as [Hold Hsame];
    [apply Hw|by eapply se_admits_names|intros a; unfold m; destruct (check_condition c _); by intros [= <-]|].
  destruct (se_mutate _ _ _ _) as [e outcome]. cbn [fst snd] in *. rewrite Hold in H. unfold m in Hsame.
  destruct (check_condition c _); [|injection H as <- <-; intros _; split; [done|by apply Hsame]..].
  destruct (emit_stream _ _ _ _ _ _ _ _) as [w1|]; [|done]. destruct (mget _ (se_rows _ _)) as [old|]; [|injection H as <- <-; ends].
  destruct (bytes_eqb _ _); [|injection H as <- <-; ends]. unfold attributes_reply in H. destruct (serialize_item old); [|done]. injection H as <- <-. ends.
Qed.

Lemma delete_faultless env doc w r w' : synced w -> key_ok doc w -> handle_delete_item env doc w = Some (r, w') -> faultless w (r, w').
Proof.
  intros Hw Hok H. unfold handle_delete_item in H. destruct (get_string_at doc "TableName") as [name|] eqn:E1; [|injection H as <- <-; ends].
  destruct (find_table w name) as [def|] eqn:E2; [|injection H as <- <-; ends]. destruct (read_key def doc) as [key_map|] eqn:E3; [|injection H as <- <-; ends].
  destruct (read_condition doc) as [c|]; [|injection H as <- <-; ends].
  set (m := fun current => _) in H. destruct (mutate_declined (storage w) name (encode_primary_key def key_map) m) as [Hold Hsame];
    [apply Hw|by eapply Hok|intros a; unfold m; by destruct (check_condition c _)|].
  destruct (se_mutate _ _ _ _) as [e outcome]. cbn [fst snd] in *. rewrite Hold in H. unfold m in Hsame.
  destruct (check_condition c _); [|injection H as <- <-; intros _; split; [done|by apply Hsame]..].
  destruct (mget _ (se_rows _ _)) as [old|]; [|injection H as <- <-; ends]. destruct (emit_stream _ _ _ _ _ _ _ _) as [w1|]; [|done].
  destruct (bytes_eqb _ _); [|injection H as <- <-; ends]. unfold attributes_reply in H. destruct (serialize_item old); [|done]. injection H as <- <-. ends.
Qed.

Lemma attributes_reply_ok item r : attributes_reply item = Some r -> status r = 200.
Proof. unfold attributes_reply. destruct (serialize_item item); [|done]. by intros [= <-]. Qed.

Lemma update_reply_ok rv old new r : update_reply rv old new = Some r -> status r = 200.
Proof. unfold update_reply. intros H. repeat case_match; simplify_eq; try done; by eapply attributes_reply_ok. Qed.

Lemma update_faultless env doc w r w' : synced w -> update_ok doc w -> handle_update_item env doc w = Some (r, w') -> faultless w (r, w').
Proof.
  intros Hw Hok H. unfold handle_update_item in H. destruct (get_string_at doc "TableName") as [name|] eqn:E1; [|injection H as <- <-; ends].
  destruct (find_table w name) as [def|] eqn:E2; [|injection H as <- <-; ends]. destruct (read_key def doc) as [key_map|] eqn:E3; [|injection H as <- <-; ends].
  destruct (read_condition doc) as [c|] eqn:E4; [|injection H as <- <-; ends]. destruct (synced_found w name def Hw E2) as (-> & _ & _).
  set (m := fun current => _) in H. destruct (mutate_declined (storage w) (table_name def) (encode_primary_key def key_map) m) as [Hold Hsame];
    [apply Hw|by eapply Hok|..].
  { intros a Ha. unfold m in Ha. destruct (check_condition c _); try discriminate Ha. destruct (updated_item _ _ _ _) as [[i|]|] eqn:Eu; try discriminate Ha. injection Ha as <-.
    destruct (proj2 Hok _ _ _ _ _ E1 E2 E3 E4 Eu) as [[Hs _] ->]. done. }
  destruct (se_mutate _ _ _ _) as [e outcome]. cbn [fst snd] in *. rewrite Hold in H. unfold m in Hsame.
  destruct (check_condition c _); [|injection H as <- <-; intros _; split; [done|by apply Hsame]..].
  destruct (updated_item _ _ _ _) as [[new_item|]|]; [|injection H as <- <-; intros _; split; [done|by apply Hsame]|done].
  destruct (emit_stream _ _ _ _ _ _ _ _) as [w1|]; [|done]. destruct (update_reply _ _ _) as [r1|] eqn:Er; [|done]. injection H as <- <-. intros Hr. by apply update_reply_ok in Er.
Qed.

Lemma get_faultless env doc w r w' : handle_get_item env doc w = Some (r, w') -> faultless w (r, w').
Proof.
  intros H. unfold handle_get_item, item_reply in H. destruct (get_string_at doc "TableName") as [name|]; [|injection H as <- <-; ends].
  destruct (find_table w name) as [def|]; [|injection H as <- <-; ends]. destruct (read_key def doc) as [key_map|]; [|injection H as <- <-; ends].
  destruct (se_get _ _ _) as [item|]; [|injection H as <- <-; ends]. destruct (item_is_expired _ _ _); [injection H as <- <-; ends|].
  destruct (get_string_at doc "ProjectionExpression"); [destruct (apply_projection _ _ _) as [projected []]; [injection H as <- <-; ends|]|];
    destruct (serialize_item _); [|done|..]; try done; injection H as <- <-; ends.
Qed.

(** ** The other operations *)

Lemma create_table_faultless doc w : faultless w (handle_create_table indeterminate doc w).
Proof.
  unfold handle_create_table. destruct (bool_decide _); [ends|]. destruct (bool_decide _); [ends|]. unfold Tables.create_table. destruct (mget _ _); [|ends]. by intros _.
Qed.

Lemma delete_table_faultless doc w : faultless w (handle_delete_table doc w).
Proof.
  unfold handle_delete_table. destruct (get_string_at _ _); [|ends]. unfold Tables.delete_table. destruct (mget _ _); [ends|]. by intros _.
Qed.

Lemma ttl_faultless doc w : faultless w (handle_update_time_to_live doc w).
Proof.
  unfold handle_update_time_to_live. destruct (get_string_at _ _); [|ends]. destruct (at_key _ _) as [el|]; [|ends]. destruct (get_string_at el _); [|ends].
  destruct (get_bool_at _ _); [|ends]. unfold Tables.set_ttl. destruct (mget _ _); [ends|]. by intros _.
Qed.

Lemma batch_faultless env doc w r w' : Writes.handle_batch_write_item env doc w = Some (r, w') -> faultless w (r, w').
Proof.
  unfold Writes.handle_batch_write_item. intros H. destruct (at_key _ _) as [[]|]; try (injection H as <- <-; ends).
  destruct (Writes.batch_tables _ _ _); [|injection H as <- <-; ends]. destruct (25 <? _); [injection H as <- <-; ends|]. destruct (Writes.apply_ops _ _ _ _); [|done]. injection H as <- <-. ends.
Qed.

Lemma transact_reply env entries w r w' : Writes.transact env entries w = Some (r, Some w') -> status r = 200.
Proof.
  unfold Writes.transact. destruct (Writes.read_actions _ _ _); [|done]. destruct (negb _); [done|]. destruct (Writes.check_actions _ _) as [[]|]; [|done..].
  destruct (Writes.apply_actions _ _ _ _); [|done]. by intros [= <- <-].
Qed.

Lemma transact_faultless env t1 t2 raw doc cache w r cache' w' : Writes.handle_transact_write_items env t1 t2 raw doc cache w = Some (r, cache', w') -> faultless w (r, w').
Proof.
  intros H. unfold Writes.handle_transact_write_items in H. destruct (get_array_at _ _) as [entries|]; [|injection H as <- <- <-; ends]. destruct (100 <? _); [injection H as <- <- <-; ends|].
  assert (Hrun : forall c (store : Writes.Idempotency.Cache -> Writes.Idempotency.Cache), match Writes.transact env entries w with None => None | Some (r, None) => Some (r, c, w) | Some (r, Some w) => Some (r, store c, w) end = Some (r, cache', w') -> faultless w (r, w')).
  { intros c store Hr. destruct (Writes.transact env entries w) as [[r1 [w1|]]|] eqn:Et; [|injection Hr as <- <- <-; ends|done]. injection Hr as <- <- <-. intros Hst. by apply transact_reply in Et. }
  destruct (get_string_at doc "ClientRequestToken") as [[|c token]|]; [by eapply (Hrun cache id)| |by eapply (Hrun cache id)].
  destruct (Writes.Idempotency.lookup _ _ _ _) as [cache1 [|cached|]]; [by eapply Hrun|injection H as <- <- <-; ends..].
Qed.

Lemma statement_faultless env i stmt params w r w' : PartiQL.execute_partiql env i stmt params w = Some (r, w') -> faultless w (r, w').
Proof.
  unfold PartiQL.execute_partiql. intros H. destruct (PartiQL.plan_statement _ _ _) as [[plan|]|]; [|injection H as <- <-; ends|done].
  destruct plan; cbn [PartiQL.perform] in H; unfold PartiQL.perform_select in H; (match type of H with option_map _ ?x = _ => destruct x eqn:Ex end; [|done]); injection H as <- <-; try ends.
Qed.

Lemma execute_faultless env doc w r w' : PartiQL.handle_execute_statement env doc w = Some (r, w') -> faultless w (r, w').
Proof.
  unfold PartiQL.handle_execute_statement. intros H. destruct (get_string_at _ _); [|injection H as <- <-; ends].
  destruct (PartiQL.read_parameters _); [|injection H as <- <-; ends]. by eapply statement_faultless.
Qed.

Lemma restore_into_faultless def target items w : faultless w (Admin.restore_into def target items w).
Proof. unfold Admin.restore_into, Tables.create_table. destruct (mget _ _); [|ends]. by intros _. Qed.

Lemma restore_faultless doc m w : faultless w (Admin.handle_restore_table_from_backup doc m w).
Proof.
  unfold Admin.handle_restore_table_from_backup. destruct (get_string_at doc "BackupArn"); [|ends]. destruct (get_string_at doc "TargetTableName"); [|ends].
  destruct (Backups.restore_backup _ _); [|ends]. apply restore_into_faultless.
Qed.

Lemma restore_pit_faultless doc w : faultless w (Admin.handle_restore_table_to_pit doc w).
Proof.
  unfold Admin.handle_restore_table_to_pit. destruct (get_string_at doc "SourceTableName"); [|ends]. destruct (get_string_at doc "TargetTableName"); [|ends].
  destruct (find_table _ _); [|ends]. apply restore_into_faultless.
Qed.

Lemma dispatch_faultless r op raw doc s res s' : op <> Dispatcher.BatchExecuteStatement -> synced (Service.world s) -> admissible indeterminate r op doc s ->
  Service.dispatch indeterminate r op raw doc s = Some (res, s') -> faultless (Service.world s) (res, Service.world s').
Proof.
  intros Hop Hs Hok H. destruct op; cbn [Service.dispatch admissible] in *; try done;
    try (injection H as <- <-; ends);
    try (match type of H with Service.reads _ ?x = _ => destruct x; [|done]; injection H as <- <-; ends end);
    try (unfold Service.on_streams in H; destruct (streams _) as [m|]; [|injection H as <- <-; ends];
         match type of H with option_map _ ?x = _ => destruct x; [|done]; injection H as <- <-; by intros _ end);
    try (unfold Service.on_backups in H; destruct (Service.backups s) as [m|] eqn:Em; [|injection H as <- <-; ends]; try (injection H as <- <-; ends));
    try (match type of H with Service.may _ ?x = _ => destruct x as [[r1 w1]|] eqn:Ex; [|done]; injection H as <- <- end;
         first [by eapply put_faultless|by eapply get_faultless|by eapply delete_faultless|by eapply update_faultless|by eapply batch_faultless|by eapply execute_faultless]);
    try (injection H as <- <-;
         first [apply create_table_faultless|apply delete_table_faultless|apply ttl_faultless|apply restore_faultless|apply restore_pit_faultless
               |unfold handle_describe_table, handle_describe_time_to_live, handle_update_table; repeat case_match; ends]).
  - destruct (Admin.handle_create_backup _ _ _ _ _) as [[]|]; [|done]. injection H as <- <-. ends.
  - destruct (Admin.handle_delete_backup _ _) as []. injection H as <- <-. ends.
  - destruct (Writes.handle_transact_write_items _ _ _ _ _ _ _) as [[[r1 c1] w1]|] eqn:Et; [|done]. injection H as <- <-. by eapply transact_faultless.
Qed.

Lemma take_capacity_world r op doc (s s1 : Service.Server E) admitted : Service.take_capacity r op doc s = (s1, admitted) ->
  Service.world s1 = Service.world s /\ Service.backups s1 = Service.backups s.
Proof.
  unfold Service.take_capacity. destruct (_ || _); [|by intros [= <- <-]]. destruct (Service.capacity s); [|by intros [= <- <-]].
  destruct (get_string_at _ _); [|by intros [= <- <-]]. destruct (if Service.is_read_op op then _ else _) as [m1 c1]. by intros [= <- <-].
Qed.

End Effects.

(** ** Requests on the in-memory engine *)

Section Demo.
Import MemoryEngine.

(** A put that must not overwrite. *)
Definition guarded_put : bytes := q "{'TableName':'T','Item':{'pk':{'S':'a'},'g':{'S':'z'}},'ConditionExpression':'attribute_not_exists(pk)'}".

Definition guarded_reply : option (ApiResult * Service.Server MemoryEngine.t) :=
  Service.handle_operation PT_ALL read_json demo_readings Dispatcher.PutItem guarded_put demo_final.


(** A batch of statements that fails after its first statement wrote: the reply is an
    error, and the table has one more row. *)
Definition half_batch : bytes :=
  q "{'Statements':[{'Statement':'INSERT INTO T VALUE ?','Parameters':[{'M':{'pk':{'S':'b'}}}]},{'Parameters':[]}]}".

Lemma failed_batch_writes :
  option_map (fun x => (status x.1, length (MemoryEngine.table_of (storage (Service.world x.2)) (lit "T"))))
    (Service.handle_operation PT_ALL read_json demo_readings Dispatcher.BatchExecuteStatement half_batch demo_final) = Some (400, 2%nat) /\
  length (MemoryEngine.table_of (storage (Service.world demo_final)) (lit "T")) = 1%nat.
Proof. split; vm_compute; reflexivity. Qed.

(** Time to live: the read that reaps an expired item leaves its entry in the index. *)
Definition expiry_history : list (Dispatcher.Operation * bytes) :=
  [(Dispatcher.CreateTable, demo_create);
   (Dispatcher.UpdateTimeToLive, q "{'TableName':'T','TimeToLiveSpecification':{'AttributeName':'v','Enabled':true}}");
   (Dispatcher.PutItem, demo_put (lit "x"));
   (Dispatcher.GetItem, q "{'TableName':'T','Key':{'pk':{'S':'a'}}}")].

Lemma reaped_item_stays_in_index :
  let e := storage (Service.world (fold_left demo_run expiry_history demo_server)) in
  MemoryEngine.table_of e (lit "T") = [] /\ length (MemoryEngine.table_of e (index_table demo_def demo_index)) = 1%nat.
Proof. vm_compute. done. Qed.

(** UpdateItem accepts an update of a key attribute: the item is then under a key that is
    not its own. *)
Definition rekey_history : list (Dispatcher.Operation * bytes) :=
  demo_history ++ [(Dispatcher.UpdateItem, q "{'TableName':'T','Key':{'pk':{'S':'a'}},'UpdateExpression':'SET pk = :n','ExpressionAttributeValues':{':n':{'S':'b'}}}")].

Lemma update_changes_key :
  match MemoryEngine.table_of (storage (Service.world (fold_left demo_run rekey_history demo_server))) (lit "T") with
  | [(k, item)] => bytes_eqb k (encode_primary_key demo_def item) = false
  | _ => False
  end.
Proof. vm_compute. done. Qed.
End Demo.
End Effects.
