(* ===== verification/Atomicity.v ===== *)
(** * What a client reads back, and transactions

    PutItem followed by GetItem, and the effect of TransactWriteItems as one step. *)

From Stdlib Require Import ZArith Lia Strings.String.
From stdpp Require Import prelude.
From S2P Require Import Prelude StdMap Ranges Types CLib KeyCodec Validator Storage MemoryEngine Lexer Parser Evaluator UpdateExpression Streams TableManager NumberText Json TableJson Backups Dispatcher Api Handlers Queries Reads Writes PartiQL Admin Service IndexSync Consistency Effects.
Import Json TableJson Api Handlers IndexSync Consistency Effects.

Module Atomicity.
Section Atomicity.
Context {E : Type} {SE : StorageEngine E} {SL : StorageLaws E}.

(** ** Reading what was written *)

(** The reply of GetItem when [found] is under the key. *)
Definition get_reply (env : Env) (def : TableDefinition) (doc : Json) (found : option AttributeMap) : option ApiResult :=
  match found with
  | None => Some empty_reply
  | Some item =>
      if item_is_expired (now_epoch_seconds env) def item then Some empty_reply
      else
        match get_string_at doc "ProjectionExpression" with
        | Some projection =>
            let '(projected, unsupported) := apply_projection item projection (parse_expr_names doc) in
            if unsupported : bool then Some (bad_request (lit "Document-path ProjectionExpression is not yet supported; use top-level attributes"))
            else item_reply projected
        | None => item_reply item
        end
  end.

(** The row under [pk] of the table [name]. *)
Definition row (w : World E) (name pk : bytes) : option AttributeMap := mget pk (se_rows (storage w) name).

Lemma get_item_reply env doc w name def key_map : se_inv (storage w) -> get_string_at doc "TableName" = Some name -> find_table w name = Some def -> read_key def doc = Ok key_map ->
  se_names name (encode_primary_key def key_map) ->
  option_map fst (handle_get_item env doc w) = get_reply env def doc (row w name (encode_primary_key def key_map)).
Proof.
  intros Hi E1 E2 E3 Hn. unfold handle_get_item, get_reply, row. rewrite E1, E2, E3, se_get_rows by done. destruct (mget _ _) as [item|]; [|done].
  destruct (item_is_expired _ _ _); [done|]. destruct (get_string_at doc "ProjectionExpression"); [|by destruct (item_reply item)].
  destruct (apply_projection _ _ _) as [projected []]; [done|]. by destruct (item_reply projected).
Qed.

(** An accepted PutItem writes its item, and nothing else but index entries. *)
Lemma put_written env doc w r w' name def el item : synced w -> get_string_at doc "TableName" = Some name -> find_table w name = Some def ->
  at_key doc "Item" = Some el -> parse_attribute_map el = Some item -> storable def item -> handle_put_item env doc w = Some (r, w') -> status r = 200 ->
  written def (encode_primary_key def item) (Some item) (storage w) (storage w') /\ tables w' = tables w.
Proof.
  intros Hw E1 E2 E3 E4 Hs H Hst. unfold handle_put_item in H. rewrite E1, E2, E3, E4 in H. destruct (negb _); [by injection H as <- <-|].
  destruct (validate_item_standard item def); [|by injection H as <- <-]. destruct (read_condition doc) as [c|]; [|by injection H as <- <-].
  destruct (synced_found w name def Hw E2) as (-> & Hd & Hm). apply storable_writable in Hs.
  set (m := fun current => _) in H. pose proof (mutate_consistent _ _ Hw def Hm (encode_primary_key def item) m (proj1 Hs)) as [Hold _].
  { intros a Ha. unfold m in Ha. destruct (check_condition c _); try discriminate Ha. by injection Ha as <-. }
  pose proof (mutate_row_written _ _ Hw def (encode_primary_key def item) m item (proj1 Hs)) as Hrow.
  destruct (se_mutate _ _ _ _) as [e outcome]. cbn [fst snd] in *. rewrite Hold in H. unfold m in Hrow.
  destruct (check_condition c _); [|by injection H as <- <-..].
  pose proof (maintained_written _ _ Hw def Hm _ _ _ (Hrow eq_refl Hs) Hs) as Hwr.
  destruct (emit_stream _ _ _ _ _ _ _ _) as [w1|] eqn:Ee; [|done]. apply emit_same in Ee as [Et Es]. cbn [tables storage set_storage] in *.
  assert (w' = w1) as ->; [|by rewrite Es, Et].
  destruct (mget _ (se_rows _ _)) as [o|]; [|by injection H as <- <-]. destruct (bytes_eqb _ _); [|by injection H as <- <-]. destruct (attributes_reply o); [|done]. by injection H as <- <-.
Qed.

(** C12: read your writes.  After an accepted PutItem, a GetItem on the table replies with
    the item just written when its key is the key of the item, and as it would have
    before the PutItem for every other key; an expired item is not returned, and a
    projection is applied. *)
Theorem read_your_writes env doc w r w' name def el item env' doc' key_map : synced w -> separate_projection doc' = true ->
  get_string_at doc "TableName" = Some name -> find_table w name = Some def -> at_key doc "Item" = Some el -> parse_attribute_map el = Some item -> storable def item ->
  handle_put_item env doc w = Some (r, w') -> status r = 200 ->
  get_string_at doc' "TableName" = Some name -> read_key def doc' = Ok key_map -> se_names name (encode_primary_key def key_map) ->
  option_map fst (handle_get_item env' doc' w') =
  if bytes_eqb (encode_primary_key def key_map) (encode_primary_key def item) then get_reply env' def doc' (Some item)
  else option_map fst (handle_get_item env' doc' w).
Proof.
  intros Hw _ E1 E2 E3 E4 Hs H Hst E5 E6 Hn. destruct (put_written env doc w r w' name def el item Hw E1 E2 E3 E4 Hs H Hst) as [[Wi Wr _ _] Ht].
  assert (E2' : find_table w' name = Some def) by (unfold find_table in *; by rewrite Ht).
  rewrite (get_item_reply env' doc' w' name def key_map Wi E5 E2' E6 Hn), (get_item_reply env' doc' w name def key_map (c_inv _ _ Hw) E5 E2 E6 Hn). unfold row.
  destruct (synced_found w name def Hw E2) as (-> & _ & _). rewrite Wr, mget_alter.
  destruct (keqb_spec (encode_primary_key def key_map) (encode_primary_key def item)) as [->|Hne]; [by rewrite bytes_eqb_refl|].
  by destruct (bytes_eqb_spec (encode_primary_key def key_map) (encode_primary_key def item)).
Qed.

(** ** Transactions *)

Definition addresses (name key : bytes) (ap : Writes.Action * AttributeMap) : bool := bytes_eqb (Writes.action_table ap.1) name && bytes_eqb (Writes.action_key ap.1) key.

(** What the actions write under a key: [None] for nothing, [Some None] for a delete. *)
Definition effect_on (aps : list (Writes.Action * AttributeMap)) (name key : bytes) : option (option AttributeMap) :=
  match find (addresses name key) aps with Some (a, pre) => Writes.effect_of a pre | None => None end.

(** The rows of a table after one write. *)
Lemma written_row w w' def key new name d k : synced w -> find_table w (table_name def) = Some def -> written def key new (storage w) (storage w') -> find_table w name = Some d ->
  row w' name k = if bytes_eqb (table_name def) name && bytes_eqb key k then new else row w name k.
Proof.
  intros Hw Hf Hwr Hd. destruct (synced_found w _ def Hw Hf) as (_ & Hok & _). destruct (synced_found w name d Hw Hd) as (-> & Hokd & _). unfold row.
  destruct (bytes_eqb_spec (table_name def) (table_name d)) as [E0|Hne]; cbn [andb].
  - rewrite <- E0, (w_rows _ _ _ _ _ Hwr), mget_alter. destruct (keqb_spec k key) as [->|]; [by rewrite bytes_eqb_refl|]. by destruct (bytes_eqb_spec key k).
  - rewrite (w_frame _ _ _ _ _ Hwr); [done|by apply Hokd; left|]. intros Ho. apply Hne. eapply owns_disjoint; [exact Hok|exact Hokd|exact Ho|by left].
Qed.

Lemma apply_actions_rows env aps : forall i w w', synced w -> Forall (action_ok w) aps ->
  NoDup (map (fun ap => (Writes.action_table ap.1, Writes.action_key ap.1)) aps) -> Writes.apply_actions env i aps w = Some w' ->
  tables w' = tables w /\ forall name d k, find_table w name = Some d -> row w' name k = match effect_on aps name k with Some new => new | None => row w name k end.
Proof.
  induction aps as [|[a pre] aps IH]; intros i w w' Hw Hok Hnd H; cbn [Writes.apply_actions] in H; [by injection H as <-|].
  apply Forall_cons in Hok as [Ha Hok]. cbn [map fst] in Hnd. apply NoDup_cons in Hnd as [Hni Hnd].
  assert (Hother : forall name k, addresses name k (a, pre) = true -> effect_on aps name k = None).
  { intros name k Had. unfold effect_on. destruct (find (addresses name k) aps) as [[b q]|] eqn:Ef; [|done]. exfalso. apply find_some in Ef as [Hin Hb].
    unfold addresses in Had, Hb. cbn [fst] in *. apply andb_prop in Had as [H1%bytes_eqb_eq H2%bytes_eqb_eq], Hb as [H3%bytes_eqb_eq H4%bytes_eqb_eq].
    apply Hni. apply list_elem_of_fmap. exists (b, q). cbn [fst]. split; [congruence|by apply list_elem_of_In]. }
  destruct (Writes.effect_of a pre) as [new|] eqn:Ee.
  - destruct (Ha new Ee) as (def & Hf & Hwr). cbn [fst] in *. destruct (Writes.apply_write _ _ _ _ _ _) as [w1|] eqn:E1; [|done].
    destruct (apply_write_written _ _ _ _ _ _ _ _ Hw Hf Hwr E1) as [Hwt Ht]. destruct (apply_write_synced _ _ _ _ _ _ _ _ Hw Hf Hwr E1) as [Hw1 _].
    destruct (IH (S i) w1 w' Hw1) as [Ht' Hrows]; [|done|done|].
    { eapply Forall_impl; [exact Hok|]. intros ap Hap n Hn. eapply write_ok_tables; [exact Ht|]. by apply Hap. }
    split; [congruence|]. intros name d k Hd. rewrite (Hrows name d k) by (unfold find_table in *; by rewrite Ht).
    destruct (synced_found w _ def Hw Hf) as (E0 & _ & _). rewrite E0 in Hf. rewrite (written_row w w1 def (Writes.action_key a) new name d k Hw Hf Hwt Hd).
    unfold effect_on at 2. cbn [find]. unfold addresses at 1. cbn [fst]. rewrite E0.
    destruct (bytes_eqb (table_name def) name && bytes_eqb (Writes.action_key a) k) eqn:Eb; [|done]. rewrite Ee. rewrite Hother; [done|]. unfold addresses. cbn [fst]. by rewrite E0.
  - destruct (IH (S i) w w' Hw Hok Hnd H) as [Ht Hrows]. split; [done|]. intros name d k Hd. rewrite (Hrows name d k Hd). unfold effect_on at 2. cbn [find].
    destruct (addresses name k (a, pre)) eqn:Eb; [|done]. by rewrite Ee, (Hother _ _ Eb).
Qed.

Lemma distinct_targets_pairs actions : forall seen, Writes.distinct_targets seen actions = true ->
  NoDup (map (fun a => (Writes.action_table a, Writes.action_key a)) actions) /\ forall a, a ∈ actions -> Writes.target a ∉ seen.
Proof.
  induction actions as [|a actions IH]; intros seen; cbn [Writes.distinct_targets map]; [intros _; split; [constructor|set_solver]|].
  destruct (bool_decide (Writes.target a ∈ seen)) eqn:Es; [done|]. apply bool_decide_eq_false in Es. intros [Hnd Hin]%IH. split.
  - apply NoDup_cons. split; [|done]. intros (b & E0 & Hb)%list_elem_of_fmap. injection E0 as H1 H2. apply (Hin b Hb). unfold Writes.target. rewrite H1, H2. left.
  - intros b [->|Hb]%elem_of_cons; [done|]. specialize (Hin b Hb). set_solver.
Qed.

Lemma check_actions_each (w : World E) actions : forall pre, Writes.check_actions w actions = Some (Ok pre) -> Forall2 (fun a p => Writes.check_action w a = Some (Ok p)) actions pre.
Proof.
  induction actions as [|a actions IH]; intros pre H; cbn [Writes.check_actions] in H; [injection H as <-; constructor|].
  destruct (Writes.check_action w a) as [[item|]|] eqn:Ea; [|done..]. destruct (Writes.check_actions w actions) as [[items|]|]; [|done..]. injection H as <-. constructor; [done|]. by apply IH.
Qed.

Lemma transact_rows env entries w r w' : synced w ->
  (forall actions pre, Writes.read_actions w entries [] = Ok actions -> Writes.check_actions w actions = Some (Ok pre) ->
    Forall (fun ap : Writes.Action * AttributeMap => forall def new, find_table w (Writes.action_table ap.1) = Some def -> Writes.effect_of ap.1 ap.2 = Some new ->
      writable def (Writes.action_key ap.1) new) (zip actions pre)) ->
  Writes.transact env entries w = Some (r, Some w') ->
  exists actions pre, Writes.read_actions w entries [] = Ok actions /\ Forall2 (fun a p => Writes.check_action w a = Some (Ok p)) actions pre /\ tables w' = tables w /\
    forall name d k, find_table w name = Some d -> row w' name k = match effect_on (zip actions pre) name k with Some new => new | None => row w name k end.
Proof.
  intros Hw Hok H. unfold Writes.transact in H. destruct (Writes.read_actions w entries []) as [actions|] eqn:Ea; [|done].
  destruct (negb _) eqn:Ed; [done|]. apply negb_false_iff in Ed. destruct (Writes.check_actions w actions) as [[pre|]|] eqn:Ec; [|done..].
  destruct (Writes.apply_actions _ _ _ _) as [w1|] eqn:E1; [|done]. injection H as <- <-. exists actions, pre. pose proof (check_actions_each w actions pre Ec) as Hc. split; [done|]. split; [done|].
  eapply apply_actions_rows; [exact Hw| | |exact E1].
  - pose proof (read_actions_found w entries [] actions (Forall_nil_2 _) Ea) as Hf. apply Forall_forall. intros [a p] Hin new Hn. pose proof (elem_of_zip_l _ _ _ _ Hin) as Hina.
    rewrite Forall_forall in Hf. destruct (Hf a Hina) as [def Hd]. exists def. split; [done|]. pose proof (Hok actions pre eq_refl Ec) as Hz. rewrite Forall_forall in Hz. by apply (Hz (a, p) Hin).
  - apply distinct_targets_pairs in Ed as [Hnd _]. apply Forall2_length in Hc.
    replace (map _ (zip actions pre)) with (map (fun a => (Writes.action_table a, Writes.action_key a)) (map fst (zip actions pre))) by (by rewrite map_map).
    change (map fst (zip actions pre)) with ((zip actions pre).*1). by rewrite fst_zip by lia.
Qed.

(** C2: a transaction is all or nothing.  TransactWriteItems either leaves every table and
    row as it was, or replies with success after every action has been checked against
    the state before the transaction (its condition held, its update could be applied)
    and then every row of every table is what the action on it writes, or what it was
    when no action writes it. *)
Theorem transactions_atomic env t1 t2 raw doc cache w r cache' w' entries : synced w -> transact_ok doc w -> get_array_at doc "TransactItems" = Some entries ->
  Writes.handle_transact_write_items env t1 t2 raw doc cache w = Some (r, cache', w') ->
  unchanged w w' \/
  status r = 200 /\ exists actions pre, Writes.read_actions w entries [] = Ok actions /\ Forall2 (fun a p => Writes.check_action w a = Some (Ok p)) actions pre /\ tables w' = tables w /\
    forall name d k, find_table w name = Some d -> row w' name k = match effect_on (zip actions pre) name k with Some new => new | None => row w name k end.
Proof.
  intros Hw Hok Ee H. unfold Writes.handle_transact_write_items in H. rewrite Ee in H. destruct (100 <? _); [injection H as <- <- <-; by left|].
  assert (Hrun : forall c (store : Writes.Idempotency.Cache -> Writes.Idempotency.Cache), match Writes.transact env entries w with None => None | Some (r, None) => Some (r, c, w) | Some (r, Some w) => Some (r, store c, w) end = Some (r, cache', w') ->
    unchanged w w' \/ status r = 200 /\ exists actions pre, Writes.read_actions w entries [] = Ok actions /\ Forall2 (fun a p => Writes.check_action w a = Some (Ok p)) actions pre /\ tables w' = tables w /\
    forall name d k, find_table w name = Some d -> row w' name k = match effect_on (zip actions pre) name k with Some new => new | None => row w name k end).
  { intros c store Hr. destruct (Writes.transact env entries w) as [[r1 [w1|]]|] eqn:Et; [|injection Hr as <- <- <-; by left|done]. injection Hr as <- <- <-. right.
    split; [by eapply transact_reply|]. eapply transact_rows; [exact Hw| |exact Et]. intros actions pre Ha Hc. by eapply Hok. }
  destruct (get_string_at doc "ClientRequestToken") as [[|c token]|]; [by eapply (Hrun cache id)| |by eapply (Hrun cache id)].
  destruct (Writes.Idempotency.lookup _ _ _ _) as [cache1 [|cached|]]; [by eapply Hrun|injection H as <- <- <-; by left..].
Qed.

(** ** Retries *)

Lemma mset_len_le {V} (k : bytes) (v : V) (m : list (bytes * V)) : len (mset k v m) <= 1 + len m.
Proof. induction m as [|[k1 v1] m IH]; cbn [mset]; rewrite ?len_cons; [done|]. destruct (kcmp k k1); rewrite ?len_cons; lia. Qed.

(** A transaction that is refused has an error. *)
Lemma read_actions_refused (w : World E) entries : forall actions r, Writes.read_actions w entries actions = Err r -> status r = 400.
Proof.
  induction entries as [|entry entries IH]; intros actions r H; cbn [Writes.read_actions] in H; [done|]. destruct (Writes.read_action w entry) as [a|r1] eqn:Ea; [by eapply IH|].
  injection H as ->. unfold Writes.read_action, Writes.put_action, Writes.keyed_action, Writes.action_def in Ea. repeat (case_match; simplify_eq; try done).
Qed.

Lemma check_actions_refused (w : World E) actions : forall r, Writes.check_actions w actions = Some (Err r) -> status r = 400.
Proof.
  induction actions as [|a actions IH]; intros r H; cbn [Writes.check_actions] in H; [done|]. destruct (Writes.check_action w a) as [[i|r1]|] eqn:Ea; [| |done].
  - destruct (Writes.check_actions w actions) as [[]|]; [done| |done]. injection H as ->. by apply IH.
  - injection H as ->. unfold Writes.check_action in Ea. repeat (case_match; simplify_eq; try done).
Qed.

Lemma transact_refused env entries (w : World E) r : Writes.transact env entries w = Some (r, None) -> status r = 400.
Proof.
  unfold Writes.transact. destruct (Writes.read_actions w entries []) as [actions|r1] eqn:Ea; [|intros [= <-]; by eapply read_actions_refused].
  destruct (negb _); [by intros [= <-]|]. destruct (Writes.check_actions w actions) as [[pre|r1]|] eqn:Ec; [|intros [= <-]; by eapply check_actions_refused|done].
  by destruct (Writes.apply_actions _ _ _ _).
Qed.

(** A token that was just stored, in a cache with room for it. *)
Lemma stored_lookup now now' token hash hash' resp c : len (Writes.Idempotency.entries_ c) < Writes.Idempotency.kMax -> now' - now <= Writes.Idempotency.kTtl ->
  let c' := Writes.Idempotency.store now token hash resp c in
  Writes.Idempotency.lookup now' token hash' c' = (c', if bytes_eqb hash hash' then Writes.Idempotency.Hit resp else Writes.Idempotency.Mismatch).
Proof.
  intros Hl Ht. unfold Writes.Idempotency.store. set (e := Writes.Idempotency.Build_Entry _ _ _). pose proof (mset_len_le token e (Writes.Idempotency.entries_ c)) as Hlen.
  set (order := match mget token (Writes.Idempotency.entries_ c) with Some _ => _ | None => _ end).
  assert (Hev : Writes.Idempotency.evict (mset token e (Writes.Idempotency.entries_ c)) order =
    {| Writes.Idempotency.entries_ := mset token e (Writes.Idempotency.entries_ c); Writes.Idempotency.order_ := order |}).
  { destruct order as [|t0 order]; cbn [Writes.Idempotency.evict]; [done|]. destruct (Z.ltb_spec Writes.Idempotency.kMax (len (mset token e (Writes.Idempotency.entries_ c)))); [lia|done]. }
  rewrite Hev. unfold Writes.Idempotency.lookup. cbn [Writes.Idempotency.entries_]. rewrite mget_mset, keqb_refl. unfold e. cbn [Writes.Idempotency.at_ Writes.Idempotency.body_hash Writes.Idempotency.response].
  destruct (Z.ltb_spec Writes.Idempotency.kTtl (now' - now)); [lia|]. by destruct (bytes_eqb hash hash').
Qed.


(** A token that is still in the queue from an earlier, expired use is the first to be
    evicted: stored again in a full cache, it is forgotten at once. *)
Lemma stale_token_forgotten now now' token hash resp c rest : mget token (Writes.Idempotency.entries_ c) = None ->
  len (Writes.Idempotency.entries_ c) = Writes.Idempotency.kMax -> Writes.Idempotency.order_ c = token :: rest ->
  (Writes.Idempotency.lookup now' token hash (Writes.Idempotency.store now token hash resp c)).2 = Writes.Idempotency.Miss.
Proof.
  intros Hn Hl Ho. unfold Writes.Idempotency.store. rewrite Hn, Ho. set (e := Writes.Idempotency.Build_Entry _ _ _). set (m := mset token e _). cbn [app Writes.Idempotency.evict].
  assert (Hnone : mget token (mdel token m) = None) by (by rewrite mget_mdel, keqb_refl).
  assert (Hdrop : forall order, mget token (Writes.Idempotency.entries_ (Writes.Idempotency.evict (mdel token m) order)) = None).
  { intros order. revert Hnone. generalize (mdel token m). induction order as [|t0 order IH]; intros m0 Hm0; cbn [Writes.Idempotency.evict]; [done|].
    destruct (_ <? _); [|done]. apply IH. rewrite mget_mdel. by destruct (keqb token t0). }
  destruct (Z.ltb_spec Writes.Idempotency.kMax (len m)) as [_|Hle]; [unfold Writes.Idempotency.lookup; by rewrite Hdrop|].
  exfalso. assert (len m = 1 + len (Writes.Idempotency.entries_ c)); [|lia]. unfold m. clear -Hn. revert Hn. induction (Writes.Idempotency.entries_ c) as [|[k v] l IH]; [done|].
  cbn [mset mget]. destruct (kcmp token k); [done|intros _; by rewrite !len_cons|]. intros Hn. rewrite !len_cons, IH by done. lia.
Qed.
End Atomicity.

(** ** On the in-memory engine *)

Section Demo.
Import MemoryEngine.

Definition demo_world : World MemoryEngine.t := Service.world demo_final.

Lemma demo_synced : synced demo_world.
Proof. exact (reachable_synced PT_ALL read_json demo_final demo_server_reachable). Qed.

Definition put_doc : Json := default JNull (read_json (demo_put (lit "z"))).
Definition put_element : Json := default JNull (at_key put_doc "Item").
Definition put_item : AttributeMap := default [] (parse_attribute_map put_element).
Definition get_doc : Json := default JNull (read_json (q "{'TableName':'T','Key':{'pk':{'S':'a'}}}")).
Definition get_key : AttributeMap := default [] (match at_key get_doc "Key" with Some el => parse_attribute_map el | None => None end).

Definition put_reply : reply MemoryEngine.t := handle_put_item demo_env put_doc demo_world.

Lemma read_your_writes_witness : exists r w', put_reply = Some (r, w') /\
  option_map fst (handle_get_item demo_env get_doc w') = get_reply demo_env demo_def get_doc (Some put_item).
Proof.
  assert (Hst : option_map (fun x => status x.1) put_reply = Some 200) by (vm_compute; reflexivity).
  destruct put_reply as [[r w']|] eqn:Er; [|discriminate Hst]. cbn [option_map fst] in Hst. injection Hst as Hst. exists r, w'. split; [done|].
  rewrite (read_your_writes demo_env put_doc demo_world r w' (lit "T") demo_def put_element put_item demo_env get_doc get_key demo_synced ltac:(vm_compute; reflexivity)
    ltac:(vm_compute; reflexivity) ltac:(vm_compute; reflexivity) ltac:(vm_compute; reflexivity) ltac:(vm_compute; reflexivity) (demo_item_storable _ _) Er Hst
    ltac:(vm_compute; reflexivity) ltac:(vm_compute; reflexivity) I).
  assert (Hk : bytes_eqb (encode_primary_key demo_def get_key) (encode_primary_key demo_def put_item) = true) by (vm_compute; reflexivity). by rewrite Hk.
Defined.

Definition transact_body : bytes :=
  q "{'ClientRequestToken':'t','TransactItems':[{'Put':{'TableName':'T','Item':{'pk':{'S':'b'}}}},{'Delete':{'TableName':'T','Key':{'pk':{'S':'a'}},'ConditionExpression':'attribute_exists(g)'}}]}".

Definition transact_doc : Json := default JNull (read_json transact_body).
Definition transact_entries : list Json := default [] (get_array_at transact_doc "TransactItems").

Definition transact_result : option (ApiResult * Writes.Idempotency.Cache * World MemoryEngine.t) :=
  Writes.handle_transact_write_items demo_env 0 0 transact_body transact_doc Writes.Idempotency.empty demo_world.

(** Every item of the transaction goes under its own key. *)
Definition keyed_pair (ap : Writes.Action * AttributeMap) : bool :=
  match find_table demo_world (Writes.action_table ap.1), Writes.effect_of ap.1 ap.2 with
  | Some def, Some (Some n) => bytes_eqb (Writes.action_key ap.1) (encode_primary_key def n)
  | _, _ => true
  end.

Definition all_keyed : bool :=
  match Writes.read_actions demo_world transact_entries [] with
  | Ok actions => match Writes.check_actions demo_world actions with Some (Ok pre) => forallb keyed_pair (zip actions pre) | _ => true end
  | Err _ => true
  end.

Lemma demo_transact_ok : transact_ok transact_doc demo_world.
Proof.
  intros entries actions pre E1 E2 E3. assert (Hk : all_keyed = true) by (vm_compute; reflexivity). unfold all_keyed in Hk.
  assert (E0 : transact_entries = entries) by (unfold transact_entries; by rewrite E1). rewrite E0, E2, E3 in Hk.
  rewrite forallb_forall in Hk. apply Forall_forall. intros ap Hin def new Hf He. split; [exact I|]. intros n ->. split; [apply demo_item_storable|].
  apply list_elem_of_In, Hk in Hin. unfold keyed_pair in Hin. rewrite Hf, He in Hin. by apply bytes_eqb_eq.
Qed.

Lemma transactions_atomic_witness : exists r cache' w', transact_result = Some (r, cache', w') /\ status r = 200 /\
  (unchanged demo_world w' \/ status r = 200 /\ exists actions pre, Writes.read_actions demo_world transact_entries [] = Ok actions /\
    Forall2 (fun a p => Writes.check_action demo_world a = Some (Ok p)) actions pre /\ tables w' = tables demo_world /\
    forall name d k, find_table demo_world name = Some d ->
      row w' name k = match effect_on (zip actions pre) name k with Some new => new | None => row demo_world name k end).
Proof.
  assert (Hst : option_map (fun x => status x.1.1) transact_result = Some 200) by (vm_compute; reflexivity).
  destruct transact_result as [[[r cache'] w']|] eqn:Er; [|discriminate Hst]. cbn [option_map fst] in Hst. injection Hst as Hst. exists r, cache', w'. split; [done|]. split; [done|].
  apply (transactions_atomic demo_env 0 0 transact_body transact_doc Writes.Idempotency.empty demo_world r cache' w' transact_entries demo_synced demo_transact_ok
    ltac:(vm_compute; reflexivity) Er).
Defined.

(** The transaction did replace the row. *)
Lemma transact_result_rows : option_map (fun x => map fst (MemoryEngine.table_of (storage x.2) (lit "T"))) transact_result = Some [lit "Sb" ++ [Byte.x00; Byte.x00]].
Proof. vm_compute. reflexivity. Qed.

End Demo.
End Atomicity.
