(* ===== verification/ReadsExact.v ===== *)
(** * What Scan and Query return

    The parser of key conditions stays within the tokens; the segments of a parallel scan
    partition the table; a query returns exactly the items of the partition that satisfy
    the condition on the sort key; the cursor of a page names the key to resume from. *)

From Stdlib Require Import ZArith Lia Strings.String Floats.SpecFloat.
From stdpp Require Import prelude.
From S2P Require Import Prelude StdMap Ranges Types CLib KeyCodec Storage MemoryEngine Lexer Parser Evaluator Streams TableManager RecordCodec NumberText Base64 Json TableJson Dispatcher Api Handlers Queries Reads Service IndexSync Consistency.
Import Json TableJson Api Handlers Reads IndexSync Consistency.

Module ReadsExact.

(** ** Key conditions *)

Definition eof_last (ts : list Token) : Prop := exists t, last ts = Some t /\ ttype t = END_OF_FILE.

Definition stays {A} (m : Step A) (ts : list Token) : Prop :=
  match m ts with None => False | Some (Ok (_, ts')) => eof_last ts' | Some (Err _) => True end.

Lemma stays_bind {A B} (m : Step A) (k : A -> Step B) ts : stays m ts -> (forall a ts', m ts = Some (Ok (a, ts')) -> eof_last ts' -> stays (k a) ts') -> stays (step_bind m k) ts.
Proof. unfold stays at 1 3, step_bind. destruct (m ts) as [[[a ts']|]|] eqn:Em; [|done..]. intros He Hk. exact (Hk a ts' eq_refl He). Qed.

Lemma stays_peek {A} (k : Token -> Step A) ts : eof_last ts -> (forall t ts', ts = t :: ts' -> stays (k t) ts) -> stays (step_bind peek k) ts.
Proof. intros (t0 & Hl & _) Hk. destruct ts as [|t ts]; [done|]. unfold stays, step_bind. cbn [peek]. exact (Hk t ts eq_refl). Qed.

Lemma eof_tail t ts : eof_last (t :: ts) -> ttype t <> END_OF_FILE -> eof_last ts.
Proof. intros (t0 & Hl & He) Hne. destruct ts as [|t1 ts]; [cbn in Hl; congruence|]. by exists t0. Qed.

Lemma stays_advance {A} (k : unit -> Step A) t ts : eof_last (t :: ts) -> ttype t <> END_OF_FILE -> (eof_last ts -> stays (k tt) ts) -> stays (step_bind advance k) (t :: ts).
Proof. intros He Hne Hk. unfold stays, step_bind. cbn [advance tail]. apply Hk. by eapply eof_tail. Qed.

Lemma stays_accept {A} (f : Token -> option A) msg ts : (forall t a, f t = Some a -> ttype t <> END_OF_FILE) -> eof_last ts -> stays (accept f msg) ts.
Proof.
  intros Hf He. unfold accept. apply stays_peek; [done|]. intros t ts' ->. destruct (f t) as [a|] eqn:Ef; [|done]. apply stays_advance; [done|by eapply Hf|done].
Qed.

Lemma stays_finish c ts : eof_last ts -> stays (finish c) ts.
Proof. intros He. unfold finish. apply stays_peek; [done|]. intros t ts' ->. by destruct (bool_decide _). Qed.

Lemma resolve_name_token names t n : resolve_name names t = Some n -> ttype t <> END_OF_FILE.
Proof. unfold resolve_name. by destruct (ttype t). Qed.

Lemma resolve_value_token values t v : resolve_value values t = Some v -> ttype t <> END_OF_FILE.
Proof. unfold resolve_value. by destruct (ttype t). Qed.

Lemma is_token_other ty t u : ty <> END_OF_FILE -> is_token ty t = Some u -> ttype t <> END_OF_FILE.
Proof. unfold is_token. destruct (bool_decide _) eqn:Eb; [|done]. apply bool_decide_eq_true in Eb. by rewrite Eb. Qed.

Lemma is_text_other ty s t u : ty <> END_OF_FILE -> is_text ty s t = Some u -> ttype t <> END_OF_FILE.
Proof. unfold is_text. destruct (bool_decide _) eqn:Eb; [|done]. apply bool_decide_eq_true in Eb. by rewrite Eb. Qed.

Ltac walk := repeat first
  [ apply stays_bind; [apply stays_accept; [intros ? ?; first [apply resolve_name_token|apply resolve_value_token|by apply is_token_other|by apply is_text_other]|done]|intros ? ? _ ?]
  | by apply stays_finish ].

Lemma parse_condition_stays names values ts : eof_last ts -> stays (parse_condition names values) ts.
Proof.
  intros He. unfold parse_condition. walk. apply stays_peek; [done|]. intros t ts2 ->. destruct (bool_decide _); [done|]. walk.
  match goal with H : eof_last ?ts |- stays _ ?ts => rename H into He3 end. apply stays_peek; [done|]. intros t3 ts3 ->. destruct (bool_decide _ && _) eqn:Eb.
  - apply andb_prop in Eb as [Eb%bool_decide_eq_true _]. unfold parse_begins_with. apply stays_advance; [done|by rewrite Eb|]. intros He4. walk.
  - unfold parse_comparison. walk. match goal with H : eof_last ?ts |- stays _ ?ts => rename H into He4 end. apply stays_peek; [done|]. intros t4 ts4 ->.
    destruct (ttype t4) eqn:Et; try done.
    + destruct (negb _); [done|]. apply stays_advance; [done|by rewrite Et|]. intros He5. walk.
    + destruct (bytes_eqb (tvalue t4) (lit "BETWEEN")); [|exact I]. apply stays_advance; [done|by rewrite Et|]. intros He5. walk.
Qed.

Lemma tokenize_eof input : eof_last (tokenize input).
Proof.
  assert (Hl : forall room d, eof_last (tokenize_loop room d)).
  { induction room as [|room IH]; intros d; cbn [tokenize_loop]; [by eexists|]. destruct (next_token d) as [t d']. destruct (ttype t) eqn:Et; try (by exists t); try (by eexists);
      destruct (IH d') as (t0 & Hl & He); exists t0; split; try done; cbn [last]; destruct (tokenize_loop room d'); done. }
  unfold tokenize. destruct (_ <? _); [by eexists|apply Hl].
Qed.

(** The parser of key conditions stays within the tokens.  For every expression, every
    map of names and every map of values the parser returns a condition or an error; it
    never reads [toks] past its last token, although it does not check the position. *)
Theorem key_condition_in_bounds names values expr : parse_key_condition names values expr <> None.
Proof.
  unfold parse_key_condition. pose proof (parse_condition_stays names values (tokenize expr) (tokenize_eof expr)) as Hs. unfold stays in Hs.
  destruct (parse_condition names values (tokenize expr)); done.
Qed.

(** ** Parallel scans *)

(** What one item adds to the output and to the count. *)
Definition picked (sel : Selection) (item : AttributeMap) : expected (list AttributeMap * Z) ApiResult := select_item sel item [] 0.

Lemma select_item_picked sel item output n : select_item sel item output n =
  match picked sel item with Ok (l, k) => Ok (output ++ l, n + k) | Err r => Err r end.
Proof.
  unfold picked, select_item. destruct (match filter sel with Some f => _ | None => _ end); [|by rewrite app_nil_r, Z.add_0_r|done].
  destruct (count_only sel); [by rewrite app_nil_r, Z.add_0_l|]. destruct (projection sel) as [p|]; [|done]. by destruct (apply_projection _ _ _) as [projected []].
Qed.

Fixpoint picks (sel : Selection) (items : list AttributeMap) : expected (list AttributeMap * Z) ApiResult :=
  match items with
  | [] => Ok ([], 0)
  | item :: items' =>
      match picked sel item with
      | Err r => Err r
      | Ok (l, k) => match picks sel items' with Ok (l', k') => Ok (l ++ l', k + k') | Err r => Err r end
      end
  end.

Lemma scan_loop_picks sel seg key expired page : forall output n s, scan_loop sel seg key expired page output n s =
  let mine := List.filter (fun i => in_segment seg (key i)) page in
  match picks sel (List.filter (fun i => negb (expired i)) mine) with Ok (l, k) => Ok (output ++ l, n + k, s + len mine) | Err r => Err r end.
Proof.
  induction page as [|i page IH]; intros output n s; cbn [scan_loop List.filter picks]; [by rewrite app_nil_r, !Z.add_0_r|].
  destruct (in_segment seg (key i)); cbn [negb List.filter]; [|apply IH]. destruct (expired i); cbn [negb picks].
  - rewrite IH. cbn zeta. destruct (picks _ _) as [[l k]|]; [|done]. rewrite len_cons. do 2 f_equal. lia.
  - rewrite select_item_picked. destruct (picked sel i) as [[l k]|]; [|done]. rewrite IH. cbn zeta. destruct (picks _ _) as [[l' k']|]; [|done].
    rewrite len_cons, app_assoc. do 2 f_equal; [f_equal; lia|lia].
Qed.

Lemma picks_app sel l1 l2 out n : picks sel (l1 ++ l2) = Ok (out, n) <->
  exists o1 n1 o2 n2, picks sel l1 = Ok (o1, n1) /\ picks sel l2 = Ok (o2, n2) /\ out = o1 ++ o2 /\ n = n1 + n2.
Proof.
  revert out n. induction l1 as [|i l1 IH]; intros out n; cbn [app picks].
  - split; [intros H; by exists [], 0, out, n|]. by intros (o1 & n1 & o2 & n2 & [= <- <-] & -> & -> & ->).
  - destruct (picked sel i) as [[l k]|]; [|split; [done|by intros (? & ? & ? & ? & ? & _)]]. split.
    + case_eq (picks sel (l1 ++ l2)); [|done]. intros [o m] E0 [= <- <-]. apply IH in E0 as (o1 & n1 & o2 & n2 & -> & -> & -> & ->).
      eexists _, _, _, _. split; [done|]. split; [done|]. by rewrite <- app_assoc, Z.add_assoc.
    + intros (o1 & n1 & o2 & n2 & H1 & H2 & -> & ->). destruct (picks sel l1) as [[o m]|]; [|done]. injection H1 as <- <-.
      assert (picks sel (l1 ++ l2) = Ok (o ++ o2, m + n2)) as -> by (apply IH; eauto 8). by rewrite <- app_assoc, Z.add_assoc.
Qed.

Lemma picks_perm sel l1 l2 out n : l1 ≡ₚ l2 -> picks sel l1 = Ok (out, n) -> exists out', picks sel l2 = Ok (out', n) /\ out' ≡ₚ out.
Proof.
  intros Hp. revert out n. induction Hp as [|x l1 l2 _ IH|x y l|l1 l2 l3 _ IH1 _ IH2]; intros out n H; cbn [picks] in *.
  - by exists out.
  - destruct (picked sel x) as [[l k]|]; [|done]. destruct (picks sel l1) as [[o m]|]; [|done]. injection H as <- <-. destruct (IH o m eq_refl) as (o' & -> & Ho). eexists. split; [done|]. by rewrite Ho.
  - destruct (picked sel y) as [[ly ky]|]; [|done]. destruct (picked sel x) as [[lx kx]|]; [|done]. destruct (picks sel l) as [[o m]|]; [|done]. injection H as <- <-.
    eexists. split; [do 2 f_equal; lia|]. rewrite !app_assoc. by rewrite (Permutation_app_comm lx ly).
  - destruct (IH1 out n H) as (o1 & H1 & P1). destruct (IH2 o1 n H1) as (o2 & H2 & P2). exists o2. split; [done|]. by rewrite P2.
Qed.

(** The parts of a list by class, and the list. *)
Lemma classes_perm {A} (f : A -> nat) n l : Forall (fun x => (f x < n)%nat) l ->
  concat (map (fun i => List.filter (fun x => (f x =? i)%nat) l) (seq 0 n)) ≡ₚ l.
Proof.
  induction 1 as [|x l Hx _ IH]; cbn [List.filter].
  - induction (seq 0 n) as [|i js IHj]; [done|]. exact IHj.
  - assert (Hs : forall js, NoDup js -> concat (map (fun i => if (f x =? i)%nat then x :: List.filter (fun x => (f x =? i)%nat) l else List.filter (fun x => (f x =? i)%nat) l) js)
        ≡ₚ (if bool_decide (f x ∈ js) then [x] else []) ++ concat (map (fun i => List.filter (fun x => (f x =? i)%nat) l) js)).
    { intros js. induction js as [|i js IHj]; intros Hnd; [done|]. apply NoDup_cons in Hnd as [Hni Hnd]. cbn [map concat]. rewrite (IHj Hnd). destruct (Nat.eqb_spec (f x) i) as [->|Hne].
      - rewrite bool_decide_eq_false_2, bool_decide_eq_true_2 by set_solver. done.
      - rewrite (bool_decide_ext (f x ∈ i :: js) (f x ∈ js)) by set_solver. rewrite !app_assoc. apply Permutation_app_tail. apply Permutation_app_comm. }
    rewrite Hs by apply NoDup_seq. rewrite bool_decide_eq_true_2 by (apply elem_of_seq; lia). by rewrite IH.
Qed.

Definition sum (l : list Z) : Z := fold_right Z.add 0 l.

Lemma picks_concat sel ls : forall out n, picks sel (concat ls) = Ok (out, n) ->
  exists outs, Forall2 (fun l o => picks sel l = Ok o) ls outs /\ out = concat (map fst outs) /\ n = sum (map snd outs).
Proof.
  induction ls as [|l ls IH]; intros out n H; cbn [concat] in H; [cbn [picks] in H; injection H as <- <-; exists []; by split; [constructor|]|].
  apply picks_app in H as (o1 & n1 & o2 & n2 & H1 & H2 & -> & ->). destruct (IH o2 n2 H2) as (outs & Ho & -> & ->). exists ((o1, n1) :: outs). split; [by constructor|done].
Qed.

Lemma filter_comm {A} (f g : A -> bool) l : List.filter f (List.filter g l) = List.filter g (List.filter f l).
Proof. induction l as [|x l IH]; [done|]. cbn [List.filter]. destruct (f x) eqn:Ef, (g x) eqn:Eg; cbn [List.filter]; rewrite ?Ef, ?Eg, ?IH; done. Qed.

Lemma len_concat {A} (ls : list (list A)) : len (concat ls) = sum (map len ls).
Proof. induction ls as [|l ls IH]; [done|]. cbn [concat map sum fold_right]. rewrite len_app, IH. done. Qed.

(** The segment an item belongs to. *)
Definition segment_of (key : AttributeMap -> bytes) (total : nat) (item : AttributeMap) : nat := Z.to_nat (fnv1a (key item) mod Z.of_nat total).

Lemma in_segment_of key total j item : (0 < total)%nat -> in_segment (Some (Z.of_nat j, Z.of_nat total)) (key item) = (segment_of key total item =? j)%nat.
Proof.
  intros Ht. cbn [in_segment]. unfold segment_of. pose proof (Z.mod_pos_bound (fnv1a (key item)) (Z.of_nat total) ltac:(lia)) as Hb.
  destruct (Z.eqb_spec (fnv1a (key item) mod Z.of_nat total) (Z.of_nat j)), (Nat.eqb_spec (Z.to_nat (fnv1a (key item) mod Z.of_nat total)) j); lia.
Qed.

Lemma segment_bound key total l : (0 < total)%nat -> Forall (fun i => (segment_of key total i < total)%nat) l.
Proof. intros Ht. apply Forall_forall. intros i _. unfold segment_of. pose proof (Z.mod_pos_bound (fnv1a (key i)) (Z.of_nat total) ltac:(lia)). lia. Qed.

(** The part of a list in segment [j]. *)
Definition part (key : AttributeMap -> bytes) (total : nat) (l : list AttributeMap) (j : nat) : list AttributeMap := List.filter (fun i => (segment_of key total i =? j)%nat) l.

Lemma segment_replies sel key expired page total js : (0 < total)%nat -> forall outs,
  Forall2 (fun l o => picks sel l = Ok o) (map (part key total (List.filter (fun i => negb (expired i)) page)) js) outs ->
  exists replies : list (list AttributeMap * Z * Z),
    Forall2 (fun j r => scan_loop sel (Some (Z.of_nat j, Z.of_nat total)) key expired page [] 0 0 = Ok r) js replies /\
    map (fun r => r.1.1) replies = map fst outs /\ map (fun r => r.1.2) replies = map snd outs /\ map (fun r => r.2) replies = map len (map (part key total page) js).
Proof.
  intros Ht. induction js as [|j js IH]; intros outs H; cbn [map] in H; [apply Forall2_nil_inv_l in H as ->; by exists []|].
  apply Forall2_cons_inv_l in H as ([o k] & outs' & H1 & H2 & ->). destruct (IH outs' H2) as (replies & Hr & E1 & E2 & E3).
  exists ((o, k, len (part key total page j)) :: replies). cbn [map fst snd]. rewrite E1, E2, E3. split; [|done]. constructor; [|done].
  rewrite scan_loop_picks. cbn zeta. erewrite (List.filter_ext (fun i => in_segment _ (key i))) by (intros i; by apply in_segment_of).
  rewrite filter_comm. unfold part in H1 |- *. by rewrite H1.
Qed.

(** C18: the segments of a parallel scan partition the scan.  When the scan of a page
    succeeds, the scan of the same page for each of the [total] segments succeeds, the
    items the segments return are together the items of the scan, each exactly as often,
    and the counts of matching and of examined items add up. *)
Theorem parallel_scan_partition sel key expired page total output n scanned : (0 < total)%nat ->
  scan_loop sel None key expired page [] 0 0 = Ok (output, n, scanned) ->
  exists replies : list (list AttributeMap * Z * Z),
    Forall2 (fun j r => scan_loop sel (Some (Z.of_nat j, Z.of_nat total)) key expired page [] 0 0 = Ok r) (seq 0 total) replies /\
    concat (map (fun r => r.1.1) replies) ≡ₚ output /\ sum (map (fun r => r.1.2) replies) = n /\ sum (map (fun r => r.2) replies) = scanned.
Proof.
  intros Ht H. rewrite scan_loop_picks in H. cbn zeta in H. change (List.filter (fun i => in_segment None (key i)) page) with (List.filter (fun _ => true) page) in H. rewrite filter_true in H.
  set (live := List.filter (fun i => negb (expired i)) page) in *. destruct (picks sel live) as [[l k]|] eqn:Ep; [|done]. injection H as <- <- <-.
  pose proof (classes_perm (segment_of key total) total live (segment_bound key total live Ht)) as Hlive. pose proof (classes_perm (segment_of key total) total page (segment_bound key total page Ht)) as Hpage.
  destruct (picks_perm sel live _ l k (symmetry Hlive) Ep) as (l' & Ep' & Hl'). apply picks_concat in Ep' as (outs & Hf & -> & ->).
  destruct (segment_replies sel key expired page total (seq 0 total) Ht outs Hf) as (replies & Hr & E1 & E2 & E3). exists replies. rewrite E1, E2, E3. split; [done|]. split; [done|]. split; [done|].
  rewrite <- len_concat. unfold len at 1. unfold part. by rewrite Hpage.
Qed.

(** ** Queries *)

Lemma query_loop_picks sel key_json rest : forall prev output n examined, query_loop sel 0 key_json rest prev output n examined =
  Some match picks sel rest with Ok (l, k) => Ok (output ++ l, n + k, examined + len rest, None) | Err r => Err r end.
Proof.
  induction rest as [|item rest IH]; intros prev output n examined; cbn [query_loop picks]; [by rewrite app_nil_r, !Z.add_0_r|]. cbn [Z.eqb negb andb].
  rewrite select_item_picked. destruct (picked sel item) as [[l k]|]; [|done]. rewrite IH. destruct (picks sel rest) as [[l' k']|]; [|done]. rewrite len_cons, app_assoc, !Z.add_assoc. done.
Qed.

Lemma attribute_equals_eq v e : MemoryEngine.attribute_equals v e = true -> v = e.
Proof. destruct v, e; cbn; try done; [by intros ->%bytes_eqb_eq..| ]. by intros ->%Bool.eqb_prop. Qed.

(** The rows of the partition of a key condition. *)
Definition in_partition (c : KeyCondition) (r : bytes * AttributeMap) : bool :=
  match mget (pk_name c) r.2 with Some (Some v) => MemoryEngine.attribute_equals v (pk_value c) | _ => false end.

(** A row of the partition has the prefix of the partition in its key. *)
Lemma partition_prefix def c ks rest r : key_schema def = ks :: rest -> attribute_name ks = pk_name c -> r.1 = encode_primary_key def r.2 -> in_partition c r = true ->
  starts_with r.1 (encode_key_prefix (Some (pk_value c))) = true.
Proof.
  intros Hk En Er Hp. unfold in_partition in Hp. destruct (mget (pk_name c) r.2) as [[v|]|] eqn:Em; [|done..]. apply attribute_equals_eq in Hp as ->.
  rewrite Er, primary_key_codes, Hk. cbn [codes map concat]. rewrite En, Em. apply starts_with_spec. eexists. done.
Qed.

Section Queries.
Context {E : Type} {SE : StorageEngine E} {SL : StorageLaws E} {QE : QueryEngine E} {QL : QueryLaws E}.

Lemma partition_page e name def c ks rest limit forward : se_inv e -> se_names name [] -> keyed def (se_rows e name) -> key_schema def = ks :: rest -> attribute_name ks = pk_name c ->
  textual [(pk_name c, Some (pk_value c))] = true ->
  se_query e name [(pk_name c, Some (pk_value c))] None limit (Some (encode_key_prefix (Some (pk_value c)))) forward =
  page limit (List.filter (in_partition c) (visited forward None (se_rows e name))).
Proof.
  intros Hi Hn Hk Hs En Ht. rewrite se_query_rows by done. f_equal. apply filter_ext_in. intros [k a] Hin. cbn [fst snd in_prefix]. rewrite se_matches_textual by done.
  assert (Hm : MemoryEngine.item_matches_conditions a [(pk_name c, Some (pk_value c))] = in_partition c (k, a)).
  { unfold in_partition. cbn. destruct (mget (pk_name c) a) as [[v|]|]; [|done..]. by destruct (MemoryEngine.attribute_equals v (pk_value c)). }
  rewrite Hm. destruct (in_partition c (k, a)) eqn:Ep; [|by rewrite andb_false_r].
  assert (Hp : starts_with k (encode_key_prefix (Some (pk_value c))) = true); [|by rewrite Hp]. apply (partition_prefix def c ks rest (k, a) Hs En); [|done]. cbn [fst snd]. apply Hk. apply mget_In; [by apply se_sorted|].
  unfold visited in Hin. cbn [rows_after rows_before] in Hin. destruct forward; [done|]. by apply in_rev.
Qed.

(** The page that is not cut. *)
Lemma whole_page limit rows : last_evaluated_key (page limit rows) = None -> items (page limit rows) = map snd rows.
Proof.
  intros H. destruct (fill_page_spec limit rows [] 0 []) as (n & Hn & Hi & Hnone & _). unfold page in *. apply Hnone in H as ->. by rewrite Hi, take_ge.
Qed.


(** ** Queries of an index *)

(** [m] holds attributes of [item] only, and all that are in [names]. *)
Record part_of (item m : AttributeMap) (names : list bytes) : Prop := {
  po_sub : forall k v, mget k m = Some v -> mget k item = Some v;
  po_all : forall k, k ∈ names -> mget k m = mget k item
}.

Lemma copy_attrs_part item names : forall m base, part_of item m base -> part_of item (copy_attrs names item m) (names ++ base).
Proof.
  unfold copy_attrs. induction names as [|n names IH]; intros m base Hm; cbn [fold_left app]; [done|].
  assert (Hm' : part_of item (match mget n item with Some v => mset n v m | None => m end) (n :: base)).
  { destruct Hm as [Hsub Hall]. destruct (mget n item) as [v|] eqn:En; split.
    - intros k v'. rewrite mget_mset. destruct (keqb_spec k n) as [->|]; [congruence|apply Hsub].
    - intros k Hk. rewrite mget_mset. destruct (keqb_spec k n) as [->|]; [done|]. apply Hall. set_solver.
    - done.
    - intros k [->|Hk]%elem_of_cons; [|by apply Hall]. rewrite En. destruct (mget n m) as [v|] eqn:Em; [|done]. apply Hsub in Em. congruence. }
  destruct (IH _ _ Hm') as [Hsub Hall]. split; [done|]. intros k Hk. apply Hall. set_solver.
Qed.

Lemma copy_keys_attrs schema item m : copy_keys schema item m = copy_attrs (map attribute_name schema) item m.
Proof. unfold copy_keys, copy_attrs. revert m. induction schema as [|ks schema IH]; intros m; [done|]. cbn [fold_left map]. apply IH. Qed.

(** The projection keeps the attributes of the index key. *)
Lemma projection_keeps item idx def a k : project_for_index item idx def = Some a -> k ∈ map attribute_name (index_key_schema idx) -> mget k a = mget k item.
Proof.
  unfold project_for_index. destruct (negb _); [done|]. rewrite !copy_keys_attrs.
  pose proof (copy_attrs_part item (map attribute_name (key_schema def)) [] [] ltac:(split; [done|set_solver])) as H1.
  pose proof (copy_attrs_part item (map attribute_name (index_key_schema idx)) _ _ H1) as H2.
  pose proof (copy_attrs_part item (non_key_attributes (index_projection idx)) _ _ H2) as H3.
  destruct (projection_type _); intros [= <-] Hk; [apply H2; set_solver|apply H3; set_solver|done].
Qed.

Lemma index_partition item idx def a c pk : project_for_index item idx def = Some a -> pk_name c ∈ map attribute_name (index_key_schema idx) ->
  forall k, in_partition c (k, a) = in_partition c (pk, item).
Proof. intros Hp Hk k. unfold in_partition. cbn [snd]. by rewrite (projection_keeps _ _ _ _ _ Hp Hk). Qed.

Lemma find_index_some idxs name idx : find_index idxs name = Some idx -> idx ∈ idxs /\ index_name idx = name.
Proof. unfold find_index. intros [Hin Hn]%find_some. split; [by apply list_elem_of_In|by apply bytes_eqb_eq]. Qed.

(** An entry of the partition has its prefix. *)
Lemma index_partition_page e def idx c ks rest limit forward rows : se_inv e -> se_names (index_table def idx) [] -> index_exact def idx rows (se_rows e (index_table def idx)) ->
  index_key_schema idx = ks :: rest -> attribute_name ks = pk_name c -> textual [(pk_name c, Some (pk_value c))] = true ->
  se_query e (index_table def idx) [(pk_name c, Some (pk_value c))] None limit (Some (encode_key_prefix (Some (pk_value c)))) forward =
  page limit (List.filter (in_partition c) (visited forward None (se_rows e (index_table def idx)))).
Proof.
  intros Hi Hn Hx Hs En Ht. rewrite se_query_rows by done. f_equal. apply filter_ext_in. intros [k a] Hin. cbn [fst snd in_prefix]. rewrite se_matches_textual by done.
  assert (Hm : MemoryEngine.item_matches_conditions a [(pk_name c, Some (pk_value c))] = in_partition c (k, a)).
  { unfold in_partition. cbn. destruct (mget (pk_name c) a) as [[v|]|]; [|done..]. by destruct (MemoryEngine.attribute_equals v (pk_value c)). }
  rewrite Hm. destruct (in_partition c (k, a)) eqn:Ep; [|by rewrite andb_false_r].
  assert (Hrow : mget k (se_rows e (index_table def idx)) = Some a).
  { apply mget_In; [by apply se_sorted|]. unfold visited in Hin. cbn [rows_after rows_before] in Hin. destruct forward; [done|]. by apply in_rev. }
  apply Hx in Hrow as (pk & item & _ & Hproj & <-). rewrite (index_partition item idx def a c pk Hproj) in Ep by (rewrite Hs, <- En; cbn [map]; left).
  unfold in_partition in Ep. cbn [snd] in Ep. destruct (mget (pk_name c) item) as [[v|]|] eqn:Em; [|done..]. apply attribute_equals_eq in Ep as ->.
  assert (Hp : starts_with (encode_index_storage_key idx def item) (encode_key_prefix (Some (pk_value c))) = true); [|by rewrite Hp].
  rewrite index_key_codes, Hs. cbn [codes map concat]. rewrite En, Em. apply starts_with_spec. eexists. by rewrite <- app_assoc.
Qed.

End Queries.

(** ** Cursors *)

(** Items that JSON can carry: no null pointers, maps in order, canonical numbers. *)
Definition portable (item : AttributeMap) : Prop := shape_ok (AV_M item) = true /\ numbers_normal (AV_M item).

Lemma portable_alt item : portable item <-> msorted item /\ Forall (fun e => match e.2 with Some v => shape_ok v = true | None => False end) item /\ Forall (fun e => ptr_normal e.2) item.
Proof.
  unfold portable. rewrite normal_map. cbn [shape_ok]. rewrite andb_true_iff, msortedb_sound, forallb_forall, !Forall_forall. split.
  - intros [[H1 H2] H3]. split; [done|]. split; [|done]. intros e He. specialize (H2 e ltac:(by apply list_elem_of_In)). by destruct e.2.
  - intros (H1 & H2 & H3). split; [|done]. split; [done|]. intros e He. specialize (H2 e ltac:(by apply list_elem_of_In)). by destruct e.2.
Qed.

Lemma copy_attrs_portable item names : portable item -> forall m, portable m -> portable (copy_attrs names item m).
Proof.
  intros Hi. unfold copy_attrs. induction names as [|n names IH]; intros m Hm; cbn [fold_left]; [done|]. apply IH. destruct (mget n item) as [v|] eqn:En; [|done].
  apply portable_alt in Hi as (S1 & A1 & N1), Hm as (S2 & A2 & N2). apply mget_In in En; [|done]. apply list_elem_of_In in En. rewrite Forall_forall in A1, N1.
  apply portable_alt. split; [auto with cyn|]. split; apply Forall_mset_rows; try done; [exact (A1 _ En)|exact (N1 _ En)].
Qed.

Lemma part_of_nil item : part_of item [] [].
Proof. split; [done|]. intros k Hk. by apply not_elem_of_nil in Hk. Qed.

(** Encoded keys depend on the attributes of the schema only. *)
Lemma codes_part schema item m names : part_of item m names -> (forall ks, ks ∈ schema -> attribute_name ks ∈ names) -> codes schema m = codes schema item.
Proof.
  intros [_ Hall] Hs. unfold codes. apply map_ext_in. intros ks Hk%list_elem_of_In. by rewrite Hall by (by apply Hs).
Qed.

Lemma schema_names schema names ks : ks ∈ schema -> attribute_name ks ∈ map attribute_name schema ++ names.
Proof. intros Hk. apply elem_of_app. left. apply list_elem_of_fmap. eauto. Qed.

(** A cursor of a table: the JSON of the key attributes of an item leads back to its key. *)
Lemma cursor_back def item : portable item -> exists text fields, key_only_json def item = Some text /\ read_json text = Some (JObj fields) /\
  forall doc, at_key doc "ExclusiveStartKey" = Some (JObj fields) -> read_start_key doc def = Some (encode_primary_key def item).
Proof.
  intros Hi. set (keys := copy_keys (key_schema def) item []). assert (Hk : portable keys) by (unfold keys; rewrite copy_keys_attrs; by apply copy_attrs_portable).
  exists (print kHex (JObj (dom_fields keys))), (dom_fields keys). split; [by apply serialize_item_print, Hk|]. split; [apply (read_json_print kHex (or_introl eq_refl)), item_plain|].
  intros doc Hd. unfold read_start_key. rewrite Hd. cbn [parse_attribute_map]. rewrite parse_item_dom by apply Hk. cbn [option_map]. f_equal. rewrite !primary_key_codes. f_equal.
  unfold keys. rewrite copy_keys_attrs. eapply codes_part; [apply copy_attrs_part, part_of_nil|]. intros ks. apply schema_names.
Qed.

(** A cursor of an index, over the attributes of the index and of the table. *)
Lemma index_cursor_back idx def item : portable item -> exists text fields, index_key_only_json idx def item = Some text /\ read_json text = Some (JObj fields) /\
  forall doc, at_key doc "ExclusiveStartKey" = Some (JObj fields) -> read_index_start_key doc idx def = Some (encode_index_storage_key idx def item).
Proof.
  intros Hi. set (keys := copy_keys (key_schema def) item (copy_keys (index_key_schema idx) item [])).
  assert (Hk : portable keys) by (unfold keys; rewrite !copy_keys_attrs; apply copy_attrs_portable; [done|]; by apply copy_attrs_portable).
  exists (print kHex (JObj (dom_fields keys))), (dom_fields keys). split; [by apply serialize_item_print, Hk|]. split; [apply (read_json_print kHex (or_introl eq_refl)), item_plain|].
  intros doc Hd. unfold read_index_start_key. rewrite Hd. cbn [parse_attribute_map]. rewrite parse_item_dom by apply Hk. cbn [option_map]. f_equal. rewrite !index_key_codes, !primary_key_codes.
  assert (Hpart : part_of item keys (map attribute_name (key_schema def) ++ (map attribute_name (index_key_schema idx) ++ []))).
  { unfold keys. rewrite !copy_keys_attrs. do 2 apply copy_attrs_part. apply part_of_nil. }
  f_equal; f_equal; (eapply codes_part; [exact Hpart|]); intros ks Hks; [apply elem_of_app; right|]; by apply schema_names.
Qed.

(** The last row of a page that was cut. *)
Lemma page_last limit rows k : last_evaluated_key (page limit rows) = Some k -> exists item, In (k, item) rows /\ last (items (page limit rows)) = Some item.
Proof.
  intros H. destruct (fill_page_spec limit rows [] 0 []) as (n & Hn & Hi & _ & Hsome & Hpos). unfold page in *. destruct (Hsome k H) as [Hlt Hk].
  assert (Hn0 : (0 < n)%nat) by (apply Hpos; [done|]; intros E; rewrite E in Hlt; cbn in Hlt; lia). rewrite Hi. cbn [app].
  destruct (last (take n rows)) as [[k' item]|] eqn:El; [|apply last_None in El; apply (f_equal length) in El; rewrite length_take in El; cbn in El; lia].
  change (map fst (take n rows)) with (fst <$> take n rows) in Hk. change (map snd (take n rows)) with (snd <$> take n rows). rewrite fmap_last, El in Hk. rewrite fmap_last, El. cbn in *. subst k'. exists item. split; [|done].
  apply last_Some in El as [l El]. rewrite <- (take_drop n rows), El. apply in_or_app. left. apply in_or_app. right. by left.
Qed.

Section Cursors.
Context {E : Type} {SE : StorageEngine E} {SL : StorageLaws E}.

(** C17: the cursor of a page leads back to where the page ended.  When a Scan leaves rows
    unread, its LastEvaluatedKey is JSON, and a request that passes it as
    ExclusiveStartKey continues exactly after the last row of the page: the key it is
    read as is the key at which the engine stopped. *)
Theorem cursor_resumes w name def start limit k : synced w -> find_table w name = Some def -> (forall pk item, mget pk (se_rows (storage w) name) = Some item -> portable item) ->
  last_evaluated_key (se_scan (storage w) name start limit) = Some k ->
  exists text fields, cursor_json (key_only_json def) (se_scan (storage w) name start limit) = Some (Some text) /\ read_json text = Some (JObj fields) /\
    forall doc, at_key doc "ExclusiveStartKey" = Some (JObj fields) -> read_start_key doc def = Some k.
Proof.
  intros Hw Hf Hp Hl. destruct (synced_found w name def Hw Hf) as (-> & Hd & Hm). assert (Hn : se_names (table_name def) []) by (apply Hd; by left).
  rewrite se_scan_rows in * by (first [done|apply Hw]). destruct (page_last _ _ _ Hl) as (item & Hin & Hlast).
  assert (Hrow : mget k (se_rows (storage w) (table_name def)) = Some item).
  { pose proof (se_sorted (storage w) (table_name def) (c_inv _ _ Hw)) as Hs. apply mget_In; [done|]. destruct start as [s|]; [|done]. cbn [rows_after] in Hin. by apply mupper_In in Hin as [? _]. }
  destruct (cursor_back def item (Hp _ _ Hrow)) as (text & fields & E1 & E2 & E3). exists text, fields. unfold cursor_json. rewrite Hl, Hlast, E1. split; [done|]. split; [done|].
  intros doc Hdoc. rewrite (E3 doc Hdoc). f_equal. symmetry. by apply (c_keyed _ _ Hw _ _ Hm).
Qed.
End Cursors.

(** ** On the in-memory engine *)

Section Demo.
#[local] Existing Instances MemoryEngine.engine MemoryEngine.laws.

Definition demo_two : Service.Server MemoryEngine.t :=
  demo_run demo_final (Dispatcher.PutItem, q "{'TableName':'T','Item':{'pk':{'S':'b'},'v':{'N':'2'},'g':{'S':'y'}}}").

Lemma demo_two_synced : synced (Service.world demo_two).
Proof.
  apply (reachable_synced PT_ALL read_json). apply demo_reach; [exact demo_server_reachable|]. intros doc _ ? def ? item ? ? ? ?. apply demo_item_storable.
Qed.

Definition demo_rows : list (bytes * AttributeMap) := MemoryEngine.table_of (storage (Service.world demo_two)) (lit "T").

Definition every_item : Selection := {| filter := None; projection := None; count_only := false; sel_names := []; sel_values := [] |}.

Lemma parallel_scan_partition_witness : exists replies : list (list AttributeMap * Z * Z),
  Forall2 (fun j r => scan_loop every_item (Some (Z.of_nat j, 3)) (encode_primary_key demo_def) (fun _ => false) (map snd demo_rows) [] 0 0 = Ok r) (seq 0 3) replies /\
  concat (map (fun r => r.1.1) replies) ≡ₚ map snd demo_rows /\ sum (map (fun r => r.1.2) replies) = 2 /\ sum (map (fun r => r.2) replies) = 2.
Proof.
  apply (parallel_scan_partition every_item (encode_primary_key demo_def) (fun _ => false) (map snd demo_rows) 3 (map snd demo_rows) 2 2); [lia|]. vm_compute. reflexivity.
Defined.

Definition query_body : bytes :=
  q "{'TableName':'T','KeyConditionExpression':'pk = :p','ExpressionAttributeValues':{':p':{'S':'b'}}}".
Definition query_doc : Json := default JNull (read_json query_body).

Definition hash_condition (name value : string) : KeyCondition := {| pk_name := lit name; pk_value := AV_S (lit value); sk_name := []; sort := None |}.


Definition index_query_doc : Json := default JNull (read_json
  (q "{'TableName':'T','IndexName':'I','KeyConditionExpression':'g = :g','ScanIndexForward':false,'ExpressionAttributeValues':{':g':{'S':'y'}}}")).

Definition index_answer : option ApiResult :=
  match picks (selection index_query_doc false (default [] (parse_expr_values index_query_doc)))
    (rev (map snd (MemoryEngine.table_of (storage (Service.world demo_two)) (index_table demo_def demo_index)))) with
  | Err r => Some r
  | Ok (output, n) => page_reply false output n 2 None
  end.


Lemma demo_portable pk item : mget pk demo_rows = Some item -> portable item.
Proof.
  assert (Hall : Forall (fun e => portable e.2) demo_rows) by (vm_compute; repeat constructor).
  intros Hg. apply mget_In in Hg; [|apply (se_sorted (storage (Service.world demo_two)) (lit "T") (c_inv _ _ demo_two_synced))].
  apply list_elem_of_In in Hg. rewrite Forall_forall in Hall. exact (Hall _ Hg).
Qed.

Lemma cursor_resumes_witness : exists text fields k,
  cursor_json (key_only_json demo_def) (MemoryEngine.scan (storage (Service.world demo_two)) (lit "T") None 1) = Some (Some text) /\ read_json text = Some (JObj fields) /\
  read_start_key (JObj [(lit "ExclusiveStartKey", JObj fields)]) demo_def = Some k /\ k = lit "Sa" ++ [Byte.x00; Byte.x00].
Proof.
  assert (Hk : last_evaluated_key (MemoryEngine.scan (storage (Service.world demo_two)) (lit "T") None 1) = Some (lit "Sa" ++ [Byte.x00; Byte.x00])) by (vm_compute; reflexivity).
  destruct (cursor_resumes (Service.world demo_two) (lit "T") demo_def None 1 _ demo_two_synced ltac:(vm_compute; reflexivity) demo_portable Hk) as (text & fields & E1 & E2 & E3).
  exists text, fields, (lit "Sa" ++ [Byte.x00; Byte.x00]). split; [done|]. split; [done|]. split; [|done]. apply E3. reflexivity.
Defined.
End Demo.
End ReadsExact.
