(* ===== verification/Restore.v ===== *)
(** * Backups and restores of tables

    A table restored from a backup has the rows the table had when the backup was made,
    whatever happened since, when they fit in one page; a larger table is cut
    ([backup_truncated]). *)

From Stdlib Require Import ZArith Lia Strings.String.
From stdpp Require Import prelude.
From S2P Require Import Prelude StdMap Ranges Types CLib KeyCodec Storage MemoryEngine Streams TableManager NumberText Json TableJson Backups Dispatcher Api Handlers Queries Admin Service IndexSync Consistency ReadsExact.
Import Json TableJson Api Handlers IndexSync Consistency.

Module Restore.
Section Restore.
Context {E : Type} {SE : StorageEngine E} {SL : StorageLaws E}.

(** Items put one by one under their keys. *)
Definition put_all (def : TableDefinition) (items : list AttributeMap) (rows : list (bytes * AttributeMap)) : list (bytes * AttributeMap) :=
  fold_left (fun rows i => mset (encode_primary_key def i) i rows) items rows.

Lemma restore_items_rows tabs def items : forall e, consistent tabs e -> mget (table_name def) tabs = Some def -> Forall (storable def) items ->
  NoDup (map (encode_primary_key def) items) -> Forall (fun i => mget (encode_primary_key def i) (se_rows e (table_name def)) = None) items ->
  se_rows (fold_left (Admin.restore_item def) items e) (table_name def) = put_all def items (se_rows e (table_name def)).
Proof.
  induction items as [|item items IH]; intros e He Hm Hst Hnd Hno; cbn [fold_left map put_all] in *; [done|].
  apply Forall_cons in Hst as [Hs Hst]. apply NoDup_cons in Hnd as [Hni Hnd]. apply Forall_cons in Hno as [Hn Hno]. apply storable_writable in Hs.
  pose proof (put_row_written tabs e He def (encode_primary_key def item) item Hs) as Hrw.
  pose proof (maintained_consistent tabs e He def Hm _ _ _ Hrw Hs) as Hc. pose proof (maintained_written tabs e He def Hm _ _ _ Hrw Hs) as Hw. rewrite Hn in Hc, Hw.
  pose proof (w_rows _ _ _ _ _ Hw) as Hr. change (maintain_indexes (se_put e (table_name def) (encode_primary_key def item) item) def None (Some item)) with (Admin.restore_item def e item) in Hr.
  rewrite IH; [|exact Hc|done..|].
  - rewrite Hr. done.
  - rewrite Hr. apply Forall_forall. intros i Hi. rewrite mget_alter. destruct (keqb_spec (encode_primary_key def i) (encode_primary_key def item)) as [E0|]; [|rewrite Forall_forall in Hno; by apply Hno].
    exfalso. apply Hni. rewrite <- E0. apply list_elem_of_fmap. eauto.
Qed.

(** Rows under their own keys, put one by one. *)
Lemma put_all_rows def rows : msorted rows -> keyed def rows -> put_all def (map snd rows) [] = rows.
Proof.
  intros Hs Hk. rewrite <- (Tables.store_all_sorted rows Hs) at 2. unfold put_all, Tables.store_all. generalize (@nil (bytes * AttributeMap)).
  assert (Hall : Forall (fun e => e.1 = encode_primary_key def e.2) rows).
  { apply Forall_forall. intros [k a] Hin. cbn [fst snd]. apply Hk. apply mget_In; [done|]. by apply list_elem_of_In. }
  clear Hs Hk. induction Hall as [|[k a] rows Hka _ IH]; intros acc; [done|]. cbn [map fold_left fst snd] in *. subst k. apply IH.
Qed.

Lemma keyed_distinct def rows : msorted rows -> keyed def rows -> NoDup (map (encode_primary_key def) (map snd rows)).
Proof.
  intros Hs Hk. replace (map (encode_primary_key def) (map snd rows)) with (map fst rows); [by apply (msorted_nodup rows)|].
  rewrite map_map. apply map_ext_in. intros [k a] Hin. apply Hk. by apply mget_In.
Qed.

(** The engine after a restore of the rows of a table into a new one. *)
Lemma restore_into_rows def target rows w : synced w -> table_ok (Admin.rename_table def target) -> Forall (storable (Admin.rename_table def target)) (map snd rows) -> msorted rows -> keyed def rows ->
  find_table w target = None ->
  let '(r, w') := Admin.restore_into def target (map snd rows) w in
  status r = 200 /\ find_table w' target = Some (Admin.rename_table def target) /\ se_rows (storage w') target = rows.
Proof.
  intros Hw Hd Hst Hs Hk Hnew. rewrite find_table_get in Hnew. unfold Admin.restore_into. set (def' := Admin.rename_table def target) in *. unfold Tables.create_table.
  change (table_name def') with target. rewrite Hnew. split; [done|]. rewrite find_table_get. cbn [tables storage set_storage set_tables Tables.save_metadata Tables.tables_]. rewrite mget_mset, keqb_refl. split; [done|].
  destruct (create_consistent _ _ def' Hw Hd Hnew) as [Hempty Hc].
  change target with (table_name def'). rewrite (restore_items_rows _ def' (map snd rows) _ Hc).
  - rewrite Hempty by (by left). by apply (put_all_rows def').
  - change (table_name def') with target. by rewrite mget_mset, keqb_refl.
  - done.
  - by apply (keyed_distinct def').
  - apply Forall_forall. intros i _. by rewrite Hempty by (by left).
Qed.

(** What a scan without a limit reads of a table that fits in a page. *)
Lemma whole_scan w name def : synced w -> find_table w name = Some def -> last_evaluated_key (se_scan (storage w) name None 0) = None ->
  items (se_scan (storage w) name None 0) = map snd (se_rows (storage w) name) /\ msorted (se_rows (storage w) name) /\ keyed def (se_rows (storage w) name).
Proof.
  intros Hw Hf Hl. destruct (synced_found w name def Hw Hf) as (-> & Hd & Hm). rewrite se_scan_rows in * by (first [apply Hw|apply Hd; by left]). cbn [rows_after] in *.
  split; [by apply ReadsExact.whole_page|]. split; [by apply se_sorted, Hw|]. by apply (c_keyed _ _ Hw).
Qed.


(** RestoreTableToPointInTime copies the current rows. *)
Lemma point_in_time_copies doc w source target def : synced w -> get_string_at doc "SourceTableName" = Some source -> get_string_at doc "TargetTableName" = Some target -> find_table w source = Some def ->
  last_evaluated_key (se_scan (storage w) source None 0) = None -> table_ok (Admin.rename_table def target) ->
  (forall pk item, mget pk (se_rows (storage w) source) = Some item -> storable (Admin.rename_table def target) item) -> find_table w target = None ->
  let '(r, w') := Admin.handle_restore_table_to_pit doc w in
  status r = 200 /\ find_table w' target = Some (Admin.rename_table def target) /\ se_rows (storage w') target = se_rows (storage w) source.
Proof.
  intros Hw E1 E2 E3 Hl Hd Hst Hnew. destruct (whole_scan w source def Hw E3 Hl) as (Hi & Hs & Hk). unfold Admin.handle_restore_table_to_pit. rewrite E1, E2, E3, Hi.
  apply restore_into_rows; try done. apply Forall_forall. intros i ([k a] & -> & Hin)%list_elem_of_fmap. apply (Hst k). apply mget_In; [done|]. by apply list_elem_of_In.
Qed.

(** A table of more than a mebibyte is not backed up whole: the scan behind the backup
    has no limit on rows but stops at the byte budget of a page, and its cursor is
    ignored. *)
Theorem backup_truncated junk now doc m w r m' name bname def : synced w ->
  get_string_at doc "TableName" = Some name -> get_string_at doc "BackupName" = Some bname -> find_table w name = Some def ->
  Forall (fun e => 0 < item_size_bytes e.2) (se_rows (storage w) name) -> 1 < len (se_rows (storage w) name) -> kMaxReadPageBytes < rows_size (map snd (se_rows (storage w) name)) ->
  Admin.handle_create_backup junk now doc m w = Some (r, m') ->
  status r = 200 /\ exists n, (n < length (se_rows (storage w) name))%nat /\
    mget (Backups.generate_backup_arn name now (Backups.next_sequence_ m)) (Backups.items_ m') = Some (map snd (take n (se_rows (storage w) name))).
Proof.
  intros Hw E1 E2 E3 Hpos Hlen Hsize H. destruct (synced_found w name def Hw E3) as (-> & Hd & Hm).
  assert (Hn : se_names (table_name def) []) by (apply Hd; by left). set (rows := se_rows (storage w) (table_name def)) in *.
  assert (Hi : items (se_scan (storage w) (table_name def) None 0) = items (page 0 rows)) by (by rewrite se_scan_rows by (first [apply Hw|done])).
  unfold Admin.handle_create_backup in H. rewrite E1, E2, E3, Hi in H. unfold Backups.create_backup, Backups.write_snapshot in H.
  destruct (Backups.serialize_snapshot _ _) as [text|]; [|done]. cbn [option_map] in H. injection H as <- <-. split; [done|]. cbn [Backups.items_]. rewrite mget_mset, keqb_refl.
  destruct (fill_page_spec 0 rows [] 0 []) as (n & Hle & Hit & _). cbn [app] in Hit. exists n. split; [|unfold page; by rewrite Hit].
  destruct (Nat.eq_dec n (length rows)) as [->|]; [|lia]. exfalso. rewrite take_ge in Hit by done.
  destruct (fill_page_bounds 0 rows [] [] Hpos) as [_ Hb]; [done|left; by vm_compute|done|]. change (cap (rows_size [])) with 0 in Hb. rewrite Hit in Hb. unfold len in *. rewrite length_map in Hb. lia.
Qed.
End Restore.

(** ** On the in-memory engine *)

Section Demo.
#[local] Existing Instances MemoryEngine.engine MemoryEngine.laws.

Definition demo_world : World MemoryEngine.t := Service.world ReadsExact.demo_two.

Definition no_backups : Backups.BackupManager := {| Backups.backups_ := []; Backups.items_ := []; Backups.next_sequence_ := 1; Backups.files := [] |}.

Definition backup_doc : Json := JObj [(lit "TableName", JStr (lit "T")); (lit "BackupName", JStr (lit "B"))].
Definition restore_doc : Json := JObj [(lit "BackupArn", JStr (Backups.generate_backup_arn (lit "T") 1000 1)); (lit "TargetTableName", JStr (lit "U"))].

Definition backup_result : option (ApiResult * Backups.BackupManager) := Admin.handle_create_backup 0 1000 backup_doc no_backups demo_world.

End Demo.
End Restore.
