(* ===== verification/Replies.v ===== *)
(** * Replies

    Every reply of the service is a success without an error type or an error whose body
    is a JSON document with the type and a message. *)

From Stdlib Require Import ZArith Lia Strings.String.
From stdpp Require Import prelude.
From S2P Require Import Prelude StdMap Ranges Types CLib KeyCodec Validator Storage MemoryEngine Lexer Parser Evaluator UpdateExpression Streams TableManager NumberText Json TableJson Backups Dispatcher Api Handlers Queries Reads Writes PartiQL Admin Service Consistency.
Import Json TableJson Api Handlers.

Module Replies.

Definition error_prefix : bytes := lit "com.amazonaws.dynamodb.v20120810#".

(** What a client can rely on. *)
Definition well_formed (r : ApiResult) : Prop :=
  (status r = 200 /\ error_type r = []) \/
  (status r ∈ [400; 500; 501] /\ error_type r <> [] /\
   exists message, read_json (body r) = Some (JObj [(lit "__type", JStr (error_prefix ++ error_type r)); (lit "message", JStr message)])).

Lemma serialize_error_print t m : serialize_error t m = print kHex (JObj [(lit "__type", JStr t); (lit "message", JStr m)]).
Proof.
  unfold serialize_error. rewrite !escape_json_spec. cbn [print map joined fst snd]. unfold quoted. rewrite (escape_safe kHex (lit "__type")), (escape_safe kHex (lit "message")) by reflexivity.
  generalize (escape kHex t) (escape kHex m). intros a b. rewrite <- ?app_assoc. cbn [app]. repeat (rewrite <- ?app_assoc; cbn [app]). reflexivity.
Qed.

Lemma error_well_formed st t m : st ∈ [400; 500; 501] -> t <> [] -> well_formed (error st t m).
Proof.
  intros Hs Ht. right. split; [done|]. split; [done|]. exists m. cbn [body error]. rewrite serialize_error_print. by apply (read_json_print kHex (or_introl eq_refl)).
Qed.

Lemma ok_well_formed b : well_formed (ok b).
Proof. by left. Qed.

Create HintDb replies.
#[local] Hint Resolve ok_well_formed : replies.

Lemma error_400 t m : t <> [] -> well_formed (error 400 t m).
Proof. apply error_well_formed. apply list_elem_of_here. Qed.

Lemma error_500 t m : t <> [] -> well_formed (error 500 t m).
Proof. apply error_well_formed. by right; left. Qed.

Lemma error_501 t m : t <> [] -> well_formed (error 501 t m).
Proof. apply error_well_formed. by right; right; left. Qed.

#[local] Hint Extern 1 (well_formed (error 400 _ _)) => (apply error_400; vm_compute; discriminate) : replies.
#[local] Hint Extern 1 (well_formed (error 500 _ _)) => (apply error_500; vm_compute; discriminate) : replies.
#[local] Hint Extern 1 (well_formed (error 501 _ _)) => (apply error_501; vm_compute; discriminate) : replies.

Lemma bad_request_wf m : well_formed (bad_request m).
Proof. unfold bad_request. auto with replies. Qed.

Lemma table_missing_wf n : well_formed (table_missing n).
Proof. unfold table_missing. auto with replies. Qed.

Lemma table_not_found_wf n : well_formed (table_not_found n).
Proof. unfold table_not_found. auto with replies. Qed.

Lemma condition_failed_wf : well_formed condition_failed.
Proof. unfold condition_failed. auto with replies. Qed.

#[local] Hint Resolve bad_request_wf table_missing_wf table_not_found_wf condition_failed_wf : replies.
#[local] Hint Extern 1 (well_formed invalid_values) => apply bad_request_wf : replies.
#[local] Hint Extern 1 (well_formed invalid_condition) => apply bad_request_wf : replies.
#[local] Hint Extern 1 (well_formed (Reads.unknown_index _)) => apply bad_request_wf : replies.
#[local] Hint Extern 1 (well_formed empty_reply) => apply ok_well_formed : replies.

(** Replies of what may fail, and of handlers. *)
Definition wf_err {A} (x : expected A ApiResult) : Prop := match x with Err r => well_formed r | Ok _ => True end.
Definition wf_opt (x : option ApiResult) : Prop := match x with Some r => well_formed r | None => True end.
Definition wf_may {A} (x : option (expected A ApiResult)) : Prop := match x with Some y => wf_err y | None => True end.
Definition wf_reply {W} (x : option (ApiResult * W)) : Prop := match x with Some (r, _) => well_formed r | None => True end.

Ltac wf := repeat match goal with
  | |- context [option_map _ (option_map _ ?e)] => destruct e; cbn [option_map]
  | |- wf_err (match ?e with _ => _ end) => destruct e
  | |- wf_opt (match ?e with _ => _ end) => destruct e
  | |- wf_may (match ?e with _ => _ end) => destruct e
  | |- wf_reply (match ?e with _ => _ end) => destruct e
  | |- wf_reply (option_map _ ?e) => destruct e; cbn [option_map]
  | |- wf_opt (option_map _ ?e) => destruct e; cbn [option_map]
  | |- well_formed (match ?e with _ => _ end) => destruct e
  | |- wf_reply (Some (match ?e with _ => _ end)) => destruct e
  end; cbn [wf_err wf_opt wf_may wf_reply option_map fst snd]; auto 1 with replies.

Lemma read_key_wf def doc : wf_err (read_key def doc).
Proof. unfold read_key. wf. Qed.

Section Handlers.
Context {E : Type} {SE : StorageEngine E} {QE : QueryEngine E} (indeterminate : ProjectionType) (parse : bytes -> option Json) (env : Env).
Implicit Types w : World E.

Lemma attributes_reply_wf item : wf_opt (attributes_reply item).
Proof. unfold attributes_reply. wf. Qed.

Lemma put_wf doc w : wf_reply (handle_put_item env doc w).
Proof.
  unfold handle_put_item. destruct (get_string_at doc _); [|wf]. destruct (find_table _ _); [|wf]. destruct (at_key _ _); [|wf]. destruct (parse_attribute_map _); [|wf].
  destruct (negb _); [wf|]. destruct (validate_item_standard _ _); [|wf]. destruct (read_condition doc); [|wf]. destruct (se_mutate _ _ _ _) as [e o]. destruct (check_condition _ _); [|wf..].
  destruct (emit_stream _ _ _ _ _ _ _ _); [|done]. destruct (previous o); [|wf]. destruct (bytes_eqb _ _); [|wf]. unfold attributes_reply. wf.
Qed.

Lemma get_wf doc w : wf_reply (handle_get_item env doc w).
Proof.
  unfold handle_get_item, item_reply. destruct (get_string_at doc _); [|wf]. destruct (find_table _ _) as [def|]; [|wf]. pose proof (read_key_wf def doc) as Hk. destruct (read_key def doc); [|exact Hk].
  destruct (se_get _ _ _); [|wf]. destruct (item_is_expired _ _ _); [wf|]. destruct (get_string_at doc _); [destruct (apply_projection _ _ _) as [p []]|]; wf; destruct (serialize_item _); wf.
Qed.

Lemma delete_wf doc w : wf_reply (handle_delete_item env doc w).
Proof.
  unfold handle_delete_item, attributes_reply. destruct (get_string_at doc _); [|wf]. destruct (find_table _ _) as [def|]; [|wf]. pose proof (read_key_wf def doc) as Hk. destruct (read_key def doc); [|exact Hk].
  destruct (read_condition doc); [|wf]. destruct (se_mutate _ _ _ _) as [e o]. destruct (check_condition _ _); [|wf..]. destruct (previous o); [|wf]. destruct (emit_stream _ _ _ _ _ _ _ _); [|done].
  destruct (bytes_eqb _ _); [|wf]. destruct (serialize_item _); wf.
Qed.

Lemma update_reply_wf rv old new : wf_opt (update_reply rv old new).
Proof. unfold update_reply. repeat match goal with |- wf_opt (if ?b then _ else _) => destruct b end; try apply attributes_reply_wf; [destruct (changed_attributes _ _ _); [apply attributes_reply_wf|done]..|wf]. Qed.

Lemma update_wf doc w : wf_reply (handle_update_item env doc w).
Proof.
  unfold handle_update_item. destruct (get_string_at doc _); [|wf]. destruct (find_table _ _) as [def|]; [|wf]. pose proof (read_key_wf def doc) as Hk. destruct (read_key def doc); [|exact Hk].
  destruct (read_condition doc); [|wf]. destruct (se_mutate _ _ _ _) as [e o]. destruct (check_condition _ _); [|wf..]. destruct (updated_item _ _ _ _) as [[new|]|]; [|wf|done].
  destruct (emit_stream _ _ _ _ _ _ _ _); [|done]. pose proof (update_reply_wf (return_values doc) (previous o) new) as Hr. by destruct (update_reply _ _ _).
Qed.

(** ** Tables *)

Lemma tables_wf doc w : well_formed (handle_create_table indeterminate doc w).1 /\ well_formed (handle_describe_table doc w).1 /\ well_formed (handle_delete_table doc w).1 /\
  well_formed (handle_update_table doc w).1 /\ well_formed (handle_update_time_to_live doc w).1 /\ well_formed (handle_describe_time_to_live doc w).1 /\ well_formed (handle_list_tables w).1.
Proof.
  unfold handle_create_table, handle_describe_table, handle_delete_table, handle_update_table, handle_update_time_to_live, handle_describe_time_to_live, handle_list_tables, Tables.create_table, Tables.delete_table, Tables.set_ttl.
  repeat split; repeat (case_match; simplify_eq); cbn [fst]; eauto with replies.
Qed.

(** ** Reads *)

Lemma select_item_wf sel item out n : wf_err (Reads.select_item sel item out n).
Proof.
  unfold Reads.select_item. destruct (match Reads.filter sel with Some f => _ | None => _ end); [|done|wf]. destruct (Reads.count_only sel); [done|].
  destruct (Reads.projection sel); [|done]. destruct (apply_projection _ _ _) as [p []]; wf.
Qed.

Lemma page_reply_wf c out n m k : wf_opt (Reads.page_reply c out n m k).
Proof. unfold Reads.page_reply. destruct c; [wf|]. destruct (items_to_json out); wf. Qed.

Lemma scan_loop_wf sel seg key expired page : forall out n k, wf_err (Reads.scan_loop sel seg key expired page out n k).
Proof.
  induction page as [|i page IH]; intros out n k; cbn [Reads.scan_loop]; [done|]. destruct (negb _); [apply IH|]. destruct (expired i); [apply IH|].
  pose proof (select_item_wf sel i out n) as Hs. destruct (Reads.select_item sel i out n) as [[]|]; [apply IH|exact Hs].
Qed.

Lemma query_loop_wf sel limit kj rest : forall prev out n k, wf_may (Reads.query_loop sel limit kj rest prev out n k).
Proof.
  induction rest as [|i rest IH]; intros prev out n k; cbn [Reads.query_loop]; [done|]. destruct (_ && _); [destruct prev; [destruct (kj _); done|done]|].
  pose proof (select_item_wf sel i out n) as Hs. destruct (Reads.select_item sel i out n) as [[]|]; [apply IH|exact Hs].
Qed.

Lemma read_count_wf doc : wf_err (Reads.read_count doc).
Proof. unfold Reads.read_count. destruct (read_select_count _ _); wf. Qed.

Lemma read_segment_wf doc : wf_err (Reads.read_segment doc).
Proof. unfold Reads.read_segment. wf. Qed.

Lemma scan_wf doc w : wf_opt (Reads.handle_scan env doc w).
Proof.
  assert (Hscan : forall def idx t, wf_opt (Reads.scan_of env doc def idx t w)).
  { intros def idx t. unfold Reads.scan_of. pose proof (read_segment_wf doc) as H1. destruct (Reads.read_segment doc); [|exact H1]. pose proof (read_count_wf doc) as H2. destruct (Reads.read_count doc); [|exact H2].
    destruct (parse_expr_values doc); [|wf]. cbn zeta. match goal with |- context [Reads.scan_loop ?a ?b ?c ?d ?e ?f ?g ?h] => pose proof (scan_loop_wf a b c d e f g h) as H3; destruct (Reads.scan_loop a b c d e f g h) as [[[]]|] end; [|exact H3].
    destruct (Reads.cursor_json _ _); [apply page_reply_wf|done]. }
  unfold Reads.handle_scan. destruct (get_string_at doc "TableName"); [|wf]. destruct (find_table _ _); [|wf]. destruct (get_string_at doc "IndexName"); [destruct (find_index _ _); [|wf]|]; apply Hscan.
Qed.

Lemma key_condition_wf schema wrong names values expr : wf_may (Reads.key_condition_for schema wrong names values expr).
Proof. unfold Reads.key_condition_for. destruct (Reads.parse_key_condition _ _ _) as [[c|]|]; [|wf|done]. destruct schema; cbn [wf_may]; [wf|]. destruct (bytes_eqb _ _); wf. Qed.

Lemma answer_query_wf sel limit fwd keep key kj start esk result : wf_opt (Reads.answer_query sel limit fwd keep key kj start esk result).
Proof.
  unfold Reads.answer_query. destruct (Reads.cursor_json _ _); [|done]. match goal with |- context [Reads.query_loop ?a ?b ?c ?d ?e ?f ?g ?h] => pose proof (query_loop_wf a b c d e f g h) as H; destruct (Reads.query_loop a b c d e f g h) as [[[[[]]]|]|] end; [|exact H|done].
  apply page_reply_wf.
Qed.

Lemma legacy_wf fields : forall conds, wf_err (Reads.legacy_conditions fields conds).
Proof.
  induction fields as [|[k v] fields IH]; intros conds; cbn [Reads.legacy_conditions]; [done|]. destruct (negb _); [wf|]. destruct (get_array_at _ _) as [[|x l]|]; [wf| |wf]. destruct (parse_attribute_value x); [apply IH|wf].
Qed.

Lemma query_conditions_wf doc def names values : wf_may (Reads.query_conditions doc def names values).
Proof.
  unfold Reads.query_conditions. destruct (get_string_at _ _) as [expr|].
  - match goal with |- context [Reads.key_condition_for ?a ?b ?c ?d ?e] => pose proof (key_condition_wf a b c d e) as H; destruct (Reads.key_condition_for a b c d e) as [[]|] end; [done|exact H|done].
  - cbn [wf_may]. destruct (at_key _ _) as [[]|]; try (by wf). pose proof (legacy_wf fields []) as H. destruct (Reads.legacy_conditions fields []) as [[]|]; wf.
Qed.

Lemma query_wf doc w : wf_opt (Reads.handle_query env doc w).
Proof.
  unfold Reads.handle_query. destruct (get_string_at doc "TableName"); [|wf]. destruct (find_table _ _) as [def|]; [|wf]. destruct (get_string_at doc "IndexName") as [iname|].
  - unfold Reads.handle_index_query. destruct (find_index _ _); [|wf]. destruct (bool_decide _); [wf|]. destruct (_ && _); [wf|]. destruct (parse_expr_values doc); [|wf]. destruct (get_string_at doc _); [|wf].
    match goal with |- context [Reads.key_condition_for ?a ?b ?c ?d ?e] => pose proof (key_condition_wf a b c d e) as H; destruct (Reads.key_condition_for a b c d e) as [[]|] end; [|exact H|done].
    pose proof (read_count_wf doc) as H2. destruct (Reads.read_count doc); [|exact H2]. apply answer_query_wf.
  - destruct (parse_expr_values doc); [|wf]. match goal with |- context [Reads.query_conditions ?a ?b ?c ?d] => pose proof (query_conditions_wf a b c d) as H; destruct (Reads.query_conditions a b c d) as [[[[[]]]|]|] end; [|exact H|done].
    pose proof (read_count_wf doc) as H2. destruct (Reads.read_count doc); [|exact H2]. apply answer_query_wf.
Qed.

Lemma batch_get_wf doc w : wf_opt (Reads.handle_batch_get_item env doc w).
Proof.
  assert (Hkey : forall def msg el, wf_err (Reads.batch_key def msg el)) by (intros; unfold Reads.batch_key; wf).
  assert (Hkeys : forall def name keys items, wf_err (Reads.batch_get_keys env def name w keys items)).
  { intros def name keys. induction keys as [|k keys IH]; intros items; cbn [Reads.batch_get_keys]; [done|]. pose proof (Hkey def (lit "A key does not match the table schema") k) as H. destruct (Reads.batch_key _ _ _); [apply IH|exact H]. }
  assert (Htables : forall fields rs, wf_may (Reads.batch_get_tables env w fields rs)).
  { induction fields as [|[n v] fields IH]; intros rs; cbn [Reads.batch_get_tables]; [done|]. destruct (find_table _ _) as [def|]; [|wf]. destruct (Reads.keys_of v) as [keys|]; [|wf].
    pose proof (Hkeys def n keys []) as H. destruct (Reads.batch_get_keys _ _ _ _ _ _); [|exact H]. destruct (items_to_json _); [apply IH|done]. }
  unfold Reads.handle_batch_get_item. destruct (at_key _ _) as [[]|]; try (by wf). destruct (_ <? _); [wf|]. pose proof (Htables fields []) as H. destruct (Reads.batch_get_tables _ _ _ _) as [[]|]; [wf|exact H|done].
Qed.

Lemma transact_get_wf doc w : wf_opt (Reads.handle_transact_get_items env doc w).
Proof.
  assert (Hkey : forall def msg el, wf_err (Reads.batch_key def msg el)) by (intros; unfold Reads.batch_key; wf).
  assert (Hget : forall entries rs, wf_may (Reads.transact_get env w entries rs)).
  { induction entries as [|x entries IH]; intros rs; cbn [Reads.transact_get]; [done|]. destruct (at_key x _) as [g|]; [|wf]. destruct (get_string_at g _); [|wf]. destruct (find_table _ _) as [def|]; [|wf].
    destruct (at_key g _) as [k|]; [|wf]. pose proof (Hkey def (lit "Get key does not match schema") k) as H. destruct (Reads.batch_key _ _ _); [|exact H].
    destruct (Reads.live_item _ _ _ _ _); [destruct (serialize_item _); [|done]|]; apply IH. }
  unfold Reads.handle_transact_get_items. destruct (get_array_at _ _) as [entries|]; [|wf]. destruct (_ <? _); [wf|].
  pose proof (Hget entries []) as H. destruct (Reads.transact_get _ _ _ _) as [[]|]; [wf|exact H|done].
Qed.

(** ** Writes *)

Lemma batch_write_wf doc w : wf_reply (Writes.handle_batch_write_item env doc w).
Proof.
  assert (Hop : forall def name req, wf_err (Writes.batch_op def name req)) by (intros; unfold Writes.batch_op; wf).
  assert (Hreqs : forall def name reqs ops, wf_err (Writes.batch_requests def name reqs ops)).
  { intros def name reqs. induction reqs as [|x reqs IH]; intros ops; cbn [Writes.batch_requests]; [done|]. pose proof (Hop def name x) as H. destruct (Writes.batch_op _ _ _); [apply IH|exact H]. }
  assert (Htables : forall fields ops, wf_err (Writes.batch_tables w fields ops)).
  { induction fields as [|[n v] fields IH]; intros ops; cbn [Writes.batch_tables]; [done|]. destruct (find_table _ _) as [def|]; [|wf]. destruct v; try (by wf).
    match goal with |- context [Writes.batch_requests ?a ?b ?c ?d] => pose proof (Hreqs a b c d) as H; destruct (Writes.batch_requests a b c d) end; [apply IH|exact H]. }
  unfold Writes.handle_batch_write_item. destruct (at_key _ _) as [[]|]; try (by wf). pose proof (Htables fields []) as H. destruct (Writes.batch_tables _ _ _); [|exact H]. wf.
Qed.

Lemma read_action_wf w x : wf_err (Writes.read_action w x).
Proof.
  assert (Hdef : forall what sub, wf_err (Writes.action_def w what sub)) by (intros; unfold Writes.action_def; wf).
  assert (Hkeyed : forall what k sub, wf_err (Writes.keyed_action w what k sub)).
  { intros what k sub. unfold Writes.keyed_action. pose proof (Hdef what sub) as H. destruct (Writes.action_def _ _ _) as [[]|]; [wf|exact H]. }
  unfold Writes.read_action, Writes.put_action. destruct (at_key x _) as [sub|].
  { pose proof (Hdef "Put"%string sub) as H. destruct (Writes.action_def _ _ _) as [[]|]; [wf|exact H]. }
  destruct (at_key x _); [apply Hkeyed|]. destruct (at_key x _); [apply Hkeyed|]. destruct (at_key x _) as [sub|]; [|wf].
  pose proof (Hkeyed "ConditionCheck"%string Writes.KCheck sub) as H. destruct (Writes.keyed_action _ _ _ _); [wf|exact H].
Qed.

Lemma transact_wf entries w : match Writes.transact env entries w with Some (r, _) => well_formed r | None => True end.
Proof.
  assert (Hactions : forall l acc, wf_err (Writes.read_actions w l acc)).
  { induction l as [|x l IH]; intros acc; cbn [Writes.read_actions]; [done|]. pose proof (read_action_wf w x) as H. destruct (Writes.read_action _ _); [apply IH|exact H]. }
  assert (Hcheck : forall a, wf_may (Writes.check_action w a)).
  { intros a. unfold Writes.check_action. destruct (check_condition _ _); [|wf..]. destruct (Writes.kind a); wf. }
  assert (Hchecks : forall l, wf_may (Writes.check_actions w l)).
  { induction l as [|a l IH]; cbn [Writes.check_actions]; [done|]. pose proof (Hcheck a) as H. destruct (Writes.check_action w a) as [[]|]; [|exact H|done]. destruct (Writes.check_actions w l) as [[]|]; done. }
  unfold Writes.transact. pose proof (Hactions entries []) as H. destruct (Writes.read_actions _ _ _) as [l|]; [|exact H]. destruct (negb _); [auto with replies|].
  pose proof (Hchecks l) as H2. destruct (Writes.check_actions _ _) as [[]|]; [|exact H2|done]. destruct (Writes.apply_actions _ _ _ _); [|done]. cbn [option_map]. auto with replies.
Qed.

Lemma transact_write_wf t1 t2 raw doc cache w : match Writes.handle_transact_write_items env t1 t2 raw doc cache w with Some (r, _, _) => well_formed r | None => True end.
Proof.
  unfold Writes.handle_transact_write_items. destruct (get_array_at _ _) as [entries|]; [|auto with replies]. destruct (_ <? _); [auto with replies|]. cbn zeta.
  pose proof (transact_wf entries w) as H. destruct (Writes.transact env entries w) as [[r [w'|]]|]; (destruct (get_string_at doc _) as [[|b token]|]; [exact H| |exact H]);
    destruct (Writes.Idempotency.lookup _ _ _ _) as [c []]; auto with replies.
Qed.

(** ** Statements *)

Lemma plan_wf statement parameters w : wf_may (PartiQL.plan_statement statement parameters w).
Proof.
  assert (Hinv : forall m, wf_may (PartiQL.invalid m)) by (intros m; apply bad_request_wf).
  assert (Hthen : forall A (r : PartiQL.parsed A) k, (forall a p, wf_may (k a p)) -> wf_may (PartiQL.then_ r k)) by (intros A [[[]|]|] k Hk; cbn [PartiQL.then_]; [apply Hk|apply Hinv|done]).
  assert (Htab : forall p k, (forall a d p, wf_may (k a d p)) -> wf_may (PartiQL.table_of p w k)) by (intros p k Hk; unfold PartiQL.table_of; destruct (negb _); [apply Hinv|]; destruct (find_table _ _); [apply Hk|wf]).
  assert (Hreq : forall k m p f, (forall p, wf_may (f p)) -> wf_may (PartiQL.required k m p f)) by (intros k m p f Hf; unfold PartiQL.required; destruct (PartiQL.kw k p) as [p' []]; [apply Hf|apply Hinv]).
  unfold PartiQL.plan_statement. destruct (PartiQL.pql_tokenize statement) as [[toks|]|]; [|apply Hinv|done]. unfold PartiQL.plan_select, PartiQL.plan_insert, PartiQL.plan_update, PartiQL.plan_delete.
  repeat (first [apply Hthen; intros ? ?|apply Hreq; intros ?|apply Htab; intros ? ? ?|apply Hinv|match goal with |- wf_may (match ?x with _ => _ end) => destruct x end|done]).
Qed.

Lemma execute_wf i statement parameters w : wf_reply (PartiQL.execute_partiql env i statement parameters w).
Proof.
  unfold PartiQL.execute_partiql. pose proof (plan_wf statement parameters w) as H. destruct (PartiQL.plan_statement _ _ _) as [[plan|]|]; [|exact H|done].
  destruct plan; unfold PartiQL.perform, PartiQL.perform_select; wf.
Qed.

Lemma statements_wf doc w : wf_reply (PartiQL.handle_execute_statement env doc w) /\ wf_reply (PartiQL.handle_batch_execute_statement env doc w).
Proof.
  assert (Hrun : forall stmts i rs w, wf_reply (PartiQL.run_statements env i stmts rs w)).
  { induction stmts as [|x stmts IH]; intros i rs w'; cbn [PartiQL.run_statements]; [wf|]. destruct (get_string_at x _); [|wf]. destruct (PartiQL.read_parameters x); [|wf].
    destruct (PartiQL.execute_partiql _ _ _ _ _) as [[]|]; [apply IH|done]. }
  split; [unfold PartiQL.handle_execute_statement|unfold PartiQL.handle_batch_execute_statement].
  - destruct (get_string_at doc _); [|wf]. destruct (PartiQL.read_parameters doc); [apply execute_wf|wf].
  - destruct (get_array_at doc _); [apply Hrun|wf].
Qed.

(** ** Streams, backups and global tables *)

Lemma stream_error_wf e : well_formed (Admin.stream_error e).
Proof. destruct e; unfold Admin.stream_error; auto with replies. Qed.

Lemma backup_missing_wf arn : well_formed (Admin.backup_missing arn).
Proof. unfold Admin.backup_missing. auto with replies. Qed.

#[local] Hint Resolve stream_error_wf backup_missing_wf : replies.

Lemma streams_wf order random steady m doc : well_formed (Admin.handle_list_streams order doc) /\ well_formed (Admin.handle_describe_stream m doc) /\
  well_formed (Admin.handle_get_shard_iterator random steady m doc).1 /\ wf_reply (Admin.handle_get_records steady m doc).
Proof.
  unfold Admin.handle_list_streams, Admin.handle_describe_stream, Admin.handle_get_shard_iterator, Admin.handle_get_records.
  repeat split; [|repeat case_match..]; cbn [fst wf_reply]; auto with replies. all: destruct (Admin.records_json _); [cbn; auto with replies|done].
Qed.

Lemma restore_into_wf def target snapshot w : well_formed (Admin.restore_into def target snapshot w).1.
Proof. unfold Admin.restore_into. repeat case_match; cbn [fst]; auto with replies. Qed.

Lemma backups_wf junk now doc m w : wf_reply (Admin.handle_create_backup junk now doc m w) /\ well_formed (Admin.handle_list_backups m doc) /\ well_formed (Admin.handle_describe_backup m doc) /\
  well_formed (Admin.handle_delete_backup m doc).1 /\ well_formed (Admin.handle_restore_table_from_backup doc m w).1 /\ well_formed (Admin.handle_restore_table_to_pit doc w).1.
Proof.
  unfold Admin.handle_create_backup, Admin.handle_list_backups, Admin.handle_describe_backup, Admin.handle_delete_backup, Admin.handle_restore_table_from_backup, Admin.handle_restore_table_to_pit.
  split; [wf|]. split; [auto with replies|]. repeat split; repeat case_match; cbn [fst]; unfold Admin.backup_description_reply; auto using restore_into_wf with replies.
Qed.

Lemma global_wf op update doc w : well_formed (Admin.handle_global_table op doc w) /\ well_formed (Admin.handle_continuous_backups update doc w).
Proof.
  unfold Admin.handle_continuous_backups, Admin.handle_global_table, Admin.named_global_table. split; [destruct op|]; repeat case_match; auto with replies.
Qed.

(** ** The service *)

Lemma not_implemented_wf op : well_formed (Service.not_implemented op).
Proof. unfold Service.not_implemented. auto with replies. Qed.
End Handlers.

#[local] Hint Resolve not_implemented_wf : replies.

Section Server.
Context {E : Type} {SE : StorageEngine E} {QE : QueryEngine E} (indeterminate : ProjectionType) (parse : bytes -> option Json).
Implicit Types s : Service.Server E.

Lemma runs_wf s x : well_formed x.1 -> wf_reply (Service.runs s x).
Proof. done. Qed.

Lemma may_wf s x : wf_reply x -> wf_reply (Service.may s x).
Proof. by destruct x as [[]|]. Qed.

Lemma reads_wf s x : wf_opt x -> wf_reply (Service.reads s x).
Proof. by destruct x. Qed.

Lemma on_streams_wf op s f : (forall m, wf_reply (f m)) -> wf_reply (Service.on_streams op s f).
Proof. intros H. unfold Service.on_streams. destruct (streams _) as [m|]; [|cbn; auto with replies]. specialize (H m). by destruct (f m) as [[]|]. Qed.

Lemma on_backups_wf op s f : (forall m, wf_reply (f m)) -> wf_reply (Service.on_backups op s f).
Proof. intros H. unfold Service.on_backups. destruct (Service.backups s) as [m|]; [apply H|cbn; auto with replies]. Qed.

Lemma dispatch_wf r op raw doc s : wf_reply (Service.dispatch indeterminate r op raw doc s).
Proof.
  pose proof (tables_wf indeterminate doc (Service.world s)) as (? & ? & ? & ? & ? & ? & ?). pose proof (statements_wf (Service.request_env r) doc (Service.world s)) as [? ?].
  pose proof (global_wf op true doc (Service.world s)) as [? ?]. pose proof (global_wf op false doc (Service.world s)) as [_ ?].
  destruct op; cbn [Service.dispatch];
    first [apply runs_wf; done|apply may_wf; done|apply may_wf, put_wf|apply may_wf, get_wf|apply may_wf, update_wf|apply may_wf, delete_wf|apply may_wf, batch_write_wf
          |apply reads_wf, scan_wf|apply reads_wf, query_wf|apply reads_wf, batch_get_wf|apply reads_wf, transact_get_wf|done|cbn [wf_reply]; auto 1 with replies; fail|idtac].
  1-5: apply on_backups_wf; intros m; destruct (backups_wf (Service.backup_junk r) (Service.backup_time r) doc m (Service.world s)) as (Hc & ? & ? & ? & ? & ?).
  - by destruct (Admin.handle_create_backup _ _ _ _ _) as [[]|].
  - by destruct (Admin.handle_delete_backup m doc).
  - done.
  - done.
  - by apply runs_wf.
  - apply runs_wf. unfold Admin.handle_restore_table_to_pit. repeat case_match; cbn [fst]; auto using restore_into_wf with replies.
  - pose proof (transact_write_wf (Service.request_env r) (Service.cache_times r).1 (Service.cache_times r).2 raw doc (Service.completed s) (Service.world s)) as Ht.
    by destruct (Writes.handle_transact_write_items _ _ _ _ _ _ _) as [[[]]|].
  - apply on_streams_wf. intros m. by destruct (streams_wf (Service.stream_order r) (Service.iterator_random r) (Service.steady_time r) m doc).
  - apply on_streams_wf. intros m. by destruct (streams_wf (Service.stream_order r) (Service.iterator_random r) (Service.steady_time r) m doc) as (_ & ? & _).
  - apply on_streams_wf. intros m. destruct (streams_wf (Service.stream_order r) (Service.iterator_random r) (Service.steady_time r) m doc) as (_ & _ & ? & _). by destruct (Admin.handle_get_shard_iterator _ _ _ _).
  - apply on_streams_wf. intros m. by destruct (streams_wf (Service.stream_order r) (Service.iterator_random r) (Service.steady_time r) m doc) as (_ & _ & _ & ?).
Qed.

(** C19: Whatever the request and the state of the server, a reply that is not a success has
    status 400, 500 or 501 and an error type, and its body is a JSON document that reads
    back to that type, with the service's prefix, and a message; a success has status 200
    and no error type. *)
Theorem replies_typed r op raw s res s' : Service.handle_operation indeterminate parse r op raw s = Some (res, s') -> well_formed res.
Proof.
  unfold Service.handle_operation. destruct (parse _) as [doc|]; [|intros [= <- _]; auto with replies].
  destruct (Service.take_capacity r op doc s) as [s1 []]; cbn [negb]; [|intros [= <- _]; unfold Service.throttled; auto with replies].
  pose proof (dispatch_wf r op raw doc s1) as H. destruct (Service.dispatch _ _ _ _ _ _) as [[res1 s2]|]; [|done]. destruct (status res1 =? 200); [|by intros [= <- _]].
  destruct (Service.follow _ _ _ _); [|done]. by intros [= <- _].
Qed.
End Server.

Section Demo.
#[local] Existing Instances MemoryEngine.engine memory_queries.
Import Consistency.

Definition nameless_get : option (ApiResult * Service.Server MemoryEngine.t) :=
  Service.handle_operation PT_ALL read_json demo_readings Dispatcher.GetItem (q "{'TableName':'nosuch','Key':{}}") demo_final.

Lemma replies_typed_witness : exists res s', nameless_get = Some (res, s') /\ status res = 400 /\ well_formed res.
Proof.
  assert (Hst : option_map (fun x => status x.1) nameless_get = Some 400) by (vm_compute; reflexivity).
  destruct nameless_get as [[res s']|] eqn:Er; [|discriminate Hst]. cbn [option_map fst] in Hst. injection Hst as Hst. exists res, s'. split; [done|]. split; [done|].
  exact (replies_typed PT_ALL read_json demo_readings Dispatcher.GetItem _ demo_final res s' Er).
Defined.
End Demo.
End Replies.
