(* ===== verification/LockFreeQueue.v ===== *)
(** * The lock-free queue

    [include/cynamodb/core/lock_free_queue.hpp]: a bounded queue for any number of
    producers and consumers, a ring of cells with sequence numbers.  Threads run the
    code of [enqueue] and [dequeue] one atomic access at a time and interleave at will;
    [compare_exchange_weak] may fail for no reason.  The accesses are taken to be
    sequentially consistent.  The state also records what the threads did: the values in
    the order of the successful exchanges of [enqueue], and the results of the calls. *)

From Stdlib Require Import ZArith Lia.
From stdpp Require Import prelude.
From S2P Require Import Prelude.

Module Queue.
Section Queue.
Context {A : Type} (bits : Z).

(** [Capacity] is a power of two. *)
Definition Capacity : Z := 2 ^ bits.
Definition mask_ : Z := Capacity - 1.

(** What a thread does next. *)
Inductive Pc :=
| Idle
| EnqLoad (v : A)
| EnqLoop (v : A) (pos : Z)
| EnqCas (v : A) (pos : Z)
| EnqWrite (v : A) (pos : Z)
| EnqPublish (v : A) (pos : Z)
| DeqLoad
| DeqLoop (pos : Z)
| DeqCas (pos : Z)
| DeqRead (pos : Z)
| DeqRelease (pos : Z) (data : option A).

Inductive Result := Enqueued (pos : Z) (v : A) | Full (v : A) | Dequeued (pos : Z) (data : option A) | Empty.

(** [sequence] and [data] of the cells, the positions, the threads, and the record. *)
Record State := {
  sequence : Z -> Z;
  cell_data : Z -> option A;
  enqueue_pos_ : Z;
  dequeue_pos_ : Z;
  pcs : nat -> Pc;
  enqueued : list A;
  results : list Result
}.

Definition new : State :=
  {| sequence := fun i => i; cell_data := fun _ => None; enqueue_pos_ := 0; dequeue_pos_ := 0; pcs := fun _ => Idle; enqueued := []; results := [] |}.

Definition set_at {B} (f : Z -> B) (i : Z) (x : B) : Z -> B := fun j => if j =? i then x else f j.
Definition set_pc (f : nat -> Pc) (t : nat) (p : Pc) : nat -> Pc := fun t' => if (t' =? t)%nat then p else f t'.

Definition goto (s : State) (t : nat) (p : Pc) : State :=
  {| sequence := sequence s; cell_data := cell_data s; enqueue_pos_ := enqueue_pos_ s; dequeue_pos_ := dequeue_pos_ s;
     pcs := set_pc (pcs s) t p; enqueued := enqueued s; results := results s |}.

Definition finish (s : State) (t : nat) (r : Result) : State :=
  {| sequence := sequence s; cell_data := cell_data s; enqueue_pos_ := enqueue_pos_ s; dequeue_pos_ := dequeue_pos_ s;
     pcs := set_pc (pcs s) t Idle; enqueued := enqueued s; results := results s ++ [r] |}.

Definition cell (pos : Z) : Z := Z.land pos mask_.

Definition store_sequence (s : State) (pos x : Z) : State :=
  {| sequence := set_at (sequence s) (cell pos) x; cell_data := cell_data s; enqueue_pos_ := enqueue_pos_ s; dequeue_pos_ := dequeue_pos_ s;
     pcs := pcs s; enqueued := enqueued s; results := results s |}.

Definition store_data (s : State) (pos : Z) (x : option A) : State :=
  {| sequence := sequence s; cell_data := set_at (cell_data s) (cell pos) x; enqueue_pos_ := enqueue_pos_ s; dequeue_pos_ := dequeue_pos_ s;
     pcs := pcs s; enqueued := enqueued s; results := results s |}.

Definition intptr (x : Z) : Z := if x <? 2 ^ 63 then x else x - 2 ^ 64.

(** One atomic access of thread [t]; [spurious] makes an exchange fail. *)
Definition run (s : State) (t : nat) (spurious : bool) : State :=
  match pcs s t with
  | Idle => s
  | EnqLoad v => goto s t (EnqLoop v (enqueue_pos_ s))
  | EnqLoop v pos =>
      let diff := intptr (sequence s (cell pos)) - intptr pos in
      if diff =? 0 then goto s t (EnqCas v pos) else if diff <? 0 then finish s t (Full v) else goto s t (EnqLoad v)
  | EnqCas v pos =>
      if negb spurious && (enqueue_pos_ s =? pos) then
        {| sequence := sequence s; cell_data := cell_data s; enqueue_pos_ := u64 (pos + 1); dequeue_pos_ := dequeue_pos_ s;
           pcs := set_pc (pcs s) t (EnqWrite v pos); enqueued := enqueued s ++ [v]; results := results s |}
      else goto s t (EnqLoop v (enqueue_pos_ s))
  | EnqWrite v pos => goto (store_data s pos (Some v)) t (EnqPublish v pos)
  | EnqPublish v pos => finish (store_sequence s pos (u64 (pos + 1))) t (Enqueued pos v)
  | DeqLoad => goto s t (DeqLoop (dequeue_pos_ s))
  | DeqLoop pos =>
      let diff := intptr (sequence s (cell pos)) - intptr (u64 (pos + 1)) in
      if diff =? 0 then goto s t (DeqCas pos) else if diff <? 0 then finish s t Empty else goto s t DeqLoad
  | DeqCas pos =>
      if negb spurious && (dequeue_pos_ s =? pos) then
        {| sequence := sequence s; cell_data := cell_data s; enqueue_pos_ := enqueue_pos_ s; dequeue_pos_ := u64 (pos + 1);
           pcs := set_pc (pcs s) t (DeqRead pos); enqueued := enqueued s; results := results s |}
      else goto s t (DeqLoop (dequeue_pos_ s))
  | DeqRead pos => goto (store_data s pos None) t (DeqRelease pos (cell_data s (cell pos)))
  | DeqRelease pos x => finish (store_sequence s pos (u64 (pos + mask_ + 1))) t (Dequeued pos x)
  end.

(** A call of an idle thread, or the next access of a thread. *)
Inductive Move := CallEnqueue (t : nat) (v : A) | CallDequeue (t : nat) | Run (t : nat) (spurious : bool).

Definition step (s : State) (m : Move) : State :=
  match m with
  | CallEnqueue t v => match pcs s t with Idle => goto s t (EnqLoad v) | _ => s end
  | CallDequeue t => match pcs s t with Idle => goto s t DeqLoad | _ => s end
  | Run t spurious => run s t spurious
  end.

Definition size (s : State) : Z := if dequeue_pos_ s <? enqueue_pos_ s then enqueue_pos_ s - dequeue_pos_ s else 0.
End Queue.
Arguments Pc : clear implicits.
Arguments Result : clear implicits.
Arguments State : clear implicits.
Arguments Move : clear implicits.

(** ** Positions and cells *)

Section Laps.
Context (bits : Z) (Hbits : 1 <= bits <= 32).
Abbreviation cap := (Capacity bits).

Lemma cap_bounds : 2 <= cap <= 2 ^ 32.
Proof. unfold Capacity. split; [change 2 with (2 ^ 1) at 1|]; apply Z.pow_le_mono_r; lia. Qed.

Lemma cell_mod pos : cell bits pos = pos mod cap.
Proof. unfold cell, mask_, Capacity. apply land_low. lia. Qed.

(** Two positions of one cell are a lap apart. *)
Lemma lap a b : cell bits a = cell bits b -> a < b -> a + cap <= b.
Proof.
  rewrite !cell_mod. pose proof cap_bounds. intros E Hlt. pose proof (Z.div_mod a cap) as Ha. pose proof (Z.div_mod b cap) as Hb. rewrite E in Ha.
  assert (a / cap < b / cap) by nia. nia.
Qed.

Lemma same_lap a b : cell bits a = cell bits b -> a < b + cap -> b < a + cap -> a = b.
Proof. intros E H1 H2. destruct (Z.lt_trichotomy a b) as [Hlt|[Heq|Hlt]]; [apply lap in Hlt; [lia|done]|done|]. apply lap in Hlt; [lia|done]. Qed.

Lemma cell_next k : cell bits (k + cap) = cell bits k.
Proof. rewrite !cell_mod. pose proof cap_bounds. rewrite <- (Z.mod_add k 1 cap) by lia. f_equal. lia. Qed.

Lemma cell_succ k : cell bits (k + 1) <> cell bits k.
Proof. intros E. symmetry in E. apply lap in E; [|lia]. pose proof cap_bounds. lia. Qed.

Lemma cell_range k : 0 <= cell bits k < cap.
Proof. rewrite cell_mod. apply Z.mod_pos_bound. pose proof cap_bounds. lia. Qed.

Lemma cell_id i : 0 <= i < cap -> cell bits i = i.
Proof. intros Hi. rewrite cell_mod. by apply Z.mod_small. Qed.
End Laps.

(** ** The invariant *)

Section Invariant.
Context {A : Type} (bits : Z) (Hbits : 1 <= bits <= 32).
Abbreviation cap := (Capacity bits).
Abbreviation at_cell := (cell bits).
Implicit Types (s : State A) (p : Pc A).

(** The value of the enqueue number [k]. *)
Definition ticket s (k : Z) : option A := enqueued s !! Z.to_nat k.

(** Cell [i] serves position [k]: it waits for the value of [k], or holds it, or its
    value is being read. *)
Definition serves s (i k : Z) : Prop :=
  at_cell k = i /\ 0 <= k /\ k - cap < dequeue_pos_ s /\ enqueue_pos_ s <= k + cap /\ k < enqueue_pos_ s + cap /\
  (sequence s i = k /\ (enqueue_pos_ s <= k \/ dequeue_pos_ s <= k < enqueue_pos_ s) \/
   sequence s i = k + 1 /\ k < enqueue_pos_ s /\ (dequeue_pos_ s <= k -> exists v, ticket s k = Some v /\ cell_data s i = Some v)).

(** What a thread knows. *)
Definition pc_ok s p : Prop :=
  match p with
  | EnqLoop _ pos => 0 <= pos <= enqueue_pos_ s
  | EnqCas _ pos => 0 <= pos <= enqueue_pos_ s /\ (pos = enqueue_pos_ s -> sequence s (at_cell pos) = pos)
  | EnqWrite v pos => 0 <= pos /\ dequeue_pos_ s <= pos < enqueue_pos_ s /\ sequence s (at_cell pos) = pos /\ ticket s pos = Some v
  | EnqPublish v pos => 0 <= pos /\ dequeue_pos_ s <= pos < enqueue_pos_ s /\ sequence s (at_cell pos) = pos /\ ticket s pos = Some v /\ cell_data s (at_cell pos) = Some v
  | DeqLoop pos => 0 <= pos <= dequeue_pos_ s
  | DeqCas pos => 0 <= pos <= dequeue_pos_ s /\ (pos = dequeue_pos_ s -> sequence s (at_cell pos) = pos + 1)
  | DeqRead pos => 0 <= pos < dequeue_pos_ s /\ sequence s (at_cell pos) = pos + 1 /\ exists v, ticket s pos = Some v /\ cell_data s (at_cell pos) = Some v
  | DeqRelease pos x => 0 <= pos < dequeue_pos_ s /\ sequence s (at_cell pos) = pos + 1 /\ exists v, ticket s pos = Some v /\ x = Some v
  | _ => True
  end.

(** The position a thread has claimed, to write or to read. *)
Definition claim p : option (bool * Z) :=
  match p with
  | EnqWrite _ pos | EnqPublish _ pos => Some (true, pos)
  | DeqRead pos | DeqRelease pos _ => Some (false, pos)
  | _ => None
  end.

Definition dequeued_pos (r : Result A) : option Z := match r with Dequeued pos _ => Some pos | _ => None end.

Record inv s : Prop := {
  i_pos : 0 <= dequeue_pos_ s <= enqueue_pos_ s;
  i_len : enqueue_pos_ s = len (enqueued s);
  i_cell : forall i, 0 <= i < cap -> exists k, serves s i k;
  i_pc : forall t, pc_ok s (pcs s t);
  i_claim : forall t t' c, claim (pcs s t) = Some c -> claim (pcs s t') = Some c -> t = t';
  i_done : forall k x, Dequeued k x ∈ results s -> 0 <= k < dequeue_pos_ s /\ k + cap <= sequence s (at_cell k) /\ exists v, x = Some v /\ ticket s k = Some v;
  i_once : NoDup (omap dequeued_pos (results s));
  i_all : forall k, 0 <= k < dequeue_pos_ s -> (exists x, Dequeued k x ∈ results s) \/ exists t, claim (pcs s t) = Some (false, k);
  i_pending : forall k, dequeue_pos_ s <= k < enqueue_pos_ s -> sequence s (at_cell k) = k -> exists t, claim (pcs s t) = Some (true, k)
}.

Lemma new_inv : inv new.
Proof.
  pose proof (cap_bounds bits Hbits). split; try done.
  - intros i Hi. exists i. unfold serves. cbn. rewrite (cell_id bits Hbits) by done. repeat split; lia || (left; lia).
  - intros k x Hk. by apply elem_of_nil in Hk.
  - constructor.
  - cbn. intros k Hk. lia.
  - cbn. intros k Hk. lia.
Qed.

Lemma set_pc_same (f : nat -> Pc A) t p : set_pc f t p t = p.
Proof. unfold set_pc. by rewrite Nat.eqb_refl. Qed.

Lemma set_pc_other (f : nat -> Pc A) t p t' : t' <> t -> set_pc f t p t' = f t'.
Proof. unfold set_pc. by destruct (Nat.eqb_spec t' t). Qed.

Lemma set_at_same {B} (f : Z -> B) i x : set_at f i x i = x.
Proof. unfold set_at. by rewrite Z.eqb_refl. Qed.

Lemma set_at_other {B} (f : Z -> B) i x j : j <> i -> set_at f i x j = f j.
Proof. unfold set_at. by destruct (Z.eqb_spec j i). Qed.

(** The position a cell serves is read off its sequence number. *)
Lemma serves_wait s i k pos : serves s i k -> sequence s i = pos -> at_cell pos = i -> k = pos.
Proof. intros (<- & _ & _ & _ & _ & [[Hk _]|[Hk _]]) Hs E; [lia|]. replace pos with (k + 1) in E by lia. by apply cell_succ in E. Qed.

Lemma serves_holds s i k pos : serves s i k -> sequence s i = pos + 1 -> at_cell pos = i -> k = pos.
Proof. intros (<- & _ & _ & _ & _ & [[Hk _]|[Hk _]]) Hs E; [|lia]. replace k with (pos + 1) in E by lia. symmetry in E. by apply cell_succ in E. Qed.

(** *** Steps that only move a thread *)

Lemma goto_inv s t p : inv s -> claim (pcs s t) = None -> claim p = None -> pc_ok s p -> inv (goto s t p).
Proof.
  intros I Hc Hp Hok. split; try apply I.
  - intros t'. cbn [pcs goto]. destruct (decide (t' = t)) as [->|Hne]; [by rewrite set_pc_same|]. rewrite set_pc_other by done. apply (i_pc s I t').
  - intros t1 t2 c. cbn [pcs goto]. unfold set_pc. destruct (Nat.eqb_spec t1 t), (Nat.eqb_spec t2 t); try congruence. apply (i_claim s I).
  - intros k Hk. destruct (i_all s I k Hk) as [H|[t' H]]; [by left|]. right. exists t'. cbn [pcs goto]. rewrite set_pc_other; [done|]. intros ->. congruence.
  - intros k Hk Hs. destruct (i_pending s I k Hk Hs) as [t' H]. exists t'. cbn [pcs goto]. rewrite set_pc_other; [done|]. intros ->. congruence.
Qed.

Lemma finish_inv s t r : inv s -> claim (pcs s t) = None -> dequeued_pos r = None -> inv (finish s t r).
Proof.
  intros I Hc Hr. assert (Ho : omap dequeued_pos (results (finish s t r)) = omap dequeued_pos (results s)) by (cbn [results finish]; rewrite omap_app; cbn; rewrite Hr; apply app_nil_r).
  destruct (goto_inv s t Idle I Hc eq_refl Logic.I) as [? ? ? H3 H4 ? ? H5 H6]. split; try done.
  - intros k x. cbn [results finish]. rewrite elem_of_app, list_elem_of_singleton. intros [Hk|<-]; [by apply (i_done s I)|done].
  - rewrite Ho. apply I.
  - intros k Hk. destruct (H5 k Hk) as [[x Hx]|Hx]; [left; exists x; cbn [results finish]; apply elem_of_app; by left|by right].
Qed.

(** *** Steps that change the queue *)

(** The parts of the invariant about the threads, after a step of thread [t]. *)
Lemma threads_inv s t p (others : forall t', t' <> t -> claim (pcs s t') <> None -> claim (pcs s t') <> claim p) : inv s ->
  forall t1 t2 c, claim (set_pc (pcs s) t p t1) = Some c -> claim (set_pc (pcs s) t p t2) = Some c -> t1 = t2.
Proof.
  intros Is t1 t2 c. unfold set_pc. destruct (Nat.eqb_spec t1 t) as [->|N1], (Nat.eqb_spec t2 t) as [->|N2]; [done| | |apply (i_claim s Is)].
  - intros Hp H2. exfalso. apply (others t2 N2); congruence.
  - intros H1 Hp. exfalso. apply (others t1 N1); congruence.
Qed.

Lemma claim_other s t t' c : inv s -> claim (pcs s t) = Some c -> t' <> t -> claim (pcs s t') <> Some c.
Proof. intros Is Ht Hne Ht'. apply Hne. by eapply i_claim. Qed.

Lemma ticket_app s v k x : ticket s k = Some x -> (enqueued s ++ [v]) !! Z.to_nat k = Some x.
Proof. apply lookup_app_l_Some. Qed.

Definition claim_enqueue s t (v : A) : State A :=
  {| sequence := sequence s; cell_data := cell_data s; enqueue_pos_ := enqueue_pos_ s + 1; dequeue_pos_ := dequeue_pos_ s;
     pcs := set_pc (pcs s) t (EnqWrite v (enqueue_pos_ s)); enqueued := enqueued s ++ [v]; results := results s |}.

Lemma claim_enqueue_inv s t v : inv s -> pcs s t = EnqCas v (enqueue_pos_ s) -> inv (claim_enqueue s t v).
Proof.
  intros Is Ht. pose proof (cap_bounds bits Hbits) as Hcap. pose proof (i_pos s Is) as Hpos. pose proof (i_len s Is) as Hlen.
  pose proof (i_pc s Is t) as Hpc. rewrite Ht in Hpc. destruct Hpc as [_ Hseq]. specialize (Hseq eq_refl).
  assert (Hold : forall t', pc_ok s (pcs s t') -> t' <> t -> pc_ok (claim_enqueue s t v) (pcs s t')).
  { intros t' H _. destruct (pcs s t'); cbn [pc_ok claim_enqueue enqueue_pos_ dequeue_pos_ sequence cell_data] in *; try done; try lia; unfold ticket in *; cbn [enqueued claim_enqueue].
    - destruct H as (? & ? & ? & ?). repeat split; try lia. by apply ticket_app.
    - destruct H as (? & ? & ? & ? & ?). repeat split; try lia; [by apply ticket_app|done].
    - destruct H as (? & ? & x & ? & ?). repeat split; try lia. exists x. split; [by apply ticket_app|done].
    - destruct H as (? & ? & x & ? & ?). repeat split; try lia. exists x. split; [by apply ticket_app|done]. }
  split; cbn [claim_enqueue enqueue_pos_ dequeue_pos_ pcs results]; try lia.
  - cbn [enqueued claim_enqueue]. rewrite len_app, len_cons, len_nil. lia.
  - intros i Hi. destruct (i_cell s Is i Hi) as [k Hk]. exists k. unfold serves, ticket. cbn [claim_enqueue enqueue_pos_ dequeue_pos_ sequence cell_data enqueued].
    destruct (decide (i = at_cell (enqueue_pos_ s))) as [->|Hne].
    + pose proof (serves_wait s _ k _ Hk Hseq eq_refl) as ->. destruct Hk as (? & ? & ? & ? & ? & _). repeat split; lia.
    + destruct Hk as (E & H0 & H1 & H2 & H3 & H4). assert (k <> enqueue_pos_ s) by (intros ->; congruence).
      assert (k + cap <> enqueue_pos_ s). { intros Hx. rewrite <- Hx, (cell_next bits Hbits) in Hne. congruence. }
      repeat split; try lia. destruct H4 as [[? ?]|(? & ? & H4)]; [left; lia|right]. repeat split; try lia. intros Hd. destruct (H4 Hd) as (x & Hx & ?). exists x. split; [by apply ticket_app|done].
  - intros t'. destruct (decide (t' = t)) as [->|Hne]; [rewrite set_pc_same|rewrite set_pc_other by done; by apply Hold; [apply Is|]].
    cbn [pc_ok claim_enqueue enqueue_pos_ dequeue_pos_ sequence]. repeat split; try lia; try done. unfold ticket. cbn [enqueued claim_enqueue].
    apply list_lookup_middle. unfold len in Hlen. lia.
  - apply (threads_inv s t); [|done]. intros t' Hne Hsome. cbn [claim]. pose proof (i_pc s Is t') as H'. destruct (pcs s t'); cbn [claim pc_ok] in *; try done; intros [= ->]; lia.
  - intros k x Hk. destruct (i_done s Is k x Hk) as (? & ? & y & ? & ?). repeat split; try done; try lia. exists y. split; [done|]. by apply ticket_app.
  - apply Is.
  - intros k Hk. destruct (i_all s Is k Hk) as [H|[t' H]]; [by left|]. right. exists t'. rewrite set_pc_other; [done|]. intros ->. rewrite Ht in H. done.
  - intros k Hk Hs. destruct (decide (k = enqueue_pos_ s)) as [->|Hne]; [exists t; by rewrite set_pc_same|].
    destruct (i_pending s Is k ltac:(lia) Hs) as [t' H]. exists t'. rewrite set_pc_other; [done|]. intros ->. by rewrite Ht in H.
Qed.

Definition claim_dequeue s t : State A :=
  {| sequence := sequence s; cell_data := cell_data s; enqueue_pos_ := enqueue_pos_ s; dequeue_pos_ := dequeue_pos_ s + 1;
     pcs := set_pc (pcs s) t (DeqRead (dequeue_pos_ s)); enqueued := enqueued s; results := results s |}.

Lemma claim_dequeue_inv s t : inv s -> pcs s t = DeqCas (dequeue_pos_ s) -> inv (claim_dequeue s t).
Proof.
  intros Is Ht. pose proof (cap_bounds bits Hbits) as Hcap. pose proof (i_pos s Is) as Hpos.
  pose proof (i_pc s Is t) as Hpc. rewrite Ht in Hpc. destruct Hpc as [_ Hseq]. specialize (Hseq eq_refl).
  destruct (i_cell s Is (at_cell (dequeue_pos_ s)) (cell_range bits Hbits _)) as [k0 Hk0]. pose proof (serves_holds s _ k0 _ Hk0 Hseq eq_refl) as ->.
  destruct Hk0 as (_ & _ & _ & _ & _ & [[Hs _]|(_ & Hlt & Hval)]); [lia|]. specialize (Hval ltac:(lia)).
  assert (Hold : forall t', pc_ok s (pcs s t') -> t' <> t -> pc_ok (claim_dequeue s t) (pcs s t')).
  { intros t' H _. assert (Hw : forall pos, sequence s (at_cell pos) = pos -> dequeue_pos_ s <= pos -> dequeue_pos_ s + 1 <= pos).
    { intros pos Hp Hle. assert (pos <> dequeue_pos_ s) by (intros ->; lia). lia. }
    destruct (pcs s t'); cbn [pc_ok claim_dequeue enqueue_pos_ dequeue_pos_ sequence cell_data] in *; try done; try lia.
    - destruct H as (? & ? & Hp & ?). specialize (Hw _ Hp). repeat split; try lia; done.
    - destruct H as (? & ? & Hp & ? & ?). specialize (Hw _ Hp). repeat split; try lia; done.
    - destruct H as (? & ? & x & ? & ?). repeat split; try lia. by exists x.
    - destruct H as (? & ? & x & ? & ?). repeat split; try lia. by exists x. }
  split; cbn [claim_dequeue enqueue_pos_ dequeue_pos_ pcs results]; try lia.
  - apply Is.
  - intros i Hi. destruct (i_cell s Is i Hi) as [k (E & H0 & H1 & H2 & H3 & H4)]. exists k. unfold serves. cbn [claim_dequeue enqueue_pos_ dequeue_pos_ sequence cell_data].
    repeat split; try lia. destruct H4 as [[Hs Hx]|(Hs & Hx & H4)]; [left|right].
    + split; [done|]. destruct Hx; [by left|]. right. assert (k <> dequeue_pos_ s) by (intros ->; subst i; lia). lia.
    + repeat split; try done. intros Hd. apply H4. lia.
  - intros t'. destruct (decide (t' = t)) as [->|Hne]; [rewrite set_pc_same|rewrite set_pc_other by done; by apply Hold; [apply Is|]].
    cbn [pc_ok claim_dequeue dequeue_pos_ sequence]. repeat split; try lia; done.
  - apply (threads_inv s t); [|done]. intros t' Hne Hsome. cbn [claim]. pose proof (i_pc s Is t') as H'. destruct (pcs s t'); cbn [claim pc_ok] in *; try done; intros [= ->]; lia.
  - intros k x Hk. destruct (i_done s Is k x Hk) as (? & ? & ?). repeat split; try done; lia.
  - apply Is.
  - intros k Hk. destruct (decide (k = dequeue_pos_ s)) as [->|Hne]; [right; exists t; by rewrite set_pc_same|].
    destruct (i_all s Is k ltac:(lia)) as [H|[t' H]]; [by left|]. right. exists t'. rewrite set_pc_other; [done|]. intros ->. rewrite Ht in H. done.
  - intros k Hk Hs. destruct (i_pending s Is k ltac:(lia) Hs) as [t' H]. exists t'. rewrite set_pc_other; [done|]. intros ->. by rewrite Ht in H.
Qed.

(** What the threads know survives a change of one cell by the thread that claimed it. *)
Lemma store_data_ok s pos x t' : pc_ok s (pcs s t') ->
  (forall v q, pcs s t' = EnqPublish v q -> at_cell q <> at_cell pos) -> (forall q, pcs s t' = DeqRead q -> at_cell q <> at_cell pos) ->
  pc_ok (store_data bits s pos x) (pcs s t').
Proof.
  intros H He Hd. destruct (pcs s t') as [| | | | |v q| | | |q|]; cbn [pc_ok store_data sequence cell_data enqueue_pos_ dequeue_pos_] in *; try done.
  - destruct H as (? & ? & ? & ? & ?). repeat split; try done; try lia. rewrite set_at_other; [done|]. by eapply He.
  - destruct H as (? & ? & v & ? & ?). repeat split; try done; try lia. exists v. split; [done|]. rewrite set_at_other; [done|]. by eapply Hd.
Qed.

Lemma write_kept s t v pos : inv s -> pcs s t = EnqWrite v pos -> inv (goto (store_data bits s pos (Some v)) t (EnqPublish v pos)).
Proof.
  intros Is Ht. pose proof (i_pc s Is t) as Hpc. rewrite Ht in Hpc. destruct Hpc as (H0 & Hr & Hseq & Hv).
  assert (Hmine : forall t', t' <> t -> claim (pcs s t') <> Some (true, pos)) by (intros t' Hne; apply (claim_other s t); [done|by rewrite Ht|done]).
  split; try apply Is.
  - intros i Hi. destruct (i_cell s Is i Hi) as [k Hk]. exists k. pose proof Hk as (E & ? & ? & ? & ? & H4). unfold serves. cbn [goto store_data sequence cell_data enqueue_pos_ dequeue_pos_].
    repeat split; try done. destruct H4 as [H4|(Hs & Hx & H4)]; [by left|right]. repeat split; try done. intros Hd. destruct (H4 Hd) as (x & ? & ?). exists x. split; [done|].
    rewrite set_at_other; [done|]. intros ->. pose proof (serves_wait s _ k pos Hk Hseq eq_refl) as ->. lia.
  - intros t'. cbn [pcs goto]. destruct (decide (t' = t)) as [->|Hne].
    + rewrite set_pc_same. cbn [pc_ok goto store_data cell_data sequence enqueue_pos_ dequeue_pos_]. rewrite set_at_same. done.
    + rewrite set_pc_other by done. apply (store_data_ok s pos (Some v) t'); [apply Is|..].
      * intros v' q Hq E. pose proof (i_pc s Is t') as H'. rewrite Hq in H'. cbn [pc_ok] in H'. destruct H' as (_ & _ & Hs & _). rewrite E, Hseq in Hs. apply (Hmine t' Hne). rewrite Hq. cbn. by rewrite Hs.
      * intros q Hq E. pose proof (i_pc s Is t') as H'. rewrite Hq in H'. cbn [pc_ok] in H'. destruct H' as (_ & Hs & _). rewrite E, Hseq in Hs. rewrite Hs in E. symmetry in E. by apply cell_succ in E.
  - apply (threads_inv s t); [|done]. intros t' Hne _. cbn [claim]. by apply Hmine.
  - intros k Hk. destruct (i_all s Is k Hk) as [H|[t' H]]; [by left|]. right. exists t'. cbn [pcs goto store_data]. rewrite set_pc_other; [done|]. intros ->. by rewrite Ht in H.
  - intros k Hk Hs. destruct (i_pending s Is k Hk Hs) as [t' H]. cbn [pcs goto store_data]. destruct (decide (t' = t)) as [->|Hne].
    + exists t. rewrite set_pc_same. by rewrite Ht in H.
    + exists t'. by rewrite set_pc_other.
Qed.

Lemma read_kept s t pos : inv s -> pcs s t = DeqRead pos -> inv (goto (store_data bits s pos None) t (DeqRelease pos (cell_data s (at_cell pos)))).
Proof.
  intros Is Ht. pose proof (i_pc s Is t) as Hpc. rewrite Ht in Hpc. destruct Hpc as (Hr & Hseq & v & Hv & Hdata).
  assert (Hmine : forall t', t' <> t -> claim (pcs s t') <> Some (false, pos)) by (intros t' Hne; apply (claim_other s t); [done|by rewrite Ht|done]).
  split; try apply Is.
  - intros i Hi. destruct (i_cell s Is i Hi) as [k Hk]. exists k. pose proof Hk as (E & ? & ? & ? & ? & H4). unfold serves. cbn [goto store_data sequence cell_data enqueue_pos_ dequeue_pos_].
    repeat split; try done. destruct H4 as [H4|(Hs & Hx & H4)]; [by left|right]. repeat split; try done. intros Hd. destruct (H4 Hd) as (x & ? & ?). exists x. split; [done|].
    rewrite set_at_other; [done|]. intros ->. pose proof (serves_holds s _ k pos Hk Hseq eq_refl) as ->. lia.
  - intros t'. cbn [pcs goto]. destruct (decide (t' = t)) as [->|Hne].
    + rewrite set_pc_same. cbn [pc_ok goto store_data cell_data sequence enqueue_pos_ dequeue_pos_]. repeat split; try done; try lia. by exists v.
    + rewrite set_pc_other by done. apply (store_data_ok s pos None t'); [apply Is|..].
      * intros v' q Hq E. pose proof (i_pc s Is t') as H'. rewrite Hq in H'. cbn [pc_ok] in H'. destruct H' as (_ & _ & Hs & _). rewrite E, Hseq in Hs. rewrite <- Hs in E. by apply cell_succ in E.
      * intros q Hq E. pose proof (i_pc s Is t') as H'. rewrite Hq in H'. cbn [pc_ok] in H'. destruct H' as (_ & Hs & _). rewrite E, Hseq in Hs. apply (Hmine t' Hne). rewrite Hq. cbn. do 2 f_equal. lia.
  - apply (threads_inv s t); [|done]. intros t' Hne _. cbn [claim]. by apply Hmine.
  - intros k Hk. destruct (i_all s Is k Hk) as [H|[t' H]]; [by left|]. right. cbn [pcs goto store_data]. destruct (decide (t' = t)) as [->|Hne].
    + exists t. rewrite set_pc_same. by rewrite Ht in H.
    + exists t'. by rewrite set_pc_other.
  - intros k Hk Hs. destruct (i_pending s Is k Hk Hs) as [t' H]. exists t'. cbn [pcs goto store_data]. rewrite set_pc_other; [done|]. intros ->. by rewrite Ht in H.
Qed.

(** A new sequence number in a cell, by the thread that claimed the position. *)
Lemma store_sequence_ok s pos x t' : inv s -> sequence s (at_cell pos) = pos \/ sequence s (at_cell pos) = pos + 1 /\ pos < dequeue_pos_ s -> pos < enqueue_pos_ s ->
  claim (pcs s t') <> Some (bool_decide (sequence s (at_cell pos) = pos), pos) -> pc_ok (store_sequence bits s pos x) (pcs s t').
Proof.
  intros Is Hseq Hlt Hc. pose proof (i_pc s Is t') as H'. assert (Hother : forall q d, sequence s (at_cell q) = q + d -> (d = 0 \/ d = 1) -> at_cell q = at_cell pos ->
    q = pos /\ (d = 0 <-> sequence s (at_cell pos) = pos)).
  { intros q d Hs Hd E. rewrite E in Hs. destruct Hd as [-> | ->], Hseq as [Hq|[Hq _]]; rewrite Hq in Hs.
    - split; [lia|]. split; [done|]. done.
    - exfalso. replace q with (pos + 1) in E by lia. by apply cell_succ in E.
    - exfalso. replace pos with (q + 1) in E by lia. symmetry in E. by apply cell_succ in E.
    - split; [lia|]. lia. }
  destruct (pcs s t') as [| | |v q|v q|v q| | |q|q|q y]; cbn [pc_ok claim store_sequence sequence cell_data enqueue_pos_ dequeue_pos_] in *; try done.
  - destruct H' as [Hq Hs]. split; [done|]. intros Heq. rewrite set_at_other; [by apply Hs|]. intros E. destruct (Hother q 0); [rewrite Hs by done; lia|by left|done|]. lia.
  - destruct H' as (? & ? & Hs & ?). repeat split; try done; try lia. rewrite set_at_other; [done|]. intros E. destruct (Hother q 0) as [-> Hiff]; [lia|by left|done|]. apply Hc. rewrite bool_decide_eq_true_2; [done|by apply Hiff].
  - destruct H' as (? & ? & Hs & ? & ?). repeat split; try done; try lia. rewrite set_at_other; [done|]. intros E. destruct (Hother q 0) as [-> Hiff]; [lia|by left|done|]. apply Hc. rewrite bool_decide_eq_true_2; [done|by apply Hiff].
  - destruct H' as [Hq Hs]. split; [done|]. intros Heq. rewrite set_at_other; [by apply Hs|]. intros E. destruct (Hother q 1) as [-> Hiff]; [rewrite Hs by done; lia|by right|done|]. specialize (Hs Heq). destruct Hseq as [Hq'|[_ Hq']]; lia.
  - destruct H' as (? & Hs & ?). repeat split; try done; try lia. rewrite set_at_other; [done|]. intros E. destruct (Hother q 1) as [-> Hiff]; [lia|by right|done|]. apply Hc. rewrite bool_decide_eq_false_2; [done|]. lia.
  - destruct H' as (? & Hs & ?). repeat split; try done; try lia. rewrite set_at_other; [done|]. intros E. destruct (Hother q 1) as [-> Hiff]; [lia|by right|done|]. apply Hc. rewrite bool_decide_eq_false_2; [done|]. lia.
Qed.

Lemma finish_results s t r k x : Dequeued k x ∈ results (finish s t r) -> Dequeued k x ∈ results s \/ r = Dequeued k x.
Proof. cbn [results finish]. rewrite elem_of_app, list_elem_of_singleton. by intros [H|H]; [left|right]. Qed.

Lemma publish_inv s t v pos : inv s -> pcs s t = EnqPublish v pos -> inv (finish (store_sequence bits s pos (pos + 1)) t (Enqueued pos v)).
Proof.
  intros Is Ht. pose proof (i_pc s Is t) as Hpc. rewrite Ht in Hpc. destruct Hpc as (H0 & Hr & Hseq & Hv & Hdata). pose proof (cap_bounds bits Hbits) as Hcap.
  assert (Hmine : forall t', t' <> t -> claim (pcs s t') <> Some (true, pos)) by (intros t' Hne; apply (claim_other s t); [done|by rewrite Ht|done]).
  split; try apply Is.
  - intros i Hi. destruct (i_cell s Is i Hi) as [k Hk]. exists k. unfold serves. cbn [finish store_sequence sequence cell_data enqueue_pos_ dequeue_pos_]. destruct (decide (i = at_cell pos)) as [->|Hne].
    + rewrite set_at_same. pose proof (serves_wait s _ k pos Hk Hseq eq_refl) as ->. destruct Hk as (? & ? & ? & ? & ? & _). repeat split; try lia. right. repeat split; try lia. intros _. by exists v.
    + rewrite set_at_other by done. exact Hk.
  - intros t'. cbn [pcs finish store_sequence]. destruct (decide (t' = t)) as [->|Hne]; [by rewrite set_pc_same|]. rewrite set_pc_other by done.
    apply (store_sequence_ok s pos (pos + 1) t' Is); [by left|lia|]. rewrite bool_decide_eq_true_2 by done. by apply Hmine.
  - apply (threads_inv s t Idle); [|done]. by intros t' _ H.
  - intros k x [Hk|?]%finish_results; [|done]. destruct (i_done s Is k x Hk) as (? & Hx & ?). cbn [finish store_sequence sequence dequeue_pos_]. split; [lia|]. split; [|done].
    unfold set_at. destruct (Z.eqb_spec (at_cell k) (at_cell pos)) as [E|]; [|done]. rewrite E in Hx. lia.
  - cbn [results finish store_sequence]. rewrite omap_app. cbn. rewrite app_nil_r. apply Is.
  - intros k Hk. destruct (i_all s Is k Hk) as [[x H]|[t' H]]; [left; exists x; cbn [results finish]; apply elem_of_app; by left|]. right. exists t'. cbn [pcs finish store_sequence]. rewrite set_pc_other; [done|]. intros ->. by rewrite Ht in H.
  - intros k Hk. cbn [pcs finish store_sequence sequence]. unfold set_at. destruct (Z.eqb_spec (at_cell k) (at_cell pos)) as [E|E]; [intros <-; by apply cell_succ in E|].
    intros Hs. destruct (i_pending s Is k Hk Hs) as [t' H]. exists t'. rewrite set_pc_other; [done|]. intros ->. rewrite Ht in H. cbn in H. congruence.
Qed.

Lemma release_inv s t pos x : inv s -> pcs s t = DeqRelease pos x -> inv (finish (store_sequence bits s pos (pos + cap)) t (Dequeued pos x)).
Proof.
  intros Is Ht. pose proof (i_pc s Is t) as Hpc. rewrite Ht in Hpc. destruct Hpc as (Hr & Hseq & v & Hv & ->). pose proof (cap_bounds bits Hbits) as Hcap. pose proof (i_pos s Is) as Hpos.
  assert (Hmine : forall t', t' <> t -> claim (pcs s t') <> Some (false, pos)) by (intros t' Hne; apply (claim_other s t); [done|by rewrite Ht|done]).
  assert (Hnew : forall y, Dequeued pos y ∉ results s). { intros y Hy. destruct (i_done s Is pos y Hy) as (_ & Hx & _). rewrite Hseq in Hx. lia. }
  split; try apply Is.
  - intros i Hi. destruct (i_cell s Is i Hi) as [k Hk]. unfold serves. cbn [finish store_sequence sequence cell_data enqueue_pos_ dequeue_pos_]. destruct (decide (i = at_cell pos)) as [->|Hne].
    + exists (pos + cap). rewrite set_at_same, (cell_next bits Hbits). pose proof (serves_holds s _ k pos Hk Hseq eq_refl) as ->. destruct Hk as (? & ? & ? & ? & ? & _). repeat split; lia.
    + exists k. rewrite set_at_other by done. exact Hk.
  - intros t'. cbn [pcs finish store_sequence]. destruct (decide (t' = t)) as [->|Hne]; [by rewrite set_pc_same|]. rewrite set_pc_other by done.
    apply (store_sequence_ok s pos (pos + cap) t' Is); [right; lia|lia|]. rewrite bool_decide_eq_false_2 by lia. by apply Hmine.
  - apply (threads_inv s t Idle); [|done]. by intros t' _ H.
  - intros k y [Hk|[= <- <-]]%finish_results.
    + destruct (i_done s Is k y Hk) as (? & Hx & ?). cbn [finish store_sequence sequence dequeue_pos_]. split; [lia|]. split; [|done].
      unfold set_at. destruct (Z.eqb_spec (at_cell k) (at_cell pos)) as [E|]; [|done]. rewrite E in Hx. lia.
    + cbn [finish store_sequence sequence dequeue_pos_]. split; [lia|]. split; [|by exists v]. rewrite set_at_same. lia.
  - cbn [results finish store_sequence]. rewrite omap_app. cbn. apply NoDup_app. split; [apply Is|]. split; [|apply NoDup_singleton].
    intros k Hk ->%list_elem_of_singleton. apply list_elem_of_omap in Hk as (r & Hr' & Hk). destruct r; try done. injection Hk as ->. by eapply Hnew.
  - intros k Hk. cbn [results finish store_sequence pcs]. destruct (decide (k = pos)) as [->|Hne]; [left; exists (Some v); apply elem_of_app; right; by apply list_elem_of_singleton|].
    destruct (i_all s Is k Hk) as [[y H]|[t' H]]; [left; exists y; apply elem_of_app; by left|]. right. exists t'. rewrite set_pc_other; [done|]. intros ->. rewrite Ht in H. cbn in H. congruence.
  - intros k Hk. cbn [pcs finish store_sequence sequence enqueue_pos_ dequeue_pos_] in *. unfold set_at. destruct (Z.eqb_spec (at_cell k) (at_cell pos)) as [E|E].
    + intros <-. destruct (i_cell s Is (at_cell pos) (cell_range bits Hbits _)) as [k0 Hk0]. pose proof (serves_holds s _ k0 pos Hk0 Hseq eq_refl) as ->. destruct Hk0 as (_ & _ & _ & ? & _). lia.
    + intros Hs. destruct (i_pending s Is k Hk Hs) as [t' H]. exists t'. rewrite set_pc_other; [done|]. intros ->. by rewrite Ht in H.
Qed.

(** *** Every step *)

(** Positions below [2 ^ 62] do not wrap around. *)
Lemma small_u64 x : 0 <= x < 2 ^ 63 -> u64 x = x /\ intptr x = x.
Proof. intros Hx. unfold u64, intptr. rewrite Z.mod_small by lia. by destruct (Z.ltb_spec x (2 ^ 63)); [|lia]. Qed.

Lemma run_inv s t spurious : len (enqueued s) < 2 ^ 62 -> inv s -> inv (run bits s t spurious).
Proof.
  intros Hlen Is. pose proof (i_pos s Is) as Hpos. pose proof (i_len s Is) as Hl. pose proof (i_pc s Is t) as Hpc. pose proof (cap_bounds bits Hbits) as Hcap.
  unfold run. destruct (pcs s t) as [|v|v pos|v pos|v pos|v pos| |pos|pos|pos|pos x] eqn:Ht; cbn [pc_ok] in Hpc; [done|..].
  - apply goto_inv; [done|by rewrite Ht|done|cbn; lia].
  - destruct (Z.eqb_spec (intptr (sequence s (at_cell pos)) - intptr pos) 0) as [E|E].
    + apply goto_inv; [done|by rewrite Ht|done|]. cbn. split; [lia|]. intros _. destruct (i_cell s Is (at_cell pos) (cell_range bits Hbits _)) as [k (_ & ? & ? & ? & ? & Hk)].
      destruct (small_u64 pos) as [_ Ep]; [lia|]. destruct (small_u64 (sequence s (at_cell pos))) as [_ Es]; [lia|]. lia.
    + destruct (_ <? 0); [apply finish_inv; [done|by rewrite Ht|done]|apply goto_inv; [done|by rewrite Ht|done|done]].
  - destruct (negb spurious && _) eqn:Ec; [|apply goto_inv; [done|by rewrite Ht|done|cbn; lia]]. apply andb_prop in Ec as [_ <-%Z.eqb_eq]. destruct (small_u64 (enqueue_pos_ s + 1)) as [-> _]; [lia|].
    by apply (claim_enqueue_inv s t v Is).
  - by apply write_kept.
  - destruct (small_u64 (pos + 1)) as [-> _]; [lia|]. by apply publish_inv.
  - apply goto_inv; [done|by rewrite Ht|done|cbn; lia].
  - destruct (small_u64 (pos + 1)) as [-> Ep]; [lia|]. destruct (Z.eqb_spec (intptr (sequence s (at_cell pos)) - intptr (pos + 1)) 0) as [E|E].
    + apply goto_inv; [done|by rewrite Ht|done|]. cbn. split; [lia|]. intros _. destruct (i_cell s Is (at_cell pos) (cell_range bits Hbits _)) as [k (_ & ? & ? & ? & ? & Hk)].
      destruct (small_u64 (sequence s (at_cell pos))) as [_ Es]; [lia|]. lia.
    + destruct (_ <? 0); [apply finish_inv; [done|by rewrite Ht|done]|apply goto_inv; [done|by rewrite Ht|done|done]].
  - destruct (negb spurious && _) eqn:Ec; [|apply goto_inv; [done|by rewrite Ht|done|cbn; lia]]. apply andb_prop in Ec as [_ <-%Z.eqb_eq]. destruct (small_u64 (dequeue_pos_ s + 1)) as [-> _]; [lia|].
    by apply (claim_dequeue_inv s t Is).
  - by apply read_kept.
  - replace (u64 (pos + mask_ bits + 1)) with (pos + cap); [by apply release_inv|]. unfold mask_. destruct (small_u64 (pos + (cap - 1) + 1)) as [-> _]; lia.
Qed.

Lemma step_enqueued s m : exists l, enqueued (step bits s m) = enqueued s ++ l.
Proof.
  assert (Hsame : exists l, enqueued s = enqueued s ++ l) by (exists []; by rewrite app_nil_r).
  destruct m; cbn [step]; [destruct (pcs s t); done|destruct (pcs s t); done|]. unfold run. destruct (pcs s t); try done; repeat case_match; try done. by exists [v].
Qed.

Definition after (moves : list (Move A)) : State A := fold_left (step bits) moves new.

Lemma after_inv moves : len (enqueued (after moves)) < 2 ^ 62 -> inv (after moves).
Proof.
  unfold after. induction moves as [|m moves IH] using rev_ind; [intros _; apply new_inv|]. rewrite fold_left_app. cbn [fold_left]. set (s := fold_left _ _ _) in *.
  destruct (step_enqueued s m) as [l Hl]. rewrite Hl, len_app. intros Hlen. pose proof (len_nonneg l). specialize (IH ltac:(lia)).
  destruct m; cbn [step]; [| |apply run_inv; [lia|done]]; destruct (pcs s t) eqn:Ht; try done; (apply goto_inv; [done|by rewrite Ht|done|done]).
Qed.

(** ** What the queue guarantees *)

(** The positions that were dequeued: their cell has gone on. *)
Lemma past_sequence s k : inv s -> 0 <= k < dequeue_pos_ s -> k + 1 <= sequence s (at_cell k).
Proof.
  intros Is Hk. pose proof (cap_bounds bits Hbits) as Hcap. destruct (i_all s Is k Hk) as [[x Hx]|[t Ht]].
  - destruct (i_done s Is k x Hx) as (_ & ? & _). lia.
  - pose proof (i_pc s Is t) as Hpc. destruct (pcs s t); try done; injection Ht as ->; destruct Hpc as (_ & -> & _); lia.
Qed.

(** A position in the queue is served by its cell. *)
Lemma queued_served s k : inv s -> dequeue_pos_ s <= k < enqueue_pos_ s -> serves s (at_cell k) k.
Proof.
  intros Is Hk. destruct (i_cell s Is (at_cell k) (cell_range bits Hbits _)) as [k' Hs]. replace k with k' at 2; [done|]. destruct Hs as (E & H0 & H1 & H2 & H3 & _).
  destruct (Z.lt_trichotomy k' k) as [Hlt|[Heq|Hlt]]; [|done|]; apply (lap bits Hbits) in Hlt; (lia || done).
Qed.

(** The queue never holds more than its capacity. *)
Lemma bounded s : inv s -> enqueue_pos_ s <= dequeue_pos_ s + cap.
Proof.
  intros Is. pose proof (cap_bounds bits Hbits). destruct (Z.ltb_spec (dequeue_pos_ s) (enqueue_pos_ s)) as [Hlt|]; [|lia].
  destruct (queued_served s (dequeue_pos_ s) Is ltac:(lia)) as (_ & _ & _ & ? & _). lia.
Qed.

Lemma full_reason s pos : inv s -> 0 <= pos <= enqueue_pos_ s -> sequence s (at_cell pos) < pos ->
  enqueue_pos_ s = dequeue_pos_ s + cap \/ exists t, claim (pcs s t) = Some (false, enqueue_pos_ s - cap).
Proof.
  intros Is Hpos Hlt. pose proof (cap_bounds bits Hbits) as Hcap. pose proof (bounded s Is) as Hb.
  destruct (Z.ltb_spec pos (dequeue_pos_ s)); [pose proof (past_sequence s pos Is ltac:(lia)); lia|].
  destruct (Z.ltb_spec pos (enqueue_pos_ s)); [destruct (queued_served s pos Is ltac:(lia)) as (_ & _ & _ & _ & _ & Hs); lia|].
  replace pos with (enqueue_pos_ s) in * by lia. destruct (i_cell s Is (at_cell (enqueue_pos_ s)) (cell_range bits Hbits _)) as [k (E & K0 & K1 & K2 & K3 & K4)].
  assert (Hk : k < enqueue_pos_ s) by lia. apply (lap bits Hbits) in Hk; [|done]. assert (k = enqueue_pos_ s - cap) as Ek by lia. rewrite <- Ek.
  destruct (Z.ltb_spec k (dequeue_pos_ s)); [right|left; lia]. destruct (i_all s Is k ltac:(lia)) as [[x Hx]|Ht]; [|done]. destruct (i_done s Is k x Hx) as (_ & ? & _). rewrite E in *. lia.
Qed.

Lemma empty_reason s pos : inv s -> 0 <= pos <= dequeue_pos_ s -> sequence s (at_cell pos) < pos + 1 ->
  enqueue_pos_ s = dequeue_pos_ s \/ exists t, claim (pcs s t) = Some (true, dequeue_pos_ s).
Proof.
  intros Is Hpos Hlt. pose proof (i_pos s Is) as Hp. destruct (Z.ltb_spec pos (dequeue_pos_ s)); [pose proof (past_sequence s pos Is ltac:(lia)); lia|].
  replace pos with (dequeue_pos_ s) in * by lia. destruct (Z.ltb_spec (dequeue_pos_ s) (enqueue_pos_ s)) as [Hne|]; [|left; lia].
  right. apply (i_pending s Is); [lia|]. destruct (queued_served s (dequeue_pos_ s) Is ltac:(lia)) as (_ & _ & _ & _ & _ & Hs). lia.
Qed.

Lemma run_refuses s t spurious r : len (enqueued s) < 2 ^ 62 -> inv s -> results (run bits s t spurious) = results s ++ [r] ->
  match r with
  | Full _ => enqueue_pos_ s = dequeue_pos_ s + cap \/ exists t, claim (pcs s t) = Some (false, enqueue_pos_ s - cap)
  | Empty => enqueue_pos_ s = dequeue_pos_ s \/ exists t, claim (pcs s t) = Some (true, dequeue_pos_ s)
  | _ => True
  end.
Proof.
  intros Hlen Is. pose proof (i_pos s Is) as Hpos. pose proof (i_len s Is) as Hl. pose proof (i_pc s Is t) as Hpc. pose proof (cap_bounds bits Hbits) as Hcap.
  assert (Hno : results s = results s ++ [r] -> False). { intros E. apply (f_equal length) in E. rewrite length_app in E. cbn in E. lia. }
  assert (Hdiff : forall pos, 0 <= pos <= enqueue_pos_ s -> intptr pos = pos /\ u64 (pos + 1) = pos + 1 /\ intptr (pos + 1) = pos + 1 /\ intptr (sequence s (at_cell pos)) = sequence s (at_cell pos)).
  { intros pos Hr. destruct (small_u64 pos) as [_ ->]; [lia|]. destruct (small_u64 (pos + 1)) as [-> ->]; [lia|]. destruct (i_cell s Is (at_cell pos) (cell_range bits Hbits _)) as [k (_ & ? & ? & ? & ? & Hk)].
    destruct (small_u64 (sequence s (at_cell pos))) as [_ ->]; [lia|done]. }
  unfold run. destruct (pcs s t) as [|v|v pos|v pos|v pos|v pos| |pos|pos|pos|pos x]; cbn [pc_ok] in Hpc; try (by intros E; exfalso; apply Hno);
    try (destruct (negb spurious && _); by intros E; exfalso; apply Hno).
  - destruct (Hdiff pos ltac:(lia)) as (-> & _ & _ & ->). destruct (_ =? 0); [by intros E; exfalso; apply Hno|]. destruct (Z.ltb_spec (sequence s (at_cell pos) - pos) 0); [|by intros E; exfalso; apply Hno].
    cbn [results finish]. intros [= <-]%app_inv_head. apply (full_reason s pos Is); lia.
  - cbn [results finish store_sequence]. by intros [= <-]%app_inv_head.
  - destruct (Hdiff pos ltac:(lia)) as (_ & -> & -> & ->). destruct (_ =? 0); [by intros E; exfalso; apply Hno|]. destruct (Z.ltb_spec (sequence s (at_cell pos) - (pos + 1)) 0); [|by intros E; exfalso; apply Hno].
    cbn [results finish]. intros [= <-]%app_inv_head. apply (empty_reason s pos Is); lia.
  - cbn [results finish store_sequence]. by intros [= <-]%app_inv_head.
Qed.

(** C22: the queue is a bounded first-in first-out queue for any number of threads.
    Whatever the interleaving and the spurious failures, the dequeue that claims position
    [k] returns the value of the enqueue that claimed position [k]; no position is
    dequeued twice and none below the head is lost (it was returned, or its thread is
    about to return it); the queue never holds more than its capacity; an enqueue is
    refused only when the queue is full or the item a lap earlier is just being taken
    out; and a dequeue finds nothing only when the queue is empty or the item at its head
    is just being written. *)
Theorem queue_is_fifo moves : let s := after moves in len (enqueued s) < 2 ^ 62 ->
  (forall k x, Dequeued k x ∈ results s -> exists v, x = Some v /\ enqueued s !! Z.to_nat k = Some v) /\
  NoDup (omap dequeued_pos (results s)) /\
  (forall k, 0 <= k < dequeue_pos_ s -> (exists v, Dequeued k (Some v) ∈ results s) \/ exists t, claim (pcs s t) = Some (false, k)) /\
  dequeue_pos_ s <= len (enqueued s) <= dequeue_pos_ s + cap /\
  (forall t spurious v, results (run bits s t spurious) = results s ++ [Full v] ->
    len (enqueued s) = dequeue_pos_ s + cap \/ exists t', claim (pcs s t') = Some (false, len (enqueued s) - cap)) /\
  (forall t spurious, results (run bits s t spurious) = results s ++ [Empty] ->
    len (enqueued s) = dequeue_pos_ s \/ exists t', claim (pcs s t') = Some (true, dequeue_pos_ s)).
Proof.
  intros s Hlen. pose proof (after_inv moves Hlen) as Is. fold s in Is. pose proof (bounded s Is) as Hb. pose proof (i_pos s Is). rewrite <- (i_len s Is) in *. split; [|split; [apply Is|split; [|split; [lia|split]]]].
  - intros k x Hk. by destruct (i_done s Is k x Hk) as (_ & _ & ?).
  - intros k Hk. destruct (i_all s Is k Hk) as [[x Hx]|?]; [left|by right]. destruct (i_done s Is k x Hx) as (_ & _ & v & -> & _). by exists v.
  - intros t spurious v E. apply (run_refuses s t spurious (Full v)); [rewrite <- (i_len s Is); lia|done|done].
  - intros t spurious E. apply (run_refuses s t spurious Empty); [rewrite <- (i_len s Is); lia|done|done].
Qed.
End Invariant.

(** ** Threads on a queue of two cells *)

(** Two producers interleave; one is overtaken before it has written its value. *)
Definition demo_moves : list (Move Z) :=
  [CallEnqueue 0 10; CallEnqueue 1 20; CallDequeue 2; Run 0 false; Run 1 false; Run 0 false; Run 1 false; Run 0 true; Run 0 false; Run 0 false;
   Run 1 false; Run 1 false; Run 1 false; Run 1 false; Run 1 false; Run 2 false; Run 2 false; CallDequeue 2] ++
  [Run 0 false; Run 0 false] ++ flat_map (fun _ => [Run 2 false]) (seq 0 5).

Lemma queue_is_fifo_witness : results (after 1 demo_moves) = [Enqueued 1 20; Empty; Enqueued 0 10; Dequeued 0 (Some 10)] /\ exists v, Some 10 = Some v /\ enqueued (after 1 demo_moves) !! 0%nat = Some v.
Proof.
  split; [vm_compute; reflexivity|]. apply (proj1 (queue_is_fifo 1 ltac:(lia) demo_moves ltac:(vm_compute; reflexivity)) 0 (Some 10)). vm_compute. right. right. right. left.
Defined.

(** A queue of one cell, which the static assertion admits, overwrites its item. *)
Lemma single_cell_overwrites :
  let moves := flat_map (fun v => CallEnqueue 0 v :: repeat (Run 0 false) 5) [10; 20] ++ CallDequeue 0 :: repeat (Run 0 false) 5 in
  results (after 0 moves) = [Enqueued 0 10; Enqueued 1 20] /\ enqueue_pos_ (after (A := Z) 0 moves) = 2.
Proof. vm_compute. done. Qed.
End Queue.
