(* ===== verification/Scheduler.v ===== *)
(** * The work-stealing scheduler

    [src/core/scheduler.cpp]: workers with a queue and a mutex each, which steal from one
    another, the calls of [submit] and the call of [stop].  A step runs from one
    acquisition of a mutex to the next, or from one read of [running_] to the next; a
    thread whose mutex is taken is blocked.  The wait on the condition variable can end at
    any time, as its timeout allows, so [has_work] decides nothing; nothing is ever put
    into the global queue, so its [dequeue] finds nothing.  The state also records the
    tasks that were queued, those that ran, with the worker that ran them, and the empty
    ones that were passed over. *)

From Stdlib Require Import ZArith Lia.
From stdpp Require Import prelude.
From S2P Require Import Prelude.

Module Scheduler.
Section Scheduler.
(** [callable] says whether a [std::function] holds a target. *)
Context {Task : Type} (callable : Task -> bool) (workers : nat).

Inductive Pc :=
| Top
| AtLock
| Locked
| Stealing
| HoldsVictim (victim : nat)
| WantsSelf (victim : nat)
| Relocking
| Relocked
| Waiting
| Woken
| Executing (task : Task)
| Stopped.

(** The thread that calls [stop]: notifying the workers in turn, then joining them. *)
Inductive Stopper := NotCalled | Notifying (i : nat) | Joining (i : nat) | Returned.

Record State := {
  running_ : bool;
  local_queue : nat -> list Task;
  queue_mutex : nat -> option nat;
  pcs : nat -> Pc;
  tasks_completed : nat -> Z;
  tasks_stolen : nat -> Z;
  calls : list (Task * bool * nat);
  stopper : Stopper;
  queued : list Task;
  executed : list (nat * Task);
  skipped : list Task
}.

Definition new : State :=
  {| running_ := true; local_queue := fun _ => []; queue_mutex := fun _ => None; pcs := fun _ => Top; tasks_completed := fun _ => 0; tasks_stolen := fun _ => 0;
     calls := []; stopper := NotCalled; queued := []; executed := []; skipped := [] |}.

Definition upd {B} (f : nat -> B) (i : nat) (x : B) : nat -> B := fun j => if (j =? i)%nat then x else f j.

Definition goto (s : State) (t : nat) (p : Pc) : State :=
  {| running_ := running_ s; local_queue := local_queue s; queue_mutex := queue_mutex s; pcs := upd (pcs s) t p; tasks_completed := tasks_completed s;
     tasks_stolen := tasks_stolen s; calls := calls s; stopper := stopper s; queued := queued s; executed := executed s; skipped := skipped s |}.

Definition set_mutex (s : State) (i : nat) (h : option nat) : State :=
  {| running_ := running_ s; local_queue := local_queue s; queue_mutex := upd (queue_mutex s) i h; pcs := pcs s; tasks_completed := tasks_completed s;
     tasks_stolen := tasks_stolen s; calls := calls s; stopper := stopper s; queued := queued s; executed := executed s; skipped := skipped s |}.

Definition set_queue (s : State) (i : nat) (l : list Task) : State :=
  {| running_ := running_ s; local_queue := upd (local_queue s) i l; queue_mutex := queue_mutex s; pcs := pcs s; tasks_completed := tasks_completed s;
     tasks_stolen := tasks_stolen s; calls := calls s; stopper := stopper s; queued := queued s; executed := executed s; skipped := skipped s |}.

Definition set_calls (s : State) (l : list (Task * bool * nat)) (q : list Task) : State :=
  {| running_ := running_ s; local_queue := local_queue s; queue_mutex := queue_mutex s; pcs := pcs s; tasks_completed := tasks_completed s;
     tasks_stolen := tasks_stolen s; calls := l; stopper := stopper s; queued := q; executed := executed s; skipped := skipped s |}.

Definition set_stopper (s : State) (r : bool) (p : Stopper) : State :=
  {| running_ := r; local_queue := local_queue s; queue_mutex := queue_mutex s; pcs := pcs s; tasks_completed := tasks_completed s;
     tasks_stolen := tasks_stolen s; calls := calls s; stopper := p; queued := queued s; executed := executed s; skipped := skipped s |}.

Definition set_stolen (s : State) (i : nat) (n : Z) : State :=
  {| running_ := running_ s; local_queue := local_queue s; queue_mutex := queue_mutex s; pcs := pcs s; tasks_completed := tasks_completed s;
     tasks_stolen := upd (tasks_stolen s) i n; calls := calls s; stopper := stopper s; queued := queued s; executed := executed s; skipped := skipped s |}.

(** [task()] and the count of it. *)
Definition ran (s : State) (t : nat) (task : Task) : State :=
  {| running_ := running_ s; local_queue := local_queue s; queue_mutex := queue_mutex s; pcs := pcs s;
     tasks_completed := upd (tasks_completed s) t ((tasks_completed s t + 1) mod 2 ^ 64);
     tasks_stolen := tasks_stolen s; calls := calls s; stopper := stopper s; queued := queued s; executed := executed s ++ [(t, task)]; skipped := skipped s |}.

Definition passed (s : State) (task : Task) : State :=
  {| running_ := running_ s; local_queue := local_queue s; queue_mutex := queue_mutex s; pcs := pcs s; tasks_completed := tasks_completed s;
     tasks_stolen := tasks_stolen s; calls := calls s; stopper := stopper s; queued := queued s; executed := executed s; skipped := skipped s ++ [task] |}.

(** Thread [t] takes mutex [i], unless it is taken. *)
Definition lock (s : State) (t i : nat) (p : Pc) : option State :=
  match queue_mutex s i with None => Some (goto (set_mutex s i (Some t)) t p) | Some _ => None end.

(** The front task of a locked queue, or what follows. *)
Definition pop_or (s : State) (t : nat) (otherwise : Pc) : State :=
  match local_queue s t with
  | task :: rest => goto (set_mutex (set_queue s t rest) t None) t (Executing task)
  | [] => goto (set_mutex s t None) t otherwise
  end.

(** The loop of [try_steal] with both mutexes: from the back of one queue to the back of
    the other. *)
Fixpoint move_back (n : nat) (victim stealer : list Task) : list Task * list Task :=
  match n with
  | O => (victim, stealer)
  | S n' => match last victim with
            | Some x => move_back n' (removelast victim) (stealer ++ [x])
            | None => (victim, stealer)
            end
  end.

(** With both mutexes; both are free afterwards. *)
Definition steal (s : State) (t victim : nat) : State :=
  let to_steal := (length (local_queue s victim) / 2)%nat in
  let '(v, mine) := move_back to_steal (local_queue s victim) (local_queue s t) in
  let s1 := set_queue (set_queue s victim v) t mine in
  goto (set_mutex (set_stolen s1 t ((tasks_stolen s t + Z.of_nat to_steal) mod 2 ^ 64)) victim None) t Relocking.

Definition try_steal (s : State) (t choice : nat) : option State :=
  match pcs s t with
  | Stealing =>
      if negb (running_ s) || (workers <=? 1)%nat || (choice =? t)%nat then Some (goto s t Relocking)
      else match queue_mutex s choice with
           | None => lock s t choice (HoldsVictim choice)
           | Some _ => Some (goto s t Relocking)
           end
  | HoldsVictim v =>
      if (1 <? length (local_queue s v))%nat then Some (goto s t (WantsSelf v)) else Some (goto (set_mutex s v None) t Relocking)
  | WantsSelf v => match queue_mutex s t with None => Some (steal s t v) | Some _ => None end
  | _ => None
  end.

(** The next step of worker [t]; [choice] is the victim that the generator picks. *)
Definition worker_loop (s : State) (t choice : nat) : option State :=
  match pcs s t with
  | Top => Some (goto s t (if running_ s then AtLock else Stopped))
  | AtLock => lock s t t Locked
  | Locked => Some (pop_or s t (if running_ s then Stealing else Top))
  | Relocking => lock s t t Relocked
  | Relocked => Some (pop_or s t (if running_ s then Waiting else Top))
  | Waiting => lock s t t Woken
  | Woken => Some (pop_or s t Top)
  | Executing task => Some (goto (if callable task then ran s t task else passed s task) t Top)
  | Stopped => None
  | _ => try_steal s t choice
  end.

(** A call of [submit] reads [running_], ... *)
Definition submit_call (s : State) (task : Task) (high : bool) (target : nat) : State :=
  if negb (running_ s) then s else set_calls s (calls s ++ [(task, high, target)]) (queued s).

(** ... and then waits for the queue of its target, the worker by the hash of the table or
    by turns. *)
Definition submit (s : State) (k : nat) : option State :=
  match calls s !! k with
  | None => None
  | Some (task, high, target) =>
      match queue_mutex s target with
      | Some _ => None
      | None =>
          let q := if (high : bool) then task :: local_queue s target else local_queue s target ++ [task] in
          Some (set_calls (set_queue s target q) (delete k (calls s)) (queued s ++ [task]))
      end
  end.

Definition stop (s : State) : option State :=
  match stopper s with
  | NotCalled => Some (set_stopper s false (Notifying 0))
  | Notifying i =>
      if (i <? workers)%nat then match queue_mutex s i with None => Some (set_stopper s (running_ s) (Notifying (S i))) | Some _ => None end
      else Some (set_stopper s (running_ s) (Joining 0))
  | Joining i =>
      if (i <? workers)%nat then match pcs s i with Stopped => Some (set_stopper s (running_ s) (Joining (S i))) | _ => None end
      else Some (set_stopper s (running_ s) Returned)
  | Returned => None
  end.

Inductive Move := Work (t choice : nat) | Call (task : Task) (high : bool) (target : nat) | Submit (k : nat) | Stop.

(** A move that is not blocked and names workers there are. *)
Definition step (s : State) (m : Move) : option State :=
  match m with
  | Work t choice => if (t <? workers)%nat && (choice <? workers)%nat then worker_loop s t choice else None
  | Call task high target => if (target <? workers)%nat then Some (submit_call s task high target) else None
  | Submit k => submit s k
  | Stop => stop s
  end.

Fixpoint steps (s : State) (ms : list Move) : option State :=
  match ms with [] => Some s | m :: rest => match step s m with Some s' => steps s' rest | None => None end end.

(** ** No task is lost *)

Definition in_flight (p : Pc) : list Task := match p with Executing task => [task] | _ => [] end.

Definition everywhere {B} (f : nat -> list B) : list B := concat (map f (seq 0 workers)).

Definition flying (pc : nat -> Pc) : list Task := everywhere (fun t => in_flight (pc t)).

(** The tasks in a queue and those a worker holds. *)
Definition pending (s : State) : list Task := everywhere (local_queue s) ++ flying (pcs s).

(** The mutexes that worker [t] holds at a point of its loop. *)
Definition holds (t : nat) (p : Pc) (i : nat) : bool :=
  match p with
  | Locked | Relocked | Woken => (i =? t)%nat
  | HoldsVictim v | WantsSelf v => (i =? v)%nat
  | _ => false
  end.

Definition exclusive (mutex : nat -> option nat) (pc : nat -> Pc) : Prop := forall t i, holds t (pc t) i = true <-> mutex i = Some t.

Definition victims_ok (pc : nat -> Pc) : Prop := forall t v, pc t = HoldsVictim v \/ pc t = WantsSelf v -> v <> t /\ (v < workers)%nat.

Definition joined (p : Stopper) (running : bool) (pc : nat -> Pc) : Prop :=
  match p with
  | NotCalled => True
  | Notifying _ => running = false
  | Joining i => running = false /\ forall t, (t < i)%nat -> pc t = Stopped
  | Returned => running = false /\ forall t, (t < workers)%nat -> pc t = Stopped
  end.

Definition count (t : nat) (l : list (nat * Task)) : Z := Z.of_nat (length (List.filter (fun e => (e.1 =? t)%nat) l)).

Record inv (s : State) : Prop := {
  i_exclusive : exclusive (queue_mutex s) (pcs s);
  i_victims : victims_ok (pcs s);
  i_calls : Forall (fun c => (c.2 < workers)%nat) (calls s);
  i_conserved : queued s ≡ₚ pending s ++ map snd (executed s) ++ skipped s;
  i_callable : Forall (fun e => callable e.2 = true) (executed s) /\ Forall (fun x => callable x = false) (skipped s);
  i_counted : forall t, tasks_completed s t = count t (executed s) mod 2 ^ 64;
  i_joined : joined (stopper s) (running_ s) (pcs s)
}.

Lemma upd_same {B} (f : nat -> B) i x : upd f i x i = x.
Proof. unfold upd. by rewrite Nat.eqb_refl. Qed.

Lemma upd_other {B} (f : nat -> B) i x j : j <> i -> upd f i x j = f j.
Proof. unfold upd. by destruct (Nat.eqb_spec j i). Qed.

(** One entry taken out of the whole. *)
Lemma everywhere_split {B} (f : nat -> list B) i : (i < workers)%nat -> exists rest, forall x, everywhere (upd f i x) ≡ₚ x ++ rest.
Proof.
  intros Hi. unfold everywhere. exists (concat (map f (seq 0 i)) ++ concat (map f (seq (S i) (workers - S i)))). intros x.
  replace workers with (i + S (workers - S i))%nat at 1 by lia. rewrite seq_app, map_app, concat_app. cbn [seq map concat]. rewrite Nat.add_0_l, upd_same.
  rewrite (map_ext_in (upd f i x) f (seq 0 i)), (map_ext_in (upd f i x) f (seq (S i) _)); [|intros j Hj%in_seq; apply upd_other; lia..].
  rewrite !app_assoc. apply Permutation_app_tail. apply Permutation_app_comm.
Qed.

Lemma everywhere_at {B} (f : nat -> list B) i x rest : (i < workers)%nat -> f i ≡ₚ x ++ rest -> everywhere f ≡ₚ x ++ everywhere (upd f i rest).
Proof.
  intros Hi Hf. destruct (everywhere_split f i Hi) as [others Ho]. rewrite (Ho rest).
  assert (Hself : everywhere f ≡ₚ everywhere (upd f i (f i))).
  { unfold everywhere. erewrite map_ext; [done|]. intros j. cbn. destruct (decide (j = i)) as [->|]; [by rewrite upd_same|by rewrite upd_other]. }
  rewrite Hself, (Ho (f i)), Hf. by rewrite app_assoc.
Qed.

(** Putting [more] in the place of [less] at one entry. *)
Lemma everywhere_upd {B} (f : nat -> list B) i less more : (i < workers)%nat -> f i ++ more ≡ₚ less -> everywhere f ++ more ≡ₚ everywhere (upd f i less).
Proof.
  intros Hi Hp. destruct (everywhere_split f i Hi) as [others Ho].
  assert (Hself : everywhere f ≡ₚ everywhere (upd f i (f i))).
  { unfold everywhere. erewrite map_ext; [done|]. intros j. cbn. destruct (decide (j = i)) as [->|]; [by rewrite upd_same|by rewrite upd_other]. }
  rewrite Hself, (Ho (f i)), (Ho less), <- Hp. rewrite <- !app_assoc. apply Permutation_app_head, Permutation_app_comm.
Qed.

Lemma move_back_perm n victim stealer v mine : move_back n victim stealer = (v, mine) -> v ++ mine ≡ₚ victim ++ stealer.
Proof.
  revert victim stealer. induction n as [|n IH]; cbn; intros victim stealer H; [by simplify_eq|].
  destruct (last victim) as [x|] eqn:El; [|by simplify_eq]. apply IH in H. rewrite H.
  apply last_Some in El as [l' ->]. rewrite removelast_last. rewrite <- !app_assoc. apply Permutation_app_head. apply Permutation_app_comm.
Qed.

Lemma everywhere_ext {B} (f g : nat -> list B) : (forall j, f j = g j) -> everywhere f = everywhere g.
Proof. intros H. unfold everywhere. by erewrite map_ext. Qed.

Lemma flying_upd pc t p : flying (upd pc t p) = everywhere (upd (fun j => in_flight (pc j)) t (in_flight p)).
Proof. apply everywhere_ext. intros j. unfold upd. by destruct (j =? t)%nat. Qed.

Lemma flying_same pc t p : in_flight p = in_flight (pc t) -> flying (upd pc t p) = flying pc.
Proof. intros H. apply everywhere_ext. intros j. unfold upd. by destruct (Nat.eqb_spec j t) as [->|]. Qed.

(** A worker picks up a task, or puts it down. *)
Lemma flying_take pc t task : (t < workers)%nat -> in_flight (pc t) = [] -> flying (upd pc t (Executing task)) ≡ₚ flying pc ++ [task].
Proof. intros Ht Hp. rewrite flying_upd. symmetry. apply everywhere_upd; [done|]. cbn. by rewrite Hp. Qed.

Lemma flying_drop pc t task p : (t < workers)%nat -> pc t = Executing task -> in_flight p = [] -> flying pc ≡ₚ flying (upd pc t p) ++ [task].
Proof.
  intros Ht Hp Hn. rewrite flying_upd, Hn. rewrite everywhere_upd with (less := [task]); [|done|by rewrite upd_same].
  unfold flying at 1. rewrite (everywhere_ext _ (upd (upd (fun j => in_flight (pc j)) t []) t [task])); [done|].
  intros j. unfold upd. destruct (Nat.eqb_spec j t) as [->|]; [|done]. by rewrite Hp.
Qed.

(** ** Mutual exclusion *)

Lemma exclusive_goto m pc t p : (forall i, holds t p i = holds t (pc t) i) -> exclusive m pc -> exclusive m (upd pc t p).
Proof. intros Hp He u i. rewrite <- (He u i). destruct (decide (u = t)) as [->|]; [by rewrite upd_same, Hp|by rewrite upd_other]. Qed.

Lemma exclusive_lock m pc t p k : m k = None -> (forall i, holds t (pc t) i = false) -> (forall i, holds t p i = (i =? k)%nat) ->
  exclusive m pc -> exclusive (upd m k (Some t)) (upd pc t p).
Proof.
  intros Hm Hf Hp He u i. pose proof (He u i) as Hu. unfold upd at 2.
  destruct (Nat.eqb_spec i k) as [Hi|Hi]; [rewrite Hi, Hm in Hu|]; (destruct (decide (u = t)) as [->|Hut]; [rewrite upd_same, Hp|rewrite upd_other by done]).
  - rewrite Hi, Nat.eqb_refl. done.
  - rewrite Hi. split; [intros H; apply Hu in H; done|congruence].
  - rewrite Hf in Hu. apply Nat.eqb_neq in Hi. rewrite Hi. exact Hu.
  - exact Hu.
Qed.

Lemma exclusive_unlock m pc t p k : (forall i, holds t (pc t) i = (i =? k)%nat) -> (forall i, holds t p i = false) ->
  exclusive m pc -> exclusive (upd m k None) (upd pc t p).
Proof.
  intros Hf Hp He u i. pose proof (He u i) as Hu. pose proof (He t k) as Hk. rewrite Hf, Nat.eqb_refl in Hk. unfold upd at 2.
  destruct (Nat.eqb_spec i k) as [Hi|Hi]; (destruct (decide (u = t)) as [->|Hut]; [rewrite upd_same, Hp|rewrite upd_other by done]).
  - done.
  - split; [|done]. intros H. apply Hu in H. rewrite Hi in H. destruct Hk as [Hk _]. rewrite Hk in H by done. congruence.
  - rewrite Hf in Hu. apply Nat.eqb_neq in Hi. rewrite Hi in Hu. exact Hu.
  - exact Hu.
Qed.

Lemma victims_goto pc t p : (forall v, p = HoldsVictim v \/ p = WantsSelf v -> v <> t /\ (v < workers)%nat) -> victims_ok pc -> victims_ok (upd pc t p).
Proof. intros Hp Hv u v. destruct (decide (u = t)) as [->|]; [rewrite upd_same; apply Hp|rewrite upd_other by done; apply Hv]. Qed.

(** A worker that goes on has not been joined. *)
Lemma joined_goto q r pc t p : pc t <> Stopped -> joined q r pc -> joined q r (upd pc t p).
Proof.
  intros Hn Hj. destruct q; cbn in *; [done..| |]; (split; [apply Hj|]); intros u Hu; pose proof (proj2 Hj u Hu) as Hs;
    (rewrite upd_other; [done|intros ->; done]).
Qed.

Lemma new_ok : inv new.
Proof.
  split; cbn; try done; [by intros t v [H|H]|].
  unfold pending, flying, everywhere. cbn. rewrite app_nil_r.
  assert (H : forall l, concat (map (fun _ : nat => ([] : list Task)) l) = []) by (by induction l). rewrite !H. done.
Qed.

(** ** The steps keep the invariant *)

(** A step of a worker that touches no task: [m] and [p] are the new mutexes and point. *)
Definition silent (s : State) (m : nat -> option nat) (t : nat) (p : Pc) (s' : State) : Prop :=
  s' = goto (Build_State (running_ s) (local_queue s) m (pcs s) (tasks_completed s) (tasks_stolen s) (calls s) (stopper s) (queued s) (executed s) (skipped s)) t p.

Lemma silent_ok s m t p s' : silent s m t p s' -> exclusive m (upd (pcs s) t p) -> pcs s t <> Stopped -> in_flight (pcs s t) = [] -> in_flight p = [] ->
  (forall v, p = HoldsVictim v \/ p = WantsSelf v -> v <> t /\ (v < workers)%nat) -> inv s -> inv s'.
Proof.
  intros -> He Hn Hf Hp Hv [? ? ? Hc ? ? ?]. split; cbn; try done.
  - by apply victims_goto.
  - unfold pending in *. cbn. rewrite flying_same by congruence. exact Hc.
  - by apply joined_goto.
Qed.

Lemma lock_ok s t i p s' : lock s t i p = Some s' -> in_flight (pcs s t) = [] -> in_flight p = [] -> pcs s t <> Stopped ->
  (forall k, holds t (pcs s t) k = false) -> (forall k, holds t p k = (k =? i)%nat) ->
  (forall v, p = HoldsVictim v \/ p = WantsSelf v -> v <> t /\ (v < workers)%nat) -> inv s -> inv s'.
Proof.
  unfold lock. intros H. destruct (queue_mutex s i) eqn:Em; [done|]. simplify_eq. intros. eapply silent_ok; [reflexivity|..]; try done.
  apply exclusive_lock; [done..|by apply i_exclusive].
Qed.

Lemma pop_or_ok s t p : (t < workers)%nat -> in_flight (pcs s t) = [] -> in_flight p = [] -> pcs s t <> Stopped ->
  (forall k, holds t (pcs s t) k = (k =? t)%nat) -> (forall k, holds t p k = false) -> (forall v, ~ (p = HoldsVictim v \/ p = WantsSelf v)) ->
  inv s -> inv (pop_or s t p).
Proof.
  intros Ht Hf Hp Hn Hh Hh' Hv Hi. unfold pop_or. destruct (local_queue s t) as [|task rest] eqn:El.
  - eapply silent_ok; [reflexivity|..]; try done; [|intros v Hq; by destruct (Hv v)]. apply exclusive_unlock; [done..|by apply i_exclusive].
  - destruct Hi as [He Hvi Hca Hc ? ? ?]. split; cbn; try done.
    + by apply exclusive_unlock.
    + apply victims_goto; [|done]. by intros v [|].
    + unfold pending in *. cbn. rewrite Hc. rewrite flying_take by done.
      rewrite (everywhere_at (local_queue s) t [task] rest Ht) by (by rewrite El). solve_Permutation.
    + by apply joined_goto.
Qed.

Lemma steal_ok s t v : (t < workers)%nat -> pcs s t = WantsSelf v -> inv s -> inv (steal s t v).
Proof.
  intros Ht Hp Hi. unfold steal. destruct (move_back _ _ _) as [q mine] eqn:Em. apply move_back_perm in Em.
  destruct Hi as [He Hvi Hca Hc ? ? ?]. destruct (Hvi t v (or_intror Hp)) as [Hvt Hv]. split; cbn; try done.
  - apply exclusive_unlock; [|done|done]. intros i. by rewrite Hp.
  - apply victims_goto; [|done]. by intros u [|].
  - unfold pending in *. cbn. rewrite Hc. rewrite flying_same by (by rewrite Hp). apply Permutation_app_tail, Permutation_app_tail.
    destruct (everywhere_split (upd (local_queue s) v q) t Ht) as [rest Hr]. rewrite (Hr mine).
    assert (Hq : everywhere (upd (local_queue s) v q) ≡ₚ local_queue s t ++ rest).
    { rewrite <- (Hr (local_queue s t)). erewrite everywhere_ext; [done|]. intros j. unfold upd.
      destruct (Nat.eqb_spec j t) as [->|]; [|done]. by destruct (Nat.eqb_spec t v) as [->|]. }
    destruct (everywhere_split (local_queue s) v Hv) as [rest' Hr']. rewrite (Hr' q) in Hq.
    assert (Hs : everywhere (local_queue s) ≡ₚ local_queue s v ++ rest').
    { rewrite <- (Hr' (local_queue s v)). erewrite everywhere_ext; [done|]. intros j. unfold upd. by destruct (Nat.eqb_spec j v) as [->|]. }
    rewrite Hs. apply (Permutation_app_inv_l q). rewrite (Permutation_app_comm q), <- app_assoc.
    rewrite (Permutation_app_comm rest' q), Hq, !app_assoc, <- Em. solve_Permutation.
  - apply joined_goto; [by rewrite Hp|done].
Qed.

Lemma executing_ok s t task : (t < workers)%nat -> pcs s t = Executing task -> inv s ->
  inv (goto (if callable task then ran s t task else passed s task) t Top).
Proof.
  intros Ht Hp [He Hvi Hca Hc [Hx Hs] Hn Hj]. pose proof (flying_drop (pcs s) t task Top Ht Hp eq_refl) as Hd. destruct (callable task) eqn:Ec; split; cbn; try done.
  1, 7: apply exclusive_goto; [|done]; intros i; by rewrite Hp.
  1, 6: apply victims_goto; [|done]; by intros v [|].
  - unfold pending in *. cbn. rewrite Hc, Hd, map_app. cbn. solve_Permutation.
  - split; [|done]. apply Forall_app. by split; [|repeat constructor].
  - intros u. unfold count in *. rewrite List.filter_app, length_app. cbn. destruct (Nat.eqb_spec t u) as [->|Hu].
    + rewrite upd_same, Hn, Zplus_mod_idemp_l. f_equal. cbn. lia.
    + rewrite upd_other by done. rewrite Hn. f_equal. cbn. lia.
  - apply joined_goto; [by rewrite Hp|done].
  - unfold pending in *. cbn. rewrite Hc, Hd. solve_Permutation.
  - split; [done|]. apply Forall_app. by split; [|repeat constructor].
  - apply joined_goto; [by rewrite Hp|done].
Qed.

Ltac at_pc Ep := first [assumption | rewrite Ep; done | intros ?; rewrite ?Ep; done | intros ? [|]; done | done].

(** Going on with the same mutexes. *)
Lemma goto_ok s t p : in_flight (pcs s t) = [] -> in_flight p = [] -> pcs s t <> Stopped -> (forall k, holds t p k = holds t (pcs s t) k) ->
  (forall v, p = HoldsVictim v \/ p = WantsSelf v -> v <> t /\ (v < workers)%nat) -> inv s -> inv (goto s t p).
Proof. intros. eapply (silent_ok s (queue_mutex s)); [by destruct s|..]; try done. apply exclusive_goto; [done|by apply i_exclusive]. Qed.

Lemma try_steal_ok s t choice s' : (t < workers)%nat -> (choice < workers)%nat -> try_steal s t choice = Some s' -> inv s -> inv s'.
Proof.
  intros Ht Hc H Hi. unfold try_steal in H. destruct (pcs s t) as [| | | |v|v| | | | |task|] eqn:Ep; try done.
  - destruct (_ || _) eqn:Eb; [injection H as <-; apply goto_ok; at_pc Ep|]. apply orb_false_elim in Eb as [_ Eb%Nat.eqb_neq].
    destruct (queue_mutex s choice) eqn:Em; [injection H as <-; apply goto_ok; at_pc Ep|].
    revert H Hi. intros H. apply (lock_ok _ _ _ _ _ H); rewrite ?Ep; try done. intros v [[= <-]|]; done.
  - pose proof (i_victims s Hi t v (or_introl Ep)) as Hv. destruct (1 <? _)%nat; injection H as <-.
    + apply goto_ok; rewrite ?Ep; try done. by intros u [|[= <-]].
    + eapply silent_ok; [reflexivity|..]; rewrite ?Ep; try done; [|by intros u [|]]. apply exclusive_unlock; [intros k; by rewrite Ep|done|by apply i_exclusive].
  - destruct (queue_mutex s t) eqn:Em; [done|]. injection H as <-. by apply steal_ok.
Qed.

Lemma worker_loop_ok s t choice s' : (t < workers)%nat -> (choice < workers)%nat -> worker_loop s t choice = Some s' -> inv s -> inv s'.
Proof.
  intros Ht Hc H Hi. unfold worker_loop in H. destruct (pcs s t) as [| | | |v|v| | | | |task|] eqn:Ep; try done; try exact (try_steal_ok s t choice s' Ht Hc H Hi).
  - injection H as <-. apply goto_ok; destruct (running_ s); at_pc Ep.
  - apply (lock_ok _ _ _ _ _ H); at_pc Ep.
  - injection H as <-. apply pop_or_ok; destruct (running_ s); at_pc Ep.
  - apply (lock_ok _ _ _ _ _ H); at_pc Ep.
  - injection H as <-. apply pop_or_ok; destruct (running_ s); at_pc Ep.
  - apply (lock_ok _ _ _ _ _ H); at_pc Ep.
  - injection H as <-. apply pop_or_ok; at_pc Ep.
  - injection H as <-. by apply executing_ok.
Qed.

Lemma submit_ok s k s' : submit s k = Some s' -> inv s -> inv s'.
Proof.
  unfold submit. intros H Hi. destruct (calls s !! k) as [[[task high] target]|] eqn:Ec; [|done]. destruct (queue_mutex s target) eqn:Em; [done|]. injection H as <-.
  destruct Hi as [? ? Hca Hc ? ? ?]. assert (Ht : (target < workers)%nat) by exact (proj1 (Forall_lookup _ _) Hca k _ Ec). split; cbn; try done.
  - by apply Forall_delete.
  - unfold pending in *. cbn. rewrite Hc. rewrite <- (everywhere_upd (local_queue s) target _ [task] Ht); [solve_Permutation|].
    destruct high; [apply Permutation_app_comm|done].
Qed.

Lemma stop_ok s s' : stop s = Some s' -> inv s -> inv s'.
Proof.
  unfold stop. intros H [? ? ? ? ? ? Hj].
  destruct (stopper s) as [|i|i|] eqn:Es; cbn in Hj; [|destruct (Nat.ltb_spec i workers) as [El|El]..|done].
  - injection H as <-. by split.
  - destruct (queue_mutex s i); [done|]. injection H as <-. by split.
  - injection H as <-. split; try done. cbn. split; [done|]. intros u Hu. lia.
  - destruct (pcs s i) eqn:Ep; try done. injection H as <-. split; try done. cbn. destruct Hj as [Hr Hj]. split; [done|].
    intros u Hu. destruct (decide (u = i)) as [->|]; [done|]. apply Hj. lia.
  - injection H as <-. split; try done. cbn. destruct Hj as [Hr Hj]. split; [done|]. intros u Hu. apply Hj. lia.
Qed.

Lemma step_ok s m s' : step s m = Some s' -> inv s -> inv s'.
Proof.
  destruct m as [t choice|task high target|k|]; cbn [step]; intros H Hi.
  - destruct (_ && _) eqn:Eb; [|done]. apply andb_prop in Eb as [Ht%Nat.ltb_lt Hc%Nat.ltb_lt]. exact (worker_loop_ok s t choice s' Ht Hc H Hi).
  - destruct (target <? workers)%nat eqn:Et; [|done]. injection H as <-. apply Nat.ltb_lt in Et. unfold submit_call. destruct (negb _); [done|].
    destruct Hi as [? ? ? ? ? ? ?]. split; try done. cbn. apply Forall_app. by split; [|repeat constructor].
  - by eapply submit_ok.
  - by eapply stop_ok.
Qed.

Lemma steps_ok ms s s' : steps s ms = Some s' -> inv s -> inv s'.
Proof.
  revert s. induction ms as [|m ms IH]; cbn; intros s H Hi; [by simplify_eq|]. destruct (step s m) as [s1|] eqn:Es; [|done].
  eapply IH; [done|]. by eapply step_ok.
Qed.

(** C24: In whatever order the workers, the calls of submit and the call of stop take their
    steps, no task is lost and none runs twice: the tasks that were queued are, up to
    order, those waiting in the queues, those in the hands of a worker, those that ran
    and the empty ones that were passed over, and only the latter do not hold a target.
    A mutex is held by at most one worker, a worker's count of completed tasks is the
    number it ran modulo 2^64, and once stop has returned every worker has ended its
    loop. *)
Theorem tasks_run_once ms s : steps new ms = Some s ->
  queued s ≡ₚ everywhere (local_queue s) ++ flying (pcs s) ++ map snd (executed s) ++ skipped s /\
  Forall (fun e => callable e.2 = true) (executed s) /\ Forall (fun x => callable x = false) (skipped s) /\
  (forall i t u, holds t (pcs s t) i = true -> holds u (pcs s u) i = true -> t = u) /\
  (forall t, tasks_completed s t = count t (executed s) mod 2 ^ 64) /\
  (stopper s = Returned -> forall t, (t < workers)%nat -> pcs s t = Stopped).
Proof.
  intros H. destruct (steps_ok _ _ _ H new_ok) as [He _ _ Hc [Hx Hs] Hn Hj]. repeat split; try done.
  - rewrite Hc. unfold pending. by rewrite <- app_assoc.
  - intros i t u Ht%He Hu%He. congruence.
  - intros Hr. rewrite Hr in Hj. apply Hj.
Qed.
End Scheduler.

(** Two workers; a stolen task, one passed over and [stop] to its end. *)
Definition demo_moves : list (Move (Task := nat)) :=
  [Work 1 0; Work 1 0; Work 1 0; Call 10 false 0; Call 11 false 0; Call 0 true 0; Submit 1; Submit 0; Submit 0;
   Work 1 0; Work 1 0; Work 1 0; Work 1 0; Work 1 0; Work 1 0; Work 0 0; Work 0 0; Work 0 0; Work 0 0; Work 0 0; Work 0 0; Work 0 0; Work 0 0;
   Stop; Stop; Stop; Stop; Work 0 0; Work 1 1; Stop; Stop; Stop]%nat.

Definition demo_end : State (Task := nat) := default new (steps (fun x => (0 <? x)%nat) 2 new demo_moves).

Lemma demo_runs : steps (fun x => (0 <? x)%nat) 2 new demo_moves = Some demo_end.
Proof.
  unfold demo_end. assert (H : is_Some (steps (fun x => (0 <? x)%nat) 2 new demo_moves)) by (vm_compute; eauto). destruct H as [s Hs]. by rewrite Hs.
Qed.

Lemma tasks_run_once_witness :
  executed demo_end = [(1, 10); (0, 11)]%nat /\ skipped demo_end = [0]%nat /\ stopper demo_end = Returned /\ tasks_stolen demo_end 1 = 1 /\
  queued demo_end ≡ₚ everywhere 2 (local_queue demo_end) ++ flying 2 (pcs demo_end) ++ map snd (executed demo_end) ++ skipped demo_end.
Proof.
  do 4 (split; [vm_compute; reflexivity|]). apply (tasks_run_once (fun x => (0 <? x)%nat) 2 demo_moves demo_end). exact demo_runs.
Defined.

(** Two workers that steal from each other: each has the other's mutex, by [try_lock], and
    waits for its own. *)
Definition deadlocked {Task} (s : State (Task := Task)) : Prop :=
  pcs s 0 = WantsSelf 1 /\ pcs s 1 = WantsSelf 0 /\ queue_mutex s 0 = Some 1%nat /\ queue_mutex s 1 = Some 0%nat /\ (forall t, (2 <= t)%nat -> pcs s t = Top) /\
  match stopper s with NotCalled => True | Notifying i => i = 0%nat | _ => False end.

Lemma deadlocked_forever {Task} (callable : Task -> bool) s m s' : deadlocked s -> step callable 2 s m = Some s' -> deadlocked s' /\ executed s' = executed s.
Proof.
  intros (H0 & H1 & M0 & M1 & Hr & Hs). destruct m as [t choice|task high target|k|]; unfold step.
  - destruct (Nat.ltb_spec t 2); [|done]. destruct (choice <? 2)%nat; [|done]. cbn. unfold worker_loop, try_steal.
    destruct t as [|[|t]]; [rewrite H0, M0; done|rewrite H1, M1; done|lia].
  - destruct (target <? 2)%nat; [|done]. intros [= <-]. unfold submit_call. destruct (negb _); done.
  - unfold submit. destruct (calls s !! k) as [[[task high] target]|]; [|done]. destruct (queue_mutex s target); [done|]. intros [= <-]. done.
  - unfold stop. destruct (stopper s) as [|i|i|]; [intros [= <-]; done| |done|done]. rewrite Hs, M0. done.
Qed.

Lemma deadlocked_steps {Task} (callable : Task -> bool) ms s s' : deadlocked s -> steps callable 2 s ms = Some s' -> deadlocked s' /\ executed s' = executed s.
Proof.
  revert s. induction ms as [|m ms IH]; cbn [steps]; intros s Hd H; [injection H as <-; done|].
  destruct (step callable 2 s m) as [s1|] eqn:Es; [|done]. destruct (deadlocked_forever _ _ _ _ Hd Es) as [Hd1 He1].
  rewrite <- He1. by apply IH.
Qed.

Definition stuck_moves : list (Move (Task := nat)) :=
  [Work 0 0; Work 1 0; Work 0 0; Work 1 0; Work 0 0; Work 1 0; Call 1 false 0; Call 2 false 0; Call 3 false 1; Call 4 false 1;
   Submit 0; Submit 0; Submit 0; Submit 0; Work 0 1; Work 1 0; Work 0 1; Work 1 0]%nat.

Definition stuck : State (Task := nat) := default new (steps (fun _ => true) 2 new stuck_moves).

Lemma stuck_runs : steps (fun _ => true) 2 new stuck_moves = Some stuck.
Proof.
  unfold stuck. assert (H : is_Some (steps (fun _ => true) 2 new stuck_moves)) by (vm_compute; eauto). destruct H as [s Hs]. by rewrite Hs.
Qed.

Lemma stuck_deadlocked : deadlocked stuck /\ executed stuck = [].
Proof.
  split; [|vm_compute; reflexivity]. unfold deadlocked. do 4 (split; [vm_compute; reflexivity|]). split; [|vm_compute; exact I].
  intros [|[|t]] Ht; [lia|lia|]. vm_compute. reflexivity.
Qed.

(** Four tasks were queued, none has run and none ever will; [stop] does not return. *)
Lemma workers_deadlock ms s : steps (fun _ => true) 2 stuck ms = Some s -> deadlocked s /\ executed s = [] /\ stopper s <> Returned.
Proof.
  intros H. destruct stuck_deadlocked as [Hd He]. destruct (deadlocked_steps _ _ _ _ Hd H) as [Hd' He']. split; [exact Hd'|]. split; [congruence|].
  intros Hr. destruct Hd' as (_ & _ & _ & _ & _ & Hs). by rewrite Hr in Hs.
Qed.
End Scheduler.
