(* ===== verification/Arena.v ===== *)
(** * The arena allocator

    [include/cynamodb/core/memory.hpp].  A block is its size; a pointer is the number of
    its block and an offset.  Blocks start at multiples of the largest alignment, as
    [new] guarantees; [new] itself is taken to succeed. *)

From Stdlib Require Import ZArith Lia.
From stdpp Require Import prelude.
From S2P Require Import Prelude.

Module Arena.

Definition kMaxBlockSize : Z := 64 * 1024 * 1024.
Definition kMaxAllocationBytes : Z := 64 * 1024 * 1024.
Definition kMaxBlocks : Z := 1024 * 1024.

(** [alignof(std::max_align_t)] *)
Definition max_align : Z := 16.

Record Arena := {
  block_size_ : Z;
  blocks_ : list Z;
  current_block_idx_ : Z;
  current_offset_ : Z;
  bytes_allocated_ : Z
}.

Inductive AllocError := InvalidArgument | BadAlloc.

Definition Pointer : Type := Z * Z.

Definition saturating_add (a b : Z) : Z := if size_max - a <? b then size_max else a + b.

Definition align_up (value alignment : Z) : option Z :=
  let mask := alignment - 1 in
  if size_max - mask <? value then None else Some (Z.land (value + mask) (size_max - mask)).

Definition set_current (a : Arena) (idx offset : Z) : Arena :=
  {| block_size_ := block_size_ a; blocks_ := blocks_ a; current_block_idx_ := idx; current_offset_ := offset; bytes_allocated_ := bytes_allocated_ a |}.

Definition allocate_block (a : Arena) : option Arena :=
  if current_block_idx_ a + 1 <? len (blocks_ a) then Some (set_current a (current_block_idx_ a + 1) 0)
  else if kMaxBlocks <=? len (blocks_ a) then None
  else Some {| block_size_ := block_size_ a; blocks_ := blocks_ a ++ [block_size_ a]; current_block_idx_ := len (blocks_ a); current_offset_ := 0;
               bytes_allocated_ := bytes_allocated_ a |}.

Definition allocate_large_block_locked (a : Arena) (size : Z) : Arena * expected Pointer AllocError :=
  if kMaxBlocks <=? len (blocks_ a) then (a, Err BadAlloc)
  else
    ({| block_size_ := block_size_ a; blocks_ := blocks_ a ++ [Z.max size max_align]; current_block_idx_ := len (blocks_ a); current_offset_ := size;
        bytes_allocated_ := saturating_add (bytes_allocated_ a) size |}, Ok (len (blocks_ a), 0)).

Definition fits (a : Arena) (aligned_offset size : Z) : bool := negb ((block_size_ a <? aligned_offset) || (block_size_ a - aligned_offset <? size)).

(** The end of [allocate], from the second check on. *)
Definition take (a : Arena) (size alignment : Z) : Arena * expected Pointer AllocError :=
  match align_up (current_offset_ a) alignment with
  | None => (a, Err BadAlloc)
  | Some aligned_offset =>
      if negb (fits a aligned_offset size) then (a, Err BadAlloc)
      else
        ({| block_size_ := block_size_ a; blocks_ := blocks_ a; current_block_idx_ := current_block_idx_ a; current_offset_ := aligned_offset + size;
            bytes_allocated_ := saturating_add (bytes_allocated_ a) size |}, Ok (current_block_idx_ a, aligned_offset))
  end.

Definition allocate (a : Arena) (size alignment : Z) : Arena * expected Pointer AllocError :=
  let size := if size =? 0 then 1 else size in
  if (alignment =? 0) || negb (Z.land alignment (alignment - 1) =? 0) then (a, Err InvalidArgument)
  else if max_align <? alignment then (a, Err InvalidArgument)
  else if kMaxAllocationBytes <? size then (a, Err BadAlloc)
  else if block_size_ a <? size then allocate_large_block_locked a size
  else
    match align_up (current_offset_ a) alignment with
    | None => (a, Err BadAlloc)
    | Some aligned_offset =>
        if fits a aligned_offset size then take a size alignment
        else match allocate_block a with Some a => take a size alignment | None => (a, Err BadAlloc) end
    end.

Definition create (block_size : Z) : option Arena :=
  allocate_block {| block_size_ := Z.max max_align (Z.min block_size kMaxBlockSize); blocks_ := []; current_block_idx_ := 0; current_offset_ := 0; bytes_allocated_ := 0 |}.

(** [blocks_] is never empty after the constructor. *)
Definition reset (a : Arena) : option Arena :=
  match blocks_ a with
  | [] => allocate_block a
  | _ => Some {| block_size_ := block_size_ a; blocks_ := blocks_ a; current_block_idx_ := 0; current_offset_ := 0; bytes_allocated_ := 0 |}
  end.

Definition bytes_allocated (a : Arena) : Z := bytes_allocated_ a.
Definition block_count (a : Arena) : Z := len (blocks_ a).

(** ** Histories *)

Inductive Request := Allocate (size alignment : Z) | Reset.

(** A piece of memory that was handed out: where, how much, and with which alignment. *)
Record Piece := { at_block : Z; at_offset : Z; piece_size : Z; piece_align : Z }.

(** The arena and the pieces handed out since the last reset. *)
Definition serve (st : Arena * list Piece) (r : Request) : Arena * list Piece :=
  let '(a, live) := st in
  match r with
  | Allocate size alignment =>
      match allocate a size alignment with
      | (a, Ok (b, o)) => (a, {| at_block := b; at_offset := o; piece_size := if size =? 0 then 1 else size; piece_align := alignment |} :: live)
      | (a, Err _) => (a, live)
      end
  | Reset => match reset a with Some a => (a, []) | None => (a, live) end
  end.

Definition valid (r : Request) : Prop := match r with Allocate size alignment => 0 <= size < 2 ^ 64 /\ 0 <= alignment < 2 ^ 64 | Reset => True end.

Definition overlap (p p' : Piece) : Prop :=
  at_block p = at_block p' /\ at_offset p < at_offset p' + piece_size p' /\ at_offset p' < at_offset p + piece_size p.

(** Inside its block and aligned. *)
Definition placed (a : Arena) (p : Piece) : Prop :=
  0 <= at_offset p /\ 0 < piece_size p /\ (piece_align p | at_offset p) /\ exists n, blocks_ a !! Z.to_nat (at_block p) = Some n /\ 0 <= at_block p /\ at_offset p + piece_size p <= n.

Record arena_ok (a : Arena) (live : list Piece) : Prop := {
  a_size : max_align <= block_size_ a <= kMaxBlockSize;
  a_blocks : Forall (fun n => block_size_ a <= n) (blocks_ a);
  a_current : 0 <= current_block_idx_ a < len (blocks_ a);
  a_offset : 0 <= current_offset_ a <= kMaxAllocationBytes;
  a_placed : Forall (placed a) live;
  a_used : Forall (fun p => at_block p < current_block_idx_ a \/ at_block p = current_block_idx_ a /\ at_offset p + piece_size p <= current_offset_ a) live;
  a_disjoint : ForallOrdPairs (fun p p' => ~ overlap p p') live
}.

(** ** Alignment *)

Lemma alignments alignment : 0 <= alignment -> (alignment =? 0) || negb (Z.land alignment (alignment - 1) =? 0) = false -> alignment <= max_align ->
  exists j, 0 <= j <= 4 /\ alignment = 2 ^ j.
Proof.
  unfold max_align. intros H0 H Hm. assert (Hc : In alignment (map Z.of_nat (seq 0 17))).
  { apply in_map_iff. exists (Z.to_nat alignment). split; [lia|]. apply in_seq. lia. }
  cbn in Hc. repeat destruct Hc as [<-|Hc]; try done; try discriminate H; [by exists 0|by exists 1|by exists 2|by exists 3|by exists 4].
Qed.

Lemma land_ldiff x a m : Z.land x (Z.ldiff a m) = Z.ldiff (Z.land x a) m.
Proof. apply Z.bits_inj'. intros n _. by rewrite Z.ldiff_spec, !Z.land_spec, Z.ldiff_spec, andb_assoc. Qed.

Lemma align_up_spec value j : 0 <= value <= kMaxAllocationBytes -> 0 <= j <= 4 ->
  exists n, align_up value (2 ^ j) = Some n /\ value <= n < value + 2 ^ j /\ (2 ^ j | n).
Proof.
  intros Hv Hj. assert (Hp : 1 <= 2 ^ j <= 16) by (split; [change 1 with (2 ^ 0)|change 16 with (2 ^ 4)]; apply Z.pow_le_mono_r; lia).
  unfold align_up, kMaxAllocationBytes, size_max in *. destruct (Z.ltb_spec (2 ^ 64 - 1 - (2 ^ j - 1)) value); [lia|].
  assert (Hm : 2 ^ 64 - 1 - (2 ^ j - 1) = Z.ldiff (2 ^ 64 - 1) (Z.ones j)).
  { assert (Hc : j = 0 \/ j = 1 \/ j = 2 \/ j = 3 \/ j = 4) by lia. destruct Hc as [->|[->|[->|[-> | ->]]]]; vm_compute; reflexivity. }
  rewrite Hm, land_ldiff, (land_low _ 64), Z.mod_small, Z.ldiff_ones_r, shiftr_div, shiftl_mul by lia. eexists. split; [done|].
  pose proof (Z.div_mod (value + (2 ^ j - 1)) (2 ^ j)). pose proof (Z.mod_pos_bound (value + (2 ^ j - 1)) (2 ^ j)). split; [nia|]. by exists ((value + (2 ^ j - 1)) / 2 ^ j).
Qed.

(** ** The invariant *)

Lemma placed_mono a a' p : (exists l, blocks_ a' = blocks_ a ++ l) -> placed a p -> placed a' p.
Proof. intros [l Hl] (? & ? & ? & n & Hn & ?). repeat split; try done. exists n. rewrite Hl. by rewrite (lookup_app_l_Some _ _ _ _ Hn). Qed.

(** A new piece beyond everything in the current block. *)
Lemma add_piece a a' live p : arena_ok a live -> block_size_ a' = block_size_ a -> blocks_ a' = blocks_ a \/ (exists n, block_size_ a <= n /\ blocks_ a' = blocks_ a ++ [n]) ->
  current_block_idx_ a <= current_block_idx_ a' < len (blocks_ a') -> (current_block_idx_ a' = current_block_idx_ a -> current_offset_ a <= at_offset p) ->
  at_block p = current_block_idx_ a' -> current_offset_ a' = at_offset p + piece_size p -> current_offset_ a' <= kMaxAllocationBytes -> placed a' p -> arena_ok a' (p :: live).
Proof.
  intros [S1 S2 S3 S4 S5 S6 S7] Es Hb Hi Ho Hp Hoff Hmax Hpl. assert (Hext : exists l, blocks_ a' = blocks_ a ++ l) by (destruct Hb as [->|(n & _ & ->)]; [exists []; by rewrite app_nil_r|by eexists]).
  pose proof Hpl as (? & ? & _). split; rewrite ?Es; try assumption; try lia.
  - destruct Hb as [->|(n & ? & ->)]; [done|]. apply Forall_app. split; [done|]. by constructor.
  - constructor; [done|]. eapply Forall_impl; [exact S5|]. intros x. by apply placed_mono.
  - constructor; [lia|]. eapply Forall_impl; [exact S6|]. cbn. intros x Hx. lia.
  - constructor; [|done]. apply Forall_forall. intros x Hx (E & H1 & H2). rewrite Forall_forall in S6. specialize (S6 x Hx). lia.
Qed.

Lemma take_ok a live size alignment j : arena_ok a live -> 0 < size <= block_size_ a -> alignment = 2 ^ j -> 0 <= j <= 4 ->
  match take a size alignment with
  | (a', Ok (b, o)) => arena_ok a' ({| at_block := b; at_offset := o; piece_size := size; piece_align := alignment |} :: live)
  | (a', Err _) => a' = a
  end.
Proof.
  intros Ha Hsize -> Hj. unfold take. destruct (align_up_spec (current_offset_ a) j (a_offset _ _ Ha) Hj) as (o & -> & Ho & Hd). unfold fits.
  destruct (Z.ltb_spec (block_size_ a) o), (Z.ltb_spec (block_size_ a - o) size); cbn [orb negb]; try done.
  pose proof (a_offset _ _ Ha). pose proof (a_size _ _ Ha) as Hs. pose proof (a_current _ _ Ha) as Hc. unfold kMaxBlockSize, kMaxAllocationBytes in *.
  eapply (add_piece a); cbn [block_size_ blocks_ current_block_idx_ current_offset_ at_block at_offset piece_size piece_align]; try done; try (left; done); try lia; [unfold kMaxAllocationBytes; lia|].
  repeat split; cbn [block_size_ blocks_ current_block_idx_ current_offset_ at_block at_offset piece_size piece_align]; try lia; [done|].
  destruct (lookup_lt_is_Some_2 (blocks_ a) (Z.to_nat (current_block_idx_ a))) as [n Hn]; [unfold len in Hc; lia|]. exists n. split; [done|]. split; [lia|].
  pose proof (a_blocks _ _ Ha) as Hall. rewrite Forall_forall in Hall. specialize (Hall n ltac:(by eapply list_elem_of_lookup_2)). cbn in Hall. lia.
Qed.

Lemma allocate_block_ok a live a' : arena_ok a live -> allocate_block a = Some a' -> arena_ok a' live.
Proof.
  intros [S1 S2 S3 S4 S5 S6 S7]. unfold allocate_block. destruct (Z.ltb_spec (current_block_idx_ a + 1) (len (blocks_ a))) as [Hlt|Hge].
  - intros [= <-]. split; cbn [set_current block_size_ blocks_ current_block_idx_ current_offset_]; try assumption; try lia.
    eapply Forall_impl; [exact S6|]. cbn. lia.
  - destruct (_ <=? _); [done|]. intros [= <-]. split; cbn [block_size_ blocks_ current_block_idx_ current_offset_]; try assumption.
    + apply Forall_app. split; [done|]. by constructor.
    + unfold len. rewrite length_app. cbn [length]. lia.
    + unfold kMaxAllocationBytes. lia.
    + eapply Forall_impl; [exact S5|]. intros p. apply placed_mono. by eexists.
    + eapply Forall_impl; [exact S6|]. cbn. lia.
Qed.

Lemma allocate_ok a live size alignment : arena_ok a live -> 0 <= size -> 0 <= alignment ->
  match allocate a size alignment with
  | (a', Ok (b, o)) => arena_ok a' ({| at_block := b; at_offset := o; piece_size := if size =? 0 then 1 else size; piece_align := alignment |} :: live)
  | (a', Err _) => arena_ok a' live
  end.
Proof.
  intros Ha Hs Hal. unfold allocate. set (n := if size =? 0 then 1 else size). assert (Hn : 0 < n) by (unfold n; destruct (Z.eqb_spec size 0); lia). clearbody n.
  destruct (_ || _) eqn:Epow; [done|]. destruct (Z.ltb_spec max_align alignment); [done|]. destruct (alignments alignment Hal Epow) as (j & Hj & ->); [lia|].
  destruct (Z.ltb_spec kMaxAllocationBytes n) as [|Hmax]; [done|]. destruct (Z.ltb_spec (block_size_ a) n) as [Hlarge|Hsmall].
  - unfold allocate_large_block_locked. destruct (_ <=? _); [done|]. pose proof (a_size _ _ Ha). pose proof (a_current _ _ Ha) as Hc. unfold max_align in *.
    eapply (add_piece a); cbn [block_size_ blocks_ current_block_idx_ current_offset_ at_block at_offset piece_size piece_align]; try done; try lia.
    + right. eexists. split; [|done]. lia.
    + unfold len in *. rewrite length_app. cbn [length]. lia.
    + repeat split; cbn [block_size_ blocks_ current_block_idx_ current_offset_ at_block at_offset piece_size piece_align]; try lia; [by exists 0|]. exists (Z.max n 16).
      split; [apply list_lookup_middle; unfold len; lia|]. lia.
  - destruct (align_up _ _) as [o|]; [|done]. destruct (fits a o n).
    + pose proof (take_ok a live n (2 ^ j) j Ha ltac:(lia) eq_refl Hj) as Ht. destruct (take a n (2 ^ j)) as [a' [[b q]|]]; [done|]. by subst.
    + destruct (allocate_block a) as [a1|] eqn:Eb; [|done]. pose proof (allocate_block_ok a live a1 Ha Eb) as Ha1.
      assert (Ebs : block_size_ a1 = block_size_ a). { unfold allocate_block in Eb. repeat case_match; simplify_eq; done. }
      pose proof (take_ok a1 live n (2 ^ j) j Ha1 ltac:(lia) eq_refl Hj) as Ht. destruct (take a1 n (2 ^ j)) as [a' [[b q]|]]; [done|]. by subst.
Qed.

Lemma serve_ok a live r : arena_ok a live -> valid r -> arena_ok (serve (a, live) r).1 (serve (a, live) r).2.
Proof.
  intros Ha Hr. destruct r as [size alignment|]; cbn [serve valid] in *.
  - pose proof (allocate_ok a live size alignment Ha ltac:(lia) ltac:(lia)) as H. by destruct (allocate a size alignment) as [a' [[b o]|]].
  - destruct Ha as [S1 S2 S3 S4 S5 S6 S7]. unfold reset. destruct (blocks_ a) as [|n l] eqn:Eb; [unfold len in S3; cbn in S3; lia|].
    split; cbn; try assumption; try constructor; try lia.
Qed.

(** C37: memory of the arena is handed out once.  Whatever sizes and alignments are asked
    for and however often the arena is reset, the pieces handed out since the last reset
    do not overlap, each lies inside its block, and each starts at a multiple of its
    alignment. *)
Theorem arena_pieces_disjoint block_size a0 requests : 0 <= block_size < 2 ^ 64 -> create block_size = Some a0 -> Forall valid requests ->
  let '(a, live) := fold_left serve requests (a0, []) in
  Forall (placed a) live /\ ForallOrdPairs (fun p p' => ~ overlap p p') live.
Proof.
  intros Hb Hc Hv. assert (H0 : arena_ok a0 []).
  { unfold create, allocate_block in Hc. cbn in Hc. injection Hc as <-. unfold max_align, kMaxBlockSize. split; cbn; try constructor; try (unfold kMaxAllocationBytes, max_align, kMaxBlockSize; lia); try done. }
  assert (Hall : forall a live, arena_ok a live -> arena_ok (fold_left serve requests (a, live)).1 (fold_left serve requests (a, live)).2).
  { induction Hv as [|r rs Hr _ IH]; intros a live Ha; [done|]. cbn [fold_left]. pose proof (serve_ok a live r Ha Hr) as H. destruct (serve (a, live) r) as [a1 l1]. by apply IH. }
  specialize (Hall a0 [] H0). destruct (fold_left serve requests (a0, [])) as [a live]. split; apply Hall.
Qed.

Definition demo_requests : list Request := [Allocate 10 8; Allocate 0 1; Allocate 5000 16; Allocate 4090 2; Reset; Allocate 3 4; Allocate 7 16].

Lemma arena_pieces_disjoint_witness : exists a0 a live, create 4096 = Some a0 /\ fold_left serve demo_requests (a0, []) = (a, live) /\ length live = 2%nat /\ Forall (placed a) live.
Proof.
  destruct (create 4096) as [a0|] eqn:E0; [|discriminate E0]. pose proof (arena_pieces_disjoint 4096 a0 demo_requests ltac:(lia) E0 ltac:(repeat constructor; lia)) as H.
  assert (Hl : length (fold_left serve demo_requests (a0, [])).2 = 2%nat) by (vm_compute in E0; injection E0 as <-; vm_compute; reflexivity).
  destruct (fold_left serve demo_requests (a0, [])) as [a live] eqn:E. exists a0, a, live. by destruct H.
Defined.
End Arena.
