(* ===== verification/Http.v ===== *)
(** * The HTTP session

    [handle_request] and [check_auth] of [src/http/server.cpp] and the start of a server
    in [include/cynamodb/context.hpp].  Reading requests from sockets, writing responses
    and the lookup of header fields belong to Boost: a request is what the library has
    read, with a function from the name of a header to its value, empty for a header that
    is absent. *)

From Stdlib Require Import ZArith Lia Strings.String Floats.SpecFloat.
From stdpp Require Import prelude.
From S2P Require Import Prelude StdMap Ranges Types CLib Storage Evaluator Capacity Streams TableManager Json TableJson Backups Dispatcher Sha256 SigV4 Api Handlers Queries Writes Service MemoryEngine Consistency.
Import Json TableJson Api.

Module Http.

Inductive Verb := VGet | VHead | VPost | VOther.

#[global] Instance Verb_eq_dec : EqDecision Verb.
Proof. solve_decision. Defined.

Record Request := { verb : Verb; target : bytes; header : bytes -> bytes; req_body : bytes }.

Record Response := { result : Z; fields : list (bytes * bytes); res_body : bytes }.

Definition set (name : string) (value : bytes) (r : Response) : Response :=
  {| result := result r; fields := fields r ++ [(lit name, value)]; res_body := res_body r |}.

Definition respond (st : Z) (body : bytes) (r : Response) : Response := {| result := st; fields := fields r; res_body := body |}.

(** ** Authentication *)

Definition prefixed (type : string) : bytes := lit "com.amazonaws.dynamodb.v20120810#" ++ lit type.

(** [make_error] *)
Definition auth_error (type message : string) : ApiResult :=
  {| status := 400; error_type := prefixed type; body := serialize_error (prefixed type) (lit message) |}.

(** The inputs of the verifier. *)
Definition signed_values (req : Request) (names : list bytes) : list (bytes * bytes) :=
  fold_left (fun m name => mset name (header req name) m) names [].

Definition verify_input (req : Request) (parsed : SigV4.SigV4Parameters) : SigV4.SigV4VerifyRequest :=
  {| SigV4.method := lit "POST"; SigV4.canonical_uri := lit "/"; SigV4.canonical_query_string := []; SigV4.payload := req_body req;
     SigV4.signed_header_values := signed_values req (SigV4.signed_headers parsed); SigV4.security_token_header := None |}.

Definition check_auth (require_auth : bool) (store : SigV4.CredentialStore) (req : Request) : option ApiResult :=
  if negb require_auth then None
  else
    let auth_header := header req (lit "authorization") in
    if bool_decide (auth_header = []) then Some (auth_error "MissingAuthenticationTokenException" "Request is missing Authentication Token")
    else
      match SigV4.parse_authorization_header auth_header with
      | None => Some (auth_error "IncompleteSignatureException" "Authorization header requires a valid AWS4-HMAC-SHA256 credential and signature")
      | Some parsed =>
          match SigV4.secret_for store (SigV4.access_key parsed) with
          | None => Some (auth_error "UnrecognizedClientException" "The security token included in the request is invalid (unknown access key)")
          | Some secret =>
              let credential := {| SigV4.cred_access_key := SigV4.access_key parsed; SigV4.secret_key := secret; SigV4.session_token := None |} in
              match SigV4.verify_request parsed credential (verify_input req parsed) with
              | Ok _ => None
              | Err SigV4.MissingSignedHeader => Some (auth_error "IncompleteSignatureException" "A required signed header was not present")
              | Err _ => Some (auth_error "InvalidSignatureException" "The request signature we calculated does not match the signature you provided")
              end
          end
      end.

(** ** Requests *)

Section Session.
Context {E : Type} {SE : StorageEngine E} {QE : QueryEngine E} (indeterminate : ProjectionType) (parse : bytes -> option Json).

Record Context_ := { require_auth : bool; credential_store : SigV4.CredentialStore; server : Service.Server E }.

(** The fields every response has; [random] is the request id. *)
Definition base_response (random : Z) (req : Request) : Response :=
  let json_11 := contains (header req (lit "content-type")) (lit "json-1.1") in
  set "x-amzn-RequestId" (Streams.hex16 16 random)
    (set "Content-Type" (if json_11 then lit "application/x-amz-json-1.1" else lit "application/x-amz-json-1.0")
      (set "Server" (lit "cynamoDB/2.5.4") {| result := 200; fields := []; res_body := [] |})).

Definition is_health (req : Request) : bool :=
  bytes_eqb (target req) (lit "/health") && bool_decide (verb req = VGet \/ verb req = VHead \/ verb req = VPost).

Definition method_not_allowed (res : Response) : Response :=
  let type := prefixed "UnknownOperationException" in
  set "x-amzn-ErrorType" type
    (set "Allow" (lit "POST") (respond 405 (serialize_error type (lit "Only POST requests are supported by the cynamoDB endpoint")) res)).

(** The response to a reply of the service. *)
Definition reply_response (r : ApiResult) (res : Response) : Response :=
  let res := respond (status r) (body r) res in
  if bool_decide (error_type r = []) then res else set "x-amzn-ErrorType" (error_type r) res.

Definition handle_request (readings : Service.Readings) (random : Z) (req : Request) (ctx : Context_) : option (Response * Service.Server E) :=
  let res := base_response random req in
  if is_health req then Some (respond 200 (q "{'status':'healthy'}") res, server ctx)
  else if negb (bool_decide (verb req = VPost)) then Some (method_not_allowed res, server ctx)
  else
    match check_auth (require_auth ctx) (credential_store ctx) req with
    | Some auth_err => Some (set "x-amzn-ErrorType" (error_type auth_err) (respond (status auth_err) (body auth_err) res), server ctx)
    | None =>
        let op := Dispatcher.parse_target (header req (lit "X-Amz-Target")) in
        match Service.handle_operation indeterminate parse readings op (req_body req) (server ctx) with
        | Some (r, s) => Some (reply_response r res, s)
        | None => None
        end
    end.

(** ** The start *)

Definition auth_required (setting : option bytes) : bool :=
  match setting with
  | None => false
  | Some v => negb (bool_decide (v = []) || bytes_eqb v (lit "0") || bytes_eqb v (lit "false") || bytes_eqb v (lit "off"))
  end.

(** Readings of the clocks for one table; [clocks i] are those for table number [i]. *)
Record Clock := { synced_at : Z; buckets_at : Z * Z }.

(** The managers follow the tables of the catalogue. *)
Fixpoint adopt (clocks : nat -> Clock) (i : nat) (m : Tables.TableManager) (names : list bytes) (streams : Streams.StreamManager) (capacity : Capacity.CapacityManager) :
  option (Streams.StreamManager * Capacity.CapacityManager) :=
  match names with
  | [] => Some (streams, capacity)
  | name :: names' =>
      match Tables.describe_table m name with
      | Ok def =>
          match Streams.sync_table (synced_at (clocks i)) def streams with
          | Some streams => adopt clocks (S i) m names' streams (Capacity.register_table (buckets_at (clocks i)).1 (buckets_at (clocks i)).2 def capacity)
          | None => None
          end
      | Err _ => adopt clocks (S i) m names' streams capacity
      end
  end.

(** The constructor, on the settings, the catalogue file, the engine it opens and the
    manager of the backup directory. *)
Definition start (setting ak sk : option bytes) (metadata : option bytes) (engine : E) (backups : Backups.BackupManager) (clocks : nat -> Clock) : option Context_ :=
  match Tables.open metadata with
  | None => None
  | Some m =>
      option_map (fun sc =>
        {| require_auth := auth_required setting; credential_store := SigV4.create_store ak sk;
           server := {| Service.world := {| tables := m; storage := engine; streams := Some sc.1 |}; Service.capacity := Some sc.2;
                        Service.backups := Some backups; Service.completed := Writes.Idempotency.empty |} |})
        (adopt clocks 0 m (Tables.list_tables m) Streams.empty [])
  end.
End Session.
Arguments Context_ : clear implicits.

(** ** Signed requests *)

Definition header_text (req : Request) (name : bytes) : bytes := SigV4.canonicalize_header_value (header req name).

Definition header_block (req : Request) (names : list bytes) : bytes :=
  concat (map (fun h => SigV4.to_lower h ++ lit ":" ++ header_text req (SigV4.to_lower h) ++ SigV4.newline) names).

(** The Authorization header names a known access key and carries the signature of the
    body, the date and the signed headers under the secret of that key. *)
Definition signed (store : SigV4.CredentialStore) (req : Request) : Prop :=
  exists p secret, SigV4.parse_authorization_header (header req (lit "authorization")) = Some p /\ SigV4.secret_for store (SigV4.access_key p) = Some secret /\
    Forall (fun h => SigV4.to_lower h ∈ SigV4.signed_headers p) (SigV4.signed_headers p) /\
    SigV4.date_header ∈ map SigV4.to_lower (SigV4.signed_headers p) /\ header_text req SigV4.date_header <> [] /\
    SigV4.signature p = SigV4.compute_signature p secret (header_text req SigV4.date_header)
      (SigV4.canonical_request (verify_input req p) (header_block req (SigV4.signed_headers p)) (SigV4.signed_headers p)).

Lemma signed_values_get req names n : mget n (signed_values req names) = if bool_decide (n ∈ names) then Some (header req n) else None.
Proof.
  unfold signed_values. assert (H : forall m, mget n (fold_left (fun m name => mset name (header req name) m) names m) = if bool_decide (n ∈ names) then Some (header req n) else mget n m).
  { induction names as [|x names IH]; intros m; cbn [fold_left]; [done|]. rewrite IH, mget_mset. destruct (keqb_spec n x) as [->|Hne].
    - rewrite (bool_decide_eq_true_2 (x ∈ x :: names)) by left. by case_bool_decide.
    - rewrite (bool_decide_ext (n ∈ x :: names) (n ∈ names)); [done|]. rewrite elem_of_cons. naive_solver. }
  apply H.
Qed.

Lemma check_auth_signed store req : check_auth true store req = None <-> signed store req.
Proof.
  unfold check_auth. cbn [negb]. case_bool_decide as Ha.
  { split; [done|]. intros (p & secret & Hp & _). by rewrite Ha in Hp. }
  destruct (SigV4.parse_authorization_header _) as [p|] eqn:Ep; [|split; [done|]; intros (p & secret & Hp & _); congruence].
  destruct (SigV4.secret_for _ _) as [secret|] eqn:Es; [|split; [done|]; intros (p' & secret & Hp & Hs & _); congruence].
  assert (Hne : SigV4.access_key p <> [] /\ SigV4.signature p <> []).
  { unfold SigV4.parse_authorization_header in Ep. destruct (negb _); [done|]. destruct (bool_decide _ || bool_decide _) eqn:Eb; [done|]. injection Ep as <-.
    apply orb_false_elim in Eb as [E1%bool_decide_eq_false E2%bool_decide_eq_false]. done. }
  destruct Hne as [Hk Hsg]. unfold SigV4.verify_request. rewrite (bool_decide_eq_false_2 _ Hk), (bool_decide_eq_false_2 _ Hsg). cbn [orb SigV4.cred_access_key SigV4.secret_key]. rewrite bytes_eqb_refl. cbn [negb].
  rewrite SigV4.collect_headers_spec. cbn [SigV4.signed_header_values verify_input app].
  set (hs := SigV4.signed_headers p) in *. set (values := signed_values req hs).
  assert (Hin : forall n, n ∈ hs -> SigV4.header_value values n = header_text req n).
  { intros n Hn. unfold SigV4.header_value, values, header_text. by rewrite signed_values_get, bool_decide_eq_true_2. }
  assert (Hall : forallb (fun h => bool_decide (is_Some (mget (SigV4.to_lower h) values))) hs = true <-> Forall (fun h => SigV4.to_lower h ∈ hs) hs).
  { rewrite forallb_iff. apply Forall_iff. intros h. rewrite bool_decide_eq_true. unfold values. rewrite signed_values_get. case_bool_decide; split; try done. }
  assert (Hdate : existsb (fun h => bytes_eqb (SigV4.to_lower h) SigV4.date_header) hs = true <-> SigV4.date_header ∈ map SigV4.to_lower hs).
  { rewrite existsb_exists. setoid_rewrite bytes_eqb_eq. split.
    - intros (h & Hh & <-). apply list_elem_of_In, in_map. done.
    - intros (h & Hh & Hin')%list_elem_of_In%in_map_iff. by exists h. }
  assert (Hlines : Forall (fun h => SigV4.to_lower h ∈ hs) hs -> SigV4.header_lines values hs = header_block req hs).
  { intros Hl. unfold SigV4.header_lines, header_block. f_equal. apply map_ext_in. intros h Hh%list_elem_of_In. rewrite Hin; [done|]. by rewrite Forall_forall in Hl; apply Hl. }
  assert (Hdin : Forall (fun h => SigV4.to_lower h ∈ hs) hs -> SigV4.date_header ∈ map SigV4.to_lower hs -> SigV4.date_header ∈ hs).
  { intros Hl Hd. apply list_elem_of_In, in_map_iff in Hd as (h & <- & Hh%list_elem_of_In). by rewrite Forall_forall in Hl; apply Hl. }
  split.
  - case_bool_decide as H0; [done|]. destruct (forallb _ hs) eqn:E1; [|done]. specialize (proj1 Hall eq_refl) as Hl. destruct (existsb _ hs) eqn:E2; [|by rewrite bool_decide_eq_true_2].
    specialize (proj1 Hdate eq_refl) as Hd. rewrite (Hin _ (Hdin Hl Hd)). case_bool_decide as H3; [done|]. rewrite (Hlines Hl), SigV4.secure_equals_eq.
    destruct (bytes_eqb_spec (SigV4.compute_signature p secret (header_text req SigV4.date_header) (SigV4.canonical_request (verify_input req p) (header_block req hs) hs)) (SigV4.signature p)) as [E|]; [|done].
    intros _. exists p, secret. fold hs. done.
  - intros (p' & secret' & Hp' & Hs' & Hl & Hd & Ht & Hsig). simplify_eq. fold hs in Hl, Hd, Hsig.
    rewrite (bool_decide_eq_false_2 (hs = [])) by (intros E; rewrite E in Hd; by apply elem_of_nil in Hd). rewrite (proj2 Hall Hl), (proj2 Hdate Hd), (Hin _ (Hdin Hl Hd)), (bool_decide_eq_false_2 _ Ht), (Hlines Hl), SigV4.secure_equals_eq.
    by rewrite Hsig, bytes_eqb_refl.
Qed.

Section Theorems.
Context {E : Type} {SE : StorageEngine E} {QE : QueryEngine E} (indeterminate : ProjectionType) (parse : bytes -> option Json).

End Theorems.

(** ** A signed request *)

Section Demo.
#[local] Existing Instances MemoryEngine.engine memory_queries.
Import Consistency.

Definition demo_headers (authorization n : bytes) : bytes :=
  let n := SigV4.to_lower n in
  if bytes_eqb n (lit "authorization") then authorization
  else if bytes_eqb n (lit "x-amz-date") then lit "20260101T000000Z"
  else if bytes_eqb n (lit "x-amz-target") then lit "DynamoDB_20120810.ListTables"
  else [].

Definition demo_post (authorization : bytes) : Request := {| verb := VPost; target := lit "/"; header := demo_headers authorization; req_body := q "{}" |}.

Definition demo_params (sig : bytes) : SigV4.SigV4Parameters :=
  {| SigV4.algorithm := lit "AWS4-HMAC-SHA256"; SigV4.access_key := lit "cynamodb"; SigV4.date := lit "20260101"; SigV4.region := lit "ddblocal"; SigV4.service := lit "dynamodb";
     SigV4.request_type := lit "aws4_request"; SigV4.signed_headers := [lit "x-amz-date"; lit "x-amz-target"]; SigV4.signature := sig |}.

Definition demo_signature : bytes :=
  let hs := [lit "x-amz-date"; lit "x-amz-target"] in
  SigV4.compute_signature (demo_params []) (lit "cynamodb-secret") (lit "20260101T000000Z")
    (SigV4.canonical_request (verify_input (demo_post []) (demo_params [])) (header_block (demo_post []) hs) hs).

Definition demo_signed : Request := demo_post (SigV4.print_header (demo_params demo_signature)).

Definition demo_context : Context_ MemoryEngine.t := {| require_auth := true; credential_store := SigV4.create_store None None; server := demo_final |}.


(** The same request with another body is refused. *)
Lemma tampered_refused : option_map (fun x => (result x.1, Service.completed x.2))
  (handle_request PT_ALL read_json demo_readings 7 {| verb := VPost; target := lit "/"; header := header demo_signed; req_body := q "{'a':1}" |} demo_context) = Some (400, Writes.Idempotency.empty).
Proof. vm_compute. reflexivity. Qed.

(** The path is not part of what is verified: the signature is checked for [/] whatever
    path the request has. *)
Lemma path_not_signed path : check_auth true (credential_store demo_context) {| verb := VPost; target := path; header := header demo_signed; req_body := req_body demo_signed |} = None.
Proof. vm_compute. reflexivity. Qed.
End Demo.
End Http.
