(* ===== verification/Concurrency.v ===== *)
(** * Concurrent requests

    The server runs a request on each of its threads, and the handlers of
    [src/api/handlers.cpp] take no lock: only the single calls of the engine, of the
    catalogue and of the stream manager are atomic.  Here the handlers of PutItem,
    DeleteItem, UpdateItem and GetItem, and the two phases of TransactWriteItems, are
    programs of such calls, which run one after the other exactly as the handlers do
    ([put_program_run] and its like) and which a schedule can interleave. *)

From Stdlib Require Import ZArith Lia Strings.String.
From stdpp Require Import prelude.
From S2P Require Import Prelude StdMap Ranges Types KeyCodec Validator Storage MemoryEngine Lexer Parser Evaluator UpdateExpression Streams TableManager Json TableJson Api Handlers Queries Writes Service IndexSync Consistency.
Import Json TableJson Api Handlers IndexSync Consistency.

Module Concurrency.

(** ** Programs of calls *)

Inductive Prog :=
| Return (r : ApiResult)
| Crash
| Lookup (name : bytes) (k : option TableDefinition -> Prog)
| Get (table key : bytes) (k : option AttributeMap -> Prog)
| Put (table key : bytes) (item : AttributeMap) (k : Prog)
| Remove (table key : bytes) (k : Prog)
| Mutate (table key : bytes) (mutator : Mutator) (k : option AttributeMap -> Prog)
| Emit (env : Env) (i : nat) (def : TableDefinition) (event : bytes) (keys : AttributeMap) (old_image new_image : option AttributeMap) (k : Prog).

Section Programs.
Context {E : Type} {SE : StorageEngine E}.

(** One call. *)
Definition step (p : Prog) (w : World E) : option (Prog * World E) :=
  match p with
  | Return _ | Crash => None
  | Lookup name k => Some (k (find_table w name), w)
  | Get table key k => Some (k (se_get (storage w) table key), w)
  | Put table key item k => Some (k, set_storage w (se_put (storage w) table key item))
  | Remove table key k => Some (k, set_storage w (se_remove (storage w) table key))
  | Mutate table key m k => let '(s, outcome) := se_mutate (storage w) table key m in Some (k (previous outcome), set_storage w s)
  | Emit env i def event keys old new k =>
      match emit_stream env i def event keys old new w with Some w => Some (k, w) | None => Some (Crash, w) end
  end.

(** All calls of one program, with nothing in between. *)
Fixpoint run (p : Prog) (w : World E) : reply E :=
  match p with
  | Return r => Some (r, w)
  | Crash => None
  | Lookup name k => run (k (find_table w name)) w
  | Get table key k => run (k (se_get (storage w) table key)) w
  | Put table key item k => run k (set_storage w (se_put (storage w) table key item))
  | Remove table key k => run k (set_storage w (se_remove (storage w) table key))
  | Mutate table key m k => let '(s, outcome) := se_mutate (storage w) table key m in run (k (previous outcome)) (set_storage w s)
  | Emit env i def event keys old new k =>
      match emit_stream env i def event keys old new w with Some w => run k w | None => None end
  end.

Lemma step_run p w p' w' : step p w = Some (p', w') -> run p w = run p' w'.
Proof.
  destruct p; cbn; try done; try (by intros [= <- <-]).
  - destruct (se_mutate _ _ _ _). by intros [= <- <-].
  - destruct (emit_stream _ _ _ _ _ _ _ _); by intros [= <- <-].
Qed.

(** ** The handlers *)

Definition maintain_index_program (def : TableDefinition) (old_item new_item : option AttributeMap) (idx : IndexSpec) (k : Prog) : Prog :=
  let tbl := index_storage_table (table_name def) (index_name idx) in
  let k := match new_item with
           | Some n => match project_for_index n idx def with Some proj => Put tbl (encode_index_storage_key idx def n) proj k | None => k end
           | None => k
           end in
  match old_item with
  | Some o => match project_for_index o idx def with Some _ => Remove tbl (encode_index_storage_key idx def o) k | None => k end
  | None => k
  end.

Definition maintain_program (def : TableDefinition) (old_item new_item : option AttributeMap) (k : Prog) : Prog :=
  fold_right (maintain_index_program def old_item new_item) k (all_indexes def).

Definition respond (r : option ApiResult) : Prog := match r with Some r => Return r | None => Crash end.

Definition put_program (env : Env) (doc : Json) : Prog :=
  need name := get_string_at doc "TableName" else Return (bad_request (lit "TableName is required")) in
  Lookup name (fun d =>
  need def := d else Return (table_missing name) in
  need item_el := at_key doc "Item" else Return (bad_request (lit "Item is required")) in
  need item := parse_attribute_map item_el else Return (bad_request (lit "Item is not a valid attribute map")) in
  if negb (item_has_all_keys def item) then Return (bad_request (lit "One of the required keys was not given a value"))
  else
    match validate_item_standard item def with
    | Err e => Return (bad_request (validation_message e))
    | Ok _ =>
        need c := read_condition doc else Return invalid_values in
        Mutate name (encode_primary_key def item) (fun current => match check_condition c current with Passed => MutationPut item | _ => MutationNone end)
          (fun old =>
          match check_condition c old with
          | ParseError => Return invalid_condition
          | Failed => Return condition_failed
          | Passed =>
              maintain_program def old (Some item)
                (Emit env 0 def (event_of old) (extract_keys def item) old (Some item)
                  (match old with
                   | Some o => if bytes_eqb (return_values doc) (lit "ALL_OLD") then respond (attributes_reply o) else Return empty_reply
                   | None => Return empty_reply
                   end))
          end)
    end).

Definition delete_program (env : Env) (doc : Json) : Prog :=
  need name := get_string_at doc "TableName" else Return (bad_request (lit "TableName is required")) in
  Lookup name (fun d =>
  need def := d else Return (table_missing name) in
  match read_key def doc with
  | Err r => Return r
  | Ok key_map =>
      need c := read_condition doc else Return invalid_values in
      Mutate name (encode_primary_key def key_map) (fun current => match check_condition c current with Passed => MutationDelete | _ => MutationNone end)
        (fun old =>
        match check_condition c old with
        | ParseError => Return invalid_condition
        | Failed => Return condition_failed
        | Passed =>
            match old with
            | Some o =>
                maintain_program def (Some o) None
                  (Emit env 0 def (lit "REMOVE") (extract_keys def o) (Some o) None
                    (if bytes_eqb (return_values doc) (lit "ALL_OLD") then respond (attributes_reply o) else Return empty_reply))
            | None => Return empty_reply
            end
        end)
  end).

Definition update_program (env : Env) (doc : Json) : Prog :=
  need name := get_string_at doc "TableName" else Return (bad_request (lit "TableName is required")) in
  Lookup name (fun d =>
  need def := d else Return (table_missing name) in
  match read_key def doc with
  | Err r => Return r
  | Ok key_map =>
      let update := get_string_at doc "UpdateExpression" in
      need c := read_condition doc else Return invalid_values in
      Mutate name (encode_primary_key def key_map)
        (fun current => match check_condition c current with
                        | Passed => match updated_item update c key_map current with Some (Ok working) => MutationPut working | _ => MutationNone end
                        | _ => MutationNone
                        end)
        (fun old =>
        match check_condition c old with
        | ParseError => Return invalid_condition
        | Failed => Return condition_failed
        | Passed =>
            match updated_item update c key_map old with
            | None => Crash
            | Some (Err update_error) => Return (bad_request update_error)
            | Some (Ok new_item) =>
                maintain_program def old (Some new_item)
                  (Emit env 0 def (event_of old) (extract_keys def new_item) old (Some new_item) (respond (update_reply (return_values doc) old new_item)))
            end
        end)
  end).

Definition get_program (env : Env) (doc : Json) : Prog :=
  need name := get_string_at doc "TableName" else Return (bad_request (lit "TableName is required")) in
  Lookup name (fun d =>
  need def := d else Return (table_missing name) in
  match read_key def doc with
  | Err r => Return r
  | Ok key_map =>
      let key := encode_primary_key def key_map in
      Get name key (fun found =>
      match found with
      | None => Return empty_reply
      | Some item =>
          if item_is_expired (now_epoch_seconds env) def item then Remove name key (Return empty_reply)
          else
            match get_string_at doc "ProjectionExpression" with
            | Some projection =>
                let '(projected, unsupported) := apply_projection item projection (parse_expr_names doc) in
                if unsupported : bool
                then Return (bad_request (lit "Document-path ProjectionExpression is not yet supported; use top-level attributes"))
                else respond (item_reply projected)
            | None => respond (item_reply item)
            end
      end)
  end).

(** ** They run as the handlers do *)

Lemma run_respond r (w : World E) : run (respond r) w = option_map (fun r => (r, w)) r.
Proof. by destruct r. Qed.

Lemma set_storage_twice (w : World E) s s' : set_storage (set_storage w s) s' = set_storage w s'.
Proof. done. Qed.

Lemma maintain_run def old new k (w : World E) : run (maintain_program def old new k) w = run k (set_storage w (maintain_indexes (storage w) def old new)).
Proof.
  unfold maintain_program, maintain_indexes. revert w. induction (all_indexes def) as [|idx idxs IH]; intros w; [by destruct w|].
  cbn [fold_right fold_left]. unfold maintain_index_program at 1.
  assert (Hnew : forall w : World E, run (match new with
    | Some n => match project_for_index n idx def with
                | Some proj => Put (index_storage_table (table_name def) (index_name idx)) (encode_index_storage_key idx def n) proj (fold_right (maintain_index_program def old new) k idxs)
                | None => fold_right (maintain_index_program def old new) k idxs end
    | None => fold_right (maintain_index_program def old new) k idxs end) w =
    run k (set_storage w (fold_left (maintain_index def old new) idxs (maintain_index def None new (storage w) idx)))).
  { intros v. unfold maintain_index at 2. destruct new as [n|]; [destruct (project_for_index n idx def)|]; cbn [run]; by rewrite IH. }
  unfold maintain_index at 2. destruct old as [o|]; [|apply Hnew]. destruct (project_for_index o idx def); cbn [run]; apply Hnew.
Qed.

Ltac branch := match goal with
  | |- run (match ?e with _ => _ end) _ = _ => destruct e
  | |- run (if ?e then _ else _) _ = _ => destruct e
  end; cbn [run]; try done.

Lemma emit_run env i def event keys old new k (w : World E) f :
  (forall w, run k w = f w) -> run (Emit env i def event keys old new k) w = match emit_stream env i def event keys old new w with Some w => f w | None => None end.
Proof. intros H. cbn [run]. by destruct (emit_stream _ _ _ _ _ _ _ w). Qed.

Lemma put_program_run env doc (w : World E) : run (put_program env doc) w = handle_put_item env doc w.
Proof.
  unfold put_program, handle_put_item. branch. branch. branch. branch. branch. branch. branch.
  destruct (se_mutate _ _ _ _) as [s outcome]. destruct (check_condition _ _); [|done..]. rewrite maintain_run. apply emit_run. intros ?.
  destruct (previous outcome); [|done]. destruct (bytes_eqb _ _); [|done]. apply run_respond.
Qed.

Lemma delete_program_run env doc (w : World E) : run (delete_program env doc) w = handle_delete_item env doc w.
Proof.
  unfold delete_program, handle_delete_item. branch. branch. branch. branch.
  destruct (se_mutate _ _ _ _) as [s outcome]. destruct (check_condition _ _); [|done..]. destruct (previous outcome); [|done].
  rewrite maintain_run. apply emit_run. intros ?. destruct (bytes_eqb _ _); [|done]. apply run_respond.
Qed.

Lemma update_program_run env doc (w : World E) : run (update_program env doc) w = handle_update_item env doc w.
Proof.
  unfold update_program, handle_update_item. branch. branch. branch. cbn zeta. branch.
  destruct (se_mutate _ _ _ _) as [s outcome]. destruct (check_condition _ _); [|done..]. destruct (updated_item _ _ _ _) as [[|]|]; [|done..].
  rewrite maintain_run. apply emit_run. intros ?. apply run_respond.
Qed.

Lemma get_program_run env doc (w : World E) : run (get_program env doc) w = handle_get_item env doc w.
Proof.
  unfold get_program, handle_get_item. branch. branch. branch. branch. branch. branch; [|apply run_respond].
  destruct (apply_projection _ _ _) as [projected [|]]; [done|]. apply run_respond.
Qed.

(** ** The two phases of TransactWriteItems *)

(** Phase 1 reads the item for the condition, and again for the update. *)
Definition check_program (a : Writes.Action) (k : AttributeMap -> Prog) : Prog :=
  let next := match Writes.kind a with
              | Writes.KUpdate update =>
                  Get (Writes.action_table a) (Writes.action_key a) (fun current =>
                  match updated_item update (Writes.action_condition a) (Writes.key_map a) current with
                  | None => Crash
                  | Some (Ok working) => k working
                  | Some (Err e) => Return (bad_request e)
                  end)
              | _ => k []
              end in
  match condition (Writes.action_condition a) with
  | Some _ =>
      Get (Writes.action_table a) (Writes.action_key a) (fun current =>
      match check_condition (Writes.action_condition a) current with
      | ParseError => Return (bad_request (lit "Invalid ConditionExpression in transaction"))
      | Failed => Return (error 400 (lit "TransactionCanceledException")
          (lit "Transaction cancelled, please refer cancellation reasons for specific reasons [ConditionalCheckFailed]"))
      | Passed => next
      end)
  | None => next
  end.

Fixpoint check_all (actions : list Writes.Action) (k : list AttributeMap -> Prog) : Prog :=
  match actions with
  | [] => k []
  | a :: actions' => check_program a (fun item => check_all actions' (fun items => k (item :: items)))
  end.

(** [on]: the server has a stream manager. *)
Definition write_program (env : Env) (on : bool) (i : nat) (name key : bytes) (new : option AttributeMap) (k : Prog) : Prog :=
  Lookup name (fun d =>
  let has_idx := match d with Some d => Writes.has_indexes d | None => false end in
  let streaming := match d with Some d => on && Streams.is_stream_enabled d | None => false end in
  let write old :=
    let rest := match d with
                | None => k
                | Some d =>
                    let emit := if streaming : bool then
                                  match new, old with
                                  | Some item, _ => Emit env i d (event_of old) (extract_keys d item) old (Some item) k
                                  | None, Some o => Emit env i d (lit "REMOVE") (extract_keys d o) old None k
                                  | None, None => k
                                  end
                                else k in
                    if has_idx : bool then maintain_program d old new emit else emit
                end in
    match new with Some item => Put name key item rest | None => Remove name key rest end in
  if has_idx || streaming then Get name key write else write None).

Fixpoint apply_all (env : Env) (on : bool) (i : nat) (actions : list (Writes.Action * AttributeMap)) : Prog :=
  match actions with
  | [] => Return empty_reply
  | (a, precomputed) :: actions' =>
      match Writes.effect_of a precomputed with
      | None => apply_all env on (S i) actions'
      | Some new => write_program env on i (Writes.action_table a) (Writes.action_key a) new (apply_all env on (S i) actions')
      end
  end.

Definition transact_program (env : Env) (on : bool) (actions : list Writes.Action) : Prog :=
  check_all actions (fun items => apply_all env on 0 (zip actions items)).

Lemma check_program_run a k (w : World E) : run (check_program a k) w =
  match Writes.check_action w a with None => None | Some (Err r) => Some (r, w) | Some (Ok item) => run (k item) w end.
Proof.
  unfold check_program, Writes.check_action. set (next := match Writes.kind a with Writes.KUpdate _ => _ | _ => _ end).
  assert (Hnext : run next w = match match Writes.kind a with
    | Writes.KUpdate update => match updated_item update (Writes.action_condition a) (Writes.key_map a) (se_get (storage w) (Writes.action_table a) (Writes.action_key a)) with
                               | None => None | Some (Ok working) => Some (Ok working) | Some (Err e) => Some (Err (bad_request e)) end
    | _ => Some (Ok []) end with None => None | Some (Err r) => Some (r, w) | Some (Ok item) => run (k item) w end).
  { unfold next. destruct (Writes.kind a); cbn [run]; try done. by destruct (updated_item _ _ _ _) as [[|]|]. }
  destruct (condition (Writes.action_condition a)) as [expr|] eqn:Ec; cbn [run]; [by destruct (check_condition _ _)|].
  unfold check_condition. rewrite Ec. exact Hnext.
Qed.

Lemma check_all_run actions : forall k (w : World E), run (check_all actions k) w =
  match Writes.check_actions w actions with None => None | Some (Err r) => Some (r, w) | Some (Ok items) => run (k items) w end.
Proof.
  induction actions as [|a actions IH]; intros k w; [done|]. cbn [check_all Writes.check_actions]. rewrite check_program_run.
  destruct (Writes.check_action w a) as [[item|]|]; [|done..]. rewrite IH. by destruct (Writes.check_actions w actions) as [[|]|].
Qed.

Definition streaming_on (w : World E) : bool := match streams w with Some _ => true | None => false end.

Lemma emit_on env i def event keys old new (w w' : World E) : emit_stream env i def event keys old new w = Some w' -> streaming_on w' = streaming_on w.
Proof.
  unfold emit_stream, streaming_on. destruct (streams w) as [m|] eqn:Es; [|intros [= <-]; by rewrite Es].
  destruct (Streams.is_stream_enabled def); [|intros [= <-]; by rewrite Es]. destruct (Streams.append_record _ _ _ _ _ _ _ _ _); [|done]. by intros [= <-].
Qed.

Lemma write_program_run env i name key new k (w : World E) f : (forall w', streaming_on w' = streaming_on w -> run k w' = f w') ->
  run (write_program env (streaming_on w) i name key new k) w = match Writes.apply_write env i name key new w with Some w => f w | None => None end.
Proof.
  intros Hk. unfold write_program, Writes.apply_write. cbn [run]. cbv zeta. set (d := find_table w name).
  assert (Hst : forall d, Writes.has_stream d w = streaming_on w && Streams.is_stream_enabled d) by (intros e; unfold Writes.has_stream, streaming_on; by destruct (streams w)).
  destruct d as [d|]; [rewrite Hst|destruct new; cbn [run orb]; by apply Hk].
  destruct (Writes.has_indexes d), (streaming_on w && Streams.is_stream_enabled d); cbn [orb run]; destruct new as [item|]; cbn [run];
    try (destruct (se_get _ _ _); cbn [run]); rewrite ?maintain_run; cbn [run];
    first [by apply Hk | match goal with |- match ?e with _ => _ end = _ => destruct e eqn:Ee; [|done] end; apply Hk; by rewrite (emit_on _ _ _ _ _ _ _ _ _ Ee)].
Qed.

(** Alone, the program is the transaction of [Writes.transact] on its actions. *)
Lemma transact_program_run env actions (w : World E) : run (transact_program env (streaming_on w) actions) w =
  match Writes.check_actions w actions with
  | None => None
  | Some (Err r) => Some (r, w)
  | Some (Ok items) => option_map (fun w => (empty_reply, w)) (Writes.apply_actions env 0 (zip actions items) w)
  end.
Proof.
  unfold transact_program. rewrite check_all_run. destruct (Writes.check_actions w actions) as [[items|]|]; [|done..].
  assert (Happly : forall aps i v, streaming_on v = streaming_on w -> run (apply_all env (streaming_on w) i aps) v = option_map (fun w => (empty_reply, w)) (Writes.apply_actions env i aps v)).
  { induction aps as [|[a p] aps IH]; intros i v Hv; [done|]. cbn [apply_all Writes.apply_actions]. destruct (Writes.effect_of a p) as [new|]; [|by apply IH].
    rewrite <- Hv. rewrite (write_program_run env i _ _ new _ v (fun u => option_map (fun w => (empty_reply, w)) (Writes.apply_actions env (S i) aps u))).
    - by destruct (Writes.apply_write _ _ _ _ _ v).
    - intros u Hu. rewrite Hv. apply IH. congruence. }
  by apply Happly.
Qed.
End Programs.
End Concurrency.
