(* ===== verification/Interleaving.v ===== *)
(** * Interleaved requests

    Requests for single items by any number of threads are linearizable: every schedule of
    the programs of [Concurrency] gives the replies and the tables of some order of the
    requests, one after the other, that respects which reply came before which request.  The proof keeps, beside the world of the threads, the
    world of the serial execution of those that have written ([linked]); what a thread
    still has to do to the indexes accounts for the difference ([tail_write]).  When no two
    requests address one item the indexes agree as well. *)

From Stdlib Require Import ZArith Lia Strings.String.
From stdpp Require Import prelude.
From S2P Require Import Prelude StdMap Ranges Types KeyCodec Validator Storage MemoryEngine Lexer Parser Evaluator UpdateExpression Streams TableManager Json TableJson Api Handlers Queries Writes Dispatcher Service IndexSync Consistency Concurrency.
Import Json TableJson Api Handlers IndexSync Consistency Concurrency.

Module Interleaving.
Section Interleaving.
Context {E : Type} {SE : StorageEngine E} {SL : StorageLaws E}.

Inductive Request := PutItem (env : Env) (doc : Json) | DeleteItem (env : Env) (doc : Json) | UpdateItem (env : Env) (doc : Json) | GetItem (env : Env) (doc : Json).

Definition handler (r : Request) (w : World E) : reply E :=
  match r with
  | PutItem env doc => handle_put_item env doc w
  | DeleteItem env doc => handle_delete_item env doc w
  | UpdateItem env doc => handle_update_item env doc w
  | GetItem env doc => handle_get_item env doc w
  end.

Definition program (r : Request) : Prog :=
  match r with
  | PutItem env doc => put_program env doc
  | DeleteItem env doc => delete_program env doc
  | UpdateItem env doc => update_program env doc
  | GetItem env doc => get_program env doc
  end.

Lemma program_run r (w : World E) : run (program r) w = handler r w.
Proof. destruct r; [apply put_program_run|apply delete_program_run|apply update_program_run|apply get_program_run]. Qed.

(** The turn of thread [i]. *)
Definition turn (st : list Prog * World E) (i : nat) : list Prog * World E :=
  match st.1 !! i with
  | Some p => match step p st.2 with Some (p', w') => (<[i := p']> st.1, w') | None => st end
  | None => st
  end.

Definition interleave (schedule : list nat) (st : list Prog * World E) : list Prog * World E := fold_left turn schedule st.

Lemma interleave_snoc schedule i st : interleave (schedule ++ [i]) st = turn (interleave schedule st) i.
Proof. apply fold_left_app. Qed.

Lemma interleave_length schedule st : length (interleave schedule st).1 = length st.1.
Proof.
  induction schedule as [|i schedule IH] using rev_ind; [done|]. rewrite interleave_snoc. unfold turn. destruct (_ !! i); [|done].
  destruct (step _ _) as [[p' w']|]; [|done]. cbn. by rewrite length_insert.
Qed.

(** The handlers one after the other, in the given order, with their replies. *)
Fixpoint serial (requests : list Request) (order : list nat) (w : World E) : option (list (nat * ApiResult) * World E) :=
  match order with
  | [] => Some ([], w)
  | i :: order' =>
      match requests !! i with
      | None => None
      | Some r => match handler r w with
                  | None => None
                  | Some (a, w) => option_map (fun x => ((i, a) :: x.1, x.2)) (serial requests order' w)
                  end
      end
  end.

Lemma serial_snoc requests order i r a (w v v' : World E) log : serial requests order w = Some (log, v) -> requests !! i = Some r -> handler r v = Some (a, v') ->
  serial requests (order ++ [i]) w = Some (log ++ [(i, a)], v').
Proof.
  revert w log. induction order as [|j order IH]; cbn; intros w log H Hr Ha.
  - injection H as <- <-. by rewrite Hr, Ha.
  - destruct (requests !! j) as [rj|]; [|done]. destruct (handler rj w) as [[aj wj]|]; [|done].
    destruct (serial requests order wj) as [[l u]|] eqn:Es; [|done]. cbn in H. injection H as <- <-. rewrite (IH wj l Es Hr Ha). done.
Qed.

Lemma serial_log requests order (w v : World E) log : serial requests order w = Some (log, v) -> map fst log = order.
Proof.
  revert w log. induction order as [|j order IH]; cbn; intros w log H; [by injection H as <- <-|].
  destruct (requests !! j) as [rj|]; [|done]. destruct (handler rj w) as [[aj wj]|]; [|done].
  destruct (serial requests order wj) as [[l u]|] eqn:Es; [|done]. cbn in H. injection H as <- <-. cbn. by rewrite (IH _ _ Es).
Qed.

(** ** What a program does after its write *)

(** The rows of the indexes that belong to the item at [pk]. *)
Definition index_place (def : TableDefinition) (pk t k : bytes) : Prop :=
  exists idx item, idx ∈ all_indexes def /\ t = index_table def idx /\ encode_primary_key def item = pk /\ k = encode_index_storage_key idx def item.

(** Only rows of the indexes change, and the engine takes them. *)
Fixpoint tail (def : TableDefinition) (pk : bytes) (p : Prog) : Prop :=
  match p with
  | Return _ | Crash => True
  | Put t k a c => index_place def pk t k /\ se_admits t k a /\ tail def pk c
  | Remove t k c => index_place def pk t k /\ se_names t k /\ tail def pk c
  | Emit _ _ _ _ _ _ _ c => tail def pk c
  | _ => False
  end.

(** The last value it gives to a row. *)
Fixpoint tail_write (p : Prog) (t k : bytes) : option (option AttributeMap) :=
  match p with
  | Put t' k' a c => match tail_write c t k with Some x => Some x | None => if bytes_eqb t' t && bytes_eqb k' k then Some (Some a) else None end
  | Remove t' k' c => match tail_write c t k with Some x => Some x | None => if bytes_eqb t' t && bytes_eqb k' k then Some None else None end
  | Emit _ _ _ _ _ _ _ c => tail_write c t k
  | _ => None
  end.

(** The streams that are on: what decides whether [emit_stream] can read its view type. *)
Definition active (w : World E) : option (list (bytes * bytes)) := option_map Streams.active_stream_arn_by_table_ (streams w).

Definition emits (act : option (list (bytes * bytes))) (def : TableDefinition) : bool :=
  match act with
  | None => true
  | Some m => if Streams.is_stream_enabled def then
                match mget (table_name def) m with None => true | Some _ => bool_decide (is_Some (Streams.view_of def)) end
              else true
  end.

(** Its reply. *)
Fixpoint tail_reply (act : option (list (bytes * bytes))) (p : Prog) : option ApiResult :=
  match p with
  | Return r => Some r
  | Put _ _ _ c | Remove _ _ c => tail_reply act c
  | Emit _ _ def _ _ _ _ c => if emits act def then tail_reply act c else None
  | _ => None
  end.

Lemma emit_active env i def event keys old new (w : World E) :
  match emit_stream env i def event keys old new w with
  | Some w' => emits (active w) def = true /\ active w' = active w /\ tables w' = tables w /\ storage w' = storage w
  | None => emits (active w) def = false
  end.
Proof.
  unfold emit_stream, active, emits. destruct (streams w) as [m|] eqn:Es; cbn; [|by rewrite Es]. destruct (Streams.is_stream_enabled def); [|by rewrite Es].
  unfold Streams.append_record. destruct (mget _ _) as [arn|]; cbn; [|done]. destruct (Streams.view_of def) as [vt|]; cbn; [|done].
  destruct (mget arn _); cbn; done.
Qed.

(** A row of the engine. *)
Definition row (w : World E) (t k : bytes) : option AttributeMap := mget k (se_rows (storage w) t).

Definition place_eqb (t k t' k' : bytes) : bool := bytes_eqb t t' && bytes_eqb k k'.

Lemma row_put (w : World E) t k a t' k' : se_inv (storage w) -> se_admits t k a -> se_names t' [] ->
  row (set_storage w (se_put (storage w) t k a)) t' k' = if place_eqb t k t' k' then Some a else row w t' k'.
Proof.
  intros Hi Ha Hn. unfold row, place_eqb. cbn. rewrite se_put_rows by done. destruct (bytes_eqb_spec t t') as [<-|]; [|done]. cbn.
  rewrite mget_mset. destruct (keqb_spec k' k), (bytes_eqb_spec k k'); congruence.
Qed.

Lemma row_remove (w : World E) t k t' k' : se_inv (storage w) -> se_names t k -> se_names t' [] ->
  row (set_storage w (se_remove (storage w) t k)) t' k' = if place_eqb t k t' k' then None else row w t' k'.
Proof.
  intros Hi Ha Hn. unfold row, place_eqb. cbn. rewrite se_remove_rows by done. destruct (bytes_eqb_spec t t') as [<-|]; [|done]. cbn.
  rewrite mget_mdel. destruct (keqb_spec k' k), (bytes_eqb_spec k k'); congruence.
Qed.

Definition mutated (m : Mutator) (current : option AttributeMap) : option AttributeMap :=
  match m current with MutationNone => current | MutationPut a => Some a | MutationDelete => None end.

Lemma row_mutate (w : World E) t k m t' k' : se_inv (storage w) -> se_names t k -> (forall a, m (row w t k) = MutationPut a -> se_admits t k a) -> se_names t' [] ->
  row (set_storage w (se_mutate (storage w) t k m).1) t' k' = if place_eqb t k t' k' then mutated m (row w t k) else row w t' k'.
Proof.
  intros Hi Ha Hm Hn. unfold row, place_eqb, mutated in *. cbn. rewrite se_mutate_rows by done.
  destruct (bytes_eqb_spec t t') as [<-|]; [|by destruct (m _)]. cbn. destruct (bytes_eqb_spec k k') as [<-|Hk]; destruct (m _);
    rewrite ?mget_mset, ?mget_mdel, ?keqb_refl; try done; by destruct (keqb_spec k' k) as [->|].
Qed.

Lemma place_eqb_spec t k t' k' : place_eqb t k t' k' = true <-> t = t' /\ k = k'.
Proof. unfold place_eqb. destruct (bytes_eqb_spec t t'), (bytes_eqb_spec k k'); naive_solver. Qed.

Lemma index_place_table def pk t k : index_place def pk t k -> owns def t /\ Byte.x1d ∈ t.
Proof. intros (idx & item & Hi & -> & _). split; [right; eauto|apply index_table_sep]. Qed.

(** Any call leaves the catalogue and the active streams. *)
Lemma step_static p (w : World E) p' w' : step p w = Some (p', w') -> tables w' = tables w /\ active w' = active w.
Proof.
  destruct p as [| |name k|t k c|t k a c|t k c|t k m c|env i def ev ks o n c]; cbn; intros H; try done; try (by injection H as <- <-).
  - destruct (se_mutate _ _ _ _). by injection H as <- <-.
  - pose proof (emit_active env i def ev ks o n w) as Hemit. destruct (emit_stream _ _ _ _ _ _ _ _); injection H as <- <-; [|done]. by destruct Hemit as (_ & -> & -> & _).
Qed.

(** A program that will not reply stays one. *)
Lemma tail_doomed def pk p (w : World E) p' w' : tail def pk p -> tail_reply (active w) p = None -> step p w = Some (p', w') ->
  tail def pk p' /\ tail_reply (active w) p' = None.
Proof.
  destruct p as [| |name k|t k c|t k a c|t k c|t k m c|env i d ev ks o n c]; cbn; intros Ht Hr H; try done; try (injection H as <- <-; split; [apply Ht|done]).
  pose proof (emit_active env i d ev ks o n w) as Hemit. destruct (emit_stream _ _ _ _ _ _ _ _); injection H as <- <-; [|done].
  destruct Hemit as [Hemit _]. by rewrite Hemit in Hr.
Qed.

Lemma tail_inv def pk p (w : World E) p' w' : tail def pk p -> se_inv (storage w) -> step p w = Some (p', w') -> se_inv (storage w').
Proof.
  destruct p as [| |name k|t k c|t k a c|t k c|t k m c|env i d ev ks o n c]; cbn; intros Ht Hi H; try done.
  - injection H as <- <-. apply se_put_inv; [done|apply Ht].
  - injection H as <- <-. apply se_remove_inv; [done|apply Ht].
  - pose proof (emit_active env i d ev ks o n w) as Hemit. destruct (emit_stream _ _ _ _ _ _ _ _); injection H as <- <-; [|done]. by destruct Hemit as (_ & _ & _ & ->).
Qed.

(** A call after the write: what is left to do accounts for it. *)
Lemma tail_step def pk p (w : World E) p' w' r : table_ok def -> tail def pk p -> tail_reply (active w) p = Some r -> se_inv (storage w) -> step p w = Some (p', w') ->
  tail def pk p' /\ tail_reply (active w) p' = Some r /\ se_inv (storage w') /\
  forall t k, se_names t [] -> default (row w' t k) (tail_write p' t k) = default (row w t k) (tail_write p t k) /\ (~ index_place def pk t k -> row w' t k = row w t k).
Proof.
  intros Hd. destruct p as [| |name k|t k c|t k a c|t k c|t k m c|env i d ev ks o n c]; cbn; intros Ht Hr Hi H; try done.
  - injection H as <- <-. destruct Ht as (Hp & Ha & Ht). repeat split; try done; [by apply se_put_inv|..]; rewrite row_put by done; fold (place_eqb t k t0 k0).
    + destruct (tail_write c t0 k0); [done|]. by destruct (place_eqb t k t0 k0).
    + intros Hno. destruct (place_eqb t k t0 k0) eqn:Ep; [|done]. apply place_eqb_spec in Ep as [<- <-]. done.
  - injection H as <- <-. destruct Ht as (Hp & Ha & Ht). repeat split; try done; [by apply se_remove_inv|..]; rewrite row_remove by done; fold (place_eqb t k t0 k0).
    + destruct (tail_write c t0 k0); [done|]. by destruct (place_eqb t k t0 k0).
    + intros Hno. destruct (place_eqb t k t0 k0) eqn:Ep; [|done]. apply place_eqb_spec in Ep as [<- <-]. done.
  - pose proof (emit_active env i d ev ks o n w) as Hemit. destruct (emits _ _) eqn:Ee; [|done].
    destruct (emit_stream _ _ _ _ _ _ _ _) as [w1|]; [|done]. injection H as <- <-. destruct Hemit as (_ & _ & _ & Hs). unfold row. rewrite Hs. done.
Qed.

Lemma tail_write_step def pk p (w : World E) p' w' r t k x : tail def pk p -> tail_reply (active w) p = Some r -> step p w = Some (p', w') ->
  tail_write p' t k = Some x -> tail_write p t k = Some x.
Proof.
  destruct p as [| |name c|t' k' c|t' k' a c|t' k' c|t' k' m c|env i d ev ks o n c]; cbn; intros Ht Hr H Hx; try done; try (injection H as <- <-; by rewrite Hx).
  destruct (emit_stream _ _ _ _ _ _ _ _); by injection H as <- <-.
Qed.

(** The rest of a program run to its end. *)
Definition tail_runs (p : Prog) (w : World E) : Prop :=
  match tail_reply (active w) p with
  | Some r => exists w', run p w = Some (r, w') /\ se_inv (storage w') /\ tables w' = tables w /\ active w' = active w /\
                forall t k, se_names t [] -> row w' t k = default (row w t k) (tail_write p t k)
  | None => run p w = None
  end.

Lemma tail_next def pk p p' (w w' : World E) : table_ok def -> step p w = Some (p', w') -> tail def pk p -> se_inv (storage w) ->
  (forall w, tail def pk p' -> se_inv (storage w) -> tail_runs p' w) -> tail_runs p w.
Proof.
  intros Hd Es Ht Hi IH. unfold tail_runs in *. rewrite (step_run _ _ _ _ Es). pose proof (step_static _ _ _ _ Es) as [Hts Has].
  destruct (tail_reply (active w) p) as [r|] eqn:Er.
  - destruct (tail_step _ _ _ _ _ _ _ Hd Ht Er Hi Es) as (Ht' & Hr' & Hi' & Hw). specialize (IH w' Ht' Hi'). rewrite Has, Hr' in IH.
    destruct IH as (w2 & H2 & Hi2 & Ht2 & Ha2 & Hw2). exists w2. repeat split; try congruence. intros t k Hn. rewrite Hw2 by done. by apply Hw.
  - destruct (tail_doomed _ _ _ _ _ _ Ht Er Es) as (Ht' & Hr'). specialize (IH w' Ht' (tail_inv _ _ _ _ _ _ Ht Hi Es)). by rewrite Has, Hr' in IH.
Qed.

Lemma tail_run def pk p (w : World E) : table_ok def -> tail def pk p -> se_inv (storage w) -> tail_runs p w.
Proof.
  intros Hd. revert w.
  induction p as [r| |name c IH|t k c IH|t k a c IH|t k c IH|t k m c IH|env i d ev ks o n c IH]; intros w Ht Hi; try done;
    [by exists w|by eapply tail_next; [done..|exact IH]|by eapply tail_next; [done..|exact IH]|].
  pose proof (emit_active env i d ev ks o n w) as Hemit. destruct (emit_stream env i d ev ks o n w) as [w1|] eqn:Ee; [|unfold tail_runs; cbn; by rewrite Hemit, Ee].
  eapply tail_next; [done|cbn; by rewrite Ee|done..|exact IH].
Qed.

Lemma tail_write_place def pk p t k x : tail def pk p -> tail_write p t k = Some x -> index_place def pk t k.
Proof.
  induction p as [r| |name c IH|t' k' c IH|t' k' a c IH|t' k' c IH|t' k' m c IH|env i d ev ks o n c IH]; cbn; intros Ht H; try done; [..|by apply IH];
    (destruct (tail_write c t k) as [y|]; [apply IH; [apply Ht|done]|]); fold (place_eqb t' k' t k) in H; (destruct (place_eqb t' k' t k) eqn:Ep; [|done]);
    apply place_eqb_spec in Ep as [<- <-]; apply Ht.
Qed.

(** ** What a program does up to its write *)

(** A row of the table that is there. *)
Definition fits (def : TableDefinition) (pk : bytes) (current : option AttributeMap) : Prop :=
  forall o, current = Some o -> storable def o /\ pk = encode_primary_key def o.

(** It looks at the catalogue [tabs] and makes at most one read or read-modify-write; after a
    read it replies. *)
Fixpoint pre (tabs : list (bytes * TableDefinition)) (p : Prog) : Prop :=
  match p with
  | Return _ | Crash => True
  | Lookup name k => pre tabs (k (mget name tabs))
  | Mutate t pk m c =>
      exists def, mget t tabs = Some def /\ se_names t pk /\
        forall current, fits def pk current -> (forall a, m current = MutationPut a -> writable def pk (Some a)) /\ tail def pk (c current)
  | Get t pk c => exists def, mget t tabs = Some def /\ se_names t pk /\ forall current, c current = Crash \/ exists a, c current = Return a
  | _ => False
  end.

(** The item it writes. *)
Fixpoint target (tabs : list (bytes * TableDefinition)) (p : Prog) : option (bytes * bytes) :=
  match p with
  | Lookup name k => target tabs (k (mget name tabs))
  | Mutate t pk _ _ => Some (t, pk)
  | _ => None
  end.

Lemma maintain_tail def pk old new c : table_ok def -> fits def pk old -> (forall n, new = Some n -> storable def n /\ pk = encode_primary_key def n) -> tail def pk c ->
  tail def pk (maintain_program def old new c).
Proof.
  intros Hd Hold Hnew Hc. unfold maintain_program. assert (Hall : forall idx, idx ∈ all_indexes def -> idx ∈ all_indexes def) by done.
  revert Hall. generalize (all_indexes def) at 1 3 as idxs. induction idxs as [|idx idxs IH]; intros Hall; [done|]. cbn [fold_right].
  assert (Hidx : idx ∈ all_indexes def) by (apply Hall; by left). assert (Hrest : forall i, i ∈ idxs -> i ∈ all_indexes def) by (intros i ?; apply Hall; by right). specialize (IH Hrest).
  unfold maintain_index_program.
  assert (Hput : tail def pk (match new with
    | Some n => match project_for_index n idx def with
                | Some proj => Put (index_storage_table (table_name def) (index_name idx)) (encode_index_storage_key idx def n) proj (fold_right (maintain_index_program def old new) c idxs)
                | None => fold_right (maintain_index_program def old new) c idxs end
    | None => fold_right (maintain_index_program def old new) c idxs end)).
  { destruct new as [n|]; [|done]. destruct (project_for_index n idx def) as [proj|] eqn:Ep; [|done]. destruct (Hnew n eq_refl) as [[_ Hs] ->].
    split; [by exists idx, n|]. split; [by apply Hs|done]. }
  destruct old as [o|]; [|done]. destruct (project_for_index o idx def) as [proj|] eqn:Ep; [|done]. destruct (Hold o eq_refl) as [[_ Hs] ->].
  split; [by exists idx, o|]. split; [by eapply se_admits_names, Hs|done].
Qed.

Definition catalogue (w : World E) : list (bytes * TableDefinition) := Tables.tables_ (tables w).

(** As [update_ok], for whatever row the update finds. *)
Definition update_safe (doc : Json) (w : World E) : Prop := key_ok doc w /\ forall name def key_map c current item,
  get_string_at doc "TableName" = Some name -> find_table w name = Some def -> read_key def doc = Ok key_map -> read_condition doc = Some c ->
  fits def (encode_primary_key def key_map) current -> updated_item (get_string_at doc "UpdateExpression") c key_map current = Some (Ok item) ->
  storable def item /\ encode_primary_key def key_map = encode_primary_key def item.

(** A read that finds nothing expired, from a table without time to live. *)
Definition read_safe (env : Env) (doc : Json) (w : World E) : Prop := separate_projection doc = true /\ key_ok doc w /\ forall name def item,
  get_string_at doc "TableName" = Some name -> find_table w name = Some def -> item_is_expired (now_epoch_seconds env) def item = false.

Definition request_ok (w : World E) (r : Request) : Prop :=
  match r with PutItem _ doc => put_ok doc w | DeleteItem _ doc => key_ok doc w | UpdateItem _ doc => update_safe doc w | GetItem env doc => read_safe env doc w end.

Lemma synced_fits (w : World E) t def pk : synced w -> mget t (catalogue w) = Some def -> fits def pk (row w t pk).
Proof. intros Hw Hm o Ho. split; [by eapply (c_storable _ _ Hw)|by eapply (c_keyed _ _ Hw)]. Qed.

Lemma find_same (w v : World E) name : tables v = tables w -> find_table v name = find_table w name.
Proof. unfold find_table. by intros ->. Qed.

Lemma handler_synced r (w v v' : World E) a : tables v = tables w -> synced v -> request_ok w r -> handler r v = Some (a, v') -> synced v'.
Proof.
  intros Ht Hv Hok H. destruct r as [env doc|env doc|env doc|env doc]; cbn in *.
  - eapply put_synced; [done| |done]. intros name def el item Hn Hf. rewrite (find_same w v) in Hf by done. exact (Hok name def el item Hn Hf).
  - eapply delete_synced; [done| |done]. intros name def km Hn Hf. rewrite (find_same w v) in Hf by done. exact (Hok name def km Hn Hf).
  - eapply update_synced; [done| |done]. destruct Hok as [Hk Hu]. split.
    + intros name def km Hn Hf. rewrite (find_same w v) in Hf by done. exact (Hk name def km Hn Hf).
    + intros name def km c item Hn Hf Hr Hc Hup. pose proof Hf as Hf'. rewrite (find_same w v) in Hf' by done. eapply Hu; try done.
      apply (synced_fits v name def); [done|]. unfold catalogue. by rewrite <- find_table_get.
  - destruct Hok as (Hsep & Hk & Hex). eapply get_synced; [done| |done]. split; [done|]. split.
    + intros name def km Hn Hf. rewrite (find_same w v) in Hf by done. exact (Hk name def km Hn Hf).
    + intros name def km item Hn Hf _ _ He. rewrite (find_same w v) in Hf by done. by rewrite (Hex _ _ item Hn Hf) in He.
Qed.

Lemma respond_tail def pk r : tail def pk (respond r).
Proof. by destruct r. Qed.

Lemma put_pre env doc (w : World E) : synced w -> put_ok doc w -> pre (catalogue w) (put_program env doc).
Proof.
  intros Hw Hok. unfold put_program. destruct (get_string_at doc "TableName") as [name|] eqn:En; [|done]. cbn [pre]. unfold catalogue. rewrite <- find_table_get.
  destruct (find_table w name) as [def|] eqn:Ef; [|done]. destruct (at_key doc "Item") as [el|] eqn:Ei; [|done].
  destruct (parse_attribute_map el) as [item|] eqn:Ep; [|done]. destruct (negb _); [done|]. destruct (validate_item_standard _ _); [|done].
  destruct (read_condition doc) as [c|]; [|done]. destruct (synced_found w name def Hw Ef) as (-> & Hd & Hm). pose proof (Hok _ _ _ _ En Ef Ei Ep) as Hs.
  exists def. split; [done|]. split; [by eapply se_admits_names, Hs|]. intros cur Hcur. split.
  - intros a Ha. destruct (check_condition c cur); try done. injection Ha as <-. by apply storable_writable.
  - destruct (check_condition c cur); [|done..]. apply maintain_tail; [done..|by intros n [= <-]|]. cbn. destruct cur; [|done]. destruct (bytes_eqb _ _); [apply respond_tail|done].
Qed.

Lemma delete_pre env doc (w : World E) : synced w -> key_ok doc w -> pre (catalogue w) (delete_program env doc).
Proof.
  intros Hw Hok. unfold delete_program. destruct (get_string_at doc "TableName") as [name|] eqn:En; [|done]. cbn [pre]. unfold catalogue. rewrite <- find_table_get.
  destruct (find_table w name) as [def|] eqn:Ef; [|done]. destruct (read_key def doc) as [km|] eqn:Ek; [|done].
  destruct (read_condition doc) as [c|]; [|done]. destruct (synced_found w name def Hw Ef) as (-> & Hd & Hm).
  exists def. split; [done|]. split; [by eapply Hok|]. intros cur Hcur. split.
  - intros a Ha. by destruct (check_condition c cur).
  - destruct (check_condition c cur); [|done..]. destruct cur as [o|]; [|done]. apply maintain_tail; [done..|]. cbn. destruct (bytes_eqb _ _); [apply respond_tail|done].
Qed.

Lemma update_pre env doc (w : World E) : synced w -> update_safe doc w -> pre (catalogue w) (update_program env doc).
Proof.
  intros Hw [Hok Hup]. unfold update_program. destruct (get_string_at doc "TableName") as [name|] eqn:En; [|done]. cbn [pre]. unfold catalogue. rewrite <- find_table_get.
  destruct (find_table w name) as [def|] eqn:Ef; [|done]. destruct (read_key def doc) as [km|] eqn:Ek; [|done]. cbn zeta.
  destruct (read_condition doc) as [c|] eqn:Ec; [|done]. pose proof (Hup name def km c) as Hup'. destruct (synced_found w name def Hw Ef) as (-> & Hd & Hm).
  exists def. split; [done|]. split; [by eapply Hok|]. intros cur Hcur.
  assert (Hnew : forall n, updated_item (get_string_at doc "UpdateExpression") c km cur = Some (Ok n) -> storable def n /\ encode_primary_key def km = encode_primary_key def n) by (intros n Hn; by eapply Hup').
  split.
  - intros a Ha. destruct (check_condition c cur); try done. destruct (updated_item _ _ _ _) as [[n|]|]; try done. injection Ha as <-.
    destruct (Hnew n eq_refl) as [Hs ->]. by apply storable_writable.
  - destruct (check_condition c cur); [|done..]. destruct (updated_item _ _ _ _) as [[n|]|]; [|done..].
    apply maintain_tail; [done..|by intros ? [= <-]; apply Hnew|]. apply respond_tail.
Qed.

Lemma get_pre env doc (w : World E) : synced w -> read_safe env doc w -> pre (catalogue w) (get_program env doc).
Proof.
  intros Hw (_ & Hok & Hex). unfold get_program. destruct (get_string_at doc "TableName") as [name|] eqn:En; [|done]. cbn [pre]. unfold catalogue. rewrite <- find_table_get.
  destruct (find_table w name) as [def|] eqn:Ef; [|done]. destruct (read_key def doc) as [km|] eqn:Ek; [|done]. cbn zeta. cbn [pre].
  exists def. split; [by rewrite <- find_table_get|]. split; [by eapply Hok|]. intros [item|]; [|eauto]. rewrite (Hex _ _ item eq_refl Ef).
  destruct (get_string_at doc "ProjectionExpression"); [destruct (apply_projection _ _ _) as [x []]; [eauto|]|]; unfold respond; destruct (item_reply _); eauto.
Qed.

Lemma program_pre r (w : World E) : synced w -> request_ok w r -> pre (catalogue w) (program r).
Proof. intros Hw Hr. destruct r; [by apply put_pre|by apply delete_pre|by apply update_pre|by apply get_pre]. Qed.

(** ** The order of the writes *)

Section Simulation.
Context (requests : list Request) (w0 : World E) (Hw0 : synced w0) (Hok : Forall (request_ok w0) requests).

Let tabs := catalogue w0.

Definition target_of (r : Request) : option (bytes * bytes) := target (catalogue w0) (program r).

(** A thread that has not written. *)
Definition fresh (r : Request) (p : Prog) : Prop :=
  pre (catalogue w0) p /\ target (catalogue w0) p = target_of r /\ (forall v : World E, tables v = tables w0 -> run p v = handler r v) /\ forall a, p = Return a <-> program r = Return a.

(** A thread that has, or has read, and will reply [a]. *)
Definition after_write (r : Request) (a : ApiResult) (p : Prog) : Prop :=
  p = Return a \/ exists t pk def, target_of r = Some (t, pk) /\ mget t (catalogue w0) = Some def /\ tail def pk p /\ tail_reply (active w0) p = Some a.

(** A request that has calls to make; the others are refused for what their text says. *)
Definition calls (r : Request) : Prop := forall a, program r <> Return a.

(** The rows of the indexes that belong to the item of a request. *)
Definition mine (r : Request) (t k : bytes) : Prop :=
  exists tt pk def, target_of r = Some (tt, pk) /\ mget tt (catalogue w0) = Some def /\ index_place def pk t k.

(** No two requests address one item. *)
Definition distinct_items : Prop := forall i j ri rj x, requests !! i = Some ri -> requests !! j = Some rj -> target_of ri = Some x -> target_of rj = Some x -> i = j.

(** The threads [ps] in the world [w] against the serial execution of the threads in
    [log], which leads to [v]. *)
Record linked (ps : list Prog) (w : World E) (log : list (nat * ApiResult)) (v : World E) : Prop := {
  l_serial : serial requests (map fst log) w0 = Some (log, v);
  l_nodup : NoDup (map fst log);
  l_synced : synced v;
  l_inv : se_inv (storage w);
  l_tables : tables w = tables w0 /\ tables v = tables w0;
  l_active : active w = active w0 /\ active v = active w0;
  l_length : length ps = length requests;
  l_threads : forall i p r, ps !! i = Some p -> requests !! i = Some r -> (i ∉ map fst log /\ fresh r p) \/ (exists a, (i, a) ∈ log /\ after_write r a p /\ calls r);
  l_base : forall t k, Byte.x1d ∉ t -> se_names t [] -> row w t k = row v t k;
  l_mine : distinct_items -> forall i p t k x, ps !! i = Some p -> i ∈ map fst log -> tail_write p t k = Some x -> row v t k = x;
  l_rest : distinct_items -> forall t k, se_names t [] -> (forall i p, ps !! i = Some p -> i ∈ map fst log -> tail_write p t k = None) -> row v t k = row w t k
}.

Lemma found_ok t def : mget t tabs = Some def -> t = table_name def /\ table_ok def.
Proof. apply (c_def _ _ Hw0). Qed.

Lemma index_of_name def i1 i2 : table_ok def -> i1 ∈ all_indexes def -> i2 ∈ all_indexes def -> index_name i1 = index_name i2 -> i1 = i2.
Proof.
  intros Hd [n1 H1]%list_elem_of_lookup [n2 H2]%list_elem_of_lookup He. pose proof (ok_distinct def Hd) as Hn.
  assert (n1 = n2) as ->; [|congruence]. eapply NoDup_lookup; [exact Hn|apply list_lookup_fmap_Some; eauto..].
Qed.

Lemma mine_disjoint r1 r2 t k : mine r1 t k -> mine r2 t k -> exists x, target_of r1 = Some x /\ target_of r2 = Some x.
Proof.
  intros (t1 & k1 & d1 & H1 & M1 & P1) (t2 & k2 & d2 & H2 & M2 & P2). destruct (found_ok _ _ M1) as [-> D1], (found_ok _ _ M2) as [-> D2].
  destruct P1 as (i1 & o1 & I1 & -> & <- & ->), P2 as (i2 & o2 & I2 & Et & <- & Ek).
  apply index_table_inj in Et as [Et En]; [|by apply ok_name..]. rewrite Et in M1. assert (d1 = d2) as -> by congruence.
  assert (i1 = i2) as -> by by eapply index_of_name. apply index_key_primary in Ek. rewrite Ek in H1. eauto.
Qed.

Lemma linked_start : linked (map program requests) w0 [] w0.
Proof.
  split; cbn; try done.
  - constructor.
  - apply (c_inv _ _ Hw0).
  - by rewrite length_map.
  - intros i p r Hp Hr. left. split; [set_solver|]. rewrite list_lookup_fmap, Hr in Hp. injection Hp as <-.
    split; [apply program_pre; [done|by eapply (proj1 (Forall_lookup _ _) Hok)]|]. split; [done|]. split; [|done]. intros v _. apply program_run.
  - intros _ i p t k x _ H. set_solver.
Qed.

(** A thread that will crash. *)
Definition doomed (ps : list Prog) (w : World E) : Prop := exists i p def pk, ps !! i = Some p /\ tail def pk p /\ tail_reply (active w) p = None.

Lemma doomed_turn ps w i : doomed ps w -> doomed (turn (ps, w) i).1 (turn (ps, w) i).2.
Proof.
  intros (j & p & def & pk & Hp & Ht & Hr). unfold turn. cbn [fst snd]. destruct (ps !! i) as [q|] eqn:Eq; [|exists j, p, def, pk; done].
  destruct (step q w) as [[q' w']|] eqn:Es; [|exists j, p, def, pk; done]. cbn [fst snd]. destruct (step_static _ _ _ _ Es) as [_ Ha]. unfold doomed. rewrite Ha.
  destruct (decide (i = j)) as [->|Hne].
  - assert (p = q) as -> by congruence. destruct (tail_doomed _ _ _ _ _ _ Ht Hr Es) as [Ht' Hr'].
    exists j, q', def, pk. split; [|done]. apply list_lookup_insert_eq. by eapply lookup_lt_Some.
  - exists j, p, def, pk. by rewrite list_lookup_insert_ne.
Qed.

(** A thread that replies, having changed nothing. *)
Lemma reply_linked ps w log v i r a : linked ps w log v -> requests !! i = Some r -> i ∉ map fst log -> (i < length ps)%nat -> calls r -> handler r v = Some (a, v) ->
  linked (<[i := Return a]> ps) w (log ++ [(i, a)]) v.
Proof.
  intros [Hs Hn Hv Hi Ht Hac Hl Hth Hb Hm Hr] Hri Hnot Hlen Hcalls Hh.
  assert (Hlog : forall j, j ∈ map fst (log ++ [(i, a)]) <-> j ∈ map fst log \/ j = i) by (intros j; rewrite map_app; cbn; set_solver).
  split; try done; [|..].
  - rewrite map_app. by eapply serial_snoc.
  - rewrite map_app. apply NoDup_app. split; [done|]. split; [|apply NoDup_singleton]. intros x Hx ->%list_elem_of_singleton. done.
  - by rewrite length_insert.
  - intros j q rj [(<- & <- & _)|[Hne Hq]]%list_lookup_insert_Some Hrj; [right; exists a; assert (rj = r) as -> by congruence; split; [set_solver|by split; [left|]]|].
    rewrite Hlog. destruct (Hth j q rj Hq Hrj) as [[Hj Hf]|(b & Hj & Hf)]; [left; split; [naive_solver|done]|right; exists b; set_solver].
  - intros Hdi j q t k x [(<- & <- & _)|[Hne Hq]]%list_lookup_insert_Some Hj Hx; [done|]. eapply Hm; try done. apply Hlog in Hj as [|]; [done|congruence].
  - intros Hdi t k Hnt Hno. apply Hr; [done..|]. intros j q Hq Hj. apply (Hno j); [|set_solver]. rewrite list_lookup_insert_ne; [done|]. by intros <-.
Qed.

Lemma fresh_calls r p : fresh r p -> (forall a, p <> Return a) -> calls r.
Proof. intros (_ & _ & _ & H) Hp a Ha. by apply (Hp a), H. Qed.

(** What the turn of thread [i] may add to the log. *)
Definition logged_by (i : nat) (log : list (nat * ApiResult)) : Prop := forall j, j ∈ map fst log -> j = i.

Lemma logged_one i a : logged_by i [(i, a)].
Proof. intros j. cbn. set_solver. Qed.

Lemma returns_or_not (p : Prog) : (exists a, p = Return a) \/ forall a, p <> Return a.
Proof. destruct p; [left; eauto|right..]; done. Qed.

(** A look at the catalogue. *)
Lemma lookup_linked ps w log v i r name k : linked ps w log v -> ps !! i = Some (Lookup name k) -> requests !! i = Some r -> i ∉ map fst log -> fresh r (Lookup name k) ->
  exists log', linked (<[i := k (find_table w name)]> ps) w (log ++ log') v /\ logged_by i log'.
Proof.
  intros HL Hp Hri Hnot Hfresh. pose proof (fresh_calls _ _ Hfresh ltac:(done)) as Hcalls. destruct Hfresh as (Hpre & Htg & Hrun & _).
  destruct (l_tables _ _ _ _ HL) as [Htw Htv].
  assert (Hf : forall u, tables u = tables w0 -> find_table u name = mget name (catalogue w0)) by (intros u Hu; rewrite (find_same w0 u) by done; apply find_table_get).
  destruct (returns_or_not (k (find_table w name))) as [[a Ha]|Hno].
  - exists [(i, a)]. split; [|apply logged_one]. rewrite Ha. apply (reply_linked _ _ _ _ _ r); try done; [by eapply lookup_lt_Some|].
    rewrite <- (Hrun v Htv). cbn [run]. by rewrite (Hf v Htv), <- (Hf w Htw), Ha.
  - exists []. rewrite app_nil_r. split; [|by intros j ?%not_elem_of_nil]. destruct HL as [Hs Hn Hv Hi _ Ha Hl Hth Hb Hm Hr].
    split; try done; [by rewrite length_insert| | |].
    + intros j q rj [(<- & <- & _)|[Hne Hq]]%list_lookup_insert_Some Hrj; [|by apply Hth]. left. split; [done|]. assert (rj = r) as -> by congruence.
      split; [by rewrite Hf|]. split; [by rewrite Hf|]. split; [|by intros a; split; intros Hx; [destruct (Hno a)|destruct (Hcalls a)]].
      intros u Hu. rewrite <- (Hrun u Hu). cbn [run]. by rewrite !Hf.
    + intros Hd j q t key x [(<- & <- & _)|[Hne Hq]]%list_lookup_insert_Some Hin; [done|]. by eapply Hm.
    + intros Hd t key Hnm Hno'. apply Hr; [done..|]. intros j q Hq Hj. apply (Hno' j); [|done]. rewrite list_lookup_insert_ne; [done|]. by intros <-.
Qed.

(** A call after the write. *)
Lemma tail_linked ps w log v i r a p p' w' : linked ps w log v -> ps !! i = Some p -> requests !! i = Some r -> (i, a) ∈ log -> after_write r a p -> calls r -> step p w = Some (p', w') ->
  linked (<[i := p']> ps) w' log v.
Proof.
  intros [Hs Hn Hv Hi [Htw Htv] [Haw Hav] Hl Hth Hb Hm Hr] Hp Hri Hin [->|(t & pk & def & Htg & Hdef & Htail & Hrep)] Hcalls Es; [done|].
  destruct (found_ok _ _ Hdef) as [-> Hd]. destruct (step_static _ _ _ _ Es) as [Hts Has]. rewrite <- Haw in Hrep.
  destruct (tail_step _ _ _ _ _ _ _ Hd Htail Hrep Hi Es) as (Ht' & Hr' & Hi' & Hw). rewrite Haw in Hr'.
  assert (Hlog : i ∈ map fst log) by (apply list_elem_of_fmap; by exists (i, a)).
  split; try done; [split; congruence|split; congruence|by rewrite length_insert|..].
  - intros j q rj [(<- & <- & _)|[Hne Hq]]%list_lookup_insert_Some Hrj; [|by apply Hth]. assert (rj = r) as -> by congruence. right. exists a. split; [done|]. split; [|done]. right. exists (table_name def), pk, def. done.
  - intros t k Ht Hnm. destruct (Hw t k Hnm) as [_ Hsame]. rewrite Hsame; [by apply Hb|]. intros [_ Hsep]%index_place_table. done.
  - intros Hdi j q t k x [(<- & <- & _)|[Hne Hq]]%list_lookup_insert_Some Hj Hx; [|by eapply Hm]. eapply Hm; [done..|]. by eapply tail_write_step.
  - intros Hdi t k Hnm Hno. pose proof (proj1 (Hw t k Hnm)) as Hdef'. rewrite (Hno i p') in Hdef'; [|apply list_lookup_insert_eq; by eapply lookup_lt_Some|done]. cbn in Hdef'. rewrite Hdef'.
    destruct (tail_write p t k) as [x|] eqn:Ew; [by eapply Hm|]. apply Hr; [done..|]. intros j q Hq Hj. destruct (decide (j = i)) as [->|Hne]; [congruence|].
    apply (Hno j); [|done]. by rewrite list_lookup_insert_ne.
Qed.

(** The read-modify-write itself. *)
Lemma mutate_step (w : World E) t pk m c : se_inv (storage w) -> se_names t pk -> (forall a, m (row w t pk) = MutationPut a -> se_admits t pk a) ->
  step (Mutate t pk m c) w = Some (c (row w t pk), set_storage w (se_mutate (storage w) t pk m).1) /\ se_inv (storage (set_storage w (se_mutate (storage w) t pk m).1)).
Proof.
  intros Hi Hn Ha. split; [|by apply se_mutate_inv]. unfold step. pose proof (se_mutate_outcome (storage w) t pk m Hi Hn Ha) as Ho.
  destruct (se_mutate (storage w) t pk m) as [s o]. cbn [fst snd] in *. by rewrite Ho.
Qed.

(** The serial execution takes the whole request, the threads its write. *)
Lemma write_linked ps w log v i r a p' w' v1 v2 def pk m : linked ps w log v -> requests !! i = Some r -> i ∉ map fst log -> (i < length ps)%nat -> calls r ->
  target_of r = Some (table_name def, pk) -> mget (table_name def) tabs = Some def -> tail def pk p' -> tail_reply (active w0) p' = Some a ->
  handler r v = Some (a, v2) -> tables w' = tables w -> active w' = active w -> tables v2 = tables v -> active v2 = active v -> se_inv (storage w') ->
  (forall t k, se_names t [] -> row w' t k = if place_eqb (table_name def) pk t k then m else row w t k) ->
  (forall t k, se_names t [] -> row v1 t k = if place_eqb (table_name def) pk t k then m else row v t k) ->
  (forall t k, se_names t [] -> row v2 t k = default (row v1 t k) (tail_write p' t k)) ->
  linked (<[i := p']> ps) w' (log ++ [(i, a)]) v2.
Proof.
  intros [Hs Hn Hv Hi [Htw Htv] [Haw Hav] Hl Hth Hb Hm Hr] Hri Hnot Hlen Hcalls Htg Hdef Htail Hrep Hh Hw1 Hw2 Hv1 Hv2 Hi' Hrw Hrv Hrv2.
  destruct (found_ok _ _ Hdef) as [_ Hd].
  assert (Hlog : forall j, j ∈ map fst (log ++ [(i, a)]) <-> j ∈ map fst log \/ j = i) by (intros j; rewrite map_app; cbn; set_solver).
  split; try done.
  - rewrite map_app. by eapply serial_snoc.
  - rewrite map_app. apply NoDup_app. split; [done|]. split; [|apply NoDup_singleton]. intros x Hx ->%list_elem_of_singleton. done.
  - eapply handler_synced; [exact Htv|done| |exact Hh]. by eapply (proj1 (Forall_lookup _ _) Hok).
  - split; congruence.
  - split; congruence.
  - by rewrite length_insert.
  - intros j q rj [(<- & <- & _)|[Hne Hq]]%list_lookup_insert_Some Hrj.
    + right. exists a. split; [set_solver|]. assert (rj = r) as -> by congruence. split; [|done]. right. exists (table_name def), pk, def. done.
    + rewrite Hlog. destruct (Hth j q rj Hq Hrj) as [[Hj Hf]|(b & Hj & Hf)]; [left; split; [naive_solver|done]|right; exists b; set_solver].
  - intros t k Ht Hnm. rewrite Hrw, Hrv2, Hrv by done. destruct (tail_write p' t k) as [x|] eqn:Ew; [|cbn; by destruct (place_eqb _ _ _ _); [|apply Hb]].
    apply (tail_write_place def pk) in Ew; [|done]. by destruct (index_place_table _ _ _ _ Ew).
  - intros Hdi j q t k x [(<- & <- & _)|[Hne Hq]]%list_lookup_insert_Some Hj Hx.
    + assert (Hnm : se_names t []) by (apply (ok_nameable def Hd); eapply index_place_table, tail_write_place; done). by rewrite Hrv2, Hx.
    + assert (Hjl : j ∈ map fst log) by (apply Hlog in Hj as [|]; [done|congruence]). rewrite <- (Hm Hdi j q t k x Hq Hjl Hx).
      destruct (lookup_lt_is_Some_2 requests j) as [rj Hrj]; [rewrite <- Hl; by eapply lookup_lt_Some|].
      destruct (Hth j q rj Hq Hrj) as [[Hno _]|(b & _ & [->|(tj & pkj & dj & Htj & Hdj & Htlj & _)] & _)]; [done..|].
      pose proof (tail_write_place _ _ _ _ _ _ Htlj Hx) as Hpl. destruct (found_ok _ _ Hdj) as [_ Hokj], (index_place_table _ _ _ _ Hpl) as [Hown Hsep].
      rewrite Hrv2, Hrv by (by apply (ok_nameable dj Hokj)). destruct (tail_write p' t k) as [y|] eqn:Ey.
      * exfalso. apply (tail_write_place def pk) in Ey; [|done]. destruct (mine_disjoint r rj t k) as (z & Hz1 & Hz2); [by exists (table_name def), pk, def|by exists tj, pkj, dj|].
        apply Hne. by eapply Hdi.
      * cbn. destruct (place_eqb _ _ _ _) eqn:Epl; [|done]. apply place_eqb_spec in Epl as [<- _]. by destruct (ok_name def Hd).
  - intros Hdi t k Hnm Hno. rewrite Hrv2, Hrv, Hrw by done. rewrite (Hno i p'); [|by apply list_lookup_insert_eq|set_solver]. cbn. destruct (place_eqb _ _ _ _); [done|].
    apply Hr; [done..|]. intros j q Hq Hj. apply (Hno j); [|set_solver]. rewrite list_lookup_insert_ne; [done|]. by intros <-.
Qed.

(** The turn of a thread that writes. *)
Lemma mutate_linked ps w log v i r t pk m c : linked ps w log v -> ps !! i = Some (Mutate t pk m c) -> requests !! i = Some r -> i ∉ map fst log -> fresh r (Mutate t pk m c) ->
  exists p' w', step (Mutate t pk m c) w = Some (p', w') /\ (doomed (<[i := p']> ps) w' \/ exists a v', linked (<[i := p']> ps) w' (log ++ [(i, a)]) v').
Proof.
  intros HL Hp Hri Hnot Hfresh. pose proof (fresh_calls _ _ Hfresh ltac:(done)) as Hcalls. destruct Hfresh as ((def & Hdef & Hnm & Hc) & Htg & Hrun & _). destruct (found_ok _ _ Hdef) as [-> Hd].
  destruct (l_tables _ _ _ _ HL) as [_ Htv], (l_active _ _ _ _ HL) as [Haw Hav]. pose proof (l_synced _ _ _ _ HL) as Hv.
  assert (Hrow : row w (table_name def) pk = row v (table_name def) pk) by (apply (l_base _ _ _ _ HL); [apply Hd|apply (ok_nameable def Hd); by left]).
  assert (Hfit : fits def pk (row v (table_name def) pk)) by (apply synced_fits; [done|unfold catalogue; rewrite Htv; exact Hdef]).
  destruct (Hc _ Hfit) as [Hput Htail].
  assert (Hadm : forall a, m (row v (table_name def) pk) = MutationPut a -> se_admits (table_name def) pk a).
  { intros a Ha. destruct (Hput a Ha) as [_ Hwr]. destruct (Hwr a eq_refl) as [[H _] ->]. exact H. }
  pose proof (c_inv _ _ Hv) as Hiv. pose proof (l_inv _ _ _ _ HL) as Hiw.
  destruct (mutate_step v (table_name def) pk m c Hiv Hnm Hadm) as [Sv Iv]. rewrite <- Hrow in Hadm. destruct (mutate_step w (table_name def) pk m c Hiw Hnm Hadm) as [Sw Iw].
  eexists _, _. split; [exact Sw|]. rewrite Hrow. set (p' := c (row v (table_name def) pk)) in *. set (v1 := set_storage v _) in *. set (w' := set_storage w _) in *.
  pose proof (tail_run def pk p' v1 Hd Htail Iv) as Ht. unfold tail_runs in Ht. replace (active v1) with (active w0) in Ht by (symmetry; exact Hav).
  assert (Hlen : (i < length ps)%nat) by by eapply lookup_lt_Some. destruct (tail_reply (active w0) p') as [a|] eqn:Er.
  2: { left. exists i, p', def, pk. split; [by apply list_lookup_insert_eq|]. split; [done|]. rewrite <- Er. by rewrite <- Haw. }
  right. destruct Ht as (v2 & H2 & Hi2 & Ht2 & Ha2 & Hw2). exists a, v2.
  apply (write_linked ps w log v i r a p' w' v1 v2 def pk (mutated m (row w (table_name def) pk))); try done.
  - rewrite <- (Hrun v Htv), (step_run _ _ _ _ Sv). exact H2.
  - rewrite Ha2. done.
  - intros t k Hn. by apply row_mutate.
  - intros t k Hn. rewrite Hrow in *. by apply row_mutate.
Qed.

(** The turn of a thread that reads. *)
Lemma get_linked ps w log v i r t pk c : linked ps w log v -> ps !! i = Some (Get t pk c) -> requests !! i = Some r -> i ∉ map fst log -> fresh r (Get t pk c) ->
  let p' := c (se_get (storage w) t pk) in doomed (<[i := p']> ps) w \/ exists a, linked (<[i := p']> ps) w (log ++ [(i, a)]) v.
Proof.
  intros HL Hp Hri Hnot Hfresh p'. pose proof (fresh_calls _ _ Hfresh ltac:(done)) as Hcalls.
  destruct Hfresh as ((def & Hdef & Hnm & Hc) & Htg & Hrun & _). destruct (found_ok _ _ Hdef) as [-> Hd].
  assert (Hlen : (i < length ps)%nat) by by eapply lookup_lt_Some. pose proof (l_synced _ _ _ _ HL) as Hv.
  assert (Hsame : se_get (storage v) (table_name def) pk = se_get (storage w) (table_name def) pk).
  { rewrite !se_get_rows by (first [done|apply (l_inv _ _ _ _ HL)|apply (c_inv _ _ Hv)]). symmetry. apply (l_base _ _ _ _ HL); [apply Hd|apply (ok_nameable def Hd); by left]. }
  destruct (Hc (se_get (storage w) (table_name def) pk)) as [Hcr|[a Ha]]; [left; exists i, p', def, pk; unfold p'; rewrite Hcr; split; [by apply list_lookup_insert_eq|done]|].
  right. exists a. unfold p'. rewrite Ha. apply (reply_linked _ _ _ _ _ r); try done.
  rewrite <- (Hrun v) by apply (l_tables _ _ _ _ HL). cbn [run]. by rewrite Hsame, Ha.
Qed.

Lemma turn_linked ps w log v i : linked ps w log v -> let st := turn (ps, w) i in
  doomed st.1 st.2 \/ exists log' v', linked st.1 st.2 (log ++ log') v' /\ logged_by i log'.
Proof.
  intros HL. unfold turn. cbn [fst snd]. assert (Hnil : logged_by i []) by by intros j ?%not_elem_of_nil.
  assert (Hsame : forall ps' w', linked ps' w' log v -> exists log' v', linked ps' w' (log ++ log') v' /\ logged_by i log') by (intros; exists [], v; by rewrite app_nil_r).
  destruct (ps !! i) as [p|] eqn:Ep; [|right; by apply Hsame]. destruct (step p w) as [[p' w']|] eqn:Es; [|right; by apply Hsame]. cbn [fst snd].
  destruct (lookup_lt_is_Some_2 requests i) as [r Hr]; [rewrite <- (l_length _ _ _ _ HL); by eapply lookup_lt_Some|].
  destruct (l_threads _ _ _ _ HL i p r Ep Hr) as [[Hnot Hf]|(a & Hin & Ha & Hc)]; [|right; apply Hsame; by eapply tail_linked].
  pose proof Hf as [Hpre _]. destruct p as [| |name k|t k c|t k a c|t k c|t k m c|env j d ev ks o n c]; try done.
  - cbn in Es. injection Es as <- <-. right. destruct (lookup_linked _ _ _ _ _ _ _ _ HL Ep Hr Hnot Hf) as (log' & H & Hl). by exists log', v.
  - cbn in Es. injection Es as <- <-. destruct (get_linked _ _ _ _ _ _ _ _ _ HL Ep Hr Hnot Hf) as [H|(a & H)]; [by left|right]. exists [(i, a)], v. split; [done|apply logged_one].
  - destruct (mutate_linked _ _ _ _ _ _ _ _ _ _ HL Ep Hr Hnot Hf) as (q & u & Hq & Hres). rewrite Hq in Es. injection Es as <- <-.
    destruct Hres as [H|(a & v' & H)]; [by left|right]. exists [(i, a)], v'. split; [done|apply logged_one].
Qed.

Lemma linked_returned ps w log v i r a : linked ps w log v -> ps !! i = Some (Return a) -> requests !! i = Some r -> i ∈ map fst log \/ program r = Return a.
Proof.
  intros HL Hp Hr. destruct (l_threads _ _ _ _ HL i _ r Hp Hr) as [[_ (_ & _ & _ & H)]|(b & Hb & _)]; [right; by apply H|left].
  apply list_elem_of_fmap. by exists (i, b).
Qed.

(** After any part of the schedule, the log holds only threads that have had a turn, and
    all that have replied after making calls. *)
Definition timely (schedule : list nat) (log : list (nat * ApiResult)) : Prop := (forall j, j ∈ map fst log -> j ∈ schedule) /\ forall s1 s2, schedule = s1 ++ s2 ->
  exists log1 log2, log = log1 ++ log2 /\ (forall j, j ∈ map fst log1 -> j ∈ s1) /\
    forall i a r, (interleave s1 (map program requests, w0)).1 !! i = Some (Return a) -> requests !! i = Some r -> i ∈ map fst log1 \/ program r = Return a.

Lemma timely_snoc schedule i log log' v : timely schedule log -> logged_by i log' ->
  (let st := interleave (schedule ++ [i]) (map program requests, w0) in linked st.1 st.2 (log ++ log') v) -> timely (schedule ++ [i]) (log ++ log').
Proof.
  intros [Hin Ht] Hl HL. assert (Hin' : forall j, j ∈ map fst (log ++ log') -> j ∈ schedule ++ [i]).
  { intros j. rewrite map_app, !elem_of_app. intros [?|?%Hl]; [left; auto|right; set_solver]. }
  split; [exact Hin'|]. intros s1 s2 Es. destruct s2 as [|x s2 _] using rev_ind.
  - rewrite app_nil_r in Es. subst s1. exists (log ++ log'), []. rewrite app_nil_r. split; [done|]. split; [exact Hin'|].
    intros j a r Hj Hr. by eapply linked_returned.
  - rewrite app_assoc in Es. apply app_inj_tail in Es as [-> <-]. destruct (Ht s1 s2 eq_refl) as (l1 & l2 & -> & H1 & H2).
    exists l1, (l2 ++ log'). by rewrite app_assoc.
Qed.

Lemma interleave_linked schedule : let st := interleave schedule (map program requests, w0) in
  doomed st.1 st.2 \/ exists log v, linked st.1 st.2 log v /\ timely schedule log.
Proof.
  induction schedule as [|i schedule IH] using rev_ind.
  - right. exists [], w0. split; [apply linked_start|]. split; [by intros j ?%not_elem_of_nil|]. intros s1 s2 [-> ->]%eq_sym%app_nil. exists [], []. split; [done|].
    split; [by intros j ?%not_elem_of_nil|]. intros i a r Hi Hr. by apply (linked_returned _ _ _ _ _ _ _ linked_start).
  - pose proof (timely_snoc schedule i) as Hsnoc. cbn zeta in *. rewrite interleave_snoc in *. destruct (interleave schedule (map program requests, w0)) as [ps w]. cbn [fst snd] in IH.
    destruct IH as [Hd|(log & v & HL & Ht)]; [left; by apply doomed_turn|]. destruct (turn_linked ps w log v i HL) as [Hd|(log' & v' & HL' & Hl)]; [by left|right].
    exists (log ++ log'), v'. split; [done|]. by eapply Hsnoc.
Qed.

(** ** All threads at their end *)

Lemma returned replies i p : map Return replies !! i = Some p -> exists a, replies !! i = Some a /\ p = Return a.
Proof. rewrite list_lookup_fmap. destruct (replies !! i) as [a|]; [|done]. intros [= <-]. eauto. Qed.

Lemma returned_not_doomed replies w : ~ doomed (map Return replies) w.
Proof. intros (i & p & def & pk & Hp & _ & Hr). by destruct (returned _ _ _ Hp) as (a & _ & ->). Qed.

(** Requests without calls, before the others. *)
Lemma serial_quiet rest order log (v : World E) : serial requests order w0 = Some (log, v) -> (forall i, i ∈ rest -> exists r a, requests !! i = Some r /\ program r = Return a) ->
  exists log', serial requests (rest ++ order) w0 = Some (log' ++ log, v) /\ forall i a, (i, a) ∈ log' -> exists r, requests !! i = Some r /\ program r = Return a.
Proof.
  intros Hs. induction rest as [|i rest IH]; intros Hq; [exists []; split; [done|]; by intros i a ?%not_elem_of_nil|].
  destruct IH as (log' & Hs' & Hl); [set_solver|]. destruct (Hq i) as (r & a & Hr & Ha); [set_solver|]. exists ((i, a) :: log'). cbn [app serial].
  rewrite Hr, <- program_run, Ha. cbn [run]. rewrite Hs'. split; [done|]. intros j b [[= -> ->]|Hj]%elem_of_cons; [eauto|by apply Hl].
Qed.

Lemma serial_bound order : forall (w v : World E) log i, serial requests order w = Some (log, v) -> i ∈ order -> (i < length requests)%nat.
Proof.
  induction order as [|j order IH]; cbn; intros w v log i H Hi; [set_solver|]. destruct (requests !! j) as [r|] eqn:Er; [|done].
  destruct (handler r w) as [[a w1]|]; [|done]. destruct (serial requests order w1) as [[l u]|] eqn:Es; [|done].
  apply elem_of_cons in Hi as [->|Hi]; [by eapply lookup_lt_Some|by eapply IH].
Qed.

(** Each thread has the reply of the log, or had it from the start. *)
Lemma linked_reply replies w' log v i r a : linked (map Return replies) w' log v -> requests !! i = Some r -> replies !! i = Some a ->
  (i ∉ map fst log -> program r = Return a) /\ (forall b, (i, b) ∈ log -> b = a /\ calls r).
Proof.
  intros HL Hr Ha. assert (Hp : map Return replies !! i = Some (Return a)) by (by rewrite list_lookup_fmap, Ha).
  split; [intros Hno; by destruct (linked_returned _ _ _ _ _ _ _ HL Hp Hr)|]. intros b Hb.
  destruct (l_threads _ _ _ _ HL i _ r Hp Hr) as [[Hno _]|(b' & Hb' & Hrep & Hc)]; [destruct Hno; apply list_elem_of_fmap; by exists (i, b)|]. split; [|done].
  assert (b' = a) as -> by (destruct Hrep as [[=]|(t & pk & def & _ & _ & _ & [= ->])]; done).
  apply list_elem_of_lookup in Hb as [n Hn], Hb' as [n' Hn']. assert (n = n') as ->; [|congruence].
  apply (NoDup_lookup (map fst log) n n' i (l_nodup _ _ _ _ HL)); rewrite list_lookup_fmap; [by rewrite Hn|by rewrite Hn'].
Qed.

Lemma linked_end replies w' log v : linked (map Return replies) w' log v ->
  exists rest log', rest ++ map fst log ≡ₚ seq 0 (length requests) /\ serial requests (rest ++ map fst log) w0 = Some (log', v) /\
    Forall (fun e => replies !! e.1 = Some e.2) log' /\ (forall i, i ∈ rest <-> exists r a, requests !! i = Some r /\ program r = Return a).
Proof.
  intros HL. pose proof (l_length _ _ _ _ HL) as Hlen. rewrite length_map in Hlen.
  assert (Hboth : forall i, (i < length requests)%nat -> exists r a, requests !! i = Some r /\ replies !! i = Some a).
  { intros i Hi. destruct (lookup_lt_is_Some_2 requests i Hi) as [r Hr], (lookup_lt_is_Some_2 replies i) as [a Ha]; [lia|]. eauto. }
  set (rest := List.filter (fun i => bool_decide (i ∉ map fst log)) (seq 0 (length requests))).
  assert (Hrest : forall i, i ∈ rest <-> (i < length requests)%nat /\ i ∉ map fst log).
  { intros i. unfold rest. rewrite list_elem_of_In, filter_In, in_seq, bool_decide_eq_true. intuition lia. }
  assert (Hb : forall i, i ∈ map fst log -> (i < length requests)%nat) by (intros i Hi; by eapply serial_bound; [exact (l_serial _ _ _ _ HL)|]).
  assert (Hq : forall i, i ∈ rest <-> exists r a, requests !! i = Some r /\ program r = Return a).
  { intros i. rewrite Hrest. split.
    - intros [Hi Hno]. destruct (Hboth i Hi) as (r & a & Hr & Ha). exists r, a. split; [done|]. by apply (linked_reply replies w' log v i r a HL).
    - intros (r & b & Hr & Hret). split; [by eapply lookup_lt_Some|]. intros ([? b'] & -> & Hin)%list_elem_of_fmap. cbn in *.
      destruct (Hboth _ ltac:(by eapply lookup_lt_Some)) as (r' & a & Hr' & Ha). assert (r' = r) as -> by congruence.
      destruct (linked_reply replies w' log v _ r a HL Hr Ha) as [_ Hlog]. destruct (Hlog _ Hin) as [_ Hc]. by destruct (Hc b). }
  destruct (serial_quiet rest (map fst log) log v (l_serial _ _ _ _ HL)) as (log' & Hs & Hl); [by intros i ?%Hq|].
  exists rest, (log' ++ log). split; [|split; [exact Hs|split; [|exact Hq]]].
  - apply NoDup_Permutation.
    + apply NoDup_app. split; [apply NoDup_ListNoDup, List.NoDup_filter, seq_NoDup|]. split; [intros i [_ Hno]%Hrest; done|]. apply (l_nodup _ _ _ _ HL).
    + apply NoDup_ListNoDup, seq_NoDup.
    + intros i. rewrite elem_of_app, Hrest, list_elem_of_In, (list_elem_of_In (seq _ _)), in_seq. rewrite <- list_elem_of_In.
      destruct (decide (i ∈ map fst log)) as [Hi|]; [pose proof (Hb i Hi)|]; intuition lia.
  - apply Forall_app. split; apply Forall_forall; intros [i b] Hi; cbn.
    + destruct (Hl i b Hi) as (r & Hr & Hret). destruct (Hboth i ltac:(by eapply lookup_lt_Some)) as (r' & a & Hr' & Ha). assert (r' = r) as -> by congruence.
      destruct (linked_reply replies w' log v i r a HL Hr Ha) as [Hno Hlog]. destruct (decide (i ∈ map fst log)) as [Hin|Hin]; [|rewrite Hno in Hret by done; congruence].
      apply list_elem_of_fmap in Hin as ([? b'] & -> & Hin). destruct (Hlog _ Hin) as [_ Hc]. by destruct (Hc b).
    + assert (Hin : i ∈ map fst log) by (apply list_elem_of_fmap; by exists (i, b)). destruct (Hboth i (Hb i Hin)) as (r & a & Hr & Ha). rewrite Ha.
      destruct (linked_reply replies w' log v i r a HL Hr Ha) as [_ Hlog]. by destruct (Hlog b Hi) as [-> _].
Qed.

(** ** The order in time *)

(** Request [i] has had its reply before the first call of [j]. *)
Definition precedes (schedule : list nat) (i j : nat) : Prop := exists s1 s2 a r,
  schedule = s1 ++ s2 /\ (interleave s1 (map program requests, w0)).1 !! i = Some (Return a) /\ j ∉ s1 /\ requests !! j = Some r /\ calls r.

Definition before (order : list nat) (i j : nat) : Prop := exists l1 l2 l3, order = l1 ++ i :: l2 ++ j :: l3.

Lemma before_app l1 l2 i j : i ∈ l1 -> j ∈ l2 -> before (l1 ++ l2) i j.
Proof. intros (a & b & ->)%list_elem_of_split (c & d & ->)%list_elem_of_split. exists a, (b ++ c), d. by rewrite <- !app_assoc. Qed.

Lemma order_in_time schedule log rest : timely schedule log -> rest ++ map fst log ≡ₚ seq 0 (length requests) ->
  (forall i, i ∈ rest <-> exists r a, requests !! i = Some r /\ program r = Return a) ->
  forall i j, precedes schedule i j -> before (rest ++ map fst log) i j.
Proof.
  intros [_ Ht] Hperm Hrest i j (s1 & s2 & a & r & -> & Hi & Hj & Hr & Hc). destruct (Ht s1 s2 eq_refl) as (l1 & l2 & -> & H1 & H2). rewrite map_app in *.
  assert (Hin : j ∈ rest ++ map fst l1 ++ map fst l2) by (rewrite Hperm, list_elem_of_In, in_seq; apply lookup_lt_Some in Hr; lia).
  assert (Hjl : j ∈ map fst l2).
  { rewrite !elem_of_app in Hin. destruct Hin as [Hq|[Hl|]]; [|by destruct Hj; apply H1|done]. apply Hrest in Hq as (r' & b & Hr' & Hb). assert (r' = r) as -> by congruence. by destruct (Hc b). }
  assert (Hlen : (i < length requests)%nat).
  { apply lookup_lt_Some in Hi. rewrite interleave_length in Hi. cbn in Hi. by rewrite length_map in Hi. }
  destruct (lookup_lt_is_Some_2 requests i Hlen) as [ri Hri]. rewrite app_assoc. apply before_app; [|done]. rewrite elem_of_app, Hrest.
  destruct (H2 i a ri Hi Hri) as [|Hret]; [by right|left; eauto].
Qed.

(** At the end nothing is left to do to the indexes. *)
Lemma linked_rows replies w' log v t k : linked (map Return replies) w' log v -> distinct_items -> se_names t [] -> row w' t k = row v t k.
Proof.
  intros HL Hd Hn. symmetry. apply (l_rest _ _ _ _ HL Hd t k Hn). intros i p Hp _. by destruct (returned _ _ _ Hp) as (a & _ & ->).
Qed.

Lemma rows_agree (w v : World E) t : se_inv (storage w) -> se_inv (storage v) -> (forall k, row w t k = row v t k) -> se_rows (storage w) t = se_rows (storage v) t.
Proof. intros Hw Hv H. apply msorted_ext; [by apply se_sorted..|exact H]. Qed.
End Simulation.

(** A schedule that every thread has come to the end of, against a serial execution. *)
Lemma schedule_linked requests (w w' : World E) schedule replies : synced w -> Forall (request_ok w) requests ->
  interleave schedule (map program requests, w) = (map Return replies, w') ->
  exists order log v log', linked requests w (map Return replies) w' log v /\ order ≡ₚ seq 0 (length requests) /\ serial requests order w = Some (log', v) /\
    Forall (fun e => replies !! e.1 = Some e.2) log' /\ forall i j, precedes requests w schedule i j -> before order i j.
Proof.
  intros Hw Hok H. pose proof (interleave_linked requests w Hw Hok schedule) as Hl. cbn zeta in Hl. rewrite H in Hl.
  destruct Hl as [Hd|(log & v & HL & Ht)]; [by destruct (returned_not_doomed replies w')|]. destruct (linked_end _ _ Hw Hok _ _ _ _ HL) as (rest & log' & Ho & Hs & Hf & Hr).
  exists (rest ++ map fst log), log, v, log'. repeat (split; [done|]). by apply (order_in_time requests w schedule log rest).
Qed.


End Interleaving.

(** ** On the in-memory engine *)

Section Demo.
Import MemoryEngine.

Definition demo_w : World MemoryEngine.t := Service.world demo_final.

Lemma demo_w_synced : synced demo_w.
Proof. exact (reachable_synced PT_ALL read_json demo_final demo_server_reachable). Qed.

Definition doc_of (body : bytes) : Json := default JNull (read_json body).

(** Two requests that create item [b], one that deletes item [a]. *)
Definition create_b (g : string) : Request :=
  PutItem demo_env (doc_of (q "{'TableName':'T','Item':{'pk':{'S':'b'},'g':{'S':'" ++ lit g ++ q "'}},'ConditionExpression':'attribute_not_exists(pk)'}")).
Definition delete_a : Request := DeleteItem demo_env (doc_of (q "{'TableName':'T','Key':{'pk':{'S':'a'}}}")).

Definition get_b : Request := GetItem demo_env (doc_of (q "{'TableName':'T','Key':{'pk':{'S':'b'}}}")).

Definition demo_requests : list Request := [create_b "p"; create_b "r"; delete_a; get_b].
Definition demo_schedule : list nat := [0; 1; 2; 1; 0; 2; 1; 2; 1; 2; 1; 2; 3; 0; 3]%nat.

Definition demo_kind (r : Request) : Prop := match r with UpdateItem _ _ => False | GetItem _ _ => r = get_b | _ => True end.

Lemma demo_requests_ok rs : Forall demo_kind rs -> Forall (request_ok demo_w) rs.
Proof.
  intros H. eapply Forall_impl; [exact H|]. intros [env doc|env doc|env doc|env doc] Hr; [intros ? def ? item ? ? ? ?; apply demo_item_storable|by intros|done|].
  injection Hr as -> ->. split; [vm_compute; reflexivity|]. split; [by intros|]. intros name def item _ Hf. unfold item_is_expired.
  assert (Ht : forall d, find_table demo_w name = Some d -> ttl_specification d = None); [|by rewrite (Ht _ Hf)].
  intros d. rewrite find_table_get. intros Hd%mget_Some_In. revert Hd. vm_compute Tables.tables_. intros [Hd|[]]. by injection Hd as _ <-.
Qed.

Definition replies_of (st : list Prog * World MemoryEngine.t) : list ApiResult := omap (fun p => match p with Return r => Some r | _ => None end) st.1.

Definition demo_end : list Prog * World MemoryEngine.t := interleave demo_schedule (map program demo_requests, demo_w).

Definition all_returned (ps : list Prog) : bool := forallb (fun p => match p with Return _ => true | _ => false end) ps.

Lemma all_returned_map ps : all_returned ps = true -> ps = map Return (omap (fun p => match p with Return r => Some r | _ => None end) ps).
Proof. induction ps as [|[] ps IH]; cbn; try done. intros H. by rewrite <- IH. Qed.

Lemma ended schedule ps (w : World MemoryEngine.t) : all_returned (interleave schedule (ps, w)).1 = true ->
  interleave schedule (ps, w) = (map Return (replies_of (interleave schedule (ps, w))), (interleave schedule (ps, w)).2).
Proof. destruct (interleave schedule (ps, w)) as [ps' w']. cbn. intros H. unfold replies_of. cbn. by rewrite <- (all_returned_map ps' H). Qed.

Definition has_replied (ps : list Prog) (i : nat) : bool := match ps !! i with Some (Return _) => true | _ => false end.

Lemma has_replied_reply ps i : has_replied ps i = true -> exists a, ps !! i = Some (Return a).
Proof. unfold has_replied. destruct (ps !! i) as [[]|]; try done. eauto. Qed.

(** The read of item [b] starts when the second of its creators has its reply. *)
Lemma demo_precedes : precedes demo_requests demo_w demo_schedule 1 3.
Proof.
  destruct (has_replied_reply (interleave (take 12 demo_schedule) (map program demo_requests, demo_w)).1 1) as [a Ha]; [vm_compute; reflexivity|].
  exists (take 12 demo_schedule), (drop 12 demo_schedule), a, get_b. split; [reflexivity|]. split; [exact Ha|].
  split; [intros H%list_elem_of_In; vm_compute in H; intuition lia|]. split; [reflexivity|]. by intros b.
Qed.


Definition apart : list Request := [create_b "p"; delete_a].
Definition apart_schedule : list nat := [0; 1; 1; 0; 1; 0; 1; 0]%nat.
Definition apart_end : list Prog * World MemoryEngine.t := interleave apart_schedule (map program apart, demo_w).

Lemma apart_distinct : distinct_items apart demo_w.
Proof.
  intros [|[|i]] [|[|j]] ri rj x Hi Hj Hx Hy; try done; cbn in Hi, Hj; injection Hi as <-; injection Hj as <-; exfalso;
    revert Hy; revert Hx; vm_compute; congruence.
Qed.


(** ** What is not linearizable *)

Definition put_c (g : string) : Request := PutItem demo_env (doc_of (q "{'TableName':'T','Item':{'pk':{'S':'c'},'g':{'S':'" ++ lit g ++ q "'}}}")).

(** Two puts of one item: the second one runs between the write of the first and its index
    maintenance.  Both succeed; the index keeps an entry for the item that was replaced. *)
Lemma concurrent_puts_break_index :
  let st := interleave [0; 0; 1; 1; 1; 1; 1; 0; 0]%nat (map program [put_c "p"; put_c "r"], demo_w) in
  map status (replies_of st) = [200; 200] /\
  length (MemoryEngine.table_of (storage st.2) (lit "T")) = 2%nat /\ length (MemoryEngine.table_of (storage st.2) (index_table demo_def demo_index)) = 3%nat.
Proof. vm_compute. auto. Qed.

(** A table whose item [a] has expired. *)
Definition ttl_w : World MemoryEngine.t :=
  let w := (handle_update_time_to_live (doc_of (q "{'TableName':'T','TimeToLiveSpecification':{'AttributeName':'ttl','Enabled':true}}")) demo_w).2 in
  match handle_put_item demo_env (doc_of (q "{'TableName':'T','Item':{'pk':{'S':'a'},'ttl':{'N':'0'}}}")) w with Some (_, w) => w | None => w end.

Definition fresh_a : Json := doc_of (q "{'TableName':'T','Item':{'pk':{'S':'a'},'v':{'N':'7'}}}").
Definition read_a : Json := doc_of (q "{'TableName':'T','Key':{'pk':{'S':'a'}}}").

(** GetItem finds the item expired, a PutItem replaces it and succeeds, and GetItem removes
    what it has put. *)
Lemma reaping_deletes_fresh_item :
  let st := interleave [0; 0; 1; 1; 1; 1; 1; 0]%nat ([get_program demo_env read_a; put_program demo_env fresh_a], ttl_w) in
  map status (replies_of st) = [200; 200] /\ MemoryEngine.table_of (storage st.2) (lit "T") = [] /\
  length (MemoryEngine.table_of (storage ttl_w) (lit "T")) = 1%nat.
Proof. vm_compute. auto. Qed.

Definition guarded_actions : list Writes.Action :=
  match Writes.read_actions demo_w [doc_of (q "{'Put':{'TableName':'T','Item':{'pk':{'S':'b'}},'ConditionExpression':'attribute_not_exists(pk)'}}")] [] with Ok l => l | Err _ => [] end.

(** Two transactions that each create item [b] unless it exists: both check before either
    writes, and both succeed, which no order of the two allows. *)
Lemma transactions_not_isolated :
  let p := transact_program demo_env (streaming_on demo_w) guarded_actions in
  let st := interleave [0; 1; 0; 0; 0; 0; 0; 1; 1; 1; 1; 1]%nat ([p; p], demo_w) in
  map status (replies_of st) = [200; 200] /\
  match run p demo_w with Some (r, w) => status r = 200 /\ option_map (fun x => status x.1) (run p w) = Some 400 | None => False end.
Proof. vm_compute. auto. Qed.
End Demo.
End Interleaving.
