(* ===== verification/IndexManagers.v ===== *)
(** * The index managers and the composite keys

    [src/engine/lsm/gsi_manager.cpp], [lsi_manager.cpp] and
    [include/cynamodb/engine/lsm/key_manager.hpp].  The server maintains its indexes in
    [src/api/handlers.cpp]; these classes are an earlier design whose storage calls are
    placeholders.  Their projections are those of the service, and their keys, with
    16-bit lengths, determine their parts below 2^16 octets. *)

From Stdlib Require Import ZArith Lia Strings.String.
From stdpp Require Import prelude.
From S2P Require Import Prelude StdMap Types Json TableJson Api.
Import Json TableJson Api.

Module IndexManagers.

(** ** Projections *)

(** The common end of [project_item] and [project_lsi_item]. *)
Definition projected (item : AttributeMap) (schema base_key_schema : list KeySchemaElement) (p : Projection) : AttributeMap :=
  match projection_type p with
  | PT_ALL => item
  | t =>
      let keys := copy_keys schema item (copy_keys base_key_schema item []) in
      match t with PT_INCLUDE => copy_attrs (non_key_attributes p) item keys | _ => keys end
  end.

Definition project_item (item : AttributeMap) (gsi_def : GlobalSecondaryIndex) (base_key_schema : list KeySchemaElement) : option AttributeMap :=
  match gsi_key_schema gsi_def with
  | [] => None
  | hash :: rest =>
      match mget (attribute_name hash) item with
      | None => None
      | Some _ =>
          if match rest with range :: _ => bool_decide (mget (attribute_name range) item = None) | [] => false end then None
          else Some (projected item (gsi_key_schema gsi_def) base_key_schema (gsi_projection gsi_def))
      end
  end.

Definition project_lsi_item (item : AttributeMap) (lsi_def : LocalSecondaryIndex) (base_key_schema : list KeySchemaElement) : option AttributeMap :=
  match lsi_key_schema lsi_def with
  | _ :: range :: _ =>
      match mget (attribute_name range) item with
      | None => None
      | Some _ => Some (projected item (lsi_key_schema lsi_def) base_key_schema (lsi_projection lsi_def))
      end
  | _ => None
  end.

(** What [update_indexes] computes for each index of the table: the projections of the old
    and of the new item. *)
Definition update_indexes (def : TableDefinition) (old_item new_item : option AttributeMap) : list (option AttributeMap * option AttributeMap) :=
  map (fun lsi => (old_item ≫= fun o => project_lsi_item o lsi (key_schema def), new_item ≫= fun n => project_lsi_item n lsi (key_schema def)))
    (local_secondary_indexes def).

(** ** Updates on their way to the indexes *)

Record GSIUpdate := { update_table : bytes; update_index : bytes; is_delete : bool; old_image : AttributeMap; new_image : AttributeMap }.

(** [queue_update]: the update the ring takes in, when its attempts are refused or accepted
    as [accepts] says.  Each attempt moves the update out of the argument; [moved] is what
    a move leaves behind. *)
Fixpoint queue_update (moved : GSIUpdate -> GSIUpdate) (accepts : list bool) (update : GSIUpdate) : option GSIUpdate :=
  match accepts with
  | [] => None
  | true :: _ => Some update
  | false :: accepts' => queue_update moved accepts' (moved update)
  end.

(** ** Keys *)

(** A string after its length as a [uint16_t]. *)
Definition sized (s : bytes) : bytes := le_bytes 2 (u16 (len s)) ++ s.

Definition make_lsi_key (index_id : Z) (partition_key lsi_sort_key base_sort_key : bytes) : bytes :=
  [byte_of index_id] ++ sized partition_key ++ sized lsi_sort_key ++ base_sort_key.

Definition kMaxKeySchemaEntries : Z := 2.

Definition resolve_key_names (schema : list KeySchemaElement) : option (bytes * bytes) :=
  match schema with
  | [] => None
  | pk :: rest => if kMaxKeySchemaEntries <? len schema then None else Some (attribute_name pk, match rest with sk :: _ => attribute_name sk | [] => [] end)
  end.

Definition attribute_to_string (v : AttributeValue) : bytes :=
  match v with AV_S s | AV_N s => s | _ => [] end.

(** [None]: a null pointer is dereferenced. *)
Definition encode_from_names (pk_name sk_name : bytes) (key_attrs : AttributeMap) : option bytes :=
  match mget pk_name key_attrs with
  | None => Some []
  | Some None => None
  | Some (Some v) =>
      let pk_str := attribute_to_string v in
      if bool_decide (pk_str = []) then Some []
      else if bool_decide (sk_name = []) then Some (sized pk_str)
      else match mget sk_name key_attrs with
           | None => Some (sized pk_str)
           | Some None => None
           | Some (Some s) => Some (sized pk_str ++ attribute_to_string s)
           end
  end.

Definition encode_composite_key (def : TableDefinition) (key_attrs : AttributeMap) : option bytes :=
  match resolve_key_names (key_schema def) with None => Some [] | Some (pk, sk) => encode_from_names pk sk key_attrs end.

(** ** The projections of the service *)

(** No attribute of the item is a null pointer. *)
Definition pointed (item : AttributeMap) : Prop := forall k, mget k item <> Some None.

Lemma projected_service item schema p def idx : index_key_schema idx = schema -> index_projection idx = p -> has_keys schema item = true ->
  project_for_index item idx def = Some (projected item schema (key_schema def) p).
Proof. intros <- <- Hk. unfold project_for_index, projected. rewrite Hk. cbn. by destruct (projection_type _). Qed.

Lemma has_key_pointed item name : pointed item -> (match mget name item with Some (Some _) => true | _ => false end) = bool_decide (mget name item <> None).
Proof. intros Hp. specialize (Hp name). destruct (mget name item) as [[v|]|]; cbn; by try rewrite bool_decide_eq_true_2. Qed.

(** The projection of the manager is the one the service stores, for the key schemas that
    a global index can have. *)
Lemma project_item_service item gsi def : pointed item -> (1 <= length (gsi_key_schema gsi) <= 2)%nat ->
  project_item item gsi (key_schema def) =
  project_for_index item {| index_name := gsi_index_name gsi; index_key_schema := gsi_key_schema gsi; index_projection := gsi_projection gsi |} def.
Proof.
  intros Hp Hl. set (idx := Build_IndexSpec _ _ _). pose proof (projected_service item (gsi_key_schema gsi) (gsi_projection gsi) def idx eq_refl eq_refl) as Hok.
  assert (Hno : has_keys (gsi_key_schema gsi) item = false -> project_for_index item idx def = None) by (intros H; unfold project_for_index, idx; cbn [index_key_schema]; by rewrite H).
  unfold project_item. destruct (gsi_key_schema gsi) as [|h [|r [|]]] eqn:Ek; cbn in Hl; try lia; cbn in Hok, Hno; rewrite !has_key_pointed in * by done.
  - destruct (mget (attribute_name h) item) eqn:Eh; [by rewrite Hok|by rewrite Hno].
  - destruct (mget (attribute_name h) item) eqn:Eh; [|by rewrite Hno]. destruct (mget (attribute_name r) item) eqn:Er; [by rewrite Hok|by rewrite Hno].
Qed.

(** A local index repeats the partition key of its table, which every item has. *)
Lemma project_lsi_item_service item lsi def h r : pointed item -> lsi_key_schema lsi = [h; r] -> mget (attribute_name h) item <> None ->
  project_lsi_item item lsi (key_schema def) =
  project_for_index item {| index_name := lsi_index_name lsi; index_key_schema := lsi_key_schema lsi; index_projection := lsi_projection lsi |} def.
Proof.
  intros Hp Ek Hh. set (idx := Build_IndexSpec _ _ _). pose proof (projected_service item (lsi_key_schema lsi) (lsi_projection lsi) def idx eq_refl eq_refl) as Hok.
  assert (Hno : has_keys (lsi_key_schema lsi) item = false -> project_for_index item idx def = None) by (intros H; unfold project_for_index, idx; cbn [index_key_schema]; by rewrite H).
  unfold project_lsi_item. rewrite Ek in *. cbn in Hok, Hno. rewrite !has_key_pointed in * by done. rewrite (bool_decide_eq_true_2 _ Hh) in *.
  destruct (mget (attribute_name r) item) eqn:Er; [by rewrite Hok|by rewrite Hno].
Qed.

(** An update that is not accepted at once arrives as what the move has left of it. *)
Lemma retried_update_lost moved n update : queue_update moved (repeat false n ++ [true]) update = Some (Nat.iter n moved update).
Proof. revert update. induction n as [|n IH]; intros u; [done|]. cbn [repeat app queue_update]. rewrite IH. by rewrite Nat.iter_swap. Qed.

(** ** The keys determine their parts *)

Lemma sized_split s1 s2 r1 r2 : len s1 < 2 ^ 16 -> len s2 < 2 ^ 16 -> sized s1 ++ r1 = sized s2 ++ r2 -> s1 = s2 /\ r1 = r2.
Proof.
  intros H1 H2 H. unfold sized, u16 in H. rewrite <- !app_assoc in H. unfold len in *.
  assert (Hl : forall x r, 0 <= x < 2 ^ 16 -> read_le 2 (le_bytes 2 x ++ r) = Some (x, r)) by (intros x r Hx; by apply read_le_app).
  rewrite !Z.mod_small in H by lia. apply (f_equal (read_le 2)) in H. rewrite !Hl in H by lia. injection H as Hn Hs.
  apply app_inj_1 in Hs; [done|lia].
Qed.

Lemma make_lsi_key_inj i1 i2 p1 p2 l1 l2 b1 b2 : 0 <= i1 < 256 -> 0 <= i2 < 256 -> Forall (fun s => len s < 2 ^ 16) [p1; p2; l1; l2] ->
  make_lsi_key i1 p1 l1 b1 = make_lsi_key i2 p2 l2 b2 -> i1 = i2 /\ p1 = p2 /\ l1 = l2 /\ b1 = b2.
Proof.
  intros Hi1 Hi2 Hf H. unfold make_lsi_key in H. pose proof (f_equal (hd Byte.x00) H) as Hi. apply (f_equal (@List.tl byte)) in H. cbn [hd tl app] in Hi, H. rewrite !Forall_cons in Hf. destruct Hf as (? & ? & ? & ? & _).
  apply (f_equal bval) in Hi. rewrite !bval_byte_of in Hi. apply sized_split in H as [-> H]; [|done..]. apply sized_split in H as [-> ->]; [|done..].
  rewrite !Z.mod_small in Hi by lia. done.
Qed.

(** The composite key of a partition and a sort key determines both. *)
Lemma composite_key_inj pk_name sk_name (p1 p2 s1 s2 : AttributeValue) k1 k2 : sk_name <> [] ->
  mget pk_name k1 = Some (Some p1) -> mget sk_name k1 = Some (Some s1) -> mget pk_name k2 = Some (Some p2) -> mget sk_name k2 = Some (Some s2) ->
  attribute_to_string p1 <> [] -> attribute_to_string p2 <> [] -> len (attribute_to_string p1) < 2 ^ 16 -> len (attribute_to_string p2) < 2 ^ 16 ->
  encode_from_names pk_name sk_name k1 = encode_from_names pk_name sk_name k2 -> attribute_to_string p1 = attribute_to_string p2 /\ attribute_to_string s1 = attribute_to_string s2.
Proof.
  intros Hsk E1 E2 E3 E4 Hp1 Hp2 Hl1 Hl2. unfold encode_from_names. rewrite E1, E2, E3, E4. rewrite !bool_decide_eq_false_2 by done.
  intros H%(inj Some). by apply sized_split in H.
Qed.

(** With longer keys the length wraps around and a partition key passes for a shorter one
    with a sort key. *)
Lemma long_key_collides c n : sized (repeat c (n + Z.to_nat (2 ^ 16))) = sized (repeat c n) ++ repeat c (Z.to_nat (2 ^ 16)).
Proof.
  unfold sized, len, u16. rewrite !repeat_length, <- app_assoc, repeat_app, Nat2Z.inj_add, Z2Nat.id by lia.
  by rewrite <- (Z.mul_1_l (2 ^ 16)) at 1; rewrite Z.mod_add by lia.
Qed.

(** The type of a key is not part of its encoding. *)
Lemma key_types_collide pk_name sk_name s : encode_from_names pk_name sk_name [(pk_name, Some (AV_S s))] = encode_from_names pk_name sk_name [(pk_name, Some (AV_N s))].
Proof. unfold encode_from_names. rewrite !mget_cons, keqb_refl. cbn [attribute_to_string]. do 2 (destruct (bool_decide _); [done|]). destruct (keqb sk_name pk_name); done. Qed.
End IndexManagers.
