(* ===== verification/Metrics.v ===== *)
(** * Metrics

    [src/observability/metrics.cpp]: counters per thread, registered when a thread first
    counts, folded into the totals of exited threads when it ends, summed by [get_total].
    An operation is one step here, which is what its lock gives for the registry; the
    additions of [increment] take no lock, and [increment_loses_reset] shows what that
    allows. *)

From Stdlib Require Import ZArith Lia.
From stdpp Require Import prelude.
From S2P Require Import Prelude.

Module Metrics.

Inductive MetricId := RequestCount | ErrorCount | SuccessCount | ThrottledCount | BytesReceived | BytesSent.

#[global] Instance MetricId_eq_dec : EqDecision MetricId.
Proof. solve_decision. Defined.

Definition Counters : Type := MetricId -> Z.

Definition zeroes : Counters := fun _ => 0.

Definition add_at (c : Counters) (id : MetricId) (delta : Z) : Counters := fun x => if bool_decide (x = id) then u64 (c x + delta) else c x.

(** The thread-local data by thread, the registered threads in order, the totals of the
    threads that have exited. *)
Record State := { data : nat -> Counters; get_all_threads : list nat; get_dead_totals : Counters }.

Definition initial : State := {| data := fun _ => zeroes; get_all_threads := []; get_dead_totals := zeroes |}.

Definition set_data (s : State) (t : nat) (c : Counters) : nat -> Counters := fun t' => if (t' =? t)%nat then c else data s t'.

(** The constructor of [Registration], on the first use in a thread. *)
Definition get_thread_local (s : State) (t : nat) : State :=
  if bool_decide (t ∈ get_all_threads s) then s
  else {| data := set_data s t zeroes; get_all_threads := get_all_threads s ++ [t]; get_dead_totals := get_dead_totals s |}.

Definition increment (s : State) (t : nat) (id : MetricId) (delta : Z) : State :=
  let s := get_thread_local s t in
  {| data := set_data s t (add_at (data s t) id delta); get_all_threads := get_all_threads s; get_dead_totals := get_dead_totals s |}.

(** [duration] in nanoseconds, converted to [uint64_t]. *)
Definition record_latency (s : State) (t : nat) (id : MetricId) (duration : Z) : State := increment s t id (u64 duration).

(** The destructor of [Registration]. *)
Definition exit_thread (s : State) (t : nat) : State :=
  if bool_decide (t ∈ get_all_threads s) then
    {| data := data s; get_all_threads := List.filter (fun x => negb (x =? t)%nat) (get_all_threads s);
       get_dead_totals := fun id => u64 (get_dead_totals s id + data s t id) |}
  else s.

Definition get_total (s : State) (id : MetricId) : Z :=
  fold_left (fun total t => u64 (total + data s t id)) (get_all_threads s) (get_dead_totals s id).

Definition reset_all (s : State) : State :=
  {| data := fun t => if bool_decide (t ∈ get_all_threads s) then zeroes else data s t; get_all_threads := get_all_threads s; get_dead_totals := zeroes |}.

Inductive Event := Increment (t : nat) (id : MetricId) (delta : Z) | Exit (t : nat) | Reset.

Definition apply (s : State) (e : Event) : State :=
  match e with Increment t id delta => increment s t id delta | Exit t => exit_thread s t | Reset => reset_all s end.

Definition after (events : list Event) : State := fold_left apply events initial.

(** What has been counted since the last reset. *)
Definition counted (id : MetricId) (events : list Event) : Z :=
  fold_left (fun n e => match e with Increment _ id' delta => if bool_decide (id' = id) then n + delta else n | Exit _ => n | Reset => 0 end) events 0.

(** ** The total *)

Lemma set_data_same s t c : set_data s t c t = c.
Proof. unfold set_data. by rewrite Nat.eqb_refl. Qed.

Definition live (s : State) (id : MetricId) (l : list nat) : Z := foldr (fun t n => data s t id + n) 0 l.

#[local] Arguments live : simpl never.

Lemma fold_total s id l x : fold_left (fun total t => u64 (total + data s t id)) l (u64 x) = u64 (x + live s id l).
Proof.
  revert x. induction l as [|t l IH]; intros x; cbn [fold_left]; [unfold live; cbn; by rewrite Z.add_0_r|]. unfold u64 in *. rewrite Zplus_mod_idemp_l, IH. f_equal. unfold live. cbn. lia.
Qed.

Lemma live_ext s s' id l : (forall t, t ∈ l -> data s' t id = data s t id) -> live s' id l = live s id l.
Proof. intros H. unfold live. induction l as [|t l IH]; [done|]. cbn. rewrite H, IH; [done|set_solver..]. Qed.

Lemma live_app s id l1 l2 : live s id (l1 ++ l2) = live s id l1 + live s id l2.
Proof. unfold live. induction l1 as [|t l1 IH]; [done|]. cbn. rewrite IH. lia. Qed.

Lemma live_cons s id t l : live s id (t :: l) = data s t id + live s id l.
Proof. done. Qed.

(** The sum in one entry, and without it. *)
Lemma live_filter s id l t : NoDup l -> t ∈ l -> live s id l = data s t id + live s id (List.filter (fun x => negb (x =? t)%nat) l).
Proof.
  induction 1 as [|u l Hu Hl IH]; intros Ht; [set_solver|]. cbn [List.filter]. rewrite live_cons. destruct (Nat.eqb_spec u t) as [->|Hne]; cbn [negb].
  - f_equal. assert (Hf : List.filter (fun x => negb (x =? t)%nat) l = l); [|by rewrite Hf].
    clear -Hu. induction l as [|x l IH]; [done|]. cbn. destruct (Nat.eqb_spec x t) as [->|]; [set_solver|]. cbn. f_equal. apply IH. set_solver.
  - rewrite live_cons, IH by set_solver. lia.
Qed.

Lemma filter_sub t l x : x ∈ List.filter (fun x => negb (x =? t)%nat) l -> x ∈ l /\ x <> t.
Proof. rewrite !list_elem_of_In, filter_In. intros [? H]. destruct (Nat.eqb_spec x t); [discriminate H|done]. Qed.

Definition sum (s : State) (id : MetricId) : Z := get_dead_totals s id + live s id (get_all_threads s).

Record inv (s : State) (n : MetricId -> Z) : Prop := {
  i_nodup : NoDup (get_all_threads s);
  i_sum : forall id, u64 (sum s id) = u64 (n id);
  i_dead : forall id, u64 (get_dead_totals s id) = get_dead_totals s id
}.

Lemma register_inv s t n : inv s n -> inv (get_thread_local s t) n /\ t ∈ get_all_threads (get_thread_local s t).
Proof.
  intros [H1 H2 H3]. unfold get_thread_local. case_bool_decide as Ht; [done|]. split; [|cbn; set_solver]. split; cbn; [|intros id|done].
  - apply NoDup_app. split; [done|]. split; [set_solver|apply NoDup_singleton].
  - rewrite <- H2. unfold sum. cbn. rewrite live_app. rewrite live_cons. cbn [data]. rewrite set_data_same. unfold live at 2. cbn [foldr]. f_equal. unfold zeroes.
    rewrite (live_ext s); [lia|]. intros u Hu. cbn. unfold set_data. by destruct (Nat.eqb_spec u t) as [->|].
Qed.

Lemma increment_inv s t id delta n : inv s n -> inv (increment s t id delta) (fun x => if bool_decide (x = id) then n x + delta else n x).
Proof.
  intros Hi. unfold increment. destruct (register_inv s t n Hi) as [[H1 H2 H3] Ht]. set (r := get_thread_local s t) in *. split; cbn; [done| |done].
  intros x. unfold sum. cbn. rewrite (live_filter _ x (get_all_threads r) t H1 Ht). cbn [data]. rewrite set_data_same.
  rewrite (live_ext r) by (intros u [_ Hne]%filter_sub; cbn; unfold set_data; by destruct (Nat.eqb_spec u t)).
  specialize (H2 x). unfold sum in H2. rewrite (live_filter r x _ t H1 Ht) in H2. unfold add_at. case_bool_decide; [|exact H2].
  unfold u64 in *. rewrite <- (Zplus_mod_idemp_l (n x)), <- H2, Zplus_mod_idemp_l. rewrite Z.add_assoc, Z.add_comm, Z.add_assoc, Zplus_mod_idemp_r. f_equal. lia.
Qed.

Lemma exit_inv s t n : inv s n -> inv (exit_thread s t) n.
Proof.
  intros [H1 H2 H3]. unfold exit_thread. case_bool_decide as Ht; [|done]. split; cbn.
  - apply NoDup_ListNoDup, List.NoDup_filter. by apply NoDup_ListNoDup.
  - intros x. rewrite <- H2. unfold sum. cbn. rewrite (live_filter s x _ t H1 Ht). unfold u64. rewrite Zplus_mod_idemp_l. f_equal.
    rewrite (live_ext s); [lia|]. done.
  - intros x. unfold u64. by rewrite Zmod_mod.
Qed.

Lemma reset_inv s n : inv s n -> inv (reset_all s) (fun _ => 0).
Proof.
  intros [H1 H2 H3]. split; cbn; [done| |done]. intros x. unfold sum. cbn. f_equal. assert (Hz : forall l, (forall t, t ∈ l -> t ∈ get_all_threads s) -> live (reset_all s) x l = 0); [|by rewrite Hz].
  induction l as [|t l IH]; intros Hl; [done|]. rewrite live_cons, IH by set_solver. cbn. rewrite bool_decide_eq_true_2 by set_solver. done.
Qed.

(** Nothing that is counted is lost when threads come and go: the total is what was added
    since the last reset, modulo 2^64. *)
Lemma total_exact events id : get_total (after events) id = u64 (counted id events).
Proof.
  assert (H : inv (after events) (fun id => counted id events)).
  { unfold after. induction events as [|e events IH] using rev_ind.
    - split; [constructor|done|done].
    - rewrite fold_left_app. cbn [fold_left]. assert (Hc : forall x, counted x (events ++ [e]) =
        match e with Increment _ id' delta => if bool_decide (id' = x) then counted x events + delta else counted x events | Exit _ => counted x events | Reset => 0 end)
        by (intros x; unfold counted; by rewrite fold_left_app).
      destruct e as [t id' delta|t|]; cbn [apply].
      + destruct (increment_inv _ t id' delta _ IH) as [H1 H2 H3]. split; [done| |done]. intros x. rewrite H2, Hc. by repeat case_bool_decide; subst.
      + destruct (exit_inv _ t _ IH) as [H1 H2 H3]. split; [done| |done]. intros x. by rewrite H2, Hc.
      + destruct (reset_inv _ _ IH) as [H1 H2 H3]. split; [done| |done]. intros x. by rewrite H2, Hc. }
  destruct H as [_ H2 H3]. unfold get_total. rewrite <- H3, fold_total. apply H2.
Qed.

(** ** Increments without the lock *)

(** [counters[id] += delta] reads the counter and writes the sum; a reset in between is
    undone. *)
Lemma increment_loses_reset s t id delta : t ∈ get_all_threads s -> 
  let read := data s t id in
  let s' := reset_all s in
  let s'' := {| data := set_data s' t (fun x => if bool_decide (x = id) then u64 (read + delta) else data s' t x); get_all_threads := get_all_threads s'; get_dead_totals := get_dead_totals s' |} in
  data s' t id = 0 /\ data s'' t id = u64 (read + delta).
Proof. intros Ht. cbn. rewrite bool_decide_eq_true_2 by done. split; [done|]. unfold set_data. rewrite Nat.eqb_refl. by rewrite bool_decide_eq_true_2. Qed.
End Metrics.
