(* ===== verification/MemoryPools.v ===== *)
(** * The tracking memory resource and the buffer pool

    [include/cynamodb/core/memory_resource.hpp]: the resource counts what it has handed
    out and keeps the maximum with a compare-and-exchange loop; one atomic access is one
    step.  [src/utils/buffer_pool.cpp]: free buffers by size class, one pool per thread.
    The memory itself comes from the allocator of the platform: a buffer is a name for it
    and a capacity. *)

From Stdlib Require Import ZArith Lia.
From stdpp Require Import prelude.
From S2P Require Import Prelude.

Module Tracking.

(** The points of [do_allocate] after the call of the upstream resource. *)
Inductive Pc := Idle | AddUsage (bytes : Z) | LoadPeak (new_val : Z) | Exchange (new_val peak : Z) | SubUsage (bytes : Z).

(** [maximum] records the largest usage there has been. *)
Record State := { current_usage_ : Z; peak_usage_ : Z; pcs : nat -> Pc; maximum : Z }.

Definition new : State := {| current_usage_ := 0; peak_usage_ := 0; pcs := fun _ => Idle; maximum := 0 |}.

Definition set_pc (s : State) (t : nat) (p : Pc) : nat -> Pc := fun t' => if (t' =? t)%nat then p else pcs s t'.

Definition goto (s : State) (t : nat) (p : Pc) : State := {| current_usage_ := current_usage_ s; peak_usage_ := peak_usage_ s; pcs := set_pc s t p; maximum := maximum s |}.

(** The next access of thread [t]; [spurious] makes the exchange fail. *)
Definition access (s : State) (t : nat) (spurious : bool) : State :=
  match pcs s t with
  | Idle => s
  | AddUsage bytes =>
      let new_val := u64 (current_usage_ s + bytes) in
      {| current_usage_ := new_val; peak_usage_ := peak_usage_ s; pcs := set_pc s t (LoadPeak new_val); maximum := Z.max (maximum s) new_val |}
  | LoadPeak new_val => goto s t (Exchange new_val (peak_usage_ s))
  | Exchange new_val peak =>
      if negb (peak <? new_val) then goto s t Idle
      else if negb spurious && (peak_usage_ s =? peak) then
        {| current_usage_ := current_usage_ s; peak_usage_ := new_val; pcs := set_pc s t Idle; maximum := maximum s |}
      else goto s t (Exchange new_val (peak_usage_ s))
  | SubUsage bytes =>
      let new_val := u64 (current_usage_ s - bytes) in
      {| current_usage_ := new_val; peak_usage_ := peak_usage_ s; pcs := set_pc s t Idle; maximum := Z.max (maximum s) new_val |}
  end.

Inductive Move := Allocate (t : nat) (bytes : Z) | Deallocate (t : nat) (bytes : Z) | Access (t : nat) (spurious : bool).

Definition idle (p : Pc) : bool := match p with Idle => true | _ => false end.

(** A call of an idle thread, or the next access of a thread. *)
Definition move (s : State) (m : Move) : State :=
  match m with
  | Allocate t bytes => if idle (pcs s t) then goto s t (AddUsage bytes) else s
  | Deallocate t bytes => if idle (pcs s t) then goto s t (SubUsage bytes) else s
  | Access t spurious => access s t spurious
  end.

Definition after (moves : list Move) : State := fold_left move moves new.

(** What a thread still has to bring into the peak. *)
Definition owed (p : Pc) : option Z := match p with LoadPeak n | Exchange n _ => Some n | _ => None end.

(** A release frees what is in use, so that usage does not wrap below zero. *)
Fixpoint releases_ok (s : State) (moves : list Move) : Prop :=
  match moves with
  | [] => True
  | m :: moves' => (forall t sp b, m = Access t sp -> pcs s t = SubUsage b -> 0 <= b <= current_usage_ s) /\ releases_ok (move s m) moves'
  end.

Record inv (s : State) : Prop := {
  i_range : 0 <= current_usage_ s < 2 ^ 64;
  i_peak : 0 <= peak_usage_ s <= maximum s;
  i_usage : current_usage_ s <= maximum s;
  i_owed : forall t n, owed (pcs s t) = Some n -> n <= maximum s;
  i_seen : forall t n p, pcs s t = Exchange n p -> p <= peak_usage_ s;
  i_covered : maximum s <= peak_usage_ s \/ exists t, owed (pcs s t) = Some (maximum s)
}.

Lemma set_pc_eq s t p : set_pc s t p t = p.
Proof. unfold set_pc. by rewrite Nat.eqb_refl. Qed.

Lemma set_pc_ne s t p u : u <> t -> set_pc s t p u = pcs s u.
Proof. unfold set_pc. by destruct (Nat.eqb_spec u t). Qed.

(** A thread moves on, owing the same. *)
Lemma goto_keeps s t p : inv s -> owed p = owed (pcs s t) -> (forall n q, p = Exchange n q -> q <= peak_usage_ s) -> inv (goto s t p).
Proof.
  intros [H1 H2 H3 H4 H5 H6] Ho Hp. split; cbn; try done.
  - intros u n. destruct (decide (u = t)) as [->|Hne]; [rewrite set_pc_eq, Ho|rewrite set_pc_ne by done]; apply H4.
  - intros u n q. destruct (decide (u = t)) as [->|Hne]; [rewrite set_pc_eq; apply Hp|rewrite set_pc_ne by done; apply H5].
  - destruct H6 as [|[u Hu]]; [by left|right]. exists u. destruct (decide (u = t)) as [->|Hne]; [by rewrite set_pc_eq, Ho|by rewrite set_pc_ne].
Qed.

(** A thread that is done with the peak. *)
Lemma settle_keeps s t n peak : inv s -> owed (pcs s t) = Some n -> n <= peak -> peak_usage_ s <= peak -> peak <= maximum s ->
  inv {| current_usage_ := current_usage_ s; peak_usage_ := peak; pcs := set_pc s t Idle; maximum := maximum s |}.
Proof.
  intros [H1 H2 H3 H4 H5 H6] Ho Hn Hp Hm. split; cbn; try done; [lia|..].
  - intros u k. destruct (decide (u = t)) as [->|Hne]; [by rewrite set_pc_eq|rewrite set_pc_ne by done; apply H4].
  - intros u k q. destruct (decide (u = t)) as [->|Hne]; [by rewrite set_pc_eq|rewrite set_pc_ne by done]. intros Hq. specialize (H5 _ _ _ Hq). lia.
  - destruct H6 as [|[u Hu]]; [left; lia|]. destruct (decide (u = t)) as [->|Hne]; [left; rewrite Ho in Hu; injection Hu as ->; lia|right]. exists u. by rewrite set_pc_ne.
Qed.

Lemma usage_keeps s t bytes : inv s -> pcs s t = AddUsage bytes -> inv (access s t false).
Proof.
  intros [H1 H2 H3 H4 H5 H6] Ep. unfold access. rewrite Ep. cbv zeta. set (v := u64 (current_usage_ s + bytes)).
  assert (Hv : 0 <= v < 2 ^ 64) by (unfold v, u64; apply Z.mod_pos_bound; lia). split; cbn; try lia.
  - intros u n. destruct (decide (u = t)) as [->|Hne]; [rewrite set_pc_eq; intros [= <-]; lia|rewrite set_pc_ne by done]. intros Hn. specialize (H4 _ _ Hn). lia.
  - intros u n q. destruct (decide (u = t)) as [->|Hne]; [by rewrite set_pc_eq|rewrite set_pc_ne by done; apply H5].
  - destruct (Z.max_spec (maximum s) v) as [[Hlt ->]|[Hge ->]]; [right; exists t; by rewrite set_pc_eq|].
    destruct H6 as [|[u Hu]]; [by left|right]. exists u. destruct (decide (u = t)) as [->|Hne]; [by rewrite Ep in Hu|by rewrite set_pc_ne].
Qed.

Lemma access_keeps s t sp : (forall b, pcs s t = SubUsage b -> 0 <= b <= current_usage_ s) -> inv s -> inv (access s t sp).
Proof.
  intros Hok Hi. destruct (pcs s t) as [|b|n|n p|b] eqn:Ep; unfold access; rewrite Ep; [done| | | |].
  - pose proof (usage_keeps s t b Hi Ep) as H. unfold access in H. by rewrite Ep in H.
  - apply goto_keeps; [done|by rewrite Ep|]. by intros ? ? [= _ <-].
  - assert (Hown : owed (pcs s t) = Some n) by by rewrite Ep. pose proof (i_seen s Hi t n p Ep) as Hp. pose proof (i_owed s Hi t n Hown) as Hn. pose proof (i_peak s Hi) as Hpk.
    destruct (Z.ltb_spec p n) as [Hlt|Hge]; cbn [negb].
    + destruct (negb sp && _) eqn:Ec; [|apply goto_keeps; [done|by rewrite Ep|]; by intros ? ? [= _ <-]].
      apply andb_prop in Ec as [_ Ec%Z.eqb_eq]. apply (settle_keeps s t n n Hi Hown); lia.
    + apply (settle_keeps s t n (peak_usage_ s) Hi Hown); lia.
  - specialize (Hok b eq_refl). pose proof (i_range s Hi) as H1. assert (Hu : u64 (current_usage_ s - b) = current_usage_ s - b) by (unfold u64; apply Z.mod_small; lia).
    rewrite Hu. destruct Hi as [_ H2 H3 H4 H5 H6]. replace (Z.max (maximum s) (current_usage_ s - b)) with (maximum s) by lia. split; cbn; try lia.
    + intros u k. destruct (decide (u = t)) as [->|Hne]; [by rewrite set_pc_eq|rewrite set_pc_ne by done; apply H4].
    + intros u k q. destruct (decide (u = t)) as [->|Hne]; [by rewrite set_pc_eq|rewrite set_pc_ne by done; apply H5].
    + destruct H6 as [|[u Hu']]; [by left|right]. exists u. destruct (decide (u = t)) as [->|Hne]; [by rewrite Ep in Hu'|by rewrite set_pc_ne].
Qed.

Lemma moves_keep moves s : releases_ok s moves -> inv s -> inv (fold_left move moves s).
Proof.
  revert s. induction moves as [|m moves IH]; intros s Hok Hi; [done|]. destruct Hok as [Hm Hok]. cbn [fold_left]. apply IH; [done|].
  destruct m as [t b|t b|t sp]; cbn [move]; [| |apply access_keeps; [intros b Hb; by eapply Hm|done]].
  all: destruct (idle (pcs s t)) eqn:Ei; [|done]; apply goto_keeps; [done|by destruct (pcs s t)|done].
Qed.

(** Whatever the interleaving, once no call is under way the recorded peak is the largest
    usage there has been. *)
Lemma peak_is_maximum moves : releases_ok new moves -> (forall t, pcs (after moves) t = Idle) -> peak_usage_ (after moves) = maximum (after moves).
Proof.
  intros Hok Hidle. assert (Hi : inv (after moves)). { apply moves_keep; [done|]. split; cbn; try lia; done. }
  pose proof (i_peak _ Hi). destruct (i_covered _ Hi) as [|[t Ht]]; [lia|]. by rewrite Hidle in Ht.
Qed.

(** Two threads whose additions interleave: the later maximum stands. *)
Lemma peak_race : let s := after [Allocate 0 100; Allocate 1 50; Access 0 false; Access 1 false; Access 0 false; Access 1 false; Access 1 false; Access 0 false; Access 0 false]%nat in
  peak_usage_ s = 150 /\ current_usage_ s = 150.
Proof. vm_compute. auto. Qed.
End Tracking.

Module BufferPool.

Inductive SizeClass := Small | Medium | Large.

#[global] Instance SizeClass_eq_dec : EqDecision SizeClass.
Proof. solve_decision. Defined.

Definition class_size (c : SizeClass) : Z := match c with Small => 64 * 1024 | Medium => 256 * 1024 | Large => 1024 * 1024 end.

(** [simdjson::SIMDJSON_PADDING], a constant of the library, is an argument. *)
Section Pool.
Context (padding : Z).

(** The memory of a buffer by number, with the octets allocated for it; [None] after a
    move. *)
Record Buffer := { memory : option (nat * Z); size : Z }.

(** [next] numbers the allocations. *)
Record Pool := { small_buffers_ : list Buffer; medium_buffers_ : list Buffer; large_buffers_ : list Buffer; next : nat }.

Definition empty : Pool := {| small_buffers_ := []; medium_buffers_ := []; large_buffers_ := []; next := 0 |}.

Definition buffers (p : Pool) (c : SizeClass) : list Buffer := match c with Small => small_buffers_ p | Medium => medium_buffers_ p | Large => large_buffers_ p end.

Definition set_buffers (p : Pool) (c : SizeClass) (l : list Buffer) (n : nat) : Pool :=
  match c with
  | Small => {| small_buffers_ := l; medium_buffers_ := medium_buffers_ p; large_buffers_ := large_buffers_ p; next := n |}
  | Medium => {| small_buffers_ := small_buffers_ p; medium_buffers_ := l; large_buffers_ := large_buffers_ p; next := n |}
  | Large => {| small_buffers_ := small_buffers_ p; medium_buffers_ := medium_buffers_ p; large_buffers_ := l; next := n |}
  end.

Definition get_buffer (p : Pool) (c : SizeClass) : Buffer * Pool :=
  match last (buffers p c) with
  | Some b => (b, set_buffers p c (removelast (buffers p c)) (next p))
  | None => ({| memory := Some (next p, class_size c + padding); size := class_size c |}, set_buffers p c (buffers p c) (S (next p)))
  end.

Definition return_buffer (p : Pool) (b : Buffer) : Pool :=
  match memory b with
  | None => p
  | Some _ =>
      if size b =? class_size Small then set_buffers p Small (small_buffers_ p ++ [b]) (next p)
      else if size b =? class_size Medium then set_buffers p Medium (medium_buffers_ p ++ [b]) (next p)
      else if size b =? class_size Large then set_buffers p Large (large_buffers_ p ++ [b]) (next p)
      else p
  end.

(** A client takes buffers and gives back one that it holds. *)
Inductive Use := Take (c : SizeClass) | Give (i : nat).

Definition use (st : Pool * list Buffer) (u : Use) : Pool * list Buffer :=
  match u with
  | Take c => let '(b, p) := get_buffer st.1 c in (p, st.2 ++ [b])
  | Give i => match st.2 !! i with Some b => (return_buffer st.1 b, delete i st.2) | None => st end
  end.

Definition everything (p : Pool) : list Buffer := small_buffers_ p ++ medium_buffers_ p ++ large_buffers_ p.

Definition number (b : Buffer) : option nat := option_map fst (memory b).

(** The memory of a buffer is as large as its class and the padding say. *)
Definition sound (p : Pool) (b : Buffer) : Prop := exists n c, memory b = Some (n, class_size c + padding) /\ size b = class_size c /\ (n < next p)%nat.

Record inv (st : Pool * list Buffer) : Prop := {
  i_distinct : NoDup (map number (everything st.1 ++ st.2));
  i_sound : Forall (sound st.1) (everything st.1 ++ st.2);
  i_class : forall c, Forall (fun b => size b = class_size c) (buffers st.1 c)
}.

Lemma everything_class p c : exists rest, forall l n, everything (set_buffers p c l n) ≡ₚ l ++ rest.
Proof.
  destruct c; unfold everything; cbn.
  - by exists (medium_buffers_ p ++ large_buffers_ p).
  - exists (small_buffers_ p ++ large_buffers_ p). intros l n. apply Permutation_app_swap_app.
  - exists (small_buffers_ p ++ medium_buffers_ p). intros l n. rewrite app_assoc. apply Permutation_app_comm.
Qed.

Lemma set_buffers_same p c : set_buffers p c (buffers p c) (next p) = p.
Proof. by destruct p, c. Qed.

Lemma buffers_set p c l n c' : buffers (set_buffers p c l n) c' = if decide (c' = c) then l else buffers p c'.
Proof. by destruct c, c'. Qed.

Lemma sound_later p p' b : (next p <= next p')%nat -> sound p b -> sound p' b.
Proof. intros Hn (n & c & H1 & H2 & H3). exists n, c. repeat split; [done..|lia]. Qed.

(** The same buffers in other places. *)
Lemma inv_move p held p' held' : inv (p, held) -> everything p' ++ held' ≡ₚ everything p ++ held -> next p' = next p ->
  (forall c, Forall (fun b => size b = class_size c) (buffers p' c)) -> inv (p', held').
Proof.
  intros [H1 H2 H3] Hp Hn Hc. cbn [fst snd] in *. split; cbn [fst snd]; [by rewrite Hp| |done]. rewrite Hp. eapply Forall_impl; [exact H2|].
  intros b. apply sound_later. by rewrite Hn.
Qed.

Lemma take_inv p held c : inv (p, held) -> inv (use (p, held) (Take c)).
Proof.
  intros Hi. unfold use, get_buffer. cbn [fst snd]. destruct (everything_class p c) as [rest Hrest].
  pose proof (Hrest (buffers p c) (next p)) as Hall. rewrite set_buffers_same in Hall. destruct (last (buffers p c)) as [b|] eqn:El.
  - apply last_Some in El as [l El]. rewrite El in *. rewrite removelast_last. apply (inv_move p held); [done| |by destruct c|].
    + rewrite Hrest, Hall. rewrite <- !app_assoc. apply Permutation_app_head. rewrite !app_assoc, (Permutation_app_comm _ [b]). by rewrite <- app_assoc.
    + intros c'. rewrite buffers_set. pose proof (i_class _ Hi c') as Hc. cbn [fst] in Hc. destruct (decide (c' = c)) as [->|]; [|done]. rewrite El in Hc. apply Forall_app in Hc. apply Hc.
  - destruct Hi as [H1 H2 H3]. cbn [fst snd] in *. set (b := Build_Buffer _ _). set (p' := set_buffers _ _ _ _).
    assert (Hn : next p' = S (next p)) by (unfold p'; by destruct c). assert (He : everything p' ++ held ++ [b] ≡ₚ b :: everything p ++ held).
    { unfold p'. rewrite Hrest, <- Hall, app_assoc, Permutation_app_comm. done. }
    split; cbn [fst snd].
    + rewrite He. cbn. apply NoDup_cons. split; [|done]. intros Hin. apply list_elem_of_fmap in Hin as (b' & Hb' & Hin). rewrite Forall_forall in H2.
      destruct (H2 _ Hin) as (n & c' & Hm & _ & Hlt). unfold number in Hb'. rewrite Hm in Hb'. cbn in Hb'. injection Hb' as Hb'. lia.
    + rewrite He. apply Forall_cons. split; [exists (next p), c; repeat split; lia|]. eapply Forall_impl; [exact H2|]. intros b'. apply sound_later. lia.
    + intros c'. unfold p'. rewrite buffers_set. by destruct (decide (c' = c)) as [->|].
Qed.

Lemma return_class p b : sound p b -> exists c, size b = class_size c /\ return_buffer p b = set_buffers p c (buffers p c ++ [b]) (next p).
Proof. intros (n & c & Hm & Hs & _). exists c. split; [done|]. unfold return_buffer. rewrite Hm, Hs. by destruct c. Qed.

Lemma give_inv p held i : inv (p, held) -> inv (use (p, held) (Give i)).
Proof.
  intros Hi. unfold use. cbn [fst snd]. destruct (held !! i) as [b|] eqn:Eb; [|done].
  assert (Hs : sound p b). { pose proof (i_sound _ Hi) as H. cbn in H. apply Forall_app in H as [_ H]. by eapply (proj1 (Forall_lookup _ _) H). }
  destruct (return_class p b Hs) as (c & Hc & ->). destruct (everything_class p c) as [rest Hrest].
  pose proof (Hrest (buffers p c) (next p)) as Hall. rewrite set_buffers_same in Hall. apply (inv_move p held); [done| |by destruct c|].
  - pose proof (delete_Permutation held i b Eb) as Hd. rewrite Hrest, Hall. generalize dependent (delete i held). intros l Hd. rewrite Hd, <- !app_assoc. cbn [app].
    apply Permutation_app_head, Permutation_middle.
  - intros c'. rewrite buffers_set. pose proof (i_class _ Hi c') as H. cbn [fst] in H. destruct (decide (c' = c)) as [->|]; [|done]. apply Forall_app. by split; [|repeat constructor].
Qed.

(** However buffers are taken and given back, no two that are held share memory, and each
    has the octets of its class and the padding that the parser may read beyond them. *)
Lemma buffers_not_shared uses : let held := (fold_left use uses (empty, [])).2 in
  NoDup (map number held) /\ Forall (fun b => exists n c, memory b = Some (n, class_size c + padding) /\ size b = class_size c) held.
Proof.
  assert (Hi : inv (fold_left use uses (empty, []))).
  { induction uses as [|u uses IH] using rev_ind; [split; cbn; [constructor|constructor|intros []; constructor]|]. rewrite fold_left_app. cbn [fold_left].
    destruct (fold_left use uses (empty, [])) as [p held]. destruct u; [by apply take_inv|by apply give_inv]. }
  destruct Hi as [H1 H2 _]. cbn. rewrite map_app in H1. apply NoDup_app in H1 as (_ & _ & H1). apply Forall_app in H2 as [_ H2]. split; [done|].
  eapply Forall_impl; [exact H2|]. intros b (n & c & ? & ? & _). eauto.
Qed.
End Pool.
End BufferPool.
