(* ===== verification/LegacyEngine.v ===== *)
(** * Parts of the engine that the server does not call

    [src/engine/lsm/merging_iterator.cpp], [compaction_manager.cpp],
    [include/cynamodb/engine/lsm/compactor.hpp] and
    [src/engine/recovery/recovery_manager.cpp]: an earlier design of what
    [lsm_engine.cpp] now does itself.  The model is on the tables, the manifest and the
    file contents of [SSTable] and [Manifest]. *)

From Stdlib Require Import ZArith Lia.
From stdpp Require Import prelude.
From S2P Require Import Prelude StdMap Types RecordCodec Skiplist SSTable Manifest.

Module MergingIterator.

Record Iterator := { sstables_ : list SST.SSTable; current_sstable_ : nat; current_entry_ : nat }.

Definition create (tables : list SST.SSTable) : Iterator := {| sstables_ := tables; current_sstable_ := 0; current_entry_ := 0 |}.

Definition has_next (it : Iterator) : bool :=
  match sstables_ it !! current_sstable_ it with
  | Some sst => (current_entry_ it <? SST.entry_count sst)%nat
  | None => false
  end.

(** [None]: an access out of range, or an exception of the table. *)
Definition next (it : Iterator) : option ((bytes * AttributeMap) * Iterator) :=
  match sstables_ it !! current_sstable_ it with
  | None => None
  | Some sst =>
      match SST.index_entry sst (current_entry_ it) with
      | None => None
      | Some (key, _) =>
          match SST.get sst key with
          | None => None
          | Some attrs =>
              let entry := S (current_entry_ it) in
              Some ((key, default [] attrs),
                    if (entry <? SST.entry_count sst)%nat then {| sstables_ := sstables_ it; current_sstable_ := current_sstable_ it; current_entry_ := entry |}
                    else {| sstables_ := sstables_ it; current_sstable_ := S (current_sstable_ it); current_entry_ := 0 |})
          end
      end
  end.

(** A client that reads while [has_next]. *)
Fixpoint drain (fuel : nat) (it : Iterator) : option (list (bytes * AttributeMap)) :=
  if has_next it then
    match fuel with
    | O => None
    | S fuel' => match next it with Some (e, it') => option_map (cons e) (drain fuel' it') | None => None end
    end
  else Some [].

(** An entry as the iterator gives it. *)
Definition shown (e : bytes * SnapshotEntry) : bytes * AttributeMap := (e.1, default [] (SL.live e.2)).

Lemma next_rep tables s es i j e : tables !! i = Some s -> SST.rep s es -> es !! j = Some e ->
  next {| sstables_ := tables; current_sstable_ := i; current_entry_ := j |} =
  Some (shown e, if (S j <? length es)%nat then {| sstables_ := tables; current_sstable_ := i; current_entry_ := S j |}
                 else {| sstables_ := tables; current_sstable_ := S i; current_entry_ := 0 |}).
Proof.
  intros Ht Hr He. unfold next. cbn [sstables_ current_sstable_ current_entry_]. rewrite Ht. destruct e as [k e].
  destruct (SST.rep_index _ _ Hr _ _ _ He) as [off ->]. rewrite (SST.get_rep _ _ Hr k). rewrite (SST.rep_count _ _ Hr).
  assert (Hk : mget k es = Some e) by (apply mget_In; [apply (SST.rep_sorted _ _ Hr)|by eapply list_elem_of_In, list_elem_of_lookup_2]). by rewrite Hk.
Qed.

(** The rest of one table, then the tables after it. *)
Lemma drain_from tables ess : Forall2 SST.rep tables ess -> Forall (fun es => es <> []) ess ->
  forall n i j, (n = length (concat (drop i ess)) - j)%nat -> (j <= length (default [] (ess !! i)))%nat -> ((j < length (default [] (ess !! i)))%nat \/ ess !! i = None) ->
  drain n {| sstables_ := tables; current_sstable_ := i; current_entry_ := j |} = Some (map shown (drop j (concat (drop i ess)))).
Proof.
  intros Hrep Hne. induction n as [|n IH]; intros i j Hn Hj Hpos.
  - destruct (ess !! i) as [es|] eqn:Ei; cbn in Hj, Hpos.
    + destruct Hpos as [Hpos|]; [|done]. rewrite (drop_S _ _ _ Ei) in Hn. cbn in Hn. rewrite length_app in Hn. lia.
    + rewrite (drop_ge ess) by (by apply lookup_ge_None). cbn. rewrite drop_nil. unfold has_next. cbn.
      assert (Ht : tables !! i = None) by (apply lookup_ge_None; apply lookup_ge_None in Ei; by rewrite (Forall2_length _ _ _ Hrep)). by rewrite Ht.
  - destruct (ess !! i) as [es|] eqn:Ei; cbn in Hj, Hpos; [|rewrite (drop_ge ess) in Hn by (by apply lookup_ge_None); cbn in Hn; lia].
    destruct Hpos as [Hpos|]; [|done]. destruct (Forall2_lookup_r _ _ _ _ _ Hrep Ei) as (s & Hs & Hr).
    destruct (lookup_lt_is_Some_2 es j Hpos) as [e He]. cbn [drain].
    assert (Hh : has_next {| sstables_ := tables; current_sstable_ := i; current_entry_ := j |} = true).
    { unfold has_next. cbn [sstables_ current_sstable_ current_entry_]. rewrite Hs, (SST.rep_count _ _ Hr). by apply Nat.ltb_lt. }
    rewrite Hh. rewrite (next_rep _ _ _ _ _ _ Hs Hr He). rewrite (drop_S _ _ _ Ei) in *. cbn [concat] in *. rewrite length_app in Hn.
    rewrite drop_app_le by lia. rewrite (drop_S es e j He). cbn [map app].
    destruct (Nat.ltb_spec (S j) (length es)) as [Hlt|Hge].
    + rewrite (IH i (S j)); [|rewrite (drop_S _ _ _ Ei); cbn [concat]; rewrite length_app; lia|rewrite Ei; cbn; lia|rewrite Ei; cbn; lia].
      rewrite (drop_S _ _ _ Ei). cbn [concat option_map]. rewrite drop_app_le by lia. done.
    + rewrite (IH (S i) 0%nat); [|lia|lia|].
      * rewrite (drop_ge es (S j)) by lia. by rewrite drop_0.
      * destruct (ess !! S i) as [es'|] eqn:Ei'; [left|by right]. cbn. pose proof (proj1 (Forall_lookup _ _) Hne _ _ Ei') as Hn'. destruct es'; [done|cbn; lia].
Qed.

(** The iterator gives the entries of the tables one table after the other: it does not
    merge them, and an item that a newer table deletes is given with no attributes. *)
Lemma iterator_concatenates tables ess : Forall2 SST.rep tables ess -> Forall (fun es => es <> []) ess ->
  drain (length (concat ess)) (create tables) = Some (map shown (concat ess)).
Proof.
  intros Hr Hne. unfold create. rewrite (drain_from tables ess Hr Hne _ 0 0); [by rewrite !drop_0|rewrite drop_0; lia|lia|].
  destruct (ess !! 0%nat) as [es|] eqn:E0; [left|by right]. cbn. pose proof (proj1 (Forall_lookup _ _) Hne _ _ E0) as H. destruct es; [done|cbn; lia].
Qed.

(** A table without entries ends the iteration, whatever follows it. *)
Lemma empty_table_ends_iteration s tables : SST.entry_count s = 0%nat -> has_next (create (s :: tables)) = false.
Proof. intros H. unfold has_next. cbn. rewrite H. done. Qed.
End MergingIterator.

Module Compaction.
Import Manifest.

Definition should_compact_L0 (m : Manifest.t) : bool := 4 <=? len (get_level_files m 0).

Definition get_overlapping_files (m : Manifest.t) (level : Z) (min_key max_key : bytes) : list SSTableMetadata :=
  List.filter (fun meta => negb (bytes_ltb (Manifest.max_key meta) min_key || bytes_ltb max_key (Manifest.min_key meta))) (get_level_files m level).

(** The keys that the files of a level span. *)
Definition key_span (first : SSTableMetadata) (files : list SSTableMetadata) : bytes * bytes :=
  fold_left (fun r meta => (if bytes_ltb (Manifest.min_key meta) r.1 then Manifest.min_key meta else r.1, if bytes_ltb r.2 (Manifest.max_key meta) then Manifest.max_key meta else r.2))
    files (Manifest.min_key first, Manifest.max_key first).

(** The files that [run_leveled_compaction] would merge; it only reports them. *)
Definition run_leveled_compaction (m : Manifest.t) (source_level : Z) : list SSTableMetadata * list SSTableMetadata :=
  match get_level_files m source_level with
  | [] => ([], [])
  | first :: rest =>
      let '(lo, hi) := key_span first (first :: rest) in
      (first :: rest, get_overlapping_files m (u32 (source_level + 1)) lo hi)
  end.

Definition trigger_compaction (m : Manifest.t) : list SSTableMetadata * list SSTableMetadata :=
  if should_compact_L0 m then run_leveled_compaction m 0 else ([], []).

(** [k] is between the smallest and the largest key. *)
Definition within (lo hi k : bytes) : Prop := bytes_leb lo k = true /\ bytes_leb k hi = true.

Lemma leb_trans a b c : bytes_leb a b = true -> bytes_leb b c = true -> bytes_leb a c = true.
Proof.
  rewrite !bytes_leb_cmp. intros H1 H2 H3%bytes_cmp_Gt. destruct (bytes_cmp a b) eqn:E1; [apply bytes_cmp_eq in E1; subst|..|done].
  - by apply bytes_cmp_Gt in H3.
  - apply H2, bytes_cmp_Gt. by eapply bytes_cmp_trans.
Qed.

Lemma ltb_leb a b : bytes_ltb a b = negb (bytes_leb b a).
Proof. unfold bytes_ltb, bytes_leb. rewrite (bytes_cmp_opp a b). by destruct (bytes_cmp a b). Qed.

Lemma leb_refl a : bytes_leb a a = true.
Proof. apply bytes_leb_cmp. by rewrite bytes_cmp_refl. Qed.

Lemma leb_total a b : bytes_leb a b = true \/ bytes_leb b a = true.
Proof. unfold bytes_leb. rewrite (bytes_cmp_opp a b). destruct (bytes_cmp a b); auto. Qed.

(** A file is chosen exactly when it can hold a key of the range. *)
Lemma overlapping_exact m level lo hi meta : bytes_leb lo hi = true -> (forall f, f ∈ get_level_files m level -> bytes_leb (Manifest.min_key f) (Manifest.max_key f) = true) ->
  meta ∈ get_overlapping_files m level lo hi <-> meta ∈ get_level_files m level /\ exists k, within lo hi k /\ within (Manifest.min_key meta) (Manifest.max_key meta) k.
Proof.
  intros Hr Hf. unfold get_overlapping_files. rewrite list_elem_of_In, filter_In, <- list_elem_of_In, !ltb_leb. split; intros [Hin H]; (split; [done|]).
  - apply negb_true_iff, orb_false_elim in H as [H1%negb_false_iff H2%negb_false_iff].
    destruct (leb_total lo (Manifest.min_key meta)) as [Hl|Hl]; [exists (Manifest.min_key meta)|exists lo]; repeat split; auto using leb_refl.
  - destruct H as (k & [K1 K2] & [K3 K4]). by rewrite (leb_trans _ _ _ K1 K4), (leb_trans _ _ _ K3 K2).
Qed.

(** The span of a level covers every file of it. *)
Lemma span_covers first files : let r := key_span first files in
  (bytes_leb r.1 (Manifest.min_key first) = true /\ bytes_leb (Manifest.max_key first) r.2 = true) /\
  forall f, f ∈ files -> bytes_leb r.1 (Manifest.min_key f) = true /\ bytes_leb (Manifest.max_key f) r.2 = true.
Proof.
  unfold key_span. induction files as [|f files IH] using rev_ind; cbn; [split; [by rewrite !leb_refl|set_solver]|].
  rewrite fold_left_app. cbn. set (r := fold_left _ files _) in *. destruct IH as [[I1 I2] IH].
  assert (Hlo : forall k, bytes_leb r.1 k = true -> bytes_leb (if bytes_ltb (Manifest.min_key f) r.1 then Manifest.min_key f else r.1) k = true).
  { intros k Hk. rewrite ltb_leb. destruct (bytes_leb r.1 (Manifest.min_key f)) eqn:E; cbn; [done|]. destruct (leb_total r.1 (Manifest.min_key f)) as [|Hx]; [congruence|]. by eapply leb_trans. }
  assert (Hhi : forall k, bytes_leb k r.2 = true -> bytes_leb k (if bytes_ltb r.2 (Manifest.max_key f) then Manifest.max_key f else r.2) = true).
  { intros k Hk. rewrite ltb_leb. destruct (bytes_leb (Manifest.max_key f) r.2) eqn:E; cbn; [done|]. destruct (leb_total (Manifest.max_key f) r.2) as [|Hx]; [congruence|]. by eapply leb_trans. }
  split; [split; [by apply Hlo|by apply Hhi]|]. intros g [Hg|Hg%list_elem_of_singleton]%elem_of_app; [|subst g].
  - destruct (IH g Hg). split; [by apply Hlo|by apply Hhi].
  - rewrite !ltb_leb. split; [destruct (bytes_leb r.1 (Manifest.min_key f)) eqn:E; cbn; [exact E|apply leb_refl]|destruct (bytes_leb (Manifest.max_key f) r.2) eqn:E; cbn; [exact E|apply leb_refl]].
Qed.

(** ** The compactor *)

Definition kMaxPathBytes : Z := 4096.

(** The published file, if any; the loop over the inputs is empty. *)
Definition compact (output_sst : bytes) (inputs : list SST.SSTable) : option bytes :=
  if bool_decide (output_sst = []) || (kMaxPathBytes <? len output_sst) then None
  else default None (SST.create []).

(** Whatever the inputs hold, the output is a table without entries. *)
Lemma compact_drops_everything output inputs file s : compact output inputs = Some file -> SST.load_index output file = Ok s -> SST.entry_count s = 0%nat.
Proof.
  unfold compact. destruct (_ || _); [done|]. vm_compute SST.create. cbn [default]. intros [= <-]. vm_compute SST.load_index. by intros [= <-].
Qed.

(** ** The recovery manager *)

(** It opens the log and reads nothing of it. *)
Definition recover_from_wal (wal_path : bytes) (file : option bytes) : bool :=
  if bool_decide (wal_path = []) then false else bool_decide (is_Some file).
End Compaction.
