(* ===== verification/Startup.v ===== *)
(** * Start-up settings, fault injection and the PartiQL prototype

    [src/main.cpp]: the settings that the process takes from its environment;
    [src/utils/chaos_engine.cpp]; and [src/expressions/partiql/parser.cpp], which the
    statements of the server do not go through ([PartiQL] models those). *)

From Stdlib Require Import ZArith Lia Strings.String.
From stdpp Require Import prelude.
From S2P Require Import Prelude StdMap CLib Backups.

Module Startup.

(** [std::from_chars] on a [uint32_t]: the value and the rest of the text. *)
Definition from_chars_u32 (raw : bytes) : option (Z * bytes) :=
  let '(digits, rest) := span isdigit raw in
  if bool_decide (digits = []) then None
  else let value := parse_dec digits in
       if 2 ^ 32 <=? value then None else Some (value, rest).

Definition parse_uint_env (raw : bytes) (min_val max_val : Z) : option Z :=
  match from_chars_u32 raw with
  | Some (value, rest) => if negb (bool_decide (rest = [])) || (value <? min_val) || (max_val <? value) then None else Some value
  | None => None
  end.

Record Settings := { bind_addr : bytes; port : Z; threads : Z }.

(** The beginning of [main]; [cores] is what [std::thread::hardware_concurrency] reports. *)
Definition settings (bind_addr_env port_env threads_env : option bytes) (cores : Z) : Settings :=
  let port := match port_env with Some raw => default 8000 (parse_uint_env raw 1 65535) | None => 8000 end in
  let threads := match threads_env with Some raw => default cores (parse_uint_env raw 1 1024) | None => cores end in
  {| bind_addr := default (lit "0.0.0.0") bind_addr_env; port := port; threads := if threads <? 1 then 1 else threads |}.

Lemma parse_uint_range raw lo hi v : parse_uint_env raw lo hi = Some v -> lo <= v <= hi.
Proof.
  unfold parse_uint_env. destruct (from_chars_u32 raw) as [[x rest]|]; [|done]. destruct (negb _); [done|]. cbn [orb].
  destruct (Z.ltb_spec x lo), (Z.ltb_spec hi x); cbn; try done. intros [= <-]. lia.
Qed.

(** A printed number in range is read back, and only text of digits is read. *)
Lemma parse_uint_print n lo hi : 0 <= n < 2 ^ 32 -> lo <= n <= hi -> parse_uint_env (dec_of_nonneg n) lo hi = Some n.
Proof.
  intros Hn Hr. unfold parse_uint_env, from_chars_u32. rewrite span_all by (apply dec_of_isdigit; lia). rewrite (bool_decide_eq_false_2 _ (dec_of_nonempty n)).
  rewrite parse_dec_of by lia. destruct (Z.leb_spec (2 ^ 32) n); [lia|]. rewrite bool_decide_eq_true_2 by done. cbn [negb orb].
  destruct (Z.ltb_spec n lo); [lia|]. by destruct (Z.ltb_spec hi n); [lia|].
Qed.

Lemma span_split f s a b : span f s = (a, b) -> s = a ++ b /\ Forall (fun c => f c = true) a.
Proof.
  revert a b. induction s as [|c s IH]; cbn; intros a b H; [by injection H as <- <-|]. destruct (f c) eqn:Ec; [|by injection H as <- <-].
  destruct (span f s) as [x y]. injection H as <- <-. destruct (IH _ _ eq_refl) as [-> Hf]. split; [done|]. by constructor.
Qed.

Lemma parse_uint_digits raw lo hi v : parse_uint_env raw lo hi = Some v -> Forall (fun b => isdigit b = true) raw /\ raw <> [] /\ v = parse_dec raw.
Proof.
  unfold parse_uint_env, from_chars_u32. destruct (span isdigit raw) as [d rest] eqn:Es. destruct (span_split _ _ _ _ Es) as [-> Hd]. case_bool_decide as Hne; [done|].
  destruct (Z.leb_spec (2 ^ 32) (parse_dec d)); [done|]. case_bool_decide as Hr; [|done]. cbn [negb orb]. destruct ((_ <? _) || _); [done|]. intros [= <-].
  rewrite Hr, app_nil_r. done.
Qed.

(** Whatever the environment says, the server gets a port that exists and a thread. *)
Lemma settings_usable b p t cores : let s := settings b p t cores in 1 <= port s <= 65535 /\ 1 <= threads s.
Proof.
  unfold settings. cbn. split; [|destruct (Z.ltb_spec (match t with Some raw => default cores (parse_uint_env raw 1 1024) | None => cores end) 1); lia].
  destruct p as [raw|]; [|lia]. destruct (parse_uint_env raw 1 65535) as [v|] eqn:E; cbn; [|lia]. by apply parse_uint_range in E.
Qed.
End Startup.

Module Chaos.

Inductive FaultType := IOError | Latency | BitFlip | NetworkDrop | MemoryPressure.

#[global] Instance FaultType_eq_dec : EqDecision FaultType.
Proof. solve_decision. Defined.

Section Chaos.
(** [float] with its order. *)
Context {F : Type} (zero one : F) (lt : F -> F -> bool).

Record State := { enabled_ : bool; probabilities_ : FaultType -> option F }.

Definition clamp (x : F) : F := if lt x zero then zero else if lt one x then one else x.

Definition set_enabled (s : State) (enabled : bool) : State := {| enabled_ := enabled; probabilities_ := probabilities_ s |}.

Definition set_probability (s : State) (type : FaultType) (p : F) : State :=
  {| enabled_ := enabled_ s; probabilities_ := fun t => if bool_decide (t = type) then Some (clamp p) else probabilities_ s t |}.

(** [sample] is what the generator draws. *)
Definition should_inject (s : State) (type : FaultType) (sample : F) : bool :=
  if negb (enabled_ s) then false else match probabilities_ s type with None => false | Some p => lt sample p end.

(** A fault is injected only when the engine is on and its probability was set, and then
    with a probability between zero and one. *)
Lemma injected_only_when_set s type sample : should_inject s type sample = true -> enabled_ s = true /\ exists p, probabilities_ s type = Some p /\ lt sample p = true.
Proof. unfold should_inject. destruct (enabled_ s); [|done]. destruct (probabilities_ s type) as [p|]; [|done]. eauto. Qed.

Lemma certain_fault s type p sample : lt one p = true -> lt p zero = false -> lt sample one = true -> enabled_ s = true ->
  should_inject (set_probability s type p) type sample = true.
Proof. intros Hp Hz Hs He. unfold should_inject, set_probability, clamp. cbn. rewrite He, bool_decide_eq_true_2, Hz, Hp by done. exact Hs. Qed.
End Chaos.
End Chaos.

Module PartiQLPrototype.

Inductive PartiQLError := InvalidSyntax | UnsupportedStatement | InternalError.

Record SelectStatement := { projection : list bytes; table_name : bytes }.

Definition parse (statement : bytes) : expected SelectStatement PartiQLError :=
  let stmt := upper_bytes statement in
  if starts_with stmt (lit "SELECT") && Backups.find_sub stmt (lit "FROM") then Ok {| projection := []; table_name := lit "MockTable" |}
  else Err UnsupportedStatement.

(** The table of the statement is never read. *)
Lemma parse_ignores_table statement s : parse statement = Ok s -> table_name s = lit "MockTable".
Proof. unfold parse. destruct (_ && _); [|done]. by intros [= <-]. Qed.
End PartiQLPrototype.
